(* ===== verification/_CoqProject ===== *)
-Q . S2P
Prelude.v
BitVector.v
BitSet.v
NodeSet.v
Expression.v
NodeMap.v
DPHyperGraph.v
DPHyperEnum.v
DPHyperPlan.v
DPHyperOrder.v
DPHyperSimplifier.v
UnionFind.v
JoinRegionSpec.v
JoinRegion.v
JoinRegionPairs.v
MemoGroups.v
Memo.v
MemoMerge.v
JoinCost.v
JoinEnumeration.v
ExpressionEquality.v
Fingerprint.v
JoinMaterialize.v
SyncPool.v
JobFactory.v
Scheduler.v
JobMachine.v
SearchState.v
SearchJobs.v
SearchRuns.v
SchedulerFrame.v
Exploration.v
ExplorationInv.v
ExplorationSteps.v
ExplorationGroups.v
ExplorationComplete.v
SearchTimeout.v
Range.v
Interval.v
ScalarExpr.v
IntervalExpr.v
IntervalScalar.v
