(* ===== verification/Prelude.v ===== *)
(** * pgorca: verification of the join-order core of the ORCA optimizer

    The repository is the ORCA query optimizer as a PostgreSQL extension: a
    memo of groups of equivalent expressions, filled by transformations that
    jobs under a scheduler apply.  This development follows three paths through
    it.  One is join enumeration (DPHyper), from the sets of nodes at the bottom
    to the joins that are put into the memo: how a tree of joins becomes a
    hypergraph, how the hypergraph is enumerated within a budget, how it is
    simplified when the budget runs out, and which joins come out.  The second is
    the search around it: the memo, the scheduler with its job pools, and the
    jobs that explore the memo.  The third, which does not depend on the others,
    is what the optimizer knows about the values of a column: intervals derived
    from predicates, their algebra, and predicates made from intervals.

    ** The parts, bottom up

    Sets and graphs:
    - [Prelude]: machine integers and their wrap-around, notation, tactics and
      the list lemmas the components share.
    - [BitVector] (libgpos/src/common/CBitVector.cpp, utils.cpp [HashByteArray]):
      fixed-size bit vectors in 64-bit words.
    - [BitSet] (CBitSet.cpp, CBitSetIter.cpp): sparse sets of [ULONG]s as a sorted
      list of bit vectors, and their iterators.
    - [NodeSet]: the class of what the clients of [CBitSet] rely on, with
      [CBitSet] as an instance and [gset] as a reference instance.  All later
      files are proved against the class.
    - [NodeMap] (CJobJoinEnumeration.cpp): the hash tables of buckets from sets of
      nodes to entries, as the finite maps they stand for.
    - [Expression] (CExpression.h, COperator.h, CLogicalJoin.h): the expression
      trees the join regions are made of.  Derived properties (output columns,
      outer references, ...) and the predicate helpers of CPredicateUtils are the
      classes [DerivedProps] and [PredicateOps]: parameters with the laws used.
    - [ExpressionEquality] (CExpression.cpp, CUtils.cpp): the comparisons of
      expression trees and their two hash functions.
    - [DPHyperGraph], [DPHyperEnum] (CDPHyperGraph.cpp): the hypergraph with its
      adjacency lists; the csg-cmp enumeration, for an arbitrary receiver.
    - [DPHyperPlan] (CDPHyperPlan.cpp): the receiver that records pairs, with its
      pair budget, its filter and its hash-bucketed set of seen node sets.
    - [DPHyperOrder] (CDPHyperOrderConstraints.cpp): the order constraints between
      edges, kept transitively closed.
    - [DPHyperSimplifier] (CDPHyperGraphSimplifier.cpp): making the graph smaller
      until its enumeration fits the budget; steps are applied, undone and
      redone.  The floating-point type of the costs is the class [Double].

    Join regions:
    - [JoinRegionSpec] (CJoinRegionSpec.cpp): the description of a join region:
      marking, atoms, edges, lateral dependencies, and the CD-C conflict rules
      with the total eligibility sets and the applicability test.
    - [UnionFind], [JoinRegion], [JoinRegionPairs] (CDPHyperJoinRegion.cpp): the
      graph of a region, the tests on a pair of node sets, the join request and
      the predicate of a pair.
    - [JoinCost] (CJobJoinEnumeration.cpp [CDPHyperJoinCostCache], CEngine.cpp):
      the cost callback of the simplifier with its cache, and the engine's
      registry of statistics.  Deriving statistics is the class [EngineStats].
    - [JoinEnumeration] (CJobJoinEnumeration.cpp): which plan is chosen.
    - [JoinMaterialize] (CJobJoinEnumeration.cpp): putting the chosen plan into
      the memo, with the groups of the subsets.
    - [Fingerprint] (CDPHyperJoinRegion.cpp [CDPHyperGraphFingerprint],
      CEngine.cpp): recognizing a region again up to a renumbering of its atoms.

    The memo:
    - [MemoGroups] (CGroup.cpp, CMemo.cpp): links between duplicate groups, and
      reachability between groups.
    - [Memo] (CMemo.cpp, CGroupExpression.cpp, CGroupProxy.cpp, CEngine.cpp):
      the hash table of group expressions and the insertion of expressions.
    - [MemoMerge] (CMemo.cpp, CGroup.cpp): rehashing the memo and merging its
      duplicate groups.

    Jobs:
    - [SyncPool] (CSyncPool.h): the pool of preallocated jobs, and the class
      [ObjectPool] of what the job factory relies on.
    - [JobFactory] (CJobFactory.cpp): a pool for each job type.
    - [Scheduler] (CJob.cpp, CJobQueue.cpp, CScheduler.cpp): jobs with parents and
      reference counts, job queues, and the loop [ExecuteJobs], for jobs that do
      anything; [SchedulerFrame]: what a round leaves alone, and the induction
      principle for a search that keeps an invariant.
    - [JobMachine] (CStateMachine.h, CJobStateMachine.h): the state machine of a
      job and the loop of a run, over a state and error monad for its actions.
    - [SearchState] (CGroup.cpp, CGroupExpression.cpp, CGroupProxy.cpp,
      CJobGroup.cpp): what the jobs see of the memo: the states of groups and
      group expressions.  The engine behind it is the class [SearchEngine].
    - [SearchJobs] (CJobGroupExploration.cpp, CJobGroupImplementation.cpp,
      CJobGroupExpressionExploration.cpp, CJobGroupExpressionImplementation.cpp,
      CJobTransformation.cpp, the shell of CJobJoinEnumeration.cpp): the jobs,
      and [run], what the scheduler runs.
    - [SearchRuns]: the runs end.
    - [Exploration], [ExplorationInv], [ExplorationSteps], [ExplorationGroups],
      [ExplorationComplete]: the exploration jobs under the scheduler; what
      complete means, the invariant between rounds, its preservation by each
      step, and the theorem.
    - [SearchTimeout]: a stage that runs out of time under a join enumeration job.

    Intervals:
    - [Range] (CRange.cpp): ranges of data between two ends, as intervals between
      cuts of the order.  Data and their comparator are the class [IDatum], what
      is assumed of them [DatumLaws]: a total order up to equality.
    - [Interval] (CConstraintInterval.cpp): arrays of ranges with a flag for null;
      union, intersection, difference, complement, containment.
    - [ScalarExpr] (CScalar*.h, CUtils.cpp, CPredicateUtils.cpp, CCastUtils.cpp):
      predicates over one column, their simplifying constructors, and what they
      evaluate to in three-valued logic.
    - [IntervalExpr] (CConstraintInterval.cpp [PciIntervalFromScalarExpr],
      CDatumSortedSet.cpp): the interval of a predicate.
    - [IntervalScalar] (CConstraintInterval.cpp [PexprConstructScalar], CRange.cpp
      [PexprScalar]): the predicate of an interval.  The metadata of comparisons
      is the class [ComparisonMetadata].

    An object is a record, a method that changes it a function that returns the
    changed record next to its answer, a class of the source the file or section
    named after it.  Names are those of the source; a helper that stands for a
    loop or a block of a method is named after what it does and mapped to the
    lines of that block.

    ** Failure and termination

    The result of a definition is an [option] where the source can access a
    vector out of range, an assert can be violated, or the fuel of a loop can run
    out: [None] is that, and the theorems prove that it does not happen on
    well-formed states.  An answer [nullptr], [std::nullopt] or [false] is a value
    of its own below that [option].  The runs of the jobs keep the two apart:
    [AssertFailed] and [OutOfFuel].  Asserts are those of the debug build.

    Fuels: the enumeration recurses over node sets that grow, so the
    number of nodes bounds its depth; [absorb_loop] runs at most once more
    than there are rules; [find_root] halves paths that are shorter than the
    number of components; the rounds of [Simplify] are bounded by
    [simplify_fuel], since each step enlarges an edge's sides; a run of a job
    makes at most as many transitions as its machine has states; the rounds of
    [ExecuteJobs] are bounded by a potential when every job has a bounded amount
    of work, and by a well-founded measure in exploration, where the
    transformations make the work.  Each of these bounds is proved sufficient,
    none is a hypothesis.

    [ULONG] arithmetic is kept at 32 bits, with its wrap-around written out,
    where a value can come near the bound (hashes, offsets, edge ids, counters);
    counters that are bounded by the length of a list in memory are plain [N].

    ** What the theorems show

    - Sets: the operations on well-formed bit vectors and sets are the set
      operations, iteration is in increasing order, equality and hashes are
      canonical; any program of set operations is refined.
    - Graph and enumeration: [AddEdge] and [ReplaceEdge] keep the graph well
      formed; the enumeration returns for any receiver and reports only
      disjoint, connected pairs, lowest node first; a plan records each pair
      once, only pairs that passed its filter, in an order in which they can be
      built, and never more than its budget.
    - Simplification: order constraints are refused exactly when they close a
      cycle; [Simplify] either fails and leaves the graph as it was, or stops at
      the step that made the enumeration fit the budget, with a graph that joins
      only what the original one joins.  The enumeration picks its representatives
      in the order of the adjacency lists, which undoing and redoing steps can
      change, so what was probed is the graph up to that order.
    - Regions: marking gives each maximal region of rebuilt joins one root and
      keeps the bindings of memo groups; the eligibility sets
      are least closures; the conflict rules never refuse an original join; the
      edges of the graph are exactly those the region calls for; the graph
      always joins the two sides of an original join; a join is requested exactly
      when it is allowed, the sides of an original join ask for that join when its
      references can be evaluated, and each conjunct of a region of inner joins is
      applied once in every join order.  Two fingerprints match exactly when a
      renumbering carries one to the other.
    - Selection: the cost cache keeps the least of the totals of a set of atoms,
      except across a total of 0, which stands for no cost in the code; choosing a
      plan always returns, and a chosen plan is complete, within its budget and
      realizable; the plan of the original tree never
      fails; materializing the chosen plan gives every subset its group.
    - Memo: insertion returns, keeps the memo well formed and loses nothing,
      finds again what it inserted, and closes no cycle of groups when the
      duplicates marked so far have been merged.  Before that the search behind
      the guard does not see the expressions of a marked duplicate, and a computed
      run closes a cycle ([Memo.unmerged_duplicate_closes_cycle]).  Merging ends
      and leaves no two equal expressions.
    - Jobs: a pool hands out no object twice; a round of the scheduler violates
      no assert and touches no released job; a queue's work is done once; the
      search ends when the jobs use up their work and do not wait in a circle.
    - Exploration: the root exploration job ends, no assert is violated, and
      everything below the root is then explored, each transformation of the
      stage applied once to each logical expression.  Assumed: no time limit, no
      DPHyper transformation in the stage, and [ExplorationLaws] of the
      transformations: their results extend a well-formed memo without closing a
      cycle, and only so many of them.  With a time limit the search may not
      end ([SearchTimeout]).
    - Intervals: the algebra of intervals is that of the sets of their values and
      keeps the arrays sorted; the interval of a predicate holds exactly the
      values for which it is true (or null, where nulls are inferred) when the
      derivation understands all of it, and at least those when parts that are
      not understood stand under conjunctions and disjunctions; below a negation
      this fails, and a theorem says how; the predicate of an interval is true
      for its values only, when the casts in it are at most binary coercible and
      its array comparison can be built or null is not in the interval, and gives
      the same values when derived again with operators that are in the operator
      families asked for.

    ** Not modelled

    Of the parts above: the greedy fallback of join enumeration and the
    registration of regions in its job; derived properties and statistics of a new
    group; the actions of the two optimization jobs (their transition tables are
    in [SearchJobs]) with optimization contexts, cost contexts and the
    extraction of plans, which compute with floating-point costs; the links of
    the scheduler's waiting list, aborts and profiling; the history and the
    diagrams of state machines.  The expressions of the memo in [Memo] and of the
    jobs in [SearchState] are two views of the same objects, which are not put
    together: a job reaches insertion through [SearchEngine] only.  Constraints
    over several columns, which combine intervals, and the equivalence classes of
    columns derived next to them.

    Memory management (reference counts of values, memory pools) has no
    counterpart: a shared object that the source does not change after sharing is
    a value.  Tracing, timing and debug printing are left out.  Outside the three
    paths: the transformations themselves, the property framework, statistics and
    cost formulas over floating-point numbers, DXL and metadata access, and the
    glue to the PostgreSQL server. *)

From Stdlib Require Export NArith Lia.
From stdpp Require Export sorting base numbers list gmap.

(** Machine integers.  [ULONG] is [uint32_t], [ULLONG] is [uint64_t]
    (libgpos/include/gpos/types.h); both are modelled by [N], and the
    wrap-around is written where the source can reach it. *)
Definition ULONG_BITS : N := 32.
Definition ULLONG_BITS : N := 64.
Definition ulong_max : N := 4294967295.

Definition wrap (w x : N) : N := (x mod 2 ^ w)%N.

Declare Scope gpos_scope.
Delimit Scope gpos_scope with gpos.
(** [x +[32] y] is the sum of two [ULONG]s, [x *[64] y] the product of two
    [ULLONG]s. *)
Notation "x +[ w ] y" := (wrap w (x + y)%N)
  (at level 50, w at level 200, left associativity) : gpos_scope.
Notation "x *[ w ] y" := (wrap w (x * y)%N)
  (at level 40, w at level 200, left associativity) : gpos_scope.
(** [v.[i]]: element [i] of a vector indexed by a machine integer; [None] out
    of range. *)
Notation "l .[ i ]" := (lookup (N.to_nat i) l)
  (at level 1, format "l .[ i ]") : gpos_scope.
Open Scope gpos_scope.

Create HintDb gpos.

(** ** Tactics *)

(** Turn boolean tests of the code into propositions, everywhere. *)
Ltac breflect :=
  repeat match goal with
  | H : (_ && _)%bool = true |- _ => apply andb_prop in H; destruct H
  | H : (_ || _)%bool = false |- _ => apply orb_false_elim in H; destruct H
  | H : negb _ = true |- _ => apply negb_true_iff in H
  | H : negb _ = false |- _ => apply negb_false_iff in H
  | H : (_ =? _)%N = true |- _ => apply N.eqb_eq in H
  | H : (_ =? _)%N = false |- _ => apply N.eqb_neq in H
  | H : (_ <? _)%N = true |- _ => apply N.ltb_lt in H
  | H : (_ <? _)%N = false |- _ => apply N.ltb_ge in H
  | H : (_ <=? _)%N = true |- _ => apply N.leb_le in H
  | H : (_ <=? _)%N = false |- _ => apply N.leb_gt in H
  | H : bool_decide _ = true |- _ => apply bool_decide_eq_true_1 in H
  | H : bool_decide _ = false |- _ => apply bool_decide_eq_false_1 in H
  end.

(** Case split on the test of the first [if] of the goal. *)
Ltac case_if :=
  match goal with |- context [if ?b then _ else _] => destruct b eqn:? end.

(** ** Booleans *)

Lemma bool_iff_eq (a b : bool) : (a = true <-> b = true) -> a = b.
Proof. destruct a, b; intuition congruence. Qed.

(** ** Arithmetic on machine integers *)

Lemma N_pow2_pos w : (0 < 2 ^ w)%N.
Proof. apply N.neq_0_lt_0, N.pow_nonzero. lia. Qed.

Lemma wrap_lt w x : (wrap w x < 2 ^ w)%N.
Proof. unfold wrap. apply N.mod_lt, N.pow_nonzero. lia. Qed.

Lemma wrap_small w x : (x < 2 ^ w)%N -> wrap w x = x.
Proof. apply N.mod_small. Qed.

Lemma N_div_mod_unique (a q r d : N) :
  (r < d)%N -> a = (d * q + r)%N -> (a / d)%N = q /\ (a mod d)%N = r.
Proof.
  intros Hr ->. split.
  - symmetry. eapply N.div_unique; [apply Hr | reflexivity].
  - symmetry. eapply N.mod_unique; [apply Hr | reflexivity].
Qed.

(** Introduce [a = d * (a / d) + a mod d] and [a mod d < d]. *)
Lemma N_div_mod_facts (a d : N) :
  d <> 0%N -> a = (d * (a / d) + a mod d)%N /\ (a mod d < d)%N.
Proof. intros Hd. split; [by apply N.div_mod | by apply N.mod_lt]. Qed.

(** Name quotient and remainder, so that [lia] keeps them as naturals. *)
Ltac div_mod a d :=
  let H1 := fresh "Hdiv" in let H2 := fresh "Hmod" in
  let q := fresh "q" in let r := fresh "r" in
  destruct (N_div_mod_facts a d ltac:(done)) as [H1 H2];
  remember (a / d)%N as q eqn:?; remember (a mod d)%N as r eqn:?.

(** ** Computations that may fail *)

(** A computation that returns, in a state that meets [Q]. *)
Definition returns {A : Type} (Q : A -> Prop) (m : option A) : Prop := exists a, m = Some a /\ Q a.

Lemma returns_bind {A B} (P : A -> Prop) (Q : B -> Prop) (m : option A) (k : A -> option B) :
  returns P m -> (forall a, P a -> returns Q (k a)) -> returns Q (m ≫= k).
Proof. intros (a & -> & Ha) Hk. by apply Hk. Qed.

Lemma returns_mono {A} (P Q : A -> Prop) (m : option A) :
  returns P m -> (forall a, P a -> Q a) -> returns Q m.
Proof. intros (a & -> & Ha) HPQ. exists a. auto. Qed.

(** ** Bits *)

Lemma testbit_ge_width w u k : (u < 2 ^ w)%N -> (w <= k)%N -> N.testbit u k = false.
Proof.
  intros Hu Hk. destruct (decide (u = 0%N)) as [->|Hz]; [apply N.bits_0|].
  apply N.bits_above_log2.
  apply N.log2_lt_pow2; [lia|]. eapply N.lt_le_trans; [apply Hu|].
  apply N.pow_le_mono_r; lia.
Qed.

Lemma N_lt_pow2_bits w u :
  (forall k, (w <= k)%N -> N.testbit u k = false) -> (u < 2 ^ w)%N.
Proof.
  intros H. destruct (decide (u = 0%N)) as [->|Hz]; [apply N_pow2_pos|].
  apply N.log2_lt_pow2; [lia|].
  destruct (N.lt_ge_cases (N.log2 u) w) as [?|Hge]; [done|].
  specialize (H _ Hge). rewrite N.bit_log2 in H by done. discriminate.
Qed.

Lemma lor_lt_pow2 w a b : (a < 2 ^ w)%N -> (b < 2 ^ w)%N -> (N.lor a b < 2 ^ w)%N.
Proof.
  intros Ha Hb. apply N_lt_pow2_bits. intros k Hk.
  rewrite N.lor_spec, !(testbit_ge_width w) by done. done.
Qed.

Lemma land_lt_pow2 w a b : (a < 2 ^ w)%N -> (N.land a b < 2 ^ w)%N.
Proof.
  intros Ha. apply N_lt_pow2_bits. intros k Hk.
  rewrite N.land_spec, (testbit_ge_width w) by done. done.
Qed.

(** The mask test [u & (1 << k)] of the code reads bit [k]. *)
Lemma land_mask_nonzero u k :
  negb (N.land u (N.shiftl 1 k) =? 0)%N = N.testbit u k.
Proof.
  apply bool_iff_eq. rewrite negb_true_iff, N.eqb_neq. split.
  - intros H. destruct (N.testbit u k) eqn:E; [done|]. exfalso. apply H.
    apply N.bits_inj. intros j. rewrite N.land_spec, N.bits_0.
    rewrite N.shiftl_1_l, N.pow2_bits_eqb.
    destruct (N.eqb_spec k j) as [->|]; [by rewrite E | by rewrite andb_false_r].
  - intros H E. assert (N.testbit (N.land u (N.shiftl 1 k)) k = false) as F
      by by rewrite E, N.bits_0.
    rewrite N.land_spec, H, N.shiftl_1_l, N.pow2_bits_true in F. done.
Qed.

(** ** Lists *)

Lemma lookup_N_lt {A} (l : list A) (i : N) x :
  l.[i] = Some x -> (i < N.of_nat (length l))%N.
Proof. intros H%lookup_lt_Some. lia. Qed.

(** Strictly increasing lists are determined by their elements. *)
Lemma sorted_lt_unique (l1 l2 : list N) :
  StronglySorted N.lt l1 -> StronglySorted N.lt l2 ->
  (forall x, x ∈ l1 <-> x ∈ l2) -> l1 = l2.
Proof.
  revert l2. induction l1 as [|x l1 IH]; intros l2 H1 H2 He.
  - destruct l2 as [|y l2]; [done|]. exfalso.
    eapply not_elem_of_nil, He. left.
  - inversion_clear H1 as [|? ? Hs1 Hf1].
    destruct l2 as [|y l2]; [exfalso; eapply not_elem_of_nil, He; left|].
    inversion_clear H2 as [|? ? Hs2 Hf2].
    rewrite Forall_forall in Hf1. rewrite Forall_forall in Hf2.
    assert (x = y) as ->.
    { assert (x ∈ y :: l2) as Hx by (apply He; left).
      assert (y ∈ x :: l1) as Hy by (apply He; left).
      apply elem_of_cons in Hx as [->|Hx]; [done|].
      apply elem_of_cons in Hy as [->|Hy]; [done|].
      specialize (Hf1 y Hy). specialize (Hf2 x Hx). simpl in *. lia. }
    f_equal. apply IH; [done..|]. intros z. split; intros Hz.
    + assert (z ∈ y :: l2) as [->|?]%elem_of_cons by (apply He; by right); [|done].
      specialize (Hf1 y Hz). simpl in *; lia.
    + assert (z ∈ y :: l1) as [->|?]%elem_of_cons by (apply He; by right); [|done].
      specialize (Hf2 y Hz). simpl in *; lia.
Qed.

Lemma sorted_lt_NoDup (l : list N) : StronglySorted N.lt l -> NoDup l.
Proof.
  induction 1 as [|x l Hs IH Hf]; [constructor|]. constructor; [|done].
  rewrite Forall_forall in Hf. intros Hin. specialize (Hf x Hin). simpl in *; lia.
Qed.

Lemma StronglySorted_app_lt (l1 l2 : list N) :
  StronglySorted N.lt l1 -> StronglySorted N.lt l2 ->
  (forall x y, x ∈ l1 -> y ∈ l2 -> (x < y)%N) ->
  StronglySorted N.lt (l1 ++ l2).
Proof.
  induction 1 as [|x l1 Hs IH Hf]; intros H2 Hlt; simpl; [done|].
  constructor.
  - apply IH; [done|]. intros a b Ha Hb. apply Hlt; [by right | done].
  - apply Forall_app. split; [done|]. apply Forall_forall. intros y Hy.
    apply Hlt; [left | done].
Qed.

Lemma seq_sorted n m : StronglySorted N.lt (N.of_nat <$> seq n m).
Proof.
  revert n. induction m as [|m IH]; intros n; simpl; [constructor|].
  constructor; [apply IH|]. apply Forall_fmap, Forall_forall. intros x Hx%elem_of_seq.
  simpl. lia.
Qed.

(** ** Finite sets *)

Lemma union_singleton_mem (p : N) (X : gset N) : p ∈ X -> {[p]} ∪ X = X.
Proof. set_solver. Qed.

Lemma size_union_singleton (p : N) (X : gset N) :
  p ∉ X -> size ({[p]} ∪ X) = S (size X).
Proof. intros. rewrite size_union, size_singleton by set_solver. done. Qed.

Lemma size_difference_singleton (p : N) (X : gset N) :
  p ∈ X -> S (size (X ∖ {[p]})) = size X.
Proof.
  intros Hp. assert (X = {[p]} ∪ X ∖ {[p]}) as E.
  { apply set_eq. intros x. destruct (decide (x = p)); set_solver. }
  rewrite E at 2. rewrite size_union_singleton; [done|set_solver].
Qed.

Lemma difference_singleton_not_mem (p : N) (X : gset N) : p ∉ X -> X ∖ {[p]} = X.
Proof. set_solver. Qed.

(** A set of numbers below [n] has at most [n] elements. *)
Lemma size_below (n : N) (X : gset N) : (forall v, v ∈ X -> (v < n)%N) -> size X <= N.to_nat n.
Proof.
  intros HX. transitivity (size (list_to_set (N.of_nat <$> seq 0 (N.to_nat n)) : gset N)).
  - apply subseteq_size. intros v Hv%HX. apply elem_of_list_to_set, list_elem_of_fmap.
    exists (N.to_nat v). rewrite elem_of_seq. lia.
  - rewrite size_list_to_set; [by rewrite length_fmap, length_seq|].
    apply sorted_lt_NoDup, seq_sorted.
Qed.

Lemma union_nonempty_l (X Y : gset N) : X <> ∅ -> X ∪ Y <> ∅.
Proof. intros HX [? _]%empty_union_L. done. Qed.

Lemma union_nonempty_r (X Y : gset N) : Y <> ∅ -> X ∪ Y <> ∅.
Proof. intros HY [_ ?]%empty_union_L. done. Qed.

Lemma strict_subset_intro (X Y Z : gset N) : X ⊆ Y -> Z ⊆ Y -> ~ Z ⊆ X -> X ⊂ Y.
Proof. intros HX HZ HZX. split; [done|]. intros HY. apply HZX. by etrans. Qed.

Lemma not_disjoint_elem (X Y : gset N) : ~ X ## Y -> exists x, x ∈ X /\ x ∈ Y.
Proof.
  intros Hd. destruct (decide (X ∩ Y = ∅)) as [He|He].
  - by apply disjoint_intersection_L in He.
  - apply set_choose_L in He as [x [? ?]%elem_of_intersection]. by exists x.
Qed.
