(* ===== verification/BitVector.v ===== *)
(** * CBitVector: the static bit vector of libgpos

    Model of libgpos/src/common/CBitVector.cpp.  A vector is an array of
    64-bit units; a method [CBitVector::m] is the definition [CBitVector_m],
    and a method that mutates the vector returns the new one.  The meaning of
    a vector is the test [bv_test v p] of bit [p]; every operation is
    specified by it, and the word-level loops ([GetNextSetBit],
    [CountSetBits]) by the increasing list [bv_bits] of the set positions. *)

From S2P Require Import Prelude.

Open Scope N_scope.

(** ** Data and operations *)

Definition BYTES_PER_UNIT : N := 8.
Definition BITS_PER_UNIT : N := Eval cbv in 8 * BYTES_PER_UNIT.

Record CBitVector := MkBitVector {
  m_nbits : N;      (* size in bits *)
  m_len : N;        (* size in units *)
  m_vec : list N    (* the units *)
}.

Definition set_vec (v : CBitVector) (us : list N) : CBitVector :=
  MkBitVector (m_nbits v) (m_len v) us.

(** [m_vec[idx]]; 0 out of range, where the source is undefined. *)
Definition unit_at (v : CBitVector) (idx : N) : N := default 0 (m_vec v).[idx].

(** [((ULLONG) 1) << (pos % BITS_PER_UNIT)] *)
Definition bit_mask (pos : N) : N := N.shiftl 1 (pos mod BITS_PER_UNIT).

Definition CBitVector_Clear (v : CBitVector) : CBitVector :=
  set_vec v (replicate (N.to_nat (m_len v)) 0).

Definition CBitVector_New (nbits : N) : CBitVector :=
  let len := nbits / BITS_PER_UNIT in
  let len := if len * BITS_PER_UNIT <? nbits then len + 1 else len in
  CBitVector_Clear (MkBitVector nbits len []).

Definition CBitVector_Copy (v : CBitVector) : CBitVector :=
  MkBitVector (m_nbits v) (m_len v) (take (N.to_nat (m_len v)) (m_vec v)).

Definition CBitVector_Get (v : CBitVector) (pos : N) : bool :=
  negb (N.land (unit_at v (pos / BITS_PER_UNIT)) (bit_mask pos) =? 0).

Definition CBitVector_ExchangeSet (v : CBitVector) (pos : N) : CBitVector * bool :=
  let fSet := CBitVector_Get v pos in
  (set_vec v (alter (fun u => N.lor u (bit_mask pos))
                    (N.to_nat (pos / BITS_PER_UNIT)) (m_vec v)), fSet).

Definition CBitVector_ExchangeClear (v : CBitVector) (pos : N) : CBitVector * bool :=
  let fSet := CBitVector_Get v pos in
  (set_vec v (alter (fun u => N.land u (N.lnot (bit_mask pos) ULLONG_BITS))
                    (N.to_nat (pos / BITS_PER_UNIT)) (m_vec v)), fSet).

Definition CBitVector_Or (v w : CBitVector) : CBitVector :=
  set_vec v (zip_with N.lor (m_vec v) (m_vec w)).

Definition CBitVector_And (v w : CBitVector) : CBitVector :=
  set_vec v (zip_with N.land (m_vec v) (m_vec w)).

Definition CBitVector_ContainsAll (v w : CBitVector) : bool :=
  forallb (fun '(a, b) => N.land a b =? b) (zip (m_vec v) (m_vec w)).

Definition CBitVector_IsDisjoint (v w : CBitVector) : bool :=
  forallb (fun '(a, b) => N.land a b =? 0) (zip (m_vec v) (m_vec w)).

(** [Memcmp] of the two unit arrays. *)
Definition CBitVector_Equals (v w : CBitVector) : bool :=
  bool_decide (m_vec v = m_vec w).

Definition CBitVector_IsEmpty (v : CBitVector) : bool :=
  forallb (fun u => u =? 0) (m_vec v).

(** The inner loop [while (0 != ull && 0 == (ull & 1)) { ull >>= 1; bit++; }];
    64 iterations empty any 64-bit unit. *)
Fixpoint scan_unit (fuel : nat) (ull bit : N) : N * N :=
  match fuel with
  | O => (ull, bit)
  | S fuel =>
    if negb (ull =? 0) && (N.land ull 1 =? 0)
    then scan_unit fuel (N.shiftr ull 1) (bit + 1)
    else (ull, bit)
  end.

(** The outer loop over the units from [idx]; the offset applies only to the
    first chunk. *)
Fixpoint next_set_from (units : list N) (idx offset : N) : option N :=
  match units with
  | [] => None
  | u :: units =>
    let '(ull, bit) := scan_unit (N.to_nat ULLONG_BITS) (N.shiftr u offset) offset in
    if negb (ull =? 0) then Some (bit + idx * BITS_PER_UNIT)
    else next_set_from units (idx + 1) 0
  end.

Definition CBitVector_GetNextSetBit (v : CBitVector) (start_pos : N) : option N :=
  let idx := start_pos / BITS_PER_UNIT in
  next_set_from (drop (N.to_nat idx) (m_vec v)) idx (start_pos mod BITS_PER_UNIT).

(** [for (j = 0; ull != 0; j++) ull &= (ull - 1);] *)
Fixpoint count_unit (fuel : nat) (ull j : N) : N :=
  match fuel with
  | O => j
  | S fuel =>
    if negb (ull =? 0) then count_unit fuel (N.land ull (ull - 1)) (j + 1) else j
  end.

Definition CBitVector_CountSetBits (v : CBitVector) : N :=
  fold_left (fun nbits u => nbits + count_unit (N.to_nat ULLONG_BITS) u 0)
    (m_vec v) 0.

(** gpos::HashByteArray on an array of whole 64-bit words (the only way a bit
    vector calls it: [size] is [8 * m_len], so the tail loop does not run). *)
Definition FNV_OFFSET : N := 0xcbf29ce484222325.
Definition FNV_PRIME : N := 0x100000001b3.

Definition HashWords (words : list N) (size : N) : N :=
  let h := fold_left (fun h word => N.lxor h word *[64] FNV_PRIME) words
             (N.lxor FNV_OFFSET size) in
  wrap 32 (N.lxor h (N.shiftr h 32)).

Definition CBitVector_HashValue (v : CBitVector) : N :=
  HashWords (m_vec v) (wrap 32 (8 * m_len v)).

(** ** Meaning and well-formedness *)

Definition bv_test (v : CBitVector) (p : N) : bool :=
  N.testbit (unit_at v (p / BITS_PER_UNIT)) (p mod BITS_PER_UNIT).

(** A vector is well formed when its array has [m_len] 64-bit units, just
    enough for [m_nbits] bits, and no bit beyond [m_nbits] is set. *)
Record bv_wf (v : CBitVector) : Prop := {
  wf_len : length (m_vec v) = N.to_nat (m_len v);
  wf_units : Forall (fun u => u < 2 ^ ULLONG_BITS) (m_vec v);
  wf_size : m_nbits v <= BITS_PER_UNIT * m_len v < m_nbits v + BITS_PER_UNIT;
  wf_pad : forall p, bv_test v p = true -> p < m_nbits v
}.

(** Linear arithmetic with the unit size known. *)
Ltac ulia := unfold BITS_PER_UNIT, ULLONG_BITS in *; lia.

(** ** Reading units *)

Section units.
(** The test of a bare unit array, positions relative to its start. *)
Definition utest (us : list N) (q : N) : bool :=
  N.testbit (default 0 us.[q / BITS_PER_UNIT]) (q mod BITS_PER_UNIT).

Lemma bv_test_utest v p : bv_test v p = utest (m_vec v) p.
Proof. done. Qed.

Lemma utest_nil q : utest [] q = false.
Proof. unfold utest. rewrite lookup_nil. apply N.bits_0. Qed.

Lemma utest_head u us q : q < BITS_PER_UNIT -> utest (u :: us) q = N.testbit u q.
Proof.
  intros Hq. unfold utest. rewrite N.div_small, N.mod_small by done. done.
Qed.

Lemma utest_drop us (i q : N) :
  utest (drop (N.to_nat i) us) q = utest us (q + i * BITS_PER_UNIT).
Proof.
  unfold utest. rewrite lookup_drop, N.div_add, N.Div0.mod_add by done.
  do 3 f_equal. lia.
Qed.

Lemma utest_tail u us q : utest (u :: us) (q + BITS_PER_UNIT) = utest us q.
Proof.
  replace (q + BITS_PER_UNIT) with (q + 1 * BITS_PER_UNIT) by lia.
  rewrite <-utest_drop. done.
Qed.

Lemma utest_true_lt us q :
  utest us q = true -> q < BITS_PER_UNIT * N.of_nat (length us).
Proof.
  unfold utest. destruct (us.[q / BITS_PER_UNIT]) as [u|] eqn:E; cbn [default].
  - intros _. apply lookup_N_lt in E.
    div_mod q BITS_PER_UNIT.
    ulia.
  - rewrite N.bits_0. done.
Qed.

(** A unit-wise operation acts bit-wise. *)
Lemma utest_zip_with (f : N -> N -> N) (g : bool -> bool -> bool) us ws q :
  length us = length ws ->
  (forall a b k, N.testbit (f a b) k = g (N.testbit a k) (N.testbit b k)) ->
  g false false = false ->
  utest (zip_with f us ws) q = g (utest us q) (utest ws q).
Proof.
  intros Hl Hf Hg. unfold utest. rewrite lookup_zip_with.
  destruct (us.[q / BITS_PER_UNIT]) as [u|] eqn:Eu; cbn [default mbind option_bind].
  - destruct (lookup_lt_is_Some_2 ws (N.to_nat (q / BITS_PER_UNIT))) as [w Ew].
    { rewrite <-Hl. by eapply lookup_lt_Some. }
    rewrite Ew. cbn [default mbind option_bind]. apply Hf.
  - apply lookup_ge_None in Eu. rewrite Hl in Eu. apply lookup_ge_None in Eu.
    rewrite Eu. cbn [default]. by rewrite N.bits_0, Hg.
Qed.

(** A unit-wise check is a check of every bit. *)
Lemma forallb_zip_utest (f : N -> N -> bool) (R : bool -> bool -> bool) us ws :
  length us = length ws ->
  (forall a b, f a b = true <-> forall k, R (N.testbit a k) (N.testbit b k) = true) ->
  R false false = true ->
  Forall (fun u => u < 2 ^ ULLONG_BITS) us -> Forall (fun u => u < 2 ^ ULLONG_BITS) ws ->
  forallb (fun '(a, b) => f a b) (zip us ws) = true <->
  forall q, R (utest us q) (utest ws q) = true.
Proof.
  intros Hl Hf HR. revert ws Hl. induction us as [|u us IH]; intros [|w ws] Hl Hu Hw; try done.
  inversion_clear Hu as [|? ? Hu0 Hus]. inversion_clear Hw as [|? ? Hw0 Hws].
  simpl. rewrite andb_true_iff, Hf, IH by (done || (simpl in Hl; lia)). split.
  - intros [Hh Ht] q. destruct (N.lt_ge_cases q BITS_PER_UNIT) as [Hq|Hq].
    + rewrite !utest_head by done. apply Hh.
    + replace q with (q - BITS_PER_UNIT + BITS_PER_UNIT) by lia.
      rewrite !utest_tail. apply Ht.
  - intros H. split.
    + intros k. destruct (N.lt_ge_cases k BITS_PER_UNIT) as [Hk|Hk].
      * rewrite <-(utest_head u us), <-(utest_head w ws) by done. apply H.
      * rewrite !(testbit_ge_width ULLONG_BITS) by done. done.
    + intros q. specialize (H (q + BITS_PER_UNIT)). by rewrite !utest_tail in H.
Qed.
End units.

(** ** Effect of the point operations *)

Lemma Get_bv_test v p : CBitVector_Get v p = bv_test v p.
Proof. apply land_mask_nonzero. Qed.

Lemma bv_wf_idx v p :
  bv_wf v -> p < m_nbits v -> (N.to_nat (p / BITS_PER_UNIT) < length (m_vec v))%nat.
Proof.
  intros Hwf Hp. rewrite (wf_len v Hwf). pose proof (wf_size v Hwf) as Hs.
  div_mod p BITS_PER_UNIT. ulia.
Qed.

(** Updating one unit changes the bits of that unit only. *)
Lemma bv_test_alter v f i p :
  bv_test (set_vec v (alter f (N.to_nat i) (m_vec v))) p =
  if decide (p / BITS_PER_UNIT = i)
  then N.testbit (default 0 (f <$> (m_vec v).[i])) (p mod BITS_PER_UNIT)
  else bv_test v p.
Proof.
  unfold bv_test, unit_at, set_vec. simpl. case_decide as Hd.
  - subst i. by rewrite list_lookup_alter_eq.
  - rewrite list_lookup_alter_ne; [done|]. lia.
Qed.

Lemma div_mod_inj p q :
  p / BITS_PER_UNIT = q / BITS_PER_UNIT -> p mod BITS_PER_UNIT = q mod BITS_PER_UNIT ->
  p = q.
Proof.
  intros. div_mod p BITS_PER_UNIT. div_mod q BITS_PER_UNIT. congruence.
Qed.

Lemma bit_mask_testbit q k :
  N.testbit (bit_mask q) k = bool_decide (k = q mod BITS_PER_UNIT).
Proof.
  unfold bit_mask. rewrite N.shiftl_1_l, N.pow2_bits_eqb.
  apply bool_iff_eq. rewrite N.eqb_eq, bool_decide_eq_true. split; congruence.
Qed.

Lemma bit_mask_lt q : bit_mask q < 2 ^ ULLONG_BITS.
Proof.
  apply N_lt_pow2_bits. intros k Hk. rewrite bit_mask_testbit.
  apply bool_decide_eq_false. pose proof (N.mod_lt q BITS_PER_UNIT ltac:(done)).
  ulia.
Qed.

Lemma ExchangeSet_test v p q :
  bv_wf v -> p < m_nbits v ->
  bv_test (CBitVector_ExchangeSet v p).1 q = bool_decide (q = p) || bv_test v q.
Proof.
  intros Hwf Hp. unfold CBitVector_ExchangeSet; simpl. rewrite bv_test_alter.
  case_decide as Hd.
  - destruct (lookup_lt_is_Some_2 _ _ (bv_wf_idx v p Hwf Hp)) as [u Hu].
    rewrite Hu; simpl. rewrite N.lor_spec, bit_mask_testbit.
    unfold bv_test, unit_at. rewrite Hd, Hu. simpl.
    rewrite orb_comm. f_equal. apply bool_decide_ext.
    split; [|congruence]. intros; by apply div_mod_inj.
  - rewrite bool_decide_eq_false_2; [done|]. congruence.
Qed.

Lemma ExchangeClear_test v p q :
  bv_wf v -> bv_test (CBitVector_ExchangeClear v p).1 q =
  negb (bool_decide (q = p)) && bv_test v q.
Proof.
  intros Hwf. unfold CBitVector_ExchangeClear; simpl. rewrite bv_test_alter.
  case_decide as Hd.
  - unfold bv_test, unit_at. rewrite Hd.
    destruct ((m_vec v).[p / BITS_PER_UNIT]) as [u|] eqn:Hu; simpl;
      [|by rewrite andb_false_r].
    rewrite N.land_spec, N.lnot_spec_low, bit_mask_testbit, andb_comm.
    2: { pose proof (N.mod_lt q BITS_PER_UNIT ltac:(done)). done. }
    do 2 f_equal. apply bool_decide_ext.
    split; [|congruence]. intros; by apply div_mod_inj.
  - rewrite (bool_decide_eq_false_2 (q = p)); [done|]. congruence.
Qed.

Lemma New_test n q : bv_test (CBitVector_New n) q = false.
Proof.
  unfold bv_test, CBitVector_New, CBitVector_Clear, set_vec, unit_at. cbn [m_vec].
  destruct (_.[_]) as [u|] eqn:E; cbn [default]; [|apply N.bits_0].
  apply lookup_replicate in E as [-> _]. apply N.bits_0.
Qed.

(** ** Bulk operations *)

(** Two vectors of the same shape, as the asserts of [Or], [And],
    [ContainsAll], [IsDisjoint] and [Equals] require. *)
Definition same_shape (v w : CBitVector) : Prop :=
  m_nbits v = m_nbits w /\ m_len v = m_len w.

Lemma same_shape_length v w :
  bv_wf v -> bv_wf w -> same_shape v w -> length (m_vec v) = length (m_vec w).
Proof. intros Hv Hw [_ H]. by rewrite (wf_len v Hv), (wf_len w Hw), H. Qed.

Lemma Or_test v w q :
  bv_wf v -> bv_wf w -> same_shape v w ->
  bv_test (CBitVector_Or v w) q = bv_test v q || bv_test w q.
Proof.
  intros. rewrite !bv_test_utest. apply utest_zip_with; [|apply N.lor_spec|done].
  by apply same_shape_length.
Qed.

Lemma And_test v w q :
  bv_wf v -> bv_wf w -> same_shape v w ->
  bv_test (CBitVector_And v w) q = bv_test v q && bv_test w q.
Proof.
  intros. rewrite !bv_test_utest. apply utest_zip_with; [|apply N.land_spec|done].
  by apply same_shape_length.
Qed.

Lemma land_eqb_bits a b :
  (N.land a b =? b) = true <-> forall k, implb (N.testbit b k) (N.testbit a k) = true.
Proof.
  rewrite N.eqb_eq. split.
  - intros E k. apply (f_equal (fun n => N.testbit n k)) in E. rewrite N.land_spec in E.
    by destruct (N.testbit a k), (N.testbit b k).
  - intros H. apply N.bits_inj. intros k. specialize (H k). rewrite N.land_spec.
    by destruct (N.testbit a k), (N.testbit b k).
Qed.

Lemma land_eqb_0_bits a b :
  (N.land a b =? 0) = true <-> forall k, negb (N.testbit a k && N.testbit b k) = true.
Proof.
  rewrite N.eqb_eq. split.
  - intros E k. apply (f_equal (fun n => N.testbit n k)) in E.
    rewrite N.land_spec, N.bits_0 in E. by rewrite E.
  - intros H. apply N.bits_inj. intros k. specialize (H k).
    rewrite N.land_spec, N.bits_0. by apply negb_true_iff.
Qed.

Lemma ContainsAll_test v w :
  bv_wf v -> bv_wf w -> same_shape v w ->
  CBitVector_ContainsAll v w = true <->
  forall q, bv_test w q = true -> bv_test v q = true.
Proof.
  intros Hv Hw Hs. unfold CBitVector_ContainsAll.
  rewrite (forallb_zip_utest _ (fun a b => implb b a)); [|by apply same_shape_length
    |apply land_eqb_bits|done|by apply wf_units..].
  setoid_rewrite implb_true_iff. done.
Qed.

Lemma IsDisjoint_test v w :
  bv_wf v -> bv_wf w -> same_shape v w ->
  CBitVector_IsDisjoint v w = true <->
  forall q, bv_test v q = true -> bv_test w q = true -> False.
Proof.
  intros Hv Hw Hs. unfold CBitVector_IsDisjoint.
  rewrite (forallb_zip_utest _ (fun a b => negb (a && b))); [|by apply same_shape_length
    |apply land_eqb_0_bits|done|by apply wf_units..].
  apply forall_proper. intros q. rewrite !bv_test_utest.
  destruct (utest (m_vec v) q), (utest (m_vec w) q); simpl; intuition congruence.
Qed.

(** Unit arrays of the same length are equal exactly when their bits are. *)
Lemma units_ext us ws :
  length us = length ws ->
  Forall (fun u => u < 2 ^ ULLONG_BITS) us -> Forall (fun u => u < 2 ^ ULLONG_BITS) ws ->
  (forall q, utest us q = utest ws q) -> us = ws.
Proof.
  revert ws. induction us as [|u us IH]; intros [|w ws] Hl Hu Hw H; try done.
  inversion_clear Hu as [|? ? Hu0 Hus]. inversion_clear Hw as [|? ? Hw0 Hws]. f_equal.
  - apply N.bits_inj. intros k. destruct (N.lt_ge_cases k BITS_PER_UNIT) as [Hk|Hk].
    + rewrite <-(utest_head u us), <-(utest_head w ws) by done. apply H.
    + rewrite !(testbit_ge_width ULLONG_BITS) by done. done.
  - apply IH; [by injection Hl|done..|]. intros q.
    specialize (H (q + BITS_PER_UNIT)). by rewrite !utest_tail in H.
Qed.

(** A well-formed vector is determined by its size and its bits: [Equals]
    (a memory comparison) decides equality of the sets. *)
Lemma bv_ext v w :
  bv_wf v -> bv_wf w -> same_shape v w -> (forall q, bv_test v q = bv_test w q) -> v = w.
Proof.
  intros Hv Hw Hs H. pose proof (same_shape_length v w Hv Hw Hs) as Hl.
  destruct Hs as [Hn Hm]. destruct v, w; simpl in *. subst. f_equal.
  apply units_ext; [done|apply (wf_units _ Hv)|apply (wf_units _ Hw)|apply H].
Qed.

Lemma Equals_test v w :
  bv_wf v -> bv_wf w -> same_shape v w ->
  CBitVector_Equals v w = true <-> forall q, bv_test v q = bv_test w q.
Proof.
  intros Hv Hw Hs. unfold CBitVector_Equals. rewrite bool_decide_eq_true. split.
  - intros E q. by rewrite !bv_test_utest, E.
  - intros H. by rewrite (bv_ext v w Hv Hw Hs H).
Qed.

Lemma IsEmpty_test v :
  bv_wf v -> CBitVector_IsEmpty v = true <-> forall q, bv_test v q = false.
Proof.
  intros Hv. unfold CBitVector_IsEmpty. rewrite forallb_forall.
  setoid_rewrite <-list_elem_of_In. split.
  - intros H q. unfold bv_test, unit_at.
    destruct (_.[_]) as [u|] eqn:E; [|apply N.bits_0].
    apply list_elem_of_lookup_2, H, N.eqb_eq in E. subst. apply N.bits_0.
  - intros H u Hu. apply N.eqb_eq. apply N.bits_inj_0. intros k.
    apply list_elem_of_lookup in Hu as [i Hi].
    destruct (N.lt_ge_cases k BITS_PER_UNIT) as [Hk|Hk].
    + specialize (H (BITS_PER_UNIT * N.of_nat i + k)). unfold bv_test, unit_at in H.
      destruct (N_div_mod_unique (BITS_PER_UNIT * N.of_nat i + k) (N.of_nat i) k
                  BITS_PER_UNIT Hk eq_refl) as [E1 E2].
      by rewrite E1, E2, Nat2N.id, Hi in H.
    + apply (testbit_ge_width ULLONG_BITS); [|done].
      pose proof (wf_units v Hv) as Hw. rewrite Forall_forall in Hw. apply Hw.
      by eapply list_elem_of_lookup_2.
Qed.

(** ** Well-formedness *)

Lemma New_wf n : bv_wf (CBitVector_New n).
Proof.
  split.
  - simpl. apply length_replicate.
  - simpl. apply Forall_replicate. done.
  - unfold CBitVector_New, CBitVector_Clear, set_vec. cbn [m_nbits m_len]. div_mod n BITS_PER_UNIT.
    unfold BITS_PER_UNIT in *. case_if; breflect; lia.
  - intros p. by rewrite New_test.
Qed.

Lemma set_vec_wf v us :
  bv_wf v -> length us = length (m_vec v) ->
  Forall (fun u => u < 2 ^ ULLONG_BITS) us ->
  (forall p, bv_test (set_vec v us) p = true -> p < m_nbits v) ->
  bv_wf (set_vec v us).
Proof.
  intros Hv Hl Hu Hp. split; simpl; [|done|apply (wf_size v Hv)|done].
  rewrite Hl. apply (wf_len v Hv).
Qed.

Lemma Forall_alter_lt f i us :
  (forall u, u < 2 ^ ULLONG_BITS -> f u < 2 ^ ULLONG_BITS) ->
  Forall (fun u => u < 2 ^ ULLONG_BITS) us ->
  Forall (fun u => u < 2 ^ ULLONG_BITS) (alter f i us).
Proof.
  intros Hf Hu. apply Forall_alter; [done|]. intros x Hx _. apply Hf.
  rewrite Forall_lookup in Hu. by eapply Hu.
Qed.

Lemma ExchangeSet_wf v p :
  bv_wf v -> p < m_nbits v -> bv_wf (CBitVector_ExchangeSet v p).1.
Proof.
  intros Hv Hp. apply set_vec_wf; [done|apply length_alter| |].
  - apply Forall_alter_lt; [|apply (wf_units v Hv)]. intros u Hu.
    apply lor_lt_pow2; [done|apply bit_mask_lt].
  - intros q. change (set_vec v _) with (CBitVector_ExchangeSet v p).1.
    rewrite ExchangeSet_test by done.
    intros [?%bool_decide_eq_true|?]%orb_prop; [by subst|by apply wf_pad].
Qed.

Lemma ExchangeClear_wf v p : bv_wf v -> bv_wf (CBitVector_ExchangeClear v p).1.
Proof.
  intros Hv. apply set_vec_wf; [done|apply length_alter| |].
  - apply Forall_alter_lt; [|apply (wf_units v Hv)]. intros u Hu.
    by apply land_lt_pow2.
  - intros q. change (set_vec v _) with (CBitVector_ExchangeClear v p).1.
    rewrite ExchangeClear_test by done. intros [_ ?]%andb_prop. by apply wf_pad.
Qed.

Lemma zip_with_wf v w f :
  bv_wf v -> bv_wf w -> same_shape v w ->
  (forall a b, a < 2 ^ ULLONG_BITS -> b < 2 ^ ULLONG_BITS -> f a b < 2 ^ ULLONG_BITS) ->
  (forall q, bv_test (set_vec v (zip_with f (m_vec v) (m_vec w))) q = true ->
             bv_test v q = true \/ bv_test w q = true) ->
  bv_wf (set_vec v (zip_with f (m_vec v) (m_vec w))).
Proof.
  intros Hv Hw Hs Hf Ht. apply set_vec_wf; [done| | |].
  - rewrite length_zip_with, <-(same_shape_length v w) by done. lia.
  - apply Forall_lookup. intros i u (a & b & -> & Ha & Hb)%lookup_zip_with_Some.
    pose proof (wf_units v Hv) as Hvu. pose proof (wf_units w Hw) as Hwu.
    rewrite Forall_lookup in Hvu. rewrite Forall_lookup in Hwu. eauto.
  - intros q [?|?]%Ht; [by apply wf_pad|]. destruct Hs as [-> _]. by apply wf_pad.
Qed.

Lemma Or_wf v w : bv_wf v -> bv_wf w -> same_shape v w -> bv_wf (CBitVector_Or v w).
Proof.
  intros. apply zip_with_wf; [done..|by intros; apply lor_lt_pow2|].
  intros q. rewrite (Or_test v w) by done. apply orb_prop.
Qed.

Lemma And_wf v w : bv_wf v -> bv_wf w -> same_shape v w -> bv_wf (CBitVector_And v w).
Proof.
  intros. apply zip_with_wf; [done..|by intros; apply land_lt_pow2|].
  intros q. rewrite (And_test v w) by done. intros [? _]%andb_prop. by left.
Qed.

(** ** GetNextSetBit *)

Lemma land_1_odd u : (N.land u 1 =? 0) = negb (N.testbit u 0).
Proof.
  rewrite <-(land_mask_nonzero u 0). change (N.shiftl 1 0) with 1.
  by rewrite negb_involutive.
Qed.

(** The inner loop stops at the first set bit. *)
Lemma scan_unit_spec fuel ull bit :
  ull < 2 ^ N.of_nat fuel -> ull <> 0 ->
  exists k, (scan_unit fuel ull bit).2 = bit + k /\ (scan_unit fuel ull bit).1 <> 0 /\
    N.testbit ull k = true /\ forall j, j < k -> N.testbit ull j = false.
Proof.
  revert ull bit. induction fuel as [|fuel IH]; intros ull bit Hb Hz.
  { simpl in Hb. lia. }
  cbn [scan_unit]. rewrite (proj2 (N.eqb_neq _ _) Hz), land_1_odd. cbn [negb andb].
  destruct (N.testbit ull 0) eqn:E0; cbn [negb].
  - exists 0. simpl. repeat split; [lia|done|done|]. intros; lia.
  - assert (Hs : forall j, N.testbit (N.shiftr ull 1) j = N.testbit ull (j + 1))
      by (intros; by rewrite N.shiftr_spec').
    destruct (IH (N.shiftr ull 1) (bit + 1)) as (k & H2 & H1 & Hk & Hj).
    + apply N_lt_pow2_bits. intros j Hj. rewrite Hs.
      apply (testbit_ge_width (N.of_nat (S fuel))); [done|lia].
    + intros Hz'. apply Hz. apply N.bits_inj_0. intros j.
      destruct (decide (j = 0)) as [->|Hj0]; [done|].
      replace j with ((j - 1) + 1) by lia. rewrite <-Hs, Hz'. apply N.bits_0.
    + exists (k + 1). rewrite H2, <-Hs. repeat split; [lia|done|done|].
      intros j Hj'. destruct (decide (j = 0)) as [->|Hj0]; [done|].
      replace j with ((j - 1) + 1) by lia. rewrite <-Hs. apply Hj. lia.
Qed.

Lemma scan_unit_0 fuel bit : (scan_unit fuel 0 bit).1 = 0.
Proof. by destruct fuel. Qed.

(** The position found by a scan from [start], or the absence of one. *)
Definition next_spec (test : N -> bool) (start : N) (r : option N) : Prop :=
  match r with
  | Some p => start <= p /\ test p = true /\ forall q, start <= q < p -> test q = false
  | None => forall q, start <= q -> test q = false
  end.

Lemma next_set_from_spec us idx off :
  Forall (fun u => u < 2 ^ ULLONG_BITS) us -> off < BITS_PER_UNIT ->
  next_spec (fun p => utest us (p - idx * BITS_PER_UNIT)) (off + idx * BITS_PER_UNIT)
    (next_set_from us idx off).
Proof.
  revert idx off. induction us as [|u us IH]; intros idx off Hu Hoff.
  { simpl. intros. apply utest_nil. }
  inversion_clear Hu as [|? ? Hu0 Hus]. cbn [next_set_from].
  assert (Hs : forall j, N.testbit (N.shiftr u off) j = N.testbit u (j + off))
    by (intros; by rewrite N.shiftr_spec').
  destruct (decide (N.shiftr u off = 0)) as [Hz|Hz].
  - rewrite (surjective_pairing (scan_unit _ _ _)), Hz, scan_unit_0. cbn [N.eqb negb].
    assert (Hh : forall q, off <= q < BITS_PER_UNIT -> utest (u :: us) q = false).
    { intros q Hq. rewrite utest_head by ulia. replace q with ((q - off) + off) by ulia.
      rewrite <-Hs, Hz. apply N.bits_0. }
    specialize (IH (idx + 1) 0 Hus ltac:(done)).
    assert (Hsh : forall q, (idx + 1) * BITS_PER_UNIT <= q ->
      utest (u :: us) (q - idx * BITS_PER_UNIT) = utest us (q - (idx + 1) * BITS_PER_UNIT)).
    { intros q Hq. rewrite <-(utest_tail u us). f_equal. ulia. }
    destruct (next_set_from us (idx + 1) 0) as [p|]; simpl in IH |- *.
    + destruct IH as (Hle & Ht & Hn). repeat split; [ulia| |].
      * rewrite Hsh by ulia. done.
      * intros q Hq. destruct (N.lt_ge_cases q ((idx + 1) * BITS_PER_UNIT)).
        -- apply Hh. ulia.
        -- rewrite Hsh by ulia. apply Hn. ulia.
    + intros q Hq. destruct (N.lt_ge_cases q ((idx + 1) * BITS_PER_UNIT)).
      * apply Hh. ulia.
      * rewrite Hsh by ulia. apply IH. ulia.
  - destruct (scan_unit_spec (N.to_nat ULLONG_BITS) (N.shiftr u off) off)
      as (k & H2 & H1 & Hk & Hj); [|done|].
    { apply N_lt_pow2_bits. intros j Hj. rewrite Hs.
      apply (testbit_ge_width ULLONG_BITS); [done|]. ulia. }
    destruct (scan_unit _ _ _) as [ull bit]. simpl in H1, H2. subst bit.
    rewrite (proj2 (N.eqb_neq _ _) H1). cbn [negb next_spec].
    rewrite Hs in Hk. assert (Hlt : k + off < BITS_PER_UNIT).
    { destruct (N.lt_ge_cases (k + off) BITS_PER_UNIT); [done|].
      rewrite (testbit_ge_width ULLONG_BITS) in Hk; done. }
    repeat split; [ulia| |].
    + replace (_ - _) with (k + off) by ulia. by rewrite utest_head.
    + intros q Hq. rewrite utest_head by ulia.
      replace (q - idx * BITS_PER_UNIT)
        with ((q - idx * BITS_PER_UNIT - off) + off) by ulia.
      rewrite <-Hs. apply Hj. ulia.
Qed.

(** [GetNextSetBit] finds the smallest set bit at or after the position. *)
Lemma GetNextSetBit_spec v start :
  bv_wf v -> next_spec (bv_test v) start (CBitVector_GetNextSetBit v start).
Proof.
  intros Hv. unfold CBitVector_GetNextSetBit.
  pose proof (next_set_from_spec (drop (N.to_nat (start / BITS_PER_UNIT)) (m_vec v))
    (start / BITS_PER_UNIT) (start mod BITS_PER_UNIT)
    (Forall_drop _ _ _ (wf_units v Hv)) (N.mod_lt start BITS_PER_UNIT ltac:(done))) as H.
  div_mod start BITS_PER_UNIT.
  assert (Hst : r + q * BITS_PER_UNIT = start) by ulia. rewrite Hst in H.
  assert (Hd : forall p, start <= p ->
    utest (drop (N.to_nat q) (m_vec v)) (p - q * BITS_PER_UNIT) = bv_test v p).
  { intros p Hp. rewrite utest_drop, bv_test_utest. f_equal. ulia. }
  destruct (next_set_from _ _ _) as [p|]; simpl in H |- *.
  - destruct H as (Hle & Ht & Hn). repeat split; [done|by rewrite <-Hd|].
    intros x Hx. rewrite <-Hd by ulia. by apply Hn.
  - intros x Hx. rewrite <-Hd by ulia. by apply H.
Qed.

(** ** CountSetBits *)

Fixpoint pos_popcount (p : positive) : N :=
  match p with
  | xH => 1
  | xO p => pos_popcount p
  | xI p => 1 + pos_popcount p
  end.

Definition popcount (u : N) : N := match u with N0 => 0 | Npos p => pos_popcount p end.

(** [u & (u - 1)] drops exactly one set bit. *)
Lemma popcount_clear_lowest u :
  u <> 0 -> popcount (N.land u (u - 1)) + 1 = popcount u.
Proof.
  destruct u as [|p]; [done|]. intros _. induction p as [p IH|p IH|]; [| |done].
  - replace (Npos p~1 - 1) with (2 * Npos p) by lia.
    replace (N.land (Npos p~1) (2 * Npos p)) with (2 * Npos p); [apply N.add_comm|].
    apply N.bits_inj. intros k. rewrite N.land_spec.
    destruct (decide (k = 0)) as [->|Hk]; [by rewrite N.testbit_even_0, andb_false_r|].
    replace k with (N.succ (k - 1)) by lia.
    change (Npos p~1) with (2 * Npos p + 1).
    rewrite N.testbit_odd_succ, N.testbit_even_succ by lia. by destruct (N.testbit _ _).
  - replace (N.land (Npos p~0) (Npos p~0 - 1)) with (2 * N.land (Npos p) (Npos p - 1)).
    { change (popcount (Npos p~0)) with (popcount (Npos p)). rewrite <-IH. f_equal.
      by destruct (N.land (Npos p) (Npos p - 1)). }
    apply N.bits_inj. intros k. rewrite N.land_spec.
    change (Npos p~0) with (2 * Npos p).
    destruct (decide (k = 0)) as [->|Hk]; [by rewrite !N.testbit_even_0|].
    replace k with (N.succ (k - 1)) by lia.
    replace (2 * Npos p - 1) with (2 * (Npos p - 1) + 1) by lia.
    rewrite N.testbit_odd_succ, !N.testbit_even_succ by lia. apply N.land_spec.
Qed.

Lemma popcount_step u : popcount u = N.b2n (N.testbit u 0) + popcount (u / 2).
Proof.
  rewrite <-N.div2_div. destruct u as [|[p|p|]]; simpl; lia.
Qed.

Lemma popcount_le w u : u < 2 ^ N.of_nat w -> popcount u <= N.of_nat w.
Proof.
  revert u. induction w as [|w IH]; intros u Hu.
  { simpl in Hu. replace u with 0 by lia. done. }
  rewrite popcount_step. assert (popcount (u / 2) <= N.of_nat w).
  { apply IH. apply N.Div0.div_lt_upper_bound.
    replace (N.of_nat (S w)) with (N.succ (N.of_nat w)) in Hu by lia.
    by rewrite N.pow_succ_r' in Hu. }
  destruct (N.testbit u 0); simpl; lia.
Qed.

Lemma popcount_0 u : popcount u = 0 -> u = 0.
Proof.
  destruct u as [|p]; [done|]. simpl. intros H. exfalso. induction p; simpl in H; lia.
Qed.

Lemma count_unit_spec fuel u j :
  popcount u <= N.of_nat fuel -> count_unit fuel u j = j + popcount u.
Proof.
  revert u j. induction fuel as [|fuel IH]; intros u j Hf.
  { simpl. lia. }
  cbn [count_unit]. destruct (N.eqb_spec u 0) as [->|Hz]; cbn [negb]; [simpl; lia|].
  pose proof (popcount_clear_lowest u Hz). rewrite IH by lia. lia.
Qed.

(** The set positions of a unit, and of an array of units, in order. *)
Definition unit_bits (u : N) : list N :=
  filter (fun b => N.testbit u b = true) (N.of_nat <$> seq 0 (N.to_nat BITS_PER_UNIT)).

Fixpoint units_bits (us : list N) (base : N) : list N :=
  match us with
  | [] => []
  | u :: us => ((fun b => base + b) <$> unit_bits u) ++ units_bits us (base + BITS_PER_UNIT)
  end.

Definition bv_bits (v : CBitVector) : list N := units_bits (m_vec v) 0.

Lemma length_filter_fmap_S u n :
  length (filter (fun b => N.testbit u b = true) (N.of_nat <$> (S <$> seq 0 n))) =
  length (filter (fun b => N.testbit (u / 2) b = true) (N.of_nat <$> seq 0 n)).
Proof.
  generalize (seq 0 n). intros l. induction l as [|x l IH]; [done|].
  rewrite !fmap_cons, !filter_cons.
  replace (N.testbit u (N.of_nat (S x))) with (N.testbit (u / 2) (N.of_nat x)).
  2: { rewrite <-N.div2_div, N.div2_spec, N.shiftr_spec'. f_equal. lia. }
  case_decide; simpl; by rewrite IH.
Qed.

Lemma popcount_seq n u :
  u < 2 ^ N.of_nat n ->
  N.of_nat (length (filter (fun b => N.testbit u b = true) (N.of_nat <$> seq 0 n))) =
  popcount u.
Proof.
  revert u. induction n as [|n IH]; intros u Hu.
  { simpl in Hu. replace u with 0 by lia. done. }
  rewrite popcount_step. cbn [seq]. rewrite fmap_cons, filter_cons.
  rewrite <-seq_shift. change (map S (seq 0 n)) with (S <$> seq 0 n).
  rewrite <-IH.
  2: { apply N.Div0.div_lt_upper_bound.
       replace (N.of_nat (S n)) with (N.succ (N.of_nat n)) in Hu by lia.
       by rewrite N.pow_succ_r' in Hu. }
  rewrite <-length_filter_fmap_S. change (N.of_nat 0) with 0.
  destruct (N.testbit u 0); case_decide; try done; simpl; lia.
Qed.

Lemma unit_bits_count u :
  u < 2 ^ ULLONG_BITS -> count_unit (N.to_nat ULLONG_BITS) u 0 = N.of_nat (length (unit_bits u)).
Proof.
  intros Hu. unfold unit_bits. rewrite popcount_seq by done.
  apply count_unit_spec. by apply popcount_le.
Qed.

Lemma elem_of_unit_bits u b :
  b ∈ unit_bits u <-> b < BITS_PER_UNIT /\ N.testbit u b = true.
Proof.
  unfold unit_bits. rewrite list_elem_of_filter, list_elem_of_fmap. split.
  - intros [Ht (i & -> & Hi%elem_of_seq)]. split; [ulia|done].
  - intros [Hb Ht]. split; [done|]. exists (N.to_nat b). split; [lia|].
    apply elem_of_seq. ulia.
Qed.

Lemma elem_of_units_bits us base p :
  p ∈ units_bits us base <-> base <= p /\ utest us (p - base) = true.
Proof.
  revert base. induction us as [|u us IH]; intros base; simpl.
  { rewrite utest_nil. split; [intros []%not_elem_of_nil|intros [_ ?]; done]. }
  rewrite elem_of_app, list_elem_of_fmap, IH. setoid_rewrite elem_of_unit_bits. split.
  - intros [(b & -> & Hb & Ht)|[Hle Ht]].
    + split; [lia|]. rewrite N.add_comm, N.add_sub. by rewrite utest_head.
    + split; [ulia|]. rewrite <-Ht, <-(utest_tail u us). f_equal. ulia.
  - intros [Hle Ht]. destruct (N.lt_ge_cases (p - base) BITS_PER_UNIT) as [Hp|Hp].
    + left. exists (p - base). rewrite utest_head in Ht by done. split_and!; [lia|done|done].
    + right. split; [lia|]. rewrite <-Ht, <-(utest_tail u us). f_equal. ulia.
Qed.

Lemma elem_of_bv_bits v p : p ∈ bv_bits v <-> bv_test v p = true.
Proof.
  unfold bv_bits. rewrite elem_of_units_bits, N.sub_0_r. split; [by intros [_ ?]|].
  split; [lia|done].
Qed.

Lemma StronglySorted_filter_lt (P : N -> Prop) `{!forall x, Decision (P x)} l :
  StronglySorted N.lt l -> StronglySorted N.lt (filter P l).
Proof.
  induction 1 as [|x l Hs IH Hf]; [constructor|]. rewrite filter_cons. case_decide; [|done].
  constructor; [done|]. apply Forall_forall. intros y [_ Hy]%list_elem_of_filter.
  rewrite Forall_forall in Hf. by apply Hf.
Qed.

Lemma StronglySorted_shift (k : N) l :
  StronglySorted N.lt l -> StronglySorted N.lt ((fun b => k + b) <$> l).
Proof.
  induction 1 as [|x l Hs IH Hf]; [constructor|]. constructor; [done|].
  apply Forall_fmap. eapply Forall_impl; [apply Hf|]. intros y Hy. simpl in *. lia.
Qed.

Lemma units_bits_sorted us base : StronglySorted N.lt (units_bits us base).
Proof.
  revert base. induction us as [|u us IH]; intros base; simpl; [constructor|].
  apply StronglySorted_app_lt; [|apply IH|].
  - apply StronglySorted_shift, StronglySorted_filter_lt, seq_sorted.
  - intros x y Hx Hy%elem_of_units_bits.
    apply list_elem_of_fmap in Hx as (b & -> & [Hb _]%elem_of_unit_bits). ulia.
Qed.

Lemma bv_bits_sorted v : StronglySorted N.lt (bv_bits v).
Proof. apply units_bits_sorted. Qed.

Lemma fold_count us base n :
  Forall (fun u => u < 2 ^ ULLONG_BITS) us ->
  fold_left (fun nbits u => nbits + count_unit (N.to_nat ULLONG_BITS) u 0) us n =
  n + N.of_nat (length (units_bits us base)).
Proof.
  intros Hu. revert base n. induction Hu as [|u us Hu0 Hus IH]; intros base n.
  { simpl. lia. }
  cbn [fold_left units_bits]. rewrite (IH (base + BITS_PER_UNIT)), unit_bits_count by done.
  rewrite length_app, length_fmap. lia.
Qed.

(** [CountSetBits] (the [ull &= ull - 1] loop) counts the set positions. *)
Lemma CountSetBits_spec v :
  bv_wf v -> CBitVector_CountSetBits v = N.of_nat (length (bv_bits v)).
Proof.
  intros Hv. unfold CBitVector_CountSetBits. by rewrite (fold_count _ 0) by by apply wf_units.
Qed.

#[export] Hint Resolve New_wf ExchangeSet_wf ExchangeClear_wf Or_wf And_wf : gpos.

(** ** Properties *)

(** [GetNextSetBit] finds the first set bit at or after the start position:
    what it returns is set and no bit between is; [None] means that no later
    bit is set.  In particular its loops over units and bits end. *)
Theorem GetNextSetBit_least v start (Hv : bv_wf v) :
  match CBitVector_GetNextSetBit v start with
  | Some p => start <= p < m_nbits v /\ CBitVector_Get v p = true /\
              forall q, start <= q < p -> CBitVector_Get v q = false
  | None => forall q, start <= q -> CBitVector_Get v q = false
  end.
Proof.
  pose proof (GetNextSetBit_spec v start Hv) as Hn.
  destruct (CBitVector_GetNextSetBit v start) as [p|]; setoid_rewrite Get_bv_test; [|done].
  destruct Hn as (? & Hp & ?). split_and!; [done|by apply wf_pad|done|done].
Qed.

(** The 70-bit vector with bits 3 and 65. *)
Definition sample_vector : CBitVector :=
  (CBitVector_ExchangeSet (CBitVector_ExchangeSet (CBitVector_New 70) 3).1 65).1.

Lemma sample_vector_wf : bv_wf sample_vector.
Proof. apply ExchangeSet_wf; [apply ExchangeSet_wf; [apply New_wf|done]|done]. Qed.

Lemma GetNextSetBit_least_witness :
  CBitVector_GetNextSetBit sample_vector 4 = Some 65 /\
  forall q, 4 <= q < 65 -> CBitVector_Get sample_vector q = false.
Proof.
  split; [vm_compute; reflexivity|]. intros q Hq.
  exact (proj2 (proj2 (GetNextSetBit_least sample_vector 4 sample_vector_wf)) q Hq).
Defined.

(** [CountSetBits], which clears the lowest set bit of each unit until none
    is left, returns the number of positions that [Get] reads as set: the length
    of the strictly increasing list of them. *)
Theorem CountSetBits_positions v (Hv : bv_wf v) :
  exists positions, StronglySorted N.lt positions /\
    (forall p, p ∈ positions <-> CBitVector_Get v p = true) /\
    CBitVector_CountSetBits v = N.of_nat (length positions).
Proof.
  exists (bv_bits v). split_and!; [apply bv_bits_sorted| |by apply CountSetBits_spec].
  intros p. rewrite Get_bv_test. apply elem_of_bv_bits.
Qed.

Lemma CountSetBits_positions_witness :
  exists positions, (forall p, p ∈ positions <-> CBitVector_Get sample_vector p = true) /\
    2 = N.of_nat (length positions).
Proof.
  destruct (CountSetBits_positions sample_vector sample_vector_wf) as (ps & _ & Hp & Hc).
  exists ps. split; [exact Hp|]. rewrite <-Hc. vm_compute. reflexivity.
Defined.
