(* ===== verification/BitSet.v ===== *)
(** * CBitSet and CBitSetIter: sparse bit sets of libgpos

    Model of libgpos/src/common/CBitSet.cpp and CBitSetIter.cpp.  A set is a
    list of links, each a bit vector of [m_vector_size] bits at an offset; the
    links are kept in increasing offset order and no link is empty.  A link
    pointer is an index into the list ([None] for [nullptr]); the cursor of
    [FindLinkByOffset], which the bulk operations move through the list, is
    kept as it is in the source.  The refinement: every operation on a
    well-formed set is the operation on the finite set [bs_set] of its
    positions, a well-formed set is determined by its positions, and the
    iterator visits them in increasing order. *)

From S2P Require Import Prelude BitVector.

Open Scope N_scope.

(** ** Data *)

Record CBitSetLink := MkLink {
  m_offset : N;
  link_vec : CBitVector
}.

Record CBitSet := MkBitSet {
  m_bsllist : list CBitSetLink;
  m_vector_size : N;
  m_size : N
}.

(** [CBitSetLink(mp, offset, vector_size)] *)
Definition CBitSetLink_New (offset vector_size : N) : CBitSetLink :=
  MkLink offset (CBitVector_New vector_size).

Definition CBitSetLink_Copy (l : CBitSetLink) : CBitSetLink :=
  MkLink (m_offset l) (CBitVector_Copy (link_vec l)).

Definition link_set_vec (l : CBitSetLink) (v : CBitVector) : CBitSetLink :=
  MkLink (m_offset l) v.

(** CList::Append(elem, prev_elem) and Prepend, on the index of [prev_elem]. *)
Definition list_insert_after (prev : option nat) (x : CBitSetLink)
    (links : list CBitSetLink) : list CBitSetLink :=
  match prev with
  | None => x :: links
  | Some i => take (S i) links ++ x :: drop (S i) links
  end.

(** ** FindLinkByOffset *)

Fixpoint find_link_loop (rest : list CBitSetLink) (offset : N)
    (found : option nat) (cursor : nat) : option nat :=
  match rest with
  | [] => found
  | l :: rest =>
    if offset <? m_offset l then found
    else find_link_loop rest offset (Some cursor) (S cursor)
  end.

Definition FindLinkByOffset (links : list CBitSetLink) (offset : N)
    (bsl : option nat) : option nat :=
  match bsl with
  | None => find_link_loop links offset None 0
  | Some i => find_link_loop (drop i links) offset (Some i) i
  end.

(** [nullptr != bsl && bsl->GetOffset() == offset]: the link, when it is hit. *)
Definition link_hit (links : list CBitSetLink) (bsl : option nat) (offset : N)
    : option CBitSetLink :=
  match bsl with
  | None => None
  | Some i =>
    match links !! i with
    | Some l => if m_offset l =? offset then Some l else None
    | None => None
    end
  end.

Definition ComputeOffset (vector_size ul : N) : N :=
  (ul / vector_size) * vector_size.

Definition RecomputeSize (links : list CBitSetLink) : N :=
  fold_left (fun n l => n + CBitVector_CountSetBits (link_vec l)) links 0.

(** [Clear] removes the links from the front. *)
Definition CBitSet_Clear (bs : CBitSet) : CBitSet :=
  MkBitSet [] (m_vector_size bs) (RecomputeSize []).

(** ** Point operations *)

Definition CBitSet_New (vector_size : N) : CBitSet := MkBitSet [] vector_size 0.

Definition CBitSet_Size (bs : CBitSet) : N := m_size bs.

Definition CBitSet_Get (bs : CBitSet) (pos : N) : bool :=
  let offset := ComputeOffset (m_vector_size bs) pos in
  match link_hit (m_bsllist bs) (FindLinkByOffset (m_bsllist bs) offset None) offset with
  | Some l => CBitVector_Get (link_vec l) (pos - offset)
  | None => false
  end.

Definition CBitSet_ExchangeSet (bs : CBitSet) (pos : N) : CBitSet * bool :=
  let links := m_bsllist bs in
  let offset := ComputeOffset (m_vector_size bs) pos in
  let bsl := FindLinkByOffset links offset None in
  let '(links, i, l) :=
    match link_hit links bsl offset with
    | Some l => (links, default 0%nat bsl, l)
    | None =>
      let l := CBitSetLink_New offset (m_vector_size bs) in
      (list_insert_after bsl l links,
       match bsl with None => 0%nat | Some i => S i end, l)
    end in
  let '(v, bit) := CBitVector_ExchangeSet (link_vec l) (pos - offset) in
  (MkBitSet (<[i := link_set_vec l v]> links) (m_vector_size bs)
     (if bit then m_size bs else m_size bs + 1), bit).

Definition CBitSet_ExchangeClear (bs : CBitSet) (pos : N) : CBitSet * bool :=
  let links := m_bsllist bs in
  let offset := ComputeOffset (m_vector_size bs) pos in
  let bsl := FindLinkByOffset links offset None in
  match link_hit links bsl offset with
  | Some l =>
    let i := default 0%nat bsl in
    let '(v, bit) := CBitVector_ExchangeClear (link_vec l) (pos - offset) in
    let links := if CBitVector_IsEmpty v then delete i links
                 else <[i := link_set_vec l v]> links in
    (MkBitSet links (m_vector_size bs) (if bit then m_size bs - 1 else m_size bs), bit)
  | None => (bs, false)
  end.

(** ** Bulk operations *)

(** Union, step 1: copies of the other set's links that are missing here. *)
Fixpoint union_missing (links others : list CBitSetLink) (bsl : option nat)
    : list CBitSetLink :=
  match others with
  | [] => []
  | o :: others =>
    let bsl := FindLinkByOffset links (m_offset o) bsl in
    match link_hit links bsl (m_offset o) with
    | Some _ => union_missing links others bsl
    | None => CBitSetLink_Copy o :: union_missing links others bsl
    end
  end.

(** Union, step 2: insert the new links. *)
Fixpoint union_insert (links news : list CBitSetLink) (bsl : option nat)
    : list CBitSetLink :=
  match news with
  | [] => links
  | n :: news =>
    let bsl := FindLinkByOffset links (m_offset n) bsl in
    union_insert (list_insert_after bsl n links) news bsl
  end.

(** Union, step 3: union all links, old and new. *)
Fixpoint union_or (links others : list CBitSetLink) (bsl_other : option nat)
    : list CBitSetLink :=
  match links with
  | [] => []
  | l :: links =>
    let bsl_other := FindLinkByOffset others (m_offset l) bsl_other in
    match link_hit others bsl_other (m_offset l) with
    | Some o => link_set_vec l (CBitVector_Or (link_vec l) (link_vec o))
    | None => l
    end :: union_or links others bsl_other
  end.

Definition CBitSet_Union (bs other : CBitSet) : CBitSet :=
  let news := union_missing (m_bsllist bs) (m_bsllist other) None in
  let links := union_insert (m_bsllist bs) news None in
  let links := union_or links (m_bsllist other) None in
  MkBitSet links (m_vector_size bs) (RecomputeSize links).

(** [CBitSet(mp, bs)]: an empty set of the same vector size, then [Union]. *)
Definition CBitSet_Copy (bs : CBitSet) : CBitSet :=
  CBitSet_Union (CBitSet_New (m_vector_size bs)) bs.

Fixpoint inter_loop (links others : list CBitSetLink) (bsl_other : option nat)
    : list CBitSetLink :=
  match links with
  | [] => []
  | l :: links =>
    let bsl_other := FindLinkByOffset others (m_offset l) bsl_other in
    match link_hit others bsl_other (m_offset l) with
    | Some o =>
      let v := CBitVector_And (link_vec l) (link_vec o) in
      if CBitVector_IsEmpty v then inter_loop links others bsl_other
      else link_set_vec l v :: inter_loop links others bsl_other
    | None => inter_loop links others bsl_other
    end
  end.

Definition CBitSet_Intersect (bs other : CBitSet) : CBitSet :=
  let links := inter_loop (m_bsllist bs) (m_bsllist other) None in
  MkBitSet links (m_vector_size bs) (RecomputeSize links).

(** The method takes a pointer and leaves the set alone on [nullptr]. *)
Definition CBitSet_Intersection (bs : CBitSet) (pbsOther : option CBitSet) : CBitSet :=
  match pbsOther with
  | None => bs
  | Some other => CBitSet_Intersect bs other
  end.

Fixpoint contains_loop (links others : list CBitSetLink) (bsl : option nat) : bool :=
  match others with
  | [] => true
  | o :: others =>
    let bsl := FindLinkByOffset links (m_offset o) bsl in
    match link_hit links bsl (m_offset o) with
    | Some l => CBitVector_ContainsAll (link_vec l) (link_vec o) &&
                contains_loop links others bsl
    | None => false
    end
  end.

Definition CBitSet_ContainsAll (bs other : CBitSet) : bool :=
  if CBitSet_Size bs <? CBitSet_Size other then false
  else contains_loop (m_bsllist bs) (m_bsllist other) None.

Fixpoint disjoint_loop (links others : list CBitSetLink) (bsl : option nat) : bool :=
  match others with
  | [] => true
  | o :: others =>
    let bsl := FindLinkByOffset links (m_offset o) bsl in
    match link_hit links bsl (m_offset o) with
    | Some l => CBitVector_IsDisjoint (link_vec l) (link_vec o) &&
                disjoint_loop links others bsl
    | None => disjoint_loop links others bsl
    end
  end.

Definition CBitSet_IsDisjoint (bs other : CBitSet) : bool :=
  disjoint_loop (m_bsllist bs) (m_bsllist other) None.

Fixpoint equals_loop (links others : list CBitSetLink) : bool :=
  match links, others with
  | [], [] => true
  | l :: links, o :: others =>
    (m_offset l =? m_offset o) && CBitVector_Equals (link_vec l) (link_vec o) &&
    equals_loop links others
  | _, _ => false
  end.

Definition CBitSet_Equals (bs other : CBitSet) : bool :=
  if negb (CBitSet_Size bs =? CBitSet_Size other) then false
  else equals_loop (m_bsllist bs) (m_bsllist other).

(** gpos::CombineHashes *)
Definition CombineHashes (hash1 hash2 : N) : N :=
  let h := N.lor (N.shiftl hash1 32) hash2 in
  let h := N.lxor h FNV_OFFSET *[64] FNV_PRIME in
  wrap 32 (N.lxor h (N.shiftr h 32)).

(** gpos::HashValue of a [ULONG]: [HashByteArray] on its four bytes, lowest
    first; the loop over whole words does not run. *)
Definition HashULONG (value : N) : N :=
  let bytes := (fun i => N.land (N.shiftr value (8 * i)) 255) <$> [0; 1; 2; 3] in
  let h := fold_left (fun h byte => N.lxor h byte *[64] FNV_PRIME) bytes (N.lxor FNV_OFFSET 4) in
  wrap 32 (N.lxor h (N.shiftr h 32)).

Definition CBitSet_HashValue (bs : CBitSet) : N :=
  fold_left (fun h l => CombineHashes h (CBitVector_HashValue (link_vec l)))
    (m_bsllist bs) 0.

(** ** The iterator *)

Record CBitSetIter := MkIter {
  it_cursor : N;            (* m_cursor *)
  it_bsl : option nat;      (* m_bsl *)
  it_active : bool          (* m_active *)
}.

Definition CBitSetIter_New : CBitSetIter := MkIter ulong_max None true.

(** The loop over the links from the current one; the cursor is a [ULONG] whose
    initial value [(ULONG) -1] wraps to 0. *)
Fixpoint advance_loop (vector_size : N) (rest : list CBitSetLink) (idx : nat) (cursor : N)
    : option (nat * N) :=
  match rest with
  | [] => None
  | l :: rest =>
    let start := cursor +[32] 1 in
    match (if start <=? vector_size
           then CBitVector_GetNextSetBit (link_vec l) start else None) with
    | Some c => Some (idx, c)
    | None => advance_loop vector_size rest (S idx) ulong_max
    end
  end.

Definition CBitSetIter_Advance (bs : CBitSet) (it : CBitSetIter) : CBitSetIter * bool :=
  let first := default 0%nat (it_bsl it) in
  match advance_loop (m_vector_size bs) (drop first (m_bsllist bs)) first (it_cursor it) with
  | Some (i, c) => (MkIter c (Some i) true, true)
  | None => (MkIter ulong_max None false, false)
  end.

Definition CBitSetIter_Bit (bs : CBitSet) (it : CBitSetIter) : N :=
  match it_bsl it with
  | Some i => match m_bsllist bs !! i with
              | Some l => m_offset l + it_cursor it
              | None => 0
              end
  | None => 0
  end.

(** [while (iter.Advance()) bits.push_back(iter.Bit());] *)
Fixpoint iter_collect (fuel : nat) (bs : CBitSet) (it : CBitSetIter) : list N :=
  match fuel with
  | O => []
  | S fuel =>
    let '(it, more) := CBitSetIter_Advance bs it in
    if more then CBitSetIter_Bit bs it :: iter_collect fuel bs it else []
  end.

(** One round per element and one to find the end. *)
Definition CBitSet_bits (bs : CBitSet) : list N :=
  iter_collect (S (N.to_nat (CBitSet_Size bs))) bs CBitSetIter_New.

Definition CBitSet_Difference (bs other : CBitSet) : CBitSet :=
  if CBitSet_IsDisjoint bs other then bs
  else fold_left (fun s pos => (CBitSet_ExchangeClear s pos).1) (CBitSet_bits other) bs.

(** ** Meaning and well-formedness *)

(** Position [p] is in link [l]. *)
Definition link_test (l : CBitSetLink) (p : N) : bool :=
  (m_offset l <=? p) && bv_test (link_vec l) (p - m_offset l).

Definition links_bits (links : list CBitSetLink) : list N :=
  links ≫= fun l => (fun b => m_offset l + b) <$> bv_bits (link_vec l).

(** The set a [CBitSet] stands for. *)
Definition bs_set (bs : CBitSet) : gset N := list_to_set (links_bits (m_bsllist bs)).

Definition offsets (links : list CBitSetLink) : list N := m_offset <$> links.

Record link_wf (vs : N) (l : CBitSetLink) : Prop := {
  lwf_vec : bv_wf (link_vec l);
  lwf_size : m_nbits (link_vec l) = vs;
  lwf_offset : exists k, m_offset l = k * vs;
  lwf_nonempty : exists b, bv_test (link_vec l) b = true
}.

Record links_wf (vs : N) (links : list CBitSetLink) : Prop := {
  lswf_sorted : StronglySorted N.lt (offsets links);
  lswf_links : Forall (link_wf vs) links
}.

Record bs_wf (bs : CBitSet) : Prop := {
  bswf_vs : 0 < m_vector_size bs <= ulong_max;
  bswf_links : links_wf (m_vector_size bs) (m_bsllist bs);
  bswf_size : m_size bs = N.of_nat (length (links_bits (m_bsllist bs)))
}.

Section links.
Context (vs : N).
Implicit Types (links others : list CBitSetLink).

(** The first link at an offset: what [FindLinkByOffset] looks for. *)
Definition llookup links (off : N) : option CBitSetLink :=
  list_find (fun l => m_offset l = off) links ≫= fun '(_, l) => Some l.

(** Offsets identify links. *)
Lemma sorted_offset_index links i j l l' :
  StronglySorted N.lt (offsets links) -> links !! i = Some l -> links !! j = Some l' ->
  m_offset l = m_offset l' -> i = j.
Proof.
  intros Hs Hi Hj He. apply sorted_lt_NoDup in Hs. unfold offsets in Hs.
  eapply (NoDup_lookup _ i j (m_offset l)); [done|..];
    rewrite list_lookup_fmap; [by rewrite Hi|by rewrite Hj, He].
Qed.

Lemma sorted_offset_inj links l l' :
  StronglySorted N.lt (offsets links) -> l ∈ links -> l' ∈ links ->
  m_offset l = m_offset l' -> l = l'.
Proof.
  intros Hs [i Hi]%list_elem_of_lookup [j Hj]%list_elem_of_lookup He.
  assert (i = j) as -> by by eapply sorted_offset_index. congruence.
Qed.

Lemma llookup_Some links off l :
  links_wf vs links -> llookup links off = Some l <-> l ∈ links /\ m_offset l = off.
Proof.
  intros [Hs _]. unfold llookup. split.
  - intros ([i l'] & (Hl & Ho & _)%list_find_Some & [= ->])%bind_Some.
    split; [by eapply list_elem_of_lookup_2|done].
  - intros [Hl Ho].
    destruct (list_find (fun l => m_offset l = off) links) as [[i l']|] eqn:E; simpl.
    2: { apply list_find_None in E. rewrite Forall_forall in E. exfalso. by eapply E. }
    apply list_find_Some in E as (Hi & Ho' & _). f_equal.
    apply (sorted_offset_inj links); [done|by eapply list_elem_of_lookup_2|done|congruence].
Qed.

Lemma llookup_None links off :
  llookup links off = None <-> forall l, l ∈ links -> m_offset l <> off.
Proof.
  unfold llookup. destruct (list_find _ links) as [[i l']|] eqn:E; simpl.
  - apply list_find_Some in E as (Hi & Ho & _). split; [done|]. intros H. exfalso.
    eapply H; [|apply Ho]. by eapply list_elem_of_lookup_2.
  - apply list_find_None in E. rewrite Forall_forall in E. split; [|done].
    intros _ l Hl. by apply E.
Qed.

(** A cursor is valid for an offset when it is null or at a link before it. *)
Definition cursor_ok links (bsl : option nat) (off : N) : Prop :=
  match bsl with
  | None => True
  | Some i => exists l, links !! i = Some l /\ m_offset l <= off
  end.

(** Where [FindLinkByOffset] stops: the last link at or before the offset. *)
Definition find_stop links (off : N) (r : option nat) : Prop :=
  let n := match r with None => 0%nat | Some i => S i end in
  (n <= length links)%nat /\
  (forall i l, (i < n)%nat -> links !! i = Some l -> m_offset l <= off) /\
  (forall i l, (n <= i)%nat -> links !! i = Some l -> off < m_offset l).

Lemma sorted_lookup_lt links i j l l' :
  StronglySorted N.lt (offsets links) -> (i < j)%nat ->
  links !! i = Some l -> links !! j = Some l' -> m_offset l < m_offset l'.
Proof.
  revert i j. induction links as [|x links IH]; intros i j Hs Hij Hi Hj; [done|].
  apply StronglySorted_inv in Hs as [Hs Hf].
  destruct j as [|j]; [lia|]. destruct i as [|i]; simpl in *.
  - injection Hi as ->. rewrite Forall_forall in Hf. apply Hf, list_elem_of_fmap.
    exists l'. split; [done|]. by eapply list_elem_of_lookup_2.
  - eapply (IH i j); [done|lia|done..].
Qed.

Lemma find_link_loop_stop links rest off found cursor :
  StronglySorted N.lt (offsets links) ->
  drop cursor links = rest -> (cursor <= length links)%nat ->
  (forall i l, (i < cursor)%nat -> links !! i = Some l -> m_offset l <= off) ->
  match found with
  | None => cursor = 0%nat
  | Some f => cursor = S f \/ (cursor = f /\ exists l, links !! f = Some l /\ m_offset l <= off)
  end ->
  find_stop links off (find_link_loop rest off found cursor).
Proof.
  intros Hs. revert found cursor.
  induction rest as [|x rest IH]; intros found cursor Hd Hle Hb Hf; simpl.
  - assert (Hlen : length links = cursor).
    { apply (f_equal length) in Hd. rewrite length_drop in Hd. simpl in Hd. lia. }
    assert (Hge : forall i l, (cursor <= i)%nat -> links !! i = Some l -> off < m_offset l).
    { intros i l Hi Hl%lookup_lt_Some. lia. }
    destruct found as [f|]; [|subst; by split_and!].
    destruct Hf as [->|[-> (l & Hl%lookup_lt_Some & _)]]; [by split_and!|lia].
  - assert (Hx : links !! cursor = Some x).
    { rewrite <-(Nat.add_0_r cursor), <-lookup_drop, Hd. done. }
    assert (Hrest : drop (S cursor) links = rest).
    { replace (S cursor) with (cursor + 1)%nat by lia. by rewrite <-drop_drop, Hd. }
    destruct (N.ltb_spec off (m_offset x)) as [Hlt|Hge].
    + assert (Hgt : forall i l, (cursor <= i)%nat -> links !! i = Some l -> off < m_offset l).
      { intros i l Hi Hl. destruct (decide (i = cursor)) as [->|]; [congruence|].
        pose proof (sorted_lookup_lt links cursor i x l Hs ltac:(lia) Hx Hl). lia. }
      destruct found as [f|]; [|subst; by split_and!].
      destruct Hf as [->|[-> (l & Hl & Ho)]]; [by split_and!|]. exfalso.
      rewrite Hx in Hl. injection Hl as ->. lia.
    + apply IH; [done|apply lookup_lt_Some in Hx; lia| |by left].
      intros i l Hi Hl. destruct (decide (i = cursor)) as [->|]; [congruence|].
      apply (Hb i); [lia|done].
Qed.

(** Wherever a valid cursor stands, the search stops at the same link. *)
Lemma FindLinkByOffset_stop links off bsl :
  StronglySorted N.lt (offsets links) -> cursor_ok links bsl off ->
  find_stop links off (FindLinkByOffset links off bsl).
Proof.
  intros Hs Hc. unfold FindLinkByOffset. destruct bsl as [i|].
  - destruct Hc as (l & Hl & Ho). pose proof (lookup_lt_Some _ _ _ Hl).
    apply find_link_loop_stop; [done|done|lia| |right; eauto].
    intros j l' Hj Hl'. pose proof (sorted_lookup_lt links j i l' l Hs Hj Hl' Hl). lia.
  - apply find_link_loop_stop; [done|done|lia| |done]. intros; lia.
Qed.

Lemma link_hit_llookup links off r :
  links_wf vs links -> find_stop links off r ->
  link_hit links r off = llookup links off.
Proof.
  intros Hwf (Hle & Hb & Ha). destruct (llookup links off) as [l|] eqn:E.
  - apply llookup_Some in E as [Hl Ho]; [|done].
    apply list_elem_of_lookup in Hl as [j Hj]. destruct r as [i|].
    + assert (i = j) as ->.
      { destruct (Nat.lt_trichotomy i j) as [Hlt|[Heq|Hlt]]; [|done|].
        - specialize (Ha j l ltac:(lia) Hj). lia.
        - destruct (lookup_lt_is_Some_2 links i ltac:(lia)) as [l' Hl'].
          pose proof (sorted_lookup_lt links j i l l' (lswf_sorted _ _ Hwf) Hlt Hj Hl').
          specialize (Hb i l' ltac:(lia) Hl'). lia. }
      simpl. by rewrite Hj, Ho, N.eqb_refl.
    + exfalso. specialize (Ha j l ltac:(lia) Hj). lia.
  - destruct r as [i|]; [|done]. simpl. destruct (links !! i) as [l|] eqn:Hl; [|done].
    destruct (N.eqb_spec (m_offset l) off) as [Ho|]; [|done]. exfalso.
    rewrite llookup_None in E. eapply E; [by eapply list_elem_of_lookup_2|done].
Qed.

Lemma find_stop_cursor_ok links off off' r :
  find_stop links off r -> off <= off' -> cursor_ok links r off'.
Proof.
  intros (Hle & Hb & _) Ho. destruct r as [i|]; [|done]. simpl.
  destruct (lookup_lt_is_Some_2 links i ltac:(lia)) as [l Hl]. exists l.
  split; [done|]. specialize (Hb i l ltac:(lia) Hl). lia.
Qed.

(** One step of a sweep: with the other list sorted, the cursor the search
    returns is valid for the rest of the sweep. *)
Lemma sweep_step links o others bsl :
  links_wf vs links -> StronglySorted N.lt (offsets (o :: others)) ->
  (forall x, x ∈ o :: others -> cursor_ok links bsl (m_offset x)) ->
  let r := FindLinkByOffset links (m_offset o) bsl in
  find_stop links (m_offset o) r /\
  link_hit links r (m_offset o) = llookup links (m_offset o) /\
  (forall x, x ∈ others -> cursor_ok links r (m_offset x)).
Proof.
  intros Hwf Hs Hc r.
  assert (Hst : find_stop links (m_offset o) r).
  { apply FindLinkByOffset_stop; [apply Hwf|apply Hc; left]. }
  split_and!; [done|by apply link_hit_llookup|]. intros x Hx.
  eapply find_stop_cursor_ok; [done|]. apply StronglySorted_inv in Hs as [_ Hf].
  rewrite Forall_forall in Hf. apply N.lt_le_incl, Hf, list_elem_of_fmap. eauto.
Qed.

Lemma offsets_tail o others :
  StronglySorted N.lt (offsets (o :: others)) -> StronglySorted N.lt (offsets others).
Proof. by intros [? _]%StronglySorted_inv. Qed.

Lemma Copy_wf_id v : bv_wf v -> CBitVector_Copy v = v.
Proof.
  intros Hv. unfold CBitVector_Copy. rewrite <-(wf_len v Hv), firstn_all. by destruct v.
Qed.

Lemma link_Copy_id l : bv_wf (link_vec l) -> CBitSetLink_Copy l = l.
Proof. intros Hl. unfold CBitSetLink_Copy. rewrite Copy_wf_id by done. by destruct l. Qed.

(** Take one step of a sweep in the goal. *)
Ltac sweep Hst Hh Hc' :=
  match goal with
  | Hwf : links_wf _ ?links, Hs : StronglySorted N.lt (offsets (?o :: ?os)),
    Hc : forall x, x ∈ ?o :: ?os -> cursor_ok ?links ?bsl _ |- _ =>
    destruct (sweep_step links o os bsl Hwf Hs Hc) as (Hst & Hh & Hc');
    cbv zeta; rewrite Hh
  end.

Lemma union_missing_spec links others bsl :
  links_wf vs links -> StronglySorted N.lt (offsets others) ->
  (forall x, x ∈ others -> cursor_ok links bsl (m_offset x)) ->
  union_missing links others bsl =
  CBitSetLink_Copy <$> filter (fun o => llookup links (m_offset o) = None) others.
Proof.
  intros Hwf. revert bsl. induction others as [|o others IH]; intros bsl Hs Hc; [done|].
  cbn [union_missing]. sweep Hst Hh Hc'. rewrite ?(IH _ (offsets_tail _ _ Hs) Hc'). rewrite filter_cons.
  destruct (llookup links (m_offset o)); case_decide; done.
Qed.

Lemma union_or_spec links others bsl :
  links_wf vs others -> StronglySorted N.lt (offsets links) ->
  (forall x, x ∈ links -> cursor_ok others bsl (m_offset x)) ->
  union_or links others bsl =
  (fun l => match llookup others (m_offset l) with
            | Some o => link_set_vec l (CBitVector_Or (link_vec l) (link_vec o))
            | None => l
            end) <$> links.
Proof.
  intros Hwf. revert bsl. induction links as [|l links IH]; intros bsl Hs Hc; [done|].
  cbn [union_or]. sweep Hst Hh Hc'. rewrite ?(IH _ (offsets_tail _ _ Hs) Hc'). done.
Qed.

Definition inter_link others (l : CBitSetLink) : option CBitSetLink :=
  match llookup others (m_offset l) with
  | Some o =>
    let v := CBitVector_And (link_vec l) (link_vec o) in
    if CBitVector_IsEmpty v then None else Some (link_set_vec l v)
  | None => None
  end.

Lemma inter_loop_spec links others bsl :
  links_wf vs others -> StronglySorted N.lt (offsets links) ->
  (forall x, x ∈ links -> cursor_ok others bsl (m_offset x)) ->
  inter_loop links others bsl = omap (inter_link others) links.
Proof.
  intros Hwf. revert bsl. induction links as [|l links IH]; intros bsl Hs Hc; [done|].
  cbn [inter_loop omap list_omap]. sweep Hst Hh Hc'. rewrite ?(IH _ (offsets_tail _ _ Hs) Hc').
  assert (Hl : inter_link others l = inter_link others l) by done.
  unfold inter_link in Hl at 1. rewrite <-Hl.
  destruct (llookup others (m_offset l)); [|done].
  cbv zeta. by destruct (CBitVector_IsEmpty _).
Qed.

Lemma contains_loop_spec links others bsl :
  links_wf vs links -> StronglySorted N.lt (offsets others) ->
  (forall x, x ∈ others -> cursor_ok links bsl (m_offset x)) ->
  contains_loop links others bsl = true <->
  forall o, o ∈ others -> exists l, llookup links (m_offset o) = Some l /\
    CBitVector_ContainsAll (link_vec l) (link_vec o) = true.
Proof.
  intros Hwf. revert bsl. induction others as [|o others IH]; intros bsl Hs Hc.
  { split; [|done]. intros _ o []%not_elem_of_nil. }
  cbn [contains_loop]. sweep Hst Hh Hc'. setoid_rewrite elem_of_cons.
  destruct (llookup links (m_offset o)) as [l|] eqn:E.
  - rewrite andb_true_iff, (IH _ (offsets_tail _ _ Hs) Hc'). split.
    + intros [H1 H2] o' [->|Ho']; [eauto|by apply H2].
    + intros H. split; [|intros; apply H; by right].
      destruct (H o (or_introl eq_refl)) as (l' & Hl' & Hcl). congruence.
  - split; [done|]. intros H. destruct (H o (or_introl eq_refl)) as (l' & Hl' & _). congruence.
Qed.

Lemma disjoint_loop_spec links others bsl :
  links_wf vs links -> StronglySorted N.lt (offsets others) ->
  (forall x, x ∈ others -> cursor_ok links bsl (m_offset x)) ->
  disjoint_loop links others bsl = true <->
  forall o l, o ∈ others -> llookup links (m_offset o) = Some l ->
    CBitVector_IsDisjoint (link_vec l) (link_vec o) = true.
Proof.
  intros Hwf. revert bsl. induction others as [|o others IH]; intros bsl Hs Hc.
  { split; [|done]. intros _ o l []%not_elem_of_nil. }
  cbn [disjoint_loop]. sweep Hst Hh Hc'. setoid_rewrite elem_of_cons.
  specialize (IH _ (offsets_tail _ _ Hs) Hc').
  destruct (llookup links (m_offset o)) as [l|] eqn:E.
  - rewrite andb_true_iff, IH. split.
    + intros [H1 H2] o' l' [->|Ho'] Hl'; [congruence|eauto].
    + intros H. split; [|intros]; eauto.
  - rewrite IH. split; [|intros H o' l' Ho'; eauto]. intros H o' l' [->|Ho'] Hl'; [congruence|eauto].
Qed.

(** Inserting a missing link where the search stopped keeps the order. *)
Lemma list_insert_after_spec links n r :
  StronglySorted N.lt (offsets links) -> find_stop links (m_offset n) r ->
  (forall l, l ∈ links -> m_offset l <> m_offset n) ->
  exists l1 l2, links = l1 ++ l2 /\ list_insert_after r n links = l1 ++ n :: l2 /\
    length l1 = match r with None => 0%nat | Some i => S i end /\
    StronglySorted N.lt (offsets (l1 ++ n :: l2)).
Proof.
  intros Hs (Hle & Hb & Ha) Hn.
  set (k := match r with None => 0%nat | Some i => S i end) in *.
  exists (take k links), (drop k links). split_and!.
  - by rewrite take_drop.
  - by destruct r.
  - rewrite length_take. lia.
  - unfold offsets in *. rewrite <-(take_drop k links), fmap_app in Hs.
    rewrite fmap_app, fmap_cons. apply StronglySorted_app in Hs as (Hlt & Hs1 & Hs2).
    apply StronglySorted_app_lt; [done| |].
    + constructor; [done|]. apply Forall_fmap, Forall_forall.
      intros l [i Hi]%list_elem_of_lookup. rewrite lookup_drop in Hi.
      simpl. eapply Ha; [|done]. lia.
    + intros x y (l & -> & Hl)%list_elem_of_fmap Hy.
      apply list_elem_of_lookup in Hl as [i Hi].
      apply lookup_take_Some in Hi as [Hi Hik].
      specialize (Hb i l Hik Hi).
      assert (m_offset l <> m_offset n) by (apply Hn; by eapply list_elem_of_lookup_2).
      apply elem_of_cons in Hy as [->|(l' & -> & [j Hj]%list_elem_of_lookup)%list_elem_of_fmap];
        [lia|].
      rewrite lookup_drop in Hj. specialize (Ha (k + j)%nat l' ltac:(lia) Hj). lia.
Qed.

Lemma union_insert_spec links news bsl :
  links_wf vs links -> links_wf vs news ->
  (forall l n, l ∈ links -> n ∈ news -> m_offset l <> m_offset n) ->
  (forall x, x ∈ news -> cursor_ok links bsl (m_offset x)) ->
  links_wf vs (union_insert links news bsl) /\
  forall x, x ∈ union_insert links news bsl <-> x ∈ links \/ x ∈ news.
Proof.
  revert links bsl. induction news as [|n news IH]; intros links bsl Hwf Hn Hd Hc.
  { simpl. split; [done|]. intros x. rewrite elem_of_nil. tauto. }
  cbn [union_insert]. cbv zeta.
  destruct (sweep_step links n news bsl Hwf (lswf_sorted _ _ Hn) Hc) as (Hst & _ & Hc').
  set (r := FindLinkByOffset links (m_offset n) bsl) in *.
  destruct (list_insert_after_spec links n r) as (l1 & l2 & Hl & Hi & Hlen & Hs);
    [apply Hwf|done|intros; eapply Hd; [done|left]|].
  destruct Hn as [Hns Hnf]. apply Forall_cons in Hnf as [Hn0 Hnf].
  destruct (IH (list_insert_after r n links) r) as [IH1 IH2].
  - rewrite Hi. split; [done|]. destruct Hwf as [_ Hf]. rewrite Hl in Hf.
    apply Forall_app in Hf as [? ?]. apply Forall_app. split; [done|by constructor].
  - split; [by eapply offsets_tail|done].
  - intros l n' Hin Hn'. rewrite Hi in Hin.
    assert (l ∈ links \/ l = n) as [Hin'| ->].
    { rewrite elem_of_app, elem_of_cons in Hin. rewrite Hl, elem_of_app. tauto. }
    + eapply Hd; [done|by right].
    + apply StronglySorted_inv in Hns as [_ Hf]. rewrite Forall_forall in Hf.
      assert (m_offset n < m_offset n'); [|lia]. apply Hf, list_elem_of_fmap. eauto.
  - intros x Hx. specialize (Hc' x Hx). destruct r as [i|]; [|done].
    destruct Hc' as (l & Hl' & Ho). exists l. split; [|done].
    rewrite Hi. rewrite lookup_app_l by lia. rewrite Hl, lookup_app_l in Hl' by lia. done.
  - split; [done|]. intros x. rewrite IH2, Hi, elem_of_cons, Hl, !elem_of_app, elem_of_cons. tauto.
Qed.

Lemma links_wf_elem links l : links_wf vs links -> l ∈ links -> link_wf vs l.
Proof.
  intros [_ Hf] Hl. rewrite Forall_forall in Hf. by apply Hf.
Qed.

Lemma links_wf_tail l links : links_wf vs (l :: links) -> links_wf vs links.
Proof. intros [Hs [_ Hf]%Forall_cons]. split; [by eapply offsets_tail|done]. Qed.

Lemma RecomputeSize_spec links :
  Forall (link_wf vs) links -> RecomputeSize links = N.of_nat (length (links_bits links)).
Proof.
  intros Hf. unfold RecomputeSize.
  enough (forall n, fold_left (fun n l => n + CBitVector_CountSetBits (link_vec l)) links n =
    n + N.of_nat (length (links_bits links))) as -> by done.
  induction Hf as [|l links Hl Hf IH]; intros n; simpl; [lia|].
  rewrite IH, CountSetBits_spec by apply Hl. unfold links_bits. simpl.
  rewrite length_app, length_fmap. lia.
Qed.

(** Replacing the link at an index by a well-formed one at the same offset. *)
Lemma replace_link links i l0 x :
  StronglySorted N.lt (offsets links) -> links !! i = Some l0 ->
  (forall l, l ∈ links -> m_offset l <> m_offset l0 -> link_wf vs l) ->
  link_wf vs x -> m_offset x = m_offset l0 ->
  links_wf vs (<[i := x]> links) /\
  forall y, y ∈ <[i := x]> links <-> y = x \/ (y ∈ links /\ m_offset y <> m_offset x).
Proof.
  intros Hs Hi Hother Hx Ho.
  assert (Hmem : forall y, y ∈ <[i := x]> links <->
    y = x \/ (y ∈ links /\ m_offset y <> m_offset x)).
  { intros y. rewrite list_elem_of_lookup. split.
    - intros [j Hj]. destruct (decide (i = j)) as [->|Hij].
      + rewrite list_lookup_insert_eq in Hj by by eapply lookup_lt_Some. left; congruence.
      + rewrite list_lookup_insert_ne in Hj by done. right.
        split; [by eapply list_elem_of_lookup_2|]. rewrite Ho. intros He. apply Hij.
        by eapply (sorted_offset_index links i j l0 y).
    - intros [->|[[j Hj]%list_elem_of_lookup Hne]].
      + exists i. apply list_lookup_insert_eq. by eapply lookup_lt_Some.
      + exists j. rewrite list_lookup_insert_ne; [done|]. intros ->. congruence. }
  split; [|done]. split.
  - unfold offsets in *. rewrite list_fmap_insert, list_insert_id; [done|].
    by rewrite list_lookup_fmap, Hi, Ho.
  - apply Forall_forall. intros y [->|[Hy Hne]]%Hmem; [done|].
    apply Hother; congruence.
Qed.

Lemma delete_link links i l0 :
  links_wf vs links -> links !! i = Some l0 ->
  links_wf vs (delete i links) /\
  forall y, y ∈ delete i links <-> y ∈ links /\ m_offset y <> m_offset l0.
Proof.
  intros [Hs Hf] Hi. assert (Hm := Hi). apply take_drop_middle in Hm.
  rewrite delete_take_drop. rewrite <-Hm in Hs, Hf. unfold offsets in Hs.
  rewrite fmap_app, fmap_cons in Hs. apply StronglySorted_app in Hs as (Hlt & Hs1 & Hs2).
  apply StronglySorted_inv in Hs2 as [Hs2 Hh]. rewrite Forall_forall in Hh.
  apply Forall_app in Hf as [Hf1 [_ Hf2]%Forall_cons]. split.
  - split; [|by apply Forall_app]. unfold offsets. rewrite fmap_app.
    apply StronglySorted_app_lt; [done..|]. intros x y Hx Hy. apply Hlt; [done|by right].
  - intros y. rewrite <-Hm at 3. rewrite !elem_of_app, elem_of_cons. split.
    + intros [Hy|Hy].
      * split; [by left|].
        assert (m_offset y < m_offset l0); [|lia].
        apply Hlt; [|left]. apply list_elem_of_fmap. eauto.
      * split; [by do 2 right|]. assert (m_offset l0 < m_offset y); [|lia].
        apply Hh, list_elem_of_fmap. eauto.
    + intros [[?|[->|?]] ?]; [by left|done|by right].
Qed.
End links.

(** ** From links to sets *)

Lemma elem_of_links_bits links p :
  p ∈ links_bits links <-> exists l, l ∈ links /\ link_test l p = true.
Proof.
  unfold links_bits. rewrite list_elem_of_bind. split.
  - intros (l & (b & -> & Hb%elem_of_bv_bits)%list_elem_of_fmap & Hl). exists l.
    split; [done|]. unfold link_test. apply andb_true_intro. split; [apply N.leb_le; lia|].
    by replace (m_offset l + b - m_offset l) with b by lia.
  - intros (l & Hl & [Hle Ht]%andb_prop). apply N.leb_le in Hle. exists l. split; [|done].
    apply list_elem_of_fmap. exists (p - m_offset l). split; [lia|].
    by apply elem_of_bv_bits.
Qed.

Section sets.
Context (vs : N) (Hvs : 0 < vs).
Implicit Types (links others : list CBitSetLink) (l : CBitSetLink).

Lemma ComputeOffset_unique k p :
  k * vs <= p < k * vs + vs -> ComputeOffset vs p = k * vs.
Proof.
  intros H. unfold ComputeOffset. f_equal. symmetry.
  apply (N.div_unique p vs k (p - k * vs)); nia.
Qed.

Lemma ComputeOffset_bounds p :
  ComputeOffset vs p <= p < ComputeOffset vs p + vs /\
  exists k, ComputeOffset vs p = k * vs.
Proof.
  unfold ComputeOffset. split; [|by eexists].
  destruct (N_div_mod_facts p vs ltac:(lia)) as [H1 H2].
  remember (p / vs) as q. remember (p mod vs) as r. lia.
Qed.

Lemma link_test_offset l p :
  link_wf vs l -> link_test l p = true -> ComputeOffset vs p = m_offset l.
Proof.
  intros Hl [Hle Ht]%andb_prop. apply N.leb_le in Hle.
  apply (wf_pad _ (lwf_vec _ _ Hl)) in Ht. rewrite (lwf_size _ _ Hl) in Ht.
  destruct (lwf_offset _ _ Hl) as [k Hk]. rewrite Hk in *.
  apply ComputeOffset_unique. lia.
Qed.

Lemma elem_of_links_bits_lookup links p :
  links_wf vs links ->
  p ∈ links_bits links <->
  exists l, llookup links (ComputeOffset vs p) = Some l /\ link_test l p = true.
Proof.
  intros Hwf. rewrite elem_of_links_bits. split; intros (l & Hl & Ht); exists l.
  - split; [|done]. apply (llookup_Some vs); [done|]. split; [done|].
    symmetry. apply link_test_offset; [|done].
    pose proof (lswf_links _ _ Hwf) as Hf. rewrite Forall_forall in Hf. by apply Hf.
  - apply (llookup_Some vs) in Hl as [Hl _]; [done|done].
Qed.

(** Links at different offsets do not overlap, and come in order. *)
Lemma links_bits_sorted links : links_wf vs links -> StronglySorted N.lt (links_bits links).
Proof.
  induction links as [|l links IH]; intros Hwf; [constructor|].
  change (links_bits (l :: links))
    with (((fun b => m_offset l + b) <$> bv_bits (link_vec l)) ++ links_bits links).
  pose proof (links_wf_elem vs _ l Hwf ltac:(left)) as Hl.
  apply StronglySorted_app_lt.
  - apply StronglySorted_shift, bv_bits_sorted.
  - by eapply IH, links_wf_tail.
  - intros x y (b & -> & Hb%elem_of_bv_bits)%list_elem_of_fmap (l' & Hl' & Ht)%elem_of_links_bits.
    apply (wf_pad _ (lwf_vec _ _ Hl)) in Hb. rewrite (lwf_size _ _ Hl) in Hb.
    assert (m_offset l < m_offset l').
    { destruct Hwf as [[_ Hf]%StronglySorted_inv _]. rewrite Forall_forall in Hf.
      apply Hf, list_elem_of_fmap. eauto. }
    destruct (lwf_offset _ _ Hl) as [k Hk].
    destruct (lwf_offset _ _ (links_wf_elem vs _ l' Hwf ltac:(by right))) as [k' Hk'].
    apply andb_prop in Ht as [Hle%N.leb_le _].
    assert (k < k') by nia. assert (k * vs + vs <= k' * vs) by nia. lia.
Qed.

Lemma length_links_bits links :
  links_wf vs links ->
  length (links_bits links) = size (list_to_set (links_bits links) : gset N).
Proof. intros Hwf. by rewrite size_list_to_set by by apply sorted_lt_NoDup, links_bits_sorted. Qed.

End sets.

(** ** Refinement of the operations *)

Lemma elem_of_bs_set bs p :
  p ∈ bs_set bs <-> exists l, l ∈ m_bsllist bs /\ link_test l p = true.
Proof. unfold bs_set. by rewrite elem_of_list_to_set, elem_of_links_bits. Qed.

Lemma elem_of_bs_set_lookup bs p :
  bs_wf bs -> p ∈ bs_set bs <->
  exists l, llookup (m_bsllist bs) (ComputeOffset (m_vector_size bs) p) = Some l /\
            link_test l p = true.
Proof.
  intros Hwf. unfold bs_set. rewrite elem_of_list_to_set.
  apply elem_of_links_bits_lookup; apply Hwf.
Qed.

Lemma Size_spec bs : bs_wf bs -> CBitSet_Size bs = N.of_nat (size (bs_set bs)).
Proof.
  intros Hwf. unfold CBitSet_Size. rewrite (bswf_size _ Hwf).
  rewrite (length_links_bits (m_vector_size bs)); [done|apply (bswf_vs _ Hwf)|apply Hwf].
Qed.

(** The search from the first link finds the link at the offset. *)
Lemma find_hit bs off :
  bs_wf bs ->
  find_stop (m_bsllist bs) off (FindLinkByOffset (m_bsllist bs) off None) /\
  link_hit (m_bsllist bs) (FindLinkByOffset (m_bsllist bs) off None) off =
  llookup (m_bsllist bs) off.
Proof.
  intros Hwf. assert (Hst : find_stop (m_bsllist bs) off
    (FindLinkByOffset (m_bsllist bs) off None)).
  { apply FindLinkByOffset_stop; [apply (bswf_links _ Hwf)|done]. }
  split; [done|]. by apply (link_hit_llookup (m_vector_size bs)); [apply Hwf|].
Qed.

Lemma link_hit_index links r off l :
  link_hit links r off = Some l -> links !! default 0%nat r = Some l /\ m_offset l = off.
Proof.
  destruct r as [i|]; simpl; [|done]. destruct (links !! i) as [l'|] eqn:E; [|done].
  destruct (N.eqb_spec (m_offset l') off); [|done]. by intros [= ->].
Qed.

Lemma New_spec vs : 0 < vs <= ulong_max -> bs_wf (CBitSet_New vs) /\ bs_set (CBitSet_New vs) = ∅.
Proof.
  intros Hvs. split; [|done]. split; [done| |done]. split; [constructor|by constructor].
Qed.

Lemma llookup_offset vs links off l :
  links_wf vs links -> llookup links off = Some l -> l ∈ links /\ m_offset l = off.
Proof. intros Hwf. by rewrite (llookup_Some vs). Qed.

Lemma Get_spec bs p : bs_wf bs -> CBitSet_Get bs p = bool_decide (p ∈ bs_set bs).
Proof.
  intros Hwf. apply bool_iff_eq. rewrite bool_decide_eq_true, elem_of_bs_set_lookup by done.
  unfold CBitSet_Get. cbv zeta. set (off := ComputeOffset (m_vector_size bs) p).
  destruct (find_hit bs off Hwf) as [_ ->].
  destruct (ComputeOffset_bounds (m_vector_size bs) (proj1 (bswf_vs _ Hwf)) p) as [Hb _].
  destruct (llookup _ off) as [l|] eqn:E.
  - destruct (llookup_offset _ _ _ _ (bswf_links _ Hwf) E) as [_ Ho].
    rewrite Get_bv_test, <-Ho. unfold link_test. split.
    + intros Ht. exists l. split; [done|]. apply andb_true_intro. split; [|done].
      apply N.leb_le. unfold off in *. lia.
    + intros (l' & [= <-] & [_ Ht]%andb_prop). done.
  - split; [done|]. by intros (l & ? & _).
Qed.

(** The set that [ExchangeSet], [ExchangeClear] and the bulk operations leave. *)
Definition bs_refines (bs : CBitSet) (vs : N) (X : gset N) : Prop :=
  bs_wf bs /\ m_vector_size bs = vs /\ bs_set bs = X.

Lemma bs_refines_intro links vs n X :
  0 < vs <= ulong_max -> links_wf vs links ->
  (forall p, p ∈ X <-> exists l, l ∈ links /\ link_test l p = true) ->
  n = N.of_nat (size X) ->
  bs_refines (MkBitSet links vs n) vs X.
Proof.
  intros Hvs Hwf HX Hn.
  assert (HS : bs_set (MkBitSet links vs n) = X).
  { apply set_eq. intros p. by rewrite elem_of_bs_set, HX. }
  split_and!; [|done|done]. split; [done|done|].
  simpl. rewrite (length_links_bits vs) by (done || lia). rewrite Hn. by rewrite <-HS.
Qed.

Lemma bs_refines_recompute links vs X :
  0 < vs <= ulong_max -> links_wf vs links ->
  (forall p, p ∈ X <-> exists l, l ∈ links /\ link_test l p = true) ->
  bs_refines (MkBitSet links vs (RecomputeSize links)) vs X.
Proof.
  intros Hvs Hwf HX. apply bs_refines_intro; [done..|].
  rewrite (RecomputeSize_spec vs) by apply Hwf.
  rewrite (length_links_bits vs); [|lia|done].
  do 2 f_equal. apply set_eq. intros q.
  by rewrite elem_of_list_to_set, elem_of_links_bits, HX.
Qed.

Lemma link_test_at l b : link_test l (m_offset l + b) = bv_test (link_vec l) b.
Proof.
  unfold link_test. replace (m_offset l + b - m_offset l) with b by lia.
  rewrite (proj2 (N.leb_le _ _)); [done|lia].
Qed.

Lemma link_test_set_vec l v q :
  link_test (link_set_vec l v) q = (m_offset l <=? q) && bv_test v (q - m_offset l).
Proof. done. Qed.

Lemma link_test_sound vs l q :
  0 < vs -> link_wf vs l -> link_test l q = true ->
  m_offset l = ComputeOffset vs q /\ bv_test (link_vec l) (q - m_offset l) = true.
Proof.
  intros Hvs Hl Ht. split; [symmetry; by apply link_test_offset|].
  by apply andb_prop in Ht as [_ ?].
Qed.

(** Setting a bit of the link at the position's offset. *)
Lemma set_in_link vs links i l0 p (X : gset N) :
  0 < vs <= ulong_max -> StronglySorted N.lt (offsets links) -> links !! i = Some l0 ->
  (forall l, l ∈ links -> m_offset l <> m_offset l0 -> link_wf vs l) ->
  bv_wf (link_vec l0) -> m_nbits (link_vec l0) = vs -> m_offset l0 = ComputeOffset vs p ->
  (forall q, q ∈ X <-> exists l, l ∈ links /\ link_test l q = true) ->
  let bit := bv_test (link_vec l0) (p - m_offset l0) in
  let v := (CBitVector_ExchangeSet (link_vec l0) (p - m_offset l0)).1 in
  bit = bool_decide (p ∈ X) /\
  bs_refines (MkBitSet (<[i := link_set_vec l0 v]> links) vs
    (if bit then N.of_nat (size X) else N.of_nat (size X) + 1)) vs ({[p]} ∪ X).
Proof.
  intros Hvs Hs Hi Hother Hv Hnb Hoff HX bit v.
  destruct (ComputeOffset_bounds vs ltac:(lia) p) as [Hb Hk].
  assert (Hp : p - m_offset l0 < m_nbits (link_vec l0)) by (rewrite Hnb; lia).
  assert (Hle : (m_offset l0 <=? p) = true) by (apply N.leb_le; lia).
  assert (Hx : link_wf vs (link_set_vec l0 v)).
  { split; simpl; [by apply ExchangeSet_wf|done|by rewrite Hoff|].
    exists (p - m_offset l0). unfold v. rewrite ExchangeSet_test by done.
    by rewrite bool_decide_eq_true_2. }
  assert (Hin : l0 ∈ links) by by eapply list_elem_of_lookup_2.
  destruct (replace_link vs links i l0 (link_set_vec l0 v)) as [Hwf Hmem]; [done..|].
  assert (Hbit : bit = bool_decide (p ∈ X)).
  { apply bool_iff_eq. rewrite bool_decide_eq_true, HX. split.
    - intros Ht. exists l0. unfold link_test. by rewrite Hle.
    - intros (l & Hl & Ht). destruct (decide (m_offset l = m_offset l0)) as [He|Hne].
      + assert (l = l0) as -> by by eapply sorted_offset_inj.
        by apply andb_prop in Ht as [_ ?].
      + exfalso. apply Hne. rewrite Hoff.
        apply (link_test_sound vs l p); [lia|by apply Hother|done]. }
  split; [done|]. apply bs_refines_intro; [done|done| |].
  - intros q. rewrite elem_of_union, elem_of_singleton, HX.
    setoid_rewrite Hmem. split.
    + intros [->|(l & Hl & Ht)].
      * exists (link_set_vec l0 v). split; [by left|].
        rewrite link_test_set_vec, Hle. unfold v. rewrite ExchangeSet_test by done.
        by rewrite bool_decide_eq_true_2.
      * destruct (decide (m_offset l = m_offset l0)) as [He|Hne]; [|eauto].
        assert (l = l0) as -> by by eapply sorted_offset_inj.
        exists (link_set_vec l0 v). split; [by left|].
        apply andb_prop in Ht as [H1 H2]. rewrite link_test_set_vec, H1. unfold v.
        rewrite ExchangeSet_test, H2 by done. apply orb_true_r.
    + intros (l & [->|[Hl _]] & Ht); [|eauto].
      rewrite link_test_set_vec in Ht. apply andb_prop in Ht as [H1%N.leb_le H2].
      unfold v in H2. rewrite ExchangeSet_test in H2 by done.
      apply orb_prop in H2 as [H2%bool_decide_eq_true|H2]; [left; lia|].
      right. exists l0. split; [done|]. unfold link_test. rewrite H2.
      apply N.leb_le in H1. by rewrite H1.
  - rewrite Hbit. case_bool_decide as Hd.
    + by rewrite union_singleton_mem.
    + rewrite size_union_singleton by done. lia.
Qed.

Theorem ExchangeSet_refines bs p :
  bs_wf bs ->
  bs_refines (CBitSet_ExchangeSet bs p).1 (m_vector_size bs) ({[p]} ∪ bs_set bs) /\
  (CBitSet_ExchangeSet bs p).2 = bool_decide (p ∈ bs_set bs).
Proof.
  intros Hwf. unfold CBitSet_ExchangeSet. cbv zeta.
  set (off := ComputeOffset (m_vector_size bs) p).
  destruct (find_hit bs off Hwf) as [Hst Hh].
  rewrite (Size_spec bs Hwf : m_size bs = _).
  destruct (link_hit _ _ off) as [l|] eqn:Eh.
  - destruct (link_hit_index _ _ _ _ Eh) as [Hi Ho].
    pose proof (links_wf_elem _ _ l (bswf_links _ Hwf) ltac:(by eapply list_elem_of_lookup_2)) as Hl.
    destruct (set_in_link (m_vector_size bs) (m_bsllist bs)
      (default 0%nat (FindLinkByOffset (m_bsllist bs) off None)) l p (bs_set bs))
      as [Hbit Href]; [apply Hwf|apply (bswf_links _ Hwf)|done| |apply Hl|apply Hl|done| |].
    + intros; by eapply links_wf_elem; [apply Hwf|].
    + intros q. apply elem_of_bs_set.
    + rewrite Ho in Hbit, Href. cbn [CBitVector_ExchangeSet fst snd]. rewrite Get_bv_test.
      by split.
  - symmetry in Hh. rewrite llookup_None in Hh.
    set (n := CBitSetLink_New off (m_vector_size bs)).
    destruct (list_insert_after_spec (m_bsllist bs) n
      (FindLinkByOffset (m_bsllist bs) off None)) as (l1 & l2 & Hl & Hi & Hlen & Hs);
      [apply (bswf_links _ Hwf)|done|done|].
    rewrite Hi. fold (link_vec n).
    destruct (set_in_link (m_vector_size bs) (l1 ++ n :: l2)
      (match FindLinkByOffset (m_bsllist bs) off None with None => 0%nat | Some i => S i end)
      n p (bs_set bs)) as [Hbit Href];
      [apply Hwf|done| | |apply New_wf|done|done| |].
    + rewrite <-Hlen. by rewrite list_lookup_middle.
    + intros l Hin Hne. eapply links_wf_elem; [apply Hwf|]. rewrite Hl.
      rewrite elem_of_app, elem_of_cons in Hin. rewrite elem_of_app.
      destruct Hin as [?|[->|?]]; [by left|done|by right].
    + intros q. rewrite elem_of_bs_set, Hl. setoid_rewrite elem_of_app.
      setoid_rewrite elem_of_cons. split; intros (l & Hin & Ht); exists l; (split; [|done]).
      * tauto.
      * destruct Hin as [?|[->|?]]; [by left| |by right].
        unfold link_test in Ht. simpl in Ht. rewrite New_test, andb_false_r in Ht. done.
    + cbn [CBitVector_ExchangeSet fst snd]. rewrite Get_bv_test. by split.
Qed.

Lemma not_IsEmpty_test v :
  bv_wf v -> CBitVector_IsEmpty v = false -> exists b, bv_test v b = true.
Proof.
  intros Hv He. destruct (bv_bits v) as [|b bits] eqn:Eb.
  - exfalso. apply not_true_iff_false in He. apply He, IsEmpty_test; [done|].
    intros q. apply not_true_iff_false. intros Ht%elem_of_bv_bits. rewrite Eb in Ht.
    by apply not_elem_of_nil in Ht.
  - exists b. apply elem_of_bv_bits. rewrite Eb. left.
Qed.

(** Clearing bit [p] of the link [l] at its offset: the links [news] that
    replace [l] by the cleared vector [v] (or drop it, when [v] is empty)
    hold the set without [p]. *)
Lemma clear_in_links bs l v p (news : list CBitSetLink) :
  bs_wf bs -> l ∈ m_bsllist bs -> m_offset l = ComputeOffset (m_vector_size bs) p ->
  v = (CBitVector_ExchangeClear (link_vec l) (p - m_offset l)).1 ->
  (forall y, y ∈ news <-> (y = link_set_vec l v /\ CBitVector_IsEmpty v = false) \/
                          (y ∈ m_bsllist bs /\ m_offset y <> m_offset l)) ->
  forall q, q ∈ bs_set bs ∖ {[p]} <-> exists y, y ∈ news /\ link_test y q = true.
Proof.
  intros Hwf Hin Ho Hv Hm q. pose proof (links_wf_elem _ _ l (bswf_links _ Hwf) Hin) as Hl.
  destruct (ComputeOffset_bounds (m_vector_size bs) (proj1 (bswf_vs _ Hwf)) p) as [Hb _].
  assert (Hvw : bv_wf v) by (subst v; apply ExchangeClear_wf, Hl).
  assert (Hvt : m_offset l <= q -> bv_test v (q - m_offset l) =
    negb (bool_decide (q = p)) && bv_test (link_vec l) (q - m_offset l)).
  { intros Hq. subst v. rewrite ExchangeClear_test by apply Hl. do 2 f_equal.
    apply bool_decide_ext. lia. }
  rewrite elem_of_difference, elem_of_singleton, elem_of_bs_set. setoid_rewrite Hm. split.
  - intros [(y & Hy & Ht) Hq]. destruct (decide (m_offset y = m_offset l)) as [He|Hne];
      [|by eauto].
    assert (y = l) as -> by (eapply sorted_offset_inj; [apply (bswf_links _ Hwf)|done..]).
    apply andb_prop in Ht as [Hle Ht]. assert (Hle' := Hle). apply N.leb_le in Hle'.
    specialize (Hvt Hle'). rewrite Ht, bool_decide_eq_false_2 in Hvt by done.
    exists (link_set_vec l v). rewrite link_test_set_vec, Hle, Hvt. split; [left|done].
    split; [done|]. apply not_true_iff_false. rewrite IsEmpty_test by done. intros He'.
    by rewrite He' in Hvt.
  - intros (y & [[-> _]|[Hy Hne]] & Ht).
    + rewrite link_test_set_vec in Ht. apply andb_prop in Ht as [Hle Ht].
      rewrite Hvt in Ht by by apply N.leb_le. apply andb_prop in Ht as [Hq Ht].
      apply negb_true_iff, bool_decide_eq_false in Hq. split; [|done]. exists l.
      unfold link_test. by rewrite Hle, Ht.
    + split; [eauto|]. intros ->. apply Hne. rewrite Ho.
      apply (link_test_sound (m_vector_size bs) y p); [apply (bswf_vs _ Hwf)| |done].
      by eapply links_wf_elem; [apply Hwf|].
Qed.

Theorem ExchangeClear_refines bs p :
  bs_wf bs ->
  bs_refines (CBitSet_ExchangeClear bs p).1 (m_vector_size bs) (bs_set bs ∖ {[p]}) /\
  (CBitSet_ExchangeClear bs p).2 = bool_decide (p ∈ bs_set bs).
Proof.
  intros Hwf. assert (Hget := Get_spec bs p Hwf). revert Hget.
  unfold CBitSet_ExchangeClear, CBitSet_Get. cbv zeta.
  set (off := ComputeOffset (m_vector_size bs) p).
  destruct (find_hit bs off Hwf) as [Hst Hh].
  destruct (link_hit _ _ off) as [l|] eqn:Eh; intros Hget.
  2: { split; [|done]. symmetry in Hget. apply bool_decide_eq_false in Hget.
       rewrite difference_singleton_not_mem by done. by split. }
  destruct (link_hit_index _ _ _ _ Eh) as [Hi Ho].
  assert (Hin : l ∈ m_bsllist bs) by by eapply list_elem_of_lookup_2.
  pose proof (links_wf_elem _ _ l (bswf_links _ Hwf) Hin) as Hl.
  cbn [CBitVector_ExchangeClear fst snd].
  change (set_vec (link_vec l) _) with (CBitVector_ExchangeClear (link_vec l) (p - off)).1.
  rewrite Hget. split; [|done].
  set (v := (CBitVector_ExchangeClear (link_vec l) (p - off)).1).
  assert (Hsz : (if bool_decide (p ∈ bs_set bs) then m_size bs - 1 else m_size bs) =
    N.of_nat (size (bs_set bs ∖ {[p]}))).
  { rewrite (Size_spec bs Hwf : m_size bs = _). case_bool_decide as Hd.
    - pose proof (size_difference_singleton p _ Hd). lia.
    - by rewrite difference_singleton_not_mem. }
  rewrite Hsz. destruct (CBitVector_IsEmpty v) eqn:Ee.
  - destruct (delete_link (m_vector_size bs) (m_bsllist bs) _ l (bswf_links _ Hwf) Hi) as [Hwf' Hm].
    apply bs_refines_intro; [apply Hwf|done| |done].
    apply (clear_in_links bs l v); [done|done|done|by rewrite Ho|].
    intros y. rewrite Hm, Ee. naive_solver.
  - destruct (replace_link (m_vector_size bs) (m_bsllist bs) _ l (link_set_vec l v)
      (lswf_sorted _ _ (bswf_links _ Hwf)) Hi) as [Hwf' Hm]; [| |done|].
    { intros; by eapply links_wf_elem; [apply Hwf|]. }
    { assert (bv_wf v) by apply ExchangeClear_wf, Hl.
      split; simpl; [done|apply Hl|apply Hl|by apply not_IsEmpty_test]. }
    apply bs_refines_intro; [apply Hwf|done| |done].
    apply (clear_in_links bs l v); [done|done|done|by rewrite Ho|].
    intros y. rewrite Hm, Ee. naive_solver.
Qed.

Lemma wf_same_shape v w :
  bv_wf v -> bv_wf w -> m_nbits v = m_nbits w -> same_shape v w.
Proof.
  intros Hv Hw Hn. split; [done|]. pose proof (wf_size v Hv). pose proof (wf_size w Hw). ulia.
Qed.

Lemma links_same_shape vs l o :
  link_wf vs l -> link_wf vs o -> same_shape (link_vec l) (link_vec o).
Proof.
  intros Hl Ho. apply wf_same_shape; [apply Hl|apply Ho|].
  by rewrite (lwf_size _ _ Hl), (lwf_size _ _ Ho).
Qed.

(** A link after step 3 of the union. *)
Definition or_link (others : list CBitSetLink) (l : CBitSetLink) : CBitSetLink :=
  match llookup others (m_offset l) with
  | Some o => link_set_vec l (CBitVector_Or (link_vec l) (link_vec o))
  | None => l
  end.

Lemma or_link_spec vs others l :
  links_wf vs others -> link_wf vs l ->
  link_wf vs (or_link others l) /\ m_offset (or_link others l) = m_offset l /\
  forall q, link_test (or_link others l) q = true <->
    link_test l q = true \/
    exists o, llookup others (m_offset l) = Some o /\ link_test o q = true.
Proof.
  intros Ho Hl. unfold or_link. destruct (llookup others (m_offset l)) as [o|] eqn:E.
  2: { split_and!; [done|done|]. intros q. split; [by left|]. by intros [?|(o & ? & _)]. }
  destruct (llookup_offset vs _ _ _ Ho E) as [Hin Hoff].
  pose proof (links_wf_elem vs _ o Ho Hin) as Hwo.
  pose proof (links_same_shape vs l o Hl Hwo) as Hsh. split_and!; [|done|].
  - split; simpl; [apply Or_wf; [apply Hl|apply Hwo|done]|apply Hl|apply Hl|].
    destruct (lwf_nonempty _ _ Hl) as [b Hb]. exists b.
    rewrite Or_test, Hb; [done|apply Hl|apply Hwo|done].
  - intros q. rewrite link_test_set_vec, Or_test by (apply Hl || apply Hwo || done).
    unfold link_test. rewrite andb_true_iff, orb_true_iff. split.
    + intros [H1 [H2|H2]]; [left; by rewrite H1, H2|]. right. exists o. split; [done|].
      rewrite Hoff. by rewrite H1, H2.
    + intros [[H1 H2]%andb_prop|(o' & [= <-] & [H1 H2]%andb_prop)]; [by auto|].
      rewrite Hoff in H1, H2. by auto.
Qed.

Lemma offsets_fmap f links :
  (forall l, l ∈ links -> m_offset (f l) = m_offset l) -> offsets (f <$> links) = offsets links.
Proof.
  intros H. unfold offsets. rewrite <-list_fmap_compose. apply list_fmap_ext.
  intros i l Hl. apply H. by eapply list_elem_of_lookup_2.
Qed.

Lemma filter_links_wf vs (P : CBitSetLink -> Prop) `{!forall l, Decision (P l)} links :
  links_wf vs links -> links_wf vs (filter P links).
Proof.
  intros [Hs Hf]. split.
  - unfold offsets in *. induction links as [|l links IH]; [constructor|].
    apply StronglySorted_inv in Hs as [Hs Hh]. apply Forall_cons in Hf as [_ Hf].
    rewrite filter_cons. case_decide; [|by apply IH]. constructor; [by apply IH|].
    apply Forall_fmap, Forall_forall. intros y [_ Hy]%list_elem_of_filter.
    rewrite Forall_forall in Hh. apply Hh, list_elem_of_fmap. eauto.
  - apply Forall_forall. intros y [_ Hy]%list_elem_of_filter.
    rewrite Forall_forall in Hf. by apply Hf.
Qed.

(** The links after the union's three steps. *)
Lemma union_links_spec vs links others :
  links_wf vs links -> links_wf vs others ->
  let links1 := union_insert links (union_missing links others None) None in
  links_wf vs links1 /\
  (forall x, x ∈ links1 <-> x ∈ links \/ (x ∈ others /\ llookup links (m_offset x) = None)) /\
  union_or links1 others None = or_link others <$> links1.
Proof.
  intros Hl Ho links1. unfold links1.
  rewrite (union_missing_spec vs links others None) by (done || apply Ho).
  set (P := fun o => llookup links (m_offset o) = None).
  assert (Hcopy : CBitSetLink_Copy <$> filter P others = filter P others).
  { transitivity (id <$> filter P others); [|apply list_fmap_id].
    apply list_fmap_ext. intros i o Hi. apply link_Copy_id.
    apply list_elem_of_lookup_2, list_elem_of_filter in Hi as [_ Hi].
    by apply (links_wf_elem vs others). }
  rewrite Hcopy.
  destruct (union_insert_spec vs links (filter P others) None) as [Hwf Hm];
    [done|by apply filter_links_wf| |done|].
  { intros l n Hin [Hn Hno]%list_elem_of_filter. unfold P in Hn.
    rewrite llookup_None in Hn. by apply Hn. }
  split_and!; [done| |].
  - intros x. rewrite Hm, list_elem_of_filter. unfold P. tauto.
  - apply (union_or_spec vs); [done|apply Hwf|done].
Qed.

Theorem Union_refines a b :
  bs_wf a -> bs_wf b -> m_vector_size a = m_vector_size b ->
  bs_refines (CBitSet_Union a b) (m_vector_size a) (bs_set a ∪ bs_set b).
Proof.
  intros Ha Hb Hvs. unfold CBitSet_Union. cbv zeta.
  pose proof (bswf_links _ Ha) as Hla. pose proof (bswf_links _ Hb) as Hlb.
  rewrite <-Hvs in Hlb. set (vs := m_vector_size a) in *.
  destruct (union_links_spec vs _ _ Hla Hlb) as (Hwf & Hm & ->).
  set (links1 := union_insert _ _ _) in *.
  assert (Hor : forall l, l ∈ links1 -> link_wf vs (or_link (m_bsllist b) l) /\
    m_offset (or_link (m_bsllist b) l) = m_offset l).
  { intros l Hl. destruct (or_link_spec vs (m_bsllist b) l) as (? & ? & _);
      [done|by eapply links_wf_elem|done]. }
  assert (Hwf' : links_wf vs (or_link (m_bsllist b) <$> links1)).
  { split.
    - rewrite offsets_fmap; [apply Hwf|]. intros; by apply Hor.
    - apply Forall_fmap, Forall_forall. intros; by apply Hor. }
  assert (Hmem : forall q, q ∈ bs_set a ∪ bs_set b <->
    exists y, y ∈ or_link (m_bsllist b) <$> links1 /\ link_test y q = true).
  { intros q. rewrite elem_of_union, !elem_of_bs_set.
    pose proof (fun l Hl => proj2 (proj2 (or_link_spec vs (m_bsllist b) l Hlb
      (links_wf_elem vs _ l Hwf Hl))) q) as Hy.
    split.
    - intros [(l & Hl & Ht)|(o & Ho & Ht)].
      + exists (or_link (m_bsllist b) l). assert (l ∈ links1) by (apply Hm; by left).
        split; [apply list_elem_of_fmap; eauto|]. apply Hy; [done|]. by left.
      + assert (exists l, l ∈ links1 /\ m_offset l = m_offset o) as (l & Hl & Hoff).
        { destruct (llookup (m_bsllist a) (m_offset o)) as [l|] eqn:E.
          - apply (llookup_offset vs) in E as [??]; [|done]. exists l. rewrite Hm. auto.
          - exists o. rewrite Hm. auto. }
        exists (or_link (m_bsllist b) l). split; [apply list_elem_of_fmap; eauto|].
        apply Hy; [done|]. right. exists o. split; [|done].
        by apply (llookup_Some vs).
    - intros (y & (l & -> & Hl)%list_elem_of_fmap & [Ht|(o & Ho & Ht)]%(Hy l Hl)).
      + apply Hm in Hl as [?|[? _]]; eauto.
      + apply (llookup_offset vs) in Ho as [Ho _]; [|done]. eauto. }
  apply bs_refines_recompute; [apply Ha|done|done].
Qed.

Lemma inter_link_spec vs others l l' :
  links_wf vs others -> link_wf vs l -> inter_link others l = Some l' ->
  link_wf vs l' /\ m_offset l' = m_offset l.
Proof.
  intros Ho Hl. unfold inter_link. destruct (llookup others (m_offset l)) as [o|] eqn:E; [|done].
  cbv zeta. destruct (CBitVector_IsEmpty _) eqn:Ee; [done|]. intros [= <-]. split; [|done].
  destruct (llookup_offset vs _ _ _ Ho E) as [Hin _].
  pose proof (links_wf_elem vs _ o Ho Hin) as Hwo.
  assert (Hv : bv_wf (CBitVector_And (link_vec l) (link_vec o)))
    by (apply And_wf; [apply Hl|apply Hwo|by apply (links_same_shape vs)]).
  split; simpl; [done|apply Hl|apply Hl|by apply not_IsEmpty_test].
Qed.

(** A link of the intersection holds the positions common to both sets. *)
Lemma inter_link_test vs others l q :
  links_wf vs others -> link_wf vs l ->
  (exists l', inter_link others l = Some l' /\ link_test l' q = true) <->
  link_test l q = true /\ exists o, llookup others (m_offset l) = Some o /\ link_test o q = true.
Proof.
  intros Ho Hl. unfold inter_link. destruct (llookup others (m_offset l)) as [o|] eqn:E.
  2: { split; [by intros (? & ? & _)|by intros (_ & ? & ? & _)]. }
  destruct (llookup_offset vs _ _ _ Ho E) as [Hin Hoff].
  pose proof (links_wf_elem vs _ o Ho Hin) as Hwo.
  pose proof (links_same_shape vs l o Hl Hwo) as Hsh.
  assert (Ht : forall b, bv_test (CBitVector_And (link_vec l) (link_vec o)) b =
    bv_test (link_vec l) b && bv_test (link_vec o) b)
    by (intros; apply And_test; [apply Hl|apply Hwo|done]).
  cbv zeta. destruct (CBitVector_IsEmpty _) eqn:Ee.
  - rewrite IsEmpty_test in Ee by (apply And_wf; [apply Hl|apply Hwo|done]).
    split; [by intros (? & ? & _)|]. intros ([H1 H2]%andb_prop & ? & [= <-] & [H3 H4]%andb_prop).
    exfalso. specialize (Ee (q - m_offset l)). rewrite Hoff in H4. by rewrite Ht, H2, H4 in Ee.
  - split.
    + intros (? & [= <-] & H). rewrite link_test_set_vec, Ht in H.
      apply andb_prop in H as [H1 [H2 H3]%andb_prop]. unfold link_test.
      rewrite H1, H2. split; [done|]. exists o. by rewrite Hoff, H1, H3.
    + intros ([H1 H2]%andb_prop & ? & [= <-] & [H3 H4]%andb_prop). eexists. split; [done|].
      rewrite Hoff in H4. by rewrite link_test_set_vec, Ht, H1, H2, H4.
Qed.

Lemma omap_links_wf vs g links :
  links_wf vs links ->
  (forall l l', l ∈ links -> g l = Some l' -> link_wf vs l' /\ m_offset l' = m_offset l) ->
  links_wf vs (omap g links).
Proof.
  intros [Hs Hf] Hg. split.
  - induction links as [|l links IH]; [constructor|].
    apply StronglySorted_inv in Hs as [Hs Hh]. apply Forall_cons in Hf as [_ Hf].
    assert (Hrec : StronglySorted N.lt (offsets (omap g links)))
      by (apply IH; [done..|intros; apply Hg; [by right|done]]).
    simpl. destruct (g l) as [l'|] eqn:E; [|done]. unfold offsets in *. simpl.
    constructor; [done|]. apply Forall_fmap, Forall_forall.
    intros y (x & Hx & Hgx)%list_elem_of_omap. simpl.
    destruct (Hg l l' ltac:(left) E) as [_ ->]. destruct (Hg x y ltac:(by right) Hgx) as [_ ->].
    rewrite Forall_forall in Hh. apply Hh, list_elem_of_fmap. eauto.
  - apply Forall_forall. intros y (x & Hx & Hgx)%list_elem_of_omap. by eapply Hg.
Qed.

Theorem Intersect_refines a b :
  bs_wf a -> bs_wf b -> m_vector_size a = m_vector_size b ->
  bs_refines (CBitSet_Intersect a b) (m_vector_size a) (bs_set a ∩ bs_set b).
Proof.
  intros Ha Hb Hvs. unfold CBitSet_Intersect. cbv zeta.
  pose proof (bswf_links _ Ha) as Hla. pose proof (bswf_links _ Hb) as Hlb.
  rewrite <-Hvs in Hlb. set (vs := m_vector_size a) in *.
  rewrite (inter_loop_spec vs) by (done || apply Hla).
  apply bs_refines_recompute; [apply Ha| |].
  - apply omap_links_wf; [done|]. intros l l' Hl.
    by apply inter_link_spec; [|apply (links_wf_elem vs _ l Hla)].
  - intros q. rewrite elem_of_intersection, !elem_of_bs_set.
    setoid_rewrite list_elem_of_omap. split.
    + intros [(l & Hl & Ht) (o & Ho & Hto)].
      pose proof (links_wf_elem vs _ l Hla Hl) as Hwl.
      pose proof (links_wf_elem vs _ o Hlb Ho) as Hwo.
      destruct (proj2 (inter_link_test vs (m_bsllist b) l q Hlb Hwl)) as (l' & H1 & H2); [|by eauto].
      split; [done|]. exists o. split; [|done]. apply (llookup_Some vs); [done|]. split; [done|].
      assert (0 < vs) by apply (bswf_vs _ Ha).
      transitivity (ComputeOffset vs q); [symmetry|]; by apply link_test_offset.
    + intros (l' & (l & Hl & Hi) & Ht). pose proof (links_wf_elem vs _ l Hla Hl) as Hwl.
      destruct (proj1 (inter_link_test vs (m_bsllist b) l q Hlb Hwl)) as (H1 & o & Ho & Hto);
        [by eauto|]. split; [by eauto|]. exists o. split; [|done].
      by apply (llookup_offset vs) in Ho as [? _].
Qed.

(** Two well-formed sets over the same vector size share the link at an offset. *)
Lemma ContainsAll_spec a b :
  bs_wf a -> bs_wf b -> m_vector_size a = m_vector_size b ->
  CBitSet_ContainsAll a b = bool_decide (bs_set b ⊆ bs_set a).
Proof.
  intros Ha Hb Hvs. apply bool_iff_eq. rewrite bool_decide_eq_true.
  unfold CBitSet_ContainsAll. rewrite !Size_spec by done.
  pose proof (bswf_links _ Ha) as Hla. pose proof (bswf_links _ Hb) as Hlb.
  rewrite <-Hvs in Hlb. assert (0 < m_vector_size a) by apply (bswf_vs _ Ha).
  destruct (N.ltb_spec (N.of_nat (size (bs_set a))) (N.of_nat (size (bs_set b)))) as [Hlt|_].
  { split; [done|]. intros Hsub%subseteq_size. lia. }
  rewrite (contains_loop_spec (m_vector_size a)) by (done || apply Hlb). split.
  - intros H1 q (o & Ho & Ht)%elem_of_bs_set. destruct (H1 o Ho) as (l & Hl & Hc).
    apply elem_of_bs_set. destruct (llookup_offset _ _ _ _ Hla Hl) as [Hin Hoff]. exists l.
    split; [done|]. pose proof (links_wf_elem _ _ l Hla Hin) as Hwl.
    pose proof (links_wf_elem _ _ o Hlb Ho) as Hwo.
    apply andb_prop in Ht as [Hle Ht]. unfold link_test. rewrite Hoff, Hle. simpl.
    eapply ContainsAll_test; [apply Hwl|apply Hwo|by eapply links_same_shape|done|done].
  - intros Hsub o Ho. pose proof (links_wf_elem _ _ o Hlb Ho) as Hwo.
    assert (Hin : forall b, bv_test (link_vec o) b = true ->
      exists l, llookup (m_bsllist a) (m_offset o) = Some l /\ bv_test (link_vec l) b = true).
    { intros x Hx. assert (Ht : link_test o (m_offset o + x) = true) by by rewrite link_test_at.
      assert (Hqa : m_offset o + x ∈ bs_set a) by (apply Hsub, elem_of_bs_set; eauto).
      apply elem_of_bs_set_lookup in Hqa as (l & Hl & Htl); [|done].
      rewrite (link_test_offset _ ltac:(done) o) in Hl by done. exists l. split; [done|].
      apply (llookup_offset _ _ _ _ Hla) in Hl as [_ Hoff].
      by rewrite <-Hoff, link_test_at in Htl. }
    destruct (lwf_nonempty _ _ Hwo) as [x Hx]. destruct (Hin x Hx) as (l & Hl & _).
    exists l. split; [done|]. destruct (llookup_offset _ _ _ _ Hla Hl) as [Hil _].
    pose proof (links_wf_elem _ _ l Hla Hil) as Hwl.
    apply ContainsAll_test; [apply Hwl|apply Hwo|by eapply links_same_shape|].
    intros y Hy. destruct (Hin y Hy) as (l' & Hl' & Ht'). congruence.
Qed.

Lemma IsDisjoint_spec a b :
  bs_wf a -> bs_wf b -> m_vector_size a = m_vector_size b ->
  CBitSet_IsDisjoint a b = bool_decide (bs_set a ## bs_set b).
Proof.
  intros Ha Hb Hvs. apply bool_iff_eq. rewrite bool_decide_eq_true.
  unfold CBitSet_IsDisjoint.
  pose proof (bswf_links _ Ha) as Hla. pose proof (bswf_links _ Hb) as Hlb.
  rewrite <-Hvs in Hlb. assert (0 < m_vector_size a) by apply (bswf_vs _ Ha).
  rewrite (disjoint_loop_spec (m_vector_size a)) by (done || apply Hlb). split.
  - intros Hd q Hqa (o & Ho & Ht)%elem_of_bs_set.
    apply elem_of_bs_set_lookup in Hqa as (l & Hl & Htl); [|done].
    pose proof (links_wf_elem _ _ o Hlb Ho) as Hwo.
    rewrite (link_test_offset _ ltac:(done) o) in Hl by done.
    destruct (llookup_offset _ _ _ _ Hla Hl) as [Hin Hoff].
    pose proof (links_wf_elem _ _ l Hla Hin) as Hwl.
    apply andb_prop in Ht as [_ Ht]. apply andb_prop in Htl as [_ Htl]. rewrite Hoff in Htl.
    eapply (IsDisjoint_test (link_vec l) (link_vec o)); [apply Hwl|apply Hwo
      |by eapply links_same_shape|by apply Hd|done|done].
  - intros Hd o l Ho Hl. destruct (llookup_offset _ _ _ _ Hla Hl) as [Hin Hoff].
    pose proof (links_wf_elem _ _ l Hla Hin) as Hwl.
    pose proof (links_wf_elem _ _ o Hlb Ho) as Hwo.
    apply IsDisjoint_test; [apply Hwl|apply Hwo|by eapply links_same_shape|].
    intros x Hx Hy. apply (Hd (m_offset o + x)); apply elem_of_bs_set.
    + exists l. by rewrite <-Hoff, link_test_at.
    + exists o. by rewrite link_test_at.
Qed.

(** ** Canonicity: a well-formed set is determined by its positions *)

Lemma elem_of_offsets vs links off :
  0 < vs -> links_wf vs links ->
  off ∈ offsets links <-> exists p, p ∈ links_bits links /\ ComputeOffset vs p = off.
Proof.
  intros Hvs Hwf. unfold offsets. rewrite list_elem_of_fmap.
  setoid_rewrite elem_of_links_bits. split.
  - intros (l & -> & Hl). pose proof (links_wf_elem vs _ l Hwf Hl) as Hw.
    destruct (lwf_nonempty _ _ Hw) as [b Hb]. exists (m_offset l + b).
    assert (link_test l (m_offset l + b) = true) by by rewrite link_test_at.
    split; [eauto|by apply link_test_offset].
  - intros (p & (l & Hl & Ht) & <-). exists l. split; [|done].
    apply link_test_offset; [done|by eapply links_wf_elem|done].
Qed.

(** The bits of a link are the positions of the list in its window. *)
Lemma link_bits_iff vs links l b :
  0 < vs -> links_wf vs links -> l ∈ links ->
  bv_test (link_vec l) b = true <-> b < vs /\ m_offset l + b ∈ links_bits links.
Proof.
  intros Hvs Hls Hx. pose proof (links_wf_elem vs _ l Hls Hx) as Hwx.
  rewrite elem_of_links_bits. split.
  - intros Hb. split; [rewrite <-(lwf_size _ _ Hwx); by apply wf_pad; [apply Hwx|]|].
    exists l. by rewrite link_test_at.
  - intros [Hb (y & Hy & Ht)]. assert (y = l) as ->; [|by rewrite link_test_at in Ht].
    eapply sorted_offset_inj; [apply Hls|done..|].
    rewrite <-(link_test_offset vs Hvs y (m_offset l + b)); [|by eapply links_wf_elem|done].
    destruct (lwf_offset _ _ Hwx) as [k Hk]. rewrite Hk. apply ComputeOffset_unique; lia.
Qed.

Lemma links_ext vs links others :
  0 < vs -> links_wf vs links -> links_wf vs others ->
  (forall p, p ∈ links_bits links <-> p ∈ links_bits others) -> links = others.
Proof.
  intros Hvs Hl Ho H. assert (Hoff : offsets links = offsets others).
  { apply sorted_lt_unique; [apply Hl|apply Ho|]. intros off.
    rewrite !(elem_of_offsets vs) by done. setoid_rewrite H. done. }
  apply list_eq. intros i. assert (Hlen : length links = length others).
  { apply (f_equal length) in Hoff. unfold offsets in Hoff. by rewrite !length_fmap in Hoff. }
  destruct (links !! i) as [l|] eqn:El.
  2: { symmetry. apply lookup_ge_None in El. apply lookup_ge_None. lia. }
  destruct (lookup_lt_is_Some_2 others i) as [o Eo].
  { rewrite <-Hlen. by eapply lookup_lt_Some. }
  rewrite Eo. f_equal.
  assert (Hlo : m_offset l = m_offset o).
  { apply (f_equal (fun x => x !! i)) in Hoff. unfold offsets in Hoff.
    rewrite !list_lookup_fmap, El, Eo in Hoff. by injection Hoff. }
  assert (Hil : l ∈ links) by by eapply list_elem_of_lookup_2.
  assert (Hio : o ∈ others) by by eapply list_elem_of_lookup_2.
  pose proof (links_wf_elem vs _ l Hl Hil) as Hwl. pose proof (links_wf_elem vs _ o Ho Hio) as Hwo.
  assert (Hv : link_vec l = link_vec o).
  { apply bv_ext; [apply Hwl|apply Hwo|by eapply links_same_shape|]. intros b.
    apply bool_iff_eq. rewrite (link_bits_iff vs links l), (link_bits_iff vs others o), Hlo, H by done. done. }
  destruct l, o; simpl in *; congruence.
Qed.

Theorem bs_ext a b :
  bs_wf a -> bs_wf b -> m_vector_size a = m_vector_size b -> bs_set a = bs_set b -> a = b.
Proof.
  intros Ha Hb Hvs HS. assert (Hl : m_bsllist a = m_bsllist b).
  { apply (links_ext (m_vector_size a)); [apply (bswf_vs _ Ha)|apply Ha|rewrite Hvs; apply Hb|].
    intros p. unfold bs_set in HS.
    by rewrite <-!(elem_of_list_to_set (C := gset N)), HS. }
  assert (Hn : m_size a = m_size b).
  { rewrite (bswf_size _ Ha), (bswf_size _ Hb). by rewrite Hl. }
  destruct a, b; simpl in *; congruence.
Qed.

Lemma equals_loop_spec links others :
  equals_loop links others = true <->
  Forall2 (fun l o => m_offset l = m_offset o /\
                      CBitVector_Equals (link_vec l) (link_vec o) = true) links others.
Proof.
  revert others. induction links as [|l links IH]; intros [|o others]; simpl;
    [by split|by split; [|inversion 1]|by split; [|inversion 1]|].
  rewrite !andb_true_iff, N.eqb_eq, IH. split.
  - intros [[??]?]. by constructor.
  - by inversion 1.
Qed.

Lemma Equals_spec a b :
  bs_wf a -> bs_wf b -> m_vector_size a = m_vector_size b ->
  CBitSet_Equals a b = bool_decide (bs_set a = bs_set b).
Proof.
  intros Ha Hb Hvs. apply bool_iff_eq. rewrite bool_decide_eq_true.
  unfold CBitSet_Equals. rewrite !Size_spec by done. split.
  - destruct (_ =? _); simpl; [|done]. rewrite equals_loop_spec. intros HF.
    apply set_eq. intros q. rewrite !elem_of_bs_set.
    assert (Hl : m_bsllist a = m_bsllist b); [|by rewrite Hl].
    pose proof (lswf_links _ _ (bswf_links _ Ha)) as Fa.
    pose proof (lswf_links _ _ (bswf_links _ Hb)) as Fb. rewrite <-Hvs in Fb.
    induction HF as [|l o links others [Ho He] HF IH]; [done|].
    apply Forall_cons in Fa as [Hl Fa]. apply Forall_cons in Fb as [Hlo Fb].
    f_equal; [|by apply IH].
    assert (link_vec l = link_vec o); [|destruct l, o; simpl in *; congruence].
    apply bv_ext; [apply Hl|apply Hlo|by eapply links_same_shape|].
    apply Equals_test; [apply Hl|apply Hlo|by eapply links_same_shape|done].
  - intros HS. assert (a = b) as -> by by apply bs_ext. rewrite N.eqb_refl. simpl.
    apply equals_loop_spec, Forall2_same_length_lookup_2; [done|].
    intros i x y Hx Hy. assert (x = y) as -> by congruence.
    split; [done|]. by apply bool_decide_eq_true_2.
Qed.

(** ** The iterator visits the positions in increasing order *)

(** [GetNextSetBit] takes the head of the positions from [start] on. *)
Lemma GetNextSetBit_bits v start :
  bv_wf v ->
  match CBitVector_GetNextSetBit v start with
  | Some c => start <= c < m_nbits v /\
      filter (fun b => start <= b) (bv_bits v) = c :: filter (fun b => c + 1 <= b) (bv_bits v)
  | None => filter (fun b => start <= b) (bv_bits v) = []
  end.
Proof.
  intros Hv. pose proof (GetNextSetBit_spec v start Hv) as Hn.
  destruct (CBitVector_GetNextSetBit v start) as [c|]; simpl in Hn.
  - destruct Hn as (Hle & Hc & Hmin). split; [split; [done|by apply wf_pad]|].
    apply sorted_lt_unique.
    + apply StronglySorted_filter_lt, bv_bits_sorted.
    + constructor; [apply StronglySorted_filter_lt, bv_bits_sorted|].
      apply Forall_forall. intros x [Hx _]%list_elem_of_filter. simpl in *. lia.
    + intros x. rewrite elem_of_cons, !list_elem_of_filter, !elem_of_bv_bits. split.
      * intros [Hsx Hx]. destruct (N.lt_trichotomy x c) as [Hlt|[?|?]]; [|by left|].
        { rewrite Hmin in Hx by lia. done. }
        right. split; [lia|done].
      * intros [->|[? ?]]; [done|]. split; [lia|done].
  - apply elem_of_nil_inv. intros x [Hsx Hx]%list_elem_of_filter.
    rewrite elem_of_bv_bits, Hn in Hx by done. done.
Qed.

(** The positions still to be visited from position [start] of the first link. *)
Definition rem_bits (links : list CBitSetLink) (start : N) : list N :=
  match links with
  | [] => []
  | l :: rest => ((fun b => m_offset l + b) <$>
                  filter (fun b => start <= b) (bv_bits (link_vec l))) ++ links_bits rest
  end.

Lemma rem_bits_0 links : rem_bits links 0 = links_bits links.
Proof.
  destruct links as [|l links]; [done|]. simpl. do 2 f_equal.
  induction (bv_bits (link_vec l)) as [|b bs IH]; [done|].
  rewrite filter_cons_True by lia. by rewrite IH.
Qed.

Lemma advance_loop_spec vs rest idx cursor :
  vs <= ulong_max -> Forall (link_wf vs) rest -> cursor +[32] 1 <= vs ->
  match advance_loop vs rest idx cursor with
  | Some (i, c) => exists l,
      rest !! (i - idx)%nat = Some l /\ (idx <= i)%nat /\ c < vs /\
      rem_bits rest (cursor +[32] 1) =
        (m_offset l + c) :: rem_bits (drop (i - idx) rest) (c + 1)
  | None => rem_bits rest (cursor +[32] 1) = []
  end.
Proof.
  intros Hvs Hf. revert idx cursor. induction Hf as [|l rest Hl Hf IH]; intros idx cursor Hc; [done|].
  cbn [advance_loop]. rewrite (proj2 (N.leb_le _ _) Hc).
  pose proof (GetNextSetBit_bits (link_vec l) (cursor +[32] 1) (lwf_vec _ _ Hl)) as Hn.
  destruct (CBitVector_GetNextSetBit _ _) as [c|].
  - destruct Hn as [Hb Hn]. exists l. rewrite Nat.sub_diag. cbn [lookup list_lookup drop].
    split_and!; [done|lia|rewrite <-(lwf_size _ _ Hl); lia|].
    unfold rem_bits at 1. by rewrite Hn.
  - assert (Hr : rem_bits (l :: rest) (cursor +[32] 1) = rem_bits rest (ulong_max +[32] 1)).
    { unfold rem_bits at 1. rewrite Hn. change (ulong_max +[32] 1) with 0.
      by rewrite rem_bits_0. }
    rewrite Hr. specialize (IH (S idx) ulong_max). change (ulong_max +[32] 1) with 0 in *.
    specialize (IH ltac:(lia)).
    destruct (advance_loop vs rest (S idx) ulong_max) as [[i c]|]; [|done].
    destruct IH as (l' & Hi & Hle & Hc' & IH). exists l'.
    replace (i - idx)%nat with (S (i - S idx)) by lia. split_and!; [done|lia|done|done].
Qed.

(** The positions an iterator has still to visit. *)
Definition it_rest (bs : CBitSet) (it : CBitSetIter) : list N :=
  rem_bits (drop (default 0%nat (it_bsl it)) (m_bsllist bs)) (it_cursor it +[32] 1).

Lemma Advance_spec bs it :
  bs_wf bs -> it_cursor it +[32] 1 <= m_vector_size bs ->
  match CBitSetIter_Advance bs it with
  | (it', true) => it_cursor it' +[32] 1 <= m_vector_size bs /\
      it_rest bs it = CBitSetIter_Bit bs it' :: it_rest bs it'
  | (_, false) => it_rest bs it = []
  end.
Proof.
  intros Hwf Hc. unfold CBitSetIter_Advance. set (first := default 0%nat (it_bsl it)).
  pose proof (advance_loop_spec (m_vector_size bs) (drop first (m_bsllist bs)) first
    (it_cursor it) (proj2 (bswf_vs _ Hwf))
    (Forall_drop _ _ _ (lswf_links _ _ (bswf_links _ Hwf))) Hc) as H.
  destruct (advance_loop _ _ _ _) as [[i c]|]; [|done].
  destruct H as (l & Hl & Hle & Hlt & H). simpl.
  pose proof (proj2 (bswf_vs _ Hwf)). unfold ulong_max in *.
  assert (Hw : c +[32] 1 = c + 1).
  { apply wrap_small. change (2 ^ 32) with 4294967296. lia. }
  split; [lia|]. unfold it_rest. fold first. rewrite H. unfold CBitSetIter_Bit. simpl.
  rewrite lookup_drop in Hl. replace (first + (i - first))%nat with i in Hl by lia.
  rewrite Hl, Hw. f_equal. rewrite drop_drop. do 2 f_equal. lia.
Qed.

Lemma iter_collect_spec fuel bs it :
  bs_wf bs -> it_cursor it +[32] 1 <= m_vector_size bs ->
  (length (it_rest bs it) < fuel)%nat -> iter_collect fuel bs it = it_rest bs it.
Proof.
  intros Hwf. revert it. induction fuel as [|fuel IH]; intros it Hc Hf; [lia|]. simpl.
  pose proof (Advance_spec bs it Hwf Hc) as Ha.
  destruct (CBitSetIter_Advance bs it) as [it' []]; [|done].
  destruct Ha as [Hc' Ha]. rewrite Ha in Hf |- *. simpl in Hf. rewrite IH by (done || lia). done.
Qed.

Lemma bits_links bs : bs_wf bs -> CBitSet_bits bs = links_bits (m_bsllist bs).
Proof.
  intros Hwf. assert (Hr : it_rest bs CBitSetIter_New = links_bits (m_bsllist bs)).
  { unfold it_rest. simpl. by rewrite rem_bits_0. }
  unfold CBitSet_bits. rewrite iter_collect_spec; [done|done| |].
  - change (0 <= m_vector_size bs). lia.
  - rewrite Hr. unfold CBitSet_Size. rewrite (bswf_size _ Hwf). lia.
Qed.

Lemma bits_sorted bs : bs_wf bs -> StronglySorted N.lt (CBitSet_bits bs).
Proof.
  intros Hwf. rewrite bits_links by done.
  apply (links_bits_sorted (m_vector_size bs)); [apply (bswf_vs _ Hwf)|apply Hwf].
Qed.

Lemma elem_of_bits bs p : bs_wf bs -> p ∈ CBitSet_bits bs <-> p ∈ bs_set bs.
Proof. intros Hwf. rewrite bits_links by done. unfold bs_set. by rewrite elem_of_list_to_set. Qed.

(** ** Copy and Difference *)

Lemma Copy_refines bs :
  bs_wf bs -> bs_refines (CBitSet_Copy bs) (m_vector_size bs) (bs_set bs).
Proof.
  intros Hwf. destruct (New_spec (m_vector_size bs) (bswf_vs _ Hwf)) as [Hn He].
  unfold CBitSet_Copy. pose proof (Union_refines _ _ Hn Hwf eq_refl) as H.
  by rewrite He, (left_id_L ∅ (∪)) in H.
Qed.

Lemma Copy_id bs : bs_wf bs -> CBitSet_Copy bs = bs.
Proof. intros Hwf. destruct (Copy_refines bs Hwf) as (? & ? & ?). by apply bs_ext. Qed.

Lemma clear_all_refines ps bs vs X :
  bs_refines bs vs X ->
  bs_refines (fold_left (fun s pos => (CBitSet_ExchangeClear s pos).1) ps bs) vs
    (X ∖ list_to_set ps).
Proof.
  revert bs X. induction ps as [|p ps IH]; intros bs X (Hwf & Hvs & HX); simpl.
  { rewrite difference_empty_L. by split_and!. }
  replace (X ∖ ({[p]} ∪ list_to_set ps)) with ((X ∖ {[p]}) ∖ list_to_set ps) by set_solver.
  apply IH. destruct (ExchangeClear_refines bs p Hwf) as [H _]. by rewrite Hvs, HX in H.
Qed.

Theorem Difference_refines a b :
  bs_wf a -> bs_wf b -> m_vector_size a = m_vector_size b ->
  bs_refines (CBitSet_Difference a b) (m_vector_size a) (bs_set a ∖ bs_set b).
Proof.
  intros Ha Hb Hvs. unfold CBitSet_Difference. rewrite IsDisjoint_spec by done.
  case_bool_decide as Hd.
  - split_and!; [done..|]. set_solver.
  - replace (bs_set b) with (list_to_set (CBitSet_bits b) : gset N).
    + by apply clear_all_refines.
    + apply set_eq. intros x. by rewrite elem_of_list_to_set, elem_of_bits.
Qed.

(** ** Properties *)

(** On a well-formed set, [ExchangeSet] and [ExchangeClear] add and remove
    one position, return whether it was there, keep the set well formed (links
    in offset order, none empty, the cached size exact), and [Get] then reads
    the new set. *)
Theorem Exchange_correct bs p (Hwf : bs_wf bs) :
  bs_refines (CBitSet_ExchangeSet bs p).1 (m_vector_size bs) ({[p]} ∪ bs_set bs) /\
  (CBitSet_ExchangeSet bs p).2 = bool_decide (p ∈ bs_set bs) /\
  bs_refines (CBitSet_ExchangeClear bs p).1 (m_vector_size bs) (bs_set bs ∖ {[p]}) /\
  (CBitSet_ExchangeClear bs p).2 = bool_decide (p ∈ bs_set bs) /\
  (forall q, CBitSet_Get (CBitSet_ExchangeSet bs p).1 q = bool_decide (q = p) || CBitSet_Get bs q) /\
  (forall q, CBitSet_Get (CBitSet_ExchangeClear bs p).1 q =
     negb (bool_decide (q = p)) && CBitSet_Get bs q).
Proof.
  destruct (ExchangeSet_refines bs p Hwf) as [Hs Hsb].
  destruct (ExchangeClear_refines bs p Hwf) as [Hc Hcb].
  split_and!; [done..| |]; intros q.
  - destruct Hs as (Hwf' & _ & HX). rewrite !Get_spec, HX by done. apply bool_iff_eq.
    rewrite orb_true_iff, !bool_decide_eq_true. set_solver.
  - destruct Hc as (Hwf' & _ & HX). rewrite !Get_spec, HX by done. apply bool_iff_eq.
    rewrite andb_true_iff, negb_true_iff, bool_decide_eq_false, !bool_decide_eq_true. set_solver.
Qed.

(** The set {3, 300, 9} with vectors of 256 bits. *)
Definition sample_bitset : CBitSet :=
  fold_left (fun s p => (CBitSet_ExchangeSet s p).1) [3; 300; 9] (CBitSet_New 256).

Lemma sample_bitset_wf : bs_wf sample_bitset.
Proof.
  unfold sample_bitset. cbn [fold_left].
  repeat (apply ExchangeSet_refines). by apply New_spec.
Qed.

Lemma Exchange_correct_witness :
  (CBitSet_ExchangeClear sample_bitset 300).2 = true /\
  CBitSet_Get (CBitSet_ExchangeClear sample_bitset 300).1 300 = false.
Proof.
  destruct (Exchange_correct sample_bitset 300 sample_bitset_wf) as (_ & _ & _ & _ & _ & H).
  split; [vm_compute; reflexivity|]. rewrite H. reflexivity.
Defined.

(** [Union], [Intersection] and [Difference] of well-formed sets over the
    same vector size are the union, intersection and difference of their
    positions, in a well-formed set again: the moving cursors of the bulk loops
    lose no link. *)
Theorem bulk_operations_correct a b (Ha : bs_wf a) (Hb : bs_wf b)
    (Hvs : m_vector_size a = m_vector_size b) :
  bs_refines (CBitSet_Union a b) (m_vector_size a) (bs_set a ∪ bs_set b) /\
  bs_refines (CBitSet_Intersection a (Some b)) (m_vector_size a) (bs_set a ∩ bs_set b) /\
  bs_refines (CBitSet_Difference a b) (m_vector_size a) (bs_set a ∖ bs_set b).
Proof.
  split_and!; [by apply Union_refines|by apply Intersect_refines|by apply Difference_refines].
Qed.

Lemma bulk_operations_correct_witness :
  CBitSet_bits (CBitSet_Intersection sample_bitset (Some (CBitSet_ExchangeSet (CBitSet_New 256) 9).1))
    = [9] /\
  bs_refines (CBitSet_Union sample_bitset (CBitSet_New 256)) (m_vector_size sample_bitset)
    (bs_set sample_bitset ∪ bs_set (CBitSet_New 256)).
Proof.
  split; [vm_compute; reflexivity|].
  apply (bulk_operations_correct sample_bitset (CBitSet_New 256)).
  - apply sample_bitset_wf.
  - by apply New_spec.
  - vm_compute. reflexivity.
Defined.

(** A [CBitSetIter] over a well-formed set visits its positions in strictly
    increasing order, each exactly once, and then ends; there are [Size] of
    them. *)
Theorem CBitSetIter_visits bs (Hwf : bs_wf bs) :
  StronglySorted N.lt (CBitSet_bits bs) /\
  (forall p, p ∈ CBitSet_bits bs <-> CBitSet_Get bs p = true) /\
  N.of_nat (length (CBitSet_bits bs)) = CBitSet_Size bs.
Proof.
  split_and!; [by apply bits_sorted| |].
  - intros p. rewrite elem_of_bits, Get_spec, bool_decide_eq_true by done. done.
  - rewrite bits_links by done. unfold CBitSet_Size. by rewrite (bswf_size _ Hwf).
Qed.

Lemma CBitSetIter_visits_witness :
  CBitSet_bits sample_bitset = [3; 9; 300] /\ StronglySorted N.lt (CBitSet_bits sample_bitset).
Proof.
  split; [vm_compute; reflexivity|]. exact (proj1 (CBitSetIter_visits sample_bitset sample_bitset_wf)).
Defined.

(** A well-formed set is determined by its positions: two sets over the same
    vector size are [Equals] exactly when they have the same positions, and then
    they have the same hash value and contain each other, whatever operations
    built them. *)
Theorem Equals_canonical a b (Ha : bs_wf a) (Hb : bs_wf b)
    (Hvs : m_vector_size a = m_vector_size b) :
  (CBitSet_Equals a b = true <-> forall p, CBitSet_Get a p = CBitSet_Get b p) /\
  (CBitSet_Equals a b = true -> CBitSet_HashValue a = CBitSet_HashValue b /\
     CBitSet_ContainsAll a b = true /\ CBitSet_ContainsAll b a = true).
Proof.
  rewrite Equals_spec by done. split.
  - rewrite bool_decide_eq_true. split.
    + intros HS p. by rewrite !Get_spec, HS by done.
    + intros HG. apply set_eq. intros p. specialize (HG p). rewrite !Get_spec in HG by done.
      repeat case_bool_decide; done.
  - intros HS. breflect. assert (a = b) as -> by (by apply bs_ext).
    rewrite ContainsAll_spec by done. by rewrite bool_decide_true.
Qed.

Lemma Equals_canonical_witness :
  CBitSet_Equals (CBitSet_ExchangeClear (CBitSet_ExchangeSet sample_bitset 1000).1 1000).1
    sample_bitset = true /\
  CBitSet_HashValue (CBitSet_ExchangeClear (CBitSet_ExchangeSet sample_bitset 1000).1 1000).1 =
    CBitSet_HashValue sample_bitset.
Proof.
  assert (He : CBitSet_Equals (CBitSet_ExchangeClear (CBitSet_ExchangeSet sample_bitset 1000).1 1000).1
    sample_bitset = true) by (vm_compute; reflexivity).
  split; [exact He|]. apply (Equals_canonical _ sample_bitset); [| | |exact He].
  - apply ExchangeClear_refines, ExchangeSet_refines, sample_bitset_wf.
  - apply sample_bitset_wf.
  - vm_compute. reflexivity.
Defined.
