(* ===== verification/NodeSet.v ===== *)
(** * The interface of bit sets to their clients

    Every client of [CBitSet] in the join-order code (hypergraph, enumerator,
    plan, order constraints, join regions) uses it only through its methods
    and as a set of node numbers.  [NodeSet] is that contract: the methods,
    each with its law over the finite set [to_gset] of the positions, and the
    iterator as the strictly increasing list of them.  The clients are written
    and proved against the class.  [bitset_NodeSet] discharges it with the
    well-formed [CBitSet]s of the default vector size, so what is proved of a
    client holds of the implementation; [gset_NodeSet] is the reference
    instance, used to evaluate the clients. *)

From S2P Require Import Prelude BitVector BitSet.

Open Scope N_scope.

Class NodeSet (BS : Type) := {
  to_gset : BS -> gset N;
  ns_empty : BS;                            (* CBitSet(mp) *)
  ns_ExchangeSet : BS -> N -> BS * bool;
  ns_ExchangeClear : BS -> N -> BS * bool;
  ns_Union : BS -> BS -> BS;
  ns_Intersection : BS -> BS -> BS;
  ns_Difference : BS -> BS -> BS;
  ns_Get : BS -> N -> bool;
  ns_ContainsAll : BS -> BS -> bool;        (* this ⊇ other *)
  ns_IsDisjoint : BS -> BS -> bool;
  ns_Equals : BS -> BS -> bool;
  ns_Size : BS -> N;
  ns_bits : BS -> list N;                   (* what a CBitSetIter visits *)
  ns_HashValue : BS -> N;

  empty_law : to_gset ns_empty = ∅;
  ExchangeSet_law s p : to_gset (ns_ExchangeSet s p).1 = {[p]} ∪ to_gset s;
  ExchangeSet_old s p : (ns_ExchangeSet s p).2 = bool_decide (p ∈ to_gset s);
  ExchangeClear_law s p : to_gset (ns_ExchangeClear s p).1 = to_gset s ∖ {[p]};
  ExchangeClear_old s p : (ns_ExchangeClear s p).2 = bool_decide (p ∈ to_gset s);
  Union_law s t : to_gset (ns_Union s t) = to_gset s ∪ to_gset t;
  Intersection_law s t : to_gset (ns_Intersection s t) = to_gset s ∩ to_gset t;
  Difference_law s t : to_gset (ns_Difference s t) = to_gset s ∖ to_gset t;
  Get_law s p : ns_Get s p = bool_decide (p ∈ to_gset s);
  ContainsAll_law s t : ns_ContainsAll s t = bool_decide (to_gset t ⊆ to_gset s);
  IsDisjoint_law s t : ns_IsDisjoint s t = bool_decide (to_gset s ## to_gset t);
  Equals_law s t : ns_Equals s t = bool_decide (to_gset s = to_gset t);
  Size_law s : ns_Size s = N.of_nat (size (to_gset s));
  bits_law s p : p ∈ ns_bits s <-> p ∈ to_gset s;
  bits_sorted_law s : StronglySorted N.lt (ns_bits s);
  (* equal sets have equal hash values, whatever operations built them *)
  HashValue_law s t : to_gset s = to_gset t -> ns_HashValue s = ns_HashValue t
}.

(** ** The implementation: well-formed [CBitSet]s *)

(** [CBitSet(mp)] has [vector_size = 256]. *)
Definition CBITSET_VECTOR_SIZE : N := 256.

Record bitset := MkWfBitset {
  raw : CBitSet;
  raw_wf : bs_wf raw;
  raw_vs : m_vector_size raw = CBITSET_VECTOR_SIZE
}.

Definition mk_bitset {bs X} (H : bs_refines bs CBITSET_VECTOR_SIZE X) : bitset :=
  MkWfBitset bs (proj1 H) (proj1 (proj2 H)).

(** A method that refines a set operation, lifted to well-formed sets. *)
Section lift.
Context (s t : bitset).

Lemma raw_refines : bs_refines (raw s) CBITSET_VECTOR_SIZE (bs_set (raw s)).
Proof. split_and!; [apply raw_wf|apply raw_vs|done]. Qed.

Lemma raw_same_vs : m_vector_size (raw s) = m_vector_size (raw t).
Proof. by rewrite !raw_vs. Qed.

Lemma new_refines : bs_refines (CBitSet_New CBITSET_VECTOR_SIZE) CBITSET_VECTOR_SIZE ∅.
Proof. destruct (New_spec CBITSET_VECTOR_SIZE) as [??]; [done|]. by split_and!. Qed.

Lemma set_refines p :
  bs_refines (CBitSet_ExchangeSet (raw s) p).1 CBITSET_VECTOR_SIZE ({[p]} ∪ bs_set (raw s)).
Proof. rewrite <-(raw_vs s). apply ExchangeSet_refines, raw_wf. Qed.

Lemma clear_refines p :
  bs_refines (CBitSet_ExchangeClear (raw s) p).1 CBITSET_VECTOR_SIZE (bs_set (raw s) ∖ {[p]}).
Proof. rewrite <-(raw_vs s). apply ExchangeClear_refines, raw_wf. Qed.

Lemma union_refines :
  bs_refines (CBitSet_Union (raw s) (raw t)) CBITSET_VECTOR_SIZE (bs_set (raw s) ∪ bs_set (raw t)).
Proof. rewrite <-(raw_vs s). apply Union_refines; [apply raw_wf..|apply raw_same_vs]. Qed.

Lemma inter_refines :
  bs_refines (CBitSet_Intersection (raw s) (Some (raw t))) CBITSET_VECTOR_SIZE
    (bs_set (raw s) ∩ bs_set (raw t)).
Proof. rewrite <-(raw_vs s). apply Intersect_refines; [apply raw_wf..|apply raw_same_vs]. Qed.

Lemma diff_refines :
  bs_refines (CBitSet_Difference (raw s) (raw t)) CBITSET_VECTOR_SIZE
    (bs_set (raw s) ∖ bs_set (raw t)).
Proof. rewrite <-(raw_vs s). apply Difference_refines; [apply raw_wf..|apply raw_same_vs]. Qed.
End lift.

#[global, program] Instance bitset_NodeSet : NodeSet bitset := {
  to_gset s := bs_set (raw s);
  ns_empty := mk_bitset new_refines;
  ns_ExchangeSet s p := (mk_bitset (set_refines s p), (CBitSet_ExchangeSet (raw s) p).2);
  ns_ExchangeClear s p := (mk_bitset (clear_refines s p), (CBitSet_ExchangeClear (raw s) p).2);
  ns_Union s t := mk_bitset (union_refines s t);
  ns_Intersection s t := mk_bitset (inter_refines s t);
  ns_Difference s t := mk_bitset (diff_refines s t);
  ns_Get s p := CBitSet_Get (raw s) p;
  ns_ContainsAll s t := CBitSet_ContainsAll (raw s) (raw t);
  ns_IsDisjoint s t := CBitSet_IsDisjoint (raw s) (raw t);
  ns_Equals s t := CBitSet_Equals (raw s) (raw t);
  ns_Size s := CBitSet_Size (raw s);
  ns_bits s := CBitSet_bits (raw s);
  ns_HashValue s := CBitSet_HashValue (raw s)
}.
Next Obligation. apply new_refines. Qed.
Next Obligation. intros. apply set_refines. Qed.
Next Obligation. intros. apply ExchangeSet_refines, raw_wf. Qed.
Next Obligation. intros. apply clear_refines. Qed.
Next Obligation. intros. apply ExchangeClear_refines, raw_wf. Qed.
Next Obligation. intros. apply union_refines. Qed.
Next Obligation. intros. apply inter_refines. Qed.
Next Obligation. intros. apply diff_refines. Qed.
Next Obligation. intros. apply Get_spec, raw_wf. Qed.
Next Obligation. intros. apply ContainsAll_spec; [apply raw_wf..|apply raw_same_vs]. Qed.
Next Obligation. intros. apply IsDisjoint_spec; [apply raw_wf..|apply raw_same_vs]. Qed.
Next Obligation. intros. apply Equals_spec; [apply raw_wf..|apply raw_same_vs]. Qed.
Next Obligation. intros. apply Size_spec, raw_wf. Qed.
Next Obligation. intros. apply elem_of_bits, raw_wf. Qed.
Next Obligation. intros. apply bits_sorted, raw_wf. Qed.
Next Obligation.
  intros s t H. simpl in *. f_equal. apply bs_ext; [apply raw_wf..|apply raw_same_vs|done].
Qed.

(** ** The reference instance *)

#[global, program] Instance gset_NodeSet : NodeSet (gset N) := {
  to_gset s := s;
  ns_empty := ∅;
  ns_ExchangeSet s p := ({[p]} ∪ s, bool_decide (p ∈ s));
  ns_ExchangeClear s p := (s ∖ {[p]}, bool_decide (p ∈ s));
  ns_Union s t := s ∪ t;
  ns_Intersection s t := s ∩ t;
  ns_Difference s t := s ∖ t;
  ns_Get s p := bool_decide (p ∈ s);
  ns_ContainsAll s t := bool_decide (t ⊆ s);
  ns_IsDisjoint s t := bool_decide (s ## t);
  ns_Equals s t := bool_decide (s = t);
  ns_Size s := N.of_nat (size s);
  ns_bits s := merge_sort N.le (elements s);
  ns_HashValue s := fold_right N.add 0 (merge_sort N.le (elements s))
}.
Solve Obligations with try done.
Next Obligation. intros. simpl. rewrite merge_sort_Permutation. apply elem_of_elements. Qed.
Next Obligation.
  intros s. simpl.
  assert (Hs : StronglySorted N.le (merge_sort N.le (elements s))).
  { apply (StronglySorted_merge_sort N.le). }
  assert (Hn : NoDup (merge_sort N.le (elements s)))
    by (rewrite merge_sort_Permutation; apply NoDup_elements).
  induction Hs as [|x l Hs IH Hf]; [constructor|].
  apply NoDup_cons in Hn as [Hx Hn]. constructor; [by apply IH|].
  rewrite Forall_forall in Hf |- *. intros y Hy. specialize (Hf y Hy).
  assert (x <> y) by congruence. lia.
Qed.
Next Obligation. by intros s t ->. Qed.

(** ** Working with the interface *)

Create Rewrite HintDb ns.
#[export] Hint Rewrite @empty_law @ExchangeSet_law @ExchangeClear_law @Union_law
  @Intersection_law @Difference_law @Get_law @ContainsAll_law @IsDisjoint_law
  @Equals_law @Size_law : ns.

(** Read every method call of the goal and the hypotheses as its law. *)
Tactic Notation "ns_simpl" := autorewrite with ns.
Tactic Notation "ns_simpl" "in" "*" := autorewrite with ns in *.

(** Reduce a goal on node sets to finite sets and solve it. *)
Ltac ns_solver := autorewrite with ns in *; breflect; set_solver.

Section client_lemmas.
Context {BS : Type} `{NodeSet BS}.
Implicit Types (s : BS) (p : N).

(** [iter.Advance(); iter.Bit()] on a fresh iterator. *)
Definition first_bit (s : BS) : option N := head (ns_bits s).

Lemma bits_NoDup s : NoDup (ns_bits s).
Proof. apply sorted_lt_NoDup, bits_sorted_law. Qed.

Lemma bits_list_to_set s : list_to_set (ns_bits s) = to_gset s.
Proof. apply set_eq. intros x. by rewrite elem_of_list_to_set, bits_law. Qed.

Lemma length_bits s : length (ns_bits s) = size (to_gset s).
Proof. rewrite <-bits_list_to_set. rewrite size_list_to_set; [done|apply bits_NoDup]. Qed.

Lemma first_bit_Some s p :
  first_bit s = Some p <-> p ∈ to_gset s /\ forall q, q ∈ to_gset s -> p <= q.
Proof.
  unfold first_bit. pose proof (bits_sorted_law s) as Hs.
  setoid_rewrite <-bits_law. destruct (ns_bits s) as [|x l]; simpl.
  { split; [done|]. by intros [?%elem_of_nil _]. }
  apply StronglySorted_inv in Hs as [_ Hf]. rewrite Forall_forall in Hf. split.
  - intros [= ->]. split; [left|]. intros q [->|Hq]%elem_of_cons; [done|].
    specialize (Hf q Hq). lia.
  - intros [[->|Hp]%elem_of_cons Hmin]; [done|].
    specialize (Hf p Hp). specialize (Hmin x ltac:(left)). lia.
Qed.

Lemma first_bit_is_Some s : to_gset s <> ∅ -> is_Some (first_bit s).
Proof.
  intros Hne. apply set_choose_L in Hne as [x Hx]. rewrite <-bits_law in Hx.
  unfold first_bit. destruct (ns_bits s); [by apply elem_of_nil in Hx|by eexists].
Qed.

(** A set of one element is the singleton of the bit the iterator finds. *)
Lemma size_1_first_bit s :
  ns_Size s = 1 -> exists p, first_bit s = Some p /\ to_gset s = {[p]}.
Proof.
  ns_simpl. intros Hs. assert (size (to_gset s) = 1%nat) as Hs' by lia.
  apply size_1_elem_of in Hs' as [p Hp%leibniz_equiv]. exists p. split; [|done].
  apply first_bit_Some. rewrite Hp. set_solver.
Qed.
End client_lemmas.

(** ** Scripts of set operations *)

(** A set computed by the methods of the interface. *)
Inductive set_script :=
| SEmpty
| SInsert (s : set_script) (p : N)
| SRemove (s : set_script) (p : N)
| SUnion (s t : set_script)
| SInter (s t : set_script)
| SDiff (s t : set_script).

Fixpoint run_script {BS} `{NodeSet BS} (s : set_script) : BS :=
  match s with
  | SEmpty => ns_empty
  | SInsert s p => (ns_ExchangeSet (run_script s) p).1
  | SRemove s p => (ns_ExchangeClear (run_script s) p).1
  | SUnion s t => ns_Union (run_script s) (run_script t)
  | SInter s t => ns_Intersection (run_script s) (run_script t)
  | SDiff s t => ns_Difference (run_script s) (run_script t)
  end.

Lemma run_script_set {BS} `{NodeSet BS} (s : set_script) :
  to_gset (run_script (BS := BS) s) = run_script (BS := gset N) s.
Proof. induction s; simpl; ns_simpl; congruence. Qed.

(** C17: Running the same operations on [CBitSet]s and on finite sets gives the
    same set; and two sequences of operations that give the same finite set give
    [CBitSet]s that are [Equals], hash alike and iterate alike. *)
Theorem script_refines (s t : set_script) :
  bs_set (raw (run_script (BS := bitset) s)) = run_script (BS := gset N) s /\
  CBitSet_Equals (raw (run_script (BS := bitset) s)) (raw (run_script (BS := bitset) t)) =
    bool_decide (run_script (BS := gset N) s = run_script t) /\
  (run_script (BS := gset N) s = run_script t ->
   CBitSet_HashValue (raw (run_script (BS := bitset) s)) =
     CBitSet_HashValue (raw (run_script (BS := bitset) t)) /\
   CBitSet_bits (raw (run_script (BS := bitset) s)) = CBitSet_bits (raw (run_script (BS := bitset) t))).
Proof.
  pose proof (run_script_set (BS := bitset) s) as Hs. pose proof (run_script_set (BS := bitset) t) as Ht.
  split_and!; [done| |].
  - pose proof (Equals_law (run_script (BS := bitset) s) (run_script t)) as He.
    by rewrite Hs, Ht in He.
  - intros Heq. rewrite <-Hs, <-Ht in Heq. split.
    { exact (HashValue_law (run_script (BS := bitset) s) (run_script t) Heq). }
    apply sorted_lt_unique; [exact (bits_sorted_law (run_script (BS := bitset) s))|
      exact (bits_sorted_law (run_script (BS := bitset) t))|].
    intros x. pose proof (bits_law (run_script (BS := bitset) s) x) as Hbs.
    pose proof (bits_law (run_script (BS := bitset) t) x) as Hbt. rewrite Heq in Hbs.
    etrans; [exact Hbs|symmetry; exact Hbt].
Qed.
