(* ===== verification/Expression.v ===== *)
(** * Expressions, as the join-region code sees them

    Model of the parts of [CExpression] and [COperator] that
    libgpopt/src/xforms/CJoinRegionSpec.cpp and CDPHyperJoinRegion.cpp read: the
    operator with its id and, for joins, the DPHyper-region marks; the children;
    the group expression an extracted binding points to.  The derived
    properties, which property derivation computes and caches on the
    expression, are the methods of the interface [DerivedProps].  Column sets
    ([CColRefSet] is a [CBitSet] of column ids) are a [NodeSet] of their own. *)

From S2P Require Import Prelude NodeSet.

Open Scope N_scope.

(** [COperator::EOperatorId]: the ids the region code tests, and the others. *)
Inductive EOperatorId :=
| EopLogicalInnerJoin
| EopLogicalLeftOuterJoin
| EopLogicalLeftSemiJoin
| EopLogicalLeftAntiSemiJoin
| EopLogicalLeftAntiSemiJoinNotIn
| EopLogicalFullOuterJoin
| EopLogicalRightOuterJoin
| EopOther (id : N).

#[global] Instance EOperatorId_eq_dec : EqDecision EOperatorId.
Proof. solve_decision. Defined.

(** [m_payload] stands for the operator-specific state of the operators that
    are not joins; [m_notin] is [CLogicalLeftAntiSemiJoinNotIn]'s comparison,
    [m_region_member] and [m_region_root] are [CLogicalJoin]'s marks.
    [m_pgexpr] is the group expression of an expression extracted from the
    memo. *)
Inductive CExpression :=
| MkExpression (m_pop : COperator) (m_pdrgpexpr : list CExpression) (m_pgexpr : option N)
with COperator :=
| MkOperator (m_eopid : EOperatorId) (m_origin_xform : N) (m_region_member m_region_root : bool)
    (m_notin : option CExpression) (m_payload : N).

Definition Pop (e : CExpression) : COperator := let 'MkExpression op _ _ := e in op.
Definition Children (e : CExpression) : list CExpression := let 'MkExpression _ l _ := e in l.
Definition Pgexpr (e : CExpression) : option N := let 'MkExpression _ _ g := e in g.
Definition Arity (e : CExpression) : nat := length (Children e).

Definition Eopid (op : COperator) : EOperatorId := let 'MkOperator id _ _ _ _ _ := op in id.
Definition OriginXform (op : COperator) : N := let 'MkOperator _ x _ _ _ _ := op in x.
Definition FDPHyperRegionMember (op : COperator) : bool := let 'MkOperator _ _ m _ _ _ := op in m.
Definition FDPHyperRegionRoot (op : COperator) : bool := let 'MkOperator _ _ _ r _ _ := op in r.
Definition PexprNotInComparison (op : COperator) : option CExpression :=
  let 'MkOperator _ _ _ _ c _ := op in c.

(** Induction over an expression and all its children. *)
Section induction.
Context (P : CExpression -> Prop)
  (IH : forall op children g, Forall P children -> P (MkExpression op children g)).

Fixpoint CExpression_children_ind (e : CExpression) : P e :=
  match e with
  | MkExpression op children g =>
      IH op children g
        ((fix go (l : list CExpression) : Forall P l :=
            match l with
            | [] => Forall_nil_2 P
            | e :: l => Forall_cons_2 P e l (CExpression_children_ind e) (go l)
            end) children)
  end.
End induction.

(** What the memo and the registries ask of an operator: its hash and its
    equality, its kind (a pattern leaf stands for a bound group), and whether the order of its inputs matters. *)
Class OperatorIdentity := {
  OpHashValue : COperator -> N;
  OpMatches : COperator -> COperator -> bool;
  FLogical : COperator -> bool;
  FScalar : COperator -> bool;
  FPatternLeaf : COperator -> bool;
  FInputOrderSensitive : COperator -> bool
}.

(** The equality of operators is an equivalence that respects their hash. *)
Class OperatorLaws {HO : OperatorIdentity} : Prop := {
  OpMatches_refl op : OpMatches op op = true;
  OpMatches_sym op1 op2 : OpMatches op1 op2 = true -> OpMatches op2 op1 = true;
  OpMatches_trans op1 op2 op3 : OpMatches op1 op2 = true -> OpMatches op2 op3 = true -> OpMatches op1 op3 = true;
  OpMatches_hash op1 op2 : OpMatches op1 op2 = true -> OpHashValue op1 = OpHashValue op2;
  OpMatches_kind op1 op2 : OpMatches op1 op2 = true -> FScalar op1 = FScalar op2;
  OpMatches_order op1 op2 : OpMatches op1 op2 = true -> FInputOrderSensitive op1 = FInputOrderSensitive op2;
  FLogical_kind op : FLogical op = true -> FScalar op = false
}.

(** The derived properties of an expression that the region code reads, and the
    null-rejection test of [CPredicateUtils]. *)
Class DerivedProps (CS : Type) := {
  DeriveOutputColumns : CExpression -> CS;
  DeriveOuterReferences : CExpression -> CS;
  DeriveUsedColumns : CExpression -> CS;
  DeriveHasSubquery : CExpression -> bool;
  (* CPredicateUtils::FNullRejecting(mp, predicate, columns) *)
  PredicateNullRejecting : CExpression -> CS -> bool
}.

(** ** Column sets *)

Section columns.
Context {CS : Type} `{NodeSet CS}.
Implicit Types (pcrs other : CS).

(** [CColRefSet::FIntersects] *)
Definition FIntersects pcrs other : bool := 0 <? ns_Size (ns_Intersection pcrs other).

(** [CColRefSet::Exclude] of a column set: column by column. *)
Definition Exclude pcrs other : CS :=
  fold_left (fun s col => (ns_ExchangeClear s col).1) (ns_bits other) pcrs.

Lemma FIntersects_law pcrs other :
  FIntersects pcrs other = negb (bool_decide (to_gset pcrs ## to_gset other)).
Proof.
  unfold FIntersects. ns_simpl. apply bool_iff_eq.
  rewrite negb_true_iff, bool_decide_eq_false, N.ltb_lt. split.
  - intros Hs Hd. apply disjoint_intersection_L in Hd. rewrite Hd, size_empty in Hs. lia.
  - intros Hd. destruct (decide (size (to_gset pcrs ∩ to_gset other) = 0%nat)) as [Hz|]; [|lia].
    apply size_empty_inv in Hz. set_solver.
Qed.

Lemma Exclude_law pcrs other : to_gset (Exclude pcrs other) = to_gset pcrs ∖ to_gset other.
Proof.
  unfold Exclude. rewrite <-(bits_list_to_set other). generalize (ns_bits other). intros l.
  revert pcrs. induction l as [|c l IH]; intros pcrs; simpl; [set_solver|].
  rewrite IH, ExchangeClear_law. set_solver.
Qed.
End columns.

#[export] Hint Rewrite @FIntersects_law @Exclude_law : ns.

(** ** Sample operators *)

(** Operators known by their ids, of which only the logical [EopOther 0] ignores
    the order of its inputs. *)
Definition sample_identity : OperatorIdentity := {|
  OpHashValue op := 7;
  OpMatches op1 op2 := bool_decide (Eopid op1 = Eopid op2);
  FPatternLeaf _ := false;
  FLogical op := match Eopid op with EopOther id => id =? 0 | _ => true end;
  FScalar op := match Eopid op with EopOther id => negb (id =? 0) | _ => false end;
  FInputOrderSensitive op := negb (bool_decide (Eopid op = EopOther 0))
|}.

Lemma sample_operator_laws : OperatorLaws (HO := sample_identity).
Proof.
  split.
  - intros op. by apply bool_decide_eq_true_2.
  - intros op1 op2 H1%bool_decide_eq_true_1. by apply bool_decide_eq_true_2.
  - intros op1 op2 op3 H1%bool_decide_eq_true_1 H2%bool_decide_eq_true_1.
    apply bool_decide_eq_true_2. by rewrite H1.
  - done.
  - intros op1 op2 H1%bool_decide_eq_true_1. cbn. by rewrite H1.
  - intros op1 op2 H1%bool_decide_eq_true_1. cbn. by rewrite H1.
  - intros op. cbn. destruct (Eopid op); [done..|]. intros ->. done.
Qed.
