(* ===== verification/NodeMap.v ===== *)
(** * Tables keyed by node sets

    The join enumeration keeps two tables from sets of nodes to values, the cost
    cache and the groups of the subsets (libgpopt/src/search/
    CJobJoinEnumeration.cpp), both written the same way: a hash table of buckets
    of pointers to the entries, which live in a vector.  A pointer is an index
    into the vector, so a change through a bucket is a change of the entry.
    [nm_map] is the finite map such a table stands for. *)

From S2P Require Import Prelude NodeSet.

Open Scope N_scope.

Record NodeMap (BS V : Type) := MkNodeMap {
  nm_buckets : gmap N (list nat);
  nm_entries : list (BS * V)
}.
Arguments MkNodeMap {BS V}. Arguments nm_buckets {BS V}. Arguments nm_entries {BS V}.

Section node_map.
Context {BS V : Type} `{NodeSet BS}.
Implicit Types (m : NodeMap BS V) (nodes : BS) (e : BS * V) (v : V).

Definition NodeMap_New : NodeMap BS V := MkNodeMap ∅ [].

(** [for (entry : bucket) if (entry->m_nodes->Equals(nodes)) return entry;] *)
Fixpoint find_entry nodes (bucket : list nat) m : option nat :=
  match bucket with
  | [] => None
  | i :: bucket =>
      match nm_entries m !! i with
      | Some e => if ns_Equals e.1 nodes then Some i else find_entry nodes bucket m
      | None => find_entry nodes bucket m
      end
  end.

Definition NodeMap_Lookup nodes m : option nat :=
  match nm_buckets m !! ns_HashValue nodes with
  | None => None
  | Some bucket => find_entry nodes bucket m
  end.

Definition NodeMap_Record nodes v m : NodeMap BS V :=
  let h := ns_HashValue nodes in
  MkNodeMap (<[h := default [] (nm_buckets m !! h) ++ [length (nm_entries m)]]> (nm_buckets m))
    (nm_entries m ++ [(nodes, v)]).

(** A change of the entry a pointer points to. *)
Definition NodeMap_Update (i : nat) (f : V -> V) m : NodeMap BS V :=
  MkNodeMap (nm_buckets m) (alter (fun e => (e.1, f e.2)) i (nm_entries m)).

(** ** The map it stands for *)

Definition nm_key e : gset N := to_gset e.1.
Definition nm_map m : gmap (gset N) V := list_to_map ((fun e => (nm_key e, e.2)) <$> nm_entries m).

Record nm_ok m : Prop := {
  nm_points : forall h bucket i, nm_buckets m !! h = Some bucket -> i ∈ bucket ->
    exists e, nm_entries m !! i = Some e /\ ns_HashValue e.1 = h;
  nm_listed : forall i e, nm_entries m !! i = Some e ->
    exists bucket, nm_buckets m !! ns_HashValue e.1 = Some bucket /\ i ∈ bucket;
  nm_nodup : NoDup (nm_key <$> nm_entries m)
}.

Lemma New_nm_ok : nm_ok NodeMap_New /\ nm_map NodeMap_New = ∅.
Proof. by repeat split; try constructor. Qed.

(** Each entry is found under its own key. *)
Lemma nm_map_lookup m X v :
  nm_ok m -> nm_map m !! X = Some v <-> exists i e, nm_entries m !! i = Some e /\ nm_key e = X /\ e.2 = v.
Proof.
  intros Hm. unfold nm_map. rewrite <-elem_of_list_to_map.
  2: { rewrite <-list_fmap_compose. apply (nm_nodup _ Hm). }
  rewrite list_elem_of_fmap. setoid_rewrite list_elem_of_lookup. split.
  - intros (e & [= -> ->] & i & Hi). by exists i, e.
  - intros (i & e & Hi & <- & <-). exists e. split; [done|by exists i].
Qed.

Lemma find_entry_Some nodes bucket m i :
  find_entry nodes bucket m = Some i ->
  i ∈ bucket /\ exists e, nm_entries m !! i = Some e /\ nm_key e = to_gset nodes.
Proof.
  induction bucket as [|j bucket IH]; cbn [find_entry]; [done|].
  destruct (nm_entries m !! j) as [e|] eqn:Ej.
  - case_if.
    + intros [= <-]. rewrite Equals_law in *. breflect. split; [left|by exists e].
    + intros [? ?]%IH. split; [by right|done].
  - intros [? ?]%IH. split; [by right|done].
Qed.

Lemma find_entry_None nodes bucket m i e :
  find_entry nodes bucket m = None -> i ∈ bucket -> nm_entries m !! i = Some e ->
  nm_key e <> to_gset nodes.
Proof.
  induction bucket as [|j bucket IH]; cbn [find_entry]; [by intros _ ?%elem_of_nil|].
  intros Hf [->|Hi]%elem_of_cons Hl.
  - rewrite Hl, Equals_law in Hf. unfold nm_key. by case_bool_decide.
  - destruct (nm_entries m !! j); [|by apply IH]. revert Hf. case_if; [done|]. intros ?. by apply IH.
Qed.

(** Hash collisions and the order of the buckets do not show. *)
Lemma Lookup_nm_map nodes m :
  nm_ok m ->
  match NodeMap_Lookup nodes m with
  | Some i => exists s v, nm_entries m !! i = Some (s, v) /\ to_gset s = to_gset nodes /\
                nm_map m !! to_gset nodes = Some v
  | None => nm_map m !! to_gset nodes = None
  end.
Proof.
  intros Hm. unfold NodeMap_Lookup.
  assert (Hnone : (forall i e, nm_entries m !! i = Some e -> nm_key e <> to_gset nodes) ->
    nm_map m !! to_gset nodes = None).
  { intros Hne. apply eq_None_not_Some. intros [v (i & e & Hi & Hk & _)%nm_map_lookup]; [|done].
    by apply (Hne i e). }
  destruct (nm_buckets m !! ns_HashValue nodes) as [bucket|] eqn:Eb.
  - destruct (find_entry nodes bucket m) as [i|] eqn:Ef.
    + apply find_entry_Some in Ef as (_ & [s v] & Hi & Hk). exists s, v. split_and!; [done|done|].
      apply nm_map_lookup; [done|]. by exists i, (s, v).
    + apply Hnone. intros i e Hi Hk. destruct (nm_listed _ Hm i e Hi) as (b & Hb & Hib).
      rewrite (HashValue_law e.1 nodes Hk), Eb in Hb. injection Hb as ->.
      by eapply find_entry_None.
  - apply Hnone. intros i e Hi Hk. destruct (nm_listed _ Hm i e Hi) as (b & Hb & _).
    by rewrite (HashValue_law e.1 nodes Hk), Eb in Hb.
Qed.

Lemma Record_nm_ok nodes v m :
  nm_ok m -> nm_map m !! to_gset nodes = None ->
  nm_ok (NodeMap_Record nodes v m) /\
  nm_map (NodeMap_Record nodes v m) = <[to_gset nodes := v]> (nm_map m).
Proof.
  intros Hm Hnone.
  assert (Hfresh : forall i e, nm_entries m !! i = Some e -> nm_key e <> to_gset nodes).
  { intros i e Hi Hk. assert (Hs : nm_map m !! to_gset nodes = Some e.2); [|congruence].
    apply nm_map_lookup; [done|]. by exists i, e. }
  split.
  - split; simpl.
    + intros h bucket i Hb Hi. destruct (decide (h = ns_HashValue nodes)) as [->|Hne].
      * rewrite lookup_insert_eq in Hb. injection Hb as <-.
        apply elem_of_app in Hi as [Hi| ->%list_elem_of_singleton].
        -- destruct (nm_buckets m !! ns_HashValue nodes) as [b|] eqn:Eb; [|by apply elem_of_nil in Hi].
           destruct (nm_points _ Hm _ _ _ Eb Hi) as (e & He & ?). exists e.
           rewrite lookup_app_l by (by eapply lookup_lt_Some). done.
        -- exists (nodes, v). rewrite lookup_app_r, Nat.sub_diag by done. done.
      * rewrite lookup_insert_ne in Hb by done.
        destruct (nm_points _ Hm _ _ _ Hb Hi) as (e & He & ?). exists e.
        rewrite lookup_app_l by (by eapply lookup_lt_Some). done.
    + intros i e [Hi|[Hlen Hi]]%lookup_app_Some.
      * destruct (nm_listed _ Hm i e Hi) as (b & Hb & Hib).
        destruct (decide (ns_HashValue e.1 = ns_HashValue nodes)) as [Heq|Hne].
        -- rewrite Heq in *. rewrite lookup_insert_eq, Hb. eexists. split; [done|].
           apply elem_of_app. by left.
        -- rewrite lookup_insert_ne by done. by exists b.
      * apply list_lookup_singleton_Some in Hi as [Hz <-]. cbn [fst]. rewrite lookup_insert_eq.
        eexists. split; [done|]. apply elem_of_app. right. apply list_elem_of_singleton. lia.
    + rewrite fmap_app. apply NoDup_app. split_and!; [apply (nm_nodup _ Hm)| |apply NoDup_singleton].
      intros X (e & -> & He)%list_elem_of_fmap Hx%list_elem_of_singleton.
      apply list_elem_of_lookup in He as [i Hi]. by apply (Hfresh i e).
  - unfold nm_map. simpl. rewrite fmap_app. cbn [fmap list_fmap]. apply list_to_map_snoc.
    rewrite <-list_fmap_compose. intros (e & He & Hin)%list_elem_of_fmap.
    apply list_elem_of_lookup in Hin as [i Hi]. by apply (Hfresh i e).
Qed.

Lemma Update_nm_ok i f s v m :
  nm_ok m -> nm_entries m !! i = Some (s, v) ->
  nm_ok (NodeMap_Update i f m) /\
  nm_map (NodeMap_Update i f m) = <[to_gset s := f v]> (nm_map m).
Proof.
  intros Hm Hi. set (g := fun e : BS * V => (e.1, f e.2)).
  assert (Hk : nm_key <$> alter g i (nm_entries m) = nm_key <$> nm_entries m).
  { apply list_eq. intros j. rewrite !list_lookup_fmap. destruct (decide (i = j)) as [<-|Hne].
    - rewrite list_lookup_alter_eq, Hi. done.
    - by rewrite list_lookup_alter_ne. }
  assert (Hl : forall j e, alter g i (nm_entries m) !! j = Some e <->
    exists e0, nm_entries m !! j = Some e0 /\ e = if decide (i = j) then g e0 else e0).
  { intros j e. destruct (decide (i = j)) as [<-|Hne].
    - rewrite list_lookup_alter_eq. destruct (nm_entries m !! i); simpl; naive_solver.
    - rewrite list_lookup_alter_ne by done. naive_solver. }
  assert (Hok : nm_ok (NodeMap_Update i f m)).
  { split; simpl; fold g.
    - intros h bucket j Hb Hj. destruct (nm_points _ Hm _ _ _ Hb Hj) as (e & He & Hh).
      eexists. split; [apply Hl; by exists e|]. by destruct (decide (i = j)).
    - intros j e (e0 & He0 & ->)%Hl. destruct (nm_listed _ Hm j e0 He0) as (b & Hb & Hj).
      exists b. by destruct (decide (i = j)).
    - rewrite Hk. apply Hm. }
  split; [done|]. apply map_eq. intros X. apply option_eq. intros w.
  rewrite nm_map_lookup by done. simpl. fold g. destruct (decide (to_gset s = X)) as [<-|Hne].
  - rewrite lookup_insert_eq. split.
    + intros (j & e & (e0 & He0 & ->)%Hl & Hkey & <-).
      assert (j = i) as ->.
      { apply (NoDup_lookup _ _ _ (to_gset s) (nm_nodup _ Hm)).
        - rewrite list_lookup_fmap, He0. simpl. f_equal. rewrite <-Hkey. by destruct (decide (i = j)).
        - by rewrite list_lookup_fmap, Hi. }
      rewrite decide_True by done. rewrite Hi in He0. by injection He0 as <-.
    + intros [= <-]. exists i, (s, f v). split_and!; [|done|done]. apply Hl. exists (s, v).
      by rewrite decide_True.
  - rewrite lookup_insert_ne, nm_map_lookup by done. split.
    + intros (j & e & (e0 & He0 & ->)%Hl & Hkey & <-). destruct (decide (i = j)) as [<-|].
      * rewrite Hi in He0. by injection He0 as <-.
      * by exists j, e0.
    + intros (j & e & Hj & Hkey & <-). exists j, e. split_and!; [|done..]. apply Hl. exists e.
      rewrite decide_False; [done|]. intros <-. rewrite Hi in Hj. injection Hj as <-. done.
Qed.
End node_map.
