(* ===== verification/DPHyperGraph.v ===== *)
(** * CDPHyperGraph: the join hypergraph

    Model of the class [CDPHyperGraph] of libgpopt/src/xforms/CDPHyperGraph.cpp.
    An undirected hyperedge is stored as a forward and a reverse entry of
    [m_edges]; every node lists the entries that have it on their left side
    and caches the union of the right sides of the simple ones.  An access of
    [m_nodes] or [m_edges] out of range is [None], so a theorem that an
    operation returns [Some] says that it stays in bounds.  The invariant
    [graph_wf] says that the adjacency of every node is exactly what [m_edges]
    induces; [AddEdge] and [ReplaceEdge] keep it. *)

From S2P Require Import Prelude NodeSet.

Open Scope N_scope.

(** ** Data *)

Record SEdge (BS : Type) := MkEdge {
  m_left : BS;
  m_right : BS;
  m_edge_id : N
}.
Arguments MkEdge {BS}. Arguments m_left {BS}. Arguments m_right {BS}. Arguments m_edge_id {BS}.

Record SNode (BS : Type) := MkNode {
  m_simple_neighborhood : BS;
  m_simple_edges : list N;
  m_complex_edges : list N
}.
Arguments MkNode {BS}. Arguments m_simple_neighborhood {BS}.
Arguments m_simple_edges {BS}. Arguments m_complex_edges {BS}.

Record CDPHyperGraph (BS : Type) := MkGraph {
  m_nodes : list (SNode BS);
  m_edges : list (SEdge BS)
}.
Arguments MkGraph {BS}. Arguments m_nodes {BS}. Arguments m_edges {BS}.

Section operations.
Context {BS : Type} `{NodeSet BS}.
Implicit Types (g : CDPHyperGraph BS) (left right : BS).

Definition SNode_New : SNode BS := MkNode ns_empty [] [].

Definition CDPHyperGraph_New (node_count : N) : CDPHyperGraph BS :=
  MkGraph (replicate (N.to_nat node_count) SNode_New) [].

Definition NodeCount g : N := N.of_nat (length (m_nodes g)).
Definition DirectedEdgeCount g : N := N.of_nat (length (m_edges g)).
Definition LogicalEdgeCount g : N := DirectedEdgeCount g / 2.
Definition Node g (node_id : N) : option (SNode BS) := (m_nodes g).[node_id].
Definition Edge g (edge_id : N) : option (SEdge BS) := (m_edges g).[edge_id].

(** [1 == left->Size() && 1 == right->Size()] *)
Definition is_simple left right : bool := (ns_Size left =? 1) && (ns_Size right =? 1).

(** Field updates through a node pointer. *)
Definition add_neighborhood (s : BS) (nd : SNode BS) : SNode BS :=
  MkNode (ns_Union (m_simple_neighborhood nd) s) (m_simple_edges nd) (m_complex_edges nd).
Definition push_simple (e : N) (nd : SNode BS) : SNode BS :=
  MkNode (m_simple_neighborhood nd) (m_simple_edges nd ++ [e]) (m_complex_edges nd).
Definition push_complex (e : N) (nd : SNode BS) : SNode BS :=
  MkNode (m_simple_neighborhood nd) (m_simple_edges nd) (m_complex_edges nd ++ [e]).
(** [edges.erase(std::remove(..., e), edges.end())] *)
Definition erase_simple (e : N) (nd : SNode BS) : SNode BS :=
  MkNode (m_simple_neighborhood nd) (filter (fun x => x <> e) (m_simple_edges nd))
    (m_complex_edges nd).
Definition erase_complex (e : N) (nd : SNode BS) : SNode BS :=
  MkNode (m_simple_neighborhood nd) (m_simple_edges nd)
    (filter (fun x => x <> e) (m_complex_edges nd)).
Definition set_neighborhood (s : BS) (nd : SNode BS) : SNode BS :=
  MkNode s (m_simple_edges nd) (m_complex_edges nd).

Definition upd_node (id : N) (f : SNode BS -> SNode BS) g : option (CDPHyperGraph BS) :=
  nd ← Node g id;
  Some (MkGraph (<[N.to_nat id := f nd]> (m_nodes g)) (m_edges g)).

(** [while (iter.Advance()) f(m_nodes[iter.Bit()])] *)
Fixpoint upd_nodes (ids : list N) (f : SNode BS -> SNode BS) g : option (CDPHyperGraph BS) :=
  match ids with
  | [] => Some g
  | id :: ids => g ← upd_node id f g; upd_nodes ids f g
  end.

Definition AttachEdgeToNodes (forward_edge reverse_edge : N) left right g
    : option (CDPHyperGraph BS) :=
  if is_simple left right then
    l ← first_bit left;
    r ← first_bit right;
    g ← upd_node l (add_neighborhood right) g;
    g ← upd_node r (add_neighborhood left) g;
    g ← upd_node l (push_simple forward_edge) g;
    upd_node r (push_simple reverse_edge) g
  else
    g ← upd_nodes (ns_bits left) (push_complex forward_edge) g;
    upd_nodes (ns_bits right) (push_complex reverse_edge) g.

Fixpoint rebuild_loop g (edges : list N) (acc : BS) : option BS :=
  match edges with
  | [] => Some acc
  | e :: edges => edge ← Edge g e; rebuild_loop g edges (ns_Union acc (m_right edge))
  end.

Definition RebuildSimpleNeighborhood (id : N) g : option (CDPHyperGraph BS) :=
  nd ← Node g id;
  s ← rebuild_loop g (m_simple_edges nd) ns_empty;
  upd_node id (set_neighborhood s) g.

Definition DetachEdgeFromNodes (forward_edge reverse_edge : N) left right g
    : option (CDPHyperGraph BS) :=
  if is_simple left right then
    l ← first_bit left;
    r ← first_bit right;
    g ← upd_node l (erase_simple forward_edge) g;
    g ← upd_node r (erase_simple reverse_edge) g;
    g ← RebuildSimpleNeighborhood l g;
    RebuildSimpleNeighborhood r g
  else
    g ← upd_nodes (ns_bits left) (erase_complex forward_edge) g;
    upd_nodes (ns_bits right) (erase_complex reverse_edge) g.

Definition AddEdge left right (edge_id : N) g : option (CDPHyperGraph BS) :=
  let forward := DirectedEdgeCount g in
  let g := MkGraph (m_nodes g) (m_edges g ++ [MkEdge left right edge_id]) in
  let reverse := DirectedEdgeCount g in
  let g := MkGraph (m_nodes g) (m_edges g ++ [MkEdge right left edge_id]) in
  AttachEdgeToNodes forward reverse left right g.

Definition ReplaceEdge (logical_edge : N) left right g : option (CDPHyperGraph BS) :=
  let forward := logical_edge * 2 in
  let reverse := forward + 1 in
  old ← Edge g forward;
  _ ← Edge g reverse;
  let edge_id := m_edge_id old in
  g ← DetachEdgeFromNodes forward reverse (m_left old) (m_right old) g;
  let edges := <[N.to_nat forward := MkEdge left right edge_id]> (m_edges g) in
  let edges := <[N.to_nat reverse := MkEdge right left edge_id]> edges in
  AttachEdgeToNodes forward reverse left right (MkGraph (m_nodes g) edges).

(** ** Invariant *)

Definition edge_simple (e : SEdge BS) : bool := is_simple (m_left e) (m_right e).

Definition reverse_edge (e : SEdge BS) : SEdge BS :=
  MkEdge (m_right e) (m_left e) (m_edge_id e).

(** The sides of a hyperedge over [n] nodes: nonempty and disjoint. *)
Definition sides_ok (n : N) left right : Prop :=
  to_gset left <> ∅ /\ to_gset right <> ∅ /\ to_gset left ## to_gset right /\
  (forall v, v ∈ to_gset left ∪ to_gset right -> v < n).

(** The entries of [edges], of those in [P], of the given kind with [v] on
    their left side. *)
Definition incident (P : N -> Prop) (edges : list (SEdge BS)) (simple : bool) (v i : N) : Prop :=
  P i /\ exists e, edges.[i] = Some e /\ edge_simple e = simple /\ v ∈ to_gset (m_left e).

(** The adjacency of node [v] is what the entries in [P] induce. *)
Record node_adj (P : N -> Prop) (edges : list (SEdge BS)) (v : N) (nd : SNode BS) : Prop := {
  na_simple_nodup : NoDup (m_simple_edges nd);
  na_complex_nodup : NoDup (m_complex_edges nd);
  na_simple : forall i, i ∈ m_simple_edges nd <-> incident P edges true v i;
  na_complex : forall i, i ∈ m_complex_edges nd <-> incident P edges false v i;
  na_neighborhood : forall u, u ∈ to_gset (m_simple_neighborhood nd) <->
    exists i e, incident P edges true v i /\ edges.[i] = Some e /\ u ∈ to_gset (m_right e)
}.

Definition node_ok := node_adj (fun _ => True).

Record graph_wf g : Prop := {
  gw_even : exists k, length (m_edges g) = (2 * k)%nat;
  gw_pair : forall k e, m_edges g !! (2 * k)%nat = Some e ->
    m_edges g !! (2 * k + 1)%nat = Some (reverse_edge e);
  gw_sides : Forall (fun e => sides_ok (NodeCount g) (m_left e) (m_right e)) (m_edges g);
  gw_nodes : forall v nd, Node g v = Some nd -> node_ok (m_edges g) v nd
}.
End operations.

(** ** Updates as a map over the nodes *)

Section node_maps.
Context {BS : Type} `{NodeSet BS}.
Implicit Types (g : CDPHyperGraph BS) (f : N -> SNode BS -> SNode BS).

Definition map_nodes f g : CDPHyperGraph BS :=
  MkGraph (imap (fun i nd => f (N.of_nat i) nd) (m_nodes g)) (m_edges g).

Lemma Node_map_nodes f g v : Node (map_nodes f g) v = f v <$> Node g v.
Proof.
  unfold Node, map_nodes. simpl. rewrite list_lookup_imap. by rewrite N2Nat.id.
Qed.

Lemma NodeCount_map_nodes f g : NodeCount (map_nodes f g) = NodeCount g.
Proof. unfold NodeCount, map_nodes. simpl. by rewrite length_imap. Qed.

Lemma map_nodes_ext f f' g :
  (forall v nd, Node g v = Some nd -> f v nd = f' v nd) -> map_nodes f g = map_nodes f' g.
Proof.
  intros Hf. unfold map_nodes. f_equal. apply list_eq. intros i.
  rewrite !list_lookup_imap. destruct (m_nodes g !! i) as [nd|] eqn:E; [|done]. simpl.
  f_equal. apply Hf. unfold Node. by rewrite Nat2N.id.
Qed.

Lemma map_nodes_comp f f' g :
  map_nodes f' (map_nodes f g) = map_nodes (fun v nd => f' v (f v nd)) g.
Proof.
  unfold map_nodes. simpl. f_equal. apply list_eq. intros i.
  rewrite !list_lookup_imap. by destruct (m_nodes g !! i).
Qed.

Lemma map_nodes_id f g : (forall v nd, Node g v = Some nd -> f v nd = nd) -> map_nodes f g = g.
Proof.
  intros Hf. rewrite (map_nodes_ext f (fun _ nd => nd)) by done.
  destruct g as [ns es]. unfold map_nodes. simpl. f_equal. apply list_eq. intros i.
  rewrite list_lookup_imap. by destruct (ns !! i).
Qed.

Lemma Node_is_Some g v : v < NodeCount g -> is_Some (Node g v).
Proof. unfold NodeCount, Node. intros Hv. apply lookup_lt_is_Some_2. lia. Qed.

Lemma upd_node_map id h g :
  id < NodeCount g ->
  upd_node id h g = Some (map_nodes (fun v nd => if decide (v = id) then h nd else nd) g).
Proof.
  intros Hid. unfold upd_node. destruct (Node_is_Some g id Hid) as [nd Hnd]. rewrite Hnd. simpl.
  unfold map_nodes. do 2 f_equal. apply list_eq. intros i. rewrite list_lookup_imap.
  destruct (decide (i = N.to_nat id)) as [->|Hi].
  - rewrite list_lookup_insert_eq by (by eapply lookup_lt_Some).
    unfold Node in Hnd. rewrite Hnd. simpl. rewrite N2Nat.id, decide_True by done. done.
  - rewrite list_lookup_insert_ne by done.
    destruct (m_nodes g !! i); [|done]. simpl. rewrite decide_False by lia. done.
Qed.

Lemma upd_nodes_map ids h g :
  NoDup ids -> (forall v, v ∈ ids -> v < NodeCount g) ->
  upd_nodes ids h g =
    Some (map_nodes (fun v nd => if decide (v ∈ ids) then h nd else nd) g).
Proof.
  intros Hnd. revert g. induction Hnd as [|id ids Hni Hnd IH]; intros g Hlt; cbn [upd_nodes].
  - f_equal. symmetry. apply map_nodes_id. intros v nd _.
    rewrite decide_False; [done|apply not_elem_of_nil].
  - rewrite upd_node_map by (apply Hlt; left). cbn [mbind option_bind]. rewrite IH.
    2: { intros v Hv. rewrite NodeCount_map_nodes. apply Hlt. by right. }
    rewrite map_nodes_comp. f_equal. apply map_nodes_ext. intros v nd _.
    destruct (decide (v = id)) as [->|Hne].
    + rewrite decide_False by done. rewrite decide_True by left. done.
    + destruct (decide (v ∈ ids)); [rewrite decide_True by (by right)|
        rewrite decide_False by (intros [->|?]%elem_of_cons; done)]; done.
Qed.
End node_maps.

Section attach_detach.
Context {BS : Type} `{NodeSet BS}.
Implicit Types (g : CDPHyperGraph BS) (left right : BS).

(** What attaching an edge does to one node. *)
Definition attach_node (fwd rev : N) left right (v : N) (nd : SNode BS) : SNode BS :=
  if decide (v ∈ to_gset left) then
    if is_simple left right then push_simple fwd (add_neighborhood right nd)
    else push_complex fwd nd
  else if decide (v ∈ to_gset right) then
    if is_simple left right then push_simple rev (add_neighborhood left nd)
    else push_complex rev nd
  else nd.

Lemma is_simple_true left right :
  is_simple left right = true -> exists l r,
    first_bit left = Some l /\ to_gset left = {[l]} /\
    first_bit right = Some r /\ to_gset right = {[r]}.
Proof.
  unfold is_simple. intros [Hl Hr]%andb_prop. apply N.eqb_eq in Hl, Hr.
  apply size_1_first_bit in Hl as (l & ? & ?). apply size_1_first_bit in Hr as (r & ? & ?). eauto 10.
Qed.

Lemma bits_map (s : BS) (h : SNode BS -> SNode BS) g :
  (forall v, v ∈ to_gset s -> v < NodeCount g) ->
  upd_nodes (ns_bits s) h g =
    Some (map_nodes (fun v nd => if decide (v ∈ to_gset s) then h nd else nd) g).
Proof.
  intros Hs. rewrite upd_nodes_map; [|apply bits_NoDup|by intros v Hv%bits_law; apply Hs].
  f_equal. apply map_nodes_ext. intros v nd _. apply decide_ext, bits_law.
Qed.

Lemma AttachEdgeToNodes_map fwd rev left right g :
  sides_ok (NodeCount g) left right ->
  AttachEdgeToNodes fwd rev left right g = Some (map_nodes (attach_node fwd rev left right) g).
Proof.
  intros (Hl & Hr & Hd & Hn). unfold AttachEdgeToNodes, attach_node.
  destruct (is_simple left right) eqn:Es.
  - apply is_simple_true in Es as (l & r & Hfl & Hsl & Hfr & Hsr).
    rewrite Hfl, Hfr, Hsl, Hsr in *.
    assert (l < NodeCount g /\ r < NodeCount g) as [??] by (split; apply Hn; set_solver).
    cbn [mbind option_bind].
    repeat (rewrite upd_node_map by (rewrite ?NodeCount_map_nodes; done); cbn [mbind option_bind]).
    rewrite !map_nodes_comp. f_equal. apply map_nodes_ext. intros v nd _.
    assert (l <> r) by set_solver.
    destruct (decide (v = l)) as [->|Hvl].
    + rewrite !(decide_False (P := l = r)) by done.
      rewrite decide_True by set_solver. done.
    + rewrite (decide_False (P := v ∈ ({[l]} : gset N))) by set_solver.
      destruct (decide (v = r)) as [->|]; [rewrite decide_True by set_solver|
        rewrite decide_False by set_solver]; done.
  - rewrite bits_map by (intros; apply Hn; set_solver). cbn [mbind option_bind].
    rewrite bits_map by (intros; rewrite NodeCount_map_nodes; apply Hn; set_solver).
    rewrite map_nodes_comp. f_equal. apply map_nodes_ext. intros v nd _.
    destruct (decide (v ∈ to_gset left)); [rewrite decide_False by set_solver|]; done.
Qed.

(** The union of the right sides of the given entries. *)
Definition rights (edges : list (SEdge BS)) (ids : list N) (acc : BS) : BS :=
  fold_left (fun acc i => match edges.[i] with
                          | Some e => ns_Union acc (m_right e)
                          | None => acc end) ids acc.

Lemma rebuild_loop_rights g ids acc :
  (forall i, i ∈ ids -> is_Some (Edge g i)) ->
  rebuild_loop g ids acc = Some (rights (m_edges g) ids acc).
Proof.
  revert acc. induction ids as [|i ids IH]; intros acc Hs; [done|].
  cbn [rebuild_loop rights fold_left].
  destruct (Hs i ltac:(left)) as [e He]. rewrite He. cbn [mbind option_bind].
  unfold Edge in He. rewrite He. apply IH. intros j Hj. apply Hs. by right.
Qed.

Lemma elem_of_rights edges ids acc u :
  u ∈ to_gset (rights edges ids acc) <->
  u ∈ to_gset acc \/ exists i e, i ∈ ids /\ edges.[i] = Some e /\ u ∈ to_gset (m_right e).
Proof.
  revert acc. induction ids as [|i ids IH]; intros acc; cbn [rights fold_left].
  { split; [by left|]. intros [?|(i & ? & ?%elem_of_nil & _)]; done. }
  setoid_rewrite IH. setoid_rewrite elem_of_cons.
  destruct (edges.[i]) as [e|] eqn:E; [ns_simpl; rewrite elem_of_union|].
  - split.
    + intros [[?|?]|(j & e' & ? & ? & ?)]; [by left|right; by exists i, e; auto|right; eauto 10].
    + intros [?|(j & e' & [->|?] & ? & ?)]; [by left; left| |right; eauto 10].
      left; right. congruence.
  - split; [intros [?|(j & e' & ? & ? & ?)]; eauto 10|].
    intros [?|(j & e' & [->|?] & ? & ?)]; [by left|congruence|right; eauto 10].
Qed.

(** What detaching an edge does to one node. *)
Definition detach_node (edges : list (SEdge BS)) (fwd rev : N) left right (v : N)
    (nd : SNode BS) : SNode BS :=
  let erase e :=
    if is_simple left right then
      let nd := erase_simple e nd in
      set_neighborhood (rights edges (m_simple_edges nd) ns_empty) nd
    else erase_complex e nd in
  if decide (v ∈ to_gset left) then erase fwd
  else if decide (v ∈ to_gset right) then erase rev
  else nd.

Lemma RebuildSimpleNeighborhood_map id g :
  id < NodeCount g ->
  (forall nd i, Node g id = Some nd -> i ∈ m_simple_edges nd -> is_Some (Edge g i)) ->
  RebuildSimpleNeighborhood id g = Some (map_nodes (fun v nd =>
    if decide (v = id) then set_neighborhood (rights (m_edges g) (m_simple_edges nd) ns_empty) nd
    else nd) g).
Proof.
  intros Hid Hs. unfold RebuildSimpleNeighborhood.
  destruct (Node_is_Some g id Hid) as [nd Hnd]. rewrite Hnd. cbn [mbind option_bind].
  rewrite rebuild_loop_rights by (intros i; by apply Hs). cbn [mbind option_bind].
  rewrite upd_node_map by done. f_equal. apply map_nodes_ext. intros v nd' Hv.
  destruct (decide (v = id)) as [->|]; [|done]. congruence.
Qed.

Lemma DetachEdgeFromNodes_map fwd rev left right g :
  sides_ok (NodeCount g) left right ->
  (forall v nd i, Node g v = Some nd -> i ∈ m_simple_edges nd -> is_Some (Edge g i)) ->
  DetachEdgeFromNodes fwd rev left right g =
    Some (map_nodes (detach_node (m_edges g) fwd rev left right) g).
Proof.
  intros (Hl & Hr & Hd & Hn) Hs. unfold DetachEdgeFromNodes, detach_node.
  destruct (is_simple left right) eqn:Es.
  - apply is_simple_true in Es as (l & r & Hfl & Hsl & Hfr & Hsr).
    rewrite Hfl, Hfr, Hsl, Hsr in *.
    assert (l < NodeCount g /\ r < NodeCount g) as [??] by (split; apply Hn; set_solver).
    assert (Hne : l <> r) by set_solver. cbn [mbind option_bind].
    repeat (rewrite upd_node_map by (rewrite ?NodeCount_map_nodes; done); cbn [mbind option_bind]).
    rewrite map_nodes_comp. set (h := fun v nd => _).
    assert (Hok : forall f, (forall v nd, m_simple_edges (f v nd) = m_simple_edges nd) ->
      forall v nd i, Node (map_nodes f (map_nodes h g)) v = Some nd ->
      i ∈ m_simple_edges nd -> is_Some (Edge (map_nodes f (map_nodes h g)) i)).
    { intros f Hf v nd i. rewrite !Node_map_nodes. intros (nd1 & (nd0 & Hv & ->)%fmap_Some & ->)%fmap_Some.
      rewrite Hf. intros Hi. apply (Hs v nd0 i Hv). revert Hi. unfold h.
      repeat destruct (decide (v = _)); simpl; rewrite ?list_elem_of_filter; tauto. }
    assert (Hid : forall g', map_nodes (fun _ nd => nd) g' = g') by (intros; by apply map_nodes_id).
    rewrite RebuildSimpleNeighborhood_map; [|by rewrite NodeCount_map_nodes|
      rewrite <-(Hid (map_nodes h g)); intros; by eapply (Hok (fun _ nd => nd))].
    cbn [mbind option_bind].
    rewrite RebuildSimpleNeighborhood_map; [|by rewrite !NodeCount_map_nodes|
      intros; eapply Hok; [|done..]; intros ? []; by destruct (decide _)].
    rewrite !map_nodes_comp. f_equal. apply map_nodes_ext. intros v nd Hv. unfold h. simpl.
    destruct (decide (v = l)) as [->|Hvl].
    + rewrite !(decide_False (P := l = r)) by done. rewrite decide_True by set_solver. done.
    + rewrite (decide_False (P := v ∈ ({[l]} : gset N))) by set_solver.
      destruct (decide (v = r)) as [->|]; [rewrite decide_True by set_solver|
        rewrite decide_False by set_solver]; done.
  - rewrite bits_map by (intros; apply Hn; set_solver). cbn [mbind option_bind].
    rewrite bits_map by (intros; rewrite NodeCount_map_nodes; apply Hn; set_solver).
    rewrite map_nodes_comp. f_equal. apply map_nodes_ext. intros v nd _.
    destruct (decide (v ∈ to_gset left)); [rewrite decide_False by set_solver|]; done.
Qed.
End attach_detach.

(** ** The adjacency invariant *)

Section adjacency.
Context {BS : Type} `{NodeSet BS}.
Implicit Types (P Q : N -> Prop) (edges : list (SEdge BS)) (left right : BS).

Lemma incident_agree P Q edges edges' b v i :
  (forall i e, P i /\ edges.[i] = Some e <-> Q i /\ edges'.[i] = Some e) ->
  incident P edges b v i <-> incident Q edges' b v i.
Proof.
  intros Hag. unfold incident. split; intros (HP & e & He & Hrest).
  - destruct (proj1 (Hag i e)) as [??]; [done|]. eauto.
  - destruct (proj2 (Hag i e)) as [??]; [done|]. eauto.
Qed.

Lemma node_adj_agree P Q edges edges' v nd :
  (forall i e, P i /\ edges.[i] = Some e <-> Q i /\ edges'.[i] = Some e) ->
  node_adj P edges v nd -> node_adj Q edges' v nd.
Proof.
  intros Hag [Hn1 Hn2 Hs Hc Hb].
  assert (Hi : forall b i, incident P edges b v i <-> incident Q edges' b v i)
    by (intros; by apply incident_agree).
  split; [done|done|intros; by rewrite <-Hi|intros; by rewrite <-Hi|].
  intros u. rewrite Hb. split; intros (i & e & Hinc & He & Hu); exists i, e.
  - split; [by apply Hi|]. split; [|done]. destruct Hinc as [HP _]. by apply (Hag i e).
  - split; [by apply Hi|]. split; [|done]. destruct Hinc as [HQ _]. by apply (Hag i e).
Qed.

Context (fwd rev id : N) (left right : BS) (edges : list (SEdge BS)).
Hypothesis (Hfr : fwd <> rev).
Hypothesis (Hf : edges.[fwd] = Some (MkEdge left right id)).
Hypothesis (Hr : edges.[rev] = Some (MkEdge right left id)).
Hypothesis (Hdisj : to_gset left ## to_gset right).

Lemma is_simple_comm : is_simple right left = is_simple left right.
Proof using. apply andb_comm. Qed.

Let other i := i <> fwd /\ i <> rev.

(** Which of the two entries of the edge is incident to [v]. *)
Lemma incident_edge b v i :
  incident (fun _ => True) edges b v i <->
  incident other edges b v i \/ is_simple left right = b /\
    (i = fwd /\ v ∈ to_gset left \/ i = rev /\ v ∈ to_gset right).
Proof using Hf Hr.
  unfold incident, other, edge_simple. split.
  - intros (_ & e & He & Hb & Hv). destruct (decide (i = fwd)) as [->|Hif].
    { rewrite Hf in He. injection He as <-. simpl in *. auto. }
    destruct (decide (i = rev)) as [->|Hir].
    { rewrite Hr in He. injection He as <-. simpl in *. rewrite is_simple_comm in Hb. auto. }
    left. split; [done|]. by exists e.
  - intros [(_ & e & ?)|[Hb [[-> ?]|[-> ?]]]]; (split; [done|]).
    + by exists e.
    + by exists (MkEdge left right id).
    + exists (MkEdge right left id). simpl. by rewrite is_simple_comm.
Qed.

Lemma incident_other_ne b v i : incident other edges b v i -> i <> fwd /\ i <> rev.
Proof using. by intros [? _]. Qed.

Lemma attach_node_ok v nd :
  node_adj other edges v nd -> node_adj (fun _ => True) edges v (attach_node fwd rev left right v nd).
Proof using Hf Hr Hdisj.
  intros [Hn1 Hn2 Hs Hc Hb].
  assert (Hfresh : forall x, x = fwd \/ x = rev ->
    (x ∉ m_simple_edges nd) /\ (x ∉ m_complex_edges nd)).
  { intros x Hx. rewrite Hs, Hc. split; intros [??]%incident_other_ne; destruct Hx; done. }
  assert (Hnb : forall u, (exists i e, incident (fun _ => True) edges true v i /\
      edges.[i] = Some e /\ u ∈ to_gset (m_right e)) <->
    (exists i e, incident other edges true v i /\ edges.[i] = Some e /\ u ∈ to_gset (m_right e)) \/
    is_simple left right = true /\ (v ∈ to_gset left /\ u ∈ to_gset right \/
                                    v ∈ to_gset right /\ u ∈ to_gset left)).
  { intros u. setoid_rewrite incident_edge. split.
    - intros (i & e & [?|(? & [[-> ?]|[-> ?]])] & He & Hu); [left; by exists i, e|right..].
      + rewrite Hf in He. injection He as <-. auto.
      + rewrite Hr in He. injection He as <-. auto.
    - intros [(i & e & ? & ? & ?)|(? & [[? ?]|[? ?]])]; [exists i, e; auto|..].
      + exists fwd, (MkEdge left right id). auto 6.
      + exists rev, (MkEdge right left id). auto 6. }
  assert (Hd : v ∈ to_gset left -> v ∈ to_gset right -> False) by (clear -Hdisj; set_solver).
  unfold attach_node.
  destruct (is_simple left right) eqn:Es;
    destruct (decide (v ∈ to_gset left)), (decide (v ∈ to_gset right));
    try (exfalso; by auto); split;
    cbn [push_simple push_complex add_neighborhood m_simple_edges m_complex_edges
         m_simple_neighborhood];
    lazymatch goal with
    | |- NoDup _ => first [done | apply NoDup_app; split_and!; [done| |apply NoDup_singleton];
        intros x Hx ->%list_elem_of_singleton; eapply Hfresh in Hx; [done|by auto]]
    | |- forall i, i ∈ _ <-> incident _ _ _ _ _ => intros i;
        rewrite ?elem_of_app, ?list_elem_of_singleton, incident_edge, ?Hs, ?Hc, Es;
        intuition congruence
    | |- forall u, u ∈ _ <-> _ => intros u; rewrite Hnb; ns_simpl; rewrite ?elem_of_union, Hb;
        intuition congruence
    end.
Qed.

Lemma detach_node_ok v nd :
  node_adj (fun _ => True) edges v nd ->
  node_adj other edges v (detach_node edges fwd rev left right v nd).
Proof using Hf Hr Hdisj.
  intros [Hn1 Hn2 Hs Hc Hb].
  assert (Hd : v ∈ to_gset left -> v ∈ to_gset right -> False) by (clear -Hdisj; set_solver).
  assert (Hrb : forall ids, (forall i, i ∈ ids <-> incident other edges true v i) ->
    forall u, u ∈ to_gset (rights edges ids ns_empty) <->
    exists i e, incident other edges true v i /\ edges.[i] = Some e /\ u ∈ to_gset (m_right e)).
  { intros ids Hids u. rewrite elem_of_rights. ns_simpl. setoid_rewrite Hids.
    split; [by intros [?%elem_of_empty|?]|by right]. }
  assert (Hkeep : (is_simple left right = true -> (v ∉ to_gset left) /\ (v ∉ to_gset right)) ->
    forall i, incident (fun _ => True) edges true v i <-> incident other edges true v i).
  { intros Hk i. rewrite incident_edge. intuition. }
  assert (Hkeepu : (is_simple left right = true -> (v ∉ to_gset left) /\ (v ∉ to_gset right)) ->
    forall u, u ∈ to_gset (m_simple_neighborhood nd) <->
    exists i e, incident other edges true v i /\ edges.[i] = Some e /\ u ∈ to_gset (m_right e)).
  { intros Hk u. rewrite Hb. by setoid_rewrite Hkeep. }
  pose proof incident_other_ne as Hne.
  assert (Her : forall b x i, (x = fwd /\ v ∈ to_gset left \/ x = rev /\ v ∈ to_gset right) ->
    is_simple left right = b ->
    i <> x /\ incident (fun _ => True) edges b v i <-> incident other edges b v i).
  { intros b x i Hx Es. rewrite incident_edge. specialize (Hne b v i). intuition congruence. }
  unfold detach_node. destruct (is_simple left right) eqn:Es;
    destruct (decide (v ∈ to_gset left)), (decide (v ∈ to_gset right));
    try (exfalso; by auto); split; cbv zeta;
    cbn [m_simple_edges m_complex_edges m_simple_neighborhood erase_simple erase_complex set_neighborhood];
    lazymatch goal with
    | |- NoDup _ => first [done | by apply NoDup_filter]
    | |- forall i, i ∈ filter _ _ <-> _ => intros i;
        rewrite list_elem_of_filter, ?Hs, ?Hc; apply Her; auto
    | |- forall i, i ∈ _ <-> incident _ _ _ _ _ => intros i; rewrite ?Hs, ?Hc, incident_edge, Es;
        intuition congruence
    | |- forall u, u ∈ to_gset (rights _ _ _) <-> _ => apply Hrb; intros i;
        rewrite list_elem_of_filter, Hs; apply Her; auto
    | |- forall u, u ∈ _ <-> _ => apply Hkeepu; by auto
    end.
Qed.
End adjacency.

(** ** AddEdge and ReplaceEdge keep the invariant *)

Section invariant.
Context {BS : Type} `{NodeSet BS}.
Implicit Types (g : CDPHyperGraph BS) (left right : BS).

(** Every entry of a well-formed graph has its partner in the opposite direction. *)
Lemma wf_edge_pair g k :
  graph_wf g -> k < LogicalEdgeCount g -> exists e,
    Edge g (k * 2) = Some e /\ Edge g (k * 2 + 1) = Some (reverse_edge e) /\
    sides_ok (NodeCount g) (m_left e) (m_right e).
Proof.
  intros Hwf Hk. unfold LogicalEdgeCount, DirectedEdgeCount in Hk.
  destruct (gw_even _ Hwf) as [n Hn]. rewrite Hn in Hk.
  replace (N.of_nat (2 * n)) with (N.of_nat n * 2) in Hk by lia. rewrite N.div_mul in Hk by done.
  destruct (lookup_lt_is_Some_2 (m_edges g) (2 * N.to_nat k)) as [e He]; [lia|].
  exists e. unfold Edge.
  replace (N.to_nat (k * 2)) with (2 * N.to_nat k)%nat by lia.
  replace (N.to_nat (k * 2 + 1)) with (2 * N.to_nat k + 1)%nat by lia.
  split_and!; [done|by apply gw_pair|].
  pose proof (gw_sides _ Hwf) as Hs. rewrite Forall_lookup in Hs. by apply (Hs _ _ He).
Qed.

Lemma sides_ok_comm n left right : sides_ok n left right -> sides_ok n right left.
Proof.
  intros (? & ? & ? & Hn). split_and!; [done..|]. intros v Hv. apply Hn. set_solver.
Qed.

Lemma Graph_New_wf n : graph_wf (CDPHyperGraph_New n).
Proof.
  split; simpl.
  - by exists 0%nat.
  - done.
  - constructor.
  - unfold Node. simpl. intros v nd [-> _]%lookup_replicate.
    split; simpl; try constructor; try (by intros ?%elem_of_nil);
      try (by intros (_ & e & He & _)); ns_simpl.
    + by intros ?%elem_of_empty.
    + by intros (i & e & (_ & e' & He & _) & _).
Qed.

(** The graph [g'] after an edge was stored at entries [fwd] and [rev]. *)
Lemma store_edge_wf g nodes edges fwd rev left right id :
  let g' := map_nodes (attach_node fwd rev left right) (MkGraph nodes edges) in
  fwd <> rev -> length nodes = length (m_nodes g) ->
  edges.[fwd] = Some (MkEdge left right id) -> edges.[rev] = Some (MkEdge right left id) ->
  sides_ok (NodeCount g) left right ->
  (exists k, length edges = (2 * k)%nat) ->
  (forall k e, edges !! (2 * k)%nat = Some e -> edges !! (2 * k + 1)%nat = Some (reverse_edge e)) ->
  Forall (fun e => sides_ok (NodeCount g) (m_left e) (m_right e)) edges ->
  (forall v nd, nodes.[v] = Some nd -> node_adj (fun i => i <> fwd /\ i <> rev) edges v nd) ->
  graph_wf g'.
Proof.
  intros g' Hfr Hlen Hf Hr Hsd Hev Hp Hs Hn.
  assert (Hc : NodeCount g' = NodeCount g)
    by (unfold g'; rewrite NodeCount_map_nodes; unfold NodeCount; simpl; by rewrite Hlen).
  split; [done|done|by rewrite Hc|].
  intros v nd. unfold g'. rewrite Node_map_nodes. intros (nd0 & Hnd & ->)%fmap_Some. simpl.
  apply (attach_node_ok fwd rev id); [done..|apply Hsd|by apply Hn].
Qed.

Lemma AddEdge_ok g left right id :
  graph_wf g -> sides_ok (NodeCount g) left right -> exists g',
    AddEdge left right id g = Some g' /\ graph_wf g' /\ NodeCount g' = NodeCount g /\
    m_edges g' = m_edges g ++ [MkEdge left right id; MkEdge right left id].
Proof.
  intros Hwf Hs. unfold AddEdge. cbv zeta.
  rewrite AttachEdgeToNodes_map by done. eexists. split; [done|]. simpl.
  unfold DirectedEdgeCount. simpl. rewrite length_app, <-app_assoc. simpl.
  split; [|split; [by unfold NodeCount; simpl; rewrite length_imap|done]].
  destruct (gw_even _ Hwf) as [n Hn]. set (len := length (m_edges g)) in *.
  set (edges := m_edges g ++ _).
  assert (Hlf : edges.[N.of_nat len] = Some (MkEdge left right id)).
  { unfold edges. rewrite Nat2N.id, lookup_app_r by done. by rewrite Nat.sub_diag. }
  assert (Hlr : edges.[N.of_nat (len + 1)] = Some (MkEdge right left id)).
  { unfold edges. rewrite Nat2N.id, lookup_app_r by lia. fold len.
    by replace (len + 1 - len)%nat with 1%nat by lia. }
  apply (store_edge_wf g _ _ _ _ _ _ id); [lia|done|done|done|done|..].
  - exists (S n). unfold edges. rewrite length_app. simpl. lia.
  - intros k e. unfold edges. rewrite !lookup_app. fold len.
    destruct (m_edges g !! (2 * k)%nat) as [e'|] eqn:E.
    + intros [= <-]. by rewrite (gw_pair _ Hwf _ _ E).
    + apply lookup_ge_None in E. fold len in E.
      destruct (m_edges g !! (2 * k + 1)%nat) eqn:E'; [apply lookup_lt_Some in E'; lia|].
      destruct (2 * k - len)%nat as [|[|j]] eqn:Ek; [|lia|done].
      assert (Ek1 : (2 * k + 1 - len)%nat = 1%nat) by lia. rewrite Ek1. simpl.
      by intros [= <-].
  - apply Forall_app. split; [apply Hwf|]. apply Forall_cons; split; [done|].
    apply Forall_singleton. by apply sides_ok_comm.
  - intros v nd Hnd. eapply node_adj_agree; [|by apply (gw_nodes _ Hwf)].
    intros i e. split.
    + intros [_ He]. pose proof (lookup_lt_Some _ _ _ He) as Hlt. fold len in Hlt.
      split; [lia|]. unfold edges. by rewrite lookup_app_l.
    + intros [[? ?] He]. split; [done|]. unfold edges in He.
      apply lookup_app_Some in He as [?|[Hge He]]; [done|]. fold len in Hge, He.
      destruct (N.to_nat i - len)%nat as [|[|j]] eqn:Ej; [lia|lia|done].
Qed.

Lemma insert_pair_gw_pair (edges : list (SEdge BS)) k e :
  (2 * k + 1 < length edges)%nat ->
  (forall j x, edges !! (2 * j)%nat = Some x -> edges !! (2 * j + 1)%nat = Some (reverse_edge x)) ->
  forall j x,
    <[(2 * k + 1)%nat := reverse_edge e]> (<[(2 * k)%nat := e]> edges) !! (2 * j)%nat = Some x ->
    <[(2 * k + 1)%nat := reverse_edge e]> (<[(2 * k)%nat := e]> edges) !! (2 * j + 1)%nat =
      Some (reverse_edge x).
Proof.
  intros Hk Hp j x. rewrite (list_lookup_insert_ne _ _ (2 * j)) by lia.
  destruct (decide (j = k)) as [->|Hjk].
  - rewrite list_lookup_insert_eq by lia. intros [= <-].
    by rewrite list_lookup_insert_eq by (rewrite length_insert; lia).
  - rewrite !list_lookup_insert_ne by lia. apply Hp.
Qed.

(** The entries after [ReplaceEdge]. *)
Definition replaced (edges : list (SEdge BS)) (k : N) (e : SEdge BS) : list (SEdge BS) :=
  <[N.to_nat (k * 2 + 1) := reverse_edge e]> (<[N.to_nat (k * 2) := e]> edges).

Lemma ReplaceEdge_ok g k left right old :
  graph_wf g -> k < LogicalEdgeCount g -> sides_ok (NodeCount g) left right ->
  Edge g (k * 2) = Some old -> exists g',
    ReplaceEdge k left right g = Some g' /\ graph_wf g' /\ NodeCount g' = NodeCount g /\
    m_edges g' = replaced (m_edges g) k (MkEdge left right (m_edge_id old)).
Proof.
  intros Hwf Hk Hs Hold. destruct (wf_edge_pair g k Hwf Hk) as (e & He & Hr & Hse).
  assert (e = old) as -> by congruence. unfold ReplaceEdge. cbv zeta. rewrite He, Hr.
  cbn [mbind option_bind]. rewrite DetachEdgeFromNodes_map; [|done|].
  2: { intros v nd i Hnd Hi. apply (na_simple _ _ _ _ (gw_nodes _ Hwf v nd Hnd)) in Hi.
       destruct Hi as (_ & e & Hi & _). by exists e. }
  cbn [mbind option_bind]. rewrite AttachEdgeToNodes_map.
  2: { cut (NodeCount (map_nodes (detach_node (m_edges g) (k * 2) (k * 2 + 1) (m_left old)
         (m_right old)) g) = NodeCount g); [|apply NodeCount_map_nodes].
       unfold NodeCount. simpl. by intros ->. }
  eexists. split; [done|].
  assert (Hlen : (2 * N.to_nat k + 1 < length (m_edges g))%nat)
    by (unfold Edge in Hr; apply lookup_lt_Some in Hr; lia).
  set (new := MkEdge left right (m_edge_id old)).
  set (edges' := replaced (m_edges g) k new).
  change (<[_ := _]> (<[_ := _]> (m_edges (map_nodes _ g)))) with edges'.
  assert (Hl' : length edges' = length (m_edges g)) by (unfold edges', replaced; by rewrite !length_insert).
  assert (Hef : edges'.[k * 2] = Some new).
  { unfold edges', replaced. rewrite list_lookup_insert_ne by lia.
    apply list_lookup_insert_eq. lia. }
  assert (Her : edges'.[k * 2 + 1] = Some (reverse_edge new)).
  { unfold edges', replaced. apply list_lookup_insert_eq. rewrite length_insert. lia. }
  split; [|split; [unfold NodeCount; simpl; by rewrite !length_imap|done]].
  apply (store_edge_wf g _ _ _ _ _ _ (m_edge_id old)); [lia|by simpl; rewrite length_imap|done|done|done|..].
  - destruct (gw_even _ Hwf) as [n Hn]. exists n. by rewrite Hl'.
  - unfold edges', replaced. replace (N.to_nat (k * 2 + 1)) with (2 * N.to_nat k + 1)%nat by lia.
    replace (N.to_nat (k * 2)) with (2 * N.to_nat k)%nat by lia.
    apply insert_pair_gw_pair; [done|apply Hwf].
  - unfold edges', replaced. apply Forall_insert; [apply Forall_insert; [apply Hwf|done]|].
    by apply sides_ok_comm.
  - intros v nd. change ((m_nodes (map_nodes ?f g)).[v]) with (Node (map_nodes f g) v).
    rewrite Node_map_nodes. intros (nd0 & Hnd & ->)%fmap_Some.
    destruct old as [ol or oid]. simpl in *.
    eapply node_adj_agree; [|apply (detach_node_ok (k * 2) (k * 2 + 1) oid);
      [done|done|apply Hse|by apply Hwf]].
    intros i e. cut (i <> k * 2 /\ i <> k * 2 + 1 -> edges'.[i] = (m_edges g).[i]).
    { intros Heq. split; intros [Hi Hx]; (split; [done|]); rewrite Heq in * by done; done. }
    intros [? ?]. unfold edges', replaced. by rewrite !list_lookup_insert_ne by lia.
Qed.

(** ** Two well-formed graphs with the same entries have the same adjacency *)

Record node_equiv (a b : SNode BS) : Prop := {
  ne_neighborhood : to_gset (m_simple_neighborhood a) = to_gset (m_simple_neighborhood b);
  ne_simple : m_simple_edges a ≡ₚ m_simple_edges b;
  ne_complex : m_complex_edges a ≡ₚ m_complex_edges b
}.

(** Same entries, and adjacency lists equal up to their order. *)
Definition graph_equiv (a b : CDPHyperGraph BS) : Prop :=
  m_edges a = m_edges b /\ Forall2 node_equiv (m_nodes a) (m_nodes b).

Lemma node_ok_equiv edges v a b : node_ok edges v a -> node_ok edges v b -> node_equiv a b.
Proof.
  intros Ha Hb. split.
  - apply set_eq. intros u. by rewrite (na_neighborhood _ _ _ _ Ha), (na_neighborhood _ _ _ _ Hb).
  - apply NoDup_Permutation; [apply Ha|apply Hb|]. intros i.
    by rewrite (na_simple _ _ _ _ Ha), (na_simple _ _ _ _ Hb).
  - apply NoDup_Permutation; [apply Ha|apply Hb|]. intros i.
    by rewrite (na_complex _ _ _ _ Ha), (na_complex _ _ _ _ Hb).
Qed.

Lemma wf_graph_equiv a b :
  graph_wf a -> graph_wf b -> NodeCount a = NodeCount b -> m_edges a = m_edges b ->
  graph_equiv a b.
Proof.
  intros Ha Hb Hn He. split; [done|]. apply Forall2_same_length_lookup_2.
  - unfold NodeCount in Hn. lia.
  - intros i x y Hx Hy. apply (node_ok_equiv (m_edges a) (N.of_nat i)).
    + apply Ha. unfold Node. by rewrite Nat2N.id.
    + rewrite He. apply Hb. unfold Node. by rewrite Nat2N.id.
Qed.

#[global] Instance node_equiv_Equivalence : Equivalence node_equiv.
Proof.
  split; [by split|by intros a b [???]|]. intros a b c [???] [???].
  split; [congruence|by etrans|by etrans].
Qed.

#[global] Instance graph_equiv_Equivalence : Equivalence graph_equiv.
Proof.
  unfold graph_equiv. split; [by split|by intros a b [? ?]|].
  intros a b c [? ?] [? ?]. split; [congruence|by etrans].
Qed.
End invariant.

(** ** Properties of the hypergraph *)

(** [AddEdge] on a well-formed graph, with nonempty disjoint sides over its
    nodes, stays in bounds, appends the forward and the reverse entry, and keeps
    the adjacency of every node exactly what the entries induce. *)
Theorem AddEdge_invariant {BS} `{NodeSet BS} (g : CDPHyperGraph BS) (left right : BS) (id : N)
    (Hwf : graph_wf g) (Hs : sides_ok (NodeCount g) left right) :
  exists g', AddEdge left right id g = Some g' /\ graph_wf g' /\ NodeCount g' = NodeCount g /\
    m_edges g' = m_edges g ++ [MkEdge left right id; MkEdge right left id].
Proof. by apply AddEdge_ok. Qed.

(** C16: [ReplaceEdge] changes the two entries of its edge to the new sides under
    the id the edge had, and detaching the old and attaching the new sides keeps
    the adjacency of every node (simple neighborhoods included) exactly what the
    entries induce. *)
Theorem ReplaceEdge_invariant {BS} `{NodeSet BS} (g : CDPHyperGraph BS) (k : N) (left right : BS)
    (Hwf : graph_wf g) (Hk : k < LogicalEdgeCount g) (Hs : sides_ok (NodeCount g) left right) :
  exists g' old, Edge g (k * 2) = Some old /\ ReplaceEdge k left right g = Some g' /\
    graph_wf g' /\ NodeCount g' = NodeCount g /\
    m_edges g' = replaced (m_edges g) k (MkEdge left right (m_edge_id old)).
Proof.
  destruct (wf_edge_pair g k Hwf Hk) as (old & Hold & _ & _).
  destruct (ReplaceEdge_ok g k left right old Hwf Hk Hs Hold) as (g' & ? & ? & ? & ?).
  by exists g', old.
Qed.

(** Replacing an edge and then putting its old sides back gives the original
    entries, and every node the adjacency it had, up to the order of its lists. *)
Theorem ReplaceEdge_roundtrip {BS} `{NodeSet BS} (g : CDPHyperGraph BS) (k : N) (left right : BS)
    (Hwf : graph_wf g) (Hk : k < LogicalEdgeCount g) (Hs : sides_ok (NodeCount g) left right) :
  exists old g1 g2, Edge g (k * 2) = Some old /\ ReplaceEdge k left right g = Some g1 /\
    ReplaceEdge k (m_left old) (m_right old) g1 = Some g2 /\ graph_equiv g2 g.
Proof.
  destruct (wf_edge_pair g k Hwf Hk) as (old & Hold & Hrev & Hso).
  destruct (ReplaceEdge_ok g k left right old Hwf Hk Hs Hold) as (g1 & Hg1 & Hwf1 & Hn1 & He1).
  assert (Hlen : (N.to_nat (k * 2 + 1) < length (m_edges g))%nat)
    by (unfold Edge in Hrev; by eapply lookup_lt_Some).
  assert (Hk1 : k < LogicalEdgeCount g1)
    by (unfold LogicalEdgeCount, DirectedEdgeCount in *; rewrite He1; unfold replaced;
        by rewrite !length_insert).
  assert (Hcur : Edge g1 (k * 2) = Some (MkEdge left right (m_edge_id old))).
  { unfold Edge. rewrite He1. unfold replaced. rewrite list_lookup_insert_ne by lia.
    apply list_lookup_insert_eq. lia. }
  rewrite <-Hn1 in Hso.
  destruct (ReplaceEdge_ok g1 k _ _ _ Hwf1 Hk1 Hso Hcur) as (g2 & Hg2 & Hwf2 & Hn2 & He2).
  exists old, g1, g2. split_and!; [done..|]. apply wf_graph_equiv; [done|done|congruence|].
  rewrite He2, He1. unfold replaced. simpl. unfold Edge in Hold, Hrev. apply list_eq. intros i.
  destruct (decide (i = N.to_nat (k * 2 + 1))) as [->|Hi1].
  { rewrite Hrev. apply list_lookup_insert_eq. rewrite !length_insert. lia. }
  rewrite list_lookup_insert_ne by done. destruct (decide (i = N.to_nat (k * 2))) as [->|Hi2].
  { rewrite Hold. rewrite list_lookup_insert_eq by (rewrite !length_insert; lia).
    by destruct old. }
  by rewrite !list_lookup_insert_ne by done.
Qed.

(** ** A concrete graph *)

(** Adding a list of edges. *)
Fixpoint AddEdges {BS} `{NodeSet BS} (es : list (BS * BS * N)) (g : CDPHyperGraph BS)
    : option (CDPHyperGraph BS) :=
  match es with
  | [] => Some g
  | (l, r, id) :: es => g ← AddEdge l r id g; AddEdges es g
  end.

Lemma AddEdges_ok {BS} `{NodeSet BS} (es : list (BS * BS * N)) (g : CDPHyperGraph BS) :
  graph_wf g -> (forall l r id, (l, r, id) ∈ es -> sides_ok (NodeCount g) l r) ->
  exists g', AddEdges es g = Some g' /\ graph_wf g' /\ NodeCount g' = NodeCount g /\
    length (m_edges g') = (length (m_edges g) + 2 * length es)%nat.
Proof.
  revert g. induction es as [|[[l r] id] es IH]; intros g Hg Hs; cbn [AddEdges].
  { exists g. split_and!; [done..|simpl; lia]. }
  destruct (AddEdge_ok g l r id Hg (Hs l r id ltac:(left))) as (g1 & -> & Hg1 & Hn1 & He1).
  cbn [mbind option_bind]. destruct (IH g1 Hg1) as (g2 & ? & ? & Hn2 & Hl2).
  - intros l' r' id' ?. rewrite Hn1. eapply Hs. by right.
  - exists g2. split_and!; [done|done|congruence|]. rewrite Hl2, He1, length_app. simpl. lia.
Qed.

(** Four relations: a chain 0-1-2 and the complex edge {0,1}-{3}. *)
Definition sample_edges : list (gset N * gset N * N) :=
  [({[0]}, {[1]}, 7); ({[1]}, {[2]}, 8); ({[0; 1]}, {[3]}, 9)].

(** [sides_ok] by evaluation. *)
Definition sides_okb (n : N) (l r : gset N) : bool :=
  bool_decide (l <> ∅) && bool_decide (r <> ∅) && bool_decide (l ## r) &&
  bool_decide (set_Forall (fun v => v < n) (l ∪ r)).

Lemma sides_okb_ok n (l r : gset N) : sides_okb n l r = true -> sides_ok n l r.
Proof. intros Hb. unfold sides_okb in Hb. breflect. by split_and!. Qed.

Lemma sample_sides (l r : gset N) (id : N) : (l, r, id) ∈ sample_edges -> sides_ok 4 l r.
Proof.
  intros Hin. unfold sample_edges in Hin.
  repeat (apply elem_of_cons in Hin as [[= -> -> ->]|Hin]; [by apply sides_okb_ok|]).
  by apply elem_of_nil in Hin.
Qed.

Lemma sample_graph_ok :
  exists g, AddEdges sample_edges (CDPHyperGraph_New 4) = Some g /\ graph_wf g /\
    NodeCount g = 4 /\ LogicalEdgeCount g = 3.
Proof.
  destruct (AddEdges_ok sample_edges (CDPHyperGraph_New 4) (Graph_New_wf 4) sample_sides)
    as (g & ? & ? & Hn & Hl).
  exists g. split_and!; [done..|]. unfold LogicalEdgeCount, DirectedEdgeCount. rewrite Hl. done.
Qed.

Lemma AddEdge_invariant_witness :
  exists g', AddEdge (BS := gset N) {[0]} {[1]} 7 (CDPHyperGraph_New 2) = Some g' /\ graph_wf g'.
Proof.
  destruct (AddEdge_invariant (BS := gset N) (CDPHyperGraph_New 2) {[0]} {[1]} 7 (Graph_New_wf 2))
    as (g' & Ha & Hg & _).
  - by apply sides_okb_ok.
  - by exists g'.
Defined.

Lemma ReplaceEdge_invariant_witness :
  exists g g', AddEdges sample_edges (CDPHyperGraph_New 4) = Some g /\
    ReplaceEdge (BS := gset N) 1 {[0; 1]} {[2]} g = Some g' /\ graph_wf g'.
Proof.
  destruct sample_graph_ok as (g & Hg & Hwf & Hn & Hl).
  destruct (ReplaceEdge_invariant g 1 {[0; 1]} {[2]} Hwf) as (g' & old & _ & Hr & Hwf' & _).
  - rewrite Hl. lia.
  - rewrite Hn. by apply sides_okb_ok.
  - by exists g, g'.
Defined.

Lemma ReplaceEdge_roundtrip_witness :
  exists g old g1 g2, AddEdges sample_edges (CDPHyperGraph_New 4) = Some g /\
    ReplaceEdge (BS := gset N) 1 {[0; 1]} {[2]} g = Some g1 /\
    ReplaceEdge 1 (m_left old) (m_right old) g1 = Some g2 /\ graph_equiv g2 g.
Proof.
  destruct sample_graph_ok as (g & Hg & Hwf & Hn & Hl).
  destruct (ReplaceEdge_roundtrip g 1 {[0; 1]} {[2]} Hwf) as (old & g1 & g2 & _ & H1 & H2 & He).
  - rewrite Hl. lia.
  - rewrite Hn. by apply sides_okb_ok.
  - by exists g, old, g1, g2.
Defined.
