(* ===== verification/DPHyperEnum.v ===== *)
(** * CDPHyperEnumerator: the DPHyp enumeration of connected pairs

    Model of the class [CDPHyperEnumerator] of
    libgpopt/src/xforms/CDPHyperGraph.cpp.  The receiver is an interface
    ([IDPHyperReceiver]) over a state [R] that is threaded through the
    enumeration; a call returns [None] when the source would index a vector
    out of range, read an exhausted iterator, or run deeper than the fuel, and
    otherwise the abort flag and the new state.  [Enumerate_safe] proves that
    on a well-formed graph none of these happens: recursion depth is bounded
    by the number of nodes, every access is in bounds, and every pair reported
    meets what the receiver may assume. *)

From S2P Require Import Prelude NodeSet DPHyperGraph.

Open Scope N_scope.

(** ** The receiver interface *)

Class IDPHyperReceiver (BS R : Type) := {
  FoundSingleNode : N -> R -> bool * R;
  HasSeen : BS -> R -> bool;
  FoundSubgraphPair : BS -> BS -> N -> R -> bool * R
}.

(** ** Subset enumeration *)

Section subsets.
Context {BS : Type} `{NodeSet BS} {St : Type}.
Implicit Types (callback : BS -> St -> option (bool * St)).

(** [bits] are the bits from [pos] on; [current] is shared with the callback,
    so its value after the call is a result. *)
Fixpoint EnumerateSubsetsRecursive (bits : list N) (current : BS) callback (st : St)
    : option (bool * BS * St) :=
  match bits with
  | [] =>
    if 0 <? ns_Size current then
      '(abort, st) ← callback current st; Some (abort, current, st)
    else Some (false, current, st)
  | bit :: bits =>
    '(abort, current, st) ← EnumerateSubsetsRecursive bits current callback st;
    if (abort : bool) then Some (true, current, st)
    else
      let current := (ns_ExchangeSet current bit).1 in
      '(abort, current, st) ← EnumerateSubsetsRecursive bits current callback st;
      let current := (ns_ExchangeClear current bit).1 in
      Some (abort, current, st)
  end.

Definition EnumerateSubsets (set : BS) callback (st : St) : option (bool * St) :=
  let bits := reverse (ns_bits set) in
  '(abort, _, st) ← EnumerateSubsetsRecursive bits ns_empty callback st;
  Some (abort, st).
End subsets.

(** ** The neighborhood cache *)

Record CNeighborhoodCache (BS : Type) := MkCache {
  m_taboo : BS;
  m_last_grown : BS;
  m_last_neighborhood : BS;
  m_last_full_neighborhood : BS;
  m_initialized : bool
}.
Arguments MkCache {BS}. Arguments m_taboo {BS}. Arguments m_last_grown {BS}.
Arguments m_last_neighborhood {BS}. Arguments m_last_full_neighborhood {BS}.
Arguments m_initialized {BS}.

Section enumerator.
Context {BS : Type} `{NodeSet BS} {R : Type} `{IDPHyperReceiver BS R}.
Context (m_graph : CDPHyperGraph BS).
Implicit Types (subgraph complement neighborhood full_neighborhood forbidden just_grown : BS).
Implicit Types (cache : CNeighborhoodCache BS) (r : R).

Definition CNeighborhoodCache_New neighborhood : CNeighborhoodCache BS :=
  let taboo :=
    if 0 <? ns_Size neighborhood then
      match first_bit neighborhood with
      | Some b => (ns_ExchangeSet ns_empty b).1
      | None => ns_empty
      end
    else ns_empty in
  MkCache taboo ns_empty ns_empty ns_empty false.

(** Returns the nodes to search and the two sets it unions into. *)
Definition PbsToSearch cache just_grown neighborhood full_neighborhood : BS * BS * BS :=
  let to_search := just_grown in
  if m_initialized cache && ns_ContainsAll just_grown (m_last_grown cache) then
    (ns_Difference to_search (m_last_grown cache),
     ns_Union neighborhood (m_last_neighborhood cache),
     ns_Union full_neighborhood (m_last_full_neighborhood cache))
  else (to_search, neighborhood, full_neighborhood).

Definition CNeighborhoodCache_Store cache just_grown neighborhood full_neighborhood
    : CNeighborhoodCache BS :=
  if negb (ns_IsDisjoint just_grown (m_taboo cache)) then cache
  else MkCache (m_taboo cache) just_grown neighborhood full_neighborhood true.

Definition PbsSingleton (node_id : N) : BS := (ns_ExchangeSet ns_empty node_id).1.

(** [for (node_id = 0; node_id < upper_bound; ++node_id) set->ExchangeSet(node_id)] *)
Definition PbsLowerNodes (upper_bound : N) : BS :=
  fold_left (fun set node_id => (ns_ExchangeSet set node_id).1)
    (N.of_nat <$> seq 0 (N.to_nat upper_bound)) ns_empty.

Definition LowestBit (set : BS) : option N := first_bit set.

Definition PbsLowestBit (set : BS) : option BS := PbsSingleton <$> LowestBit set.

(** The loop over the complex edges of one node. *)
Fixpoint neighborhood_edges subgraph forbidden (edges : list N) (acc : BS * BS)
    : option (BS * BS) :=
  match edges with
  | [] => Some acc
  | edge_idx :: edges =>
    edge ← Edge m_graph edge_idx;
    if negb (ns_ContainsAll subgraph (m_left edge)) ||
       negb (ns_IsDisjoint (m_right edge) subgraph) ||
       negb (ns_IsDisjoint (m_right edge) forbidden)
    then neighborhood_edges subgraph forbidden edges acc
    else
      let '(neighborhood, full) := acc in
      let full := ns_Union full (m_right edge) in
      if ns_IsDisjoint (m_right edge) neighborhood then
        representative ← PbsLowestBit (m_right edge);
        neighborhood_edges subgraph forbidden edges (ns_Union neighborhood representative, full)
      else neighborhood_edges subgraph forbidden edges (neighborhood, full)
  end.

(** The loop over the nodes to search. *)
Fixpoint neighborhood_nodes subgraph forbidden (nodes : list N) (acc : BS * BS)
    : option (BS * BS) :=
  match nodes with
  | [] => Some acc
  | node_id :: nodes =>
    node ← Node m_graph node_id;
    let '(neighborhood, full) := acc in
    let neighborhood := ns_Union neighborhood (m_simple_neighborhood node) in
    acc ← neighborhood_edges subgraph forbidden (m_complex_edges node) (neighborhood, full);
    neighborhood_nodes subgraph forbidden nodes acc
  end.

(** Returns the neighborhood, the cache and [full_neighborhood] after the call. *)
Definition PbsNeighborhood subgraph forbidden just_grown cache full_neighborhood
    : option (BS * CNeighborhoodCache BS * BS) :=
  let '(to_search, neighborhood, full) :=
    PbsToSearch cache just_grown ns_empty full_neighborhood in
  '(neighborhood, full) ←
    neighborhood_nodes subgraph forbidden (ns_bits to_search) (neighborhood, full);
  let neighborhood := ns_Difference neighborhood subgraph in
  let neighborhood := ns_Difference neighborhood forbidden in
  let full := ns_Union full neighborhood in
  Some (neighborhood, CNeighborhoodCache_Store cache just_grown neighborhood full, full).

(** ** Reporting pairs *)

(** Tests on [LowestBit(edge->m_left)] compare with [Some]: the sides of an edge
    are never empty ([sides_ok]).
    [for (edge : edges) if (test(edge) && FoundSubgraphPair(left, right, edge->m_edge_id))
    return true;] *)
Fixpoint report_edges (test : SEdge BS -> bool) (left right : BS) (edges : list N) r
    : option (bool * R) :=
  match edges with
  | [] => Some (false, r)
  | edge_idx :: edges =>
    edge ← Edge m_graph edge_idx;
    if test edge then
      let '(abort, r) := FoundSubgraphPair left right (m_edge_id edge) r in
      if (abort : bool) then Some (true, r) else report_edges test left right edges r
    else report_edges test left right edges r
  end.

Fixpoint try_connecting_nodes subgraph complement (nodes : list N) r : option (bool * R) :=
  match nodes with
  | [] => Some (false, r)
  | node_id :: nodes =>
    node ← Node m_graph node_id;
    '(abort, r) ←
      (if negb (ns_IsDisjoint (m_simple_neighborhood node) subgraph) then
         report_edges (fun edge => negb (ns_IsDisjoint (m_right edge) subgraph) &&
                                   negb (ns_IsDisjoint (m_left edge) complement))
           subgraph complement (m_simple_edges node) r
       else Some (false, r));
    if (abort : bool) then Some (true, r) else
    '(abort, r) ←
      report_edges (fun edge => bool_decide (LowestBit (m_left edge) = Some node_id) &&
                                ns_ContainsAll complement (m_left edge) &&
                                ns_ContainsAll subgraph (m_right edge))
        subgraph complement (m_complex_edges node) r;
    if (abort : bool) then Some (true, r) else
    try_connecting_nodes subgraph complement nodes r
  end.

Definition TryConnecting subgraph (subgraph_full_neighborhood : BS) complement r
    : option (bool * R) :=
  let candidates := ns_Intersection complement subgraph_full_neighborhood in
  try_connecting_nodes subgraph complement (ns_bits candidates) r.

(** ** Growing the complement *)

(** A growing set of nodes is a level of recursion, so one more level than
    there are nodes is enough. *)
Definition enum_fuel : nat := S (length (m_nodes m_graph)).

Fixpoint ExpandComplement (fuel : nat) subgraph (subgraph_full_neighborhood : BS) complement
    neighborhood forbidden r : option (bool * R) :=
  match fuel with
  | O => None
  | S fuel =>
    '(abort, r) ← EnumerateSubsets neighborhood (fun grow_by r =>
      let grown := ns_Union complement grow_by in
      if HasSeen grown r then TryConnecting subgraph subgraph_full_neighborhood grown r
      else Some (false, r)) r;
    if (abort : bool) then Some (true, r) else
    '(abort, (_, r)) ← EnumerateSubsets neighborhood (fun grow_by '(cache, r) =>
      let grown := ns_Union complement grow_by in
      let new_forbidden := ns_Difference (ns_Union forbidden neighborhood) grown in
      '(new_neighborhood, cache, _) ←
        PbsNeighborhood grown new_forbidden grow_by cache ns_empty;
      '(abort, r) ← ExpandComplement fuel subgraph subgraph_full_neighborhood grown
                      new_neighborhood new_forbidden r;
      Some (abort, (cache, r))) (CNeighborhoodCache_New neighborhood, r);
    Some (abort, r)
  end.

(** The loop of [EnumerateComplements] over the seeds, highest first. *)
Fixpoint complement_seeds (fuel : nat) subgraph full_neighborhood neighborhood forbidden
    (seeds : list N) cache r : option (bool * R) :=
  match seeds with
  | [] => Some (false, r)
  | seed_id :: seeds =>
    let seed := PbsSingleton seed_id in
    node ← Node m_graph seed_id;
    '(abort, r) ←
      (if negb (ns_IsDisjoint (m_simple_neighborhood node) subgraph) then
         report_edges (fun edge => negb (ns_IsDisjoint (m_right edge) subgraph))
           subgraph seed (m_simple_edges node) r
       else Some (false, r));
    if (abort : bool) then Some (true, r) else
    '(abort, r) ←
      report_edges (fun edge => ns_Equals (m_left edge) seed &&
                                ns_ContainsAll subgraph (m_right edge))
        subgraph seed (m_complex_edges node) r;
    if (abort : bool) then Some (true, r) else
    let lower_seed := PbsLowerNodes seed_id in
    let new_forbidden := ns_Union forbidden subgraph in
    let lower_seed := ns_Intersection lower_seed neighborhood in
    let new_forbidden := ns_Union new_forbidden lower_seed in
    '(new_neighborhood, cache, _) ← PbsNeighborhood seed new_forbidden seed cache ns_empty;
    '(abort, r) ← ExpandComplement fuel subgraph full_neighborhood seed new_neighborhood
                    new_forbidden r;
    if (abort : bool) then Some (true, r) else
    complement_seeds fuel subgraph full_neighborhood neighborhood forbidden seeds cache r
  end.

Definition EnumerateComplements (lowest_node : N) subgraph full_neighborhood
    (input_neighborhood : BS) r : option (bool * R) :=
  let neighborhood := ns_Difference input_neighborhood subgraph in
  let forbidden := PbsLowerNodes lowest_node in
  let cache := CNeighborhoodCache_New neighborhood in
  complement_seeds enum_fuel subgraph full_neighborhood neighborhood forbidden
    (reverse (ns_bits neighborhood)) cache r.

(** ** Growing the subgraph *)

Fixpoint ExpandSubgraph (fuel : nat) (lowest_node : N) subgraph full_neighborhood neighborhood
    forbidden r : option (bool * R) :=
  match fuel with
  | O => None
  | S fuel =>
    '(abort, (cache, r)) ← EnumerateSubsets neighborhood (fun grow_by '(cache, r) =>
      let grown := ns_Union subgraph grow_by in
      if negb (HasSeen grown r) then Some (false, (cache, r)) else
      '(new_neighborhood, cache, new_full) ←
        PbsNeighborhood grown forbidden grow_by cache full_neighborhood;
      let high_nodes := ns_Difference (PbsLowerNodes (NodeCount m_graph))
                          (PbsLowerNodes lowest_node) in
      let previously_forbidden := ns_Intersection forbidden high_nodes in
      let new_neighborhood := ns_Union new_neighborhood previously_forbidden in
      let new_neighborhood := ns_Union new_neighborhood neighborhood in
      '(abort, r) ← EnumerateComplements lowest_node grown new_full new_neighborhood r;
      Some (abort, (cache, r))) (CNeighborhoodCache_New neighborhood, r);
    if (abort : bool) then Some (true, r) else
    '(abort, (_, r)) ← EnumerateSubsets neighborhood (fun grow_by '(cache, r) =>
      let grown := ns_Union subgraph grow_by in
      let new_forbidden := ns_Difference (ns_Union forbidden neighborhood) grown in
      '(new_neighborhood, cache, new_full) ←
        PbsNeighborhood grown new_forbidden grow_by cache full_neighborhood;
      '(abort, r) ← ExpandSubgraph fuel lowest_node grown new_full new_neighborhood
                      new_forbidden r;
      Some (abort, (cache, r))) (cache, r);
    Some (abort, r)
  end.

(** The loop [for (seed_id = NodeCount(); 0 < seed_id; --seed_id)]. *)
Fixpoint enumerate_loop (seed_id : nat) r : option (bool * R) :=
  match seed_id with
  | O => Some (false, r)
  | S node =>
    let node_id := N.of_nat node in
    let '(abort, r) := FoundSingleNode node_id r in
    if (abort : bool) then Some (true, r) else
    let seed := PbsSingleton node_id in
    let forbidden := PbsLowerNodes node_id in
    let cache := CNeighborhoodCache_New ns_empty in
    '(neighborhood, _, full_neighborhood) ← PbsNeighborhood seed forbidden seed cache ns_empty;
    '(abort, r) ← EnumerateComplements node_id seed full_neighborhood neighborhood r;
    if (abort : bool) then Some (true, r) else
    let forbidden := ns_Union forbidden seed in
    '(abort, r) ← ExpandSubgraph enum_fuel node_id seed full_neighborhood neighborhood forbidden r;
    if (abort : bool) then Some (true, r) else
    enumerate_loop node r
  end.

Definition Enumerate r : option (bool * R) :=
  enumerate_loop (length (m_nodes m_graph)) r.
End enumerator.

(** ** Subset enumeration visits every nonempty subset once, in mask order *)

Section subsets_spec.
Context {BS : Type} `{NodeSet BS} {St : Type}.
Implicit Types (I : bool -> St -> Prop) (callback : BS -> St -> option (bool * St)).

Lemma EnumerateSubsetsRecursive_inv I bits (current : BS) callback st :
  let bound s := to_gset s ⊆ to_gset current ∪ list_to_set bits in
  (forall s st, bound s -> to_gset s <> ∅ -> I false st ->
     returns (fun '(b, st') => I b st') (callback s st)) ->
  NoDup bits -> (forall b, b ∈ bits -> b ∉ to_gset current) -> I false st ->
  returns (fun '(b, current', st') => to_gset current' = to_gset current /\ I b st')
    (EnumerateSubsetsRecursive bits current callback st).
Proof.
  revert current st. induction bits as [|b bits IH]; intros current st bound Hcb Hnd Hni HI;
    cbn [EnumerateSubsetsRecursive].
  - destruct (N.ltb_spec 0 (ns_Size current)) as [Hs|_].
    + eapply returns_bind; [apply Hcb; [unfold bound; set_solver| |done]|].
      { intros He. revert Hs. ns_simpl. rewrite He, size_empty. lia. }
      intros [abort st'] HI'. by eexists.
    + by eexists.
  - apply NoDup_cons in Hnd as [Hb Hnd].
    assert (b ∉ to_gset current) by (apply Hni; left).
    eapply returns_bind.
    { apply (IH current st); [|done|intros; apply Hni; by right|done].
      intros s st' Hs. apply Hcb. unfold bound. set_solver. }
    intros [[[] cur1] st1] [Hc1 HI1]; [by eexists|]. cbv zeta. eapply returns_bind.
    { apply (IH (ns_ExchangeSet cur1 b).1 st1); [|done| |done].
      - intros s st' Hs. apply Hcb. unfold bound. revert Hs. ns_simpl. set_solver.
      - ns_simpl. rewrite Hc1. intros x Hx. assert (x ∉ to_gset current) by (apply Hni; by right).
        set_solver. }
    intros [[abort cur2] st2] [Hc2 HI2]. eexists. split; [done|]. split; [|done].
    revert Hc2. ns_simpl. rewrite Hc1. intros ->. set_solver.
Qed.

Lemma EnumerateSubsets_inv I (set : BS) callback st :
  (forall s st, to_gset s ⊆ to_gset set -> to_gset s <> ∅ -> I false st ->
     returns (fun '(b, st') => I b st') (callback s st)) ->
  I false st -> returns (fun '(b, st') => I b st') (EnumerateSubsets set callback st).
Proof.
  intros Hcb HI. unfold EnumerateSubsets. cbv zeta. eapply returns_bind.
  - apply (EnumerateSubsetsRecursive_inv I); [|rewrite reverse_Permutation; apply bits_NoDup| |done].
    + intros s st' Hs. apply Hcb. intros x Hx. apply Hs in Hx. revert Hx. ns_simpl.
      rewrite elem_of_union, elem_of_list_to_set, elem_of_reverse, bits_law. set_solver.
    + intros b _. ns_simpl. set_solver.
  - intros [[abort cur] st'] [_ HI']. by eexists.
Qed.
End subsets_spec.

(** The numeric mask of a set of positions. *)
Definition mask (X : gset N) : N := set_fold (fun b m => 2 ^ b + m) 0 X.

Lemma mask_union X Y : X ## Y -> mask (X ∪ Y) = mask X + mask Y.
Proof.
  intros Hd. unfold mask.
  rewrite (set_fold_disj_union_strong (=)); [|intros ? ? ? ?; congruence|intros; lia|done].
  assert (Hacc : forall (Z : gset N) a, set_fold (fun b m => 2 ^ b + m) a Z =
    set_fold (fun b m => 2 ^ b + m) 0 Z + a :> N); [|rewrite Hacc; lia].
  intros Z a. unfold set_fold. simpl. induction (elements Z); simpl; lia.
Qed.

Lemma mask_singleton b : mask {[b]} = 2 ^ b.
Proof. unfold mask. rewrite set_fold_singleton. lia. Qed.

Lemma mask_empty : mask ∅ = 0.
Proof. done. Qed.

Lemma mask_lt_pow (b : N) X : (forall x, x ∈ X -> x < b) -> mask X < 2 ^ b.
Proof.
  revert X. induction b as [|b IH] using N.peano_ind; intros X Hx.
  - assert (X = ∅) as -> by (apply elem_of_equiv_empty_L; intros x ?%Hx; lia). done.
  - rewrite N.pow_succ_r'.
    assert (Hs : forall Y, (forall x, x ∈ Y -> x < N.succ b) -> b ∉ Y -> mask Y < 2 ^ b).
    { intros Y HY Hb. apply IH. intros x Hin. specialize (HY x Hin).
      assert (x <> b) by congruence. lia. }
    destruct (decide (b ∈ X)) as [Hb|Hb].
    + replace X with ({[b]} ∪ X ∖ {[b]})
        by (apply set_eq; intros x; destruct (decide (x = b)); set_solver).
      rewrite mask_union, mask_singleton by set_solver.
      specialize (Hs (X ∖ {[b]}) ltac:(set_solver) ltac:(set_solver)). lia.
    + specialize (Hs X Hx Hb). lia.
Qed.

Section subset_order.
Context {BS : Type} `{NodeSet BS}.

(** The subsets [cur ∪ A], [A] over [bits], in the order of the recursion. *)
Fixpoint subset_list (bits : list N) (cur : gset N) : list (gset N) :=
  match bits with
  | [] => if decide (cur = ∅) then [] else [cur]
  | b :: bits => subset_list bits cur ++ subset_list bits ({[b]} ∪ cur)
  end.

(** A callback that records what it is called with. *)
Definition record_subset (s : BS) (seen : list (gset N)) : option (bool * list (gset N)) :=
  Some (false, seen ++ [to_gset s]).

Lemma record_recursive bits (current : BS) seen :
  NoDup bits -> (forall b, b ∈ bits -> b ∉ to_gset current) ->
  exists current', to_gset current' = to_gset current /\
    EnumerateSubsetsRecursive bits current record_subset seen =
      Some (false, current', seen ++ subset_list bits (to_gset current)).
Proof.
  revert current seen. induction bits as [|b bits IH]; intros current seen Hnd Hni;
    cbn [EnumerateSubsetsRecursive subset_list].
  - exists current. split; [done|]. ns_simpl.
    destruct (decide (to_gset current = ∅)) as [He|He].
    + rewrite He, size_empty. simpl. by rewrite app_nil_r.
    + assert (size (to_gset current) <> 0%nat) by (by intros ?%size_empty_inv%leibniz_equiv).
      destruct (N.ltb_spec 0 (N.of_nat (size (to_gset current)))); [done|lia].
  - apply NoDup_cons in Hnd as [Hb Hnd].
    destruct (IH current seen Hnd) as (c1 & Hc1 & ->); [intros; apply Hni; by right|].
    cbn [mbind option_bind]. cbv zeta.
    destruct (IH (ns_ExchangeSet c1 b).1 (seen ++ subset_list bits (to_gset current)) Hnd)
      as (c2 & Hc2 & ->).
    { intros x Hx. ns_simpl. rewrite Hc1. assert (x ∉ to_gset current) by (apply Hni; by right).
      set_solver. }
    cbn [mbind option_bind]. exists (ns_ExchangeClear c2 b).1. split.
    + assert (b ∉ to_gset current) by (apply Hni; left). ns_simpl. rewrite Hc2. ns_simpl.
      rewrite Hc1. set_solver.
    + ns_simpl. by rewrite Hc1, app_assoc.
Qed.

Lemma elem_of_subset_list bits cur (X : gset N) :
  NoDup bits -> (forall b, b ∈ bits -> b ∉ cur) ->
  X ∈ subset_list bits cur <-> X <> ∅ /\ cur ⊆ X /\ X ⊆ cur ∪ list_to_set bits.
Proof.
  revert cur. induction bits as [|b bits IH]; intros cur Hnd Hni; cbn [subset_list].
  - destruct (decide (cur = ∅)) as [->|Hc].
    + split; [by intros ?%elem_of_nil|]. intros (Hne & _ & Hs). exfalso. apply Hne. set_solver.
    + rewrite list_elem_of_singleton. split; [intros ->; set_solver|].
      intros (_ & ? & ?). set_solver.
  - apply NoDup_cons in Hnd as [Hb Hnd]. assert (b ∉ cur) by (apply Hni; left).
    assert (forall x, x ∈ bits -> x ∉ cur) by (intros; apply Hni; by right).
    rewrite elem_of_app, !IH by (done || set_solver). simpl. split.
    + intros [(? & ? & ?)|(? & ? & ?)]; (split; [done|]); set_solver.
    + intros (? & ? & ?). destruct (decide (b ∈ X)); [right|left]; split_and!; set_solver.
Qed.

Lemma subset_list_mask bits cur :
  StronglySorted N.lt (reverse bits) -> (forall b c, b ∈ bits -> c ∈ cur -> b < c) ->
  StronglySorted N.lt (mask <$> subset_list bits cur).
Proof.
  intros Hs. assert (Hnd : NoDup bits) by (rewrite <-reverse_Permutation; by apply sorted_lt_NoDup).
  revert cur. induction bits as [|b bits IH]; intros cur Hlt; cbn [subset_list].
  - destruct (decide (cur = ∅)); repeat constructor.
  - rewrite reverse_cons in Hs. apply NoDup_cons in Hnd as [Hb Hnd].
    assert (Hmax : forall x, x ∈ bits -> x < b).
    { intros x Hx. apply StronglySorted_app in Hs as (Hx' & _ & _).
      apply (Hx' x b); [by apply elem_of_reverse|left]. }
    apply StronglySorted_app in Hs as (_ & Hs & _).
    assert (Hbc : b ∉ cur) by (intros ?%(Hlt b b ltac:(left)); lia).
    assert (Hni : forall x, x ∈ bits -> x ∉ cur)
      by (intros x Hx Hc; specialize (Hlt x x ltac:(by right) Hc); lia).
    rewrite fmap_app. apply StronglySorted_app_lt.
    + apply IH; [done..|]. intros x c Hx. apply Hlt. by right.
    + apply IH; [done..|]. intros x c Hx [->%elem_of_singleton|Hc]%elem_of_union;
        [by apply Hmax|apply Hlt; [by right|done]].
    + intros x y (X & -> & HX)%list_elem_of_fmap (Y & -> & HY)%list_elem_of_fmap.
      apply elem_of_subset_list in HX as (_ & HX1 & HX2); [|done|done].
      apply elem_of_subset_list in HY as (_ & HY1 & HY2); [|done|].
      2: { intros z Hz [->%elem_of_singleton|?]%elem_of_union; [done|by apply (Hni z)]. }
      replace X with (cur ∪ X ∖ cur) by (rewrite union_comm_L; by apply difference_union_L || set_solver).
      replace Y with (cur ∪ ({[b]} ∪ Y ∖ ({[b]} ∪ cur)))
        by (apply set_eq; intros z; destruct (decide (z ∈ cur)), (decide (z = b)); set_solver).
      rewrite !mask_union by set_solver. rewrite mask_singleton.
      assert (mask (X ∖ cur) < 2 ^ b); [|lia].
      apply mask_lt_pow. intros z Hz. apply Hmax. set_solver.
Qed.

Lemma EnumerateSubsets_record (set : BS) seen :
  EnumerateSubsets set record_subset seen =
    Some (false, seen ++ subset_list (reverse (ns_bits set)) ∅).
Proof.
  unfold EnumerateSubsets. cbv zeta.
  destruct (record_recursive (reverse (ns_bits set)) ns_empty seen) as (c & _ & ->).
  - rewrite reverse_Permutation. apply bits_NoDup.
  - intros b _. ns_simpl. set_solver.
  - cbn [mbind option_bind]. ns_simpl. done.
Qed.
End subset_order.

Section node_ranges.
Context {BS : Type} `{NodeSet BS}.

Lemma PbsSingleton_law v : to_gset (PbsSingleton (BS := BS) v) = {[v]}.
Proof. unfold PbsSingleton. ns_simpl. set_solver. Qed.

Lemma PbsLowerNodes_law k v : v ∈ to_gset (PbsLowerNodes (BS := BS) k) <-> v < k.
Proof.
  unfold PbsLowerNodes.
  assert (Hf : forall l (s : BS), v ∈ to_gset (fold_left (fun set node_id =>
    (ns_ExchangeSet set node_id).1) l s) <-> v ∈ l \/ v ∈ to_gset s).
  { induction l as [|x l IH]; intros s; simpl; [|rewrite IH, elem_of_cons; ns_simpl; set_solver].
    split; [by right|by intros [?%elem_of_nil|?]]. }
  rewrite Hf. ns_simpl. rewrite list_elem_of_fmap. setoid_rewrite elem_of_seq. split.
  - intros [(x & -> & ?)|?%elem_of_empty]; [lia|done].
  - intros Hv. left. exists (N.to_nat v). lia.
Qed.

End node_ranges.

(** ** What the enumerator promises to a receiver *)

Section contract.
Context {BS : Type} `{NodeSet BS} (g : CDPHyperGraph BS).

(** Nodes of the graph. *)
Definition in_range (X : gset N) : Prop := forall v, v ∈ X -> v < NodeCount g.

(** An entry of the graph with this id joins [right] to [left]. *)
Definition connects (left right : gset N) (edge_id : N) : Prop :=
  exists e, e ∈ m_edges g /\ m_edge_id e = edge_id /\
    to_gset (m_left e) ⊆ right /\ to_gset (m_right e) ⊆ left.

(** The two sides of a reported pair: disjoint sets of nodes of the graph, with
    the lowest node on the left. *)
Record pair_sides (left right : gset N) : Prop := {
  ps_range : in_range (left ∪ right);
  ps_right : right <> ∅;
  ps_disjoint : left ## right;
  ps_lowest : exists k, k ∈ left /\ forall v, v ∈ left ∪ right -> k <= v
}.

(** What [FoundSubgraphPair left right edge_id] may assume. *)
Definition pair_ok (left right : gset N) (edge_id : N) : Prop :=
  pair_sides left right /\ connects left right edge_id.

(** A receiver with an invariant, the sets it has recorded as seen and a flag
    that it has requested to stop.  It may rely on both sides of a reported
    pair being seen, and on not being called after it requested to stop. *)
Class ReceiverContract (R : Type) `{IDPHyperReceiver BS R} (inv : R -> Prop)
    (stop : R -> bool) (seen : R -> gset N -> Prop) : Prop := {
  rc_has_seen s r : inv r -> HasSeen s r = true -> seen r (to_gset s);
  rc_single v r : inv r -> stop r = false -> v < NodeCount g ->
    let '(abort, r') := FoundSingleNode v r in
    inv r' /\ stop r' = abort /\ (forall X, seen r X -> seen r' X) /\
    (abort = false -> seen r' {[v]});
  rc_pair left right edge_id r :
    inv r -> stop r = false -> pair_ok (to_gset left) (to_gset right) edge_id ->
    seen r (to_gset left) -> seen r (to_gset right) ->
    let '(abort, r') := FoundSubgraphPair left right edge_id r in
    inv r' /\ stop r' = abort /\ (forall X, seen r X -> seen r' X)
}.
End contract.

Section safety.
Context {BS : Type} `{NodeSet BS} (g : CDPHyperGraph BS) (Hwf : graph_wf g).
Context {R : Type} {Recv : IDPHyperReceiver BS R} {inv : R -> Prop} {stop : R -> bool}
  {seen : R -> gset N -> Prop} {Hrc : ReceiverContract g R inv stop seen}.
Implicit Types (s subgraph complement forbidden : BS) (r : R).

(** A receiver that has not asked to stop. *)
Definition live (r : R) : Prop := inv r /\ stop r = false.

(** Progress of the receiver: its invariant holds, nothing seen is lost, and
    the abort flag [b] is what it asked for. *)
Definition ext (b : bool) (r r' : R) : Prop :=
  inv r' /\ stop r' = b /\ forall X, seen r X -> seen r' X.

Lemma ext_refl r : live r -> ext false r r.
Proof. by intros [??]. Qed.

Lemma ext_live r r' : ext false r r' -> live r'.
Proof. by intros (? & ? & _). Qed.

Lemma ext_trans b r1 r2 r3 : ext false r1 r2 -> ext b r2 r3 -> ext b r1 r3.
Proof. intros (? & ? & Hm1) (? & ? & Hm2). split_and!; auto. Qed.

Lemma seen_ext b r r' X : ext b r r' -> seen r X -> seen r' X.
Proof. intros (_ & _ & Hm). apply Hm. Qed.

Lemma Node_Some v : v < NodeCount g -> exists nd, Node g v = Some nd /\ node_ok (m_edges g) v nd.
Proof. intros Hv. destruct (Node_is_Some g v Hv) as [nd Hnd]. exists nd. split; [done|by apply Hwf]. Qed.

Lemma edge_sides i e :
  Edge g i = Some e -> sides_ok (NodeCount g) (m_left e) (m_right e).
Proof.
  intros He. pose proof (gw_sides _ Hwf) as Hs. rewrite Forall_lookup in Hs. by apply (Hs _ _ He).
Qed.

(** ** Neighborhoods stay in range and off the excluded nodes *)

Definition cache_ok (c : CNeighborhoodCache BS) : Prop :=
  in_range g (to_gset (m_last_neighborhood c)) /\ in_range g (to_gset (m_last_full_neighborhood c)).

Lemma cache_new_ok s : cache_ok (CNeighborhoodCache_New s).
Proof. split; intros v; simpl; ns_simpl; set_solver. Qed.

Definition acc_ok (acc : BS * BS) : Prop :=
  in_range g (to_gset acc.1) /\ in_range g (to_gset acc.2).

Lemma in_range_union X Y : in_range g X -> in_range g Y -> in_range g (X ∪ Y).
Proof. intros ? ? v [?|?]%elem_of_union; auto. Qed.

Lemma neighborhood_edges_safe subgraph forbidden edges acc :
  (forall i, i ∈ edges -> is_Some (Edge g i)) -> acc_ok acc ->
  returns acc_ok (neighborhood_edges g subgraph forbidden edges acc).
Proof.
  revert acc. induction edges as [|i edges IH]; intros acc Hi Hacc; cbn [neighborhood_edges].
  { by eexists. }
  destruct (Hi i ltac:(left)) as [e He]. rewrite He. cbn [mbind option_bind].
  assert (Hi' : forall j, j ∈ edges -> is_Some (Edge g j)) by (intros; apply Hi; by right).
  destruct (edge_sides _ _ He) as (_ & Hr & _ & Hn).
  assert (Hre : in_range g (to_gset (m_right e))) by (intros v Hv; apply Hn; set_solver).
  destruct acc as [nb full], Hacc as [Hnb Hfull]; simpl in *.
  case_if; [apply IH; [done|by split]|].
  assert (Hfull' : in_range g (to_gset (ns_Union full (m_right e))))
    by (ns_simpl; by apply in_range_union).
  case_if; [|by apply IH].
  destruct (first_bit_is_Some (m_right e) Hr) as [b Hb]. unfold PbsLowestBit, LowestBit. rewrite Hb.
  simpl. apply IH; [done|]. split; [simpl|done]. ns_simpl. apply in_range_union; [done|].
  rewrite PbsSingleton_law. intros v ->%elem_of_singleton. apply Hre.
  by apply first_bit_Some in Hb as [? _].
Qed.

Lemma neighborhood_nodes_safe subgraph forbidden nodes acc :
  (forall v, v ∈ nodes -> v < NodeCount g) -> acc_ok acc ->
  returns acc_ok (neighborhood_nodes g subgraph forbidden nodes acc).
Proof.
  revert acc. induction nodes as [|v nodes IH]; intros [nb full] Hv Hacc; cbn [neighborhood_nodes].
  { by eexists. }
  destruct (Node_Some v) as (nd & -> & Hnd); [apply Hv; left|]. cbn [mbind option_bind]. cbv zeta.
  eapply returns_bind; [apply neighborhood_edges_safe|].
  - intros i (_ & e & He & _)%(na_complex _ _ _ _ Hnd). by exists e.
  - destruct Hacc as [Hnb Hfull]. split; [simpl|done]. ns_simpl. apply in_range_union; [done|].
    intros u (i & e & _ & He & Hu)%(na_neighborhood _ _ _ _ Hnd).
    apply (edge_sides i e He). set_solver.
  - intros acc' Hacc'. apply IH; [|done]. intros u Hu. apply Hv. by right.
Qed.

Lemma PbsNeighborhood_safe subgraph forbidden (just_grown : BS) cache (full : BS) :
  in_range g (to_gset just_grown) -> in_range g (to_gset full) -> cache_ok cache ->
  returns (fun '(nb, cache', full') =>
    in_range g (to_gset nb) /\ to_gset nb ## to_gset subgraph /\ to_gset nb ## to_gset forbidden /\
    cache_ok cache' /\ in_range g (to_gset full'))
    (PbsNeighborhood g subgraph forbidden just_grown cache full).
Proof.
  intros Hj Hfull [Hc1 Hc2]. unfold PbsNeighborhood.
  assert (Hts : let '(ts, nb, full) := PbsToSearch cache just_grown ns_empty full in
    in_range g (to_gset ts) /\ acc_ok (nb, full)).
  { unfold PbsToSearch. unfold acc_ok. case_if; simpl; ns_simpl.
    - split_and!; [intros v Hv; apply Hj; set_solver|rewrite union_empty_l_L; done|
        by apply in_range_union].
    - split_and!; [done|intros v ?%elem_of_empty; done|done]. }
  destruct (PbsToSearch _ _ _ _) as [[ts nb] full1]. destruct Hts as [Hts Hacc].
  eapply returns_bind; [apply neighborhood_nodes_safe; [|done]|].
  { intros v Hv%bits_law. by apply Hts. }
  intros [nb' full'] [Hnb' Hfull']. cbv zeta. eexists. split; [done|]. simpl in *.
  assert (Hd : in_range g (to_gset (ns_Difference (ns_Difference nb' subgraph) forbidden)))
    by (ns_simpl; intros v Hv; apply Hnb'; set_solver).
  assert (Hu : in_range g (to_gset (ns_Union full' (ns_Difference (ns_Difference nb' subgraph) forbidden))))
    by (rewrite Union_law; by apply in_range_union).
  split_and!; [done|ns_simpl; set_solver|ns_simpl; set_solver| |done].
  unfold CNeighborhoodCache_Store. case_if; by split.
Qed.
(** ** Pairs are reported with their contract *)

Lemma report_edges_safe test (left right : BS) edges r :
  live r -> seen r (to_gset left) -> seen r (to_gset right) ->
  pair_sides g (to_gset left) (to_gset right) ->
  (forall i, i ∈ edges -> is_Some (Edge g i)) ->
  (forall i e, i ∈ edges -> Edge g i = Some e -> test e = true ->
     connects g (to_gset left) (to_gset right) (m_edge_id e)) ->
  returns (fun '(b, r') => ext b r r') (report_edges g test left right edges r).
Proof.
  revert r. induction edges as [|i edges IH]; intros r Hi Hl Hr Hp Hsome Hc; cbn [report_edges].
  { eexists. split; [done|by apply ext_refl]. }
  destruct (Hsome i ltac:(left)) as [e He]. rewrite He. cbn [mbind option_bind].
  assert (Hsome' : forall j, j ∈ edges -> is_Some (Edge g j)) by (intros; apply Hsome; by right).
  assert (Hc' : forall i e, i ∈ edges -> Edge g i = Some e -> test e = true ->
    connects g (to_gset left) (to_gset right) (m_edge_id e)) by (intros; eapply Hc; [by right|done..]).
  destruct (test e) eqn:Et; [|by apply IH].
  pose proof (rc_pair g left right (m_edge_id e) r (proj1 Hi) (proj2 Hi)
    (conj Hp (Hc i e ltac:(left) He Et)) Hl Hr) as Hf.
  destruct (FoundSubgraphPair left right (m_edge_id e) r) as [[] r']; [by eexists|].
  change (ext false r r') in Hf.
  eapply returns_mono; [apply IH; eauto using ext_live, seen_ext|].
  intros [b r2] Hext. by eapply ext_trans.
Qed.

(** The singleton sides of a simple edge are inside what they meet. *)
Lemma simple_edge_subset v i nd e :
  node_ok (m_edges g) v nd -> i ∈ m_simple_edges nd -> Edge g i = Some e ->
  to_gset (m_left e) = {[v]} /\
  forall X, ~ to_gset (m_right e) ## X -> to_gset (m_right e) ⊆ X.
Proof.
  intros Hnd (_ & e' & He' & Hs & Hv)%(na_simple _ _ _ _ Hnd) He.
  unfold Edge in He. assert (e' = e) as -> by congruence.
  apply is_simple_true in Hs as (a & b & _ & Ha & _ & Hb). rewrite Ha in Hv |- *.
  apply elem_of_singleton in Hv as ->. split; [done|]. intros X HX. rewrite Hb in *.
  destruct (decide (b ∈ X)); set_solver.
Qed.

Lemma Edge_elem i e : Edge g i = Some e -> e ∈ m_edges g.
Proof. apply list_elem_of_lookup_2. Qed.

Lemma node_edges_Some v nd i :
  node_ok (m_edges g) v nd -> i ∈ m_simple_edges nd \/ i ∈ m_complex_edges nd ->
  is_Some (Edge g i).
Proof.
  intros Hnd [(_ & e & He & _)%(na_simple _ _ _ _ Hnd)|(_ & e & He & _)%(na_complex _ _ _ _ Hnd)];
    by exists e.
Qed.

(** Sequencing two computations, the second run unless the first aborts. *)
Lemma seq_ext (m : option (bool * R)) (k : R -> option (bool * R)) r :
  returns (fun '(b, r') => ext b r r') m ->
  (forall r', ext false r r' -> returns (fun '(b, r2) => ext b r' r2) (k r')) ->
  returns (fun '(b, r') => ext b r r')
    ('(abort, r') ← m; if (abort : bool) then Some (true, r') else k r').
Proof.
  intros Hm Hk. eapply returns_bind; [done|]. intros [[] r'] Hext; [by eexists|].
  eapply returns_mono; [by apply Hk|]. intros [b r2] ?. by eapply ext_trans.
Qed.

Lemma try_connecting_nodes_safe subgraph complement nodes r :
  live r -> seen r (to_gset subgraph) -> seen r (to_gset complement) ->
  pair_sides g (to_gset subgraph) (to_gset complement) ->
  (forall v, v ∈ nodes -> v ∈ to_gset complement) ->
  returns (fun '(b, r') => ext b r r') (try_connecting_nodes g subgraph complement nodes r).
Proof.
  revert r. induction nodes as [|v nodes IH]; intros r Hi Hs Hc Hp Hv; cbn [try_connecting_nodes].
  { eexists. split; [done|by apply ext_refl]. }
  assert (Hvc : v ∈ to_gset complement) by (apply Hv; left).
  destruct (Node_Some v) as (nd & -> & Hnd); [apply (ps_range _ _ _ Hp); set_solver|].
  cbn [mbind option_bind]. apply seq_ext.
  - case_if; [|eexists; split; [done|by apply ext_refl]].
    apply report_edges_safe; [done..|intros; eapply node_edges_Some; eauto|].
    intros i e Hin He Ht. autorewrite with ns in Ht. breflect.
    destruct (simple_edge_subset v i nd e Hnd Hin He) as [Hl Hr].
    exists e. split_and!; [by eapply Edge_elem|done|rewrite Hl; set_solver|by apply Hr].
  - intros r1 Hext1. apply seq_ext.
    + apply report_edges_safe; [by eapply ext_live|by eapply seen_ext..|done|
        intros; eapply node_edges_Some; eauto|].
      intros i e Hin He Ht. autorewrite with ns in Ht. breflect.
      exists e. split_and!; [by eapply Edge_elem|done..].
    + intros r2 Hext2. apply IH; [by eapply ext_live|eauto using seen_ext..|done|].
      intros u Hu. apply Hv. by right.
Qed.

Lemma TryConnecting_safe subgraph (full : BS) complement r :
  live r -> seen r (to_gset subgraph) -> seen r (to_gset complement) ->
  pair_sides g (to_gset subgraph) (to_gset complement) ->
  returns (fun '(b, r') => ext b r r') (TryConnecting g subgraph full complement r).
Proof.
  intros Hi Hs Hc Hp. apply try_connecting_nodes_safe; [done..|].
  intros v Hv%bits_law. revert Hv. ns_simpl. set_solver.
Qed.
(** ** The recursion ends and keeps its invariants *)

Lemma in_range_size X : in_range g X -> (size X <= length (m_nodes g))%nat.
Proof.
  intros HX. apply size_below in HX. unfold NodeCount in HX. lia.
Qed.

(** Growing a set by a nonempty part of its neighborhood leaves less to grow. *)
Lemma grow_size (X Y : gset N) fuel :
  in_range g (X ∪ Y) -> Y <> ∅ -> X ## Y ->
  (length (m_nodes g) - size X < S fuel)%nat -> (length (m_nodes g) - size (X ∪ Y) < fuel)%nat.
Proof.
  intros Hr Hne Hd Hf. apply in_range_size in Hr. rewrite size_union in * by done.
  assert (size Y <> 0%nat) by (by intros ?%size_empty_inv%leibniz_equiv). lia.
Qed.

(** [lowest] is the lowest node of [X], and every lower node is in [F]. *)
Definition lowest_in (k : N) (X : gset N) : Prop := k ∈ X /\ forall v, v ∈ X -> k <= v.
Definition lower_in (k : N) (F : gset N) : Prop := forall v, v < k -> v ∈ F.

Lemma lower_disjoint k F X v : lower_in k F -> X ## F -> v ∈ X -> k <= v.
Proof.
  intros Hl Hd Hv. destruct (N.le_gt_cases k v) as [?|Hlt]; [done|].
  apply Hl in Hlt. set_solver.
Qed.

Lemma pair_sides_intro k (X Y : gset N) :
  lowest_in k X -> in_range g X -> in_range g Y -> Y <> ∅ -> X ## Y ->
  (forall v, v ∈ Y -> k <= v) -> pair_sides g X Y.
Proof.
  intros [Hk Hmin] HX HY Hne Hd HkY. split; [by apply in_range_union|done|done|].
  exists k. split; [done|]. intros v [?|?]%elem_of_union; auto.
Qed.

Lemma ExpandComplement_safe fuel k subgraph (full : BS) complement (nb : BS) forbidden r :
  live r -> seen r (to_gset subgraph) ->
  lowest_in k (to_gset subgraph) -> lower_in k (to_gset forbidden) ->
  to_gset subgraph ⊆ to_gset forbidden ->
  pair_sides g (to_gset subgraph) (to_gset complement) ->
  (forall v, v ∈ to_gset complement -> k <= v) ->
  in_range g (to_gset nb) -> to_gset nb ## to_gset complement -> to_gset nb ## to_gset forbidden ->
  (length (m_nodes g) - size (to_gset complement) < fuel)%nat ->
  returns (fun '(b, r') => ext b r r')
    (ExpandComplement g fuel subgraph full complement nb forbidden r).
Proof.
  revert complement nb forbidden r. induction fuel as [|fuel IH];
    intros complement nb forbidden r Hi Hs Hk Hlow Hsf Hp Hkc Hnb Hnc Hnf Hfuel; [lia|].
  assert (Hgrow : forall s, to_gset s ⊆ to_gset nb -> to_gset s <> ∅ ->
    pair_sides g (to_gset subgraph) (to_gset (ns_Union complement s)) /\
    (forall v, v ∈ to_gset (ns_Union complement s) -> k <= v)).
  { intros s Hsub Hne. pose proof (ps_range _ _ _ Hp) as Hr.
    pose proof (ps_disjoint _ _ _ Hp) as Hd.
    assert (Hkn : forall v, v ∈ to_gset complement ∪ to_gset s -> k <= v).
    { intros v [?|Hv]%elem_of_union; [by apply Hkc|]. eapply lower_disjoint; [done..|].
      by apply Hsub. }
    ns_simpl. split; [|done]. apply (pair_sides_intro k); [done| | | | |done].
    - intros v ?. apply Hr. set_solver.
    - intros v [?|?]%elem_of_union; [apply Hr; set_solver|by apply Hnb, Hsub].
    - set_solver.
    - set_solver. }
  cbn [ExpandComplement]. apply seq_ext.
  - apply (EnumerateSubsets_inv (fun b => ext b r)); [|by apply ext_refl].
    intros s r1 Hsub Hne Hext. cbv zeta.
    destruct (HasSeen (ns_Union complement s) r1) eqn:Eh; [|by eexists].
    eapply returns_mono; [apply TryConnecting_safe|].
    + by eapply ext_live.
    + by eapply seen_ext.
    + apply (rc_has_seen g); [apply Hext|done].
    + by apply Hgrow.
    + intros [b r2] ?. by eapply ext_trans.
  - intros r1 Hext1. eapply returns_bind.
    { apply (EnumerateSubsets_inv (fun b '(c, r2) => cache_ok c /\ ext b r1 r2)).
      2: { split; [apply cache_new_ok|by eapply ext_refl, ext_live]. }
      intros s [c r2] Hsub Hne [Hc Hext2]. cbv zeta.
      destruct (Hgrow s Hsub Hne) as [Hp' Hk'].
      pose proof (ps_range _ _ _ Hp) as Hr. pose proof (ps_disjoint _ _ _ Hp') as Hd'.
      eapply returns_bind.
      { apply PbsNeighborhood_safe; [|ns_simpl; intros ??; set_solver|done].
        intros v Hv. by apply Hnb, Hsub. }
      intros [[nn c'] fl] (Hnn & Hns & Hnnf & Hc' & _). eapply returns_bind.
      { apply (IH (ns_Union complement s) nn); [by eapply ext_live| |done| | |done|done|done|done|done|].
        - eapply seen_ext; [|done]. by eapply ext_trans.
        - intros v Hv. ns_simpl. apply Hlow in Hv as Hv'.
          assert (v ∉ to_gset (ns_Union complement s)) as Hnv
            by (intros ?%Hk'; lia). revert Hnv. ns_simpl. set_solver.
        - revert Hd'. ns_simpl. set_solver.
        - ns_simpl. apply grow_size; [|done|set_solver|done].
          intros v [?|?]%elem_of_union; [apply Hr; set_solver|by apply Hnb, Hsub]. }
      intros [b r3] Hext3. eexists. split; [done|]. split; [done|]. by eapply ext_trans. }
    intros [b [c r2]] [_ ?]. by eexists.
Qed.
(** All nodes from [k] on have been reported as single nodes. *)
Definition singles_seen (k : N) (r : R) : Prop :=
  forall v, k <= v -> v < NodeCount g -> seen r {[v]}.

Lemma singles_seen_ext k b r r' : ext b r r' -> singles_seen k r -> singles_seen k r'.
Proof. intros Hext Hs v ? ?. eapply seen_ext; [done|by apply Hs]. Qed.

Lemma complement_seeds_safe k subgraph (full nb : BS) forbidden seeds c r :
  live r -> seen r (to_gset subgraph) -> singles_seen k r ->
  lowest_in k (to_gset subgraph) -> lower_in k (to_gset forbidden) ->
  in_range g (to_gset subgraph) ->
  (forall v, v ∈ seeds -> v < NodeCount g /\ k <= v /\ v ∉ to_gset subgraph) -> cache_ok c ->
  returns (fun '(b, r') => ext b r r')
    (complement_seeds g (enum_fuel g) subgraph full nb forbidden seeds c r).
Proof.
  intros Hi Hs Hsing Hk Hlow Hrange. revert c r Hi Hs Hsing.
  induction seeds as [|v seeds IH]; intros c r Hi Hs Hsing Hseeds Hc; cbn [complement_seeds].
  { eexists. split; [done|by apply ext_refl]. }
  destruct (Hseeds v ltac:(left)) as (Hv & Hkv & Hvs).
  assert (Hseeds' : forall u, u ∈ seeds -> u < NodeCount g /\ k <= u /\ u ∉ to_gset subgraph)
    by (intros u ?; apply Hseeds; by right).
  assert (Hp : pair_sides g (to_gset subgraph) (to_gset (PbsSingleton (BS := BS) v))).
  { rewrite PbsSingleton_law. apply (pair_sides_intro k); [done|done| | | |].
    - intros u ->%elem_of_singleton. done.
    - set_solver.
    - set_solver.
    - intros u ->%elem_of_singleton. done. }
  destruct (Node_Some v Hv) as (nd & -> & Hnd). cbn [mbind option_bind]. cbv zeta. apply seq_ext.
  - case_if; [|eexists; split; [done|by apply ext_refl]].
    apply report_edges_safe; [done|done|rewrite PbsSingleton_law; by apply Hsing|done|
      intros; eapply node_edges_Some; eauto|].
    intros i e Hin He Ht. autorewrite with ns in Ht. breflect.
    destruct (simple_edge_subset v i nd e Hnd Hin He) as [Hl Hr].
    exists e. rewrite PbsSingleton_law, Hl. split_and!; [by eapply Edge_elem|done|done|by apply Hr].
  - intros r1 Hext1. apply seq_ext.
    + apply report_edges_safe; [by eapply ext_live|by eapply seen_ext|
        rewrite PbsSingleton_law; by eapply singles_seen_ext|done|
        intros; eapply node_edges_Some; eauto|].
      intros i e Hin He Ht. autorewrite with ns in Ht. breflect.
      exists e. split_and!; [by eapply Edge_elem|done|set_solver|done].
    + intros r2 Hext2. assert (Hext12 : ext false r r2) by (by eapply ext_trans).
      eapply returns_bind.
      { apply PbsNeighborhood_safe; [|ns_simpl; intros ??; set_solver|done].
        rewrite PbsSingleton_law. by intros u ->%elem_of_singleton. }
      intros [[nn c'] fl] (Hnn & Hns & Hnf & Hc' & _). apply seq_ext.
      * apply (ExpandComplement_safe (enum_fuel g) k); [by eapply ext_live|by eapply seen_ext|done| | |done| |
          done|done|done|].
        -- intros u Hu%Hlow. ns_simpl. set_solver.
        -- ns_simpl. set_solver.
        -- rewrite PbsSingleton_law. by intros u ->%elem_of_singleton.
        -- unfold enum_fuel. lia.
      * intros r3 Hext3. assert (Hext13 : ext false r r3) by (by eapply ext_trans).
        apply IH; [by eapply ext_live|by eapply seen_ext|by eapply singles_seen_ext|done|done].
Qed.

Lemma EnumerateComplements_safe k subgraph (full input : BS) r :
  live r -> seen r (to_gset subgraph) -> singles_seen k r ->
  lowest_in k (to_gset subgraph) -> in_range g (to_gset subgraph) ->
  in_range g (to_gset input) -> (forall v, v ∈ to_gset input -> k <= v) ->
  returns (fun '(b, r') => ext b r r') (EnumerateComplements g k subgraph full input r).
Proof.
  intros Hi Hs Hsing Hk Hrs Hri Hki. unfold EnumerateComplements. cbv zeta.
  apply (complement_seeds_safe k); [done|done|done|done| |done| |apply cache_new_ok].
  - intros v Hv. by apply PbsLowerNodes_law.
  - intros v Hv%elem_of_reverse%bits_law. revert Hv. ns_simpl.
    intros [Hv Hns]%elem_of_difference. auto.
Qed.

Lemma ExpandSubgraph_safe fuel k subgraph (full nb : BS) forbidden r :
  live r -> singles_seen k r ->
  lowest_in k (to_gset subgraph) -> lower_in k (to_gset forbidden) ->
  in_range g (to_gset subgraph) -> in_range g (to_gset full) -> in_range g (to_gset nb) ->
  in_range g (to_gset forbidden) ->
  to_gset nb ## to_gset subgraph -> to_gset nb ## to_gset forbidden ->
  (length (m_nodes g) - size (to_gset subgraph) < fuel)%nat ->
  returns (fun '(b, r') => ext b r r') (ExpandSubgraph g fuel k subgraph full nb forbidden r).
Proof.
  revert subgraph full nb forbidden r. induction fuel as [|fuel IH];
    intros subgraph full nb forbidden r Hi Hsing Hk Hlow Hrs Hrf Hrn Hrb Hns Hnf Hfuel; [lia|].
  assert (Hkn : forall v, v ∈ to_gset nb -> k <= v) by (intros v ?; by eapply lower_disjoint).
  assert (Hgrow : forall s, to_gset s ⊆ to_gset nb ->
    lowest_in k (to_gset (ns_Union subgraph s)) /\ in_range g (to_gset (ns_Union subgraph s))).
  { intros s Hsub. ns_simpl. split.
    - destruct Hk as [Hk Hmin]. split; [set_solver|]. intros v [?|?]%elem_of_union; auto.
    - intros v [?|?]%elem_of_union; auto. }
  cbn [ExpandSubgraph]. eapply returns_bind.
  { apply (EnumerateSubsets_inv (fun b '(c, r1) => cache_ok c /\ ext b r r1)).
    2: { split; [apply cache_new_ok|by apply ext_refl]. }
    intros s [c r1] Hsub Hne [Hc Hext]. cbv zeta. destruct (Hgrow s Hsub) as [Hks Hrs'].
    destruct (HasSeen (ns_Union subgraph s) r1) eqn:Eh; simpl; [|by eexists].
    eapply returns_bind.
    { apply PbsNeighborhood_safe; [intros v ?; by apply Hrn, Hsub|done|done]. }
    intros [[nn c'] fl] (Hnn & Hnns & Hnnf & Hc' & Hfl). eapply returns_bind.
    { apply EnumerateComplements_safe; [by eapply ext_live|apply (rc_has_seen g); [apply Hext|done]|
        by eapply singles_seen_ext|done|done| |].
      - ns_simpl. apply in_range_union; [apply in_range_union; [done|]|done].
        intros v [? _]%elem_of_intersection. auto.
      - ns_simpl. intros v [[?|[? Hh]%elem_of_intersection]%elem_of_union|?]%elem_of_union;
          [by eapply lower_disjoint| |by apply Hkn].
        apply elem_of_difference in Hh as [_ Hh]. rewrite PbsLowerNodes_law in Hh. lia. }
    intros [b r2] Hext2. eexists. split; [done|]. split; [done|]. by eapply ext_trans. }
  intros [[] [c r1]] [Hc Hext1]; [by eexists|]. eapply returns_bind.
  { apply (EnumerateSubsets_inv (fun b '(c, r2) => cache_ok c /\ ext b r r2)); [|done].
    intros s [c2 r2] Hsub Hne [Hc2 Hext2]. cbv zeta. destruct (Hgrow s Hsub) as [Hks Hrs'].
    eapply returns_bind.
    { apply PbsNeighborhood_safe; [intros v ?; by apply Hrn, Hsub|done|done]. }
    intros [[nn c'] fl] (Hnn & Hnns & Hnnf & Hc' & Hfl). eapply returns_bind.
    { apply IH; [by eapply ext_live|by eapply singles_seen_ext|done| |done|done|done| |done|done|].
      - intros v Hv. ns_simpl. apply Hlow in Hv as Hv'.
        assert (v ∉ to_gset (ns_Union subgraph s)) as Hnv
          by (intros ?%(proj2 Hks); lia). revert Hnv. ns_simpl. set_solver.
      - ns_simpl. intros v [[?|?]%elem_of_union _]%elem_of_difference; auto.
      - revert Hrs'. ns_simpl. intros Hrs'. apply grow_size; [done|done|set_solver|done]. }
    intros [b r3] Hext3. eexists. split; [done|]. split; [done|]. by eapply ext_trans. }
  intros [b [c2 r2]] [_ ?]. by eexists.
Qed.

Lemma enumerate_loop_safe seed_id r :
  (seed_id <= length (m_nodes g))%nat -> live r -> singles_seen (N.of_nat seed_id) r ->
  returns (fun '(b, r') => ext b r r') (enumerate_loop g seed_id r).
Proof.
  revert r. induction seed_id as [|v IH]; intros r Hv Hi Hsing; cbn [enumerate_loop].
  { eexists. split; [done|by apply ext_refl]. }
  cbv zeta. assert (Hvn : N.of_nat v < NodeCount g) by (unfold NodeCount; lia).
  pose proof (rc_single g (N.of_nat v) r (proj1 Hi) (proj2 Hi) Hvn) as Hsn.
  destruct (FoundSingleNode (N.of_nat v) r) as [[] r0].
  { destruct Hsn as (Hi0 & Hst0 & Hm0 & _). by eexists. }
  destruct Hsn as (Hi0 & Hst0 & Hm0 & Hsv). specialize (Hsv eq_refl).
  assert (Hsing0 : singles_seen (N.of_nat v) r0).
  { intros u Hu Hun. destruct (decide (u = N.of_nat v)) as [->|]; [done|].
    apply Hm0, Hsing; [lia|done]. }
  set (seed := PbsSingleton (BS := BS) (N.of_nat v)).
  assert (Hseed : to_gset seed = {[N.of_nat v]}) by apply PbsSingleton_law.
  assert (Hrseed : in_range g (to_gset seed))
    by (rewrite Hseed; by intros u ->%elem_of_singleton).
  assert (Hk : lowest_in (N.of_nat v) (to_gset seed)) by (rewrite Hseed; split; [set_solver|];
    by intros u ->%elem_of_singleton).
  assert (Hlower : forall u, u ∈ to_gset (PbsLowerNodes (BS := BS) (N.of_nat v)) <-> u < N.of_nat v)
    by (intros; apply PbsLowerNodes_law).
  apply (returns_mono (fun '(b, r') => ext b r0 r'));
    [|intros [b r'] ?; by apply (ext_trans b r r0)].
  eapply returns_bind.
  { apply PbsNeighborhood_safe; [done|ns_simpl; intros ??; set_solver|apply cache_new_ok]. }
  intros [[nb c] full] (Hnb & Hnbs & Hnbl & _ & Hfull). apply seq_ext.
  - apply EnumerateComplements_safe; [done|by rewrite Hseed|done|done|done|done|].
    intros u Hu. destruct (N.le_gt_cases (N.of_nat v) u) as [?|Hlt]; [done|].
    apply Hlower in Hlt. set_solver.
  - intros r1 Hext1. apply seq_ext.
    + apply ExpandSubgraph_safe; [by eapply ext_live|by eapply singles_seen_ext|done| |done|done|done| |done| |].
      * intros u Hu%Hlower. ns_simpl. set_solver.
      * ns_simpl. intros u [Hu%Hlower|?]%elem_of_union; [|auto]. unfold NodeCount in *. lia.
      * ns_simpl. set_solver.
      * unfold enum_fuel. lia.
    + intros r2 Hext2. apply IH; [lia|by eapply ext_live|].
      eapply singles_seen_ext; [done|]. by eapply singles_seen_ext.
Qed.

Lemma Enumerate_safe r :
  live r -> returns (fun '(b, r') => ext b r r') (Enumerate g r).
Proof.
  intros Hi. apply enumerate_loop_safe; [done|done|].
  intros v Hv Hv'. unfold NodeCount in Hv'. lia.
Qed.
End safety.

(** ** Every call of every receiver *)

Section logged.
Context {BS : Type} `{NodeSet BS} {R : Type} (Recv : IDPHyperReceiver BS R).

(** Any receiver, with the pairs reported to it and its last answer recorded. *)
Definition logged_receiver : IDPHyperReceiver BS (R * list (gset N * gset N * N) * bool) := {|
  FoundSingleNode v '(r, log, _) :=
    let '(abort, r) := FoundSingleNode v r in (abort, (r, log, abort));
  HasSeen s '(r, _, _) := HasSeen s r;
  FoundSubgraphPair left right edge_id '(r, log, _) :=
    let '(abort, r) := FoundSubgraphPair left right edge_id r in
    (abort, (r, log ++ [(to_gset left, to_gset right, edge_id)], abort))
|}.

Definition log_ok (g : CDPHyperGraph BS) (st : R * list (gset N * gset N * N) * bool) : Prop :=
  forall left right edge_id, (left, right, edge_id) ∈ st.1.2 -> pair_ok g left right edge_id.

Lemma logged_contract g :
  ReceiverContract g _ (H0 := logged_receiver) (log_ok g) snd (fun _ _ => True).
Proof.
  split; [done|..].
  - intros v [[r log] st] Hi _ _. simpl.
    destruct (FoundSingleNode v r) as [abort r']. by split_and!.
  - intros left right e [[r log] st] Hi _ Hp _ _. simpl.
    destruct (FoundSubgraphPair left right e r) as [abort r']. split_and!; [|done|done].
    intros a b i [Hin|[= -> -> ->]%list_elem_of_singleton]%elem_of_app; [by apply Hi|done].
Qed.
End logged.

(** ** Properties of the enumerator *)

(** [EnumerateSubsets] hands every nonempty subset of the set to the callback
    exactly once, in increasing order of its numeric mask. *)
Theorem EnumerateSubsets_complete {BS} `{NodeSet BS} (set : BS) :
  exists visited,
    EnumerateSubsets set record_subset [] = Some (false, visited) /\
    (forall X, X ∈ visited <-> X <> ∅ /\ X ⊆ to_gset set) /\
    StronglySorted N.lt (mask <$> visited).
Proof.
  exists (subset_list (reverse (ns_bits set)) ∅). split_and!.
  - apply (EnumerateSubsets_record set []).
  - intros X. rewrite elem_of_subset_list; [|rewrite reverse_Permutation; apply bits_NoDup|set_solver].
    split; [intros (? & _ & Hs)|intros (? & Hs)]; (split; [done|]).
    + intros x Hx%Hs. revert Hx. rewrite elem_of_union, elem_of_list_to_set, elem_of_reverse, bits_law.
      set_solver.
    + split; [set_solver|]. intros x Hx%Hs. rewrite elem_of_union, elem_of_list_to_set, elem_of_reverse,
        bits_law. by right.
  - apply subset_list_mask; [|set_solver]. rewrite reverse_involutive. apply bits_sorted_law.
Qed.

(** C11: On a well-formed graph, and for whatever a receiver answers, [Enumerate]
    returns (it neither runs out of depth nor leaves the bounds of the graph's
    vectors), its result is [true] exactly when the receiver's last answer
    asked to abort, and every pair it reported is two disjoint sets of nodes
    joined by an edge with the reported id, the lowest node on the left. *)
Theorem Enumerate_reports {BS} `{NodeSet BS} {R} (Recv : IDPHyperReceiver BS R)
    (g : CDPHyperGraph BS) (r : R) (Hwf : graph_wf g) :
  exists abort r' log,
    Enumerate (H0 := logged_receiver Recv) g (r, [], false) = Some (abort, (r', log, abort)) /\
    forall left right edge_id, (left, right, edge_id) ∈ log -> pair_ok g left right edge_id.
Proof.
  destruct (Enumerate_safe g Hwf (Hrc := logged_contract Recv g) (r, [], false))
    as ([abort [[r' log] st]] & He & (Hlog & Hst & _)).
  { split; [|done]. by intros left right e ?%elem_of_nil. }
  simpl in Hst. subst st. exists abort, r', log. split; [done|]. apply Hlog.
Qed.

(** A receiver that has seen everything and never aborts. *)
Definition eager_receiver : IDPHyperReceiver (gset N) unit := {|
  FoundSingleNode _ r := (false, r);
  HasSeen _ _ := true;
  FoundSubgraphPair _ _ _ r := (false, r)
|}.

Lemma Enumerate_reports_witness :
  exists g abort r' log, AddEdges sample_edges (CDPHyperGraph_New 4) = Some g /\
    Enumerate (H0 := logged_receiver eager_receiver) g (tt, [], false) = Some (abort, (r', log, abort)) /\
    forall left right edge_id, (left, right, edge_id) ∈ log -> pair_ok g left right edge_id.
Proof.
  destruct sample_graph_ok as (g & Hg & Hwf & _).
  destruct (Enumerate_reports eager_receiver g tt Hwf) as (abort & r' & log & He & Hok).
  by exists g, abort, r', log.
Defined.
