(* ===== verification/DPHyperPlan.v ===== *)
(** * CDPHyperPlan: the recorded result of an enumeration

    Model of libgpopt/src/xforms/CDPHyperPlan.cpp, the receiver the join
    transform enumerates into.  The two hash tables are finite maps from a
    hash value to a bucket; [m_pairs_by_union] holds pointers into [m_pairs],
    modelled as indices, so that [AddConnectingEdge] through a bucket changes
    the pair in [m_pairs].  The plan meets the contract of the enumerator
    ([plan_contract]); together they give a plan whose pairs can be built in
    their order, one per unordered pair, within the budget. *)

From S2P Require Import Prelude NodeSet DPHyperGraph DPHyperEnum.

Open Scope N_scope.

Record SPair (BS : Type) := MkPair {
  p_left : BS;
  p_right : BS;
  m_connecting_edges : list N
}.
Arguments MkPair {BS}. Arguments p_left {BS}. Arguments p_right {BS}.
Arguments m_connecting_edges {BS}.

Record CDPHyperPlan (BS : Type) := MkPlan {
  m_pair_budget : N;
  m_budget_exhausted : bool;
  m_seen : gmap N (list BS);
  m_pairs_by_union : gmap N (list nat);
  m_pairs : list (SPair BS);
  m_seen_count : N
}.
Arguments MkPlan {BS}. Arguments m_pair_budget {BS}. Arguments m_budget_exhausted {BS}.
Arguments m_seen {BS}. Arguments m_pairs_by_union {BS}. Arguments m_pairs {BS}.
Arguments m_seen_count {BS}.

Section plan.
Context {BS : Type} `{NodeSet BS}.
(** [m_pair_filter]: an empty [std::function] is [None]. *)
Context (m_pair_filter : option (BS -> BS -> N -> bool)).
Implicit Types (p : CDPHyperPlan BS) (nodes left right : BS).

Definition CDPHyperPlan_New (pair_budget : N) : CDPHyperPlan BS :=
  MkPlan pair_budget false ∅ ∅ [] 0.

Definition AddConnectingEdge (connecting_edge : N) (pr : SPair BS) : SPair BS :=
  if decide (connecting_edge ∈ m_connecting_edges pr) then pr
  else MkPair (p_left pr) (p_right pr) (m_connecting_edges pr ++ [connecting_edge]).

Definition CDPHyperPlan_HasSeen nodes p : bool :=
  match m_seen p !! ns_HashValue nodes with
  | None => false
  | Some bucket => existsb (fun seen => ns_Equals seen nodes) bucket
  end.

Definition RecordSeen nodes p : bool * CDPHyperPlan BS :=
  if CDPHyperPlan_HasSeen nodes p then (false, p)
  else
    let h := ns_HashValue nodes in
    (true, MkPlan (m_pair_budget p) (m_budget_exhausted p)
             (<[h := default [] (m_seen p !! h) ++ [nodes]]> (m_seen p))
             (m_pairs_by_union p) (m_pairs p) (m_seen_count p + 1)).

Definition CDPHyperPlan_FoundSingleNode (node_id : N) p : bool * CDPHyperPlan BS :=
  let node := (ns_ExchangeSet ns_empty node_id).1 in
  (false, (RecordSeen node p).2).

Definition same_pair left right (pr : SPair BS) : bool :=
  (ns_Equals (p_left pr) left && ns_Equals (p_right pr) right) ||
  (ns_Equals (p_left pr) right && ns_Equals (p_right pr) left).

(** [for (SPair *pair : bucket) if (...) return pair;] *)
Fixpoint find_pair left right (bucket : list nat) p : option nat :=
  match bucket with
  | [] => None
  | i :: bucket =>
    match m_pairs p !! i with
    | Some pr => if same_pair left right pr then Some i else find_pair left right bucket p
    | None => find_pair left right bucket p
    end
  end.

(** The pointer [Ppair] returns, as an index into [m_pairs]. *)
Definition Ppair left right (union_hash : N) p : option nat :=
  match m_pairs_by_union p !! union_hash with
  | None => None
  | Some bucket => find_pair left right bucket p
  end.

Definition CDPHyperPlan_FoundSubgraphPair left right (edge_id : N) p : bool * CDPHyperPlan BS :=
  if match m_pair_filter with Some f => negb (f left right edge_id) | None => false end
  then (false, p)
  else
    let joined := ns_Union left right in
    let union_hash := ns_HashValue joined in
    match Ppair left right union_hash p with
    | Some i =>
      (false, MkPlan (m_pair_budget p) (m_budget_exhausted p) (m_seen p) (m_pairs_by_union p)
                (alter (AddConnectingEdge edge_id) i (m_pairs p)) (m_seen_count p))
    | None =>
      if m_pair_budget p <=? N.of_nat (length (m_pairs p)) then
        (true, MkPlan (m_pair_budget p) true (m_seen p) (m_pairs_by_union p) (m_pairs p)
                 (m_seen_count p))
      else
        let i := length (m_pairs p) in
        let p := MkPlan (m_pair_budget p) (m_budget_exhausted p) (m_seen p)
          (<[union_hash := default [] (m_pairs_by_union p !! union_hash) ++ [i]]>
             (m_pairs_by_union p))
          (m_pairs p ++ [MkPair left right [edge_id]]) (m_seen_count p) in
        (false, (RecordSeen joined p).2)
    end.

Definition CDPHyperPlan_Complete (node_count : N) p : bool :=
  if m_budget_exhausted p || (node_count =? 0) then false
  else CDPHyperPlan_HasSeen (PbsLowerNodes node_count) p.

#[global] Instance plan_receiver : IDPHyperReceiver BS (CDPHyperPlan BS) := {
  FoundSingleNode := CDPHyperPlan_FoundSingleNode;
  HasSeen := CDPHyperPlan_HasSeen;
  FoundSubgraphPair := CDPHyperPlan_FoundSubgraphPair
}.
End plan.

(** ** Invariant *)

Section plan_invariant.
Context {BS : Type} `{NodeSet BS} (m_pair_filter : option (BS -> BS -> N -> bool)).
Context (g : CDPHyperGraph BS).
Implicit Types (p : CDPHyperPlan BS) (s left right : BS) (X : gset N).

Definition seen_in p X : Prop :=
  exists h bucket s, m_seen p !! h = Some bucket /\ s ∈ bucket /\ to_gset s = X.

(** The nodes a pair joins. *)
Definition pair_set (pr : SPair BS) : gset N := to_gset (p_left pr) ∪ to_gset (p_right pr).

(** [X] is a node of the graph, or what one of the first [i] pairs joins. *)
Definition built p (i : nat) X : Prop :=
  (exists v, v < NodeCount g /\ X = {[v]}) \/
  (exists j pr, (j < i)%nat /\ m_pairs p !! j = Some pr /\ X = pair_set pr).

(** The filter lets the pair through. *)
Definition accepts left right (e : N) : Prop :=
  match m_pair_filter with Some f => f left right e = true | None => True end.

(** A recorded edge joins the sides of its pair and passed the filter. *)
Definition recorded_ok left right (e : N) : Prop :=
  connects g (to_gset left) (to_gset right) e /\
  exists l r, to_gset l = to_gset left /\ to_gset r = to_gset right /\ accepts l r e.

Record pair_wf (pr : SPair BS) : Prop := {
  pw_sides : pair_sides g (to_gset (p_left pr)) (to_gset (p_right pr));
  pw_edges : m_connecting_edges pr <> [];
  pw_nodup : NoDup (m_connecting_edges pr);
  pw_connects : forall e, e ∈ m_connecting_edges pr -> recorded_ok (p_left pr) (p_right pr) e
}.

Record plan_inv p : Prop := {
  pi_hash : forall h bucket s, m_seen p !! h = Some bucket -> s ∈ bucket -> ns_HashValue s = h;
  pi_seen : forall X, seen_in p X -> built p (length (m_pairs p)) X;
  pi_index : forall h i,
    (exists bucket, m_pairs_by_union p !! h = Some bucket /\ i ∈ bucket) <->
    (exists pr, m_pairs p !! i = Some pr /\ ns_HashValue (ns_Union (p_left pr) (p_right pr)) = h);
  pi_unique : forall i j pr pr', m_pairs p !! i = Some pr -> m_pairs p !! j = Some pr' ->
    same_pair (p_left pr') (p_right pr') pr = true -> i = j;
  pi_wf : forall i pr, m_pairs p !! i = Some pr -> pair_wf pr;
  pi_order : forall i pr, m_pairs p !! i = Some pr ->
    built p i (to_gset (p_left pr)) /\ built p i (to_gset (p_right pr));
  pi_recorded : forall i pr, m_pairs p !! i = Some pr -> seen_in p (pair_set pr);
  pi_budget : N.of_nat (length (m_pairs p)) <= m_pair_budget p;
  pi_exhausted : m_budget_exhausted p = true -> N.of_nat (length (m_pairs p)) = m_pair_budget p
}.

(** The hash buckets answer exactly for the recorded sets. *)
Lemma HasSeen_spec s p :
  (forall h bucket s, m_seen p !! h = Some bucket -> s ∈ bucket -> ns_HashValue s = h) ->
  CDPHyperPlan_HasSeen s p = true <-> seen_in p (to_gset s).
Proof.
  intros Hh. unfold CDPHyperPlan_HasSeen, seen_in. split.
  - destruct (m_seen p !! ns_HashValue s) as [bucket|] eqn:E; [|done].
    intros (t & Ht & He)%existsb_exists. autorewrite with ns in He. breflect.
    exists (ns_HashValue s), bucket, t. by rewrite list_elem_of_In.
  - intros (h & bucket & t & Hb & Ht & He). rewrite <-(HashValue_law t s He), (Hh h bucket t Hb Ht), Hb.
    apply existsb_exists. exists t. split; [by apply list_elem_of_In|]. ns_simpl.
    by apply bool_decide_eq_true.
Qed.

Lemma same_pair_spec left right pr :
  same_pair left right pr = true <->
  (to_gset (p_left pr) = to_gset left /\ to_gset (p_right pr) = to_gset right) \/
  (to_gset (p_left pr) = to_gset right /\ to_gset (p_right pr) = to_gset left).
Proof.
  unfold same_pair. ns_simpl. by rewrite orb_true_iff, !andb_true_iff, !bool_decide_eq_true.
Qed.

Lemma find_pair_Some left right bucket p i :
  find_pair left right bucket p = Some i ->
  i ∈ bucket /\ exists pr, m_pairs p !! i = Some pr /\ same_pair left right pr = true.
Proof.
  induction bucket as [|j bucket IH]; [done|]. cbn [find_pair].
  destruct (m_pairs p !! j) as [pr|] eqn:Ej.
  - destruct (same_pair left right pr) eqn:Es.
    + intros [= <-]. split; [left|by exists pr].
    + intros [??]%IH. split; [by right|done].
  - intros [??]%IH. split; [by right|done].
Qed.

Lemma find_pair_None left right bucket p i pr :
  find_pair left right bucket p = None -> i ∈ bucket -> m_pairs p !! i = Some pr ->
  same_pair left right pr = false.
Proof.
  induction bucket as [|j bucket IH]; [by intros _ ?%elem_of_nil|]. cbn [find_pair].
  intros Hf [->|Hi]%elem_of_cons Hp.
  - rewrite Hp in Hf. by destruct (same_pair left right pr).
  - apply IH; [|done|done]. destruct (m_pairs p !! j) as [pr0|]; [|done].
    by destruct (same_pair left right pr0).
Qed.

Lemma Ppair_spec left right p :
  plan_inv p ->
  match Ppair left right (ns_HashValue (ns_Union left right)) p with
  | Some i => exists pr, m_pairs p !! i = Some pr /\ same_pair left right pr = true
  | None => forall i pr, m_pairs p !! i = Some pr -> same_pair left right pr = false
  end.
Proof.
  intros Hi. unfold Ppair.
  assert (Hh : forall i pr, m_pairs p !! i = Some pr -> same_pair left right pr = true ->
    exists bucket, m_pairs_by_union p !! ns_HashValue (ns_Union left right) = Some bucket /\ i ∈ bucket).
  { intros i pr Hpr Hs. apply (pi_index _ Hi). exists pr. split; [done|]. apply HashValue_law.
    ns_simpl. apply same_pair_spec in Hs as [[-> ->]|[-> ->]]; [done|apply union_comm_L]. }
  destruct (m_pairs_by_union p !! _) as [bucket|] eqn:Eb.
  - destruct (find_pair left right bucket p) as [i|] eqn:Ef; [by apply find_pair_Some in Ef as [_ ?]|].
    intros i pr Hpr. destruct (same_pair left right pr) eqn:Es; [|done].
    destruct (Hh i pr Hpr Es) as (b & [= <-] & Hib). by rewrite (find_pair_None _ _ _ _ _ _ Ef Hib Hpr) in Es.
  - intros i pr Hpr. destruct (same_pair left right pr) eqn:Es; [|done].
    by destruct (Hh i pr Hpr Es) as (b & ? & _).
Qed.

Lemma New_inv budget : plan_inv (CDPHyperPlan_New budget).
Proof.
  split; simpl; [done| |by intros h i; split; intros (? & ? & _)|done..|lia|done].
  by intros X (h & b & s & Hb & _).
Qed.

(** The recorded sets after [RecordSeen]. *)
Lemma RecordSeen_seen s p X :
  (forall h bucket s, m_seen p !! h = Some bucket -> s ∈ bucket -> ns_HashValue s = h) ->
  seen_in (RecordSeen s p).2 X <-> seen_in p X \/ X = to_gset s.
Proof.
  intros Hh. unfold RecordSeen. destruct (CDPHyperPlan_HasSeen s p) eqn:E; simpl.
  - apply HasSeen_spec in E; [|done]. split; [by left|]. by intros [?| ->].
  - unfold seen_in at 1. simpl. split.
    + intros (h & bucket & t & Hb & Ht & <-). destruct (decide (h = ns_HashValue s)) as [->|Hne].
      * rewrite lookup_insert_eq in Hb. injection Hb as <-.
        apply elem_of_app in Ht as [Ht| ->%list_elem_of_singleton]; [|by right].
        destruct (m_seen p !! ns_HashValue s) as [b0|] eqn:Eb; simpl in Ht; [|by apply elem_of_nil in Ht].
        left. by exists (ns_HashValue s), b0, t.
      * rewrite lookup_insert_ne in Hb by done. left. by exists h, bucket, t.
    + intros [(h & bucket & t & Hb & Ht & <-)| ->].
      * destruct (decide (h = ns_HashValue s)) as [->|Hne].
        -- exists (ns_HashValue s), (bucket ++ [s]), t. rewrite Hb, lookup_insert_eq. simpl.
           rewrite elem_of_app. auto.
        -- exists h, bucket, t. by rewrite lookup_insert_ne.
      * eexists (ns_HashValue s), _, s. rewrite lookup_insert_eq, elem_of_app.
        split_and!; [done| |done]. right. left.
Qed.

Lemma RecordSeen_hash s p :
  (forall h bucket s, m_seen p !! h = Some bucket -> s ∈ bucket -> ns_HashValue s = h) ->
  forall h bucket t, m_seen (RecordSeen s p).2 !! h = Some bucket -> t ∈ bucket -> ns_HashValue t = h.
Proof.
  intros Hh h bucket t. unfold RecordSeen. destruct (CDPHyperPlan_HasSeen s p); [apply Hh|]. simpl.
  destruct (decide (h = ns_HashValue s)) as [->|Hne].
  - rewrite lookup_insert_eq. intros [= <-] [Ht| ->%list_elem_of_singleton]%elem_of_app; [|done].
    destruct (m_seen p !! ns_HashValue s) as [b0|] eqn:Eb; simpl in Ht; [|by apply elem_of_nil in Ht].
    by apply (Hh _ b0).
  - rewrite lookup_insert_ne by done. apply Hh.
Qed.

Lemma RecordSeen_frame s p :
  m_pairs (RecordSeen s p).2 = m_pairs p /\ m_pairs_by_union (RecordSeen s p).2 = m_pairs_by_union p /\
  m_pair_budget (RecordSeen s p).2 = m_pair_budget p /\
  m_budget_exhausted (RecordSeen s p).2 = m_budget_exhausted p.
Proof. unfold RecordSeen. by destruct (CDPHyperPlan_HasSeen s p). Qed.

Lemma built_frame p p' i X : m_pairs p' = m_pairs p -> built p i X -> built p' i X.
Proof. unfold built. by intros ->. Qed.

(** Recording a set that can be built keeps the invariant. *)
Lemma RecordSeen_inv s p :
  plan_inv p -> built p (length (m_pairs p)) (to_gset s) -> plan_inv (RecordSeen s p).2.
Proof.
  intros Hi Hb. destruct (RecordSeen_frame s p) as (Hp & Hu & Hbud & Hex).
  pose proof (RecordSeen_seen s p) as Hseen. specialize (fun X => Hseen X (pi_hash _ Hi)).
  split; rewrite ?Hp, ?Hu, ?Hbud, ?Hex; try apply Hi.
  - apply RecordSeen_hash, Hi.
  - intros X [HX| ->]%Hseen; (eapply built_frame; [exact Hp|]); [by apply (pi_seen _ Hi)|done].
  - intros i pr Hpr. destruct (pi_order _ Hi i pr Hpr). by split; (eapply built_frame; [exact Hp|]).
  - intros i pr Hpr. apply Hseen. left. by apply (pi_recorded _ Hi i).
Qed.
(** ** FoundSubgraphPair keeps the invariant *)

Definition psides (pr : SPair BS) : BS * BS := (p_left pr, p_right pr).

Lemma psides_lookup (ps ps' : list (SPair BS)) i pr' :
  psides <$> ps' = psides <$> ps -> ps' !! i = Some pr' ->
  exists pr, ps !! i = Some pr /\ p_left pr' = p_left pr /\ p_right pr' = p_right pr.
Proof.
  intros He Hi. assert (Hf : (psides <$> ps) !! i = Some (psides pr'))
    by (by rewrite <-He, list_lookup_fmap, Hi).
  rewrite list_lookup_fmap in Hf. apply fmap_Some in Hf as (pr & Hpr & [= Hl Hr]). by exists pr.
Qed.

Lemma built_psides p p' i X :
  psides <$> m_pairs p' = psides <$> m_pairs p -> built p i X -> built p' i X.
Proof.
  intros He [?|(j & pr & Hj & Hpr & ->)]; [by left|right]. symmetry in He.
  destruct (psides_lookup _ _ _ _ He Hpr) as (pr' & Hpr' & Hl & Hr).
  exists j, pr'. split_and!; [done|done|]. unfold pair_set. by rewrite Hl, Hr.
Qed.

(** The invariant depends on the pairs only through their sides and edges. *)
Lemma plan_inv_psides p ps :
  plan_inv p -> psides <$> ps = psides <$> m_pairs p ->
  (forall i pr, ps !! i = Some pr -> pair_wf pr) ->
  plan_inv (MkPlan (m_pair_budget p) (m_budget_exhausted p) (m_seen p) (m_pairs_by_union p) ps
              (m_seen_count p)).
Proof.
  intros Hi He Hw. assert (Hlen : length ps = length (m_pairs p))
    by (apply (f_equal length) in He; by rewrite !length_fmap in He).
  assert (He' : psides <$> m_pairs p = psides <$> ps) by done.
  split; simpl; rewrite ?Hlen; [apply Hi|..|apply Hi|apply Hi].
  - intros X HX. eapply built_psides; [exact He|]. by apply (pi_seen _ Hi).
  - intros h i. rewrite (pi_index _ Hi). split.
    + intros (pr & Hpr & <-). destruct (psides_lookup _ _ _ _ He' Hpr) as (pr' & ? & -> & ->). by exists pr'.
    + intros (pr & Hpr & <-). destruct (psides_lookup _ _ _ _ He Hpr) as (pr' & ? & -> & ->). by exists pr'.
  - intros i j pr pr' Hpr Hpr'.
    destruct (psides_lookup _ _ _ _ He Hpr) as (q & Hq & Hl & Hr).
    destruct (psides_lookup _ _ _ _ He Hpr') as (q' & Hq' & -> & ->).
    rewrite same_pair_spec, Hl, Hr, <-same_pair_spec. by apply (pi_unique _ Hi).
  - done.
  - intros i pr Hpr. destruct (psides_lookup _ _ _ _ He Hpr) as (q & Hq & -> & ->).
    destruct (pi_order _ Hi i q Hq). split; (eapply built_psides; [exact He|]); done.
  - intros i pr Hpr. destruct (psides_lookup _ _ _ _ He Hpr) as (q & Hq & Hl & Hr).
    unfold pair_set. rewrite Hl, Hr. by apply (pi_recorded _ Hi i).
Qed.

(** Two pairs over the same nodes have the same orientation: the lowest node is
    on the left. *)
Lemma same_pair_oriented left right pr :
  same_pair left right pr = true -> pair_sides g (to_gset left) (to_gset right) -> pair_wf pr ->
  to_gset (p_left pr) = to_gset left /\ to_gset (p_right pr) = to_gset right.
Proof.
  intros [?|[Hl Hr]]%same_pair_spec Hp Hw; [done|exfalso].
  destruct (ps_lowest _ _ _ Hp) as (k & Hk & Hmin).
  destruct (ps_lowest _ _ _ (pw_sides _ Hw)) as (k' & Hk' & Hmin').
  rewrite Hl, Hr in *. assert (k <= k') by (apply Hmin; set_solver).
  assert (k' <= k) by (apply Hmin'; set_solver). assert (k = k') as -> by lia.
  pose proof (ps_disjoint _ _ _ Hp). set_solver.
Qed.

Lemma AddConnectingEdge_wf e pr :
  pair_wf pr -> recorded_ok (p_left pr) (p_right pr) e ->
  pair_wf (AddConnectingEdge e pr) /\ psides (AddConnectingEdge e pr) = psides pr.
Proof.
  intros Hw Hc. unfold AddConnectingEdge. destruct (decide _) as [|Hni]; [done|].
  split; [|done]. split; simpl; [apply Hw|by destruct (m_connecting_edges pr)| |].
  - apply NoDup_app. split_and!; [apply Hw| |apply NoDup_singleton].
    by intros x Hx ->%list_elem_of_singleton.
  - intros x [Hx| ->%list_elem_of_singleton]%elem_of_app; [by apply (pw_connects _ Hw)|done].
Qed.

Lemma alter_pair_inv p i pr e :
  plan_inv p -> m_pairs p !! i = Some pr -> recorded_ok (p_left pr) (p_right pr) e ->
  plan_inv (MkPlan (m_pair_budget p) (m_budget_exhausted p) (m_seen p) (m_pairs_by_union p)
              (alter (AddConnectingEdge e) i (m_pairs p)) (m_seen_count p)).
Proof.
  intros Hi Hpr Hc. apply plan_inv_psides; [done|..].
  - apply list_eq. intros j. rewrite !list_lookup_fmap.
    destruct (decide (i = j)) as [<-|Hne]; [|by rewrite list_lookup_alter_ne].
    rewrite list_lookup_alter_eq, Hpr. simpl. f_equal.
    apply AddConnectingEdge_wf; [by apply (pi_wf _ Hi i)|done].
  - intros j q. destruct (decide (i = j)) as [<-|Hne].
    + rewrite list_lookup_alter_eq, Hpr. intros [= <-].
      apply AddConnectingEdge_wf; [by apply (pi_wf _ Hi i)|done].
    + rewrite list_lookup_alter_ne by done. apply (pi_wf _ Hi).
Qed.

(** The plan just after a new pair was pushed, before its union is recorded. *)
Definition push_pair left right (e : N) p : CDPHyperPlan BS :=
  let h := ns_HashValue (ns_Union left right) in
  MkPlan (m_pair_budget p) (m_budget_exhausted p) (m_seen p)
    (<[h := default [] (m_pairs_by_union p !! h) ++ [length (m_pairs p)]]> (m_pairs_by_union p))
    (m_pairs p ++ [MkPair left right [e]]) (m_seen_count p).

Lemma built_push left right e p i X : built p i X -> built (push_pair left right e p) i X.
Proof.
  intros [?|(j & pr & Hj & Hpr & ->)]; [by left|right]. exists j, pr. split_and!; [done| |done].
  simpl. by apply lookup_app_l_Some.
Qed.

Lemma built_mono p i j X : (i <= j)%nat -> built p i X -> built p j X.
Proof. intros Hij [?|(k & pr & Hk & ?)]; [by left|right]. exists k, pr. split; [lia|done]. Qed.

Lemma push_lookup left right e p i pr :
  m_pairs (push_pair left right e p) !! i = Some pr <->
  m_pairs p !! i = Some pr \/ i = length (m_pairs p) /\ pr = MkPair left right [e].
Proof.
  simpl. rewrite lookup_app_Some. split.
  - intros [?|[Hge Hl]]; [by left|right]. apply list_lookup_singleton_Some in Hl as [? <-].
    split; [lia|done].
  - intros [?|[-> ->]]; [by left|right]. by rewrite Nat.sub_diag.
Qed.

Lemma push_index left right e p h i :
  plan_inv p ->
  (exists bucket, m_pairs_by_union (push_pair left right e p) !! h = Some bucket /\ i ∈ bucket) <->
  (exists pr, m_pairs (push_pair left right e p) !! i = Some pr /\
              ns_HashValue (ns_Union (p_left pr) (p_right pr)) = h).
Proof.
  intros Hi. setoid_rewrite push_lookup. set (h0 := ns_HashValue (ns_Union left right)).
  assert (Hold : (exists bucket, m_pairs_by_union p !! h = Some bucket /\ i ∈ bucket) <->
    (exists pr, m_pairs p !! i = Some pr /\ ns_HashValue (ns_Union (p_left pr) (p_right pr)) = h))
    by apply Hi.
  unfold push_pair. cbn [m_pairs_by_union]. fold h0. split.
  - intros (bucket & Hb & Hin). destruct (decide (h = h0)) as [->|Hne].
    + rewrite lookup_insert_eq in Hb. injection Hb as <-.
      apply elem_of_app in Hin as [Hin| ->%list_elem_of_singleton].
      * destruct (m_pairs_by_union p !! h0) as [b|]; [|by apply elem_of_nil in Hin].
        destruct (proj1 Hold) as (pr & ? & ?); [by exists b|]. exists pr. auto.
      * exists (MkPair left right [e]). auto.
    + rewrite lookup_insert_ne in Hb by done.
      destruct (proj1 Hold) as (pr & ? & ?); [by exists bucket|]. exists pr. auto.
  - intros (pr & [Hpr|[-> ->]] & Hh).
    + destruct (proj2 Hold) as (b & Hb & Hin); [by exists pr|].
      destruct (decide (h = h0)) as [->|Hne].
      * exists (b ++ [length (m_pairs p)]). rewrite lookup_insert_eq, Hb, elem_of_app. auto.
      * exists b. by rewrite lookup_insert_ne.
    + simpl in Hh. fold h0 in Hh. subst h.
      exists (default [] (m_pairs_by_union p !! h0) ++ [length (m_pairs p)]).
      rewrite lookup_insert_eq, elem_of_app, list_elem_of_singleton. auto.
Qed.
Lemma push_pair_inv left right e p :
  plan_inv p -> pair_ok g (to_gset left) (to_gset right) e -> accepts left right e ->
  seen_in p (to_gset left) -> seen_in p (to_gset right) ->
  (forall i pr, m_pairs p !! i = Some pr -> same_pair left right pr = false) ->
  N.of_nat (length (m_pairs p)) < m_pair_budget p -> m_budget_exhausted p = false ->
  plan_inv (RecordSeen (ns_Union left right) (push_pair left right e p)).2.
Proof.
  intros Hi [Hs Hc] Hacc Hl Hr Hnew Hbud Hex. set (q := push_pair left right e p).
  destruct (RecordSeen_frame (ns_Union left right) q) as (Hp & Hu & Hb & Hx).
  assert (Hh : forall h bucket s, m_seen q !! h = Some bucket -> s ∈ bucket -> ns_HashValue s = h)
    by apply Hi.
  pose proof (fun X => RecordSeen_seen (ns_Union left right) q X Hh) as Hseen.
  assert (Hlen : length (m_pairs q) = S (length (m_pairs p))) by (simpl; rewrite length_app; simpl; lia).
  assert (Hlook : forall i pr, m_pairs q !! i = Some pr <-> m_pairs p !! i = Some pr \/
    i = length (m_pairs p) /\ pr = MkPair left right [e]) by (intros; apply push_lookup).
  assert (Hq : forall i X, built p i X -> built (RecordSeen (ns_Union left right) q).2 i X)
    by (intros i X ?; eapply built_frame; [exact Hp|]; by apply built_push).
  assert (Hne : forall i pr, m_pairs p !! i = Some pr -> i <> length (m_pairs p))
    by (intros i pr ?%lookup_lt_Some; lia).
  split; rewrite ?Hp, ?Hu, ?Hb, ?Hx.
  - by apply RecordSeen_hash.
  - rewrite Hlen. intros X [HX| ->]%Hseen.
    + apply Hq. eapply built_mono; [|by apply (pi_seen _ Hi)]. lia.
    + right. exists (length (m_pairs p)), (MkPair left right [e]). rewrite Hp. split_and!; [lia| |].
      * apply Hlook. auto.
      * unfold pair_set. by ns_simpl.
  - intros h i. by apply push_index.
  - intros i j pr pr' [Hpr|[-> ->]]%Hlook [Hpr'|[-> ->]]%Hlook; [by apply (pi_unique _ Hi)| | |done].
    + simpl. by rewrite (Hnew i).
    + simpl. intros Hsp. exfalso. enough (same_pair left right pr' = true) by (by rewrite (Hnew j) in *).
      apply same_pair_spec in Hsp. apply same_pair_spec. simpl in Hsp. naive_solver.
  - intros i pr [Hpr|[-> ->]]%Hlook; [by apply (pi_wf _ Hi i)|]. split; simpl; [done|done| |].
    + apply NoDup_singleton.
    + intros x ->%list_elem_of_singleton. split; [done|]. by exists left, right.
  - intros i pr [Hpr|[-> ->]]%Hlook; [destruct (pi_order _ Hi i pr Hpr); auto|]. simpl.
    split; apply Hq; by apply (pi_seen _ Hi).
  - intros i pr [Hpr|[-> ->]]%Hlook; apply Hseen; [left; by apply (pi_recorded _ Hi i)|right].
    unfold pair_set. by ns_simpl.
  - rewrite Hlen. simpl. lia.
  - simpl. by rewrite Hex.
Qed.

Lemma seen_in_frame p p' X : m_seen p' = m_seen p -> seen_in p X -> seen_in p' X.
Proof. unfold seen_in. by intros ->. Qed.

(** The plan is a receiver that meets the contract of the enumerator. *)
#[export] Instance plan_contract :
  ReceiverContract g (CDPHyperPlan BS) (H0 := plan_receiver m_pair_filter) plan_inv
    m_budget_exhausted seen_in.
Proof.
  split.
  - intros s p Hi Hs. apply HasSeen_spec; [apply Hi|done].
  - intros v p Hi Hst Hv. simpl. unfold CDPHyperPlan_FoundSingleNode.
    pose proof (fun X => RecordSeen_seen (ns_ExchangeSet ns_empty v).1 p X (pi_hash _ Hi)) as Hseen.
    assert (Hsv : to_gset (ns_ExchangeSet ns_empty v).1 = {[v]}) by (ns_simpl; set_solver).
    split_and!.
    + apply RecordSeen_inv; [done|]. rewrite Hsv. left. eauto.
    + destruct (RecordSeen_frame (ns_ExchangeSet ns_empty v).1 p) as (_ & _ & _ & ->). done.
    + intros X HX. apply Hseen. by left.
    + intros _. apply Hseen. by right.
  - intros left right e p Hi Hst Hok Hl Hr. simpl. unfold CDPHyperPlan_FoundSubgraphPair.
    case_if; [done|]. assert (Hacc : accepts left right e)
      by (unfold accepts; destruct m_pair_filter; [by apply negb_false_iff|done]).
    cbv zeta. pose proof (Ppair_spec left right p Hi) as Hpp.
    destruct (Ppair left right (ns_HashValue (ns_Union left right)) p) as [i|].
    + destruct Hpp as (pr & Hpr & Hsame). split_and!; [|done|by intros X; apply seen_in_frame].
      destruct (same_pair_oriented left right pr Hsame (proj1 Hok) (pi_wf _ Hi i pr Hpr)) as [El Er].
      eapply alter_pair_inv; [done|done|].
      split; [rewrite El, Er; apply Hok|]. by exists left, right.
    + destruct (N.leb_spec (m_pair_budget p) (N.of_nat (length (m_pairs p)))) as [Hle|Hlt].
      * split_and!; [|done|by intros X; apply seen_in_frame].
        pose proof (pi_budget _ Hi). split; simpl; try apply Hi. intros _. lia.
      * change (MkPlan _ _ _ _ _ _) with (push_pair left right e p). split_and!.
        -- by apply push_pair_inv.
        -- by destruct (RecordSeen_frame (ns_Union left right) (push_pair left right e p))
             as (_ & _ & _ & ->).
        -- intros X HX. apply RecordSeen_seen; [apply Hi|]. left. by eapply seen_in_frame; [|exact HX].
Qed.

Lemma FoundSubgraphPair_budget left right e p :
  m_pair_budget (CDPHyperPlan_FoundSubgraphPair m_pair_filter left right e p).2 = m_pair_budget p.
Proof.
  unfold CDPHyperPlan_FoundSubgraphPair. case_if; [done|]. cbv zeta. destruct (Ppair _ _ _ _); [done|].
  destruct (_ <=? _); [done|]. cbn [snd]. unfold RecordSeen. by destruct (CDPHyperPlan_HasSeen _ _).
Qed.

(** Recording never changes the budget. *)
#[local] Instance budget_contract budget :
  ReceiverContract g (CDPHyperPlan BS) (H0 := plan_receiver m_pair_filter)
    (fun p => plan_inv p /\ m_pair_budget p = budget) m_budget_exhausted seen_in.
Proof.
  split.
  - intros s p [Hi _]. by apply (rc_has_seen g (ReceiverContract := plan_contract)).
  - intros v p [Hi Hb] Hst Hv. pose proof (rc_single g (ReceiverContract := plan_contract) v p Hi Hst Hv) as Hrc.
    cbn [FoundSingleNode plan_receiver] in *. unfold CDPHyperPlan_FoundSingleNode in *.
    destruct Hrc as (? & ? & ? & ?). split_and!; [done| |done..].
    destruct (RecordSeen_frame (ns_ExchangeSet ns_empty v).1 p) as (_ & _ & -> & _). done.
  - intros left right e p [Hi Hb] Hst Hok Hl Hr.
    pose proof (rc_pair g (ReceiverContract := plan_contract) left right e p Hi Hst Hok Hl Hr) as Hrc.
    cbn [FoundSubgraphPair plan_receiver] in *. pose proof (FoundSubgraphPair_budget left right e p) as Hbp.
    destruct (CDPHyperPlan_FoundSubgraphPair m_pair_filter left right e p) as [abort p'].
    destruct Hrc as (? & ? & ?). split_and!; [done|by rewrite <-Hb|done..].
Qed.
End plan_invariant.

(** ** Properties of the plan *)

Section plan_properties.
Context {BS : Type} `{NodeSet BS}.
Implicit Types (g : CDPHyperGraph BS) (filter : option (BS -> BS -> N -> bool)).

(** A bottom-up join of the nodes [X] with the edges of the graph. *)
Inductive join_tree g : gset N -> Prop :=
| jt_node v : v < NodeCount g -> join_tree g {[v]}
| jt_join L R e : join_tree g L -> join_tree g R -> L ## R -> connects g L R e ->
    join_tree g (L ∪ R).

Lemma built_join_tree filter g p i X :
  plan_inv filter g p -> built g p i X -> join_tree g X.
Proof.
  intros Hi. revert X. induction i as [i IH] using lt_wf_ind.
  intros X [(v & Hv & ->)|(j & pr & Hj & Hpr & ->)]; [by apply jt_node|].
  destruct (pi_order _ _ _ Hi j pr Hpr) as [Hl Hr].
  pose proof (pi_wf _ _ _ Hi j pr Hpr) as Hw.
  destruct (m_connecting_edges pr) as [|e es] eqn:Ee; [by destruct (pw_edges _ _ _ Hw)|].
  unfold pair_set. apply (jt_join _ _ _ e).
  - by apply (IH j).
  - by apply (IH j).
  - apply (pw_sides _ _ _ Hw).
  - apply (pw_connects _ _ _ Hw). rewrite Ee. left.
Qed.

Lemma plan_enumerate filter g budget :
  graph_wf g -> exists abort p,
    Enumerate (H0 := plan_receiver filter) g (CDPHyperPlan_New budget) = Some (abort, p) /\
    plan_inv filter g p /\ m_budget_exhausted p = abort /\ m_pair_budget p = budget.
Proof.
  intros Hwf.
  destruct (Enumerate_safe g Hwf (Hrc := budget_contract filter g budget) (CDPHyperPlan_New budget))
    as ([abort p] & He & ([Hi Hb] & Hst & _)); [by split; [split; [apply New_inv|]|]|].
  by exists abort, p.
Qed.

(** The hash buckets hold the set [S] of node sets. *)
Definition seen_refines (p : CDPHyperPlan BS) (S : gset (gset N)) : Prop :=
  (forall h bucket s, m_seen p !! h = Some bucket -> s ∈ bucket -> ns_HashValue s = h) /\
  (forall X, seen_in p X <-> X ∈ S) /\ m_seen_count p = N.of_nat (size S).

Lemma RecordSeen_refines s p S :
  seen_refines p S ->
  (RecordSeen s p).1 = bool_decide (to_gset s ∉ S) /\
  seen_refines (RecordSeen s p).2 ({[to_gset s]} ∪ S).
Proof.
  intros (Hh & Hs & Hc).
  assert (Hhas : CDPHyperPlan_HasSeen s p = bool_decide (to_gset s ∈ S)).
  { apply bool_iff_eq. by rewrite HasSeen_spec, Hs, bool_decide_eq_true. }
  split; [|split_and!].
  - unfold RecordSeen. rewrite Hhas. repeat case_bool_decide; done.
  - by apply RecordSeen_hash.
  - intros X. rewrite RecordSeen_seen, Hs, elem_of_union, elem_of_singleton by done. tauto.
  - unfold RecordSeen. rewrite Hhas. case_bool_decide; simpl.
    + by rewrite subseteq_union_1_L by (by apply singleton_subseteq_l).
    + rewrite size_union, size_singleton, Hc by (by apply disjoint_singleton_l). lia.
Qed.

Lemma New_seen_refines budget : seen_refines (CDPHyperPlan_New budget) ∅.
Proof.
  split_and!; [done| |done]. intros X. split; [by intros (h & b & s & Hb & _)|set_solver].
Qed.

(** The hash-bucketed set of seen node sets is a set: after any sequence of
    [RecordSeen] calls, [HasSeen] answers exactly whether an equal set was
    recorded (whatever operations built it and whatever hash values collide),
    and [m_seen_count] is the number of distinct sets. *)
Theorem HasSeen_exact budget (sets : list BS) (s : BS) :
  let p := fold_left (fun p s => (RecordSeen s p).2) sets (CDPHyperPlan_New budget) in
  let recorded : gset (gset N) := list_to_set (to_gset <$> sets) in
  CDPHyperPlan_HasSeen s p = bool_decide (to_gset s ∈ recorded) /\
  m_seen_count p = N.of_nat (size recorded).
Proof.
  intros p recorded.
  assert (Hr : forall l p S, seen_refines p S ->
    seen_refines (fold_left (fun p s => (RecordSeen s p).2) l p) (list_to_set (to_gset <$> l) ∪ S)).
  { induction l as [|t l IH]; intros q S Hq; simpl; [by rewrite union_empty_l_L|].
    rewrite (comm_L (∪) {[to_gset t]}), <-(assoc_L (∪)). by apply IH, RecordSeen_refines. }
  specialize (Hr sets _ _ (New_seen_refines budget)). rewrite union_empty_r_L in Hr.
  destruct Hr as (Hh & Hs & Hc). split; [|done]. apply bool_iff_eq.
  rewrite bool_decide_eq_true. unfold recorded. rewrite <-Hs. by apply HasSeen_spec.
Qed.

(** C10: Enumerating a well-formed graph into a plan always returns; it is
    aborted exactly when the pair budget is exhausted; at most [budget]
    pairs are recorded, exactly that many after an abort; no unordered pair is
    recorded twice; and the sides of a pair are disjoint node sets all of whose
    recorded edges join them and passed the pair filter. *)
Theorem plan_pairs_sound filter g budget (Hwf : graph_wf g) :
  exists abort p,
    Enumerate (H0 := plan_receiver filter) g (CDPHyperPlan_New budget) = Some (abort, p) /\
    m_budget_exhausted p = abort /\
    N.of_nat (length (m_pairs p)) <= budget /\
    (abort = true -> N.of_nat (length (m_pairs p)) = budget) /\
    (forall i j pr pr', m_pairs p !! i = Some pr -> m_pairs p !! j = Some pr' ->
       same_pair (p_left pr') (p_right pr') pr = true -> i = j) /\
    (forall i pr, m_pairs p !! i = Some pr -> pair_wf filter g pr).
Proof.
  destruct (plan_enumerate filter g budget Hwf) as (abort & p & He & Hi & Hst & Hb).
  pose proof (pi_budget _ _ _ Hi) as Hle. pose proof (pi_exhausted _ _ _ Hi) as Hex. rewrite Hb, ?Hst in *.
  exists abort, p. split_and!; [done..|apply Hi|apply Hi].
Qed.

(** The recorded pairs can be materialized in their order: each side of a
    pair is a single node of the graph or exactly the nodes joined by an
    earlier pair. *)
Theorem plan_build_order filter g budget (Hwf : graph_wf g) :
  exists abort p,
    Enumerate (H0 := plan_receiver filter) g (CDPHyperPlan_New budget) = Some (abort, p) /\
    forall i pr, m_pairs p !! i = Some pr ->
      built g p i (to_gset (p_left pr)) /\ built g p i (to_gset (p_right pr)).
Proof.
  destruct (plan_enumerate filter g budget Hwf) as (abort & p & He & Hi & _).
  exists abort, p. split; [done|]. apply (pi_order _ _ _ Hi).
Qed.

(** A plan that reports itself complete was not cut short by the budget and
    joins all nodes of the graph: there is a bottom-up join of the whole node
    set along edges of the graph. *)
Theorem Complete_join_tree filter g budget (Hwf : graph_wf g) :
  exists abort p,
    Enumerate (H0 := plan_receiver filter) g (CDPHyperPlan_New budget) = Some (abort, p) /\
    (CDPHyperPlan_Complete (NodeCount g) p = true ->
     abort = false /\ exists all, (forall v, v ∈ all <-> v < NodeCount g) /\ join_tree g all).
Proof.
  destruct (plan_enumerate filter g budget Hwf) as (abort & p & He & Hi & Hst & Hb).
  exists abort, p. split; [done|]. unfold CDPHyperPlan_Complete. rewrite Hst.
  destruct abort; [done|]. destruct (NodeCount g =? 0); [done|]. simpl.
  intros Hs. split; [done|]. apply HasSeen_spec in Hs; [|apply Hi].
  exists (to_gset (PbsLowerNodes (BS := BS) (NodeCount g))). split; [apply PbsLowerNodes_law|].
  eapply built_join_tree; [done|]. by apply (pi_seen _ _ _ Hi).
Qed.
End plan_properties.

(** ** Witnesses *)

Definition no_filter : option (gset N -> gset N -> N -> bool) := None.

Lemma plan_pairs_sound_witness :
  exists g abort p, AddEdges sample_edges (CDPHyperGraph_New 4) = Some g /\
    Enumerate (H0 := plan_receiver no_filter) g (CDPHyperPlan_New 10) = Some (abort, p) /\
    m_budget_exhausted p = abort.
Proof.
  destruct sample_graph_ok as (g & Hg & Hwf & _).
  destruct (plan_pairs_sound no_filter g 10 Hwf) as (abort & p & He & Hb & _).
  by exists g, abort, p.
Defined.

Lemma plan_build_order_witness :
  exists g abort p, AddEdges sample_edges (CDPHyperGraph_New 4) = Some g /\
    Enumerate (H0 := plan_receiver no_filter) g (CDPHyperPlan_New 10) = Some (abort, p) /\
    forall i pr, m_pairs p !! i = Some pr ->
      built g p i (to_gset (p_left pr)) /\ built g p i (to_gset (p_right pr)).
Proof.
  destruct sample_graph_ok as (g & Hg & Hwf & _).
  destruct (plan_build_order no_filter g 10 Hwf) as (abort & p & He & Hb).
  by exists g, abort, p.
Defined.

Lemma Complete_join_tree_witness :
  exists g abort p, AddEdges sample_edges (CDPHyperGraph_New 4) = Some g /\
    Enumerate (H0 := plan_receiver no_filter) g (CDPHyperPlan_New 10) = Some (abort, p) /\
    (CDPHyperPlan_Complete (NodeCount g) p = true -> abort = false).
Proof.
  destruct sample_graph_ok as (g & Hg & Hwf & _).
  destruct (Complete_join_tree no_filter g 10 Hwf) as (abort & p & He & Hb).
  exists g, abort, p. split_and!; [done|done|]. intros Hc. by apply Hb.
Defined.
