(* ===== verification/DPHyperOrder.v ===== *)
(** * CDPHyperOrderConstraints: acyclic edge-order constraints

    Model of libgpopt/src/xforms/CDPHyperOrderConstraints.cpp.  [m_reachable]
    holds, for every edge, the set of the edges reachable from it by the
    constraints added so far, itself included.  The specification is the list
    of the constraints themselves: the stored sets are its reflexive-transitive
    closure, a constraint is refused exactly when it would close a cycle, and
    [Precedes] is its strict transitive closure. *)

From stdpp Require Import relations.
From S2P Require Import Prelude NodeSet.

Open Scope N_scope.

Section order.
Context {BS : Type} `{NodeSet BS}.
(** The state is [m_reachable]. *)
Implicit Types (m_reachable : list BS).

Definition CDPHyperOrderConstraints_New (edge_count : N) : list BS :=
  (fun edge => (ns_ExchangeSet ns_empty (N.of_nat edge)).1) <$> seq 0 (N.to_nat edge_count).

Definition WouldCreateCycle m_reachable (before after : N) : option bool :=
  reachable ← m_reachable.[after]; Some (ns_Get reachable before).

(** One round of the loop; the vector is updated in place, so [m_reachable[after]]
    is read from the vector as the earlier rounds left it. *)
Definition close_step (before after : N) (i : nat) m_reachable : option (list BS) :=
  reachable ← m_reachable !! i;
  if ns_Get reachable before then
    target ← m_reachable.[after]; Some (<[i := ns_Union reachable target]> m_reachable)
  else Some m_reachable.

Fixpoint close_loop (before after : N) (idxs : list nat) m_reachable : option (list BS) :=
  match idxs with
  | [] => Some m_reachable
  | i :: idxs => m ← close_step before after i m_reachable; close_loop before after idxs m
  end.

Definition TryAdd m_reachable (before after : N) : option (bool * list BS) :=
  cycle ← WouldCreateCycle m_reachable before after;
  if (cycle : bool) then Some (false, m_reachable) else
  reachable ← m_reachable.[before];
  if ns_Get reachable after then Some (true, m_reachable) else
  m ← close_loop before after (seq 0 (length m_reachable)) m_reachable;
  Some (true, m).

Definition Precedes m_reachable (before after : N) : option bool :=
  reachable ← m_reachable.[before];
  Some (negb (before =? after) && ns_Get reachable after).

(** ** Specification *)

(** The constraints added so far. *)
Definition before_rel (E : list (N * N)) (x y : N) : Prop := (x, y) ∈ E.

Record order_inv m_reachable (E : list (N * N)) : Prop := {
  oi_closure : forall i s, m_reachable.[i] = Some s ->
    forall j, j ∈ to_gset s <-> rtc (before_rel E) i j;
  oi_range : forall x y, (x, y) ∈ E -> x < N.of_nat (length m_reachable) /\
                                     y < N.of_nat (length m_reachable);
  oi_acyclic : forall x, ~ tc (before_rel E) x x
}.

Lemma tc_mono (Q Q' : N -> N -> Prop) x y :
  (forall x y, Q x y -> Q' x y) -> tc Q x y -> tc Q' x y.
Proof. intros Hq. induction 1; [apply tc_once; auto|eapply tc_l; eauto]. Qed.

Lemma rtc_add E b a x y :
  rtc (before_rel ((b, a) :: E)) x y <->
  rtc (before_rel E) x y \/ (rtc (before_rel E) x b /\ rtc (before_rel E) a y).
Proof.
  assert (Hmono : forall x y, rtc (before_rel E) x y -> rtc (before_rel ((b, a) :: E)) x y).
  { intros u v. apply rtc_subrel. intros u' v' ?. by right. }
  split.
  - induction 1 as [x|x z y Hxz Hzy IH]; [left; apply rtc_refl|].
    apply elem_of_cons in Hxz as [[= -> ->]|Hxz].
    + right. split; [apply rtc_refl|]. destruct IH as [?|[? ?]]; [done|done].
    + destruct IH as [?|[? ?]]; [left; by eapply rtc_l|]. right. split; [by eapply rtc_l|done].
  - intros [?|[Hxb Hay]]; [by apply Hmono|]. etrans; [by apply Hmono|].
    eapply rtc_l; [left|by apply Hmono].
Qed.

Lemma tc_add_acyclic E b a x :
  (forall x, ~ tc (before_rel E) x x) -> ~ rtc (before_rel E) a b ->
  ~ tc (before_rel ((b, a) :: E)) x x.
Proof.
  intros Hac Hcyc Htc.
  assert (Hcase : forall y, tc (before_rel ((b, a) :: E)) x y ->
    tc (before_rel E) x y \/ (rtc (before_rel E) x b /\ rtc (before_rel E) a y)).
  { intros y Hy. inversion Hy as [? ? He|? z ? He Hz]; subst.
    - apply elem_of_cons in He as [[= -> ->]|He].
      + right. split; apply rtc_refl.
      + left. by apply tc_once.
    - apply tc_rtc, rtc_add in Hz. apply elem_of_cons in He as [[= -> ->]|He].
      + right. split; [apply rtc_refl|]. by destruct Hz as [?|[? ?]].
      + destruct Hz as [Hz|[? ?]].
        * left. by eapply tc_rtc_r; [apply tc_once|].
        * right. split; [by eapply rtc_l|done]. }
  apply Hcase in Htc as [?|[Hxb Hax]]; [by eapply Hac|].
  apply Hcyc. by etrans.
Qed.

(** The set of edge [i] after the loop. *)
Definition closed (before : N) (T X : gset N) : gset N :=
  if decide (before ∈ X) then X ∪ T else X.

Lemma close_loop_spec before after (t : BS) idxs m :
  NoDup idxs -> (forall i, i ∈ idxs -> (i < length m)%nat) ->
  m.[after] = Some t -> before ∉ to_gset t ->
  exists m', close_loop before after idxs m = Some m' /\ length m' = length m /\
    forall i s, m !! i = Some s -> exists s', m' !! i = Some s' /\
      to_gset s' = if decide (i ∈ idxs) then closed before (to_gset t) (to_gset s) else to_gset s.
Proof.
  revert m. induction idxs as [|i idxs IH]; intros m Hnd Hr Ht Hb; cbn [close_loop].
  { exists m. split_and!; [done|done|]. intros j s Hj. exists s. split; [done|].
    by rewrite decide_False by apply not_elem_of_nil. }
  apply NoDup_cons in Hnd as [Hi Hnd].
  destruct (lookup_lt_is_Some_2 m i) as [s Hs]; [apply Hr; left|].
  assert (Hstep : exists m1, close_step before after i m = Some m1 /\ length m1 = length m /\
    m1.[after] = Some t /\ (forall j, j <> i -> m1 !! j = m !! j) /\
    exists s1, m1 !! i = Some s1 /\ to_gset s1 = closed before (to_gset t) (to_gset s)).
  { unfold close_step, closed. rewrite Hs. cbn [mbind option_bind]. rewrite Get_law, Ht.
    cbn [mbind option_bind]. case_bool_decide as Hin.
    - eexists. split; [done|]. rewrite length_insert. split; [done|].
      assert (Hne : i <> N.to_nat after) by (intros ->; congruence).
      rewrite list_lookup_insert_ne by done. split_and!; [done| |].
      + intros j Hj. by rewrite list_lookup_insert_ne.
      + exists (ns_Union s t). rewrite list_lookup_insert_eq by (by eapply lookup_lt_Some).
        rewrite decide_True, Union_law by done. done.
    - exists m. split_and!; [done..|]. exists s. by rewrite decide_False. }
  destruct Hstep as (m1 & -> & Hlen & Ht1 & Hoth & s1 & Hs1 & Hc1). cbn [mbind option_bind].
  destruct (IH m1 Hnd) as (m' & Hm' & Hlen' & Hm); [|done|done|].
  { intros j Hj. rewrite Hlen. apply Hr. by right. }
  exists m'. split_and!; [done|congruence|]. intros j u Hj.
  destruct (decide (j = i)) as [->|Hji].
  - destruct (Hm i s1 Hs1) as (s' & Hs' & He). exists s'. split; [done|].
    rewrite decide_False in He by done. rewrite decide_True by left.
    assert (u = s) as -> by congruence. congruence.
  - rewrite <-(Hoth j Hji) in Hj. destruct (Hm j u Hj) as (s' & Hs' & He). exists s'.
    split; [done|]. rewrite He. apply decide_ext. rewrite elem_of_cons. naive_solver.
Qed.

Lemma New_order_inv n : order_inv (CDPHyperOrderConstraints_New n) [].
Proof.
  assert (Hnil : forall x y, ~ before_rel [] x y) by (intros x y; apply not_elem_of_nil).
  split.
  - intros i s Hs j. unfold CDPHyperOrderConstraints_New in Hs.
    rewrite list_lookup_fmap in Hs. apply fmap_Some in Hs as (k & Hk & ->).
    apply lookup_seq in Hk as [-> _]. simpl. rewrite N2Nat.id. ns_simpl. split.
    + intros Hj. assert (j = i) as -> by set_solver. apply rtc_refl.
    + intros Hr. inversion Hr as [|? ? ? He]; subst; [set_solver|by apply Hnil in He].
  - by intros x y ?%not_elem_of_nil.
  - intros x Ht. inversion Ht as [? ? He|? ? ? He]; subst; by apply Hnil in He.
Qed.

Lemma TryAdd_inv m_reachable E before after :
  order_inv m_reachable E ->
  before < N.of_nat (length m_reachable) -> after < N.of_nat (length m_reachable) ->
  exists added m', TryAdd m_reachable before after = Some (added, m') /\
    length m' = length m_reachable /\
    (added = false <-> rtc (before_rel E) after before) /\
    (added = false -> m' = m_reachable) /\
    order_inv m' (if added then (before, after) :: E else E).
Proof.
  intros [Hcl Hrg Hac] Hb Ha. unfold TryAdd, WouldCreateCycle.
  destruct (lookup_lt_is_Some_2 m_reachable (N.to_nat after)) as [t Ht]; [lia|].
  destruct (lookup_lt_is_Some_2 m_reachable (N.to_nat before)) as [s Hs]; [lia|].
  rewrite Ht, Hs. cbn [mbind option_bind]. rewrite !Get_law.
  case_bool_decide as Hcyc.
  { exists false, m_reachable. split_and!; [done..| |done|done].
    split; [|done]. intros _. by apply (Hcl after t Ht). }
  assert (Hnc : ~ rtc (before_rel E) after before) by (by rewrite <-(Hcl after t Ht)).
  assert (Hrange : forall x y, (x, y) ∈ (before, after) :: E ->
    x < N.of_nat (length m_reachable) /\ y < N.of_nat (length m_reachable)).
  { intros x y [[= -> ->]|?]%elem_of_cons; [done|by apply Hrg]. }
  assert (Hacyc : forall x, ~ tc (before_rel ((before, after) :: E)) x x)
    by (intros x; by apply tc_add_acyclic).
  case_bool_decide as Hknown.
  { exists true, m_reachable. split_and!; [done..|].
    split; [|done|done]. intros i u Hu j. rewrite rtc_add, (Hcl i u Hu). split; [by left|].
    intros [?|[Hib Haj]]; [done|]. apply (Hcl before s Hs) in Hknown. by do 2 etrans. }
  destruct (close_loop_spec before after t (seq 0 (length m_reachable)) m_reachable)
    as (m' & -> & Hlen & Hm); [apply NoDup_seq|by intros i ?%elem_of_seq; lia|done|done|].
  cbn [mbind option_bind]. exists true, m'. split_and!; [done..|].
  split; [|by rewrite Hlen|done]. intros i u Hu j.
  destruct (lookup_lt_is_Some_2 m_reachable (N.to_nat i)) as [s0 Hs0].
  { rewrite <-Hlen. by eapply lookup_lt_Some. }
  destruct (Hm _ _ Hs0) as (s' & Hs' & He). assert (s' = u) as -> by congruence.
  rewrite He, decide_True by (apply elem_of_seq; apply lookup_lt_Some in Hs0; lia).
  rewrite rtc_add. unfold closed. destruct (decide (before ∈ to_gset s0)) as [Hin|Hnin].
  - rewrite elem_of_union, (Hcl i s0 Hs0), (Hcl after t Ht). apply (Hcl i s0 Hs0) in Hin. tauto.
  - rewrite (Hcl i s0 Hs0). rewrite (Hcl i s0 Hs0) in Hnin. tauto.
Qed.

(** ** Properties *)

(** Adding constraints one after the other, dropping those refused. *)
Fixpoint add_all (m : list BS) (cs : list (N * N)) : option (list (N * N) * list BS) :=
  match cs with
  | [] => Some ([], m)
  | (b, a) :: cs =>
    '(added, m) ← TryAdd m b a;
    '(kept, m) ← add_all m cs;
    Some (if (added : bool) then (b, a) :: kept else kept, m)
  end.

(** C15: [TryAdd before after] refuses a constraint exactly when the constraints
    already added lead from [after] back to [before], and then changes nothing;
    otherwise the stored sets become the reflexive-transitive closure of the
    constraints with the new one, which stay acyclic. *)
Theorem TryAdd_closure m_reachable E before after
    (Hinv : order_inv m_reachable E)
    (Hb : before < N.of_nat (length m_reachable)) (Ha : after < N.of_nat (length m_reachable)) :
  exists added m', TryAdd m_reachable before after = Some (added, m') /\
    (added = false <-> rtc (before_rel E) after before) /\
    (added = false -> m' = m_reachable) /\
    order_inv m' (if added then (before, after) :: E else E).
Proof.
  destruct (TryAdd_inv m_reachable E before after Hinv Hb Ha) as (added & m' & ? & _ & ?).
  by exists added, m'.
Qed.

Lemma add_all_inv m E cs :
  order_inv m E ->
  (forall b a, (b, a) ∈ cs -> b < N.of_nat (length m) /\ a < N.of_nat (length m)) ->
  exists kept m', add_all m cs = Some (kept, m') /\ length m' = length m /\
    order_inv m' (reverse kept ++ E) /\ (forall c, c ∈ kept -> c ∈ cs).
Proof.
  revert m E. induction cs as [|[b a] cs IH]; intros m E Hi Hr; cbn [add_all].
  { exists [], m. by split_and!. }
  destruct (Hr b a ltac:(left)) as [Hb Ha].
  destruct (TryAdd_inv m E b a Hi Hb Ha) as (added & m1 & -> & Hl1 & _ & _ & Hi1).
  cbn [mbind option_bind].
  destruct (IH m1 _ Hi1) as (kept & m2 & -> & Hl2 & Hi2 & Hk).
  { intros x y ?. rewrite Hl1. apply Hr. by right. }
  cbn [mbind option_bind]. destruct added.
  - exists ((b, a) :: kept), m2. split_and!; [done|congruence| |].
    + rewrite reverse_cons, <-app_assoc. done.
    + intros c [->|?]%elem_of_cons; [left|right; auto].
  - exists kept, m2. split_and!; [done|congruence|done|]. intros c ?. right. auto.
Qed.

(** After any sequence of [TryAdd] calls in range, [Precedes] is the strict
    transitive closure of the constraints that were kept: irreflexive and
    transitive, so the kept constraints have an order that respects them all. *)
Theorem Precedes_strict_order n (cs : list (N * N))
    (Hr : forall b a, (b, a) ∈ cs -> b < n /\ a < n) :
  exists kept m, add_all (CDPHyperOrderConstraints_New n) cs = Some (kept, m) /\
    (forall c, c ∈ kept -> c ∈ cs) /\
    (forall x y, x < n -> y < n ->
       exists p, Precedes m x y = Some p /\ (p = true <-> tc (before_rel kept) x y)) /\
    (forall x, ~ tc (before_rel kept) x x).
Proof.
  assert (Hlen : N.of_nat (length (CDPHyperOrderConstraints_New n)) = n)
    by (unfold CDPHyperOrderConstraints_New; rewrite length_fmap, length_seq; lia).
  destruct (add_all_inv (CDPHyperOrderConstraints_New n) [] cs (New_order_inv n))
    as (kept & m & Hadd & Hl & [Hcl _ Hac] & Hk); [by rewrite Hlen|].
  rewrite app_nil_r in *.
  assert (Hrel : forall x y, before_rel (reverse kept) x y <-> before_rel kept x y)
    by (intros; apply elem_of_reverse).
  assert (Htc : forall x y, tc (before_rel (reverse kept)) x y <-> tc (before_rel kept) x y)
    by (intros; split; apply tc_mono; intros ? ?; by apply Hrel).
  exists kept, m. split_and!; [done|done| |intros x; rewrite <-Htc; apply Hac].
  intros x y Hx Hy. destruct (lookup_lt_is_Some_2 m (N.to_nat x)) as [s Hs]; [lia|].
  unfold Precedes. rewrite Hs. cbn [mbind option_bind]. eexists. split; [done|].
  rewrite <-Htc, Get_law, andb_true_iff, negb_true_iff, N.eqb_neq, bool_decide_eq_true, (Hcl x s Hs).
  split.
  - intros [Hne Hp]. by apply rtc_tc in Hp as [?|?].
  - intros Ht. split; [intros ->; by eapply Hac|by apply tc_rtc].
Qed.
End order.

Lemma TryAdd_closure_witness :
  exists added m', TryAdd (CDPHyperOrderConstraints_New (BS := gset N) 3) 0 2 = Some (added, m') /\
    (added = false <-> rtc (before_rel []) 2 0).
Proof.
  destruct (TryAdd_closure (CDPHyperOrderConstraints_New (BS := gset N) 3) [] 0 2
    (New_order_inv 3)) as (added & m' & Ht & Hc & _); [vm_compute; reflexivity..|].
  by exists added, m'.
Defined.

Lemma Precedes_strict_order_witness :
  exists kept m,
    add_all (CDPHyperOrderConstraints_New (BS := gset N) 3) [(0, 1); (1, 2); (2, 0)] = Some (kept, m) /\
    (forall x, ~ tc (before_rel kept) x x).
Proof.
  destruct (Precedes_strict_order (BS := gset N) 3 [(0, 1); (1, 2); (2, 0)])
    as (kept & m & Ha & _ & _ & Hac).
  - intros b a Hin. repeat (apply elem_of_cons in Hin as [[= -> ->]|Hin]; [done|]).
    by apply elem_of_nil in Hin.
  - by exists kept, m.
Defined.
