(* ===== verification/DPHyperSimplifier.v ===== *)
(** * CDPHyperGraphSimplifier: trading join orders for a pair budget

    Model of libgpopt/src/xforms/CDPHyperGraphSimplifier.cpp.  The graph, the
    order constraints, the table of the best simplification per edge, the
    priority queue over it and the two stacks of steps are the fields of one
    state record; a pointer into [m_best] is its index.  [DOUBLE] is an
    abstract type with the operations the code uses, so the theorems hold for
    whatever the cost arithmetic returns, ties and NaN included.  The join cost
    and the filters are callbacks of the caller and parameters here.

    The invariant says that every queued step was computed on the current
    sides of its edge, so that undoing the applied steps in order restores the
    graph. *)

From S2P Require Import Prelude NodeSet DPHyperGraph DPHyperEnum DPHyperPlan DPHyperOrder.

Open Scope N_scope.

(** The operations on [DOUBLE] the code uses. *)
Class Double (D : Type) := {
  dlt : D -> D -> bool;       (* < *)
  dle : D -> D -> bool;       (* <= *)
  deq : D -> D -> bool;       (* == *)
  dadd : D -> D -> D;
  dmul : D -> D -> D;
  ddiv : D -> D -> D;
  dzero : D;
  dmax_value : D              (* std::numeric_limits<DOUBLE>::max() *)
}.

(** ** Data *)

Record SEdgeChange (BS : Type) := MkChange {
  ch_edge : N;
  m_old_left : BS;
  m_old_right : BS;
  m_new_left : BS;
  m_new_right : BS
}.
Arguments MkChange {BS}. Arguments ch_edge {BS}. Arguments m_old_left {BS}.
Arguments m_old_right {BS}. Arguments m_new_left {BS}. Arguments m_new_right {BS}.

Record SSimplificationStep (BS D : Type) := MkStep {
  m_benefit : D;
  m_before : N;
  m_after : N;
  m_change : SEdgeChange BS
}.
Arguments MkStep {BS D}. Arguments m_benefit {BS D}. Arguments m_before {BS D}.
Arguments m_after {BS D}. Arguments m_change {BS D}.

(** [m_best_neighbor == -1] is [None]. *)
Record SBestSimplification (BS D : Type) := MkBest {
  m_best_neighbor : option N;
  m_step : option (SSimplificationStep BS D);
  m_in_queue : bool
}.
Arguments MkBest {BS D}. Arguments m_best_neighbor {BS D}. Arguments m_step {BS D}.
Arguments m_in_queue {BS D}.

(** [m_queue] holds pointers into [m_best]; the head of a stack is its top.
    [s_cost] is the state the join-cost callback keeps between its calls. *)
Record CDPHyperGraphSimplifier (BS D W : Type) := MkSimplifier {
  s_graph : CDPHyperGraph BS;
  s_order : list BS;
  s_best : list (SBestSimplification BS D);
  s_queue : list N;
  s_applied : list (SSimplificationStep BS D);
  s_unapplied : list (SSimplificationStep BS D);
  s_cost : W
}.
Arguments MkSimplifier {BS D W}. Arguments s_graph {BS D W}. Arguments s_order {BS D W}.
Arguments s_best {BS D W}. Arguments s_queue {BS D W}. Arguments s_applied {BS D W}.
Arguments s_unapplied {BS D W}. Arguments s_cost {BS D W}.

Section simplifier.
Context {BS : Type} `{NodeSet BS} {D : Type} `{Double D} {W : Type}.
Context (m_pair_budget : N) (m_pair_filter : option (BS -> BS -> N -> bool)).
Context (m_edge_filter : N -> bool) (m_join_cost : BS -> BS -> W -> option D * W).
Abbreviation Step := (SSimplificationStep BS D).
Abbreviation Simplifier := (CDPHyperGraphSimplifier BS D W).
Implicit Types (st : Simplifier) (set left right : BS).

(** Field updates. *)
Definition with_graph (g : CDPHyperGraph BS) st : Simplifier :=
  MkSimplifier g (s_order st) (s_best st) (s_queue st) (s_applied st) (s_unapplied st) (s_cost st).
Definition with_order (o : list BS) st : Simplifier :=
  MkSimplifier (s_graph st) o (s_best st) (s_queue st) (s_applied st) (s_unapplied st) (s_cost st).
Definition with_queue (b : list (SBestSimplification BS D)) (q : list N) st : Simplifier :=
  MkSimplifier (s_graph st) (s_order st) b q (s_applied st) (s_unapplied st) (s_cost st).
Definition with_stacks (a u : list Step) st : Simplifier :=
  MkSimplifier (s_graph st) (s_order st) (s_best st) (s_queue st) a u (s_cost st).
Definition with_cost (w : W) st : Simplifier :=
  MkSimplifier (s_graph st) (s_order st) (s_best st) (s_queue st) (s_applied st) (s_unapplied st) w.

Definition edge_count st : N := LogicalEdgeCount (s_graph st).

Definition FSubset (subset superset : BS) : bool := ns_ContainsAll superset subset.

(** [CDPHyperGraphSimplifier::Edge]: the forward entry of a logical edge. *)
Definition SimpEdge st (edge : N) : option (SEdge BS) := Edge (s_graph st) (edge * 2).

Definition PbsUsedNodes st (edge : N) : option BS :=
  e ← SimpEdge st edge; Some (ns_Union (m_left e) (m_right e)).

Definition FTryGetSuperset left right : option BS :=
  if FSubset left right then Some right
  else if FSubset right left then Some left else None.

(** ** Building steps *)

Definition Pchange st (edge : N) (new_left new_right : BS) : option (SEdgeChange BS) :=
  old ← SimpEdge st edge;
  Some (MkChange edge (m_left old) (m_right old) new_left new_right).

(** The outer option is an access out of range, the inner one [std::nullopt].
    The callback's state passes through both calls; the second is not made when
    the first fails. *)
Definition ThreeLeftJoin set1 (edge1 : N) set2 (edge2 : N) set3 st
    : option (option Step * Simplifier) :=
  let new_left := ns_Union set1 set2 in
  if negb (ns_IsDisjoint set1 set2) || negb (ns_IsDisjoint new_left set3) then Some (None, st) else
  let '(first_cost, w) := m_join_cost set1 set2 (s_cost st) in
  if negb (bool_decide (is_Some first_cost)) then Some (None, with_cost w st) else
  let '(total_cost, w) := m_join_cost new_left set3 w in
  match total_cost with
  | Some total_cost =>
    change ← Pchange st edge2 new_left set3;
    Some (Some (MkStep total_cost edge1 edge2 change), with_cost w st)
  | None => Some (None, with_cost w st)
  end.

Definition ThreeRightJoin set1 (edge1 : N) set2 (edge2 : N) set3 st
    : option (option Step * Simplifier) :=
  let new_right := ns_Union set2 set3 in
  if negb (ns_IsDisjoint set2 set3) || negb (ns_IsDisjoint set1 new_right) then Some (None, st) else
  let '(first_cost, w) := m_join_cost set2 set3 (s_cost st) in
  if negb (bool_decide (is_Some first_cost)) then Some (None, with_cost w st) else
  let '(total_cost, w) := m_join_cost set1 new_right w in
  match total_cost with
  | Some total_cost =>
    change ← Pchange st edge1 set1 new_right;
    Some (Some (MkStep total_cost edge2 edge1 change), with_cost w st)
  | None => Some (None, with_cost w st)
  end.

Definition OrderJoin (edge1_before2 edge2_before1 : Step) : Step :=
  let cost1 := m_benefit edge1_before2 in
  let cost2 := m_benefit edge2_before1 in
  let selected := if dlt cost1 cost2 then edge1_before2 else edge2_before1 in
  let lower := if dlt cost2 cost1 then cost2 else cost1 in      (* std::min *)
  let higher := if dlt cost1 cost2 then cost2 else cost1 in     (* std::max *)
  MkStep (if dlt dzero lower then ddiv higher lower else dmax_value)
    (m_before selected) (m_after selected) (m_change selected).

Definition both_steps (a b : Simplifier -> option (option Step * Simplifier)) st
    : option (option Step * option Step * Simplifier) :=
  '(x, st) ← a st;
  '(y, st) ← b st;
  Some (x, y, st).

(** The four ways two edges can share a side. *)
Definition make_candidates (edge1 edge2 : N) (e1 e2 : SEdge BS) st
    : option (option Step * option Step * Simplifier) :=
  let left1 := m_left e1 in let right1 := m_right e1 in
  let left2 := m_left e2 in let right2 := m_right e2 in
  let fourth :=
    match FTryGetSuperset right1 right2 with
    | Some common =>
      if ns_IsDisjoint left1 left2 then
        both_steps (ThreeRightJoin left2 edge2 left1 edge1 common)
             (ThreeRightJoin left1 edge1 left2 edge2 common) st
      else Some (None, None, st)
    | None => Some (None, None, st)
    end in
  let third :=
    match FTryGetSuperset right1 left2 with
    | Some common =>
      if ns_IsDisjoint left1 right2 then
        both_steps (ThreeLeftJoin left1 edge1 common edge2 right2)
             (ThreeRightJoin left1 edge1 common edge2 right2) st
      else fourth
    | None => fourth
    end in
  let second :=
    match FTryGetSuperset left1 right2 with
    | Some common =>
      if ns_IsDisjoint left2 right1 then
        both_steps (ThreeRightJoin left2 edge2 common edge1 right1)
             (ThreeLeftJoin left2 edge2 common edge1 right1) st
      else third
    | None => third
    end in
  match FTryGetSuperset left1 left2 with
  | Some common =>
    if ns_IsDisjoint right1 right2 then
      both_steps (ThreeLeftJoin common edge1 right1 edge2 right2)
           (ThreeLeftJoin common edge2 right2 edge1 right1) st
    else second
  | None => second
  end.

Definition MakeStep st (edge1 edge2 : N) : option (option Step * Simplifier) :=
  used1 ← PbsUsedNodes st edge1;
  used2 ← PbsUsedNodes st edge2;
  cycle12 ← WouldCreateCycle (s_order st) edge1 edge2;
  cycle21 ← WouldCreateCycle (s_order st) edge2 edge1;
  e1 ← SimpEdge st edge1;
  e2 ← SimpEdge st edge2;
  if FSubset used1 used2 || FSubset used2 used1 || cycle12 || cycle21 ||
     negb (m_edge_filter (m_edge_id e1)) || negb (m_edge_filter (m_edge_id e2))
  then Some (None, st)
  else
    '(first, second, st) ← make_candidates edge1 edge2 e1 e2 st;
    Some (match first, second with
          | Some first, Some second => Some (OrderJoin first second)
          | _, _ => None
          end, st).

(** ** The queue of the best step per edge *)

Definition set_best (x : N) (b : SBestSimplification BS D) (bs : list (SBestSimplification BS D)) :=
  <[N.to_nat x := b]> bs.

(** Popping everything and pushing all but [x] back leaves the other entries. *)
Definition UpdateQueue st (x : N) : option Simplifier :=
  best ← (s_best st).[x];
  if negb (m_in_queue best) then
    match m_best_neighbor best with
    | Some _ =>
      Some (with_queue (set_best x (MkBest (m_best_neighbor best) (m_step best) true) (s_best st))
              (s_queue st ++ [x]) st)
    | None => Some st
    end
  else
    let rebuilt := filter (fun y => y <> x) (s_queue st) in
    match m_best_neighbor best with
    | None =>
      Some (with_queue (set_best x (MkBest None (m_step best) false) (s_best st)) rebuilt st)
    | Some _ => Some (with_queue (s_best st) (rebuilt ++ [x]) st)
    end.

Definition TrySetStep st (step : Step) (x neighbor : N) : option (bool * Simplifier) :=
  best ← (s_best st).[x];
  better ←
    (match m_best_neighbor best with
     | None => Some true
     | Some _ =>
       if negb (m_in_queue best) then Some true
       else old ← m_step best; Some (dle (m_benefit old) (m_benefit step))
     end);
  if (better : bool) then
    let best := MkBest (Some neighbor) (Some step) (m_in_queue best) in
    st ← UpdateQueue (with_queue (set_best x best (s_best st)) (s_queue st) st) x;
    Some (true, st)
  else Some (false, st).

(** [for (i = a; i < b; ++i)] *)
Definition N_range (a b : N) : list N := (fun i => a + N.of_nat i) <$> seq 0 (N.to_nat (b - a)).

Fixpoint loop {A} (body : N -> A -> option A) (l : list N) (a : A) : option A :=
  match l with
  | [] => Some a
  | i :: l => a ← body i a; loop body l a
  end.

(** The second loop of [ProcessNeighbors]: the partners above [edge1]. *)
Definition neighbors_above (edge1 edge2 : N) st : option Simplifier :=
  '(step, st) ← MakeStep st edge1 edge2;
  match step with
  | Some step => '(_, st) ← TrySetStep st step edge1 edge2; Some st
  | None => Some st
  end.

(** The recursive call has an empty first loop, so two levels are enough. *)
Fixpoint ProcessNeighbors (fuel : nat) (edge1 begin end_ : N) st : option Simplifier :=
  match fuel with
  | O => None
  | S fuel =>
    st ← loop (fun edge2 st =>
      '(step, st) ← MakeStep st edge1 edge2;
      '(set, st) ← (match step with
                    | Some step => TrySetStep st step edge2 edge1
                    | None => Some (false, st)
                    end);
      if (set : bool) then Some st else
      best ← (s_best st).[edge2];
      if bool_decide (m_best_neighbor best = Some edge1) then
        ProcessNeighbors fuel edge2 (edge2 + 1) (edge_count st) st
      else Some st) (N_range begin (N.min end_ edge1)) st;
    best ← (s_best st).[edge1];
    let st := with_queue (set_best edge1 (MkBest None (m_step best) (m_in_queue best)) (s_best st))
                (s_queue st) st in
    st ← loop (fun edge2 st => neighbors_above edge1 edge2 st)
           (N_range (N.max begin (edge1 + 1)) end_) st;
    UpdateQueue st edge1
  end.

Definition process_all (edge1 begin end_ : N) st : option Simplifier :=
  ProcessNeighbors 2 edge1 begin end_ st.

(** [SBestCompare] on two queued entries. *)
Definition best_less st (x y : N) : bool :=
  match (s_best st).[x] ≫= m_step, (s_best st).[y] ≫= m_step with
  | Some a, Some b => dlt (m_benefit a) (m_benefit b)
  | _, _ => false
  end.

(** [m_queue.top()]: an entry no other entry exceeds; of several, the first. *)
Definition queue_top st : option N :=
  match s_queue st with
  | [] => None
  | x :: q => Some (fold_left (fun top y => if best_less st top y then y else top) q x)
  end.

(** ** Fetching, applying and undoing steps *)

Fixpoint fetch_loop (fuel : nat) st : option (option Step * Simplifier) :=
  match fuel with
  | O => None
  | S fuel =>
    match queue_top st with
    | None => Some (None, st)
    | Some x =>
      best ← (s_best st).[x];
      let st := with_queue (set_best x (MkBest (m_best_neighbor best) (m_step best) false) (s_best st))
                  (filter (fun y => y <> x) (s_queue st)) st in
      match m_best_neighbor best, m_step best with
      | Some _, Some step =>
        '(added, order) ← TryAdd (s_order st) (m_before step) (m_after step);
        let st := with_order order st in
        if (added : bool) then Some (Some step, st)
        else
          st ← process_all (m_after step) 0 (edge_count st) st;
          fetch_loop fuel st
      | _, _ => fetch_loop fuel st
      end
    end
  end.

(** A refused step is not queued again, so one round more than there are edges
    is enough. *)
Definition FetchStep st : option (option Step * Simplifier) :=
  match s_unapplied st with
  | step :: unapplied => Some (Some step, with_stacks (s_applied st) unapplied st)
  | [] => fetch_loop (S (length (s_best st))) st
  end.

Definition ModifyEdge (step : Step) (apply : bool) st : option Simplifier :=
  let change := m_change step in
  g ← ReplaceEdge (ch_edge change)
        (if apply then m_new_left change else m_old_left change)
        (if apply then m_new_right change else m_old_right change) (s_graph st);
  Some (with_graph g st).

Definition ApplyStep st : option (bool * Simplifier) :=
  let fresh := match s_unapplied st with [] => true | _ => false end in
  '(step, st) ← FetchStep st;
  match step with
  | None => Some (false, st)
  | Some step =>
    st ← ModifyEdge step true st;
    let st := with_stacks (step :: s_applied st) (s_unapplied st) st in
    st ← (if fresh then process_all (m_after step) 0 (edge_count st) st else Some st);
    Some (true, st)
  end.

Definition UnapplyStep st : option (bool * Simplifier) :=
  match s_applied st with
  | [] => Some (false, st)
  | step :: applied =>
    st ← ModifyEdge step false (with_stacks applied (s_unapplied st) st);
    Some (true, with_stacks (s_applied st) (step :: s_unapplied st) st)
  end.

(** [while (m_applied.size() < count)]; [fuel] bounds the rounds. *)
Fixpoint apply_loop (fuel : nat) (count : N) st : option (bool * Simplifier) :=
  if N.of_nat (length (s_applied st)) <? count then
    match fuel with
    | O => None
    | S fuel =>
      '(applied, st) ← ApplyStep st;
      if (applied : bool) then apply_loop fuel count st else Some (false, st)
    end
  else Some (true, st).

(** [while (m_applied.size() > count)] *)
Fixpoint unapply_loop (fuel : nat) (count : N) st : option Simplifier :=
  if count <? N.of_nat (length (s_applied st)) then
    match fuel with
    | O => None
    | S fuel => '(_, st) ← UnapplyStep st; unapply_loop fuel count st
    end
  else Some st.

Definition ApplySteps (count : N) st : option (bool * Simplifier) :=
  '(ok, st) ← apply_loop (N.to_nat count) count st;
  if negb ok then Some (false, st) else
  st ← unapply_loop (length (s_applied st)) count st;
  Some (true, st).

(** ** Simplify *)

Definition exceeds_budget (g : CDPHyperGraph BS) : option bool :=
  '(aborted, probe) ← Enumerate (H0 := plan_receiver m_pair_filter) g
                        (CDPHyperPlan_New m_pair_budget);
  Some (aborted || negb (CDPHyperPlan_Complete (NodeCount g) probe)).

Definition EnumerationExceedsBudget st : option bool := exceeds_budget (s_graph st).

Definition Restore st : option Simplifier := '(_, st) ← ApplySteps 0 st; Some st.

(** The inner loop of the growing phase: [None] in the result is the rollback
    [return false]. *)
Fixpoint grow_loop (fuel : nat) (applied upper : N) st : option (option N * Simplifier) :=
  if applied <? upper then
    match fuel with
    | O => None
    | S fuel =>
      '(ok, st) ← ApplyStep st;
      if (ok : bool) then grow_loop fuel (applied + 1) upper st
      else
        exceeds ← EnumerationExceedsBudget st;
        if (exceeds : bool) then st ← Restore st; Some (None, st)
        else Some (Some applied, st)
    end
  else Some (Some applied, st).

(** [while (true)]: double [upper] until the enumeration fits or no step is left. *)
Fixpoint grow_phase (fuel : nat) (applied upper : N) st : option (option N * Simplifier) :=
  match fuel with
  | O => None
  | S fuel' =>
    '(res, st) ← grow_loop fuel applied upper st;
    match res with
    | None => Some (None, st)
    | Some applied =>
      if applied <? upper then Some (Some applied, st)
      else
        exceeds ← EnumerationExceedsBudget st;
        if (exceeds : bool) then grow_phase fuel' applied (upper * 2) st
        else Some (Some applied, st)
    end
  end.

Fixpoint search_loop (fuel : nat) (lower upper : N) st : option (N * Simplifier) :=
  if lower <? upper then
    match fuel with
    | O => None
    | S fuel =>
      let middle := lower + (upper - lower) / 2 in
      '(ok, st) ← ApplySteps middle st;
      if negb ok then search_loop fuel (middle + 1) upper st else
      exceeds ← EnumerationExceedsBudget st;
      if negb exceeds then search_loop fuel lower middle st
      else search_loop fuel (middle + 1) upper st
    end
  else Some (upper, st).

(** Every fresh step enlarges the nodes of an edge, so there are at most
    [edges * nodes] of them. *)
Definition simplify_fuel st : nat :=
  S (S (N.to_nat (edge_count st) * length (m_nodes (s_graph st)))).

Definition Simplify st : option (bool * Simplifier) :=
  '(res, st) ← grow_phase (simplify_fuel st) 0 1 st;
  match res with
  | None => Some (false, st)
  | Some applied =>
    '(upper, st) ← search_loop (S (N.to_nat (applied + 1))) 0 (applied + 1) st;
    '(ok, st) ← ApplySteps upper st;
    if negb ok then '(_, st) ← ApplySteps 0 st; Some (false, st)
    else Some (0 <? N.of_nat (length (s_applied st)), st)
  end.

(** ** Construction *)

Definition extract_pair (edge1 : N) (used1 : BS) (edge2 : N) st : option Simplifier :=
  used2 ← PbsUsedNodes st edge2;
  if FSubset used1 used2 then
    '(_, o) ← TryAdd (s_order st) edge1 edge2; Some (with_order o st)
  else if FSubset used2 used1 then
    '(_, o) ← TryAdd (s_order st) edge2 edge1; Some (with_order o st)
  else Some st.

Definition ExtractJoinDependencies st : option Simplifier :=
  loop (fun edge1 st =>
    used1 ← PbsUsedNodes st edge1;
    loop (fun edge2 st => extract_pair edge1 used1 edge2 st)
      (N_range (edge1 + 1) (edge_count st)) st) (N_range 0 (edge_count st)) st.

Definition InitFirstStep st : option Simplifier :=
  st ← ExtractJoinDependencies st;
  loop (fun edge st => process_all edge (edge + 1) (edge_count st) st)
    (N_range 0 (edge_count st)) st.

Definition CDPHyperGraphSimplifier_New (graph : CDPHyperGraph BS) (w : W) : option Simplifier :=
  let n := LogicalEdgeCount graph in
  InitFirstStep (MkSimplifier graph (CDPHyperOrderConstraints_New n)
    (replicate (N.to_nat n) (MkBest None None false)) [] [] [] w).
End simplifier.

(** ** Steps on the list of edges *)

Section steps.
Context {BS : Type} `{NodeSet BS} {D : Type} `{Double D}.
Abbreviation Step := (SSimplificationStep BS D).
Implicit Types (E : list (SEdge BS)) (step : Step) (n : N).

(** The edge entries of a well-formed graph over [n] nodes. *)
Record edges_wf n E : Prop := {
  ew_even : exists k, length E = (2 * k)%nat;
  ew_pair : forall k e, E !! (2 * k)%nat = Some e -> E !! (2 * k + 1)%nat = Some (reverse_edge e);
  ew_sides : Forall (fun e => sides_ok n (m_left e) (m_right e)) E
}.

Lemma graph_edges_wf g : graph_wf g -> edges_wf (NodeCount g) (m_edges g).
Proof. intros Hwf. split; apply Hwf. Qed.

Definition logical_count E : N := N.of_nat (length E) / 2.

Definition used (e : SEdge BS) : gset N := to_gset (m_left e) ∪ to_gset (m_right e).

(** What applying a step does to the edges. *)
Definition new_edge step (e : SEdge BS) : SEdge BS :=
  MkEdge (m_new_left (m_change step)) (m_new_right (m_change step)) (m_edge_id e).

Definition app_step E step : list (SEdge BS) :=
  match E.[ch_edge (m_change step) * 2] with
  | Some e => replaced E (ch_edge (m_change step)) (new_edge step e)
  | None => E
  end.

(** A step that was computed on the edges [E]: it changes the later edge of its
    constraint, remembers the sides that edge has in [E], and gives it larger
    ones. *)
Record step_ok n E step : Prop := {
  so_edge : ch_edge (m_change step) = m_after step;
  so_before : m_before step < logical_count E;
  so_after : m_after step < logical_count E;
  so_distinct : m_before step <> m_after step;
  so_old : exists id, E.[m_after step * 2] =
    Some (MkEdge (m_old_left (m_change step)) (m_old_right (m_change step)) id);
  so_sides : sides_ok n (m_new_left (m_change step)) (m_new_right (m_change step));
  so_left : to_gset (m_old_left (m_change step)) ⊆ to_gset (m_new_left (m_change step));
  so_right : to_gset (m_old_right (m_change step)) ⊆ to_gset (m_new_right (m_change step));
  so_grows : to_gset (m_old_left (m_change step)) ∪ to_gset (m_old_right (m_change step)) ⊂
             to_gset (m_new_left (m_change step)) ∪ to_gset (m_new_right (m_change step))
}.

Lemma replaced_length E k e : length (replaced E k e) = length E.
Proof. unfold replaced. by rewrite !length_insert. Qed.

Lemma replaced_fwd E k e : k < logical_count E -> (replaced E k e).[k * 2] = Some e.
Proof.
  unfold replaced, logical_count. intros Hk. div_mod (N.of_nat (length E)) 2.
  rewrite list_lookup_insert_ne by lia. apply list_lookup_insert_eq. lia.
Qed.

Lemma replaced_other E k j e : j <> k -> (replaced E k e).[j * 2] = E.[j * 2].
Proof. intros Hj. unfold replaced. by rewrite !list_lookup_insert_ne by lia. Qed.

(** Replacing an edge and putting its old sides back. *)
Lemma replaced_back n E k e e' :
  edges_wf n E -> E.[k * 2] = Some e -> replaced (replaced E k e') k e = E.
Proof.
  intros Hwf He. unfold replaced.
  assert (Hr : E.[k * 2 + 1] = Some (reverse_edge e)).
  { replace (N.to_nat (k * 2 + 1)) with (2 * N.to_nat k + 1)%nat by lia.
    apply (ew_pair _ _ Hwf). by replace (2 * N.to_nat k)%nat with (N.to_nat (k * 2)) by lia. }
  apply list_eq. intros i. destruct (decide (i = N.to_nat (k * 2 + 1))) as [->|Hi1].
  { rewrite Hr. apply list_lookup_insert_eq. rewrite !length_insert. by eapply lookup_lt_Some. }
  rewrite list_lookup_insert_ne by done. destruct (decide (i = N.to_nat (k * 2))) as [->|Hi2].
  { rewrite He. apply list_lookup_insert_eq. rewrite !length_insert. by eapply lookup_lt_Some. }
  by rewrite !list_lookup_insert_ne by done.
Qed.

Lemma replaced_wf n E k e :
  edges_wf n E -> k < logical_count E -> sides_ok n (m_left e) (m_right e) ->
  edges_wf n (replaced E k e).
Proof.
  intros Hwf Hk Hs. unfold logical_count in Hk.
  assert (Hlen : (2 * N.to_nat k + 1 < length E)%nat)
    by (div_mod (N.of_nat (length E)) 2; lia).
  split.
  - rewrite replaced_length. apply Hwf.
  - unfold replaced. replace (N.to_nat (k * 2 + 1)) with (2 * N.to_nat k + 1)%nat by lia.
    replace (N.to_nat (k * 2)) with (2 * N.to_nat k)%nat by lia.
    apply insert_pair_gw_pair; [done|apply Hwf].
  - unfold replaced. apply Forall_insert; [apply Forall_insert; [apply Hwf|done]|].
    by apply sides_ok_comm.
Qed.

Lemma app_step_ok n E step :
  edges_wf n E -> step_ok n E step ->
  exists id, let old := MkEdge (m_old_left (m_change step)) (m_old_right (m_change step)) id in
    E.[m_after step * 2] = Some old /\ app_step E step = replaced E (m_after step) (new_edge step old) /\
    edges_wf n (app_step E step) /\ length (app_step E step) = length E /\
    replaced (app_step E step) (m_after step) old = E.
Proof.
  intros Hwf Hs. destruct (so_old _ _ _ Hs) as [id Hid]. exists id. cbv zeta.
  assert (Ha : app_step E step = replaced E (m_after step) (new_edge step
    (MkEdge (m_old_left (m_change step)) (m_old_right (m_change step)) id)))
    by (unfold app_step; by rewrite (so_edge _ _ _ Hs), Hid).
  rewrite Ha. split_and!; [done|done| |apply replaced_length|by eapply replaced_back].
  apply replaced_wf; [done|apply Hs|apply Hs].
Qed.

(** A step on another edge stays valid. *)
Lemma step_ok_frame n E k e step :
  step_ok n E step -> m_after step <> k -> step_ok n (replaced E k e) step.
Proof.
  intros Hs Hne. destruct Hs as [? ? ? ? (id & Hid) ? ? ? ?].
  split; unfold logical_count in *; rewrite ?replaced_length; [done..| |done|done|done|done].
  exists id. by rewrite replaced_other.
Qed.

(** ** Sequences of steps *)

Fixpoint chain n E (steps : list Step) : Prop :=
  match steps with
  | [] => True
  | s :: steps => step_ok n E s /\ chain n (app_step E s) steps
  end.

Definition run_steps E (steps : list Step) : list (SEdge BS) := fold_left app_step steps E.

Lemma run_steps_app E l1 l2 : run_steps E (l1 ++ l2) = run_steps (run_steps E l1) l2.
Proof. apply fold_left_app. Qed.

Lemma chain_app n E l1 l2 : chain n E (l1 ++ l2) <-> chain n E l1 /\ chain n (run_steps E l1) l2.
Proof.
  revert E. induction l1 as [|s l1 IH]; intros E; simpl; [tauto|]. rewrite IH. tauto.
Qed.

Lemma chain_wf n E l : edges_wf n E -> chain n E l ->
  edges_wf n (run_steps E l) /\ length (run_steps E l) = length E.
Proof.
  revert E. induction l as [|s l IH]; intros E Hwf Hc; [done|]. destruct Hc as [Hs Hc].
  destruct (app_step_ok n E s Hwf Hs) as (id & _ & _ & Hwf' & Hlen & _).
  destruct (IH _ Hwf' Hc) as [? Hl]. split; [done|]. change (length (run_steps (app_step E s) l) = length E). congruence.
Qed.

(** The number of nodes the edges mention, each entry counted: every step
    enlarges it, so there is a bound on the length of a sequence. *)
Definition weight E : nat := sum_list_with (fun e => size (used e)) E.

Lemma sum_list_insert {A} (f : A -> nat) (l : list A) i x y :
  l !! i = Some x ->
  (sum_list_with f (<[i := y]> l) + f x = sum_list_with f l + f y)%nat.
Proof.
  revert i. induction l as [|z l IH]; intros [|i]; simpl; [done|done|intros [= ->]; lia|].
  intros Hi. specialize (IH i Hi). lia.
Qed.

Lemma used_reverse e : used (reverse_edge e) = used e.
Proof. unfold used. simpl. set_solver. Qed.

Lemma weight_replaced n E k e e' :
  edges_wf n E -> E.[k * 2] = Some e ->
  (weight (replaced E k e') + 2 * size (used e) = weight E + 2 * size (used e'))%nat.
Proof.
  intros Hwf He. unfold weight, replaced.
  assert (Hr : E.[k * 2 + 1] = Some (reverse_edge e)).
  { replace (N.to_nat (k * 2 + 1)) with (2 * N.to_nat k + 1)%nat by lia.
    apply (ew_pair _ _ Hwf). by replace (2 * N.to_nat k)%nat with (N.to_nat (k * 2)) by lia. }
  pose proof (sum_list_insert (fun e => size (used e)) E _ _ e' He) as H1'.
  assert (Hr' : <[N.to_nat (k * 2) := e']> E !! N.to_nat (k * 2 + 1) = Some (reverse_edge e))
    by (by rewrite list_lookup_insert_ne by lia).
  pose proof (sum_list_insert (fun e => size (used e)) _ _ _ (reverse_edge e') Hr') as H2'.
  cbv beta in H1', H2'. rewrite !used_reverse in H2'. lia.
Qed.

Lemma weight_step n E step :
  edges_wf n E -> step_ok n E step -> (weight E + 2 <= weight (app_step E step))%nat.
Proof.
  intros Hwf Hs. destruct (app_step_ok n E step Hwf Hs) as (id & Hid & Ha & _). cbv zeta in *.
  rewrite Ha. pose proof (weight_replaced n E _ _ (new_edge step (MkEdge (m_old_left (m_change step))
    (m_old_right (m_change step)) id)) Hwf Hid) as Hw.
  pose proof (subset_size _ _ (so_grows _ _ _ Hs)) as Hg. unfold used in Hw. simpl in Hw. lia.
Qed.

Lemma weight_bound n E : edges_wf n E -> (weight E <= length E * N.to_nat n)%nat.
Proof.
  intros Hwf. pose proof (ew_sides _ _ Hwf) as Hs. unfold weight. clear Hwf.
  induction Hs as [|e E (_ & _ & _ & Hn) Hs IH]; simpl; [lia|].
  assert (size (used e) <= N.to_nat n)%nat by (apply size_below; intros v Hv; by apply Hn). lia.
Qed.

Lemma chain_weight n E l :
  edges_wf n E -> chain n E l -> (weight E + 2 * length l <= weight (run_steps E l))%nat.
Proof.
  revert E. induction l as [|s l IH]; intros E Hwf Hc; [simpl; lia|]. cbn [length].
  destruct Hc as [Hs Hc]. destruct (app_step_ok n E s Hwf Hs) as (id & _ & _ & Hwf' & _).
  pose proof (weight_step n E s Hwf Hs). specialize (IH _ Hwf' Hc).
  change (run_steps E (s :: l)) with (run_steps (app_step E s) l). lia.
Qed.

Lemma chain_length n E l :
  edges_wf n E -> chain n E l -> (length l <= N.to_nat (logical_count E) * N.to_nat n)%nat.
Proof.
  intros Hwf Hc. pose proof (chain_weight n E l Hwf Hc) as Hw.
  destruct (chain_wf n E l Hwf Hc) as [Hwf' Hlen]. pose proof (weight_bound n _ Hwf') as Hb.
  destruct (ew_even _ _ Hwf) as [k Hk]. unfold logical_count. rewrite Hlen, Hk in Hb. rewrite Hk.
  replace (N.of_nat (2 * k)) with (N.of_nat k * 2) by lia. rewrite N.div_mul by done.
  rewrite Nat2N.id. nia.
Qed.
End steps.

(** ** MakeStep builds valid steps *)

Section make_step.
Context {BS : Type} `{NodeSet BS} {D : Type} `{Double D} {W : Type}.
Context (m_join_cost : BS -> BS -> W -> option D * W).
Abbreviation Step := (SSimplificationStep BS D).
Abbreviation Simplifier := (CDPHyperGraphSimplifier BS D W).
Implicit Types (st : Simplifier) (set left right : BS) (e : SEdge BS).

(** What the code relies on when it looks at the edges of a state. *)
Record base_ok st : Prop := {
  bo_graph : graph_wf (s_graph st);
  bo_order : exists C, order_inv (s_order st) C;
  bo_order_len : length (s_order st) = N.to_nat (edge_count st)
}.

Definition st_nodes st : N := NodeCount (s_graph st).
Definition st_edges st : list (SEdge BS) := m_edges (s_graph st).

Lemma SimpEdge_Some st edge :
  base_ok st -> edge < edge_count st -> exists e,
    SimpEdge st edge = Some e /\ sides_ok (st_nodes st) (m_left e) (m_right e).
Proof.
  intros Hb He. destruct (wf_edge_pair (s_graph st) edge (bo_graph _ Hb) He) as (e & ? & _ & ?).
  by exists e.
Qed.

(** A candidate step that puts [edge1] before [edge2], if any. *)
Definition cand_ok st (edge1 edge2 : N) (o : option Step) : Prop :=
  match o with
  | None => True
  | Some s => (m_before s = edge1 /\ m_after s = edge2 \/ m_before s = edge2 /\ m_after s = edge1) /\
              step_ok (st_nodes st) (st_edges st) s
  end.

Lemma cand_ok_comm st edge1 edge2 o : cand_ok st edge1 edge2 o -> cand_ok st edge2 edge1 o.
Proof. destruct o as [s|]; [|done]. intros [? ?]. split; [tauto|done]. Qed.

Lemma change_step_ok st (benefit : D) before after e (new_left new_right : BS) :
  before < edge_count st -> after < edge_count st -> before <> after ->
  SimpEdge st after = Some e ->
  sides_ok (st_nodes st) new_left new_right ->
  to_gset (m_left e) ⊆ to_gset new_left -> to_gset (m_right e) ⊆ to_gset new_right ->
  used e ⊂ to_gset new_left ∪ to_gset new_right ->
  step_ok (st_nodes st) (st_edges st)
    (MkStep benefit before after (MkChange after (m_left e) (m_right e) new_left new_right)).
Proof.
  intros Hb Ha Hne He Hs Hl Hr Hg. split; simpl; try done.
  exists (m_edge_id e). unfold SimpEdge, Edge in He. unfold st_edges. rewrite He. by destruct e.
Qed.

(** What building candidates may do: only the callback's state changes. *)
Definition cand_post st edge1 edge2 (res : option Step * Simplifier) : Prop :=
  (exists w, res.2 = with_cost w st) /\ cand_ok st edge1 edge2 res.1.

Lemma cand_post_intro st edge1 edge2 o w :
  cand_ok st edge1 edge2 o -> cand_post st edge1 edge2 (o, with_cost w st).
Proof. split; [by exists w|done]. Qed.

Section joins.
Context (st : Simplifier) (w : W) (edge1 edge2 : N) (set1 set2 set3 : BS).
Hypothesis (He1 : edge1 < edge_count st) (He2 : edge2 < edge_count st) (Hne : edge1 <> edge2).
Hypothesis (Hr : forall v, v ∈ to_gset set1 ∪ to_gset set2 ∪ to_gset set3 -> v < st_nodes st).
Hypothesis (Hne1 : to_gset set1 <> ∅) (Hne3 : to_gset set3 <> ∅).

Lemma ThreeLeftJoin_ok e :
  SimpEdge st edge2 = Some e ->
  to_gset (m_left e) ⊆ to_gset set1 ∪ to_gset set2 -> to_gset (m_right e) ⊆ to_gset set3 ->
  used e ⊂ to_gset set1 ∪ to_gset set2 ∪ to_gset set3 ->
  returns (cand_post st edge1 edge2)
    (ThreeLeftJoin m_join_cost set1 edge1 set2 edge2 set3 (with_cost w st)).
Proof using He1 He2 Hne Hr Hne1 Hne3.
  intros He Hl Hri Hg. unfold ThreeLeftJoin. cbv zeta.
  case_if; [eexists; split; [done|]; by apply (cand_post_intro st _ _ None w)|].
  breflect. autorewrite with ns in *. breflect.
  destruct (m_join_cost set1 set2 _) as [first w1].
  case_if; [eexists; split; [done|]; by apply (cand_post_intro st _ _ None w1)|].
  destruct (m_join_cost _ set3 w1) as [[total|] w2];
    [|eexists; split; [done|]; by apply (cand_post_intro st _ _ None w2)].
  unfold Pchange, SimpEdge in *. cbn [with_cost s_graph]. rewrite He. cbn [mbind option_bind].
  eexists. split; [done|]. apply (cand_post_intro st _ _ _ w2). split; [by left|].
  apply change_step_ok; [done..| | |done|]; unfold sides_ok; ns_simpl; [|done|done].
  split_and!; [by apply union_nonempty_l|done|done|done].
Qed.

Lemma ThreeRightJoin_ok e :
  SimpEdge st edge1 = Some e ->
  to_gset (m_left e) ⊆ to_gset set1 -> to_gset (m_right e) ⊆ to_gset set2 ∪ to_gset set3 ->
  used e ⊂ to_gset set1 ∪ to_gset set2 ∪ to_gset set3 ->
  returns (cand_post st edge1 edge2)
    (ThreeRightJoin m_join_cost set1 edge1 set2 edge2 set3 (with_cost w st)).
Proof using He1 He2 Hne Hr Hne1 Hne3.
  intros He Hl Hri Hg. unfold ThreeRightJoin. cbv zeta.
  case_if; [eexists; split; [done|]; by apply (cand_post_intro st _ _ None w)|].
  breflect. autorewrite with ns in *. breflect.
  destruct (m_join_cost set2 set3 _) as [first w1].
  case_if; [eexists; split; [done|]; by apply (cand_post_intro st _ _ None w1)|].
  destruct (m_join_cost set1 _ w1) as [[total|] w2];
    [|eexists; split; [done|]; by apply (cand_post_intro st _ _ None w2)].
  unfold Pchange, SimpEdge in *. cbn [with_cost s_graph]. rewrite He. cbn [mbind option_bind].
  eexists. split; [done|]. apply (cand_post_intro st _ _ _ w2). split; [by right|].
  rewrite <-(assoc_L (∪)) in Hg, Hr.
  apply change_step_ok; [done..| |done| |]; unfold sides_ok; ns_simpl; [|done|done].
  split_and!; [done|by apply union_nonempty_r|done|done].
Qed.
End joins.

Lemma FTryGetSuperset_ok left right common :
  FTryGetSuperset left right = Some common ->
  to_gset left ⊆ to_gset common /\ to_gset right ⊆ to_gset common /\
  (to_gset common = to_gset left \/ to_gset common = to_gset right).
Proof.
  unfold FTryGetSuperset, FSubset. rewrite !ContainsAll_law.
  case_bool_decide; [intros [= <-]; by auto|]. case_bool_decide; [intros [= <-]; by auto|done].
Qed.

Lemma with_cost_id st : with_cost (s_cost st) st = st.
Proof. by destruct st. Qed.

Lemma both_ok st edge1 edge2 (a b : Simplifier -> option (option Step * Simplifier)) :
  (forall w, returns (cand_post st edge1 edge2) (a (with_cost w st))) ->
  (forall w, returns (cand_post st edge1 edge2) (b (with_cost w st))) ->
  returns (fun '(x, y, st') => (exists w, st' = with_cost w st) /\
      cand_ok st edge1 edge2 x /\ cand_ok st edge1 edge2 y)
    (both_steps a b st).
Proof.
  intros Ha Hb. unfold both_steps.
  pose proof (Ha (s_cost st)) as Ha'. rewrite with_cost_id in Ha'.
  eapply returns_bind; [exact Ha'|].
  intros [x st1] [[w1 Hw] Hx]. cbn [fst snd] in *. subst st1. eapply returns_bind; [apply Hb|].
  intros [y st2] [Hw2 Hy]. by eexists.
Qed.

Lemma cand_post_comm st edge1 edge2 (a : option (option Step * Simplifier)) :
  returns (cand_post st edge2 edge1) a -> returns (cand_post st edge1 edge2) a.
Proof.
  intros Ha. eapply returns_mono; [done|]. intros [o st'] [Hw Ho]. split; [done|].
  by apply cand_ok_comm.
Qed.

Lemma superset_case {A} (Q : A -> Prop) left right left' right' (f : BS -> option A) (g : option A) :
  (forall common, FTryGetSuperset left right = Some common -> returns Q (f common)) ->
  returns Q g ->
  returns Q (match FTryGetSuperset left right with
             | Some common => if ns_IsDisjoint left' right' then f common else g
             | None => g end).
Proof.
  intros Hf Hg. destruct (FTryGetSuperset left right) as [c|]; [|done]. case_if; [by apply Hf|done].
Qed.

(** Every candidate covers the nodes of both edges, and neither edge covers the
    other, so it is strictly larger than the edge it replaces. *)
Lemma make_candidates_ok st edge1 edge2 e1 e2 :
  edge1 < edge_count st -> edge2 < edge_count st -> edge1 <> edge2 ->
  SimpEdge st edge1 = Some e1 -> SimpEdge st edge2 = Some e2 ->
  sides_ok (st_nodes st) (m_left e1) (m_right e1) ->
  sides_ok (st_nodes st) (m_left e2) (m_right e2) ->
  ~ used e1 ⊆ used e2 -> ~ used e2 ⊆ used e1 ->
  returns (fun '(x, y, st') => (exists w, st' = with_cost w st) /\
      cand_ok st edge1 edge2 x /\ cand_ok st edge1 edge2 y)
    (make_candidates m_join_cost edge1 edge2 e1 e2 st).
Proof.
  intros Hc1 Hc2 Hne He1 He2 (Hl1 & Hr1 & Hd1 & Hn1) (Hl2 & Hr2 & Hd2 & Hn2) H12 H21.
  assert (Hrange : forall X, X ⊆ used e1 ∪ used e2 -> forall v, v ∈ X -> v < st_nodes st).
  { unfold used. intros X HX v [[?|?]%elem_of_union|[?|?]%elem_of_union]%HX%elem_of_union;
      [apply Hn1|apply Hn1|apply Hn2|apply Hn2]; set_solver. }
  unfold make_candidates. cbv zeta. unfold used in *.
  repeat (apply superset_case; [intros common (Hca & Hcb & Hc)%FTryGetSuperset_ok; apply both_ok; intros w|]);
    [..|eexists; split; [done|]; split; [exists (s_cost st); by rewrite with_cost_id|done]].
  all: assert (Hcne : to_gset common <> ∅) by (destruct Hc as [-> | ->]; done).
  2,3,4,7: apply cand_post_comm.
  all: lazymatch goal with
       | |- returns _ (ThreeLeftJoin _ _ _ _ _ _ _) => eapply ThreeLeftJoin_ok
       | _ => eapply ThreeRightJoin_ok
       end; try done.
  all: lazymatch goal with
       | |- forall v, _ -> v < _ => apply Hrange; clear -Hc; destruct Hc as [-> | ->]; set_solver
       | |- _ ⊂ _ => eapply strict_subset_intro; [| |first [exact H12|exact H21]];
                     clear -Hca Hcb; unfold used; set_solver
       | |- _ ⊆ _ => clear -Hca Hcb; set_solver
       end.
Qed.
End make_step.

(** ** The queue holds valid steps *)

Section queue.
Context {BS : Type} `{NodeSet BS} {D : Type} `{Double D} {W : Type}.
Context (m_edge_filter : N -> bool) (m_join_cost : BS -> BS -> W -> option D * W).
Abbreviation Step := (SSimplificationStep BS D).
Abbreviation Simplifier := (CDPHyperGraphSimplifier BS D W).
Abbreviation Best := (SBestSimplification BS D).
Implicit Types (st : Simplifier) (b : Best) (s : Step).

(** The next [TryAdd] for the step would be refused. *)
Definition refused (order : list BS) (s : Step) : bool :=
  default false (WouldCreateCycle order (m_before s) (m_after s)).

(** A step between two edges, not refused, that is valid in the state. *)
Definition pair_step st x y s : Prop :=
  (m_before s = x /\ m_after s = y \/ m_before s = y /\ m_after s = x) /\
  step_ok (st_nodes st) (st_edges st) s.

Lemma MakeStep_ok st edge1 edge2 :
  base_ok st -> edge1 < edge_count st -> edge2 < edge_count st -> edge1 <> edge2 ->
  returns (fun '(o, st') => (exists w, st' = with_cost w st) /\
      match o with
      | Some s => pair_step st edge1 edge2 s /\ refused (s_order st) s = false
      | None => True
      end) (MakeStep m_edge_filter m_join_cost st edge1 edge2).
Proof.
  intros Hb H1' H2' Hne. unfold MakeStep, PbsUsedNodes.
  destruct (SimpEdge_Some st edge1 Hb H1') as (e1 & He1 & Hs1).
  destruct (SimpEdge_Some st edge2 Hb H2') as (e2 & He2 & Hs2).
  rewrite He1, He2. cbn [mbind option_bind]. unfold WouldCreateCycle.
  pose proof (bo_order_len _ Hb) as Hlen.
  destruct (lookup_lt_is_Some_2 (s_order st) (N.to_nat edge1)) as [o1 Ho1]; [lia|].
  destruct (lookup_lt_is_Some_2 (s_order st) (N.to_nat edge2)) as [o2 Ho2]; [lia|].
  rewrite Ho1, Ho2. cbn [mbind option_bind].
  case_if; [by eexists; split; [done|]; split; [exists (s_cost st); by rewrite with_cost_id|]|].
  breflect. unfold FSubset in *. rewrite ContainsAll_law, Union_law, Union_law in *. breflect.
  eapply returns_bind; [apply (make_candidates_ok m_join_cost st edge1 edge2 e1 e2); done|].
  intros [[[a|] [c|]] st'] (Hw & Ha & Hc); eexists; (split; [done|]); (split; [exact Hw|]); try done.
  assert (Hsel : forall s benefit, cand_ok st edge1 edge2 (Some s) ->
    pair_step st edge1 edge2 (MkStep benefit (m_before s) (m_after s) (m_change s)) /\
    refused (s_order st) (MkStep benefit (m_before s) (m_after s) (m_change s)) = false).
  { intros s benefit [Hor Hok]. split.
    - split; [done|]. destruct Hok. by split.
    - unfold refused, WouldCreateCycle. simpl.
      destruct Hor as [[-> ->]|[-> ->]]; rewrite ?Ho1, ?Ho2; simpl; done. }
  unfold OrderJoin. cbv zeta. destruct (dlt (m_benefit a) (m_benefit c)); by apply Hsel.
Qed.

(** Bookkeeping of the queue: [m_in_queue] tells what is in it, and an entry in
    it has a step. *)
Record queue_ok st : Prop := {
  qo_nodup : NoDup (s_queue st);
  qo_len : length (s_best st) = N.to_nat (edge_count st);
  qo_range : forall x, x ∈ s_queue st -> x < edge_count st;
  qo_flag : forall x b, (s_best st).[x] = Some b -> m_in_queue b = true <-> x ∈ s_queue st;
  qo_step : forall x b, (s_best st).[x] = Some b -> m_in_queue b = true -> is_Some (m_step b)
}.

(** Only the queue and the entries in [P] may differ. *)
Record q_frame (P : N -> Prop) st st' : Prop := {
  qf_graph : s_graph st' = s_graph st;
  qf_order : s_order st' = s_order st;
  qf_applied : s_applied st' = s_applied st;
  qf_unapplied : s_unapplied st' = s_unapplied st;
  qf_best : forall x, ~ P x -> (s_best st').[x] = (s_best st).[x]
}.

Lemma q_frame_refl P st : q_frame P st st.
Proof. by split. Qed.

Lemma q_frame_trans P st1 st2 st3 : q_frame P st1 st2 -> q_frame P st2 st3 -> q_frame P st1 st3.
Proof.
  intros [????] [????]. split; [congruence..|]. intros x Hx. by rewrite qf_best1, qf_best0.
Qed.

Lemma q_frame_weaken (P Q : N -> Prop) st st' :
  (forall x, P x -> Q x) -> q_frame P st st' -> q_frame Q st st'.
Proof. intros HPQ [????]. split; [done..|]. intros x Hx. apply qf_best0. auto. Qed.

(** The callback's state is no part of the bookkeeping. *)
Lemma with_cost_ok P w st : queue_ok st -> queue_ok (with_cost w st) /\ q_frame P st (with_cost w st).
Proof. intros [????]. by split; split. Qed.

Lemma base_ok_frame P st st' : q_frame P st st' -> base_ok st -> base_ok st'.
Proof.
  intros Hf [Hg Ho Hl]. split; [by rewrite (qf_graph _ _ _ Hf)|by rewrite (qf_order _ _ _ Hf)|].
  unfold edge_count. by rewrite (qf_order _ _ _ Hf), (qf_graph _ _ _ Hf).
Qed.

Lemma edge_count_frame P st st' : q_frame P st st' -> edge_count st' = edge_count st.
Proof. intros Hf. unfold edge_count. by rewrite (qf_graph _ _ _ Hf). Qed.

Lemma best_Some st x : queue_ok st -> x < edge_count st -> is_Some ((s_best st).[x]).
Proof. intros Hq Hx. apply lookup_lt_is_Some_2. rewrite (qo_len _ Hq). lia. Qed.

Lemma set_best_lookup x b (bs : list Best) y :
  N.of_nat (length bs) > x ->
  (set_best x b bs).[y] = if decide (y = x) then Some b else bs.[y].
Proof.
  intros Hx. unfold set_best. destruct (decide (y = x)) as [->|Hne].
  - apply list_lookup_insert_eq. lia.
  - apply list_lookup_insert_ne. lia.
Qed.

(** Changing entry [x] and its membership together keeps the bookkeeping. *)
Lemma with_queue_ok st x b q :
  queue_ok st -> x < edge_count st -> NoDup q ->
  (forall y, y <> x -> y ∈ q <-> y ∈ s_queue st) -> (m_in_queue b = true <-> x ∈ q) ->
  (m_in_queue b = true -> is_Some (m_step b)) ->
  let st' := with_queue (set_best x b (s_best st)) q st in
  queue_ok st' /\ q_frame (fun y => y = x) st st' /\ (s_best st').[x] = Some b.
Proof.
  intros Hq Hx Hnd Hoth Hin Hst st'.
  assert (Hl : forall y, (s_best st').[y] = if decide (y = x) then Some b else (s_best st).[y]).
  { intros y. apply set_best_lookup. rewrite (qo_len _ Hq). lia. }
  split_and!; [split; simpl| |by rewrite Hl, decide_True].
  - done.
  - unfold set_best. rewrite length_insert. apply (qo_len _ Hq).
  - intros y Hy. destruct (decide (y = x)) as [->|]; [done|]. apply (qo_range _ Hq), Hoth; done.
  - intros y c Hy. change ((s_best st').[y] = Some c) in Hy. rewrite Hl in Hy.
    destruct (decide (y = x)) as [->|]; [by injection Hy as <-|].
    rewrite Hoth by done. by apply (qo_flag _ Hq).
  - intros y c Hy. change ((s_best st').[y] = Some c) in Hy. rewrite Hl in Hy.
    destruct (decide (y = x)) as [->|]; [by injection Hy as <-|]. by apply (qo_step _ Hq y).
  - split; [done..|]. intros y Hy. by rewrite Hl, decide_False.
Qed.

Lemma UpdateQueue_ok st x b :
  queue_ok st -> (s_best st).[x] = Some b -> (is_Some (m_best_neighbor b) -> is_Some (m_step b)) ->
  exists st', UpdateQueue st x = Some st' /\ queue_ok st' /\ q_frame (fun y => y = x) st st' /\
    (s_best st').[x] = Some (MkBest (m_best_neighbor b) (m_step b)
                               (bool_decide (is_Some (m_best_neighbor b)))).
Proof.
  intros Hq Hb Hns. assert (Hx : x < edge_count st).
  { apply lookup_lt_Some in Hb. rewrite (qo_len _ Hq) in Hb. lia. }
  pose proof (qo_flag _ Hq x b Hb) as Hflag. pose proof (qo_nodup _ Hq) as Hnd.
  unfold UpdateQueue. rewrite Hb. cbn [mbind option_bind].
  destruct (m_in_queue b) eqn:Ein; cbn [negb].
  - assert (Hxq : x ∈ s_queue st) by (by apply Hflag).
    destruct (m_best_neighbor b) as [nb|] eqn:En.
    + eexists. split; [done|]. rewrite bool_decide_true by by eexists.
      assert (Eb : set_best x b (s_best st) = s_best st) by (by apply list_insert_id).
      set (q := filter _ _ ++ [x]).
      assert (Es : with_queue (s_best st) q st = with_queue (set_best x b (s_best st)) q st)
        by by rewrite Eb.
      rewrite Es. replace (MkBest (Some nb) (m_step b) true) with b
        by (destruct b; simpl in *; congruence).
      apply with_queue_ok; [done|done| | | |by apply (qo_step _ Hq x)].
      * apply NoDup_app. split_and!; [by apply NoDup_filter| |apply NoDup_singleton].
        intros y [? _]%list_elem_of_filter ->%list_elem_of_singleton. done.
      * intros y Hy. unfold q. rewrite elem_of_app, list_elem_of_filter, list_elem_of_singleton. naive_solver.
      * unfold q. rewrite elem_of_app, list_elem_of_singleton, Ein. by split; [right|].
    + eexists. split; [done|]. rewrite bool_decide_false by (by intros [??]).
      apply with_queue_ok; [done|done|by apply NoDup_filter| | |done].
      * intros y Hy. rewrite list_elem_of_filter. naive_solver.
      * rewrite list_elem_of_filter. naive_solver.
  - destruct (m_best_neighbor b) as [nb|] eqn:En.
    + eexists. split; [done|]. rewrite bool_decide_true by by eexists.
      assert (x ∉ s_queue st) by naive_solver.
      apply with_queue_ok; [done|done| | | |].
      * apply NoDup_app. split_and!; [done| |apply NoDup_singleton].
        by intros y Hy ->%list_elem_of_singleton.
      * intros y Hy. rewrite elem_of_app, list_elem_of_singleton. naive_solver.
      * simpl. rewrite elem_of_app, list_elem_of_singleton. by split; [right|].
      * intros _. apply Hns. by eexists.
    + exists st. split; [done|]. split; [done|]. split; [apply q_frame_refl|].
      rewrite bool_decide_false by (by intros [??]). rewrite Hb. f_equal. destruct b; simpl in *; congruence.
Qed.

Lemma TrySetStep_ok st s x nb b :
  queue_ok st -> (s_best st).[x] = Some b ->
  exists set st', TrySetStep st s x nb = Some (set, st') /\ queue_ok st' /\
    q_frame (fun y => y = x) st st' /\
    (if (set : bool) then (s_best st').[x] = Some (MkBest (Some nb) (Some s) true)
     else st' = st /\ is_Some (m_best_neighbor b) /\ m_in_queue b = true).
Proof.
  intros Hq Hb. assert (Hx : x < edge_count st).
  { apply lookup_lt_Some in Hb. rewrite (qo_len _ Hq) in Hb. lia. }
  unfold TrySetStep. rewrite Hb. cbn [mbind option_bind].
  assert (Hset : exists st', UpdateQueue (with_queue (set_best x (MkBest (Some nb) (Some s)
      (m_in_queue b)) (s_best st)) (s_queue st) st) x = Some st' /\ queue_ok st' /\
      q_frame (fun y => y = x) st st' /\
      (s_best st').[x] = Some (MkBest (Some nb) (Some s) true)).
  { destruct (with_queue_ok st x (MkBest (Some nb) (Some s) (m_in_queue b)) (s_queue st) Hq Hx
      (qo_nodup _ Hq)) as (Hq1 & Hf1 & Hb1); [done|exact (qo_flag _ Hq x b Hb)|by eexists|].
    destruct (UpdateQueue_ok _ x _ Hq1 Hb1) as (st' & Hu & Hq' & Hf' & Hb'); [by eexists|].
    exists st'. split_and!; [done|done|by eapply q_frame_trans|done]. }
  destruct (m_best_neighbor b) as [old_nb|] eqn:En; cbn [mbind option_bind].
  2: { destruct Hset as (st' & -> & ? & ? & ?). by exists true, st'. }
  destruct (m_in_queue b) eqn:Ein; cbn [negb mbind option_bind].
  2: { destruct Hset as (st' & -> & ? & ? & ?). by exists true, st'. }
  destruct (qo_step _ Hq x b Hb Ein) as [old Hold]. rewrite Hold. cbn [mbind option_bind].
  case_if.
  - destruct Hset as (st' & -> & ? & ? & ?). by exists true, st'.
  - exists false, st. split_and!; [done|done|apply q_frame_refl|done|by eexists|done].
Qed.

(** Building a step changes the callback's state only; the step is one of the
    resulting state. *)
Lemma MakeStep_frame st edge1 edge2 :
  base_ok st -> queue_ok st -> edge1 < edge_count st -> edge2 < edge_count st -> edge1 <> edge2 ->
  returns (fun '(o, st') => queue_ok st' /\ q_frame (fun _ => False) st st' /\
      match o with
      | Some s => pair_step st' edge1 edge2 s /\ refused (s_order st') s = false
      | None => True
      end) (MakeStep m_edge_filter m_join_cost st edge1 edge2).
Proof.
  intros Hb Hq H1' H2' Hne. eapply returns_mono; [by apply MakeStep_ok|].
  intros [o st'] [[w ->] Ho]. destruct (with_cost_ok (fun _ => False) w st Hq) as [? ?].
  split_and!; [done|done|]. by destruct o.
Qed.

(** ** ProcessNeighbors refreshes every entry its edge is part of *)

Lemma loop_inv {A} (I : list N -> A -> Prop) (body : N -> A -> option A) l a :
  I [] a ->
  (forall done x rest a, l = done ++ x :: rest -> I done a -> returns (I (done ++ [x])) (body x a)) ->
  returns (I l) (loop body l a).
Proof.
  intros HI Hb. assert (Hg : forall done rest a, l = done ++ rest -> I done a ->
    returns (I l) (loop body rest a)); [|by apply (Hg [])].
  intros done rest. revert done. induction rest as [|x rest IH]; intros done a' Hl Ha; cbn [loop].
  - rewrite app_nil_r in Hl. subst. by eexists.
  - eapply returns_bind; [by eapply Hb|]. intros a2 Ha2. eapply IH; [|done].
    by rewrite Hl, <-app_assoc.
Qed.

Lemma elem_of_N_range a c i : i ∈ N_range a c <-> a <= i < c.
Proof.
  unfold N_range. rewrite list_elem_of_fmap. setoid_rewrite elem_of_seq. split.
  - intros (k & -> & ?). lia.
  - intros ?. exists (N.to_nat (i - a)). lia.
Qed.

Lemma N_range_empty a c : c <= a -> N_range a c = [].
Proof. intros ?. unfold N_range. by replace (N.to_nat (c - a)) with 0%nat by lia. Qed.

Lemma pair_step_graph st st' x y s :
  s_graph st' = s_graph st -> pair_step st x y s -> pair_step st' x y s.
Proof. intros Hg. unfold pair_step, st_nodes, st_edges. by rewrite Hg. Qed.

Lemma pair_step_comm st x y s : pair_step st x y s -> pair_step st y x s.
Proof. intros [? ?]. split; [tauto|done]. Qed.

(** The neighbor of entry [x] comes with a valid step; with [fresh], one that is
    not refused. *)
Definition neighbor_ok (fresh : bool) st x b : Prop :=
  forall y, m_best_neighbor b = Some y -> exists s, m_step b = Some s /\ x < y /\
    y < edge_count st /\ pair_step st x y s /\ (fresh = true -> refused (s_order st) s = false).

(** An entry in the queue has a neighbor, with a valid step. *)
Definition entry_ok (fresh : bool) st x : Prop :=
  forall b, (s_best st).[x] = Some b -> m_in_queue b = true ->
    is_Some (m_best_neighbor b) /\ neighbor_ok fresh st x b.

Lemma neighbor_ok_frame fresh st st' x b :
  s_graph st' = s_graph st -> s_order st' = s_order st ->
  neighbor_ok fresh st x b -> neighbor_ok fresh st' x b.
Proof.
  intros Hg Ho Hn y Hy. destruct (Hn y Hy) as (s & ? & ? & ? & ? & ?). exists s.
  unfold edge_count. rewrite Hg, Ho. split_and!; [done|done|done|by apply (pair_step_graph st)|done].
Qed.

Lemma entry_ok_frame fresh P st st' x :
  q_frame P st st' -> ~ P x -> entry_ok fresh st x -> entry_ok fresh st' x.
Proof.
  intros Hf Hx He b Hb Hq. rewrite (qf_best _ _ _ Hf x Hx) in Hb.
  destruct (He b Hb Hq) as [? Hn]. split; [done|].
  by apply (neighbor_ok_frame _ st); [apply Hf|apply Hf|].
Qed.

Lemma entry_ok_weaken st x : entry_ok true st x -> entry_ok false st x.
Proof.
  intros He b Hb Hq. destruct (He b Hb Hq) as [? Hn]. split; [done|]. intros y Hy.
  destruct (Hn y Hy) as (s & ? & ? & ? & ? & _). by exists s.
Qed.

(** The second half of [ProcessNeighbors] recomputes the entry of its edge. *)
Lemma above_part st edge1 b lo :
  base_ok st -> queue_ok st -> edge1 < edge_count st -> edge1 < lo -> (s_best st).[edge1] = Some b ->
  returns (fun st' => queue_ok st' /\ q_frame (fun y => y = edge1) st st' /\ entry_ok true st' edge1)
    (st ← loop (fun edge2 st => neighbors_above m_edge_filter m_join_cost edge1 edge2 st)
            (N_range lo (edge_count st))
            (with_queue (set_best edge1 (MkBest None (m_step b) (m_in_queue b)) (s_best st))
               (s_queue st) st);
     UpdateQueue st edge1).
Proof.
  intros Hb Hq H1' Hlo Hbest.
  destruct (with_queue_ok st edge1 (MkBest None (m_step b) (m_in_queue b)) (s_queue st) Hq H1'
    (qo_nodup _ Hq)) as (Hq1 & Hf1 & Hb1); [done|exact (qo_flag _ Hq _ b Hbest)|
    exact (qo_step _ Hq _ b Hbest)|].
  set (st1 := with_queue _ _ _) in *.
  set (J := fun (_ : list N) st2 => queue_ok st2 /\ q_frame (fun y => y = edge1) st st2 /\
    exists b2, (s_best st2).[edge1] = Some b2 /\ neighbor_ok true st2 edge1 b2).
  assert (HJ : forall dn st2 st3, J dn st2 -> queue_ok st3 -> q_frame (fun _ => False) st2 st3 -> J dn st3).
  { intros dn st2 st3 (Hq2 & Hf2 & b2 & Hb2 & Hn2) Hq3 Hf3. split_and!; [done| |].
    - eapply q_frame_trans; [done|]. by eapply q_frame_weaken; [|done].
    - exists b2. rewrite (qf_best _ _ _ Hf3) by tauto. split; [done|].
      by apply (neighbor_ok_frame true st2); [apply Hf3|apply Hf3|]. }
  eapply returns_bind; [apply (loop_inv J)|].
  - split_and!; [done|done|]. by exists (MkBest None (m_step b) (m_in_queue b)).
  - intros dn e2 rest st0 Hl HJ0.
    assert (He2 : lo <= e2 < edge_count st)
      by (apply elem_of_N_range; rewrite Hl; apply elem_of_app; right; left).
    unfold neighbors_above. eapply returns_bind.
    { pose proof (edge_count_frame _ _ _ (proj1 (proj2 HJ0))) as Hc0.
      apply MakeStep_frame; [by eapply base_ok_frame; [apply HJ0|]|apply HJ0|by rewrite Hc0|
        rewrite Hc0; lia|lia]. }
    intros [o st2] (Hq2 & Hfw & Hs). pose proof (HJ _ _ _ HJ0 Hq2 Hfw) as HJ2. clear dependent st0.
    destruct o as [s|]; [|by eexists]. destruct HJ2 as (_ & Hf2 & b2 & Hb2 & Hn2).
    pose proof (edge_count_frame _ _ _ Hf2) as Hc2. destruct Hs as [Hps Hrf].
    destruct (TrySetStep_ok st2 s edge1 e2 b2 Hq2 Hb2) as (set & st3 & -> & Hq3 & Hf3 & Hres).
    cbn [mbind option_bind]. eexists. split; [done|].
    split_and!; [done|by eapply q_frame_trans|]. destruct set.
    + eexists. split; [done|]. intros y [= <-]. exists s. split; [done|].
      rewrite (edge_count_frame _ _ _ Hf3), Hc2. split; [lia|]. split; [lia|].
      split; [by apply (pair_step_graph st2); [apply Hf3|]|].
      intros _. by rewrite (qf_order _ _ _ Hf3).
    + destruct Hres as [-> _]. by exists b2.
  - intros st2 (Hq2 & Hf2 & b2 & Hb2 & Hn2).
    destruct (UpdateQueue_ok st2 edge1 b2 Hq2 Hb2) as (st3 & -> & Hq3 & Hf3 & Hb3).
    { intros [y Hy]. destruct (Hn2 y Hy) as (s & -> & _). by eexists. }
    eexists. split; [done|]. split_and!; [done|by eapply q_frame_trans|].
    intros b3 Hb3' Hin. rewrite Hb3 in Hb3'. injection Hb3' as <-. simpl in *. breflect.
    split; [done|]. intros y Hy. simpl in *.
    apply (neighbor_ok_frame true st2 st3 edge1 b2); [apply Hf3|apply Hf3|done|done].
Qed.

(** The recursive call, and the calls of [InitFirstStep]: only the second half. *)
Lemma ProcessNeighbors_above fuel st edge1 :
  base_ok st -> queue_ok st -> edge1 < edge_count st ->
  returns (fun st' => queue_ok st' /\ q_frame (fun y => y = edge1) st st' /\ entry_ok true st' edge1)
    (ProcessNeighbors m_edge_filter m_join_cost (S fuel) edge1 (edge1 + 1) (edge_count st) st).
Proof.
  intros Hb Hq H1'. cbn [ProcessNeighbors]. rewrite (N_range_empty (edge1 + 1) (N.min _ _)) by lia. cbn [loop mbind option_bind].
  destruct (best_Some st edge1 Hq H1') as [b Hbest]. rewrite Hbest. cbn [mbind option_bind]. cbv zeta.
  apply above_part; [done..|lia|done].
Qed.

Lemma ProcessNeighbors_all st edge1 :
  base_ok st -> queue_ok st -> edge1 < edge_count st ->
  (forall x b, (s_best st).[x] = Some b -> x <> edge1 ->
     (x < edge1 -> m_best_neighbor b <> Some edge1) -> entry_ok false st x) ->
  returns (fun st' => queue_ok st' /\ q_frame (fun _ => True) st st' /\
      forall x, entry_ok false st' x /\ ((s_best st').[x] = (s_best st).[x] \/ entry_ok true st' x))
    (process_all m_edge_filter m_join_cost edge1 0 (edge_count st) st).
Proof.
  intros Hb Hq H1' Hold. unfold process_all. cbn [ProcessNeighbors].
  rewrite N.min_r by lia. rewrite N.max_r by lia.
  set (J := fun (dn : list N) st2 => queue_ok st2 /\ q_frame (fun y => y ∈ dn) st st2 /\
    forall x, x ∈ dn -> entry_ok false st2 x /\
      ((s_best st2).[x] = (s_best st).[x] \/ entry_ok true st2 x)).
  assert (HJ : forall dn st2 st3, J dn st2 -> queue_ok st3 -> q_frame (fun _ => False) st2 st3 -> J dn st3).
  { intros dn st2 st3 (Hq2 & Hf2 & Hd2) Hq3 Hf3. split_and!; [done| |].
    - eapply q_frame_trans; [done|]. by eapply q_frame_weaken; [|done].
    - intros x Hx. destruct (Hd2 x Hx) as [Hx1 Hx2]. rewrite (qf_best _ _ _ Hf3) by tauto.
      split; [by apply (entry_ok_frame _ _ _ _ _ Hf3); [intros []|]|].
      destruct Hx2; [by left|right]. by apply (entry_ok_frame _ _ _ _ _ Hf3); [intros []|]. }
  eapply returns_bind; [apply (loop_inv J)|].
  - split_and!; [done|apply q_frame_refl|]. by intros x ?%elem_of_nil.
  - intros dn e2 rest st0 Hl HJ0.
    assert (He2 : 0 <= e2 < edge1)
      by (apply elem_of_N_range; rewrite Hl; apply elem_of_app; right; left).
    assert (Hnd : NoDup (dn ++ e2 :: rest)).
    { rewrite <-Hl. unfold N_range. apply NoDup_fmap_2; [|apply NoDup_seq]. intros ? ?. lia. }
    assert (He2d : e2 ∉ dn) by (apply NoDup_app in Hnd as (_ & Hd & _); intros ?%Hd; set_solver).
    eapply returns_bind.
    { pose proof (edge_count_frame _ _ _ (proj1 (proj2 HJ0))) as Hc0.
      apply MakeStep_frame; [by eapply base_ok_frame; [apply HJ0|]|apply HJ0|rewrite Hc0; lia|
        rewrite Hc0; lia|lia]. }
    intros [o st2] (Hq2 & Hfw & Hs). destruct (HJ _ _ _ HJ0 Hq2 Hfw) as (_ & Hf2 & Hd2).
    clear dependent st0. clear HJ.
    pose proof (edge_count_frame _ _ _ Hf2) as Hc2.
    assert (Hb2 : base_ok st2) by (by eapply base_ok_frame).
    destruct (best_Some st2 e2 Hq2) as [b2 Hbe2]; [rewrite Hc2; lia|].
    assert (Hstep : forall st3, queue_ok st3 -> q_frame (fun y => y = e2) st2 st3 ->
      entry_ok false st3 e2 -> ((s_best st3).[e2] = (s_best st2).[e2] \/ entry_ok true st3 e2) ->
      J (dn ++ [e2]) st3).
    { intros st3 Hq3 Hf3 He3 Hor. split; [done|].
      assert (Hf23 : q_frame (fun y => y ∈ dn ++ [e2]) st st3).
      { eapply q_frame_trans; [eapply q_frame_weaken; [|exact Hf2]|
          eapply q_frame_weaken; [|exact Hf3]]; intros x ?; rewrite elem_of_app; [by left|right].
        by apply list_elem_of_singleton. }
      split; [done|]. intros x [Hx| ->%list_elem_of_singleton]%elem_of_app.
      - assert (x <> e2) by congruence. destruct (Hd2 x Hx) as [Hx1 Hx2].
        split; [by apply (entry_ok_frame _ _ _ _ _ Hf3)|]. rewrite (qf_best _ _ _ Hf3) by done.
        destruct Hx2; [by left|right]. by apply (entry_ok_frame _ _ _ _ _ Hf3).
      - split; [done|]. rewrite (qf_best _ _ _ Hf2 e2 He2d) in Hor. done. }
    assert (Hrest : returns (J (dn ++ [e2]))
      (best ← (s_best st2).[e2];
       if bool_decide (m_best_neighbor best = Some edge1) then
         ProcessNeighbors m_edge_filter m_join_cost 1 e2 (e2 + 1) (edge_count st2) st2
       else Some st2)).
    { rewrite Hbe2. cbn [mbind option_bind]. case_bool_decide as Hnb.
      - eapply returns_mono; [apply ProcessNeighbors_above; [done|done|rewrite Hc2; lia]|].
        intros st3 (Hq3 & Hf3 & He3). apply Hstep; [done|done|by apply entry_ok_weaken|by right].
      - eexists. split; [done|]. apply Hstep; [done|apply q_frame_refl| |by left].
        rewrite (qf_best _ _ _ Hf2 e2 He2d) in Hbe2.
        eapply entry_ok_frame; [exact Hf2|done|]. apply (Hold e2 b2); [done|lia|done]. }
    destruct o as [s|]; [|exact Hrest]. destruct Hs as [Hps Hrf].
    destruct (TrySetStep_ok st2 s e2 edge1 b2 Hq2 Hbe2) as (set & st3 & -> & Hq3 & Hf3 & Hres).
    cbn [mbind option_bind]. destruct set; [|destruct Hres as [-> _]; exact Hrest].
    eexists. split; [done|].
    assert (He3 : entry_ok true st3 e2).
    { intros b3 Hb3 _. rewrite Hres in Hb3. injection Hb3 as <-. split; [by eexists|].
      intros y [= <-]. exists s. split; [done|]. rewrite (edge_count_frame _ _ _ Hf3), Hc2.
      split; [lia|]. split; [done|]. split.
      - apply (pair_step_graph st2); [apply Hf3|]. by apply pair_step_comm.
      - intros _. by rewrite (qf_order _ _ _ Hf3). }
    apply Hstep; [done|done|by apply entry_ok_weaken|by right].
  - intros st2 (Hq2 & Hf2 & Hd2). pose proof (edge_count_frame _ _ _ Hf2) as Hc2.
    destruct (best_Some st2 edge1 Hq2) as [b2 Hbe2]; [by rewrite Hc2|].
    rewrite Hbe2. cbn [mbind option_bind]. cbv zeta. rewrite <-Hc2. eapply returns_mono.
    { apply above_part; [by eapply base_ok_frame|done|by rewrite Hc2|lia|done]. }
    intros st3 (Hq3 & Hf3 & He3). split; [done|].
    assert (Hf13 : q_frame (fun _ => True) st st3).
    { eapply q_frame_trans; eapply q_frame_weaken; [|exact Hf2| |exact Hf3]; done. }
    split; [done|]. intros x. destruct (decide (x = edge1)) as [->|Hxe].
    { split; [by apply entry_ok_weaken|by right]. }
    rewrite (qf_best _ _ _ Hf3) by done. destruct (decide (x < edge1)) as [Hlt|Hge].
    + destruct (Hd2 x) as [Hx1 Hx2]; [apply elem_of_N_range; lia|].
      split; [by apply (entry_ok_frame _ _ _ _ _ Hf3)|].
      destruct Hx2; [by left|right]. by apply (entry_ok_frame _ _ _ _ _ Hf3).
    + assert (Hxd : x ∉ N_range 0 edge1) by (rewrite elem_of_N_range; lia).
      rewrite (qf_best _ _ _ Hf2 x Hxd). split; [|by left]. intros b3 Hb3 Hin.
      rewrite (qf_best _ _ _ Hf3), (qf_best _ _ _ Hf2 x Hxd) in Hb3 by done.
      assert (He : entry_ok false st x) by (apply (Hold x b3); [done|done|lia]).
      destruct (He b3 Hb3 Hin) as [? Hn]. split; [done|].
      by apply (neighbor_ok_frame _ st); [apply Hf13|apply Hf13|].
Qed.
End queue.

(** ** The timeline of steps *)

Section timeline.
Context {BS : Type} `{NodeSet BS} {D : Type} `{Double D} {W : Type}.
Context (m_pair_budget : N) (m_pair_filter : option (BS -> BS -> N -> bool)).
Context (m_edge_filter : N -> bool) (m_join_cost : BS -> BS -> W -> option D * W).
Abbreviation Step := (SSimplificationStep BS D).
Abbreviation Simplifier := (CDPHyperGraphSimplifier BS D W).
Implicit Types (st : Simplifier) (s : Step).

(** The edges once every undone step is applied again: what the queued steps
    were computed on. *)
Definition end_edges st : list (SEdge BS) := run_steps (st_edges st) (s_unapplied st).
Definition end_state st : Simplifier :=
  with_graph (MkGraph (m_nodes (s_graph st)) (end_edges st)) st.

(** The steps taken so far, in order, undone ones included. *)
Definition timeline st : list Step := reverse (s_applied st) ++ s_unapplied st.

Record simp_inv (n : N) (E0 : list (SEdge BS)) st : Prop := {
  si_base : base_ok st;
  si_nodes : st_nodes st = n;
  si_start : edges_wf n E0;
  si_chain : chain n E0 (timeline st);
  si_edges : st_edges st = run_steps E0 (reverse (s_applied st));
  si_queue : queue_ok st;
  si_entries : forall x, entry_ok false (end_state st) x
}.

Lemma end_state_fresh st : s_unapplied st = [] -> end_state st = st.
Proof.
  intros Hu. unfold end_state, end_edges. rewrite Hu. destruct st as [[ns es] ? ? ? ? ? ?]. done.
Qed.

(** An entry is judged by the node count and the edges only. *)
Lemma entry_ok_data st st' x :
  s_best st' = s_best st -> st_nodes st' = st_nodes st -> st_edges st' = st_edges st ->
  entry_ok false st x -> entry_ok false st' x.
Proof.
  intros Hb Hn He Hx b Hbx Hin. rewrite Hb in Hbx. destruct (Hx b Hbx Hin) as [? Hnb].
  split; [done|]. intros y Hy. destruct (Hnb y Hy) as (s & ? & ? & Hlt & Hp & _). exists s.
  split_and!; [done|done| | |done].
  - revert Hlt. unfold edge_count, LogicalEdgeCount, DirectedEdgeCount.
    unfold st_edges in He. by rewrite He.
  - revert Hp. unfold pair_step. by rewrite Hn, He.
Qed.

Lemma queue_top_elem st x : queue_top st = Some x -> x ∈ s_queue st.
Proof.
  unfold queue_top. destruct (s_queue st) as [|z q]; [done|]. intros [= <-].
  assert (Hf : forall l a, fold_left (fun top y => if best_less st top y then y else top) l a ∈ a :: l).
  { induction l as [|y l IH]; intros a; simpl; [left|].
    specialize (IH (if best_less st a y then y else a)).
    apply elem_of_cons in IH as [-> |?]; [|by do 2 right].
    destruct (best_less st a y); [right; left|left]. }
  apply Hf.
Qed.

Definition refused_at st (x : N) : bool :=
  match (s_best st).[x] ≫= m_step with Some s => refused (s_order st) s | None => false end.

(** Queued entries whose step would be refused: each round of the fetch loop
    that goes on has removed one. *)
Definition refused_count st : nat := length (filter (fun x => refused_at st x = true) (s_queue st)).

Lemma refused_count_lt st st' x :
  NoDup (s_queue st') -> x ∈ s_queue st -> refused_at st x = true ->
  (forall z, z ∈ s_queue st' -> refused_at st' z = true ->
     z ∈ s_queue st /\ z <> x /\ refused_at st z = true) ->
  (refused_count st' < refused_count st)%nat.
Proof.
  intros Hnd Hx Hrx Hsub. unfold refused_count. apply (Nat.lt_le_trans _ (length
    (x :: filter (fun z => refused_at st' z = true) (s_queue st')))); [simpl; lia|].
  apply submseteq_length, NoDup_submseteq.
  - constructor; [|by apply NoDup_filter]. intros [Hr Hz]%list_elem_of_filter.
    destruct (Hsub x Hz Hr) as (_ & ? & _). done.
  - intros z [-> |[Hr Hz]%list_elem_of_filter]%elem_of_cons; apply list_elem_of_filter; [done|].
    destruct (Hsub z Hz Hr) as (? & _ & ?). done.
Qed.

Lemma refused_count_bound st : queue_ok st -> (refused_count st < S (length (s_best st)))%nat.
Proof.
  intros Hq. unfold refused_count. pose proof (length_filter (fun x => refused_at st x = true) (s_queue st)) as Hl.
  assert (length (s_queue st) <= N.to_nat (edge_count st))%nat; [|rewrite (qo_len _ Hq); lia].
  rewrite <-(size_list_to_set (C := gset N)) by apply Hq.
  apply size_below. intros v Hv%elem_of_list_to_set. by apply (qo_range _ Hq).
Qed.

(** The popped state, before its step is tried. *)
Lemma pop_ok st x b :
  queue_ok st -> x ∈ s_queue st -> (s_best st).[x] = Some b -> (forall z, entry_ok false st z) ->
  let st' := with_queue (set_best x (MkBest (m_best_neighbor b) (m_step b) false) (s_best st))
               (filter (fun y => y <> x) (s_queue st)) st in
  queue_ok st' /\ q_frame (fun y => y = x) st st' /\ (forall z, entry_ok false st' z) /\
  (forall z, z ∈ s_queue st' -> z ∈ s_queue st /\ z <> x).
Proof.
  intros Hq Hx Hb He st'.
  destruct (with_queue_ok st x (MkBest (m_best_neighbor b) (m_step b) false)
    (filter (fun y => y <> x) (s_queue st)) Hq (qo_range _ Hq x Hx)) as (Hq' & Hf' & Hb').
  - apply NoDup_filter, Hq.
  - intros y Hy. rewrite list_elem_of_filter. naive_solver.
  - rewrite list_elem_of_filter. naive_solver.
  - done.
  - split_and!; [done|done| |].
    + intros z. destruct (decide (z = x)) as [->|Hz].
      * intros c Hc Hin. unfold st' in Hc. rewrite Hb' in Hc. injection Hc as <-. done.
      * by apply (entry_ok_frame _ _ _ _ _ Hf').
    + intros z [? ?]%list_elem_of_filter. done.
Qed.

Definition fetched st (res : option Step * Simplifier) : Prop :=
  let '(o, st') := res in
  base_ok st' /\ queue_ok st' /\ s_graph st' = s_graph st /\ s_applied st' = s_applied st /\
  s_unapplied st' = s_unapplied st /\ (forall x, entry_ok false st' x) /\
  match o with Some s => step_ok (st_nodes st) (st_edges st) s | None => True end.

Lemma fetch_loop_ok fuel st :
  base_ok st -> queue_ok st -> (forall x, entry_ok false st x) -> (refused_count st < fuel)%nat ->
  returns (fetched st) (fetch_loop m_edge_filter m_join_cost fuel st).
Proof.
  revert st. induction fuel as [|fuel IH]; intros st Hb Hq He Hf; [lia|]. cbn [fetch_loop].
  destruct (queue_top st) as [x|] eqn:Et; [|by eexists].
  apply queue_top_elem in Et. pose proof (qo_range _ Hq x Et) as Hxr.
  destruct (best_Some st x Hq Hxr) as [b Hbx]. rewrite Hbx. cbn [mbind option_bind]. cbv zeta.
  assert (Hin : m_in_queue b = true) by (by apply (qo_flag _ Hq x b Hbx)).
  destruct (He x b Hbx Hin) as [[y Hy] Hn]. destruct (Hn y Hy) as (s & Hs & Hxy & Hyr & [Hpair Hok] & _).
  destruct (pop_ok st x b Hq Et Hbx He) as (Hq1 & Hf1 & He1 & Hsub1).
  rewrite Hy, Hs in *. set (st1 := with_queue _ _ _) in *.
  destruct (bo_order _ Hb) as [C HC]. pose proof (bo_order_len _ Hb) as Hlen.
  assert (Hbef : m_before s < edge_count st) by (destruct Hpair as [[-> _]|[-> _]]; lia).
  assert (Haft : m_after s < edge_count st) by (destruct Hpair as [[_ ->]|[_ ->]]; lia).
  destruct (TryAdd_inv (s_order st) C (m_before s) (m_after s) HC) as
    (added & o' & Ho' & Hol & Hcyc & Hsame & Hoi); [lia|lia|].
  change (s_order st1) with (s_order st). rewrite Ho'. cbn [mbind option_bind].
  assert (Hb1 : base_ok st1) by (by eapply base_ok_frame).
  destruct added.
  - eexists. split; [done|]. split_and!; try done.
    + split; [apply Hb|by exists ((m_before s, m_after s) :: C)|]. simpl. rewrite Hol. done.
    + destruct Hq1. by split.
    + intros z. apply (entry_ok_data st1); [done..|apply He1].
  - specialize (Hsame eq_refl). subst o'.
    assert (Heta : with_order (s_order st) st1 = st1) by done. rewrite Heta.
    change (edge_count st1) with (edge_count st) in *.
    eapply returns_bind.
    { change (edge_count st) with (edge_count st1).
      apply ProcessNeighbors_all; [done|done|done|]. intros z c _ _ _. apply He1. }
    intros st2 (Hq2 & Hf2 & Hall). eapply returns_mono.
    { apply IH; [by eapply base_ok_frame|done|intros z; apply Hall|].
      assert (Href : refused_at st x = true).
      { unfold refused_at. rewrite Hbx. cbn [mbind option_bind]. rewrite Hs.
        unfold refused. unfold TryAdd in Ho'.
        destruct (WouldCreateCycle (s_order st) (m_before s) (m_after s)) as [[]|]; [done| |done].
        cbn [mbind option_bind] in Ho'. destruct ((s_order st).[m_before s]); [|done].
        cbn [mbind option_bind] in Ho'. case_match; [done|].
        by destruct (close_loop _ _ _ _). }
      eapply Nat.lt_le_trans; [|apply Nat.lt_succ_r; exact Hf].
      apply (refused_count_lt st st2 x); [apply Hq2|done|done|]. intros z Hz Hrz.
      destruct (best_Some st2 z Hq2) as [c Hc]; [by apply (qo_range _ Hq2)|].
      destruct (Hall z) as [_ [Heq|Hfresh]].
      - rewrite Hc in Heq. symmetry in Heq.
        assert (Hz1 : z ∈ s_queue st1).
        { apply (qo_flag _ Hq1 z c Heq). by apply (qo_flag _ Hq2 z c Hc). }
        destruct (Hsub1 z Hz1) as [Hzq Hzx]. split_and!; [done|done|].
        revert Hrz. unfold refused_at. rewrite Hc, (qf_order _ _ _ Hf2).
        rewrite (qf_best _ _ _ Hf1 z Hzx) in Heq. by rewrite Heq.
      - exfalso. assert (Hzc : m_in_queue c = true) by (by apply (qo_flag _ Hq2 z c Hc)).
        destruct (Hfresh c Hc Hzc) as [[w Hw] Hnb]. destruct (Hnb w Hw) as (s' & Hs' & _ & _ & _ & Hnr).
        unfold refused_at in Hrz. rewrite Hc in Hrz. cbn [mbind option_bind] in Hrz.
        rewrite Hs', Hnr in Hrz by done. done. }
    intros [o st3] (? & ? & Hg & Ha & Hu & ? & Ho). unfold fetched.
    split_and!; [done|done|by rewrite Hg, (qf_graph _ _ _ Hf2)|by rewrite Ha, (qf_applied _ _ _ Hf2)|
      by rewrite Hu, (qf_unapplied _ _ _ Hf2)|done|].
    destruct o as [s'|]; [|done]. revert Ho. unfold st_nodes, st_edges.
    by rewrite (qf_graph _ _ _ Hf2).
Qed.

(** ** Applying and undoing one step *)

Lemma logical_count_edges st : logical_count (st_edges st) = edge_count st.
Proof. done. Qed.

Lemma ModifyEdge_apply st s :
  graph_wf (s_graph st) -> step_ok (st_nodes st) (st_edges st) s -> exists g,
    ModifyEdge s true st = Some (with_graph g st) /\ graph_wf g /\
    NodeCount g = st_nodes st /\ m_edges g = app_step (st_edges st) s.
Proof.
  intros Hg Hs. pose proof (graph_edges_wf _ Hg) as Hew.
  destruct (app_step_ok _ _ s Hew Hs) as (id & Hid & Ha & _). cbv zeta in *.
  destruct (ReplaceEdge_ok (s_graph st) (m_after s) (m_new_left (m_change s)) (m_new_right (m_change s))
    _ Hg (so_after _ _ _ Hs) (so_sides _ _ _ Hs) Hid) as (g & Hr & Hwf & Hn & He).
  exists g. unfold ModifyEdge. cbv zeta. rewrite (so_edge _ _ _ Hs), Hr. cbn [mbind option_bind].
  split_and!; [done|done|done|]. unfold st_edges. by rewrite He, Ha.
Qed.

Lemma ModifyEdge_undo st s E :
  graph_wf (s_graph st) -> edges_wf (st_nodes st) E -> step_ok (st_nodes st) E s ->
  st_edges st = app_step E s -> exists g,
    ModifyEdge s false st = Some (with_graph g st) /\ graph_wf g /\
    NodeCount g = st_nodes st /\ m_edges g = E.
Proof.
  intros Hg HE Hs Hst. destruct (app_step_ok _ _ s HE Hs) as (id & Hid & Ha & Hwf' & Hlen & Hback).
  cbv zeta in *. set (old := MkEdge _ _ id) in *.
  assert (Hlc : logical_count (app_step E s) = logical_count E) by (unfold logical_count; by rewrite Hlen).
  assert (Hsides : sides_ok (st_nodes st) (m_old_left (m_change s)) (m_old_right (m_change s))).
  { pose proof (ew_sides _ _ HE) as Hf. rewrite Forall_lookup in Hf. apply (Hf _ _ Hid). }
  assert (Hk : m_after s < LogicalEdgeCount (s_graph st)).
  { change (m_after s < logical_count (st_edges st)). rewrite Hst, Hlc. apply Hs. }
  assert (Hcur : Edge (s_graph st) (m_after s * 2) = Some (new_edge s old)).
  { unfold Edge. change (m_edges (s_graph st)) with (st_edges st). rewrite Hst, Ha.
    apply replaced_fwd, Hs. }
  destruct (ReplaceEdge_ok (s_graph st) (m_after s) _ _ _ Hg Hk Hsides Hcur) as (g & Hr & Hwf & Hn & He).
  exists g. unfold ModifyEdge. cbv zeta. rewrite (so_edge _ _ _ Hs), Hr. cbn [mbind option_bind].
  split_and!; [done|done|done|]. rewrite He. change (m_edges (s_graph st)) with (st_edges st).
  rewrite Hst. exact Hback.
Qed.

Lemma timeline_push st s :
  s_unapplied st = [] -> reverse (s :: s_applied st) ++ [] = timeline st ++ [s].
Proof. intros Hu. unfold timeline. by rewrite Hu, reverse_cons, !app_nil_r. Qed.

(** What a call of [ApplyStep] does to the stacks. *)
Definition applied_one st (res : bool * Simplifier) : Prop :=
  let '(ok, st') := res in
  if ok then exists s, s_applied st' = s :: s_applied st /\
    (s_unapplied st = s :: s_unapplied st' \/ s_unapplied st = [] /\ s_unapplied st' = [])
  else s_unapplied st = [] /\ s_unapplied st' = [] /\ s_applied st' = s_applied st /\
       s_graph st' = s_graph st.

Lemma base_ok_graph st g :
  base_ok st -> graph_wf g -> length (m_edges g) = length (st_edges st) -> base_ok (with_graph g st).
Proof.
  intros [_ Ho Hl] Hg Hlen. split; [done|done|]. simpl. rewrite Hl.
  unfold edge_count, LogicalEdgeCount, DirectedEdgeCount, st_edges in *. simpl. by rewrite Hlen.
Qed.

Lemma queue_ok_graph st g :
  queue_ok st -> length (m_edges g) = length (st_edges st) -> queue_ok (with_graph g st).
Proof.
  intros [? Hl Hr ? ?] Hlen.
  assert (Hc : edge_count (with_graph g st) = edge_count st)
    by (unfold edge_count, LogicalEdgeCount, DirectedEdgeCount, st_edges in *; simpl; by rewrite Hlen).
  split; rewrite ?Hc; done.
Qed.

(** Taking back a step that was undone. *)
Lemma apply_redo n E0 st s u :
  simp_inv n E0 st -> s_unapplied st = s :: u -> exists g,
    ModifyEdge s true (with_stacks (s_applied st) u st) =
      Some (with_graph g (with_stacks (s_applied st) u st)) /\
    simp_inv n E0 (with_stacks (s :: s_applied st) u (with_graph g (with_stacks (s_applied st) u st))).
Proof.
  intros [Hb Hn HE0 Hch Hed Hq Hen] Hu.
  assert (Hs : step_ok n (st_edges st) s).
  { unfold timeline in Hch. rewrite Hu in Hch. apply chain_app in Hch as [_ [Hs _]].
    by rewrite Hed. }
  rewrite <-Hn in Hs.
  destruct (ModifyEdge_apply (with_stacks (s_applied st) u st) s (bo_graph _ Hb) Hs)
    as (g & Hm & Hg & Hnc & Hme).
  change (st_edges (with_stacks _ _ st)) with (st_edges st) in Hme.
  change (st_nodes (with_stacks _ _ st)) with (st_nodes st) in Hnc.
  assert (Hlen : length (m_edges g) = length (st_edges st)).
  { rewrite Hme. by destruct (app_step_ok _ _ s (graph_edges_wf _ (bo_graph _ Hb)) Hs)
      as (id & _ & _ & _ & Hl & _). }
  exists g. split; [done|].
  assert (Htl : timeline (with_stacks (s :: s_applied st) u
      (with_graph g (with_stacks (s_applied st) u st))) = timeline st).
  { unfold timeline. simpl. by rewrite Hu, reverse_cons, <-app_assoc. }
  assert (Hend : end_edges (with_stacks (s :: s_applied st) u
      (with_graph g (with_stacks (s_applied st) u st))) = end_edges st).
  { unfold end_edges. simpl. unfold st_edges. simpl. rewrite Hme, Hu. done. }
  split; [|by rewrite <-Hn|done|by rewrite Htl| | |].
  - destruct (base_ok_graph st g Hb Hg Hlen). by split.
  - change (m_edges g = run_steps E0 (reverse (s :: s_applied st))).
    by rewrite Hme, reverse_cons, run_steps_app, Hed.
  - destruct (queue_ok_graph st g Hq Hlen). by split.
  - intros x. apply (entry_ok_data (end_state st)); [done| |exact Hend|done].
    unfold st_nodes, end_state, NodeCount. simpl. unfold NodeCount in Hnc. rewrite Hnc. done.
Qed.

Lemma UnapplyStep_ok n E0 st s a :
  simp_inv n E0 st -> s_applied st = s :: a -> exists st',
    UnapplyStep st = Some (true, st') /\ simp_inv n E0 st' /\ s_applied st' = a /\
    s_unapplied st' = s :: s_unapplied st.
Proof.
  intros [Hb Hn HE0 Hch Hed Hq Hen] Ha. unfold UnapplyStep. rewrite Ha.
  rewrite Ha, reverse_cons, run_steps_app in Hed. set (E := run_steps E0 (reverse a)) in *.
  assert (Hch' : chain n E0 (reverse a) /\ step_ok n E s).
  { unfold timeline in Hch. rewrite Ha, reverse_cons, <-app_assoc in Hch.
    apply chain_app in Hch as [? [? _]]. done. }
  destruct Hch' as [Hca Hs]. destruct (chain_wf n E0 (reverse a) HE0 Hca) as [HEwf HElen].
  fold E in HEwf, HElen. rewrite <-Hn in Hs, HEwf.
  destruct (ModifyEdge_undo (with_stacks a (s_unapplied st) st) s E (bo_graph _ Hb) HEwf Hs Hed)
    as (g & Hm & Hg & Hnc & Hme).
  rewrite Hm. cbn [mbind option_bind]. eexists. split; [done|].
  change (st_nodes (with_stacks _ _ st)) with (st_nodes st) in Hnc.
  assert (Hlen : length (m_edges g) = length (st_edges st)).
  { rewrite Hme, Hed. simpl. by destruct (app_step_ok _ _ s HEwf Hs) as (id & _ & _ & _ & Hl & _). }
  split; [|done].
  set (st' := with_stacks _ _ _).
  assert (Htl : timeline st' = timeline st).
  { unfold timeline. simpl. by rewrite Ha, reverse_cons, <-app_assoc. }
  assert (Hend : end_edges st' = end_edges st).
  { unfold end_edges, st'. simpl. rewrite Hed. unfold st_edges. simpl. by rewrite Hme. }
  split; [|by rewrite <-Hn|done|by rewrite Htl|exact Hme| |].
  - destruct (base_ok_graph st g Hb Hg Hlen). by split.
  - destruct (queue_ok_graph st g Hq Hlen). by split.
  - intros x. apply (entry_ok_data (end_state st)); [done| |exact Hend|done].
    unfold st_nodes, end_state, NodeCount. simpl. unfold NodeCount in Hnc. rewrite Hnc. done.
Qed.

(** After a fresh step on edge [m_after s], the entries it is not part of stay
    valid; [ProcessNeighbors] recomputes the others. *)
Lemma entries_after_step st g s x b :
  graph_wf (s_graph st) -> step_ok (st_nodes st) (st_edges st) s ->
  NodeCount g = st_nodes st -> m_edges g = app_step (st_edges st) s ->
  entry_ok false st x -> (s_best st).[x] = Some b -> x <> m_after s ->
  (x < m_after s -> m_best_neighbor b <> Some (m_after s)) ->
  entry_ok false (with_graph g st) x.
Proof.
  intros Hg Hs Hnc Hme He Hb Hx Hlt c Hc Hin.
  assert (c = b) as -> by (simpl in Hc; congruence).
  destruct (He b Hb Hin) as [? Hn]. split; [done|]. intros y Hy.
  destruct (Hn y Hy) as (s' & Hs' & Hxy & Hyr & [Hpair Hok] & _). exists s'.
  destruct (app_step_ok _ _ s (graph_edges_wf _ Hg) Hs) as (id & _ & Ha & _ & Hlen & _).
  cbv zeta in *. unfold st_edges in Hme. split_and!; [done|done| | |done].
  - unfold edge_count, LogicalEdgeCount, DirectedEdgeCount in *. simpl. rewrite Hme, Hlen. done.
  - split; [done|]. unfold st_nodes, st_edges. simpl. rewrite Hme, Hnc, Ha.
    apply step_ok_frame; [done|]. intros Heq.
    assert (y <> m_after s) by (intros ->; apply Hlt; [lia|done]).
    destruct Hpair as [[_ ?]|[_ ?]]; congruence.
Qed.

Lemma ApplyStep_ok n E0 st :
  simp_inv n E0 st ->
  returns (fun '(ok, st') => simp_inv n E0 st' /\ applied_one st (ok, st'))
    (ApplyStep m_edge_filter m_join_cost st).
Proof.
  intros Hinv. unfold ApplyStep, FetchStep. destruct (s_unapplied st) as [|s u] eqn:Eu.
  2: { cbn [mbind option_bind]. destruct (apply_redo n E0 st s u Hinv Eu) as (g & Hm & Hi).
       rewrite Hm. cbn [mbind option_bind]. eexists. split; [done|]. split; [done|].
       exists s. split; [done|]. by left. }
  destruct Hinv as [Hb Hn HE0 Hch Hed Hq Hen]. rewrite end_state_fresh in Hen by done.
  eapply returns_bind; [apply fetch_loop_ok; [done..|by apply refused_count_bound]|].
  intros [o st1] (Hb1 & Hq1 & Hg1 & Ha1 & Hu1 & He1 & Ho). rewrite Eu in Hu1.
  destruct o as [s|].
  2: { eexists. split; [done|]. split; [|by split_and!]. split; [done| |done| | |done|].
       - unfold st_nodes. by rewrite Hg1.
       - unfold timeline. rewrite Ha1, Hu1, <-Eu. done.
       - unfold st_edges. by rewrite Hg1, Ha1.
       - by rewrite end_state_fresh. }
  assert (Hs : step_ok (st_nodes st1) (st_edges st1) s) by (unfold st_nodes, st_edges; by rewrite Hg1).
  destruct (ModifyEdge_apply st1 s (bo_graph _ Hb1) Hs) as (g & Hm & Hg & Hnc & Hme).
  rewrite Hm. cbn [mbind option_bind].
  assert (Hlen : length (m_edges g) = length (st_edges st1)).
  { rewrite Hme. by destruct (app_step_ok _ _ s (graph_edges_wf _ (bo_graph _ Hb1)) Hs)
      as (id & _ & _ & _ & Hl & _). }
  set (st2 := with_stacks (s :: s_applied (with_graph g st1)) (s_unapplied (with_graph g st1))
                (with_graph g st1)).
  assert (Hb2 : base_ok st2) by (destruct (base_ok_graph st1 g Hb1 Hg Hlen); by split).
  assert (Hq2 : queue_ok st2) by (destruct (queue_ok_graph st1 g Hq1 Hlen); by split).
  assert (Hc2 : edge_count st2 = edge_count st1)
    by (unfold edge_count, LogicalEdgeCount, DirectedEdgeCount, st_edges in *; simpl; by rewrite Hlen).
  eapply returns_bind.
  { apply ProcessNeighbors_all; [done|done|rewrite Hc2; apply Hs|]. intros x b Hx Hxne Hlt.
    apply (entry_ok_data (with_graph g st1)); [done..|].
    by apply (entries_after_step st1 g s x b); [apply Hb1|..]. }
  intros st3 (Hq3 & Hf3 & Hall). eexists. split; [done|].
  assert (Hu3 : s_unapplied st3 = []) by (by rewrite (qf_unapplied _ _ _ Hf3)).
  assert (Ha3 : s_applied st3 = s :: s_applied st) by (rewrite (qf_applied _ _ _ Hf3); simpl; by rewrite Ha1).
  assert (Hg3 : s_graph st3 = g) by (by rewrite (qf_graph _ _ _ Hf3)).
  assert (Hes : st_edges st1 = st_edges st) by (unfold st_edges; by rewrite Hg1).
  split; [|exists s; split; [done|by right]]. split.
  - by eapply base_ok_frame.
  - unfold st_nodes. rewrite Hg3, Hnc. unfold st_nodes. by rewrite Hg1.
  - done.
  - unfold timeline. rewrite Ha3, Hu3, timeline_push by done. apply chain_app. split; [done|].
    unfold timeline. rewrite Eu, app_nil_r, <-Hed, <-Hes. split; [|done].
    rewrite <-Hn. revert Hs. unfold st_nodes. by rewrite Hg1.
  - unfold st_edges. rewrite Hg3, Hme, Ha3, reverse_cons, run_steps_app, <-Hed, <-Hes. done.
  - done.
  - rewrite end_state_fresh by done. intros x. apply Hall.
Qed.

(** ** Applying a number of steps *)

(** The number of applied steps as the code compares it. *)
Definition applied_count st : N := N.of_nat (length (s_applied st)).
Definition timeline_length st : N := N.of_nat (length (timeline st)).

Lemma applied_le_timeline st : applied_count st <= timeline_length st.
Proof. unfold applied_count, timeline_length, timeline. rewrite length_app, length_reverse. lia. Qed.

Lemma timeline_bound n E0 st :
  simp_inv n E0 st -> (length (timeline st) <= N.to_nat (edge_count st) * N.to_nat (st_nodes st))%nat.
Proof.
  intros Hi. pose proof (chain_length _ _ _ (si_start _ _ _ Hi) (si_chain _ _ _ Hi)) as Hl.
  destruct (chain_wf n E0 (reverse (s_applied st)) (si_start _ _ _ Hi)) as [_ Hlen].
  { pose proof (si_chain _ _ _ Hi) as Hc. unfold timeline in Hc. by apply chain_app in Hc as [? _]. }
  rewrite <-(si_edges _ _ _ Hi) in Hlen. rewrite (si_nodes _ _ _ Hi).
  rewrite <-logical_count_edges. unfold logical_count in *. by rewrite Hlen.
Qed.

(** The bound is the same in all states over the same start. *)
Lemma bound_same n E0 st st' : simp_inv n E0 st -> simp_inv n E0 st' ->
  edge_count st' = edge_count st /\ st_nodes st' = st_nodes st.
Proof.
  assert (Hc : forall st, simp_inv n E0 st -> edge_count st = logical_count E0).
  { intros sp Hi. destruct (chain_wf n E0 (reverse (s_applied sp)) (si_start _ _ _ Hi)) as [_ Hlen].
    { pose proof (si_chain _ _ _ Hi) as Hch. unfold timeline in Hch. by apply chain_app in Hch as [? _]. }
    rewrite <-(si_edges _ _ _ Hi) in Hlen. rewrite <-logical_count_edges. unfold logical_count.
    by rewrite Hlen. }
  intros Hi Hi'. rewrite (Hc _ Hi), (Hc _ Hi'), (si_nodes _ _ _ Hi), (si_nodes _ _ _ Hi'). done.
Qed.

Lemma applied_one_timeline st st' :
  applied_one st (true, st') ->
  applied_count st' = applied_count st + 1 /\
  (applied_count st < timeline_length st -> timeline st' = timeline st) /\
  (s_unapplied st = [] -> s_unapplied st' = []) /\ timeline st `prefix_of` timeline st'.
Proof.
  intros (s & Ha & Hu). unfold applied_count, timeline_length, timeline. rewrite Ha.
  split; [simpl; lia|]. rewrite reverse_cons, <-app_assoc. destruct Hu as [Hu|[Hu Hu']].
  - split_and!; [by rewrite Hu|by rewrite Hu|by rewrite Hu].
  - split_and!; [rewrite Hu, app_nil_r, length_reverse; lia|done|].
    rewrite Hu, app_nil_r. by apply prefix_app_r.
Qed.

Definition apply_post n E0 (count : N) st (res : bool * Simplifier) : Prop :=
  let '(ok, st') := res in
  simp_inv n E0 st' /\
  (count <= timeline_length st -> ok = true /\ timeline st' = timeline st) /\
  (if ok then applied_count st' = count else s_unapplied st' = []) /\
  timeline st `prefix_of` timeline st'.

Lemma apply_loop_ok n E0 fuel count st :
  simp_inv n E0 st -> (N.to_nat (count - applied_count st) <= fuel)%nat ->
  returns (fun '(ok, st') => simp_inv n E0 st' /\
      (count <= timeline_length st -> ok = true /\ timeline st' = timeline st) /\
      (if ok then applied_count st' = N.max count (applied_count st) else s_unapplied st' = []) /\
      timeline st `prefix_of` timeline st')
    (apply_loop m_edge_filter m_join_cost fuel count st).
Proof.
  revert st. induction fuel as [|fuel IH]; intros st Hi Hf; cbn [apply_loop];
    fold (applied_count st); destruct (N.ltb_spec (applied_count st) count) as [Hlt|Hge].
  - lia.
  - eexists. split; [done|]. split_and!; [done|done|lia|done].
  - eapply returns_bind; [by apply (ApplyStep_ok n E0)|]. intros [[] st1] [Hi1 Ho1].
    + destruct (applied_one_timeline _ _ Ho1) as (Hc1 & Ht1 & _ & Hp1).
      eapply returns_mono; [apply IH; [done|lia]|]. intros [ok st2] (Hi2 & Ht2 & Hok2 & Hp2).
      split; [done|]. split_and!; [| |by etrans].
      * intros Hle. specialize (Ht1 ltac:(lia)).
        destruct Ht2 as [-> ->]; [unfold timeline_length in *; by rewrite Ht1|done].
      * destruct ok; [lia|done].
    + destruct Ho1 as (Hu & Hu1 & Ha1 & _). eexists. split; [done|]. split_and!; [done| |done|].
      2: { unfold timeline. by rewrite Hu, Hu1, Ha1. }
      intros Hle. exfalso. revert Hle Hlt. unfold timeline_length, timeline, applied_count.
      rewrite Hu, app_nil_r, length_reverse. lia.
  - eexists. split; [done|]. split_and!; [done|done|lia|done].
Qed.

Lemma unapply_loop_ok n E0 fuel count st :
  simp_inv n E0 st -> (N.to_nat (applied_count st - count) <= fuel)%nat ->
  returns (fun st' => simp_inv n E0 st' /\ timeline st' = timeline st /\
      applied_count st' = N.min count (applied_count st))
    (unapply_loop fuel count st).
Proof.
  revert st. induction fuel as [|fuel IH]; intros st Hi Hf; cbn [unapply_loop];
    fold (applied_count st); destruct (N.ltb_spec count (applied_count st)) as [Hlt|Hge].
  - lia.
  - eexists. split; [done|]. split_and!; [done|done|lia].
  - destruct (s_applied st) as [|s a] eqn:Ea.
    { unfold applied_count in Hlt. rewrite Ea in Hlt. simpl in Hlt. lia. }
    destruct (UnapplyStep_ok n E0 st s a Hi Ea) as (st1 & -> & Hi1 & Ha1 & Hu1).
    cbn [mbind option_bind].
    assert (Hc1 : applied_count st = applied_count st1 + 1)
      by (unfold applied_count; rewrite Ea, Ha1; simpl; lia).
    assert (Ht1 : timeline st1 = timeline st)
      by (unfold timeline; by rewrite Ea, Ha1, Hu1, reverse_cons, <-app_assoc).
    eapply returns_mono; [apply IH; [done|lia]|]. intros st2 (Hi2 & Ht2 & Hc2).
    split_and!; [done|congruence|lia].
  - eexists. split; [done|]. split_and!; [done|done|lia].
Qed.

Lemma ApplySteps_ok n E0 count st :
  simp_inv n E0 st ->
  returns (apply_post n E0 count st) (ApplySteps m_edge_filter m_join_cost count st).
Proof.
  intros Hi. unfold ApplySteps. eapply returns_bind; [apply (apply_loop_ok n E0); [done|lia]|].
  intros [[] st1] (Hi1 & Ht1 & Hc1 & Hp1); cbn [negb].
  2: { eexists. split; [done|]. by split_and!. }
  eapply returns_bind.
  { apply (unapply_loop_ok n E0); [done|]. unfold applied_count. lia. }
  intros st2 (Hi2 & Ht2 & Hc2). eexists. split; [done|]. split_and!; [done| |lia|by rewrite Ht2].
  intros Hle. destruct (Ht1 Hle) as [_ Ht]. split; [done|congruence].
Qed.

Lemma applied_zero n E0 st : simp_inv n E0 st -> applied_count st = 0 -> st_edges st = E0.
Proof.
  intros Hi Hc. rewrite (si_edges _ _ _ Hi). unfold applied_count in Hc.
  by destruct (s_applied st).
Qed.

Lemma Restore_ok n E0 st :
  simp_inv n E0 st ->
  returns (fun st' => simp_inv n E0 st' /\ applied_count st' = 0)
    (Restore m_edge_filter m_join_cost st).
Proof.
  intros Hi. unfold Restore. eapply returns_bind; [by apply (ApplySteps_ok n E0 0)|].
  intros [ok st1] (Hi1 & Ht1 & Hc1 & _). destruct Ht1 as [-> _]; [lia|]. by eexists.
Qed.

(** ** Simplify *)

Abbreviation probe := (exceeds_budget m_pair_budget m_pair_filter).
Abbreviation Exceeds := (EnumerationExceedsBudget m_pair_budget m_pair_filter).

Lemma exceeds_budget_Some g : graph_wf g -> exists b, probe g = Some b.
Proof.
  intros Hg. unfold exceeds_budget.
  destruct (plan_enumerate m_pair_filter g m_pair_budget Hg) as (a & p & -> & _). by eexists.
Qed.

Lemma Exceeds_Some n E0 st : simp_inv n E0 st -> exists b, Exceeds st = Some b.
Proof. intros Hi. apply exceeds_budget_Some, Hi. Qed.

Definition grow_post n E0 (upper : N) (res : option N * Simplifier) : Prop :=
  let '(o, st') := res in
  simp_inv n E0 st' /\
  match o with
  | None => applied_count st' = 0
  | Some a => s_unapplied st' = [] /\ a = applied_count st' /\
      (a < upper -> Exceeds st' = Some false)
  end.

Definition steps_left (n : N) (E0 : list (SEdge BS)) (applied : N) : nat :=
  (N.to_nat (logical_count E0) * N.to_nat n - N.to_nat applied)%nat.

Lemma applied_bound n E0 st :
  simp_inv n E0 st -> (N.to_nat (applied_count st) <= N.to_nat (logical_count E0) * N.to_nat n)%nat.
Proof.
  intros Hi. pose proof (applied_le_timeline st).
  pose proof (chain_length _ _ _ (si_start _ _ _ Hi) (si_chain _ _ _ Hi)).
  unfold timeline_length in *. lia.
Qed.

Lemma grow_loop_ok n E0 fuel upper st :
  simp_inv n E0 st -> s_unapplied st = [] -> (steps_left n E0 (applied_count st) < fuel)%nat ->
  returns (fun '(o, st') => grow_post n E0 upper (o, st') /\
      (forall a, o = Some a -> applied_count st <= a /\ (a < upper \/ a = N.max upper (applied_count st))))
    (grow_loop m_pair_budget m_pair_filter m_edge_filter m_join_cost fuel (applied_count st) upper st).
Proof.
  revert st. induction fuel as [|fuel IH]; intros st Hi Hu Hf; [lia|]. cbn [grow_loop].
  destruct (N.ltb_spec (applied_count st) upper) as [Hlt|Hge].
  2: { eexists. split; [done|]. split; [by split_and!; [..|lia]|]. intros a [= <-]. lia. }
  eapply returns_bind; [by apply (ApplyStep_ok n E0)|]. intros [[] st1] [Hi1 Ho1].
  - destruct (applied_one_timeline _ _ Ho1) as (Hc1 & _ & Hu1 & _). specialize (Hu1 Hu).
    pose proof (applied_bound n E0 st1 Hi1).
    rewrite <-Hc1. eapply returns_mono; [apply IH; [done|done|unfold steps_left in *; lia]|].
    intros [o st2] [Hg2 Ha2]. split; [done|]. intros a Ho. specialize (Ha2 a Ho). lia.
  - destruct Ho1 as (_ & Hu1 & Ha1 & _).
    destruct (Exceeds_Some n E0 st1 Hi1) as [[] Hex]; rewrite Hex; cbn [mbind option_bind].
    + eapply returns_bind; [by apply (Restore_ok n E0)|]. intros st2 [Hi2 Hc2].
      eexists. split; [done|]. by split.
    + assert (Hc1 : applied_count st = applied_count st1) by (unfold applied_count; by rewrite Ha1).
      rewrite Hc1 in *. eexists. split; [done|]. split; [by split_and!|].
      intros a [= <-]. lia.
Qed.

Lemma grow_phase_ok n E0 fuel upper st :
  simp_inv n E0 st -> s_unapplied st = [] -> applied_count st < upper ->
  (steps_left n E0 (applied_count st) + 1 < fuel)%nat ->
  returns (fun '(o, st') => simp_inv n E0 st' /\
      match o with
      | None => applied_count st' = 0
      | Some a => s_unapplied st' = [] /\ a = applied_count st' /\ Exceeds st' = Some false
      end)
    (grow_phase m_pair_budget m_pair_filter m_edge_filter m_join_cost fuel (applied_count st) upper st).
Proof.
  revert upper st. induction fuel as [|fuel IH]; intros upper st Hi Hu Hlt Hf; [lia|].
  cbn [grow_phase]. eapply returns_bind; [apply (grow_loop_ok n E0); [done|done|lia]|].
  intros [[a|] st1] [[Hi1 Hg1] Ha1].
  2: { by eexists. }
  destruct Hg1 as (Hu1 & Hc1 & Hex1). destruct (Ha1 a eq_refl) as [Hle Hor].
  destruct (N.ltb_spec a upper) as [Hau|Hau].
  { eexists. split; [done|]. split_and!; auto. }
  destruct (Exceeds_Some n E0 st1 Hi1) as [[] Hex]; rewrite Hex; cbn [mbind option_bind].
  - rewrite Hc1. assert (a = upper) by lia. pose proof (applied_bound n E0 st1 Hi1).
    apply IH; [done|done|lia|]. unfold steps_left in *. lia.
  - by eexists.
Qed.

(** A state of the same timeline with [u] steps applied. *)
Definition at_step n E0 (tl : list Step) (u : N) st : Prop :=
  simp_inv n E0 st /\ timeline st = tl /\ applied_count st = u.

Lemma applied_take st : reverse (s_applied st) = take (N.to_nat (applied_count st)) (timeline st).
Proof.
  unfold timeline. rewrite take_app_length'; [done|]. rewrite length_reverse. unfold applied_count. lia.
Qed.

(** The applied steps determine the graph up to the order of the adjacency lists. *)
Lemma applied_equiv n E0 st st' : simp_inv n E0 st -> simp_inv n E0 st' ->
  s_applied st = s_applied st' -> graph_equiv (s_graph st) (s_graph st').
Proof.
  intros Hi Hi' Ha. apply wf_graph_equiv; [apply Hi|apply Hi'| |].
  - pose proof (si_nodes _ _ _ Hi). pose proof (si_nodes _ _ _ Hi'). unfold st_nodes in *. congruence.
  - change (st_edges st = st_edges st'). by rewrite (si_edges _ _ _ Hi), (si_edges _ _ _ Hi'), Ha.
Qed.

Lemma at_step_equiv n E0 tl u sp st :
  at_step n E0 tl u sp -> simp_inv n E0 st -> tl `prefix_of` timeline st -> applied_count st = u ->
  (N.to_nat u <= length tl)%nat -> graph_equiv (s_graph st) (s_graph sp).
Proof.
  intros (Hi & Ht & Hc) Hi' Hp Hc' Hu. apply (applied_equiv n E0); [done|done|].
  apply (inj reverse). rewrite !applied_take, Hc, Hc', Ht. destruct Hp as [rest ->].
  by rewrite take_app_le.
Qed.

Lemma search_loop_ok n E0 tl fuel lower upper st :
  let A := N.of_nat (length tl) in
  simp_inv n E0 st -> timeline st = tl -> lower <= upper -> upper <= A + 1 ->
  (upper = A + 1 \/ exists sp, at_step n E0 tl upper sp /\ Exceeds sp = Some false) ->
  (lower = 0 \/ exists sp, at_step n E0 tl (lower - 1) sp /\ Exceeds sp = Some true) ->
  (N.to_nat (upper - lower) < fuel)%nat ->
  returns (fun '(u, st') => simp_inv n E0 st' /\ timeline st' = tl /\
      u <= A + 1 /\ (u = A + 1 \/ exists sp, at_step n E0 tl u sp /\ Exceeds sp = Some false) /\
      (u = 0 \/ exists sp, at_step n E0 tl (u - 1) sp /\ Exceeds sp = Some true))
    (search_loop m_pair_budget m_pair_filter m_edge_filter m_join_cost fuel lower upper st).
Proof.
  intros A. revert lower upper st. induction fuel as [|fuel IH];
    intros lower upper st Hi Ht Hlu HuA Hup Hlow Hf; [lia|]. cbn [search_loop].
  destruct (N.ltb_spec lower upper) as [Hlt|Hge].
  2: { assert (lower = upper) as -> by lia. eexists. split; [done|]. by split_and!. }
  cbv zeta. set (middle := lower + (upper - lower) / 2).
  assert (Hmid : lower <= middle < upper)
    by (unfold middle; div_mod (upper - lower) 2; lia).
  eapply returns_bind; [by apply (ApplySteps_ok n E0 middle)|].
  intros [ok st1] (Hi1 & Ht1 & Hc1 & _).
  destruct Ht1 as [-> Ht1]; [unfold timeline_length; rewrite Ht; lia|]. cbn [negb].
  rewrite Ht in Ht1. assert (Hat : at_step n E0 tl middle st1) by done.
  destruct (Exceeds_Some n E0 st1 Hi1) as [[] Hex]; rewrite Hex; cbn [mbind option_bind negb].
  - apply IH; [done|done|lia|done|done| |lia]. right. exists st1.
    by replace (middle + 1 - 1) with middle by lia.
  - apply IH; [done|done|lia|lia| |done|lia]. right. by exists st1.
Qed.

(** What the answer [true] says of the graph it leaves: one step less did not fit
    the budget, and all the steps did, or one step less did as well, with other
    adjacency lists. *)
Definition simplified n E0 st : Prop :=
  exists st', UnapplyStep st = Some (true, st') /\ simp_inv n E0 st' /\
    (exists g, graph_equiv (s_graph st') g /\ probe g = Some true) /\
    ((exists g, graph_equiv (s_graph st) g /\ probe g = Some false) \/
     (exists g, graph_equiv (s_graph st') g /\ probe g = Some false)).

Lemma search_simplified n E0 tl u st sp1 :
  simp_inv n E0 st -> tl `prefix_of` timeline st -> applied_count st = u -> 0 < u ->
  at_step n E0 tl (N.of_nat (length tl)) sp1 -> Exceeds sp1 = Some false ->
  u <= N.of_nat (length tl) + 1 ->
  (u = N.of_nat (length tl) + 1 \/ exists sp, at_step n E0 tl u sp /\ Exceeds sp = Some false) ->
  (u = 0 \/ exists sp, at_step n E0 tl (u - 1) sp /\ Exceeds sp = Some true) ->
  simplified n E0 st.
Proof.
  intros Hi Hp Hc Hu Hsp1 Hfit1 Hle Hup [|(sp & Hsp & Hbad)]; [lia|].
  destruct (s_applied st) as [|s a] eqn:Ea; [unfold applied_count in Hc; rewrite Ea in Hc; simpl in Hc; lia|].
  destruct (UnapplyStep_ok n E0 st s a Hi Ea) as (st' & Hun & Hi' & Ha' & Hu').
  assert (Ht' : timeline st' = timeline st)
    by (unfold timeline; by rewrite Ea, Ha', Hu', reverse_cons, <-app_assoc).
  assert (Hc' : applied_count st' = u - 1)
    by (unfold applied_count in *; rewrite Ea in Hc; rewrite Ha'; simpl in Hc; lia).
  assert (Hgo : forall k sq, at_step n E0 tl k sq -> k = u - 1 -> graph_equiv (s_graph st') (s_graph sq)).
  { intros k sq Hsq ->. apply (at_step_equiv n E0 tl (u - 1)); [done|done|by rewrite Ht'|done|lia]. }
  exists st'. split_and!; [done|done|exists (s_graph sp); split; [by eapply Hgo|done]|].
  destruct (decide (u = N.of_nat (length tl) + 1)) as [Hend|Hend].
  - right. exists (s_graph sp1). split; [|done]. eapply Hgo; [done|lia].
  - left. destruct Hup as [|(sq & Hsq & Hfit)]; [lia|]. exists (s_graph sq). split; [|done].
    apply (at_step_equiv n E0 tl u); [done|done|done|done|lia].
Qed.

(** What [Simplify] answers, from a state without undone or applied steps. *)
Lemma Simplify_ok n E0 st :
  simp_inv n E0 st -> timeline st = [] ->
  returns (fun '(ok, st') => simp_inv n E0 st' /\
      (ok = false -> st_edges st' = E0) /\ (ok = true -> simplified n E0 st'))
    (Simplify m_pair_budget m_pair_filter m_edge_filter m_join_cost st).
Proof.
  intros Hi Ht. assert (Ha : s_applied st = [] /\ s_unapplied st = []).
  { unfold timeline in Ht. apply app_nil in Ht as [Hr Hu]. split; [|done].
    by rewrite <-(reverse_involutive (s_applied st)), Hr. }
  destruct Ha as [Ha Hu]. assert (Hc : applied_count st = 0) by (unfold applied_count; by rewrite Ha).
  unfold Simplify. eapply returns_bind.
  { rewrite <-Hc. apply (grow_phase_ok n E0); [done|done|lia|]. unfold simplify_fuel, steps_left.
    assert (logical_count E0 = edge_count st) as ->.
    { rewrite <-logical_count_edges, (applied_zero n E0 st Hi Hc). done. }
    pose proof (si_nodes _ _ _ Hi) as Hn. unfold st_nodes, NodeCount in Hn. lia. }
  intros [[a|] st1] [Hi1 Hg1].
  2: { eexists. split; [done|]. split_and!; [done| |done]. intros _. by apply (applied_zero n). }
  destruct Hg1 as (Hu1 & -> & Hex1).
  assert (Htl1 : applied_count st1 = N.of_nat (length (timeline st1))).
  { unfold timeline, applied_count. by rewrite Hu1, app_nil_r, length_reverse. }
  eapply returns_bind.
  { apply (search_loop_ok n E0 (timeline st1)); [done|done|lia|lia|left; lia|by left|lia]. }
  intros [u st2] (Hi2 & Ht2 & Hle & Hup & Hlow). eapply returns_bind; [by apply (ApplySteps_ok n E0 u)|].
  intros [ok st3] (Hi3 & Ht3 & Hc3 & Hp3).
  destruct ok; cbn [negb].
  2: { eapply returns_bind; [by apply (ApplySteps_ok n E0 0)|]. intros [ok4 st4] (Hi4 & Ht4 & Hc4 & _).
       destruct Ht4 as [-> _]; [lia|]. eexists. split; [done|]. split_and!; [done| |done].
       intros _. by apply (applied_zero n). }
  eexists. split; [done|]. fold (applied_count st3). split_and!; [done| |].
  - intros Hz. apply (applied_zero n); [done|]. apply N.ltb_ge in Hz. lia.
  - intros Hz%N.ltb_lt. rewrite Ht2 in Hp3.
    by apply (search_simplified n E0 (timeline st1) u st3 st1); [..|rewrite <-Hc3|split_and!| | | |].
Qed.
End timeline.

(** ** Construction, and the properties of the component *)

Section construction.
Context {BS : Type} `{NodeSet BS} {D : Type} `{Double D} {W : Type}.
Context (m_pair_budget : N) (m_pair_filter : option (BS -> BS -> N -> bool)).
Context (m_edge_filter : N -> bool) (m_join_cost : BS -> BS -> W -> option D * W).
Abbreviation Step := (SSimplificationStep BS D).
Abbreviation Simplifier := (CDPHyperGraphSimplifier BS D W).
Implicit Types (st : Simplifier) (g : CDPHyperGraph BS).

(** Only the order constraints changed. *)
Definition order_only st st' : Prop := base_ok st' /\ exists o, st' = with_order o st.

Lemma order_only_trans st1 st2 st3 : order_only st1 st2 -> order_only st2 st3 -> order_only st1 st3.
Proof. intros [_ [o1 ->]] [? [o2 ->]]. split; [done|]. by exists o2. Qed.

Lemma TryAdd_order_only st b a :
  base_ok st -> b < edge_count st -> a < edge_count st ->
  returns (order_only st) ('(_, o) ← TryAdd (s_order st) b a; Some (with_order o st)).
Proof.
  intros Hb Hbe Hae. destruct (bo_order _ Hb) as [C HC]. pose proof (bo_order_len _ Hb) as Hlen.
  destruct (TryAdd_inv (s_order st) C b a HC) as (added & o & -> & Hol & _ & _ & Hoi); [lia|lia|].
  cbn [mbind option_bind]. eexists. split; [done|]. split; [|by exists o].
  split; [apply Hb|by eexists|]. simpl. by rewrite Hol.
Qed.

Lemma PbsUsedNodes_Some st e :
  base_ok st -> e < edge_count st -> exists used, PbsUsedNodes st e = Some used.
Proof.
  intros Hb He. destruct (SimpEdge_Some st e Hb He) as (ed & Hed & _). unfold PbsUsedNodes.
  rewrite Hed. by eexists.
Qed.

Lemma order_only_refl st : base_ok st -> order_only st st.
Proof. split; [done|]. exists (s_order st). by destruct st. Qed.

Lemma extract_pair_ok st e1 used1 e2 :
  base_ok st -> e1 < edge_count st -> e2 < edge_count st ->
  returns (order_only st) (extract_pair e1 used1 e2 st).
Proof.
  intros Hb H1' H2'. unfold extract_pair.
  destruct (PbsUsedNodes_Some st e2 Hb H2') as [used2 ->]. cbn [mbind option_bind].
  case_if; [by apply TryAdd_order_only|]. case_if; [by apply TryAdd_order_only|].
  eexists. split; [done|]. by apply order_only_refl.
Qed.

Lemma order_only_count st st' : order_only st st' -> edge_count st' = edge_count st.
Proof. by intros [_ [o ->]]. Qed.

Lemma ExtractJoinDependencies_ok st :
  base_ok st -> returns (order_only st) (ExtractJoinDependencies st).
Proof.
  intros Hb. unfold ExtractJoinDependencies.
  eapply returns_mono; [apply (loop_inv (fun _ => order_only st))|done].
  - by apply order_only_refl.
  - intros dn e1 rest st1 Hl Ho1.
    assert (He1 : 0 <= e1 < edge_count st)
      by (apply elem_of_N_range; rewrite Hl; apply elem_of_app; right; left).
    pose proof (order_only_count _ _ Ho1) as Hc1.
    destruct (PbsUsedNodes_Some st1 e1 (proj1 Ho1)) as [used1 ->]; [lia|]. cbn [mbind option_bind].
    eapply returns_mono; [apply (loop_inv (fun _ => order_only st))|done]; [done|].
    intros dn2 e2 rest2 st2 Hl2 Ho2.
    assert (He2 : e1 + 1 <= e2 < edge_count st1)
      by (apply elem_of_N_range; rewrite Hl2; apply elem_of_app; right; left).
    pose proof (order_only_count _ _ Ho2) as Hc2.
    eapply returns_mono; [apply extract_pair_ok; [apply Ho2|lia|lia]|].
    intros st3 Ho3. by eapply order_only_trans.
Qed.

Lemma Simplifier_New_ok g w :
  graph_wf g ->
  returns (fun st => simp_inv (NodeCount g) (m_edges g) st /\ timeline st = [] /\ s_graph st = g)
    (CDPHyperGraphSimplifier_New m_edge_filter m_join_cost g w).
Proof.
  intros Hg. unfold CDPHyperGraphSimplifier_New. cbv zeta. set (st := MkSimplifier g _ _ _ _ _ _).
  assert (Hlen : length (CDPHyperOrderConstraints_New (BS := BS) (LogicalEdgeCount g)) =
    N.to_nat (LogicalEdgeCount g))
    by (unfold CDPHyperOrderConstraints_New; by rewrite length_fmap, length_seq).
  assert (Hb : base_ok st) by (split; [done|exists []; apply New_order_inv|done]).
  unfold InitFirstStep. eapply returns_bind; [by apply ExtractJoinDependencies_ok|].
  intros st1 [Hb1 [o ->]]. set (st1 := with_order o st) in *.
  assert (Hbest : forall x b, (s_best st1).[x] = Some b -> m_in_queue b = false).
  { intros x b [-> _]%lookup_replicate. done. }
  assert (Hq1 : queue_ok st1).
  { split; simpl; [constructor|by rewrite length_replicate|by intros ? ?%elem_of_nil| |].
    - intros x b Hx. rewrite (Hbest x b Hx). split; [done|by intros ?%elem_of_nil].
    - intros x b Hx Hin. by rewrite (Hbest x b Hx) in Hin. }
  set (J := fun (_ : list N) (st2 : Simplifier) =>
    queue_ok st2 /\ q_frame (fun _ => True) st1 st2 /\ forall x, entry_ok false st2 x).
  eapply returns_mono; [apply (loop_inv J)|].
  - split_and!; [done|apply q_frame_refl|]. intros x b Hx Hin. by rewrite (Hbest x b Hx) in Hin.
  - intros dn e rest st2 Hl (Hq2 & Hf2 & He2). pose proof (edge_count_frame _ _ _ Hf2) as Hc2.
    assert (Her : 0 <= e < edge_count st1)
      by (apply elem_of_N_range; rewrite Hl; apply elem_of_app; right; left).
    eapply returns_mono.
    { apply (ProcessNeighbors_above m_edge_filter m_join_cost 1);
        [by eapply base_ok_frame|done|rewrite Hc2; apply Her]. }
    intros st3 (Hq3 & Hf3 & He3). split; [done|]. split.
    + eapply q_frame_trans; [done|]. by eapply q_frame_weaken; [|done].
    + intros x. destruct (decide (x = e)) as [->|Hx]; [by apply entry_ok_weaken|].
      by apply (entry_ok_frame _ _ _ _ _ Hf3).
  - intros st2 (Hq2 & Hf2 & He2).
    assert (Ha2 : s_applied st2 = []) by by rewrite (qf_applied _ _ _ Hf2).
    assert (Hu2 : s_unapplied st2 = []) by by rewrite (qf_unapplied _ _ _ Hf2).
    assert (Hg2 : s_graph st2 = g) by by rewrite (qf_graph _ _ _ Hf2).
    assert (Ht2 : timeline st2 = []) by (unfold timeline; by rewrite Ha2, Hu2).
    split_and!; [|done|done]. split.
    + by eapply base_ok_frame.
    + unfold st_nodes. by rewrite Hg2.
    + by apply graph_edges_wf.
    + by rewrite Ht2.
    + unfold st_edges. by rewrite Hg2, Ha2.
    + done.
    + by rewrite end_state_fresh.
Qed.

(** A run of the component: construct it on the graph, then [Simplify]. *)
Definition simplify_run g (w : W) : option (bool * Simplifier) :=
  st ← CDPHyperGraphSimplifier_New m_edge_filter m_join_cost g w;
  Simplify m_pair_budget m_pair_filter m_edge_filter m_join_cost st.

Lemma simplify_run_ok g w :
  graph_wf g ->
  returns (fun '(ok, st') => simp_inv (NodeCount g) (m_edges g) st' /\
      (ok = false -> st_edges st' = m_edges g) /\
      (ok = true -> simplified m_pair_budget m_pair_filter (NodeCount g) (m_edges g) st'))
    (simplify_run g w).
Proof.
  intros Hg. unfold simplify_run. eapply returns_bind; [by apply Simplifier_New_ok|].
  intros st (Hi & Ht & _). by apply Simplify_ok.
Qed.

Lemma same_edges_equiv g st :
  graph_wf g -> simp_inv (NodeCount g) (m_edges g) st -> st_edges st = m_edges g ->
  graph_equiv (s_graph st) g.
Proof.
  intros Hg Hi He. apply wf_graph_equiv; [apply Hi|done| |done].
  apply (si_nodes _ _ _ Hi).
Qed.

(** Every entry after the steps comes from one of the start with smaller sides. *)
Lemma app_step_entries n E (s : Step) e' :
  edges_wf n E -> step_ok n E s -> e' ∈ app_step E s ->
  exists e, e ∈ E /\ m_edge_id e = m_edge_id e' /\
    to_gset (m_left e) ⊆ to_gset (m_left e') /\ to_gset (m_right e) ⊆ to_gset (m_right e').
Proof.
  intros Hwf Hs He'. destruct (app_step_ok n E s Hwf Hs) as (id & Hid & Ha & _). cbv zeta in *.
  rewrite Ha in He'. set (old := MkEdge _ _ id) in *.
  assert (Hold : old ∈ E) by (by eapply list_elem_of_lookup_2).
  assert (Hrev : reverse_edge old ∈ E).
  { apply (list_elem_of_lookup_2 _ (2 * N.to_nat (m_after s) + 1)). apply (ew_pair _ _ Hwf).
    by replace (2 * N.to_nat (m_after s))%nat with (N.to_nat (m_after s * 2)) by lia. }
  apply list_elem_of_lookup in He' as [i Hi]. unfold replaced in Hi.
  apply list_lookup_insert_Some in Hi as [(_ & <- & _)|[_ Hi]].
  { exists (reverse_edge old). split_and!; [done|done|apply Hs|apply Hs]. }
  apply list_lookup_insert_Some in Hi as [(_ & <- & _)|[_ Hi]].
  { exists old. split_and!; [done|done|apply Hs|apply Hs]. }
  exists e'. split; [by eapply list_elem_of_lookup_2|done].
Qed.

Lemma chain_entries n E (l : list Step) e' :
  edges_wf n E -> chain n E l -> e' ∈ run_steps E l ->
  exists e, e ∈ E /\ m_edge_id e = m_edge_id e' /\
    to_gset (m_left e) ⊆ to_gset (m_left e') /\ to_gset (m_right e) ⊆ to_gset (m_right e').
Proof.
  revert E. induction l as [|s l IH]; intros E Hwf Hc He'; [by exists e'|].
  destruct Hc as [Hs Hc]. destruct (app_step_ok n E s Hwf Hs) as (_ & _ & _ & Hwf' & _).
  destruct (IH _ Hwf' Hc He') as (e1 & He1 & Hid1 & Hl1 & Hr1).
  destruct (app_step_entries n E s e1 Hwf Hs He1) as (e & He & Hid & Hl & Hr).
  exists e. split_and!; [done|congruence|by etrans|by etrans].
Qed.

(** C12: [Simplify] returns, and when it returns [false] all applied graph changes
    are rolled back: the graph has its original entries, and every node the
    adjacency it had. *)
Theorem Simplify_false_rolls_back g (w : W) (Hwf : graph_wf g) :
  exists ok st', simplify_run g w = Some (ok, st') /\
    (ok = false -> graph_equiv (s_graph st') g).
Proof.
  destruct (simplify_run_ok g w Hwf) as ([ok st'] & Hrun & Hi & Hf & _).
  exists ok, st'. split; [done|]. intros Hok. by apply same_edges_equiv; auto.
Qed.

(** C13: [Simplify] returns, and when it returns [true] it stopped at the step that
    made the enumeration fit the pair budget: there is a last step to undo, the
    graph without it was enumerated and exceeded the budget, and the graph with it
    was enumerated and fits, each up to the order of the adjacency lists; unless
    the graph without it was also enumerated with its adjacency lists in another
    order and fit, as it may when the growing phase ended with it. *)
Theorem Simplify_true_last_step g (w : W) (Hwf : graph_wf g) :
  exists ok st', simplify_run g w = Some (ok, st') /\
    (ok = true ->
     exists st1, UnapplyStep st' = Some (true, st1) /\
       (exists g1, graph_equiv (s_graph st1) g1 /\
          exceeds_budget m_pair_budget m_pair_filter g1 = Some true) /\
       ((exists g', graph_equiv (s_graph st') g' /\
           exceeds_budget m_pair_budget m_pair_filter g' = Some false) \/
        (exists g2, graph_equiv (s_graph st1) g2 /\
           exceeds_budget m_pair_budget m_pair_filter g2 = Some false))).
Proof.
  destruct (simplify_run_ok g w Hwf) as ([ok st'] & Hrun & _ & _ & Ht). exists ok, st'.
  split; [done|]. intros Hok. destruct (Ht Hok) as (st1 & Hun & _ & Hbad & Hfit). by exists st1.
Qed.

(** C14: Simplification only restricts the join orders: the graph it leaves is
    well formed, and every pair of node sets an edge joins in it was joined by
    the edge of the same id in the original graph. *)
Theorem Simplify_restricts g (w : W) (Hwf : graph_wf g) :
  exists ok st', simplify_run g w = Some (ok, st') /\ graph_wf (s_graph st') /\
    NodeCount (s_graph st') = NodeCount g /\
    forall left right id, connects (s_graph st') left right id -> connects g left right id.
Proof.
  destruct (simplify_run_ok g w Hwf) as ([ok st'] & Hrun & Hi & _).
  exists ok, st'. split_and!; [done|apply Hi|apply (si_nodes _ _ _ Hi)|].
  intros left right id (e' & He' & Hid & Hl & Hr).
  change (e' ∈ st_edges st') in He'. rewrite (si_edges _ _ _ Hi) in He'.
  pose proof (si_chain _ _ _ Hi) as Hc. unfold timeline in Hc. apply chain_app in Hc as [Hc _].
  destruct (chain_entries _ _ _ e' (si_start _ _ _ Hi) Hc He') as (e & He & Hid' & Hl' & Hr').
  exists e. split_and!; [done|congruence|by etrans|by etrans].
Qed.

(** [Restore] after [Simplify] undoes every step, whatever [Simplify]
    answered: the original graph is back. *)
Theorem Restore_original g (w : W) (Hwf : graph_wf g) :
  exists ok st1 st2, simplify_run g w = Some (ok, st1) /\
    Restore m_edge_filter m_join_cost st1 = Some st2 /\ graph_equiv (s_graph st2) g.
Proof.
  destruct (simplify_run_ok g w Hwf) as ([ok st1] & Hrun & Hi & _).
  destruct (Restore_ok m_edge_filter m_join_cost _ _ st1 Hi) as (st2 & Hr & Hi2 & Hc).
  exists ok, st1, st2. split_and!; [done|done|].
  apply same_edges_equiv; [done|done|]. by apply (applied_zero (NodeCount g)).
Qed.
End construction.

(** ** Witnesses: the sample graph, with a product of sizes as join cost *)

Definition N_double : Double N :=
  {| dlt := N.ltb; dle := N.leb; deq := N.eqb; dadd := N.add; dmul := N.mul; ddiv := N.div; dzero := 0; dmax_value := 2 ^ 64 |}.

(** The callback counts its calls. *)
Definition sample_cost (a b : gset N) (calls : N) : option N * N :=
  (Some ((2 + ns_Size a) * (2 + ns_Size b)), calls + 1).

Abbreviation sample_run := (simplify_run (H0 := N_double) 3 None (fun _ => true) sample_cost).

Lemma Simplify_false_rolls_back_witness :
  exists g ok st', AddEdges sample_edges (CDPHyperGraph_New 4) = Some g /\
    sample_run g 0 = Some (ok, st') /\ (ok = false -> graph_equiv (s_graph st') g).
Proof.
  destruct sample_graph_ok as (g & Hg & Hwf & _).
  destruct (Simplify_false_rolls_back (H0 := N_double) 3 None (fun _ => true) sample_cost g 0 Hwf)
    as (ok & st' & Hr & Hok).
  by exists g, ok, st'.
Defined.

(** One step makes the enumeration of the sample graph fit three pairs. *)
Example sample_simplified :
  (g ← AddEdges sample_edges (CDPHyperGraph_New 4); '(ok, st') ← sample_run g 0;
   Some (ok, length (s_applied st'), exceeds_budget 3 None g, exceeds_budget 3 None (s_graph st'))) =
  Some (true, 1%nat, Some true, Some false).
Proof. vm_compute. reflexivity. Qed.

Lemma Simplify_true_last_step_witness :
  exists g st' st1, AddEdges sample_edges (CDPHyperGraph_New 4) = Some g /\
    sample_run g 0 = Some (true, st') /\ UnapplyStep st' = Some (true, st1) /\
    (exists g1, graph_equiv (s_graph st1) g1 /\ exceeds_budget 3 None g1 = Some true) /\
    exists g', graph_equiv (s_graph st') g' /\ exceeds_budget 3 None g' = Some false.
Proof.
  destruct sample_graph_ok as (g & Hg & Hwf & _).
  destruct (Simplify_true_last_step (H0 := N_double) 3 None (fun _ => true) sample_cost g 0 Hwf)
    as (ok & st' & Hr & Hok).
  pose proof sample_simplified as Hs. rewrite Hg in Hs. cbn [mbind option_bind] in Hs. rewrite Hr in Hs.
  cbn [mbind option_bind] in Hs. injection Hs as -> _ _ Hfit.
  destruct (Hok eq_refl) as (st1 & Hun & Hbad & _).
  exists g, st', st1. split_and!; [exact Hg|exact Hr|exact Hun|exact Hbad|].
  exists (s_graph st'). split; [reflexivity|exact Hfit].
Defined.

Lemma Simplify_restricts_witness :
  exists g ok st', AddEdges sample_edges (CDPHyperGraph_New 4) = Some g /\
    sample_run g 0 = Some (ok, st') /\
    forall left right id, connects (s_graph st') left right id -> connects g left right id.
Proof.
  destruct sample_graph_ok as (g & Hg & Hwf & _).
  destruct (Simplify_restricts (H0 := N_double) 3 None (fun _ => true) sample_cost g 0 Hwf)
    as (ok & st' & Hr & _ & _ & Hc).
  by exists g, ok, st'.
Defined.

Lemma Restore_original_witness :
  exists g ok st1 st2, AddEdges sample_edges (CDPHyperGraph_New 4) = Some g /\
    sample_run g 0 = Some (ok, st1) /\
    Restore (H0 := N_double) (fun _ => true) sample_cost st1 = Some st2 /\
    graph_equiv (s_graph st2) g.
Proof.
  destruct sample_graph_ok as (g & Hg & Hwf & _).
  destruct (Restore_original (H0 := N_double) 3 None (fun _ => true) sample_cost g 0 Hwf)
    as (ok & st1 & st2 & Hr & Hs & He).
  by exists g, ok, st1, st2.
Defined.
