(* ===== verification/UnionFind.v ===== *)
(** * Union-find with path halving

    Model of the local union-find of
    [CDPHyperJoinRegion::AddCartesianComponentEdges]
    (libgpopt/src/xforms/CDPHyperJoinRegion.cpp): the vector [parent], the
    closure [find_root], which halves the path it walks, and the linking of two
    roots.  The classes of the vector are those of the symmetric closure of the
    pairs linked so far, and every [find_root] ends. *)

From stdpp Require Import relations.
From S2P Require Import Prelude.

Open Scope N_scope.

(** [find_root]: the node and the vector it leaves. *)
Fixpoint find_root (fuel : nat) (parent : list N) (node : N) : option (N * list N) :=
  match fuel with
  | O => None
  | S fuel =>
      p ← parent.[node];
      if p =? node then Some (node, parent) else
      grand ← parent.[p];
      find_root fuel (<[N.to_nat node := grand]> parent) grand
  end.

(** A path visits a node at most once. *)
Definition find_fuel (parent : list N) : nat := S (length parent).

Definition union_nodes (first other : N) (parent : list N) : option (list N) :=
  '(first_root, parent) ← find_root (find_fuel parent) parent first;
  '(other_root, parent) ← find_root (find_fuel parent) parent other;
  if first_root =? other_root then Some parent
  else Some (<[N.to_nat other_root := first_root]> parent).

Fixpoint union_rest (first : N) (others : list N) (parent : list N) : option (list N) :=
  match others with
  | [] => Some parent
  | other :: others => parent ← union_nodes first other parent; union_rest first others parent
  end.


(** ** Roots *)

Definition nodes_of (parent : list N) : N := N.of_nat (length parent).

(** Following the parents from [x] ends in [r]. *)
Inductive root (parent : list N) : N -> N -> Prop :=
| root_here x : parent.[x] = Some x -> root parent x x
| root_up x p r : parent.[x] = Some p -> p <> x -> root parent p r -> root parent x r.

Definition same (parent : list N) (x y : N) : Prop := exists r, root parent x r /\ root parent y r.

(** A rank that grows towards the leaves: the parents form a forest. *)
Definition ranked (rank : N -> nat) (parent : list N) : Prop :=
  forall x p, parent.[x] = Some p -> p < nodes_of parent /\ (p <> x -> (rank p < rank x)%nat).

Definition uf_wf (parent : list N) : Prop := exists rank, ranked rank parent.

Lemma lookup_node parent x : x < nodes_of parent -> is_Some (parent.[x]).
Proof. intros Hx. apply lookup_lt_is_Some_2. unfold nodes_of in Hx. lia. Qed.

Lemma lookup_node_lt parent x p : parent.[x] = Some p -> x < nodes_of parent.
Proof. intros Hx%lookup_N_lt. done. Qed.

Lemma root_lt parent x r : root parent x r -> x < nodes_of parent.
Proof. by destruct 1 as [x Hx|x p r Hx _ _]; eapply lookup_node_lt. Qed.

Lemma root_self parent x r : root parent x r -> parent.[r] = Some r.
Proof. by induction 1. Qed.

Lemma root_root parent x r : root parent x r -> root parent r r.
Proof. intros H%root_self. by apply root_here. Qed.

Lemma root_functional parent x r r' : root parent x r -> root parent x r' -> r = r'.
Proof.
  intros H. revert r'. induction H as [x Hx|x p r Hx Hp _ IH]; intros r' H'.
  - inversion H' as [? ?|? p' ? Hx' Hp']; subst; [done|]. congruence.
  - inversion H' as [? Hx'|? p' ? Hx' Hp' Hr']; subst; [congruence|].
    apply IH. congruence.
Qed.

Lemma root_exists rank parent x :
  ranked rank parent -> x < nodes_of parent -> exists r, root parent x r.
Proof.
  intros Hr. remember (rank x) as k eqn:Hk. revert x Hk.
  induction k as [k IH] using lt_wf_ind. intros x -> Hx.
  destruct (lookup_node parent x Hx) as [p Hp]. destruct (decide (p = x)) as [->|Hne].
  { exists x. by apply root_here. }
  destruct (Hr x p Hp) as [Hpn Hlt]. destruct (IH (rank p) (Hlt Hne) p eq_refl Hpn) as [r Hpr].
  exists r. by eapply root_up.
Qed.

Lemma root_step parent x p r : root parent x r -> parent.[x] = Some p -> root parent p r.
Proof.
  intros [y Hy|y q s Hy _ Hs] Hp; [|congruence].
  assert (p = y) as -> by congruence. by apply root_here.
Qed.

(** ** Path halving *)

Section halving.
Context (rank : N -> nat) (parent : list N) (x p grand : N).
Context (Hrank : ranked rank parent) (Hp : parent.[x] = Some p) (Hne : p <> x)
  (Hgrand : parent.[p] = Some grand).

Abbreviation parent' := (<[N.to_nat x := grand]> parent).

Lemma halve_nodes : nodes_of parent' = nodes_of parent.
Proof. unfold nodes_of. by rewrite length_insert. Qed.

Lemma halve_lookup y :
  parent'.[y] = if decide (y = x) then Some grand else parent.[y].
Proof.
  clear Hrank Hne Hgrand. case_decide as E.
  - subst y. rewrite list_lookup_insert_eq; [done|]. by eapply lookup_lt_Some.
  - rewrite list_lookup_insert_ne; [done|]. lia.
Qed.

Lemma halve_rank_lt : (rank grand < rank x)%nat.
Proof.
  destruct (Hrank x p Hp) as [_ H1]. specialize (H1 Hne). destruct (Hrank p grand Hgrand) as [_ H2].
  destruct (decide (grand = p)) as [->|Hg]; [done|]. specialize (H2 Hg). lia.
Qed.

Lemma halve_ranked : ranked rank parent'.
Proof.
  intros y q. rewrite halve_lookup, halve_nodes. case_decide as E.
  - intros [= <-]. subst y. split; [by eapply Hrank|]. intros _. apply halve_rank_lt.
  - apply Hrank.
Qed.

Lemma halve_root_1 y r : root parent y r -> root parent' y r.
Proof.
  induction 1 as [y Hy|y q r Hy Hq _ IH].
  - apply root_here. rewrite halve_lookup. rewrite decide_False; [done|]. intros ->. congruence.
  - destruct (decide (y = x)) as [->|Hyx].
    + assert (q = p) as -> by congruence. pose proof halve_rank_lt.
      apply (root_up _ _ grand); [by rewrite halve_lookup, decide_True| |].
      { intros ->. lia. }
      apply (root_step _ p); [done|]. by rewrite halve_lookup, decide_False.
    + eapply root_up; [|exact Hq|done]. by rewrite halve_lookup, decide_False.
Qed.

Lemma halve_root y r : root parent' y r <-> root parent y r.
Proof.
  split; [|apply halve_root_1]. intros Hr.
  destruct (root_exists rank parent y Hrank) as [s Hs].
  { rewrite <-halve_nodes. by eapply root_lt. }
  by rewrite (root_functional _ _ _ _ Hr (halve_root_1 _ _ Hs)).
Qed.
End halving.

(** The nodes below [x] in rank: what the path from [x] can still visit. *)
Definition nodes_below (rank : N -> nat) (n x : N) : gset N :=
  filter (fun y => (rank y < rank x)%nat) (list_to_set (N.of_nat <$> seq 0 (N.to_nat n)) : gset N).

Lemma elem_of_nodes_below rank n x y :
  y ∈ nodes_below rank n x <-> (rank y < rank x)%nat /\ y < n.
Proof.
  unfold nodes_below. rewrite elem_of_filter, elem_of_list_to_set, list_elem_of_fmap.
  setoid_rewrite elem_of_seq. split.
  - intros (? & k & -> & ?). split; [done|lia].
  - intros (? & ?). split; [done|]. exists (N.to_nat y). lia.
Qed.

Lemma nodes_below_size rank n x : (size (nodes_below rank n x) <= N.to_nat n)%nat.
Proof. apply size_below. intros v [_ Hv]%elem_of_nodes_below. done. Qed.

Lemma nodes_below_decr rank n x y :
  (rank y < rank x)%nat -> y < n -> (size (nodes_below rank n y) < size (nodes_below rank n x))%nat.
Proof.
  intros Hr Hy. apply subset_size. split.
  - intros z. rewrite !elem_of_nodes_below. lia.
  - intros Hs. assert (y ∈ nodes_below rank n x) as Hin%Hs by by apply elem_of_nodes_below.
    apply elem_of_nodes_below in Hin. lia.
Qed.

(** [find_root] returns the root and keeps every node's root. *)
Lemma find_root_spec rank fuel parent x :
  ranked rank parent -> x < nodes_of parent ->
  (size (nodes_below rank (nodes_of parent) x) < fuel)%nat ->
  exists r parent', find_root fuel parent x = Some (r, parent') /\ root parent x r /\
    ranked rank parent' /\ nodes_of parent' = nodes_of parent /\
    forall y s, root parent' y s <-> root parent y s.
Proof.
  revert parent x. induction fuel as [|fuel IH]; intros parent x Hr Hx Hfuel; [lia|]. cbn [find_root].
  destruct (lookup_node parent x Hx) as [p Hp]. rewrite Hp. cbn [mbind option_bind].
  destruct (N.eqb_spec p x) as [->|Hne].
  { exists x, parent. split_and!; [done|by apply root_here|done..]. }
  destruct (Hr x p Hp) as [Hpn _]. destruct (lookup_node parent p Hpn) as [grand Hg]. rewrite Hg.
  cbn [mbind option_bind].
  pose proof (halve_ranked rank parent x p grand Hr Hp Hne Hg) as Hr'.
  pose proof (halve_root rank parent x p grand Hr Hp Hne Hg) as Hroot.
  pose proof (halve_nodes parent x grand) as Hn.
  assert (Hgn : grand < nodes_of parent) by by eapply Hr.
  destruct (IH (<[N.to_nat x := grand]> parent) grand) as (r & parent' & -> & Hxr & ? & ? & Hkeep).
  { done. }
  { by rewrite Hn. }
  { rewrite Hn. pose proof (nodes_below_decr rank (nodes_of parent) x grand
      (halve_rank_lt rank parent x p grand Hr Hp Hne Hg) Hgn). lia. }
  exists r, parent'. split_and!; [done| |done|congruence|].
  - rewrite Hroot in Hxr. apply (root_up _ _ p); [done..|].
    destruct (decide (grand = p)) as [->|]; [done|]. by eapply root_up.
  - intros y s. by rewrite Hkeep, Hroot.
Qed.

Lemma find_root_total rank parent x :
  ranked rank parent -> x < nodes_of parent ->
  exists r parent', find_root (find_fuel parent) parent x = Some (r, parent') /\ root parent x r /\
    ranked rank parent' /\ nodes_of parent' = nodes_of parent /\
    forall y s, root parent' y s <-> root parent y s.
Proof.
  intros Hr Hx. apply find_root_spec; [done..|]. unfold find_fuel.
  pose proof (nodes_below_size rank (nodes_of parent) x). unfold nodes_of in *. lia.
Qed.

(** ** Linking two roots *)

Section linking.
Context (rank : N -> nat) (parent : list N) (r1 r2 : N).
Context (Hrank : ranked rank parent) (H1 : parent.[r1] = Some r1) (H2 : parent.[r2] = Some r2)
  (Hne : r1 <> r2).

Abbreviation linked := (<[N.to_nat r2 := r1]> parent).

Lemma link_nodes : nodes_of linked = nodes_of parent.
Proof. unfold nodes_of. by rewrite length_insert. Qed.

Lemma link_lookup y : linked.[y] = if decide (y = r2) then Some r1 else parent.[y].
Proof.
  clear Hrank H1 Hne. case_decide as E.
  - subst y. rewrite list_lookup_insert_eq; [done|]. by eapply lookup_lt_Some.
  - rewrite list_lookup_insert_ne; [done|]. lia.
Qed.

(** The root of a node, by running [find_root]. *)
Definition root_of (y : N) : N :=
  match find_root (find_fuel parent) parent y with Some (r, _) => r | None => y end.

Lemma root_of_root y : y < nodes_of parent -> root parent y (root_of y).
Proof.
  intros Hy. unfold root_of. by destruct (find_root_total rank parent y Hrank Hy) as (r & q & -> & Hr & _).
Qed.

Lemma root_of_parent y p : parent.[y] = Some p -> root_of p = root_of y.
Proof.
  intros Hp. pose proof (lookup_node_lt _ _ _ Hp) as Hy. pose proof (root_of_root y Hy) as Hr.
  destruct (Hrank y p Hp) as [Hpn _]. eapply root_functional; [by apply root_of_root|].
  by eapply root_step.
Qed.

Lemma root_of_self r : parent.[r] = Some r -> root_of r = r.
Proof.
  intros Hr. eapply root_functional; [apply root_of_root|by apply root_here]. by eapply lookup_node_lt.
Qed.

(** The tree of [r2] is lifted above [r1]. *)
Definition link_rank (y : N) : nat :=
  if decide (root_of y = r2) then (rank y + S (rank r1))%nat else rank y.

Lemma link_ranked : ranked link_rank linked.
Proof.
  intros y p. rewrite link_lookup, link_nodes. case_decide as E.
  - intros [= <-]. split; [by eapply Hrank|]. intros _. unfold link_rank.
    rewrite (decide_True (P := root_of y = r2)) by (subst y; by apply root_of_self).
    rewrite decide_False by (by rewrite root_of_self). lia.
  - intros Hp. destruct (Hrank y p Hp) as [Hpn Hlt]. split; [done|]. intros Hpy. specialize (Hlt Hpy).
    unfold link_rank. rewrite (root_of_parent y p Hp). case_decide; lia.
Qed.

Lemma link_root y r : root parent y r -> root linked y (if decide (r = r2) then r1 else r).
Proof.
  induction 1 as [y Hy|y p r Hy Hp Hr IH].
  - case_decide as E.
    + subst y. apply (root_up _ _ r1); [by rewrite link_lookup, decide_True|done|].
      apply root_here. rewrite link_lookup. by rewrite decide_False.
    + apply root_here. by rewrite link_lookup, decide_False.
  - eapply root_up; [|exact Hp|exact IH]. rewrite link_lookup, decide_False; [done|].
    intros ->. congruence.
Qed.
End linking.

Lemma same_sym parent x y : same parent x y -> same parent y x.
Proof. intros (r & ? & ?). by exists r. Qed.

Lemma same_roots parent x y r s : root parent x r -> root parent y s -> same parent x y <-> r = s.
Proof.
  intros Hx Hy. split.
  - intros (t & Hxt & Hyt). rewrite (root_functional _ _ _ _ Hx Hxt).
    by rewrite (root_functional _ _ _ _ Hy Hyt).
  - intros <-. by exists r.
Qed.

Lemma same_keep parent parent' x y :
  (forall z s, root parent' z s <-> root parent z s) -> same parent' x y <-> same parent x y.
Proof. intros Hk. unfold same. by setoid_rewrite Hk. Qed.

(** [union_nodes] joins the classes of its two nodes and no others. *)
Lemma union_nodes_spec parent a b :
  uf_wf parent -> a < nodes_of parent -> b < nodes_of parent ->
  exists parent', union_nodes a b parent = Some parent' /\ uf_wf parent' /\
    nodes_of parent' = nodes_of parent /\
    forall x y, x < nodes_of parent -> y < nodes_of parent ->
      same parent' x y <->
        same parent x y \/ (same parent x a /\ same parent b y) \/ (same parent x b /\ same parent a y).
Proof.
  intros [rank Hrank] Ha Hb. unfold union_nodes.
  destruct (find_root_total rank parent a Hrank Ha) as (ra & p1 & -> & Hra & Hr1 & Hn1 & Hk1).
  cbn [mbind option_bind].
  destruct (find_root_total rank p1 b Hr1 ltac:(by rewrite Hn1)) as (rb & p2 & -> & Hrb & Hr2 & Hn2 & Hk2).
  cbn [mbind option_bind]. rewrite Hk1 in Hrb.
  assert (Hk : forall z s, root p2 z s <-> root parent z s) by (intros; by rewrite Hk2, Hk1).
  assert (Hroots : forall x y, x < nodes_of parent -> y < nodes_of parent -> exists rx ry,
    root parent x rx /\ root parent y ry).
  { intros x y Hx Hy. destruct (root_exists rank parent x Hrank Hx) as [rx ?].
    destruct (root_exists rank parent y Hrank Hy) as [ry ?]. by exists rx, ry. }
  destruct (N.eqb_spec ra rb) as [<-|Hne].
  - exists p2. split_and!; [done|by exists rank|congruence|]. intros x y Hx Hy.
    rewrite (same_keep parent p2 x y Hk). destruct (Hroots x y Hx Hy) as (rx & ry & Hrx & Hry).
    rewrite (same_roots _ _ _ _ _ Hrx Hry), (same_roots _ _ _ _ _ Hrx Hra), (same_roots _ _ _ _ _ Hrb Hry),
      (same_roots _ _ _ _ _ Hrx Hrb), (same_roots _ _ _ _ _ Hra Hry). intuition congruence.
  - assert (H1 : p2.[ra] = Some ra) by (apply (root_self p2 a); by apply Hk).
    assert (H2 : p2.[rb] = Some rb) by (apply (root_self p2 b); by apply Hk).
    eexists. split; [reflexivity|]. split; [eexists; by apply (link_ranked rank p2 ra rb)|].
    split; [rewrite link_nodes; congruence|].
    intros x y Hx Hy. destruct (Hroots x y Hx Hy) as (rx & ry & Hrx & Hry).
    rewrite (same_roots _ _ _ _ _ Hrx Hry), (same_roots _ _ _ _ _ Hrx Hra), (same_roots _ _ _ _ _ Hrb Hry),
      (same_roots _ _ _ _ _ Hrx Hrb), (same_roots _ _ _ _ _ Hra Hry).
    apply Hk in Hrx, Hry. apply (link_root p2 ra rb H1 H2 Hne) in Hrx, Hry.
    rewrite (same_roots _ _ _ _ _ Hrx Hry). repeat case_decide; intuition congruence.
Qed.

(** ** Classes *)

(** The classes of [parent] are those of the relation [E]. *)
Definition classes (parent : list N) (E : N -> N -> Prop) : Prop :=
  forall x y, x < nodes_of parent -> y < nodes_of parent -> same parent x y <-> rtsc E x y.

Definition within (n : N) (E : N -> N -> Prop) : Prop := forall x y, E x y -> x < n /\ y < n.

Lemma rtsc_within n E x y : within n E -> rtsc E x y -> x = y \/ (x < n /\ y < n).
Proof.
  intros HE. induction 1 as [x|x y z Hxy _ IH]; [by left|].
  assert (x < n /\ y < n) as [? ?] by (destruct Hxy as [H|H]; apply HE in H; tauto).
  right. destruct IH as [->|[? ?]]; done.
Qed.

Lemma rtsc_add (E : N -> N -> Prop) a b x y :
  rtsc (fun u v => E u v \/ (u = a /\ v = b)) x y <->
  rtsc E x y \/ (rtsc E x a /\ rtsc E b y) \/ (rtsc E x b /\ rtsc E a y).
Proof.
  set (E' := fun u v => E u v \/ (u = a /\ v = b)).
  assert (Hsub : forall u v, rtsc E u v -> rtsc E' u v).
  { intros u v. apply rtc_subrel. intros s t [?|?]; [left|right]; by left. }
  assert (Hab : rtsc E' a b) by (apply rtc_once; left; by right).
  split.
  - induction 1 as [x|x z y Hxz _ IH]; [left; apply rtc_refl|].
    assert (Hstep : rtsc E x z \/ (x = a /\ z = b) \/ (x = b /\ z = a)).
    { destruct Hxz as [[?|?]|[?|[-> ->]]]; [left; apply rtc_once; by left|tauto|
        left; apply rtc_once; by right|tauto]. }
    destruct Hstep as [Hs|[[-> ->]|[-> ->]]].
    + destruct IH as [IH|[[? ?]|[? ?]]]; [left|right; left|right; right]; try split; try done; by etrans.
    + destruct IH as [IH|[[? ?]|[? ?]]].
      * right. left. split; [apply rtc_refl|done].
      * right. left. split; [apply rtc_refl|done].
      * left. done.
    + destruct IH as [IH|[[? ?]|[? ?]]].
      * right. right. split; [apply rtc_refl|done].
      * left. done.
      * right. right. split; [apply rtc_refl|done].
  - intros [?|[[H1 H2]|[H1 H2]]]; [by apply Hsub| |].
    + etrans; [by apply Hsub|]. etrans; [exact Hab|by apply Hsub].
    + etrans; [by apply Hsub|]. etrans; [symmetry; exact Hab|by apply Hsub].
Qed.

Lemma classes_ext parent (E E' : N -> N -> Prop) :
  (forall x y, rtsc E x y <-> rtsc E' x y) -> classes parent E -> classes parent E'.
Proof. intros HE Hc x y Hx Hy. rewrite <-HE. by apply Hc. Qed.

Lemma union_nodes_classes parent E a b :
  uf_wf parent -> classes parent E -> a < nodes_of parent -> b < nodes_of parent ->
  exists parent', union_nodes a b parent = Some parent' /\ uf_wf parent' /\
    nodes_of parent' = nodes_of parent /\
    classes parent' (fun u v => E u v \/ (u = a /\ v = b)).
Proof.
  intros Hwf Hc Ha Hb. destruct (union_nodes_spec parent a b Hwf Ha Hb) as (p' & ? & ? & Hn & Hs).
  exists p'. split_and!; [done..|]. intros x y Hx Hy. rewrite Hn in Hx, Hy.
  rewrite rtsc_add, (Hs x y Hx Hy).
  by rewrite (Hc x y), (Hc x a), (Hc b y), (Hc x b), (Hc a y).
Qed.

Lemma union_rest_classes parent E first others :
  uf_wf parent -> classes parent E -> first < nodes_of parent ->
  (forall o, o ∈ others -> o < nodes_of parent) ->
  exists parent', union_rest first others parent = Some parent' /\ uf_wf parent' /\
    nodes_of parent' = nodes_of parent /\
    classes parent' (fun u v => E u v \/ (u = first /\ v ∈ others)).
Proof.
  revert parent E. induction others as [|o others IH]; intros parent E Hwf Hc Hf Ho; cbn [union_rest].
  { exists parent. split_and!; [done..|]. eapply classes_ext; [|done].
    intros x y. split; apply rtc_subrel; intros u v [?|?]; [left|right|left|right]; set_solver. }
  destruct (union_nodes_classes parent E first o Hwf Hc Hf) as (p1 & -> & Hwf1 & Hn1 & Hc1).
  { apply Ho. left. }
  cbn [mbind option_bind]. destruct (IH p1 _ Hwf1 Hc1) as (p' & -> & Hwf' & Hn' & Hc').
  { by rewrite Hn1. }
  { intros q Hq. rewrite Hn1. apply Ho. by right. }
  exists p'. split_and!; [done..|congruence|]. eapply classes_ext; [|done].
  intros x y. split; apply rtc_subrel; intros u v [?|?]; [left|right|left|right]; set_solver.
Qed.

(** Linking the first of some nodes to the others puts them all in one class. *)
Lemma star_clique (E : N -> N -> Prop) (first : N) (others : list N) (X : gset N) :
  (forall x, x ∈ X <-> x = first \/ x ∈ others) ->
  forall x y, rtsc (fun u v => E u v \/ (u = first /\ v ∈ others)) x y <->
              rtsc (fun u v => E u v \/ (u ∈ X /\ v ∈ X)) x y.
Proof.
  intros HX x y. set (S := fun u v => E u v \/ (u = first /\ v ∈ others)).
  assert (Hf : forall u, u ∈ X -> rtsc S first u).
  { intros u [->|Hu]%HX; [apply rtc_refl|]. apply rtc_once. left. by right. }
  split.
  - apply rtc_subrel. intros u v [[?|[-> ?]]|[?|[-> ?]]]; [left; by left| |right; by left|].
    + left. right. split; apply HX; [by left|by right].
    + right. right. split; apply HX; [by left|by right].
  - induction 1 as [x|x z y Hxz _ IH]; [apply rtc_refl|]. etrans; [|exact IH].
    destruct Hxz as [[?|[Hx Hz]]|[?|[Hz Hx]]]; [apply rtc_once; left; by left| |
      apply rtc_once; right; by left|];
      (etrans; [symmetry; by apply Hf|by apply Hf]).
Qed.

(** Every node is its own class to begin with. *)
Definition identity_parent (n : nat) : list N := N.of_nat <$> seq 0 n.

Lemma identity_lookup n x : x < N.of_nat n -> (identity_parent n).[x] = Some x.
Proof.
  intros Hx. unfold identity_parent. rewrite list_lookup_fmap, lookup_seq_lt by lia.
  simpl. f_equal. lia.
Qed.

Lemma identity_nodes n : nodes_of (identity_parent n) = N.of_nat n.
Proof. unfold nodes_of, identity_parent. by rewrite length_fmap, length_seq. Qed.

Lemma identity_wf n : uf_wf (identity_parent n).
Proof.
  exists (fun _ => 0%nat). intros x p Hp. rewrite identity_nodes.
  pose proof (lookup_node_lt _ _ _ Hp) as Hx. rewrite identity_nodes in Hx.
  rewrite identity_lookup in Hp by done. injection Hp as ->. done.
Qed.

Lemma identity_classes n : classes (identity_parent n) (fun _ _ => False).
Proof.
  intros x y. rewrite identity_nodes. intros Hx Hy.
  rewrite (same_roots _ x y x y) by (by apply root_here, identity_lookup). split.
  - intros ->. apply rtc_refl.
  - induction 1 as [|x z y [[]|[]]]; done.
Qed.
