(* ===== verification/JoinRegionSpec.v ===== *)
(** * CJoinRegionSpec: a binary join region and its CD-C conflict rules

    Model of libgpopt/src/xforms/CJoinRegionSpec.cpp.  [PbsCollect] walks the
    original binary join tree in place: unsupported subtrees become the atoms
    (numbered left to right), joins become the edges (in post-order).
    [BuildEligibility] computes for every edge its syntactic and total
    eligibility sets and the conflict rules of the CD-C detector;
    [FApplicable] tests an edge against a candidate pair of node sets.  *)

From S2P Require Import Prelude NodeSet Expression.

Open Scope N_scope.

Record CConflictRule (BS : Type) := MkRule { m_activate : BS; m_required : BS }.
Arguments MkRule {BS} _ _.
Arguments m_activate {BS} _.
Arguments m_required {BS} _.

(** [m_ses] and [m_tes] are null until [BuildEligibility]; [m_all] is built by
    the constructor. *)
Record CEdge (BS : Type) := MkCEdge {
  m_join_type : EOperatorId;
  m_eleft : BS;
  m_eright : BS;
  m_all : BS;
  m_ses : option BS;
  m_tes : option BS;
  m_predicate : CExpression;
  m_notin_comparison : option CExpression;
  m_conflict_rules : list (CConflictRule BS)
}.
Arguments MkCEdge {BS} _ _ _ _ _ _ _ _ _.
Arguments m_join_type {BS} _.
Arguments m_eleft {BS} _.
Arguments m_eright {BS} _.
Arguments m_all {BS} _.
Arguments m_ses {BS} _.
Arguments m_tes {BS} _.
Arguments m_predicate {BS} _.
Arguments m_notin_comparison {BS} _.
Arguments m_conflict_rules {BS} _.

Record CJoinRegionSpec (BS : Type) := MkSpec {
  m_atoms : list CExpression;
  m_sedges : list (CEdge BS);
  m_dependencies : list BS;
  m_pure_inner : bool;
  m_cdc_supported : bool;
  m_external_dependencies : bool;
  m_dependency_count : N
}.
Arguments MkSpec {BS} _ _ _ _ _ _ _.
Arguments m_atoms {BS} _.
Arguments m_sedges {BS} _.
Arguments m_dependencies {BS} _.
Arguments m_pure_inner {BS} _.
Arguments m_cdc_supported {BS} _.
Arguments m_external_dependencies {BS} _.
Arguments m_dependency_count {BS} _.

Definition FSupportedBinaryJoin (op_id : EOperatorId) : bool :=
  match op_id with
  | EopLogicalInnerJoin | EopLogicalLeftOuterJoin | EopLogicalLeftSemiJoin
  | EopLogicalLeftAntiSemiJoin | EopLogicalLeftAntiSemiJoinNotIn
  | EopLogicalFullOuterJoin | EopLogicalRightOuterJoin => true
  | EopOther _ => false
  end.

Definition FCDCSupportedJoin (op_id : EOperatorId) : bool :=
  match op_id with
  | EopLogicalInnerJoin | EopLogicalLeftOuterJoin | EopLogicalLeftSemiJoin
  | EopLogicalLeftAntiSemiJoin | EopLogicalLeftAntiSemiJoinNotIn
  | EopLogicalFullOuterJoin => true
  | EopLogicalRightOuterJoin | EopOther _ => false
  end.

Definition FInnerJoin (op_id : EOperatorId) : bool := bool_decide (op_id = EopLogicalInnerJoin).

(** ** Marking of regions *)

Section marking.
Context {CS : Type} `{DerivedProps CS}.

(** The operator of a marked join: each case of the [switch] builds the join
    anew from its origin xform and the two marks, [NotIn] keeping its
    comparison. *)
Definition marked_op (op : COperator) (region_root : bool) : COperator :=
  let notin := if bool_decide (Eopid op = EopLogicalLeftAntiSemiJoinNotIn)
               then PexprNotInComparison op else None in
  MkOperator (Eopid op) (OriginXform op) true region_root notin 0.

(** The children are marked with [parent_is_join] for the first two children of
    a join only. *)
Fixpoint PexprMarkDPHyperRegions (include_complex preserve_bindings : bool) (expr : CExpression)
    (parent_is_join : bool) : CExpression :=
  let 'MkExpression op children pgexpr := expr in
  if preserve_bindings && bool_decide (is_Some pgexpr) then expr else
  let is_join_op := FInnerJoin (Eopid op) || (include_complex && FCDCSupportedJoin (Eopid op)) in
  if bool_decide (children = []) && bool_decide (is_Some pgexpr) then MkExpression op [] pgexpr else
  let is_join :=
    is_join_op &&
    negb (match children with [_; _; predicate] => DeriveHasSubquery predicate | _ => false end) in
  let mark := PexprMarkDPHyperRegions include_complex preserve_bindings in
  let children' :=
    (fix mark_children (child : nat) (l : list CExpression) : list CExpression :=
       match l with
       | [] => []
       | e :: l => mark e (is_join && (child <? 2)%nat) :: mark_children (S child) l
       end) 0%nat children in
  let op' := if is_join then marked_op op (negb parent_is_join) else op in
  MkExpression op' children' None.

(** *** What marking does *)

(** The joins a pass owns: a predicate with a subquery keeps its join out. *)
Definition region_join (include_complex : bool) (e : CExpression) : bool :=
  let id := Eopid (Pop e) in
  (FInnerJoin id || (include_complex && FCDCSupportedJoin id)) &&
  negb (match Children e with [_; _; predicate] => DeriveHasSubquery predicate | _ => false end).

(** Bindings of memo groups: all of them when bindings are preserved, the
    leaves among them otherwise. *)
Definition opaque (preserve_bindings : bool) (e : CExpression) : bool :=
  bool_decide (is_Some (Pgexpr e)) && (preserve_bindings || bool_decide (Children e = [])).

(** Outside the bindings only joins the pass owns may carry a mark, which they
    then lose. *)
Fixpoint markable (include_complex preserve_bindings : bool) (e : CExpression) : Prop :=
  let 'MkExpression op children _ := e in
  if opaque preserve_bindings e then True else
  (region_join include_complex e = false -> FDPHyperRegionMember op = false /\ FDPHyperRegionRoot op = false) /\
  (fix go (l : list CExpression) : Prop :=
     match l with [] => True | e :: l => markable include_complex preserve_bindings e /\ go l end) children.

(** The marks of a tree, outside its bindings: a member is a root exactly when it
    is not one of the first two children of a member; nothing else is a root. *)
Fixpoint well_marked (parent_is_member : bool) (e : CExpression) : Prop :=
  let 'MkExpression op children g := e in
  if bool_decide (is_Some g) then True else
  FDPHyperRegionRoot op = FDPHyperRegionMember op && negb parent_is_member /\
  (fix go (child : nat) (l : list CExpression) : Prop :=
     match l with
     | [] => True
     | e :: l => well_marked (FDPHyperRegionMember op && (child <? 2)%nat) e /\ go (S child) l
     end) 0%nat children.

(** [e'] is the same query as [e], with exactly the region joins marked: bindings
    are untouched, with the marks they have; elsewhere the operators agree on what
    a join is built from, other operators are the same, and the node is no binding
    any more. *)
Fixpoint marking_of (include_complex preserve_bindings : bool) (e e' : CExpression) : Prop :=
  let 'MkExpression op children _ := e in
  let 'MkExpression op' children' g' := e' in
  if opaque preserve_bindings e then e' = e else
  FDPHyperRegionMember op' = region_join include_complex e /\
  Eopid op' = Eopid op /\ OriginXform op' = OriginXform op /\
  (Eopid op = EopLogicalLeftAntiSemiJoinNotIn -> PexprNotInComparison op' = PexprNotInComparison op) /\
  (region_join include_complex e = false -> op' = op) /\ g' = None /\
  (fix go (l l' : list CExpression) : Prop :=
     match l, l' with
     | [], [] => True
     | e :: l, e' :: l' => marking_of include_complex preserve_bindings e e' /\ go l l'
     | _, _ => False
     end) children children'.

(** One node of [PexprMarkDPHyperRegions]. *)
Lemma mark_node_ok include_complex preserve_bindings op children g parent :
  let mark := PexprMarkDPHyperRegions include_complex preserve_bindings in
  let expr := MkExpression op children g in
  Forall (fun e => forall parent, markable include_complex preserve_bindings e ->
    well_marked parent (mark e parent) /\
    marking_of include_complex preserve_bindings e (mark e parent)) children ->
  markable include_complex preserve_bindings expr ->
  well_marked parent (mark expr parent) /\
  marking_of include_complex preserve_bindings expr (mark expr parent).
Proof.
  intros mark expr IH Hun. unfold mark, expr. cbn [PexprMarkDPHyperRegions].
  destruct (preserve_bindings && _) eqn:Hpres.
  { apply andb_prop in Hpres as [-> Hg]. cbn [well_marked marking_of]. unfold opaque. cbn [Pgexpr Children].
    by rewrite Hg. }
  destruct (bool_decide (children = []) && _) eqn:Hleaf.
  { apply andb_prop in Hleaf as [Hnil Hg]. cbn [well_marked marking_of]. unfold opaque. cbn [Pgexpr Children].
    rewrite Hnil, Hg, orb_true_r. apply bool_decide_eq_true_1 in Hnil. by subst. }
  assert (Hop : opaque preserve_bindings expr = false).
  { unfold opaque. cbn. destruct (bool_decide (is_Some g)); [|done].
    rewrite andb_true_r in Hpres, Hleaf. by rewrite Hpres, Hleaf. }
  change ((FInnerJoin _ || _) && negb _) with (region_join include_complex expr).
  cbn [marking_of]. fold expr. rewrite Hop. unfold expr in Hun. cbn [markable] in Hun. fold expr in Hun.
  rewrite Hop in Hun. destruct Hun as [Hmarks Hun]. set (is_join := region_join include_complex expr) in *.
  assert (Hm : FDPHyperRegionMember (if is_join then marked_op op (negb parent) else op) = is_join).
  { destruct is_join; [done|]. by apply Hmarks. }
  assert (Hr : FDPHyperRegionRoot (if is_join then marked_op op (negb parent) else op) =
      is_join && negb parent).
  { destruct is_join; [done|]. by apply Hmarks. }
  cbn [well_marked]. rewrite (bool_decide_eq_false_2 (is_Some None)) by by intros [].
  rewrite Hm, Hr.
  split; [split; [done|]|split_and!; [done|by destruct is_join|by destruct is_join| |by intros ->|done|]].
  - clear Hop Hm Hr Hleaf Hmarks. clearbody is_join. set (two := 2%nat). clearbody two. generalize 0%nat.
    induction IH as [|e l He _ IHl]; intros k; [done|]. destruct Hun as [Hu Hus].
    split; [by apply He|by apply IHl].
  - intros Hn. destruct is_join; [|done]. unfold marked_op. cbn. by rewrite bool_decide_true.
  - clear Hop Hm Hr Hleaf Hmarks. clearbody is_join. set (two := 2%nat). clearbody two. generalize 0%nat.
    induction IH as [|e l He _ IHl]; intros k; [done|]. destruct Hun as [Hu Hus].
    split; [by apply He|by apply IHl].
Qed.

(** C40: Marking an expression in which, outside the bindings of memo groups, only
    joins the pass owns carry marks.  The bindings that are kept stay as they are,
    with their own marks.  Elsewhere exactly the region joins are marked, a node
    loses its binding and is the same but for the marks, and a marked join is a
    root exactly when it is not one of the two relational children of a marked
    join: every maximal region of rebuilt joins has one root. *)
Theorem Mark_one_root_per_region include_complex preserve_bindings expr parent_is_join
    (Hun : markable include_complex preserve_bindings expr) :
  well_marked parent_is_join
    (PexprMarkDPHyperRegions include_complex preserve_bindings expr parent_is_join) /\
  marking_of include_complex preserve_bindings expr
    (PexprMarkDPHyperRegions include_complex preserve_bindings expr parent_is_join).
Proof.
  revert parent_is_join Hun.
  induction expr as [op children g IH] using CExpression_children_ind. intros parent.
  by apply mark_node_ok.
Qed.
End marking.


(** ** Collecting the skeleton *)

Section region.
Context {BS CS : Type} {HB : NodeSet BS} {HC : NodeSet CS} {HD : DerivedProps CS}.
Implicit Types (nodes used available tes : BS) (edge child : CEdge BS)
  (spec : CJoinRegionSpec BS) (expr : CExpression).

Definition CJoinRegionSpec_New : CJoinRegionSpec BS := MkSpec [] [] [] true true false 0.

(** The [CEdge] constructor. *)
Definition CEdge_New (join_type : EOperatorId) (left right : BS) (predicate : CExpression)
    (notin_comparison : option CExpression) : CEdge BS :=
  MkCEdge join_type left right (ns_Union left right) None None predicate notin_comparison [].

Definition with_atoms (a : list CExpression) spec : CJoinRegionSpec BS :=
  MkSpec a (m_sedges spec) (m_dependencies spec) (m_pure_inner spec) (m_cdc_supported spec)
    (m_external_dependencies spec) (m_dependency_count spec).
Definition with_edges (es : list (CEdge BS)) (pure_inner cdc : bool) spec : CJoinRegionSpec BS :=
  MkSpec (m_atoms spec) es (m_dependencies spec) pure_inner cdc
    (m_external_dependencies spec) (m_dependency_count spec).
Definition with_dependencies (ds : list BS) (ext : bool) (count : N) spec : CJoinRegionSpec BS :=
  MkSpec (m_atoms spec) (m_sedges spec) ds (m_pure_inner spec) (m_cdc_supported spec) ext count.

(** The atom branch of [PbsCollect]. *)
Definition collect_atom expr spec : BS * CJoinRegionSpec BS :=
  let node_id := N.of_nat (length (m_atoms spec)) in
  ((ns_ExchangeSet ns_empty node_id).1, with_atoms (m_atoms spec ++ [expr]) spec).

Fixpoint PbsCollect (expr : CExpression) (spec : CJoinRegionSpec BS) : BS * CJoinRegionSpec BS :=
  let 'MkExpression op children _ := expr in
  let op_id := Eopid op in
  match children with
  | [e0; e1; predicate] =>
      if FSupportedBinaryJoin op_id then
        let '(lset, spec) := PbsCollect e0 spec in
        let '(rset, spec) := PbsCollect e1 spec in
        let notin_comparison :=
          if bool_decide (op_id = EopLogicalLeftAntiSemiJoinNotIn)
          then PexprNotInComparison op else None in
        let edge := CEdge_New op_id lset rset predicate notin_comparison in
        let pure_inner :=
          if bool_decide (op_id <> EopLogicalInnerJoin) then false else m_pure_inner spec in
        let cdc := if FCDCSupportedJoin op_id then m_cdc_supported spec else false in
        (ns_Union lset rset, with_edges (m_sedges spec ++ [edge]) pure_inner cdc spec)
      else collect_atom expr spec
  | _ => collect_atom expr spec
  end.

(** ** Dependencies between atoms *)

(** The inner loop over the providers: the dependencies, their count and the
    unresolved columns; it stops when every column is resolved. *)
Fixpoint providers_loop (node : nat) (atoms : list CExpression) (provider : nat)
    (acc : BS * N * CS) : BS * N * CS :=
  let '(dependencies, count, unresolved) := acc in
  match atoms with
  | [] => acc
  | atom :: atoms =>
      if negb (0 <? ns_Size unresolved) then acc else
      if bool_decide (provider = node) then providers_loop node atoms (S provider) acc else
      let outputs := DeriveOutputColumns atom in
      if FIntersects unresolved outputs then
        providers_loop node atoms (S provider)
          ((ns_ExchangeSet dependencies (N.of_nat provider)).1, count +[ULONG_BITS] 1,
           Exclude unresolved outputs)
      else providers_loop node atoms (S provider) acc
  end.

Fixpoint dependencies_loop (rest : list CExpression) (node : nat) spec : CJoinRegionSpec BS :=
  match rest with
  | [] => spec
  | atom :: rest =>
      let '(dependencies, count, unresolved) :=
        providers_loop node (m_atoms spec) 0
          (ns_empty, m_dependency_count spec, DeriveOuterReferences atom) in
      let external := (0 <? ns_Size unresolved) || m_external_dependencies spec in
      dependencies_loop rest (S node)
        (with_dependencies (m_dependencies spec ++ [dependencies]) external count spec)
  end.

Definition BuildDependencies spec : CJoinRegionSpec BS := dependencies_loop (m_atoms spec) 0 spec.

(** ** Eligibility *)

(** [PbsPredicateCover]: the atoms whose output the predicate uses. *)
Fixpoint cover_loop (used : CS) (atoms : list CExpression) (node : N) (cover : BS) : BS :=
  match atoms with
  | [] => cover
  | atom :: atoms =>
      cover_loop used atoms (node + 1)
        (if negb (ns_IsDisjoint used (DeriveOutputColumns atom))
         then (ns_ExchangeSet cover node).1 else cover)
  end.

Definition PbsPredicateCover (atoms : list CExpression) (predicate : CExpression) : BS :=
  cover_loop (DeriveUsedColumns predicate) atoms 0 ns_empty.

(** [None] is the out-of-range access [m_atoms[iter.Bit()]]. *)
Fixpoint nodes_loop (atoms : list CExpression) (bits : list N) (columns : CS) : option CS :=
  match bits with
  | [] => Some columns
  | node :: bits =>
      atom ← atoms.[node];
      nodes_loop atoms bits (ns_Union columns (DeriveOutputColumns atom))
  end.

Definition PcrsNodes (atoms : list CExpression) nodes : option CS :=
  nodes_loop atoms (ns_bits nodes) ns_empty.

Definition FNullRejecting (atoms : list CExpression) edge nodes : option bool :=
  columns ← PcrsNodes atoms nodes;
  Some (PredicateNullRejecting (m_predicate edge) columns).

(** [a && b] of the code: [b] is not evaluated when [a] is false. *)
Definition and_then (a b : option bool) : option bool :=
  x ← a; if (x : bool) then b else Some false.

Definition FAssociative (atoms : list CExpression) (left right : CEdge BS) : option bool :=
  let left_type := m_join_type left in
  let right_type := m_join_type right in
  if (bool_decide (left_type = EopLogicalLeftOuterJoin) ||
      bool_decide (left_type = EopLogicalFullOuterJoin)) &&
     bool_decide (right_type = EopLogicalLeftOuterJoin)
  then FNullRejecting atoms right (m_eleft right)
  else if bool_decide (left_type = EopLogicalFullOuterJoin) &&
          bool_decide (right_type = EopLogicalFullOuterJoin)
  then and_then (FNullRejecting atoms left (m_eright left))
                (FNullRejecting atoms right (m_eleft right))
  else Some (FInnerJoin left_type && negb (bool_decide (right_type = EopLogicalFullOuterJoin))).

Definition FLeftAsscom (atoms : list CExpression) (left right : CEdge BS) : option bool :=
  let left_type := m_join_type left in
  let right_type := m_join_type right in
  let right_full := bool_decide (right_type = EopLogicalFullOuterJoin) in
  if bool_decide (left_type = EopLogicalLeftOuterJoin) then
    if negb right_full then Some true else FNullRejecting atoms left (m_eleft left)
  else if bool_decide (left_type = EopLogicalFullOuterJoin) then
    if bool_decide (right_type = EopLogicalLeftOuterJoin)
    then FNullRejecting atoms right (m_eright right)
    else if right_full
    then and_then (FNullRejecting atoms left (m_eleft left))
                  (FNullRejecting atoms right (m_eleft right))
    else Some false
  else Some (negb right_full).

Definition FRightAsscom (atoms : list CExpression) (left right : CEdge BS) : option bool :=
  if bool_decide (m_join_type left = EopLogicalFullOuterJoin) &&
     bool_decide (m_join_type right = EopLogicalFullOuterJoin)
  then and_then (FNullRejecting atoms left (m_eright left))
                (FNullRejecting atoms right (m_eright right))
  else Some (FInnerJoin (m_join_type left) && FInnerJoin (m_join_type right)).

Definition PbsIntersectIfNotDegenerate used available : BS :=
  let result := ns_Intersection used available in
  if 0 =? ns_Size result then available else result.

Definition with_eligibility (ses tes : option BS) (rules : list (CConflictRule BS)) edge : CEdge BS :=
  MkCEdge (m_join_type edge) (m_eleft edge) (m_eright edge) (m_all edge) ses tes
    (m_predicate edge) (m_notin_comparison edge) rules.

(** One rule inside the round: a rule that [tes] activates and does not satisfy
    adds its required nodes. *)
Definition absorb_rule (acc : BS * bool) (rule : CConflictRule BS) : BS * bool :=
  let '(tes, changed) := acc in
  if negb (ns_IsDisjoint tes (m_activate rule)) && negb (ns_ContainsAll tes (m_required rule))
  then (ns_Union tes (m_required rule), true) else (tes, changed).

(** [while (changed)]: every round but the last satisfies one more rule, so
    there are at most [length rules + 1] of them. *)
Fixpoint absorb_loop (fuel : nat) (rules : list (CConflictRule BS)) (tes : BS) : option BS :=
  match fuel with
  | O => None
  | S fuel =>
      let '(tes, changed) := fold_left absorb_rule rules (tes, false) in
      if changed then absorb_loop fuel rules tes else Some tes
  end.

Definition AbsorbConflictRules edge : option (CEdge BS) :=
  tes ← m_tes edge;
  tes ← absorb_loop (S (length (m_conflict_rules edge))) (m_conflict_rules edge) tes;
  let kept := filter (fun rule => ns_ContainsAll tes (m_required rule) = false)
                (m_conflict_rules edge) in
  Some (with_eligibility (m_ses edge) (Some tes) kept edge).

Definition AddConflictRule (rules : list (CConflictRule BS)) (activate required : BS)
    : list (CConflictRule BS) := rules ++ [MkRule activate required].

(** [if (!holds) AddConflictRule(edge, activate, child->SES() cut to available)] *)
Definition rule_unless (holds : option bool) child (activate available : BS)
    (rules : list (CConflictRule BS)) : option (list (CConflictRule BS)) :=
  holds ← holds;
  if (holds : bool) then Some rules else
  ses ← m_ses child;
  Some (AddConflictRule rules activate (PbsIntersectIfNotDegenerate ses available)).

(** The rules edge gets from one earlier edge. *)
Definition child_rules (atoms : list CExpression) edge child (rules : list (CConflictRule BS))
    : option (list (CConflictRule BS)) :=
  if ns_ContainsAll (m_eleft edge) (m_all child) then
    rules ← rule_unless (FAssociative atoms child edge) child (m_eright child) (m_eleft child) rules;
    rule_unless (FLeftAsscom atoms child edge) child (m_eleft child) (m_eright child) rules
  else if ns_ContainsAll (m_eright edge) (m_all child) then
    rules ← rule_unless (FAssociative atoms edge child) child (m_eleft child) (m_eright child) rules;
    rule_unless (FRightAsscom atoms edge child) child (m_eright child) (m_eleft child) rules
  else Some rules.

Fixpoint children_rules (atoms : list CExpression) edge (children : list (CEdge BS))
    (rules : list (CConflictRule BS)) : option (list (CConflictRule BS)) :=
  match children with
  | [] => Some rules
  | child :: children =>
      rules ← child_rules atoms edge child rules;
      children_rules atoms edge children rules
  end.

(** [if (m_tes->IsDisjoint(side)) { m_tes->Union(side); AbsorbConflictRules }] *)
Definition cover_side (side : BS) edge : option (CEdge BS) :=
  tes ← m_tes edge;
  if ns_IsDisjoint tes side
  then AbsorbConflictRules
         (with_eligibility (m_ses edge) (Some (ns_Union tes side)) (m_conflict_rules edge) edge)
  else Some edge.

(** [children] are the edges before [edge] in [m_edges]. *)
Definition BuildEligibility (atoms : list CExpression) (children : list (CEdge BS)) edge
    : option (CEdge BS) :=
  let ses := PbsPredicateCover atoms (m_predicate edge) in
  let edge := with_eligibility (Some ses) (Some ses) (m_conflict_rules edge) edge in
  rules ← children_rules atoms edge children (m_conflict_rules edge);
  let edge := with_eligibility (m_ses edge) (m_tes edge) rules edge in
  edge ← AbsorbConflictRules edge;
  edge ← cover_side (m_eleft edge) edge;
  cover_side (m_eright edge) edge.

Fixpoint eligibility_loop (atoms : list CExpression) (done rest : list (CEdge BS))
    : option (list (CEdge BS)) :=
  match rest with
  | [] => Some done
  | edge :: rest =>
      edge ← BuildEligibility atoms done edge;
      eligibility_loop atoms (done ++ [edge]) rest
  end.

Definition Build (root : CExpression) spec : option (bool * CJoinRegionSpec BS) :=
  if negb (FSupportedBinaryJoin (Eopid (Pop root))) || negb (Arity root =? 3)%nat
  then Some (false, spec) else
  let '(all_nodes, spec) := PbsCollect root spec in
  let count := N.of_nat (length (m_atoms spec)) in
  let valid := (2 <=? count) && negb (bool_decide (m_sedges spec = [])) &&
               (ns_Size all_nodes =? count) in
  let spec := if valid then BuildDependencies spec else spec in
  if valid && m_cdc_supported spec then
    edges ← eligibility_loop (m_atoms spec) [] (m_sedges spec);
    Some (valid, with_edges edges (m_pure_inner spec) (m_cdc_supported spec) spec)
  else Some (valid, spec).

(** ** Applicability *)

(** The left-to-right walk over the TES of a non-inner edge. *)
Definition keeps_sides edge (lset rset : BS) (node : N) : bool :=
  negb ((ns_Get (m_eleft edge) node && negb (ns_Get lset node)) ||
        (ns_Get (m_eright edge) node && negb (ns_Get rset node))).

(** The arguments are non-null; [None] is the null [m_tes] of an edge whose
    eligibility was not built. *)
Definition FApplicable edge (lset rset : BS) : option bool :=
  tes ← m_tes edge;
  if negb (ns_IsDisjoint lset rset) then Some false else
  let joined := ns_Union lset rset in
  if negb (ns_ContainsAll joined tes) || ns_IsDisjoint tes lset || ns_IsDisjoint tes rset
  then Some false else
  if existsb (fun rule => negb (ns_IsDisjoint joined (m_activate rule)) &&
                          negb (ns_ContainsAll joined (m_required rule)))
       (m_conflict_rules edge)
  then Some false else
  if bool_decide (m_join_type edge = EopLogicalInnerJoin) then Some true else
  Some (forallb (keeps_sides edge lset rset) (ns_bits tes)).
End region.

(** ** Absorption of conflict rules *)

Section absorption.
Context {BS : Type} {HB : NodeSet BS}.
Implicit Types (rules : list (CConflictRule BS)) (X T : gset N) (tes : BS).

(** [X] obeys a rule: it meets no activating node, or holds all required ones. *)
Definition obeys X (rule : CConflictRule BS) : Prop :=
  to_gset (m_activate rule) ## X \/ to_gset (m_required rule) ⊆ X.

Definition closed_under rules X : Prop := Forall (obeys X) rules.

(** [T] is the least superset of [X] closed under the rules. *)
Record closure rules X T : Prop := {
  cl_extends : X ⊆ T;
  cl_closed : closed_under rules T;
  cl_least : forall Y, X ⊆ Y -> closed_under rules Y -> T ⊆ Y
}.

Lemma closure_unique rules X T1 T2 : closure rules X T1 -> closure rules X T2 -> T1 = T2.
Proof.
  intros H1 H2. apply set_eq_subseteq. split; eapply cl_least; eauto using cl_extends, cl_closed.
Qed.

Lemma closure_refl rules T : closed_under rules T -> closure rules T T.
Proof. by split. Qed.

Lemma absorb_rule_spec tes changed rule :
  let '(tes', changed') := absorb_rule (tes, changed) rule in
  to_gset tes ⊆ to_gset tes' /\
  (forall Y, to_gset tes ⊆ Y -> obeys Y rule -> to_gset tes' ⊆ Y) /\
  (changed' = false -> changed = false /\ tes' = tes /\ obeys (to_gset tes) rule) /\
  (changed' = true -> changed = true \/
     (~ to_gset (m_required rule) ⊆ to_gset tes /\ to_gset (m_required rule) ⊆ to_gset tes')).
Proof.
  unfold absorb_rule. ns_simpl.
  case_bool_decide as Hd; simpl; [|case_bool_decide as Hc; simpl]; ns_simpl; unfold obeys.
  - split_and!; [done|done| |tauto]. intros ->. split_and!; [done..|]. left. set_solver.
  - split_and!; [done|done| |tauto]. intros ->. split_and!; [done..|]. by right.
  - split_and!; [set_solver| |done|].
    + intros Y HY [Ho|Ho]; [set_solver|set_solver].
    + intros _. right. split; [done|set_solver].
Qed.

Lemma absorb_round_spec rules tes changed :
  let '(tes', changed') := fold_left absorb_rule rules (tes, changed) in
  to_gset tes ⊆ to_gset tes' /\
  (forall Y, to_gset tes ⊆ Y -> closed_under rules Y -> to_gset tes' ⊆ Y) /\
  (changed' = false -> changed = false /\ tes' = tes /\ closed_under rules (to_gset tes)) /\
  (changed' = true -> changed = true \/ exists rule, rule ∈ rules /\
     ~ to_gset (m_required rule) ⊆ to_gset tes /\ to_gset (m_required rule) ⊆ to_gset tes').
Proof.
  revert tes changed. induction rules as [|r rules IH]; intros tes changed; cbn [fold_left].
  { split_and!; [done|done|intros ->; by split_and!; [..|constructor]|by left]. }
  pose proof (absorb_rule_spec tes changed r) as Hr.
  destruct (absorb_rule (tes, changed) r) as [tes1 ch1].
  destruct Hr as (Hext & Hleast & Hf & Ht). specialize (IH tes1 ch1).
  destruct (fold_left absorb_rule rules (tes1, ch1)) as [tes' ch'].
  destruct IH as (Hext' & Hleast' & Hf' & Ht'). split_and!.
  - by etrans.
  - intros Y HY Hcl. apply Forall_cons_iff in Hcl as [Ho Hc]. apply Hleast'; [by apply Hleast|done].
  - intros Hch. destruct (Hf' Hch) as (Hch1 & -> & Hc). destruct (Hf Hch1) as (-> & -> & Ho).
    split_and!; [done..|by constructor].
  - intros Hch. destruct (Ht' Hch) as [Hch1|(rule & Hin & Hn & Hy)].
    + destruct (Ht Hch1) as [?|[Hn Hy]]; [by left|]. right. exists r.
      split_and!; [left|done|by etrans].
    + right. exists rule. split_and!; [by right| |done]. intros Hs. apply Hn. by etrans.
Qed.

(** The rules a set does not satisfy yet. *)
Definition unsatisfied rules T : list (CConflictRule BS) :=
  filter (fun rule => ~ to_gset (m_required rule) ⊆ T) rules.

Lemma unsatisfied_antimono rules X T :
  X ⊆ T -> (length (unsatisfied rules T) <= length (unsatisfied rules X))%nat.
Proof.
  intros HX. unfold unsatisfied. induction rules as [|r rules IH]; [done|].
  rewrite !filter_cons. case_decide as H1; case_decide as H2; simpl; try lia.
  exfalso. apply H1. by etrans.
Qed.

Lemma unsatisfied_decr rules X T rule :
  X ⊆ T -> rule ∈ rules -> ~ to_gset (m_required rule) ⊆ X -> to_gset (m_required rule) ⊆ T ->
  (length (unsatisfied rules T) < length (unsatisfied rules X))%nat.
Proof.
  intros HX Hin Hn Hy. unfold unsatisfied. induction rules as [|r rules IH].
  { by apply elem_of_nil in Hin. }
  pose proof (unsatisfied_antimono rules X T HX) as Hm. unfold unsatisfied in Hm.
  rewrite !filter_cons. apply elem_of_cons in Hin as [<-|Hin].
  - rewrite decide_False by tauto. rewrite decide_True by done. simpl. lia.
  - specialize (IH Hin). case_decide as H1; case_decide as H2; simpl; try lia.
    exfalso. apply H1. by etrans.
Qed.

Lemma absorb_loop_spec fuel rules tes :
  (length (unsatisfied rules (to_gset tes)) < fuel)%nat ->
  exists tes', absorb_loop fuel rules tes = Some tes' /\
    closure rules (to_gset tes) (to_gset tes').
Proof.
  revert tes. induction fuel as [|fuel IH]; intros tes Hfuel; [lia|]. cbn [absorb_loop].
  pose proof (absorb_round_spec rules tes false) as Hr.
  destruct (fold_left absorb_rule rules (tes, false)) as [tes1 [|]].
  - destruct Hr as (Hext & Hleast & _ & Ht). destruct (Ht eq_refl) as [?|(rule & Hin & Hn & Hy)]; [done|].
    destruct (IH tes1) as (tes' & -> & Hc).
    { pose proof (unsatisfied_decr _ _ _ rule Hext Hin Hn Hy). lia. }
    exists tes'. split; [done|]. split.
    + etrans; [done|apply Hc].
    + apply Hc.
    + intros Y HY HYc. eapply cl_least; [done| |done]. by apply Hleast.
  - destruct Hr as (_ & _ & Hf & _). destruct (Hf eq_refl) as (_ & -> & Hc).
    exists tes. split; [done|]. by apply closure_refl.
Qed.

Lemma unsatisfied_length rules T : (length (unsatisfied rules T) <= length rules)%nat.
Proof. apply length_filter. Qed.

Lemma AbsorbConflictRules_spec (edge : CEdge BS) tes :
  m_tes edge = Some tes ->
  exists tes', AbsorbConflictRules edge = Some (with_eligibility (m_ses edge) (Some tes')
      (filter (fun rule => ns_ContainsAll tes' (m_required rule) = false) (m_conflict_rules edge)) edge) /\
    closure (m_conflict_rules edge) (to_gset tes) (to_gset tes').
Proof.
  intros Ht. unfold AbsorbConflictRules. rewrite Ht. cbn [mbind option_bind].
  destruct (absorb_loop_spec (S (length (m_conflict_rules edge))) (m_conflict_rules edge) tes)
    as (tes' & -> & Hc).
  { pose proof (unsatisfied_length (m_conflict_rules edge) (to_gset tes)). lia. }
  by exists tes'.
Qed.

(** A rule dropped because the TES satisfies it says nothing about sets that
    contain the TES. *)
Lemma kept_closed rules tes X :
  to_gset tes ⊆ X ->
  closed_under (filter (fun rule => ns_ContainsAll tes (m_required rule) = false) rules) X <->
  closed_under rules X.
Proof.
  intros HX. unfold closed_under. rewrite !Forall_forall. setoid_rewrite list_elem_of_filter.
  split; [|naive_solver]. intros Hk rule Hin.
  destruct (ns_ContainsAll tes (m_required rule)) eqn:Hc; [|by apply Hk].
  right. ns_solver.
Qed.
End absorption.

(** ** The skeleton: the region as an abstract binary tree *)

(** The region of an expression: its joins down to the opaque atoms. *)
Inductive region_tree :=
| RAtom (atom : CExpression)
| RJoin (op_id : EOperatorId) (predicate : CExpression) (notin : option CExpression)
    (t1 t2 : region_tree).

Fixpoint region_of (expr : CExpression) : region_tree :=
  let 'MkExpression op children _ := expr in
  match children with
  | [e0; e1; predicate] =>
      if FSupportedBinaryJoin (Eopid op) then
        RJoin (Eopid op) predicate
          (if bool_decide (Eopid op = EopLogicalLeftAntiSemiJoinNotIn)
           then PexprNotInComparison op else None)
          (region_of e0) (region_of e1)
      else RAtom expr
  | _ => RAtom expr
  end.

Fixpoint leaves (t : region_tree) : list CExpression :=
  match t with
  | RAtom atom => [atom]
  | RJoin _ _ _ t1 t2 => leaves t1 ++ leaves t2
  end.

Definition width (t : region_tree) : nat := length (leaves t).

Fixpoint joins_all (P : EOperatorId -> bool) (t : region_tree) : bool :=
  match t with
  | RAtom _ => true
  | RJoin op_id _ _ t1 t2 => joins_all P t1 && joins_all P t2 && P op_id
  end.

(** The nodes [a .. b - 1]. *)
Definition span (a b : nat) : gset N := list_to_set (N.of_nat <$> seq a (b - a)).

Lemma elem_of_span a b x : x ∈ span a b <-> N.of_nat a <= x < N.of_nat b.
Proof.
  unfold span. rewrite elem_of_list_to_set, list_elem_of_fmap. setoid_rewrite elem_of_seq. split.
  - intros (y & -> & ?). lia.
  - intros ?. exists (N.to_nat x). lia.
Qed.

Lemma span_split a m b : (a <= m)%nat -> (m <= b)%nat -> span a m ∪ span m b = span a b.
Proof. intros. apply set_eq. intros x. rewrite elem_of_union, !elem_of_span. lia. Qed.

Lemma span_disjoint a m b : span a m ## span m b.
Proof. intros x. rewrite !elem_of_span. lia. Qed.

Lemma span_nonempty a b : (a < b)%nat -> span a b <> ∅.
Proof.
  intros Hab He. assert (N.of_nat a ∈ span a b) as Hin by (apply elem_of_span; lia).
  rewrite He in Hin. by apply not_elem_of_empty in Hin.
Qed.

Lemma size_span a b : size (span a b) = (b - a)%nat.
Proof.
  unfold span. rewrite size_list_to_set; [by rewrite length_fmap, length_seq|].
  apply sorted_lt_NoDup, seq_sorted.
Qed.

Lemma span_singleton a : span a (S a) = {[N.of_nat a]}.
Proof. apply set_eq. intros x. rewrite elem_of_span, elem_of_singleton. lia. Qed.

Lemma span_mono a b a' b' : (a' <= a)%nat -> (b <= b')%nat -> span a b ⊆ span a' b'.
Proof. intros ?? x. rewrite !elem_of_span. lia. Qed.

(** What an edge of the skeleton is built from. *)
Record edge_data := MkEdgeData {
  d_join_type : EOperatorId;
  d_predicate : CExpression;
  d_notin : option CExpression;
  d_left : gset N;
  d_right : gset N
}.

Definition d_all (d : edge_data) : gset N := d_left d ∪ d_right d.

(** The joins of the tree in post-order, the first leaf being node [a]. *)
Fixpoint tree_edges (t : region_tree) (a : nat) : list edge_data :=
  match t with
  | RAtom _ => []
  | RJoin op_id predicate notin t1 t2 =>
      let m := (a + width t1)%nat in
      tree_edges t1 a ++ tree_edges t2 m ++
        [MkEdgeData op_id predicate notin (span a m) (span m (m + width t2))]
  end.

Lemma width_pos t : (0 < width t)%nat.
Proof. unfold width. induction t as [?|? ? ? t1 IH1 t2 IH2]; simpl; [lia|]. rewrite length_app. lia. Qed.

Lemma width_join op p c t1 t2 : width (RJoin op p c t1 t2) = (width t1 + width t2)%nat.
Proof. unfold width. simpl. apply length_app. Qed.

Lemma length_tree_edges t a : length (tree_edges t a) = (width t - 1)%nat.
Proof.
  revert a. induction t as [?|op p c t1 IH1 t2 IH2]; intros a; [done|].
  cbn [tree_edges]. rewrite !length_app, IH1, IH2, width_join. simpl.
  pose proof (width_pos t1). pose proof (width_pos t2). lia.
Qed.

(** The sides of an edge are two adjacent, nonempty, disjoint runs of nodes. *)
Record data_ok (a b : nat) (d : edge_data) : Prop := {
  do_left : d_left d <> ∅;
  do_right : d_right d <> ∅;
  do_disjoint : d_left d ## d_right d;
  do_range : d_all d ⊆ span a b
}.

Lemma tree_edges_ok t a : Forall (data_ok a (a + width t)) (tree_edges t a).
Proof.
  revert a. induction t as [?|op p c t1 IH1 t2 IH2]; intros a; [constructor|].
  cbn [tree_edges]. rewrite width_join. pose proof (width_pos t1). pose proof (width_pos t2).
  assert (Hw : forall a' b' d, (a <= a')%nat -> (b' <= a + (width t1 + width t2))%nat ->
    data_ok a' b' d -> data_ok a (a + (width t1 + width t2)) d).
  { intros a' b' d Ha Hb [??? Hr]. split; [done..|]. etrans; [exact Hr|by apply span_mono]. }
  apply Forall_app. split; [|apply Forall_app; split].
  - eapply Forall_impl; [apply IH1|]. intros d. apply Hw; lia.
  - eapply Forall_impl; [apply IH2|]. intros d. apply Hw; lia.
  - constructor; [|constructor]. split; cbn [d_left d_right].
    + apply span_nonempty. lia.
    + apply span_nonempty. lia.
    + apply span_disjoint.
    + unfold d_all. cbn [d_left d_right]. rewrite span_split by lia. apply span_mono; lia.
Qed.

(** ** Collecting *)

Section collect.
Context {BS : Type} {HB : NodeSet BS}.
Implicit Types (e : CEdge BS) (spec : CJoinRegionSpec BS).

Record edge_matches (d : edge_data) e : Prop := {
  em_type : m_join_type e = d_join_type d;
  em_predicate : m_predicate e = d_predicate d;
  em_notin : m_notin_comparison e = d_notin d;
  em_left : to_gset (m_eleft e) = d_left d;
  em_right : to_gset (m_eright e) = d_right d;
  em_all : to_gset (m_all e) = d_all d
}.

Definition fresh e : Prop := m_ses e = None /\ m_tes e = None /\ m_conflict_rules e = [].

Record collected (t : region_tree) spec spec' (es : list (CEdge BS)) : Prop := {
  co_atoms : m_atoms spec' = m_atoms spec ++ leaves t;
  co_edges : m_sedges spec' = m_sedges spec ++ es;
  co_match : Forall2 edge_matches (tree_edges t (length (m_atoms spec))) es;
  co_fresh : Forall fresh es;
  co_pure : m_pure_inner spec' = m_pure_inner spec && joins_all FInnerJoin t;
  co_cdc : m_cdc_supported spec' = m_cdc_supported spec && joins_all FCDCSupportedJoin t;
  co_deps : m_dependencies spec' = m_dependencies spec;
  co_ext : m_external_dependencies spec' = m_external_dependencies spec;
  co_count : m_dependency_count spec' = m_dependency_count spec
}.

Lemma collect_atom_spec expr spec :
  exists S spec', collect_atom expr spec = (S, spec') /\ collected (RAtom expr) spec spec' [] /\
    to_gset S = span (length (m_atoms spec)) (length (m_atoms spec) + 1).
Proof.
  unfold collect_atom. eexists _, _. split; [done|]. split.
  - split; simpl; [done|by rewrite app_nil_r|constructor|constructor|by rewrite andb_true_r..|done|done|done].
  - ns_simpl. rewrite Nat.add_1_r, span_singleton. set_solver.
Qed.

Lemma PbsCollect_join op (e0 e1 p : CExpression) g spec :
  FSupportedBinaryJoin (Eopid op) = true ->
  let expr := MkExpression op [e0; e1; p] g in
  (forall spec, exists S spec' es, PbsCollect e0 spec = (S, spec') /\
    collected (region_of e0) spec spec' es /\
    to_gset S = span (length (m_atoms spec)) (length (m_atoms spec) + width (region_of e0))) ->
  (forall spec, exists S spec' es, PbsCollect e1 spec = (S, spec') /\
    collected (region_of e1) spec spec' es /\
    to_gset S = span (length (m_atoms spec)) (length (m_atoms spec) + width (region_of e1))) ->
  exists S spec' es, PbsCollect expr spec = (S, spec') /\ collected (region_of expr) spec spec' es /\
    to_gset S = span (length (m_atoms spec)) (length (m_atoms spec) + width (region_of expr)).
Proof.
  intros Hop expr H0 H1. unfold expr. cbn [PbsCollect region_of]. rewrite Hop.
  destruct (H0 spec) as (S0 & spec0 & es0 & -> & C0 & HS0).
  destruct (H1 spec0) as (S1 & spec1 & es1 & -> & C1 & HS1).
  rewrite (co_atoms _ _ _ _ C0), length_app in HS1. fold (width (region_of e0)) in HS1.
  set (notin := if bool_decide _ then _ else _).
  assert (Hn : length (m_atoms spec0) = (length (m_atoms spec) + width (region_of e0))%nat)
    by (by rewrite (co_atoms _ _ _ _ C0), length_app).
  eexists _, _, (es0 ++ es1 ++ [CEdge_New (Eopid op) S0 S1 p notin]). split; [reflexivity|]. split.
  - split; cbn [with_edges m_atoms m_sedges m_pure_inner m_cdc_supported m_dependencies
      m_external_dependencies m_dependency_count].
    + rewrite (co_atoms _ _ _ _ C1), (co_atoms _ _ _ _ C0). cbn [leaves]. by rewrite (assoc_L (++)).
    + rewrite (co_edges _ _ _ _ C1), (co_edges _ _ _ _ C0). by rewrite !(assoc_L (++)).
    + cbn [tree_edges]. apply Forall2_app; [apply C0|]. apply Forall2_app.
      { rewrite <-Hn. apply C1. }
      constructor; [|constructor]. split; cbn; [done..| | |].
      * done.
      * done.
      * by rewrite Union_law, HS0, HS1.
    + apply Forall_app. split; [apply C0|]. apply Forall_app. split; [apply C1|].
      by repeat constructor.
    + rewrite (co_pure _ _ _ _ C1), (co_pure _ _ _ _ C0). cbn [joins_all].
      change (FInnerJoin (Eopid op)) with (bool_decide (Eopid op = EopLogicalInnerJoin)).
      destruct (decide (Eopid op = EopLogicalInnerJoin)) as [E|E].
      * rewrite bool_decide_false by tauto. rewrite (bool_decide_true (_ = _)) by done.
        by rewrite andb_true_r, andb_assoc.
      * rewrite bool_decide_true by done. rewrite (bool_decide_false (_ = _)) by done.
        by rewrite !andb_false_r.
    + rewrite (co_cdc _ _ _ _ C1), (co_cdc _ _ _ _ C0). cbn [joins_all].
      destruct (FCDCSupportedJoin (Eopid op)); [by rewrite andb_true_r, andb_assoc|].
      by rewrite !andb_false_r.
    + by rewrite (co_deps _ _ _ _ C1), (co_deps _ _ _ _ C0).
    + by rewrite (co_ext _ _ _ _ C1), (co_ext _ _ _ _ C0).
    + by rewrite (co_count _ _ _ _ C1), (co_count _ _ _ _ C0).
  - rewrite Union_law, HS0, HS1, width_join, (Nat.add_assoc (length (m_atoms spec))). apply span_split; lia.
Qed.

Lemma PbsCollect_spec expr spec :
  exists S spec' es, PbsCollect expr spec = (S, spec') /\ collected (region_of expr) spec spec' es /\
    to_gset S = span (length (m_atoms spec)) (length (m_atoms spec) + width (region_of expr)).
Proof.
  revert spec. induction expr as [op children g IH] using CExpression_children_ind. intros spec.
  assert (Hatom : PbsCollect (MkExpression op children g) spec =
      collect_atom (MkExpression op children g) spec ->
    region_of (MkExpression op children g) = RAtom (MkExpression op children g) ->
    exists S spec' es, PbsCollect (MkExpression op children g) spec = (S, spec') /\
      collected (region_of (MkExpression op children g)) spec spec' es /\
      to_gset S = span (length (m_atoms spec))
        (length (m_atoms spec) + width (region_of (MkExpression op children g)))).
  { intros -> ->. destruct (collect_atom_spec (MkExpression op children g) spec)
      as (S & spec' & ? & ? & ?). by exists S, spec', []. }
  destruct children as [|e0 [|e1 [|p [|? ?]]]]; try (by apply Hatom).
  destruct (FSupportedBinaryJoin (Eopid op)) eqn:Hop.
  - apply PbsCollect_join; [done|intros; by apply (Forall_inv IH)|].
    intros. by apply (Forall_inv (Forall_inv_tail IH)).
  - apply Hatom; cbn [PbsCollect region_of]; by rewrite Hop.
Qed.
End collect.

(** ** Eligibility *)

Section eligibility.
Context {BS CS : Type} {HB : NodeSet BS} {HC : NodeSet CS} {HD : DerivedProps CS}.
Implicit Types (e edge child : CEdge BS) (rules R : list (CConflictRule BS))
  (atoms : list CExpression) (X Y T : gset N) (tes : BS).

Record edge_ok (n : nat) e : Prop := {
  ek_left : to_gset (m_eleft e) <> ∅;
  ek_right : to_gset (m_eright e) <> ∅;
  ek_disjoint : to_gset (m_eleft e) ## to_gset (m_eright e);
  ek_all : to_gset (m_all e) = to_gset (m_eleft e) ∪ to_gset (m_eright e);
  ek_range : to_gset (m_all e) ⊆ span 0 n
}.

Lemma edge_matches_ok n d e : data_ok 0 n d -> edge_matches d e -> edge_ok n e.
Proof.
  intros [? ? ? Hr] [_ _ _ Hl Hrt Ha]. split; rewrite ?Hl, ?Hrt, ?Ha; done.
Qed.

(** A rule of an edge is between nonempty sets of nodes of the edge. *)
Record rule_ok X (rule : CConflictRule BS) : Prop := {
  ro_activate : to_gset (m_activate rule) <> ∅;
  ro_required : to_gset (m_required rule) <> ∅;
  ro_within : to_gset (m_activate rule) ∪ to_gset (m_required rule) ⊆ X
}.

Lemma rule_ok_mono X Y rule : X ⊆ Y -> rule_ok X rule -> rule_ok Y rule.
Proof. intros HX [? ? Hw]. split; [done..|]. by etrans. Qed.

Lemma PcrsNodes_total atoms (nodes : BS) :
  to_gset nodes ⊆ span 0 (length atoms) -> is_Some (PcrsNodes (CS := CS) atoms nodes).
Proof.
  intros Hr. unfold PcrsNodes. assert (Hb : forall v, v ∈ ns_bits nodes -> v < N.of_nat (length atoms)).
  { intros v Hv%bits_law%Hr. apply elem_of_span in Hv. lia. }
  revert Hb. generalize (ns_bits nodes) (ns_empty (BS := CS)). intros l.
  induction l as [|v l IH]; intros s Hb; cbn [nodes_loop]; [by eexists|].
  destruct (lookup_lt_is_Some_2 atoms (N.to_nat v)) as [atom ->].
  { specialize (Hb v ltac:(left)). lia. }
  cbn [mbind option_bind]. apply IH. intros w Hw. apply Hb. by right.
Qed.

Lemma FNullRejecting_total atoms e (nodes : BS) :
  to_gset nodes ⊆ span 0 (length atoms) -> is_Some (FNullRejecting atoms e nodes).
Proof.
  intros Hr. unfold FNullRejecting. destruct (PcrsNodes_total atoms nodes Hr) as [? ->].
  by eexists.
Qed.

Lemma and_then_total a b : is_Some a -> is_Some b -> is_Some (and_then a b).
Proof. intros [[] ->] [y ->]; by eexists. Qed.

Lemma side_range n e :
  edge_ok n e -> to_gset (m_eleft e) ⊆ span 0 n /\ to_gset (m_eright e) ⊆ span 0 n.
Proof.
  intros He. pose proof (ek_range _ _ He) as Hr. rewrite (ek_all _ _ He) in Hr. set_solver.
Qed.

(** The three compatibility tests never fall out of the atoms. *)
Lemma compatibility_total atoms e1 e2 :
  edge_ok (length atoms) e1 -> edge_ok (length atoms) e2 ->
  is_Some (FAssociative atoms e1 e2) /\ is_Some (FLeftAsscom atoms e1 e2) /\
  is_Some (FRightAsscom atoms e1 e2).
Proof.
  intros [??]%side_range [??]%side_range. unfold FAssociative, FLeftAsscom, FRightAsscom.
  split_and!; repeat case_if; try (by eexists); auto using and_then_total, FNullRejecting_total.
Qed.

Lemma PbsIntersectIfNotDegenerate_law (used available : BS) :
  to_gset available <> ∅ ->
  to_gset (PbsIntersectIfNotDegenerate used available) <> ∅ /\
  to_gset (PbsIntersectIfNotDegenerate used available) ⊆ to_gset available.
Proof.
  intros Ha. unfold PbsIntersectIfNotDegenerate. ns_simpl.
  case_if; [done|]. breflect. ns_simpl. split; [|set_solver].
  intros He. rewrite He, size_empty in *. done.
Qed.

Lemma rule_unless_spec (holds : option bool) child (activate available : BS) rules n :
  is_Some holds -> is_Some (m_ses child) -> edge_ok n child ->
  to_gset activate <> ∅ -> to_gset available <> ∅ ->
  to_gset activate ∪ to_gset available ⊆ to_gset (m_all child) ->
  exists new, rule_unless holds child activate available rules = Some (rules ++ new) /\
    Forall (rule_ok (to_gset (m_all child))) new.
Proof.
  intros [[] ->] [ses Hses] He Hact Hav Hin; unfold rule_unless; cbn [mbind option_bind].
  - exists []. by rewrite app_nil_r.
  - rewrite Hses. cbn [mbind option_bind]. eexists. split; [reflexivity|].
    constructor; [|constructor].
    destruct (PbsIntersectIfNotDegenerate_law ses available Hav) as [??].
    split; [done|done|]. cbn [m_activate m_required]. set_solver.
Qed.

Lemma child_rules_spec atoms edge child rules :
  edge_ok (length atoms) edge -> edge_ok (length atoms) child -> is_Some (m_ses child) ->
  exists new, child_rules atoms edge child rules = Some (rules ++ new) /\
    Forall (rule_ok (to_gset (m_all edge))) new.
Proof.
  intros He Hc Hs. pose proof (ek_all _ _ Hc) as Hca.
  destruct (compatibility_total atoms child edge Hc He) as (Ha & Hl & _).
  destruct (compatibility_total atoms edge child He Hc) as (Ha' & _ & Hr).
  assert (Hboth : forall h1 h2 act1 av1 act2 av2,
    is_Some h1 -> is_Some h2 ->
    to_gset act1 <> ∅ -> to_gset av1 <> ∅ -> to_gset act2 <> ∅ -> to_gset av2 <> ∅ ->
    to_gset act1 ∪ to_gset av1 ⊆ to_gset (m_all child) ->
    to_gset act2 ∪ to_gset av2 ⊆ to_gset (m_all child) ->
    to_gset (m_all child) ⊆ to_gset (m_all edge) ->
    exists new, (rules ← rule_unless h1 child act1 av1 rules;
                 rule_unless h2 child act2 av2 rules) = Some (rules ++ new) /\
      Forall (rule_ok (to_gset (m_all edge))) new).
  { intros h1 h2 act1 av1 act2 av2 H1 H2 ? ? ? ? ? ? Hsub.
    destruct (rule_unless_spec h1 child act1 av1 rules _ H1 Hs Hc) as (n1 & -> & Hn1); [done..|].
    cbn [mbind option_bind].
    destruct (rule_unless_spec h2 child act2 av2 (rules ++ n1) _ H2 Hs Hc) as (n2 & -> & Hn2); [done..|].
    exists (n1 ++ n2). rewrite (assoc_L (++)). split; [done|].
    apply Forall_app. split; (eapply Forall_impl; [eassumption|]); intros ?; by apply rule_ok_mono. }
  destruct Hc as [? ? _ _ _]. pose proof (ek_all _ _ He) as Hea.
  unfold child_rules. rewrite !ContainsAll_law.
  assert (Hu : to_gset (m_eright child) ∪ to_gset (m_eleft child) ⊆ to_gset (m_all child) /\
    to_gset (m_eleft child) ∪ to_gset (m_eright child) ⊆ to_gset (m_all child))
    by (rewrite Hca; clear; set_solver).
  destruct Hu as [Hu1 Hu2].
  case_bool_decide as Hsub; [|clear Hsub; case_bool_decide as Hsub].
  1-2: apply Hboth; try done; rewrite Hea; clear -Hsub; set_solver.
  exists []. rewrite app_nil_r. by split.
Qed.

Lemma children_rules_spec atoms edge children rules :
  edge_ok (length atoms) edge ->
  Forall (fun child => edge_ok (length atoms) child /\ is_Some (m_ses child)) children ->
  exists new, children_rules atoms edge children rules = Some (rules ++ new) /\
    Forall (rule_ok (to_gset (m_all edge))) new.
Proof.
  intros He Hc. revert rules. induction Hc as [|c children [Hok Hs] _ IH]; intros rules; cbn [children_rules].
  { exists []. by rewrite app_nil_r. }
  destruct (child_rules_spec atoms edge c rules He Hok Hs) as (n1 & -> & H1). cbn [mbind option_bind].
  destruct (IH (rules ++ n1)) as (n2 & -> & H2). exists (n1 ++ n2).
  rewrite (assoc_L (++)). split; [done|]. by apply Forall_app.
Qed.

(** The predicate cover: the atoms that give a used column. *)
Lemma PbsPredicateCover_law atoms (predicate : CExpression) (node : N) :
  node ∈ to_gset (PbsPredicateCover (BS := BS) atoms predicate) <->
  exists atom, atoms.[node] = Some atom /\
    ~ to_gset (DeriveUsedColumns predicate) ## to_gset (DeriveOutputColumns atom).
Proof.
  unfold PbsPredicateCover. set (used := DeriveUsedColumns predicate).
  assert (Hl : forall l start cover, node ∈ to_gset (cover_loop (BS := BS) used l start cover) <->
    node ∈ to_gset cover \/ exists atom, start <= node /\ l !! N.to_nat (node - start) = Some atom /\
      ~ to_gset used ## to_gset (DeriveOutputColumns atom)).
  { induction l as [|atom l IH]; intros start cover; cbn [cover_loop].
    { split; [by left|]. intros [?|(? & _ & Hn & _)]; [done|by rewrite lookup_nil in Hn]. }
    rewrite IH. rewrite IsDisjoint_law. split.
    - intros [Hc|(a & Hle & Ha & Hd)].
      + revert Hc. case_bool_decide as Hd; simpl; [by left|]. ns_simpl.
        intros [->%elem_of_singleton|?]%elem_of_union; [|by left].
        right. exists atom. rewrite N.sub_diag. by split.
      + right. exists a. split; [lia|].
        replace (N.to_nat (node - start)) with (S (N.to_nat (node - (start + 1)))) by lia. done.
    - intros [Hc|(a & Hle & Ha & Hd)].
      + left. case_bool_decide; simpl; ns_simpl; set_solver.
      + destruct (decide (node = start)) as [->|Hne].
        * left. rewrite N.sub_diag in Ha. injection Ha as ->. rewrite bool_decide_false by done.
          simpl. ns_simpl. set_solver.
        * right. exists a. split; [lia|].
          replace (N.to_nat (node - start)) with (S (N.to_nat (node - (start + 1)))) in Ha by lia. done. }
  rewrite Hl. ns_simpl. setoid_rewrite N.sub_0_r. split.
  - intros [?%not_elem_of_empty|(a & _ & ? & ?)]; [done|by exists a].
  - intros (a & ? & ?). right. exists a. split; [lia|done].
Qed.

Lemma PbsPredicateCover_range atoms (predicate : CExpression) :
  to_gset (PbsPredicateCover (BS := BS) atoms predicate) ⊆ span 0 (length atoms).
Proof.
  intros v (a & Ha & _)%PbsPredicateCover_law. apply lookup_N_lt in Ha. apply elem_of_span. lia.
Qed.

(** The TES after the step for one side: grown by the whole side and closed
    again when it met none of it. *)
Definition meet_side R (side X Y : gset N) : Prop :=
  if decide (X ## side) then closure R (X ∪ side) Y else Y = X.

Lemma meet_side_extends R side X Y : meet_side R side X Y -> X ⊆ Y.
Proof.
  unfold meet_side. case_decide; [|by intros ->]. intros Hc. etrans; [|apply Hc]. set_solver.
Qed.

Lemma meet_side_meets R side X Y : side <> ∅ -> meet_side R side X Y -> ~ Y ## side.
Proof.
  unfold meet_side. intros Hs. case_decide; [|by intros ->]. intros Hc Hd.
  pose proof (cl_extends _ _ _ Hc) as Hsub. apply set_choose_L in Hs as [x Hx].
  apply (Hd x); [|done]. apply Hsub. set_solver.
Qed.

Lemma meet_side_least R side X Y Z :
  meet_side R side X Y -> closed_under R Z -> X ⊆ Z -> side ⊆ Z -> Y ⊆ Z.
Proof.
  unfold meet_side. case_decide; [|by intros ->]. intros Hc HZ HX Hs.
  apply (cl_least _ _ _ Hc); [set_solver|done].
Qed.

(** The remaining rules say about supersets of the TES what all rules say. *)
Definition kept_rules R rules T : Prop :=
  forall X, T ⊆ X -> closed_under rules X <-> closed_under R X.

Lemma kept_closure R rules T X Y :
  kept_rules R rules T -> T ⊆ X -> closure rules X Y -> closure R X Y.
Proof.
  intros Hk HX [He Hc Hl]. split; [done| |].
  - apply Hk; [by etrans|done].
  - intros Z HZ HZc. apply Hl; [done|]. apply Hk; [by etrans|done].
Qed.

Lemma kept_after R rules T tes :
  kept_rules R rules T -> T ⊆ to_gset tes ->
  kept_rules R (filter (fun rule => ns_ContainsAll tes (m_required rule) = false) rules) (to_gset tes).
Proof.
  intros Hk HT X HX. rewrite kept_closed by done. apply Hk. by etrans.
Qed.

(** The edge after a step of [BuildEligibility]: only its TES and its rules
    have changed. *)
Record step_edge R e (rules' : list (CConflictRule BS)) tes' e' : Prop := {
  se_edge : e' = with_eligibility (m_ses e) (Some tes') rules' e;
  se_kept : kept_rules R rules' (to_gset tes');
  se_closed : closed_under R (to_gset tes');
  se_sub : forall rule, rule ∈ rules' -> rule ∈ R
}.

Lemma Absorb_step R e tes T :
  m_tes e = Some tes -> kept_rules R (m_conflict_rules e) T -> T ⊆ to_gset tes ->
  (forall rule, rule ∈ m_conflict_rules e -> rule ∈ R) ->
  exists e' rules' tes', AbsorbConflictRules e = Some e' /\ step_edge R e rules' tes' e' /\
    closure R (to_gset tes) (to_gset tes').
Proof.
  intros Ht Hk HT Hsub. destruct (AbsorbConflictRules_spec e tes Ht) as (tes' & -> & Hc).
  eexists _, _, tes'. split; [done|]. pose proof (kept_closure _ _ _ _ _ Hk HT Hc) as HR.
  split; [|done]. split; [done| |apply HR|].
  - eapply kept_after; [done|]. etrans; [done|apply HR].
  - intros rule [_ Hin]%list_elem_of_filter. by apply Hsub.
Qed.

Lemma cover_side_step R (side : BS) e e1 rules tes :
  step_edge R e rules tes e1 ->
  exists e2 rules' tes', cover_side side e1 = Some e2 /\ step_edge R e rules' tes' e2 /\
    meet_side R (to_gset side) (to_gset tes) (to_gset tes').
Proof.
  intros [-> Hk Hc Hs]. unfold cover_side, meet_side. cbn [m_tes with_eligibility mbind option_bind].
  rewrite IsDisjoint_law. case_bool_decide as Hd.
  - set (e2 := with_eligibility _ _ _ _).
    destruct (Absorb_step R e2 (ns_Union tes side) (to_gset tes)) as (e' & rules' & tes' & -> & [-> ?? ?] & HR).
    + done.
    + done.
    + ns_simpl. set_solver.
    + done.
    + eexists _, rules', tes'. split; [done|]. split; [by split|]. rewrite decide_True by done.
      by rewrite Union_law in HR.
  - eexists _, rules, tes. split; [done|]. split; [by split|]. by rewrite decide_False.
Qed.

(** What [BuildEligibility] makes of an edge, given the edges before it. *)
Record eligible atoms children edge R rules' tes edge' : Prop := {
  eg_edge : edge' = with_eligibility (Some (PbsPredicateCover atoms (m_predicate edge)))
              (Some tes) rules' edge;
  eg_rules : children_rules atoms edge children [] = Some R;
  eg_rules_ok : Forall (rule_ok (to_gset (m_all edge))) R;
  eg_kept : kept_rules R rules' (to_gset tes);
  eg_sub : forall rule, rule ∈ rules' -> rule ∈ R;
  eg_tes : exists T0 T1,
    closure R (to_gset (PbsPredicateCover (BS := BS) atoms (m_predicate edge))) T0 /\
    meet_side R (to_gset (m_eleft edge)) T0 T1 /\
    meet_side R (to_gset (m_eright edge)) T1 (to_gset tes);
  eg_closed : closed_under R (to_gset tes)
}.

Lemma children_rules_static atoms (s1 s2 : option BS) rs edge children rules :
  children_rules atoms (with_eligibility s1 s2 rs edge) children rules =
  children_rules atoms edge children rules.
Proof.
  revert rules. induction children as [|c children IH]; intros rules; cbn [children_rules]; [done|].
  change (child_rules atoms (with_eligibility s1 s2 rs edge) c rules)
    with (child_rules atoms edge c rules).
  destruct (child_rules atoms edge c rules); [apply IH|done].
Qed.

Lemma BuildEligibility_spec atoms children edge :
  fresh edge -> edge_ok (length atoms) edge ->
  Forall (fun child => edge_ok (length atoms) child /\ is_Some (m_ses child)) children ->
  exists R rules' tes edge', BuildEligibility atoms children edge = Some edge' /\
    eligible atoms children edge R rules' tes edge'.
Proof.
  intros (_ & _ & Hfr) He Hch. unfold BuildEligibility. cbv zeta. rewrite children_rules_static.
  cbn [m_conflict_rules with_eligibility]. rewrite Hfr.
  destruct (children_rules_spec atoms edge children [] He Hch) as (R & HR & Hok).
  rewrite app_nil_l in HR. rewrite HR. cbn [mbind option_bind].
  set (ses := PbsPredicateCover atoms (m_predicate edge)).
  set (e0 := with_eligibility _ _ _ _).
  destruct (Absorb_step R e0 ses ∅) as (e1 & r1 & t1 & -> & Hs1 & Hc1); [done|done|set_solver|done|].
  cbn [mbind option_bind].
  assert (m_eleft e1 = m_eleft edge) as -> by (by destruct Hs1 as [-> _ _ _]).
  destruct (cover_side_step R (m_eleft edge) e0 e1 r1 t1 Hs1) as (e2 & r2 & t2 & -> & Hs2 & Hm2).
  cbn [mbind option_bind].
  assert (m_eright e2 = m_eright edge) as -> by (by destruct Hs2 as [-> _ _ _]).
  destruct (cover_side_step R (m_eright edge) e0 e2 r2 t2 Hs2) as (e3 & r3 & t3 & -> & Hs3 & Hm3).
  exists R, r3, t3, e3. split; [done|]. destruct Hs3 as [-> ???].
  split; [done..|by exists (to_gset t1), (to_gset t2)|done].
Qed.

Lemma eligible_ok n atoms children edge R rules' tes edge' :
  edge_ok n edge -> eligible atoms children edge R rules' tes edge' -> edge_ok n edge'.
Proof. intros [? ? ? ? ?] [-> _ _ _ _ _ _]. by split. Qed.

(** Every edge of the result is eligible after the edges before it. *)
Definition all_eligible atoms (edges edges' : list (CEdge BS)) : Prop :=
  length edges' = length edges /\
  forall i edge, edges !! i = Some edge ->
    exists R rules' tes edge', edges' !! i = Some edge' /\
      eligible atoms (take i edges') edge R rules' tes edge'.

Lemma eligibility_loop_spec atoms rest done_ :
  Forall fresh rest -> Forall (edge_ok (length atoms)) rest ->
  Forall (fun child => edge_ok (length atoms) child /\ is_Some (m_ses child)) done_ ->
  exists edges', eligibility_loop atoms done_ rest = Some (done_ ++ edges') /\
    length edges' = length rest /\
    forall i edge, rest !! i = Some edge -> exists R rules' tes edge', edges' !! i = Some edge' /\
      eligible atoms (done_ ++ take i edges') edge R rules' tes edge'.
Proof.
  revert done_. induction rest as [|edge rest IH]; intros done_ Hf Hok Hd; cbn [eligibility_loop].
  { exists []. rewrite app_nil_r. split_and!; [done..|]. intros i e. by rewrite lookup_nil. }
  apply Forall_cons in Hf as [Hf Hfs]. apply Forall_cons in Hok as [Hok Hoks].
  destruct (BuildEligibility_spec atoms done_ edge Hf Hok Hd) as (R & rs & tes & e' & -> & He).
  cbn [mbind option_bind].
  destruct (IH (done_ ++ [e']) Hfs Hoks) as (edges' & -> & Hlen & Hall).
  { apply Forall_app. split; [done|]. constructor; [|constructor].
    split; [by eapply eligible_ok|]. destruct He as [-> _ _ _ _ _ _]. by eexists. }
  exists (e' :: edges'). rewrite <-(assoc_L (++)). split_and!; [done|by simpl; rewrite Hlen|].
  intros [|i] edge0; cbn [lookup list_lookup take].
  - intros [= <-]. exists R, rs, tes, e'. by rewrite app_nil_r.
  - intros (R0 & rs0 & tes0 & e0 & Hi & He0)%Hall. exists R0, rs0, tes0, e0. split; [done|].
    by rewrite <-(assoc_L (++)) in He0.
Qed.

(** The TES lies inside every set that holds the predicate's cover and both
    sides and obeys the rules. *)
Lemma eligible_tes_within atoms children edge R rules' tes edge' X :
  eligible atoms children edge R rules' tes edge' ->
  to_gset (PbsPredicateCover (BS := BS) atoms (m_predicate edge)) ⊆ X ->
  to_gset (m_all edge) ⊆ X -> to_gset (m_all edge) = to_gset (m_eleft edge) ∪ to_gset (m_eright edge) ->
  to_gset tes ⊆ X.
Proof.
  intros [_ _ Hok _ _ (T0 & T1 & H0 & H1 & H2) _] Hs Ha Hall.
  assert (HX : closed_under R X).
  { eapply Forall_impl; [exact Hok|]. intros rule [_ _ Hw]. right.
    etrans; [|exact Ha]. etrans; [|exact Hw]. apply union_subseteq_r. }
  rewrite Hall in Ha. apply union_subseteq in Ha as [Hl Hr].
  eapply meet_side_least; [exact H2|done| |done].
  eapply meet_side_least; [exact H1|done| |done].
  by apply (cl_least _ _ _ H0).
Qed.

Lemma eligible_tes_meets n atoms children edge R rules' tes edge' :
  edge_ok n edge -> eligible atoms children edge R rules' tes edge' ->
  ~ to_gset tes ## to_gset (m_eleft edge) /\ ~ to_gset tes ## to_gset (m_eright edge).
Proof.
  intros He [_ _ _ _ _ (T0 & T1 & _ & H1 & H2) _]. split.
  - pose proof (meet_side_meets _ _ _ _ (ek_left _ _ He) H1) as Hm.
    pose proof (meet_side_extends _ _ _ _ H2) as Hx. intros Hd. apply Hm. clear -Hd Hx. set_solver.
  - exact (meet_side_meets _ _ _ _ (ek_right _ _ He) H2).
Qed.
End eligibility.

(** ** Dependencies *)

Section dependencies.
Context {BS CS : Type} {HB : NodeSet BS} {HC : NodeSet CS} {HD : DerivedProps CS}.
Implicit Types (atoms rest : list CExpression) (spec : CJoinRegionSpec BS).

Abbreviation outputs atom := (to_gset (DeriveOutputColumns (CS := CS) atom)).

(** [q] is the first of the atoms, numbered from [p] and leaving out [node],
    that outputs column [c]. *)
Definition first_provider (node p : nat) rest (c : N) (q : nat) : Prop :=
  exists i atom, q = (p + i)%nat /\ rest !! i = Some atom /\ q <> node /\ c ∈ outputs atom /\
    forall j a, (j < i)%nat -> rest !! j = Some a -> (p + j)%nat <> node -> c ∉ outputs a.

Definition no_provider (node p : nat) rest (c : N) : Prop :=
  forall i atom, rest !! i = Some atom -> (p + i)%nat <> node -> c ∉ outputs atom.

Lemma first_provider_cons node p atom rest c q :
  first_provider node p (atom :: rest) c q <->
  (q = p /\ p <> node /\ c ∈ outputs atom) \/
  ((p = node \/ c ∉ outputs atom) /\ first_provider node (S p) rest c q).
Proof.
  split.
  - intros ([|i] & a & -> & Ha & Hn & Hc & Hmin).
    + injection Ha as ->. left. rewrite Nat.add_0_r in *. done.
    + right. split.
      * destruct (decide (p = node)); [by left|]. right.
        apply (Hmin 0%nat); [lia|done|by rewrite Nat.add_0_r].
      * exists i, a. rewrite Nat.add_succ_r in *. split_and!; [done..|].
        intros j b Hj Hb Hjn. apply (Hmin (S j)); [lia|done|by rewrite Nat.add_succ_r].
  - intros [(-> & Hn & Hc)|(Hfirst & i & a & -> & Ha & Hn & Hc & Hmin)].
    + exists 0%nat, atom. rewrite Nat.add_0_r. split_and!; [done..|]. intros; lia.
    + exists (S i), a. rewrite Nat.add_succ_r. split_and!; [done..|].
      intros [|j] b Hj Hb Hjn; simpl in Hb.
      * injection Hb as ->. rewrite Nat.add_0_r in Hjn. by destruct Hfirst.
      * apply (Hmin j); [lia|done|]. by rewrite Nat.add_succ_r in Hjn.
Qed.

Lemma no_provider_cons node p atom rest c :
  no_provider node p (atom :: rest) c <->
  (p = node \/ c ∉ outputs atom) /\ no_provider node (S p) rest c.
Proof.
  split.
  - intros H. split.
    + destruct (decide (p = node)); [by left|]. right.
      apply (H 0%nat); [done|by rewrite Nat.add_0_r].
    + intros i a Ha Hn. apply (H (S i)); [done|by rewrite Nat.add_succ_r].
  - intros [Hf H] [|i] a Ha Hn; simpl in Ha.
    + injection Ha as ->. rewrite Nat.add_0_r in Hn. by destruct Hf.
    + apply (H i); [done|]. by rewrite Nat.add_succ_r in Hn.
Qed.

(** What the loop over the providers has added to its accumulator. *)
Record provided (node p : nat) rest (D : BS) (count : N) (U : CS) (D' : BS) (count' : N) (U' : CS)
    : Prop := {
  pv_deps : forall x, x ∈ to_gset D' <-> x ∈ to_gset D \/
    exists q c, x = N.of_nat q /\ c ∈ to_gset U /\ first_provider node p rest c q;
  pv_unresolved : forall c, c ∈ to_gset U' <-> c ∈ to_gset U /\ no_provider node p rest c;
  pv_count : exists k, size (to_gset D') = (size (to_gset D) + k)%nat /\
    count' = wrap ULONG_BITS (count + N.of_nat k)
}.

Lemma provided_done node p rest D count U :
  count < 2 ^ ULONG_BITS ->
  (forall c q, c ∈ to_gset U -> ~ first_provider node p rest c q) ->
  (forall c, c ∈ to_gset U -> no_provider node p rest c) ->
  provided node p rest D count U D count U.
Proof.
  intros Hcount Hf Hn. split.
  - intros x. split; [by left|]. intros [?|(q & c & _ & Hc & Hq)]; [done|]. by destruct (Hf c q).
  - intros c. split; [|by intros []]. intros Hc. split; [done|by apply Hn].
  - exists 0%nat. rewrite N.add_0_r, Nat.add_0_r. split; [done|]. by rewrite wrap_small.
Qed.

Lemma provided_skip node p atom rest D count U D' count' U' :
  (forall c, c ∈ to_gset U -> p = node \/ c ∉ outputs atom) ->
  provided node (S p) rest D count U D' count' U' ->
  provided node p (atom :: rest) D count U D' count' U'.
Proof.
  intros Hs [Hd Hu Hc]. split; [| |done].
  - intros x. rewrite Hd. setoid_rewrite first_provider_cons. split.
    + intros [?|(q & c & ? & Hc1 & ?)]; [by left|]. right. exists q, c. split_and!; [done..|].
      right. split; [by apply Hs|done].
    + intros [?|(q & c & ? & Hc1 & [(-> & Hn & Hc2)|[_ ?]])]; [by left| |right; by exists q, c].
      by destruct (Hs c Hc1).
  - intros c. rewrite Hu, no_provider_cons. naive_solver.
Qed.

Lemma providers_loop_spec node rest p D count U :
  count < 2 ^ ULONG_BITS -> (forall x, x ∈ to_gset D -> x < N.of_nat p) ->
  let '(D', count', U') := providers_loop node rest p (D, count, U) in
  provided node p rest D count U D' count' U'.
Proof.
  revert p D count U. induction rest as [|atom rest IH]; intros p D count U Hcount HD'.
  { apply provided_done; [done|by intros c q _ (i & a & _ & Ha & _)|by intros c _ i a Ha]. }
  cbn [providers_loop]. ns_simpl. case_if; breflect.
  { assert (to_gset U = ∅) as He by (apply leibniz_equiv, size_empty_inv; lia).
    apply provided_done; [done|..]; intros c; rewrite He; [intros q|]; intros ?%not_elem_of_empty; done. }
  case_bool_decide as Hpn.
  { specialize (IH (S p) D count U Hcount). destruct (providers_loop _ _ _ _) as [[D' c'] U'].
    apply provided_skip; [by left|]. apply IH. intros x ?%HD'. lia. }
  case_bool_decide as Hdis; cbn [negb].
  { specialize (IH (S p) D count U Hcount). destruct (providers_loop _ _ _ _) as [[D' c'] U'].
    apply provided_skip; [intros c Hc; right; set_solver|]. apply IH. intros x ?%HD'. lia. }
  set (D1 := (ns_ExchangeSet D (N.of_nat p)).1). set (U1 := Exclude U _).
  assert (HD1 : to_gset D1 = {[N.of_nat p]} ∪ to_gset D) by apply ExchangeSet_law.
  specialize (IH (S p) D1 (count +[ULONG_BITS] 1) U1 (wrap_lt _ _)).
  destruct (providers_loop _ _ _ _) as [[D' c'] U'].
  destruct IH as [Hd Hu (k & Hk & Hck)].
  { intros x. rewrite HD1. intros [->%elem_of_singleton|?%HD']%elem_of_union; lia. }
  split.
  - intros x. rewrite Hd, HD1. setoid_rewrite first_provider_cons. unfold U1.
    setoid_rewrite Exclude_law. split.
    + intros [[->%elem_of_singleton|?]%elem_of_union|(q & c & -> & [Hc1 Hc2]%elem_of_difference & ?)];
        [|by left|].
      * right. assert (to_gset U ∩ outputs atom <> ∅) as [c Hc]%set_choose_L by set_solver.
        apply elem_of_intersection in Hc as [??]. exists p, c. split_and!; [done..|]. by left.
      * right. exists q, c. split_and!; [done..|]. right. split; [by right|done].
    + intros [?|(q & c & -> & Hc & [(-> & _ & _)|[[?|Hc2] ?]])]; [set_solver|set_solver|done|].
      right. exists q, c. split_and!; [done| |done]. by apply elem_of_difference.
  - intros c. rewrite Hu, no_provider_cons. unfold U1. rewrite Exclude_law, elem_of_difference.
    naive_solver.
  - exists (S k). rewrite Hk, HD1, size_union_singleton.
    + split; [lia|]. rewrite Hck. unfold wrap. rewrite N.Div0.add_mod_idemp_l. f_equal. lia.
    + intros ?%HD'. lia.
Qed.

(** The dependencies of one atom: the first provider of each outer reference. *)
Definition deps_of atoms (node : nat) (atom : CExpression) (D : BS) : Prop :=
  forall x, x ∈ to_gset D <-> exists q c, x = N.of_nat q /\
    c ∈ to_gset (DeriveOuterReferences (CS := CS) atom) /\ first_provider node 0 atoms c q.

(** A column of the atom that no other atom gives. *)
Definition unprovided atoms (node : nat) (atom : CExpression) : Prop :=
  exists c, c ∈ to_gset (DeriveOuterReferences (CS := CS) atom) /\ no_provider node 0 atoms c.

Definition total_size (ds : list BS) : N := N.of_nat (sum_list_with (fun d => size (to_gset d)) ds).

Lemma dependencies_loop_spec atoms pre rest spec :
  atoms = pre ++ rest -> m_atoms spec = atoms -> m_dependency_count spec < 2 ^ ULONG_BITS ->
  exists ds, dependencies_loop rest (length pre) spec =
      with_dependencies (m_dependencies spec ++ ds)
        (m_external_dependencies (dependencies_loop rest (length pre) spec))
        (wrap ULONG_BITS (m_dependency_count spec + total_size ds)) spec /\
    Forall2 (fun '(node, atom) D => deps_of atoms node atom D)
      (zip (seq (length pre) (length rest)) rest) ds /\
    (m_external_dependencies (dependencies_loop rest (length pre) spec) = true <->
       m_external_dependencies spec = true \/
       exists i atom, rest !! i = Some atom /\ unprovided atoms (length pre + i) atom).
Proof.
  revert pre spec. induction rest as [|atom rest IH]; intros pre spec Hat Hsp Hcount; cbn [dependencies_loop].
  { exists []. rewrite app_nil_r. unfold total_size. cbn [sum_list_with]. rewrite N.add_0_r, wrap_small by done.
    split_and!; [by destruct spec|constructor|]. split; [by left|]. by intros [?|(? & ? & ? & _)]. }
  rewrite Hsp.
  pose proof (providers_loop_spec (length pre) atoms 0 (ns_empty (BS := BS)) (m_dependency_count spec)
    (DeriveOuterReferences (CS := CS) atom) Hcount) as Hp.
  destruct (providers_loop _ _ _ _) as [[D count] U].
  destruct Hp as [Hd Hu (k & Hk & Hck)]; [by ns_simpl; intros x ?%not_elem_of_empty|].
  set (spec1 := with_dependencies _ _ _ _).
  specialize (IH (pre ++ [atom]) spec1). rewrite length_app, Nat.add_1_r in IH.
  destruct IH as (ds & He & Hds & Hext).
  { by rewrite <-(assoc_L (++)). }
  { done. }
  { cbn. rewrite Hck. apply wrap_lt. }
  exists (D :: ds). split_and!.
  - rewrite He at 1. destruct spec as [a es ds0 pi cdc ext c]. unfold with_dependencies. simpl.
    f_equal; [by rewrite <-(assoc_L (++))|]. simpl in Hck. rewrite Hck. unfold wrap.
    rewrite N.Div0.add_mod_idemp_l. f_equal. unfold total_size. cbn [sum_list_with].
    ns_simpl in *. rewrite size_empty in Hk. lia.
  - cbn [length seq zip zip_with]. constructor; [|done].
    intros x. rewrite Hd. ns_simpl. split; [|by right].
    intros [?%not_elem_of_empty|?]; done.
  - rewrite Hext. cbn [m_external_dependencies spec1 with_dependencies].
    rewrite orb_true_iff. ns_simpl. rewrite N.ltb_lt. split.
    + intros [[Hs|?]|(i & a & Ha & Hun)]; [|by left|].
      * right. assert (to_gset U <> ∅) as [c [? ?]%Hu]%set_choose_L.
        { intros E. rewrite E, size_empty in Hs. lia. }
        exists 0%nat, atom. rewrite Nat.add_0_r. split; [done|]. by exists c.
      * right. exists (S i), a. by rewrite Nat.add_succ_r.
    + intros [?|([|i] & a & Ha & Hun)]; [by left; right| |].
      * left. left. injection Ha as ->. rewrite Nat.add_0_r in Hun. destruct Hun as (c & Hc & Hno).
        destruct (size (to_gset U)) eqn:Hz; [|lia]. apply size_empty_inv in Hz.
        exfalso. apply (not_elem_of_empty (C := gset N) c), (Hz c), Hu. done.
      * right. exists i, a. by rewrite Nat.add_succ_r in Hun.
Qed.

Lemma BuildDependencies_spec spec :
  m_dependencies spec = [] -> m_dependency_count spec = 0 -> m_external_dependencies spec = false ->
  exists ds ext, BuildDependencies spec =
      with_dependencies ds ext (wrap ULONG_BITS (total_size ds)) spec /\
    length ds = length (m_atoms spec) /\
    (forall node atom D, m_atoms spec !! node = Some atom -> ds !! node = Some D ->
       deps_of (m_atoms spec) node atom D) /\
    (ext = true <-> exists node atom, m_atoms spec !! node = Some atom /\
       unprovided (m_atoms spec) node atom).
Proof.
  intros Hd Hc He.
  destruct (dependencies_loop_spec (m_atoms spec) [] (m_atoms spec) spec) as (ds & Heq & Hds & Hext);
    [done|done|by rewrite Hc|]. rewrite Hd, Hc in Heq. simpl in Heq. rewrite He in Hext.
  exists ds, (m_external_dependencies (BuildDependencies spec)). unfold BuildDependencies. split_and!.
  - done.
  - apply Forall2_length in Hds. rewrite length_zip_with, length_seq in Hds. lia.
  - intros node atom D Ha HD'.
    apply (Forall2_lookup_lr _ _ _ node (node, atom) D Hds); [|exact HD'].
    apply lookup_zip_with_Some. exists node, atom. split_and!; [done| |done].
    apply lookup_seq. apply lookup_lt_Some in Ha. simpl. lia.
  - simpl in Hext. rewrite Hext. naive_solver.
Qed.
End dependencies.

(** ** Building *)

Section build.
Context {BS CS : Type} {HB : NodeSet BS} {HC : NodeSet CS} {HD : DerivedProps CS}.
Implicit Types (root : CExpression) (spec : CJoinRegionSpec BS).

(** The root of a region: a supported join with its three children. *)
Definition region_root root : bool :=
  FSupportedBinaryJoin (Eopid (Pop root)) && (Arity root =? 3)%nat.

Lemma region_root_join root :
  region_root root = true -> exists op p c t1 t2, region_of root = RJoin op p c t1 t2.
Proof.
  destruct root as [op children g]. unfold region_root, Arity. simpl.
  destruct children as [|e0 [|e1 [|p [|? ?]]]]; simpl; rewrite ?andb_false_r; try done.
  rewrite andb_true_r. intros ->. by do 5 eexists.
Qed.

(** What a built region is, in terms of its tree. *)
Record built_region (t : region_tree) spec : Prop := {
  br_atoms : m_atoms spec = leaves t;
  br_edges : exists es, Forall2 edge_matches (tree_edges t 0) es /\ Forall fresh es /\
    if m_cdc_supported spec then all_eligible (m_atoms spec) es (m_sedges spec)
    else m_sedges spec = es;
  br_pure : m_pure_inner spec = joins_all FInnerJoin t;
  br_cdc : m_cdc_supported spec = joins_all FCDCSupportedJoin t;
  br_deps : length (m_dependencies spec) = length (m_atoms spec) /\
    forall node atom D, m_atoms spec !! node = Some atom -> m_dependencies spec !! node = Some D ->
      deps_of (m_atoms spec) node atom D;
  br_external : m_external_dependencies spec = true <->
    exists node atom, m_atoms spec !! node = Some atom /\ unprovided (m_atoms spec) node atom;
  br_count : m_dependency_count spec = wrap ULONG_BITS (total_size (m_dependencies spec))
}.

Lemma matches_edge_ok t es :
  Forall2 edge_matches (tree_edges t 0) es -> Forall (edge_ok (BS := BS) (width t)) es.
Proof.
  intros Hm. pose proof (tree_edges_ok t 0) as Hok. apply Forall_forall. intros e He.
  apply list_elem_of_lookup in He as [i Hi].
  destruct (Forall2_lookup_r _ _ _ _ _ Hm Hi) as (d & Hd & Hde).
  eapply edge_matches_ok; [|done]. eapply Forall_lookup_1 in Hok; [|done]. exact Hok.
Qed.

Lemma Build_spec root :
  region_root root = true ->
  exists spec, Build root CJoinRegionSpec_New = Some (true, spec) /\ built_region (region_of root) spec.
Proof.
  intros Hroot. unfold Build.
  assert (negb (FSupportedBinaryJoin (Eopid (Pop root))) || negb (Arity root =? 3)%nat = false) as ->.
  { unfold region_root in Hroot. breflect. by destruct (FSupportedBinaryJoin _), (Arity root =? 3)%nat. }
  destruct (PbsCollect_spec root (CJoinRegionSpec_New (BS := BS))) as (S & spec1 & es & -> & C & HS).
  destruct (region_root_join root Hroot) as (op & p & c & t1 & t2 & Ht).
  destruct C as [Ha He Hm Hf Hp Hc Hd Hx Hn]. simpl in *.
  pose proof (width_pos t1). pose proof (width_pos t2).
  assert (Hw : length (m_atoms spec1) = width (region_of root)) by (by rewrite Ha).
  assert (Hw2 : (2 <= width (region_of root))%nat) by (rewrite Ht, width_join; lia).
  assert (Hes : length es = (width (region_of root) - 1)%nat)
    by (rewrite <-(Forall2_length _ _ _ Hm); apply length_tree_edges).
  rewrite Hw, He. rewrite Size_law, HS, size_span, Nat.sub_0_r, N.eqb_refl, andb_true_r.
  rewrite bool_decide_false by (intros ->; simpl in Hes; lia).
  destruct (N.leb_spec 2 (N.of_nat (width (region_of root)))) as [_|?]; [|lia]. cbn [negb andb].
  destruct (BuildDependencies_spec spec1 Hd Hn Hx) as (ds & ext & -> & Hlen & Hdeps & Hext).
  cbn [m_cdc_supported m_atoms m_sedges with_dependencies]. rewrite He.
  destruct (m_cdc_supported spec1) eqn:Hcdc.
  - destruct (eligibility_loop_spec (m_atoms spec1) es []) as (edges & -> & Hl & Hall); [done| |constructor|].
    { rewrite Hw. by apply matches_edge_ok. }
    eexists. split; [reflexivity|].
    split; cbn; [done| |done|congruence|done|done|done].
    exists es. split_and!; [done..|]. by split.
  - eexists. split; [reflexivity|].
    split; cbn; [done| |done|congruence|done|done|done].
    exists es. split_and!; [done..|]. by rewrite Hcdc.
Qed.

Lemma all_eligible_lookup atoms (es edges : list (CEdge BS)) i edge' :
  all_eligible atoms es edges -> edges !! i = Some edge' ->
  exists edge R rules' tes, es !! i = Some edge /\
    eligible atoms (take i edges) edge R rules' tes edge'.
Proof.
  intros [Hl Hall] Hi. destruct (lookup_lt_is_Some_2 es i) as [edge He].
  { rewrite <-Hl. by eapply lookup_lt_Some. }
  destruct (Hall i edge He) as (R & rules' & tes & e' & He' & Hel).
  assert (e' = edge') as -> by congruence. by exists edge, R, rules', tes.
Qed.

(** The loop over the rules looks for one the candidate does not obey. *)
Lemma rules_closed (joined : BS) rs :
  existsb (fun rule => negb (ns_IsDisjoint joined (m_activate rule)) &&
    negb (ns_ContainsAll joined (m_required rule))) rs = false <->
  closed_under rs (to_gset joined).
Proof.
  unfold closed_under. induction rs as [|r rs IH]; cbn [existsb]; [split; [constructor|done]|].
  rewrite orb_false_iff, IH, Forall_cons, andb_false_iff, !negb_false_iff. unfold obeys.
  ns_simpl. rewrite !bool_decide_eq_true.
  assert (to_gset joined ## to_gset (m_activate r) <-> to_gset (m_activate r) ## to_gset joined)
    by (split; apply symmetry). tauto.
Qed.

(** The walk over the TES keeps each of its nodes on its original side. *)
Lemma keeps_sides_all edge (lset rset tes : BS) :
  forallb (keeps_sides edge lset rset) (ns_bits tes) = true <->
  to_gset tes ∩ to_gset (m_eleft edge) ⊆ to_gset lset /\
  to_gset tes ∩ to_gset (m_eright edge) ⊆ to_gset rset.
Proof.
  rewrite forallb_forall. setoid_rewrite <-list_elem_of_In. setoid_rewrite bits_law.
  unfold keeps_sides. setoid_rewrite Get_law.
  split.
  - intros Hall. split; intros x [Hx1 Hx2]%elem_of_intersection; specialize (Hall x Hx1);
      breflect; repeat case_bool_decide; done.
  - intros [HL HR] x Hx. repeat case_bool_decide; set_solver.
Qed.

(** [FApplicable] on an edge whose eligibility is built, as a proposition. *)
Lemma FApplicable_eligible n atoms children edge R rules' tes edge' (lset rset : BS) :
  edge_ok n edge -> eligible atoms children edge R rules' tes edge' ->
  exists b, FApplicable edge' lset rset = Some b /\
    (b = true <->
       to_gset lset ## to_gset rset /\
       to_gset tes ⊆ to_gset lset ∪ to_gset rset /\
       ~ to_gset tes ## to_gset lset /\ ~ to_gset tes ## to_gset rset /\
       closed_under R (to_gset lset ∪ to_gset rset) /\
       (m_join_type edge <> EopLogicalInnerJoin ->
          to_gset tes ∩ to_gset (m_eleft edge) ⊆ to_gset lset /\
          to_gset tes ∩ to_gset (m_eright edge) ⊆ to_gset rset)).
Proof.
  intros Hok [-> _ _ Hk _ _ _]. unfold FApplicable. cbn [m_tes with_eligibility mbind option_bind].
  rewrite !IsDisjoint_law, ContainsAll_law, Union_law.
  case_bool_decide as Hd; cbn [negb]; [|eexists; split; [done|]; naive_solver].
  case_bool_decide as Ht; cbn [negb orb]; [|eexists; split; [done|]; naive_solver].
  case_bool_decide as Hl; cbn [orb]; [eexists; split; [done|]; naive_solver|].
  case_bool_decide as Hr; [eexists; split; [done|]; naive_solver|].
  pose proof (rules_closed (ns_Union lset rset)) as Hrules. rewrite Union_law in Hrules.
  cbn [m_conflict_rules with_eligibility].
  specialize (Hrules rules'). rewrite (Hk _ Ht) in Hrules.
  destruct (existsb _ rules').
  { exists false. split; [done|]. split; [done|]. intros (_ & _ & _ & _ & Hc & _). by apply Hrules in Hc. }
  assert (Hc : closed_under R (to_gset lset ∪ to_gset rset)) by (by apply Hrules).
  cbn [m_join_type with_eligibility]. case_bool_decide as Hj.
  { exists true. split; [done|]. split; [|done]. intros _. by split_and!. }
  eexists. split; [reflexivity|]. rewrite keeps_sides_all. cbn [m_eleft m_eright with_eligibility].
  clear -Hd Ht Hl Hr Hc Hj. tauto.
Qed.
End build.

(** ** Properties of a built region *)

Section region_properties.
Context {BS CS : Type} {HB : NodeSet BS} {HC : NodeSet CS} {HD : DerivedProps CS}.
Implicit Types (root : CExpression) (spec : CJoinRegionSpec BS).

Lemma eligible_matches atoms children d edge R rules' tes edge' :
  edge_matches (BS := BS) d edge -> eligible atoms children edge R rules' tes edge' ->
  edge_matches d edge'.
Proof. intros [? ? ? ? ? ?] [-> _ _ _ _ _ _]. by split. Qed.

Lemma built_matches t spec :
  built_region t spec -> Forall2 edge_matches (tree_edges t 0) (m_sedges spec).
Proof.
  intros [_ (es & Hm & _ & Hel) _ _ _ _ _]. destruct (m_cdc_supported spec); [|by subst].
  apply Forall2_same_length_lookup. split.
  { rewrite (Forall2_length _ _ _ Hm). symmetry. apply Hel. }
  intros i d edge' Hd He. destruct (all_eligible_lookup _ _ _ _ _ Hel He) as (edge & R & rs & tes & Hi & Hed).
  eapply eligible_matches; [|done]. by eapply Forall2_lookup_lr.
Qed.

(** An edge of a region whose joins are all supported by CD-C. *)
Lemma built_edge t spec i edge :
  built_region t spec -> m_cdc_supported spec = true -> m_sedges spec !! i = Some edge ->
  exists edge0 R rules' tes, edge_ok (length (m_atoms spec)) edge0 /\
    eligible (m_atoms spec) (take i (m_sedges spec)) edge0 R rules' tes edge.
Proof.
  intros Hb Hcdc Hi. destruct (br_edges _ _ Hb) as (es & Hm & _ & Hel). rewrite Hcdc in Hel.
  destruct (all_eligible_lookup _ _ _ _ _ Hel Hi) as (edge0 & R & rs & tes & H0 & He).
  exists edge0, R, rs, tes. split; [|done]. apply matches_edge_ok in Hm.
  rewrite (br_atoms _ _ Hb). by eapply Forall_lookup_1 in Hm.
Qed.

Lemma Build_false root :
  region_root root = false ->
  Build (BS := BS) (CS := CS) root CJoinRegionSpec_New = Some (false, CJoinRegionSpec_New).
Proof.
  unfold region_root, Build. destruct (FSupportedBinaryJoin _); [|done].
  by destruct (Arity root =? 3)%nat.
Qed.

Lemma Build_root root spec :
  Build (BS := BS) (CS := CS) root CJoinRegionSpec_New = Some (true, spec) ->
  exists op p c t1 t2, region_of root = RJoin op p c t1 t2.
Proof.
  intros He. apply region_root_join. destruct (region_root root) eqn:Hroot; [done|].
  by rewrite Build_false in He.
Qed.

Lemma Build_built root spec :
  Build (BS := BS) (CS := CS) root CJoinRegionSpec_New = Some (true, spec) ->
  built_region (region_of root) spec.
Proof.
  intros He. destruct (region_root root) eqn:Hroot.
  - destruct (Build_spec (BS := BS) (CS := CS) root Hroot) as (s & He' & Hb). congruence.
  - by rewrite Build_false in He.
Qed.

(** C39: [Build] never fails on a supported root, and only there: the size checks
    it makes always pass.  The atoms are the opaque subtrees from left to right;
    the edges are the joins in post-order, each with its predicate, and with the
    atoms under its left and right child as its sides, which are nonempty and
    disjoint; the two flags say whether all joins are inner, and whether CD-C
    supports them all. *)
Theorem Build_collects root :
  exists ok spec, Build (BS := BS) (CS := CS) root CJoinRegionSpec_New = Some (ok, spec) /\
    ok = region_root root /\
    (ok = true ->
       m_atoms spec = leaves (region_of root) /\
       Forall2 edge_matches (tree_edges (region_of root) 0) (m_sedges spec) /\
       Forall (edge_ok (length (m_atoms spec))) (m_sedges spec) /\
       length (m_sedges spec) = (length (m_atoms spec) - 1)%nat /\
       m_pure_inner spec = joins_all FInnerJoin (region_of root) /\
       m_cdc_supported spec = joins_all FCDCSupportedJoin (region_of root)).
Proof.
  destruct (region_root root) eqn:Hroot.
  - destruct (Build_spec (BS := BS) (CS := CS) root Hroot) as (spec & He & Hb). exists true, spec. split; [done|].
    split; [done|]. intros _. pose proof (built_matches _ _ Hb) as Hm. pose proof (br_atoms _ _ Hb) as Ha.
    split_and!; [done|done|rewrite Ha; by apply matches_edge_ok| |apply Hb|apply Hb].
    rewrite <-(Forall2_length _ _ _ Hm), Ha. apply length_tree_edges.
  - exists false, CJoinRegionSpec_New. by rewrite Build_false.
Qed.

(** C38: The total eligibility set of an edge is exactly what CD-C prescribes: the
    least superset of the atoms its predicate uses that is closed under the
    conflict rules of the earlier edges, grown by a whole side only where it
    would miss that side; it always meets both sides.  In particular the
    absorption of the rules ends. *)
Theorem eligibility_least root spec i edge
    (HB' : Build (BS := BS) (CS := CS) root CJoinRegionSpec_New = Some (true, spec))
    (Hcdc : m_cdc_supported spec = true) (Hi : m_sedges spec !! i = Some edge) :
  exists R ses tes T0 T1,
    children_rules (m_atoms spec) edge (take i (m_sedges spec)) [] = Some R /\
    m_ses edge = Some ses /\ m_tes edge = Some tes /\
    closure R (to_gset ses) T0 /\
    meet_side R (to_gset (m_eleft edge)) T0 T1 /\
    meet_side R (to_gset (m_eright edge)) T1 (to_gset tes) /\
    ~ to_gset tes ## to_gset (m_eleft edge) /\ ~ to_gset tes ## to_gset (m_eright edge).
Proof.
  pose proof (Build_built _ _ HB') as Hb.
  destruct (built_edge _ _ _ _ Hb Hcdc Hi) as (edge0 & R & rs & tes & Hok & Hel).
  pose proof (eligible_tes_meets _ _ _ _ _ _ _ _ Hok Hel) as [Hml Hmr].
  destruct Hel as [-> HR _ _ _ (T0 & T1 & ? & ? & ?) _].
  exists R, (PbsPredicateCover (m_atoms spec) (m_predicate edge0)), tes, T0, T1.
  rewrite children_rules_static. by split_and!.
Qed.

(** C37: The original join order is always admitted: an edge whose predicate uses
    only atoms of its own subtree applies to the two sides it has in the original
    tree, whatever conflict rules were derived. *)
Theorem original_join_applicable root spec i edge ses
    (HB' : Build (BS := BS) (CS := CS) root CJoinRegionSpec_New = Some (true, spec))
    (Hcdc : m_cdc_supported spec = true) (Hi : m_sedges spec !! i = Some edge)
    (Hses : m_ses edge = Some ses) (Hin : to_gset ses ⊆ to_gset (m_all edge)) :
  FApplicable edge (m_eleft edge) (m_eright edge) = Some true.
Proof.
  pose proof (Build_built _ _ HB') as Hb.
  destruct (built_edge _ _ _ _ Hb Hcdc Hi) as (edge0 & R & rs & tes & Hok & Hel).
  destruct (FApplicable_eligible _ _ _ _ _ _ _ _ (m_eleft edge) (m_eright edge) Hok Hel)
    as (b & -> & Hiff). f_equal. apply Hiff.
  pose proof (eligible_tes_meets _ _ _ _ _ _ _ _ Hok Hel) as [Hml Hmr].
  pose proof (eg_edge _ _ _ _ _ _ _ Hel) as ->. cbn in *. injection Hses as <-.
  pose proof (ek_all _ _ Hok) as Hall. rewrite <-Hall.
  split_and!; [apply Hok| |done|done| |].
  - by eapply eligible_tes_within.
  - eapply Forall_impl; [exact (eg_rules_ok _ _ _ _ _ _ _ Hel)|].
    intros rule [_ _ Hw]. right. etrans; [|exact Hw]. apply union_subseteq_r.
  - intros _. split; apply intersection_subseteq_r.
Qed.

(** [FApplicable] decides CD-C applicability.  An edge applies to a pair
    exactly when the two sets are disjoint, together hold its total eligibility
    set, each meet it, obey every conflict rule that was derived for the edge
    (those dropped during absorption included), and, unless the join is inner,
    keep the nodes of the eligibility set on their original sides. *)
Theorem FApplicable_decides root spec i edge (lset rset : BS)
    (HB' : Build (BS := BS) (CS := CS) root CJoinRegionSpec_New = Some (true, spec))
    (Hcdc : m_cdc_supported spec = true) (Hi : m_sedges spec !! i = Some edge) :
  exists R tes b,
    children_rules (m_atoms spec) edge (take i (m_sedges spec)) [] = Some R /\
    m_tes edge = Some tes /\ FApplicable edge lset rset = Some b /\
    (b = true <->
       to_gset lset ## to_gset rset /\
       to_gset tes ⊆ to_gset lset ∪ to_gset rset /\
       ~ to_gset tes ## to_gset lset /\ ~ to_gset tes ## to_gset rset /\
       closed_under R (to_gset lset ∪ to_gset rset) /\
       (m_join_type edge <> EopLogicalInnerJoin ->
          to_gset tes ∩ to_gset (m_eleft edge) ⊆ to_gset lset /\
          to_gset tes ∩ to_gset (m_eright edge) ⊆ to_gset rset)).
Proof.
  pose proof (Build_built _ _ HB') as Hb.
  destruct (built_edge _ _ _ _ Hb Hcdc Hi) as (edge0 & R & rs & tes & Hok & Hel).
  destruct (FApplicable_eligible _ _ _ _ _ _ _ _ lset rset Hok Hel) as (b & Hb' & Hiff).
  exists R, tes, b. pose proof (eg_edge _ _ _ _ _ _ _ Hel) as ->.
  rewrite children_rules_static. split_and!; [apply Hel|done|done|done].
Qed.

(** The dependencies of an atom are the first other atoms that give the
    columns it refers to; a column no other atom gives makes the region depend
    on the outside; the dependency count is the total number of dependencies,
    as a 32-bit integer. *)
Theorem BuildDependencies_first_providers root spec
    (HB' : Build (BS := BS) (CS := CS) root CJoinRegionSpec_New = Some (true, spec)) :
  length (m_dependencies spec) = length (m_atoms spec) /\
  (forall node atom D, m_atoms spec !! node = Some atom -> m_dependencies spec !! node = Some D ->
     (N.of_nat node ∉ to_gset D) /\
     forall p, N.of_nat p ∈ to_gset D <->
       exists c, c ∈ to_gset (DeriveOuterReferences (CS := CS) atom) /\
         first_provider node 0 (m_atoms spec) c p) /\
  (m_external_dependencies spec = true <->
     exists node atom, m_atoms spec !! node = Some atom /\ unprovided (m_atoms spec) node atom) /\
  m_dependency_count spec = wrap ULONG_BITS (total_size (m_dependencies spec)).
Proof.
  pose proof (Build_built _ _ HB') as [_ _ _ _ [Hl Hd] Hx Hc].
  split_and!; [done| |done|done]. intros node atom D Ha HD'. specialize (Hd _ _ _ Ha HD').
  split.
  - rewrite (Hd _). intros (q & c & Hq & _ & (i & a & -> & _ & Hn & _)). lia.
  - intros p. rewrite (Hd _). split.
    + intros (q & c & Hq & ? & ?). assert (p = q) as -> by lia. by exists c.
    + intros (c & ? & ?). by exists p, c.
Qed.
End region_properties.

(** ** Witnesses: a region of three atoms, the last one lateral *)

Definition payload (e : CExpression) : N := let 'MkOperator _ _ _ _ _ p := Pop e in p.

(** Atom [k] outputs column [k]; a predicate uses, and a lateral atom refers to,
    the columns of its children. *)
Definition sample_props : DerivedProps (gset N) := {|
  DeriveOutputColumns e := {[payload e]};
  DeriveOuterReferences e := list_to_set (payload <$> Children e);
  DeriveUsedColumns e := list_to_set (payload <$> Children e);
  DeriveHasSubquery _ := false;
  PredicateNullRejecting e cols := negb (bool_decide (list_to_set (payload <$> Children e) ## cols))
|}.

Definition sample_node (id : EOperatorId) (k : N) (children : list CExpression) : CExpression :=
  MkExpression (MkOperator id 0 false false None k) children None.
Definition sample_atom (k : N) : CExpression := sample_node (EopOther 0) k [].
Definition sample_predicate (i j : N) : CExpression :=
  sample_node (EopOther 1) 0 [sample_atom i; sample_atom j].

(** ([0] left outer join [1] on 0 = 1) inner join [2] on 1 = 2, where [2] refers
    to column 0. *)
Definition sample_root : CExpression :=
  sample_node EopLogicalInnerJoin 0
    [sample_node EopLogicalLeftOuterJoin 0 [sample_atom 0; sample_atom 1; sample_predicate 0 1];
     sample_node (EopOther 0) 2 [sample_atom 0];
     sample_predicate 1 2].

Definition sample_region : option (CJoinRegionSpec (gset N)) :=
  match Build (HD := sample_props) sample_root CJoinRegionSpec_New with
  | Some (true, spec) => Some spec
  | _ => None
  end.

Definition sample_spec : CJoinRegionSpec (gset N) := default CJoinRegionSpec_New sample_region.
Definition sample_edge (i : nat) : CEdge (gset N) :=
  default (CEdge_New EopLogicalInnerJoin ∅ ∅ sample_root None) (m_sedges sample_spec !! i).

Lemma sample_spec_built :
  Build (HD := sample_props) sample_root CJoinRegionSpec_New = Some (true, sample_spec).
Proof. vm_compute. reflexivity. Qed.

Lemma sample_edge_built i :
  (i < 2)%nat -> m_sedges sample_spec !! i = Some (sample_edge i).
Proof. intros Hi. destruct i as [|[|i]]; [vm_compute; reflexivity..|lia]. Qed.

Lemma eligibility_least_witness :
  exists R ses tes T0 T1,
    children_rules (HD := sample_props) (m_atoms sample_spec) (sample_edge 1)
      (take 1 (m_sedges sample_spec)) [] = Some R /\
    m_ses (sample_edge 1) = Some ses /\ m_tes (sample_edge 1) = Some tes /\
    closure R (to_gset ses) T0 /\
    meet_side R (to_gset (m_eleft (sample_edge 1))) T0 T1 /\
    meet_side R (to_gset (m_eright (sample_edge 1))) T1 (to_gset tes) /\
    ~ to_gset tes ## to_gset (m_eleft (sample_edge 1)) /\
    ~ to_gset tes ## to_gset (m_eright (sample_edge 1)).
Proof.
  apply (eligibility_least (HD := sample_props) sample_root sample_spec 1 (sample_edge 1) sample_spec_built).
  - vm_compute. reflexivity.
  - apply sample_edge_built. lia.
Defined.

Lemma original_join_applicable_witness :
  FApplicable (sample_edge 1) (m_eleft (sample_edge 1)) (m_eright (sample_edge 1)) = Some true /\
  FApplicable (sample_edge 0) {[1]} {[0]} = Some false.
Proof.
  split; [|vm_compute; reflexivity].
  apply (original_join_applicable (HD := sample_props) sample_root sample_spec 1 (sample_edge 1)
           {[1; 2]} sample_spec_built).
  - vm_compute. reflexivity.
  - apply sample_edge_built. lia.
  - vm_compute. reflexivity.
  - apply (bool_decide_eq_true_1 (_ ⊆ _)). vm_compute. reflexivity.
Defined.

Lemma FApplicable_decides_witness :
  exists R tes b,
    children_rules (HD := sample_props) (m_atoms sample_spec) (sample_edge 1)
      (take 1 (m_sedges sample_spec)) [] = Some R /\
    m_tes (sample_edge 1) = Some tes /\
    FApplicable (sample_edge 1) {[1]} {[2]} = Some b /\ b = false.
Proof.
  destruct (FApplicable_decides (HD := sample_props) sample_root sample_spec 1 (sample_edge 1)
              {[1]} {[2]} sample_spec_built) as (R & tes & b & ? & ? & ? & _).
  - vm_compute. reflexivity.
  - apply sample_edge_built. lia.
  - assert (FApplicable (sample_edge 1) {[1]} {[2]} = Some false) by (vm_compute; reflexivity).
    exists R, tes, b. split_and!; [done..|congruence].
Defined.

Lemma BuildDependencies_first_providers_witness :
  m_dependency_count sample_spec = 1 /\
  length (m_dependencies sample_spec) = length (m_atoms sample_spec).
Proof.
  split; [vm_compute; reflexivity|].
  exact (proj1 (BuildDependencies_first_providers (HD := sample_props) sample_root sample_spec sample_spec_built)).
Defined.

(** The result of a rule: a join over the binding of a join that is marked as a
    root already. *)
Definition sample_bound : CExpression :=
  MkExpression (marked_op (Pop sample_root) true) [sample_atom 0; sample_atom 1; sample_predicate 0 1] (Some 7).
Definition sample_result_of_rule : CExpression :=
  sample_node EopLogicalInnerJoin 0 [sample_bound; sample_root; sample_predicate 1 2].

Lemma Mark_one_root_per_region_witness :
  let marked := PexprMarkDPHyperRegions (H := sample_props) true true sample_result_of_rule false in
  map (fun e => (FDPHyperRegionMember (Pop e), FDPHyperRegionRoot (Pop e))) (marked :: Children marked) =
    [(true, true); (true, true); (true, false); (false, false)] /\
  well_marked false marked /\ marking_of (H := sample_props) true true sample_result_of_rule marked.
Proof.
  split; [reflexivity|].
  apply (Mark_one_root_per_region (H := sample_props) true true sample_result_of_rule false).
  repeat split; reflexivity.
Defined.
