(* ===== verification/JoinRegion.v ===== *)
(** * CDPHyperJoinRegion: from a join region to its hypergraph

    Model of [CDPHyperJoinRegion] (libgpopt/src/xforms/CDPHyperJoinRegion.cpp):
    the construction of the DPHyper graph of a region, from a flat list of
    components and conjuncts or from a [CJoinRegionSpec], within an edge budget;
    the test whether a pair of node sets may be joined; and the join that a pair
    stands for. *)

From S2P Require Import Prelude NodeSet Expression DPHyperGraph DPHyperEnum DPHyperPlan.
From S2P Require Import UnionFind JoinRegionSpec.

Open Scope N_scope.

(** The three functions of [CPredicateUtils] the region uses. *)
Class PredicateOps := {
  PdrgpexprConjuncts : CExpression -> list CExpression;
  IsEqualityOp : CExpression -> bool;
  PexprConjunction : list CExpression -> CExpression
}.

Record CDPHyperJoinRegion (BS : Type) := MkRegion {
  m_components : list CExpression;
  m_conjuncts : list CExpression;
  m_predicate_covers : list BS;
  m_equality_edges : list bool;
  m_skeleton_edges : list (BS * BS);
  m_spec : option (CJoinRegionSpec BS);
  m_graph : CDPHyperGraph BS;
  m_edge_budget : N;
  m_generated_edges : N;
  m_dependency_edges : N;
  m_cartesian_edges : N;
  m_edge_budget_exhausted : bool
}.
Arguments MkRegion {BS} _ _ _ _ _ _ _ _ _ _ _ _.
Arguments m_components {BS} _.
Arguments m_conjuncts {BS} _.
Arguments m_predicate_covers {BS} _.
Arguments m_equality_edges {BS} _.
Arguments m_skeleton_edges {BS} _.
Arguments m_spec {BS} _.
Arguments m_graph {BS} _.
Arguments m_edge_budget {BS} _.
Arguments m_generated_edges {BS} _.
Arguments m_dependency_edges {BS} _.
Arguments m_cartesian_edges {BS} _.
Arguments m_edge_budget_exhausted {BS} _.

Section region.
Context {BS CS : Type} {HB : NodeSet BS} {HC : NodeSet CS} {HD : DerivedProps CS} {HP : PredicateOps}.
Implicit Types (jr : CDPHyperJoinRegion BS) (cover joined : BS).

(** The two constructors. *)
Definition CDPHyperJoinRegion_New (components conjuncts : list CExpression) (edge_budget : N)
    : CDPHyperJoinRegion BS :=
  MkRegion components conjuncts [] [] [] None (CDPHyperGraph_New 0) edge_budget 0 0 0 false.

Definition CDPHyperJoinRegion_FromSpec (spec : CJoinRegionSpec BS) (edge_budget : N)
    : CDPHyperJoinRegion BS :=
  MkRegion (m_atoms spec)
    (concat ((fun edge => PdrgpexprConjuncts (m_predicate edge)) <$> m_sedges spec))
    [] [] ((fun edge => (m_eleft edge, m_eright edge)) <$> m_sedges spec)
    (Some spec) (CDPHyperGraph_New 0) edge_budget 0 0 0 false.

(** ** State updates *)

Definition set_graph (g : CDPHyperGraph BS) jr : CDPHyperJoinRegion BS :=
  MkRegion (m_components jr) (m_conjuncts jr) (m_predicate_covers jr) (m_equality_edges jr)
    (m_skeleton_edges jr) (m_spec jr) g (m_edge_budget jr) (m_generated_edges jr)
    (m_dependency_edges jr) (m_cartesian_edges jr) (m_edge_budget_exhausted jr).
Definition add_cover (is_equality : bool) (cover : BS) jr : CDPHyperJoinRegion BS :=
  MkRegion (m_components jr) (m_conjuncts jr) (m_predicate_covers jr ++ [cover])
    (m_equality_edges jr ++ [is_equality])
    (m_skeleton_edges jr) (m_spec jr) (m_graph jr) (m_edge_budget jr) (m_generated_edges jr)
    (m_dependency_edges jr) (m_cartesian_edges jr) (m_edge_budget_exhausted jr).
Definition add_equality_edge (is_equality : bool) jr : CDPHyperJoinRegion BS :=
  MkRegion (m_components jr) (m_conjuncts jr) (m_predicate_covers jr)
    (m_equality_edges jr ++ [is_equality])
    (m_skeleton_edges jr) (m_spec jr) (m_graph jr) (m_edge_budget jr) (m_generated_edges jr)
    (m_dependency_edges jr) (m_cartesian_edges jr) (m_edge_budget_exhausted jr).
Definition set_counts (generated dependency cartesian : N) jr : CDPHyperJoinRegion BS :=
  MkRegion (m_components jr) (m_conjuncts jr) (m_predicate_covers jr) (m_equality_edges jr)
    (m_skeleton_edges jr) (m_spec jr) (m_graph jr) (m_edge_budget jr) generated
    dependency cartesian (m_edge_budget_exhausted jr).
Definition exhaust jr : CDPHyperJoinRegion BS :=
  MkRegion (m_components jr) (m_conjuncts jr) (m_predicate_covers jr) (m_equality_edges jr)
    (m_skeleton_edges jr) (m_spec jr) (m_graph jr) (m_edge_budget jr) (m_generated_edges jr)
    (m_dependency_edges jr) (m_cartesian_edges jr) true.

(** ** Edges *)

(** [m_graph->AddEdge(...); ++m_generated_edges;] *)
Definition add_graph_edge (left right : BS) (edge_id : N) jr : option (CDPHyperJoinRegion BS) :=
  g ← AddEdge left right edge_id (m_graph jr);
  Some (set_counts (m_generated_edges jr +[ULONG_BITS] 1) (m_dependency_edges jr)
          (m_cartesian_edges jr) (set_graph g jr)).

(** The same after [if (m_generated_edges >= m_edge_budget)
    { m_edge_budget_exhausted = true; return false; }] *)
Definition add_budgeted_edge (left right : BS) (edge_id : N) jr
    : option (bool * CDPHyperJoinRegion BS) :=
  if m_edge_budget jr <=? m_generated_edges jr then Some (false, exhaust jr) else
  jr ← add_graph_edge left right edge_id jr; Some (true, jr).

(** [if (!step) return false; rest], and [a && b] over steps that change the
    region. *)
Definition and_step (m : option (bool * CDPHyperJoinRegion BS))
    (k : CDPHyperJoinRegion BS -> option (bool * CDPHyperJoinRegion BS))
    : option (bool * CDPHyperJoinRegion BS) :=
  '(ok, jr) ← m; if (ok : bool) then k jr else Some (false, jr).

Definition count_dependency jr : CDPHyperJoinRegion BS :=
  set_counts (m_generated_edges jr) (m_dependency_edges jr +[ULONG_BITS] 1) (m_cartesian_edges jr) jr.
Definition count_cartesian jr : CDPHyperJoinRegion BS :=
  set_counts (m_generated_edges jr) (m_dependency_edges jr) (m_cartesian_edges jr +[ULONG_BITS] 1) jr.

(** [m_conjuncts->Size() + m_dependency_edges + m_cartesian_edges] *)
Definition next_edge_id jr : N :=
  wrap ULONG_BITS (N.of_nat (length (m_conjuncts jr)) + m_dependency_edges jr + m_cartesian_edges jr).

Definition FContainsEquality (predicate : CExpression) : bool :=
  existsb IsEqualityOp (PdrgpexprConjuncts predicate).

Definition FPredicateCrosses (left right : BS) jr : bool :=
  let joined := ns_Union left right in
  existsb (fun cover => (1 <? ns_Size cover) && ns_ContainsAll joined cover &&
             negb (ns_IsDisjoint left cover) && negb (ns_IsDisjoint right cover))
    (m_predicate_covers jr).

Fixpoint dependency_edges_loop (rest : list BS) (dependent : N) jr
    : option (bool * CDPHyperJoinRegion BS) :=
  match rest with
  | [] => Some (true, jr)
  | providers :: rest =>
      if ns_Size providers =? 0 then dependency_edges_loop rest (dependent + 1) jr else
      let dependent_node := (ns_ExchangeSet ns_empty dependent).1 in
      let edge_id := wrap ULONG_BITS (N.of_nat (length (m_conjuncts jr)) + m_dependency_edges jr) in
      and_step (add_budgeted_edge providers dependent_node edge_id jr) (fun jr =>
      dependency_edges_loop rest (dependent + 1) (count_dependency jr))
  end.

Definition AddDependencyEdges jr : option (bool * CDPHyperJoinRegion BS) :=
  match m_spec jr with
  | Some spec =>
      if 0 <? m_dependency_count spec then dependency_edges_loop (m_dependencies spec) 0 jr
      else Some (true, jr)
  | None => Some (true, jr)
  end.

Fixpoint skeleton_edges_loop (edges : list (BS * BS)) jr : option (bool * CDPHyperJoinRegion BS) :=
  match edges with
  | [] => Some (true, jr)
  | edge :: edges =>
      if FPredicateCrosses edge.1 edge.2 jr then skeleton_edges_loop edges jr else
      and_step (add_budgeted_edge edge.1 edge.2 (next_edge_id jr) jr) (fun jr =>
      skeleton_edges_loop edges (count_cartesian jr))
  end.

Definition AddMissingSkeletonEdges jr : option (bool * CDPHyperJoinRegion BS) :=
  skeleton_edges_loop (m_skeleton_edges jr) jr.

(** The two bit sets are the caller's, changed in place; a failed call leaves
    them as they are at that point. *)
Fixpoint AddPredicatePartitionsRecursive (predicate_id : N) (nodes : list N) (lset rset : BS) jr
    : option (bool * BS * BS * CDPHyperJoinRegion BS) :=
  match nodes with
  | [] =>
      if ns_Size rset =? 0 then Some (true, lset, rset, jr) else
      '(ok, jr) ← add_budgeted_edge lset rset predicate_id jr;
      Some (ok, lset, rset, jr)
  | node :: nodes =>
      let lset := (ns_ExchangeSet lset node).1 in
      res ← AddPredicatePartitionsRecursive predicate_id nodes lset rset jr;
      let '(ok, lset, rset, jr) := res : bool * BS * BS * CDPHyperJoinRegion BS in
      if negb ok then Some (false, lset, rset, jr) else
      let lset := (ns_ExchangeClear lset node).1 in
      let rset := (ns_ExchangeSet rset node).1 in
      res ← AddPredicatePartitionsRecursive predicate_id nodes lset rset jr;
      let '(success, lset, rset, jr) := res : bool * BS * BS * CDPHyperJoinRegion BS in
      Some (success, lset, (ns_ExchangeClear rset node).1, jr)
  end.

(** [None] is [nodes[0]] of an empty cover. *)
Definition AddPredicatePartitions (predicate_id : N) cover jr
    : option (bool * CDPHyperJoinRegion BS) :=
  match ns_bits cover with
  | [] => None
  | lowest :: nodes =>
      res ← AddPredicatePartitionsRecursive predicate_id nodes (ns_ExchangeSet ns_empty lowest).1
              ns_empty jr;
      let '(success, _, _, jr) := res : bool * BS * BS * CDPHyperJoinRegion BS in
      Some (success, jr)
  end.

(** ** Connected components *)

(** All nodes of a set into one class; [None] is [iter.Bit()] on an empty set. *)
Definition union_set (nodes : BS) (parent : list N) : option (list N) :=
  match ns_bits nodes with
  | [] => None
  | first :: others => union_rest first others parent
  end.

Fixpoint union_covers (covers : list BS) (parent : list N) : option (list N) :=
  match covers with
  | [] => Some parent
  | cover :: covers =>
      if ns_Size cover <? 2 then union_covers covers parent else
      parent ← union_set cover parent; union_covers covers parent
  end.

Fixpoint union_skeleton (edges : list (BS * BS)) (parent : list N) : option (list N) :=
  match edges with
  | [] => Some parent
  | edge :: edges =>
      parent ← union_set (ns_Union edge.1 edge.2) parent; union_skeleton edges parent
  end.

(** [by_root] and [components] share their bit sets: a component is the root
    whose entry of [by_root] it is. *)
Fixpoint components_loop (nodes : list N) (parent : list N) (by_root : list (option BS))
    (components : list N) : option (list (option BS) * list N) :=
  match nodes with
  | [] => Some (by_root, components)
  | node :: nodes =>
      '(root, parent) ← find_root (find_fuel parent) parent node;
      entry ← by_root.[root];
      let '(component, components) :=
        match entry with
        | None => (ns_empty, components ++ [root])
        | Some component => (component, components)
        end in
      components_loop nodes parent
        (<[N.to_nat root := Some (ns_ExchangeSet component node).1]> by_root) components
  end.

Definition component_of (by_root : list (option BS)) (root : N) : option BS :=
  entry ← by_root.[root]; entry.

(** The inner loop: [left] with the components after it. *)
Fixpoint cartesian_row (lset : BS) (rights : list BS) jr : option (bool * CDPHyperJoinRegion BS) :=
  match rights with
  | [] => Some (true, jr)
  | rset :: rights =>
      and_step (add_budgeted_edge lset rset (next_edge_id jr) jr) (fun jr =>
      cartesian_row lset rights (count_cartesian jr))
  end.

Fixpoint cartesian_loop (components : list BS) jr : option (bool * CDPHyperJoinRegion BS) :=
  match components with
  | [] => Some (true, jr)
  | lset :: rights =>
      and_step (cartesian_row lset rights jr) (cartesian_loop rights)
  end.

(** The classes of the nodes under the covers and the skeleton. *)
Definition predicate_components jr : option (list BS) :=
  let nodes := N.of_nat <$> seq 0 (length (m_components jr)) in
  parent ← union_covers (m_predicate_covers jr) nodes;
  parent ← union_skeleton (m_skeleton_edges jr) parent;
  '(by_root, components) ←
    components_loop nodes parent (replicate (length (m_components jr)) None) [];
  mapM (component_of by_root) components.

Definition AddCartesianComponentEdges jr : option (bool * CDPHyperJoinRegion BS) :=
  components ← predicate_components jr; cartesian_loop components jr.

(** ** Build *)

(** The mixed-join branch: one hyperedge per join, between the parts of its
    total eligibility set on either side. *)
Fixpoint tes_edges_loop (edges : list (CEdge BS)) (edge_id : N) jr
    : option (bool * CDPHyperJoinRegion BS) :=
  match edges with
  | [] => Some (true, jr)
  | edge :: edges =>
      if m_edge_budget jr <=? m_generated_edges jr then Some (false, exhaust jr) else
      let jr := add_equality_edge (FContainsEquality (m_predicate edge)) jr in
      tes ← m_tes edge;
      jr ← add_graph_edge (ns_Intersection tes (m_eleft edge))
             (ns_Intersection tes (m_eright edge)) edge_id jr;
      tes_edges_loop edges (edge_id + 1) jr
  end.

Definition RegionPredicateCover (predicate : CExpression) jr : BS :=
  PbsPredicateCover (m_components jr) predicate.

Fixpoint predicates_loop (rest : list CExpression) (predicate : N) jr
    : option (bool * CDPHyperJoinRegion BS) :=
  match rest with
  | [] => Some (true, jr)
  | conjunct :: rest =>
      let cover := RegionPredicateCover conjunct jr in
      let jr := add_cover (FContainsEquality conjunct) cover jr in
      if 1 <? ns_Size cover then
        and_step (AddPredicatePartitions predicate cover jr) (predicates_loop rest (predicate + 1))
      else predicates_loop rest (predicate + 1) jr
  end.

Definition mixed_joins jr : option (CJoinRegionSpec BS) :=
  match m_spec jr with
  | Some spec => if negb (m_pure_inner spec) then Some spec else None
  | None => None
  end.

Definition BuildRegion jr : option (bool * CDPHyperJoinRegion BS) :=
  let jr := set_graph (CDPHyperGraph_New (N.of_nat (length (m_components jr)))) jr in
  match mixed_joins jr with
  | Some spec => tes_edges_loop (m_sedges spec) 0 jr
  | None =>
      and_step (predicates_loop (m_conjuncts jr) 0 jr) (fun jr =>
      and_step (AddDependencyEdges jr) (fun jr =>
      and_step (AddMissingSkeletonEdges jr) AddCartesianComponentEdges))
  end.

(** ** Applicability of a pair *)

(** The state of the loop of [FDependencyApplicable]: [swapped], [directional]. *)
Definition dependency_node (left right joined : BS) (node : N) (required : BS)
    (acc : bool * bool) : option (bool * bool) :=
  let '(swapped, directional) := acc in
  if negb (ns_ContainsAll joined required) then None else
  let provider_right := ns_Get left node && negb (ns_IsDisjoint right required) in
  let provider_left := ns_Get right node && negb (ns_IsDisjoint left required) in
  if provider_right || provider_left then
    let candidate_swapped := provider_right in
    if directional && negb (Bool.eqb swapped candidate_swapped) then None
    else Some (candidate_swapped, true)
  else Some (swapped, directional).

Fixpoint dependency_loop (left right joined : BS) (dependencies : list BS) (node : N)
    (acc : bool * bool) : option (bool * bool) :=
  match dependencies with
  | [] => Some acc
  | required :: dependencies =>
      if negb (ns_Get joined node) then dependency_loop left right joined dependencies (node + 1) acc
      else acc ← dependency_node left right joined node required acc;
           dependency_loop left right joined dependencies (node + 1) acc
  end.

(** [None] is the answer [false]; [Some (swapped, directional)] is [true] with
    its two results. *)
Definition FDependencyApplicable (left right : BS) jr : option (bool * bool) :=
  match m_spec jr with
  | Some spec =>
      if 0 <? m_dependency_count spec
      then dependency_loop left right (ns_Union left right) (m_dependencies spec) 0 (false, false)
      else Some (false, false)
  | None => Some (false, false)
  end.

(** [Some (applicable, swapped)]; [None] is an edge id out of range. *)
Definition FPairApplicable (left right : BS) (edge_id : N) jr : option (bool * bool) :=
  match FDependencyApplicable left right jr with
  | None => Some (false, false)
  | Some _ =>
      match mixed_joins jr with
      | None => Some (true, false)
      | Some spec =>
          edge ← (m_sedges spec).[edge_id];
          direct ← FApplicable edge left right;
          if (direct : bool) then Some (true, false) else
          reverse ← FApplicable edge right left;
          if (reverse : bool) then Some (true, true) else Some (false, false)
      end
  end.

Record SApplicableEdge := MkApplicable { ae_edge_id : N; ae_swapped : bool }.

Fixpoint applicable_loop (left right : BS) (edge_ids : list N) jr : option (list SApplicableEdge) :=
  match edge_ids with
  | [] => Some []
  | edge_id :: edge_ids =>
      '(applicable, swapped) ← FPairApplicable left right edge_id jr;
      rest ← applicable_loop left right edge_ids jr;
      Some (if (applicable : bool) then MkApplicable edge_id swapped :: rest else rest)
  end.

Definition ApplicableEdges (left right : BS) jr : option (list SApplicableEdge) :=
  match mixed_joins jr with
  | None => Some []
  | Some spec =>
      applicable_loop left right (N.of_nat <$> seq 0 (length (m_sedges spec))) jr
  end.

(** ** The join a pair stands for *)

Record SJoinRequest := MkRequest {
  rq_join_type : EOperatorId;
  rq_swapped : bool;
  rq_dependency_directional : bool;
  rq_notin_comparison : option CExpression;
  rq_edge_ids : list N
}.

(** The loop over the applicable edges: the request, the number of non-inner
    edges and the orientation of the last of them. *)
Fixpoint request_loop (edges : list (CEdge BS)) (applicable : list SApplicableEdge)
    (acc : SJoinRequest * N * bool) : option (SJoinRequest * N * bool) :=
  match applicable with
  | [] => Some acc
  | candidate :: applicable =>
      let '(request, non_inner_count, non_inner_swapped) := acc in
      edge ← edges.[ae_edge_id candidate];
      let ids := rq_edge_ids request ++ [ae_edge_id candidate] in
      if bool_decide (m_join_type edge <> EopLogicalInnerJoin) then
        request_loop edges applicable
          (MkRequest (m_join_type edge) (rq_swapped request) (rq_dependency_directional request)
             (m_notin_comparison edge) ids,
           non_inner_count +[ULONG_BITS] 1, ae_swapped candidate)
      else
        request_loop edges applicable
          (MkRequest (rq_join_type request) (rq_swapped request) (rq_dependency_directional request)
             (rq_notin_comparison request) ids,
           non_inner_count, non_inner_swapped)
  end.

Definition set_swapped (swapped : bool) (request : SJoinRequest) : SJoinRequest :=
  MkRequest (rq_join_type request) swapped (rq_dependency_directional request)
    (rq_notin_comparison request) (rq_edge_ids request).

(** [Some None] is the answer [false]. *)
Definition FBuildJoinRequest (left right : BS) jr : option (option SJoinRequest) :=
  match FDependencyApplicable left right jr with
  | None => Some None
  | Some (dependency_swapped, directional) =>
      let request := MkRequest EopLogicalInnerJoin dependency_swapped directional None [] in
      match mixed_joins jr with
      | None => Some (Some request)
      | Some spec =>
          applicable ← ApplicableEdges left right jr;
          if bool_decide (applicable = []) then Some None else
          '(request, non_inner_count, non_inner_swapped) ←
            request_loop (m_sedges spec) applicable (request, 0, false);
          if negb (non_inner_count =? 0) &&
             negb ((non_inner_count =? 1) && (length applicable =? 1)%nat)
          then Some None else
          if non_inner_count =? 1 then
            let commutative := bool_decide (rq_join_type request = EopLogicalFullOuterJoin) in
            if rq_dependency_directional request && negb commutative &&
               negb (Bool.eqb (rq_swapped request) non_inner_swapped)
            then Some None else
            if negb (rq_dependency_directional request) || negb commutative
            then Some (Some (set_swapped non_inner_swapped request))
            else Some (Some request)
          else Some (Some request)
      end
  end.

Definition FEqualityEdge (edge_id : N) jr : bool :=
  default false (m_equality_edges jr).[edge_id].

(** A predicate of the pure-inner region that joins exactly these two sides. *)
Definition crossing (left right cover : BS) : bool :=
  ns_ContainsAll (ns_Union left right) cover && negb (ns_IsDisjoint left cover) &&
  negb (ns_IsDisjoint right cover).

Definition FHasEqualityPredicate (left right : BS) jr : option bool :=
  match mixed_joins jr with
  | Some _ =>
      request ← FBuildJoinRequest left right jr;
      match request with
      | None => Some false
      | Some request => Some (existsb (fun edge_id => FEqualityEdge edge_id jr) (rq_edge_ids request))
      end
  | None =>
      covers ← mapM (fun predicate => (m_predicate_covers jr) !! predicate)
                 (seq 0 (length (m_conjuncts jr)));
      Some (existsb (fun '(predicate, cover) => crossing left right cover && FEqualityEdge predicate jr)
              (zip (N.of_nat <$> seq 0 (length covers)) covers))
  end.

(** [PexprPredicate] of a pair: the conjuncts that cross it, and, on request,
    those that join nothing. *)
Definition pair_conjuncts (left right : BS) (include_residual : bool) jr
    : option (list CExpression) :=
  covers ← mapM (fun predicate => (m_predicate_covers jr) !! predicate)
             (seq 0 (length (m_conjuncts jr)));
  Some (fst <$> filter (fun '(_, cover) => crossing left right cover ||
                          (include_residual && (ns_Size cover <? 2)) = true)
                  (zip (m_conjuncts jr) covers)).

Definition PexprPredicate (left right : BS) (include_residual : bool) jr : option CExpression :=
  predicates ← pair_conjuncts left right include_residual jr;
  Some (PexprConjunction predicates).

(** [PexprPredicate] of a request: the predicates of its edges. *)
Definition PexprRequestPredicate (request : SJoinRequest) jr : option CExpression :=
  spec ← m_spec jr;
  predicates ← mapM (fun edge_id => m_predicate <$> (m_sedges spec).[edge_id]) (rq_edge_ids request);
  Some (PexprConjunction predicates).

Definition PexprAllPredicates jr : CExpression := PexprConjunction (m_conjuncts jr).
End region.

(** ** The components are the classes of the covers and the skeleton *)

Section components.
Context {BS : Type} {HB : NodeSet BS}.
Implicit Types (parent : list N) (E : N -> N -> Prop) (nodes cover : BS).

Definition nodes_within (n : N) (X : gset N) : Prop := forall v, v ∈ X -> v < n.

Lemma union_set_classes parent E nodes :
  uf_wf parent -> classes parent E -> to_gset nodes <> ∅ ->
  nodes_within (nodes_of parent) (to_gset nodes) ->
  exists parent', union_set nodes parent = Some parent' /\ uf_wf parent' /\
    nodes_of parent' = nodes_of parent /\
    classes parent' (fun u v => E u v \/ (u ∈ to_gset nodes /\ v ∈ to_gset nodes)).
Proof.
  intros Hwf Hc Hne Hr. unfold union_set.
  assert (Hb : forall v, v ∈ to_gset nodes <-> v ∈ ns_bits nodes) by (intros; by rewrite bits_law).
  destruct (ns_bits nodes) as [|first others] eqn:Hbits.
  { apply set_choose_L in Hne as [v Hv%Hb]. by apply elem_of_nil in Hv. }
  destruct (union_rest_classes parent E first others Hwf Hc) as (p' & -> & ? & ? & Hc').
  { apply Hr, Hb. left. }
  { intros o Ho. apply Hr, Hb. by right. }
  exists p'. split_and!; [done..|]. eapply classes_ext; [|exact Hc'].
  apply star_clique. intros v. by rewrite Hb, elem_of_cons.
Qed.

(** Two nodes in one of the sets. *)
Definition together (sets : list (gset N)) (u v : N) : Prop :=
  exists X, X ∈ sets /\ u ∈ X /\ v ∈ X.

Lemma together_cons X sets u v :
  together (X :: sets) u v <-> (u ∈ X /\ v ∈ X) \/ together sets u v.
Proof. unfold together. setoid_rewrite elem_of_cons. naive_solver. Qed.

Lemma together_nil u v : ~ together [] u v.
Proof. by intros (X & ?%elem_of_nil & _). Qed.

(** Read off one more set of the relation, under the symmetric closure. *)
Ltac classes_step :=
  let u := fresh in let v := fresh in
  intros u v; unfold sc; rewrite ?fmap_cons, ?fmap_nil, ?together_cons;
  pose proof (together_nil u v); pose proof (together_nil v u); tauto.

Lemma union_covers_classes parent E (covers : list BS) :
  uf_wf parent -> classes parent E ->
  Forall (fun cover => nodes_within (nodes_of parent) (to_gset cover)) covers ->
  exists parent', union_covers covers parent = Some parent' /\ uf_wf parent' /\
    nodes_of parent' = nodes_of parent /\
    classes parent' (fun u v => E u v \/ together (to_gset <$> covers) u v).
Proof.
  revert parent E. induction covers as [|cover covers IH]; intros parent E Hwf Hc Hr; cbn [union_covers].
  { exists parent. split_and!; [done..|]. eapply classes_ext; [|exact Hc]. intros x y.
    split; apply rtc_subrel; classes_step. }
  apply Forall_cons in Hr as [Hr Hrs]. rewrite Size_law. case_if; breflect.
  - destruct (IH parent E Hwf Hc Hrs) as (p' & -> & ? & ? & Hc'). exists p'. split_and!; [done..|].
    eapply classes_ext; [|exact Hc']. intros x y. split.
    + apply rtc_subrel; classes_step.
    + intros Hxy. induction Hxy as [x|x z y Hxz _ IHxy]; [apply rtc_refl|].
      assert (Hsmall : forall u v, u ∈ to_gset cover -> v ∈ to_gset cover -> u = v).
      { intros u v Hu Hv. destruct (decide (u = v)) as [|Hne]; [done|]. exfalso.
        assert ({[u]} ∪ {[v]} ⊆ to_gset cover) as Hs%subseteq_size by set_solver.
        rewrite size_union, !size_singleton in Hs by set_solver. lia. }
      destruct Hxz as [[?|(X & [->|HX]%elem_of_cons & Hu & Hv)]|[?|(X & [->|HX]%elem_of_cons & Hu & Hv)]].
      * apply (rtc_l _ _ z); [left; by left|done].
      * by rewrite (Hsmall x z Hu Hv).
      * apply (rtc_l _ _ z); [left; right; by exists X|done].
      * apply (rtc_l _ _ z); [right; by left|done].
      * by rewrite (Hsmall x z Hv Hu).
      * apply (rtc_l _ _ z); [right; right; by exists X|done].
  - assert (Hne : to_gset cover <> ∅) by (intros He; rewrite He, size_empty in *; lia).
    destruct (union_set_classes parent E cover Hwf Hc Hne Hr) as (p1 & -> & Hwf1 & Hn1 & Hc1).
    cbn [mbind option_bind]. destruct (IH p1 _ Hwf1 Hc1) as (p' & -> & ? & Hn' & Hc').
    { by rewrite Hn1. }
    exists p'. split_and!; [done..|congruence|]. eapply classes_ext; [|exact Hc'].
    intros x y. split; apply rtc_subrel; classes_step.
Qed.

Lemma union_skeleton_classes parent E (edges : list (BS * BS)) :
  uf_wf parent -> classes parent E ->
  Forall (fun e => to_gset e.1 <> ∅ /\ nodes_within (nodes_of parent) (to_gset e.1 ∪ to_gset e.2)) edges ->
  exists parent', union_skeleton edges parent = Some parent' /\ uf_wf parent' /\
    nodes_of parent' = nodes_of parent /\
    classes parent' (fun u v => E u v \/
      together ((fun e => to_gset e.1 ∪ to_gset e.2) <$> edges) u v).
Proof.
  revert parent E. induction edges as [|e edges IH]; intros parent E Hwf Hc Hr; cbn [union_skeleton].
  { exists parent. split_and!; [done..|]. eapply classes_ext; [|exact Hc]. intros x y.
    split; apply rtc_subrel; classes_step. }
  apply Forall_cons in Hr as [[Hne Hr] Hrs].
  destruct (union_set_classes parent E (ns_Union e.1 e.2) Hwf Hc) as (p1 & -> & Hwf1 & Hn1 & Hc1).
  { rewrite Union_law. by apply union_nonempty_l. }
  { by rewrite Union_law. }
  rewrite Union_law in Hc1. cbn [mbind option_bind].
  destruct (IH p1 _ Hwf1 Hc1) as (p' & -> & ? & Hn' & Hc').
  { by rewrite Hn1. }
  exists p'. split_and!; [done..|congruence|]. eapply classes_ext; [|exact Hc'].
  intros x y. split; apply rtc_subrel; classes_step.
Qed.

(** What the loop over the nodes knows after the nodes [seen]. *)
Record grouped (parent : list N) (seen : gset N) (by_root : list (option BS)) (components : list N)
    : Prop := {
  go_length : nodes_of parent = N.of_nat (length by_root);
  go_nodup : NoDup components;
  go_entry : forall r S, by_root.[r] = Some (Some S) ->
    r ∈ components /\ forall x, x ∈ to_gset S <-> x ∈ seen /\ root parent x r;
  go_none : forall r, by_root.[r] = Some None ->
    (r ∉ components) /\ forall x, x ∈ seen -> ~ root parent x r;
  go_component : forall r, r ∈ components -> r < nodes_of parent /\ exists x, x ∈ seen /\ root parent x r
}.

Lemma grouped_keep parent parent' seen by_root components :
  nodes_of parent' = nodes_of parent -> (forall y s, root parent' y s <-> root parent y s) ->
  grouped parent seen by_root components -> grouped parent' seen by_root components.
Proof.
  intros Hn Hk [Hl Hnd He Hnone Hc]. split; [congruence|done|..].
  - intros r S HS. setoid_rewrite Hk. by apply He.
  - intros r HS. setoid_rewrite Hk. by apply Hnone.
  - intros r HS. setoid_rewrite Hk. rewrite Hn. by apply Hc.
Qed.

(** One round: [node] joins the component of its root, which is created when
    it is the first of it. *)
Lemma grouped_step parent seen by_root components node r entry :
  grouped parent seen by_root components -> root parent node r -> by_root.[r] = Some entry ->
  let component := default ns_empty entry in
  let components' := match entry with None => components ++ [r] | Some _ => components end in
  grouped parent ({[node]} ∪ seen)
    (<[N.to_nat r := Some (ns_ExchangeSet component node).1]> by_root) components'.
Proof.
  intros [Hl Hnd He Hnone Hc] Hr Hentry component components'.
  assert (Hcs : forall s, s ∈ components' <-> s ∈ components \/ s = r).
  { intros s. unfold components'. destruct entry as [S|].
    - destruct (He r S Hentry) as [? _]. split; [by left|]. by intros [?| ->].
    - rewrite elem_of_app, list_elem_of_singleton. done. }
  assert (Hset : forall x, x ∈ to_gset component <-> x ∈ seen /\ root parent x r).
  { intros x. unfold component. destruct entry as [S|]; simpl; [by apply He|]. ns_simpl.
    split; [by intros ?%not_elem_of_empty|]. intros [Hx Hxr]. by destruct (Hnone r Hentry) as [_ []%(fun f => f x Hx)]. }
  split.
  - by rewrite length_insert.
  - unfold components'. destruct entry as [S|]; [done|]. apply NoDup_app. split_and!; [done| |apply NoDup_singleton].
    intros s Hs ->%list_elem_of_singleton. by destruct (Hnone r Hentry).
  - intros s S HS. destruct (decide (s = r)) as [->|Hne].
    + rewrite list_lookup_insert_eq in HS by (by eapply lookup_lt_Some). injection HS as <-.
      split; [apply Hcs; by right|]. intros x. ns_simpl. rewrite !elem_of_union, elem_of_singleton, Hset.
      split; [intros [->|[? ?]]; split; auto|intros [[->|?] ?]; auto].
    + rewrite list_lookup_insert_ne in HS by lia. destruct (He s S HS) as [? Hx].
      split; [apply Hcs; by left|]. intros x. rewrite Hx, elem_of_union, elem_of_singleton.
      split; [intros [? ?]; split; auto|]. intros [[->|?] Hs]; [|done].
      by rewrite (root_functional _ _ _ _ Hr Hs) in Hne.
  - intros s HS. destruct (decide (s = r)) as [->|Hne].
    + by rewrite list_lookup_insert_eq in HS by (by eapply lookup_lt_Some).
    + rewrite list_lookup_insert_ne in HS by lia. destruct (Hnone s HS) as [? Hx]. rewrite Hcs.
      split; [by intros [?|?]|]. intros x [->%elem_of_singleton|?]%elem_of_union; [|by apply Hx].
      intros Hs. by rewrite (root_functional _ _ _ _ Hr Hs) in Hne.
  - intros s [Hs| ->]%Hcs.
    + destruct (Hc s Hs) as (? & x & ? & ?). split; [done|]. exists x. set_solver.
    + split; [by eapply root_lt, root_root|]. exists node. set_solver.
Qed.

Lemma components_loop_spec (todo : list N) parent seen by_root components :
  uf_wf parent -> grouped parent seen by_root components ->
  (forall x, x ∈ todo -> x < nodes_of parent) ->
  exists by_root' components', components_loop todo parent by_root components = Some (by_root', components') /\
    grouped parent (list_to_set todo ∪ seen) by_root' components'.
Proof.
  revert parent seen by_root components.
  induction todo as [|node todo IH]; intros parent seen by_root components Hwf Hg Hn; cbn [components_loop].
  { exists by_root, components. split; [done|]. by replace (list_to_set [] ∪ seen) with seen by set_solver. }
  destruct Hwf as [rank Hrank].
  destruct (find_root_total rank parent node Hrank) as (r & p1 & -> & Hr & Hr1 & Hn1 & Hk); [apply Hn; left|].
  cbn [mbind option_bind].
  apply (grouped_keep parent p1) in Hg; [|done..].
  assert (Hr' : root p1 node r) by by apply Hk.
  destruct (lookup_lt_is_Some_2 by_root (N.to_nat r)) as [entry Hentry].
  { pose proof (go_length _ _ _ _ Hg). pose proof (root_lt _ _ _ (root_root _ _ _ Hr')). lia. }
  rewrite Hentry. cbn [mbind option_bind].
  pose proof (grouped_step _ _ _ _ _ _ _ Hg Hr' Hentry) as Hg'.
  destruct (IH p1 _ _ _ (ex_intro _ rank Hr1) Hg') as (by_root' & components' & He & Hfin).
  { intros x Hx. rewrite Hn1. apply Hn. by right. }
  exists by_root', components'. split.
  - by destruct entry.
  - apply (grouped_keep p1 parent) in Hfin; [|done|by intros; rewrite Hk].
    replace (list_to_set (node :: todo) ∪ seen) with (list_to_set todo ∪ ({[node]} ∪ seen)) by set_solver.
    done.
Qed.

(** The list of sets is the partition of the nodes into the classes of [E]. *)
Record partition (n : N) E (cs : list BS) : Prop := {
  pt_class : forall S, S ∈ cs -> to_gset S <> ∅ /\
    forall x, x ∈ to_gset S -> x < n /\ forall y, y ∈ to_gset S <-> y < n /\ rtsc E x y;
  pt_cover : forall x, x < n -> exists S, S ∈ cs /\ x ∈ to_gset S;
  pt_disjoint : forall i j S T, cs !! i = Some S -> cs !! j = Some T -> i <> j ->
    to_gset S ## to_gset T
}.

Lemma grouped_entry parent seen by_root components r :
  grouped parent seen by_root components -> r ∈ components ->
  exists S, component_of by_root r = Some S /\ forall x, x ∈ to_gset S <-> x ∈ seen /\ root parent x r.
Proof.
  intros Hg Hr. destruct (go_component _ _ _ _ Hg r Hr) as (Hrn & _).
  destruct (lookup_lt_is_Some_2 by_root (N.to_nat r)) as [[S|] HS].
  { rewrite (go_length _ _ _ _ Hg) in Hrn. lia. }
  - exists S. unfold component_of. rewrite HS. split; [done|]. by apply (go_entry _ _ _ _ Hg r S).
  - by destruct (go_none _ _ _ _ Hg r HS).
Qed.

Lemma grouped_partition parent E n seen by_root components :
  uf_wf parent -> classes parent E -> nodes_of parent = n -> (forall x, x ∈ seen <-> x < n) ->
  grouped parent seen by_root components ->
  exists cs, mapM (component_of by_root) components = Some cs /\ partition n E cs.
Proof.
  intros [rank Hrank] Hcl Hn Hseen Hg.
  destruct (mapM_is_Some_2 (component_of by_root) components) as [cs Hcs].
  { apply Forall_forall. intros r Hr. destruct (grouped_entry _ _ _ _ r Hg Hr) as (S & HS & _). exists S. exact HS. }
  exists cs. split; [done|]. apply mapM_Some_1 in Hcs.
  assert (Hentry : forall i S, cs !! i = Some S -> exists r, components !! i = Some r /\
    r ∈ components /\ forall x, x ∈ to_gset S <-> x < n /\ root parent x r).
  { intros i S HS. destruct (Forall2_lookup_r _ _ _ _ _ Hcs HS) as (r & Hr & Heq). exists r.
    pose proof (list_elem_of_lookup_2 _ _ _ Hr) as Hin. split_and!; [done..|].
    destruct (grouped_entry _ _ _ _ r Hg Hin) as (S' & HS' & Hx). setoid_rewrite <-Hseen.
    by replace S with S' by congruence. }
  split.
  - intros S [i HS]%list_elem_of_lookup. destruct (Hentry i S HS) as (r & _ & Hr & Hx). split.
    + destruct (go_component _ _ _ _ Hg r Hr) as (_ & x & Hxs%Hseen & Hxr). intros He.
      assert (x ∈ to_gset S) as Hin by by apply Hx. rewrite He in Hin. by apply not_elem_of_empty in Hin.
    + intros x [Hxn Hxr]%Hx. split; [done|]. intros y. rewrite Hx. split; intros [Hy Hyr]; (split; [done|]).
      * apply Hcl; [by rewrite Hn..|]. by exists r.
      * apply Hcl in Hyr as (s & Hxs & Hys); [|by rewrite Hn..].
        by rewrite (root_functional _ _ _ _ Hxr Hxs).
  - intros x Hx. destruct (root_exists rank parent x Hrank) as [r Hr]; [by rewrite Hn|].
    assert (Hin : r ∈ components).
    { destruct (lookup_lt_is_Some_2 by_root (N.to_nat r)) as [[S|] HS].
      { pose proof (root_lt _ _ _ (root_root _ _ _ Hr)). pose proof (go_length _ _ _ _ Hg). lia. }
      - by apply (go_entry _ _ _ _ Hg r S).
      - destruct (go_none _ _ _ _ Hg r HS) as [_ Hno]. by destruct (Hno x (proj2 (Hseen x) Hx)). }
    apply list_elem_of_lookup in Hin as [i Hi].
    destruct (Forall2_lookup_l _ _ _ _ _ Hcs Hi) as (S & HS & _). exists S.
    split; [by eapply list_elem_of_lookup_2|]. destruct (Hentry i S HS) as (r' & Hi' & _ & Hx').
    apply Hx'. split; [done|]. congruence.
  - intros i j S T HS HT Hij x HxS HxT.
    destruct (Hentry i S HS) as (r & Hr & _ & Hx1). destruct (Hentry j T HT) as (s & Hs & _ & Hx2).
    apply Hx1 in HxS as [_ HxS]. apply Hx2 in HxT as [_ HxT]. apply Hij.
    rewrite (root_functional _ _ _ _ HxS HxT) in Hr.
    eapply NoDup_lookup; [apply (go_nodup _ _ _ _ Hg)|done|done].
Qed.

Lemma grouped_start parent n :
  nodes_of parent = N.of_nat n -> grouped parent ∅ (replicate n None) [].
Proof.
  intros Hn. split.
  - by rewrite length_replicate.
  - constructor.
  - intros r S [? _]%lookup_replicate_1. done.
  - intros r _. split; [apply not_elem_of_nil|]. by intros x ?%not_elem_of_empty.
  - by intros r ?%elem_of_nil.
Qed.

(** The relation whose classes the components are. *)
Definition region_sets (jr : CDPHyperJoinRegion BS) : list (gset N) :=
  (to_gset <$> m_predicate_covers jr) ++
  ((fun e => to_gset e.1 ∪ to_gset e.2) <$> m_skeleton_edges jr).

Lemma predicate_components_spec (jr : CDPHyperJoinRegion BS) n :
  length (m_components jr) = n ->
  Forall (fun cover => nodes_within (N.of_nat n) (to_gset cover)) (m_predicate_covers jr) ->
  Forall (fun e => to_gset e.1 <> ∅ /\ nodes_within (N.of_nat n) (to_gset e.1 ∪ to_gset e.2))
    (m_skeleton_edges jr) ->
  exists cs, predicate_components jr = Some cs /\
    partition (N.of_nat n) (together (region_sets jr)) cs.
Proof.
  intros Hn Hcov Hsk. unfold predicate_components. rewrite Hn. fold (identity_parent n).
  destruct (union_covers_classes _ _ (m_predicate_covers jr) (identity_wf n) (identity_classes n))
    as (p1 & -> & Hwf1 & Hn1 & Hc1).
  { by rewrite identity_nodes. }
  rewrite identity_nodes in Hn1. cbn [mbind option_bind].
  destruct (union_skeleton_classes _ _ (m_skeleton_edges jr) Hwf1 Hc1) as (p2 & -> & Hwf2 & Hn2 & Hc2).
  { by rewrite Hn1. }
  cbn [mbind option_bind].
  pose proof (grouped_start p2 n ltac:(congruence)) as Hg.
  destruct (components_loop_spec (identity_parent n) p2 ∅ _ _ Hwf2 Hg) as (by_root & comps & He & Hfin).
  { intros x (k & -> & Hk%elem_of_seq)%list_elem_of_fmap. rewrite Hn2, Hn1. lia. }
  rewrite He. cbn [mbind option_bind].
  eapply grouped_partition; [exact Hwf2| |congruence| |exact Hfin].
  - eapply classes_ext; [|exact Hc2]. intros x y. unfold region_sets.
    assert (Happ : forall u v, together ((to_gset <$> m_predicate_covers jr) ++
        ((fun e => to_gset e.1 ∪ to_gset e.2) <$> m_skeleton_edges jr)) u v <->
      together (to_gset <$> m_predicate_covers jr) u v \/
      together ((fun e => to_gset e.1 ∪ to_gset e.2) <$> m_skeleton_edges jr) u v).
    { intros u v. unfold together. setoid_rewrite elem_of_app. naive_solver. }
    split; apply rtc_subrel; intros u v; unfold sc; rewrite !Happ; tauto.
  - intros x. rewrite elem_of_union, elem_of_list_to_set. unfold identity_parent.
    rewrite list_elem_of_fmap. setoid_rewrite elem_of_seq. split.
    + intros [(k & -> & ?)|?%not_elem_of_empty]; [lia|done].
    + intros Hx. left. exists (N.to_nat x). lia.
Qed.
End components.

(** ** Adding edges within the budget *)

Section adding.
Context {BS CS : Type} {HB : NodeSet BS} {HC : NodeSet CS} {HD : DerivedProps CS} {HP : PredicateOps}.
Implicit Types (jr : CDPHyperJoinRegion BS) (want : list (gset N * gset N * N)).

(** Graph entries as sets, and the two entries of an undirected edge. *)
Definition entry_view (e : SEdge BS) : gset N * gset N * N :=
  (to_gset (m_left e), to_gset (m_right e), m_edge_id e).
Definition entries (g : CDPHyperGraph BS) : list (gset N * gset N * N) := entry_view <$> m_edges g.
Definition both_ways (e : gset N * gset N * N) : list (gset N * gset N * N) :=
  let '(l, r, id) := e in [(l, r, id); (r, l, id)].
Definition undirected want : list (gset N * gset N * N) := concat (both_ways <$> want).

Definition set_sides_ok (n : N) (e : gset N * gset N * N) : Prop :=
  e.1.1 <> ∅ /\ e.1.2 <> ∅ /\ e.1.1 ## e.1.2 /\ nodes_within n (e.1.1 ∪ e.1.2).

(** What the construction never changes. *)
Definition static jr :=
  (m_components jr, m_conjuncts jr, m_skeleton_edges jr, m_spec jr, m_edge_budget jr).
Definition covers jr := (m_predicate_covers jr, m_equality_edges jr).
Definition counts jr : N * N := (m_dependency_edges jr, m_cartesian_edges jr).
Definition extra_edges jr : N := m_dependency_edges jr + m_cartesian_edges jr.

Record region_inv (n : N) jr : Prop := {
  ri_wf : graph_wf (m_graph jr);
  ri_nodes : NodeCount (m_graph jr) = n;
  ri_count : N.of_nat (length (m_edges (m_graph jr))) = 2 * m_generated_edges jr;
  ri_budget : m_generated_edges jr <= m_edge_budget jr;
  ri_width : m_edge_budget jr < 2 ^ ULONG_BITS;
  ri_extra : extra_edges jr <= m_generated_edges jr
}.

(** A step that tries to add the edges [want]: as many of them as the budget
    leaves room for are added, in order, and the step succeeds exactly when all
    of them fit; a successful step leaves the covers [cv] and the counts [x] of
    extra edges. *)
Record adds (n : N) jr want cv (x : N * N) (res : bool * CDPHyperJoinRegion BS) : Prop := {
  ad_ok : res.1 = (m_generated_edges jr + N.of_nat (length want) <=? m_edge_budget jr);
  ad_inv : region_inv n res.2;
  ad_static : static res.2 = static jr;
  ad_entries : entries (m_graph res.2) = entries (m_graph jr) ++
    undirected (take (N.to_nat (m_edge_budget jr - m_generated_edges jr)) want);
  ad_exhausted : m_edge_budget_exhausted jr = false -> m_edge_budget_exhausted res.2 = negb res.1;
  ad_done : res.1 = true -> covers res.2 = cv /\ counts res.2 = x /\
    m_generated_edges res.2 = m_generated_edges jr + N.of_nat (length want)
}.

Lemma adds_nothing n jr :
  region_inv n jr -> adds n jr [] (covers jr) (counts jr) (true, jr).
Proof.
  intros Hi. split; simpl; try done.
  - rewrite N.add_0_r. symmetry. apply N.leb_le, Hi.
  - by rewrite take_nil, app_nil_r.
  - by rewrite N.add_0_r.
Qed.

Lemma undirected_app w1 w2 : undirected (w1 ++ w2) = undirected w1 ++ undirected w2.
Proof. unfold undirected. by rewrite fmap_app, concat_app. Qed.

Lemma static_budget jr jr' : static jr' = static jr -> m_edge_budget jr' = m_edge_budget jr.
Proof. by intros [=]. Qed.

(** Steps in sequence add their edges in sequence. *)
Lemma adds_seq n jr w1 cv1 x1 w2 cv2 x2 jr1 res :
  m_edge_budget_exhausted jr = false ->
  adds n jr w1 cv1 x1 (true, jr1) -> adds n jr1 w2 cv2 x2 res -> adds n jr (w1 ++ w2) cv2 x2 res.
Proof.
  intros Hex [Hok Hi Hst Hent Hexh Hdone] [Hok2 Hi2 Hst2 Hent2 Hexh2 Hdone2]. simpl in *.
  destruct (Hdone eq_refl) as (Hcv & Hx & Hg). pose proof (static_budget _ _ Hst) as Hb.
  symmetry in Hok. breflect. rewrite Hb, Hg in *. split; [|done|congruence| | |].
  - rewrite Hok2, length_app. f_equal; lia.
  - rewrite Hent2, Hent, <-(assoc_L (++)), <-undirected_app. do 2 f_equal.
    rewrite take_app. rewrite (take_ge w1) at 1 by lia. rewrite (take_ge w1) by lia. f_equal. f_equal. lia.
  - intros _. by apply Hexh2, Hexh.
  - intros Hr. destruct (Hdone2 Hr) as (? & ? & Hg2). split_and!; [done..|].
    rewrite Hg2, length_app. lia.
Qed.

Lemma adds_stop n jr w1 cv1 x1 w2 cv2 x2 jr1 :
  adds n jr w1 cv1 x1 (false, jr1) -> adds n jr (w1 ++ w2) cv2 x2 (false, jr1).
Proof.
  intros [Hok Hi Hst Hent Hexh _]. simpl in *. symmetry in Hok. breflect. split; simpl; try done.
  - symmetry. apply N.leb_gt. rewrite length_app. lia.
  - rewrite Hent, take_app. replace (N.to_nat (m_edge_budget jr - m_generated_edges jr) - length w1)%nat
      with 0%nat by lia. by rewrite take_0, app_nil_r.
Qed.

(** What the next step may assume of the state it starts in. *)
Record ready (n : N) jr cv (x : N * N) jr1 : Prop := {
  rd_inv : region_inv n jr1;
  rd_static : static jr1 = static jr;
  rd_covers : covers jr1 = cv;
  rd_counts : counts jr1 = x;
  rd_live : m_edge_budget_exhausted jr1 = false
}.

Lemma adds_ready n jr w cv x jr1 :
  m_edge_budget_exhausted jr = false -> adds n jr w cv x (true, jr1) -> ready n jr cv x jr1.
Proof.
  intros Hex [_ Hi Hst _ Hexh Hdone]. destruct (Hdone eq_refl) as (? & ? & _). split; try done.
  by apply Hexh.
Qed.

Lemma and_step_adds n jr w1 cv1 x1 w2 cv2 x2 m k :
  m_edge_budget_exhausted jr = false ->
  (exists res, m = Some res /\ adds n jr w1 cv1 x1 res) ->
  (forall jr1, ready n jr cv1 x1 jr1 -> exists res, k jr1 = Some res /\ adds n jr1 w2 cv2 x2 res) ->
  exists res, and_step m k = Some res /\ adds n jr (w1 ++ w2) cv2 x2 res.
Proof.
  intros Hex ([ok jr1] & -> & Ha) Hk. unfold and_step. cbn [mbind option_bind]. destruct ok.
  - destruct (Hk jr1) as (res & -> & Hr); [by eapply adds_ready|]. exists res. split; [done|].
    by eapply adds_seq.
  - eexists. split; [reflexivity|]. by eapply adds_stop.
Qed.

Lemma set_sides_sides n (l r : BS) id :
  set_sides_ok n (to_gset l, to_gset r, id) -> sides_ok n l r.
Proof. done. Qed.

Lemma add_graph_edge_spec n jr (l r : BS) id :
  region_inv n jr -> m_generated_edges jr < m_edge_budget jr ->
  set_sides_ok n (to_gset l, to_gset r, id) ->
  exists jr', add_graph_edge l r id jr = Some jr' /\ region_inv n jr' /\ static jr' = static jr /\
    covers jr' = covers jr /\ counts jr' = counts jr /\
    m_generated_edges jr' = m_generated_edges jr + 1 /\
    m_edge_budget_exhausted jr' = m_edge_budget_exhausted jr /\
    entries (m_graph jr') = entries (m_graph jr) ++ undirected [(to_gset l, to_gset r, id)].
Proof.
  intros Hi Hlt Hs. unfold add_graph_edge. pose proof (ri_nodes _ _ Hi) as Hn.
  destruct (AddEdge_ok (m_graph jr) l r id (ri_wf _ _ Hi)) as (g & -> & Hwf & Hn' & He).
  { rewrite Hn. by apply (set_sides_sides n l r id). }
  cbn [mbind option_bind]. eexists. split; [reflexivity|].
  assert (Hw : m_generated_edges jr +[ULONG_BITS] 1 = m_generated_edges jr + 1).
  { apply wrap_small. pose proof (ri_width _ _ Hi). lia. }
  split_and!; try done.
  - split; cbn -[wrap]; rewrite ?Hw; [done|congruence| |lia|apply Hi|].
    + rewrite He, length_app. simpl. pose proof (ri_count _ _ Hi). lia.
    + pose proof (ri_extra _ _ Hi). unfold extra_edges in *. cbn -[wrap]. lia.
  - unfold entries. cbn. rewrite He, fmap_app. done.
Qed.

Lemma add_budgeted_edge_adds n jr (l r : BS) id :
  region_inv n jr -> set_sides_ok n (to_gset l, to_gset r, id) ->
  exists res, add_budgeted_edge l r id jr = Some res /\
    adds n jr [(to_gset l, to_gset r, id)] (covers jr) (counts jr) res.
Proof.
  intros Hi Hs. unfold add_budgeted_edge. case_if; breflect.
  - eexists. split; [reflexivity|]. split; simpl; try done.
    + symmetry. apply N.leb_gt. lia.
    + destruct Hi. by split.
    + replace (N.to_nat (m_edge_budget jr - m_generated_edges jr)) with 0%nat by lia.
      by rewrite take_0, app_nil_r.
  - destruct (add_graph_edge_spec n jr l r id Hi) as (jr' & -> & Hi' & Hst & Hcv & Hx & Hg & Hex & He); [done..|].
    cbn [mbind option_bind]. eexists. split; [reflexivity|]. split; simpl; try done.
    + symmetry. apply N.leb_le. lia.
    + rewrite take_ge; [done|]. simpl. lia.
    + by rewrite Hex.
Qed.

(** Counting the edge just added as an extra one: a dependency edge, or not. *)
Definition count_as (dependency : bool) : CDPHyperJoinRegion BS -> CDPHyperJoinRegion BS :=
  if dependency then count_dependency else count_cartesian.
Definition bump (dependency : bool) (k : N) (x : N * N) : N * N :=
  if dependency then (x.1 + k, x.2) else (x.1, x.2 + k).

Lemma count_as_spec dependency n jr :
  region_inv n jr -> extra_edges jr < m_generated_edges jr ->
  region_inv n (count_as dependency jr) /\ counts (count_as dependency jr) = bump dependency 1 (counts jr).
Proof.
  intros Hi Hlt. pose proof (ri_width _ _ Hi). pose proof (ri_budget _ _ Hi).
  assert (Hx : counts (count_as dependency jr) = bump dependency 1 (counts jr)).
  { unfold extra_edges, counts in *. destruct dependency; cbn -[wrap]; by rewrite wrap_small by lia. }
  split; [|done]. destruct Hi as [? ? ? ? ? Hext]. split; [by destruct dependency..|].
  unfold extra_edges, counts in *.
  destruct dependency; apply pair_equal_spec in Hx as [Hx1 Hx2]; cbn -[wrap] in *; lia.
Qed.

Lemma count_as_adds dependency n jr w cv x res :
  adds n (count_as dependency jr) w cv x res -> adds n jr w cv x res.
Proof. destruct dependency; by intros [? ? ? ? ? ?]. Qed.

(** Extra edges are numbered on from the conjuncts. *)
Definition number (base k : N) (pairs : list (gset N * gset N)) : list (gset N * gset N * N) :=
  imap (fun i e => (e, wrap ULONG_BITS (base + (k + N.of_nat i)))) pairs.

Lemma number_cons base k e pairs :
  number base k (e :: pairs) = (e, wrap ULONG_BITS (base + k)) :: number base (k + 1) pairs.
Proof.
  unfold number. rewrite imap_cons. rewrite N.add_0_r. f_equal. apply imap_ext.
  intros i x _. simpl. do 2 f_equal. lia.
Qed.

Lemma number_app base k p1 p2 :
  number base k (p1 ++ p2) = number base k p1 ++ number base (k + N.of_nat (length p1)) p2.
Proof.
  unfold number. rewrite imap_app. f_equal. apply imap_ext. intros i x _. simpl. do 2 f_equal. lia.
Qed.

Lemma length_number base k pairs : length (number base k pairs) = length pairs.
Proof. apply length_imap. Qed.

Lemma ready_refl n jr :
  region_inv n jr -> m_edge_budget_exhausted jr = false -> ready n jr (covers jr) (counts jr) jr.
Proof. by split. Qed.

(** One extra edge, and the rest of its loop. *)
Lemma extra_edge_adds dependency n jr (l r : BS) id pairs cv x loop :
  region_inv n jr -> m_edge_budget_exhausted jr = false ->
  id = wrap ULONG_BITS (N.of_nat (length (m_conjuncts jr)) + extra_edges jr) ->
  set_sides_ok n (to_gset l, to_gset r, id) ->
  (forall jr1, ready n jr (covers jr) (bump dependency 1 (counts jr)) jr1 ->
     exists res, loop jr1 = Some res /\
       adds n jr1 (number (N.of_nat (length (m_conjuncts jr))) (extra_edges jr + 1) pairs) cv x res) ->
  exists res, and_step (add_budgeted_edge l r id jr) (fun jr => loop (count_as dependency jr)) = Some res /\
    adds n jr (number (N.of_nat (length (m_conjuncts jr))) (extra_edges jr) ((to_gset l, to_gset r) :: pairs))
      cv x res.
Proof.
  intros Hi Hex Hid Hs Hloop. rewrite number_cons, <-Hid. change (?a :: ?b) with ([a] ++ b).
  destruct (add_budgeted_edge_adds n jr l r id Hi Hs) as ([ok jr1] & Hadd & Ha).
  rewrite Hadd. unfold and_step. cbn [mbind option_bind]. destruct ok.
  - pose proof (adds_ready _ _ _ _ _ _ Hex Ha) as [Hi1 Hst Hcv Hct Hl].
    assert (Hlt : extra_edges jr1 < m_generated_edges jr1).
    { destruct (ad_done _ _ _ _ _ _ Ha eq_refl) as (_ & _ & Hg). pose proof (ri_extra _ _ Hi).
      apply pair_equal_spec in Hct as [H1 H2]. unfold extra_edges in *. simpl in Hg. lia. }
    destruct (count_as_spec dependency n jr1 Hi1 Hlt) as [Hi2 Hc2].
    destruct (Hloop (count_as dependency jr1)) as (res & -> & Hres).
    { split; [done|by destruct dependency|by destruct dependency|by rewrite Hc2, Hct|by destruct dependency]. }
    exists res. split; [done|]. eapply adds_seq; [done|exact Ha|]. by eapply count_as_adds.
  - eexists. split; [reflexivity|]. by eapply adds_stop.
Qed.

(** *** The partitions of a predicate *)

(** The ways to put each of the nodes on one of the two sides, the second not
    staying empty. *)
Fixpoint bipartitions (nodes : list N) (L R : gset N) : list (gset N * gset N) :=
  match nodes with
  | [] => if decide (R = ∅) then [] else [(L, R)]
  | node :: nodes => bipartitions nodes ({[node]} ∪ L) R ++ bipartitions nodes L ({[node]} ∪ R)
  end.

Definition with_id (id : N) (pairs : list (gset N * gset N)) : list (gset N * gset N * N) :=
  (fun e => (e, id)) <$> pairs.

Lemma partitions_adds n id nodes (l r : BS) jr :
  region_inv n jr -> m_edge_budget_exhausted jr = false -> NoDup nodes ->
  (forall v, v ∈ nodes -> v < n /\ (v ∉ to_gset l) /\ v ∉ to_gset r) ->
  to_gset l <> ∅ -> to_gset l ## to_gset r -> nodes_within n (to_gset l ∪ to_gset r) ->
  exists ok l' r' jr', AddPredicatePartitionsRecursive id nodes l r jr = Some (ok, l', r', jr') /\
    (ok = true -> to_gset l' = to_gset l /\ to_gset r' = to_gset r) /\
    adds n jr (with_id id (bipartitions nodes (to_gset l) (to_gset r))) (covers jr) (counts jr) (ok, jr').
Proof.
  revert l r jr. induction nodes as [|v nodes IH]; intros l r jr Hi Hex Hnd Hv Hl Hd Hw;
    cbn [AddPredicatePartitionsRecursive bipartitions].
  - rewrite Size_law. case_decide as Hr.
    + rewrite Hr, size_empty. cbn. exists true, l, r, jr. split_and!; [done..|]. by apply adds_nothing.
    + replace (N.of_nat (size (to_gset r)) =? 0) with false.
      2: { symmetry. apply N.eqb_neq. intros Hz. apply Hr, leibniz_equiv, size_empty_inv. lia. }
      destruct (add_budgeted_edge_adds n jr l r id Hi) as ([ok jr'] & -> & Ha); [by split_and!|].
      cbn [mbind option_bind]. by exists ok, l, r, jr'.
  - apply NoDup_cons in Hnd as [Hvn Hnd]. destruct (Hv v ltac:(left)) as (Hvlt & Hvl & Hvr).
    assert (Hv' : forall u, u ∈ nodes -> u < n /\ (u ∉ to_gset l) /\ (u ∉ to_gset r) /\ u <> v).
    { intros u Hu. destruct (Hv u ltac:(by right)) as (? & ? & ?). split_and!; [done..|]. by intros ->. }
    set (l1 := (ns_ExchangeSet l v).1).
    assert (Hl1 : to_gset l1 = {[v]} ∪ to_gset l) by apply ExchangeSet_law.
    destruct (IH l1 r jr Hi Hex Hnd) as (ok & l' & r' & jr' & -> & Hback & Ha).
    { intros u Hu. destruct (Hv' u Hu) as (? & ? & ? & ?). rewrite Hl1. set_solver. }
    { rewrite Hl1. set_solver. }
    { rewrite Hl1. set_solver. }
    { rewrite Hl1. intros u. rewrite !elem_of_union, elem_of_singleton.
      intros [[->|?]|?]; [done|apply Hw; set_solver..]. }
    rewrite Hl1 in Ha, Hback. cbn [mbind option_bind]. unfold with_id. rewrite fmap_app. destruct ok; cbn [negb].
    + destruct (Hback eq_refl) as [Hl' Hr'].
      set (l2 := (ns_ExchangeClear l' v).1). set (r2 := (ns_ExchangeSet r' v).1).
      assert (Hl2 : to_gset l2 = to_gset l).
      { unfold l2. rewrite ExchangeClear_law, Hl'. set_solver. }
      assert (Hr2 : to_gset r2 = {[v]} ∪ to_gset r) by (unfold r2; by rewrite ExchangeSet_law, Hr').
      pose proof (adds_ready _ _ _ _ _ _ Hex Ha) as [Hi1 Hst Hcv Hct Hlive].
      destruct (IH l2 r2 jr' Hi1 Hlive Hnd) as (ok2 & l3 & r3 & jr3 & -> & Hback2 & Ha2).
      { intros u Hu. destruct (Hv' u Hu) as (? & ? & ? & ?). rewrite Hl2, Hr2. set_solver. }
      { by rewrite Hl2. }
      { rewrite Hl2, Hr2. set_solver. }
      { rewrite Hl2, Hr2. intros u. rewrite !elem_of_union, elem_of_singleton.
        intros [?|[->|?]]; [apply Hw; set_solver|done|apply Hw; set_solver]. }
      rewrite Hl2, Hr2 in Ha2, Hback2. rewrite Hcv, Hct in Ha2. cbn [mbind option_bind].
      exists ok2, l3, (ns_ExchangeClear r3 v).1, jr3. split_and!; [done| |].
      * intros Hok. destruct (Hback2 Hok) as [-> Hr3]. split; [done|]. rewrite ExchangeClear_law, Hr3. set_solver.
      * eapply adds_seq; [done|exact Ha|exact Ha2].
    + exists false, l', r', jr'. split_and!; [done..|]. by eapply adds_stop.
Qed.

(** The edges of the predicate with this cover. *)
Definition cover_pairs (cover : BS) : list (gset N * gset N) :=
  match ns_bits cover with
  | [] => []
  | lowest :: nodes => bipartitions nodes {[lowest]} ∅
  end.

Lemma AddPredicatePartitions_adds n id (cover : BS) jr :
  region_inv n jr -> m_edge_budget_exhausted jr = false -> to_gset cover <> ∅ ->
  nodes_within n (to_gset cover) ->
  exists res, AddPredicatePartitions id cover jr = Some res /\
    adds n jr (with_id id (cover_pairs cover)) (covers jr) (counts jr) res.
Proof.
  intros Hi Hex Hne Hw. unfold AddPredicatePartitions, cover_pairs.
  pose proof (bits_NoDup cover) as Hnd. pose proof (fun v => bits_law cover v) as Hb.
  destruct (ns_bits cover) as [|lowest nodes].
  { apply set_choose_L in Hne as [v Hv%Hb]. by apply elem_of_nil in Hv. }
  apply NoDup_cons in Hnd as [Hln Hnd].
  assert (Hl1 : to_gset (ns_ExchangeSet (BS := BS) ns_empty lowest).1 = {[lowest]}).
  { rewrite ExchangeSet_law, empty_law. set_solver. }
  destruct (partitions_adds n id nodes (ns_ExchangeSet ns_empty lowest).1 ns_empty jr Hi Hex Hnd)
    as (ok & l' & r' & jr' & -> & _ & Ha); rewrite ?Hl1, ?empty_law in *.
  - intros v Hv. split_and!; [apply Hw, Hb; by right| |set_solver]. intros ->%elem_of_singleton. done.
  - set_solver.
  - set_solver.
  - intros v. rewrite union_empty_r_L, elem_of_singleton. intros ->. apply Hw, Hb. left.
  - cbn [mbind option_bind]. by exists (ok, jr').
Qed.

(** *** Loops over extra edges *)

(** A step that tries to add these pairs as extra edges of one kind. *)
Definition adds_extra (dependency : bool) (n : N) jr (pairs : list (gset N * gset N)) res : Prop :=
  adds n jr (number (N.of_nat (length (m_conjuncts jr))) (extra_edges jr) pairs) (covers jr)
    (bump dependency (N.of_nat (length pairs)) (counts jr)) res.

Lemma extra_nothing dependency n jr : region_inv n jr -> adds_extra dependency n jr [] (true, jr).
Proof.
  intros Hi. unfold adds_extra. replace (bump dependency _ (counts jr)) with (counts jr).
  - by apply adds_nothing.
  - destruct dependency; unfold bump, counts; cbn; by rewrite N.add_0_r.
Qed.

Lemma bump_bump dependency k1 k2 x : bump dependency k2 (bump dependency k1 x) = bump dependency (k1 + k2) x.
Proof. destruct dependency, x; unfold bump; cbn; f_equal; lia. Qed.

Lemma ready_conjuncts n jr cv x jr1 : ready n jr cv x jr1 -> m_conjuncts jr1 = m_conjuncts jr.
Proof. intros Hr. pose proof (rd_static _ _ _ _ _ Hr) as Hs. by injection Hs. Qed.

Lemma ready_extra dependency n jr cv k jr1 :
  ready n jr cv (bump dependency k (counts jr)) jr1 -> extra_edges jr1 = extra_edges jr + k.
Proof.
  intros Hr. pose proof (rd_counts _ _ _ _ _ Hr) as Hc. unfold counts, extra_edges in *.
  destruct dependency; injection Hc as -> ->; cbn; lia.
Qed.

Lemma and_step_extra dependency n jr p1 p2 m k :
  m_edge_budget_exhausted jr = false ->
  (exists res, m = Some res /\ adds_extra dependency n jr p1 res) ->
  (forall jr1, ready n jr (covers jr) (bump dependency (N.of_nat (length p1)) (counts jr)) jr1 ->
     exists res, k jr1 = Some res /\ adds_extra dependency n jr1 p2 res) ->
  exists res, and_step m k = Some res /\ adds_extra dependency n jr (p1 ++ p2) res.
Proof.
  intros Hex H1 H2. unfold adds_extra. rewrite number_app, length_app.
  eapply and_step_adds; [done|exact H1|]. intros jr1 Hr. destruct (H2 jr1 Hr) as (res & Hk & Ha).
  exists res. split; [done|]. unfold adds_extra in Ha.
  rewrite (ready_conjuncts _ _ _ _ _ Hr), (ready_extra _ _ _ _ _ _ Hr), (rd_covers _ _ _ _ _ Hr),
    (rd_counts _ _ _ _ _ Hr), bump_bump in Ha.
  by replace (N.of_nat (length p1 + length p2)) with (N.of_nat (length p1) + N.of_nat (length p2)) by lia.
Qed.

Lemma extra_edge_step dependency n jr (l r : BS) id pairs loop :
  region_inv n jr -> m_edge_budget_exhausted jr = false ->
  id = wrap ULONG_BITS (N.of_nat (length (m_conjuncts jr)) + extra_edges jr) ->
  set_sides_ok n (to_gset l, to_gset r, id) ->
  (forall jr1, ready n jr (covers jr) (bump dependency 1 (counts jr)) jr1 ->
     exists res, loop jr1 = Some res /\ adds_extra dependency n jr1 pairs res) ->
  exists res, and_step (add_budgeted_edge l r id jr) (fun jr => loop (count_as dependency jr)) = Some res /\
    adds_extra dependency n jr ((to_gset l, to_gset r) :: pairs) res.
Proof.
  intros Hi Hex Hid Hs Hloop. unfold adds_extra. cbn [length].
  eapply extra_edge_adds; [done..|]. intros jr1 Hr. destruct (Hloop jr1 Hr) as (res & Hk & Ha).
  exists res. split; [done|]. unfold adds_extra in Ha.
  rewrite (ready_conjuncts _ _ _ _ _ Hr), (ready_extra _ _ _ _ _ _ Hr), (rd_covers _ _ _ _ _ Hr),
    (rd_counts _ _ _ _ _ Hr), bump_bump in Ha.
  by replace (N.of_nat (S (length pairs))) with (1 + N.of_nat (length pairs)) by lia.
Qed.

Lemma next_edge_id_extra jr :
  next_edge_id jr = wrap ULONG_BITS (N.of_nat (length (m_conjuncts jr)) + extra_edges jr).
Proof. unfold next_edge_id, extra_edges. f_equal. lia. Qed.

Fixpoint dependency_pairs (deps : list BS) (node : N) : list (gset N * gset N) :=
  match deps with
  | [] => []
  | providers :: deps =>
      if decide (to_gset providers = ∅) then dependency_pairs deps (node + 1)
      else (to_gset providers, {[node]}) :: dependency_pairs deps (node + 1)
  end.

(** Dependencies [deps] of the nodes from [node] on: other nodes. *)
Definition deps_ok (n : N) (deps : list BS) (node : N) : Prop :=
  forall i D, deps !! i = Some D ->
    node + N.of_nat i < n /\ (node + N.of_nat i ∉ to_gset D) /\ nodes_within n (to_gset D).

Lemma dependency_edges_adds n deps node jr :
  region_inv n jr -> m_edge_budget_exhausted jr = false -> m_cartesian_edges jr = 0 ->
  deps_ok n deps node ->
  exists res, dependency_edges_loop deps node jr = Some res /\
    adds_extra true n jr (dependency_pairs deps node) res.
Proof.
  revert node jr. induction deps as [|D deps IH]; intros node jr Hi Hex Hc Hd;
    cbn [dependency_edges_loop dependency_pairs].
  { eexists. split; [done|]. by apply extra_nothing. }
  assert (Hd' : deps_ok n deps (node + 1)).
  { intros i D' HD'. replace (node + 1 + N.of_nat i) with (node + N.of_nat (S i)) by lia.
    by apply Hd. }
  destruct (Hd 0%nat D eq_refl) as (Hlt & Hnin & Hw). rewrite N.add_0_r in *.
  rewrite Size_law. case_decide as He.
  { rewrite He, size_empty. by apply IH. }
  replace (N.of_nat (size (to_gset D)) =? 0) with false.
  2: { symmetry. apply N.eqb_neq. intros Hz. apply He, leibniz_equiv, size_empty_inv. lia. }
  assert (Hnode : to_gset (ns_ExchangeSet (BS := BS) ns_empty node).1 = {[node]}).
  { rewrite ExchangeSet_law, empty_law. set_solver. }
  rewrite <-Hnode. apply (extra_edge_step true); [done|done| | |].
  - unfold extra_edges. by rewrite Hc, N.add_0_r.
  - rewrite Hnode. split_and!; simpl; [done|set_solver|set_solver|].
    intros v [?| ->%elem_of_singleton]%elem_of_union; [by apply Hw|done].
  - intros jr1 Hr. apply IH; [apply Hr|apply Hr| |done].
    pose proof (rd_counts _ _ _ _ _ Hr) as Hx. by injection Hx as _ ->.
Qed.

Lemma AddDependencyEdges_adds n jr :
  region_inv n jr -> m_edge_budget_exhausted jr = false -> m_cartesian_edges jr = 0 ->
  (forall spec, m_spec jr = Some spec -> 0 < m_dependency_count spec -> deps_ok n (m_dependencies spec) 0) ->
  exists res, AddDependencyEdges jr = Some res /\
    adds_extra true n jr
      (match m_spec jr with
       | Some spec => if 0 <? m_dependency_count spec then dependency_pairs (m_dependencies spec) 0 else []
       | None => []
       end) res.
Proof.
  intros Hi Hex Hc Hd. unfold AddDependencyEdges.
  destruct (m_spec jr) as [spec|]; [case_if; breflect|].
  - apply dependency_edges_adds; auto.
  - eexists. split; [done|]. by apply extra_nothing.
  - eexists. split; [done|]. by apply extra_nothing.
Qed.

Definition pair_view (e : BS * BS) : gset N * gset N := (to_gset e.1, to_gset e.2).

(** Some predicate joins the two sides. *)
Definition crosses (cs : list BS) (left right : BS) : bool :=
  existsb (fun cover => (1 <? ns_Size cover) && ns_ContainsAll (ns_Union left right) cover &&
             negb (ns_IsDisjoint left cover) && negb (ns_IsDisjoint right cover)) cs.

Lemma skeleton_edges_adds n edges jr :
  region_inv n jr -> m_edge_budget_exhausted jr = false ->
  Forall (fun e => set_sides_ok n (pair_view e, 0)) edges ->
  exists res, skeleton_edges_loop edges jr = Some res /\
    adds_extra false n jr
      (pair_view <$> filter (fun e => crosses (m_predicate_covers jr) e.1 e.2 = false) edges) res.
Proof.
  revert jr. induction edges as [|e edges IH]; intros jr Hi Hex Hs; cbn [skeleton_edges_loop].
  { eexists. split; [done|]. by apply extra_nothing. }
  apply Forall_cons in Hs as [He Hs]. rewrite filter_cons.
  change (FPredicateCrosses e.1 e.2 jr) with (crosses (m_predicate_covers jr) e.1 e.2).
  destruct (crosses _ _ _) eqn:Hcr.
  { rewrite decide_False by done. by apply IH. }
  rewrite decide_True by done. cbn [fmap list_fmap]. apply (extra_edge_step false); [done|done| |done|].
  - apply next_edge_id_extra.
  - intros jr1 Hr. replace (m_predicate_covers jr) with (m_predicate_covers jr1).
    + apply IH; [apply Hr|apply Hr|done].
    + pose proof (rd_covers _ _ _ _ _ Hr) as Hv. by injection Hv.
Qed.

(** All pairs of distinct sets of a list, in order. *)
Fixpoint ordered_pairs (cs : list BS) : list (gset N * gset N) :=
  match cs with
  | [] => []
  | c :: cs => ((fun d => (to_gset c, to_gset d)) <$> cs) ++ ordered_pairs cs
  end.

Lemma cartesian_row_adds n l rights jr :
  region_inv n jr -> m_edge_budget_exhausted jr = false ->
  Forall (fun r => set_sides_ok n (to_gset l, to_gset r, 0)) rights ->
  exists res, cartesian_row l rights jr = Some res /\
    adds_extra false n jr ((fun d => (to_gset l, to_gset d)) <$> rights) res.
Proof.
  revert jr. induction rights as [|r rights IH]; intros jr Hi Hex Hs; cbn [cartesian_row].
  { eexists. split; [done|]. by apply extra_nothing. }
  apply Forall_cons in Hs as [Hr Hs]. cbn [fmap list_fmap].
  apply (extra_edge_step false); [done|done|apply next_edge_id_extra|done|].
  intros jr1 Hr1. apply IH; [apply Hr1|apply Hr1|done].
Qed.

Definition components_ok (n : N) (cs : list BS) : Prop :=
  (forall c, c ∈ cs -> to_gset c <> ∅ /\ nodes_within n (to_gset c)) /\
  (forall i j S T, cs !! i = Some S -> cs !! j = Some T -> i <> j -> to_gset S ## to_gset T).

Lemma components_ok_cons n c cs :
  components_ok n (c :: cs) ->
  components_ok n cs /\ Forall (fun d => set_sides_ok n (to_gset c, to_gset d, 0)) cs.
Proof.
  intros [He Hd]. split; [split|].
  - intros d Hin. apply He. by right.
  - intros i j X Y HX HY Hij. apply (Hd (S i) (S j)); simpl; [done..|lia].
  - apply Forall_lookup. intros j d Hj. destruct (He c ltac:(left)) as [? Hwc].
    destruct (He d) as [? Hwd]; [right; by eapply list_elem_of_lookup_2|].
    split_and!; simpl; [done|done|by apply (Hd 0%nat (S j))|].
    intros v [?|?]%elem_of_union; [by apply Hwc|by apply Hwd].
Qed.

Lemma cartesian_adds n cs jr :
  region_inv n jr -> m_edge_budget_exhausted jr = false -> components_ok n cs ->
  exists res, cartesian_loop cs jr = Some res /\ adds_extra false n jr (ordered_pairs cs) res.
Proof.
  revert jr. induction cs as [|c cs IH]; intros jr Hi Hex Hok; cbn [cartesian_loop ordered_pairs].
  { eexists. split; [done|]. by apply extra_nothing. }
  apply components_ok_cons in Hok as [Hok Hrow]. apply and_step_extra; [done| |].
  - by apply cartesian_row_adds.
  - intros jr1 Hr. apply IH; [apply Hr|apply Hr|done].
Qed.
End adding.

(** ** What Build adds *)

Section building.
Context {BS CS : Type} {HB : NodeSet BS} {HC : NodeSet CS} {HD : DerivedProps CS} {HP : PredicateOps}.
Implicit Types (jr : CDPHyperJoinRegion BS) (want : list (gset N * gset N * N)).

(** The edges of the predicates, numbered from [predicate] on. *)
Fixpoint predicate_edges jr (rest : list CExpression) (predicate : N) : list (gset N * gset N * N) :=
  match rest with
  | [] => []
  | conjunct :: rest =>
      let cover := RegionPredicateCover conjunct jr in
      (if 1 <? ns_Size cover then with_id predicate (cover_pairs cover) else []) ++
      predicate_edges jr rest (predicate + 1)
  end.

Definition region_covers jr (rest : list CExpression) : list BS :=
  (fun conjunct => RegionPredicateCover conjunct jr) <$> rest.

Lemma add_cover_adds is_equality cover n jr w cv x res :
  adds n (add_cover is_equality cover jr) w cv x res -> adds n jr w cv x res.
Proof. by intros [? ? ? ? ? ?]. Qed.

Lemma region_cover_range conjunct jr :
  nodes_within (N.of_nat (length (m_components jr))) (to_gset (RegionPredicateCover conjunct jr)).
Proof. intros v Hv%PbsPredicateCover_range%elem_of_span. lia. Qed.

Lemma static_components jr jr' : static jr' = static jr -> m_components jr' = m_components jr.
Proof. by intros [=]. Qed.

Lemma predicate_edges_static jr jr' rest predicate :
  m_components jr' = m_components jr ->
  predicate_edges jr' rest predicate = predicate_edges jr rest predicate.
Proof.
  intros Hc. revert predicate. induction rest as [|c rest IH]; intros predicate; [done|].
  cbn [predicate_edges]. rewrite IH. unfold RegionPredicateCover. by rewrite Hc.
Qed.

Lemma region_covers_static jr jr' rest :
  m_components jr' = m_components jr -> region_covers jr' rest = region_covers jr rest.
Proof. intros Hc. unfold region_covers, RegionPredicateCover. by rewrite Hc. Qed.

Lemma predicates_adds n rest predicate jr :
  region_inv n jr -> m_edge_budget_exhausted jr = false -> n = N.of_nat (length (m_components jr)) ->
  exists res, predicates_loop rest predicate jr = Some res /\
    adds n jr (predicate_edges jr rest predicate)
      (m_predicate_covers jr ++ region_covers jr rest,
       m_equality_edges jr ++ (FContainsEquality <$> rest)) (counts jr) res.
Proof.
  revert predicate jr. induction rest as [|c rest IH]; intros predicate jr Hi Hex Hn;
    cbn [predicates_loop predicate_edges].
  { eexists. split; [done|]. unfold region_covers. cbn. rewrite !app_nil_r. by apply adds_nothing. }
  set (cover := RegionPredicateCover c jr). set (jr0 := add_cover (FContainsEquality c) cover jr).
  assert (Hi0 : region_inv n jr0) by (destruct Hi; by split).
  assert (Hrest : forall jr1, ready n jr0 (covers jr0) (counts jr0) jr1 ->
    exists res, predicates_loop rest (predicate + 1) jr1 = Some res /\
      adds n jr1 (predicate_edges jr rest (predicate + 1))
        (m_predicate_covers jr ++ region_covers jr (c :: rest),
         m_equality_edges jr ++ (FContainsEquality <$> c :: rest)) (counts jr) res).
  { intros jr1 Hr. pose proof (static_components _ _ (rd_static _ _ _ _ _ Hr)) as Hc.
    destruct (IH (predicate + 1) jr1) as (res & Hk & Ha); [apply Hr|apply Hr|by rewrite Hc|].
    exists res. split; [done|].
    rewrite (predicate_edges_static jr) in Ha by done. rewrite (region_covers_static jr) in Ha by done.
    pose proof (rd_covers _ _ _ _ _ Hr) as [= Hc1 Hc2].
    rewrite Hc1, Hc2, (rd_counts _ _ _ _ _ Hr), <-!(assoc_L (++)) in Ha. done. }
  case_if; breflect.
  - destruct (and_step_adds n jr0 (with_id predicate (cover_pairs cover)) (covers jr0) (counts jr0)
      (predicate_edges jr rest (predicate + 1))
      (m_predicate_covers jr ++ region_covers jr (c :: rest),
         m_equality_edges jr ++ (FContainsEquality <$> c :: rest)) (counts jr)
      (AddPredicatePartitions predicate cover jr0) (predicates_loop rest (predicate + 1)))
      as (res & Hk & Ha); [done| |done|].
    + apply AddPredicatePartitions_adds; [done|done| |].
      * intros He. rewrite Size_law, He, size_empty in *. lia.
      * rewrite Hn. apply region_cover_range.
    + exists res. split; [done|]. by eapply add_cover_adds.
  - destruct (Hrest jr0) as (res & Hk & Ha); [by apply ready_refl|].
    exists res. split; [done|]. by eapply add_cover_adds.
Qed.

(** *** The mixed-join branch *)

Record tes_ok (n : N) (edge : CEdge BS) (tes : BS) : Prop := {
  to_tes : m_tes edge = Some tes;
  to_sides : set_sides_ok n (to_gset tes ∩ to_gset (m_eleft edge), to_gset tes ∩ to_gset (m_eright edge), 0)
}.

Definition tes_sides (edge : CEdge BS) : gset N * gset N :=
  match m_tes edge with
  | Some tes => (to_gset tes ∩ to_gset (m_eleft edge), to_gset tes ∩ to_gset (m_eright edge))
  | None => (∅, ∅)
  end.

Fixpoint tes_want (edges : list (CEdge BS)) (edge_id : N) : list (gset N * gset N * N) :=
  match edges with
  | [] => []
  | edge :: edges => (tes_sides edge, edge_id) :: tes_want edges (edge_id + 1)
  end.

Lemma tes_edges_adds n edges edge_id jr :
  region_inv n jr -> m_edge_budget_exhausted jr = false ->
  Forall (fun edge => exists tes, tes_ok n edge tes) edges ->
  exists res, tes_edges_loop edges edge_id jr = Some res /\
    adds n jr (tes_want edges edge_id)
      (m_predicate_covers jr, m_equality_edges jr ++ ((fun e => FContainsEquality (m_predicate e)) <$> edges))
      (counts jr) res.
Proof.
  revert edge_id jr. induction edges as [|edge edges IH]; intros edge_id jr Hi Hex Hok;
    cbn [tes_edges_loop tes_want].
  { eexists. split; [done|]. cbn. rewrite app_nil_r. by apply adds_nothing. }
  apply Forall_cons in Hok as [(tes & Ht & Hs) Hok]. unfold tes_sides. rewrite Ht. cbn [mbind option_bind].
  set (jr0 := add_equality_edge (FContainsEquality (m_predicate edge)) jr).
  assert (Hi0 : region_inv n jr0) by (destruct Hi; by split).
  set (l := ns_Intersection tes (m_eleft edge)). set (r := ns_Intersection tes (m_eright edge)).
  assert (Hl : to_gset l = to_gset tes ∩ to_gset (m_eleft edge)) by apply Intersection_law.
  assert (Hr : to_gset r = to_gset tes ∩ to_gset (m_eright edge)) by apply Intersection_law.
  rewrite <-Hl, <-Hr in *. clearbody l r. clear Hl Hr.
  change (?a :: ?b) with ([a] ++ b).
  destruct (add_budgeted_edge_adds n jr l r edge_id Hi Hs) as ([ok jr1] & Hadd & Ha).
  destruct (add_budgeted_edge_adds n jr0 l r edge_id Hi0 Hs) as ([ok0 jr2] & Hadd0 & Ha0).
  unfold add_budgeted_edge in Hadd, Hadd0. change (m_edge_budget jr0) with (m_edge_budget jr) in *.
  change (m_generated_edges jr0) with (m_generated_edges jr) in *.
  destruct (m_edge_budget jr <=? m_generated_edges jr).
  - injection Hadd as <- <-. eexists. split; [done|]. by eapply adds_stop.
  - destruct (add_graph_edge l r edge_id jr0) as [jr3|]; [|done].
    injection Hadd0 as <- <-. cbn [mbind option_bind].
    pose proof (adds_ready n jr0 _ _ _ _ Hex Ha0) as Hrd.
    destruct (IH (edge_id + 1) jr3) as (res & Hk & Har); [apply Hrd|apply Hrd|done|].
    exists res. split; [done|]. pose proof (rd_covers _ _ _ _ _ Hrd) as [= Hc1 Hc2].
    rewrite Hc1, Hc2, (rd_counts _ _ _ _ _ Hrd), <-(assoc_L (++)) in Har.
    assert (Hall : adds n jr0 ([(to_gset l, to_gset r, edge_id)] ++ tes_want edges (edge_id + 1))
      (m_predicate_covers jr, m_equality_edges jr ++
        ([FContainsEquality (m_predicate edge)] ++ ((fun e => FContainsEquality (m_predicate e)) <$> edges)))
      (counts jr) res) by (eapply adds_seq; [done|exact Ha0|exact Har]).
    clear -Hall. destruct Hall as [? ? ? ? ? ?]. by split.
Qed.

(** *** The whole construction *)

(** A region as its constructors leave it: components enough for its node
    numbers, skeleton edges between disjoint node sets, dependencies on other
    nodes, and, with mixed joins, eligibility sets that meet both sides. *)
Record region_ok jr : Prop := {
  rk_fresh : covers jr = ([], []) /\ counts jr = (0, 0) /\ m_generated_edges jr = 0 /\
    m_edge_budget_exhausted jr = false;
  rk_budget : m_edge_budget jr < 2 ^ ULONG_BITS;
  rk_skeleton : Forall (fun e => set_sides_ok (N.of_nat (length (m_components jr))) (pair_view e, 0))
    (m_skeleton_edges jr);
  rk_deps : forall spec, m_spec jr = Some spec -> 0 < m_dependency_count spec ->
    deps_ok (N.of_nat (length (m_components jr))) (m_dependencies spec) 0;
  rk_tes : forall spec, mixed_joins jr = Some spec ->
    Forall (fun edge => exists tes, tes_ok (N.of_nat (length (m_components jr))) edge tes) (m_sedges spec)
}.

Definition dependency_want jr : list (gset N * gset N) :=
  match m_spec jr with
  | Some spec => if 0 <? m_dependency_count spec then dependency_pairs (m_dependencies spec) 0 else []
  | None => []
  end.

(** The skeleton edges no predicate crosses. *)
Definition skeleton_want jr : list (gset N * gset N) :=
  pair_view <$> filter (fun e => crosses (region_covers jr (m_conjuncts jr)) e.1 e.2 = false)
    (m_skeleton_edges jr).

(** All edges of a region of inner joins with these components. *)
Definition inner_want jr (cs : list BS) : list (gset N * gset N * N) :=
  predicate_edges jr (m_conjuncts jr) 0 ++
  number (N.of_nat (length (m_conjuncts jr))) 0
    (dependency_want jr ++ skeleton_want jr ++ ordered_pairs cs).

(** The sets that connect nodes: the covers of the predicates, the skeleton. *)
Definition connected_sets jr : list (gset N) :=
  (to_gset <$> region_covers jr (m_conjuncts jr)) ++
  ((fun e => to_gset e.1 ∪ to_gset e.2) <$> m_skeleton_edges jr).

Lemma partition_ok n E (cs : list BS) : partition n E cs -> components_ok n cs.
Proof.
  intros [Hcl _ Hd]. split; [|exact Hd]. intros c Hc. destruct (Hcl c Hc) as [Hne Hx].
  split; [done|]. intros v Hv. by apply Hx.
Qed.

Lemma start_inv n jr :
  region_ok jr -> n = N.of_nat (length (m_components jr)) ->
  region_inv n (set_graph (CDPHyperGraph_New n) jr).
Proof.
  intros [(_ & Hc & Hg & _) Hb _ _ _] Hn. unfold counts in Hc. injection Hc as Hc1 Hc2.
  split; cbn; [apply Graph_New_wf| |lia|lia|done|unfold extra_edges; cbn; lia].
  unfold NodeCount. cbn. rewrite length_replicate. lia.
Qed.

(** The steps after the predicates. *)
Lemma extra_steps_adds n jr jr1 :
  region_ok jr -> n = N.of_nat (length (m_components jr)) ->
  static jr1 = static jr -> region_inv n jr1 -> m_edge_budget_exhausted jr1 = false ->
  m_predicate_covers jr1 = region_covers jr (m_conjuncts jr) -> counts jr1 = (0, 0) ->
  exists (cs : list BS) x res, partition n (together (connected_sets jr)) cs /\
    and_step (AddDependencyEdges jr1) (fun jr => and_step (AddMissingSkeletonEdges jr) AddCartesianComponentEdges)
      = Some res /\
    adds n jr1 (number (N.of_nat (length (m_conjuncts jr))) 0
      (dependency_want jr ++ skeleton_want jr ++ ordered_pairs cs)) (covers jr1) x res.
Proof.
  intros Hok Hn Hst Hi Hex Hcv Hct. pose proof Hst as [= Hcomp Hconj Hskel Hspec Hbud].
  destruct (predicate_components_spec jr1 (length (m_components jr))) as (cs & Hcs & Hpart).
  { by rewrite Hcomp. }
  { rewrite Hcv. apply Forall_fmap, Forall_true. intros c. apply region_cover_range. }
  { rewrite Hskel. eapply Forall_impl; [apply (rk_skeleton _ Hok)|].
    intros e (Hne & _ & _ & Hw). split; [exact Hne|exact Hw]. }
  rewrite <-Hn in Hpart. unfold region_sets in Hpart. rewrite Hcv, Hskel in Hpart.
  exists cs, (bump false (N.of_nat (length (skeleton_want jr ++ ordered_pairs cs)))
           (bump true (N.of_nat (length (dependency_want jr))) (0, 0))).
  pose proof Hct as [= Hdep0 Hcart0].
  assert (Hextra0 : extra_edges jr1 = 0) by (unfold extra_edges; lia).
  destruct (and_step_adds n jr1
    (number (N.of_nat (length (m_conjuncts jr))) 0 (dependency_want jr)) (covers jr1)
    (bump true (N.of_nat (length (dependency_want jr))) (0, 0))
    (number (N.of_nat (length (m_conjuncts jr))) (0 + N.of_nat (length (dependency_want jr)))
      (skeleton_want jr ++ ordered_pairs cs)) (covers jr1)
    (bump false (N.of_nat (length (skeleton_want jr ++ ordered_pairs cs)))
           (bump true (N.of_nat (length (dependency_want jr))) (0, 0)))
    (AddDependencyEdges jr1) (fun jr => and_step (AddMissingSkeletonEdges jr) AddCartesianComponentEdges))
    as (res & Hk & Ha); [done| | |].
  - destruct (AddDependencyEdges_adds n jr1 Hi Hex Hcart0) as (res & Hk & Ha).
    { intros spec Hs Hc. rewrite Hn. eapply rk_deps; [done| |done]. by rewrite <-Hspec. }
    exists res. split; [done|]. unfold adds_extra in Ha.
    rewrite Hspec, Hconj, Hextra0, Hct in Ha. exact Ha.
  - intros jr2 Hr. pose proof (rd_static _ _ _ _ _ Hr) as [= Hcomp2 Hconj2 Hskel2 _ _].
    pose proof (rd_covers _ _ _ _ _ Hr) as [= Hcv2 _].
    destruct (and_step_extra false n jr2 (skeleton_want jr) (ordered_pairs cs)
      (AddMissingSkeletonEdges jr2) AddCartesianComponentEdges) as (res & Hk & Ha); [apply Hr| | |].
    + unfold AddMissingSkeletonEdges. rewrite Hskel2, Hskel.
      destruct (skeleton_edges_adds n (m_skeleton_edges jr) jr2) as (res & Hk & Ha); [apply Hr|apply Hr| |].
      { rewrite Hn. apply (rk_skeleton _ Hok). }
      exists res. split; [done|]. by rewrite Hcv2, Hcv in Ha.
    + intros jr3 Hr3. pose proof (rd_static _ _ _ _ _ Hr3) as [= Hcomp3 _ Hskel3 _ _].
      pose proof (rd_covers _ _ _ _ _ Hr3) as [= Hcv3 _]. unfold AddCartesianComponentEdges.
      replace (predicate_components jr3) with (predicate_components jr1).
      * rewrite Hcs. cbn [mbind option_bind].
        apply cartesian_adds; [apply Hr3|apply Hr3|by eapply partition_ok].
      * unfold predicate_components. by rewrite Hcv3, Hcv2, Hskel3, Hskel2, Hcomp3, Hcomp2.
    + exists res. split; [done|]. unfold adds_extra in Ha.
      rewrite Hconj2, Hconj, (rd_covers _ _ _ _ _ Hr), (rd_counts _ _ _ _ _ Hr) in Ha.
      replace (extra_edges jr2) with (0 + N.of_nat (length (dependency_want jr))) in Ha; [exact Ha|].
      pose proof (rd_counts _ _ _ _ _ Hr) as [= Hx1 Hx2]. unfold extra_edges. rewrite Hx1, Hx2. cbn. lia.
  - exists res. split_and!; [done|done|]. by rewrite number_app.
Qed.

Lemma mixed_static jr jr' : static jr' = static jr -> mixed_joins jr' = mixed_joins jr.
Proof. intros [= _ _ _ Hs _]. unfold mixed_joins. by rewrite Hs. Qed.

(** What a built region holds, given the edges [want] of its graph. *)
Record region_built jr want (ok : bool) jr' : Prop := {
  rb_ok : ok = (N.of_nat (length want) <=? m_edge_budget jr);
  rb_exhausted : m_edge_budget_exhausted jr' = negb ok;
  rb_wf : graph_wf (m_graph jr');
  rb_nodes : NodeCount (m_graph jr') = N.of_nat (length (m_components jr));
  rb_entries : entries (m_graph jr') = undirected (take (N.to_nat (m_edge_budget jr)) want);
  rb_static : static jr' = static jr
}.

Lemma built_from_adds jr want cv x ok jr' :
  region_ok jr ->
  adds (N.of_nat (length (m_components jr)))
    (set_graph (CDPHyperGraph_New (N.of_nat (length (m_components jr)))) jr) want cv x (ok, jr') ->
  region_built jr want ok jr'.
Proof.
  intros Hk [Ho Hi Hs He Hx Hd]. destruct (rk_fresh _ Hk) as (_ & _ & Hg & Hex). simpl in *.
  rewrite Hg, ?N.sub_0_r in *. split.
  - exact Ho.
  - by apply Hx.
  - apply Hi.
  - apply Hi.
  - rewrite He. done.
  - exact Hs.
Qed.

Lemma BuildRegion_mixed jr spec :
  region_ok jr -> mixed_joins jr = Some spec ->
  exists ok jr', BuildRegion jr = Some (ok, jr') /\ region_built jr (tes_want (m_sedges spec) 0) ok jr' /\
    (ok = true -> m_equality_edges jr' = (fun e => FContainsEquality (m_predicate e)) <$> m_sedges spec).
Proof.
  intros Hok Hm. unfold BuildRegion. set (jr0 := set_graph _ jr).
  change (mixed_joins jr0) with (mixed_joins jr). rewrite Hm.
  destruct (tes_edges_adds (N.of_nat (length (m_components jr))) (m_sedges spec) 0 jr0) as ([ok jr'] & Hk & Ha).
  { by apply start_inv. } { apply (rk_fresh _ Hok). } { by apply (rk_tes _ Hok). }
  exists ok, jr'. split_and!; [done|by eapply built_from_adds|]. intros ->.
  destruct (ad_done _ _ _ _ _ _ Ha eq_refl) as ([= _ ->] & _). 
  destruct (rk_fresh _ Hok) as ([= _ ->] & _). done.
Qed.

Lemma BuildRegion_inner jr :
  region_ok jr -> mixed_joins jr = None ->
  exists (cs : list BS) ok jr', partition (N.of_nat (length (m_components jr))) (together (connected_sets jr)) cs /\
    BuildRegion jr = Some (ok, jr') /\ region_built jr (inner_want jr cs) ok jr' /\
    (ok = true -> m_predicate_covers jr' = region_covers jr (m_conjuncts jr) /\
       m_equality_edges jr' = FContainsEquality <$> m_conjuncts jr).
Proof.
  intros Hok Hm. unfold BuildRegion. set (n := N.of_nat (length (m_components jr))).
  set (jr0 := set_graph _ jr). change (mixed_joins jr0) with (mixed_joins jr). rewrite Hm.
  pose proof (start_inv n jr Hok eq_refl) as Hi0. fold jr0 in Hi0.
  destruct (rk_fresh _ Hok) as ([= Hc1 Hc2] & Hct & Hg & Hex).
  destruct (predicates_adds n (m_conjuncts jr) 0 jr0 Hi0 Hex eq_refl) as ([ok1 jr1] & Hk1 & Ha1).
  change (m_conjuncts jr0) with (m_conjuncts jr). rewrite Hk1. unfold and_step at 1. cbn [mbind option_bind].
  change (m_predicate_covers jr0) with (m_predicate_covers jr) in Ha1.
  change (m_equality_edges jr0) with (m_equality_edges jr) in Ha1. rewrite Hc1, Hc2 in Ha1.
  change (counts jr0) with (counts jr) in Ha1. rewrite Hct in Ha1.
  rewrite (predicate_edges_static jr jr0), (region_covers_static jr jr0), !app_nil_l in Ha1 by done.
  change (m_edge_budget_exhausted jr0 = false) in Hex.
  destruct ok1.
  - pose proof (adds_ready _ _ _ _ _ _ Hex Ha1) as [Hi1 Hst1 Hcv1 Hct1 Hex1].
    injection Hcv1 as Hcv1 Heq1.
    destruct (extra_steps_adds n jr jr1) as (cs & x & [ok jr'] & Hpart & Hk & Ha); [done..|].
    exists cs, ok, jr'. split_and!; [done|done| |].
    + eapply built_from_adds; [done|]. unfold inner_want. eapply adds_seq; [exact Hex|exact Ha1|exact Ha].
    + intros ->. destruct (ad_done _ _ _ _ _ _ Ha eq_refl) as ([= -> ->] & _). done.
  - destruct (predicate_components_spec
      (set_graph (CDPHyperGraph_New n) (MkRegion (m_components jr) (m_conjuncts jr)
         (region_covers jr (m_conjuncts jr)) [] (m_skeleton_edges jr) (m_spec jr) (m_graph jr)
         (m_edge_budget jr) 0 0 0 false)) (length (m_components jr))) as (cs & _ & Hpart); [done| | |].
    + apply Forall_fmap, Forall_true. intros c. apply region_cover_range.
    + eapply Forall_impl; [apply (rk_skeleton _ Hok)|]. intros e (Hne & _ & _ & Hw). split; [exact Hne|exact Hw].
    + exists cs, false, jr1. split_and!; [exact Hpart|done| |done].
      eapply built_from_adds; [done|]. by eapply (adds_stop _ _ _ _ _ _ ([], []) (0, 0)).
Qed.
End building.

(** ** Properties of the construction *)

Section region_properties.
Context {BS CS : Type} {HB : NodeSet BS} {HC : NodeSet CS} {HD : DerivedProps CS} {HP : PredicateOps}.
Implicit Types (jr : CDPHyperJoinRegion BS).

(** The edges a region calls for. *)
Definition region_want jr (want : list (gset N * gset N * N)) : Prop :=
  match mixed_joins jr with
  | Some spec => want = tes_want (m_sedges spec) 0
  | None => exists cs : list BS,
      partition (N.of_nat (length (m_components jr))) (together (connected_sets jr)) cs /\
      want = inner_want jr cs
  end.

Lemma BuildRegion_spec jr :
  region_ok jr ->
  exists want ok jr', region_want jr want /\ BuildRegion jr = Some (ok, jr') /\
    region_built jr want ok jr'.
Proof.
  intros Hok.
  unfold region_want. destruct (mixed_joins jr) as [spec|] eqn:Hm.
  - destruct (BuildRegion_mixed jr spec Hok Hm) as (ok & jr' & Hk & Hb & _).
    by exists (tes_want (m_sedges spec) 0), ok, jr'.
  - destruct (BuildRegion_inner jr Hok Hm) as (cs & ok & jr' & Hp & Hk & Hb & _).
    exists (inner_want jr cs), ok, jr'. split_and!; [by exists cs|done|done].
Qed.

(** C35: [Build] always returns a well-formed graph over the components.  Its edges
    are the first [edge_budget] edges of the list the region calls for, in that
    order, each in both directions: with mixed joins one edge per join between the
    parts of its eligibility set on either side; otherwise the bipartitions of
    every predicate's nodes, the dependencies, the original joins no predicate
    crosses, and all pairs of connected components.  [Build] answers true, and
    leaves the budget unexhausted, exactly when they all fit. *)
Theorem Build_edges jr (Hok : region_ok jr) :
  exists want ok jr', region_want jr want /\ BuildRegion jr = Some (ok, jr') /\
    region_built jr want ok jr'.
Proof. by apply BuildRegion_spec. Qed.

(** The union-find of [AddCartesianComponentEdges] ends, whatever the covers
    and the skeleton are, and its components are the classes of the nodes under
    "covered by one predicate or joined by one original join": they are
    nonempty, pairwise disjoint, exhaust the nodes, and two nodes share one
    exactly when a chain of such sets links them. *)
Theorem predicate_components_partition jr n (Hn : length (m_components jr) = n)
    (Hcov : Forall (fun cover => nodes_within (N.of_nat n) (to_gset cover)) (m_predicate_covers jr))
    (Hsk : Forall (fun e => to_gset e.1 <> ∅ /\ nodes_within (N.of_nat n) (to_gset e.1 ∪ to_gset e.2))
       (m_skeleton_edges jr)) :
  exists cs, predicate_components jr = Some cs /\
    (forall S, S ∈ cs -> to_gset S <> ∅) /\
    (forall i j S T, cs !! i = Some S -> cs !! j = Some T -> i <> j -> to_gset S ## to_gset T) /\
    (forall x, x < N.of_nat n <-> exists S, S ∈ cs /\ x ∈ to_gset S) /\
    (forall S x y, S ∈ cs -> x ∈ to_gset S ->
       (y ∈ to_gset S <-> y < N.of_nat n /\ rtsc (together (region_sets jr)) x y)).
Proof.
  destruct (predicate_components_spec jr n Hn Hcov Hsk) as (cs & Hcs & [Hcl Hcover Hd]).
  exists cs. split_and!; [done|by intros S HS; apply Hcl|done| |].
  - intros x. split; [apply Hcover|]. intros (S & HS & Hx). by apply (Hcl S HS).
  - intros S x y HS Hx. by apply (Hcl S HS).
Qed.

(** *** Regions of the two constructors *)

Lemma New_region_ok (components conjuncts : list CExpression) (edge_budget : N) :
  edge_budget < 2 ^ ULONG_BITS ->
  region_ok (CDPHyperJoinRegion_New (BS := BS) components conjuncts edge_budget).
Proof. intros Hb. by split. Qed.

Lemma set_sides_below n (X Y : gset N) id :
  X <> ∅ -> Y <> ∅ -> X ## Y -> X ∪ Y ⊆ span 0 n -> set_sides_ok (N.of_nat n) (X, Y, id).
Proof.
  intros ? ? ? Hs. split_and!; [done..|]. intros v Hv%Hs%elem_of_span. lia.
Qed.

Lemma FromSpec_region_ok root spec (edge_budget : N) :
  Build (BS := BS) (CS := CS) root CJoinRegionSpec_New = Some (true, spec) ->
  m_pure_inner spec = true \/ m_cdc_supported spec = true -> edge_budget < 2 ^ ULONG_BITS ->
  region_ok (CDPHyperJoinRegion_FromSpec spec edge_budget).
Proof.
  intros HB' Hcdc Hb. apply Build_built in HB' as Hbr.
  pose proof (built_matches _ _ Hbr) as Hm. apply matches_edge_ok in Hm.
  change (width (region_of root)) with (length (leaves (region_of root))) in Hm.
  rewrite <-(br_atoms _ _ Hbr) in Hm. destruct (br_deps _ _ Hbr) as [Hdl Hd].
  split; cbn [m_components m_skeleton_edges m_spec CDPHyperJoinRegion_FromSpec]; [done|done| | |].
  - apply Forall_fmap. eapply Forall_impl; [exact Hm|]. intros e [? ? ? Ha Hr].
    rewrite Ha in Hr. by apply set_sides_below.
  - intros s [= <-] _ i D HD'. rewrite N.add_0_l.
    destruct (lookup_lt_is_Some_2 (m_atoms spec) i) as [atom Hatom].
    { rewrite <-Hdl. by eapply lookup_lt_Some. }
    specialize (Hd i atom D Hatom HD'). apply lookup_lt_Some in Hatom.
    split_and!; [lia| |].
    + rewrite (Hd _). intros (q & c & Hq & _ & (k & a & -> & _ & Hn & _)). lia.
    + intros v (q & c & -> & _ & (k & a & -> & Ha & _))%Hd. apply lookup_lt_Some in Ha. lia.
  - intros s Hs. unfold mixed_joins in Hs. cbn in Hs. destruct (m_pure_inner spec) eqn:Hpure; [done|].
    injection Hs as <-. destruct Hcdc as [|Hcdc]; [done|]. apply Forall_lookup. intros i edge Hi.
    destruct (built_edge _ _ _ _ Hbr Hcdc Hi) as (edge0 & R & rs & tes & Hok & Hel).
    pose proof (eligible_tes_meets _ _ _ _ _ _ _ _ Hok Hel) as [Hml Hmr].
    pose proof (eg_edge _ _ _ _ _ _ _ Hel) as ->. exists tes. split; [done|].
    cbn [m_eleft m_eright with_eligibility]. destruct Hok as [? ? Hdj Ha Hr]. rewrite Ha in Hr.
    apply set_sides_below; [by intros He; apply Hml, disjoint_intersection_L..| |set_solver|set_solver].
    intros He. apply Hmr, disjoint_intersection_L, He.
Qed.
End region_properties.

(** ** Witnesses: four atoms, a predicate on two, one on three, an isolated atom *)

Definition sample_ops : PredicateOps := {|
  PdrgpexprConjuncts e := [e];
  IsEqualityOp e := bool_decide (length (Children e) = 2%nat);
  PexprConjunction l := sample_node (EopOther 2) 0 l
|}.

Definition sample_predicate3 (i j k : N) : CExpression :=
  sample_node (EopOther 1) 0 [sample_atom i; sample_atom j; sample_atom k].

Definition sample_conjuncts : list CExpression := [sample_predicate 0 1; sample_predicate3 0 1 2].
Definition sample_list (edge_budget : N) : CDPHyperJoinRegion (gset N) :=
  CDPHyperJoinRegion_New (sample_atom <$> [0; 1; 2; 3]) sample_conjuncts edge_budget.

Definition sample_built (edge_budget : N) : option (bool * CDPHyperJoinRegion (gset N)) :=
  BuildRegion (HD := sample_props) (HP := sample_ops) (sample_list edge_budget).

Lemma sample_list_ok edge_budget :
  edge_budget < 2 ^ ULONG_BITS -> region_ok (sample_list edge_budget).
Proof. apply New_region_ok. Qed.

Lemma Build_edges_witness :
  exists want ok jr', sample_built 3 = Some (ok, jr') /\ ok = false /\
    region_built (sample_list 3) want ok jr'.
Proof.
  destruct (Build_edges (HD := sample_props) (HP := sample_ops) (sample_list 3)) as (want & ok & jr' & _ & Hk & Hb).
  { apply sample_list_ok. reflexivity. }
  exists want, ok, jr'. split; [exact Hk|]. split; [|exact Hb].
  assert (option_map fst (sample_built 3) = Some false) as Hf by (vm_compute; reflexivity).
  unfold sample_built in Hf. rewrite Hk in Hf. by injection Hf.
Defined.

Lemma predicate_components_partition_witness :
  exists cs, predicate_components (default (sample_list 9) (snd <$> sample_built 9)) = Some cs /\
    cs = [{[0; 1; 2]}; {[3]}] /\ forall S, S ∈ cs -> to_gset S <> ∅.
Proof.
  destruct (predicate_components_partition (default (sample_list 9) (snd <$> sample_built 9)) 4)
    as (cs & Hcs & Hne & _).
  - vm_compute. reflexivity.
  - assert (m_predicate_covers (default (sample_list 9) (snd <$> sample_built 9)) = [{[0; 1]}; {[0; 1; 2]}]) as ->
      by (vm_compute; reflexivity).
    repeat constructor; intros v; simpl; rewrite !elem_of_union, !elem_of_singleton; lia.
  - assert (m_skeleton_edges (default (sample_list 9) (snd <$> sample_built 9)) = []) as ->
      by (vm_compute; reflexivity).
    constructor.
  - exists cs. split; [exact Hcs|]. split; [|exact Hne].
    assert (predicate_components (default (sample_list 9) (snd <$> sample_built 9)) =
      Some [{[0; 1; 2]}; {[3]}]) as Hv by (vm_compute; reflexivity).
    congruence.
Defined.
