(* ===== verification/JoinRegionPairs.v ===== *)
(** * What the pairs of a join region mean

    The graph that [CDPHyperJoinRegion::Build] makes, the predicates that
    [PexprPredicate] selects for a pair, and the join that [FBuildJoinRequest]
    builds for it, against each other and against the query the region came
    from (definitions in [JoinRegion]). *)

From S2P Require Import Prelude NodeSet Expression DPHyperGraph DPHyperEnum DPHyperPlan.
From S2P Require Import UnionFind JoinRegionSpec JoinRegion.

Open Scope N_scope.

(** ** The bipartitions of a predicate *)

Section bipartitions.
Implicit Types (L R X Y : gset N).

Lemma bipartitions_spec nodes L R X Y :
  NoDup nodes -> L ## R -> list_to_set nodes ## L ∪ R ->
  (X, Y) ∈ bipartitions nodes L R <->
  L ⊆ X /\ R ⊆ Y /\ X ## Y /\ Y <> ∅ /\ X ∪ Y = list_to_set nodes ∪ (L ∪ R).
Proof.
  revert L R. induction nodes as [|v nodes IH]; intros L R Hnd Hd Hn; cbn [bipartitions].
  - case_decide as HR.
    + subst R. split; [by intros ?%elem_of_nil|]. intros (HL & HRY & Hxy & HY & He). exfalso. apply HY.
      clear -HL Hxy He. set_solver.
    + rewrite list_elem_of_singleton. split.
      * intros [= -> ->]. split_and!; [done..|]. clear. set_solver.
      * intros (HL & HRY & Hxy & HY & He). f_equal; clear -HL HRY Hxy He; set_solver.
  - apply NoDup_cons in Hnd as [Hv Hnd].
    assert (Hvs : v ∉ (list_to_set nodes : gset N)) by (by rewrite elem_of_list_to_set).
    cbn [list_to_set] in Hn.
    rewrite elem_of_app, !IH; [|done|clear -Hd Hn; set_solver|clear -Hn Hvs; set_solver|
      done|clear -Hd Hn; set_solver|clear -Hn Hvs; set_solver].
    cbn [list_to_set]. split.
    + intros [(HL & HRY & Hxy & HY & He)|(HL & HRY & Hxy & HY & He)]; rewrite He; clear He;
        split_and!; try done; clear -HL HRY; set_solver.
    + intros (HL & HRY & Hxy & HY & He).
      assert (v ∈ X ∪ Y) as [Hx|Hy]%elem_of_union by (rewrite He; clear; set_solver).
      * left. rewrite He. split_and!; [clear -HL Hx; set_solver|done|done|done|clear; set_solver].
      * right. rewrite He. split_and!; [done|clear -HRY Hy; set_solver|done|done|clear; set_solver].
Qed.
End bipartitions.

Section pairs.
Context {BS CS : Type} {HB : NodeSet BS} {HC : NodeSet CS} {HD : DerivedProps CS} {HP : PredicateOps}.
Implicit Types (jr : CDPHyperJoinRegion BS) (cover lset rset : BS).

(** The bipartitions of a cover, the first side holding its lowest node. *)
Lemma cover_pairs_spec cover X Y :
  (X, Y) ∈ cover_pairs cover <->
  X ## Y /\ Y <> ∅ /\ X ∪ Y = to_gset cover /\ exists v, first_bit cover = Some v /\ v ∈ X.
Proof.
  unfold cover_pairs, first_bit. pose proof (bits_NoDup cover) as Hnd.
  pose proof (bits_list_to_set cover) as Hb. destruct (ns_bits cover) as [|v nodes]; cbn [head].
  - split; [by intros ?%elem_of_nil|]. by intros (_ & _ & _ & v & ? & _).
  - apply NoDup_cons in Hnd as [Hv Hnd].
    assert (Hvs : v ∉ (list_to_set nodes : gset N)) by (by rewrite elem_of_list_to_set).
    rewrite bipartitions_spec; [|done|set_solver|set_solver]. rewrite <-Hb. cbn [list_to_set]. split.
    + intros (HL & _ & Hxy & HY & He). split_and!; [done|done|rewrite He; clear; set_solver|].
      exists v. split; [done|]. clear -HL. set_solver.
    + intros (Hxy & HY & He & w & [= <-] & Hvx).
      split_and!; [clear -Hvx; set_solver|clear; set_solver|done|done|rewrite He; clear; set_solver].
Qed.

(** Some way to split the nodes of a cover along two disjoint sets exists
    exactly when the cover lies in their union and meets both. *)
Definition splits (X Y : gset N) (l r : gset N) : Prop := (X ⊆ l /\ Y ⊆ r) \/ (X ⊆ r /\ Y ⊆ l).

Lemma crossing_spec lset rset cover :
  crossing lset rset cover = true <->
  to_gset cover ⊆ to_gset lset ∪ to_gset rset /\ ~ to_gset lset ## to_gset cover /\
  ~ to_gset rset ## to_gset cover.
Proof.
  unfold crossing. ns_simpl. rewrite !andb_true_iff, !negb_true_iff, !bool_decide_eq_true, !bool_decide_eq_false.
  tauto.
Qed.

Lemma cover_pairs_crossing lset rset cover :
  to_gset lset ## to_gset rset ->
  (exists X Y, (X, Y) ∈ cover_pairs cover /\ splits X Y (to_gset lset) (to_gset rset)) <->
  crossing lset rset cover = true.
Proof.
  intros Hd. rewrite crossing_spec. set (l := to_gset lset) in *. set (r := to_gset rset) in *.
  split.
  - intros (X & Y & (Hxy & HY & He & v & _ & Hv)%cover_pairs_spec & Hs).
    apply set_choose_L in HY as [w Hw]. rewrite <-He.
    destruct Hs as [[H1 H2]|[H1 H2]]; split_and!; set_solver.
  - intros (Hsub & Hl & Hr).
    assert (Hne : to_gset cover <> ∅) by set_solver.
    destruct (first_bit_is_Some cover Hne) as [v Hv].
    assert (Hvc : v ∈ to_gset cover) by by apply first_bit_Some in Hv as [? _].
    assert (v ∈ l ∪ r) as [Hvl|Hvr]%elem_of_union by set_solver.
    + exists (to_gset cover ∩ l), (to_gset cover ∩ r). split; [|left; set_solver].
      apply cover_pairs_spec. split_and!; [set_solver|set_solver|set_solver|]. exists v. set_solver.
    + exists (to_gset cover ∩ r), (to_gset cover ∩ l). split; [|right; set_solver].
      apply cover_pairs_spec. split_and!; [set_solver|set_solver|set_solver|]. exists v. set_solver.
Qed.

(** ** Edges of the graph, read from the edges asked for *)

Lemma elem_of_undirected want X Y id :
  (X, Y, id) ∈ undirected want <-> (X, Y, id) ∈ want \/ (Y, X, id) ∈ want.
Proof.
  unfold undirected. rewrite list_elem_of_In, in_concat. split.
  - intros (l & Hl & Hin). apply list_elem_of_In, list_elem_of_fmap in Hl as ([[X' Y'] i'] & -> & Hw).
    apply list_elem_of_In in Hin. cbn in Hin. rewrite !elem_of_cons, elem_of_nil in Hin. naive_solver.
  - intros [H|H].
    + exists (both_ways (X, Y, id)). rewrite <-!list_elem_of_In. split; [|left].
      apply list_elem_of_fmap. by exists (X, Y, id).
    + exists (both_ways (Y, X, id)). rewrite <-!list_elem_of_In. split; [|right; left].
      apply list_elem_of_fmap. by exists (Y, X, id).
Qed.

Lemma connects_want g want L R id :
  entries (BS := BS) g = undirected want ->
  connects g L R id <-> exists X Y, (X, Y, id) ∈ want /\ splits X Y L R.
Proof.
  intros He. unfold connects.
  assert (Hin : forall X Y, (X, Y, id) ∈ entries g <-> (X, Y, id) ∈ want \/ (Y, X, id) ∈ want).
  { intros X Y. rewrite He. apply elem_of_undirected. }
  unfold entries in Hin. setoid_rewrite list_elem_of_fmap in Hin. split.
  - intros (e & He' & Hid & Hl & Hr). destruct (proj1 (Hin (to_gset (m_left e)) (to_gset (m_right e)))) as [Hw|Hw].
    + exists e. split; [|done]. unfold entry_view. by rewrite Hid.
    + eexists _, _. split; [exact Hw|]. by right.
    + eexists _, _. split; [exact Hw|]. by left.
  - intros (X & Y & Hw & [[H1 H2]|[H1 H2]]).
    + destruct (proj2 (Hin Y X) (or_intror Hw)) as (e & [= -> -> ->] & He'). by exists e.
    + destruct (proj2 (Hin X Y) (or_introl Hw)) as (e & [= -> -> ->] & He'). by exists e.
Qed.

Lemma built_complete jr want jr' : region_built jr want true jr' -> entries (m_graph jr') = undirected want.
Proof.
  intros [Hok _ _ _ He _]. symmetry in Hok. breflect. by rewrite take_ge in He by lia.
Qed.

Lemma predicate_edges_elem jr rest k X Y id :
  (X, Y, id) ∈ predicate_edges jr rest k <->
  exists i conjunct, id = k + N.of_nat i /\ rest !! i = Some conjunct /\
    (1 <? ns_Size (RegionPredicateCover conjunct jr)) = true /\
    (X, Y) ∈ cover_pairs (RegionPredicateCover conjunct jr).
Proof.
  revert k. induction rest as [|c rest IH]; intros k; cbn [predicate_edges].
  { split; [by intros ?%elem_of_nil|]. intros (i & c & _ & Hi & _). by rewrite lookup_nil in Hi. }
  rewrite elem_of_app, IH. split.
  - intros [Hin|(i & c' & -> & Hi & ?)].
    + destruct (1 <? _) eqn:Hs; [|by apply elem_of_nil in Hin].
      apply list_elem_of_fmap in Hin as ([X' Y'] & [= -> -> ->] & Hin).
      exists 0%nat, c. split_and!; [lia|done|done|done].
    + exists (S i), c'. split_and!; [lia|done|apply H|apply H].
  - intros ([|i] & c' & -> & Hi & Hs & Hin); simpl in Hi.
    + injection Hi as ->. left. rewrite Hs. apply list_elem_of_fmap. exists (X, Y). split; [|done].
      f_equal. lia.
    + right. exists i, c'. split_and!; [lia|done|done|done].
Qed.

(** Extra edges are numbered after the conjuncts, as long as ids do not wrap. *)
Lemma number_elem base k pairs X Y id :
  (X, Y, id) ∈ number base k pairs ->
  base + (k + N.of_nat (length pairs)) <= 2 ^ ULONG_BITS -> base <= id.
Proof.
  intros Hin Hlt. apply elem_of_lookup_imap in Hin as (i & [X' Y'] & [= -> -> ->] & Hi).
  apply lookup_lt_Some in Hi. rewrite wrap_small by lia. lia.
Qed.

(** A pair of nodes sets is crossed by a predicate over at least two nodes. *)
Lemma crossing_size lset rset cover :
  to_gset lset ## to_gset rset -> crossing lset rset cover = true -> (1 <? ns_Size cover) = true.
Proof.
  intros Hd (Hsub & Hl & Hr)%crossing_spec. rewrite Size_law. apply N.ltb_lt.
  destruct (decide (size (to_gset cover) <= 1)%nat) as [Hle|]; [|lia]. exfalso.
  apply not_disjoint_elem in Hl as (x & Hxl & Hxc). apply not_disjoint_elem in Hr as (y & Hyr & Hyc).
  assert ({[x]} ∪ {[y]} ⊆ to_gset cover) as Hs%subseteq_size by set_solver.
  rewrite size_union, !size_singleton in Hs by set_solver. lia.
Qed.

(** The parts of a complete region of inner joins. *)
Lemma built_inner jr jr' :
  region_ok jr -> mixed_joins jr = None -> BuildRegion jr = Some (true, jr') ->
  exists cs : list BS, region_built jr (inner_want jr cs) true jr' /\
    m_predicate_covers jr' = region_covers jr (m_conjuncts jr) /\
    m_equality_edges jr' = FContainsEquality <$> m_conjuncts jr.
Proof.
  intros Hok Hm HB'. destruct (BuildRegion_inner jr Hok Hm) as (cs & ok & jr2 & _ & Hk & Hb & Hcv).
  rewrite HB' in Hk. injection Hk as <- <-. exists cs. split; [done|]. by apply Hcv.
Qed.

Lemma inner_length jr jr' (cs : list BS) :
  region_built jr (inner_want jr cs) true jr' ->
  N.of_nat (length (dependency_want jr ++ skeleton_want jr ++ ordered_pairs cs)) <= m_edge_budget jr.
Proof.
  intros [Hok _ _ _ _ _]. symmetry in Hok. breflect. unfold inner_want in *.
  match goal with H : _ <= _ |- _ => rewrite length_app, length_number in H end. lia.
Qed.

Lemma predicate_connects jr jr' lset rset i conjunct :
  region_ok jr -> mixed_joins jr = None -> BuildRegion jr = Some (true, jr') ->
  N.of_nat (length (m_conjuncts jr)) + m_edge_budget jr <= 2 ^ ULONG_BITS ->
  to_gset lset ## to_gset rset -> m_conjuncts jr !! i = Some conjunct ->
  connects (m_graph jr') (to_gset lset) (to_gset rset) (N.of_nat i) <->
    crossing lset rset (RegionPredicateCover conjunct jr) = true.
Proof.
  intros Hok Hm HB' Hw Hd Hi. destruct (built_inner jr jr' Hok Hm HB') as (cs & Hb & Hcv & _).
  rewrite (connects_want _ _ _ _ _ (built_complete _ _ _ Hb)), <-cover_pairs_crossing by done.
  unfold inner_want. setoid_rewrite elem_of_app. setoid_rewrite predicate_edges_elem. split.
  - intros (X & Y & [(j & c & Hj & Hc & _ & Hin)|Hin] & Hs).
    + assert (j = i) as -> by lia. rewrite Hc in Hi. injection Hi as ->. by exists X, Y.
    + apply number_elem in Hin; [|pose proof (inner_length _ _ _ Hb); lia].
      apply lookup_lt_Some in Hi. lia.
  - intros (X & Y & Hin & Hs). exists X, Y. split; [|done]. left. exists i, conjunct.
    split_and!; [lia|done| |done]. eapply (crossing_size lset rset); [done|].
    apply cover_pairs_crossing; [done|]. by exists X, Y.
Qed.

(** The graph of a region of inner joins and its predicates agree.  In a
    complete graph, a pair of disjoint node sets is joined by an edge of a
    conjunct exactly when the conjunct crosses the pair: all its nodes lie in the
    pair and each side has one.  These are the conjuncts that [PexprPredicate]
    puts on the join of the pair, so the enumerator may join two sets by a
    predicate just when the join can evaluate it. *)
Theorem predicate_edges_cross jr jr' lset rset i cover
    (Hok : region_ok jr) (Hm : mixed_joins jr = None) (HB' : BuildRegion jr = Some (true, jr'))
    (Hw : N.of_nat (length (m_conjuncts jr)) + m_edge_budget jr <= 2 ^ ULONG_BITS)
    (Hd : to_gset lset ## to_gset rset) (Hi : m_predicate_covers jr' !! i = Some cover) :
  connects (m_graph jr') (to_gset lset) (to_gset rset) (N.of_nat i) <->
    crossing lset rset cover = true.
Proof.
  destruct (built_inner jr jr' Hok Hm HB') as (cs & _ & Hcv & _).
  rewrite Hcv in Hi. apply list_lookup_fmap_Some in Hi as (c & -> & Hc).
  by apply predicate_connects.
Qed.
End pairs.

(** ** The original join order *)

Section original_order.
Context {BS CS : Type} {HB : NodeSet BS} {HC : NodeSet CS} {HD : DerivedProps CS} {HP : PredicateOps}.
Implicit Types (jr : CDPHyperJoinRegion BS) (lset rset : BS) (spec : CJoinRegionSpec BS)
  (root : CExpression).

Lemma elem_of_number base k pairs e :
  e ∈ pairs -> exists id, (e, id) ∈ number base k pairs.
Proof.
  intros [i Hi]%list_elem_of_lookup. eexists. apply elem_of_lookup_imap. exists i, e. by split.
Qed.

Lemma elem_of_tes_want (edges : list (CEdge BS)) k edge :
  edge ∈ edges -> exists id, (tes_sides edge, id) ∈ tes_want edges k.
Proof.
  revert k. induction edges as [|e edges IH]; intros k; [by intros ?%elem_of_nil|].
  intros [->|Hin]%elem_of_cons; cbn [tes_want].
  - exists k. left.
  - destruct (IH (k + 1) Hin) as [id Hid]. exists id. by right.
Qed.

Lemma crosses_spec (cs : list BS) lset rset :
  to_gset lset ## to_gset rset ->
  crosses cs lset rset = true <-> exists c, c ∈ cs /\ crossing lset rset c = true.
Proof.
  intros Hd. unfold crosses. rewrite existsb_exists. setoid_rewrite <-list_elem_of_In.
  split; intros (c & Hc & Hx); exists c; (split; [done|]).
  - unfold crossing. rewrite !andb_true_iff in Hx |- *. destruct Hx as [[[_ ?]%andb_prop ?] ?]. tauto.
  - rewrite (crossing_size _ _ _ Hd Hx). unfold crossing in Hx. exact Hx.
Qed.

(** Every join of the skeleton is an edge of the graph, in one form or another. *)
Lemma skeleton_connects jr jr' e :
  region_ok jr -> mixed_joins jr = None -> BuildRegion jr = Some (true, jr') ->
  e ∈ m_skeleton_edges jr -> exists id, connects (m_graph jr') (to_gset e.1) (to_gset e.2) id.
Proof.
  intros Hok Hm HB' He. destruct (built_inner jr jr' Hok Hm HB') as (cs & Hb & _).
  pose proof (rk_skeleton _ Hok) as Hs. rewrite Forall_forall in Hs.
  destruct (Hs e He) as (_ & _ & Hd & _). cbn in Hd.
  setoid_rewrite (connects_want _ _ _ _ _ (built_complete _ _ _ Hb)).
  destruct (crosses (region_covers jr (m_conjuncts jr)) e.1 e.2) eqn:Hcr.
  - apply crosses_spec in Hcr as (cover & (c & -> & [i Hi]%list_elem_of_lookup)%list_elem_of_fmap & Hx);
      [|done].
    pose proof (crossing_size _ _ _ Hd Hx) as Hsize.
    apply cover_pairs_crossing in Hx as (X & Y & Hin & Hsp); [|done].
    exists (N.of_nat i), X, Y. split; [|done]. unfold inner_want. apply elem_of_app. left.
    apply predicate_edges_elem. by exists i, c.
  - destruct (elem_of_number (N.of_nat (length (m_conjuncts jr))) 0
      (dependency_want jr ++ skeleton_want jr ++ ordered_pairs cs) (pair_view e)) as [id Hid].
    { rewrite !elem_of_app. right. left. unfold skeleton_want. apply list_elem_of_fmap.
      exists e. split; [done|]. by apply list_elem_of_filter. }
    exists id, (to_gset e.1), (to_gset e.2). split; [|by left]. unfold inner_want. apply elem_of_app. by right.
Qed.

Lemma mixed_connects jr jr' spec edge :
  region_ok jr -> mixed_joins jr = Some spec -> BuildRegion jr = Some (true, jr') ->
  edge ∈ m_sedges spec ->
  exists id, connects (m_graph jr') (to_gset (m_eleft edge)) (to_gset (m_eright edge)) id.
Proof.
  intros Hok Hm HB' He. destruct (BuildRegion_mixed jr spec Hok Hm) as (ok & jr2 & Hk & Hb & _).
  rewrite HB' in Hk. injection Hk as <- <-.
  setoid_rewrite (connects_want _ _ _ _ _ (built_complete _ _ _ Hb)).
  destruct (elem_of_tes_want (m_sedges spec) 0 edge He) as [id Hid].
  pose proof (rk_tes _ Hok spec Hm) as Ht. rewrite Forall_forall in Ht.
  destruct (Ht edge He) as (tes & Htes & _). unfold tes_sides in Hid. rewrite Htes in Hid.
  eexists id, _, _. split; [exact Hid|]. left. split; apply intersection_subseteq_r.
Qed.

(** A tree all of whose joins are edges of the graph is a join of its nodes. *)
Lemma tree_join_tree (g : CDPHyperGraph BS) t a :
  (forall d, d ∈ tree_edges t a -> exists id, connects g (d_left d) (d_right d) id) ->
  N.of_nat (a + width t) <= NodeCount g -> join_tree g (span a (a + width t)).
Proof.
  revert a. induction t as [e|op p c t1 IH1 t2 IH2]; intros a Hd Hn.
  - change (width (RAtom e)) with 1%nat in *. rewrite Nat.add_1_r in *. rewrite span_singleton.
    apply jt_node. lia.
  - cbn [tree_edges] in Hd. setoid_rewrite elem_of_app in Hd. setoid_rewrite elem_of_app in Hd.
    rewrite width_join in *. pose proof (width_pos t1). pose proof (width_pos t2).
    destruct (Hd (MkEdgeData op p c (span a (a + width t1)) (span (a + width t1) (a + width t1 + width t2))))
      as [id Hid]; [right; right; left|].
    rewrite <-(span_split a (a + width t1)) by lia. rewrite Nat.add_assoc in *.
    eapply jt_join; [apply IH1|apply IH2|apply span_disjoint|exact Hid].
    + intros d Hin. apply Hd. by left.
    + lia.
    + intros d Hin. apply Hd. right. by left.
    + lia.
Qed.

(** C34: The original join order survives the construction.  When the graph of a
    region described by [CJoinRegionSpec] is complete, each original join joins
    its two sides by an edge of the graph, so the graph has a bottom-up join of
    all nodes: the enumerator is never left without a plan for lack of edges. *)
Theorem original_order_kept root spec edge_budget jr'
    (HB' : Build (BS := BS) (CS := CS) root CJoinRegionSpec_New = Some (true, spec))
    (Hcdc : m_pure_inner spec = true \/ m_cdc_supported spec = true)
    (Hbud : edge_budget < 2 ^ ULONG_BITS)
    (Hbuild : BuildRegion (CDPHyperJoinRegion_FromSpec spec edge_budget) = Some (true, jr')) :
  (forall edge, edge ∈ m_sedges spec ->
     exists id, connects (m_graph jr') (to_gset (m_eleft edge)) (to_gset (m_eright edge)) id) /\
  join_tree (m_graph jr') (span 0 (length (m_atoms spec))).
Proof.
  pose proof (FromSpec_region_ok (CS := CS) root spec edge_budget HB' Hcdc Hbud) as Hok.
  set (jr := CDPHyperJoinRegion_FromSpec spec edge_budget) in *.
  assert (Hall : forall edge, edge ∈ m_sedges spec ->
    exists id, connects (m_graph jr') (to_gset (m_eleft edge)) (to_gset (m_eright edge)) id).
  { intros edge Hin. destruct (mixed_joins jr) as [s|] eqn:Hm.
    - assert (s = spec) as ->.
      { unfold mixed_joins in Hm. cbn in Hm. destruct (m_pure_inner spec); cbn in Hm; congruence. }
      by eapply mixed_connects.
    - apply (skeleton_connects jr jr' (m_eleft edge, m_eright edge)); [done..|].
      apply list_elem_of_fmap. by exists edge. }
  split; [done|]. apply Build_built in HB' as Hbr. pose proof (built_matches _ _ Hbr) as Hmt.
  destruct (BuildRegion_spec jr Hok) as (want & ok & jr2 & _ & Hk & Hb). rewrite Hbuild in Hk. injection Hk as <- <-.
  pose proof (rb_nodes _ _ _ _ Hb) as Hn. cbn in Hn. rewrite (br_atoms _ _ Hbr) in *.
  change (length (leaves (region_of root))) with (0 + width (region_of root))%nat.
  apply tree_join_tree; [|by rewrite Hn].
  intros d [i Hi]%list_elem_of_lookup. destruct (Forall2_lookup_l _ _ _ _ _ Hmt Hi) as (edge & He & Hem).
  rewrite <-(em_left _ _ Hem), <-(em_right _ _ Hem). apply Hall. by eapply list_elem_of_lookup_2.
Qed.
End original_order.

(** ** Dependencies between the atoms *)

Section dependencies.
Context {BS : Type} {HB : NodeSet BS}.
Implicit Types (lset rset joined D : BS) (deps : list BS) (node : N).

(** Some node of [X] needs a node of [Y]; all that the nodes of [X] need is in
    [X]. The list gives the nodes from [node] on. *)
Definition needs_from deps node (X Y : gset N) : Prop :=
  exists i D, deps !! i = Some D /\ node + N.of_nat i ∈ X /\ ~ Y ## to_gset D.
Definition closed_from deps node (X : gset N) : Prop :=
  forall i D, deps !! i = Some D -> node + N.of_nat i ∈ X -> to_gset D ⊆ X.

Lemma needs_from_cons D deps node X Y :
  needs_from (D :: deps) node X Y <-> (node ∈ X /\ ~ Y ## to_gset D) \/ needs_from deps (node + 1) X Y.
Proof.
  unfold needs_from. split.
  - intros ([|i] & D' & HD' & Hv & Hm); simpl in HD'.
    + injection HD' as ->. rewrite N.add_0_r in Hv. by left.
    + right. exists i, D'. split_and!; [done| |done]. by replace (node + 1 + N.of_nat i) with (node + N.of_nat (S i)) by lia.
  - intros [[Hv Hm]|(i & D' & HD' & Hv & Hm)].
    + exists 0%nat, D. by rewrite N.add_0_r.
    + exists (S i), D'. split_and!; [done| |done]. by replace (node + N.of_nat (S i)) with (node + 1 + N.of_nat i) by lia.
Qed.

Lemma closed_from_cons D deps node X :
  closed_from (D :: deps) node X <-> (node ∈ X -> to_gset D ⊆ X) /\ closed_from deps (node + 1) X.
Proof.
  unfold closed_from. split.
  - intros Hc. split.
    + intros Hv. apply (Hc 0%nat D); [done|]. by rewrite N.add_0_r.
    + intros i D' HD' Hv. apply (Hc (S i) D'); [done|].
      by replace (node + N.of_nat (S i)) with (node + 1 + N.of_nat i) by lia.
  - intros [H0 Hc] [|i] D' HD' Hv; simpl in HD'.
    + injection HD' as ->. rewrite N.add_0_r in Hv. by apply H0.
    + apply (Hc i D'); [done|]. by replace (node + 1 + N.of_nat i) with (node + N.of_nat (S i)) by lia.
Qed.

(** One node, the directions seen before being [a] (a node on the left needs
    one on the right) and [b] (the converse). *)
Lemma dependency_node_spec lset rset joined node D (a b : bool) :
  to_gset lset ## to_gset rset -> a && b = false ->
  let a' := a || bool_decide (node ∈ to_gset lset /\ ~ to_gset rset ## to_gset D) in
  let b' := b || bool_decide (node ∈ to_gset rset /\ ~ to_gset lset ## to_gset D) in
  dependency_node lset rset joined node D (a, a || b) =
    if bool_decide (to_gset D ⊆ to_gset joined)
    then if a' && b' then None else Some (a', a' || b') else None.
Proof.
  intros Hd Hab a' b'. unfold dependency_node, a', b'. ns_simpl.
  destruct (bool_decide (to_gset D ⊆ _)); [|done]. cbn [negb].
  rewrite !bool_decide_and, !bool_decide_not.
  assert (Hlr : bool_decide (node ∈ to_gset lset) && bool_decide (node ∈ to_gset rset) = false).
  { apply not_true_iff_false. rewrite andb_true_iff, !bool_decide_eq_true. set_solver. }
  destruct (bool_decide (node ∈ to_gset lset)), (bool_decide (node ∈ to_gset rset)),
    (bool_decide (to_gset rset ## _)), (bool_decide (to_gset lset ## _)); by destruct a, b.
Qed.

Lemma dependency_loop_spec lset rset joined deps node (a b sw dir : bool) :
  to_gset lset ## to_gset rset -> to_gset joined = to_gset lset ∪ to_gset rset -> a && b = false ->
  dependency_loop lset rset joined deps node (a, a || b) = Some (sw, dir) <->
  closed_from deps node (to_gset joined) /\
  exists b', (sw = true <-> a = true \/ needs_from deps node (to_gset lset) (to_gset rset)) /\
    (b' = true <-> b = true \/ needs_from deps node (to_gset rset) (to_gset lset)) /\
    sw && b' = false /\ dir = sw || b'.
Proof.
  intros Hd Hj. revert node a b. induction deps as [|D deps IH]; intros node a b Hab; cbn [dependency_loop].
  { assert (Hn : forall X Y, ~ needs_from [] node X Y) by (intros X Y (i & D & HD' & _); by rewrite lookup_nil in HD').
    split.
    - intros [= <- <-]. split; [intros i D HD'; by rewrite lookup_nil in HD'|]. exists b. naive_solver.
    - intros (_ & b' & Ha & Hb & _ & ->). f_equal.
      assert (sw = a) as -> by (apply bool_iff_eq; naive_solver).
      assert (b' = b) as -> by (apply bool_iff_eq; naive_solver). done. }
  rewrite Get_law. case_bool_decide as Hnode; cbn [negb].
  - rewrite dependency_node_spec by done.
    rewrite closed_from_cons. setoid_rewrite needs_from_cons.
    case_bool_decide as Hc; cbn [mbind option_bind]; [|naive_solver].
    set (cA := bool_decide (node ∈ to_gset lset /\ _)). set (cB := bool_decide (node ∈ to_gset rset /\ _)).
    assert (HcA : cA = true <-> node ∈ to_gset lset /\ ~ to_gset rset ## to_gset D) by apply bool_decide_eq_true.
    assert (HcB : cB = true <-> node ∈ to_gset rset /\ ~ to_gset lset ## to_gset D) by apply bool_decide_eq_true.
    clearbody cA cB. destruct ((a || cA) && (b || cB)) eqn:Hboth; cbn [mbind option_bind].
    + split; [done|]. intros (_ & b' & Ha & Hb & Hsb & _). exfalso.
      apply andb_prop in Hboth as [H1%orb_true_iff H2%orb_true_iff].
      assert (sw = true) by tauto. assert (b' = true) by tauto. by subst.
    + rewrite (IH (node + 1) (a || cA) (b || cB) Hboth). setoid_rewrite orb_true_iff.
      setoid_rewrite HcA. setoid_rewrite HcB. split; intros (Hcl & b' & ? & ? & ? & ?); (split; [tauto|]); exists b'; tauto.
  - rewrite (IH (node + 1) a b Hab), closed_from_cons. setoid_rewrite needs_from_cons.
    assert (node ∉ to_gset lset) by set_solver. assert (node ∉ to_gset rset) by set_solver.
    split; intros (Hcl & b' & ? & ? & ? & ?); (split; [tauto|]); exists b'; tauto.
Qed.
End dependencies.

(** ** Requests *)

Section requests.
Context {BS CS : Type} {HB : NodeSet BS} {HC : NodeSet CS} {HD : DerivedProps CS} {HP : PredicateOps}.
Implicit Types (jr : CDPHyperJoinRegion BS) (lset rset : BS) (spec : CJoinRegionSpec BS)
  (root : CExpression) (edge : CEdge BS).

(** Some atom of [X] refers to columns of an atom of [Y]. *)
Definition needs spec (X Y : gset N) : Prop := needs_from (m_dependencies spec) 0 X Y.
(** The atoms of [X] refer to columns of atoms of [X] only. *)
Definition self_contained spec (X : gset N) : Prop := closed_from (m_dependencies spec) 0 X.

Lemma total_size_zero (ds : list BS) i D :
  total_size ds = 0 -> ds !! i = Some D -> to_gset D = ∅.
Proof.
  unfold total_size. revert i. induction ds as [|D' ds IH]; intros [|i] Hz HD'; simpl in *; try done.
  - injection HD' as ->. apply leibniz_equiv, size_empty_inv. lia.
  - apply (IH i); [lia|done].
Qed.

(** [FDependencyApplicable] decides whether the lateral references of a pair
    can be evaluated.  It succeeds exactly when the pair refers to no atom outside
    it and at most one side needs the other; then its two results say that there
    is such a need, and that it is the left side that depends on the right, so
    that the operands have to be swapped. *)
Theorem FDependencyApplicable_decides root spec jr lset rset (sw dir : bool)
    (HB' : Build (BS := BS) (CS := CS) root CJoinRegionSpec_New = Some (true, spec))
    (Hjr : m_spec jr = Some spec) (Hsize : total_size (m_dependencies spec) < 2 ^ ULONG_BITS)
    (Hd : to_gset lset ## to_gset rset) :
  FDependencyApplicable lset rset jr = Some (sw, dir) <->
  self_contained spec (to_gset lset ∪ to_gset rset) /\
  ~ (needs spec (to_gset lset) (to_gset rset) /\ needs spec (to_gset rset) (to_gset lset)) /\
  (sw = true <-> needs spec (to_gset lset) (to_gset rset)) /\
  (dir = true <-> needs spec (to_gset lset) (to_gset rset) \/ needs spec (to_gset rset) (to_gset lset)).
Proof.
  apply Build_built in HB' as Hbr. pose proof (br_count _ _ Hbr) as Hc. rewrite wrap_small in Hc by done.
  unfold FDependencyApplicable, self_contained, needs. rewrite Hjr. case_if; breflect.
  - change (false, false) with (false, false || false).
    rewrite dependency_loop_spec by (done || apply Union_law). rewrite Union_law. split.
    + intros (Hcl & b' & Hsw & Hb' & Hx & ->). split_and!; [done| |naive_solver|].
      * intros [HA HB'']. assert (sw = true) by tauto. assert (b' = true) by tauto. by subst.
      * rewrite orb_true_iff. naive_solver.
    + intros (Hcl & Hno & Hsw & Hdir). split; [done|]. exists (dir && negb sw).
      destruct sw, dir; naive_solver.
  - assert (Hz : forall i D, m_dependencies spec !! i = Some D -> to_gset D = ∅).
    { intros i D. apply total_size_zero. lia. }
    assert (Hn : forall X Y, ~ needs_from (m_dependencies spec) 0 X Y).
    { intros X Y (i & D & HD' & _ & Hm). apply Hm. rewrite (Hz _ _ HD'). set_solver. }
    split.
    + intros [= <- <-]. split_and!; [|naive_solver..]. intros i D HD' _. rewrite (Hz _ _ HD'). set_solver.
    + intros (_ & _ & Hsw & Hdir). destruct sw, dir; naive_solver.
Qed.

(** *** Applicable edges *)

(** What the edge contributes to the list. *)
Definition applicable_edge lset rset jr (edge_id : N) : option SApplicableEdge :=
  match FPairApplicable lset rset edge_id jr with
  | Some (true, swapped) => Some (MkApplicable edge_id swapped)
  | _ => None
  end.

Lemma FPairApplicable_total lset rset jr spec edge_id edge :
  mixed_joins jr = Some spec -> (m_sedges spec).[edge_id] = Some edge -> is_Some (m_tes edge) ->
  is_Some (FPairApplicable lset rset edge_id jr).
Proof.
  intros Hm He [tes Ht]. unfold FPairApplicable. destruct (FDependencyApplicable _ _ _) as [[? ?]|]; [|by eexists].
  rewrite Hm, He. cbn [mbind option_bind].
  assert (Hf : forall l r, exists b, FApplicable edge l r = Some b).
  { intros l r. unfold FApplicable. rewrite Ht. cbn [mbind option_bind]. repeat case_if; by eexists. }
  destruct (Hf lset rset) as [[] ->]; cbn [mbind option_bind]; [by eexists|].
  destruct (Hf rset lset) as [[] ->]; by eexists.
Qed.

Lemma applicable_loop_omap lset rset jr ids :
  (forall id, id ∈ ids -> is_Some (FPairApplicable lset rset id jr)) ->
  applicable_loop lset rset ids jr = Some (omap (applicable_edge lset rset jr) ids).
Proof.
  induction ids as [|id ids IH]; intros Ht; cbn [applicable_loop omap list_omap]; [done|].
  destruct (Ht id ltac:(left)) as [[ap sw] Hp]. unfold applicable_edge at 1. rewrite Hp.
  cbn [mbind option_bind]. rewrite IH by (intros; apply Ht; by right). cbn [mbind option_bind].
  by destruct ap.
Qed.

Definition all_built spec : Prop := Forall (fun edge => is_Some (m_tes edge)) (m_sedges spec).

Lemma ApplicableEdges_omap lset rset jr spec :
  mixed_joins jr = Some spec -> all_built spec ->
  ApplicableEdges lset rset jr =
    Some (omap (applicable_edge lset rset jr) (N.of_nat <$> seq 0 (length (m_sedges spec)))).
Proof.
  intros Hm Hall. unfold ApplicableEdges. rewrite Hm. apply applicable_loop_omap.
  intros id (k & -> & Hk%elem_of_seq)%list_elem_of_fmap.
  destruct (lookup_lt_is_Some_2 (m_sedges spec) k) as [edge He]; [lia|].
  eapply FPairApplicable_total; [done|by rewrite Nat2N.id|]. by eapply Forall_lookup_1 in Hall.
Qed.

Lemma all_built_spec root spec :
  Build (BS := BS) (CS := CS) root CJoinRegionSpec_New = Some (true, spec) ->
  m_cdc_supported spec = true -> all_built spec.
Proof.
  intros HB' Hcdc. apply Build_built in HB' as Hbr. apply Forall_lookup. intros i edge Hi.
  destruct (built_edge _ _ _ _ Hbr Hcdc Hi) as (edge0 & R & rs & tes & _ & Hel).
  pose proof (eg_edge _ _ _ _ _ _ _ Hel) as ->. by eexists.
Qed.

(** *** The join of a pair *)

Definition candidate_type spec (c : SApplicableEdge) : EOperatorId :=
  from_option m_join_type EopLogicalInnerJoin (m_sedges spec).[ae_edge_id c].
Definition valid_candidate spec (c : SApplicableEdge) : Prop := is_Some ((m_sedges spec).[ae_edge_id c]).
Definition non_inner spec (app : list SApplicableEdge) : list SApplicableEdge :=
  filter (fun c => candidate_type spec c <> EopLogicalInnerJoin) app.

Lemma request_loop_spec spec app request k swapped :
  Forall (valid_candidate spec) app -> k + N.of_nat (length app) < 2 ^ ULONG_BITS ->
  exists request' swapped',
    request_loop (m_sedges spec) app (request, k, swapped) =
      Some (request', k + N.of_nat (length (non_inner spec app)), swapped') /\
    (non_inner spec app = [] ->
       request' = MkRequest (rq_join_type request) (rq_swapped request) (rq_dependency_directional request)
         (rq_notin_comparison request) (rq_edge_ids request ++ (ae_edge_id <$> app)) /\ swapped' = swapped).
Proof.
  revert request k swapped. induction app as [|c app IH]; intros request k swapped Hv Hk; cbn [request_loop].
  - exists request, swapped. cbn. rewrite N.add_0_r. split; [done|]. intros _.
    rewrite app_nil_r. by destruct request.
  - apply Forall_cons in Hv as [[edge He] Hv]. cbn [length] in Hk. unfold non_inner. rewrite filter_cons.
    fold (non_inner spec app).
    assert (Ht : candidate_type spec c = m_join_type edge) by (unfold candidate_type; by rewrite He).
    rewrite He. cbn [mbind option_bind]. rewrite Ht. case_bool_decide as Hn.
    + rewrite (wrap_small ULONG_BITS) by lia.
      destruct (IH (MkRequest (m_join_type edge) (rq_swapped request) (rq_dependency_directional request)
         (m_notin_comparison edge) (rq_edge_ids request ++ [ae_edge_id c])) (k + 1) (ae_swapped c))
        as (rq' & s' & -> & _); [done|lia|].
      exists rq', s'. rewrite decide_True by done. cbn [length]. split; [|done]. do 3 f_equal. lia.
    + destruct (IH (MkRequest (rq_join_type request) (rq_swapped request) (rq_dependency_directional request)
         (rq_notin_comparison request) (rq_edge_ids request ++ [ae_edge_id c])) k swapped)
        as (rq' & s' & -> & Hin); [done|lia|].
      exists rq', s'. rewrite decide_False by (intros Hne; apply Hne; congruence). split; [done|]. intros Hnil.
      destruct (Hin Hnil) as [-> ->]. cbn. by rewrite <-(assoc_L (++)).
Qed.

Lemma non_inner_nil spec app :
  non_inner spec app = [] <-> forall c, c ∈ app -> candidate_type spec c = EopLogicalInnerJoin.
Proof.
  unfold non_inner. split.
  - intros Hnil c Hc. destruct (decide (candidate_type spec c = EopLogicalInnerJoin)) as [|Hne]; [done|].
    assert (Hin : c ∈ filter (fun c => candidate_type spec c <> EopLogicalInnerJoin) app)
      by by apply list_elem_of_filter.
    rewrite Hnil in Hin. by apply elem_of_nil in Hin.
  - intros Hall. destruct (filter _ app) as [|c l] eqn:Hf; [done|].
    assert (c ∈ filter (fun c => candidate_type spec c <> EopLogicalInnerJoin) app) as Hin
      by (rewrite Hf; left).
    apply list_elem_of_filter in Hin as [Hne Hc]. by rewrite Hall in Hne.
Qed.

Lemma omap_length_le {A B} (f : A -> option B) (l : list A) : (length (omap f l) <= length l)%nat.
Proof.
  induction l as [|x l IH]; cbn [omap list_omap]; [done|].
  change (length (omap f l) <= length l)%nat in IH. destruct (f x); cbn [length]; lia.
Qed.

Lemma applicable_valid lset rset jr spec app :
  mixed_joins jr = Some spec -> all_built spec -> ApplicableEdges lset rset jr = Some app ->
  Forall (valid_candidate spec) app /\ (length app <= length (m_sedges spec))%nat.
Proof.
  intros Hm Hall Ha. rewrite (ApplicableEdges_omap _ _ _ _ Hm Hall) in Ha. injection Ha as <-. split.
  - apply Forall_forall. intros c (id & (k & -> & Hk%elem_of_seq)%list_elem_of_fmap & Hc)%list_elem_of_omap.
    unfold applicable_edge in Hc. destruct (FPairApplicable _ _ _ _) as [[[] ?]|]; try done.
    injection Hc as <-. unfold valid_candidate. cbn [ae_edge_id]. rewrite Nat2N.id. apply lookup_lt_is_Some. lia.
  - etrans; [apply omap_length_le|]. by rewrite length_fmap, length_seq.
Qed.

(** The request a pair gets from its applicable edges and its dependencies. *)
Definition request_of spec (app : list SApplicableEdge) (sw dir : bool) (request : SJoinRequest) : Prop :=
  app <> [] /\
  (((forall c, c ∈ app -> candidate_type spec c = EopLogicalInnerJoin) /\
    request = MkRequest EopLogicalInnerJoin sw dir None (ae_edge_id <$> app)) \/
   exists id swapped edge, app = [MkApplicable id swapped] /\ (m_sedges spec).[id] = Some edge /\
     m_join_type edge <> EopLogicalInnerJoin /\
     (dir = true -> m_join_type edge <> EopLogicalFullOuterJoin -> sw = swapped) /\
     request = MkRequest (m_join_type edge)
       (if dir && bool_decide (m_join_type edge = EopLogicalFullOuterJoin) then sw else swapped)
       dir (m_notin_comparison edge) [id]).

Lemma request_of_nil spec sw dir request : ~ request_of spec [] sw dir request.
Proof. by intros [? _]. Qed.

Lemma sole_non_inner spec c sw dir request edge :
  (m_sedges spec).[ae_edge_id c] = Some edge -> m_join_type edge <> EopLogicalInnerJoin ->
  request_of spec [c] sw dir request <->
    (dir = true -> m_join_type edge <> EopLogicalFullOuterJoin -> sw = ae_swapped c) /\
    request = MkRequest (m_join_type edge)
       (if dir && bool_decide (m_join_type edge = EopLogicalFullOuterJoin) then sw else ae_swapped c)
       dir (m_notin_comparison edge) [ae_edge_id c].
Proof.
  intros He Hne. split.
  - intros [_ [[Hall _]|(id & s & e & [= ->] & He' & _ & Hdir & ->)]].
    + specialize (Hall c ltac:(left)). unfold candidate_type in Hall. by rewrite He in Hall.
    + cbn in *. rewrite He in He'. by injection He' as ->.
  - intros [Hdir ->]. split; [done|]. right. exists (ae_edge_id c), (ae_swapped c), edge. by destruct c.
Qed.

Lemma FBuildJoinRequest_spec jr spec lset rset :
  mixed_joins jr = Some spec -> all_built spec -> N.of_nat (length (m_sedges spec)) < 2 ^ ULONG_BITS ->
  exists app res, ApplicableEdges lset rset jr = Some app /\ FBuildJoinRequest lset rset jr = Some res /\
    forall request, res = Some request <->
      exists sw dir, FDependencyApplicable lset rset jr = Some (sw, dir) /\ request_of spec app sw dir request.
Proof.
  intros Hm Hall Hlen.
  destruct (ApplicableEdges lset rset jr) as [app|] eqn:Ha;
    [|by rewrite (ApplicableEdges_omap _ _ _ _ Hm Hall) in Ha].
  destruct (applicable_valid _ _ _ _ _ Hm Hall Ha) as [Hv Hl]. exists app.
  unfold FBuildJoinRequest. destruct (FDependencyApplicable lset rset jr) as [[sw dir]|] eqn:Hdep.
  2: { eexists. split_and!; [done|done|]. intros rq. split; [done|]. by intros (? & ? & ? & _). }
  assert (Hdet : forall request, (exists sw' dir', Some (sw, dir) = Some (sw', dir') /\
    request_of spec app sw' dir' request) <-> request_of spec app sw dir request) by naive_solver.
  setoid_rewrite Hdet. clear Hdet. rewrite Hm, Ha. cbn [mbind option_bind].
  case_bool_decide as Hnil.
  { subst app. eexists. split_and!; [done|done|]. intros rq. split; [done|]. by intros []%request_of_nil. }
  destruct (request_loop_spec spec app (MkRequest EopLogicalInnerJoin sw dir None []) 0 false Hv)
    as (rq & s & Hloop & Hin); [lia|].
  rewrite Hloop. cbn [mbind option_bind]. rewrite N.add_0_l.
  destruct (non_inner spec app) as [|c cs] eqn:Hni.
  - destruct (Hin eq_refl) as [-> ->]. cbn. eexists. split_and!; [done|done|]. intros request.
    pose proof (proj1 (non_inner_nil spec app) Hni) as Hinner. clear Hni Hin. rename Hinner into Hni. split.
    + intros [= <-]. split; [done|]. by left.
    + intros [_ [[_ ->]|(id & s' & e & -> & He & Hne & _)]]; [done|].
      specialize (Hni (MkApplicable id s') ltac:(left)). unfold candidate_type in Hni. cbn in Hni.
      by rewrite He in Hni.
  - assert (Hc : c ∈ non_inner spec app) by (rewrite Hni; left).
    apply list_elem_of_filter in Hc as [Hct Hc].
    replace (N.of_nat (length (c :: cs)) =? 0) with false by (symmetry; apply N.eqb_neq; simpl; lia).
    destruct app as [|c0 [|c1 app]]; [done| |].
    + apply list_elem_of_singleton in Hc as <-.
      assert (Hcs : cs = []).
      { unfold non_inner in Hni. rewrite filter_cons_True in Hni by done. by injection Hni as <-. }
      subst cs. cbn [length N.of_nat negb andb N.eqb Pos.eqb Nat.eqb].
      apply Forall_cons in Hv as [[edge He] _].
      cbn [request_loop] in Hloop. rewrite He in Hloop. cbn [mbind option_bind] in Hloop.
      assert (Hne : m_join_type edge <> EopLogicalInnerJoin).
      { unfold candidate_type in Hct. by rewrite He in Hct. }
      rewrite bool_decide_true in Hloop by done. cbn in Hloop. injection Hloop as <- <-.
      setoid_rewrite (sole_non_inner spec c sw dir _ edge He Hne). unfold set_swapped. cbn.
      destruct (bool_decide (m_join_type edge = EopLogicalFullOuterJoin)) eqn:Hfull; breflect;
        destruct dir, sw, (ae_swapped c); cbn; eexists; (split_and!; [done|done|]); naive_solver.
    + assert (negb ((N.of_nat (length (c :: cs)) =? 1) && (length (c0 :: c1 :: app) =? 1)%nat) = true) as ->.
      { apply negb_true_iff, andb_false_iff. by right. }
      cbn [negb andb]. eexists. split_and!; [done|done|]. intros request. split; [done|].
      intros [_ [[Hi _]|(id & s' & e & [=] & _)]]. by rewrite (Hi c Hc) in Hct.
Qed.

(** C36: [FBuildJoinRequest] in a region of mixed joins.  It always answers, and
    gives a join exactly when the dependencies of the pair allow one and its
    applicable edges are either all inner joins, whose predicates are then all
    taken, or a single other join, taken alone: an outer, semi or anti join never
    absorbs another predicate.  The operands are swapped as the single join
    requires, which has to agree with the direction of the dependencies unless
    the join is a full outer join. *)
Theorem FBuildJoinRequest_decides jr spec lset rset
    (Hm : mixed_joins jr = Some spec) (Hall : all_built spec)
    (Hlen : N.of_nat (length (m_sedges spec)) < 2 ^ ULONG_BITS) :
  exists app res, ApplicableEdges lset rset jr = Some app /\ FBuildJoinRequest lset rset jr = Some res /\
    forall request, res = Some request <->
      exists sw dir, FDependencyApplicable lset rset jr = Some (sw, dir) /\ request_of spec app sw dir request.
Proof. by apply FBuildJoinRequest_spec. Qed.
End requests.

(** ** The tests read their arguments as sets *)

Section extensional.
Context {BS : Type} {HB : NodeSet BS}.
Implicit Types (jr : CDPHyperJoinRegion BS).

(** Two bit sets with the same positions, whatever operations built them. *)
Definition same_set (s t : BS) : Prop := to_gset s = to_gset t.

#[export] Instance same_set_equivalence : Equivalence same_set.
Proof. split; unfold same_set; [by intros ?|by intros ?? ->|by intros ??? -> ->]. Qed.

#[export] Instance ns_Union_proper : Proper (same_set ==> same_set ==> same_set) ns_Union.
Proof. intros s s' Hs t t' Ht. unfold same_set in *. by rewrite !Union_law, Hs, Ht. Qed.
#[export] Instance ns_Get_proper : Proper (same_set ==> eq ==> eq) ns_Get.
Proof. intros s s' Hs v v' ->. rewrite !Get_law. by rewrite Hs. Qed.
#[export] Instance ns_ContainsAll_proper : Proper (same_set ==> same_set ==> eq) ns_ContainsAll.
Proof. intros s s' Hs t t' Ht. rewrite !ContainsAll_law. by rewrite Hs, Ht. Qed.
#[export] Instance ns_IsDisjoint_proper : Proper (same_set ==> same_set ==> eq) ns_IsDisjoint.
Proof. intros s s' Hs t t' Ht. rewrite !IsDisjoint_law. by rewrite Hs, Ht. Qed.

#[export] Instance keeps_sides_proper edge : Proper (same_set ==> same_set ==> eq ==> eq) (keeps_sides edge).
Proof. intros l l' Hl r r' Hr v v' ->. unfold keeps_sides. by rewrite Hl, Hr. Qed.

Lemma existsb_ext {A} (f g : A -> bool) (l : list A) : (forall x, f x = g x) -> existsb f l = existsb g l.
Proof. intros Hfg. induction l as [|x l IH]; [done|]. cbn. by rewrite Hfg, IH. Qed.

Lemma forallb_pointwise {A} (f g : A -> bool) (l : list A) : (forall x, f x = g x) -> forallb f l = forallb g l.
Proof. intros Hfg. induction l as [|x l IH]; [done|]. cbn. by rewrite Hfg, IH. Qed.

#[export] Instance FApplicable_proper edge : Proper (same_set ==> same_set ==> eq) (FApplicable edge).
Proof.
  intros l l' Hl r r' Hr. unfold FApplicable. destruct (m_tes edge) as [tes|]; [|done].
  cbn [mbind option_bind]. cbv zeta.
  assert (ns_IsDisjoint l r = ns_IsDisjoint l' r') as -> by (by rewrite Hl, Hr).
  assert (ns_ContainsAll (ns_Union l r) tes = ns_ContainsAll (ns_Union l' r') tes) as -> by (by rewrite Hl, Hr).
  assert (ns_IsDisjoint tes l = ns_IsDisjoint tes l') as -> by (by rewrite Hl).
  assert (ns_IsDisjoint tes r = ns_IsDisjoint tes r') as -> by (by rewrite Hr).
  rewrite (existsb_ext _ (fun rule => negb (ns_IsDisjoint (ns_Union l' r') (m_activate rule)) &&
    negb (ns_ContainsAll (ns_Union l' r') (m_required rule))));
    [|intros rule; by rewrite Hl, Hr].
  rewrite (forallb_pointwise _ (keeps_sides edge l' r')); [done|]. intros v. by rewrite Hl, Hr.
Qed.

Lemma dependency_loop_ext (l l' r r' j j' : BS) deps node acc :
  same_set l l' -> same_set r r' -> same_set j j' ->
  dependency_loop l r j deps node acc = dependency_loop l' r' j' deps node acc.
Proof.
  intros Hl Hr Hj. revert node acc. induction deps as [|D deps IH]; intros node acc; cbn [dependency_loop]; [done|].
  assert (ns_Get j node = ns_Get j' node) as -> by (by rewrite Hj).
  case_if; [apply IH|].
  assert (dependency_node l r j node D acc = dependency_node l' r' j' node D acc) as ->.
  { unfold dependency_node, same_set in *. destruct acc. ns_simpl. by rewrite Hl, Hr, Hj. }
  destruct (dependency_node l' r' j' node D acc); [apply IH|done].
Qed.

#[export] Instance FDependencyApplicable_proper :
  Proper (same_set ==> same_set ==> eq ==> eq) FDependencyApplicable.
Proof.
  intros l l' Hl r r' Hr jr jr' ->. unfold FDependencyApplicable. destruct (m_spec jr'); [|done].
  case_if; [|done]. apply dependency_loop_ext; [done..|]. by rewrite Hl, Hr.
Qed.

#[export] Instance FPairApplicable_proper :
  Proper (same_set ==> same_set ==> eq ==> eq ==> eq) FPairApplicable.
Proof.
  intros l l' Hl r r' Hr e e' -> jr jr' ->. unfold FPairApplicable. rewrite Hl, Hr.
  destruct (FDependencyApplicable l' r' jr'); [|done]. destruct (mixed_joins jr'); [|done].
  destruct ((m_sedges _).[e']) as [edge|]; [|done]. cbn [mbind option_bind].
  by rewrite (FApplicable_proper edge l l' Hl r r' Hr), (FApplicable_proper edge r r' Hr l l' Hl).
Qed.

Lemma applicable_loop_ext (l l' r r' : BS) ids jr :
  same_set l l' -> same_set r r' -> applicable_loop l r ids jr = applicable_loop l' r' ids jr.
Proof.
  intros Hl Hr. induction ids as [|id ids IH]; cbn [applicable_loop]; [done|]. rewrite Hl, Hr.
  by rewrite IH.
Qed.

#[export] Instance FBuildJoinRequest_proper : Proper (same_set ==> same_set ==> eq ==> eq) FBuildJoinRequest.
Proof.
  intros l l' Hl r r' Hr jr jr' ->. unfold FBuildJoinRequest. rewrite Hl, Hr.
  destruct (FDependencyApplicable l' r' jr') as [[sw dir]|]; [|done].
  destruct (mixed_joins jr') as [spec|] eqn:Hm; [|done]. unfold ApplicableEdges. rewrite Hm.
  by rewrite (applicable_loop_ext l l' r r') by done.
Qed.
End extensional.

(** ** The cuts of the original tree *)

Section cuts.
Context {BS CS : Type} {HB : NodeSet BS} {HC : NodeSet CS} {HD : DerivedProps CS} {HP : PredicateOps}.
Implicit Types (jr : CDPHyperJoinRegion BS) (lset rset : BS) (spec : CJoinRegionSpec BS)
  (root : CExpression) (edge : CEdge BS) (d : edge_data).

(** Of two joins of a tree, one lies in one side of the other, or they share no
    node. *)
Definition within_side d1 d2 : Prop := d_all d1 ⊆ d_left d2 \/ d_all d1 ⊆ d_right d2.
Definition nested d1 d2 : Prop := within_side d1 d2 \/ within_side d2 d1 \/ d_all d1 ## d_all d2.

Lemma nested_sym d1 d2 : nested d1 d2 -> nested d2 d1.
Proof. intros [?|[?|?]]; [right; by left|by left|right; by right]. Qed.

(** [R] between any two elements at different positions. *)
Definition pairwise {A} (R : A -> A -> Prop) (l : list A) : Prop :=
  forall i j x y, l !! i = Some x -> l !! j = Some y -> i <> j -> R x y.

Lemma pairwise_app {A} (R : A -> A -> Prop) (l1 l2 : list A) :
  (forall x y, R x y -> R y x) -> pairwise R l1 -> pairwise R l2 ->
  (forall x y, x ∈ l1 -> y ∈ l2 -> R x y) -> pairwise R (l1 ++ l2).
Proof.
  intros Hsym H1 H2 H12 i j x y Hi Hj Hij.
  apply lookup_app_Some in Hi as [Hi|[Hil Hi]]; apply lookup_app_Some in Hj as [Hj|[Hjl Hj]].
  - by eapply H1.
  - apply H12; by eapply list_elem_of_lookup_2.
  - apply Hsym, H12; by eapply list_elem_of_lookup_2.
  - apply (H2 (i - length l1)%nat (j - length l1)%nat); [done|done|lia].
Qed.

Lemma tree_edges_nested t a : pairwise nested (tree_edges t a).
Proof.
  revert a. induction t as [e|op p c t1 IH1 t2 IH2]; intros a; cbn [tree_edges].
  { intros i j x y Hi. by rewrite lookup_nil in Hi. }
  pose proof (tree_edges_ok t1 a) as Hok1. pose proof (tree_edges_ok t2 (a + width t1)) as Hok2.
  rewrite Forall_forall in Hok1. rewrite Forall_forall in Hok2.
  apply pairwise_app; [exact nested_sym|apply IH1|apply pairwise_app; [exact nested_sym|apply IH2| |]|].
  - intros [|i] [|j] x y Hi Hj Hij; simpl in *; try done; by rewrite lookup_nil in *.
  - intros x y Hx ->%list_elem_of_singleton. left. right. apply (Hok2 x Hx).
  - intros x y Hx [Hy| ->%list_elem_of_singleton]%elem_of_app.
    + right. right. pose proof (do_range _ _ _ (Hok1 x Hx)) as Hrx. pose proof (do_range _ _ _ (Hok2 y Hy)) as Hry.
      pose proof (span_disjoint a (a + width t1) (a + width t1 + width t2)) as Hsd.
      clear -Hrx Hry Hsd. set_solver.
    + left. left. apply (Hok1 x Hx).
Qed.

(** Predicates that use only atoms of their own subtree, as a normalized join
    tree has them. *)
Definition local_predicates spec : Prop :=
  Forall (fun edge => exists ses, m_ses edge = Some ses /\ to_gset ses ⊆ to_gset (m_all edge)) (m_sedges spec).

(** An edge with local predicate whose eligibility set meets both its sides. *)
Record local_edge edge (tes : BS) : Prop := {
  le_tes : m_tes edge = Some tes;
  le_within : to_gset tes ⊆ to_gset (m_eleft edge) ∪ to_gset (m_eright edge);
  le_left : ~ to_gset tes ## to_gset (m_eleft edge);
  le_right : ~ to_gset tes ## to_gset (m_eright edge);
  le_disjoint : to_gset (m_eleft edge) ## to_gset (m_eright edge)
}.

Lemma local_edge_spec root spec i edge :
  Build (BS := BS) (CS := CS) root CJoinRegionSpec_New = Some (true, spec) ->
  m_cdc_supported spec = true -> local_predicates spec -> m_sedges spec !! i = Some edge ->
  exists tes, local_edge edge tes.
Proof.
  intros HB' Hcdc Hloc Hi. apply Build_built in HB' as Hbr.
  eapply Forall_lookup_1 in Hloc as (ses & Hses & Hin); [|exact Hi].
  destruct (built_edge _ _ _ _ Hbr Hcdc Hi) as (edge0 & R & rs & tes & Hok & Hel).
  pose proof (eligible_tes_meets _ _ _ _ _ _ _ _ Hok Hel) as [Hml Hmr].
  pose proof (eg_edge _ _ _ _ _ _ _ Hel) as ->. cbn in *. injection Hses as <-.
  exists tes. split; cbn; [done| |done|done|apply Hok]. rewrite <-(ek_all _ _ Hok).
  eapply eligible_tes_within; [exact Hel|done|done|apply Hok].
Qed.

(** A nested edge does not apply to the cut of another one. *)
Lemma nested_inapplicable d1 d2 (e1 e2 : CEdge BS) (tes : BS) lset rset :
  nested d1 d2 -> edge_matches d1 e1 -> edge_matches d2 e2 -> local_edge e2 tes ->
  to_gset lset ∪ to_gset rset = d_all d1 ->
  (to_gset lset = d_left d1 /\ to_gset rset = d_right d1) \/
    (to_gset lset = d_right d1 /\ to_gset rset = d_left d1) ->
  d_left d1 ## d_right d1 -> FApplicable e2 lset rset = Some false.
Proof.
  intros Hn M1 M2 [Ht Hw Hl Hr Hd] Hu Hsides Hd1. unfold FApplicable. rewrite Ht. cbn [mbind option_bind].
  rewrite (em_left _ _ M2), (em_right _ _ M2) in *.
  ns_simpl. rewrite Hu. case_bool_decide; cbn [negb]; [|done].
  case_bool_decide as Hin; cbn [negb orb]; [|done].
  case_bool_decide as Hml; cbn [orb]; [done|]. case_bool_decide as Hmr; [done|]. exfalso.
  change (d_left d2 ∪ d_right d2) with (d_all d2) in Hw. unfold nested, within_side in Hn.
  destruct Hn as [[Hn|Hn]|[[Hn|Hn]|Hn]].
  - apply Hr. clear -Hin Hn Hd. set_solver.
  - apply Hl. clear -Hin Hn Hd. set_solver.
  - clear -Hw Hn Hml Hmr Hsides Hd1. destruct Hsides as [[HL HR]|[HL HR]]; rewrite HL, HR in *; [apply Hmr|apply Hml]; set_solver.
  - clear -Hw Hn Hml Hmr Hsides Hd1. destruct Hsides as [[HL HR]|[HL HR]]; rewrite HL, HR in *; [apply Hml|apply Hmr]; set_solver.
  - apply Hl. clear -Hin Hn Hw. set_solver.
Qed.

Lemma omap_none {A B} (f : A -> option B) (l : list A) : (forall z, z ∈ l -> f z = None) -> omap f l = [].
Proof.
  induction l as [|z l IH]; intros Hz; cbn [omap list_omap]; [done|].
  rewrite (Hz z ltac:(left)). apply IH. intros w Hw. apply Hz. by right.
Qed.

Lemma omap_singleton `{EqDecision A} {B} (f : A -> option B) (l : list A) x y :
  NoDup l -> x ∈ l -> f x = Some y -> (forall z, z ∈ l -> z <> x -> f z = None) -> omap f l = [y].
Proof.
  intros Hnd Hx Hf Hz. induction l as [|z l IH]; [by apply elem_of_nil in Hx|].
  apply NoDup_cons in Hnd as [Hn Hnd]. cbn [omap list_omap].
  destruct (decide (z = x)) as [->|Hne].
  - rewrite Hf. f_equal. apply omap_none. intros w Hw. apply Hz; [by right|]. by intros ->.
  - rewrite (Hz z ltac:(left) Hne). apply elem_of_cons in Hx as [->|Hx]; [done|].
    apply IH; [done|done|]. intros u Hu. apply Hz. by right.
Qed.

(** The edges that apply to an original cut: the original join alone. *)
Lemma original_cut_edges root spec jr i edge sw dir :
  Build (BS := BS) (CS := CS) root CJoinRegionSpec_New = Some (true, spec) ->
  mixed_joins jr = Some spec -> m_cdc_supported spec = true -> local_predicates spec ->
  m_sedges spec !! i = Some edge ->
  FDependencyApplicable (m_eleft edge) (m_eright edge) jr = Some (sw, dir) ->
  ApplicableEdges (m_eleft edge) (m_eright edge) jr = Some [MkApplicable (N.of_nat i) false].
Proof.
  intros HB' Hm Hcdc Hloc Hi Hdep. pose proof (all_built_spec root spec HB' Hcdc) as Hall.
  rewrite (ApplicableEdges_omap _ _ _ _ Hm Hall). f_equal.
  pose proof (Build_built _ _ HB') as Hbr. pose proof (built_matches _ _ Hbr) as Hmt.
  destruct (Forall2_lookup_r _ _ _ _ _ Hmt Hi) as (d & Hdi & Hde).
  eapply omap_singleton.
  - apply sorted_lt_NoDup, seq_sorted.
  - apply list_elem_of_fmap. exists i. split; [done|]. apply elem_of_seq. apply lookup_lt_Some in Hi. lia.
  - unfold applicable_edge, FPairApplicable. rewrite Hdep, Hm, Nat2N.id, Hi. cbn [mbind option_bind].
    pose proof Hloc as Hloc'. eapply Forall_lookup_1 in Hloc' as (ses & Hses & Hin); [|exact Hi].
    rewrite (original_join_applicable root spec i edge ses HB' Hcdc Hi Hses Hin). done.
  - intros z (j & -> & Hj%elem_of_seq)%list_elem_of_fmap Hne.
    destruct (lookup_lt_is_Some_2 (m_sedges spec) j) as [edge2 Hi2]; [lia|].
    destruct (Forall2_lookup_r _ _ _ _ _ Hmt Hi2) as (d2 & Hdi2 & Hde2).
    destruct (local_edge_spec root spec j edge2 HB' Hcdc Hloc Hi2) as [tes Hle].
    assert (Hnest : nested d d2) by (eapply (tree_edges_nested _ _ i j); [done|done|congruence]).
    assert (Hdd : d_left d ## d_right d).
    { pose proof (tree_edges_ok (region_of root) 0) as Hok. eapply Forall_lookup_1 in Hok; [|exact Hdi]. apply Hok. }
    unfold applicable_edge, FPairApplicable. rewrite Hdep, Hm, Nat2N.id, Hi2. cbn [mbind option_bind].
    rewrite (nested_inapplicable d d2 edge edge2 tes (m_eleft edge) (m_eright edge)) by
      (first [done|unfold d_all; by rewrite (em_left _ _ Hde), (em_right _ _ Hde)|
              left; split; apply Hde]).
    cbn [mbind option_bind].
    rewrite (nested_inapplicable d d2 edge edge2 tes (m_eright edge) (m_eleft edge)) by
      (first [done|unfold d_all; rewrite (em_left _ _ Hde), (em_right _ _ Hde); apply (comm_L (∪))|
              right; split; apply Hde]).
    done.
Qed.

(** The joins whose operands may be exchanged. *)
Definition commutes (op_id : EOperatorId) : Prop := op_id = EopLogicalInnerJoin \/ op_id = EopLogicalFullOuterJoin.
#[local] Instance commutes_dec op_id : Decision (commutes op_id).
Proof. unfold commutes. apply _. Defined.

(** The request for an original join: its type, its predicate alone, its NOT IN
    comparison. *)
Definition original_request (i : nat) edge (swapped dir : bool) : SJoinRequest :=
  MkRequest (m_join_type edge) swapped dir
    (if decide (m_join_type edge = EopLogicalInnerJoin) then None else m_notin_comparison edge)
    [N.of_nat i].

(** The answer for its two sides, by what the lateral references ask for: none
    when they cannot be evaluated, or when they ask to exchange the operands of a
    join that does not commute. *)
Definition original_answer (i : nat) edge (dependency : option (bool * bool)) : option SJoinRequest :=
  match dependency with
  | None => None
  | Some (sw, dir) =>
      if decide (commutes (m_join_type edge)) then Some (original_request i edge sw dir)
      else if sw then None else Some (original_request i edge false dir)
  end.

(** Operands are exchanged only where a reference asks for it. *)
Lemma dependency_loop_directional (left right joined : BS) ds node acc sw dir :
  (acc.1 = true -> acc.2 = true) -> dependency_loop left right joined ds node acc = Some (sw, dir) ->
  sw = true -> dir = true.
Proof.
  revert node acc. induction ds as [|required ds IH]; intros node [sw0 dir0] Hacc; cbn [dependency_loop].
  { by intros [= <- <-]. }
  case_if; [by apply IH|]. destruct (dependency_node _ _ _ _ _ _) as [[sw1 dir1]|] eqn:Hn; [|done].
  cbn [mbind option_bind]. apply IH. unfold dependency_node in Hn. cbv zeta in Hn.
  repeat match type of Hn with context [if ?b then _ else _] => destruct b end; by simplify_eq.
Qed.

Lemma FDependencyApplicable_directional jr lset rset sw dir :
  FDependencyApplicable lset rset jr = Some (sw, dir) -> sw = true -> dir = true.
Proof.
  unfold FDependencyApplicable. destruct (m_spec jr) as [spec|]; [case_if|]; [|by intros [= <- <-]..].
  by apply dependency_loop_directional.
Qed.

Lemma original_cut_built root spec jr i edge :
  Build (BS := BS) (CS := CS) root CJoinRegionSpec_New = Some (true, spec) ->
  mixed_joins jr = Some spec -> m_cdc_supported spec = true -> local_predicates spec ->
  m_sedges spec !! i = Some edge ->
  FBuildJoinRequest (m_eleft edge) (m_eright edge) jr =
    Some (original_answer i edge (FDependencyApplicable (m_eleft edge) (m_eright edge) jr)).
Proof.
  intros HB' Hm Hcdc Hloc Hi. unfold FBuildJoinRequest, original_answer.
  destruct (FDependencyApplicable _ _ jr) as [[sw dir]|] eqn:Hdep; [|done].
  pose proof (FDependencyApplicable_directional jr _ _ sw dir Hdep) as Hdir.
  rewrite Hm, (original_cut_edges root spec jr i edge sw dir HB' Hm Hcdc Hloc Hi Hdep). cbn [mbind option_bind].
  rewrite bool_decide_false by done. cbn [request_loop ae_edge_id]. rewrite Nat2N.id, Hi.
  cbn [mbind option_bind]. unfold original_request.
  case_bool_decide as Hn; cbn.
  - rewrite (decide_False (P := m_join_type edge = EopLogicalInnerJoin)) by done.
    destruct (decide (commutes (m_join_type edge))) as [[?|Hf]|Hc]; [done| |].
    + rewrite bool_decide_true by done. cbn. rewrite andb_false_r. unfold set_swapped. cbn.
      destruct dir, sw; try done. by specialize (Hdir eq_refl).
    + rewrite (bool_decide_false (m_join_type edge = EopLogicalFullOuterJoin)) by (intros ?; apply Hc; by right).
      unfold set_swapped. cbn. destruct dir, sw; try done. by specialize (Hdir eq_refl).
  - assert (m_join_type edge = EopLogicalInnerJoin) as -> by (destruct (decide (m_join_type edge = EopLogicalInnerJoin)); naive_solver).
    done.
Qed.

(** C32: A region of mixed joins whose predicates use only atoms of their own
    subtrees reproduces its query.  For the two sides of an original join only that
    join applies.  The answer is the original join: its type, its own predicate and
    no other, its NOT IN comparison, its operands in their order, or exchanged when
    the left one refers to the right one and the join commutes.  There is none when
    the references cannot be evaluated, or would exchange the operands of a join
    that does not commute. *)
Theorem original_cut_request root spec jr i edge
    (HB' : Build (BS := BS) (CS := CS) root CJoinRegionSpec_New = Some (true, spec))
    (Hm : mixed_joins jr = Some spec) (Hcdc : m_cdc_supported spec = true) (Hloc : local_predicates spec)
    (Hi : m_sedges spec !! i = Some edge) :
  let dependency := FDependencyApplicable (m_eleft edge) (m_eright edge) jr in
  (is_Some dependency ->
     ApplicableEdges (m_eleft edge) (m_eright edge) jr = Some [MkApplicable (N.of_nat i) false]) /\
  FBuildJoinRequest (m_eleft edge) (m_eright edge) jr = Some (original_answer i edge dependency) /\
  forall request, original_answer i edge dependency = Some request ->
    PexprRequestPredicate request jr = Some (PexprConjunction [m_predicate edge]).
Proof.
  intros dependency. split_and!.
  - intros [[sw dir] Hdep]. by eapply original_cut_edges.
  - by eapply original_cut_built.
  - intros request Hr. assert (rq_edge_ids request = [N.of_nat i]) as Hids.
    { unfold original_answer in Hr. destruct dependency as [[[] dir]|]; [| |done];
        destruct (decide _); simplify_eq; done. }
    unfold PexprRequestPredicate. rewrite Hids. cbn [mapM].
    unfold mixed_joins in Hm. destruct (m_spec jr) as [s|]; [|done].
    destruct (negb _); [|done]. injection Hm as ->. cbn [mbind option_bind].
    by rewrite Nat2N.id, Hi.
Qed.
End cuts.

(** ** Every conjunct is applied once *)

(** A join order: a binary tree over the nodes. *)
Inductive join_order :=
| JNode (v : N)
| JPair (l r : join_order).

Fixpoint order_nodes (t : join_order) : gset N :=
  match t with JNode v => {[v]} | JPair l r => order_nodes l ∪ order_nodes r end.

Fixpoint order_wf (t : join_order) : Prop :=
  match t with
  | JNode _ => True
  | JPair l r => order_wf l /\ order_wf r /\ order_nodes l ## order_nodes r
  end.

Section filters.
Context {A : Type}.

(** Three exclusive filters give the elements of their union. *)
Lemma filter_three (P P1 P2 P3 : A -> Prop) `{!forall x, Decision (P x), !forall x, Decision (P1 x),
    !forall x, Decision (P2 x), !forall x, Decision (P3 x)} (l : list A) :
  (forall x, x ∈ l -> P x <-> P1 x \/ P2 x \/ P3 x) ->
  (forall x, x ∈ l -> ~ (P1 x /\ P2 x) /\ ~ (P1 x /\ P3 x) /\ ~ (P2 x /\ P3 x)) ->
  filter P1 l ++ filter P2 l ++ filter P3 l ≡ₚ filter P l.
Proof.
  induction l as [|x l IH]; intros Hor Hex; [done|].
  assert (IH' : filter P1 l ++ filter P2 l ++ filter P3 l ≡ₚ filter P l).
  { apply IH; intros y Hy; [apply Hor|apply Hex]; by right. }
  specialize (Hor x ltac:(left)). specialize (Hex x ltac:(left)). rewrite !filter_cons.
  destruct (decide (P1 x)), (decide (P2 x)), (decide (P3 x)), (decide (P x)); try tauto; rewrite <-IH'.
  - done.
  - cbn [app]. by rewrite <-Permutation_middle.
  - rewrite (assoc_L (++)), <-Permutation_middle. by rewrite <-(assoc_L (++)).
Qed.

Lemma filter_none (P : A -> Prop) `{!forall x, Decision (P x)} (l : list A) :
  (forall x, x ∈ l -> ~ P x) -> filter P l = [].
Proof.
  induction l as [|x l IH]; intros Hn; [done|].
  rewrite filter_cons_False by (apply Hn; left). apply IH. intros y Hy. apply Hn. by right.
Qed.

Lemma filter_every (l : list A) : filter (fun _ => True) l = l.
Proof. induction l as [|x l IH]; [done|]. rewrite filter_cons_True by done. by rewrite IH. Qed.

Lemma mapM_lookup_seq (l : list A) : mapM (fun i => l !! i) (seq 0 (length l)) = Some l.
Proof.
  apply mapM_Some. apply Forall2_same_length_lookup. split; [by rewrite length_seq|].
  intros i x y Hx Hy. apply lookup_seq in Hx as [-> _]. done.
Qed.
End filters.

Section order.
Context {BS CS : Type} {HB : NodeSet BS} {HC : NodeSet CS} {HD : DerivedProps CS} {HP : PredicateOps}.
Implicit Types (jr : CDPHyperJoinRegion BS) (t : join_order).

Fixpoint order_set t : BS :=
  match t with
  | JNode v => (ns_ExchangeSet ns_empty v).1
  | JPair l r => ns_Union (order_set l) (order_set r)
  end.

(** The conjuncts on all joins of an order: those that [PexprPredicate] selects
    for each pair, the residual ones at the root. *)
Fixpoint order_conjuncts t (include_residual : bool) jr : option (list CExpression) :=
  match t with
  | JNode _ => Some []
  | JPair l r =>
      ls ← order_conjuncts l false jr;
      rs ← order_conjuncts r false jr;
      own ← pair_conjuncts (order_set l) (order_set r) include_residual jr;
      Some (ls ++ rs ++ own)
  end.

Lemma order_set_law t : to_gset (order_set t) = order_nodes t.
Proof.
  induction t as [v|l IHl r IHr]; cbn [order_set order_nodes].
  - rewrite ExchangeSet_law, empty_law. set_solver.
  - by rewrite Union_law, IHl, IHr.
Qed.

(** A conjunct on at least two nodes, all of them in [X]. *)
Definition joins_in (X : gset N) (z : CExpression * BS) : Prop :=
  to_gset z.2 ⊆ X /\ (1 < size (to_gset z.2))%nat.

#[local] Instance joins_in_dec X z : Decision (joins_in X z).
Proof. unfold joins_in. apply _. Defined.

Lemma joins_in_union t1 t2 (z : CExpression * BS) :
  order_nodes t1 ## order_nodes t2 ->
  (joins_in (order_nodes t1 ∪ order_nodes t2) z <->
     joins_in (order_nodes t1) z \/ joins_in (order_nodes t2) z \/
     crossing (order_set t1) (order_set t2) z.2 = true) /\
  ~ (joins_in (order_nodes t1) z /\ joins_in (order_nodes t2) z) /\
  ~ (joins_in (order_nodes t1) z /\ crossing (order_set t1) (order_set t2) z.2 = true) /\
  ~ (joins_in (order_nodes t2) z /\ crossing (order_set t1) (order_set t2) z.2 = true).
Proof.
  intros Hd. pose proof (crossing_size (order_set t1) (order_set t2) z.2) as Hsize.
  rewrite Size_law in Hsize. rewrite crossing_spec in *. rewrite !order_set_law in *. unfold joins_in.
  set (X := order_nodes t1) in *. set (Y := order_nodes t2) in *. set (c := to_gset z.2) in *.
  split_and!.
  - split.
    + intros [Hc Hs]. destruct (decide (X ## c)) as [Hx|Hx].
      * right. left. split; [|done]. clear -Hc Hx. set_solver.
      * destruct (decide (Y ## c)) as [Hy|Hy]; [left; split; [|done]; clear -Hc Hy; set_solver|].
        right. right. done.
    + intros [[Hc Hs]|[[Hc Hs]|Hx]]; [split; [clear -Hc; set_solver|done]..|].
      specialize (Hsize Hd Hx). split; [apply Hx|]. apply N.ltb_lt in Hsize. lia.
  - intros [[H1 Hs] [H2 _]]. assert (c = ∅) as He by (clear -H1 H2 Hd; set_solver).
    rewrite He, size_empty in Hs. lia.
  - intros [[H1 _] (_ & _ & H2)]. apply H2. clear -H1 Hd. set_solver.
  - intros [[H1 _] (_ & H2 & _)]. apply H2. clear -H1 Hd. set_solver.
Qed.

(** The conjuncts of the joins below a node: those over two of its nodes. *)
Lemma order_conjuncts_inner t jr :
  length (m_predicate_covers jr) = length (m_conjuncts jr) -> order_wf t ->
  exists l, order_conjuncts t false jr = Some l /\
    l ≡ₚ fst <$> filter (joins_in (order_nodes t)) (zip (m_conjuncts jr) (m_predicate_covers jr)).
Proof.
  intros Hlen. induction t as [v|t1 IH1 t2 IH2]; intros Hwf; cbn [order_conjuncts order_nodes].
  - exists []. split; [done|]. rewrite filter_none; [done|]. intros z _ [Hs Hz]. apply subseteq_size in Hs. rewrite size_singleton in Hs. lia.
  - destruct Hwf as (Hw1 & Hw2 & Hd). destruct (IH1 Hw1) as (l1 & -> & Hl1). destruct (IH2 Hw2) as (l2 & -> & Hl2).
    cbn [mbind option_bind]. unfold pair_conjuncts. rewrite <-Hlen, mapM_lookup_seq.
    cbn [mbind option_bind]. eexists. split; [done|]. rewrite Hl1, Hl2, <-!fmap_app. apply fmap_Permutation.
    rewrite <-(filter_three (joins_in (order_nodes t1 ∪ order_nodes t2)) (joins_in (order_nodes t1))
      (joins_in (order_nodes t2)) (fun z => crossing (order_set t1) (order_set t2) z.2 = true)).
    + do 2 f_equiv. apply reflexive_eq, list_filter_iff. intros [e c]. cbn. by rewrite orb_false_r.
    + intros z _. by apply joins_in_union.
    + intros z _. by apply joins_in_union.
Qed.

Lemma fst_zip_same {A B} (l : list A) (k : list B) : length k = length l -> fst <$> zip l k = l.
Proof. intros Hl. apply fst_zip. by rewrite Hl. Qed.

Lemma order_pair t (n : nat) :
  order_nodes t = span 0 n -> (2 <= n)%nat -> exists l r, t = JPair l r.
Proof.
  destruct t as [v|l r]; [|by intros; exists l, r]. cbn. intros Hs Hn.
  assert (Hsize : size (span 0 n) = 1%nat) by (by rewrite <-Hs, size_singleton).
  rewrite size_span in Hsize. lia.
Qed.

(** C33: No predicate is lost or applied twice.  In any join order over all nodes
    of a region of inner joins, the predicates that [PexprPredicate] puts on the
    joins, with the residual ones (on fewer than two nodes) on the last join, are
    together exactly the conjuncts of the region, each as often as it occurs. *)
Theorem conjuncts_applied_once jr jr' t
    (Hok : region_ok jr) (Hm : mixed_joins jr = None) (HB' : BuildRegion jr = Some (true, jr'))
    (Hn : (2 <= length (m_components jr))%nat) (Hwf : order_wf t)
    (Ht : order_nodes t = span 0 (length (m_components jr))) :
  exists l, order_conjuncts t true jr' = Some l /\ l ≡ₚ m_conjuncts jr.
Proof.
  destruct (built_inner jr jr' Hok Hm HB') as (cs & Hb & Hcv & _).
  assert (Hconj : m_conjuncts jr' = m_conjuncts jr) by (pose proof (rb_static _ _ _ _ Hb) as Hs; by injection Hs).
  assert (Hlen : length (m_predicate_covers jr') = length (m_conjuncts jr')).
  { rewrite Hcv, Hconj. apply length_fmap. }
  destruct (order_pair t _ Ht Hn) as (t1 & t2 & ->). destruct Hwf as (Hw1 & Hw2 & Hd).
  cbn [order_conjuncts order_nodes] in *.
  destruct (order_conjuncts_inner t1 jr' Hlen Hw1) as (l1 & -> & Hl1).
  destruct (order_conjuncts_inner t2 jr' Hlen Hw2) as (l2 & -> & Hl2).
  cbn [mbind option_bind]. unfold pair_conjuncts. rewrite <-Hlen, mapM_lookup_seq.
  cbn [mbind option_bind]. eexists. split; [done|]. rewrite Hl1, Hl2, <-!fmap_app.
  transitivity (fst <$> zip (m_conjuncts jr') (m_predicate_covers jr')).
  2: { by rewrite fst_zip_same, Hconj by done. }
  apply fmap_Permutation. set (Z := zip _ _).
  assert (Hall : forall z, z ∈ Z -> to_gset z.2 ⊆ order_nodes t1 ∪ order_nodes t2).
  { intros [e c] Hz%elem_of_zip_r. rewrite Hcv in Hz. apply list_elem_of_fmap in Hz as (e' & -> & _).
    rewrite Ht. apply PbsPredicateCover_range. }
  transitivity (filter (fun _ => True) Z); [|by rewrite filter_every].
  rewrite <-(filter_three (fun _ => True) (joins_in (order_nodes t1)) (joins_in (order_nodes t2))
    (fun z => crossing (order_set t1) (order_set t2) z.2 || (true && (ns_Size z.2 <? 2)) = true)).
  - do 2 f_equiv. apply reflexive_eq, list_filter_iff. by intros [e c].
  - intros z Hz. pose proof (joins_in_union t1 t2 z Hd) as (Hu & _).
    rewrite orb_true_iff, Size_law. cbn [andb]. rewrite N.ltb_lt.
    split; [|done]. intros _. destruct (decide (1 < size (to_gset z.2))%nat) as [Hs|Hs]; [|right; right; right; lia].
    assert (joins_in (order_nodes t1 ∪ order_nodes t2) z) as Hj by (split; [by apply Hall|done]).
    apply Hu in Hj. tauto.
  - intros z Hz. pose proof (joins_in_union t1 t2 z Hd) as (_ & H12 & H13 & H23).
    rewrite orb_true_iff, Size_law. cbn [andb]. rewrite N.ltb_lt.
    assert (Hbig : forall X, joins_in X z -> (1 < size (to_gset z.2))%nat) by (by intros X [_ ?]).
    split_and!; [done| |].
    + intros [Hj [Hc|Hs]]; [by apply H13|]. pose proof (Hbig _ Hj). lia.
    + intros [Hj [Hc|Hs]]; [by apply H23|]. pose proof (Hbig _ Hj). lia.
Qed.
End order.

(** ** Regions ready to be enumerated *)

Section ready.
Context {BS CS : Type} {HB : NodeSet BS} {HC : NodeSet CS} {HD : DerivedProps CS} {HP : PredicateOps}.
Implicit Types (region : CDPHyperJoinRegion BS) (spec : CJoinRegionSpec BS) (root : CExpression).

(** A region ready to be enumerated, over [n] atoms. *)
Record region_ready (n : nat) region : Prop := {
  ry_size : length (m_components region) = n /\ (2 <= n)%nat;
  ry_wf : graph_wf (m_graph region);
  ry_nodes : NodeCount (m_graph region) = N.of_nat n;
  ry_spec : forall spec, m_spec region = Some spec ->
    (exists t, built_region t spec) /\ length (m_atoms spec) = n /\
    (m_pure_inner spec = false -> all_built spec) /\
    N.of_nat (length (m_sedges spec)) < 2 ^ ULONG_BITS;
  ry_covers : mixed_joins region = None -> length (m_predicate_covers region) = length (m_conjuncts region)
}.

Lemma mixed_spec region spec :
  mixed_joins region = Some spec -> m_spec region = Some spec /\ m_pure_inner spec = false.
Proof.
  unfold mixed_joins. destruct (m_spec region) as [s|]; [|done].
  destruct (m_pure_inner s) eqn:Hp; [done|]. by intros [= ->].
Qed.

Lemma FBuildJoinRequest_total n region l r :
  region_ready n region -> is_Some (FBuildJoinRequest l r region).
Proof.
  intros Hr. destruct (mixed_joins region) as [spec|] eqn:Hm.
  - destruct (mixed_spec region spec Hm) as [Hs Hp]. destruct (ry_spec _ _ Hr spec Hs) as (_ & _ & Hall & Hlen).
    destruct (FBuildJoinRequest_spec region spec l r Hm (Hall Hp) Hlen) as (app & res & _ & -> & _). by eexists.
  - unfold FBuildJoinRequest. rewrite Hm. destruct (FDependencyApplicable l r region) as [[? ?]|]; by eexists.
Qed.

Lemma built_ready root spec edge_budget region :
  Build (BS := BS) (CS := CS) root CJoinRegionSpec_New = Some (true, spec) ->
  m_cdc_supported spec = true -> edge_budget < 2 ^ ULONG_BITS ->
  N.of_nat (length (m_atoms spec)) < 2 ^ ULONG_BITS ->
  BuildRegion (CDPHyperJoinRegion_FromSpec spec edge_budget) = Some (true, region) ->
  region_ready (length (m_atoms spec)) region.
Proof.
  intros HB' Hcdc Hbud Hn Hbuild. pose proof (FromSpec_region_ok (CS := CS) root spec edge_budget HB'
    (or_intror Hcdc) Hbud) as Hok.
  destruct (BuildRegion_spec (CDPHyperJoinRegion_FromSpec spec edge_budget) Hok) as (want & ok & jr2 & _ & Hk & Hb).
  rewrite Hbuild in Hk. injection Hk as <- <-.
  pose proof (all_built_spec root spec HB' Hcdc) as Hall. apply Build_built in HB' as Hbr.
  pose proof (rb_static _ _ _ _ Hb) as [= Hcomp Hconj _ Hspec _].
  assert (Hlen : length (m_sedges spec) = (length (m_atoms spec) - 1)%nat).
  { rewrite <-(Forall2_length _ _ _ (built_matches _ _ Hbr)), length_tree_edges. by rewrite (br_atoms _ _ Hbr). }
  split.
  - rewrite Hcomp. split; [done|]. destruct (Build_root root spec HB') as (op & p & c & t1 & t2 & Ht).
    rewrite (br_atoms _ _ Hbr), Ht. change (2 <= width (RJoin op p c t1 t2))%nat. rewrite width_join.
    pose proof (width_pos t1). pose proof (width_pos t2). lia.
  - apply Hb.
  - apply Hb.
  - rewrite Hspec. intros s [= <-]. split_and!; [by eexists|done|done|lia].
  - intros Hm. assert (Hm0 : mixed_joins (CDPHyperJoinRegion_FromSpec spec edge_budget) = None).
    { unfold mixed_joins in *. by rewrite Hspec in Hm. }
    destruct (built_inner _ region Hok Hm0 Hbuild) as (cs & _ & Hcv & _).
    rewrite Hcv, Hconj. apply length_fmap.
Qed.
End ready.

(** ** Witnesses *)

Definition sample_result : CDPHyperJoinRegion (gset N) := default (sample_list 9) (snd <$> sample_built 9).

Lemma sample_result_built :
  BuildRegion (HD := sample_props) (HP := sample_ops) (sample_list 9) = Some (true, sample_result).
Proof. vm_compute. reflexivity. Qed.

Lemma predicate_edges_cross_witness :
  connects (m_graph sample_result) {[0]} {[1; 2]} 1 /\
  crossing (BS := gset N) {[0]} {[1; 2]} {[0; 1; 2]} = true.
Proof.
  split; [|vm_compute; reflexivity].
  refine (proj2 (predicate_edges_cross (BS := gset N) (HD := sample_props) (HP := sample_ops) (sample_list 9)
           sample_result {[0]} {[1; 2]} 1 {[0; 1; 2]} _ _ _ _ _ _) _).
  - apply sample_list_ok. reflexivity.
  - reflexivity.
  - exact sample_result_built.
  - vm_compute. discriminate.
  - apply (bool_decide_eq_true_1 (_ ## _)). vm_compute. reflexivity.
  - vm_compute. reflexivity.
  - vm_compute. reflexivity.
Defined.

Definition sample_order : join_order := JPair (JPair (JNode 2) (JNode 0)) (JPair (JNode 1) (JNode 3)).

Lemma conjuncts_applied_once_witness :
  exists l, order_conjuncts sample_order true sample_result = Some l /\
    l ≡ₚ sample_conjuncts.
Proof.
  apply (conjuncts_applied_once (BS := gset N) (HD := sample_props) (HP := sample_ops) (sample_list 9)).
  - apply sample_list_ok. reflexivity.
  - reflexivity.
  - exact sample_result_built.
  - simpl. lia.
  - simpl. split_and!; try done; apply (bool_decide_eq_true_1 (_ ## _)); vm_compute; reflexivity.
  - apply (bool_decide_eq_true_1 (_ = _)). vm_compute. reflexivity.
Defined.

(** The region of [sample_root]: an outer join below an inner join, with a
    lateral atom. *)
Definition sample_mixed : CDPHyperJoinRegion (gset N) :=
  CDPHyperJoinRegion_FromSpec (HP := sample_ops) sample_spec 10.
Definition sample_mixed_result : CDPHyperJoinRegion (gset N) :=
  default sample_mixed (snd <$> BuildRegion (HD := sample_props) (HP := sample_ops) sample_mixed).

Lemma original_order_kept_witness :
  BuildRegion (HD := sample_props) (HP := sample_ops) sample_mixed = Some (true, sample_mixed_result) /\
  join_tree (m_graph sample_mixed_result) (span 0 3).
Proof.
  assert (Hb : BuildRegion (HD := sample_props) (HP := sample_ops) sample_mixed = Some (true, sample_mixed_result))
    by (vm_compute; reflexivity).
  split; [exact Hb|].
  refine (proj2 (original_order_kept (HD := sample_props) (HP := sample_ops) sample_root sample_spec 10
    sample_mixed_result sample_spec_built _ _ Hb)).
  - right. vm_compute. reflexivity.
  - reflexivity.
Defined.

Lemma FDependencyApplicable_decides_witness :
  FDependencyApplicable {[2]} {[0; 1]} sample_mixed = Some (true, true) /\
  needs sample_spec {[2]} {[0; 1]}.
Proof.
  assert (He : FDependencyApplicable {[2]} {[0; 1]} sample_mixed = Some (true, true)) by (vm_compute; reflexivity).
  split; [exact He|].
  refine (proj1 (proj1 (proj2 (proj2 (proj1 (FDependencyApplicable_decides (BS := gset N) (HD := sample_props)
    sample_root sample_spec sample_mixed {[2]} {[0; 1]} true true sample_spec_built _ _ _) He)))) eq_refl).
  - reflexivity.
  - vm_compute. reflexivity.
  - apply (bool_decide_eq_true_1 (_ ## _)). vm_compute. reflexivity.
Defined.

Lemma sample_all_built : all_built sample_spec.
Proof. apply (all_built_spec (HD := sample_props) sample_root); [exact sample_spec_built|vm_compute; reflexivity]. Qed.

Lemma FBuildJoinRequest_decides_witness :
  exists app res, ApplicableEdges {[1]} {[0]} sample_mixed = Some app /\
    FBuildJoinRequest {[1]} {[0]} sample_mixed = Some res /\
    res = Some (MkRequest EopLogicalLeftOuterJoin true false None [0]).
Proof.
  destruct (FBuildJoinRequest_decides (BS := gset N) sample_mixed sample_spec {[1]} {[0]})
    as (app & res & Ha & Hr & _).
  - vm_compute. reflexivity.
  - exact sample_all_built.
  - vm_compute. reflexivity.
  - exists app, res. split; [exact Ha|]. split; [exact Hr|].
    assert (FBuildJoinRequest {[1]} {[0]} sample_mixed =
      Some (Some (MkRequest EopLogicalLeftOuterJoin true false None [0]))) as Hv by (vm_compute; reflexivity).
    congruence.
Defined.

Lemma sample_local : local_predicates sample_spec.
Proof.
  assert (Hb : forallb (fun edge => match m_ses edge with
      | Some ses => bool_decide (to_gset ses ⊆ to_gset (m_all edge))
      | None => false
      end) (m_sedges sample_spec) = true) by (vm_compute; reflexivity).
  rewrite forallb_forall in Hb. apply Forall_forall. intros edge He%list_elem_of_In%Hb.
  destruct (m_ses edge) as [ses|]; [|done]. exists ses. by apply bool_decide_eq_true in He.
Qed.

Lemma original_cut_request_witness :
  FBuildJoinRequest {[0; 1]} {[2]} sample_mixed =
    Some (Some (MkRequest EopLogicalInnerJoin false true None [1])) /\
  ApplicableEdges (m_eleft (sample_edge 1)) (m_eright (sample_edge 1)) sample_mixed =
    Some [MkApplicable 1 false].
Proof.
  split; [vm_compute; reflexivity|].
  refine (proj1 (original_cut_request (BS := gset N) (HD := sample_props) (HP := sample_ops) sample_root sample_spec sample_mixed 1
    (sample_edge 1) sample_spec_built _ _ _ _) _).
  - vm_compute. reflexivity.
  - vm_compute. reflexivity.
  - exact sample_local.
  - apply sample_edge_built. lia.
  - exists (false, true). vm_compute. reflexivity.
Defined.
