(* ===== verification/MemoGroups.v ===== *)
(** * The groups of the memo: duplicates and reachability

    Model of the memo's groups (libgpopt/src/search/CGroup.cpp, CMemo.cpp): the
    links from a group to the group it is a duplicate of, which always go to a
    larger id; merging two classes of duplicates; and the test whether one group
    can be reached from another through the children of logical group
    expressions.  A group is its id, an index into the groups of the memo; a group
    expression is an index into the expressions. *)

From S2P Require Import Prelude NodeSet Expression.

Open Scope N_scope.

(** [m_ulGExprs] is the length of [m_listGExprs]: both change together. *)
Record CGroup := MkGroup {
  g_fScalar : bool;
  m_pgroupDuplicate : option N;
  m_listGExprs : list N;
  m_listDupGExprs : list N;
  g_fExplored : bool
}.

(** [m_pgroup] is null until the expression is inserted; [m_pgexprDuplicate] as
    well. *)
Record CGroupExpression := MkGExpr {
  ge_pop : COperator;
  m_pdrgpgroup : list N;
  m_exfidOrigin : N;
  m_pgexprOrigin : option N;
  m_fIntermediate : bool;
  m_pgroup : option N;
  m_pgexprDuplicate : option N;
  ge_fExplored : bool
}.

(** [m_sht] by bucket, its chains from the head; [m_pgroupRoot] is null until
    [SetRoot]. *)
Record CMemo := MkMemo {
  m_groups : list CGroup;
  m_gexprs : list CGroupExpression;
  m_sht : gmap N (list N);
  m_pgroupRoot : option N
}.

Definition UlGExprs (group : CGroup) : N := N.of_nat (length (m_listGExprs group)).
Definition FDuplicateGroup (group : CGroup) : bool := bool_decide (is_Some (m_pgroupDuplicate group)).

(** ** Links between duplicates *)

Implicit Types (gs : list CGroup) (g src dest : N).

(** [while (nullptr != pgroup->PgroupDuplicate()) ...]; a link goes to a larger
    id, so there are no more steps than groups. *)
Fixpoint duplicate_master (fuel : nat) gs g : option N :=
  match fuel with
  | O => None
  | S fuel =>
      group ← gs.[g];
      match m_pgroupDuplicate group with
      | None => Some g
      | Some d => duplicate_master fuel gs d
      end
  end.

Definition PgroupDuplicateMaster gs g : option N := duplicate_master (length gs) gs g.

Definition FDuplicateGroups gs (pgroupFst pgroupSnd : N) : option bool :=
  fst ← gs.[pgroupFst];
  snd ← gs.[pgroupSnd];
  let pgroupFstDup := m_pgroupDuplicate fst in
  let pgroupSndDup := m_pgroupDuplicate snd in
  Some ((pgroupFst =? pgroupSnd) || bool_decide (Some pgroupFst = pgroupSndDup) ||
        bool_decide (Some pgroupSnd = pgroupFstDup) ||
        (bool_decide (is_Some pgroupFstDup) && bool_decide (pgroupFstDup = pgroupSndDup))).

Definition with_duplicate (d : N) (group : CGroup) : CGroup :=
  MkGroup (g_fScalar group) (Some d) (m_listGExprs group) (m_listDupGExprs group) (g_fExplored group).
Definition set_duplicate g (d : N) gs : list CGroup := alter (with_duplicate d) (N.to_nat g) gs.

(** The loop of [AddDuplicateGrp]. *)
Fixpoint add_duplicate_loop (fuel : nat) src dest gs : option (list CGroup) :=
  match fuel with
  | O => None
  | S fuel =>
      group ← gs.[src];
      if bool_decide (m_pgroupDuplicate group = Some dest) then Some gs else
      match m_pgroupDuplicate group with
      | None => add_duplicate_loop fuel src dest (set_duplicate src dest gs)
      | Some d => if dest <? d then add_duplicate_loop fuel dest d gs
                  else add_duplicate_loop fuel d dest gs
      end
  end.

(** Each round but the last climbs a link. *)
Definition AddDuplicateGrp (this pgroup : N) gs : option (list CGroup) :=
  let fuel := S (2 * length gs) in
  if pgroup <? this then add_duplicate_loop fuel pgroup this gs
  else add_duplicate_loop fuel this pgroup gs.

Definition ResolveDuplicateMaster g gs : option (list CGroup) :=
  group ← gs.[g];
  match m_pgroupDuplicate group with
  | None => Some gs
  | Some d => target ← PgroupDuplicateMaster gs d; Some (set_duplicate g target gs)
  end.

Definition MarkDuplicates (pgroupFst pgroupSnd : N) gs : option (list CGroup) :=
  gs ← AddDuplicateGrp pgroupFst pgroupSnd gs;
  gs ← ResolveDuplicateMaster pgroupFst gs;
  ResolveDuplicateMaster pgroupSnd gs.

(** ** Reachability *)

Section reachable.
Context {BS : Type} {HB : NodeSet BS} {HO : OperatorIdentity}.
Implicit Types (m : CMemo) (visited : BS).

(** The child groups of the logical expressions of a group, in the order in which
    the code looks at them. *)
Definition logical_children m (group : CGroup) : option (list N) :=
  gexprs ← mapM (fun e => (m_gexprs m).[e]) (m_listGExprs group);
  Some (flat_map m_pdrgpgroup (filter (fun e => FLogical (ge_pop e) = true) gexprs)).

(** [if (!pgroupChild->FScalar() && FReachable(...)) return true;] over the
    children; the visited set passes through. *)
Fixpoint any_reachable (reach : N -> BS -> option (bool * BS)) m (children : list N) visited
    : option (bool * BS) :=
  match children with
  | [] => Some (false, visited)
  | child :: children =>
      group ← (m_groups m).[child];
      if g_fScalar group then any_reachable reach m children visited else
      '(found, visited) ← reach child visited;
      if (found : bool) then Some (true, visited) else any_reachable reach m children visited
  end.

Fixpoint reachable_visit (fuel : nat) m (pgroupStart pgroupTarget : N) visited : option (bool * BS) :=
  match fuel with
  | O => None
  | S fuel =>
      start ← PgroupDuplicateMaster (m_groups m) pgroupStart;
      target ← PgroupDuplicateMaster (m_groups m) pgroupTarget;
      if start =? target then Some (true, visited) else
      let '(visited, old) := ns_ExchangeSet visited start in
      if old then Some (false, visited) else
      group ← (m_groups m).[start];
      children ← logical_children m group;
      any_reachable (fun child => reachable_visit fuel m child target) m children visited
  end.

(** Every nested call has visited one more group. *)
Definition FReachable m (pgroupStart pgroupTarget : N) : option bool :=
  start ← (m_groups m).[pgroupStart];
  target ← (m_groups m).[pgroupTarget];
  if g_fScalar start || g_fScalar target then Some false else
  '(found, _) ← reachable_visit (S (length (m_groups m))) m pgroupStart pgroupTarget ns_empty;
  Some found.
End reachable.

(** ** The master of a class *)

(** Links are in range and go to larger ids. *)
Definition links_ok gs : Prop :=
  forall g group d, gs.[g] = Some group -> m_pgroupDuplicate group = Some d ->
    g < d /\ d < N.of_nat (length gs).

(** The group at the end of the links; a group out of range is its own. *)
Definition master gs g : N := default g (PgroupDuplicateMaster gs g).

Lemma duplicate_master_ok gs fuel g :
  links_ok gs -> g < N.of_nat (length gs) -> (length gs - N.to_nat g <= fuel)%nat ->
  exists root group, duplicate_master fuel gs g = Some root /\ g <= root /\
    gs.[root] = Some group /\ m_pgroupDuplicate group = None.
Proof.
  intros Hok. revert g. induction fuel as [|fuel IH]; intros g Hg Hf; [lia|]. cbn [duplicate_master].
  destruct (lookup_lt_is_Some_2 gs (N.to_nat g)) as [group Hgr]; [lia|]. rewrite Hgr. cbn [mbind option_bind].
  destruct (m_pgroupDuplicate group) as [d|] eqn:Hd; [|by exists g, group].
  destruct (Hok g group d Hgr Hd). destruct (IH d) as (root & grp & -> & ? & ? & ?); [lia..|].
  exists root, grp. split_and!; [done|lia|done|done].
Qed.

Lemma duplicate_master_fuel gs fuel1 fuel2 g r1 r2 :
  duplicate_master fuel1 gs g = Some r1 -> duplicate_master fuel2 gs g = Some r2 -> r1 = r2.
Proof.
  revert fuel2 g. induction fuel1 as [|fuel1 IH]; intros [|fuel2] g; try done. cbn [duplicate_master].
  destruct (gs.[g]) as [group|]; [|done]. cbn [mbind option_bind].
  destruct (m_pgroupDuplicate group); [apply IH|congruence].
Qed.

Lemma Master_Some gs g :
  links_ok gs -> g < N.of_nat (length gs) -> PgroupDuplicateMaster gs g = Some (master gs g).
Proof.
  intros Hok Hg. destruct (duplicate_master_ok gs (length gs) g Hok Hg) as (r & ? & Hr & _); [lia|].
  unfold master, PgroupDuplicateMaster. by rewrite Hr.
Qed.

Lemma master_top gs g :
  links_ok gs -> g < N.of_nat (length gs) ->
  g <= master gs g /\ master gs g < N.of_nat (length gs) /\
  exists group, gs.[master gs g] = Some group /\ m_pgroupDuplicate group = None.
Proof.
  intros Hok Hg. destruct (duplicate_master_ok gs (length gs) g Hok Hg) as (r & grp & Hr & ? & Hl & ?); [lia|].
  unfold master, PgroupDuplicateMaster. rewrite Hr. cbn [default]. split_and!; [done| |by exists grp].
  by eapply lookup_N_lt.
Qed.

(** The equation of the loop. *)
Lemma master_step gs g group :
  links_ok gs -> gs.[g] = Some group ->
  master gs g = match m_pgroupDuplicate group with Some d => master gs d | None => g end.
Proof.
  intros Hok Hg. pose proof (lookup_N_lt _ _ _ Hg) as Hlt.
  pose proof (Master_Some gs g Hok Hlt) as Hm. unfold PgroupDuplicateMaster in Hm.
  destruct (length gs) as [|n] eqn:Hn; [lia|]. cbn [duplicate_master] in Hm. rewrite Hg in Hm. cbn [mbind option_bind] in Hm.
  destruct (m_pgroupDuplicate group) as [d|] eqn:Hd; [|congruence].
  destruct (Hok g group d Hg Hd) as [_ Hdl]. pose proof (Master_Some gs d Hok Hdl) as Hm'.
  eapply duplicate_master_fuel; [exact Hm|exact Hm'].
Qed.

Lemma master_idem gs g :
  links_ok gs -> g < N.of_nat (length gs) -> master gs (master gs g) = master gs g.
Proof.
  intros Hok Hg. destruct (master_top gs g Hok Hg) as (_ & _ & group & Hgr & Hd).
  by rewrite (master_step _ _ _ Hok Hgr), Hd.
Qed.

(** What adding links may change. *)
Definition links_only gs gs' : Prop :=
  Forall2 (fun a b => g_fScalar a = g_fScalar b /\ m_listGExprs a = m_listGExprs b /\
             m_listDupGExprs a = m_listDupGExprs b /\ g_fExplored a = g_fExplored b) gs gs'.

Lemma links_only_refl gs : links_only gs gs.
Proof. apply Forall_Forall2_diag, Forall_forall. by intros. Qed.

Lemma links_only_trans gs1 gs2 gs3 : links_only gs1 gs2 -> links_only gs2 gs3 -> links_only gs1 gs3.
Proof.
  unfold links_only. intros H1. revert gs3. induction H1 as [|a b l1 l2 Hab H1 IH]; intros gs3 H2.
  - by inversion H2.
  - inversion H2; subst. constructor; [intuition congruence|by apply IH].
Qed.

Lemma set_duplicate_lookup g d gs h :
  (set_duplicate g d gs).[h] = if decide (h = g) then with_duplicate d <$> gs.[g] else gs.[h].
Proof.
  unfold set_duplicate. destruct (decide (h = g)) as [->|Hne].
  - apply list_lookup_alter_eq.
  - apply list_lookup_alter_ne. lia.
Qed.

Lemma set_duplicate_only g d gs : links_only gs (set_duplicate g d gs).
Proof.
  unfold links_only, set_duplicate. apply Forall2_same_length_lookup. split; [by rewrite length_alter|].
  intros i a b Ha Hb. destruct (decide (i = N.to_nat g)) as [->|Hne].
  - rewrite list_lookup_alter_eq, Ha in Hb. injection Hb as <-. done.
  - rewrite list_lookup_alter_ne in Hb by done. rewrite Ha in Hb. by injection Hb as <-.
Qed.

Lemma set_duplicate_length g d gs : length (set_duplicate g d gs) = length gs.
Proof. apply length_alter. Qed.

Lemma set_duplicate_ok g d gs :
  links_ok gs -> g < d -> d < N.of_nat (length gs) -> links_ok (set_duplicate g d gs).
Proof.
  intros Hok Hgd Hd h group d' Hh Hdup. rewrite set_duplicate_length. rewrite set_duplicate_lookup in Hh.
  destruct (decide (h = g)) as [->|]; [|by eapply Hok].
  destruct (gs.[g]) as [grp|] eqn:Hg; [|done]. injection Hh as <-. cbn [with_duplicate m_pgroupDuplicate] in Hdup.
  injection Hdup as <-. done.
Qed.

(** By induction on the distance from the end of the links. *)
Lemma links_ind gs (P : N -> Prop) :
  links_ok gs ->
  (forall g, g < N.of_nat (length gs) ->
     (forall group d, gs.[g] = Some group -> m_pgroupDuplicate group = Some d -> P d) -> P g) ->
  forall g, g < N.of_nat (length gs) -> P g.
Proof.
  intros Hok Hstep g. remember (length gs - N.to_nat g)%nat as k eqn:Hk. revert g Hk.
  induction k as [k IH] using lt_wf_ind. intros g -> Hg. apply Hstep; [done|].
  intros group d Hgr Hd. destruct (Hok g group d Hgr Hd). eapply IH; [|done|done]. lia.
Qed.

(** Linking the master of one class to a member of another with a larger id. *)
Lemma set_duplicate_master gs src dest group :
  links_ok gs -> src < dest -> dest < N.of_nat (length gs) ->
  gs.[src] = Some group -> m_pgroupDuplicate group = None ->
  forall g, g < N.of_nat (length gs) ->
    master (set_duplicate src dest gs) g =
      if decide (master gs g = src) then master gs dest else master gs g.
Proof.
  intros Hok Hsd Hd Hsrc Hnone. pose proof (set_duplicate_ok src dest gs Hok Hsd Hd) as Hok'.
  set (gs' := set_duplicate src dest gs) in *.
  assert (Hms : master gs src = src) by (by rewrite (master_step _ _ _ Hok Hsrc), Hnone).
  assert (Habove : forall g, g < N.of_nat (length gs) -> src < g -> master gs' g = master gs g /\ master gs g <> src).
  { apply (links_ind gs (fun g => src < g -> master gs' g = master gs g /\ master gs g <> src) Hok).
    intros g Hg IH Hgt. destruct (lookup_lt_is_Some_2 gs (N.to_nat g)) as [grp Hgr]; [lia|].
    assert (Hgr' : gs'.[g] = Some grp) by (unfold gs'; rewrite set_duplicate_lookup, decide_False; [done|lia]).
    rewrite (master_step _ _ _ Hok Hgr), (master_step _ _ _ Hok' Hgr').
    destruct (m_pgroupDuplicate grp) as [d|] eqn:Hgd; [|split; [done|lia]].
    destruct (Hok g grp d Hgr Hgd). eapply IH; [done|done|lia]. }
  apply (links_ind gs (fun g => master gs' g = if decide (master gs g = src) then master gs dest else master gs g) Hok).
  intros g Hg IH. destruct (lookup_lt_is_Some_2 gs (N.to_nat g)) as [grp Hgr]; [lia|].
  destruct (decide (g = src)) as [->|Hne].
  - rewrite Hms, decide_True by done. rewrite Hsrc in Hgr. injection Hgr as ->.
    assert (Hgr' : gs'.[src] = Some (with_duplicate dest grp))
      by (unfold gs'; by rewrite set_duplicate_lookup, decide_True, Hsrc).
    rewrite (master_step _ _ _ Hok' Hgr'). cbn [with_duplicate m_pgroupDuplicate]. by apply Habove.
  - assert (Hgr' : gs'.[g] = Some grp) by (unfold gs'; by rewrite set_duplicate_lookup, decide_False).
    rewrite (master_step _ _ _ Hok Hgr), (master_step _ _ _ Hok' Hgr').
    destruct (m_pgroupDuplicate grp) as [d|] eqn:Hgd; [by eapply IH|]. by rewrite decide_False.
Qed.

(** ** Merging two classes *)

(** The masters once the classes of [a] and [b] are one: the larger of the two. *)
Definition merged_master gs (a b g : N) : N :=
  if decide (master gs g = master gs a \/ master gs g = master gs b)
  then N.max (master gs a) (master gs b) else master gs g.

Definition merged gs (a b : N) gs' : Prop :=
  links_ok gs' /\ links_only gs gs' /\
  forall g, g < N.of_nat (length gs) -> master gs' g = merged_master gs a b g.

Lemma merged_master_comm gs a b g : merged_master gs a b g = merged_master gs b a g.
Proof. unfold merged_master. rewrite N.max_comm. destruct (decide _), (decide _); tauto. Qed.

Lemma merged_same gs a b g :
  master gs a = master gs b -> merged_master gs a b g = master gs g.
Proof. intros He. unfold merged_master. rewrite He, N.max_id. destruct (decide _); intuition congruence. Qed.

Lemma links_only_length gs gs' : links_only gs gs' -> length gs' = length gs.
Proof. intros Ho. symmetry. by eapply Forall2_length. Qed.

Lemma add_duplicate_loop_ok fuel src dest gs :
  links_ok gs -> src < dest -> dest < N.of_nat (length gs) ->
  (2 * length gs - N.to_nat src - N.to_nat dest < fuel)%nat ->
  exists gs', add_duplicate_loop fuel src dest gs = Some gs' /\ merged gs src dest gs'.
Proof.
  revert src dest gs. induction fuel as [|fuel IH]; intros src dest gs Hok Hsd Hd Hf; [lia|].
  cbn [add_duplicate_loop]. destruct (lookup_lt_is_Some_2 gs (N.to_nat src)) as [group Hsrc]; [lia|].
  rewrite Hsrc. cbn [mbind option_bind]. pose proof (master_step _ _ _ Hok Hsrc) as Hms.
  case_bool_decide as Hdup.
  { exists gs. split; [done|]. rewrite Hdup in Hms. split_and!; [done|apply links_only_refl|].
    intros g _. by rewrite merged_same. }
  destruct (m_pgroupDuplicate group) as [d|] eqn:Hgd.
  - destruct (Hok src group d Hsrc Hgd) as [Hlt Hdl].
    assert (Hmm : forall g, merged_master gs src dest g = merged_master gs d dest g)
      by (intros g; unfold merged_master; by rewrite Hms).
    destruct (N.ltb_spec dest d) as [Hdd|Hdd].
    + destruct (IH dest d gs Hok Hdd Hdl) as (gs' & Hl & Hok' & Ho & Hm); [lia|]. exists gs'.
      split; [done|]. split_and!; [done|done|]. intros g Hg. by rewrite Hmm, merged_master_comm, Hm.
    + destruct (IH d dest gs Hok) as (gs' & Hl & Hok' & Ho & Hm); [|done|lia|].
      { destruct (decide (d = dest)); [congruence|lia]. }
      exists gs'. split; [done|]. split_and!; [done|done|]. intros g Hg. by rewrite Hmm, Hm.
  - pose proof (set_duplicate_ok src dest gs Hok Hsd Hd) as Hok'.
    pose proof (set_duplicate_master gs src dest group Hok Hsd Hd Hsrc Hgd) as Hm.
    set (gs' := set_duplicate src dest gs) in *. exists gs'. split.
    + destruct fuel as [|fuel]; [lia|]. cbn [add_duplicate_loop].
      assert (Hsrc' : gs'.[src] = Some (with_duplicate dest group))
        by (unfold gs'; by rewrite set_duplicate_lookup, decide_True, Hsrc).
      rewrite Hsrc'. cbn [mbind option_bind with_duplicate m_pgroupDuplicate]. by rewrite bool_decide_true.
    + split_and!; [done|apply set_duplicate_only|]. intros g Hg. rewrite (Hm g Hg). unfold merged_master. rewrite Hms.
      destruct (master_top gs dest Hok Hd) as (Hge & _). rewrite N.max_r by lia.
      destruct (decide (master gs g = src)), (decide (master gs g = src \/ _)); intuition congruence.
Qed.

Lemma AddDuplicateGrp_ok a b gs :
  links_ok gs -> a < N.of_nat (length gs) -> b < N.of_nat (length gs) -> a <> b ->
  exists gs', AddDuplicateGrp a b gs = Some gs' /\ merged gs a b gs'.
Proof.
  intros Hok Ha Hb Hne. unfold AddDuplicateGrp. cbv zeta. destruct (N.ltb_spec b a).
  - destruct (add_duplicate_loop_ok (S (2 * length gs)) b a gs) as (gs' & -> & ? & ? & Hm); [done..|lia|].
    exists gs'. split; [done|]. split_and!; [done|done|]. intros g Hg. by rewrite Hm, merged_master_comm.
  - apply add_duplicate_loop_ok; [done|lia|done|lia].
Qed.

(** Resolving shortens the links of one group to one. *)
Lemma Resolve_ok g gs :
  links_ok gs -> g < N.of_nat (length gs) ->
  exists gs', ResolveDuplicateMaster g gs = Some gs' /\ links_ok gs' /\ links_only gs gs' /\
    (forall h, h < N.of_nat (length gs) -> master gs' h = master gs h) /\
    (forall h, h <> g -> gs'.[h] = gs.[h]) /\
    exists group, gs'.[g] = Some group /\
      m_pgroupDuplicate group = if decide (master gs g = g) then None else Some (master gs g).
Proof.
  intros Hok Hg. unfold ResolveDuplicateMaster.
  destruct (lookup_lt_is_Some_2 gs (N.to_nat g)) as [group Hgr]; [lia|]. rewrite Hgr. cbn [mbind option_bind].
  pose proof (master_step _ _ _ Hok Hgr) as Hms. destruct (m_pgroupDuplicate group) as [d|] eqn:Hd.
  2: { exists gs. split_and!; [done|done|apply links_only_refl|done|done|]. exists group. by rewrite decide_True. }
  destruct (Hok g group d Hgr Hd) as [Hlt Hdl]. rewrite (Master_Some gs d Hok Hdl). cbn [mbind option_bind].
  destruct (master_top gs d Hok Hdl) as (Hge & Htop & root & Hroot & Hrn).
  set (r := master gs d) in *. assert (Hok' : links_ok (set_duplicate g r gs)) by (apply set_duplicate_ok; [done|lia|done]).
  set (gs' := set_duplicate g r gs) in *. exists gs'.
  assert (Hr' : master gs' r = r).
  { assert (Hrl : gs'.[r] = Some root) by (unfold gs'; rewrite set_duplicate_lookup, decide_False; [done|lia]).
    by rewrite (master_step _ _ _ Hok' Hrl), Hrn. }
  assert (Hg' : gs'.[g] = Some (with_duplicate r group)) by (unfold gs'; by rewrite set_duplicate_lookup, decide_True, Hgr).
  split_and!; [done|done|apply set_duplicate_only| | |].
  - apply (links_ind gs (fun h => master gs' h = master gs h) Hok). intros h Hh IH.
    destruct (decide (h = g)) as [->|Hne].
    + rewrite (master_step _ _ _ Hok' Hg'). cbn [with_duplicate m_pgroupDuplicate]. by rewrite Hr', Hms.
    + destruct (lookup_lt_is_Some_2 gs (N.to_nat h)) as [grp Hhr]; [lia|].
      assert (Hhr' : gs'.[h] = Some grp) by (unfold gs'; by rewrite set_duplicate_lookup, decide_False).
      rewrite (master_step _ _ _ Hok Hhr), (master_step _ _ _ Hok' Hhr').
      destruct (m_pgroupDuplicate grp) eqn:Hgd; [by eapply IH|done].
  - intros h Hne. unfold gs'. by rewrite set_duplicate_lookup, decide_False.
  - eexists. split; [exact Hg'|]. cbn [with_duplicate m_pgroupDuplicate]. rewrite Hms, decide_False; [done|lia].
Qed.

Lemma MarkDuplicates_ok a b gs
    (Hok : links_ok gs) (Ha : a < N.of_nat (length gs)) (Hb : b < N.of_nat (length gs)) (Hne : a <> b) :
  exists gs', MarkDuplicates a b gs = Some gs' /\ merged gs a b gs' /\ FDuplicateGroups gs' a b = Some true.
Proof.
  unfold MarkDuplicates. destruct (AddDuplicateGrp_ok a b gs Hok Ha Hb Hne) as (gs1 & -> & Hok1 & Ho1 & Hm1).
  cbn [mbind option_bind]. pose proof (links_only_length _ _ Ho1) as Hl1.
  destruct (Resolve_ok a gs1 Hok1) as (gs2 & -> & Hok2 & Ho2 & Hm2 & Hsame2 & grpa & Hga & Hda); [by rewrite Hl1|].
  cbn [mbind option_bind]. pose proof (links_only_length _ _ Ho2) as Hl2.
  destruct (Resolve_ok b gs2 Hok2) as (gs3 & -> & Hok3 & Ho3 & Hm3 & Hsame3 & grpb & Hgb & Hdb); [by rewrite Hl2, Hl1|].
  exists gs3. split; [done|]. split.
  - split_and!; [done|by eapply links_only_trans; [eapply links_only_trans|]|].
    intros g Hg. rewrite Hm3, Hm2, Hm1; [done|done|by rewrite Hl1|by rewrite Hl2, Hl1].
  - unfold FDuplicateGroups. rewrite (Hsame3 a Hne), Hga, Hgb. cbn [mbind option_bind].
    assert (Hmm : master gs1 a = master gs2 b).
    { rewrite Hm2, !Hm1 by (rewrite ?Hl1; done). unfold merged_master. by rewrite !decide_True by tauto. }
    rewrite Hda, Hdb, <-Hmm. generalize (master gs1 a). intros r. f_equal.
    rewrite !orb_true_iff, andb_true_iff, !bool_decide_eq_true, N.eqb_eq.
    destruct (decide (r = a)) as [Hra|Hra], (decide (r = b)) as [Hrb|Hrb]; subst; naive_solver.
Qed.

(** Marking two groups as duplicates always ends and merges their classes: the
    larger of the two masters becomes the master of both, all other masters stay,
    links still go to larger ids, nothing but links changes, and the two groups
    now test as duplicates. *)
Theorem MarkDuplicates_merges a b gs
    (Hok : links_ok gs) (Ha : a < N.of_nat (length gs)) (Hb : b < N.of_nat (length gs)) (Hne : a <> b) :
  exists gs', MarkDuplicates a b gs = Some gs' /\ merged gs a b gs' /\ FDuplicateGroups gs' a b = Some true.
Proof. by apply MarkDuplicates_ok. Qed.

(** Groups that test as duplicates have the same master. *)
Lemma FDuplicateGroups_master a b gs :
  links_ok gs -> FDuplicateGroups gs a b = Some true -> master gs a = master gs b.
Proof.
  intros Hok. unfold FDuplicateGroups. destruct (gs.[a]) as [ga|] eqn:Ha; [|done].
  destruct (gs.[b]) as [gb|] eqn:Hb; [|done]. cbn [mbind option_bind].
  pose proof (master_step _ _ _ Hok Ha) as Hma. pose proof (master_step _ _ _ Hok Hb) as Hmb.
  intros [= Hor]. rewrite !orb_true_iff, andb_true_iff, N.eqb_eq, !bool_decide_eq_true in Hor.
  destruct Hor as [[[->|He]|He]|[[d Hd] He]]; [done| | |].
  - by rewrite <-He in Hmb.
  - by rewrite <-He in Hma.
  - by rewrite <-He, Hd in Hmb; rewrite Hd in Hma; rewrite Hma.
Qed.

(** ** Reachability is exact *)

Section reachability.
Context {BS : Type} {HB : NodeSet BS} {HO : OperatorIdentity}.
Implicit Types (m : CMemo) (visited : BS) (V : gset N).

(** What the test relies on: links, and the group expressions of a group and
    their children are there. *)
Record memo_ok m : Prop := {
  mo_links : links_ok (m_groups m);
  mo_exprs : forall g group e, (m_groups m).[g] = Some group -> e ∈ m_listGExprs group ->
    is_Some ((m_gexprs m).[e]);
  mo_children : forall e gexpr c, (m_gexprs m).[e] = Some gexpr -> c ∈ m_pdrgpgroup gexpr ->
    c < N.of_nat (length (m_groups m))
}.

(** A step of the relational graph, between masters: a child of a logical
    expression of [g] that is no scalar group. *)
Definition memo_edge m g h : Prop :=
  exists group e gexpr c child, (m_groups m).[g] = Some group /\ e ∈ m_listGExprs group /\
    (m_gexprs m).[e] = Some gexpr /\ FLogical (ge_pop gexpr) = true /\ c ∈ m_pdrgpgroup gexpr /\
    (m_groups m).[c] = Some child /\ g_fScalar child = false /\ h = master (m_groups m) c.

Definition memo_path m g h : Prop := rtc (memo_edge m) (master (m_groups m) g) (master (m_groups m) h).

(** A step between classes of duplicates: a step of any group of the class, also of
    one that was marked and not merged yet, which [FReachable] does not take. *)
Definition class_edge m x y : Prop := exists g, memo_edge m g y /\ x = master (m_groups m) g.

(** No group leads back to its class, by the expressions of whichever groups. *)
Definition acyclic m : Prop := forall x, ~ tc (class_edge m) x x.

(** [FReachable] misses nothing: where an expression of some group of a class
    leads, expressions of masters lead as well. *)
Definition search_complete m : Prop := forall x y, class_edge m x y -> rtc (memo_edge m) x y.

(** Every group marked as a duplicate has been merged, which empties it. *)
Definition all_merged m : Prop := forall g group d, (m_groups m).[g] = Some group ->
  m_pgroupDuplicate group = Some d -> m_listGExprs group = [].

Lemma all_merged_search_complete m : links_ok (m_groups m) -> all_merged m -> search_complete m.
Proof.
  intros Hl Hm x y (g & He & ->). pose proof He as (group & e & _ & _ & _ & Hg & Hin & _).
  rewrite (master_step _ _ _ Hl Hg). destruct (m_pgroupDuplicate group) as [d|] eqn:Hd.
  - rewrite (Hm _ _ _ Hg Hd) in Hin. by apply elem_of_nil in Hin.
  - by apply rtc_once.
Qed.

Lemma search_complete_path m x y : search_complete m -> rtc (class_edge m) x y -> rtc (memo_edge m) x y.
Proof. intros Hs. induction 1 as [x|x z y He _ IH]; [done|]. etrans; [by apply Hs|done]. Qed.

Abbreviation group_count m := (N.of_nat (length (m_groups m))).

Lemma logical_children_ok m g group :
  memo_ok m -> (m_groups m).[g] = Some group ->
  exists children, logical_children m group = Some children /\
    forall c, c ∈ children <-> exists e gexpr, e ∈ m_listGExprs group /\ (m_gexprs m).[e] = Some gexpr /\
      FLogical (ge_pop gexpr) = true /\ c ∈ m_pdrgpgroup gexpr.
Proof.
  intros Hok Hg. unfold logical_children.
  destruct (mapM_is_Some_2 (fun e => (m_gexprs m).[e]) (m_listGExprs group)) as [gexprs Hm].
  { apply Forall_forall. intros e He. by eapply mo_exprs. }
  rewrite Hm. cbn [mbind option_bind]. eexists. split; [done|]. apply mapM_Some in Hm.
  intros c. rewrite list_elem_of_In, in_flat_map. split.
  - intros (x & Hx%list_elem_of_In%list_elem_of_filter & Hc%list_elem_of_In). destruct Hx as [Hl Hx].
    apply list_elem_of_lookup in Hx as [i Hi]. destruct (Forall2_lookup_r _ _ _ _ _ Hm Hi) as (e & He & Hex).
    exists e, x. split_and!; [by eapply list_elem_of_lookup_2|done..].
  - intros (e & x & He & Hx & Hl & Hc). exists x. split; [|by apply list_elem_of_In].
    apply list_elem_of_In, list_elem_of_filter. split; [done|].
    apply list_elem_of_lookup in He as [i Hi]. destruct (Forall2_lookup_l _ _ _ _ _ Hm Hi) as (y & Hy & Hey).
    rewrite Hx in Hey. injection Hey as <-. by eapply list_elem_of_lookup_2.
Qed.

(** What a search may leave behind: the groups it visited are in range, the target
    is not among them, and all their successors were visited too. *)
Definition searched m (target : N) V V' : Prop :=
  V ⊆ V' /\ (forall x, x ∈ V' -> x < group_count m) /\ (target ∉ V') /\
  forall x y, x ∈ V' -> x ∉ V -> memo_edge m x y -> y ∈ V'.

Lemma searched_trans m t V1 V2 V3 : searched m t V1 V2 -> searched m t V2 V3 -> searched m t V1 V3.
Proof.
  intros (Hs1 & _ & _ & Hc1) (Hs2 & Hr2 & Ht2 & Hc2). split_and!; [by etrans|done|done|].
  intros x y Hx Hx1 He. destruct (decide (x ∈ V2)) as [Hx2|Hx2]; [|by eapply Hc2].
  apply Hs2. by eapply Hc1.
Qed.

(** The answer of a search: found along a path from [from], or all of [from]
    visited. *)
Definition search_post m (from : N -> Prop) (target : N) V (res : bool * BS) : Prop :=
  let '(found, visited') := res in
  if found then exists s, from s /\ rtc (memo_edge m) s target
  else searched m target V (to_gset visited') /\ forall s, from s -> s ∈ to_gset visited'.

Lemma any_reachable_ok reach m target children visited :
  memo_ok m -> target < group_count m ->
  (forall c, c ∈ children -> c < group_count m) ->
  (forall x, x ∈ to_gset visited -> x < group_count m) -> target ∉ to_gset visited ->
  (forall c v, c ∈ children -> to_gset visited ⊆ to_gset v ->
     (forall x, x ∈ to_gset v -> x < group_count m) -> target ∉ to_gset v ->
     returns (search_post m (fun s => s = master (m_groups m) c) target (to_gset v)) (reach c v)) ->
  returns (search_post m (fun s => exists c child, c ∈ children /\ (m_groups m).[c] = Some child /\
             g_fScalar child = false /\ s = master (m_groups m) c) target (to_gset visited))
    (any_reachable reach m children visited).
Proof.
  intros Hok Ht. revert visited. induction children as [|c children IH]; intros visited Hch Hv Hnt Hreach.
  { eexists. split; [done|]. split; [by split_and!|]. by intros s (c & ? & ?%elem_of_nil & _). }
  cbn [any_reachable]. destruct (lookup_lt_is_Some_2 (m_groups m) (N.to_nat c)) as [child Hc].
  { specialize (Hch c ltac:(left)). lia. }
  rewrite Hc. cbn [mbind option_bind]. destruct (g_fScalar child) eqn:Hs.
  - eapply returns_mono; [apply IH; [intros; apply Hch; by right|done|done|]|].
    { intros; apply Hreach; [by right|done|done|done]. }
    intros [[] v'] Hp.
    + destruct Hp as (s & (c' & ch & ? & ? & ? & ?) & Hr). exists s. split; [|done]. exists c', ch. split_and!; [by right|done..].
    + destruct Hp as [Hse Hall]. split; [done|]. intros s (c' & ch & [->|Hin]%elem_of_cons & Hl & Hsc & ->); [congruence|].
      apply Hall. by exists c', ch.
  - eapply returns_bind; [by apply (Hreach c visited); [left|..]|].
    intros [[] v1] Hp.
    + destruct Hp as (s & -> & Hr). eexists. split; [done|]. exists (master (m_groups m) c). split; [|done].
      exists c, child. split_and!; [left|done..].
    + destruct Hp as [Hse Hall]. pose proof Hse as (Hsub & Hrg & Hnt1 & _). eapply returns_mono.
      { apply (IH v1); [intros; apply Hch; by right|done|done|].
        intros; apply Hreach; [by right|by etrans|done|done]. }
      intros [[] v'] Hp.
      * destruct Hp as (s & (c' & ch & ? & ? & ? & ?) & Hr). exists s. split; [|done]. exists c', ch. split_and!; [by right|done..].
      * destruct Hp as [Hse2 Hall2]. split; [by eapply searched_trans|].
        intros s (c' & ch & [->|Hin]%elem_of_cons & Hl & Hsc & ->); [|apply Hall2; by exists c', ch].
        destruct Hse2 as [Hsub2 _]. by apply Hsub2, Hall.
Qed.

Lemma reachable_visit_ok fuel m s t visited :
  memo_ok m -> s < group_count m -> t < group_count m ->
  (forall x, x ∈ to_gset visited -> x < group_count m) -> master (m_groups m) t ∉ to_gset visited ->
  (length (m_groups m) - size (to_gset visited) < fuel)%nat ->
  returns (search_post m (fun x => x = master (m_groups m) s) (master (m_groups m) t) (to_gset visited))
    (reachable_visit fuel m s t visited).
Proof.
  intros Hok. pose proof (mo_links _ Hok) as Hlk. revert s t visited.
  induction fuel as [|fuel IH]; intros s t visited Hs Ht Hv Hnt Hf; [lia|]. cbn [reachable_visit].
  rewrite (Master_Some _ s Hlk Hs), (Master_Some _ t Hlk Ht). cbn [mbind option_bind].
  destruct (master_top _ s Hlk Hs) as (_ & Hsl & group & Hgr & _).
  destruct (master_top _ t Hlk Ht) as (_ & Htl & _).
  pose proof (master_idem _ t Hlk Ht) as Hidem.
  set (start := master (m_groups m) s) in *. set (target := master (m_groups m) t) in *.
  destruct (N.eqb_spec start target) as [Heq|Hne].
  { eexists. split; [done|]. exists start. split; [done|]. by rewrite Heq. }
  pose proof (ExchangeSet_law visited start) as Hlaw. pose proof (ExchangeSet_old visited start) as Hold.
  destruct (ns_ExchangeSet visited start) as [visited1 old]. cbn [fst snd] in *. subst old.
  case_bool_decide as Hin.
  { eexists. split; [done|]. rewrite union_singleton_mem in Hlaw by done.
    unfold search_post. rewrite Hlaw. split; [|by intros ? ->].
    by split_and!. }
  rewrite Hgr. cbn [mbind option_bind]. destruct (logical_children_ok m start group Hok Hgr) as (children & -> & Hch).
  cbn [mbind option_bind].
  assert (Hedge : forall y, memo_edge m start y <-> exists c child, c ∈ children /\ (m_groups m).[c] = Some child /\
    g_fScalar child = false /\ y = master (m_groups m) c).
  { intros y. split.
    - intros (g & e & x & c & child & Hg & He & Hx & Hl & Hc & Hcl & Hsc & ->). rewrite Hgr in Hg. injection Hg as <-.
      exists c, child. split_and!; [|done..]. apply Hch. by exists e, x.
    - intros (c & child & (e & x & He & Hx & Hl & Hc)%Hch & Hcl & Hsc & ->). by exists group, e, x, c, child. }
  eapply returns_mono.
  { apply (any_reachable_ok _ m target children visited1); [done|done| | | |].
    - intros c (e & x & _ & Hx & _ & Hc)%Hch. by eapply mo_children.
    - rewrite Hlaw. intros x [->%elem_of_singleton|?]%elem_of_union; [done|by apply Hv].
    - rewrite Hlaw. intros [?%elem_of_singleton|?]%elem_of_union; [congruence|done].
    - intros c v Hc Hsub Hr Hn. pose proof (IH c target v) as IHc. rewrite Hidem in IHc. apply IHc; [|done|done|done|].
      + apply Hch in Hc as (e & x & _ & Hx & _ & Hc). by eapply mo_children.
      + apply subseteq_size in Hsub. rewrite Hlaw, size_union_singleton in Hsub by done.
        assert (size (to_gset v) <= length (m_groups m))%nat; [|lia].
        rewrite <-(Nat2N.id (length (m_groups m))). by apply size_below. }
  intros [[] v'] Hp.
  - destruct Hp as (x & Hx & Hr). exists start. split; [done|]. eapply rtc_l; [by apply Hedge|done].
  - destruct Hp as [(Hsub & Hrg & Htv & Hcl) Hall]. rewrite Hlaw in Hsub, Hcl.
    split; [|intros ? ->; set_solver]. split_and!; [set_solver|done|done|].
    intros x y Hx Hxv He. destruct (decide (x = start)) as [->|Hxs].
    + apply Hall. by apply Hedge.
    + apply (Hcl x y Hx); [set_solver|done].
Qed.

Lemma FReachable_ok m pgroupStart pgroupTarget start target
    (Hok : memo_ok m) (Hs : (m_groups m).[pgroupStart] = Some start) (Ht : (m_groups m).[pgroupTarget] = Some target) :
  exists found, FReachable (BS := BS) m pgroupStart pgroupTarget = Some found /\
    (found = true <-> g_fScalar start = false /\ g_fScalar target = false /\ memo_path m pgroupStart pgroupTarget).
Proof.
  unfold FReachable. rewrite Hs, Ht. cbn [mbind option_bind].
  destruct (g_fScalar start) eqn:Es; [exists false; split; [done|]; naive_solver|].
  destruct (g_fScalar target) eqn:Et; [exists false; split; [done|]; naive_solver|]. cbn [orb].
  apply lookup_N_lt in Hs, Ht.
  destruct (reachable_visit_ok (S (length (m_groups m))) m pgroupStart pgroupTarget ns_empty Hok Hs Ht)
    as ([found v'] & -> & Hp).
  - rewrite empty_law. set_solver.
  - rewrite empty_law. set_solver.
  - lia.
  - exists found. split; [done|]. unfold memo_path. destruct found.
    + destruct Hp as (s & -> & Hr). naive_solver.
    + destruct Hp as [(_ & _ & Hnt & Hcl) Hall]. split; [done|]. intros (_ & _ & Hr). exfalso. apply Hnt.
      rewrite empty_law in Hcl. specialize (Hall _ eq_refl). clear -Hr Hall Hcl.
      induction Hr as [x|x y z He Hr IH]; [done|]. apply IH. apply (Hcl x y Hall); [set_solver|done].
Qed.

(** [FReachable] always ends and is exact: for relational groups it answers
    whether there is a path from the class of the first to that of the second
    through the children of logical group expressions. *)
Theorem FReachable_exact m pgroupStart pgroupTarget start target
    (Hok : memo_ok m) (Hs : (m_groups m).[pgroupStart] = Some start) (Ht : (m_groups m).[pgroupTarget] = Some target) :
  exists found, FReachable (BS := BS) m pgroupStart pgroupTarget = Some found /\
    (found = true <-> g_fScalar start = false /\ g_fScalar target = false /\ memo_path m pgroupStart pgroupTarget).
Proof. by apply FReachable_ok. Qed.
End reachability.

(** ** Witnesses *)

(** Groups 0 and 1 are duplicates of 2; 3 and 4 are on their own. *)
Definition sample_groups : list CGroup :=
  [MkGroup false (Some 1) [] [] false; MkGroup false (Some 2) [] [] false; MkGroup false None [] [] false;
   MkGroup false None [] [] false; MkGroup false None [] [] false].

Lemma sample_groups_ok : links_ok sample_groups.
Proof.
  intros g group d Hg Hd. cut (g < 5); [|by apply lookup_N_lt in Hg].
  intros Hlt. assert (g = 0 \/ g = 1 \/ g = 2 \/ g = 3 \/ g = 4) as Hc by lia.
  destruct Hc as [->|[->|[->|[->| ->]]]]; cbv in Hg; injection Hg as <-; cbn in Hd; [..|done|done|done];
    injection Hd as <-; cbn; lia.
Qed.

Lemma MarkDuplicates_merges_witness :
  exists gs', MarkDuplicates 0 3 sample_groups = Some gs' /\ merged sample_groups 0 3 gs' /\
    FDuplicateGroups gs' 0 3 = Some true.
Proof. apply (MarkDuplicates_merges 0 3 sample_groups); [apply sample_groups_ok|cbn; lia|cbn; lia|done]. Defined.

(** Group 3 joins the scalar group 2 and the groups 0 and 1. *)
Definition sample_gexpr (id : EOperatorId) (children : list N) (g : N) : CGroupExpression :=
  MkGExpr (MkOperator id 0 false false None 0) children 0 None false (Some g) None false.
Definition sample_reach : CMemo :=
  MkMemo [MkGroup false None [0] [] false; MkGroup false None [1] [] false;
          MkGroup true None [2] [] false; MkGroup false None [3] [] false]
    [sample_gexpr (EopOther 0) [] 0; sample_gexpr (EopOther 0) [] 1; sample_gexpr (EopOther 1) [] 2;
     sample_gexpr EopLogicalInnerJoin [0; 1; 2] 3] ∅ None.

Lemma sample_reach_ok : memo_ok sample_reach.
Proof.
  assert (Hcase : forall i : N, i < 4 -> i = 0 \/ i = 1 \/ i = 2 \/ i = 3) by lia. split.
  - intros g group d Hg Hd. destruct (Hcase g (lookup_N_lt _ _ _ Hg)) as [->|[->|[->| ->]]];
      cbv in Hg; injection Hg as <-; done.
  - intros g group e Hg He. destruct (Hcase g (lookup_N_lt _ _ _ Hg)) as [->|[->|[->| ->]]];
      cbv in Hg; injection Hg as <-; cbn in He; apply list_elem_of_singleton in He; subst; cbv; by eexists.
  - intros e x c Hx Hc. destruct (Hcase e (lookup_N_lt _ _ _ Hx)) as [->|[->|[->| ->]]];
      cbv in Hx; injection Hx as <-; cbn in Hc; [by apply elem_of_nil in Hc..|].
    rewrite !elem_of_cons, elem_of_nil in Hc. cbn. lia.
Qed.

Lemma FReachable_exact_witness :
  exists found, FReachable (BS := gset N) (HO := sample_identity) sample_reach 3 1 = Some found /\
    (found = true <-> false = false /\ false = false /\ memo_path (HO := sample_identity) sample_reach 3 1).
Proof.
  apply (FReachable_exact (BS := gset N) (HO := sample_identity) sample_reach 3 1
           (MkGroup false None [3] [] false) (MkGroup false None [1] [] false)); [apply sample_reach_ok|reflexivity..].
Defined.

(** Group 0 is a duplicate of group 1 and still has its expression, whose input is
    group 2: the search, which looks at the list of the master only, does not find
    the way. *)
Example duplicate_not_searched :
  FReachable (BS := gset N) (HO := sample_identity)
    (MkMemo [MkGroup false (Some 1) [0] [] false; MkGroup false None [1] [] false; MkGroup false None [2] [] false]
       [sample_gexpr EopLogicalInnerJoin [2; 2] 0; sample_gexpr (EopOther 0) [] 1; sample_gexpr (EopOther 0) [] 2] ∅ None)
    0 2 = Some false.
Proof. vm_compute. reflexivity. Qed.
