(* ===== verification/Memo.v ===== *)
(** * Inserting expressions into the memo

    Model of the insertion of expressions (libgpopt/src/search/CMemo.cpp,
    CGroupExpression.cpp, CGroupProxy.cpp and libgpopt/src/engine/CEngine.cpp):
    the hash table of group expressions, looking an expression up before it is
    added, new groups, and the recursive insertion of an expression tree.  Left
    out: derived properties and statistics of a new group, the flags a group keeps
    about its operators, and tracing. *)

From S2P Require Import Prelude BitVector BitSet NodeSet Expression MemoGroups.

Open Scope N_scope.

(** [GPOPT_MEMO_HT_BUCKETS] *)
Definition MEMO_HT_BUCKETS : N := 50000.

Section memo.
Context {BS : Type} {HB : NodeSet BS} {HO : OperatorIdentity}.
(** [CXform::FDSLShell] *)
Context (FDSLShell : N -> bool).
Implicit Types (m : CMemo) (gs : list CGroup) (gexpr : CGroupExpression) (g e : N).

(** ** Hash and equality *)

(** A group whose expressions were all moved counts as the group they went to. *)
Definition CGroup_HashValue gs g : option N :=
  group ← gs.[g];
  let id := match m_pgroupDuplicate group with
            | Some d => if UlGExprs group =? 0 then d else g
            | None => g
            end in
  Some (HashULONG id).

Definition CGroupExpression_HashValue gs (pop : COperator) (children : list N) : option N :=
  hashes ← mapM (CGroup_HashValue gs) children;
  Some (fold_left CombineHashes hashes (OpHashValue pop)).

Fixpoint FMatchGroups gs (l1 l2 : list N) : option bool :=
  match l1, l2 with
  | g1 :: l1, g2 :: l2 =>
      if g1 =? g2 then FMatchGroups gs l1 l2 else
      duplicates ← FDuplicateGroups gs g1 g2;
      if (duplicates : bool) then FMatchGroups gs l1 l2 else Some false
  | _, _ => Some true
  end.

(** [m_pdrgpgroupSorted], which the constructor computes from the ids. *)
Definition m_pdrgpgroupSorted gexpr : list N := merge_sort N.le (m_pdrgpgroup gexpr).

Definition CGroupExpression_Matches gs gexpr1 gexpr2 : option bool :=
  let arity := length (m_pdrgpgroup gexpr1) in
  if negb (arity =? length (m_pdrgpgroup gexpr2))%nat then Some false else
  if negb (OpMatches (ge_pop gexpr1) (ge_pop gexpr2)) then Some false else
  if (arity =? 0)%nat then Some true else
  if (arity =? 1)%nat || FInputOrderSensitive (ge_pop gexpr1)
  then FMatchGroups gs (m_pdrgpgroup gexpr1) (m_pdrgpgroup gexpr2)
  else FMatchGroups gs (m_pdrgpgroupSorted gexpr1) (m_pdrgpgroupSorted gexpr2).

(** ** The hash table *)

(** The first entry of a chain that equals the key. *)
Fixpoint find_match m gexpr (chain : list N) : option (option N) :=
  match chain with
  | [] => Some None
  | e :: chain =>
      entry ← (m_gexprs m).[e];
      matches ← CGroupExpression_Matches (m_groups m) entry gexpr;
      if (matches : bool) then Some (Some e) else find_match m gexpr chain
  end.

Definition bucket_of m gexpr : option N :=
  hash ← CGroupExpression_HashValue (m_groups m) (ge_pop gexpr) (m_pdrgpgroup gexpr);
  Some (hash mod MEMO_HT_BUCKETS).

Definition sht_Find m gexpr : option (option N) :=
  bucket ← bucket_of m gexpr;
  find_match m gexpr (default [] (m_sht m !! bucket)).

(** ** Adding an expression *)

Definition with_group (g : N) gexpr : CGroupExpression :=
  MkGExpr (ge_pop gexpr) (m_pdrgpgroup gexpr) (m_exfidOrigin gexpr) (m_pgexprOrigin gexpr)
    (m_fIntermediate gexpr) (Some g) (m_pgexprDuplicate gexpr) (ge_fExplored gexpr).

Definition append_gexpr (e : N) (group : CGroup) : CGroup :=
  MkGroup (g_fScalar group) (m_pgroupDuplicate group) (m_listGExprs group ++ [e])
    (m_listDupGExprs group) (g_fExplored group).

(** [shta.Insert] and [CGroupProxy::Insert]: at the head of its chain, at the end
    of its group. *)
Definition insert_gexpr (target : N) gexpr m : option CMemo :=
  bucket ← bucket_of m gexpr;
  let e := N.of_nat (length (m_gexprs m)) in
  Some (MkMemo (alter (append_gexpr e) (N.to_nat target) (m_groups m))
          (m_gexprs m ++ [with_group target gexpr])
          (<[bucket := e :: default [] (m_sht m !! bucket)]> (m_sht m)) (m_pgroupRoot m)).

(** [CMemo::Add]: the next id. *)
Definition add_group (fScalar : bool) m : CMemo :=
  MkMemo (m_groups m ++ [MkGroup fScalar None [] [] false]) (m_gexprs m) (m_sht m) (m_pgroupRoot m).

(** [CMemo::PgroupInsert]: the group of an equal expression, or that of the new
    one; [None] as target asks for a new group. *)
Definition CMemo_PgroupInsert (pgroupTarget : option N) gexpr m : option (N * CMemo) :=
  found ← sht_Find m gexpr;
  match found with
  | Some e =>
      entry ← (m_gexprs m).[e];
      container ← m_pgroup entry;
      Some (container, m)
  | None =>
      let '(target, m) :=
        match pgroupTarget with
        | Some target => (target, m)
        | None => (N.of_nat (length (m_groups m)), add_group (FScalar (ge_pop gexpr)) m)
        end in
      m ← insert_gexpr target gexpr m;
      Some (target, m)
  end.

(** ** Inserting an expression tree *)

(** The origins go back to older expressions, so the chain is no longer than
    their number. *)
Fixpoint dsl_provenance (fuel : nat) m (pgexpr : option N) : option bool :=
  match pgexpr with
  | None => Some false
  | Some e =>
      match fuel with
      | O => None
      | S fuel =>
          gexpr ← (m_gexprs m).[e];
          if FDSLShell (m_exfidOrigin gexpr) then Some true
          else dsl_provenance fuel m (m_pgexprOrigin gexpr)
      end
  end.

Definition FHasDSLProvenance m (e : N) : option bool := dsl_provenance (length (m_gexprs m)) m (Some e).

Definition pgexpr_group m (e : N) : option N := gexpr ← (m_gexprs m).[e]; m_pgroup gexpr.

(** The guard against closing a cycle: a child that already reaches the target. *)
Fixpoint closes_cycle m (children : list N) (target : N) : option bool :=
  match children with
  | [] => Some false
  | child :: children =>
      group ← (m_groups m).[child];
      if g_fScalar group then closes_cycle m children target else
      reaches ← FReachable (BS := BS) m child target;
      if (reaches : bool) then Some true else closes_cycle m children target
  end.

(** A child bound to a group keeps it; another child is inserted. *)
Definition insert_child (insert : CExpression -> CMemo -> option (N * CMemo)) (child : CExpression) m
    : option (N * CMemo) :=
  if FPatternLeaf (Pop child)
  then pgexpr ← Pgexpr child; g ← pgexpr_group m pgexpr; Some (g, m)
  else insert child m.

Fixpoint InsertExpressionChildren (insert : CExpression -> CMemo -> option (N * CMemo))
    (children : list CExpression) m : option (list N * CMemo) :=
  match children with
  | [] => Some ([], m)
  | child :: children =>
      '(g, m) ← insert_child insert child m;
      '(groups, m) ← InsertExpressionChildren insert children m;
      Some (g :: groups, m)
  end.

(** [pgexprOrigin] may be null for the query's own expression; what the DSL
    attaches to an insertion for tracing is left out. *)
Fixpoint CEngine_PgroupInsert (pgroupTarget : option N) (pexpr : CExpression) (exfidOrigin : N)
    (pgexprOrigin : option N) (fIntermediate : bool) m : option (N * CMemo) :=
  match pexpr with
  | MkExpression _ _ (Some pgexpr) => g ← pgexpr_group m pgexpr; Some (g, m)
  | MkExpression pop children None =>
      '(groups, m) ← InsertExpressionChildren
        (fun child m => CEngine_PgroupInsert None child exfidOrigin pgexprOrigin true m) children m;
      origin_dsl ← (match pgexprOrigin with Some e => FHasDSLProvenance m e | None => Some false end);
      let fDSLProvenance := FDSLShell exfidOrigin || origin_dsl in
      cycle ← (match pgroupTarget with
               | Some target => if fDSLProvenance then closes_cycle m groups target else Some false
               | None => Some false
               end);
      match pgroupTarget, cycle with
      | Some target, true => Some (target, m)
      | _, _ =>
          CMemo_PgroupInsert pgroupTarget
            (MkGExpr pop groups exfidOrigin pgexprOrigin fIntermediate None None false) m
      end
  end.

(** [PexprGroupLeaf]: an expression bound to the first logical expression of a
    group. *)
Definition PexprGroupLeaf m g : option CExpression :=
  group ← (m_groups m).[g];
  gexprs ← mapM (fun e => gexpr ← (m_gexprs m).[e]; Some (e, gexpr)) (m_listGExprs group);
  '(e, gexpr) ← head (filter (fun x => FLogical (ge_pop x.2) = true) gexprs);
  Some (MkExpression (ge_pop gexpr) [] (Some e)).

End memo.

Section facts.
Context {BS : Type} {HB : NodeSet BS} {HO : OperatorIdentity}.
Implicit Types (m : CMemo) (gs : list CGroup) (gexpr : CGroupExpression) (g e : N).

(** ** The invariant of the memo *)

(** The expression a rule started from is older than the one it gave. *)
Definition origins_older m : Prop :=
  forall e gexpr o, (m_gexprs m).[e] = Some gexpr -> m_pgexprOrigin gexpr = Some o -> o < e.

(** Groups and expressions refer to what is there; every expression is in the
    list of its group and of no other, which is of its kind; origins are older. *)
Record memo_wf m : Prop := {
  mw_ok : memo_ok m;
  mw_group : forall e gexpr, (m_gexprs m).[e] = Some gexpr ->
    exists g group, m_pgroup gexpr = Some g /\ (m_groups m).[g] = Some group /\
      e ∈ m_listGExprs group /\ g_fScalar group = FScalar (ge_pop gexpr);
  mw_member : forall g group e gexpr, (m_groups m).[g] = Some group -> e ∈ m_listGExprs group ->
    (m_gexprs m).[e] = Some gexpr -> m_pgroup gexpr = Some g;
  mw_table : forall bucket e, e ∈ default [] (m_sht m !! bucket) -> is_Some ((m_gexprs m).[e]);
  mw_origin : origins_older m
}.

Definition gexprs_kept m m' : Prop :=
  forall e gexpr, (m_gexprs m).[e] = Some gexpr -> (m_gexprs m').[e] = Some gexpr.

(** What insertion keeps: expressions, and of a group all but its list, which
    grows; new groups have no links. *)
Definition extends m m' : Prop :=
  gexprs_kept m m' /\
  (forall g group, (m_groups m).[g] = Some group -> exists group', (m_groups m').[g] = Some group' /\
     m_pgroupDuplicate group' = m_pgroupDuplicate group /\ g_fScalar group' = g_fScalar group /\
     m_listGExprs group ⊆ m_listGExprs group') /\
  (forall g group', (m_groups m').[g] = Some group' -> N.of_nat (length (m_groups m)) <= g ->
     m_pgroupDuplicate group' = None).

#[global] Instance extends_preorder : PreOrder extends.
Proof.
  split.
  - intros m. split_and!; [by intros ??|by intros g group Hg; exists group|]. intros g group Hg%lookup_N_lt. lia.
  - intros m1 m2 m3 (He1 & Hg1 & Hn1) (He2 & Hg2 & Hn2). split_and!; [by intros ???; apply He2, He1| |].
    + intros g group (group2 & H2 & Hd2 & Hs2 & Hl2)%Hg1. apply Hg2 in H2 as (group3 & H3 & Hd3 & Hs3 & Hl3).
      exists group3. split_and!; [done|congruence|congruence|set_solver].
    + intros g group3 H3 Hge. destruct (N.lt_ge_cases g (N.of_nat (length (m_groups m2)))) as [Hlt|]; [|by apply (Hn2 g)].
      destruct (lookup_lt_is_Some_2 (m_groups m2) (N.to_nat g)) as [group2 Hgr2]; [lia|].
      pose proof (Hn1 g group2 Hgr2 Hge). destruct (Hg2 g group2 Hgr2) as (group3' & H3' & ? & _). congruence.
Qed.

Lemma extends_gexpr m m' e gexpr :
  extends m m' -> (m_gexprs m).[e] = Some gexpr -> (m_gexprs m').[e] = Some gexpr.
Proof. intros (He & _). apply He. Qed.

Lemma extends_in_range m m' g :
  extends m m' -> g < N.of_nat (length (m_groups m)) -> g < N.of_nat (length (m_groups m')).
Proof.
  intros (_ & Hg & _) Hlt. destruct (lookup_lt_is_Some_2 (m_groups m) (N.to_nat g)) as [group Hgr]; [lia|].
  apply Hg in Hgr as (group' & Hgr' & _). by eapply lookup_N_lt.
Qed.

(** Links are kept, so masters and the tests on groups are. *)
Lemma extends_master m m' g :
  extends m m' -> links_ok (m_groups m) -> links_ok (m_groups m') -> g < N.of_nat (length (m_groups m)) ->
  master (m_groups m') g = master (m_groups m) g.
Proof.
  intros (_ & Hext & _) Hok Hok'. revert g. apply (links_ind (m_groups m) _ Hok). intros g Hg IH.
  destruct (lookup_lt_is_Some_2 (m_groups m) (N.to_nat g)) as [group Hgr]; [lia|].
  destruct (Hext g group Hgr) as (group' & Hgr' & Hd & _).
  rewrite (master_step _ _ _ Hok Hgr), (master_step _ _ _ Hok' Hgr'), Hd.
  destruct (m_pgroupDuplicate group) as [d|] eqn:Hdup; [by eapply IH|done].
Qed.

Lemma extends_FDuplicateGroups m m' g1 g2 :
  extends m m' -> g1 < N.of_nat (length (m_groups m)) -> g2 < N.of_nat (length (m_groups m)) ->
  FDuplicateGroups (m_groups m') g1 g2 = FDuplicateGroups (m_groups m) g1 g2.
Proof.
  intros (_ & Hext & _) H1 H2. unfold FDuplicateGroups.
  destruct (lookup_lt_is_Some_2 (m_groups m) (N.to_nat g1)) as [gr1 Hg1]; [lia|].
  destruct (lookup_lt_is_Some_2 (m_groups m) (N.to_nat g2)) as [gr2 Hg2]; [lia|].
  destruct (Hext _ _ Hg1) as (gr1' & Hg1' & Hd1 & _). destruct (Hext _ _ Hg2) as (gr2' & Hg2' & Hd2 & _).
  rewrite Hg1, Hg2, Hg1', Hg2'. cbn [mbind option_bind]. by rewrite Hd1, Hd2.
Qed.

(** ** Matching *)

Definition in_range gs (l : list N) : Prop := forall g, g ∈ l -> g < N.of_nat (length gs).
Definition same_class gs g1 g2 : Prop := master gs g1 = master gs g2.

#[global] Instance same_class_dec gs g1 g2 : Decision (same_class gs g1 g2).
Proof. unfold same_class. apply _. Defined.

#[global] Instance same_class_equivalence gs : Equivalence (same_class gs).
Proof. split; unfold same_class; [by intros ?|by intros ???|intros ???; congruence]. Qed.

Lemma in_range_cons gs g l : in_range gs (g :: l) -> g < N.of_nat (length gs) /\ in_range gs l.
Proof. intros H. split; [apply H; left|intros x Hx; apply H; by right]. Qed.

Lemma FDuplicateGroups_total gs g1 g2 :
  g1 < N.of_nat (length gs) -> g2 < N.of_nat (length gs) -> is_Some (FDuplicateGroups gs g1 g2).
Proof.
  intros H1 H2. unfold FDuplicateGroups.
  destruct (lookup_lt_is_Some_2 gs (N.to_nat g1)) as [gr1 ->]; [lia|].
  destruct (lookup_lt_is_Some_2 gs (N.to_nat g2)) as [gr2 ->]; [lia|]. eauto.
Qed.

Lemma FMatchGroups_total gs l1 l2 : in_range gs l1 -> in_range gs l2 -> is_Some (FMatchGroups gs l1 l2).
Proof.
  revert l2. induction l1 as [|g1 l1 IH]; intros [|g2 l2] H1 H2; cbn [FMatchGroups]; [eauto..|].
  apply in_range_cons in H1 as [? ?], H2 as [? ?]. destruct (N.eqb g1 g2); [by apply IH|].
  destruct (FDuplicateGroups_total gs g1 g2) as [[] ->]; [done..| |]; cbn [mbind option_bind]; eauto.
Qed.

Lemma FMatchGroups_class gs l1 l2 :
  links_ok gs -> length l1 = length l2 -> FMatchGroups gs l1 l2 = Some true -> Forall2 (same_class gs) l1 l2.
Proof.
  intros Hok. revert l2. induction l1 as [|g1 l1 IH]; intros [|g2 l2] Hl; try done. cbn [FMatchGroups].
  injection Hl as Hl. destruct (N.eqb_spec g1 g2) as [->|]; [intros Hm; constructor; [done|by apply IH]|].
  destruct (FDuplicateGroups gs g1 g2) as [[]|] eqn:Hd; [|done..]. cbn [mbind option_bind].
  intros Hm. constructor; [by apply FDuplicateGroups_master|by apply IH].
Qed.

Lemma extends_FMatchGroups m m' l1 l2 :
  extends m m' -> in_range (m_groups m) l1 -> in_range (m_groups m) l2 ->
  FMatchGroups (m_groups m') l1 l2 = FMatchGroups (m_groups m) l1 l2.
Proof.
  intros He. revert l2. induction l1 as [|g1 l1 IH]; intros [|g2 l2] H1 H2; cbn [FMatchGroups]; try done.
  apply in_range_cons in H1 as [? ?], H2 as [? ?].
  rewrite (extends_FDuplicateGroups m m') by done. by rewrite IH.
Qed.

Lemma in_range_sorted gs gexpr : in_range gs (m_pdrgpgroup gexpr) -> in_range gs (m_pdrgpgroupSorted gexpr).
Proof. intros H g Hg. apply H. revert Hg. unfold m_pdrgpgroupSorted. by rewrite merge_sort_Permutation. Qed.

Lemma m_pdrgpgroupSorted_length gexpr : length (m_pdrgpgroupSorted gexpr) = length (m_pdrgpgroup gexpr).
Proof. apply Permutation_length, merge_sort_Permutation. Qed.

(** [gexpr] is [pop] over [groups], up to classes of duplicates and, where it does
    not matter, up to their order. *)
Definition denotes gs gexpr (pop : COperator) (groups : list N) : Prop :=
  OpMatches (ge_pop gexpr) pop = true /\
  exists l, l ≡ₚ m_pdrgpgroup gexpr /\ (FInputOrderSensitive pop = true -> l = m_pdrgpgroup gexpr) /\
    Forall2 (same_class gs) l groups.

(** What insertion and the marking of duplicates keep: an expression stays in its
    group, of its kind, and classes only grow together. *)
Definition leads m m' : Prop :=
  gexprs_kept m m' /\
  (forall g group, (m_groups m).[g] = Some group -> exists group', (m_groups m').[g] = Some group' /\
     g_fScalar group' = g_fScalar group /\ m_listGExprs group ⊆ m_listGExprs group') /\
  (forall g, g < N.of_nat (length (m_groups m)) -> master (m_groups m') g = master (m_groups m') (master (m_groups m) g)).

Lemma extends_leads m m' : extends m m' -> links_ok (m_groups m) -> links_ok (m_groups m') -> leads m m'.
Proof.
  intros He Hl Hl'. split_and!; [apply He| |].
  - intros g group (group' & ? & _ & ? & ?)%(proj1 (proj2 He)). by exists group'.
  - intros g Hg. destruct (master_top _ g Hl Hg) as (_ & Hr & _). by rewrite !(extends_master m m'), master_idem.
Qed.

Lemma leads_in_range m m' g : leads m m' -> g < N.of_nat (length (m_groups m)) -> g < N.of_nat (length (m_groups m')).
Proof.
  intros (_ & Hg & _) Hlt. destruct (lookup_lt_is_Some_2 (m_groups m) (N.to_nat g)) as [group Hgr]; [lia|].
  apply Hg in Hgr as (group' & Hgr' & _). by eapply lookup_N_lt.
Qed.

Lemma leads_refl m : links_ok (m_groups m) -> leads m m.
Proof. intros Hl. apply extends_leads; [reflexivity|done|done]. Qed.

Lemma leads_trans m1 m2 m3 : links_ok (m_groups m1) -> leads m1 m2 -> leads m2 m3 -> leads m1 m3.
Proof.
  intros Hl H12 H23. assert (Hr : forall g, g < N.of_nat (length (m_groups m1)) -> g < N.of_nat (length (m_groups m2)))
    by (intros g; by apply leads_in_range).
  destruct H12 as (Hx1 & Hg1 & Hm1), H23 as (Hx2 & Hg2 & Hm2). split_and!; [by intros ???; apply Hx2, Hx1| |].
  - intros g group (group2 & (group3 & ? & ? & ?)%Hg2 & ? & ?)%Hg1. exists group3. split_and!; [done|congruence|set_solver].
  - intros g Hg. destruct (master_top _ g Hl Hg) as (_ & Hrt & _).
    rewrite (Hm2 g (Hr g Hg)), (Hm1 g Hg). symmetry. by apply Hm2, Hr.
Qed.

Lemma leads_class m m' a b :
  leads m m' -> a < N.of_nat (length (m_groups m)) -> b < N.of_nat (length (m_groups m)) ->
  same_class (m_groups m) a b -> same_class (m_groups m') a b.
Proof. intros (_ & _ & Hm) Ha Hb Hc. unfold same_class. by rewrite Hm, Hc, <-Hm. Qed.

Lemma leads_Forall2_class m m' l1 l2 :
  leads m m' -> in_range (m_groups m) l1 -> in_range (m_groups m) l2 ->
  Forall2 (same_class (m_groups m)) l1 l2 -> Forall2 (same_class (m_groups m')) l1 l2.
Proof.
  intros He H1 H2. induction 1 as [|g1 g2 l1 l2 Hc Hl IH]; constructor.
  - apply in_range_cons in H1 as [? _], H2 as [? _]. by apply (leads_class m m').
  - apply in_range_cons in H1 as [_ ?], H2 as [_ ?]. by apply IH.
Qed.

Lemma leads_denotes m m' gexpr pop groups :
  leads m m' -> in_range (m_groups m) (m_pdrgpgroup gexpr) -> in_range (m_groups m) groups ->
  denotes (m_groups m) gexpr pop groups -> denotes (m_groups m') gexpr pop groups.
Proof.
  intros He H1 H2 (Hop & l & Hp & Hl & Hc). split; [done|]. exists l. split_and!; [done..|].
  eapply leads_Forall2_class; [done| |done|done]. intros g Hg. apply H1. by rewrite <-Hp.
Qed.

Section laws.
Context {HL : OperatorLaws}.

Lemma Matches_total gs gexpr1 gexpr2 :
  in_range gs (m_pdrgpgroup gexpr1) -> in_range gs (m_pdrgpgroup gexpr2) ->
  is_Some (CGroupExpression_Matches gs gexpr1 gexpr2).
Proof.
  intros H1 H2. unfold CGroupExpression_Matches. cbv zeta.
  repeat match goal with |- is_Some (if ?b then _ else _) => destruct b; [eauto using FMatchGroups_total|] end.
  apply FMatchGroups_total; by apply in_range_sorted.
Qed.

Lemma Matches_denotes gs gexpr1 gexpr2 :
  links_ok gs -> CGroupExpression_Matches gs gexpr1 gexpr2 = Some true ->
  denotes gs gexpr1 (ge_pop gexpr2) (m_pdrgpgroup gexpr2).
Proof.
  intros Hok. unfold CGroupExpression_Matches. cbv zeta.
  destruct (Nat.eqb_spec (length (m_pdrgpgroup gexpr1)) (length (m_pdrgpgroup gexpr2))) as [Hl|]; [|done].
  destruct (OpMatches _ _) eqn:Hop; [|done]. cbn [negb]. intros Hm. split; [done|].
  destruct (_ =? 0)%nat eqn:H0; [|destruct (_ || _)%bool eqn:H1].
  - exists (m_pdrgpgroup gexpr1). split_and!; [done..|]. apply Nat.eqb_eq in H0.
    by destruct (m_pdrgpgroup gexpr1), (m_pdrgpgroup gexpr2).
  - exists (m_pdrgpgroup gexpr1). split_and!; [done..|]. by apply FMatchGroups_class.
  - apply orb_false_iff in H1 as [_ Ho]. apply FMatchGroups_class in Hm; [|done|by rewrite !m_pdrgpgroupSorted_length].
    destruct (Permutation_Forall2 (merge_sort_Permutation N.le (m_pdrgpgroup gexpr2)) (symmetry Hm)) as (l & Hp & Hf).
    exists l. split_and!.
    + rewrite <-Hp. apply merge_sort_Permutation.
    + rewrite <-(OpMatches_order _ _ Hop). congruence.
    + by symmetry.
Qed.

Lemma extends_Matches m m' gexpr1 gexpr2 :
  extends m m' -> in_range (m_groups m) (m_pdrgpgroup gexpr1) -> in_range (m_groups m) (m_pdrgpgroup gexpr2) ->
  CGroupExpression_Matches (m_groups m') gexpr1 gexpr2 = CGroupExpression_Matches (m_groups m) gexpr1 gexpr2.
Proof.
  intros He H1 H2. unfold CGroupExpression_Matches. cbv zeta.
  rewrite (extends_FMatchGroups m m' (m_pdrgpgroup gexpr1)), (extends_FMatchGroups m m' (m_pdrgpgroupSorted gexpr1));
    try done; by apply in_range_sorted.
Qed.

(** ** Finding and adding an expression *)

Lemma find_match_spec m gexpr chain :
  memo_ok m -> in_range (m_groups m) (m_pdrgpgroup gexpr) ->
  (forall e, e ∈ chain -> is_Some ((m_gexprs m).[e])) ->
  returns (fun found => match found with
    | Some e => exists entry, (m_gexprs m).[e] = Some entry /\
        CGroupExpression_Matches (m_groups m) entry gexpr = Some true
    | None => forall e entry, e ∈ chain -> (m_gexprs m).[e] = Some entry ->
        CGroupExpression_Matches (m_groups m) entry gexpr = Some false
    end) (find_match m gexpr chain).
Proof.
  intros Hwf Hr. induction chain as [|e chain IH]; intros Hch; cbn [find_match].
  { exists None. split; [done|]. by intros e entry ?%elem_of_nil. }
  destruct (Hch e) as [entry He]; [left|]. rewrite He. cbn [mbind option_bind].
  destruct (Matches_total (m_groups m) entry gexpr) as [b Hb]; [|done|].
  { intros g Hg. by eapply mo_children. }
  rewrite Hb. cbn [mbind option_bind]. destruct b; [by exists (Some e); split; [|exists entry]|].
  eapply returns_mono; [apply IH; intros; apply Hch; by right|]. intros [e'|] Hf; [done|].
  intros x xe [->|Hin]%elem_of_cons Hx; [congruence|by eapply Hf].
Qed.

Lemma bucket_of_total m gexpr :
  in_range (m_groups m) (m_pdrgpgroup gexpr) -> is_Some (bucket_of m gexpr).
Proof.
  intros Hr. unfold bucket_of, CGroupExpression_HashValue.
  destruct (mapM_is_Some_2 (CGroup_HashValue (m_groups m)) (m_pdrgpgroup gexpr)) as [hs ->]; [|cbn; eauto].
  apply Forall_forall. intros g Hg%Hr. unfold compose, CGroup_HashValue.
  destruct (lookup_lt_is_Some_2 (m_groups m) (N.to_nat g)) as [group ->]; [lia|]. cbn. eauto.
Qed.

Lemma sht_Find_spec m gexpr :
  memo_wf m -> in_range (m_groups m) (m_pdrgpgroup gexpr) ->
  exists bucket, bucket_of m gexpr = Some bucket /\
  returns (fun found => match found with
    | Some e => exists entry, (m_gexprs m).[e] = Some entry /\
        CGroupExpression_Matches (m_groups m) entry gexpr = Some true
    | None => forall e entry, e ∈ default [] (m_sht m !! bucket) -> (m_gexprs m).[e] = Some entry ->
        CGroupExpression_Matches (m_groups m) entry gexpr = Some false
    end) (sht_Find m gexpr).
Proof.
  intros Hwf Hr. destruct (bucket_of_total m gexpr Hr) as [bucket Hb]. exists bucket. split; [done|].
  unfold sht_Find. rewrite Hb. cbn [mbind option_bind]. apply find_match_spec; [apply Hwf|done|].
  intros e. by eapply mw_table.
Qed.

Lemma add_group_extends fScalar m : extends m (add_group fScalar m).
Proof.
  split_and!; [by intros ??| |].
  - intros g group Hg. exists group. split_and!; [|done..]. by apply lookup_app_l_Some.
  - intros g group Hg Hge. apply lookup_app_Some in Hg as [Hg%lookup_lt_Some|[_ Hg]]; [lia|].
    destruct (N.to_nat g - length (m_groups m))%nat as [|[]]; [|done..]. by injection Hg as <-.
Qed.

Lemma add_group_wf fScalar m : memo_wf m -> memo_wf (add_group fScalar m).
Proof.
  intros Hwf. pose proof (add_group_extends fScalar m) as He. destruct Hwf as [[Hl Hx Hc] Hg Hm Ht Ho].
  split; [|intros e gexpr Hgx| |done..].
  - split; cbn [add_group m_groups m_gexprs] in *.
    + intros g group d Hgr Hd. rewrite length_app. cbn. apply lookup_app_Some in Hgr as [Hgr|[Hge Hgr]].
      * destruct (Hl g group d Hgr Hd). lia.
      * destruct (N.to_nat g - length (m_groups m))%nat as [|[]]; [|done..]. by injection Hgr as <-.
    + intros g group e Hgr Hin. apply lookup_app_Some in Hgr as [Hgr|[Hge Hgr]]; [by eapply Hx|].
      destruct (N.to_nat g - length (m_groups m))%nat as [|[]]; [|done..]. injection Hgr as <-. by apply elem_of_nil in Hin.
    + intros e gexpr c Hgx Hin. rewrite length_app. cbn. specialize (Hc e gexpr c Hgx Hin). lia.
  - destruct (Hg e gexpr Hgx) as (g & group & ? & Hgr & ? & ?). destruct He as (_ & He & _).
    destruct (He g group Hgr) as (group' & Hgr' & _ & ? & ?). exists g, group'. split_and!; [done|done|set_solver|congruence].
  - intros g group e gexpr Hgr Hin. apply lookup_app_Some in Hgr as [Hgr|[Hge Hgr]]; [by apply (Hm g group)|].
    destruct (N.to_nat g - length (m_groups m))%nat as [|[]]; [|done..]. injection Hgr as <-. by apply elem_of_nil in Hin.
Qed.

(** The expression added by [insert_gexpr]. *)
Abbreviation next_gexpr m := (N.of_nat (length (m_gexprs m))).

Lemma snoc_lookup {A} (l : list A) x (i : N) y :
  (l ++ [x]).[i] = Some y <-> l.[i] = Some y \/ (i = N.of_nat (length l) /\ y = x).
Proof.
  rewrite lookup_snoc_Some. split.
  - intros [[_ ?]|[? ?]]; [tauto|]. right. split; [lia|done].
  - intros [H|[-> ->]]; [left|right; split; [lia|done]]. split; [|done]. by eapply lookup_lt_Some.
Qed.

Lemma alter_lookup (f : CGroup -> CGroup) target gs g group :
  (alter f (N.to_nat target) gs).[g] = Some group <->
  exists group0, gs.[g] = Some group0 /\ group = if decide (g = target) then f group0 else group0.
Proof.
  destruct (decide (g = target)) as [->|Hne].
  - rewrite list_lookup_alter_eq, fmap_Some. naive_solver.
  - rewrite list_lookup_alter_ne by lia. naive_solver.
Qed.

Lemma insert_gexpr_extends target gexpr m m' : insert_gexpr target gexpr m = Some m' -> extends m m'.
Proof.
  unfold insert_gexpr. destruct (bucket_of m gexpr) as [bucket|]; [|done]. cbn [mbind option_bind].
  intros [= <-]. split_and!; cbn [m_groups m_gexprs].
  - intros e x Hx. apply snoc_lookup. by left.
  - intros g group Hg. exists (if decide (g = target) then append_gexpr (next_gexpr m) group else group).
    split; [apply alter_lookup; by exists group|]. destruct (decide _); cbn; split_and!; try done. set_solver.
  - intros g group Hg%lookup_N_lt. rewrite length_alter in Hg. lia.
Qed.

Lemma insert_gexpr_wf target group gexpr m :
  memo_wf m -> in_range (m_groups m) (m_pdrgpgroup gexpr) ->
  (m_groups m).[target] = Some group -> g_fScalar group = FScalar (ge_pop gexpr) ->
  (forall o, m_pgexprOrigin gexpr = Some o -> o < next_gexpr m) ->
  exists m', insert_gexpr target gexpr m = Some m' /\ memo_wf m' /\
    (m_gexprs m').[next_gexpr m] = Some (with_group target gexpr).
Proof.
  intros Hwf Hr Htg Hsc Horig. destruct (bucket_of_total m gexpr Hr) as [bucket Hb].
  unfold insert_gexpr. rewrite Hb. cbn [mbind option_bind]. eexists. split; [done|].
  assert (Hnew : (m_gexprs m ++ [with_group target gexpr]).[next_gexpr m] = Some (with_group target gexpr))
    by (apply snoc_lookup; by right).
  split; [|done]. destruct Hwf as [[Hl Hx Hc] Hg Hm Ht Ho].
  split; [split| | | |]; cbn [m_groups m_gexprs m_sht].
  - intros g gr d (gr0 & Hgr & ->)%alter_lookup Hd. rewrite length_alter. apply (Hl g gr0 d Hgr). by destruct (decide _).
  - intros g gr e (gr0 & Hgr & ->)%alter_lookup Hin. destruct (decide (g = target)).
    + cbn in Hin. apply elem_of_app in Hin as [Hin|Hin%list_elem_of_singleton]; [|subst; eauto].
      destruct (Hx g gr0 e Hgr Hin) as [x Hxe]. exists x. apply snoc_lookup. by left.
    + destruct (Hx g gr0 e Hgr Hin) as [x Hxe]. exists x. apply snoc_lookup. by left.
  - intros e x c [Hex|[-> ->]]%snoc_lookup Hin; rewrite length_alter; [by eapply Hc|by apply Hr].
  - intros e x [Hex|[-> ->]]%snoc_lookup.
    + destruct (Hg e x Hex) as (g & gr & ? & Hgr & ? & ?).
      exists g, (if decide (g = target) then append_gexpr (next_gexpr m) gr else gr).
      split_and!; [done|apply alter_lookup; by exists gr| |]; destruct (decide _); cbn; try done. set_solver.
    + exists target, (append_gexpr (next_gexpr m) group). split_and!; [done| |cbn; set_solver|done].
      apply alter_lookup. exists group. by rewrite decide_True.
  - intros g gr e x (gr0 & Hgr & ->)%alter_lookup Hin [Hex|[-> ->]]%snoc_lookup.
    + apply (Hm g gr0 e x Hgr); [|done]. destruct (decide (g = target)); [|done]. cbn in Hin.
      apply elem_of_app in Hin as [?|Hin%list_elem_of_singleton]; [done|]. subst e. apply lookup_N_lt in Hex. lia.
    + cbn. f_equal. destruct (decide (g = target)) as [|]; [done|]. destruct (Hx g gr0 _ Hgr Hin) as [y Hy].
      apply lookup_N_lt in Hy. lia.
  - intros b e. destruct (decide (b = bucket)) as [->|].
    + rewrite lookup_insert_eq. cbn [default]. intros [->|Hin]%elem_of_cons; [eauto|].
      destruct (Ht bucket e Hin) as [x Hxe]. exists x. apply snoc_lookup. by left.
    + rewrite lookup_insert_ne by done. intros Hin. destruct (Ht b e Hin) as [x Hxe]. exists x. apply snoc_lookup. by left.
  - intros e x o [Hex|[-> ->]]%snoc_lookup; [by eapply Ho|]. apply Horig.
Qed.

(** ** Inserting one expression *)

(** The group to insert into: there, and of the kind of the operator. *)
Definition target_ok m (pgroupTarget : option N) (pop : COperator) : Prop :=
  forall target, pgroupTarget = Some target ->
    exists group, (m_groups m).[target] = Some group /\ g_fScalar group = FScalar pop.

Definition origin_ok m (pgexprOrigin : option N) : Prop :=
  forall o, pgexprOrigin = Some o -> o < next_gexpr m.

(** The group holds the expression: one in its list denotes it. *)
Definition in_group m g (pop : COperator) (groups : list N) : Prop :=
  exists e gexpr group, (m_gexprs m).[e] = Some gexpr /\ m_pgroup gexpr = Some g /\
    (m_groups m).[g] = Some group /\ e ∈ m_listGExprs group /\ denotes (m_groups m) gexpr pop groups.

Lemma leads_in_group m m' g pop groups :
  memo_wf m -> leads m m' -> in_range (m_groups m) groups ->
  in_group m g pop groups -> in_group m' g pop groups.
Proof.
  intros Hwf He Hr (e & x & group & Hx & Hp & Hg & Hin & Hd).
  destruct (proj1 (proj2 He) _ _ Hg) as (group' & Hg' & _ & Hl). exists e, x, group'.
  split_and!; [by apply He|done|done|set_solver|].
  eapply leads_denotes; [done| |done|done]. intros c Hc. eapply mo_children; [apply Hwf|done|done].
Qed.

(** What a call of [CMemo::PgroupInsert] for a new expression does. *)
Lemma CMemo_PgroupInsert_new pgroupTarget gexpr m :
  memo_wf m -> in_range (m_groups m) (m_pdrgpgroup gexpr) -> target_ok m pgroupTarget (ge_pop gexpr) ->
  origin_ok m (m_pgexprOrigin gexpr) ->
  sht_Find m gexpr = Some None ->
  exists g m1 m', CMemo_PgroupInsert pgroupTarget gexpr m = Some (g, m') /\
    (g, m1) = match pgroupTarget with
              | Some target => (target, m)
              | None => (N.of_nat (length (m_groups m)), add_group (FScalar (ge_pop gexpr)) m)
              end /\
    memo_wf m1 /\ extends m m1 /\ in_range (m_groups m1) (m_pdrgpgroup gexpr) /\
    insert_gexpr g gexpr m1 = Some m' /\ memo_wf m' /\
    (m_gexprs m').[next_gexpr m1] = Some (with_group g gexpr).
Proof.
  intros Hwf Hr Htg Horig Hf. unfold CMemo_PgroupInsert. rewrite Hf. cbn [mbind option_bind].
  destruct pgroupTarget as [target|].
  - destruct (Htg target eq_refl) as (group & Hg & Hs).
    destruct (insert_gexpr_wf target group gexpr m Hwf Hr Hg Hs Horig) as (m' & Hi & Hwf' & Hx).
    rewrite Hi. cbn [mbind option_bind]. exists target, m, m'. by split_and!.
  - set (m1 := add_group (FScalar (ge_pop gexpr)) m). set (g := N.of_nat (length (m_groups m))).
    assert (Hr1 : in_range (m_groups m1) (m_pdrgpgroup gexpr)).
    { intros c Hc%Hr. by eapply extends_in_range; [apply add_group_extends|]. }
    assert (Hg : (m_groups m1).[g] = Some (MkGroup (FScalar (ge_pop gexpr)) None [] [] false))
      by (apply snoc_lookup; by right).
    destruct (insert_gexpr_wf g _ gexpr m1 (add_group_wf _ _ Hwf) Hr1 Hg eq_refl Horig) as (m' & Hi & Hwf' & Hx).
    rewrite Hi. cbn [mbind option_bind]. exists g, m1, m'.
    split_and!; [done|done|by apply add_group_wf|apply add_group_extends|done..].
Qed.

(** Every relational group has a logical expression. *)
Definition grouped m : Prop :=
  forall g group, (m_groups m).[g] = Some group -> g_fScalar group = false ->
    exists e gexpr, e ∈ m_listGExprs group /\ (m_gexprs m).[e] = Some gexpr /\ FLogical (ge_pop gexpr) = true.

(** An operator that may start a group. *)
Definition groupable (pop : COperator) : Prop := FScalar pop = false -> FLogical pop = true.

(** Only groups that are new need a logical expression. *)
Lemma extends_grouped m m' :
  extends m m' -> grouped m ->
  (forall g group, (m_groups m').[g] = Some group -> N.of_nat (length (m_groups m)) <= g -> g_fScalar group = false ->
     exists e gexpr, e ∈ m_listGExprs group /\ (m_gexprs m').[e] = Some gexpr /\ FLogical (ge_pop gexpr) = true) ->
  grouped m'.
Proof.
  intros (Hx & He & _) Hg Hnew g group' Hg' Hs. destruct (N.lt_ge_cases g (N.of_nat (length (m_groups m)))) as [Hlt|Hge];
    [|by apply (Hnew g)].
  destruct (lookup_lt_is_Some_2 (m_groups m) (N.to_nat g)) as [group Hgr]; [lia|].
  destruct (He g group Hgr) as (group0 & Hg0 & _ & Hs0 & Hl). rewrite Hg' in Hg0. injection Hg0 as <-.
  destruct (Hg g group Hgr) as (e & x & Hin & Hxe & Hlog); [congruence|]. exists e, x. split_and!; [set_solver|auto|done].
Qed.

Lemma CMemo_PgroupInsert_ok pgroupTarget gexpr m :
  memo_wf m -> in_range (m_groups m) (m_pdrgpgroup gexpr) -> target_ok m pgroupTarget (ge_pop gexpr) ->
  origin_ok m (m_pgexprOrigin gexpr) ->
  exists g m', CMemo_PgroupInsert pgroupTarget gexpr m = Some (g, m') /\
    memo_wf m' /\ extends m m' /\ in_group m' g (ge_pop gexpr) (m_pdrgpgroup gexpr) /\
    (grouped m -> groupable (ge_pop gexpr) -> grouped m').
Proof.
  intros Hwf Hr Htg Horig.
  destruct (sht_Find_spec m gexpr Hwf Hr) as (bucket & _ & [e|] & Hf & Hfs).
  - destruct Hfs as (entry & He & Hm). destruct (mw_group _ Hwf e entry He) as (g & group & Hp & Hg & Hin & _).
    unfold CMemo_PgroupInsert. rewrite Hf. cbn [mbind option_bind]. rewrite He. cbn [mbind option_bind].
    rewrite Hp. cbn [mbind option_bind]. exists g, m. split; [done|]. split; [done|]. split; [done|].
    split; [|done]. exists e, entry, group. split_and!; [done..|]. apply Matches_denotes; [apply Hwf|done].
  - destruct (CMemo_PgroupInsert_new pgroupTarget gexpr m) as (g & m1 & m' & Hi & Hm1 & Hwf1 & He1 & Hr1 & Hins & Hwf' & Hx); [done..|].
    assert (He : extends m m') by (etrans; [exact He1|by eapply insert_gexpr_extends]).
    destruct (mw_group _ Hwf' _ _ Hx) as (g' & group & Hp & Hg & Hin & Hsc). injection Hp as <-.
    exists g, m'. split_and!; [done..| |].
    + exists (next_gexpr m1), (with_group g gexpr), group. split_and!; [done..|].
      split; [apply OpMatches_refl|]. exists (m_pdrgpgroup gexpr). by split_and!.
    + intros Hgp Hpop. apply (extends_grouped m m'); [done..|]. intros h grp Hh Hge Hs.
      assert (h = g) as ->.
      { apply lookup_N_lt in Hh. unfold insert_gexpr in Hins. destruct (bucket_of m1 gexpr); [|done]. injection Hins as <-.
        cbn in Hh. rewrite length_alter in Hh. destruct pgroupTarget; injection Hm1 as -> ->; [lia|].
        cbn in Hh. rewrite length_app in Hh. cbn in Hh. lia. }
      rewrite Hg in Hh. injection Hh as <-. exists (next_gexpr m1), (with_group g gexpr). split_and!; [done..|].
      apply Hpop. by rewrite <-Hs, Hsc.
Qed.

(** ** Inserting an expression tree *)

(** What the expressions of a call refer to is in the memo, and a pattern leaf is
    bound. *)
Fixpoint insertable m (pexpr : CExpression) : Prop :=
  match pexpr with
  | MkExpression _ _ (Some pgexpr) => is_Some ((m_gexprs m).[pgexpr])
  | MkExpression _ children None =>
      foldr (fun child P => (FPatternLeaf (Pop child) = true -> is_Some (Pgexpr child)) /\
                            insertable m child /\ P) True children
  end.

(** Every operator to be inserted may start a group: physical operators do not. *)
Fixpoint relational (pexpr : CExpression) : Prop :=
  match pexpr with
  | MkExpression _ _ (Some _) => True
  | MkExpression pop children None => groupable pop /\ foldr (fun child P => relational child /\ P) True children
  end.

Lemma relational_node pop children :
  relational (MkExpression pop children None) <-> groupable pop /\ Forall relational children.
Proof.
  cbn [relational]. induction children as [|c children IH]; cbn; [|rewrite Forall_cons; tauto].
  by rewrite Forall_nil.
Qed.

(** The group stands for the expression: bound to it, or holding its operator over
    groups that stand for its children. *)
Fixpoint stands_for m g (pexpr : CExpression) : Prop :=
  match pexpr with
  | MkExpression _ _ (Some pgexpr) => pgexpr_group m pgexpr = Some g
  | MkExpression pop children None =>
      exists groups, in_range (m_groups m) groups /\
        foldr (fun child P groups => match groups with
                 | [] => False
                 | c :: groups => stands_for m c child /\ P groups
                 end) (fun groups => groups = []) children groups /\
        in_group m g pop groups
  end.

Definition all_stand_for m (groups : list N) (children : list CExpression) : Prop :=
  Forall2 (stands_for m) groups children.

Lemma stands_for_node m g pop children :
  stands_for m g (MkExpression pop children None) <->
  exists groups, in_range (m_groups m) groups /\ all_stand_for m groups children /\ in_group m g pop groups.
Proof.
  cbn [stands_for]. apply exist_proper. intros groups.
  match goal with |- _ /\ ?P /\ _ <-> _ => enough (P <-> all_stand_for m groups children) by tauto end.
  unfold all_stand_for. revert groups. induction children as [|c children IH]; intros [|g' groups]; cbn.
  - split; [by constructor|done].
  - split; [done|by inversion 1].
  - split; [done|by inversion 1].
  - by rewrite Forall2_cons, IH.
Qed.

Lemma insertable_node m pop children :
  insertable m (MkExpression pop children None) <->
  Forall (fun child => (FPatternLeaf (Pop child) = true -> is_Some (Pgexpr child)) /\ insertable m child) children.
Proof.
  cbn [insertable]. induction children as [|c children IH]; cbn; [by split|].
  rewrite Forall_cons, IH. tauto.
Qed.

Lemma pgexpr_group_kept m m' e g :
  gexprs_kept m m' -> pgexpr_group m e = Some g -> pgexpr_group m' e = Some g.
Proof.
  intros He. unfold pgexpr_group. destruct ((m_gexprs m).[e]) as [x|] eqn:Hx; [|done].
  by rewrite (He _ _ Hx).
Qed.

Lemma insertable_kept m m' pexpr :
  gexprs_kept m m' ->
  insertable m pexpr -> insertable m' pexpr.
Proof.
  intros He. induction pexpr as [op children [e|] IH] using CExpression_children_ind.
  - cbn. intros [x Hx]. exists x. by apply He.
  - rewrite !insertable_node, !Forall_forall. rewrite Forall_forall in IH. intros H c Hc.
    destruct (H c Hc). split; [done|by apply IH].
Qed.

Lemma insertable_extends m m' pexpr : extends m m' -> insertable m pexpr -> insertable m' pexpr.
Proof. intros (He & _). by apply insertable_kept. Qed.

Lemma stands_for_leads m m' g pexpr : memo_wf m -> leads m m' -> stands_for m g pexpr -> stands_for m' g pexpr.
Proof.
  intros Hwf He. revert g. induction pexpr as [op children [e|] IH] using CExpression_children_ind; intros g.
  - cbn. apply pgexpr_group_kept, He.
  - rewrite !stands_for_node. intros (groups & Hr & Hc & Hg). exists groups. split_and!.
    + intros c Hin%Hr. by eapply leads_in_range.
    + clear Hr Hg. unfold all_stand_for in *. induction Hc as [|c child groups children Hcc Hc IHc]; [constructor|].
      apply Forall_cons in IH as [IH1 IH2]. constructor; [by apply IH1|by apply IHc].
    + by apply (leads_in_group m m').
Qed.

Lemma stands_for_extends m m' g pexpr :
  memo_wf m -> memo_wf m' -> extends m m' -> stands_for m g pexpr -> stands_for m' g pexpr.
Proof. intros Hwf Hwf' He. apply stands_for_leads; [done|]. apply extends_leads; [done|apply Hwf|apply Hwf']. Qed.

Lemma stands_for_in_range m g pexpr : memo_wf m -> stands_for m g pexpr -> g < N.of_nat (length (m_groups m)).
Proof.
  intros Hwf. destruct pexpr as [op children [e|]].
  - cbn. unfold pgexpr_group. destruct ((m_gexprs m).[e]) as [x|] eqn:Hx; [|done]. cbn. intros Hp.
    destruct (mw_group _ Hwf e x Hx) as (g' & group & Hp' & Hg & _). rewrite Hp in Hp'. injection Hp' as <-.
    by eapply lookup_N_lt.
  - rewrite stands_for_node. intros (groups & _ & _ & e & x & group & _ & _ & Hg & _). by eapply lookup_N_lt.
Qed.

(** ** The guard against cycles *)

Lemma memo_edge_range m x y :
  memo_wf m -> memo_edge m x y -> y < N.of_nat (length (m_groups m)) /\ master (m_groups m) y = y.
Proof.
  intros Hwf (group & e & gexpr & c & child & _ & _ & _ & _ & _ & Hc & _ & ->).
  apply lookup_N_lt in Hc. pose proof (mo_links _ (mw_ok _ Hwf)) as Hl. split.
  - by destruct (master_top _ c Hl Hc) as (_ & ? & _).
  - by apply master_idem.
Qed.

Lemma memo_reach_master m x y :
  memo_wf m -> rtc (memo_edge m) x y -> master (m_groups m) x = x -> master (m_groups m) y = y.
Proof.
  intros Hwf Hr Hx. apply rtc_inv_r in Hr as [->|(z & _ & He)]; [done|].
  by destruct (memo_edge_range _ _ _ Hwf He).
Qed.

Lemma closes_cycle_spec m children target group :
  memo_wf m -> in_range (m_groups m) children ->
  (m_groups m).[target] = Some group ->
  returns (fun cycle => cycle = true <-> g_fScalar group = false /\ exists c child, c ∈ children /\
             (m_groups m).[c] = Some child /\ g_fScalar child = false /\ memo_path m c target)
    (closes_cycle m children target).
Proof.
  intros Hwf Hr Ht. induction children as [|c children IH]; cbn [closes_cycle].
  { exists false. split; [done|]. split; [done|]. by intros (_ & c & ? & ?%elem_of_nil & _). }
  apply in_range_cons in Hr as [Hc Hr]. specialize (IH Hr) as (b & Hb & Hspec).
  destruct (lookup_lt_is_Some_2 (m_groups m) (N.to_nat c)) as [child Hch]; [lia|].
  rewrite Hch. cbn [mbind option_bind].
  assert (Hskip : (g_fScalar child = false -> g_fScalar group = false -> ~ memo_path m c target) ->
    b = true <-> g_fScalar group = false /\ exists c0 child0, c0 ∈ c :: children /\
      (m_groups m).[c0] = Some child0 /\ g_fScalar child0 = false /\ memo_path m c0 target).
  { intros Hno. rewrite Hspec. split; intros (Hs & c0 & ch0 & Hin & Hl & Hs0 & Hp); (split; [done|]); exists c0, ch0.
    - split_and!; [by right|done..].
    - apply elem_of_cons in Hin as [->|Hin]; [|done]. rewrite Hch in Hl. injection Hl as ->. by destruct (Hno Hs0 Hs). }
  destruct (g_fScalar child) eqn:Hsc.
  - exists b. split; [done|]. by apply Hskip.
  - destruct (FReachable_ok (BS := BS) m c target child group (mw_ok _ Hwf) Hch Ht) as (found & -> & Hf).
    cbn [mbind option_bind]. destruct found.
    + exists true. split; [done|]. split; [|done]. intros _. destruct (proj1 Hf eq_refl) as (_ & ? & ?).
      split; [done|]. exists c, child. split_and!; [left|done..].
    + exists b. split; [done|]. apply Hskip. intros _ Hs Hp. enough (false = true) by done. by apply Hf.
Qed.

(** The edges an insertion adds all start at its target. *)
Lemma insert_gexpr_edges target gexpr m m' x y :
  memo_wf m -> memo_wf m' -> insert_gexpr target gexpr m = Some m' -> in_range (m_groups m) (m_pdrgpgroup gexpr) ->
  memo_edge m' x y ->
  memo_edge m x y \/ (x = target /\ FLogical (ge_pop gexpr) = true /\ exists c child,
    c ∈ m_pdrgpgroup gexpr /\ (m_groups m).[c] = Some child /\ g_fScalar child = false /\ y = master (m_groups m) c).
Proof.
  intros Hwf Hwf' Hi Hr (group & e & gx & c & child & Hg & Hin & Hx & Hlog & Hc & Hch & Hsc & ->).
  pose proof (insert_gexpr_extends _ _ _ _ Hi) as Hext.
  unfold insert_gexpr in Hi. destruct (bucket_of m gexpr) as [bucket|]; [|done]. injection Hi as Hm'.
  assert (Hcr : c < N.of_nat (length (m_groups m))).
  { apply lookup_N_lt in Hch. rewrite <-Hm' in Hch. cbn in Hch. by rewrite length_alter in Hch. }
  rewrite (extends_master m m'); [|done|apply Hwf|apply Hwf'|done].
  assert (Hchild : exists child0, (m_groups m).[c] = Some child0 /\ g_fScalar child0 = false).
  { rewrite <-Hm' in Hch. apply alter_lookup in Hch as (child0 & ? & ->). exists child0. split; [done|]. by destruct (decide _). }
  destruct Hchild as (child0 & Hch0 & Hs0).
  rewrite <-Hm' in Hg, Hx. apply alter_lookup in Hg as (group0 & Hg0 & ->). apply snoc_lookup in Hx as [Hx|[-> ->]].
  - left. exists group0, e, gx, c, child0. split_and!; try done. destruct (decide (x = target)); [|done].
    cbn in Hin. apply elem_of_app in Hin as [?|Hin%list_elem_of_singleton]; [done|]. subst. apply lookup_N_lt in Hx. lia.
  - right. cbn in Hlog, Hc. assert (x = target) as ->; [|split_and!; [done|done|by exists c, child0]].
    destruct (decide (x = target)); [done|]. destruct (mo_exprs _ (mw_ok _ Hwf) x group0 _ Hg0 Hin) as [z Hz].
    apply lookup_N_lt in Hz. lia.
Qed.

Lemma add_group_edges fScalar m x y : memo_wf m -> memo_edge (add_group fScalar m) x y -> memo_edge m x y.
Proof.
  intros Hwf (group & e & gx & c & child & Hg & Hin & Hx & Hlog & Hc & Hch & Hsc & ->).
  pose proof (mo_children _ (mw_ok _ Hwf) e gx c Hx Hc) as Hcr.
  rewrite (extends_master m (add_group fScalar m)); [|apply add_group_extends|apply Hwf|by apply add_group_wf|done].
  apply snoc_lookup in Hg as [Hg|[_ ->]]; [|by apply elem_of_nil in Hin].
  apply snoc_lookup in Hch as [Hch|[-> _]]; [|lia]. by exists group, e, gx, c, child.
Qed.

(** New edges from one node close no cycle when none of their ends reaches it. *)
Lemma tc_new_edges {A} (R R' : A -> A -> Prop) (t : A) :
  (forall x y, R' x y -> R x y \/ (x = t /\ ~ rtc R y t)) -> (forall x, ~ tc R x x) -> forall x, ~ tc R' x x.
Proof.
  intros Hnew Hac x Hx.
  assert (Hfirst : forall y z, rtc R' y z -> rtc R y z \/ rtc R y t).
  { induction 1 as [y|y w z Hs _ IH]; [by left|]. apply Hnew in Hs as [Hs|[-> _]]; [|by right].
    destruct IH; [left|right]; by eapply rtc_l. }
  assert (Hlast : forall y z, rtc R' y z -> rtc R y z \/ exists d, ~ rtc R d t /\ rtc R d z).
  { intros y. apply rtc_ind_r; [by left|]. intros w z _ Hs IH.
    apply Hnew in Hs as [Hs|[_ Hd]]; [|right; by exists z].
    destruct IH as [|(d & ? & ?)]; [left; by eapply rtc_r|right; exists d; split; [done|by eapply rtc_r]]. }
  assert (Hold : forall w, R' x w -> rtc R w x -> False).
  { intros w Hw Hr. apply Hnew in Hw as [Hw|[-> Hd]]; [|done]. apply (Hac x). by eapply tc_rtc_r; [apply tc_once|]. }
  assert (exists w, R' x w /\ rtc R' w x) as (w & Hw & Hr).
  { inversion Hx as [? ? Hs|? w ? Hs Hr]; subst; [by exists x|]. exists w. split; [done|by apply tc_rtc]. }
  destruct (Hfirst _ _ Hr) as [Hr1|Hr1]; [by eapply Hold|].
  destruct (Hlast _ _ Hr) as [Hr2|(d & Hd & Hr2)]; [by eapply Hold|]. apply Hd.
  apply Hnew in Hw as [Hw|[-> _]]; [|done]. etrans; [exact Hr2|]. by eapply rtc_l.
Qed.

Lemma tc_subrel {A} (R R' : A -> A -> Prop) x y : (forall a b, R a b -> R' a b) -> tc R x y -> tc R' x y.
Proof. intros Hs. induction 1; [by apply tc_once, Hs|]. eapply tc_l; [by apply Hs|done]. Qed.

Lemma memo_edge_start m x y : memo_edge m x y -> x < N.of_nat (length (m_groups m)).
Proof. intros (group & e & gexpr & c & child & Hg & _). by apply lookup_N_lt in Hg. Qed.

Lemma memo_edge_extends m m' x y : memo_wf m -> memo_wf m' -> extends m m' -> memo_edge m x y -> memo_edge m' x y.
Proof.
  intros Hwf Hwf' He (group & e & gx & c & child & Hg & Hin & Hx & Hlog & Hc & Hch & Hsc & ->).
  pose proof He as (Hk & Hgs & _). destruct (Hgs _ _ Hg) as (group' & Hg' & _ & _ & Hls).
  destruct (Hgs _ _ Hch) as (child' & Hch' & _ & Hs' & _).
  exists group', e, gx, c, child'. split_and!; [done|by apply Hls|by apply Hk|done|done|done|congruence|].
  symmetry. apply (extends_master m m'); [done|apply Hwf|apply Hwf'|by apply lookup_N_lt in Hch].
Qed.

(** What inserting does to the steps between classes. *)
Lemma insert_gexpr_classes target gexpr m m' x y :
  memo_wf m -> memo_wf m' -> insert_gexpr target gexpr m = Some m' -> in_range (m_groups m) (m_pdrgpgroup gexpr) ->
  target < N.of_nat (length (m_groups m)) -> class_edge m' x y ->
  class_edge m x y \/ (x = master (m_groups m) target /\ memo_edge m' target y /\ FLogical (ge_pop gexpr) = true /\
    exists c child, c ∈ m_pdrgpgroup gexpr /\ (m_groups m).[c] = Some child /\ g_fScalar child = false /\
      y = master (m_groups m) c).
Proof.
  intros Hwf Hwf' Hi Hr Ht (g & He & ->). pose proof (insert_gexpr_extends _ _ _ _ Hi) as Hext.
  destruct (insert_gexpr_edges target gexpr m m' g y Hwf Hwf' Hi Hr He) as [Ho|(-> & Hlog & Hch)].
  - left. exists g. split; [done|]. apply (extends_master m m'); [done|apply Hwf|apply Hwf'|by eapply memo_edge_start].
  - right. split_and!; [|done..]. apply (extends_master m m'); [done|apply Hwf|apply Hwf'|done].
Qed.

Lemma add_group_classes fScalar m x y : memo_wf m -> class_edge (add_group fScalar m) x y -> class_edge m x y.
Proof.
  intros Hwf (g & He%add_group_edges & ->); [|done]. exists g. split; [done|].
  apply (extends_master m (add_group fScalar m)); [apply add_group_extends|apply Hwf|by apply add_group_wf|by eapply memo_edge_start].
Qed.

(** A fresh group stands for itself, and nothing leads to it. *)
Lemma fresh_master fScalar m :
  memo_wf m -> master (m_groups (add_group fScalar m)) (N.of_nat (length (m_groups m))) = N.of_nat (length (m_groups m)).
Proof.
  intros Hwf. pose proof (add_group_wf fScalar m Hwf) as Hwf1.
  rewrite (master_step _ _ (MkGroup fScalar None [] [] false) (mo_links _ (mw_ok _ Hwf1))); [done|].
  apply snoc_lookup. by right.
Qed.

Lemma fresh_unreached fScalar m c :
  memo_wf m -> c < N.of_nat (length (m_groups m)) -> let m1 := add_group fScalar m in
  ~ rtc (class_edge m1) (master (m_groups m1) c) (N.of_nat (length (m_groups m))).
Proof.
  intros Hwf Hc m1 Hreach. pose proof (add_group_wf fScalar m Hwf) as Hwf1. pose proof (mo_links _ (mw_ok _ Hwf)) as Hl.
  apply rtc_inv_r in Hreach as [Heq|(z & _ & He)].
  - unfold m1 in Heq. rewrite (extends_master m) in Heq; [|apply add_group_extends|apply Hwf|apply Hwf1|done].
    destruct (master_top (m_groups m) c Hl Hc) as (_ & Hlt & _). lia.
  - apply add_group_classes in He as (g & He & _); [|done]. apply memo_edge_range in He as [Hlt _]; [lia|done].
Qed.

(** Inserting closes no cycle: into a fresh group, or when the guard says so and
    misses nothing. *)
Lemma CMemo_PgroupInsert_acyclic pgroupTarget gexpr m g m' :
  memo_wf m -> in_range (m_groups m) (m_pdrgpgroup gexpr) -> target_ok m pgroupTarget (ge_pop gexpr) ->
  origin_ok m (m_pgexprOrigin gexpr) ->
  (forall target, pgroupTarget = Some target -> search_complete m /\
     (FLogical (ge_pop gexpr) = true -> closes_cycle m (m_pdrgpgroup gexpr) target = Some false)) ->
  CMemo_PgroupInsert pgroupTarget gexpr m = Some (g, m') -> acyclic m -> acyclic m'.
Proof.
  intros Hwf Hr Htg Horig Hcl Hins Hac.
  destruct (sht_Find_spec m gexpr Hwf Hr) as (bucket & _ & [e|] & Hf & Hfs).
  { destruct Hfs as (entry & He & _). unfold CMemo_PgroupInsert in Hins. rewrite Hf in Hins. cbn [mbind option_bind] in Hins.
    rewrite He in Hins. cbn [mbind option_bind] in Hins. destruct (m_pgroup entry); [|done]. by injection Hins as <- <-. }
  destruct (CMemo_PgroupInsert_new pgroupTarget gexpr m) as (g0 & m1 & m0 & Hi & Hm1 & Hwf1 & He1 & Hr1 & Hnew & Hwf' & _); [done..|].
  rewrite Hi in Hins. injection Hins as -> ->. unfold acyclic.
  assert (Hg : g < N.of_nat (length (m_groups m1))).
  { destruct pgroupTarget as [target|]; injection Hm1 as -> ->.
    - destruct (Htg target eq_refl) as (group & Hg & _). by apply lookup_N_lt in Hg.
    - unfold add_group. cbn [m_groups]. rewrite length_app. simpl. lia. }
  apply (tc_new_edges (class_edge m1) (class_edge m') (master (m_groups m1) g)).
  2: { intros x Hx. apply (Hac x). revert Hx. apply tc_subrel. intros a b.
       destruct pgroupTarget; injection Hm1 as -> ->; [done|by apply add_group_classes]. }
  intros x y Hxy. apply (insert_gexpr_classes g gexpr m1 m' x y) in Hxy; [|done..].
  destruct Hxy as [?|(-> & _ & Hlog & c & child & Hc & Hch & Hsc & ->)]; [by left|right]. split; [done|].
  destruct pgroupTarget as [target|]; injection Hm1 as -> ->.
  - destruct (Hcl target eq_refl) as [Hs Hguard]. intros Hreach%search_complete_path; [|done].
    destruct (Htg target eq_refl) as (group & Hgr & Hsg). rewrite (FLogical_kind _ Hlog) in Hsg.
    destruct (closes_cycle_spec m (m_pdrgpgroup gexpr) target group Hwf Hr Hgr) as (b & Hb & Hspec).
    rewrite (Hguard Hlog) in Hb. injection Hb as <-.
    enough (false = true) by done. apply Hspec. split; [done|]. by exists c, child.
  - apply Hr in Hc. rewrite fresh_master by done. by apply fresh_unreached.
Qed.

(** The searches still miss nothing after inserting into a fresh group. *)
Lemma CMemo_PgroupInsert_search_complete gexpr m g m' :
  memo_wf m -> in_range (m_groups m) (m_pdrgpgroup gexpr) -> origin_ok m (m_pgexprOrigin gexpr) ->
  CMemo_PgroupInsert None gexpr m = Some (g, m') -> search_complete m -> search_complete m'.
Proof.
  intros Hwf Hr Horig Hins Hs.
  destruct (sht_Find_spec m gexpr Hwf Hr) as (bucket & _ & [e|] & Hf & Hfs).
  { destruct Hfs as (entry & He & _). unfold CMemo_PgroupInsert in Hins. rewrite Hf in Hins. cbn [mbind option_bind] in Hins.
    rewrite He in Hins. cbn [mbind option_bind] in Hins. destruct (m_pgroup entry); [|done]. by injection Hins as <- <-. }
  destruct (CMemo_PgroupInsert_new None gexpr m) as (g0 & m1 & m0 & Hi & Hm1 & Hwf1 & He1 & Hr1 & Hnew & Hwf' & _); [done..|].
  rewrite Hi in Hins. injection Hins as -> ->. injection Hm1 as -> ->. set (m1 := add_group _ m) in *.
  pose proof (insert_gexpr_extends _ _ _ _ Hnew) as He2. intros x y Hxy.
  apply (insert_gexpr_classes (N.of_nat (length (m_groups m))) gexpr m1 m' x y) in Hxy;
    [|done..|unfold m1, add_group; cbn [m_groups]; rewrite length_app; simpl; lia].
  destruct Hxy as [Ho|(-> & He & _)].
  - apply add_group_classes in Ho; [|done]. apply Hs in Ho. revert Ho. apply rtc_subrel. intros a b Hab.
    apply (memo_edge_extends m m'); [done|done|by etrans|done].
  - apply rtc_once. unfold m1. by rewrite fresh_master.
Qed.

(** ** Inserting an expression again *)

(** Links that go to masters. *)
Definition flat gs : Prop :=
  forall g group d, gs.[g] = Some group -> m_pgroupDuplicate group = Some d ->
    exists top, gs.[d] = Some top /\ m_pgroupDuplicate top = None.

(** Also no group emptied by merging: the memo between two searches for
    duplicates. *)
Definition settled m : Prop :=
  flat (m_groups m) /\
  (forall g group, (m_groups m).[g] = Some group -> m_listGExprs group <> []).

Lemma flat_master gs g group :
  links_ok gs -> flat gs -> gs.[g] = Some group -> master gs g = default g (m_pgroupDuplicate group).
Proof.
  intros Hl Hflat Hg. rewrite (master_step _ _ _ Hl Hg). destruct (m_pgroupDuplicate group) as [d|] eqn:Hd; [|done].
  destruct (Hflat g group d Hg Hd) as (top & Ht & Hn). by rewrite (master_step _ _ _ Hl Ht), Hn.
Qed.

Lemma flat_FDuplicateGroups gs a b :
  links_ok gs -> flat gs -> a < N.of_nat (length gs) -> b < N.of_nat (length gs) ->
  FDuplicateGroups gs a b = Some (bool_decide (same_class gs a b)).
Proof.
  intros Hl Hflat Ha Hb. destruct (FDuplicateGroups_total gs a b Ha Hb) as [r Hr]. rewrite Hr. f_equal.
  apply bool_iff_eq. rewrite bool_decide_eq_true. split; [intros ->; by apply FDuplicateGroups_master|].
  unfold same_class. intros Hm. unfold FDuplicateGroups in Hr.
  destruct (lookup_lt_is_Some_2 gs (N.to_nat a)) as [ga Hga]; [lia|].
  destruct (lookup_lt_is_Some_2 gs (N.to_nat b)) as [gb Hgb]; [lia|].
  rewrite Hga, Hgb in Hr. cbn [mbind option_bind] in Hr. injection Hr as <-.
  rewrite (flat_master gs a ga Hl Hflat Hga), (flat_master gs b gb Hl Hflat Hgb) in Hm.
  rewrite !orb_true_iff, andb_true_iff, N.eqb_eq, !bool_decide_eq_true.
  destruct (m_pgroupDuplicate ga), (m_pgroupDuplicate gb); cbn in Hm; subst; naive_solver.
Qed.

Lemma flat_FMatchGroups gs l1 l2 :
  links_ok gs -> flat gs -> in_range gs l1 -> in_range gs l2 -> length l1 = length l2 ->
  FMatchGroups gs l1 l2 = Some true <-> Forall2 (same_class gs) l1 l2.
Proof.
  intros Hok Hs H1 H2 Hl. split; [by apply FMatchGroups_class|].
  intros Hf. induction Hf as [|g1 g2 l1 l2 Hc Hf IH]; [done|]. apply in_range_cons in H1 as [? ?], H2 as [? ?].
  cbn [FMatchGroups]. rewrite flat_FDuplicateGroups, bool_decide_true by done. cbn [mbind option_bind].
  rewrite IH by auto. by destruct (N.eqb g1 g2).
Qed.

(** The children as [Matches] compares them. *)
Definition compared gexpr : list N :=
  if (length (m_pdrgpgroup gexpr) =? 1)%nat || FInputOrderSensitive (ge_pop gexpr)
  then m_pdrgpgroup gexpr else m_pdrgpgroupSorted gexpr.

Lemma compared_length gexpr : length (compared gexpr) = length (m_pdrgpgroup gexpr).
Proof. unfold compared. destruct (_ || _); [done|apply m_pdrgpgroupSorted_length]. Qed.

Lemma flat_Matches gs gexpr1 gexpr2 :
  links_ok gs -> flat gs -> in_range gs (m_pdrgpgroup gexpr1) -> in_range gs (m_pdrgpgroup gexpr2) ->
  CGroupExpression_Matches gs gexpr1 gexpr2 = Some true <->
  OpMatches (ge_pop gexpr1) (ge_pop gexpr2) = true /\ Forall2 (same_class gs) (compared gexpr1) (compared gexpr2).
Proof.
  intros Hwf Hs H1 H2. unfold CGroupExpression_Matches. cbv zeta.
  destruct (Nat.eqb_spec (length (m_pdrgpgroup gexpr1)) (length (m_pdrgpgroup gexpr2))) as [Hl|Hl].
  2: { split; [done|]. intros [_ Hf%Forall2_length]. by rewrite !compared_length in Hf. }
  destruct (OpMatches _ _) eqn:Hop; cbn [negb]; [|naive_solver].
  destruct (Nat.eqb_spec (length (m_pdrgpgroup gexpr1)) 0) as [Hz|Hz].
  { split; [|done]. split; [done|]. pose proof (compared_length gexpr1). pose proof (compared_length gexpr2).
    destruct (compared gexpr1), (compared gexpr2); cbn in *; try lia. constructor. }
  assert (Hc : (length (m_pdrgpgroup gexpr2) =? 1)%nat || FInputOrderSensitive (ge_pop gexpr2) =
               (length (m_pdrgpgroup gexpr1) =? 1)%nat || FInputOrderSensitive (ge_pop gexpr1))
    by (by rewrite Hl, (OpMatches_order _ _ Hop)).
  unfold compared. rewrite Hc. clear Hc. destruct (_ || _).
  - rewrite flat_FMatchGroups by done. naive_solver.
  - rewrite flat_FMatchGroups; [naive_solver|done|done|by apply in_range_sorted..|]. by rewrite !m_pdrgpgroupSorted_length.
Qed.

(** In a settled memo the hash of an expression is that of the ids below it. *)
Definition nonempty_groups m (groups : list N) : Prop :=
  forall c, c ∈ groups -> exists group, (m_groups m).[c] = Some group /\ m_listGExprs group <> [].

Lemma nonempty_bucket m gexpr :
  nonempty_groups m (m_pdrgpgroup gexpr) ->
  bucket_of m gexpr =
    Some (fold_left CombineHashes (HashULONG <$> m_pdrgpgroup gexpr) (OpHashValue (ge_pop gexpr)) mod MEMO_HT_BUCKETS).
Proof.
  intros Hn. unfold bucket_of, CGroupExpression_HashValue.
  assert (Hm : mapM (CGroup_HashValue (m_groups m)) (m_pdrgpgroup gexpr) = Some (HashULONG <$> m_pdrgpgroup gexpr));
    [|by rewrite Hm].
  apply mapM_Some, Forall2_fmap_r, Forall_Forall2_diag, Forall_forall. intros c Hc.
  destruct (Hn c Hc) as (group & Hg & Hne). unfold CGroup_HashValue. rewrite Hg. cbn [mbind option_bind].
  do 2 f_equal. destruct (m_pgroupDuplicate group); [|done]. unfold UlGExprs.
  destruct (m_listGExprs group); [done|]. by destruct (N.eqb_spec (N.of_nat (length (n0 :: l))) 0).
Qed.

Lemma nonempty_extends m m' groups : extends m m' -> nonempty_groups m groups -> nonempty_groups m' groups.
Proof.
  intros (_ & He & _) Hn c (group & Hg & Hne)%Hn. apply He in Hg as (group' & Hg' & _ & _ & Hl). exists group'.
  split; [done|]. intros Heq. rewrite Heq in Hl. destruct (m_listGExprs group) as [|x l]; [done|].
  by assert (x ∈ []) as ?%elem_of_nil by (apply Hl; left).
Qed.

Lemma settled_nonempty m groups : settled m -> in_range (m_groups m) groups -> nonempty_groups m groups.
Proof.
  intros [_ Hn] Hr c Hc%Hr. destruct (lookup_lt_is_Some_2 (m_groups m) (N.to_nat c)) as [group Hg]; [lia|].
  exists group. split; [done|by eapply Hn].
Qed.

(** One insertion of an expression that was not there. *)
Definition grow_step m m' : Prop :=
  exists gexpr g m1, extends m m1 /\ memo_wf m1 /\ m_sht m1 = m_sht m /\ m_gexprs m1 = m_gexprs m /\
    in_range (m_groups m) (m_pdrgpgroup gexpr) /\
    sht_Find m gexpr = Some None /\ insert_gexpr g gexpr m1 = Some m' /\ memo_wf m' /\
    (m_gexprs m').[next_gexpr m1] = Some (with_group g gexpr) /\ settled m'.

Definition steady m : Prop := memo_wf m /\ settled m.

Lemma grow_step_extends m m' : grow_step m m' -> extends m m' /\ steady m'.
Proof.
  intros (gexpr & g & m1 & He & _ & _ & _ & _ & _ & Hi & Hwf' & _ & Hs).
  split; [|by split]. etrans; [exact He|by eapply insert_gexpr_extends].
Qed.

Lemma CMemo_PgroupInsert_grows pgroupTarget gexpr m g m' :
  steady m -> in_range (m_groups m) (m_pdrgpgroup gexpr) -> target_ok m pgroupTarget (ge_pop gexpr) ->
  origin_ok m (m_pgexprOrigin gexpr) ->
  CMemo_PgroupInsert pgroupTarget gexpr m = Some (g, m') -> m' = m \/ grow_step m m'.
Proof.
  intros [Hwf Hs] Hr Htg Horig Hins.
  destruct (sht_Find_spec m gexpr Hwf Hr) as (bucket & _ & [e|] & Hf & Hfs).
  { left. destruct Hfs as (entry & He & _). unfold CMemo_PgroupInsert in Hins. rewrite Hf in Hins. cbn [mbind option_bind] in Hins.
    rewrite He in Hins. cbn [mbind option_bind] in Hins. destruct (m_pgroup entry); [|done]. by injection Hins as <- <-. }
  right. destruct (CMemo_PgroupInsert_new pgroupTarget gexpr m) as (g0 & m1 & m0 & Hi & Hm1 & Hwf1 & He1 & Hr1 & Hnew & Hwf' & Hx); [done..|].
  rewrite Hi in Hins. injection Hins as -> ->. exists gexpr, g, m1.
  assert (Hsame : m_sht m1 = m_sht m /\ m_gexprs m1 = m_gexprs m) by (by destruct pgroupTarget; injection Hm1 as -> ->).
  destruct Hsame. split_and!; [done..|]. clear Hf Hfs Hi Hx. destruct Hs as [Hflat Hne].
  unfold insert_gexpr in Hnew. destruct (bucket_of m1 gexpr) as [b|]; [|done]. injection Hnew as <-.
  assert (Hold : forall h gr, (m_groups m1).[h] = Some gr -> (m_groups m).[h] = Some gr \/ (h = g /\ m_pgroupDuplicate gr = None)).
  { intros h gr Hg. destruct pgroupTarget; injection Hm1 as -> ->; [by left|]. apply snoc_lookup in Hg as [?|[-> ->]]; [by left|by right]. }
  split; cbn [m_groups].
  - intros h gr d (gr0 & Hg & ->)%alter_lookup Hd.
    assert (Hd0 : m_pgroupDuplicate gr0 = Some d) by (by destruct (decide (h = g))).
    destruct (Hold h gr0 Hg) as [Hm|[_ ?]]; [|congruence]. destruct (Hflat h gr0 d Hm Hd0) as (top & Ht & Hn).
    destruct He1 as (_ & He1 & _). destruct (He1 d top Ht) as (top1 & Ht1 & Hd1 & _).
    exists (if decide (d = g) then append_gexpr (next_gexpr m1) top1 else top1). split; [apply alter_lookup; by exists top1|].
    destruct (decide (d = g)); cbn; congruence.
  - intros h gr (gr0 & Hg & ->)%alter_lookup. destruct (decide (h = g)) as [->|].
    + cbn. by destruct (m_listGExprs gr0).
    + destruct (Hold h gr0 Hg) as [Hm|[? _]]; [by eapply Hne|done].
Qed.

Lemma find_match_in m gexpr chain e : find_match m gexpr chain = Some (Some e) ->
  exists entry, e ∈ chain /\ (m_gexprs m).[e] = Some entry /\ CGroupExpression_Matches (m_groups m) entry gexpr = Some true.
Proof.
  induction chain as [|e0 chain IH]; cbn [find_match]; [done|].
  destruct ((m_gexprs m).[e0]) as [entry|] eqn:He; [|done]. cbn [mbind option_bind].
  destruct (CGroupExpression_Matches _ _ _) as [[]|] eqn:Hm; [| |done]; cbn [mbind option_bind].
  - intros [= <-]. exists entry. split_and!; [left|done..].
  - intros (en & ? & ? & ?)%IH. exists en. split_and!; [by right|done..].
Qed.

Lemma find_match_extends m m' gexpr chain r :
  memo_wf m -> extends m m' -> in_range (m_groups m) (m_pdrgpgroup gexpr) ->
  find_match m gexpr chain = Some r -> find_match m' gexpr chain = Some r.
Proof.
  intros Hwf He Hr. induction chain as [|e0 chain IH]; cbn [find_match]; [done|].
  destruct ((m_gexprs m).[e0]) as [entry|] eqn:Hx; [|done]. rewrite (extends_gexpr _ _ _ _ He Hx). cbn [mbind option_bind].
  rewrite (extends_Matches m m'); [|done| |done].
  2: { intros c Hc. eapply mo_children; [apply Hwf|done|done]. }
  destruct (CGroupExpression_Matches _ _ _) as [[]|]; [done| |done]. cbn [mbind option_bind]. apply IH.
Qed.

(** An expression that is found stays found, in the same place. *)
Lemma sht_Find_stable m m' gexpr e :
  steady m -> grow_step m m' -> in_range (m_groups m) (m_pdrgpgroup gexpr) ->
  sht_Find m gexpr = Some (Some e) -> sht_Find m' gexpr = Some (Some e).
Proof.
  intros [Hwf Hs] Hgrow Hr Hf. destruct (grow_step_extends _ _ Hgrow) as [Hext _].
  destruct Hgrow as (new & g & m1 & He & Hwf1 & Hsht & Hgx & Hnr & Hnf & Hi & Hwf' & Hnew & _).
  pose proof (settled_nonempty _ _ Hs Hr) as Hn. pose proof (settled_nonempty _ _ Hs Hnr) as Hnn.
  unfold sht_Find in *. rewrite (nonempty_bucket m) in Hf, Hnf by done.
  rewrite (nonempty_bucket m') by (by eapply nonempty_extends).
  unfold insert_gexpr in Hi. rewrite (nonempty_bucket m1) in Hi by (by eapply nonempty_extends).
  cbn [mbind option_bind] in *. injection Hi as Hm'. rewrite <-Hm' at 2. cbn [m_sht]. rewrite Hsht, Hgx.
  revert Hf Hnf. generalize (fold_left CombineHashes (HashULONG <$> m_pdrgpgroup gexpr) (OpHashValue (ge_pop gexpr)) mod MEMO_HT_BUCKETS).
  generalize (fold_left CombineHashes (HashULONG <$> m_pdrgpgroup new) (OpHashValue (ge_pop new)) mod MEMO_HT_BUCKETS).
  intros bn b Hf Hnf. destruct (decide (bn = b)) as [->|Hne].
  2: { rewrite lookup_insert_ne by done. by apply (find_match_extends m m'). }
  rewrite lookup_insert_eq. cbn [from_option id find_match]. rewrite Hgx in Hnew. rewrite Hnew. cbn [mbind option_bind].
  change (CGroupExpression_Matches (m_groups m') (with_group g new) gexpr) with (CGroupExpression_Matches (m_groups m') new gexpr).
  rewrite (extends_Matches m m') by done.
  destruct (Matches_total (m_groups m) new gexpr Hnr Hr) as [[] Hm]; rewrite Hm; cbn [mbind option_bind];
    [exfalso|by apply (find_match_extends m m')].
  apply find_match_in in Hf as (entry & Hin & Hent & Hme).
  assert (Her : in_range (m_groups m) (m_pdrgpgroup entry)) by (intros c Hc; eapply mo_children; [apply Hwf|done|done]).
  apply flat_Matches in Hm as [Ho1 Hc1], Hme as [Ho2 Hc2]; [|first [apply Hwf|apply Hs|done]..].
  destruct (find_match_spec m new (default [] (m_sht m !! b)) (mw_ok _ Hwf) Hnr) as (r & Hr1 & Hr2).
  { intros e0. by eapply mw_table. }
  rewrite Hnf in Hr1. injection Hr1 as <-. specialize (Hr2 e entry Hin Hent).
  enough (CGroupExpression_Matches (m_groups m) entry new = Some true) by congruence.
  apply flat_Matches; [apply Hwf|apply Hs|done..|]. split.
  - eapply OpMatches_trans; [exact Ho2|by apply OpMatches_sym].
  - etrans; [exact Hc2|by symmetry].
Qed.

(** Looking the expression up in the memo alone finds it in [g]. *)
Fixpoint resolves m g (pexpr : CExpression) : Prop :=
  match pexpr with
  | MkExpression _ _ (Some pgexpr) => pgexpr_group m pgexpr = Some g
  | MkExpression pop children None =>
      exists groups e, in_range (m_groups m) groups /\
        foldr (fun child P groups => match groups with
                 | [] => False
                 | c :: groups => resolves m c child /\ P groups
                 end) (fun groups => groups = []) children groups /\
        sht_Find m (MkGExpr pop groups 0 None false None None false) = Some (Some e) /\ pgexpr_group m e = Some g
  end.

Lemma resolves_node m g pop children :
  resolves m g (MkExpression pop children None) <->
  exists groups e, in_range (m_groups m) groups /\ Forall2 (resolves m) groups children /\
    sht_Find m (MkGExpr pop groups 0 None false None None false) = Some (Some e) /\ pgexpr_group m e = Some g.
Proof.
  cbn [resolves]. apply exist_proper. intros groups. apply exist_proper. intros e.
  match goal with |- _ /\ ?P /\ _ <-> _ => enough (P <-> Forall2 (resolves m) groups children) by tauto end.
  revert groups. induction children as [|c children IH]; intros [|g' groups]; cbn.
  - split; [by constructor|done].
  - split; [done|by inversion 1].
  - split; [done|by inversion 1].
  - by rewrite Forall2_cons, IH.
Qed.

Lemma resolves_stable m m' g pexpr : steady m -> grow_step m m' -> resolves m g pexpr -> resolves m' g pexpr.
Proof.
  intros Hs Hgrow. destruct (grow_step_extends _ _ Hgrow) as [He _]. revert g.
  induction pexpr as [op children [e|] IH] using CExpression_children_ind; intros g.
  - cbn. apply pgexpr_group_kept, He.
  - rewrite !resolves_node. intros (groups & e & Hr & Hc & Hf & Hg). exists groups, e. split_and!.
    + intros c Hin%Hr. by eapply extends_in_range.
    + clear Hr Hf Hg. induction Hc as [|c child groups children Hcc Hc IHc]; [constructor|].
      apply Forall_cons in IH as [IH1 IH2]. constructor; [by apply IH1|by apply IHc].
    + by apply (sht_Find_stable m m').
    + eapply pgexpr_group_kept; [apply He|done].
Qed.

(** The lookup reads the operator and the children. *)
Lemma find_match_key m gexpr1 gexpr2 chain :
  ge_pop gexpr1 = ge_pop gexpr2 -> m_pdrgpgroup gexpr1 = m_pdrgpgroup gexpr2 ->
  find_match m gexpr1 chain = find_match m gexpr2 chain.
Proof.
  intros Hp Hc. induction chain as [|e chain IH]; cbn [find_match]; [done|].
  destruct ((m_gexprs m).[e]) as [entry|]; [|done]. cbn [mbind option_bind].
  assert (Hm : CGroupExpression_Matches (m_groups m) entry gexpr1 = CGroupExpression_Matches (m_groups m) entry gexpr2).
  { unfold CGroupExpression_Matches, m_pdrgpgroupSorted. by rewrite Hp, Hc. }
  rewrite Hm. destruct (CGroupExpression_Matches (m_groups m) entry gexpr2) as [[]|]; cbn [mbind option_bind].
  all: done.
Qed.

Lemma sht_Find_key m gexpr1 gexpr2 :
  ge_pop gexpr1 = ge_pop gexpr2 -> m_pdrgpgroup gexpr1 = m_pdrgpgroup gexpr2 ->
  sht_Find m gexpr1 = sht_Find m gexpr2.
Proof.
  intros Hp Hc. unfold sht_Find, bucket_of. rewrite Hp, Hc.
  destruct (CGroupExpression_HashValue _ _ _); [|done]. cbn [mbind option_bind]. by apply find_match_key.
Qed.

(** An inserted expression is found where it was put. *)
Lemma insert_found pgroupTarget gexpr m g m' :
  steady m -> in_range (m_groups m) (m_pdrgpgroup gexpr) -> target_ok m pgroupTarget (ge_pop gexpr) ->
  origin_ok m (m_pgexprOrigin gexpr) ->
  CMemo_PgroupInsert pgroupTarget gexpr m = Some (g, m') ->
  exists e, sht_Find m' gexpr = Some (Some e) /\ pgexpr_group m' e = Some g.
Proof.
  intros [Hwf Hs] Hr Htg Horig Hins. pose proof (settled_nonempty _ _ Hs Hr) as Hn.
  destruct (sht_Find_spec m gexpr Hwf Hr) as (bucket & _ & [e|] & Hf & Hfs).
  { exists e. destruct Hfs as (entry & He & _). unfold CMemo_PgroupInsert in Hins. rewrite Hf in Hins. cbn [mbind option_bind] in Hins.
    rewrite He in Hins. cbn [mbind option_bind] in Hins. destruct (m_pgroup entry) eqn:Hp; [|done]. injection Hins as <- <-.
    split; [done|]. unfold pgexpr_group. by rewrite He. }
  destruct (CMemo_PgroupInsert_new pgroupTarget gexpr m) as (g0 & m1 & m0 & Hi & _ & Hwf1 & He1 & _ & Hnew & Hwf' & Hx); [done..|].
  rewrite Hi in Hins. injection Hins as -> ->. exists (next_gexpr m1).
  assert (Hext : extends m m') by (etrans; [exact He1|by eapply insert_gexpr_extends]).
  split; [|unfold pgexpr_group; by rewrite Hx]. unfold sht_Find.
  rewrite nonempty_bucket by (by eapply nonempty_extends). cbn [mbind option_bind].
  unfold insert_gexpr in Hnew. rewrite nonempty_bucket in Hnew by (by eapply nonempty_extends).
  cbn [mbind option_bind] in Hnew. injection Hnew as Hm'. rewrite <-Hm' at 2. cbn [m_sht]. rewrite lookup_insert_eq.
  cbn [from_option id find_match]. rewrite Hx. cbn [mbind option_bind].
  destruct (Matches_total (m_groups m') gexpr gexpr) as [b Hb]; [by intros c Hc; apply (extends_in_range m m'), Hr..|].
  change (CGroupExpression_Matches (m_groups m') (with_group g gexpr) gexpr) with (CGroupExpression_Matches (m_groups m') gexpr gexpr).
  rewrite Hb. destruct b; [done|]. unfold CGroupExpression_Matches in Hb. cbv zeta in Hb.
  rewrite Nat.eqb_refl, OpMatches_refl in Hb. cbn [negb] in Hb.
  assert (Hrefl : forall l, FMatchGroups (m_groups m') l l = Some true)
    by (induction l as [|c l IHl]; cbn [FMatchGroups]; [done|by rewrite N.eqb_refl]).
  rewrite !Hrefl in Hb. by repeat case_match.
Qed.

Lemma grow_steps m m' : steady m -> rtc grow_step m m' -> extends m m' /\ steady m'.
Proof.
  intros Hs. induction 1 as [m|m1 m2 m3 Hg _ IH]; [done|]. destruct (grow_step_extends _ _ Hg) as [He Hs2].
  destruct (IH Hs2). split; [by etrans|done].
Qed.

Lemma resolves_steps m m' g pexpr : steady m -> rtc grow_step m m' -> resolves m g pexpr -> resolves m' g pexpr.
Proof.
  intros Hs Hr. revert Hs. induction Hr as [m|m1 m2 m3 Hg _ IH]; intros Hs Hres; [done|].
  apply IH; [apply (grow_step_extends m1 m2 Hg)|]. by apply (resolves_stable m1 m2).
Qed.

Lemma pgexpr_group_range m e g : memo_wf m -> pgexpr_group m e = Some g -> g < N.of_nat (length (m_groups m)).
Proof.
  intros Hwf. unfold pgexpr_group. destruct ((m_gexprs m).[e]) as [x|] eqn:Hx; [|done]. cbn. intros Hp.
  destruct (mw_group _ Hwf e x Hx) as (g' & group & Hp' & Hg & _). rewrite Hp in Hp'. injection Hp' as <-.
  by eapply lookup_N_lt.
Qed.

Lemma resolves_range m g pexpr : memo_wf m -> resolves m g pexpr -> g < N.of_nat (length (m_groups m)).
Proof.
  intros Hwf. destruct pexpr as [op children [e|]]; [by apply pgexpr_group_range|].
  rewrite resolves_node. intros (groups & e & _ & _ & _ & Hg). by eapply pgexpr_group_range.
Qed.

End laws.
End facts.

Section insertion.
Context {BS : Type} {HB : NodeSet BS} {HO : OperatorIdentity} {HL : OperatorLaws}.
Context (FDSLShell : N -> bool).
Implicit Types (m : CMemo) (gs : list CGroup) (gexpr : CGroupExpression) (g e : N).
Abbreviation dsl_provenance := (dsl_provenance FDSLShell).
Abbreviation FHasDSLProvenance := (FHasDSLProvenance FDSLShell).
Abbreviation CEngine_PgroupInsert := (CEngine_PgroupInsert (BS := BS) FDSLShell).

(** ** The whole insertion *)

Lemma kept_gexprs_length m m' :
  gexprs_kept m m' ->
  (length (m_gexprs m) <= length (m_gexprs m'))%nat.
Proof.
  intros He. destruct (length (m_gexprs m)) as [|n] eqn:Hn; [lia|].
  destruct (lookup_lt_is_Some_2 (m_gexprs m) n) as [x Hx]; [lia|].
  specialize (He (N.of_nat n) x). rewrite Nat2N.id in He. apply He, lookup_lt_Some in Hx. lia.
Qed.

Lemma dsl_provenance_total m fuel o :
  origins_older m -> origin_ok m o -> (forall e, o = Some e -> (N.to_nat e < fuel)%nat) ->
  is_Some (dsl_provenance fuel m o).
Proof.
  intros Hwf. revert o. induction fuel as [|fuel IH]; intros [e|] Ho Hf; cbn [dsl_provenance]; [|eauto| |eauto].
  { specialize (Hf e eq_refl). lia. }
  destruct (lookup_lt_is_Some_2 (m_gexprs m) (N.to_nat e)) as [x Hx]; [specialize (Ho e eq_refl); lia|].
  rewrite Hx. cbn [mbind option_bind]. destruct (FDSLShell _); [eauto|].
  apply IH; intros e' He'; pose proof (Hwf e x e' Hx He'); [specialize (Ho e eq_refl)|specialize (Hf e eq_refl)]; lia.
Qed.

(** Insertion is for DSL alternatives and native transformations; the first are
    guarded. *)
Definition DSLProvenance m exfidOrigin (pgexprOrigin : option N) : option bool :=
  origin_dsl ← (match pgexprOrigin with Some e => FHasDSLProvenance m e | None => Some false end);
  Some (FDSLShell exfidOrigin || origin_dsl).

(** What inserting an expression gives: its group, or the target when the guard
    found a child from which the target can be reached. *)
Definition inserted m exfidOrigin pgexprOrigin m' pgroupTarget (pexpr : CExpression) g : Prop :=
  stands_for m' g pexpr \/
  (pgroupTarget = Some g /\ DSLProvenance m exfidOrigin pgexprOrigin = Some true /\ exists groups c, all_stand_for m' groups (Children pexpr) /\ c ∈ groups /\
     memo_path m' c g).

Definition insert_post m pgroupTarget exfidOrigin pgexprOrigin (pexpr : CExpression) (res : N * CMemo) : Prop :=
  let '(g, m') := res in
  memo_wf m' /\ extends m m' /\ inserted m exfidOrigin pgexprOrigin m' pgroupTarget pexpr g /\
  (grouped m -> relational pexpr -> grouped m') /\
  (acyclic m -> (pgroupTarget = None \/ DSLProvenance m exfidOrigin pgexprOrigin = Some true /\ search_complete m) ->
     acyclic m') /\
  (pgroupTarget = None -> search_complete m -> search_complete m').

Lemma dsl_provenance_stable m m' fuel fuel' o b :
  gexprs_kept m m' -> (fuel <= fuel')%nat -> dsl_provenance fuel m o = Some b -> dsl_provenance fuel' m' o = Some b.
Proof.
  intros He. revert fuel' o. induction fuel as [|fuel IH]; intros [|fuel'] [e|] Hf; try done; [lia|].
  cbn [dsl_provenance]. destruct ((m_gexprs m).[e]) as [x|] eqn:Hx; [|done].
  rewrite (He _ _ Hx). cbn [mbind option_bind]. destruct (FDSLShell _); [done|]. apply IH. lia.
Qed.

Lemma DSLProvenance_stable m m' exfid o b :
  gexprs_kept m m' -> DSLProvenance m exfid o = Some b -> DSLProvenance m' exfid o = Some b.
Proof.
  intros He. unfold DSLProvenance. destruct o as [e|]; [|done]. unfold FHasDSLProvenance.
  destruct (dsl_provenance (length (m_gexprs m)) m (Some e)) as [b'|] eqn:Hb; [|done].
  by rewrite (dsl_provenance_stable _ _ _ (length (m_gexprs m')) _ _ He (kept_gexprs_length _ _ He) Hb).
Qed.

Lemma DSLProvenance_total m exfid o : memo_wf m -> origin_ok m o -> is_Some (DSLProvenance m exfid o).
Proof.
  intros Hwf Ho. unfold DSLProvenance. destruct o as [e|]; [|cbn; eauto]. unfold FHasDSLProvenance.
  destruct (dsl_provenance_total m (length (m_gexprs m)) (Some e) (mw_origin _ Hwf) Ho) as [b ->]; [|cbn; eauto].
  intros e' He. specialize (Ho e' He). lia.
Qed.

Lemma origin_ok_extends m m' o : extends m m' -> origin_ok m o -> origin_ok m' o.
Proof. intros (He%kept_gexprs_length & _) Ho e Heq. specialize (Ho e Heq). lia. Qed.

Lemma target_ok_extends m m' tgt pop : extends m m' -> target_ok m tgt pop -> target_ok m' tgt pop.
Proof.
  intros (_ & He & _) Ht target (group & Hg & Hs)%Ht. apply He in Hg as (group' & ? & _ & Hs' & _).
  exists group'. split; [done|congruence].
Qed.

(** What inserting children one after the other gives. *)
Definition children_post m (children : list CExpression) (res : list N * CMemo) : Prop :=
  let '(groups, m') := res in
  memo_wf m' /\ extends m m' /\ all_stand_for m' groups children /\
  (grouped m -> Forall relational children -> grouped m') /\ (acyclic m -> acyclic m') /\
  (search_complete m -> search_complete m').

Lemma InsertExpressionChildren_ok exfid o insert children m :
  memo_wf m -> origin_ok m o ->
  Forall (fun child => (FPatternLeaf (Pop child) = true -> is_Some (Pgexpr child)) /\ insertable m child) children ->
  Forall (fun child => forall m, memo_wf m -> origin_ok m o -> insertable m child ->
    returns (insert_post m None exfid o child) (insert child m)) children ->
  returns (children_post m children) (InsertExpressionChildren insert children m).
Proof.
  intros Hwf Ho Hch Hins. revert m Hwf Ho Hch. induction Hins as [|child children Hchild Hins IH]; intros m Hwf Ho Hch.
  { exists ([], m). split; [done|]. split; [done|]. split; [done|]. split; [constructor|done]. }
  apply Forall_cons in Hch as [[Hleaf Hi] Hch]. cbn [InsertExpressionChildren].
  assert (Hone : returns (fun '(g, m') => memo_wf m' /\ extends m m' /\ stands_for m' g child /\
                     (grouped m -> relational child -> grouped m') /\ (acyclic m -> acyclic m') /\
                     (search_complete m -> search_complete m'))
                   (insert_child insert child m)).
  { unfold insert_child. destruct (FPatternLeaf (Pop child)) eqn:Hp.
    - destruct child as [op sub ge]. destruct (Hleaf eq_refl) as [e He]. cbn in He, Hi. subst ge. destruct Hi as [x Hx].
      destruct (mw_group _ Hwf e x Hx) as (g & _ & Hg & _).
      assert (Hpg : pgexpr_group m e = Some g) by (unfold pgexpr_group; by rewrite Hx).
      cbn [Pgexpr mbind option_bind]. rewrite Hpg. exists (g, m). by split_and!.
    - eapply returns_mono; [by apply Hchild|]. intros [g m'] (? & ? & [Hst|[? _]] & Hgr & Ha & Hs); [|done].
      split_and!; [done..| |by apply Hs]. intros Hac. apply Ha; [done|by left]. }
  eapply returns_bind; [exact Hone|]. intros [g m1] (Hwf1 & He1 & Hst & Hg1 & Ha1 & Hs1).
  eapply returns_bind; [apply (IH m1 Hwf1)|].
  - by eapply origin_ok_extends.
  - eapply Forall_impl; [exact Hch|]. intros c [? ?]. split; [done|]. by eapply insertable_extends.
  - intros [groups m2] (Hwf2 & He2 & Hall & Hg2 & Ha2 & Hs2). exists (g :: groups, m2). split; [done|].
    split_and!; [done|by etrans| | |auto|auto].
    + constructor; [by apply (stands_for_extends m1 m2)|done].
    + intros Hg [Hc Hcs]%Forall_cons. auto.
Qed.

Lemma all_stand_for_in_range m groups children :
  memo_wf m -> all_stand_for m groups children -> in_range (m_groups m) groups.
Proof.
  intros Hwf. induction 1 as [|g child groups children Hg _ IH]; intros c; [by intros ?%elem_of_nil|].
  intros [->|?]%elem_of_cons; [by eapply stands_for_in_range|by apply IH].
Qed.

Lemma CEngine_PgroupInsert_ok pexpr pgroupTarget exfidOrigin pgexprOrigin fIntermediate m :
  memo_wf m -> insertable m pexpr -> origin_ok m pgexprOrigin ->
  target_ok m pgroupTarget (Pop pexpr) -> (pgroupTarget <> None -> Pgexpr pexpr = None) ->
  returns (insert_post m pgroupTarget exfidOrigin pgexprOrigin pexpr)
    (CEngine_PgroupInsert pgroupTarget pexpr exfidOrigin pgexprOrigin fIntermediate m).
Proof.
  revert pgroupTarget fIntermediate m. induction pexpr as [pop children [e|] IH] using CExpression_children_ind;
    intros tgt fIntermediate m Hwf Hi Ho Ht Hbound.
  { destruct Hi as [x Hx]. destruct (mw_group _ Hwf e x Hx) as (g & _ & Hg & _).
    assert (Hpg : pgexpr_group m e = Some g) by (unfold pgexpr_group; by rewrite Hx).
    cbn [CEngine_PgroupInsert]. rewrite Hpg. exists (g, m). split; [done|]. split_and!; [done|done|by left|done|done|done]. }
  apply insertable_node in Hi. cbn [CEngine_PgroupInsert]. eapply returns_bind.
  { apply (InsertExpressionChildren_ok exfidOrigin pgexprOrigin); [done..|].
    eapply Forall_impl; [exact IH|]. intros child Hc m0 Hwf0 Ho0 Hi0. apply Hc; done. }
  intros [groups m1] (Hwf1 & He1 & Hall & Hgr1 & Hac1 & Hsc1).
  pose proof (all_stand_for_in_range _ _ _ Hwf1 Hall) as Hr.
  pose proof (origin_ok_extends _ _ _ He1 Ho) as Ho1. pose proof (target_ok_extends _ _ _ _ He1 Ht) as Ht1.
  destruct (DSLProvenance_total m exfidOrigin pgexprOrigin Hwf Ho) as [dsl Hdsl].
  pose proof (DSLProvenance_stable _ _ _ _ _ (proj1 He1) Hdsl) as Hdsl1. unfold DSLProvenance in Hdsl1.
  destruct (match pgexprOrigin with Some e => _ | None => _ end) as [origin_dsl|]; [|done].
  cbn [mbind option_bind] in *. injection Hdsl1 as ->. cbv zeta.
  set (gexpr := MkGExpr pop groups exfidOrigin pgexprOrigin fIntermediate None None false).
  assert (Hinsert : (forall target, tgt = Some target -> dsl = true -> closes_cycle m1 groups target = Some false) ->
    returns (insert_post m tgt exfidOrigin pgexprOrigin (MkExpression pop children None)) (CMemo_PgroupInsert tgt gexpr m1)).
  { intros Hcl. destruct (CMemo_PgroupInsert_ok tgt gexpr m1) as (g & m' & Hi' & Hwf' & He' & Hg & Hgr'); [done..|].
    exists (g, m'). split; [done|]. split_and!; [done|by etrans| | | |].
    - left. apply stands_for_node. exists groups. split_and!; [|by eapply Forall2_impl; [exact Hall|]; intros; eapply (stands_for_extends m1)|done].
      intros c Hc%Hr. by eapply extends_in_range.
    - intros Hgr [Hpop Hrel]%relational_node. auto.
    - intros Hac Hor. eapply (CMemo_PgroupInsert_acyclic tgt gexpr m1); [done..| |exact Hi'|by apply Hac1].
      intros target ->. destruct Hor as [?|[Hd Hs]]; [done|]. split; [by apply Hsc1|]. intros _. apply Hcl; [done|congruence].
    - intros -> Hs. eapply (CMemo_PgroupInsert_search_complete gexpr m1); [done|done|exact Ho1|exact Hi'|by apply Hsc1]. }
  destruct tgt as [target|]; [|by apply Hinsert].
  destruct dsl; [|by apply Hinsert].
  destruct (Ht1 target eq_refl) as (group & Hg & Hs).
  destruct (closes_cycle_spec m1 groups target group Hwf1 Hr Hg) as (b & Hb & Hspec).
  rewrite Hb. cbn [mbind option_bind]. destruct b; [|apply Hinsert; by intros ? [= <-]].
  destruct (proj1 Hspec eq_refl) as (_ & c & child & Hc & _ & _ & Hp). exists (target, m1). split; [done|].
  split_and!; [done|done| |by intros Hgr [_ Hrel]%relational_node; auto|by auto|done].
  right. split_and!; [done|done|]. by exists groups, c.
Qed.

Lemma CEngine_resolves pexpr pgroupTarget exfid o fIntermediate m :
  memo_wf m -> origin_ok m o -> insertable m pexpr -> pgroupTarget = None -> forall g,
  resolves m g pexpr -> CEngine_PgroupInsert pgroupTarget pexpr exfid o fIntermediate m = Some (g, m).
Proof.
  intros Hwf Ho. revert pgroupTarget fIntermediate.
  induction pexpr as [op children [e|] IH] using CExpression_children_ind; intros tgt fI Hi -> g.
  - cbn. by intros ->.
  - rewrite insertable_node in Hi. rewrite resolves_node. intros (groups & e & Hr & Hc & Hf & Hg). cbn [CEngine_PgroupInsert].
    assert (Hch : InsertExpressionChildren (fun child m => CEngine_PgroupInsert None child exfid o true m) children m = Some (groups, m)).
    { clear Hr Hf. induction Hc as [|c child groups children Hcc Hc IHc]; [done|].
      apply Forall_cons in IH as [IH1 IH2]. apply Forall_cons in Hi as [[Hleaf Hi1] Hi2]. cbn [InsertExpressionChildren].
      assert (Hone : insert_child (fun child m => CEngine_PgroupInsert None child exfid o true m) child m = Some (c, m)).
      { unfold insert_child. destruct (FPatternLeaf (Pop child)) eqn:Hp; [|by apply IH1].
        destruct child as [op' sub ge]. destruct (Hleaf eq_refl) as [x Hx]. cbn in Hx. subst ge.
        cbn in Hcc |- *. by rewrite Hcc. }
      rewrite Hone. cbn [mbind option_bind]. by rewrite IHc. }
    rewrite Hch. cbn [mbind option_bind].
    destruct (DSLProvenance_total m exfid o Hwf Ho) as [dsl Hdsl]. unfold DSLProvenance in Hdsl.
    destruct (match o with Some e => _ | None => _ end) as [origin_dsl|]; [|done]. cbn [mbind option_bind].
    unfold CMemo_PgroupInsert. erewrite sht_Find_key, Hf; [|done|done]. cbn [mbind option_bind].
    unfold pgexpr_group in Hg. destruct ((m_gexprs m).[e]) as [x|]; [|done]. cbn [mbind option_bind] in *. by rewrite Hg.
Qed.

Definition found_post m (pexpr : CExpression) (res : N * CMemo) : Prop :=
  let '(g, m') := res in rtc grow_step m m' /\ resolves m' g pexpr.

Lemma InsertExpressionChildren_found o insert children m :
  steady m -> origin_ok m o ->
  Forall (fun child => (FPatternLeaf (Pop child) = true -> is_Some (Pgexpr child)) /\ insertable m child) children ->
  Forall (fun child => forall m, steady m -> origin_ok m o -> insertable m child ->
    returns (found_post m child) (insert child m)) children ->
  returns (fun '(groups, m') => rtc grow_step m m' /\ Forall2 (resolves m') groups children)
    (InsertExpressionChildren insert children m).
Proof.
  intros Hs Ho Hch Hins. revert m Hs Ho Hch. induction Hins as [|child children Hchild Hins IH]; intros m Hs Ho Hch.
  { exists ([], m). split; [done|]. by split. }
  apply Forall_cons in Hch as [[Hleaf Hi] Hch]. cbn [InsertExpressionChildren].
  assert (Hone : returns (found_post m child) (insert_child insert child m)).
  { unfold insert_child. destruct (FPatternLeaf (Pop child)) eqn:Hp; [|by apply Hchild].
    destruct child as [op sub ge]. destruct (Hleaf eq_refl) as [e He]. cbn in He, Hi. subst ge. destruct Hi as [x Hx].
    destruct (mw_group _ (proj1 Hs) e x Hx) as (g & _ & Hg & _).
    assert (Hpg : pgexpr_group m e = Some g) by (unfold pgexpr_group; by rewrite Hx).
    cbn [Pgexpr mbind option_bind]. rewrite Hpg. exists (g, m). by split_and!. }
  eapply returns_bind; [exact Hone|]. intros [g m1] (Hr1 & Hres). destruct (grow_steps _ _ Hs Hr1) as [He1 Hs1].
  eapply returns_bind; [apply (IH m1 Hs1)|].
  - by eapply origin_ok_extends.
  - eapply Forall_impl; [exact Hch|]. intros c [? ?]. split; [done|]. by eapply insertable_extends.
  - intros [groups m2] (Hr2 & Hall). exists (g :: groups, m2). split; [done|]. split; [by etrans|].
    constructor; [by apply (resolves_steps m1 m2)|done].
Qed.

Lemma CEngine_found pexpr exfid o fIntermediate m :
  steady m -> origin_ok m o -> insertable m pexpr ->
  returns (found_post m pexpr) (CEngine_PgroupInsert None pexpr exfid o fIntermediate m).
Proof.
  revert fIntermediate m. induction pexpr as [pop children [e|] IH] using CExpression_children_ind; intros fI m Hs Ho Hi.
  { destruct Hi as [x Hx]. destruct (mw_group _ (proj1 Hs) e x Hx) as (g & _ & Hg & _).
    assert (Hpg : pgexpr_group m e = Some g) by (unfold pgexpr_group; by rewrite Hx).
    cbn [CEngine_PgroupInsert]. rewrite Hpg. exists (g, m). by split_and!. }
  apply insertable_node in Hi. cbn [CEngine_PgroupInsert]. eapply returns_bind.
  { apply (InsertExpressionChildren_found o); [done..|].
    eapply Forall_impl; [exact IH|]. intros child Hc m0 Hs0 Ho0 Hi0. by apply Hc. }
  intros [groups m1] (Hr1 & Hall). destruct (grow_steps _ _ Hs Hr1) as [He1 Hs1].
  pose proof (origin_ok_extends _ _ _ He1 Ho) as Ho1.
  assert (Hr : in_range (m_groups m1) groups).
  { clear -FDSLShell HL Hall Hs1. induction Hall as [|g child groups children Hg _ IHl]; intros c; [by intros ?%elem_of_nil|].
    intros [->|?]%elem_of_cons; [eapply resolves_range; [apply Hs1|done]|by apply IHl]. }
  destruct (DSLProvenance_total m1 exfid o (proj1 Hs1) Ho1) as [dsl Hdsl]. unfold DSLProvenance in Hdsl.
  destruct (match o with Some e => _ | None => _ end) as [origin_dsl|]; [|done]. cbn [mbind option_bind]. cbv zeta.
  set (gexpr := MkGExpr pop groups exfid o fI None None false).
  destruct (CMemo_PgroupInsert_ok None gexpr m1) as (g & m' & Hi' & _); [apply Hs1|done..|].
  exists (g, m'). split; [done|].
  destruct (insert_found None gexpr m1 g m') as (e & Hf & Hg); [done..|].
  assert (Hrtc : rtc grow_step m1 m').
  { destruct (CMemo_PgroupInsert_grows None gexpr m1 g m') as [->|?]; [done..|by apply rtc_once]. }
  destruct (grow_steps _ _ Hs1 Hrtc) as [He' _]. split; [by etrans|]. apply resolves_node. exists groups, e. split_and!.
  - intros c Hc%Hr. by eapply extends_in_range.
  - eapply Forall2_impl; [exact Hall|]. intros c child. by apply (resolves_steps m1 m').
  - by erewrite sht_Find_key; [exact Hf|..].
  - done.
Qed.

(** C24: Inserting an expression always returns and keeps the memo well formed: no
    expression is lost, groups only grow, and the group returned stands for the
    expression, unless the guard against cycles found a child from which the
    target can be reached; then the target is returned. *)
Theorem PgroupInsert_sound pexpr pgroupTarget exfidOrigin pgexprOrigin fIntermediate m
    (Hwf : memo_wf m) (Hi : insertable m pexpr) (Ho : origin_ok m pgexprOrigin)
    (Ht : target_ok m pgroupTarget (Pop pexpr)) (Hb : pgroupTarget <> None -> Pgexpr pexpr = None) :
  exists g m', CEngine_PgroupInsert pgroupTarget pexpr exfidOrigin pgexprOrigin fIntermediate m = Some (g, m') /\
    memo_wf m' /\ extends m m' /\ inserted m exfidOrigin pgexprOrigin m' pgroupTarget pexpr g.
Proof.
  destruct (CEngine_PgroupInsert_ok pexpr pgroupTarget exfidOrigin pgexprOrigin fIntermediate m) as ([g m'] & He & ? & ? & ? & _);
    [done..|]. by exists g, m'.
Qed.

(** C23: Inserting closes no cycle of groups, through the expressions of any group,
    with duplicates taken as one: into fresh groups always, and into a given group
    under the provenance of a DSL rule when the searches of the guard miss nothing.
    They do when the duplicates marked so far have been merged; else [FReachable]
    does not see the expressions of a marked group
    ([unmerged_duplicate_closes_cycle]). *)
Theorem PgroupInsert_acyclic pexpr pgroupTarget exfidOrigin pgexprOrigin fIntermediate m g m'
    (Hwf : memo_wf m) (Hi : insertable m pexpr) (Ho : origin_ok m pgexprOrigin)
    (Ht : target_ok m pgroupTarget (Pop pexpr)) (Hb : pgroupTarget <> None -> Pgexpr pexpr = None)
    (Hac : acyclic m)
    (Hdsl : pgroupTarget = None \/
       DSLProvenance m exfidOrigin pgexprOrigin = Some true /\ (search_complete m \/ all_merged m))
    (Hins : CEngine_PgroupInsert pgroupTarget pexpr exfidOrigin pgexprOrigin fIntermediate m = Some (g, m')) :
  acyclic m'.
Proof.
  destruct (CEngine_PgroupInsert_ok pexpr pgroupTarget exfidOrigin pgexprOrigin fIntermediate m) as ([g0 m0] & He & _ & _ & _ & _ & Ha & _);
    [done..|]. rewrite Hins in He. injection He as <- <-. apply Ha; [done|].
  destruct Hdsl as [?|[? [?|?]]]; [by left|by right|right; split; [done|]].
  apply all_merged_search_complete; [apply Hwf|done].
Qed.

(** In a memo whose links go to masters and none of whose groups is empty,
    inserting an expression a second time gives the same group and leaves the
    memo as it is, whichever rule produces it. *)
Theorem PgroupInsert_again pexpr exfid1 exfid2 o f1 f2 m g m'
    (Hwf : memo_wf m) (Hs : settled m) (Hi : insertable m pexpr) (Ho : origin_ok m o)
    (Hins : CEngine_PgroupInsert None pexpr exfid1 o f1 m = Some (g, m')) :
  CEngine_PgroupInsert None pexpr exfid2 o f2 m' = Some (g, m').
Proof.
  destruct (CEngine_found pexpr exfid1 o f1 m) as ([g0 m0] & He & Hr & Hres); [done..|].
  rewrite Hins in He. injection He as <- <-. destruct (grow_steps m m') as [Hext [Hwf' _]]; [done..|].
  apply CEngine_resolves; [done|by eapply origin_ok_extends|by eapply insertable_extends|done..].
Qed.
End insertion.

(** ** Witnesses *)

Definition sample_term (id : EOperatorId) (k : N) (children : list CExpression) : CExpression :=
  MkExpression (MkOperator id 0 false false None k) children None.

(** A join of two atoms on a predicate, in an empty memo; then the group of the
    join gets the commuted join. *)
Definition sample_join_term : CExpression :=
  sample_term EopLogicalInnerJoin 0
    [sample_term (EopOther 0) 0 []; sample_term (EopOther 0) 0 [sample_term (EopOther 2) 0 []];
     sample_term (EopOther 1) 0 []].
Definition sample_empty : CMemo := MkMemo [] [] ∅ None.
Abbreviation sample_insert := (CEngine_PgroupInsert (BS := gset N) (HO := sample_identity) (fun x => x =? 9)).
Definition sample_memo : CMemo := default sample_empty (snd <$> sample_insert None sample_join_term 0 None false sample_empty).
Definition sample_commuted : CExpression :=
  MkExpression (MkOperator EopLogicalInnerJoin 0 false false None 0)
    [MkExpression (MkOperator (EopOther 0) 0 false false None 0) [] (Some 2);
     MkExpression (MkOperator (EopOther 0) 0 false false None 0) [] (Some 0);
     MkExpression (MkOperator (EopOther 1) 0 false false None 0) [] (Some 3)] None.

Lemma sample_empty_ok : memo_wf (HO := sample_identity) sample_empty.
Proof.
  split; [split|..]; cbn.
  - by intros g group d Hg.
  - by intros g group e Hg.
  - by intros e x c Hx.
  - by intros e x Hx.
  - by intros g group e x Hg.
  - intros b e. rewrite lookup_empty. by intros ?%elem_of_nil.
  - by intros e x o Hx.
Qed.

#[local] Existing Instance sample_identity.
#[local] Existing Instance sample_operator_laws.

Lemma sample_empty_acyclic : acyclic sample_empty.
Proof.
  assert (Hno : forall x y, ~ class_edge (HO := sample_identity) sample_empty x y)
    by (by intros x y (g & (group & ? & ? & ? & ? & Hg & _) & _)).
  intros g Hg. inversion Hg; subst; by eapply Hno.
Qed.

Lemma sample_insertable : insertable sample_empty sample_join_term.
Proof. vm_compute. repeat split; discriminate. Qed.

Lemma sample_memo_ok : memo_wf sample_memo /\ acyclic sample_memo.
Proof.
  destruct (CEngine_PgroupInsert_ok (BS := gset N) (fun x => x =? 9) sample_join_term None 0 None false sample_empty)
    as ([g m'] & He & Hwf & _ & _ & _ & Ha & _); [apply sample_empty_ok|apply sample_insertable|done..|].
  unfold sample_memo. rewrite He. split; [done|]. apply Ha; [apply sample_empty_acyclic|by left].
Qed.

Lemma sample_commuted_insertable : insertable sample_memo sample_commuted.
Proof. vm_compute. repeat split; try discriminate; by eexists. Qed.

Lemma sample_target_ok : target_ok sample_memo (Some 4) (Pop sample_commuted).
Proof. intros target [= <-]. eexists. split; vm_compute; reflexivity. Qed.

Lemma sample_origin_ok : origin_ok sample_memo (Some 4).
Proof. intros o [= <-]. vm_compute. reflexivity. Qed.

Lemma PgroupInsert_sound_witness :
  exists g m', sample_insert (Some 4) sample_commuted 9 (Some 4) false sample_memo = Some (g, m') /\
    memo_wf m' /\ extends sample_memo m' /\ inserted (fun x => x =? 9) sample_memo 9 (Some 4) m' (Some 4) sample_commuted g.
Proof.
  apply (PgroupInsert_sound (BS := gset N) (fun x => x =? 9)); [apply sample_memo_ok|apply sample_commuted_insertable|
    apply sample_origin_ok|apply sample_target_ok|reflexivity].
Defined.

Lemma sample_all_merged : all_merged sample_memo.
Proof.
  assert (Hb : forallb (fun group => bool_decide (m_pgroupDuplicate group = None)) (m_groups sample_memo) = true)
    by (vm_compute; reflexivity).
  rewrite forallb_forall in Hb. intros g group d Hg Hd. apply list_elem_of_lookup_2, list_elem_of_In, Hb in Hg.
  apply bool_decide_eq_true in Hg. congruence.
Qed.

Lemma PgroupInsert_acyclic_witness :
  exists g m', sample_insert (Some 4) sample_commuted 9 (Some 4) false sample_memo = Some (g, m') /\ acyclic m'.
Proof.
  destruct (sample_insert (Some 4) sample_commuted 9 (Some 4) false sample_memo) as [[g m']|] eqn:He;
    [|vm_compute in He; discriminate].
  exists g, m'. split; [reflexivity|].
  refine (PgroupInsert_acyclic (fun x => x =? 9) sample_commuted (Some 4) 9 (Some 4) false sample_memo g m' _ _ _ _ _ _ _ He);
    [apply sample_memo_ok|apply sample_commuted_insertable|apply sample_origin_ok|apply sample_target_ok|reflexivity|
     apply sample_memo_ok|right; split; [vm_compute; reflexivity|right; exact sample_all_merged]].
Defined.

(** The join in group 4 is over group 2, and group 4 is marked as a duplicate of a
    new group 5 and not merged.  A DSL rule then puts a join over group 5 into group
    2: the guard looks at the expressions of group 5 only. *)
Definition sample_unmerged : CMemo :=
  match sample_insert None (sample_term (EopOther 0) 0 [sample_term (EopOther 0) 0 []]) 0 None false sample_memo with
  | Some (g, m) => match MarkDuplicates 4 g (m_groups m) with
    | Some gs => MkMemo gs (m_gexprs m) (m_sht m) (m_pgroupRoot m) | None => sample_empty end
  | None => sample_empty
  end.
Definition sample_over_duplicate : CExpression :=
  MkExpression (MkOperator EopLogicalInnerJoin 0 false false None 0)
    [MkExpression (MkOperator (EopOther 0) 0 false false None 0) [] (Some 5);
     MkExpression (MkOperator (EopOther 0) 0 false false None 0) [] (Some 0);
     MkExpression (MkOperator (EopOther 1) 0 false false None 0) [] (Some 3)] None.
Definition sample_cyclic : CMemo :=
  default sample_empty (snd <$> sample_insert (Some 2) sample_over_duplicate 9 (Some 2) false sample_unmerged).

(** The steps between classes of a memo, listed. *)
Definition class_steps (m : CMemo) : list (N * N) :=
  flat_map (fun g => match (m_groups m).[g] with
    | Some group => flat_map (fun e => match (m_gexprs m).[e] with
        | Some gexpr => if FLogical (ge_pop gexpr) then flat_map (fun c => match (m_groups m).[c] with
            | Some child => if g_fScalar child then [] else [(master (m_groups m) g, master (m_groups m) c)]
            | None => [] end) (m_pdrgpgroup gexpr) else []
        | None => [] end) (m_listGExprs group)
    | None => [] end) (N.of_nat <$> seq 0 (length (m_groups m))).

Lemma class_steps_spec m x y : class_edge m x y <-> (x, y) ∈ class_steps m.
Proof.
  unfold class_steps. rewrite list_elem_of_In, in_flat_map. split.
  - intros (g & (group & e & gx & c & child & Hg & He & Hx & Hl & Hc & Hch & Hs & ->) & ->). exists g. split.
    { apply list_elem_of_In, list_elem_of_fmap. exists (N.to_nat g). apply lookup_N_lt in Hg. rewrite elem_of_seq. lia. }
    rewrite Hg. apply in_flat_map. exists e. split; [by apply list_elem_of_In|]. rewrite Hx, Hl.
    apply in_flat_map. exists c. split; [by apply list_elem_of_In|]. rewrite Hch, Hs. by left.
  - intros (g & _ & Hin). destruct ((m_groups m).[g]) as [group|] eqn:Hg; [|done].
    apply in_flat_map in Hin as (e & He & Hin). destruct ((m_gexprs m).[e]) as [gx|] eqn:Hx; [|done].
    destruct (FLogical (ge_pop gx)) eqn:Hl; [|done].
    apply in_flat_map in Hin as (c & Hc & Hin). destruct ((m_groups m).[c]) as [child|] eqn:Hch; [|done].
    destruct (g_fScalar child) eqn:Hs; [done|]. destruct Hin as [[= <- <-]|[]].
    exists g. split; [|done]. exists group, e, gx, c, child. by rewrite !list_elem_of_In.
Qed.

Example unmerged_duplicate_closes_cycle :
  sample_insert (Some 2) sample_over_duplicate 9 (Some 2) false sample_unmerged = Some (2, sample_cyclic) /\
  acyclic sample_unmerged /\ ~ acyclic sample_cyclic.
Proof.
  split; [vm_compute; reflexivity|]. split.
  - assert (Hb : forallb (fun p => (p.1 =? 5) && negb (p.2 =? 5)) (class_steps sample_unmerged) = true) by (vm_compute; reflexivity).
    assert (Hs : forall x y, class_edge sample_unmerged x y -> x = 5 /\ y <> 5).
    { rewrite forallb_forall in Hb. intros x y He%class_steps_spec%list_elem_of_In%Hb. simpl in He. by breflect. }
    assert (Htc : forall x y, tc (class_edge sample_unmerged) x y -> x = 5 /\ y <> 5).
    { intros x y. induction 1 as [x y He|x y z He _ [_ IH]]; [by apply Hs|]. split; [by apply Hs in He as []|done]. }
    intros x Hx. destruct (Htc x x Hx) as [He Hne]. exact (Hne He).
  - assert (class_steps sample_cyclic = [(2, 5); (2, 0); (5, 0); (5, 2); (5, 0)]) as Hsteps by (vm_compute; reflexivity).
    assert (class_edge sample_cyclic 5 2) as H52.
    { apply class_steps_spec. rewrite Hsteps. apply list_elem_of_In. do 3 right. left. reflexivity. }
    assert (class_edge sample_cyclic 2 5) as H25 by (apply class_steps_spec; rewrite Hsteps; left).
    intros Hac. exact (Hac 5 (tc_l _ 5 2 5 H52 (tc_once _ 2 5 H25))).
Qed.

Lemma sample_empty_settled : settled sample_empty.
Proof. split; by intros. Qed.

Lemma PgroupInsert_again_witness :
  exists g, sample_insert None sample_join_term 0 None false sample_empty = Some (g, sample_memo) /\
    sample_insert None sample_join_term 5 None true sample_memo = Some (g, sample_memo).
Proof.
  assert (He : sample_insert None sample_join_term 0 None false sample_empty = Some (4, sample_memo))
    by (vm_compute; reflexivity).
  exists 4. split; [exact He|].
  exact (PgroupInsert_again (BS := gset N) (fun x => x =? 9) sample_join_term 0 5 None false true sample_empty 4 sample_memo
    sample_empty_ok sample_empty_settled sample_insertable (fun o H => match H with end) He).
Defined.

(** The children are compared in the order of their ids where the order of inputs
    does not matter, but the hash takes them as they are: a commuted expression is
    equal and yet looked for in another chain. *)
Example commuted_hashed_apart :
  let gs := replicate 2 (MkGroup false None [] [] false) in
  let gexpr l := MkGExpr (MkOperator (EopOther 0) 0 false false None 0) l 0 None false None None false in
  CGroupExpression_Matches gs (gexpr [0; 1]) (gexpr [1; 0]) = Some true /\
  CGroupExpression_HashValue gs (ge_pop (gexpr [0; 1])) [0; 1] <> CGroupExpression_HashValue gs (ge_pop (gexpr [0; 1])) [1; 0].
Proof. split; [vm_compute; reflexivity|]. vm_compute. discriminate. Qed.
