(* ===== verification/MemoMerge.v ===== *)
(** * Merging the duplicate groups of the memo

    Model of the end of exploration (libgpopt/src/search/CMemo.cpp: [FRehash] and
    [GroupMerge]; CGroup.cpp: [MergeGroup] and [MoveDuplicateGExpr]): the hash table
    of group expressions is emptied and filled again, equal expressions mark their
    groups as duplicates, and the expressions of a duplicate group move to its
    master, until no new duplicates are found.  Left out: the flags a group keeps
    about its operators, and the origins the DSL records. *)

From S2P Require Import Prelude BitVector BitSet NodeSet Expression MemoGroups Memo.

Open Scope N_scope.

Section merge.
Context {BS : Type} {HB : NodeSet BS} {HO : OperatorIdentity}.
(** [CXform::FDSLShell] *)
Context (FDSLShell : N -> bool).
Implicit Types (m : CMemo) (gs : list CGroup) (gexpr : CGroupExpression) (g e : N).

(** ** Changing parts of the memo *)

Definition with_groups gs m : CMemo := MkMemo gs (m_gexprs m) (m_sht m) (m_pgroupRoot m).
Definition with_sht (sht : gmap N (list N)) m : CMemo := MkMemo (m_groups m) (m_gexprs m) sht (m_pgroupRoot m).
Definition with_root (root : option N) m : CMemo := MkMemo (m_groups m) (m_gexprs m) (m_sht m) root.
Definition alter_group (f : CGroup -> CGroup) (g : N) m : CMemo :=
  with_groups (alter f (N.to_nat g) (m_groups m)) m.
Definition alter_gexpr (f : CGroupExpression -> CGroupExpression) (e : N) m : CMemo :=
  MkMemo (m_groups m) (alter f (N.to_nat e) (m_gexprs m)) (m_sht m) (m_pgroupRoot m).

(** [m_listGExprs.Remove]; an expression is in the list at most once. *)
Definition remove_gexpr (e : N) (group : CGroup) : CGroup :=
  MkGroup (g_fScalar group) (m_pgroupDuplicate group) (filter (fun x => x <> e) (m_listGExprs group))
    (m_listDupGExprs group) (g_fExplored group).

Definition append_duplicate (e : N) (group : CGroup) : CGroup :=
  MkGroup (g_fScalar group) (m_pgroupDuplicate group) (m_listGExprs group)
    (m_listDupGExprs group ++ [e]) (g_fExplored group).

(** [CGroup::MoveDuplicateGExpr] *)
Definition MoveDuplicateGExpr (e : N) (group : CGroup) : CGroup :=
  append_duplicate e (remove_gexpr e group).

(** [CGroupExpression::Reset] and the change of state before it. *)
Definition moved_gexpr (target : N) (explored : bool) gexpr : CGroupExpression :=
  MkGExpr (ge_pop gexpr) (m_pdrgpgroup gexpr) (m_exfidOrigin gexpr) (m_pgexprOrigin gexpr)
    (m_fIntermediate gexpr) (Some target) (m_pgexprDuplicate gexpr) explored.

(** [CGroupExpression::SetDuplicate] *)
Definition duplicate_gexpr (d : N) gexpr : CGroupExpression :=
  MkGExpr (ge_pop gexpr) (m_pdrgpgroup gexpr) (m_exfidOrigin gexpr) (m_pgexprOrigin gexpr)
    (m_fIntermediate gexpr) (m_pgroup gexpr) (Some d) (ge_fExplored gexpr).

(** ** Merging groups *)

(** The loop of [MergeGroup], over the expressions the list holds. *)
Fixpoint move_gexprs (g target : N) (gexprs : list N) m : option CMemo :=
  match gexprs with
  | [] => Some m
  | e :: gexprs =>
      group ← (m_groups m).[target];
      gexpr ← (m_gexprs m).[e];
      let explored := ge_fExplored gexpr || g_fExplored group in
      move_gexprs g target gexprs
        (alter_group (append_gexpr e) target
          (alter_gexpr (moved_gexpr target explored) e
            (alter_group (remove_gexpr e) g m)))
  end.

Definition MergeGroup (g : N) m : option CMemo :=
  group ← (m_groups m).[g];
  if negb (FDuplicateGroup group) then Some m else
  gs ← ResolveDuplicateMaster g (m_groups m);
  group ← gs.[g];
  target ← m_pgroupDuplicate group;
  move_gexprs g target (m_listGExprs group) (with_groups gs m).

(** The groups are kept newest first. *)
Definition m_listGroups m : list N := reverse (N.of_nat <$> seq 0 (length (m_groups m))).

Fixpoint merge_groups (groups : list N) m : option CMemo :=
  match groups with
  | [] => Some m
  | g :: groups => m ← MergeGroup g m; merge_groups groups m
  end.

(** ** Rehashing *)

(** All entries of the table: the buckets in order, each chain from its head. *)
Definition sht_dump m : list N :=
  b ← merge_sort N.le (elements (dom (m_sht m))); default [] (m_sht m !! b).

(** [shta.Insert] *)
Definition sht_Insert (e : N) gexpr m : option CMemo :=
  bucket ← bucket_of m gexpr;
  Some (with_sht (<[bucket := e :: default [] (m_sht m !! bucket)]> (m_sht m)) m).

(** Merging the groups of two equal expressions: [None] when the guard keeps them
    apart, otherwise whether they are to be merged. *)
Definition merge_decision (e found pgroup pgroupFound : N) m : option (option bool * CMemo) :=
  if pgroupFound =? pgroup then Some (Some false, m) else
  gs ← ResolveDuplicateMaster pgroup (m_groups m);
  gs ← ResolveDuplicateMaster pgroupFound gs;
  let m := with_groups gs m in
  duplicates ← FDuplicateGroups gs pgroup pgroupFound;
  dsl ← FHasDSLProvenance FDSLShell m e;
  dsl_found ← FHasDSLProvenance FDSLShell m found;
  down ← FReachable (BS := BS) m pgroup pgroupFound;
  up ← FReachable (BS := BS) m pgroupFound pgroup;
  if negb duplicates && (dsl || dsl_found) && (down || up) then Some (None, m)
  else Some (Some (negb duplicates), m).

(** An entry of the dump: back into the table, or a duplicate of one there. *)
Definition rehash_entry (e : N) (fNewDupGroups : bool) m : option (bool * CMemo) :=
  gexpr ← (m_gexprs m).[e];
  found ← sht_Find m gexpr;
  match found with
  | None => m ← sht_Insert e gexpr m; Some (fNewDupGroups, m)
  | Some found =>
      entry ← (m_gexprs m).[found];
      pgroup ← m_pgroup gexpr;
      pgroupFound ← m_pgroup entry;
      '(decision, m) ← merge_decision e found pgroup pgroupFound m;
      match decision with
      | None => Some (fNewDupGroups, m)
      | Some fMergeGroups =>
          let m := alter_group (MoveDuplicateGExpr e) pgroup (alter_gexpr (duplicate_gexpr found) e m) in
          if (fMergeGroups : bool)
          then gs ← MarkDuplicates pgroup pgroupFound (m_groups m); Some (true, with_groups gs m)
          else Some (fNewDupGroups, m)
      end
  end.

Fixpoint rehash_loop (entries : list N) (fNewDupGroups : bool) m : option (bool * CMemo) :=
  match entries with
  | [] => Some (fNewDupGroups, m)
  | e :: entries =>
      '(fNewDupGroups, m) ← rehash_entry e fNewDupGroups m;
      rehash_loop entries fNewDupGroups m
  end.

Definition FRehash m : option (bool * CMemo) := rehash_loop (sht_dump m) false (with_sht ∅ m).

(** [if (m_pgroupRoot->FDuplicateGroup()) m_pgroupRoot = m_pgroupRoot->PgroupDuplicate();] *)
Definition update_root m : option CMemo :=
  root ← m_pgroupRoot m;
  group ← (m_groups m).[root];
  Some (with_root (Some (default root (m_pgroupDuplicate group))) m).

(** The loop of [GroupMerge]; every round but the last merges two classes. *)
Fixpoint group_merge (fuel : nat) m : option CMemo :=
  match fuel with
  | O => None
  | S fuel =>
      m ← merge_groups (m_listGroups m) m;
      m ← update_root m;
      '(fNewDupGroups, m) ← FRehash m;
      if (fNewDupGroups : bool) then group_merge fuel m else Some m
  end.

Definition GroupMerge m : option CMemo := group_merge (S (length (m_groups m))) m.

(** ** The invariant *)

(** Every expression is in one of the two lists of its group and nowhere else. *)
Record groups_wf m : Prop := {
  gw_ok : memo_ok m;
  gw_owner : forall e gexpr, (m_gexprs m).[e] = Some gexpr ->
    exists g group, m_pgroup gexpr = Some g /\ (m_groups m).[g] = Some group /\
      (e ∈ m_listGExprs group \/ e ∈ m_listDupGExprs group);
  gw_member : forall g group e, (m_groups m).[g] = Some group ->
    e ∈ m_listGExprs group \/ e ∈ m_listDupGExprs group ->
    exists gexpr, (m_gexprs m).[e] = Some gexpr /\ m_pgroup gexpr = Some g;
  gw_disjoint : forall g group e, (m_groups m).[g] = Some group ->
    e ∈ m_listGExprs group -> e ∉ m_listDupGExprs group;
  gw_nodup : forall g group, (m_groups m).[g] = Some group -> NoDup (m_listGExprs group);
  gw_origin : origins_older m;
  gw_root : exists root, m_pgroupRoot m = Some root /\ root < N.of_nat (length (m_groups m))
}.

(** The expression is in the list of its group, not among the duplicates. *)
Definition listed m e : Prop :=
  exists g group, (m_groups m).[g] = Some group /\ e ∈ m_listGExprs group.

Definition in_table (sht : gmap N (list N)) e : Prop := exists bucket, e ∈ default [] (sht !! bucket).

(** The table holds listed expressions, each once. *)
Record table_wf (sht : gmap N (list N)) m : Prop := {
  tw_listed : forall e, in_table sht e -> listed m e;
  tw_chain : forall bucket, NoDup (default [] (sht !! bucket));
  tw_once : forall b1 b2 e, e ∈ default [] (sht !! b1) -> e ∈ default [] (sht !! b2) -> b1 = b2
}.

Definition merge_wf m : Prop := groups_wf m /\ table_wf (m_sht m) m.

(** ** What the phase may change *)

(** Classes only grow together. *)
Definition evolves gs gs' : Prop :=
  length gs' = length gs /\
  forall g, g < N.of_nat (length gs) -> master gs' g = master gs' (master gs g).

(** An expression stays itself, in its class. *)
Definition kept m m' : Prop :=
  length (m_gexprs m') = length (m_gexprs m) /\
  forall e gexpr g, (m_gexprs m).[e] = Some gexpr -> m_pgroup gexpr = Some g ->
    exists gexpr' g', (m_gexprs m').[e] = Some gexpr' /\ m_pgroup gexpr' = Some g' /\
      ge_pop gexpr' = ge_pop gexpr /\ m_pdrgpgroup gexpr' = m_pdrgpgroup gexpr /\
      same_class (m_groups m') g g'.

Definition merges m m' : Prop := evolves (m_groups m) (m_groups m') /\ kept m m'.

Lemma evolves_refl gs : links_ok gs -> evolves gs gs.
Proof. intros Hl. split; [done|]. intros g Hg. by rewrite master_idem. Qed.

Lemma evolves_same gs gs' :
  links_ok gs -> length gs' = length gs -> (forall g, g < N.of_nat (length gs) -> master gs' g = master gs g) -> evolves gs gs'.
Proof.
  intros Hl Hlen Hm. split; [done|]. intros g Hg. destruct (master_top gs g Hl Hg) as (_ & Hr & _).
  by rewrite !Hm, master_idem.
Qed.

Lemma evolves_trans gs1 gs2 gs3 :
  links_ok gs1 -> links_ok gs2 -> evolves gs1 gs2 -> evolves gs2 gs3 -> evolves gs1 gs3.
Proof.
  intros Hl1 Hl2 [Hn1 H1] [Hn2 H2]. split; [congruence|]. intros g Hg.
  assert (Hg2 : g < N.of_nat (length gs2)) by (by rewrite Hn1).
  destruct (master_top gs1 g Hl1 Hg) as (_ & Hm & _).
  rewrite (H2 g Hg2), (H1 g Hg). symmetry. apply H2. by rewrite Hn1.
Qed.

Lemma evolves_class gs gs' a b :
  evolves gs gs' -> a < N.of_nat (length gs) -> b < N.of_nat (length gs) ->
  same_class gs a b -> same_class gs' a b.
Proof. intros [_ He] Ha Hb Hc. unfold same_class. by rewrite He, Hc, <-He. Qed.

Lemma merged_evolves gs a b gs' :
  links_ok gs -> a < N.of_nat (length gs) -> b < N.of_nat (length gs) -> merged gs a b gs' -> evolves gs gs'.
Proof.
  intros Hl Ha Hb (_ & Ho & Hm). split; [by apply links_only_length|]. intros g Hg.
  destruct (master_top gs g Hl Hg) as (_ & Hr & _). rewrite !Hm by done. unfold merged_master. by rewrite master_idem.
Qed.

Lemma kept_refl m : kept m m.
Proof. split; [done|]. intros e x g Hx Hg. by exists x, g. Qed.

Lemma merges_trans m1 m2 m3 :
  groups_wf m1 -> groups_wf m2 -> groups_wf m3 -> merges m1 m2 -> merges m2 m3 -> merges m1 m3.
Proof.
  intros H1 H2 H3 [He1 [Hn1 Hk1]] [He2 [Hn2 Hk2]]. split.
  - eapply evolves_trans; [apply H1|apply H2|done|done].
  - split; [congruence|]. intros e x g Hx Hg.
    destruct (Hk1 e x g Hx Hg) as (x2 & g2 & Hx2 & Hg2 & Hp2 & Hc2 & Hs2).
    destruct (Hk2 e x2 g2 Hx2 Hg2) as (x3 & g3 & Hx3 & Hg3 & Hp3 & Hc3 & Hs3).
    exists x3, g3. split_and!; [done|done|congruence|congruence|]. etrans; [|exact Hs3].
    eapply evolves_class; [exact He2| | |done].
    + destruct (gw_owner _ H1 e x Hx) as (g0 & grp & Hg0 & Hgr & _). rewrite Hg in Hg0. injection Hg0 as <-.
      apply lookup_N_lt in Hgr. by rewrite (proj1 He1).
    + destruct (gw_owner _ H2 e x2 Hx2) as (g0 & grp & Hg0 & Hgr & _). rewrite Hg2 in Hg0. injection Hg0 as <-.
      by apply lookup_N_lt in Hgr.
Qed.

(** ** Masters and the number of classes *)

(** Groups with the same links have the same masters. *)
Lemma same_links_master gs gs' :
  links_ok gs -> links_ok gs' -> length gs' = length gs ->
  (forall g, m_pgroupDuplicate <$> gs'.[g] = m_pgroupDuplicate <$> gs.[g]) ->
  forall g, g < N.of_nat (length gs) -> master gs' g = master gs g.
Proof.
  intros Hl Hl' Hn Hd. apply (links_ind gs _ Hl). intros g Hg IH.
  destruct (lookup_lt_is_Some_2 gs (N.to_nat g)) as [group Hgr]; [lia|].
  destruct (lookup_lt_is_Some_2 gs' (N.to_nat g)) as [group' Hgr']; [lia|].
  specialize (Hd g). rewrite Hgr, Hgr' in Hd. injection Hd as Hd.
  rewrite (master_step _ _ _ Hl Hgr), (master_step _ _ _ Hl' Hgr'), Hd.
  destruct (m_pgroupDuplicate group) as [d|] eqn:Hdup; [by eapply IH|done].
Qed.

Lemma same_links_ok gs gs' :
  links_ok gs -> length gs' = length gs ->
  (forall g, m_pgroupDuplicate <$> gs'.[g] = m_pgroupDuplicate <$> gs.[g]) -> links_ok gs'.
Proof.
  intros Hl Hn Hd g group d Hg Hdup. specialize (Hd g). rewrite Hg in Hd.
  destruct (gs.[g]) as [group0|] eqn:Hg0; [|done]. injection Hd as Hd. rewrite Hn. apply (Hl g group0 d Hg0). congruence.
Qed.

Definition class_roots gs : gset N :=
  list_to_set (filter (fun g => master gs g = g) (N.of_nat <$> seq 0 (length gs))).

Lemma class_roots_elem gs g : g ∈ class_roots gs <-> g < N.of_nat (length gs) /\ master gs g = g.
Proof.
  unfold class_roots. rewrite elem_of_list_to_set, list_elem_of_filter, list_elem_of_fmap. split.
  - intros [Hm (i & -> & Hi%elem_of_seq)]. split; [lia|done].
  - intros [Hg Hm]. split; [done|]. exists (N.to_nat g). split; [lia|]. apply elem_of_seq. lia.
Qed.

Lemma evolves_roots gs gs' : links_ok gs -> links_ok gs' -> evolves gs gs' -> class_roots gs' ⊆ class_roots gs.
Proof.
  intros Hl Hl' [Hn He] g. rewrite !class_roots_elem. rewrite Hn. intros [Hg Hm]. split; [done|].
  destruct (master_top gs g Hl Hg) as (Hge & Hr & _). pose proof (He g Hg) as Heq.
  destruct (master_top gs' (master gs g) Hl') as (Hge' & _); [by rewrite Hn|]. lia.
Qed.

(** Merging two classes leaves fewer. *)
Lemma evolves_fewer gs gs' a b :
  links_ok gs -> links_ok gs' -> evolves gs gs' -> a < N.of_nat (length gs) -> b < N.of_nat (length gs) ->
  ~ same_class gs a b -> same_class gs' a b -> (size (class_roots gs') < size (class_roots gs))%nat.
Proof.
  intros Hl Hl' Hev Ha Hb Hne Heq. apply subset_size. split; [by apply evolves_roots|]. intros Hsub.
  destruct (master_top gs a Hl Ha) as (_ & Hra & _). destruct (master_top gs b Hl Hb) as (_ & Hrb & _).
  assert (Hma : master gs a ∈ class_roots gs') by (apply Hsub, class_roots_elem; by rewrite master_idem).
  assert (Hmb : master gs b ∈ class_roots gs') by (apply Hsub, class_roots_elem; by rewrite master_idem).
  apply class_roots_elem in Hma as [_ Hma], Hmb as [_ Hmb]. destruct Hev as [_ He]. apply Hne. unfold same_class in *.
  by rewrite <-Hma, <-Hmb, <-!He.
Qed.

Lemma class_roots_size gs : (size (class_roots gs) <= length gs)%nat.
Proof.
  rewrite <-(Nat2N.id (length gs)). apply size_below. intros g Hg. by apply class_roots_elem in Hg as [? _].
Qed.

(** ** Moving one expression *)

Lemma alter_group_lookup f g m h :
  (m_groups (alter_group f g m)).[h] = (if decide (h = g) then f else id) <$> (m_groups m).[h].
Proof.
  cbn [alter_group with_groups m_groups]. destruct (decide (h = g)) as [->|Hne].
  - apply list_lookup_alter_eq.
  - rewrite list_lookup_alter_ne by lia. by rewrite list_fmap_id || by destruct ((m_groups m).[h]).
Qed.

Lemma alter_gexpr_lookup f e m x :
  (m_gexprs (alter_gexpr f e m)).[x] = (if decide (x = e) then f else id) <$> (m_gexprs m).[x].
Proof.
  cbn [alter_gexpr m_gexprs]. destruct (decide (x = e)) as [->|Hne].
  - apply list_lookup_alter_eq.
  - rewrite list_lookup_alter_ne by lia. by destruct ((m_gexprs m).[x]).
Qed.

Definition move_one (g target e : N) (explored : bool) m : CMemo :=
  alter_group (append_gexpr e) target
    (alter_gexpr (moved_gexpr target explored) e (alter_group (remove_gexpr e) g m)).

Lemma move_one_groups g target e b m h :
  (m_groups (move_one g target e b m)).[h] =
    (fun group => (if decide (h = target) then append_gexpr e else id)
       ((if decide (h = g) then remove_gexpr e else id) group)) <$> (m_groups m).[h].
Proof.
  unfold move_one. rewrite alter_group_lookup.
  change (m_groups (alter_gexpr _ _ ?m)) with (m_groups m). rewrite alter_group_lookup.
  by destruct ((m_groups m).[h]).
Qed.

Lemma move_one_gexprs g target e b m x :
  (m_gexprs (move_one g target e b m)).[x] =
    (if decide (x = e) then moved_gexpr target b else id) <$> (m_gexprs m).[x].
Proof. apply (alter_gexpr_lookup (moved_gexpr target b) e (alter_group (remove_gexpr e) g m) x). Qed.

(** The groups with their links; what is in a list apart from [e]. *)
Definition links_kept gs gs' : Prop :=
  length gs' = length gs /\ forall g, m_pgroupDuplicate <$> gs'.[g] = m_pgroupDuplicate <$> gs.[g].

#[local] Instance links_kept_preorder : PreOrder links_kept.
Proof.
  split; [by split|]. intros gs1 gs2 gs3 [Hn1 H1] [Hn2 H2]. split; [congruence|]. intros g. by rewrite H2, H1.
Qed.

Lemma links_kept_evolves gs gs' : links_ok gs -> links_kept gs gs' ->
  links_ok gs' /\ evolves gs gs' /\ forall g, g < N.of_nat (length gs) -> master gs' g = master gs g.
Proof.
  intros Hl [Hn Hd]. assert (Hl' : links_ok gs') by (by apply (same_links_ok gs)).
  pose proof (same_links_master gs gs' Hl Hl' Hn Hd) as Hm. split_and!; [done| |done]. by apply evolves_same.
Qed.

Lemma move_one_links g target e b m : links_kept (m_groups m) (m_groups (move_one g target e b m)).
Proof.
  split; [by cbn; rewrite !length_alter|]. intros h. rewrite move_one_groups.
  destruct ((m_groups m).[h]); [|done]. cbn. by destruct (decide _), (decide _).
Qed.

Section one.
Context (g target e : N) (b : bool) (m : CMemo) (group tgroup : CGroup).
Context (Hwf : groups_wf m) (Hg : (m_groups m).[g] = Some group) (Ht : (m_groups m).[target] = Some tgroup).
Context (He : e ∈ m_listGExprs group) (Hne : g <> target).
Abbreviation m' := (move_one g target e b m).

(** Expressions but [e] stay where they are. *)
Lemma move_one_others h grp x :
  (m_groups m).[h] = Some grp -> x <> e ->
  exists grp', (m_groups m').[h] = Some grp' /\ (x ∈ m_listGExprs grp' <-> x ∈ m_listGExprs grp) /\
    m_listDupGExprs grp' = m_listDupGExprs grp.
Proof.
  intros Hh Hx. rewrite move_one_groups, Hh. eexists. split; [done|].
  destruct (decide (h = target)), (decide (h = g)); cbn; split; try done;
    rewrite ?elem_of_app, ?list_elem_of_singleton, ?list_elem_of_filter; tauto.
Qed.

Lemma move_one_old h grp' : (m_groups m').[h] = Some grp' ->
  exists grp, (m_groups m).[h] = Some grp /\ m_listDupGExprs grp' = m_listDupGExprs grp /\
    forall x, x ∈ m_listGExprs grp' <->
      (x = e /\ h = target) \/ (x ∈ m_listGExprs grp /\ (x = e -> h <> g)).
Proof.
  rewrite move_one_groups. destruct ((m_groups m).[h]) as [grp|]; [|done]. cbn. intros [= <-].
  exists grp. split; [done|]. destruct (decide (h = target)), (decide (h = g)); cbn; split; try done; intros x;
    rewrite ?elem_of_app, ?list_elem_of_singleton, ?list_elem_of_filter; try tauto; subst; try done; naive_solver.
Qed.

Lemma move_one_owner x grp : (m_groups m).[x] = Some grp -> e ∈ m_listGExprs grp \/ e ∈ m_listDupGExprs grp -> x = g.
Proof.
  intros Hx Hin. destruct (gw_member _ Hwf x grp e Hx Hin) as (y & Hy & Hpy).
  destruct (gw_member _ Hwf g group e Hg (or_introl He)) as (z & Hz & Hpz). congruence.
Qed.

Lemma move_one_wf : groups_wf m'.
Proof.
  destruct (gw_member _ Hwf g group e Hg (or_introl He)) as (ex & Hex & Hpe).
  assert (Hgx : forall x, x <> e -> (m_gexprs m').[x] = (m_gexprs m).[x]).
  { intros x Hx. rewrite move_one_gexprs, decide_False by done. by destruct ((m_gexprs m).[x]). }
  assert (Hge : (m_gexprs m').[e] = Some (moved_gexpr target b ex)).
  { by rewrite move_one_gexprs, decide_True, Hex. }
  destruct (move_one_links g target e b m) as [Hlen Hlk].
  assert (Hmem : forall h grp' x, (m_groups m').[h] = Some grp' -> x ∈ m_listGExprs grp' \/ x ∈ m_listDupGExprs grp' ->
    exists gexpr, (m_gexprs m').[x] = Some gexpr /\ m_pgroup gexpr = Some h).
  { intros h grp' x Hh Hin. destruct (move_one_old h grp' Hh) as (grp & Hgrp & Hdup & Hl). rewrite Hdup, Hl in Hin.
    destruct (decide (x = e)) as [->|Hx].
    - exists (moved_gexpr target b ex). split; [done|]. cbn. f_equal.
      destruct Hin as [[[_ ->]|[Hin Hno]]|Hin]; [done| |].
      + by destruct (Hno eq_refl); apply (move_one_owner h grp); [|left].
      + assert (h = g) as -> by (apply (move_one_owner h grp); [|right]; done). rewrite Hg in Hgrp. injection Hgrp as <-.
        by destruct (gw_disjoint _ Hwf g group e Hg He).
    - rewrite Hgx by done. eapply gw_member; [done|exact Hgrp|]. naive_solver. }
  split.
  - split.
    + apply (same_links_ok (m_groups m)); [apply Hwf|done|done].
    + intros h grp' x Hh Hin. destruct (Hmem h grp' x Hh (or_introl Hin)) as (y & Hy & _). by eexists.
    + intros x gx c Hx Hc. rewrite Hlen. rewrite move_one_gexprs in Hx.
      destruct ((m_gexprs m).[x]) as [gx0|] eqn:Hx0; [|done]. injection Hx as <-.
      eapply mo_children; [apply Hwf|exact Hx0|]. by destruct (decide (x = e)).
  - intros x gx Hx. destruct (decide (x = e)) as [->|Hxe].
    + rewrite Hge in Hx. injection Hx as <-. exists target.
      eexists. rewrite move_one_groups, Ht. split_and!; [done|done|]. left. cbn. rewrite decide_True by done. cbn. set_solver.
    + rewrite Hgx in Hx by done. destruct (gw_owner _ Hwf x gx Hx) as (h & grp & Hp & Hh & Hin).
      destruct (move_one_others h grp x Hh Hxe) as (grp' & Hh' & Hl & Hd). exists h, grp'. split_and!; [done|done|].
      rewrite Hl, Hd. done.
  - done.
  - intros h grp' x Hh Hin Hdup. destruct (move_one_old h grp' Hh) as (grp & Hgrp & Hd & Hl). rewrite Hd in Hdup. destruct (proj1 (Hl x) Hin) as [[Hxe Hht]|[Hin0 _]].
    + apply Hne. symmetry. rewrite Hht in Hgrp. rewrite Hxe in Hdup. apply (move_one_owner target grp); [done|by right].
    + exact (gw_disjoint _ Hwf h grp x Hgrp Hin0 Hdup).
  - intros h grp'. rewrite move_one_groups. destruct ((m_groups m).[h]) as [grp|] eqn:Hgrp; [|done]. intros [= <-].
    pose proof (gw_nodup _ Hwf h grp Hgrp) as Hnd.
    destruct (decide (h = target)) as [Hht|]; destruct (decide (h = g)) as [Hhg|]; cbn.
    + congruence.
    + apply NoDup_app. split_and!; [done| |apply NoDup_singleton]. intros x Hx Hxe%list_elem_of_singleton. subst x.
      destruct Hne. symmetry. rewrite <-Hht. apply (move_one_owner h grp); [done|by left].
    + by apply NoDup_filter.
    + done.
  - intros x gx o Hx Ho. rewrite move_one_gexprs in Hx. destruct ((m_gexprs m).[x]) as [gx0|] eqn:Hx0; [|done].
    injection Hx as <-. apply (gw_origin _ Hwf x gx0 o Hx0). by destruct (decide (x = e)).
  - destruct (gw_root _ Hwf) as (root & Hr & Hlt). exists root. split; [done|]. by rewrite Hlen.
Qed.

Lemma move_one_listed x : listed m x -> listed m' x.
Proof.
  intros (h & grp & Hh & Hin). destruct (decide (x = e)) as [->|Hx].
  - exists target. rewrite move_one_groups, Ht. eexists. split; [done|]. rewrite decide_True by done. cbn. set_solver.
  - destruct (move_one_others h grp x Hh Hx) as (grp' & Hh' & Hl & _). exists h, grp'. split; [done|]. by apply Hl.
Qed.

Lemma move_one_merges : same_class (m_groups m) g target -> merges m m'.
Proof.
  intros Hc. destruct (links_kept_evolves (m_groups m) (m_groups m')) as (Hl' & Hev & Hm); [apply Hwf|apply move_one_links|].
  split; [done|]. split; [by cbn; rewrite length_alter|]. intros x gx h Hx Hp. rewrite move_one_gexprs, Hx.
  destruct (decide (x = e)) as [->|Hxe]; eexists.
  - exists target. split; [done|]. split_and!; [done|done|done|]. cbn.
    destruct (gw_member _ Hwf g group e Hg (or_introl He)) as (ex & Hex & Hpe). assert (h = g) as -> by congruence.
    apply lookup_N_lt in Hg, Ht. unfold same_class. by rewrite !Hm.
  - exists h. split; [done|]. by split_and!.
Qed.
End one.

(** ** Merging a group into its master *)

(** What a step of the merging keeps, besides the classes of expressions. *)
Definition merge_step m m' : Prop :=
  groups_wf m' /\ merges m m' /\ m_sht m' = m_sht m /\ m_pgroupRoot m' = m_pgroupRoot m /\
  (forall e, listed m e -> listed m' e).

Lemma merge_step_refl m : groups_wf m -> merge_step m m.
Proof. intros Hwf. split_and!; try done. split; [apply evolves_refl, Hwf|apply kept_refl]. Qed.

Lemma merge_step_trans m1 m2 m3 : groups_wf m1 -> merge_step m1 m2 -> merge_step m2 m3 -> merge_step m1 m3.
Proof.
  intros H1 (H2 & Hm & Hs & Hr & Hl) (H3 & Hm' & Hs' & Hr' & Hl').
  split_and!; [done|by apply (merges_trans m1 m2 m3)|congruence|congruence|auto].
Qed.

Lemma move_gexprs_ok g target l m group tgroup :
  groups_wf m -> (m_groups m).[g] = Some group -> (m_groups m).[target] = Some tgroup -> g <> target ->
  same_class (m_groups m) g target -> NoDup l -> (forall e, e ∈ l -> e ∈ m_listGExprs group) ->
  returns (fun m' => merge_step m m' /\ links_kept (m_groups m) (m_groups m') /\
      (forall h, h <> g -> h <> target -> (m_groups m').[h] = (m_groups m).[h]) /\
      exists group', (m_groups m').[g] = Some group' /\
        forall e, e ∈ m_listGExprs group' <-> e ∈ m_listGExprs group /\ e ∉ l)
    (move_gexprs g target l m).
Proof.
  revert m group tgroup. induction l as [|e l IH]; intros m group tgroup Hwf Hg Ht Hne Hc Hnd Hin; cbn [move_gexprs].
  { exists m. split; [done|]. split_and!; [by apply merge_step_refl|done|done|]. exists group. split; [done|].
    intros x. split; [intros ?; split; [done|apply not_elem_of_nil]|tauto]. }
  apply NoDup_cons in Hnd as [Hel Hnd]. rewrite Ht. cbn [mbind option_bind].
  assert (He : e ∈ m_listGExprs group) by (apply Hin; left).
  destruct (gw_member _ Hwf g group e Hg (or_introl He)) as (ex & Hex & _). rewrite Hex. cbn [mbind option_bind]. cbv zeta.
  set (b := ge_fExplored ex || g_fExplored tgroup).
  change (alter_group (append_gexpr e) target (alter_gexpr (moved_gexpr target b) e (alter_group (remove_gexpr e) g m)))
    with (move_one g target e b m).
  pose proof (move_one_wf g target e b m group tgroup Hwf Hg Ht He Hne) as Hwf1.
  pose proof (move_one_links g target e b m) as Hlk.
  destruct (links_kept_evolves _ _ (mo_links _ (gw_ok _ Hwf)) Hlk) as (_ & _ & Hmaster).
  assert (Hg1 : (m_groups (move_one g target e b m)).[g] = Some (remove_gexpr e group)).
  { by rewrite move_one_groups, Hg, decide_False, decide_True. }
  assert (Ht1 : (m_groups (move_one g target e b m)).[target] = Some (append_gexpr e tgroup)).
  { rewrite move_one_groups, Ht, decide_True, decide_False; [done|congruence|done]. }
  destruct (IH (move_one g target e b m) _ _ Hwf1 Hg1 Ht1 Hne) as (m' & Hm' & Hstep & Hlk' & Hoth & group' & Hg' & Hl').
  - apply lookup_N_lt in Hg, Ht. unfold same_class. by rewrite !Hmaster.
  - done.
  - intros x Hx. apply list_elem_of_filter. split; [by intros ->|apply Hin; by right].
  - exists m'. split; [done|]. split_and!.
    + eapply merge_step_trans; [done| |exact Hstep]. split_and!; [done| |done|done|].
      * by eapply (move_one_merges g target e b m).
      * by eapply (move_one_listed g target e b m).
    + by etrans.
    + intros h Hhg Hht. rewrite Hoth by done. rewrite move_one_groups, !decide_False by done. by destruct ((m_groups m).[h]).
    + exists group'. split; [done|]. intros x. rewrite Hl'. cbn [remove_gexpr m_listGExprs].
      rewrite list_elem_of_filter, not_elem_of_cons. tauto.
Qed.

(** A group that is merged: its link goes to its master and its list is empty. *)
Definition absorbed gs g : Prop :=
  forall group d, gs.[g] = Some group -> m_pgroupDuplicate group = Some d ->
    m_listGExprs group = [] /\ d = master gs g.

Lemma elem_of_nil_ext {A} (l : list A) : (forall x, x ∉ l) -> l = [].
Proof. destruct l as [|x l]; [done|]. intros H. destruct (H x). left. Qed.

(** Changing links alone. *)
Lemma with_groups_wf gs m :
  groups_wf m -> links_ok gs -> links_only (m_groups m) gs ->
  groups_wf (with_groups gs m) /\ forall e, listed m e -> listed (with_groups gs m) e.
Proof.
  intros Hwf Hl Ho. pose proof (links_only_length _ _ Ho) as Hn.
  assert (Hto : forall h grp, (m_groups m).[h] = Some grp -> exists grp', gs.[h] = Some grp' /\
    m_listGExprs grp' = m_listGExprs grp /\ m_listDupGExprs grp' = m_listDupGExprs grp).
  { intros h grp Hh. destruct (Forall2_lookup_l _ _ _ _ _ Ho Hh) as (grp' & Hh' & _ & ? & ? & _). by exists grp'. }
  assert (Hfrom : forall h grp', gs.[h] = Some grp' -> exists grp, (m_groups m).[h] = Some grp /\
    m_listGExprs grp' = m_listGExprs grp /\ m_listDupGExprs grp' = m_listDupGExprs grp).
  { intros h grp' Hh. destruct (Forall2_lookup_r _ _ _ _ _ Ho Hh) as (grp & Hh' & _ & ? & ? & _). by exists grp. }
  split.
  - destruct Hwf as [[_ Hx Hc] Hown Hmem Hdis Hnd Hor Hroot]. split; [split|..]; cbn [with_groups m_groups m_gexprs m_pgroupRoot].
    + done.
    + intros h grp' x (grp & Hh & -> & _)%Hfrom. by apply (Hx h grp).
    + rewrite Hn. done.
    + intros x gx (h & grp & Hp & Hh & Hin)%Hown. destruct (Hto h grp Hh) as (grp' & Hh' & Hl1 & Hl2).
      exists h, grp'. by rewrite Hl1, Hl2.
    + intros h grp' x (grp & Hh & -> & ->)%Hfrom. by apply (Hmem h grp).
    + intros h grp' x (grp & Hh & -> & ->)%Hfrom. by apply (Hdis h grp).
    + intros h grp' (grp & Hh & -> & _)%Hfrom. by apply (Hnd h grp).
    + done.
    + by rewrite Hn.
  - intros x (h & grp & Hh & Hin). destruct (Hto h grp Hh) as (grp' & Hh' & Hl1 & _). exists h, grp'. by rewrite Hl1.
Qed.

Lemma with_groups_links gs m :
  groups_wf m -> links_ok gs -> links_only (m_groups m) gs -> evolves (m_groups m) gs ->
  merge_step m (with_groups gs m).
Proof.
  intros Hwf Hl Ho He. destruct (with_groups_wf gs m Hwf Hl Ho) as [Hwf' Hls]. split_and!; [done| |done..].
  split; [done|]. split; [done|]. intros x gx g Hx Hg. by exists gx, g.
Qed.

Lemma MergeGroup_ok g m :
  groups_wf m -> g < N.of_nat (length (m_groups m)) ->
  returns (fun m' => merge_step m m' /\
      (forall h, h < N.of_nat (length (m_groups m)) -> master (m_groups m') h = master (m_groups m) h) /\
      absorbed (m_groups m') g /\ (forall h, absorbed (m_groups m) h -> absorbed (m_groups m') h))
    (MergeGroup g m).
Proof.
  intros Hwf Hlt. pose proof (mo_links _ (gw_ok _ Hwf)) as Hlk. unfold MergeGroup.
  destruct (lookup_lt_is_Some_2 (m_groups m) (N.to_nat g)) as [group Hg]; [lia|]. rewrite Hg. cbn [mbind option_bind].
  unfold FDuplicateGroup. destruct (m_pgroupDuplicate group) as [d|] eqn:Hd; cbn [negb].
  2: { exists m. rewrite bool_decide_false by (by intros [? ?]). split; [done|].
       split_and!; [by apply merge_step_refl|done| |done]. intros grp d' Hg'. congruence. }
  rewrite bool_decide_true by (by eexists). cbn [negb].
  destruct (Resolve_ok g (m_groups m) Hlk Hlt) as (gs & -> & Hlk1 & Ho & Hm & Hoth & grp & Hgrp & Hdup).
  cbn [mbind option_bind]. rewrite Hgrp. cbn [mbind option_bind].
  destruct (Hlk g group d Hg Hd) as [Hgd Hdl]. pose proof (master_step _ _ _ Hlk Hg) as Hms. rewrite Hd in Hms.
  destruct (master_top (m_groups m) d Hlk Hdl) as (Hge & Hrl & _).
  rewrite decide_False in Hdup by lia. rewrite Hdup. cbn [mbind option_bind].
  set (target := master (m_groups m) g) in *. set (m1 := with_groups gs m).
  pose proof (with_groups_links gs m Hwf Hlk1 Ho (evolves_same _ _ Hlk (links_only_length _ _ Ho) Hm)) as Hstep1. fold m1 in Hstep1. pose proof Hstep1 as (Hwf1 & _).
  pose proof (links_only_length _ _ Ho) as Hn.
  assert (Htop : master gs target = target) by (rewrite Hm by lia; by apply master_idem).
  destruct (lookup_lt_is_Some_2 gs (N.to_nat target)) as [tgroup Ht]; [lia|].
  assert (Htd : m_pgroupDuplicate tgroup = None).
  { destruct (m_pgroupDuplicate tgroup) as [d'|] eqn:Htd; [|done]. pose proof (master_step _ _ _ Hlk1 Ht) as Hst.
    rewrite Htd in Hst. destruct (Hlk1 target tgroup d' Ht Htd) as [? ?].
    destruct (master_top gs d' Hlk1) as (? & _); [done|]. lia. }
  destruct (move_gexprs_ok g target (m_listGExprs grp) m1 grp tgroup) as (m' & Hm' & Hstep & Hlkept & Hoth' & group' & Hg' & Hl');
    [done|done|done|lia| |by apply (gw_nodup _ Hwf1 g)|done|].
  { unfold same_class. cbn [m1 with_groups m_groups]. by rewrite Htop, (Hm g Hlt). }
  destruct (links_kept_evolves _ _ Hlk1 Hlkept) as (Hlk' & _ & Hmaster). destruct Hlkept as [Hn' Hdups].
  cbn [m1 with_groups m_groups] in Hn', Hdups, Hmaster, Hoth'.
  assert (Hmm : forall h, h < N.of_nat (length (m_groups m)) -> master (m_groups m') h = master (m_groups m) h).
  { intros h Hh. rewrite Hmaster by lia. by apply Hm. }
  assert (Hself : absorbed (m_groups m') g).
  { intros grp0 d0 Hg0 Hd0. rewrite Hg' in Hg0. injection Hg0 as <-. split.
    - apply elem_of_nil_ext. intros x [Hx Hno]%Hl'. done.
    - specialize (Hdups g). rewrite Hg', Hgrp in Hdups. injection Hdups as Hdups. rewrite Hmm by done. fold target. congruence. }
  exists m'. split; [done|]. split_and!; [by apply (merge_step_trans m m1 m')|done|done|].
  intros h Habs. destruct (decide (h = g)) as [->|Hhg]; [done|]. intros grp0 d0 Hh0 Hd0.
  assert (Hht : h <> target).
  { intros ->. specialize (Hdups target). rewrite Hh0, Ht in Hdups. injection Hdups as Hdups. congruence. }
  rewrite Hoth', Hoth in Hh0 by done. destruct (Habs grp0 d0 Hh0 Hd0) as [Hnil ->]. split; [done|].
  rewrite Hmm; [done|]. by apply lookup_N_lt in Hh0.
Qed.

(** After a pass over the groups every duplicate is merged into its master. *)
Lemma merge_groups_ok l m :
  groups_wf m -> (forall g, g ∈ l -> g < N.of_nat (length (m_groups m))) ->
  returns (fun m' => merge_step m m' /\
      (forall h, h < N.of_nat (length (m_groups m)) -> master (m_groups m') h = master (m_groups m) h) /\
      (forall g, g ∈ l -> absorbed (m_groups m') g) /\ (forall h, absorbed (m_groups m) h -> absorbed (m_groups m') h))
    (merge_groups l m).
Proof.
  revert m. induction l as [|g l IH]; intros m Hwf Hr; cbn [merge_groups].
  { exists m. split; [done|]. split_and!; [by apply merge_step_refl|done| |done]. by intros g ?%elem_of_nil. }
  destruct (MergeGroup_ok g m Hwf) as (m1 & -> & Hs1 & Hm1 & Ha1 & Hk1); [apply Hr; left|]. cbn [mbind option_bind].
  pose proof Hs1 as (Hwf1 & [[Hn1 _] _] & _).
  destruct (IH m1 Hwf1) as (m2 & Hm2' & Hs2 & Hm2 & Ha2 & Hk2); [intros h Hh; rewrite Hn1; apply Hr; by right|].
  exists m2. split; [done|]. split_and!; [by apply (merge_step_trans m m1 m2)| | |auto].
  - intros h Hh. rewrite Hm2, Hm1; [done|done|by rewrite Hn1].
  - intros h [->|Hh]%elem_of_cons; auto.
Qed.

(** Between a pass and rehashing: all duplicates are merged. *)
Definition quiet gs : Prop := links_ok gs /\ forall g, absorbed gs g.

Lemma quiet_flat gs : quiet gs -> flat gs.
Proof.
  intros [Hl Ha] g group d Hg Hd. destruct (Ha g group d Hg Hd) as [_ ->].
  destruct (master_top gs g Hl) as (_ & _ & top & Ht & Hn); [by eapply lookup_N_lt|]. by exists top.
Qed.

Lemma merge_pass_ok m :
  merge_wf m -> returns (fun m' => merge_wf m' /\ merges m m' /\ quiet (m_groups m') /\ m_pgroupRoot m' = m_pgroupRoot m /\
    (forall h, h < N.of_nat (length (m_groups m)) -> master (m_groups m') h = master (m_groups m) h))
    (merge_groups (m_listGroups m) m).
Proof.
  intros [Hwf Ht]. destruct (merge_groups_ok (m_listGroups m) m Hwf) as (m' & Hm' & (Hwf' & Hk & Hs & Hr & Hl) & Hmm & Ha & _).
  { intros g Hg. unfold m_listGroups in Hg. rewrite elem_of_reverse, list_elem_of_fmap in Hg.
    destruct Hg as (i & -> & Hi%elem_of_seq). lia. }
  exists m'. split; [done|]. split_and!; [split; [done|]|done| |done|done].
  - rewrite Hs. destruct Ht as [Ht1 Ht2 Ht3]. split; [|done|done]. intros e He. by apply Hl, Ht1.
  - split; [apply Hwf'|]. intros g group d Hg. apply (Ha g); [|done]. pose proof (lookup_N_lt _ _ _ Hg) as Hlt.
    destruct Hk as [[Hn _] _]. unfold m_listGroups. rewrite elem_of_reverse, list_elem_of_fmap.
    exists (N.to_nat g). split; [lia|]. apply elem_of_seq. lia.
Qed.

(** ** Deciding what to do with two equal expressions *)

(** Once both links are resolved, the test for duplicates is exact. *)
Lemma resolved_FDuplicateGroups gs a b ga gb :
  links_ok gs -> gs.[a] = Some ga -> gs.[b] = Some gb ->
  m_pgroupDuplicate ga = (if decide (master gs a = a) then None else Some (master gs a)) ->
  m_pgroupDuplicate gb = (if decide (master gs b = b) then None else Some (master gs b)) ->
  FDuplicateGroups gs a b = Some (bool_decide (same_class gs a b)).
Proof.
  intros Hl Ha Hb Hda Hdb. pose proof (master_idem gs a Hl (lookup_N_lt _ _ _ Ha)) as Hia.
  pose proof (master_idem gs b Hl (lookup_N_lt _ _ _ Hb)) as Hib. unfold FDuplicateGroups. rewrite Ha, Hb. cbn [mbind option_bind]. f_equal. apply bool_iff_eq.
  rewrite !orb_true_iff, andb_true_iff, !bool_decide_eq_true, N.eqb_eq, Hda, Hdb. unfold same_class.
  destruct (decide (master gs a = a)) as [Hma|Hma], (decide (master gs b = b)) as [Hmb|Hmb].
  - split; [|left; left; left; congruence]. intros [[[->|?]|?]|[[? ?] ?]]; congruence.
  - split; [|left; left; right; congruence]. intros [[[->|?]|?]|[[? ?] ?]]; congruence.
  - split; [|left; right; congruence]. intros [[[->|?]|?]|[[? ?] ?]]; congruence.
  - split; [|right; split; [by eexists|congruence]]. intros [[[->|?]|?]|[[? ?] ?]]; congruence.
Qed.

Lemma resolve_both a b gs :
  links_ok gs -> a < N.of_nat (length gs) -> b < N.of_nat (length gs) -> a <> b ->
  exists gs1 gs2, ResolveDuplicateMaster a gs = Some gs1 /\ ResolveDuplicateMaster b gs1 = Some gs2 /\
    links_ok gs2 /\ links_only gs gs2 /\ (forall h, h < N.of_nat (length gs) -> master gs2 h = master gs h) /\
    FDuplicateGroups gs2 a b = Some (bool_decide (same_class gs2 a b)).
Proof.
  intros Hl Ha Hb Hne.
  destruct (Resolve_ok a gs Hl Ha) as (gs1 & H1 & Hl1 & Ho1 & Hm1 & _ & ga & Hga & Hda).
  pose proof (links_only_length _ _ Ho1) as Hn1.
  destruct (Resolve_ok b gs1 Hl1) as (gs2 & H2 & Hl2 & Ho2 & Hm2 & Hsame & gb & Hgb & Hdb); [lia|].
  exists gs1, gs2. split_and!; [done..|by eapply links_only_trans| |].
  - intros h Hh. rewrite Hm2, Hm1; [done|done|lia].
  - apply (resolved_FDuplicateGroups gs2 a b ga gb); [done|by rewrite Hsame|done| |].
    + rewrite Hm2 by lia. by rewrite Hm1.
    + rewrite Hm2 by lia. done.
Qed.

Lemma FHasDSLProvenance_total m e gexpr :
  origins_older m -> (m_gexprs m).[e] = Some gexpr -> is_Some (FHasDSLProvenance FDSLShell m e).
Proof.
  intros Ho He. unfold FHasDSLProvenance. apply lookup_N_lt in He.
  apply (dsl_provenance_total FDSLShell m (length (m_gexprs m)) (Some e)); [done|intros ? [= <-]; lia|intros ? [= <-]; lia].
Qed.

Definition decision_post (pgroup pgroupFound : N) m (res : option bool * CMemo) : Prop :=
  let '(decision, m') := res in
  (exists gs, m' = with_groups gs m) /\ merge_step m m' /\
  match decision with
  | None => True
  | Some fMerge => fMerge = negb (bool_decide (same_class (m_groups m') pgroup pgroupFound))
  end.

Lemma with_groups_id m : with_groups (m_groups m) m = m.
Proof. by destruct m. Qed.

Lemma merge_decision_ok e found x xf pgroup pgroupFound m :
  groups_wf m -> (m_gexprs m).[e] = Some x -> (m_gexprs m).[found] = Some xf ->
  pgroup < N.of_nat (length (m_groups m)) -> pgroupFound < N.of_nat (length (m_groups m)) ->
  returns (decision_post pgroup pgroupFound m) (merge_decision e found pgroup pgroupFound m).
Proof.
  intros Hwf He Hf Hp Hpf. pose proof (mo_links _ (gw_ok _ Hwf)) as Hl. unfold merge_decision.
  destruct (N.eqb_spec pgroupFound pgroup) as [->|Hne].
  { eexists. split; [done|]. split_and!; [exists (m_groups m); by rewrite with_groups_id|by apply merge_step_refl|].
    by rewrite bool_decide_true. }
  destruct (resolve_both pgroup pgroupFound (m_groups m) Hl Hp Hpf) as (gs1 & gs & -> & H2 & Hl2 & Ho & Hm & Hd); [done|].
  cbn [mbind option_bind]. rewrite H2. cbn [mbind option_bind]. cbv zeta. rewrite Hd. cbn [mbind option_bind].
  pose proof (links_only_length _ _ Ho) as Hn.
  pose proof (with_groups_links gs m Hwf Hl2 Ho (evolves_same _ _ Hl Hn Hm)) as Hstep. pose proof Hstep as (Hwf' & _).
  destruct (FHasDSLProvenance_total (with_groups gs m) e x (gw_origin _ Hwf') He) as [dsl ->].
  destruct (FHasDSLProvenance_total (with_groups gs m) found xf (gw_origin _ Hwf') Hf) as [dslf ->].
  cbn [mbind option_bind].
  destruct (lookup_lt_is_Some_2 gs (N.to_nat pgroup)) as [ga Hga]; [lia|].
  destruct (lookup_lt_is_Some_2 gs (N.to_nat pgroupFound)) as [gb Hgb]; [lia|].
  destruct (FReachable_ok (BS := BS) (with_groups gs m) pgroup pgroupFound ga gb (gw_ok _ Hwf') Hga Hgb) as (down & -> & _).
  destruct (FReachable_ok (BS := BS) (with_groups gs m) pgroupFound pgroup gb ga (gw_ok _ Hwf') Hgb Hga) as (up & -> & _).
  cbn [mbind option_bind]. destruct (_ && _ && _); eexists; (split; [done|]); split_and!; try done; by exists gs.
Qed.

(** ** Setting a duplicate expression aside *)

Definition set_aside (e found pgroup : N) m : CMemo :=
  alter_group (MoveDuplicateGExpr e) pgroup (alter_gexpr (duplicate_gexpr found) e m).

Section aside.
Context (e found g : N) (m : CMemo) (group : CGroup).
Context (Hwf : groups_wf m) (Hg : (m_groups m).[g] = Some group) (He : e ∈ m_listGExprs group).
Abbreviation m' := (set_aside e found g m).

Lemma set_aside_groups h :
  (m_groups m').[h] = (if decide (h = g) then MoveDuplicateGExpr e else id) <$> (m_groups m).[h].
Proof. apply (alter_group_lookup _ _ (alter_gexpr (duplicate_gexpr found) e m)). Qed.

Lemma set_aside_gexprs x :
  (m_gexprs m').[x] = (if decide (x = e) then duplicate_gexpr found else id) <$> (m_gexprs m).[x].
Proof. apply (alter_gexpr_lookup (duplicate_gexpr found) e m x). Qed.

Lemma set_aside_links : links_kept (m_groups m) (m_groups m').
Proof.
  split; [by cbn; rewrite length_alter|]. intros h. rewrite set_aside_groups.
  destruct ((m_groups m).[h]); [|done]. cbn. by destruct (decide _).
Qed.

Lemma set_aside_old h grp' : (m_groups m').[h] = Some grp' ->
  exists grp, (m_groups m).[h] = Some grp /\
    (forall x, x ∈ m_listGExprs grp' <-> x ∈ m_listGExprs grp /\ (x = e -> h <> g)) /\
    (forall x, x ∈ m_listDupGExprs grp' <-> x ∈ m_listDupGExprs grp \/ (x = e /\ h = g)).
Proof.
  rewrite set_aside_groups. destruct ((m_groups m).[h]) as [grp|]; [|done]. cbn. intros [= <-]. exists grp.
  split; [done|]. destruct (decide (h = g)) as [->|]; cbn; split; intros x;
    rewrite ?elem_of_app, ?list_elem_of_singleton, ?list_elem_of_filter; naive_solver.
Qed.

Lemma set_aside_new h grp : (m_groups m).[h] = Some grp -> exists grp', (m_groups m').[h] = Some grp'.
Proof. intros Hh. rewrite set_aside_groups, Hh. cbn. eauto. Qed.

(** The fields of an expression that the invariant reads. *)
Lemma set_aside_field {A} (f : CGroupExpression -> A) x :
  (forall gx, f (duplicate_gexpr found gx) = f gx) -> f <$> (m_gexprs m').[x] = f <$> (m_gexprs m).[x].
Proof.
  intros Hf. rewrite set_aside_gexprs. destruct ((m_gexprs m).[x]) as [gx|]; [|done]. cbn. f_equal.
  destruct (decide (x = e)); [apply Hf|done].
Qed.

Lemma field_back {A} (f : CGroupExpression -> A) x gx' :
  (forall gx, f (duplicate_gexpr found gx) = f gx) -> (m_gexprs m').[x] = Some gx' ->
  exists gx, (m_gexprs m).[x] = Some gx /\ f gx' = f gx.
Proof.
  intros Hf Hx. pose proof (set_aside_field f x Hf) as Heq. rewrite Hx in Heq.
  destruct ((m_gexprs m).[x]) as [gx|]; [|done]. injection Heq as Heq. by exists gx.
Qed.

Lemma set_aside_owner x grp : (m_groups m).[x] = Some grp -> e ∈ m_listGExprs grp \/ e ∈ m_listDupGExprs grp -> x = g.
Proof.
  intros Hx Hin. destruct (gw_member _ Hwf x grp e Hx Hin) as (y & Hy & Hpy).
  destruct (gw_member _ Hwf g group e Hg (or_introl He)) as (z & Hz & Hpz). congruence.
Qed.

Lemma set_aside_wf : groups_wf m'.
Proof.
  destruct set_aside_links as [Hlen Hlk].
  assert (Hmem : forall h grp' x, (m_groups m').[h] = Some grp' -> x ∈ m_listGExprs grp' \/ x ∈ m_listDupGExprs grp' ->
    exists gexpr, (m_gexprs m').[x] = Some gexpr /\ m_pgroup gexpr = Some h).
  { intros h grp' x Hh Hin. destruct (set_aside_old h grp' Hh) as (grp & Hgrp & Hl & Hd). rewrite Hl, Hd in Hin.
    assert (Hold : x ∈ m_listGExprs grp \/ x ∈ m_listDupGExprs grp).
    { destruct Hin as [[? _]|[?|[-> ->]]]; [by left|by right|left]. rewrite Hg in Hgrp. by injection Hgrp as <-. }
    destruct (gw_member _ Hwf h grp x Hgrp Hold) as (gx & Hx & Hp).
    pose proof (set_aside_field m_pgroup x (fun _ => eq_refl)) as Hf. rewrite Hx in Hf.
    destruct ((m_gexprs m').[x]) as [gx'|]; [|done]. injection Hf as Hf. exists gx'. split; [done|congruence]. }
  split.
  - split.
    + apply (same_links_ok (m_groups m)); [apply Hwf|done|done].
    + intros h grp' x Hh Hin. destruct (Hmem h grp' x Hh (or_introl Hin)) as (y & Hy & _). by eexists.
    + intros x gx c Hx Hc. rewrite Hlen. destruct (field_back m_pdrgpgroup x gx (fun _ => eq_refl) Hx) as (gx0 & Hx0 & Heq).
      rewrite Heq in Hc. by apply (mo_children _ (gw_ok _ Hwf) x gx0).
  - intros x gx Hx. destruct (field_back m_pgroup x gx (fun _ => eq_refl) Hx) as (gx0 & Hx0 & Heq).
    destruct (gw_owner _ Hwf x gx0 Hx0) as (h & grp & Hp & Hh & Hin). destruct (set_aside_new h grp Hh) as [grp' Hh'].
    exists h, grp'. split_and!; [congruence|done|].
    destruct (set_aside_old h grp' Hh') as (grp0 & Hgrp & Hl & Hd). rewrite Hh in Hgrp. injection Hgrp as <-.
    rewrite Hl, Hd. destruct (decide (x = e)) as [->|]; [|naive_solver].
    assert (h = g) as -> by (by apply (set_aside_owner h grp)). right. by right.
  - done.
  - intros h grp' x Hh Hin Hdup. destruct (set_aside_old h grp' Hh) as (grp & Hgrp & Hl & Hd).
    destruct (proj1 (Hl x) Hin) as [Hin0 Hno]. destruct (proj1 (Hd x) Hdup) as [Hd0|[Hxe Hhg]]; [|by apply Hno].
    exact (gw_disjoint _ Hwf h grp x Hgrp Hin0 Hd0).
  - intros h grp'. rewrite set_aside_groups. destruct ((m_groups m).[h]) as [grp|] eqn:Hgrp; [|done]. intros [= <-].
    pose proof (gw_nodup _ Hwf h grp Hgrp) as Hnd. destruct (decide (h = g)); cbn; [|done]. by apply NoDup_filter.
  - intros x gx o Hx Ho. destruct (field_back m_pgexprOrigin x gx (fun _ => eq_refl) Hx) as (gx0 & Hx0 & Heq).
    apply (gw_origin _ Hwf x gx0 o Hx0). congruence.
  - destruct (gw_root _ Hwf) as (root & Hr & Hlt). exists root. split; [done|]. by rewrite Hlen.
Qed.

Lemma set_aside_listed x : x <> e -> listed m x -> listed m' x.
Proof.
  intros Hx (h & grp & Hh & Hin). destruct (set_aside_new h grp Hh) as [grp' Hh']. exists h, grp'. split; [done|].
  destruct (set_aside_old h grp' Hh') as (grp0 & Hgrp & Hl & _). rewrite Hh in Hgrp. injection Hgrp as <-.
  apply Hl. naive_solver.
Qed.

Lemma set_aside_merges : merges m m'.
Proof.
  destruct (links_kept_evolves (m_groups m) (m_groups m')) as (Hl' & Hev & Hm); [apply Hwf|apply set_aside_links|].
  split; [done|]. split; [by cbn; rewrite length_alter|]. intros x gx h Hx Hp. rewrite set_aside_gexprs, Hx.
  destruct (decide (x = e)); eexists; exists h; split; try done; by split_and!.
Qed.
End aside.

(** ** Rehashing *)

Lemma sht_dump_elem m e : e ∈ sht_dump m <-> in_table (m_sht m) e.
Proof.
  unfold sht_dump, in_table. rewrite list_elem_of_bind. split; [intros (b & He & _); by exists b|].
  intros (b & He). exists b. split; [done|]. rewrite merge_sort_Permutation. apply elem_of_elements, elem_of_dom.
  destruct (m_sht m !! b) eqn:Hb; [by eexists|]. by apply elem_of_nil in He.
Qed.

Lemma sht_dump_NoDup m : table_wf (m_sht m) m -> NoDup (sht_dump m).
Proof.
  intros [_ Hc Ho]. unfold sht_dump. apply NoDup_bind.
  - intros b1 b2 e _ _. apply Ho.
  - intros b _. apply Hc.
  - rewrite merge_sort_Permutation. apply NoDup_elements.
Qed.

(** The table plays no part in the invariant of the groups. *)
Lemma with_sht_step sht m : groups_wf m -> groups_wf (with_sht sht m) /\ merges m (with_sht sht m).
Proof.
  intros Hwf. split; [by destruct Hwf as [[]]|]. split; [apply evolves_refl, Hwf|].
  split; [done|]. intros e x g Hx Hg. by exists x, g.
Qed.

(** What one entry, or a run of entries, leads to: fewer classes when groups were
    merged. *)
Definition rehash_post (fNew : bool) m (res : bool * CMemo) : Prop :=
  let '(fNew', m') := res in
  merge_wf m' /\ merges m m' /\ m_pgroupRoot m' = m_pgroupRoot m /\
  (fNew = true -> fNew' = true) /\
  (fNew' = true -> fNew = true \/
     (size (class_roots (m_groups m')) < size (class_roots (m_groups m)))%nat).

Definition pending (entries : list N) m : Prop :=
  NoDup entries /\ forall e, e ∈ entries -> listed m e /\ ~ in_table (m_sht m) e.

Lemma listed_gexpr m e : groups_wf m -> listed m e ->
  exists gexpr g group, (m_gexprs m).[e] = Some gexpr /\ m_pgroup gexpr = Some g /\
    (m_groups m).[g] = Some group /\ e ∈ m_listGExprs group.
Proof.
  intros Hwf (g & group & Hg & Hin). destruct (gw_member _ Hwf g group e Hg (or_introl Hin)) as (x & Hx & Hp).
  by exists x, g, group.
Qed.

Lemma gexpr_range m e gexpr : groups_wf m -> (m_gexprs m).[e] = Some gexpr -> in_range (m_groups m) (m_pdrgpgroup gexpr).
Proof. intros Hwf He c Hc. by eapply mo_children; [apply Hwf|..]. Qed.

(** Adding the entry to the table. *)
Lemma insert_table_wf bucket e m :
  table_wf (m_sht m) m -> listed m e -> ~ in_table (m_sht m) e ->
  let sht := <[bucket := e :: default [] (m_sht m !! bucket)]> (m_sht m) in
  table_wf sht m /\ forall x, in_table sht x <-> x = e \/ in_table (m_sht m) x.
Proof.
  intros [Ht Hc Ho] He Hno sht.
  assert (Hl : forall b x, x ∈ default [] (sht !! b) <-> (b = bucket /\ x = e) \/ x ∈ default [] (m_sht m !! b)).
  { intros b x. unfold sht. destruct (decide (b = bucket)) as [->|].
    - rewrite lookup_insert_eq. cbn. rewrite elem_of_cons. naive_solver.
    - rewrite lookup_insert_ne by done. naive_solver. }
  assert (Hin : forall x, in_table sht x <-> x = e \/ in_table (m_sht m) x).
  { intros x. unfold in_table. split.
    - intros (b & [[_ ->]|Hx]%Hl); [by left|right; by exists b].
    - intros [->|[b Hx]]; [exists bucket; apply Hl; by left|exists b; apply Hl; by right]. }
  split; [|exact Hin]. split.
  - intros x [->|Hx]%Hin; [done|by apply Ht].
  - intros b. unfold sht. destruct (decide (b = bucket)) as [->|]; [|by rewrite lookup_insert_ne].
    rewrite lookup_insert_eq. cbn. apply NoDup_cons. split; [|apply Hc]. intros Hx. apply Hno. by exists bucket.
  - intros b1 b2 x [[-> ->]|H1]%Hl [[-> Hxe]|H2]%Hl; [done| | |by eapply Ho].
    + destruct Hno. by exists b2.
    + subst. destruct Hno. by exists b1.
Qed.

Lemma rehash_entry_ok (HL : OperatorLaws) e fNew m :
  merge_wf m -> listed m e -> ~ in_table (m_sht m) e ->
  returns (fun res => rehash_post fNew m res /\
      (forall x, x <> e -> listed m x -> listed res.2 x) /\
      (forall x, in_table (m_sht res.2) x -> x = e \/ in_table (m_sht m) x))
    (rehash_entry e fNew m).
Proof.
  intros [Hwf Htab] Hle Hno. destruct (listed_gexpr m e Hwf Hle) as (x & g & group & Hx & Hp & Hg & Hin).
  pose proof (gexpr_range m e x Hwf Hx) as Hr. unfold rehash_entry. rewrite Hx. cbn [mbind option_bind].
  destruct (bucket_of_total m x Hr) as [bucket Hb].
  destruct (find_match_spec m x (default [] (m_sht m !! bucket)) (gw_ok _ Hwf) Hr) as (found & Hf & _).
  { intros y Hy. destruct (listed_gexpr m y Hwf) as (z & _ & _ & Hz & _); [apply (tw_listed _ _ Htab); by exists bucket|by eexists]. }
  unfold sht_Find. rewrite Hb. cbn [mbind option_bind]. rewrite Hf. cbn [mbind option_bind]. destruct found as [f|].
  2: { unfold sht_Insert. rewrite Hb. cbn [mbind option_bind]. eexists. split; [done|].
       destruct (insert_table_wf bucket e m Htab Hle Hno) as [Htab' Hin'].
       destruct (with_sht_step (<[bucket := e :: default [] (m_sht m !! bucket)]> (m_sht m)) m Hwf) as [Hwf' Hmg].
       split; [|split; [done|intros y; apply Hin']]. split_and!; try done; [|tauto]. split; [done|].
       destruct Htab' as [Ht1 Ht2 Ht3]. by split. }
  apply find_match_in in Hf as (xf & Hfin & Hxf & _).
  assert (Hft : in_table (m_sht m) f) by (by exists bucket).
  destruct (listed_gexpr m f Hwf (tw_listed _ _ Htab f Hft)) as (xf' & gf & groupf & Hxf' & Hpf & Hgf & _).
  rewrite Hxf in Hxf'. injection Hxf' as <-. rewrite Hxf. cbn [mbind option_bind]. rewrite Hp, Hpf. cbn [mbind option_bind].
  assert (Hgl := lookup_N_lt _ _ _ Hg). assert (Hgfl := lookup_N_lt _ _ _ Hgf).
  destruct (merge_decision_ok e f x xf g gf m Hwf Hx Hxf Hgl Hgfl) as ([decision m1] & -> & (gs1 & Hm1) & Hstep & Hdec).
  cbn [mbind option_bind]. destruct Hstep as (Hwf1 & Hmg1 & Hs1 & Hroot1 & Hl1).
  assert (Htab1 : table_wf (m_sht m1) m1).
  { rewrite Hs1. destruct Htab as [Ht1 Ht2 Ht3]. split; [|done|done]. intros y Hy. by apply Hl1, Ht1. }
  destruct decision as [fMerge|].
  2: { eexists. split; [done|]. split; [|split; [by intros y _; apply Hl1|intros y Hy; right; by rewrite <-Hs1]].
       split_and!; try done; tauto. }
  destruct (Hl1 e Hle) as (g1 & group1 & Hg1 & Hin1).
  assert (g1 = g) as ->.
  { destruct (gw_member _ Hwf1 g1 group1 e Hg1 (or_introl Hin1)) as (y & Hy & Hpy).
    assert ((m_gexprs m1).[e] = Some x) as Hy' by (by rewrite Hm1). congruence. }
  pose proof (set_aside_wf e f g m1 group1 Hwf1 Hg1 Hin1) as Hwf2.
  pose proof (set_aside_merges e f g m1 Hwf1) as Hmg2.
  change (alter_group (MoveDuplicateGExpr e) g (alter_gexpr (duplicate_gexpr f) e m1)) with (set_aside e f g m1).
  cbv zeta. set (m2 := set_aside e f g m1) in *.
  assert (Hl2 : forall y, y <> e -> listed m y -> listed m2 y) by (intros y Hy ?; by apply set_aside_listed, Hl1).
  assert (Htl : forall y, in_table (m_sht m) y -> y <> e) by (by intros y Hy ->).
  assert (Htab2 : table_wf (m_sht m2) m2).
  { change (m_sht m2) with (m_sht m1). rewrite Hs1. destruct Htab as [Ht1 Ht2 Ht3]. split; [|done|done].
    intros y Hy. apply Hl2; [by apply Htl|by apply Ht1]. }
  assert (Hmg : merges m m2) by (by apply (merges_trans m m1 m2)).
  assert (Hn : length (m_groups m2) = length (m_groups m)) by (apply Hmg).
  destruct fMerge.
  2: { eexists. split; [done|]. split; [|split; [done|intros y Hy; right; by rewrite <-Hs1]].
       split_and!; try done; tauto. }
  assert (Hne : ~ same_class (m_groups m1) g gf) by (by intros Hsc; rewrite bool_decide_true in Hdec).
  pose proof (gw_ok _ Hwf2) as Hok2. pose proof (mo_links _ Hok2) as Hlk2.
  destruct (MarkDuplicates_ok g gf (m_groups m2) Hlk2) as (gs & -> & Hmerged & Hdup); [lia|lia|by intros ->|].
  cbn [mbind option_bind]. pose proof Hmerged as (Hlk3 & Ho3 & Hm3).
  pose proof (merged_evolves _ _ _ _ Hlk2 (eq_ind_r (fun n => g < N.of_nat n) Hgl Hn)
                (eq_ind_r (fun n => gf < N.of_nat n) Hgfl Hn) Hmerged) as Hev3.
  destruct (with_groups_links gs m2 Hwf2 Hlk3 Ho3 Hev3) as (Hwf3 & Hmg3 & _ & _ & Hl3).
  assert (Hmm : merges m (with_groups gs m2)) by (by apply (merges_trans m m2)).
  eexists. split; [done|]. split; [|split].
  - split_and!; [split; [done|]|done|done|done|].
    + destruct Htab2 as [Ht1 Ht2 Ht3]. split; [|done|done]. intros y Hy. by apply Hl3, Ht1.
    + intros _. right. apply (evolves_fewer (m_groups m) gs g gf); [apply Hwf|done|apply Hmm|done|done| |].
      * intros Hsc. apply Hne. apply (evolves_class (m_groups m)); [apply Hmg1|done..].
      * by apply FDuplicateGroups_master.
  - intros y Hy Hly. by apply Hl3, Hl2.
  - intros y Hy. right. by rewrite <-Hs1.
Qed.

Lemma rehash_trans fNew1 fNew2 m1 m2 res :
  merge_wf m1 -> rehash_post fNew1 m1 (fNew2, m2) -> rehash_post fNew2 m2 res -> rehash_post fNew1 m1 res.
Proof.
  destruct res as [fNew3 m3]. intros [H1 _] (Hw2 & Hm12 & Hr2 & Hf2 & Hs2) (Hw3 & Hm23 & Hr3 & Hf3 & Hs3).
  pose proof (proj1 Hw2) as H2. pose proof (proj1 Hw3) as H3.
  split_and!; [done|by apply (merges_trans m1 m2 m3)|congruence|auto|]. intros Hnew.
  assert (size (class_roots (m_groups m2)) <= size (class_roots (m_groups m1)))%nat.
  { apply subseteq_size, evolves_roots; [apply H1|apply H2|apply Hm12]. }
  assert (size (class_roots (m_groups m3)) <= size (class_roots (m_groups m2)))%nat.
  { apply subseteq_size, evolves_roots; [apply H2|apply H3|apply Hm23]. }
  destruct (Hs3 Hnew) as [?|?]; [destruct (Hs2 ltac:(done)); [by left|]|]; right; lia.
Qed.

Lemma rehash_refl fNew m : merge_wf m -> rehash_post fNew m (fNew, m).
Proof.
  intros Hwf. split_and!; try done; [|tauto]. split; [apply evolves_refl, Hwf|apply kept_refl].
Qed.

Lemma rehash_loop_ok (HL : OperatorLaws) entries fNew m :
  merge_wf m -> pending entries m -> returns (rehash_post fNew m) (rehash_loop entries fNew m).
Proof.
  revert fNew m. induction entries as [|e entries IH]; intros fNew m Hwf [Hnd Hp]; cbn [rehash_loop].
  { exists (fNew, m). split; [done|]. by apply rehash_refl. }
  apply NoDup_cons in Hnd as [Hne Hnd]. destruct (Hp e) as [Hle Hno]; [left|].
  destruct (rehash_entry_ok HL e fNew m Hwf Hle Hno) as ([fNew1 m1] & -> & Hpost & Hl1 & Ht1). cbn [mbind option_bind].
  eapply returns_mono; [apply (IH fNew1 m1)|].
  - apply Hpost.
  - split; [done|]. intros y Hy. destruct (Hp y) as [Hly Hny]; [by right|].
    assert (y <> e) by (by intros ->). split; [by apply Hl1|]. intros [?|?]%Ht1; done.
  - intros res Hres. by apply (rehash_trans fNew fNew1 m m1).
Qed.

Lemma FRehash_ok (HL : OperatorLaws) m : merge_wf m -> returns (rehash_post false m) (FRehash m).
Proof.
  intros Hwf. pose proof Hwf as [Hg Ht]. destruct (with_sht_step ∅ m Hg) as [Hg0 Hm0].
  assert (Hempty : forall e, ~ in_table (∅ : gmap N (list N)) e).
  { intros e [b Hb]. rewrite lookup_empty in Hb. by apply elem_of_nil in Hb. }
  assert (Hwf0 : merge_wf (with_sht ∅ m)).
  { split; [done|]. split; cbn [with_sht m_sht].
    - intros e He. by destruct (Hempty e).
    - intros b. rewrite lookup_empty. constructor.
    - intros b1 b2 e He. destruct (Hempty e). by exists b1. }
  eapply returns_mono; [apply (rehash_loop_ok HL (sht_dump m) false (with_sht ∅ m) Hwf0)|].
  - split; [by apply sht_dump_NoDup|]. intros e He%sht_dump_elem. split; [by apply Ht|apply Hempty].
  - intros res Hres. apply (rehash_trans false false m (with_sht ∅ m)); [done| |done].
    split_and!; [done|done|done|done|tauto].
Qed.

(** ** A round that finds nothing new *)

Lemma quiet_links gs g group d :
  quiet gs -> gs.[g] = Some group -> m_pgroupDuplicate group = Some d -> master gs g = d.
Proof. intros [_ Ha] Hg Hd. by destruct (Ha g group d Hg Hd) as [_ ->]. Qed.

Lemma quiet_resolve gs g :
  quiet gs -> g < N.of_nat (length gs) -> ResolveDuplicateMaster g gs = Some gs.
Proof.
  intros Hq Hg. unfold ResolveDuplicateMaster.
  destruct (lookup_lt_is_Some_2 gs (N.to_nat g)) as [group Hgr]; [lia|]. rewrite Hgr. cbn [mbind option_bind].
  destruct (m_pgroupDuplicate group) as [d|] eqn:Hd; [|done].
  destruct (quiet_flat gs Hq g group d Hgr Hd) as (top & Ht & Hn).
  rewrite (Master_Some gs d (proj1 Hq) (lookup_N_lt _ _ _ Ht)). cbn [mbind option_bind].
  rewrite (master_step gs d top (proj1 Hq) Ht), Hn. f_equal. unfold set_duplicate.
  apply list_eq. intros i. destruct (decide (i = N.to_nat g)) as [->|Hi].
  - rewrite list_lookup_alter_eq, Hgr. cbn. f_equal. destruct group. cbn in *. by subst.
  - by apply list_lookup_alter_ne.
Qed.

Lemma merge_decision_quiet e found pgroup pgroupFound m d m' :
  quiet (m_groups m) -> pgroup < N.of_nat (length (m_groups m)) -> pgroupFound < N.of_nat (length (m_groups m)) ->
  merge_decision e found pgroup pgroupFound m = Some (d, m') -> m' = m.
Proof.
  intros Hq Hp Hf. unfold merge_decision. destruct (pgroupFound =? pgroup); [by intros [= _ <-]|].
  rewrite !quiet_resolve by done. cbn [mbind option_bind]. rewrite quiet_resolve by done. cbn [mbind option_bind]. cbv zeta.
  rewrite with_groups_id. destruct (FDuplicateGroups _ _ _) as [dup|]; [|done]. cbn [mbind option_bind].
  destruct (FHasDSLProvenance FDSLShell m e) as [dsl|]; [|done]. cbn [mbind option_bind].
  destruct (FHasDSLProvenance FDSLShell m found) as [dslf|]; [|done]. cbn [mbind option_bind].
  destruct (FReachable m pgroup pgroupFound) as [down|]; [|done]. cbn [mbind option_bind].
  destruct (FReachable m pgroupFound pgroup) as [up|]; [|done]. cbn [mbind option_bind].
  by destruct (_ && _ && _); intros [= _ <-].
Qed.

(** What an expression is looked up by while classes do not change: [M] gives the
    master of a group. *)
Definition class_matches (M : N -> N) gexpr1 gexpr2 : Prop :=
  OpMatches (ge_pop gexpr1) (ge_pop gexpr2) = true /\ M <$> compared gexpr1 = M <$> compared gexpr2.

Definition class_bucket (M : N -> N) gexpr : N :=
  fold_left CombineHashes (HashULONG <$> (M <$> m_pdrgpgroup gexpr)) (OpHashValue (ge_pop gexpr)) mod MEMO_HT_BUCKETS.

(** Entries are in the bucket of their hash, and no two of a chain match. *)
Definition canonical (M : N -> N) m : Prop :=
  (forall b e gexpr, e ∈ default [] (m_sht m !! b) -> (m_gexprs m).[e] = Some gexpr -> b = class_bucket M gexpr) /\
  (forall b e1 e2 gexpr1 gexpr2, e1 ∈ default [] (m_sht m !! b) -> e2 ∈ default [] (m_sht m !! b) -> e1 <> e2 ->
     (m_gexprs m).[e1] = Some gexpr1 -> (m_gexprs m).[e2] = Some gexpr2 -> ~ class_matches M gexpr1 gexpr2).

(** The masters of the groups are [M]. *)
Definition masters (M : N -> N) gs : Prop := forall g, g < N.of_nat (length gs) -> master gs g = M g.

Lemma in_range_compared gs gexpr : in_range gs (m_pdrgpgroup gexpr) -> in_range gs (compared gexpr).
Proof. intros Hr. unfold compared. destruct (_ || _); [done|by apply in_range_sorted]. Qed.

Lemma masters_map M gs l : masters M gs -> in_range gs l -> master gs <$> l = M <$> l.
Proof.
  intros Hm Hr. induction l as [|g l IH]; [done|]. apply in_range_cons in Hr as [Hg Hr].
  rewrite !fmap_cons, (Hm g Hg). by rewrite IH.
Qed.

Lemma quiet_Matches (HL : OperatorLaws) M gs gexpr1 gexpr2 :
  quiet gs -> masters M gs -> in_range gs (m_pdrgpgroup gexpr1) -> in_range gs (m_pdrgpgroup gexpr2) ->
  CGroupExpression_Matches gs gexpr1 gexpr2 = Some true <-> class_matches M gexpr1 gexpr2.
Proof.
  intros Hq Hm H1 H2. rewrite flat_Matches; [|exact (proj1 Hq)|by apply quiet_flat|done|done].
  unfold class_matches. rewrite <-!(masters_map M gs) by (try done; by apply in_range_compared).
  assert (He : forall l1 l2, Forall2 (same_class gs) l1 l2 <-> master gs <$> l1 = master gs <$> l2).
  { induction l1 as [|a l1 IH]; intros [|b l2]; rewrite ?fmap_cons.
    1: split; [done|constructor]. 1, 2: split; [by inversion 1|done].
    rewrite Forall2_cons, IH. unfold same_class. split; [by intros [-> ->]|by intros [= -> ->]]. }
  by rewrite He.
Qed.

Lemma quiet_bucket M m gexpr :
  quiet (m_groups m) -> masters M (m_groups m) -> in_range (m_groups m) (m_pdrgpgroup gexpr) ->
  bucket_of m gexpr = Some (class_bucket M gexpr).
Proof.
  intros Hq Hm Hr. unfold bucket_of, CGroupExpression_HashValue, class_bucket.
  assert (Hh : mapM (CGroup_HashValue (m_groups m)) (m_pdrgpgroup gexpr) = Some (HashULONG <$> (M <$> m_pdrgpgroup gexpr)));
    [|by rewrite Hh].
  rewrite <-(masters_map M (m_groups m)) by done. apply mapM_Some, Forall2_fmap_r, Forall2_fmap_r, Forall_Forall2_diag, Forall_forall.
  intros c Hc%Hr. destruct (lookup_lt_is_Some_2 (m_groups m) (N.to_nat c)) as [group Hg]; [lia|].
  unfold CGroup_HashValue. rewrite Hg. cbn [mbind option_bind]. do 2 f_equal.
  rewrite (flat_master (m_groups m) c group); [|exact (proj1 Hq)|by apply quiet_flat|done].
  destruct (m_pgroupDuplicate group) as [d|] eqn:Hd; [|done]. destruct Hq as [_ Ha].
  destruct (Ha c group d Hg Hd) as [Hnil _]. unfold UlGExprs. by rewrite Hnil.
Qed.

Definition settling (M : N -> N) m : Prop :=
  merge_wf m /\ quiet (m_groups m) /\ masters M (m_groups m) /\ canonical M m.

Lemma set_aside_quiet e f g m : links_ok (m_groups m) -> quiet (m_groups m) -> quiet (m_groups (set_aside e f g m)).
Proof.
  intros Hlk Hq. destruct (links_kept_evolves _ _ Hlk (set_aside_links e f g m)) as (Hl' & _ & Hm). split; [done|].
  intros h grp' d Hh Hd. rewrite set_aside_groups in Hh. destruct ((m_groups m).[h]) as [grp|] eqn:Hg; [|done].
  injection Hh as <-. rewrite Hm by (by apply lookup_N_lt in Hg).
  assert (Hd0 : m_pgroupDuplicate grp = Some d) by (by destruct (decide (h = g))).
  destruct (proj2 Hq h grp d Hg Hd0) as [Hnil ->]. split; [|done]. destruct (decide (h = g)); cbn; by rewrite Hnil.
Qed.

Lemma rehash_entry_settling (HL : OperatorLaws) M e m m' :
  settling M m -> listed m e -> ~ in_table (m_sht m) e ->
  rehash_entry e false m = Some (false, m') -> settling M m'.
Proof.
  intros (Hwf & Hq & Hm & Hcan) Hle Hno Hre.
  destruct (rehash_entry_ok HL e false m Hwf Hle Hno) as (res & Hres & Hpost & _). rewrite Hre in Hres. injection Hres as <-.
  destruct Hpost as (Hwf' & _). split; [done|]. destruct Hwf as [Hg Htab].
  destruct (listed_gexpr m e Hg Hle) as (x & g & group & Hx & Hp & Hgr & Hin).
  pose proof (gexpr_range m e x Hg Hx) as Hr. unfold rehash_entry in Hre. rewrite Hx in Hre. cbn [mbind option_bind] in Hre.
  unfold sht_Find in Hre. pose proof (quiet_bucket M m x Hq Hm Hr) as Hb. rewrite Hb in Hre. cbn [mbind option_bind] in Hre.
  set (bucket := class_bucket M x) in *.
  destruct (find_match_spec m x (default [] (m_sht m !! bucket)) (gw_ok _ Hg) Hr) as (found & Hf & Hspec).
  { intros y Hy. destruct (listed_gexpr m y Hg) as (z & _ & _ & Hz & _); [apply (tw_listed _ _ Htab); by exists bucket|by eexists]. }
  rewrite Hf in Hre. cbn [mbind option_bind] in Hre. destruct found as [f|].
  2: { unfold sht_Insert in Hre. rewrite Hb in Hre. cbn [mbind option_bind] in Hre. injection Hre as <-.
       split; [done|]. split; [done|]. destruct Hcan as [Hbk Hno2].
       assert (Hl : forall b y, y ∈ default [] (<[bucket:=e :: default [] (m_sht m !! bucket)]> (m_sht m) !! b) ->
                 (b = bucket /\ y = e) \/ y ∈ default [] (m_sht m !! b)).
       { intros b y. destruct (decide (b = bucket)) as [->|]; [rewrite lookup_insert_eq; cbn; rewrite elem_of_cons; naive_solver|].
         rewrite lookup_insert_ne by done. by right. }
       assert (Hnew : forall y gy, y ∈ default [] (m_sht m !! bucket) -> (m_gexprs m).[y] = Some gy -> ~ class_matches M gy x).
       { intros y gy Hy Hgy Hc. apply (quiet_Matches HL M (m_groups m)) in Hc; [|done|done|by eapply gexpr_range|done].
         rewrite (Hspec y gy Hy Hgy) in Hc. done. }
       split; cbn [with_sht m_sht m_gexprs].
       - intros b y gy [[-> ->]|Hy]%Hl Hgy; [rewrite Hx in Hgy; by injection Hgy as <-|by eapply Hbk].
       - intros b y1 y2 g1 g2 [[Hb1 ->]|Hy1]%Hl [[Hb2 ->]|Hy2]%Hl Hne Hg1 Hg2; [done| | |exact (Hno2 b y1 y2 g1 g2 Hy1 Hy2 Hne Hg1 Hg2)].
         + subst b. rewrite Hx in Hg1. injection Hg1 as <-. intros [Ho Hc]. apply (Hnew y2 g2 Hy2 Hg2).
           split; [by apply OpMatches_sym|done].
         + subst b. rewrite Hx in Hg2. injection Hg2 as <-. by apply (Hnew y1 g1 Hy1 Hg1). }
  clear Hspec. apply find_match_in in Hf as (xf & Hfin & Hxf & _).
  destruct (listed_gexpr m f Hg (tw_listed _ _ Htab f (ex_intro _ bucket Hfin))) as (xf' & gf & groupf & Hxf' & Hpf & Hgf & _).
  rewrite Hxf in Hxf'. injection Hxf' as <-. rewrite Hxf in Hre. cbn [mbind option_bind] in Hre.
  rewrite Hp, Hpf in Hre. cbn [mbind option_bind] in Hre.
  destruct (merge_decision e f g gf m) as [[decision m1]|] eqn:Hdec; [|done]. cbn [mbind option_bind] in Hre.
  apply merge_decision_quiet in Hdec; [|done|by eapply lookup_N_lt..]. subst m1.
  destruct decision as [[]|]; [|injection Hre as <-|by injection Hre as <-].
  { cbv zeta in Hre. by destruct (MarkDuplicates _ _ _). }
  change (alter_group (MoveDuplicateGExpr e) g (alter_gexpr (duplicate_gexpr f) e m)) with (set_aside e f g m).
  pose proof (mo_links _ (gw_ok _ Hg)) as Hlk. split; [by apply set_aside_quiet|].
  destruct (links_kept_evolves _ _ Hlk (set_aside_links e f g m)) as (_ & [Hn _] & Hmm). split.
  - intros h Hh. rewrite Hn in Hh. rewrite Hmm by done. by apply Hm.
  - assert (Hback : forall y gy, (m_gexprs (set_aside e f g m)).[y] = Some gy -> exists gy0, (m_gexprs m).[y] = Some gy0 /\
              ge_pop gy = ge_pop gy0 /\ m_pdrgpgroup gy = m_pdrgpgroup gy0).
    { intros y gy Hy. destruct (field_back e f g m (fun z => (ge_pop z, m_pdrgpgroup z)) y gy (fun _ => eq_refl) Hy) as (gy0 & Hy0 & Heq).
      exists gy0. injection Heq as ? ?. done. }
    destruct Hcan as [Hbk Hno2]. split.
    + intros b y gy Hy (gy0 & Hy0 & Hpop & Hch)%Hback. rewrite (Hbk b y gy0 Hy Hy0). unfold class_bucket. by rewrite Hpop, Hch.
    + intros b y1 y2 g1 g2 Hy1 Hy2 Hne (g10 & Hg10 & Hp1 & Hc1)%Hback (g20 & Hg20 & Hp2 & Hc2)%Hback Hcm.
      apply (Hno2 b y1 y2 g10 g20); [done..|]. unfold class_matches, compared, m_pdrgpgroupSorted in *.
      by rewrite <-Hp1, <-Hp2, <-Hc1, <-Hc2.
Qed.

Lemma rehash_loop_settling (HL : OperatorLaws) M entries m m' :
  settling M m -> pending entries m -> rehash_loop entries false m = Some (false, m') -> settling M m'.
Proof.
  revert m. induction entries as [|e entries IH]; intros m Hs [Hnd Hp] Hl; cbn [rehash_loop] in Hl; [by injection Hl as <-|].
  apply NoDup_cons in Hnd as [Hne Hnd]. destruct (Hp e) as [Hle Hno]; [left|].
  destruct (rehash_entry_ok HL e false m (proj1 Hs) Hle Hno) as ([fNew1 m1] & He & Hpost & Hl1 & Ht1).
  rewrite He in Hl. cbn [mbind option_bind] in Hl.
  assert (Hp1 : pending entries m1).
  { split; [done|]. intros y Hy. destruct (Hp y) as [Hly Hny]; [by right|].
    assert (y <> e) by (by intros ->). split; [by apply Hl1|]. intros [?|?]%Ht1; done. }
  destruct fNew1.
  - destruct (rehash_loop_ok HL entries true m1 (proj1 Hpost) Hp1) as ([b m2] & Hl' & _ & _ & _ & Hb & _).
    rewrite Hl in Hl'. injection Hl' as <- <-. by specialize (Hb eq_refl).
  - eapply IH; [|exact Hp1|exact Hl]. by eapply rehash_entry_settling.
Qed.

Lemma FRehash_settling (HL : OperatorLaws) m m' :
  merge_wf m -> quiet (m_groups m) -> FRehash m = Some (false, m') -> settling (master (m_groups m)) m'.
Proof.
  intros Hwf Hq Hre. pose proof Hwf as [Hg Ht]. destruct (with_sht_step ∅ m Hg) as [Hg0 Hm0].
  assert (Hempty : forall e, ~ in_table (∅ : gmap N (list N)) e).
  { intros e [b Hb]. rewrite lookup_empty in Hb. by apply elem_of_nil in Hb. }
  eapply rehash_loop_settling; [exact HL| | |exact Hre].
  - split_and!; [split; [done|]; split; cbn [with_sht m_sht]| | |].
    + intros e He. by destruct (Hempty e).
    + intros b. rewrite lookup_empty. constructor.
    + intros b1 b2 e He. destruct (Hempty e). by exists b1.
    + done.
    + by intros h Hh.
    + split; cbn [with_sht m_sht]; intros b.
      * intros e x He. destruct (Hempty e). by exists b.
      * intros e1 e2 x1 x2 He. destruct (Hempty e1). by exists b.
  - split; [by apply sht_dump_NoDup|]. intros e He%sht_dump_elem. split; [by apply Ht|apply Hempty].
Qed.

(** ** The loop of merging *)

(** At the end the table is canonical for the masters, no group has both a link
    and expressions of its own, and the root is the master of the root before. *)
Definition merge_post m m' : Prop :=
  settling (master (m_groups m')) m' /\ merges m m' /\
  exists root, m_pgroupRoot m = Some root /\ m_pgroupRoot m' = Some (master (m_groups m') root).

Lemma with_root_wf root m : merge_wf m -> root < N.of_nat (length (m_groups m)) ->
  merge_wf (with_root (Some root) m) /\ merges m (with_root (Some root) m).
Proof.
  intros [Hg Ht] Hr. split; [split|split].
  - destruct Hg as [Hok Hown Hmem Hdis Hnd Hor _]. split; try done; [by destruct Hok|by exists root].
  - by destruct Ht as [Ht1 Ht2 Ht3].
  - apply evolves_refl, Hg.
  - split; [done|]. intros e x g Hx Hgx. by exists x, g.
Qed.

Lemma settling_masters M m : settling M m -> settling (master (m_groups m)) m.
Proof.
  intros (Hwf & Hq & Hm & Hb & Hc). pose proof (proj1 Hwf) as Hg. split_and!; [done|done|by intros h Hh|].
  assert (Hmap : forall e x, (m_gexprs m).[e] = Some x ->
    master (m_groups m) <$> m_pdrgpgroup x = M <$> m_pdrgpgroup x /\
    master (m_groups m) <$> compared x = M <$> compared x).
  { intros e x Hx. pose proof (gexpr_range m e x Hg Hx) as Hr.
    split; (apply masters_map; [done|]); [done|by apply in_range_compared]. }
  split.
  - intros b e x He Hx. rewrite (Hb b e x He Hx). unfold class_bucket. by destruct (Hmap e x Hx) as [-> _].
  - intros b e1 e2 x1 x2 H1 H2 Hne Hx1 Hx2. unfold class_matches. destruct (Hmap e1 x1 Hx1) as [_ ->], (Hmap e2 x2 Hx2) as [_ ->].
    by apply (Hc b e1 e2 x1 x2).
Qed.

Lemma group_merge_ok (HL : OperatorLaws) fuel m :
  merge_wf m -> (size (class_roots (m_groups m)) < fuel)%nat -> returns (merge_post m) (group_merge fuel m).
Proof.
  revert m. induction fuel as [|fuel IH]; intros m Hwf Hf; [lia|]. cbn [group_merge].
  destruct (merge_pass_ok m Hwf) as (m1 & -> & Hwf1 & Hmg1 & Hq1 & Hr1 & Hm1). cbn [mbind option_bind].
  pose proof (proj1 Hwf) as Hg. pose proof (proj1 Hwf1) as Hg1. pose proof (proj1 Hq1) as Hlk1.
  destruct (gw_root _ Hg) as (root & Hroot & Hlt). destruct Hmg1 as [Hev1 Hk1]. pose proof (proj1 Hev1) as Hn1.
  unfold update_root. rewrite Hr1, Hroot. cbn [mbind option_bind].
  destruct (lookup_lt_is_Some_2 (m_groups m1) (N.to_nat root)) as [rgroup Hrg]; [lia|]. rewrite Hrg. cbn [mbind option_bind].
  rewrite <-(flat_master (m_groups m1) root rgroup Hlk1 (quiet_flat _ Hq1) Hrg).
  set (root1 := master (m_groups m1) root).
  destruct (master_top (m_groups m1) root Hlk1) as (_ & Hr1lt & _); [lia|].
  destruct (with_root_wf root1 m1 Hwf1 Hr1lt) as [Hwf2 Hmg2]. set (m2 := with_root (Some root1) m1) in *.
  pose proof (merges_trans m m1 m2 Hg Hg1 (proj1 Hwf2) (conj Hev1 Hk1) Hmg2) as Hmg12.
  destruct (FRehash_ok HL m2 Hwf2) as ([b m3] & Hre & Hwf3 & Hmg3 & Hroot3 & _ & Hsize). rewrite Hre. cbn [mbind option_bind].
  pose proof (merges_trans m m2 m3 Hg (proj1 Hwf2) (proj1 Hwf3) Hmg12 Hmg3) as Hmg13.
  assert (Hroots : (size (class_roots (m_groups m1)) <= size (class_roots (m_groups m)))%nat).
  { apply subseteq_size, evolves_roots; [apply Hg|done|done]. }
  destruct b.
  - destruct (Hsize eq_refl) as [?|Hless]; [done|]. change (m_groups m2) with (m_groups m1) in Hless.
    eapply returns_mono; [apply (IH m3 Hwf3); lia|]. intros m' (Hs & Hmg & root3 & Hrt & Hrt').
    split_and!; [done|exact (merges_trans m m3 m' Hg (proj1 Hwf3) (proj1 (proj1 Hs)) Hmg13 Hmg)|].
    exists root. split; [done|]. rewrite Hrt'. rewrite Hroot3 in Hrt. injection Hrt as <-. f_equal.
    pose proof (merges_trans m2 m3 m' (proj1 Hwf2) (proj1 Hwf3) (proj1 (proj1 Hs)) Hmg3 Hmg) as [[_ He] _].
    symmetry. apply He. change (m_groups m2) with (m_groups m1). lia.
  - pose proof (FRehash_settling HL m2 m3 Hwf2 Hq1 Hre) as Hs. exists m3. split; [done|].
    split_and!; [by eapply settling_masters|done|]. exists root. split; [done|]. rewrite Hroot3. cbn [m2 with_root m_pgroupRoot].
    f_equal. destruct Hs as (_ & _ & Hm & _). rewrite Hm; [done|]. destruct Hmg3 as [[Hn3 _] _]. rewrite Hn3.
    change (m_groups m2) with (m_groups m1). lia.
Qed.

(** C22: Merging duplicate groups always ends: every round that finds new duplicates
    leaves fewer classes.  Groups that were duplicates stay so, every expression
    keeps its operator, its children and its class, each duplicate group is empty
    and linked to its master, and the root is the master of the root before. *)
Theorem GroupMerge_sound (HL : OperatorLaws) m (Hwf : merge_wf m) :
  exists m', GroupMerge m = Some m' /\ merge_wf m' /\ merges m m' /\ quiet (m_groups m') /\
    exists root, m_pgroupRoot m = Some root /\ m_pgroupRoot m' = Some (master (m_groups m') root).
Proof.
  destruct (group_merge_ok HL (S (length (m_groups m))) m Hwf) as (m' & Hm' & (Hs & Hmg & Hr)).
  { pose proof (class_roots_size (m_groups m)). lia. }
  exists m'. split; [exact Hm'|]. by destruct Hs as (? & ? & _).
Qed.

(** C21: After merging, no two expressions of the hash table are equal when the
    order of their inputs matters: duplicates across the whole table are found,
    since their hashes are those of their classes. *)
Theorem GroupMerge_canonical (HL : OperatorLaws) m m' e1 e2 gexpr1 gexpr2
    (Hwf : merge_wf m) (Hm' : GroupMerge m = Some m')
    (H1 : in_table (m_sht m') e1) (H2 : in_table (m_sht m') e2) (Hne : e1 <> e2)
    (Hx1 : (m_gexprs m').[e1] = Some gexpr1) (Hx2 : (m_gexprs m').[e2] = Some gexpr2)
    (Ho : FInputOrderSensitive (ge_pop gexpr1) = true \/ (length (m_pdrgpgroup gexpr1) <= 1)%nat) :
  CGroupExpression_Matches (m_groups m') gexpr1 gexpr2 = Some false.
Proof.
  destruct (group_merge_ok HL (S (length (m_groups m))) m Hwf) as (m0 & Hm0 & ((Hwf' & Hq & Hm & Hb & Hc) & _ & _)).
  { pose proof (class_roots_size (m_groups m)). lia. }
  unfold GroupMerge in Hm'. rewrite Hm' in Hm0. injection Hm0 as <-. pose proof (proj1 Hwf') as Hg.
  pose proof (gexpr_range m' e1 gexpr1 Hg Hx1) as Hr1. pose proof (gexpr_range m' e2 gexpr2 Hg Hx2) as Hr2.
  destruct (Matches_total (m_groups m') gexpr1 gexpr2 Hr1 Hr2) as [[] Hmt]; [|done]. exfalso.
  apply (quiet_Matches HL (master (m_groups m'))) in Hmt; [|done..]. destruct Hmt as [Hop Hch].
  destruct H1 as [b1 H1], H2 as [b2 H2].
  assert (Hlen : length (m_pdrgpgroup gexpr2) = length (m_pdrgpgroup gexpr1)).
  { apply (f_equal length) in Hch. by rewrite !length_fmap, !compared_length in Hch. }
  assert (Hcmp : master (m_groups m') <$> m_pdrgpgroup gexpr1 = master (m_groups m') <$> m_pdrgpgroup gexpr2).
  { revert Hch. unfold compared. rewrite Hlen, (OpMatches_order _ _ Hop) in *. destruct Ho as [->|Hle].
    { by rewrite orb_true_r. }
    destruct (m_pdrgpgroup gexpr1) as [|a [|]], (m_pdrgpgroup gexpr2) as [|c [|]]; cbn in Hlen, Hle; try lia; done. }
  assert (b1 = b2) as <-.
  { rewrite (Hb b1 e1 gexpr1 H1 Hx1), (Hb b2 e2 gexpr2 H2 Hx2). unfold class_bucket.
    by rewrite Hcmp, (OpMatches_hash _ _ Hop). }
  by apply (Hc b1 e1 e2 gexpr1 gexpr2).
Qed.
End merge.

(** ** Witnesses *)

(** Group 0 is known to be a duplicate of group 1; the joins over them in groups 2
    and 3 are found to be equal, and the root moves from 2 to 3. *)
Definition sample_dup_groups : list CGroup :=
  [MkGroup false (Some 1) [0] [] true; MkGroup false None [1] [] true;
   MkGroup false None [2] [] true; MkGroup false None [3] [] true].
Definition sample_dup_memo : CMemo :=
  MkMemo sample_dup_groups
    [sample_gexpr (EopOther 0) [] 0; sample_gexpr EopLogicalLeftSemiJoin [] 1;
     sample_gexpr EopLogicalInnerJoin [0; 1] 2; sample_gexpr EopLogicalInnerJoin [1; 1] 3]
    {[7 := [3; 2; 1; 0]]} (Some 2).

Abbreviation sample_merge := (GroupMerge (BS := gset N) (HO := sample_identity) (fun x => x =? 9)).
Definition sample_merged : CMemo := default sample_dup_memo (sample_merge sample_dup_memo).

Example sample_merged_root : m_pgroupRoot sample_merged = Some 3.
Proof. vm_compute. reflexivity. Qed.

Lemma sample_dup_wf : merge_wf sample_dup_memo.
Proof.
  assert (Hcase : forall i : N, i < 4 -> i = 0 \/ i = 1 \/ i = 2 \/ i = 3) by lia.
  assert (Hgr : forall g group, (m_groups sample_dup_memo).[g] = Some group ->
    g < 4 /\ m_listGExprs group = [g] /\ m_listDupGExprs group = [] /\ m_pgroupDuplicate group = (if g =? 0 then Some 1 else None)).
  { intros g group Hg. destruct (Hcase g (lookup_N_lt _ _ _ Hg)) as [-> | [-> | [-> | ->]]];
      cbv in Hg; injection Hg as <-; done. }
  assert (Hex : forall e x, (m_gexprs sample_dup_memo).[e] = Some x ->
    e < 4 /\ m_pgroup x = Some e /\ m_pgexprOrigin x = None /\ forall c, c ∈ m_pdrgpgroup x -> c < 4).
  { intros e x Hx. destruct (Hcase e (lookup_N_lt _ _ _ Hx)) as [-> | [-> | [-> | ->]]];
      cbv in Hx; injection Hx as <-; split_and!; try done; intros c; cbn; rewrite ?elem_of_cons, elem_of_nil; lia. }
  assert (Hto : forall e, e < 4 -> exists x group, (m_gexprs sample_dup_memo).[e] = Some x /\ m_pgroup x = Some e /\
    (m_groups sample_dup_memo).[e] = Some group /\ m_listGExprs group = [e]).
  { intros e He. destruct (Hcase e He) as [-> | [-> | [-> | ->]]]; do 2 eexists; split_and!; reflexivity. }
  assert (Htab : forall b e, e ∈ default [] (m_sht sample_dup_memo !! b) -> b = 7 /\ e < 4).
  { intros b e. cbn [sample_dup_memo m_sht]. destruct (decide (b = 7)) as [->|].
    - rewrite lookup_singleton_eq. cbn. rewrite !elem_of_cons, elem_of_nil. lia.
    - rewrite lookup_singleton_ne by done. by intros ?%elem_of_nil. }
  split; [split; [split|..]|split].
  - intros g group d (Hlt & _ & _ & ->)%Hgr. destruct (N.eqb_spec g 0) as [->|]; [|done]. intros [= <-]. cbn. lia.
  - intros g group e (Hlt & -> & _)%Hgr ->%list_elem_of_singleton. destruct (Hto g Hlt) as (x & _ & ? & _). by exists x.
  - intros e x c (_ & _ & _ & Hc)%Hex Hin. by apply Hc.
  - intros e x (Hlt & Hp & _)%Hex. destruct (Hto e Hlt) as (_ & group & _ & _ & ? & Hl). exists e, group. rewrite Hl. set_solver.
  - intros g group e (Hlt & -> & -> & _)%Hgr [->%list_elem_of_singleton|?%elem_of_nil]; [|done].
    destruct (Hto g Hlt) as (x & _ & ? & ? & _). by exists x.
  - intros g group e (_ & _ & -> & _)%Hgr _. apply not_elem_of_nil.
  - intros g group (_ & -> & _)%Hgr. apply NoDup_singleton.
  - intros e x o (_ & _ & Ho & _)%Hex. congruence.
  - exists 2. split; [done|]. cbn. lia.
  - intros e [b [_ Hlt]%Htab]. destruct (Hto e Hlt) as (_ & group & _ & _ & ? & Hl). exists e, group. rewrite Hl. set_solver.
  - intros b. cbn [sample_dup_memo m_sht]. destruct (decide (b = 7)) as [->|].
    + rewrite lookup_singleton_eq. cbn. repeat (apply NoDup_cons; split; [set_solver|]). constructor.
    + rewrite lookup_singleton_ne by done. constructor.
  - intros b1 b2 e [-> _]%Htab [-> _]%Htab. done.
Qed.

Lemma GroupMerge_sound_witness :
  exists m', sample_merge sample_dup_memo = Some m' /\ merge_wf m' /\ merges sample_dup_memo m' /\ quiet (m_groups m') /\
    exists root, Some 2 = Some root /\ m_pgroupRoot m' = Some (master (m_groups m') root).
Proof. exact (GroupMerge_sound (BS := gset N) (fun x => x =? 9) sample_operator_laws sample_dup_memo sample_dup_wf). Defined.

Lemma GroupMerge_canonical_witness :
  sample_merge sample_dup_memo = Some sample_merged /\ in_table (m_sht sample_merged) 1 /\ in_table (m_sht sample_merged) 3 /\
  exists gexpr1 gexpr3, (m_gexprs sample_merged).[1] = Some gexpr1 /\ (m_gexprs sample_merged).[3] = Some gexpr3 /\
    CGroupExpression_Matches (HO := sample_identity) (m_groups sample_merged) gexpr1 gexpr3 = Some false.
Proof.
  assert (Hm : sample_merge sample_dup_memo = Some sample_merged) by (vm_compute; reflexivity).
  assert (H1 : in_table (m_sht sample_merged) 1) by (exists 7; vm_compute; by left).
  assert (H3 : in_table (m_sht sample_merged) 3) by (exists 8491; vm_compute; by left).
  split; [exact Hm|]. split; [exact H1|]. split; [exact H3|]. do 2 eexists.
  split; [vm_compute; reflexivity|]. split; [vm_compute; reflexivity|].
  refine (GroupMerge_canonical (BS := gset N) (fun x => x =? 9) sample_operator_laws sample_dup_memo sample_merged 1 3 _ _
            sample_dup_wf Hm H1 H3 _ _ _ _); [discriminate|vm_compute; reflexivity..|left; vm_compute; reflexivity].
Defined.
