(* ===== verification/JoinCost.v ===== *)
(** * CDPHyperJoinCostCache: costing the joins of a region

    Model of the cost callback of the graph simplifier, the class
    [CDPHyperJoinCostCache] of libgpopt/src/search/CJobJoinEnumeration.cpp, and of
    the engine's registry of statistics it uses
    (libgpopt/src/engine/CEngine.cpp).  Deriving statistics is the interface
    [EngineStats].  The cache is a
    [NodeMap]; the pointers the code holds on its entries are indices. *)

From S2P Require Import Prelude BitVector BitSet NodeSet NodeMap Expression.
From S2P Require Import DPHyperGraph DPHyperSimplifier JoinRegionSpec JoinRegion JoinRegionPairs.

Open Scope N_scope.

(** What costing asks of the rest of the optimizer: the group of a group
    expression, whether the statistics of a memo leaf are still those of its group
    (or the group is scalar), deriving the statistics of an expression, and the
    number of rows they say.  [W] is the state behind it. *)
Class EngineStats (D W : Type) := {
  Pgroup : N -> W -> N;
  FLeafCurrent : CExpression -> W -> bool;
  DeriveStats : CExpression -> W -> W;
  Rows : CExpression -> W -> D
}.

(** ** The engine's registry *)

Record CEngine (W : Type) := MkEngine {
  m_dphyper_cost_stats : gmap N (list CExpression);
  e_world : W
}.
Arguments MkEngine {W}. Arguments m_dphyper_cost_stats {W}. Arguments e_world {W}.

Section registry.
Context {D W : Type} {HO : OperatorIdentity} {HE : EngineStats D W}.
Implicit Types (expr : CExpression) (w : W) (engine : CEngine W).

Fixpoint UlDPHyperCostExprHash w expr : N :=
  let hash := OpHashValue (Pop expr) in
  match expr with
  | MkExpression _ _ (Some pgexpr) => CombineHashes hash (HashULONG (Pgroup pgexpr w))
  | MkExpression _ children None =>
      (fix go (hash : N) (l : list CExpression) : N :=
         match l with
         | [] => hash
         | child :: l => go (CombineHashes hash (UlDPHyperCostExprHash w child)) l
         end) hash children
  end.

Fixpoint FDPHyperCostExprMatches w (lhs rhs : CExpression) : bool :=
  if negb (OpMatches (Pop lhs) (Pop rhs)) || negb (Arity lhs =? Arity rhs)%nat then false else
  match lhs, rhs with
  | MkExpression _ _ (Some pgexpr1), MkExpression _ _ (Some pgexpr2) =>
      Pgroup pgexpr1 w =? Pgroup pgexpr2 w
  | MkExpression _ _ (Some _), _ | _, MkExpression _ _ (Some _) => false
  | MkExpression _ children1 None, MkExpression _ children2 None =>
      (fix go (l1 l2 : list CExpression) : bool :=
         match l1, l2 with
         | child1 :: l1, child2 :: l2 => FDPHyperCostExprMatches w child1 child2 && go l1 l2
         | _, _ => true
         end) children1 children2
  end.

Fixpoint FDPHyperCostStatsCurrent w expr : bool :=
  match expr with
  | MkExpression _ _ (Some _) => FLeafCurrent expr w
  | MkExpression _ children None => forallb (FDPHyperCostStatsCurrent w) children
  end.

(** The test of an entry in both methods. *)
Definition cost_entry_matches w expr entry : bool :=
  FDPHyperCostStatsCurrent w entry && FDPHyperCostExprMatches w entry expr.

Definition PexprLookupDPHyperCostStats expr engine : option CExpression :=
  let w := e_world engine in
  match m_dphyper_cost_stats engine !! UlDPHyperCostExprHash w expr with
  | None => None
  | Some bucket => snd <$> list_find (fun entry => cost_entry_matches w expr entry = true) bucket
  end.

Definition RegisterDPHyperCostStats expr engine : CEngine W :=
  let w := e_world engine in
  let hash := UlDPHyperCostExprHash w expr in
  let bucket := default [] (m_dphyper_cost_stats engine !! hash) in
  MkEngine (<[hash := if existsb (cost_entry_matches w expr) bucket then bucket
                      else bucket ++ [expr]]> (m_dphyper_cost_stats engine)) w.
End registry.

(** ** The cost cache *)

(** [SEntry] but for its nodes, which are the key. *)
Record SCostEntry (D : Type) := MkCostEntry {
  ce_expr : CExpression;
  ce_rows : D;
  ce_cost : D
}.
Arguments MkCostEntry {D}. Arguments ce_expr {D}. Arguments ce_rows {D}. Arguments ce_cost {D}.

(** The counters of the class, the timers left out. *)
Record SCostCounters := MkCounters {
  m_cost_calls : N;
  m_cost_failures : N;
  m_output_hits : N;
  m_output_misses : N;
  m_exact_stats_hits : N;
  m_exact_stats_misses : N
}.

Record CDPHyperJoinCostCache (BS D W : Type) := MkCostCache {
  m_cost_map : NodeMap BS (SCostEntry D);
  m_engine : CEngine W;
  m_counters : SCostCounters
}.
Arguments MkCostCache {BS D W}. Arguments m_cost_map {BS D W}. Arguments m_engine {BS D W}.
Arguments m_counters {BS D W}.

(** The joins built here carry the id of the DPHyper transformation as origin,
    and no region marks. [None] is [nullptr]. *)
Definition PopDPHyperJoin (ExfDPHyperJoinRegion : N) (join_type : EOperatorId)
    (notin_comparison : option CExpression) : option COperator :=
  match join_type with
  | EopLogicalInnerJoin | EopLogicalLeftOuterJoin | EopLogicalLeftSemiJoin
  | EopLogicalLeftAntiSemiJoin | EopLogicalFullOuterJoin =>
      Some (MkOperator join_type ExfDPHyperJoinRegion false false None 0)
  | EopLogicalLeftAntiSemiJoinNotIn =>
      Some (MkOperator join_type ExfDPHyperJoinRegion false false notin_comparison 0)
  | _ => None
  end.

(** A null operator releases the predicate and answers [nullptr]. *)
Definition PexprJoinForCost (ExfDPHyperJoinRegion : N) (join_type : EOperatorId)
    (left right predicate : CExpression) (notin_comparison : option CExpression) : option CExpression :=
  op ← PopDPHyperJoin ExfDPHyperJoinRegion join_type notin_comparison;
  Some (MkExpression op [left; right; predicate] None).

Section cache.
Context {BS D W : Type} {HB : NodeSet BS} {HP : PredicateOps} {HI : OperatorIdentity} {DD : Double D} {HE : EngineStats D W}.
(** [CXform::ExfDPHyperJoinRegion] *)
Context (ExfDPHyperJoinRegion : N).
Abbreviation Cache := (CDPHyperJoinCostCache BS D W).
Implicit Types (c : Cache) (left right nodes : BS) (region : CDPHyperJoinRegion BS)
  (counters : SCostCounters).

Definition with_map (m : NodeMap BS (SCostEntry D)) c : Cache := MkCostCache m (m_engine c) (m_counters c).
Definition with_engine (e : CEngine W) c : Cache := MkCostCache (m_cost_map c) e (m_counters c).
Definition count (f : SCostCounters -> SCostCounters) c : Cache :=
  MkCostCache (m_cost_map c) (m_engine c) (f (m_counters c)).

Definition incr (x : N) : N := x +[ULONG_BITS] 1.
Definition cost_call '(MkCounters a b x y u v) := MkCounters (incr a) b x y u v.
Definition cost_failure '(MkCounters a b x y u v) := MkCounters a (incr b) x y u v.
Definition output_hit '(MkCounters a b x y u v) := MkCounters a b (incr x) y u v.
Definition output_miss '(MkCounters a b x y u v) := MkCounters a b x (incr y) u v.
Definition exact_hit '(MkCounters a b x y u v) := MkCounters a b x y (incr u) v.
Definition exact_miss '(MkCounters a b x y u v) := MkCounters a b x y u (incr v).

(** The member [DeriveStats], then [expr->Pstats()->Rows()]. *)
Definition derive_rows (expr : CExpression) c : D * Cache :=
  let w := DeriveStats (D := D) expr (e_world (m_engine c)) in
  (Rows expr w, with_engine (MkEngine (m_dphyper_cost_stats (m_engine c)) w) c).

Definition singleton (node : N) : BS := (ns_ExchangeSet ns_empty node).1.

(** The loop of the constructor. *)
Fixpoint cost_components (node : N) (components : list CExpression) c : Cache :=
  match components with
  | [] => c
  | component :: components =>
      let '(rows, c) := derive_rows component c in
      cost_components (node + 1) components
        (with_map (NodeMap_Record (singleton node) (MkCostEntry component rows rows) (m_cost_map c)) c)
  end.

Definition CDPHyperJoinCostCache_New region (engine : CEngine W) : Cache :=
  cost_components 0 (m_components region)
    (MkCostCache NodeMap_New engine (MkCounters 0 0 0 0 0 0)).

(** The join of the two sides, with its statistics: those of an equal expression
    the engine still knows, or derived now and registered.  [None] is an operator
    that cannot be built. *)
Definition cost_join (request : SJoinRequest) (left_expr right_expr predicate : CExpression) c
    : option (CExpression * Cache) :=
  let '(left_expr, right_expr) :=
    if rq_swapped request then (right_expr, left_expr) else (left_expr, right_expr) in
  join ← PexprJoinForCost ExfDPHyperJoinRegion (rq_join_type request) left_expr right_expr predicate
           (rq_notin_comparison request);
  Some (match PexprLookupDPHyperCostStats join (m_engine c) with
        | Some cached => (cached, count exact_hit c)
        | None =>
            let '(_, c) := derive_rows join c in
            (join, count exact_miss (with_engine (RegisterDPHyperCostStats join (m_engine c)) c))
        end).

(** The entry of the joined nodes, found or made; a pointer. The outer option is
    an access out of range. *)
Definition cost_output left right (request : SJoinRequest) (left_expr right_expr : CExpression) region c
    : option (option nat * Cache) :=
  let joined := ns_Union left right in
  match NodeMap_Lookup joined (m_cost_map c) with
  | Some output => Some (Some output, count output_hit c)
  | None =>
      let c := count output_miss c in
      predicate ← (match rq_edge_ids request with
                   | [] => PexprPredicate left right false region
                   | _ => PexprRequestPredicate request region
                   end);
      match cost_join request left_expr right_expr predicate c with
      | None => Some (None, count cost_failure c)
      | Some (join, c) =>
          let rows := Rows join (e_world (m_engine c)) in
          let output := length (nm_entries (m_cost_map c)) in
          Some (Some output, with_map (NodeMap_Record joined (MkCostEntry join rows dzero) (m_cost_map c)) c)
      end
  end.

(** [0.0 == output->m_cost || total < output->m_cost] *)
Definition improve (total : D) (e : SCostEntry D) : SCostEntry D :=
  if deq dzero (ce_cost e) || dlt total (ce_cost e) then MkCostEntry (ce_expr e) (ce_rows e) total else e.

Definition total_cost (equality : bool) (l r : SCostEntry D) (output_rows : D) : D :=
  let input_rows := dadd (ce_rows l) (ce_rows r) in
  let local_join := if equality then input_rows else dmul (ce_rows l) (ce_rows r) in
  dadd (dadd (dadd (dadd input_rows local_join) output_rows) (ce_cost l)) (ce_cost r).

Definition Cost left right region c : option (option D * Cache) :=
  let c := count cost_call c in
  match NodeMap_Lookup left (m_cost_map c), NodeMap_Lookup right (m_cost_map c) with
  | Some li, Some ri =>
      '(_, l) ← nm_entries (m_cost_map c) !! li;
      '(_, r) ← nm_entries (m_cost_map c) !! ri;
      request ← FBuildJoinRequest left right region;
      match request with
      | None => Some (None, count cost_failure c)
      | Some request =>
          '(output, c) ← cost_output left right request (ce_expr l) (ce_expr r) region c;
          match output with
          | None => Some (None, c)
          | Some output =>
              '(_, l) ← nm_entries (m_cost_map c) !! li;
              '(_, r) ← nm_entries (m_cost_map c) !! ri;
              '(_, o) ← nm_entries (m_cost_map c) !! output;
              equality ← FHasEqualityPredicate left right region;
              let total := total_cost equality l r (ce_rows o) in
              Some (Some total, with_map (NodeMap_Update output (improve total) (m_cost_map c)) c)
          end
      end
  | _, _ => Some (None, count cost_failure c)
  end.

(** The callback handed to the simplifier; the theorems show that [Cost] itself
    always answers. *)
Definition cost_callback region left right c : option D * Cache :=
  default (None, c) (Cost left right region c).
End cache.

(** ** The registry finds what was registered *)

Section registry_laws.
Context {D W : Type} {HO : OperatorIdentity} {HE : EngineStats D W} {HL : OperatorLaws}.
Implicit Types (expr : CExpression) (w : W) (engine : CEngine W).

Lemma cost_matches_refl w expr : FDPHyperCostExprMatches w expr expr = true.
Proof.
  induction expr as [op children g IH] using CExpression_children_ind. cbn [FDPHyperCostExprMatches].
  rewrite OpMatches_refl, Nat.eqb_refl. cbn [negb orb]. destruct g as [g|]; [by rewrite N.eqb_refl|].
  induction IH as [|e l He _ IHl]; [done|]. by rewrite He, IHl.
Qed.

(** What a match says of the two roots. *)
Lemma cost_matches_root w e1 e2 :
  FDPHyperCostExprMatches w e1 e2 = true ->
  OpMatches (Pop e1) (Pop e2) = true /\
  match Pgexpr e1, Pgexpr e2 with
  | Some g1, Some g2 => Pgroup g1 w = Pgroup g2 w /\ length (Children e1) = length (Children e2)
  | None, None => Forall2 (fun c1 c2 => FDPHyperCostExprMatches w c1 c2 = true) (Children e1) (Children e2)
  | _, _ => False
  end.
Proof.
  destruct e1 as [op1 l1 g1], e2 as [op2 l2 g2]. cbn [FDPHyperCostExprMatches Pop Pgexpr Children].
  case_if; [done|]. breflect. unfold Arity in *. cbn [Children] in *.
  assert (Hlen : length l1 = length l2) by (by apply Nat.eqb_eq).
  destruct g1 as [g1|], g2 as [g2|]; [|done|done|].
  - intros ?. breflect. done.
  - intros Hgo. split; [done|]. clear -Hgo Hlen. revert l2 Hlen Hgo.
    induction l1 as [|c1 l1 IH]; intros [|c2 l2] Hlen Hgo; try done.
    apply andb_prop in Hgo as [? ?]. constructor; [done|]. apply IH; [by injection Hlen|done].
Qed.

Lemma cost_matches_intro w op1 op2 l1 l2 :
  OpMatches op1 op2 = true -> Forall2 (fun c1 c2 => FDPHyperCostExprMatches w c1 c2 = true) l1 l2 ->
  FDPHyperCostExprMatches w (MkExpression op1 l1 None) (MkExpression op2 l2 None) = true.
Proof.
  intros Hop Hl. cbn [FDPHyperCostExprMatches Pop Arity Children]. unfold Arity. cbn [Children].
  rewrite Hop, (Forall2_length _ _ _ Hl), Nat.eqb_refl. cbn [negb orb].
  induction Hl as [|c1 c2 l1 l2 Hc Hl IH]; [done|]. by rewrite Hc, IH.
Qed.

Lemma cost_matches_trans w e1 e2 e3 :
  FDPHyperCostExprMatches w e1 e2 = true -> FDPHyperCostExprMatches w e2 e3 = true ->
  FDPHyperCostExprMatches w e1 e3 = true.
Proof.
  revert e2 e3. induction e1 as [op1 l1 g1 IH] using CExpression_children_ind.
  intros [op2 l2 g2] [op3 l3 g3] [Hop12 H12]%cost_matches_root [Hop23 H23]%cost_matches_root.
  cbn [Pop Pgexpr Children] in *. pose proof (OpMatches_trans _ _ _ Hop12 Hop23) as Hop13.
  destruct g1 as [g1|], g2 as [g2|], g3 as [g3|]; try done.
  - destruct H12 as [H12 Hl12], H23 as [H23 Hl23]. cbn [FDPHyperCostExprMatches Pop]. unfold Arity. cbn [Children].
    rewrite Hop13, Hl12, Hl23, Nat.eqb_refl. cbn [negb orb]. apply N.eqb_eq. congruence.
  - apply cost_matches_intro; [done|]. clear -IH H12 H23. revert l3 H23.
    induction H12 as [|c1 c2 l1 l2 Hc12 H12 IHl]; intros l3 H23; [by inversion H23|].
    apply Forall_cons in IH as [IHc IHt]. apply Forall2_cons_inv_l in H23 as (c3 & l3' & Hc23 & H23 & ->).
    constructor; [by eapply IHc|by apply IHl].
Qed.

Lemma cost_matches_hash w e1 e2 :
  FDPHyperCostExprMatches w e1 e2 = true -> UlDPHyperCostExprHash w e1 = UlDPHyperCostExprHash w e2.
Proof.
  revert e2. induction e1 as [op1 l1 g1 IH] using CExpression_children_ind.
  intros [op2 l2 g2] [Hop Hm]%cost_matches_root. cbn [Pop Pgexpr Children] in *.
  cbn [UlDPHyperCostExprHash Pop]. rewrite (OpMatches_hash _ _ Hop).
  destruct g1 as [g1|], g2 as [g2|]; try done; [by destruct Hm as [-> _]|].
  clear -IH Hm. generalize (OpHashValue op2) at 1 2. revert IH.
  induction Hm as [|c1 c2 l1 l2 Hc Hm IHl]; intros IH hash; [done|].
  apply Forall_cons in IH as [IHc IHt]. rewrite (IHc _ Hc). by apply IHl.
Qed.

Lemma existsb_list_find {A} (f : A -> bool) l :
  (exists x, x ∈ l /\ f x = true) ->
  exists y, snd <$> list_find (fun x => f x = true) l = Some y /\ y ∈ l /\ f y = true.
Proof.
  intros (x & Hx & Hf). destruct (list_find_elem_of (fun x => f x = true) l x Hx Hf) as [[i y] Hy].
  exists y. rewrite Hy. split; [done|]. apply list_find_Some in Hy as (Hi & ? & _). split; [|done].
  by eapply list_elem_of_lookup_2.
Qed.

(** Registered statistics are found again: once an expression with current
    statistics is registered, looking up any expression it matches gives an
    expression of the registry that matches it and whose statistics are current;
    and a lookup never gives any other. *)
Theorem registered_stats_found expr other engine
    (Hcur : FDPHyperCostStatsCurrent (e_world engine) expr = true)
    (Hm : FDPHyperCostExprMatches (e_world engine) expr other = true) :
  exists cached, PexprLookupDPHyperCostStats other (RegisterDPHyperCostStats expr engine) = Some cached /\
    FDPHyperCostStatsCurrent (e_world engine) cached = true /\
    FDPHyperCostExprMatches (e_world engine) cached other = true.
Proof.
  unfold PexprLookupDPHyperCostStats, RegisterDPHyperCostStats. cbn [e_world m_dphyper_cost_stats].
  set (w := e_world engine) in *. rewrite <-(cost_matches_hash _ _ _ Hm), lookup_insert_eq.
  set (bucket := default [] _).
  assert (Hex : exists x, x ∈ (if existsb (cost_entry_matches w expr) bucket then bucket else bucket ++ [expr]) /\
    cost_entry_matches w other x = true).
  { destruct (existsb (cost_entry_matches w expr) bucket) eqn:Ex.
    - apply existsb_exists in Ex as (x & Hx%list_elem_of_In & Hxm). exists x. split; [done|].
      unfold cost_entry_matches in *. breflect. apply andb_true_intro. split; [done|].
      by eapply cost_matches_trans.
    - exists expr. split; [apply elem_of_app; right; left|]. unfold cost_entry_matches. by rewrite Hcur, Hm. }
  destruct (existsb_list_find _ _ Hex) as (y & Hy & _ & Hym). exists y.
  unfold cost_entry_matches in Hym. breflect. by split_and!.
Qed.
End registry_laws.

(** ** What a call of the callback answers and records *)

Section cache_laws.
Context {BS D W : Type} {HB : NodeSet BS} {HP : PredicateOps} {HI : OperatorIdentity} {DD : Double D} {HE : EngineStats D W}.
Context (ExfDPHyperJoinRegion : N).
Abbreviation Cache := (CDPHyperJoinCostCache BS D W).
Implicit Types (c : Cache) (left right nodes : BS) (region : CDPHyperJoinRegion BS).

(** The map from sets of atoms to entries the cache stands for. *)
Definition cost_map c : gmap (gset N) (SCostEntry D) := nm_map (m_cost_map c).
Definition cost_ok c : Prop := nm_ok (m_cost_map c).

Lemma singleton_set node : to_gset (singleton (BS := BS) node) = {[node]}.
Proof. unfold singleton. rewrite ExchangeSet_law, empty_law. set_solver. Qed.

Lemma cost_components_ok node components c :
  cost_ok c -> (forall v, node <= v -> cost_map c !! {[v]} = None) ->
  let c' := cost_components node components c in
  cost_ok c' /\ forall X, cost_map c' !! X = match cost_map c !! X with
    | Some e => Some e
    | None => cost_map c' !! X
    end /\ (cost_map c !! X = None -> is_Some (cost_map c' !! X) <->
              exists i, (i < length components)%nat /\ X = {[node + N.of_nat i]}).
Proof.
  revert node c. induction components as [|component components IH]; intros node c Hok Hfresh; cbn [cost_components].
  - split; [done|]. intros X. split; [by destruct (cost_map c !! X)|]. intros ->.
    split; [by intros [? ?]|]. intros (i & Hi & _). simpl in Hi. lia.
  - unfold derive_rows. cbv zeta iota.
    set (w := DeriveStats component _). set (e := MkCostEntry component _ _).
    set (c1 := with_engine _ c). set (c2 := with_map _ c1).
    assert (Hr : cost_ok c2 /\ cost_map c2 = <[{[node]} := e]> (cost_map c)).
    { rewrite <-(singleton_set node). apply Record_nm_ok; [done|]. rewrite singleton_set. apply Hfresh. lia. }
    destruct Hr as [Hok2 Hm2]. destruct (IH (node + 1) c2 Hok2) as [Hok' Hm'].
    { intros v Hv. rewrite Hm2, lookup_insert_ne; [apply Hfresh; lia|]. intros Heq.
      assert (v ∈ ({[node]} : gset N)) by (rewrite Heq; set_solver). set_solver by lia. }
    split; [done|]. intros X. destruct (Hm' X) as [Hkeep Hnew]. rewrite Hm2 in Hkeep, Hnew.
    destruct (decide ({[node]} = X)) as [<-|Hne].
    + rewrite lookup_insert_eq in Hkeep. pose proof (Hfresh node ltac:(lia)) as Hnone. rewrite Hnone.
      split; [done|]. intros _. rewrite Hkeep. split; [|done]. intros _. exists 0%nat. simpl. split; [lia|]. f_equal. lia.
    + rewrite lookup_insert_ne in Hkeep, Hnew by done. split; [done|]. intros Hnone. rewrite (Hnew Hnone). split.
      * intros (i & Hi & ->). exists (S i). simpl. split; [lia|]. f_equal. lia.
      * intros ([|i] & Hi & ->); [by rewrite N.add_0_r in Hne|]. exists i. simpl in Hi. split; [lia|]. f_equal. lia.
Qed.

(** The constructor enters exactly the single atoms. *)
Lemma CostCache_New_ok region (engine : CEngine W) :
  let c := CDPHyperJoinCostCache_New region engine in
  cost_ok c /\ forall X, is_Some (cost_map c !! X) <->
    exists i, (i < length (m_components region))%nat /\ X = {[N.of_nat i]}.
Proof.
  destruct (New_nm_ok (BS := BS) (V := SCostEntry D)) as [Hok Hm]. set (c0 := MkCostCache (D := D) (NodeMap_New (BS := BS)) engine (MkCounters 0 0 0 0 0 0)).
  assert (Hempty : forall X, cost_map c0 !! X = None) by (intros X; unfold cost_map, c0; cbn [m_cost_map]; by rewrite Hm).
  destruct (cost_components_ok 0 (m_components region) c0 Hok (fun v _ => Hempty {[v]})) as [Hok' Hm'].
  split; [done|]. intros X. apply (Hm' X), Hempty.
Qed.

(** What a region must give for the callback to be total. *)
Record cost_total region : Prop := {
  ct_request left right : is_Some (FBuildJoinRequest left right region);
  ct_equality left right : is_Some (FHasEqualityPredicate left right region);
  ct_predicate left right request : FBuildJoinRequest left right region = Some (Some request) ->
    rq_edge_ids request = [] -> is_Some (PexprPredicate left right false region);
  ct_edges left right request : FBuildJoinRequest left right region = Some (Some request) ->
    rq_edge_ids request <> [] -> is_Some (PexprRequestPredicate request region)
}.

Lemma inner_cost_total region :
  mixed_joins region = None -> length (m_predicate_covers region) = length (m_conjuncts region) ->
  cost_total region.
Proof.
  intros Hm Hcov.
  assert (Hreq : forall l r, FBuildJoinRequest l r region = Some (
    '(sw, dir) ← FDependencyApplicable l r region; Some (MkRequest EopLogicalInnerJoin sw dir None []))).
  { intros l r. unfold FBuildJoinRequest. rewrite Hm. by destruct (FDependencyApplicable l r region) as [[? ?]|]. }
  split.
  - intros l r. rewrite Hreq. by eexists.
  - intros l r. unfold FHasEqualityPredicate. rewrite Hm, <-Hcov, mapM_lookup_seq. by eexists.
  - intros l r request _ _. unfold PexprPredicate, pair_conjuncts. rewrite <-Hcov, mapM_lookup_seq. by eexists.
  - intros l r request Hf Hids. rewrite Hreq in Hf.
    destruct (FDependencyApplicable l r region) as [[? ?]|]; [by injection Hf as <-|done].
Qed.

Lemma ready_cost_total {CS : Type} {HC : NodeSet CS} {HD : DerivedProps CS} n region :
  region_ready n region -> cost_total region.
Proof.
  intros Hr. destruct (mixed_joins region) as [spec|] eqn:Hm; [|by apply inner_cost_total, Hr].
  destruct (mixed_spec region spec Hm) as [Hs Hp].
  destruct (ry_spec _ _ Hr spec Hs) as (_ & _ & Hall & Hlen). specialize (Hall Hp).
  assert (Hreq : forall l r request, FBuildJoinRequest l r region = Some (Some request) ->
    rq_edge_ids request <> [] /\ is_Some (PexprRequestPredicate request region)).
  { intros l r request Hf.
    destruct (FBuildJoinRequest_spec region spec l r Hm Hall Hlen) as (app & res & Ha & Hf' & Hres).
    rewrite Hf in Hf'. injection Hf' as <-. destruct (proj1 (Hres request) eq_refl) as (sw & dir & _ & Happ & Hq).
    destruct (applicable_valid _ _ _ _ _ Hm Hall Ha) as [Hv _].
    assert (Hids : rq_edge_ids request = ae_edge_id <$> app)
      by (destruct Hq as [[_ ->]|(id & swapped & edge & -> & _ & _ & _ & ->)]; done).
    unfold PexprRequestPredicate. rewrite Hids, Hs. split; [by destruct app|]. cbn [mbind option_bind].
    assert (His : is_Some (mapM (fun edge_id => m_predicate <$> (m_sedges spec).[edge_id]) (ae_edge_id <$> app))).
    { apply mapM_is_Some, Forall_fmap. eapply Forall_impl; [exact Hv|]. intros c [e He]. cbn. rewrite He. by eexists. }
    destruct His as [ps ->]. by eexists. }
  pose proof (fun l r => FBuildJoinRequest_total n region l r Hr) as Htot. split.
  - exact Htot.
  - intros l r. unfold FHasEqualityPredicate. rewrite Hm. destruct (Htot l r) as [[rq|] ->]; by eexists.
  - intros l r request Hf Hids. by destruct (Hreq l r request Hf).
  - intros l r request Hf Hids. by destruct (Hreq l r request Hf).
Qed.

(** A change outside the table. *)
Definition same_map c c' : Prop := m_cost_map c' = m_cost_map c.

Lemma cost_join_ok request le re predicate c :
  match cost_join ExfDPHyperJoinRegion request le re predicate c with
  | Some (join, c') => same_map c c' /\
      is_Some (PopDPHyperJoin ExfDPHyperJoinRegion (rq_join_type request) (rq_notin_comparison request))
  | None => PopDPHyperJoin ExfDPHyperJoinRegion (rq_join_type request) (rq_notin_comparison request) = None
  end.
Proof.
  unfold cost_join, PexprJoinForCost. destruct (rq_swapped request), (PopDPHyperJoin _ _ _); try done;
    cbn [mbind option_bind]; (case_match eqn:Hm; split; [|by eexists]); revert Hm; case_match; by intros [= <- <-].
Qed.

(** The entry for the joined nodes after a call: the one there was, or one for a
    new join. *)
Definition output_entry left right c (o : SCostEntry D) : Prop :=
  match cost_map c !! (to_gset left ∪ to_gset right) with
  | Some e => o = e
  | None => ce_cost o = dzero
  end.

Lemma cost_output_ok left right request le re region c :
  cost_total region -> cost_ok c -> FBuildJoinRequest left right region = Some (Some request) ->
  exists res c', cost_output ExfDPHyperJoinRegion left right request le re region c = Some (res, c') /\
    match res with
    | None => same_map c c' /\ cost_map c !! (to_gset left ∪ to_gset right) = None /\
        PopDPHyperJoin ExfDPHyperJoinRegion (rq_join_type request) (rq_notin_comparison request) = None
    | Some i => exists s o, output_entry left right c o /\ cost_ok c' /\
        nm_entries (m_cost_map c') !! i = Some (s, o) /\ to_gset s = to_gset left ∪ to_gset right /\
        cost_map c' = <[to_gset left ∪ to_gset right := o]> (cost_map c) /\
        nm_entries (m_cost_map c) `prefix_of` nm_entries (m_cost_map c')
    end.
Proof.
  intros Ht Hok Hreq. unfold cost_output, output_entry. set (joined := ns_Union left right).
  assert (Hj : to_gset joined = to_gset left ∪ to_gset right) by apply Union_law. rewrite <-Hj.
  pose proof (Lookup_nm_map joined (m_cost_map c) Hok) as Hl. change (nm_map (m_cost_map c)) with (cost_map c) in Hl.
  destruct (NodeMap_Lookup joined (m_cost_map c)) as [i|].
  - destruct Hl as (s & v & Hi & Hs & Hv). exists (Some i), (count output_hit c). split; [done|].
    exists s, v. rewrite Hv. split_and!; [done|done|done|done| |done].
    change (cost_map (count output_hit c)) with (cost_map c). by rewrite insert_id.
  - cbv zeta.
    assert (Hp : exists predicate, (match rq_edge_ids request with
                   | [] => PexprPredicate left right false region
                   | _ => PexprRequestPredicate request region
                   end) = Some predicate).
    { destruct (rq_edge_ids request) eqn:Eids; [by eapply ct_predicate|].
      destruct (ct_edges _ Ht left right request Hreq) as [p Hp]; [by rewrite Eids|]. by exists p. }
    destruct Hp as [predicate ->]. cbn [mbind option_bind].
    pose proof (cost_join_ok request le re predicate (count output_miss c)) as Hcj.
    destruct (cost_join ExfDPHyperJoinRegion request le re predicate _) as [[join c1]|].
    + destruct Hcj as [Hsame _]. unfold same_map in Hsame. cbn [count m_cost_map] in Hsame.
      set (o := MkCostEntry join _ dzero).
      destruct (Record_nm_ok joined o (m_cost_map c1)) as [Hok1 Hm1]; [by rewrite Hsame|by rewrite Hsame|].
      eexists (Some _), _. split; [done|]. exists joined, o. rewrite Hl. split_and!; [done|done| |done| |].
      * cbn [with_map m_cost_map NodeMap_Record nm_entries]. by rewrite Hsame, lookup_app_r, Nat.sub_diag by done.
      * unfold cost_map. cbn [with_map m_cost_map]. rewrite Hm1. by rewrite Hsame.
      * cbn [with_map m_cost_map NodeMap_Record nm_entries]. rewrite Hsame. by eexists.
    + eexists None, _. by split_and!.
Qed.

(** Why a call fails. *)
Definition cost_refused left right region c : Prop :=
  cost_map c !! to_gset left = None \/ cost_map c !! to_gset right = None \/
  FBuildJoinRequest left right region = Some None \/
  exists request, FBuildJoinRequest left right region = Some (Some request) /\
    PopDPHyperJoin ExfDPHyperJoinRegion (rq_join_type request) (rq_notin_comparison request) = None.

Lemma Cost_spec left right region c :
  cost_total region -> cost_ok c ->
  exists res c', Cost ExfDPHyperJoinRegion left right region c = Some (res, c') /\ cost_ok c' /\
    match res with
    | None => cost_refused left right region c /\ cost_map c' = cost_map c
    | Some total => exists l r o equality, cost_map c !! to_gset left = Some l /\
        cost_map c !! to_gset right = Some r /\ output_entry left right c o /\
        FHasEqualityPredicate left right region = Some equality /\
        total = total_cost equality l r (ce_rows o) /\
        cost_map c' = <[to_gset left ∪ to_gset right := improve total o]> (cost_map c)
    end.
Proof.
  intros Ht Hok. unfold Cost. cbv zeta. set (c1 := count cost_call c).
  assert (Hok1 : cost_ok c1) by done. change (m_cost_map c1) with (m_cost_map c).
  pose proof (Lookup_nm_map left (m_cost_map c) Hok) as Hl. pose proof (Lookup_nm_map right (m_cost_map c) Hok) as Hr.
  change (nm_map (m_cost_map c)) with (cost_map c) in Hl, Hr.
  destruct (NodeMap_Lookup left (m_cost_map c)) as [li|].
  2: { eexists None, _. split; [done|]. split; [done|]. split; [by left|done]. }
  destruct (NodeMap_Lookup right (m_cost_map c)) as [ri|].
  2: { eexists None, _. split; [done|]. split; [done|]. split; [by right; left|done]. }
  destruct Hl as (ls & l & Hli & _ & Hl), Hr as (rs & r & Hri & _ & Hr). rewrite Hli, Hri. cbn [mbind option_bind].
  destruct (ct_request _ Ht left right) as [[request|] Hreq]; rewrite Hreq; cbn [mbind option_bind].
  2: { eexists None, _. split; [done|]. split; [done|]. split; [by right; right; left|done]. }
  destruct (cost_output_ok left right request (ce_expr l) (ce_expr r) region c1 Ht Hok1 Hreq)
    as (res & c' & -> & Hres). cbn [mbind option_bind].
  destruct res as [i|].
  - destruct Hres as (s & o & Ho & Hok' & Hi & Hs & Hmap & [more Hpre]).
    change (nm_entries (m_cost_map c1)) with (nm_entries (m_cost_map c)) in Hpre.
    rewrite Hpre in *. rewrite !(lookup_app_l_Some _ _ _ _ Hli), !(lookup_app_l_Some _ _ _ _ Hri), Hi.
    cbn [mbind option_bind]. destruct (ct_equality _ Ht left right) as [equality Heq]. rewrite Heq. cbn [mbind option_bind].
    eexists (Some _), _. split; [done|]. rewrite <-Hpre in Hi.
    destruct (Update_nm_ok i (improve (total_cost equality l r (ce_rows o))) s o _ Hok' Hi) as [Hok2 Hm2].
    split; [done|]. exists l, r, o, equality. split_and!; [done..|]. unfold cost_map. cbn [with_map m_cost_map].
    rewrite Hm2, Hs. change (nm_map (m_cost_map c')) with (cost_map c'). rewrite Hmap.
    by rewrite insert_insert_eq.
  - destruct Hres as (Hsame & _ & Hnone). eexists None, _. split; [done|].
    unfold same_map in Hsame. change (m_cost_map c1) with (m_cost_map c) in Hsame.
    split; [unfold cost_ok; by rewrite Hsame|]. split; [|unfold cost_map; by rewrite Hsame].
    do 3 right. by exists request.
Qed.

(** ** A run of calls *)

(** The callback's answers over a sequence of calls. *)
Fixpoint cost_run region (calls : list (BS * BS)) c : list (BS * BS * option D) * Cache :=
  match calls with
  | [] => ([], c)
  | (l, r) :: calls =>
      let '(res, c) := cost_callback ExfDPHyperJoinRegion region l r c in
      let '(results, c) := cost_run region calls c in
      ((l, r, res) :: results, c)
  end.

(** The totals answered for pairs that join the nodes [X], in order. *)
Definition totals_of (X : gset N) (results : list (BS * BS * option D)) : list D :=
  omap (fun '(l, r, res) => if decide (to_gset l ∪ to_gset r = X) then res else None) results.

(** The cost an entry has after the totals [ts] were computed for it. *)
Definition improved (ts : list D) (e : SCostEntry D) : SCostEntry D := fold_left (fun e t => improve t e) ts e.

Lemma cost_run_ok region calls c :
  cost_total region -> cost_ok c ->
  cost_ok (cost_run region calls c).2 /\
  forall X, match cost_map c !! X with
    | Some e => cost_map (cost_run region calls c).2 !! X = Some (improved (totals_of X (cost_run region calls c).1) e)
    | None => match totals_of X (cost_run region calls c).1 with
              | [] => cost_map (cost_run region calls c).2 !! X = None
              | ts => exists e, ce_cost e = dzero /\
                        cost_map (cost_run region calls c).2 !! X = Some (improved ts e)
              end
    end.
Proof.
  intros Ht. revert c. induction calls as [|[left right] calls IH]; intros c Hok; cbn [cost_run].
  { split; [done|]. intros X. cbn [totals_of omap list_omap fst snd]. by destruct (cost_map c !! X) eqn:E. }
  destruct (Cost_spec left right region c Ht Hok) as (res & c' & Hc & Hok' & Hres).
  assert (Hcb : cost_callback ExfDPHyperJoinRegion region left right c = (res, c'))
    by (unfold cost_callback; by rewrite Hc).
  rewrite Hcb. destruct (IH c' Hok') as [Hok2 Hm2].
  destruct (cost_run region calls c') as [results c2] eqn:Erun. cbn [fst snd] in *. split; [done|].
  intros X. specialize (Hm2 X). destruct res as [total|].
  - destruct Hres as (l & r & o & equality & _ & _ & Ho & _ & _ & Hmap). rewrite Hmap in Hm2.
    unfold totals_of in *. cbn [omap list_omap]. destruct (decide (to_gset left ∪ to_gset right = X)) as [<-|Hne].
    + rewrite lookup_insert_eq in Hm2. unfold output_entry in Ho.
      destruct (cost_map c !! (to_gset left ∪ to_gset right)); [by subst|]. by exists o.
    + rewrite lookup_insert_ne in Hm2 by done. exact Hm2.
  - destruct Hres as [_ Hmap]. rewrite Hmap in Hm2. unfold totals_of in *. cbn [omap list_omap].
    by destruct (decide (to_gset left ∪ to_gset right = X)).
Qed.
End cache_laws.

(** ** The cheapest way to join a set of atoms *)

(** The order of the costs, which are numbers and not NaN. *)
Class DoubleOrder (D : Type) {DD : Double D} : Prop := {
  deq_zero : deq dzero dzero = true;
  dlt_irrefl x : dlt x x = false;
  dlt_trans x y z : dlt x y = true -> dlt y z = true -> dlt x z = true;
  dlt_split x y z : dlt x y = true -> dlt x z = true \/ dlt z y = true
}.

Section best.
Context {BS D W : Type} {HB : NodeSet BS} {HP : PredicateOps} {HI : OperatorIdentity} {DD : Double D} {HO : DoubleOrder D}
  {HE : EngineStats D W}.
Context (ExfDPHyperJoinRegion : N).
Implicit Types (region : CDPHyperJoinRegion BS) (e : SCostEntry D) (ts : list D).

Definition is_best (cost : D) ts : Prop := cost ∈ ts /\ Forall (fun t => dlt t cost = false) ts.

Lemma improve_best t ts e :
  deq dzero (ce_cost e) = false -> is_best (ce_cost e) ts -> is_best (ce_cost (improve t e)) (ts ++ [t]).
Proof.
  intros Hz [Hin Hall]. unfold improve. rewrite Hz. cbn [orb].
  destruct (dlt t (ce_cost e)) eqn:Et; cbn [ce_cost]; split.
  - apply elem_of_app. right. left.
  - apply Forall_app. split; [|by repeat constructor; apply dlt_irrefl]. eapply Forall_impl; [exact Hall|].
    intros x Hx. simpl in Hx |- *. destruct (dlt x t) eqn:Ex; [|done]. by rewrite (dlt_trans _ _ _ Ex Et) in Hx.
  - apply elem_of_app. by left.
  - apply Forall_app. split; [done|]. by repeat constructor.
Qed.

(** [cost] is the best of the totals since the last reset: of the last ones of
    [ts], which are all of them or follow a total of 0, the value the code takes
    for a cost that is not known yet. *)
Definition best_since_zero (cost : D) ts : Prop :=
  exists before kept, ts = before ++ kept /\ is_best cost kept /\
    (before = [] \/ exists z, list.last before = Some z /\ deq dzero z = true).

Lemma best_single t : is_best t [t].
Proof. split; [left|]. repeat constructor. apply dlt_irrefl. Qed.

(** A cost of 0 is the total computed last. *)
Lemma improve_since_zero t ts e :
  best_since_zero (ce_cost e) ts -> (deq dzero (ce_cost e) = true -> list.last ts = Some (ce_cost e)) ->
  let e' := improve t e in
  best_since_zero (ce_cost e') (ts ++ [t]) /\ (deq dzero (ce_cost e') = true -> list.last (ts ++ [t]) = Some (ce_cost e')).
Proof.
  intros (before & kept & Hts & Hb & Hz) Hl e'. destruct (deq dzero (ce_cost e)) eqn:He.
  - assert (ce_cost e' = t) as -> by (unfold e', improve; by rewrite He). rewrite last_snoc. split; [|done].
    exists ts, [t]. split_and!; [done|apply best_single|]. right. exists (ce_cost e). by split; [apply Hl|].
  - split.
    + exists before, (kept ++ [t]). rewrite Hts, <-(assoc_L (++)). split_and!; [done| |done]. by apply improve_best.
    + rewrite last_snoc. unfold e', improve. rewrite He. cbn [orb]. destruct (dlt t (ce_cost e)); [done|congruence].
Qed.

Lemma improved_best ts e :
  ts <> [] -> deq dzero (ce_cost e) = true -> best_since_zero (ce_cost (improved ts e)) ts.
Proof.
  intros Hne He. destruct ts as [|t ts]; [done|]. clear Hne.
  enough (Hg : forall more seen e, best_since_zero (ce_cost e) seen ->
    (deq dzero (ce_cost e) = true -> list.last seen = Some (ce_cost e)) ->
    best_since_zero (ce_cost (improved more e)) (seen ++ more)).
  { assert (Ht : ce_cost (improve t e) = t) by (unfold improve; by rewrite He).
    apply (Hg ts [t] (improve t e)); rewrite Ht; [|done]. exists [], [t]. split_and!; [done|apply best_single|by left]. }
  clear -HO. induction more as [|t more IH]; intros seen e Hb Hl; [by rewrite app_nil_r|].
  destruct (improve_since_zero t seen e Hb Hl) as [Hb' Hl']. rewrite cons_middle, (assoc_L (++)). by apply IH.
Qed.

Lemma since_zero_nonzero cost ts :
  Forall (fun t => deq dzero t = false) ts -> best_since_zero cost ts -> is_best cost ts.
Proof.
  intros Hnz (before & kept & -> & Hb & [->|(z & Hz & Hd)]); [done|].
  apply Forall_app in Hnz as [Hnz _]. rewrite Forall_forall in Hnz. apply last_Some_elem_of in Hz.
  specialize (Hnz z Hz). congruence.
Qed.

(** C31: The cache keeps the cheapest way to join a set of atoms, at least two,
    over any sequence of calls: once a total was computed for the set, the cost of
    its entry is one of the totals, and no other is below it, as long as none of
    them is 0, which the code takes for a cost that is not known.  In general this
    holds of the totals since one that was 0.  Costs are numbers, not NaN
    ([DoubleOrder]), and the calls are answered ([cost_total]). *)
Theorem Cost_keeps_best region (engine : CEngine W) calls X
    (Ht : cost_total region)
    (HX : forall v, X <> {[v]}) :
  let '(results, c) := cost_run ExfDPHyperJoinRegion region calls (CDPHyperJoinCostCache_New region engine) in
  totals_of X results <> [] ->
  exists e, cost_map c !! X = Some e /\ best_since_zero (ce_cost e) (totals_of X results) /\
    (Forall (fun t => deq dzero t = false) (totals_of X results) -> is_best (ce_cost e) (totals_of X results)).
Proof.
  destruct (CostCache_New_ok region engine) as [Hok Hnew]. set (c0 := CDPHyperJoinCostCache_New region engine) in *.
  destruct (cost_run_ok ExfDPHyperJoinRegion region calls c0 Ht Hok) as [_ Hm].
  destruct (cost_run _ region calls c0) as [results c]. cbn [fst snd] in Hm. intros Hne. specialize (Hm X).
  assert (Hnone : cost_map c0 !! X = None).
  { apply eq_None_not_Some. intros (i & _ & ->)%Hnew. by apply (HX (N.of_nat i)). }
  rewrite Hnone in Hm. destruct (totals_of X results) as [|t ts] eqn:Ets; [done|].
  destruct Hm as (e & He & Hc). exists (improved (t :: ts) e). split; [done|].
  assert (Hb : best_since_zero (ce_cost (improved (t :: ts) e)) (t :: ts))
    by (apply improved_best; [done|rewrite He; apply deq_zero]).
  split; [done|]. intros Hnz. by apply since_zero_nonzero.
Qed.
End best.

(** ** Witnesses *)

#[local] Existing Instance sample_identity.

(** Statistics for the samples: rows by the shape of an expression. *)
Definition sample_stats : EngineStats N N := {|
  Pgroup pgexpr _ := pgexpr;
  FLeafCurrent _ _ := true;
  DeriveStats _ derivations := derivations + 1;
  Rows expr _ := 3 + N.of_nat (Arity expr)
|}.
Definition sample_engine : CEngine N := MkEngine ∅ 0.

#[local] Existing Instance N_double.
#[local] Existing Instance sample_operator_laws.


(** A join of atoms is found under a copy of it. *)
Definition sample_join (k : N) : CExpression :=
  sample_node EopLogicalInnerJoin k [sample_atom 0; sample_atom 1; sample_predicate 0 1].

Lemma registered_stats_found_witness :
  exists cached, PexprLookupDPHyperCostStats (HE := sample_stats) (sample_join 1)
      (RegisterDPHyperCostStats (HE := sample_stats) (sample_join 0) sample_engine) = Some cached /\
    FDPHyperCostExprMatches (HE := sample_stats) 0 cached (sample_join 1) = true.
Proof.
  destruct (registered_stats_found (HE := sample_stats) (sample_join 0) (sample_join 1) sample_engine)
    as (cached & Hc & _ & Hm); [vm_compute; reflexivity..|]. exists cached. split; [exact Hc|exact Hm].
Defined.

#[local] Instance N_double_order : DoubleOrder N (DD := N_double).
Proof.
  split; cbn.
  - done.
  - intros x. apply N.ltb_irrefl.
  - intros x y z ?%N.ltb_lt ?%N.ltb_lt. apply N.ltb_lt. lia.
  - intros x y z ?%N.ltb_lt. rewrite !N.ltb_lt. lia.
Defined.

(** The three atoms of the sample list joined in two orders: the cheaper total
    stays. *)
Definition sample_calls : list (gset N * gset N) :=
  [({[0]}, {[1]}); ({[0; 1]}, {[2]}); ({[1]}, {[2]}); ({[0]}, {[1; 2]})].
Definition sample_cost_run :=
  cost_run (DD := N_double) (HP := sample_ops) (HE := sample_stats) 42 sample_result sample_calls
    (CDPHyperJoinCostCache_New (HE := sample_stats) sample_result sample_engine).

Lemma nonzero_totals (l : list N) :
  forallb (fun t => negb (deq dzero t)) l = true -> Forall (fun t => deq dzero t = false) l.
Proof. rewrite forallb_forall, Forall_forall. intros Hl t Ht%list_elem_of_In%Hl. by apply negb_true_iff. Qed.

Lemma three_not_single (v : N) : ({[0; 1; 2]} : gset N) <> {[v]}.
Proof.
  intros Hv. assert (H0 : 0 ∈ ({[v]} : gset N)) by (rewrite <-Hv; set_solver).
  assert (H1 : 1 ∈ ({[v]} : gset N)) by (rewrite <-Hv; set_solver). apply elem_of_singleton in H0, H1. lia.
Qed.

Lemma Cost_keeps_best_witness :
  totals_of {[0; 1; 2]} sample_cost_run.1 <> [] /\
  exists e, cost_map sample_cost_run.2 !! {[0; 1; 2]} = Some e /\
    is_best (DD := N_double) (ce_cost e) (totals_of {[0; 1; 2]} sample_cost_run.1).
Proof.
  assert (Hne : totals_of {[0; 1; 2]} sample_cost_run.1 <> []) by (vm_compute; discriminate).
  split; [exact Hne|].
  pose proof (Cost_keeps_best (DD := N_double) (HP := sample_ops) (HE := sample_stats) 42 sample_result sample_engine
    sample_calls {[0; 1; 2]}) as Hb. fold sample_cost_run in Hb.
  assert (Hz : Forall (fun t => deq dzero t = false) (totals_of {[0; 1; 2]} sample_cost_run.1)).
  { apply nonzero_totals. vm_compute. reflexivity. }
  specialize (Hb ltac:(apply inner_cost_total; vm_compute; reflexivity) three_not_single).
  destruct sample_cost_run as [results c]. destruct (Hb Hne) as (e & He & _ & Hbest).
  exists e. split; [exact He|]. exact (Hbest Hz).
Defined.
