(* ===== verification/JoinEnumeration.v ===== *)
(** * CJobJoinEnumeration: choosing a plan for a join region

    Model of the side-effect-free part of
    libgpopt/src/search/CJobJoinEnumeration.cpp: the exhaustive enumeration of a
    region's graph within the pair budget, the simplification of the graph when
    the budget runs out, and the plan of the original binary tree as the last
    resort; and which joins the enumeration takes
    over.  The cost of a join is that of [JoinCost]'s cache. *)

From S2P Require Import Prelude NodeSet Expression DPHyperGraph DPHyperEnum DPHyperPlan.
From S2P Require Import DPHyperOrder DPHyperSimplifier UnionFind JoinRegionSpec JoinRegion JoinRegionPairs.
From S2P Require Import NodeMap JoinCost.

Open Scope N_scope.

(** ** Which joins are taken over *)

Definition FSupportedDPHyperJoin (op_id : EOperatorId) : bool :=
  match op_id with
  | EopLogicalInnerJoin | EopLogicalLeftOuterJoin | EopLogicalLeftSemiJoin
  | EopLogicalLeftAntiSemiJoin | EopLogicalLeftAntiSemiJoinNotIn
  | EopLogicalFullOuterJoin => true
  | _ => false
  end.

Section selection.
Context {BS CS : Type} {HB : NodeSet BS} {HC : NodeSet CS} {HD : DerivedProps CS} {HP : PredicateOps}.
Context {D W : Type} {HI : OperatorIdentity} {DD : Double D} {HE : EngineStats D W}.
(** [CXform::ExfDPHyperJoinRegion] *)
Context (ExfDPHyperJoinRegion : N).
Implicit Types (region : CDPHyperJoinRegion BS) (plan : CDPHyperPlan BS) (spec : CJoinRegionSpec BS).

(** The lambda [pair_filter] of [FEnumerateRegion]; an edge id out of range, which
    the code rules out by an assertion, reads as [false]. *)
Definition pair_filter region (left right : BS) (edge_id : N) : bool :=
  match FPairApplicable left right edge_id region with
  | Some (true, _) =>
      match FBuildJoinRequest left right region with Some (Some _) => true | _ => false end
  | _ => false
  end.

(** ** The plan of the original tree *)

(** The nodes in turn; the flag is a receiver that asks to stop. *)
Fixpoint single_nodes_loop (nodes : list N) plan : bool * CDPHyperPlan BS :=
  match nodes with
  | [] => (false, plan)
  | node :: nodes =>
      let '(abort, plan) := CDPHyperPlan_FoundSingleNode node plan in
      if (abort : bool) then (true, plan) else single_nodes_loop nodes plan
  end.

Fixpoint skeleton_loop (edges : list (CEdge BS)) (edge : N) region plan
    : option (bool * CDPHyperPlan BS) :=
  match edges with
  | [] => Some (true, plan)
  | skeleton_edge :: edges =>
      if negb (CDPHyperPlan_HasSeen (m_eleft skeleton_edge) plan) ||
         negb (CDPHyperPlan_HasSeen (m_eright skeleton_edge) plan)
      then Some (false, plan) else
      request ← FBuildJoinRequest (m_eleft skeleton_edge) (m_eright skeleton_edge) region;
      match request with
      | None => Some (false, plan)
      | Some _ =>
          let '(abort, plan) := CDPHyperPlan_FoundSubgraphPair None (m_eleft skeleton_edge)
                                  (m_eright skeleton_edge) edge plan in
          if (abort : bool) then Some (false, plan) else skeleton_loop edges (edge + 1) region plan
      end
  end.

Definition FBuildBinarySkeletonPlan region spec plan : option (bool * CDPHyperPlan BS) :=
  let nodes := N.of_nat <$> seq 0 (length (m_atoms spec)) in
  let '(abort, plan) := single_nodes_loop nodes plan in
  if abort then Some (false, plan) else
  '(ok, plan) ← skeleton_loop (m_sedges spec) 0 region plan;
  if (ok : bool) then Some (CDPHyperPlan_Complete (N.of_nat (length (m_atoms spec))) plan, plan)
  else Some (false, plan).

(** ** The plan of a region *)

Inductive EStrategy := EsExhaustive | EsGraphSimplifier | EsBinarySkeleton.

(** The region's graph is the simplifier's: what it leaves there stays.  The
    cost cache lives as long as the simplifier; the engine keeps what was
    registered through it. *)
Definition SimplifiedPlan (pair_budget : N) region (engine : CEngine W)
    : option (option (CDPHyperPlan BS) * CDPHyperJoinRegion BS * CEngine W) :=
  let filter := Some (pair_filter region) in
  let edge_filter := fun edge_id => FEqualityEdge edge_id region in
  let m_join_cost := cost_callback ExfDPHyperJoinRegion region in
  '(ok, st) ← simplify_run pair_budget filter edge_filter m_join_cost (m_graph region)
                (CDPHyperJoinCostCache_New region engine);
  if (ok : bool) then
    '(aborted, graph_plan) ← Enumerate (H0 := plan_receiver filter) (s_graph st)
                               (CDPHyperPlan_New pair_budget);
    if negb aborted && CDPHyperPlan_Complete (N.of_nat (length (m_components region))) graph_plan
    then Some (Some graph_plan, set_graph (s_graph st) region, m_engine (s_cost st))
    else
      st ← Restore edge_filter m_join_cost st;
      Some (None, set_graph (s_graph st) region, m_engine (s_cost st))
  else Some (None, set_graph (s_graph st) region, m_engine (s_cost st)).

Definition SkeletonPlan region : option (option (CDPHyperPlan BS)) :=
  match m_spec region with
  | None => Some None
  | Some spec =>
      '(ok, plan) ← FBuildBinarySkeletonPlan region spec
                      (CDPHyperPlan_New (N.of_nat (length (m_components region)) - 1));
      Some (if (ok : bool) then Some plan else None)
  end.

(** The selection of [FEnumerateRegion], up to the point where it registers the
    fingerprint; [None] in the result is the native fallback. *)
Definition SelectPlan (pair_budget : N) region (engine : CEngine W)
    : option (option (EStrategy * CDPHyperPlan BS) * CDPHyperJoinRegion BS * CEngine W) :=
  '(aborted, exhaustive) ← Enumerate (H0 := plan_receiver (Some (pair_filter region)))
                             (m_graph region) (CDPHyperPlan_New pair_budget);
  let complete := CDPHyperPlan_Complete (N.of_nat (length (m_components region))) exhaustive in
  let budget_exhausted := m_budget_exhausted exhaustive in
  '(graph_plan, region, engine) ←
    (if negb complete && budget_exhausted then SimplifiedPlan pair_budget region engine
     else Some (None, region, engine));
  skeleton_plan ←
    (if negb complete && negb (bool_decide (is_Some graph_plan)) && budget_exhausted
     then SkeletonPlan region else Some None);
  let simplified := match graph_plan, skeleton_plan with
                    | Some plan, _ => Some (EsGraphSimplifier, plan)
                    | None, Some plan => Some (EsBinarySkeleton, plan)
                    | None, None => None
                    end in
  if (negb complete && negb (bool_decide (is_Some simplified))) || (aborted && negb budget_exhausted)
  then Some (None, region, engine)
  else Some (Some (default (EsExhaustive, exhaustive) simplified), region, engine).
End selection.

(** ** The skeleton plan is the original tree *)

Section skeleton.
Context {BS CS : Type} {HB : NodeSet BS} {HC : NodeSet CS} {HD : DerivedProps CS} {HP : PredicateOps}.
Implicit Types (region : CDPHyperJoinRegion BS) (plan : CDPHyperPlan BS) (spec : CJoinRegionSpec BS)
  (edge : CEdge BS).

(** The pair of an original join. *)
Definition cut_pair (i : N) edge : SPair BS := MkPair (m_eleft edge) (m_eright edge) [i].
Definition cut_pairs (k : N) (edges : list (CEdge BS)) : list (SPair BS) :=
  imap (fun i edge => cut_pair (k + N.of_nat i) edge) edges.

(** A graph whose edges are the original joins, so that a plan over them has the
    invariant of plans. *)
Definition skeleton_graph spec : CDPHyperGraph BS :=
  MkGraph (replicate (length (m_atoms spec)) SNode_New)
    (imap (fun i edge => MkEdge (m_eright edge) (m_eleft edge) (N.of_nat i)) (m_sedges spec)).

Lemma skeleton_nodes spec : NodeCount (skeleton_graph spec) = N.of_nat (length (m_atoms spec)).
Proof. unfold NodeCount. cbn. by rewrite length_replicate. Qed.

Lemma skeleton_connects_cut spec i edge :
  m_sedges spec !! i = Some edge ->
  connects (skeleton_graph spec) (to_gset (m_eleft edge)) (to_gset (m_eright edge)) (N.of_nat i).
Proof.
  intros Hi. exists (MkEdge (m_eright edge) (m_eleft edge) (N.of_nat i)). split_and!; [|done..].
  apply elem_of_lookup_imap. by exists i, edge.
Qed.

(** The sides of an original join are two adjacent runs of nodes. *)
Lemma tree_edges_spans t a :
  Forall (fun d => exists x m y, (x < m)%nat /\ (m < y)%nat /\ (y <= a + width t)%nat /\
    d_left d = span x m /\ d_right d = span m y) (tree_edges t a).
Proof.
  revert a. induction t as [e|op p c t1 IH1 t2 IH2]; intros a; cbn [tree_edges]; [constructor|].
  rewrite width_join. pose proof (width_pos t1). pose proof (width_pos t2).
  repeat (apply Forall_app; split).
  - eapply Forall_impl; [apply IH1|]. intros d (x & m & y & ? & ? & ? & ? & ?). exists x, m, y.
    split_and!; [done..|lia|done|done].
  - eapply Forall_impl; [apply IH2|]. intros d (x & m & y & ? & ? & ? & ? & ?). exists x, m, y.
    split_and!; [done..|lia|done|done].
  - repeat constructor. exists a, (a + width t1)%nat, (a + width t1 + width t2)%nat. cbn.
    split_and!; [lia..|done|done].
Qed.

(** They are what the enumerator would report. *)
Lemma cut_sides t spec i edge :
  built_region t spec -> m_sedges spec !! i = Some edge ->
  pair_sides (skeleton_graph spec) (to_gset (m_eleft edge)) (to_gset (m_eright edge)).
Proof.
  intros Hb Hi. destruct (Forall2_lookup_r _ _ _ _ _ (built_matches _ _ Hb) Hi) as (d & Hd & Hem).
  pose proof (tree_edges_spans t 0) as Hs. eapply Forall_lookup_1 in Hs as (x & m & y & ? & ? & Hy & Hl & Hr); [|exact Hd].
  rewrite (em_left _ _ Hem), (em_right _ _ Hem), Hl, Hr. split.
  - intros v. rewrite span_split by lia. rewrite skeleton_nodes, (br_atoms _ _ Hb), elem_of_span.
    change (length (leaves t)) with (width t). lia.
  - apply span_nonempty. lia.
  - apply span_disjoint.
  - exists (N.of_nat x). rewrite elem_of_span. split; [lia|]. intros v. rewrite span_split by lia.
    rewrite elem_of_span. lia.
Qed.

(** Two original joins do not join the same nodes. *)
Lemma cuts_distinct t spec i j edge1 edge2 :
  built_region t spec -> m_sedges spec !! i = Some edge1 -> m_sedges spec !! j = Some edge2 -> i <> j ->
  to_gset (m_eleft edge1) ∪ to_gset (m_eright edge1) <> to_gset (m_eleft edge2) ∪ to_gset (m_eright edge2).
Proof.
  intros Hb Hi Hj Hne. pose proof (built_matches _ _ Hb) as Hm.
  destruct (Forall2_lookup_r _ _ _ _ _ Hm Hi) as (d1 & Hd1 & Hem1).
  destruct (Forall2_lookup_r _ _ _ _ _ Hm Hj) as (d2 & Hd2 & Hem2).
  rewrite (em_left _ _ Hem1), (em_right _ _ Hem1), (em_left _ _ Hem2), (em_right _ _ Hem2).
  pose proof (tree_edges_nested t 0 i j d1 d2 Hd1 Hd2 Hne) as Hn.
  pose proof (tree_edges_ok t 0) as Hok.
  pose proof (Forall_lookup_1 _ _ _ _ Hok Hd1) as [Hl1 Hr1 Hx1 _].
  pose proof (Forall_lookup_1 _ _ _ _ Hok Hd2) as [Hl2 Hr2 Hx2 _].
  unfold nested, within_side, d_all in Hn. intros He. rewrite He in Hn. clear -Hl1 Hr1 Hx1 Hl2 Hr2 Hx2 Hn He.
  destruct Hn as [[Hn|Hn]|[[Hn|Hn]|Hn]].
  - apply Hr2. set_solver.
  - apply Hl2. set_solver.
  - rewrite <-He in Hn. apply Hr1. set_solver.
  - rewrite <-He in Hn. apply Hl1. set_solver.
  - apply Hl2. set_solver.
Qed.

(** What the replay knows after the first [k] original joins. *)
Record replayed spec (budget : N) (k : nat) plan : Prop := {
  rp_inv : plan_inv None (skeleton_graph spec) plan;
  rp_live : m_budget_exhausted plan = false;
  rp_budget : m_pair_budget plan = budget;
  rp_pairs : m_pairs plan = cut_pairs 0 (take k (m_sedges spec));
  rp_singles : forall v, v < N.of_nat (length (m_atoms spec)) -> seen_in plan {[v]}
}.

Lemma cut_pairs_snoc k (edges : list (CEdge BS)) edge :
  cut_pairs k (edges ++ [edge]) = cut_pairs k edges ++ [cut_pair (k + N.of_nat (length edges)) edge].
Proof. unfold cut_pairs. rewrite imap_app. cbn. by rewrite Nat.add_0_r. Qed.

Lemma length_cut_pairs k (edges : list (CEdge BS)) : length (cut_pairs k edges) = length edges.
Proof. apply length_imap. Qed.

(** One original join. *)
Lemma replay_cut t spec budget k plan edge :
  built_region t spec -> replayed spec budget k plan -> m_sedges spec !! k = Some edge ->
  N.of_nat k < budget -> seen_in plan (to_gset (m_eleft edge)) -> seen_in plan (to_gset (m_eright edge)) ->
  exists plan', CDPHyperPlan_FoundSubgraphPair None (m_eleft edge) (m_eright edge) (N.of_nat k) plan
      = (false, plan') /\ replayed spec budget (S k) plan' /\
    (forall X, seen_in plan X -> seen_in plan' X) /\
    seen_in plan' (to_gset (m_eleft edge) ∪ to_gset (m_eright edge)).
Proof.
  intros Hb [Hi Hlive Hbud Hpairs Hs] Hk Hlt Hsl Hsr.
  pose proof (conj (cut_sides t spec k edge Hb Hk) (skeleton_connects_cut spec k edge Hk)) as Hok.
  pose proof (rc_pair (skeleton_graph spec) (ReceiverContract := plan_contract None (skeleton_graph spec))
    (m_eleft edge) (m_eright edge) (N.of_nat k) plan Hi Hlive Hok Hsl Hsr) as Hrc. cbn [FoundSubgraphPair plan_receiver] in Hrc.
  unfold CDPHyperPlan_FoundSubgraphPair in *. cbv zeta in *.
  pose proof (Ppair_spec None (skeleton_graph spec) (m_eleft edge) (m_eright edge) plan Hi) as Hpp.
  destruct (Ppair _ _ _ plan) as [i|].
  { exfalso. destruct Hpp as (pr & Hpr & Hsame). rewrite Hpairs in Hpr.
    unfold cut_pairs in Hpr. rewrite list_lookup_imap in Hpr. apply fmap_Some in Hpr as (e & Hpr & ->). apply lookup_take_Some in Hpr as [Hpr Hik].
    apply (cuts_distinct t spec i k e edge Hb Hpr Hk); [lia|].
    apply same_pair_spec in Hsame as [[Hl Hr]|[Hl Hr]]; cbn in Hl, Hr; rewrite Hl, Hr; [done|apply (comm_L (∪))]. }
  assert (Hlen : N.of_nat (length (m_pairs plan)) = N.of_nat k).
  { rewrite Hpairs, length_cut_pairs, length_take. apply lookup_lt_Some in Hk. lia. }
  rewrite Hbud, Hlen in *. replace (budget <=? N.of_nat k) with false in * by (symmetry; apply N.leb_gt; lia).
  destruct (RecordSeen_frame (ns_Union (m_eleft edge) (m_eright edge)) (push_pair (m_eleft edge) (m_eright edge) (N.of_nat k) plan))
    as (Hp & _ & Hb' & Hx). unfold push_pair in *. rewrite Hbud in *.
  set (p1 := MkPlan _ _ _ _ _ _) in *. destruct Hrc as (Hi' & Hlive' & Hmono).
  eexists. split; [reflexivity|]. assert (Hpairs' : m_pairs (RecordSeen (ns_Union (m_eleft edge) (m_eright edge)) p1).2 =
    cut_pairs 0 (take (S k) (m_sedges spec))).
  { rewrite Hp. unfold p1. cbn. rewrite Hpairs, (take_S_r _ _ _ Hk), cut_pairs_snoc, length_take.
    apply lookup_lt_Some in Hk. by replace (k `min` length (m_sedges spec))%nat with k by lia. }
  split_and!.
  - split; [done|done|by rewrite Hb'|done|]. intros v Hv. by apply Hmono, Hs.
  - exact Hmono.
  - apply (pi_recorded None (skeleton_graph spec) _ Hi' k (cut_pair (N.of_nat k) edge)).
    rewrite Hpairs'. rewrite (take_S_r _ _ _ Hk), cut_pairs_snoc. rewrite lookup_app_r.
    + rewrite length_cut_pairs, length_take. apply lookup_lt_Some in Hk.
      replace (k `min` length (m_sedges spec))%nat with k by lia. by rewrite Nat.sub_diag.
    + rewrite length_cut_pairs, length_take. lia.
Qed.

(** The original joins have a join request each. *)
Definition requests_built region spec : Prop :=
  forall edge, edge ∈ m_sedges spec ->
    exists request, FBuildJoinRequest (m_eleft edge) (m_eright edge) region = Some (Some request).

Lemma replay_step t spec budget region k plan edge rest :
  built_region t spec -> requests_built region spec -> replayed spec budget k plan ->
  m_sedges spec !! k = Some edge -> N.of_nat k < budget ->
  seen_in plan (to_gset (m_eleft edge)) -> seen_in plan (to_gset (m_eright edge)) ->
  exists plan', skeleton_loop (edge :: rest) (N.of_nat k) region plan =
      skeleton_loop rest (N.of_nat (S k)) region plan' /\
    replayed spec budget (S k) plan' /\ (forall X, seen_in plan X -> seen_in plan' X) /\
    seen_in plan' (to_gset (m_eleft edge) ∪ to_gset (m_eright edge)).
Proof.
  intros Hb Hreq Hrp Hk Hlt Hl Hr.
  destruct (replay_cut t spec budget k plan edge Hb Hrp Hk Hlt Hl Hr) as (plan' & Hf & Hrp' & Hm & Hs).
  exists plan'. split_and!; [|done..]. cbn [skeleton_loop].
  apply (HasSeen_spec (m_eleft edge) plan) in Hl as ->; [|apply (rp_inv _ _ _ _ Hrp)].
  apply (HasSeen_spec (m_eright edge) plan) in Hr as ->; [|apply (rp_inv _ _ _ _ Hrp)]. cbn [negb orb].
  destruct (Hreq edge) as [rq ->]; [by eapply list_elem_of_lookup_2|]. cbn [mbind option_bind].
  rewrite Hf. by replace (N.of_nat k + 1) with (N.of_nat (S k)) by lia.
Qed.

(** The joins of a subtree, whose edges are those from [k] on. *)
Lemma replay_tree t spec budget region sub a es k rest plan :
  built_region t spec -> requests_built region spec ->
  Forall2 edge_matches (tree_edges sub a) es ->
  (forall j edge, es !! j = Some edge -> m_sedges spec !! (k + j)%nat = Some edge) ->
  N.of_nat (k + length es) <= budget -> (a + width sub <= length (m_atoms spec))%nat ->
  replayed spec budget k plan ->
  exists plan', skeleton_loop (es ++ rest) (N.of_nat k) region plan =
      skeleton_loop rest (N.of_nat (k + length es)) region plan' /\
    replayed spec budget (k + length es) plan' /\ (forall X, seen_in plan X -> seen_in plan' X) /\
    seen_in plan' (span a (a + width sub)).
Proof.
  intros Hb Hreq. revert a es k rest plan.
  induction sub as [e|op p c t1 IH1 t2 IH2]; intros a es k rest plan Hm Hes Hbud Ha Hrp; cbn [tree_edges] in Hm.
  { apply Forall2_nil_inv_l in Hm as ->. exists plan. cbn. rewrite Nat.add_0_r. split_and!; [done..|].
    change (width (RAtom e)) with 1%nat in *. rewrite Nat.add_1_r, span_singleton.
    apply (rp_singles _ _ _ _ Hrp). lia. }
  apply Forall2_app_inv_l in Hm as (es1 & es' & Hm1 & Hm' & ->).
  apply Forall2_app_inv_l in Hm' as (es2 & es3 & Hm2 & Hm3 & ->).
  apply Forall2_cons_inv_l in Hm3 as (edge & es4 & Hem & Hm4 & ->). apply Forall2_nil_inv_l in Hm4 as ->.
  rewrite width_join in *. rewrite !length_app in *. cbn [length] in *. rewrite <-!(assoc_L (++)).
  destruct (IH1 a es1 k (es2 ++ [edge] ++ rest) plan Hm1) as (p1 & -> & Hrp1 & Hs1 & Hsp1).
  { intros j e Hj. apply Hes. by apply lookup_app_l_Some. } { lia. } { lia. } { done. }
  destruct (IH2 (a + width t1)%nat es2 (k + length es1)%nat ([edge] ++ rest) p1 Hm2)
    as (p2 & -> & Hrp2 & Hs2 & Hsp2).
  { intros j e Hj. rewrite <-Nat.add_assoc. apply Hes. rewrite lookup_app_r by lia.
    replace (length es1 + j - length es1)%nat with j by lia. by apply lookup_app_l_Some. }
  { lia. } { lia. } { done. }
  assert (Hedge : m_sedges spec !! (k + length es1 + length es2)%nat = Some edge).
  { rewrite <-!Nat.add_assoc. apply Hes. rewrite lookup_app_r by lia. rewrite lookup_app_r by lia.
    by replace (length es1 + length es2 - length es1 - length es2)%nat with 0%nat by lia. }
  destruct (replay_step t spec budget region _ p2 edge rest Hb Hreq Hrp2 Hedge) as (p3 & Hk & Hrp3 & Hs3 & Hsp3).
  { lia. } { rewrite (em_left _ _ Hem). apply Hs2, Hsp1. } { rewrite (em_right _ _ Hem). exact Hsp2. }
  exists p3. cbn [app]. rewrite Hk.
  replace (k + (length es1 + (length es2 + 1)))%nat with (S (k + length es1 + length es2)) by lia.
  split_and!; [done|done|auto|].
  rewrite (em_left _ _ Hem), (em_right _ _ Hem) in Hsp3. cbn [d_left d_right] in Hsp3.
  by rewrite span_split, <-Nat.add_assoc in Hsp3 by lia.
Qed.

Lemma single_nodes_ok spec budget nodes plan :
  plan_inv None (skeleton_graph spec) plan -> m_budget_exhausted plan = false ->
  m_pair_budget plan = budget -> m_pairs plan = [] ->
  (forall v, v ∈ nodes -> v < N.of_nat (length (m_atoms spec))) ->
  exists plan', single_nodes_loop nodes plan = (false, plan') /\
    plan_inv None (skeleton_graph spec) plan' /\ m_budget_exhausted plan' = false /\
    m_pair_budget plan' = budget /\ m_pairs plan' = [] /\
    (forall X, seen_in plan X -> seen_in plan' X) /\ (forall v, v ∈ nodes -> seen_in plan' {[v]}).
Proof.
  revert plan. induction nodes as [|v nodes IH]; intros plan Hi Hl Hbud Hp Hn; cbn [single_nodes_loop].
  { exists plan. split_and!; try done. by intros v ?%elem_of_nil. }
  pose proof (rc_single (skeleton_graph spec) (ReceiverContract := plan_contract None (skeleton_graph spec))
    v plan Hi Hl) as Hrc. rewrite skeleton_nodes in Hrc. specialize (Hrc (Hn v ltac:(left))).
  cbn [FoundSingleNode plan_receiver] in Hrc. unfold CDPHyperPlan_FoundSingleNode in *.
  destruct Hrc as (Hi' & Hl' & Hm & Hs). specialize (Hs eq_refl).
  destruct (RecordSeen_frame (ns_ExchangeSet ns_empty v).1 plan) as (Hp' & _ & Hb' & _).
  destruct (IH (RecordSeen (ns_ExchangeSet ns_empty v).1 plan).2) as (plan' & -> & ? & ? & ? & ? & Hm2 & Hs2);
    [done|done|congruence|congruence|intros; apply Hn; by right|].
  exists plan'. split_and!; try done; [auto|]. intros w [->|Hw]%elem_of_cons; auto.
Qed.

Lemma skeleton_plan_built t spec region budget :
  built_region t spec -> requests_built region spec -> N.of_nat (length (m_sedges spec)) <= budget ->
  exists plan, FBuildBinarySkeletonPlan region spec (CDPHyperPlan_New budget) = Some (true, plan) /\
    replayed spec budget (length (m_sedges spec)) plan /\
    seen_in plan (span 0 (length (m_atoms spec))).
Proof.
  intros Hb Hreq Hbud. unfold FBuildBinarySkeletonPlan.
  destruct (single_nodes_ok spec budget (N.of_nat <$> seq 0 (length (m_atoms spec))) (CDPHyperPlan_New budget))
    as (p1 & -> & Hi & Hl & Hbg & Hp & _ & Hs); [apply New_inv|done|done|done| |].
  { intros v (i & -> & Hi%elem_of_seq)%list_elem_of_fmap. lia. }
  destruct (replay_tree t spec budget region t 0 (m_sedges spec) 0 [] p1) as (p2 & Hk & Hrp & _ & Hsp);
    [done|done|by apply built_matches|done|lia|by rewrite (br_atoms _ _ Hb)| |].
  { split; [done..|]. intros v Hv. apply Hs, list_elem_of_fmap. exists (N.to_nat v). rewrite elem_of_seq. lia. }
  rewrite app_nil_r in Hk. change (N.of_nat 0) with 0 in Hk. rewrite Hk. cbn [skeleton_loop mbind option_bind].
  rewrite Nat.add_0_l in *. rewrite (br_atoms _ _ Hb) in *. change (length (leaves t)) with (width t) in *.
  exists p2. split_and!; [|done|done]. f_equal. f_equal. unfold CDPHyperPlan_Complete.
  rewrite (rp_live _ _ _ _ Hrp). pose proof (width_pos t).
  replace (N.of_nat (width t) =? 0) with false by (symmetry; apply N.eqb_neq; lia). cbn [orb].
  apply HasSeen_spec; [apply (rp_inv _ _ _ _ Hrp)|].
  replace (to_gset (PbsLowerNodes (BS := BS) (N.of_nat (width t)))) with (span 0 (width t)); [done|].
  apply set_eq. intros x. rewrite PbsLowerNodes_law, elem_of_span. lia.
Qed.

(** The last resort never fails.  When every original join has a join request,
    replaying the original tree gives a complete plan whose pairs are exactly the
    original joins, in their order, within its budget of one pair less than
    there are atoms. *)
Theorem skeleton_plan_complete root spec region
    (HB' : Build (BS := BS) (CS := CS) root CJoinRegionSpec_New = Some (true, spec))
    (Hreq : requests_built region spec) :
  exists plan, FBuildBinarySkeletonPlan region spec
      (CDPHyperPlan_New (N.of_nat (length (m_atoms spec)) - 1)) = Some (true, plan) /\
    m_pairs plan = cut_pairs 0 (m_sedges spec) /\ m_budget_exhausted plan = false.
Proof.
  apply Build_built in HB' as Hb. pose proof (built_matches _ _ Hb) as Hm.
  assert (Hlen : length (m_sedges spec) = (length (m_atoms spec) - 1)%nat).
  { rewrite <-(Forall2_length _ _ _ Hm), length_tree_edges. by rewrite (br_atoms _ _ Hb). }
  destruct (skeleton_plan_built _ spec region (N.of_nat (length (m_atoms spec)) - 1) Hb Hreq) as (plan & Hk & Hrp & _).
  { lia. }
  exists plan. split_and!; [done| |apply Hrp]. rewrite (rp_pairs _ _ _ _ Hrp). by rewrite take_ge by lia.
Qed.
End skeleton.

(** ** The selected plan can be materialized *)

Section usable_plans.
Context {BS CS : Type} {HB : NodeSet BS} {HC : NodeSet CS} {HD : DerivedProps CS} {HP : PredicateOps}.
Context {D W : Type} {HI : OperatorIdentity} {DD : Double D} {HE : EngineStats D W}.
(** [CXform::ExfDPHyperJoinRegion] *)
Context (ExfDPHyperJoinRegion : N).
Implicit Types (region : CDPHyperJoinRegion BS) (plan : CDPHyperPlan BS) (spec : CJoinRegionSpec BS).

(** A single node, or the nodes of one of the first [i] pairs. *)
Definition available (n : nat) plan (i : nat) (X : gset N) : Prop :=
  (exists v, v < N.of_nat n /\ X = {[v]}) \/
  (exists j pr, (j < i)%nat /\ m_pairs plan !! j = Some pr /\ X = pair_set pr).

(** What the materialization of a plan relies on: its pairs join disjoint sets of
    nodes that are available when their turn comes, each has a join request, and
    the last of them joins all nodes. *)
Record usable (n : nat) region plan : Prop := {
  us_sides : forall i pr, m_pairs plan !! i = Some pr ->
    to_gset (p_left pr) <> ∅ /\ to_gset (p_right pr) <> ∅ /\
    to_gset (p_left pr) ## to_gset (p_right pr) /\ pair_set pr ⊆ span 0 n;
  us_order : forall i pr, m_pairs plan !! i = Some pr ->
    available n plan i (to_gset (p_left pr)) /\ available n plan i (to_gset (p_right pr));
  us_request : forall i pr, m_pairs plan !! i = Some pr ->
    exists request, FBuildJoinRequest (p_left pr) (p_right pr) region = Some (Some request);
  us_complete : exists i pr, m_pairs plan !! i = Some pr /\ pair_set pr = span 0 n
}.

(** The budget a plan was made within: that of the enumeration, or, for the original
    tree, one pair less than there are atoms. *)
Definition within_budget (n : nat) (pair_budget : N) (strategy : EStrategy) plan : Prop :=
  N.of_nat (length (m_pairs plan)) <=
    match strategy with EsExhaustive | EsGraphSimplifier => pair_budget | EsBinarySkeleton => N.of_nat n - 1 end.

Lemma usable_intro filter g n region plan :
  plan_inv filter g plan -> NodeCount g = N.of_nat n -> (2 <= n)%nat -> seen_in plan (span 0 n) ->
  (forall i pr, m_pairs plan !! i = Some pr ->
     exists request, FBuildJoinRequest (p_left pr) (p_right pr) region = Some (Some request)) ->
  usable n region plan.
Proof.
  intros Hi Hn Hn2 Hs Hreq.
  assert (Hb : forall i X, built g plan i X -> available n plan i X).
  { intros i X. unfold built, available. by rewrite Hn. }
  split; [| |done|].
  - intros i pr Hpr. pose proof (pw_sides _ _ _ (pi_wf _ _ _ Hi i pr Hpr)) as [Hrg Hne Hd (k & Hk & _)].
    split_and!; [intros He; rewrite He in Hk; by apply not_elem_of_empty in Hk|done|done|].
    intros v Hv%Hrg. apply elem_of_span. lia.
  - intros i pr Hpr. destruct (pi_order _ _ _ Hi i pr Hpr) as [? ?]. by split; apply Hb.
  - apply (pi_seen _ _ _ Hi) in Hs as [(v & _ & Hv)|(j & pr & _ & Hj & ->)]; [|by exists j, pr].
    assert (Hsz : size (span 0 n) = 1%nat) by (by rewrite Hv, size_singleton). rewrite size_span in Hsz. lia.
Qed.

Lemma lower_nodes_span n : to_gset (PbsLowerNodes (BS := BS) (N.of_nat n)) = span 0 n.
Proof. apply set_eq. intros x. rewrite PbsLowerNodes_law, elem_of_span. lia. Qed.

Lemma complete_seen filter g n plan :
  plan_inv filter g plan -> CDPHyperPlan_Complete (N.of_nat n) plan = true -> seen_in plan (span 0 n).
Proof.
  intros Hi. unfold CDPHyperPlan_Complete. case_if; [done|]. rewrite <-lower_nodes_span.
  apply HasSeen_spec, Hi.
Qed.

(** Pairs that passed the filter of the region have a request. *)
Lemma filtered_request region g plan i pr :
  plan_inv (Some (pair_filter region)) g plan -> m_pairs plan !! i = Some pr ->
  exists request, FBuildJoinRequest (p_left pr) (p_right pr) region = Some (Some request).
Proof.
  intros Hi Hpr. pose proof (pi_wf _ _ _ Hi i pr Hpr) as Hw.
  destruct (m_connecting_edges pr) as [|e es] eqn:Ee; [by destruct (pw_edges _ _ _ Hw)|].
  destruct (pw_connects _ _ _ Hw e) as (_ & l & r & Hl & Hr & Ha); [rewrite Ee; left|].
  unfold accepts, pair_filter in Ha.
  rewrite (FBuildJoinRequest_proper l (p_left pr) Hl r (p_right pr) Hr region region eq_refl) in Ha.
  destruct (FPairApplicable l r e region) as [[[] ?]|]; try done.
  destruct (FBuildJoinRequest (p_left pr) (p_right pr) region) as [[rq|]|]; try done. by exists rq.
Qed.

Lemma filtered_usable region g n plan :
  plan_inv (Some (pair_filter region)) g plan -> NodeCount g = N.of_nat n -> (2 <= n)%nat ->
  CDPHyperPlan_Complete (N.of_nat n) plan = true -> usable n region plan.
Proof.
  intros Hi Hn Hn2 Hc. eapply usable_intro; [exact Hi|done|done|by eapply complete_seen|].
  intros i pr. by eapply filtered_request.
Qed.

Lemma skeleton_loop_total n region edges k plan :
  region_ready n region -> exists ok plan', skeleton_loop edges k region plan = Some (ok, plan') /\
    (ok = true -> forall edge, edge ∈ edges ->
       exists request, FBuildJoinRequest (m_eleft edge) (m_eright edge) region = Some (Some request)).
Proof.
  intros Hr. revert k plan. induction edges as [|e edges IH]; intros k plan; cbn [skeleton_loop].
  { exists true, plan. split; [done|]. by intros _ ? ?%elem_of_nil. }
  case_if; [by exists false, plan|].
  destruct (FBuildJoinRequest_total n region (m_eleft e) (m_eright e) Hr) as [[rq|] Hrq]; rewrite Hrq;
    cbn [mbind option_bind]; [|by exists false, plan].
  destruct (CDPHyperPlan_FoundSubgraphPair None (m_eleft e) (m_eright e) k plan) as [[] plan'];
    [by exists false, plan'|].
  destruct (IH (k + 1) plan') as (ok & plan2 & Hk & Hall). exists ok, plan2. split; [done|].
  intros Hok edge [->|Hin]%elem_of_cons; [by exists rq|by apply Hall].
Qed.

Lemma skeleton_total n region spec plan :
  region_ready n region -> exists ok plan', FBuildBinarySkeletonPlan region spec plan = Some (ok, plan') /\
    (ok = true -> requests_built region spec).
Proof.
  intros Hr. unfold FBuildBinarySkeletonPlan.
  destruct (single_nodes_loop _ _) as [[] p1]; [by exists false, p1|].
  destruct (skeleton_loop_total n region (m_sedges spec) 0 p1 Hr) as ([] & p2 & -> & Hok).
  - eexists _, p2. split; [done|]. intros _ edge Hin. by apply Hok.
  - by exists false, p2.
Qed.

Lemma SkeletonPlan_ok n region :
  region_ready n region ->
  exists res, SkeletonPlan region = Some res /\
    (forall plan, res = Some plan -> usable n region plan /\ N.of_nat (length (m_pairs plan)) <= N.of_nat n - 1) /\
    (forall spec, m_spec region = Some spec -> requests_built region spec -> is_Some res).
Proof.
  intros Hr. unfold SkeletonPlan. destruct (m_spec region) as [spec|] eqn:Hs; [|by exists None].
  destruct (ry_spec _ _ Hr spec Hs) as ([t Hb] & Hlen & _). destruct (ry_size _ _ Hr) as [Hc Hn2].
  assert (Hedges : length (m_sedges spec) = (n - 1)%nat).
  { rewrite <-(Forall2_length _ _ _ (built_matches _ _ Hb)), length_tree_edges, <-Hlen. by rewrite (br_atoms _ _ Hb). }
  set (budget := N.of_nat (length (m_components region)) - 1).
  assert (Hbud : N.of_nat (length (m_sedges spec)) <= budget) by (unfold budget; lia).
  assert (Hgood : requests_built region spec -> exists plan,
    FBuildBinarySkeletonPlan region spec (CDPHyperPlan_New budget) = Some (true, plan) /\
    usable n region plan /\ N.of_nat (length (m_pairs plan)) <= N.of_nat n - 1).
  { intros Hreq. destruct (skeleton_plan_built t spec region budget Hb Hreq Hbud) as (plan & Hk & Hrp & Hsp).
    exists plan. split; [done|]. rewrite Hlen in Hsp. split.
    2: { rewrite (rp_pairs _ _ _ _ Hrp). unfold cut_pairs. rewrite length_imap, length_take. lia. }
    eapply usable_intro; [apply (rp_inv _ _ _ _ Hrp)|by rewrite skeleton_nodes, Hlen|done|done|].
    intros i pr Hpr. rewrite (rp_pairs _ _ _ _ Hrp), take_ge in Hpr by lia.
    unfold cut_pairs in Hpr. rewrite list_lookup_imap in Hpr. apply fmap_Some in Hpr as (e & He & ->).
    apply Hreq. by eapply list_elem_of_lookup_2. }
  destruct (skeleton_total n region spec (CDPHyperPlan_New budget) Hr) as ([] & plan & Hk & Hok).
  - destruct (Hgood (Hok eq_refl)) as (plan' & Hk' & Hu). rewrite Hk' in Hk. injection Hk as ->.
    rewrite Hk'. exists (Some plan). split_and!; [done| |by eexists]. by intros ? [= <-].
  - rewrite Hk. exists None. split_and!; [done..|]. intros s [= <-] (plan' & Hk' & _)%Hgood. by rewrite Hk' in Hk.
Qed.

(** The graph plays no part in the requests. *)
Lemma FBuildJoinRequest_graph (l r : BS) g region :
  FBuildJoinRequest l r (set_graph g region) = FBuildJoinRequest l r region.
Proof.
  unfold FBuildJoinRequest. change (FDependencyApplicable l r (set_graph g region)) with (FDependencyApplicable l r region).
  change (mixed_joins (set_graph g region)) with (mixed_joins region).
  destruct (FDependencyApplicable l r region) as [[? ?]|]; [|done].
  destruct (mixed_joins region) as [spec|] eqn:Hm; [|done].
  assert (Ha : forall ids, applicable_loop l r ids (set_graph g region) = applicable_loop l r ids region).
  { induction ids as [|id ids IH]; cbn [applicable_loop]; [done|]. by rewrite IH. }
  unfold ApplicableEdges. change (mixed_joins (set_graph g region)) with (mixed_joins region). by rewrite Hm, Ha.
Qed.

Lemma usable_graph n region g plan : usable n region plan -> usable n (set_graph g region) plan.
Proof.
  intros [Hs Ho Hq Hc]. split; [exact Hs|exact Ho| |exact Hc]. intros i pr. rewrite FBuildJoinRequest_graph. apply Hq.
Qed.

Lemma usable_graph_inv n region g plan : usable n (set_graph g region) plan -> usable n region plan.
Proof.
  intros [Hs Ho Hq Hc]. split; [exact Hs|exact Ho| |exact Hc]. intros i pr. rewrite <-(FBuildJoinRequest_graph _ _ g). apply Hq.
Qed.

Lemma requests_graph spec region g : requests_built region spec -> requests_built (set_graph g region) spec.
Proof. intros Hreq edge He. rewrite FBuildJoinRequest_graph. by apply Hreq. Qed.

Lemma ready_graph n region g :
  region_ready n region -> graph_wf g -> NodeCount g = N.of_nat n -> region_ready n (set_graph g region).
Proof. intros [Hs _ _ Hq Hc] Hwf Hn. split; [exact Hs|exact Hwf|exact Hn|exact Hq|exact Hc]. Qed.

Lemma SimplifiedPlan_ok n pair_budget region (engine : CEngine W) :
  region_ready n region ->
  exists res g' engine', SimplifiedPlan ExfDPHyperJoinRegion pair_budget region engine =
      Some (res, set_graph g' region, engine') /\
    graph_wf g' /\ NodeCount g' = N.of_nat n /\
    (forall plan, res = Some plan -> usable n region plan /\ N.of_nat (length (m_pairs plan)) <= pair_budget).
Proof.
  intros Hr. unfold SimplifiedPlan. cbv zeta. set (filter := Some (pair_filter region)).
  set (edge_filter := fun edge_id => FEqualityEdge edge_id region).
  set (m_join_cost := cost_callback ExfDPHyperJoinRegion region). set (cache := CDPHyperJoinCostCache_New region engine).
  destruct (ry_size _ _ Hr) as [Hc Hn2]. pose proof (ry_nodes _ _ Hr) as Hn.
  destruct (simplify_run_ok pair_budget filter edge_filter m_join_cost (m_graph region) cache (ry_wf _ _ Hr))
    as ([ok st] & -> & Hi & _). cbn [mbind option_bind].
  assert (Hst : forall st' : CDPHyperGraphSimplifier BS D (CDPHyperJoinCostCache BS D W),
    simp_inv (NodeCount (m_graph region)) (m_edges (m_graph region)) st' ->
    graph_wf (s_graph st') /\ NodeCount (s_graph st') = N.of_nat n).
  { intros st' Hi'. split; [apply Hi'|]. rewrite <-Hn. apply (si_nodes _ _ _ Hi'). }
  destruct (Hst st Hi) as [Hwf Hns]. destruct ok; [|exists None, (s_graph st), (m_engine (s_cost st)); by split_and!].
  destruct (plan_enumerate filter (s_graph st) pair_budget Hwf) as (aborted & plan & -> & Hp & _ & Hpb).
  cbn [mbind option_bind]. case_if; breflect.
  - exists (Some plan), (s_graph st), (m_engine (s_cost st)). split_and!; [done..|]. intros ? [= <-]. rewrite Hc in *.
    split; [by eapply filtered_usable|]. rewrite <-Hpb. apply Hp.
  - destruct (Restore_ok edge_filter m_join_cost _ _ st Hi) as (st' & -> & Hi' & _). cbn [mbind option_bind].
    destruct (Hst st' Hi') as [? ?]. exists None, (s_graph st'), (m_engine (s_cost st')). by split_and!.
Qed.

Lemma SelectPlan_ok n pair_budget region (engine : CEngine W) :
  region_ready n region ->
  exists res g' engine' aborted exhaustive,
    SelectPlan ExfDPHyperJoinRegion pair_budget region engine = Some (res, set_graph g' region, engine') /\
    graph_wf g' /\ NodeCount g' = N.of_nat n /\
    (forall strategy plan, res = Some (strategy, plan) ->
       usable n region plan /\ within_budget n pair_budget strategy plan) /\
    Enumerate (H0 := plan_receiver (Some (pair_filter region))) (m_graph region)
      (CDPHyperPlan_New pair_budget) = Some (aborted, exhaustive) /\
    (res = None -> CDPHyperPlan_Complete (N.of_nat n) exhaustive = false /\
       forall spec, m_spec region = Some spec -> requests_built region spec -> aborted = false).
Proof.
  intros Hr. unfold SelectPlan. destruct (ry_size _ _ Hr) as [Hc Hn2].
  destruct (plan_enumerate (Some (pair_filter region)) (m_graph region) pair_budget (ry_wf _ _ Hr))
    as (aborted & exhaustive & -> & Hp & Hx & Hpb). cbn [mbind option_bind]. rewrite Hc, Hx.
  set (complete := CDPHyperPlan_Complete _ exhaustive).
  assert (Hsame : set_graph (m_graph region) region = region) by by destruct region.
  destruct (SimplifiedPlan_ok n pair_budget region engine Hr) as (gp & g' & en & Hgp & Hwf' & Hn' & Hu').
  assert (Hgraph : exists gp g' en, (if negb complete && aborted
      then SimplifiedPlan ExfDPHyperJoinRegion pair_budget region engine
      else Some (None, region, engine)) = Some (gp, set_graph g' region, en) /\ graph_wf g' /\ NodeCount g' = N.of_nat n /\
      (forall plan, gp = Some plan -> usable n region plan /\ N.of_nat (length (m_pairs plan)) <= pair_budget)).
  { destruct (negb complete && aborted); [by exists gp, g', en|]. exists None, (m_graph region), engine.
    rewrite Hsame. split_and!; [done|apply Hr|apply Hr|done]. }
  clear gp g' en Hgp Hwf' Hn' Hu'. destruct Hgraph as (gp & g' & en & -> & Hwf' & Hn' & Hu'). cbn [mbind option_bind].
  pose proof (ready_graph n region g' Hr Hwf' Hn') as Hr'.
  destruct (SkeletonPlan_ok n (set_graph g' region) Hr') as (sp & Hsp & Hsu & Hsn).
  assert (Hskel : exists sp', (if negb complete && negb (bool_decide (is_Some gp)) && aborted
      then SkeletonPlan (set_graph g' region) else Some None) = Some sp' /\
      (forall plan, sp' = Some plan -> usable n region plan /\ N.of_nat (length (m_pairs plan)) <= N.of_nat n - 1) /\
      (complete = false -> gp = None -> aborted = true ->
         forall spec, m_spec region = Some spec -> requests_built region spec -> is_Some sp')).
  { destruct (negb complete && negb (bool_decide (is_Some gp)) && aborted) eqn:Hcond.
    - exists sp. split_and!; [done|by intros plan ->; destruct (Hsu plan eq_refl); split; [eapply usable_graph_inv|]|].
      intros _ _ _ spec Hs Hreq. apply (Hsn spec Hs), requests_graph, Hreq.
    - exists None. split_and!; [done..|]. intros -> -> ->. by rewrite bool_decide_false in Hcond. }
  destruct Hskel as (sp' & -> & Hsu' & Hsn'). cbn [mbind option_bind].
  pose proof (filtered_usable region (m_graph region) n exhaustive Hp (ry_nodes _ _ Hr) Hn2) as Hexh.
  fold complete in Hexh.
  rewrite (andb_negb_r aborted), orb_false_r.
  destruct gp as [gplan|]; [|destruct sp' as [splan|]].
  - rewrite bool_decide_true by done. cbn [negb]. rewrite andb_false_r. cbn [default].
    eexists _, g', en, aborted, exhaustive. split_and!; [done..| |done|done].
    intros s plan [= <- <-]. by apply Hu'.
  - rewrite bool_decide_true by done. cbn [negb]. rewrite andb_false_r. cbn [default].
    eexists _, g', en, aborted, exhaustive. split_and!; [done..| |done|done].
    intros s plan [= <- <-]. by apply Hsu'.
  - rewrite bool_decide_false by (by intros [? [=]]). cbn [negb]. rewrite andb_true_r. destruct complete eqn:Hcomp; cbn [negb default].
    + eexists _, g', en, aborted, exhaustive. split_and!; [done..| |done|done]. intros s plan [= <- <-].
      split; [by apply Hexh|]. unfold within_budget. rewrite <-Hpb. apply Hp.
    + eexists None, g', en, aborted, exhaustive. split_and!; [done..|]. intros _. split; [exact Hcomp|].
      intros spec Hs Hreq. destruct aborted; [|done]. by destruct (Hsn' eq_refl eq_refl eq_refl spec Hs Hreq).
Qed.
End usable_plans.

(** ** From the query to the plan *)

Section pipeline.
Context {BS CS : Type} {HB : NodeSet BS} {HC : NodeSet CS} {HD : DerivedProps CS} {HP : PredicateOps}.
Context {D W : Type} {HI : OperatorIdentity} {DD : Double D} {HE : EngineStats D W}.
(** [CXform::ExfDPHyperJoinRegion] *)
Context (ExfDPHyperJoinRegion : N).
Implicit Types (region : CDPHyperJoinRegion BS) (spec : CJoinRegionSpec BS) (root : CExpression).

(** The joins the enumeration takes over are those the conflict detector
    supports. *)
Lemma FSupportedDPHyperJoin_cdc op_id : FSupportedDPHyperJoin op_id = FCDCSupportedJoin op_id.
Proof. by destruct op_id. Qed.

(** Every original join of a region of mixed joins with local predicates and no
    lateral references has a request. *)
Lemma requests_built_local root spec region :
  Build (BS := BS) (CS := CS) root CJoinRegionSpec_New = Some (true, spec) ->
  mixed_joins region = Some spec -> m_cdc_supported spec = true -> local_predicates spec ->
  m_dependency_count spec = 0 -> requests_built region spec.
Proof.
  intros HB' Hm Hcdc Hloc Hdep edge [i Hi]%list_elem_of_lookup.
  rewrite (original_cut_built root spec region i edge HB' Hm Hcdc Hloc Hi).
  unfold mixed_joins in Hm. destruct (m_spec region) as [s|] eqn:Hs; [|done].
  destruct (negb _); [|done]. injection Hm as ->. unfold FDependencyApplicable. rewrite Hs, Hdep.
  unfold original_answer. cbn. by destruct (decide _); eexists.
Qed.

(** C30: Plan selection for a region made from a query.  It always returns, and the
    plan it selects, whether the exhaustive one, that of the simplified graph or
    the original tree, has at most the pairs of its budget (for the original tree
    one pair less than there are atoms) and can be materialized: its pairs join
    disjoint sets of atoms that are single atoms or were joined by an earlier pair,
    each pair has a join request, and some pair joins all atoms.  It selects none only when the
    exhaustive enumeration found no complete plan; and that is never for lack of
    pair budget when the original joins have join requests. *)
Theorem SelectPlan_usable root spec edge_budget region pair_budget (engine : CEngine W)
    (HB' : Build (BS := BS) (CS := CS) root CJoinRegionSpec_New = Some (true, spec))
    (Hcdc : m_cdc_supported spec = true) (Hbud : edge_budget < 2 ^ ULONG_BITS)
    (Hn : N.of_nat (length (m_atoms spec)) < 2 ^ ULONG_BITS)
    (Hbuild : BuildRegion (CDPHyperJoinRegion_FromSpec spec edge_budget) = Some (true, region)) :
  exists res region' engine' aborted exhaustive,
    SelectPlan ExfDPHyperJoinRegion pair_budget region engine = Some (res, region', engine') /\ static region' = static region /\
    (forall strategy plan, res = Some (strategy, plan) ->
       usable (length (m_atoms spec)) region plan /\ within_budget (length (m_atoms spec)) pair_budget strategy plan) /\
    Enumerate (H0 := plan_receiver (Some (pair_filter region))) (m_graph region)
      (CDPHyperPlan_New pair_budget) = Some (aborted, exhaustive) /\
    (res = None ->
       CDPHyperPlan_Complete (N.of_nat (length (m_atoms spec))) exhaustive = false /\
       (requests_built region spec -> aborted = false)).
Proof.
  pose proof (built_ready root spec edge_budget region HB' Hcdc Hbud Hn Hbuild) as Hr.
  destruct (SelectPlan_ok ExfDPHyperJoinRegion _ pair_budget region engine Hr)
    as (res & g' & engine' & aborted & exhaustive & Hs & _ & _ & Hu & He & Hnone).
  exists res, (set_graph g' region), engine', aborted, exhaustive. split_and!; [done|done|done|done|].
  intros Hres. destruct (Hnone Hres) as [Hc Hab]. split; [done|]. apply Hab.
  destruct (BuildRegion_spec (CDPHyperJoinRegion_FromSpec spec edge_budget)
    (FromSpec_region_ok (CS := CS) root spec edge_budget HB' (or_intror Hcdc) Hbud)) as (want & ok & jr2 & _ & Hk & Hb).
  rewrite Hbuild in Hk. injection Hk as <- <-. by pose proof (rb_static _ _ _ _ Hb) as [= _ _ _ -> _].
Qed.
End pipeline.

(** ** Witnesses *)

Lemma sample_requests : requests_built sample_mixed_result sample_spec.
Proof.
  assert (Hb : forallb (fun edge => match FBuildJoinRequest (m_eleft edge) (m_eright edge) sample_mixed_result with
      | Some (Some _) => true | _ => false end) (m_sedges sample_spec) = true) by (vm_compute; reflexivity).
  rewrite forallb_forall in Hb. intros edge He%list_elem_of_In%Hb.
  destruct (FBuildJoinRequest _ _ _) as [[rq|]|]; [by exists rq|done..].
Qed.

Lemma skeleton_plan_complete_witness :
  exists plan, FBuildBinarySkeletonPlan sample_mixed_result sample_spec (CDPHyperPlan_New 2) = Some (true, plan) /\
    m_pairs plan = cut_pairs 0 (m_sedges sample_spec).
Proof.
  destruct (skeleton_plan_complete (HD := sample_props) sample_root sample_spec sample_mixed_result
    sample_spec_built sample_requests) as (plan & Hk & Hp & _).
  exists plan. split; [|exact Hp].
  assert (length (m_atoms sample_spec) = 3%nat) as Hl by (vm_compute; reflexivity). rewrite Hl in Hk. exact Hk.
Defined.

(** One pair of budget is too few for three atoms: the original tree is taken. *)
Abbreviation sample_select := (SelectPlan (DD := N_double) (HP := sample_ops) (HI := sample_identity) (HE := sample_stats) 42 1 sample_mixed_result sample_engine).
Definition sample_selection : option (EStrategy * list (SPair (gset N))) :=
  match sample_select with
  | Some (Some (strategy, plan), _, _) => Some (strategy, m_pairs plan)
  | _ => None
  end.

Lemma SelectPlan_usable_witness :
  sample_selection = Some (EsBinarySkeleton, cut_pairs 0 (m_sedges sample_spec)) /\
  exists res region' engine', sample_select = Some (res, region', engine') /\
    forall strategy plan, res = Some (strategy, plan) ->
      usable (length (m_atoms sample_spec)) sample_mixed_result plan /\
      within_budget (length (m_atoms sample_spec)) 1 strategy plan.
Proof.
  split; [vm_compute; reflexivity|].
  destruct (SelectPlan_usable (HD := sample_props) (HP := sample_ops) (DD := N_double) (HI := sample_identity) (HE := sample_stats) 42 sample_root sample_spec 10
    sample_mixed_result 1 sample_engine sample_spec_built) as (res & region' & engine' & a & e & Hs & _ & Hu & _).
  - vm_compute. reflexivity.
  - reflexivity.
  - vm_compute. reflexivity.
  - vm_compute. reflexivity.
  - exists res, region', engine'. split; [exact Hs|exact Hu].
Defined.
