(* ===== verification/ExpressionEquality.v ===== *)
(** * Equality and hashing of expressions

    Model of the comparison and the hashing of expression trees
    (libgpopt/src/operators/CExpression.cpp, libgpopt/src/base/CUtils.cpp): the
    exact comparison [CExpression::Matches], the one that ignores the order of
    inputs where it does not matter, [CUtils::Equals], which counts occurrences,
    and the two hash functions.  The comparison of pointers that comes first in
    [CUtils::Equals] is left out: on one object the rest answers [true] too. *)

From S2P Require Import Prelude BitVector BitSet NodeSet Expression.

Open Scope N_scope.

Section equality.
Context {HO : OperatorIdentity}.
Implicit Types (e l r : CExpression) (op : COperator).

(** ** Definitions *)

Fixpoint CExpression_Matches l r : bool :=
  match l, r with
  | MkExpression op1 children1 _, MkExpression op2 children2 _ =>
      OpMatches op1 op2 && (length children1 =? length children2)%nat &&
      (fix go (l1 l2 : list CExpression) : bool :=
         match l1, l2 with
         | child1 :: l1, child2 :: l2 => if CExpression_Matches child1 child2 then go l1 l2 else false
         | _, _ => true
         end) children1 children2
  end.

Fixpoint CExpression_HashValue e : N :=
  match e with
  | MkExpression op children _ =>
      fold_left (fun hash child => CombineHashes hash (CExpression_HashValue child)) children (OpHashValue op)
  end.

Definition UlHashDedup e : N :=
  fold_left (fun hash child => if FInputOrderSensitive (Pop e)
                               then CombineHashes hash (CExpression_HashValue child)
                               else N.lxor hash (CExpression_HashValue child))
    (Children e) (OpHashValue (Pop e)).

(** [equals] is [Equals] of the expression looked for. *)
Definition UlOccurrences (equals : CExpression -> bool) (exprs : list CExpression) : nat :=
  length (filter (fun e => equals e = true) exprs).

Fixpoint Equals l r : bool :=
  match l, r with
  | MkExpression op1 children1 _, MkExpression op2 children2 _ =>
      if negb (length children1 =? length children2)%nat || negb (OpMatches op1 op2) then false else
      if (0 <? length children1)%nat && FInputOrderSensitive op1
      then (* FMatchChildrenOrdered *)
        (fix go (l1 l2 : list CExpression) : bool :=
           match l1, l2 with
           | child1 :: l1, child2 :: l2 => if Equals child1 child2 then go l1 l2 else false
           | _, _ => true
           end) children1 children2
      else (* FMatchChildrenUnordered *)
        forallb (fun child => UlOccurrences (Equals child) children1 =? UlOccurrences (Equals child) children2)%nat
          children1
  end.

(** [CUtils::Equals] of expressions that may be null. *)
Definition EqualsOpt (l r : option CExpression) : bool :=
  match l, r with
  | Some l, Some r => Equals l r
  | None, None => true
  | _, _ => false
  end.

Definition FEqualAny e (exprs : list CExpression) : bool := existsb (Equals e) exprs.

(** The loop of [CUtils::Contains]; the sizes are compared first. *)
Definition Contains (fst snd : list CExpression) : bool :=
  if (length fst <? length snd)%nat then false else forallb (fun e => FEqualAny e fst) snd.

(** ** What the comparisons mean *)

(** Equal trees. *)
Inductive same_tree : CExpression -> CExpression -> Prop :=
| same_tree_node op1 op2 children1 children2 g1 g2 :
    OpMatches op1 op2 = true -> Forall2 same_tree children1 children2 ->
    same_tree (MkExpression op1 children1 g1) (MkExpression op2 children2 g2).

(** Trees equal up to the order of inputs that does not matter. *)
Inductive equivalent : CExpression -> CExpression -> Prop :=
| equivalent_node op1 op2 children1 children2 children g1 g2 :
    OpMatches op1 op2 = true -> children ≡ₚ children1 ->
    (FInputOrderSensitive op1 = true -> children = children1) ->
    Forall2 equivalent children children2 ->
    equivalent (MkExpression op1 children1 g1) (MkExpression op2 children2 g2).

Section laws.
Context {HL : OperatorLaws}.

Lemma Matches_same_tree l r : CExpression_Matches l r = true <-> same_tree l r.
Proof.
  revert r. induction l as [op1 c1 g1 IH] using CExpression_children_ind. intros [op2 c2 g2].
  cbn [CExpression_Matches]. rewrite !andb_true_iff, Nat.eqb_eq.
  match goal with |- ((_ /\ _) /\ ?go = true) <-> _ => assert (Hgo : length c1 = length c2 ->
    go = true <-> Forall2 same_tree c1 c2) end.
  { revert c2. induction IH as [|x c1 Hx IH IHc]; intros [|y c2]; cbn; try done.
    intros [= Hl]. rewrite Forall2_cons, <-Hx, <-(IHc c2 Hl). by destruct (CExpression_Matches x y); naive_solver. }
  split.
  - intros [[Hop Hl] Hgo']. constructor; [done|]. by apply Hgo.
  - inversion 1; subst. assert (length c1 = length c2) by (by eapply Forall2_length). split_and!; [done..|]. by apply Hgo.
Qed.

Lemma same_tree_refl e : same_tree e e.
Proof.
  induction e as [op c g IH] using CExpression_children_ind. constructor; [apply OpMatches_refl|].
  by apply Forall_Forall2_diag.
Qed.

Lemma same_tree_sym l r : same_tree l r -> same_tree r l.
Proof.
  revert r. induction l as [op1 c1 g1 IH] using CExpression_children_ind. intros r.
  inversion 1 as [? op2 ? c2 ? g2 Hop Hc]; subst. constructor; [by apply OpMatches_sym|]. clear -IH Hc.
  induction Hc as [|x y c1 c2 Hxy Hc IHc]; [constructor|]. apply Forall_cons in IH as [Hx IH]. constructor; auto.
Qed.

Lemma same_tree_trans e1 e2 e3 : same_tree e1 e2 -> same_tree e2 e3 -> same_tree e1 e3.
Proof.
  revert e2 e3. induction e1 as [op1 c1 g1 IH] using CExpression_children_ind. intros e2 e3.
  inversion 1 as [? op2 ? c2 ? g2 Hop Hc]; subst. inversion 1 as [? op3 ? c3 ? g3 Hop' Hc']; subst.
  constructor; [by eapply OpMatches_trans|]. clear -IH Hc Hc'. revert c3 Hc'.
  induction Hc as [|x y c1 c2 Hxy Hc IHc]; intros c3 Hc'; inversion Hc'; subst; [constructor|].
  apply Forall_cons in IH as [Hx IH]. constructor; [by eapply Hx|by apply IHc].
Qed.

#[global] Instance same_tree_equivalence : Equivalence same_tree.
Proof. split; [exact same_tree_refl|exact same_tree_sym|exact same_tree_trans]. Qed.

(** Equal trees hash alike. *)
Lemma same_tree_hash l r : same_tree l r -> CExpression_HashValue l = CExpression_HashValue r.
Proof.
  revert r. induction l as [op1 c1 g1 IH] using CExpression_children_ind. intros r.
  inversion 1 as [? op2 ? c2 ? g2 Hop Hc]; subst. cbn [CExpression_HashValue]. rewrite (OpMatches_hash _ _ Hop).
  generalize (OpHashValue op2). clear -IH Hc. induction Hc as [|x y c1 c2 Hxy Hc IHc]; intros h; [done|].
  apply Forall_cons in IH as [Hx IH]. cbn. by rewrite (Hx y Hxy), IHc.
Qed.

Lemma same_tree_dedup l r : same_tree l r -> UlHashDedup l = UlHashDedup r.
Proof.
  inversion 1 as [op1 op2 c1 c2 g1 g2 Hop Hc]; subst. unfold UlHashDedup. cbn.
  rewrite (OpMatches_hash _ _ Hop), (OpMatches_order _ _ Hop). generalize (OpHashValue op2).
  clear -Hc HL. induction Hc as [|x y c1 c2 Hxy Hc IHc]; intros h; [done|]. cbn. by rewrite (same_tree_hash _ _ Hxy), IHc.
Qed.

(** ** Counting occurrences compares up to a permutation *)

Lemma UlOccurrences_cons (p : CExpression -> bool) x (l : list CExpression) :
  UlOccurrences p (x :: l) = ((if p x then 1 else 0) + UlOccurrences p l)%nat.
Proof. unfold UlOccurrences. rewrite filter_cons. destruct (p x); [by rewrite decide_True|by rewrite decide_False]. Qed.

Lemma UlOccurrences_perm (p : CExpression -> bool) (l l' : list CExpression) :
  l ≡ₚ l' -> UlOccurrences p l = UlOccurrences p l'.
Proof. intros Hp. unfold UlOccurrences. by rewrite Hp. Qed.

(** An equivalence on the expressions of the lists, as [Equals] is on the children
    of an expression by induction. *)
Lemma occurrences_permutation (R : CExpression -> CExpression -> Prop) (p : CExpression -> CExpression -> bool)
    (l1 l2 : list CExpression) :
  Equivalence R -> (forall x, x ∈ l1 -> forall y, p x y = true <-> R x y) -> length l1 = length l2 ->
  (forall x, x ∈ l1 -> UlOccurrences (p x) l1 = UlOccurrences (p x) l2) <->
  exists k, k ≡ₚ l1 /\ Forall2 R k l2.
Proof.
  intros HR. revert l2. induction l1 as [|x l1 IH]; intros l2 Hp Hl.
  { destruct l2; [|done]. split; [by exists []|by intros _ x ?%elem_of_nil]. }
  assert (Hxy : forall y z, z ∈ x :: l1 -> R x y -> p z x = p z y).
  { intros y z Hz Hy. apply bool_iff_eq. rewrite !(Hp z) by done. by rewrite Hy. }
  split.
  - intros Hc. pose proof (Hc x ltac:(left)) as Hx. rewrite UlOccurrences_cons in Hx.
    assert (Hxx : p x x = true) by (apply (Hp x); [left|done]). rewrite Hxx in Hx.
    destruct (filter (fun e => p x e = true) l2) as [|y f] eqn:Hf; [unfold UlOccurrences in Hx at 2; rewrite Hf in Hx; cbn in Hx; lia|].
    assert (Hy : y ∈ filter (fun e => p x e = true) l2) by (rewrite Hf; left).
    apply list_elem_of_filter in Hy as [Hy Hin]. apply (Hp x) in Hy; [|left].
    apply elem_of_Permutation in Hin as [l2' Hl2].
    destruct (proj1 (IH l2' (fun z Hz => Hp z (list_elem_of_further z x l1 Hz))
      ltac:(rewrite Hl2 in Hl; cbn in Hl; lia))) as (k' & Hpl & Hfl).
    { intros z Hz. specialize (Hc z ltac:(by right)). rewrite (UlOccurrences_perm _ _ _ Hl2), !UlOccurrences_cons in Hc.
      rewrite (Hxy y z) in Hc by (done || by right). lia. }
    assert (Hcons : Forall2 (flip R) (y :: l2') (x :: k')) by (constructor; [done|by apply Forall2_flip]).
    destruct (Permutation_Forall2 (symmetry Hl2) Hcons) as (k & Hk & Hf2).
    exists k. split; [by rewrite <-Hk, Hpl|]. by apply Forall2_flip.
  - intros (k & Hpl & Hfl) z Hz. rewrite <-(UlOccurrences_perm _ _ _ Hpl).
    assert (Hall : forall w, R z w <-> p z w = true) by (intros w; symmetry; by apply Hp).
    clear -Hfl Hall HR. induction Hfl as [|a b k l2 Hab Hfl IHf]; [done|]. rewrite !UlOccurrences_cons, IHf.
    f_equal. assert (p z a = p z b) as -> by (apply bool_iff_eq; rewrite <-!Hall; by rewrite Hab). done.
Qed.

(** ** [equivalent] is an equivalence *)

Lemma equivalent_refl e : equivalent e e.
Proof.
  induction e as [op c g IH] using CExpression_children_ind. econstructor; [apply OpMatches_refl|done|done|].
  by apply Forall_Forall2_diag.
Qed.

(** The children of equivalent expressions, in an order of the first ones. *)
Lemma equivalent_inv op1 children1 g1 r :
  equivalent (MkExpression op1 children1 g1) r -> exists children,
    OpMatches op1 (Pop r) = true /\ children ≡ₚ children1 /\
    (FInputOrderSensitive op1 = true -> children = children1) /\ Forall2 equivalent children (Children r).
Proof. inversion 1; subst. by eexists. Qed.

Lemma equivalent_sym l r : equivalent l r -> equivalent r l.
Proof.
  revert r. induction l as [op1 c1 g1 IH] using CExpression_children_ind. intros [op2 c2 g2].
  intros (c & Hop & Hp & Ho & Hc)%equivalent_inv. cbn in Hop, Hc.
  assert (Hc' : Forall2 equivalent c2 c).
  { rewrite <-Hp in IH. clear -IH Hc. induction Hc as [|x y c c2 Hxy Hc IHc]; [constructor|].
    apply Forall_cons in IH as [Hx IH]. constructor; auto. }
  pose proof (OpMatches_sym _ _ Hop) as Hop'. destruct (FInputOrderSensitive op2) eqn:Hs.
  { rewrite (OpMatches_order _ _ Hop), Hs in Ho. specialize (Ho eq_refl). subst c. by apply (equivalent_node _ _ _ _ c2). }
  apply Forall2_flip in Hc'. destruct (Permutation_Forall2 Hp Hc') as (k & Hk & Hf). apply Forall2_flip in Hf.
  apply (equivalent_node _ _ _ _ k); [done|done|congruence|done].
Qed.

Lemma equivalent_trans e1 e2 e3 : equivalent e1 e2 -> equivalent e2 e3 -> equivalent e1 e3.
Proof.
  revert e2 e3. induction e1 as [op1 c1 g1 IH] using CExpression_children_ind. intros [op2 c2 g2] [op3 c3 g3].
  intros (c & Hop & Hp & Ho & Hc)%equivalent_inv (d & Hop' & Hp' & Ho' & Hd)%equivalent_inv. cbn in *.
  assert (Htrans : forall k, k ≡ₚ c1 -> forall d, Forall2 equivalent k d -> forall c3, Forall2 equivalent d c3 ->
    Forall2 equivalent k c3).
  { intros k Hk. rewrite <-Hk in IH. clear -IH. induction IH as [|x k Hx IH IHk]; intros d Hkd c3 Hdc;
      inversion Hkd; subst; inversion Hdc; subst; [constructor|]. constructor; [by eapply Hx|by eapply IHk]. }
  pose proof (OpMatches_trans _ _ _ Hop Hop') as Hop3. pose proof (OpMatches_order _ _ Hop) as Hord.
  destruct (FInputOrderSensitive op1) eqn:Hs.
  { specialize (Ho eq_refl). specialize (Ho' (eq_sym Hord)). subst c d. apply (equivalent_node _ _ _ _ c1); [done..|]. by eapply Htrans. }
  apply Forall2_flip in Hc. destruct (Permutation_Forall2 (symmetry Hp') Hc) as (k & Hk & Hf). apply Forall2_flip in Hf.
  assert (Hkc : k ≡ₚ c1) by (by rewrite <-Hk). apply (equivalent_node _ _ _ _ k); [done|done|congruence|]. by eapply Htrans.
Qed.

#[global] Instance equivalent_equivalence : Equivalence equivalent.
Proof. split; [exact equivalent_refl|exact equivalent_sym|exact equivalent_trans]. Qed.

Lemma same_tree_equivalent l r : same_tree l r -> equivalent l r.
Proof.
  revert r. induction l as [op1 c1 g1 IH] using CExpression_children_ind. intros r.
  inversion 1 as [? op2 ? c2 ? g2 Hop Hc]; subst. apply (equivalent_node _ _ _ _ c1); [done..|]. clear -IH Hc.
  induction Hc as [|x y c1 c2 Hxy Hc IHc]; [constructor|]. apply Forall_cons in IH as [Hx IH]. constructor; auto.
Qed.

Lemma Equals_iff l r : Equals l r = true <-> equivalent l r.
Proof.
  revert r. induction l as [op1 c1 g1 IH] using CExpression_children_ind. intros [op2 c2 g2]. cbn [Equals].
  destruct (Nat.eqb_spec (length c1) (length c2)) as [Hl|Hl]; cbn [negb orb].
  2: { split; [done|]. intros (c & _ & Hp & _ & Hc)%equivalent_inv. apply Permutation_length in Hp.
       apply Forall2_length in Hc. cbn in Hc. lia. }
  destruct (OpMatches op1 op2) eqn:Hop; cbn [negb].
  2: { split; [done|]. intros (c & Hm & _)%equivalent_inv. cbn in Hm. congruence. }
  destruct (FInputOrderSensitive op1) eqn:Hs; [rewrite andb_true_r|rewrite andb_false_r].
  - match goal with |- (if _ then ?go else _) = true <-> _ => assert (Hgo : go = true <-> Forall2 equivalent c1 c2) end.
    { revert c2 Hl. clear -IH. induction IH as [|x c1 Hx IH IHc]; intros [|y c2]; cbn; try done.
      intros [= Hl]. rewrite Forall2_cons, <-Hx, <-(IHc c2 Hl). by destruct (Equals x y); naive_solver. }
    assert (Heq : equivalent (MkExpression op1 c1 g1) (MkExpression op2 c2 g2) <-> Forall2 equivalent c1 c2).
    { split; [|by apply equivalent_node]. intros (c & _ & _ & Ho & Hc)%equivalent_inv. cbn in Hc. by rewrite <-Ho. }
    rewrite Heq. destruct (0 <? length c1)%nat eqn:H0; [done|]. apply Nat.ltb_ge in H0. destruct c1; [|cbn in H0; lia].
    destruct c2; [|done]. by split; [constructor|].
  - rewrite forallb_forall.
    assert (Hp : forall x, x ∈ c1 -> forall y, Equals x y = true <-> equivalent x y).
    { intros x Hx. rewrite Forall_forall in IH. by apply IH. }
    pose proof (occurrences_permutation equivalent Equals c1 c2 _ Hp Hl) as Hocc. split.
    + intros Hc. destruct (proj1 Hocc) as (k & Hk & Hf); [|by apply (equivalent_node _ _ _ _ k); [|done|congruence|]].
      intros x Hx%list_elem_of_In%Hc. by apply Nat.eqb_eq.
    + intros (k & _ & Hk & _ & Hf)%equivalent_inv x Hx%list_elem_of_In. apply Nat.eqb_eq.
      apply (proj2 Hocc); [|done]. by exists k.
Qed.

(** C29: [CUtils::Equals], which counts how often each child occurs among the
    children of both expressions, answers whether the two trees are equal up to
    the order of the inputs of operators for which it does not matter, at every
    depth. *)
Theorem Equals_equivalent l r : Equals l r = true <-> equivalent l r.
Proof. apply Equals_iff. Qed.

Lemma FEqualAny_iff e exprs : FEqualAny e exprs = true <-> exists x, x ∈ exprs /\ equivalent e x.
Proof.
  unfold FEqualAny. rewrite existsb_exists. setoid_rewrite list_elem_of_In. by setoid_rewrite Equals_iff.
Qed.

Lemma EqualsOpt_iff (l r : option CExpression) : EqualsOpt l r = true <-> option_Forall2 equivalent l r.
Proof.
  destruct l, r; cbn; rewrite ?Equals_iff; (split; [intros H|by inversion 1]); [by constructor|done|done|constructor].
Qed.
End laws.
End equality.

(** ** Witness *)

Definition sample_expr (id : EOperatorId) (children : list CExpression) : CExpression :=
  MkExpression (MkOperator id 0 false false None 0) children None.

(** Two inputs of [EopOther 0] commuted, below an operator whose inputs do not. *)
Definition sample_nested (x y : CExpression) : CExpression :=
  sample_expr (EopOther 1) [sample_expr (EopOther 0) [x; y]; x].

Lemma Equals_equivalent_witness :
  let x := sample_expr (EopOther 2) [] in let y := sample_expr (EopOther 3) [] in
  equivalent (HO := sample_identity) (sample_nested x y) (sample_expr (EopOther 1) [sample_expr (EopOther 0) [y; x]; x]) /\
  ~ equivalent (HO := sample_identity) (sample_nested x y) (sample_nested y x).
Proof.
  split.
  - apply (Equals_equivalent (HO := sample_identity) (HL := sample_operator_laws)). vm_compute. reflexivity.
  - intros H%(Equals_equivalent (HO := sample_identity) (HL := sample_operator_laws)). vm_compute in H. discriminate.
Defined.

(** [UlHashDedup] ignores the order of the inputs of the root only, so two
    expressions that are equal for [CUtils::Equals], the equality of the hash sets
    keyed by it, can have different hashes. *)
Example equal_hashed_apart :
  let x := sample_expr (EopOther 2) [] in let y := sample_expr (EopOther 3) [x] in
  let l := sample_nested x y in let r := sample_expr (EopOther 1) [sample_expr (EopOther 0) [y; x]; x] in
  Equals (HO := sample_identity) l r = true /\ UlHashDedup (HO := sample_identity) l <> UlHashDedup (HO := sample_identity) r.
Proof. split; [vm_compute; reflexivity|]. vm_compute. discriminate. Qed.
