(* ===== verification/Fingerprint.v ===== *)
(** * CDPHyperGraphFingerprint: recognizing a join region again

    Model of [CDPHyperGraphFingerprint] (libgpopt/src/xforms/
    CDPHyperJoinRegion.cpp) and of the registry of fingerprints that [CEngine]
    keeps (libgpopt/src/engine/CEngine.cpp).  A fingerprint is a copy of the
    atoms, predicates, edges and dependencies of a region; two fingerprints match
    when a renumbering of the atoms carries one to the other.  [Matches] searches
    for it by backtracking over the atoms and matches the edges, their conflict
    rules and the predicates greedily.  Expressions that are bound to the memo
    are compared by their groups, which the memo given as argument holds. *)

From S2P Require Import Prelude BitVector BitSet NodeSet Expression ExpressionEquality DPHyperGraph.
From S2P Require Import DPHyperEnum DPHyperPlan DPHyperSimplifier UnionFind JoinRegionSpec JoinRegion JoinRegionPairs MemoGroups Memo.

Open Scope N_scope.

(** [SEdge] of the fingerprint; a conflict rule is the pair of its activating and
    its required nodes. *)
Record SFEdge (BS : Type) := MkFEdge {
  fe_join_type : EOperatorId;
  fe_left : BS;
  fe_right : BS;
  fe_notin_comparison : option CExpression;
  fe_conflict_rules : list (BS * BS)
}.
Arguments MkFEdge {BS}. Arguments fe_join_type {BS}. Arguments fe_left {BS}. Arguments fe_right {BS}.
Arguments fe_notin_comparison {BS}. Arguments fe_conflict_rules {BS}.

Record CDPHyperGraphFingerprint (BS : Type) := MkFingerprint {
  fp_atoms : list CExpression;
  fp_predicates : list CExpression;
  fp_edges : list (SFEdge BS);
  fp_dependencies : list BS;
  fp_hash : N
}.
Arguments MkFingerprint {BS}. Arguments fp_atoms {BS}. Arguments fp_predicates {BS}. Arguments fp_edges {BS}.
Arguments fp_dependencies {BS}. Arguments fp_hash {BS}.

(** ** Matching lists in any order *)

Section unordered.
Context {A B : Type}.

(** The inner loop: the first element not yet used that matches is used. *)
Fixpoint use_match (matches : B -> option bool) (rights : list B) (used : list bool) : option (option (list bool)) :=
  match rights, used with
  | r :: rights, u :: used =>
      hit ← (if (u : bool) then Some false else matches r);
      if (hit : bool) then Some (Some (true :: used))
      else next ← use_match matches rights used; Some (option_map (cons u) next)
  | _, _ => Some None
  end.

Fixpoint unordered_loop (matches : A -> B -> option bool) (lefts : list A) (rights : list B) (used : list bool)
    : option bool :=
  match lefts with
  | [] => Some true
  | l :: lefts =>
      found ← use_match (matches l) rights used;
      match found with
      | Some used => unordered_loop matches lefts rights used
      | None => Some false
      end
  end.

Definition FUnorderedMatches (matches : A -> B -> option bool) (lefts : list A) (rights : list B) : option bool :=
  if negb (length lefts =? length rights)%nat then Some false
  else unordered_loop matches lefts rights (replicate (length rights) false).
End unordered.

Section fingerprint.
Context {BS : Type} {HB : NodeSet BS} {HO : OperatorIdentity}.
(** The numbers of the enumerators of [COperator::EOperatorId]. *)
Context (EopCode : EOperatorId -> N).
Implicit Types (m : CMemo) (fp other : CDPHyperGraphFingerprint BS) (edge candidate : SFEdge BS)
  (mapping : list N) (nodes : BS).

(** ** Construction *)

Definition FCommutativeJoin (join_type : EOperatorId) : bool :=
  bool_decide (join_type = EopLogicalInnerJoin) || bool_decide (join_type = EopLogicalFullOuterJoin).

Definition atom_hash m (expr : CExpression) : option N :=
  match Pgexpr expr with
  | None => Some (UlHashDedup expr)
  | Some pgexpr => pgexpr_group m pgexpr
  end.

(** The hashes of the pairs of an atom and one it depends on. *)
Definition dependency_hashes (atom_hashes : list N) (dependencies : list BS) : option (list N) :=
  pairs ← mapM (fun '(dependent, nodes) =>
      hash ← atom_hashes.[N.of_nat dependent];
      mapM (fun provider => other ← atom_hashes.[provider]; Some (CombineHashes hash other)) (ns_bits nodes))
    (zip (seq 0 (length dependencies)) dependencies);
  Some (concat pairs).

Definition fingerprint_edge (graph_edge : SEdge BS) (spec_edge : option (CEdge BS)) : SFEdge BS :=
  match spec_edge with
  | None => MkFEdge EopLogicalInnerJoin (m_left graph_edge) (m_right graph_edge) None []
  | Some e => MkFEdge (m_join_type e) (m_left graph_edge) (m_right graph_edge) (m_notin_comparison e)
                ((fun rule => (m_activate rule, m_required rule)) <$> m_conflict_rules e)
  end.

Definition rule_hash (rule : BS * BS) : N := CombineHashes (HashULONG (ns_Size rule.1)) (HashULONG (ns_Size rule.2)).

Definition edge_hash edge : N :=
  let left_size := ns_Size (fe_left edge) in
  let right_size := ns_Size (fe_right edge) in
  let '(left_size, right_size) :=
    if FCommutativeJoin (fe_join_type edge) && (right_size <? left_size) then (right_size, left_size)
    else (left_size, right_size) in
  let hash := HashULONG (EopCode (fe_join_type edge)) in
  let hash := match fe_notin_comparison edge with
              | Some comparison => CombineHashes hash (UlHashDedup comparison)
              | None => hash
              end in
  let hash := CombineHashes hash (HashULONG left_size) in
  let hash := CombineHashes hash (HashULONG right_size) in
  let rule_hashes := merge_sort N.le (rule_hash <$> fe_conflict_rules edge) in
  let hash := CombineHashes hash (HashULONG (N.of_nat (length rule_hashes))) in
  fold_left CombineHashes rule_hashes hash.

Definition fingerprint_hash (atom_hashes predicate_hashes edge_hashes dependency_hashes : list N) : N :=
  let count (l : list N) := HashULONG (N.of_nat (length l)) in
  let hash := count atom_hashes in
  let hash := CombineHashes hash (count predicate_hashes) in
  let hash := CombineHashes hash (count edge_hashes) in
  let hash := CombineHashes hash (count dependency_hashes) in
  let hash := fold_left CombineHashes (merge_sort N.le atom_hashes) hash in
  let hash := fold_left CombineHashes (merge_sort N.le predicate_hashes) hash in
  let hash := fold_left CombineHashes (merge_sort N.le edge_hashes) hash in
  fold_left CombineHashes (merge_sort N.le dependency_hashes) hash.

(** Every other edge of the graph, with the join it stands for in a region of
    mixed joins. *)
Definition fingerprint_edges (graph : CDPHyperGraph BS) (spec : option (CJoinRegionSpec BS)) : option (list (SFEdge BS)) :=
  mapM (fun edge_id =>
      graph_edge ← Edge graph (edge_id * 2);
      spec_edge ← (match spec with
                   | Some spec => if negb (m_pure_inner spec) then e ← (m_sedges spec).[edge_id]; Some (Some e) else Some None
                   | None => Some None
                   end);
      Some (fingerprint_edge graph_edge spec_edge))
    (N.of_nat <$> seq 0 (N.to_nat (LogicalEdgeCount graph))).

Definition CDPHyperGraphFingerprint_New m (atoms predicates : list CExpression) (graph : CDPHyperGraph BS)
    (spec : option (CJoinRegionSpec BS)) : option (CDPHyperGraphFingerprint BS) :=
  atom_hashes ← mapM (atom_hash m) atoms;
  dependencies ← (match spec with
                  | None => Some (replicate (length atoms) ns_empty)
                  | Some spec => mapM (fun atom => m_dependencies spec !! atom) (seq 0 (length atoms))
                  end);
  dependency_hashes ← dependency_hashes atom_hashes dependencies;
  edges ← fingerprint_edges graph spec;
  Some (MkFingerprint atoms predicates edges dependencies
          (fingerprint_hash atom_hashes (UlHashDedup <$> predicates) (edge_hash <$> edges) dependency_hashes)).

Definition Pfp m (region : CDPHyperJoinRegion BS) : option (CDPHyperGraphFingerprint BS) :=
  CDPHyperGraphFingerprint_New m (m_components region) (m_conjuncts region) (m_graph region) (m_spec region).

(** ** Comparison *)

Definition FAtomMatches m (left right : CExpression) : option bool :=
  match Pgexpr left, Pgexpr right with
  | None, None => Some (CExpression_Matches left right)
  | Some left_gexpr, Some right_gexpr =>
      left_group ← pgexpr_group m left_gexpr;
      right_group ← pgexpr_group m right_gexpr;
      FDuplicateGroups (m_groups m) left_group right_group
  | _, _ => Some false
  end.

Fixpoint map_bits (bits : list N) mapping (mapped : BS) : option BS :=
  match bits with
  | [] => Some mapped
  | bit :: bits => target ← mapping.[bit]; map_bits bits mapping (ns_ExchangeSet mapped target).1
  end.

Definition PbsMap nodes mapping : option BS := map_bits (ns_bits nodes) mapping ns_empty.

Definition rule_matches mapping (rule other_rule : BS * BS) : option bool :=
  mapped_activate ← PbsMap rule.1 mapping;
  mapped_required ← PbsMap rule.2 mapping;
  Some (ns_Equals mapped_activate other_rule.1 && ns_Equals mapped_required other_rule.2).

Definition candidate_matches mapping edge candidate : option bool :=
  mapped_left ← PbsMap (fe_left edge) mapping;
  mapped_right ← PbsMap (fe_right edge) mapping;
  if negb (bool_decide (fe_join_type edge = fe_join_type candidate)) ||
     negb (EqualsOpt (fe_notin_comparison edge) (fe_notin_comparison candidate)) ||
     negb (length (fe_conflict_rules edge) =? length (fe_conflict_rules candidate))%nat
  then Some false else
  let direct := ns_Equals mapped_left (fe_left candidate) && ns_Equals mapped_right (fe_right candidate) in
  let reverse := FCommutativeJoin (fe_join_type edge) && ns_Equals mapped_left (fe_right candidate) &&
                 ns_Equals mapped_right (fe_left candidate) in
  if negb direct && negb reverse then Some false else
  unordered_loop (rule_matches mapping) (fe_conflict_rules edge) (fe_conflict_rules candidate)
    (replicate (length (fe_conflict_rules candidate)) false).

Fixpoint dependencies_match (other_dependencies : list BS) mapping (dependent : N) (dependencies : list BS) : option bool :=
  match dependencies with
  | [] => Some true
  | nodes :: dependencies =>
      mapped ← PbsMap nodes mapping;
      target ← mapping.[dependent];
      other ← other_dependencies.[target];
      if ns_Equals mapped other then dependencies_match other_dependencies mapping (dependent + 1) dependencies
      else Some false
  end.

(** The body of [find_mapping] for a complete mapping. *)
Definition mapping_matches fp other mapping : option bool :=
  dependencies ← dependencies_match (fp_dependencies other) mapping 0 (fp_dependencies fp);
  if (dependencies : bool)
  then unordered_loop (candidate_matches mapping) (fp_edges fp) (fp_edges other)
         (replicate (length (fp_edges other)) false)
  else Some false.

(** The loop over the candidates for an atom; [extend] goes on with the next
    atom. *)
Fixpoint candidate_loop m (expr : CExpression) (used_atoms : list bool) (extend : N -> option bool)
    (candidate : N) (others : list CExpression) : option bool :=
  match others with
  | [] => Some false
  | other :: others =>
      used ← used_atoms.[candidate];
      matches ← (if (used : bool) then Some false else FAtomMatches m expr other);
      found ← (if (matches : bool) then extend candidate else Some false);
      if (found : bool) then Some true else candidate_loop m expr used_atoms extend (candidate + 1) others
  end.

(** The atoms from number [atom] on; a candidate that fails leaves no trace, since
    its entries are overwritten or reset. *)
Fixpoint find_mapping m (complete : list N -> option bool) (other_atoms atoms : list CExpression) (atom : N)
    mapping (used_atoms : list bool) : option bool :=
  match atoms with
  | [] => complete mapping
  | expr :: atoms =>
      candidate_loop m expr used_atoms
        (fun candidate : N => find_mapping m complete other_atoms atoms (atom + 1)
           (<[N.to_nat atom := candidate]> mapping) (<[N.to_nat candidate := true]> used_atoms))
        0 other_atoms
  end.

Definition Fingerprint_Matches m fp (other : option (CDPHyperGraphFingerprint BS)) : option bool :=
  match other with
  | None => Some false
  | Some other =>
      if negb (length (fp_atoms fp) =? length (fp_atoms other))%nat ||
         negb (length (fp_edges fp) =? length (fp_edges other))%nat ||
         negb (length (fp_dependencies fp) =? length (fp_dependencies other))%nat
      then Some false else
      predicates ← FUnorderedMatches (fun left right => Some (CExpression_Matches left right))
                     (fp_predicates fp) (fp_predicates other);
      if negb predicates then Some false else
      find_mapping m (mapping_matches fp other) (fp_atoms other) (fp_atoms fp) 0
        (replicate (length (fp_atoms fp)) ulong_max) (replicate (length (fp_atoms other)) false)
  end.

(** ** The registry of the engine *)

(** The entries of [m_dphyper_fingerprints]: the owning group and the fingerprint. *)
Abbreviation registry := (list (N * CDPHyperGraphFingerprint BS)).

Fixpoint FHasDPHyperFingerprint m (owner : N) fp (entries : registry) : option bool :=
  match entries with
  | [] => Some false
  | (group, entry) :: entries =>
      duplicates ← FDuplicateGroups (m_groups m) owner group;
      matches ← (if (duplicates : bool) then Fingerprint_Matches m fp (Some entry) else Some false);
      if (matches : bool) then Some true else FHasDPHyperFingerprint m owner fp entries
  end.

Definition FRegisterDPHyperFingerprint m (owner : N) fp (entries : registry) : option (bool * registry) :=
  found ← FHasDPHyperFingerprint m owner fp entries;
  if (found : bool) then Some (false, entries) else Some (true, entries ++ [(owner, fp)]).
End fingerprint.

(** ** Greedy matching finds a matching where there is one *)

Section greedy.
Context {A B : Type} (R : A -> B -> Prop).
Implicit Types (lefts : list A) (rights : list B) (used : list bool).

(** Two elements that match a common one match the same ones. *)
Definition difunctional lefts rights : Prop :=
  forall l1 l2 r1 r2, l1 ∈ lefts -> l2 ∈ lefts -> r1 ∈ rights -> r2 ∈ rights ->
    R l1 r1 -> R l1 r2 -> R l2 r2 -> R l2 r1.

Fixpoint unused rights used : list B :=
  match rights, used with
  | r :: rights, u :: used => if (u : bool) then unused rights used else r :: unused rights used
  | _, _ => []
  end.

Lemma unused_all rights : unused rights (replicate (length rights) false) = rights.
Proof. induction rights as [|r rights IH]; [done|]. cbn. by rewrite IH. Qed.

Lemma unused_subseteq rights used : unused rights used ⊆ rights.
Proof.
  revert used. induction rights as [|r rights IH]; intros [|[] used]; cbn; [set_solver..| |]; specialize (IH used); set_solver.
Qed.

(** The tests decide the relation. *)
Definition decides (matches : A -> B -> option bool) lefts rights : Prop :=
  forall l r, l ∈ lefts -> r ∈ rights -> returns (fun b => b = true <-> R l r) (matches l r).

Lemma use_match_ok (matches : B -> option bool) l rights used :
  (forall r, r ∈ rights -> returns (fun b => b = true <-> R l r) (matches r)) ->
  length used = length rights ->
  returns (fun found => match found with
    | Some used' => length used' = length rights /\ exists r, R l r /\ unused rights used ≡ₚ r :: unused rights used'
    | None => forall r, r ∈ unused rights used -> ~ R l r
    end) (use_match matches rights used).
Proof.
  revert used. induction rights as [|r rights IH]; intros [|u used] Hd Hl; try done.
  { exists None. split; [done|]. cbn. by intros r ?%elem_of_nil. }
  injection Hl as Hl. cbn [use_match]. specialize (IH used (fun x Hx => Hd x (list_elem_of_further _ _ _ Hx)) Hl).
  assert (Hnext : (forall x, x ∈ unused (r :: rights) (u :: used) -> x ∈ unused rights used \/ ~ R l x) ->
    (forall x used', unused rights used ≡ₚ x :: unused rights used' ->
       unused (r :: rights) (u :: used) ≡ₚ x :: unused (r :: rights) (u :: used')) ->
    returns (fun found => match found with
      | Some used' => length used' = S (length rights) /\ exists x, R l x /\ unused (r :: rights) (u :: used) ≡ₚ x :: unused (r :: rights) used'
      | None => forall x, x ∈ unused (r :: rights) (u :: used) -> ~ R l x
      end) (next ← use_match matches rights used; Some (option_map (cons u) next))).
  { intros Hnone Hsome. eapply returns_bind; [exact IH|]. intros [used'|] Hf; eexists; (split; [done|]); cbn [option_map].
    - destruct Hf as (Hl' & x & Hx & Hp). split; [cbn; by rewrite Hl'|]. exists x. split; [done|]. by apply Hsome.
    - intros x [Hx|]%Hnone; [by apply Hf|done]. }
  destruct u.
  - apply Hnext; [by left|done].
  - destruct (Hd r ltac:(left)) as ([] & Hm & Hr); rewrite Hm; cbn [mbind option_bind].
    + eexists. split; [done|]. split; [cbn; by rewrite Hl|]. exists r. split; [by apply Hr|done].
    + apply Hnext.
      * cbn [unused]. intros x [->|Hx]%elem_of_cons; [right|by left]. intros Hlr. by apply Hr in Hlr.
      * cbn [unused]. intros x used' Hp. rewrite Hp. apply perm_swap.
Qed.

Lemma unordered_loop_ok (matches : A -> B -> option bool) lefts rights used :
  decides matches lefts rights -> difunctional lefts rights -> length used = length rights ->
  length lefts = length (unused rights used) ->
  returns (fun b => b = true <-> exists k, k ≡ₚ unused rights used /\ Forall2 R lefts k)
    (unordered_loop matches lefts rights used).
Proof.
  revert used. induction lefts as [|l lefts IH]; intros used Hd Hdi Hl Hn; cbn [unordered_loop].
  { exists true. split; [done|]. split; [|done]. intros _. exists []. split; [|constructor].
    by destruct (unused rights used). }
  eapply returns_bind.
  { apply (use_match_ok (matches l) l rights used); [|done]. intros r Hr. apply Hd; [left|done]. }
  intros [used'|] Hf.
  - destruct Hf as (Hl' & r & Hr & Hp).
    eapply returns_mono; [apply IH|].
    + intros x y Hx. apply Hd. by right.
    + intros l1 l2 r1 r2 H1 H2. apply Hdi; by right.
    + done.
    + rewrite Hp in Hn. cbn in Hn. lia.
    + intros b Hb. rewrite Hb. split.
      * intros (k & Hk & Hf). exists (r :: k). split; [by rewrite Hk, Hp|by constructor].
      * intros (k & Hk & Hf). apply Forall2_cons_inv_l in Hf as (r0 & k0 & Hr0 & Hf & ->).
        assert (Hin : r ∈ r0 :: k0) by (rewrite Hk, Hp; left). rewrite Hp in Hk.
        apply elem_of_cons in Hin as [->|Hin].
        { exists k0. split; [|done]. by apply Permutation_cons_inv in Hk. }
        apply list_elem_of_split in Hin as (k1 & k2 & ->).
        apply Forall2_app_inv_r in Hf as (ls1 & ls2 & Hf1 & Hf2 & ->).
        apply Forall2_cons_inv_r in Hf2 as (l2 & ls3 & Hl2 & Hf2 & ->).
        exists (k1 ++ r0 :: k2). split.
        -- apply (Permutation_cons_inv (a := r)). rewrite <-Hk, <-!Permutation_middle. apply perm_swap.
        -- apply Forall2_app; [done|]. constructor; [|done].
           assert (Hu : forall x, x ∈ r0 :: k1 ++ r :: k2 -> x ∈ rights).
           { intros x Hx. rewrite Hk, <-Hp in Hx. by apply (unused_subseteq rights used). }
           apply (Hdi l l2 r0 r); [left|set_solver|apply Hu; set_solver|apply Hu; set_solver|done..].
  - exists false. split; [done|]. split; [done|]. intros (k & Hk & Hfa). apply Forall2_cons_inv_l in Hfa as (r0 & k0 & Hr0 & _ & ->).
    exfalso. apply (Hf r0); [|done]. rewrite <-Hk. left.
Qed.

Definition matched lefts rights : Prop := exists k, k ≡ₚ rights /\ Forall2 R lefts k.

Lemma unordered_all_ok (matches : A -> B -> option bool) lefts rights :
  decides matches lefts rights -> difunctional lefts rights -> length lefts = length rights ->
  returns (fun b => b = true <-> matched lefts rights)
    (unordered_loop matches lefts rights (replicate (length rights) false)).
Proof.
  intros Hd Hdi Hl. pose proof (unordered_loop_ok matches lefts rights (replicate (length rights) false) Hd Hdi) as H.
  rewrite unused_all, length_replicate in H. by apply H.
Qed.

Lemma matched_length lefts rights : matched lefts rights -> length lefts = length rights.
Proof. intros (k & Hk & Hf). apply Permutation_length in Hk. apply Forall2_length in Hf. lia. Qed.

Lemma FUnorderedMatches_ok (matches : A -> B -> option bool) lefts rights :
  decides matches lefts rights -> difunctional lefts rights ->
  returns (fun b => b = true <-> matched lefts rights) (FUnorderedMatches matches lefts rights).
Proof.
  intros Hd Hdi. unfold FUnorderedMatches. destruct (Nat.eqb_spec (length lefts) (length rights)) as [Hl|Hl]; cbn [negb].
  - by apply unordered_all_ok.
  - exists false. split; [done|]. split; [done|]. by intros ?%matched_length.
Qed.
End greedy.

(** ** Renumbering the atoms *)

Section renumbering.
Context {BS : Type} {HB : NodeSet BS} {HO : OperatorIdentity} {HL : OperatorLaws}.
Implicit Types (m : CMemo) (fp : CDPHyperGraphFingerprint BS) (edge candidate : SFEdge BS)
  (mapping : list N) (nodes : BS) (rule : BS * BS) (X : gset N).

Definition image mapping X : gset N := set_map (D := gset N) (fun i => default 0 (mapping.[i])) X.

Lemma map_bits_ok bits mapping (mapped : BS) :
  (forall b, b ∈ bits -> b < N.of_nat (length mapping)) ->
  returns (fun r => to_gset r = image mapping (list_to_set bits) ∪ to_gset mapped) (map_bits bits mapping mapped).
Proof.
  revert mapped. induction bits as [|b bits IH]; intros mapped Hb; cbn [map_bits].
  { exists mapped. split; [done|]. unfold image. set_solver. }
  destruct (lookup_lt_is_Some_2 mapping (N.to_nat b)) as [t Ht]; [specialize (Hb b ltac:(left)); lia|].
  rewrite Ht. cbn [mbind option_bind]. eapply returns_mono; [apply IH; intros; apply Hb; by right|].
  intros r ->. rewrite ExchangeSet_law. unfold image. cbn [list_to_set]. rewrite set_map_union_L, set_map_singleton_L, Ht. cbn.
  set_solver.
Qed.

Lemma PbsMap_ok nodes mapping :
  to_gset nodes ⊆ span 0 (length mapping) ->
  returns (fun r => to_gset r = image mapping (to_gset nodes)) (PbsMap nodes mapping).
Proof.
  intros Hn. unfold PbsMap. eapply returns_mono; [apply map_bits_ok|].
  - intros b Hb%bits_law%Hn. apply elem_of_span in Hb. lia.
  - intros r ->. rewrite empty_law, bits_list_to_set. set_solver.
Qed.

(** *** Conflict rules *)

Definition rule_image mapping rule rule' : Prop :=
  to_gset rule'.1 = image mapping (to_gset rule.1) /\ to_gset rule'.2 = image mapping (to_gset rule.2).

Abbreviation rules_image mapping := (matched (rule_image mapping)).

Definition rule_in_range (n : nat) rule : Prop := to_gset rule.1 ⊆ span 0 n /\ to_gset rule.2 ⊆ span 0 n.

Lemma rule_matches_ok mapping rule rule' :
  rule_in_range (length mapping) rule ->
  returns (fun b => b = true <-> rule_image mapping rule rule') (rule_matches mapping rule rule').
Proof.
  intros [H1 H2]. unfold rule_matches. destruct (PbsMap_ok rule.1 mapping H1) as (a & -> & Ha).
  destruct (PbsMap_ok rule.2 mapping H2) as (r & -> & Hr). cbn [mbind option_bind]. eexists. split; [done|].
  rewrite andb_true_iff, !Equals_law, !bool_decide_eq_true, Ha, Hr. unfold rule_image. naive_solver.
Qed.

Lemma rules_loop_ok mapping (rules rules' : list (BS * BS)) :
  Forall (rule_in_range (length mapping)) rules -> length rules = length rules' ->
  returns (fun b => b = true <-> rules_image mapping rules rules')
    (unordered_loop (rule_matches mapping) rules rules' (replicate (length rules') false)).
Proof.
  intros Hr Hl. apply unordered_all_ok; [| |done].
  - intros rule rule' Hin _. apply rule_matches_ok. rewrite Forall_forall in Hr. by apply Hr.
  - intros l1 l2 r1 r2 _ _ _ _ [H1 H2] [H3 H4] [H5 H6]. split; congruence.
Qed.

(** *** Edges *)

Definition sides_image mapping edge candidate : Prop :=
  to_gset (fe_left candidate) = image mapping (to_gset (fe_left edge)) /\
  to_gset (fe_right candidate) = image mapping (to_gset (fe_right edge)).

Definition flip_sides edge : SFEdge BS :=
  MkFEdge (fe_join_type edge) (fe_right edge) (fe_left edge) (fe_notin_comparison edge) (fe_conflict_rules edge).

(** The candidate is the edge with its atoms renumbered; the sides of a join that
    commutes may be exchanged. *)
Definition edge_image mapping edge candidate : Prop :=
  fe_join_type candidate = fe_join_type edge /\
  option_Forall2 equivalent (fe_notin_comparison edge) (fe_notin_comparison candidate) /\
  (sides_image mapping edge candidate \/
   FCommutativeJoin (fe_join_type edge) = true /\ sides_image mapping edge (flip_sides candidate)) /\
  rules_image mapping (fe_conflict_rules edge) (fe_conflict_rules candidate).

Definition edge_in_range (n : nat) edge : Prop :=
  to_gset (fe_left edge) ⊆ span 0 n /\ to_gset (fe_right edge) ⊆ span 0 n /\
  Forall (rule_in_range n) (fe_conflict_rules edge).

Lemma candidate_matches_ok mapping edge candidate :
  edge_in_range (length mapping) edge ->
  returns (fun b => b = true <-> edge_image mapping edge candidate) (candidate_matches mapping edge candidate).
Proof.
  intros (Hl & Hr & Hru). unfold candidate_matches.
  destruct (PbsMap_ok _ mapping Hl) as (a & -> & Ha). destruct (PbsMap_ok _ mapping Hr) as (b & -> & Hb).
  cbn [mbind option_bind]. unfold edge_image.
  pose proof (EqualsOpt_iff (fe_notin_comparison edge) (fe_notin_comparison candidate)) as Hnot.
  pose proof (matched_length (rule_image mapping) (fe_conflict_rules edge) (fe_conflict_rules candidate)) as Hlen.
  case_bool_decide as Ht; cbn [negb orb]; [|exists false; split; [done|]; split; [done|]; intros (? & _); congruence].
  destruct (EqualsOpt _ _); cbn [negb orb]; [|exists false; split; [done|]; split; [done|]; by intros (_ & ?%Hnot & _)].
  destruct (Nat.eqb_spec (length (fe_conflict_rules edge)) (length (fe_conflict_rules candidate))) as [Hn|Hn]; cbn [negb];
    [|exists false; split; [done|]; split; [done|]; intros (_ & _ & _ & ?%Hlen); congruence].
  assert (Hsides : (ns_Equals a (fe_left candidate) && ns_Equals b (fe_right candidate) ||
      FCommutativeJoin (fe_join_type edge) && ns_Equals a (fe_right candidate) && ns_Equals b (fe_left candidate)) = true <->
    (sides_image mapping edge candidate \/
     FCommutativeJoin (fe_join_type edge) = true /\ sides_image mapping edge (flip_sides candidate))).
  { rewrite orb_true_iff, !andb_true_iff, !Equals_law, !bool_decide_eq_true, Ha, Hb. unfold sides_image, flip_sides. cbn.
    naive_solver. }
  match goal with |- context [negb ?d && negb ?r] => rewrite <-(negb_orb d r) end.
  destruct (_ || _) eqn:Hd; cbn [negb].
  - eapply returns_mono; [by apply rules_loop_ok|]. intros r ->.
    pose proof (proj1 Hsides eq_refl). pose proof (proj1 Hnot eq_refl). split; [intros ?; by split_and!|by intros (_ & _ & _ & ?)].
  - exists false. split; [done|]. split; [done|]. intros (_ & _ & Hs & _). apply Hsides in Hs. congruence.
Qed.

Lemma edge_image_difunctional mapping (es cs : list (SFEdge BS)) : difunctional (edge_image mapping) es cs.
Proof.
  intros l1 l2 r1 r2 _ _ _ _ (Ht1 & Hn1 & Hs1 & k1 & Hk1 & Hr1) (Ht2 & Hn2 & Hs2 & k2 & Hk2 & Hr2) (Ht3 & Hn3 & Hs3 & k3 & Hk3 & Hr3).
  split_and!.
  - congruence.
  - etrans; [exact Hn3|]. etrans; [symmetry; exact Hn2|exact Hn1].
  - assert (Htt : fe_join_type l2 = fe_join_type l1) by congruence. rewrite Htt in *. unfold sides_image in *. cbn in *.
    destruct Hs1 as [[H1 H2]|(Hc & H1 & H2)], Hs2 as [[H3 H4]|(Hc2 & H3 & H4)], Hs3 as [[H5 H6]|(Hc3 & H5 & H6)];
      first [left; split; congruence | right; split_and!; [done|congruence|congruence]].
  - assert (Hsame : Forall2 (fun x y => to_gset x.1 = to_gset y.1 /\ to_gset x.2 = to_gset y.2) k2 k1).
    { clear -Hr1 Hr2. revert k1 Hr1. induction Hr2 as [|a b l k2 [Ha1 Ha2] Hr2 IH]; intros k1 Hr1; inversion Hr1 as [|? ? ? ? [? ?]]; subst; [constructor|].
      constructor; [split; congruence|by apply IH]. }
    assert (Hk : k2 ≡ₚ k3) by (by rewrite Hk2, Hk3).
    destruct (Permutation_Forall2 Hk Hsame) as (k4 & Hk4 & Hf). exists k4. split; [by rewrite <-Hk4|].
    clear -Hf Hr3. revert k4 Hf. induction Hr3 as [|a b l k3 [Ha1 Ha2] Hr3 IH]; intros k4 Hf; inversion Hf as [|? ? ? ? [? ?]]; subst; [constructor|].
    constructor; [split; congruence|by apply IH].
Qed.

Abbreviation edges_image mapping := (matched (edge_image mapping)).

Lemma edges_loop_ok mapping (es cs : list (SFEdge BS)) :
  Forall (edge_in_range (length mapping)) es -> length es = length cs ->
  returns (fun b => b = true <-> edges_image mapping es cs)
    (unordered_loop (candidate_matches mapping) es cs (replicate (length cs) false)).
Proof.
  intros Hr Hl. apply unordered_all_ok; [|apply edge_image_difunctional|done].
  intros edge candidate Hin _. apply candidate_matches_ok. rewrite Forall_forall in Hr. by apply Hr.
Qed.

(** *** Dependencies *)

Definition dependencies_image mapping (ds ds' : list BS) : Prop :=
  forall i j nodes, ds.[i] = Some nodes -> mapping.[i] = Some j ->
    exists nodes', ds'.[j] = Some nodes' /\ to_gset nodes' = image mapping (to_gset nodes).

Lemma dependencies_match_ok (ds' : list BS) mapping k ds :
  (forall j, j ∈ mapping -> j < N.of_nat (length ds')) ->
  (N.to_nat k + length ds = length mapping)%nat -> Forall (fun nodes => to_gset nodes ⊆ span 0 (length mapping)) ds ->
  returns (fun b => b = true <-> forall i j nodes, ds.[i] = Some nodes -> mapping.[k + i] = Some j ->
      exists nodes', ds'.[j] = Some nodes' /\ to_gset nodes' = image mapping (to_gset nodes))
    (dependencies_match ds' mapping k ds).
Proof.
  intros Hm. revert k. induction ds as [|nodes ds IH]; intros k Hk Hr; cbn [dependencies_match].
  { exists true. split; [done|]. split; [|done]. by intros _ i j nodes Hi. }
  apply Forall_cons in Hr as [Hn Hr]. destruct (PbsMap_ok nodes mapping Hn) as (mapped & -> & Hmap). cbn [mbind option_bind].
  destruct (lookup_lt_is_Some_2 mapping (N.to_nat k)) as [t Ht]; [cbn in Hk; lia|]. rewrite Ht. cbn [mbind option_bind].
  pose proof (Hm t (list_elem_of_lookup_2 _ _ _ Ht)) as Hlt.
  destruct (lookup_lt_is_Some_2 ds' (N.to_nat t)) as [other Ho]; [lia|]. rewrite Ho. cbn [mbind option_bind].
  rewrite Equals_law, Hmap. case_bool_decide as He.
  - eapply returns_mono; [apply (IH (k + 1)); [cbn in Hk; lia|done]|]. intros b ->. split.
    + intros Hall i j x Hi Hj. destruct (decide (i = 0)) as [->|Hne].
      * rewrite N.add_0_r, Ht in Hj. cbn in Hi. injection Hi as <-. injection Hj as <-. by exists other.
      * replace (N.to_nat i) with (S (N.to_nat (i - 1))) in Hi by lia. cbn in Hi.
        apply (Hall (i - 1) j x Hi). by replace (k + 1 + (i - 1)) with (k + i) by lia.
    + intros Hall i j x Hi Hj. apply (Hall (i + 1) j x).
      * replace (N.to_nat (i + 1)) with (S (N.to_nat i)) by lia. done.
      * by replace (k + (i + 1)) with (k + 1 + i) by lia.
  - exists false. split; [done|]. split; [done|]. intros Hall.
    destruct (Hall 0 t nodes eq_refl) as (x & Hx & Hxs); [by rewrite N.add_0_r|]. congruence.
Qed.

(** *** The search *)

Definition used_flags (n : nat) mapping : list bool := (fun j => bool_decide (N.of_nat j ∈ mapping)) <$> seq 0 n.

Lemma used_flags_lookup n mapping (j : N) : j < N.of_nat n -> (used_flags n mapping).[j] = Some (bool_decide (j ∈ mapping)).
Proof.
  intros Hj. unfold used_flags. rewrite list_lookup_fmap, lookup_seq_lt by lia. cbn. by rewrite N2Nat.id.
Qed.

Lemma used_flags_snoc n mapping (j : N) : j < N.of_nat n ->
  <[N.to_nat j := true]> (used_flags n mapping) = used_flags n (mapping ++ [j]).
Proof.
  intros Hj. apply list_eq. intros i. unfold used_flags. destruct (decide (i = N.to_nat j)) as [->|Hne].
  - rewrite list_lookup_insert_eq, list_lookup_fmap, lookup_seq_lt by (rewrite ?length_fmap, ?length_seq; lia).
    cbn. rewrite N2Nat.id, bool_decide_true; [done|]. apply elem_of_app. right. by apply list_elem_of_singleton.
  - rewrite list_lookup_insert_ne by done. rewrite !list_lookup_fmap. destruct (seq 0 n !! i) as [k|] eqn:Hk; [|done]. cbn.
    apply lookup_seq in Hk as [-> _]. f_equal. apply bool_decide_ext. rewrite elem_of_app, list_elem_of_singleton.
    split; [by left|]. intros [?|?]; [done|]. lia.
Qed.

(** An atom and the number of one it matches. *)
Definition atom_image m (others : list CExpression) (expr : CExpression) (j : N) : Prop :=
  exists other, others.[j] = Some other /\ FAtomMatches m expr other = Some true.

Lemma candidate_loop_ok m expr n mapping extend (P : N -> Prop) others rest c :
  n = length others -> drop (N.to_nat c) others = rest ->
  (forall other, other ∈ others -> is_Some (FAtomMatches m expr other)) ->
  (forall j, j ∉ mapping -> atom_image m others expr j -> returns (fun b => b = true <-> P j) (extend j)) ->
  returns (fun b => b = true <-> exists j, c <= j /\ (j ∉ mapping) /\ atom_image m others expr j /\ P j)
    (candidate_loop m expr (used_flags n mapping) extend c rest).
Proof.
  intros -> Hdrop Htot Hext. revert c Hdrop. induction rest as [|other rest IH]; intros c Hdrop; cbn [candidate_loop].
  { exists false. split; [done|]. split; [done|]. intros (j & Hj & _ & (o & Ho & _) & _). apply lookup_N_lt in Ho.
    pose proof (f_equal length Hdrop) as Hl. rewrite length_drop in Hl. cbn in Hl. lia. }
  assert (Hc : others.[c] = Some other) by (rewrite <-(Nat.add_0_r (N.to_nat c)), <-lookup_drop, Hdrop; done).
  assert (Hrest : drop (N.to_nat (c + 1)) others = rest).
  { replace (N.to_nat (c + 1)) with (N.to_nat c + 1)%nat by lia. by rewrite <-drop_drop, Hdrop. }
  rewrite used_flags_lookup by (by eapply lookup_N_lt). cbn [mbind option_bind].
  assert (Hskip : ~ ((c ∉ mapping) /\ atom_image m others expr c /\ P c) ->
    returns (fun b => b = true <-> exists j, c <= j /\ (j ∉ mapping) /\ atom_image m others expr j /\ P j)
      (candidate_loop m expr (used_flags (length others) mapping) extend (c + 1) rest)).
  { intros Hno. eapply returns_mono; [by apply IH|]. intros b ->. split.
    - intros (j & Hj & ?). exists j. split; [lia|done].
    - intros (j & Hj & Hrest'). exists j. split; [|done]. destruct (decide (j = c)) as [->|]; [done|lia]. }
  case_bool_decide as Hin; cbn [mbind option_bind]; [apply Hskip; by intros [? _]|].
  destruct (Htot other) as [b Hb]; [by eapply list_elem_of_lookup_2|]. rewrite Hb. cbn [mbind option_bind].
  destruct b; cbn [mbind option_bind].
  - assert (Hai : atom_image m others expr c) by (by exists other).
    destruct (Hext c Hin Hai) as (f & Hf & HP). rewrite Hf. cbn [mbind option_bind]. destruct f.
    + exists true. split; [done|]. split; [|done]. intros _. exists c. split_and!; [lia|done|done|by apply HP].
    + apply Hskip. intros (_ & _ & HPc). by apply HP in HPc.
  - apply Hskip. intros (_ & (o & Ho & Hm) & _). congruence.
Qed.

Lemma find_mapping_ok m complete (C : list N -> Prop) others atoms p n :
  (forall q, length q = n -> NoDup q -> (forall j, j ∈ q -> j < N.of_nat (length others)) ->
     returns (fun b => b = true <-> C q) (complete q)) ->
  (forall expr other, expr ∈ atoms -> other ∈ others -> is_Some (FAtomMatches m expr other)) ->
  (length p + length atoms = n)%nat -> NoDup p -> (forall j, j ∈ p -> j < N.of_nat (length others)) ->
  returns (fun b => b = true <-> exists q, NoDup (p ++ q) /\ Forall2 (atom_image m others) atoms q /\ C (p ++ q))
    (find_mapping m complete others atoms (N.of_nat (length p)) (p ++ replicate (length atoms) ulong_max)
       (used_flags (length others) p)).
Proof.
  intros Hc. revert p. induction atoms as [|expr atoms IH]; intros p Htot Hn Hnd Hp; cbn [find_mapping].
  { cbn. rewrite app_nil_r. eapply returns_mono; [apply Hc; [cbn in Hn; lia|done|done]|]. intros b ->. split.
    - intros H. exists []. by rewrite app_nil_r.
    - intros (q & _ & Hq & H). apply Forall2_nil_inv_l in Hq as ->. by rewrite app_nil_r in H. }
  eapply returns_mono.
  { apply (candidate_loop_ok m expr (length others) p _
      (fun j => exists q, NoDup ((p ++ [j]) ++ q) /\ Forall2 (atom_image m others) atoms q /\ C ((p ++ [j]) ++ q)) others others 0).
    - done.
    - done.
    - intros other Ho. apply Htot; [left|done].
    - intros j Hj (other & Hjo & _). apply lookup_N_lt in Hjo as Hlt.
      rewrite used_flags_snoc by done. rewrite Nat2N.id, (insert_app_r_alt _ _ (length p)), Nat.sub_diag by lia. cbn [replicate length insert list_insert].
      replace (p ++ j :: replicate (length atoms) ulong_max) with ((p ++ [j]) ++ replicate (length atoms) ulong_max)
        by (by rewrite <-(assoc_L (++))).
      replace (N.of_nat (length p) + 1) with (N.of_nat (length (p ++ [j]))) by (rewrite length_app; cbn; lia).
      apply IH.
      + intros e o He. apply Htot. by right.
      + rewrite length_app. cbn in Hn |- *. lia.
      + apply NoDup_app. split_and!; [done| |apply NoDup_singleton]. intros x Hx ->%list_elem_of_singleton. done.
      + intros x [Hx| ->%list_elem_of_singleton]%elem_of_app; [by apply Hp|done]. }
  intros b ->. split.
  - intros (j & _ & Hj & Hi & q & Hq & Hf & HC). exists (j :: q). rewrite <-!(assoc_L (++)) in *. split_and!; [done|by constructor|done].
  - intros (q & Hq & Hf & HC). apply Forall2_cons_inv_l in Hf as (j & q' & Hi & Hf & ->). exists j.
    split_and!; [lia| |done|].
    + intros Hin. apply NoDup_app in Hq as (_ & Hd & _). apply (Hd j Hin). left.
    + exists q'. rewrite <-!(assoc_L (++)). by split_and!.
Qed.

(** *** [Matches] decides isomorphism *)

Record fingerprint_wf fp : Prop := {
  fw_length : length (fp_dependencies fp) = length (fp_atoms fp);
  fw_dependencies : Forall (fun nodes => to_gset nodes ⊆ span 0 (length (fp_atoms fp))) (fp_dependencies fp);
  fw_edges : Forall (edge_in_range (length (fp_atoms fp))) (fp_edges fp)
}.

(** The atoms refer to what is in the memo. *)
Definition atoms_bound m fp : Prop :=
  forall expr pgexpr, expr ∈ fp_atoms fp -> Pgexpr expr = Some pgexpr -> is_Some ((m_gexprs m).[pgexpr]).

(** The atoms numbered [0, 1, ...] are those numbered by [mapping] in the other
    fingerprint, and dependencies and edges agree after renumbering. *)
Record renumbering m fp (fp' : CDPHyperGraphFingerprint BS) mapping : Prop := {
  rn_injective : NoDup mapping;
  rn_atoms : Forall2 (atom_image m (fp_atoms fp')) (fp_atoms fp) mapping;
  rn_dependencies : dependencies_image mapping (fp_dependencies fp) (fp_dependencies fp');
  rn_edges : edges_image mapping (fp_edges fp) (fp_edges fp')
}.

Definition isomorphic m fp (fp' : CDPHyperGraphFingerprint BS) : Prop :=
  length (fp_atoms fp) = length (fp_atoms fp') /\
  matched same_tree (fp_predicates fp) (fp_predicates fp') /\
  exists mapping, renumbering m fp fp' mapping.

Lemma mapping_matches_ok fp fp' mapping :
  fingerprint_wf fp -> fingerprint_wf fp' -> length mapping = length (fp_atoms fp) ->
  (forall j, j ∈ mapping -> j < N.of_nat (length (fp_atoms fp'))) -> length (fp_edges fp) = length (fp_edges fp') ->
  returns (fun b => b = true <-> dependencies_image mapping (fp_dependencies fp) (fp_dependencies fp') /\
      edges_image mapping (fp_edges fp) (fp_edges fp')) (mapping_matches fp fp' mapping).
Proof.
  intros [Hl1 Hd1 He1] [Hl2 _ _] Hn Hj Hel. unfold mapping_matches.
  destruct (dependencies_match_ok (fp_dependencies fp') mapping 0 (fp_dependencies fp)) as (d & -> & Hd).
  { by rewrite Hl2. } { rewrite Hl1, Hn. lia. } { by rewrite Hn. }
  cbn [mbind option_bind]. assert (Hd' : d = true <-> dependencies_image mapping (fp_dependencies fp) (fp_dependencies fp')).
  { rewrite Hd. unfold dependencies_image. done. }
  destruct d.
  - eapply returns_mono; [apply edges_loop_ok; [by rewrite Hn|done]|]. intros b ->. pose proof (proj1 Hd' eq_refl). naive_solver.
  - exists false. split; [done|]. split; [done|]. by intros [?%Hd' _].
Qed.

Lemma FAtomMatches_total m left right :
  memo_wf m -> (forall e, Pgexpr left = Some e -> is_Some ((m_gexprs m).[e])) ->
  (forall e, Pgexpr right = Some e -> is_Some ((m_gexprs m).[e])) -> is_Some (FAtomMatches m left right).
Proof.
  intros Hwf Hl Hr. unfold FAtomMatches. destruct (Pgexpr left) as [l|], (Pgexpr right) as [r|]; [|eauto..].
  destruct (Hl l eq_refl) as [x Hx], (Hr r eq_refl) as [y Hy]. unfold pgexpr_group. rewrite Hx, Hy. cbn [mbind option_bind].
  destruct (mw_group _ Hwf l x Hx) as (gl & grl & -> & Hgl & _). destruct (mw_group _ Hwf r y Hy) as (gr & grr & -> & Hgr & _).
  cbn [mbind option_bind]. apply FDuplicateGroups_total; by eapply lookup_N_lt.
Qed.

Lemma Matches_ok m fp fp' :
  memo_wf m -> fingerprint_wf fp -> fingerprint_wf fp' -> atoms_bound m fp -> atoms_bound m fp' ->
  returns (fun b => b = true <-> isomorphic m fp fp') (Fingerprint_Matches m fp (Some fp')).
Proof.
  intros Hm Hw1 Hw2 Hb1 Hb2. unfold Fingerprint_Matches, isomorphic.
  pose proof (fw_length _ Hw1) as Hl1. pose proof (fw_length _ Hw2) as Hl2.
  destruct (Nat.eqb_spec (length (fp_atoms fp)) (length (fp_atoms fp'))) as [Hn|Hn]; cbn [negb orb];
    [|exists false; split; [done|]; split; [done|]; by intros [? _]].
  destruct (Nat.eqb_spec (length (fp_edges fp)) (length (fp_edges fp'))) as [He|He]; cbn [negb orb].
  2: { exists false. split; [done|]. split; [done|]. intros (_ & _ & mapping & [_ _ _ ?%matched_length]). done. }
  rewrite Hl1, Hl2, Hn, Nat.eqb_refl. cbn [negb].
  destruct (FUnorderedMatches_ok same_tree (fun l r => Some (CExpression_Matches l r)) (fp_predicates fp) (fp_predicates fp'))
    as (p & -> & Hp).
  { intros l r _ _. eexists. split; [done|]. apply Matches_same_tree. }
  { intros l1 l2 r1 r2 _ _ _ _ H1 H2 H3. etrans; [exact H3|]. etrans; [symmetry; exact H2|exact H1]. }
  cbn [mbind option_bind]. destruct p; cbn [negb]; [|exists false; split; [done|]; split; [done|]; by intros (_ & ?%Hp & _)].
  pose proof (proj1 Hp eq_refl) as Hpred.
  assert (Hflags : replicate (length (fp_atoms fp')) false = used_flags (length (fp_atoms fp')) []).
  { symmetry. unfold used_flags. rewrite (const_fmap _ _ false); [by rewrite length_seq|done]. }
  rewrite Hflags. replace (replicate (length (fp_atoms fp')) ulong_max) with (replicate (length (fp_atoms fp)) ulong_max)
    by (by rewrite Hn). eapply returns_mono.
  { apply (find_mapping_ok m (mapping_matches fp fp')
      (fun q => dependencies_image q (fp_dependencies fp) (fp_dependencies fp') /\ edges_image q (fp_edges fp) (fp_edges fp'))
      (fp_atoms fp') (fp_atoms fp) [] (length (fp_atoms fp))); [| |done|constructor|by intros j ?%elem_of_nil].
    - intros q Hq _ Hr. by apply mapping_matches_ok.
    - intros expr o Hx Ho. apply FAtomMatches_total; [done|intros e; by apply Hb1|intros e; by apply Hb2]. }
  intros b ->. cbn [app]. split.
  - intros (q & Hnd & Hf & Hd & Hed). split_and!; [done..|]. by exists q.
  - intros (_ & _ & q & [Hnd Hf Hd Hed]). by exists q.
Qed.
End renumbering.

(** ** The fingerprint of a region *)

Section construction.
Context {BS CS : Type} {HB : NodeSet BS} {HC : NodeSet CS} {HD : DerivedProps CS} {HP : PredicateOps}.
Context {HO : OperatorIdentity} {HL : OperatorLaws}.
Context (EopCode : EOperatorId -> N).
Implicit Types (m : CMemo) (fp : CDPHyperGraphFingerprint BS) (region : CDPHyperJoinRegion BS)
  (spec : CJoinRegionSpec BS) (graph : CDPHyperGraph BS).

Lemma built_rules_in_range t spec edge :
  built_region (CS := CS) t spec -> edge ∈ m_sedges spec ->
  Forall (rule_in_range (length (m_atoms spec))) ((fun rule => (m_activate rule, m_required rule)) <$> m_conflict_rules edge).
Proof.
  intros Hb [i Hi]%list_elem_of_lookup. apply Forall_fmap, Forall_forall. intros rule Hrule.
  destruct (m_cdc_supported spec) eqn:Hcdc.
  - destruct (built_edge t spec i edge Hb Hcdc Hi) as (edge0 & R & rules' & tes & Hok & Hel).
    rewrite (eg_edge _ _ _ _ _ _ _ Hel) in Hrule. apply (eg_sub _ _ _ _ _ _ _ Hel) in Hrule.
    pose proof (eg_rules_ok _ _ _ _ _ _ _ Hel) as Hro. rewrite Forall_forall in Hro. apply Hro in Hrule as [_ _ Hw].
    pose proof (ek_range _ _ Hok) as Hr. unfold rule_in_range. cbn. set_solver.
  - destruct (br_edges _ _ Hb) as (es & _ & Hfr & He). rewrite Hcdc in He. subst es.
    pose proof (Forall_lookup_1 _ _ _ _ Hfr Hi) as (_ & _ & Hrs). rewrite Hrs in Hrule. by apply elem_of_nil in Hrule.
Qed.

Lemma built_dependencies_in_range t spec nodes :
  built_region (CS := CS) t spec -> nodes ∈ m_dependencies spec -> to_gset nodes ⊆ span 0 (length (m_atoms spec)).
Proof.
  intros Hb [i Hi]%list_elem_of_lookup x Hx. destruct (br_deps _ _ Hb) as [Hl Hd].
  destruct (lookup_lt_is_Some_2 (m_atoms spec) i) as [atom Ha]; [rewrite <-Hl; by eapply lookup_lt_Some|].
  apply (Hd i atom nodes Ha Hi) in Hx as (q & c & -> & _ & Hp). apply elem_of_span.
  destruct Hp as (k & a & -> & Hk & _). apply lookup_lt_Some in Hk. lia.
Qed.

(** In a region of mixed joins every logical edge of the graph stands for a join. *)
Definition edges_of_joins region : Prop :=
  forall spec, mixed_joins region = Some spec -> N.of_nat (length (m_sedges spec)) = LogicalEdgeCount (m_graph region).

Lemma fingerprint_edges_ok n region :
  region_ready (CS := CS) n region -> edges_of_joins region ->
  returns (Forall (edge_in_range n)) (fingerprint_edges (m_graph region) (m_spec region)).
Proof.
  intros Hr Hej. unfold fingerprint_edges. set (graph := m_graph region). pose proof (ry_wf _ _ Hr) as Hwf. fold graph in Hwf.
  assert (Hone : forall id, id < LogicalEdgeCount graph -> exists e,
    (graph_edge ← Edge graph (id * 2);
     spec_edge ← (match m_spec region with
                  | Some spec => if negb (m_pure_inner spec) then e ← (m_sedges spec).[id]; Some (Some e) else Some None
                  | None => Some None
                  end);
     Some (fingerprint_edge graph_edge spec_edge)) = Some e /\ edge_in_range n e).
  { intros id Hid. assert (Hedge : is_Some (Edge graph (id * 2))).
    { apply lookup_lt_is_Some_2. unfold LogicalEdgeCount, DirectedEdgeCount in Hid.
      pose proof (N.Div0.mul_div_le (N.of_nat (length (m_edges graph))) 2). lia. }
    destruct Hedge as [ge Hge]. rewrite Hge. cbn [mbind option_bind].
    assert (Hsides : to_gset (m_left ge) ⊆ span 0 n /\ to_gset (m_right ge) ⊆ span 0 n).
    { pose proof (gw_sides _ Hwf) as Hs. rewrite Forall_forall in Hs.
      destruct (Hs ge (list_elem_of_lookup_2 _ _ _ Hge)) as (_ & _ & _ & Hv). unfold graph in Hv. rewrite (ry_nodes _ _ Hr) in Hv.
      split; intros v Hin; apply elem_of_span; (split; [lia|apply Hv; set_solver]). }
    destruct Hsides as [Hsl Hsr]. destruct (m_spec region) as [spec|] eqn:Hspec; cbn [mbind option_bind].
    2: { eexists. split; [done|]. split_and!; [done..|constructor]. }
    destruct (ry_spec _ _ Hr spec Hspec) as ([t Hb] & Hn & _). destruct (m_pure_inner spec) eqn:Hpure; cbn [negb mbind option_bind].
    { eexists. split; [done|]. split_and!; [done..|constructor]. }
    assert (Hm : mixed_joins region = Some spec) by (unfold mixed_joins; by rewrite Hspec, Hpure).
    pose proof (Hej spec Hm) as Hcount. fold graph in Hcount.
    destruct (lookup_lt_is_Some_2 (m_sedges spec) (N.to_nat id)) as [se Hse]; [lia|].
    rewrite Hse. cbn [mbind option_bind]. eexists. split; [done|]. split_and!; [done..|].
    cbn. rewrite <-Hn. apply (built_rules_in_range t); [done|by eapply list_elem_of_lookup_2]. }
  assert (Hall : forall ids, (forall id, id ∈ ids -> id < LogicalEdgeCount graph) ->
    returns (Forall (edge_in_range n)) (mapM (fun edge_id =>
      graph_edge ← Edge graph (edge_id * 2);
      spec_edge ← (match m_spec region with
                   | Some spec => if negb (m_pure_inner spec) then e ← (m_sedges spec).[edge_id]; Some (Some e) else Some None
                   | None => Some None
                   end);
      Some (fingerprint_edge graph_edge spec_edge)) ids)).
  { induction ids as [|id ids IH]; intros Hids; [exists []; split; [done|constructor]|].
    destruct (Hone id) as (e & He & Hre); [apply Hids; left|].
    destruct IH as (es & Hes & Hres); [intros; apply Hids; by right|].
    exists (e :: es). cbn. unfold graph in *. rewrite He. cbn. rewrite Hes. split; [done|by constructor]. }
  apply Hall. intros id (i & -> & Hi%elem_of_seq)%list_elem_of_fmap. lia.
Qed.

Lemma both_ways_length (want : list (gset N * gset N * N)) : length (undirected want) = (2 * length want)%nat.
Proof. unfold undirected. induction want as [|[[l r] id] want IH]; [done|]. cbn in *. lia. Qed.

Lemma tes_want_length (edges : list (CEdge BS)) k : length (tes_want edges k) = length edges.
Proof. revert k. induction edges as [|e edges IH]; intros k; [done|]. cbn. by rewrite IH. Qed.

(** A complete graph has the edges [edges_of_joins] asks for. *)
Lemma built_edges_of_joins root spec edge_budget region :
  Build (BS := BS) (CS := CS) root CJoinRegionSpec_New = Some (true, spec) ->
  m_cdc_supported spec = true -> edge_budget < 2 ^ ULONG_BITS ->
  BuildRegion (CDPHyperJoinRegion_FromSpec spec edge_budget) = Some (true, region) -> edges_of_joins region.
Proof.
  intros HB' Hcdc Hbud Hbuild spec' Hm.
  destruct (BuildRegion_spec (CDPHyperJoinRegion_FromSpec spec edge_budget)
    (FromSpec_region_ok (CS := CS) root spec edge_budget HB' (or_intror Hcdc) Hbud)) as (want & ok & jr2 & Hw & Hk & Hb).
  rewrite Hbuild in Hk. injection Hk as <- <-. pose proof (rb_static _ _ _ _ Hb) as [= _ _ _ Hspec _].
  destruct (mixed_spec region spec' Hm) as [Hs Hpure]. rewrite Hs in Hspec. cbn in Hspec. injection Hspec as ->.
  unfold region_want, mixed_joins in Hw. cbn [CDPHyperJoinRegion_FromSpec m_spec] in Hw. rewrite Hpure in Hw. cbn in Hw.
  pose proof (rb_ok _ _ _ _ Hb) as Hok. symmetry in Hok. apply N.leb_le in Hok. pose proof (rb_entries _ _ _ _ Hb) as He.
  rewrite take_ge in He by (cbn in Hok |- *; lia). apply (f_equal length) in He. unfold entries in He.
  rewrite length_fmap, both_ways_length, Hw, tes_want_length in He. unfold LogicalEdgeCount, DirectedEdgeCount. rewrite He.
  replace (N.of_nat (2 * length (m_sedges spec))) with (N.of_nat (length (m_sedges spec)) * 2) by lia. by rewrite N.div_mul.
Qed.

(** The groups the components are bound to are in the memo. *)
Definition components_bound m region : Prop :=
  forall expr pgexpr, expr ∈ m_components region -> Pgexpr expr = Some pgexpr -> is_Some ((m_gexprs m).[pgexpr]).

Lemma mapM_total {A B} (f : A -> option B) (l : list A) :
  (forall a, a ∈ l -> is_Some (f a)) -> exists k, mapM f l = Some k /\ length k = length l /\ forall b, b ∈ k -> exists a, a ∈ l /\ f a = Some b.
Proof.
  intros Hf. destruct (mapM_is_Some_2 f l) as [k Hk]; [by apply Forall_forall|]. exists k. apply mapM_Some in Hk as Hf2.
  split_and!; [done|symmetry; by eapply Forall2_length|]. intros b [i Hi]%list_elem_of_lookup.
  destruct (Forall2_lookup_r _ _ _ _ _ Hf2 Hi) as (a & Ha & Hab). exists a. split; [by eapply list_elem_of_lookup_2|done].
Qed.

Lemma dependency_hashes_total (hashes : list N) (dependencies : list BS) :
  length dependencies = length hashes -> Forall (fun nodes => to_gset nodes ⊆ span 0 (length hashes)) dependencies ->
  is_Some (dependency_hashes hashes dependencies).
Proof.
  intros Hl Hd. unfold dependency_hashes.
  match goal with |- context [mapM ?f ?l] => destruct (mapM_total f l) as (k & -> & _) end; [|by eexists].
  intros [dependent nodes] Hin. apply elem_of_zip_l in Hin as Hdep. apply elem_of_zip_r in Hin as Hnodes.
  apply elem_of_seq in Hdep. rewrite Forall_forall in Hd. specialize (Hd nodes Hnodes).
  destruct (lookup_lt_is_Some_2 hashes (N.to_nat (N.of_nat dependent))) as [h Hh]; [lia|]. rewrite Hh. cbn [mbind option_bind].
  match goal with |- context [mapM ?f ?l] => destruct (mapM_total f l) as (k & -> & _) end; [|by eexists].
  intros provider Hp%bits_law%Hd%elem_of_span. destruct (lookup_lt_is_Some_2 hashes (N.to_nat provider)) as [h' Hh']; [lia|].
  rewrite Hh'. by eexists.
Qed.

Lemma Pfp_ok n m region :
  memo_wf m -> region_ready (CS := CS) n region -> edges_of_joins region -> components_bound m region ->
  returns (fun fp => fingerprint_wf fp /\ atoms_bound m fp /\ fp_atoms fp = m_components region) (Pfp EopCode m region).
Proof.
  intros Hm Hr Hej Hb. unfold Pfp, CDPHyperGraphFingerprint_New. destruct (ry_size _ _ Hr) as [Hc _].
  destruct (mapM_total (atom_hash m) (m_components region)) as (hashes & -> & Hlh & _).
  { intros expr Hin. unfold atom_hash. destruct (Pgexpr expr) as [e|] eqn:He; [|by eexists].
    destruct (Hb expr e Hin He) as [x Hx]. unfold pgexpr_group. rewrite Hx. cbn [mbind option_bind].
    destruct (mw_group _ Hm e x Hx) as (g & _ & -> & _). by eexists. }
  cbn [mbind option_bind].
  assert (Hdeps : returns (fun ds => length ds = n /\ Forall (fun nodes => to_gset nodes ⊆ span 0 n) ds)
    (match m_spec region with
     | None => Some (replicate (length (m_components region)) ns_empty)
     | Some spec => mapM (fun atom => m_dependencies spec !! atom) (seq 0 (length (m_components region)))
     end)).
  { destruct (m_spec region) as [spec|] eqn:Hspec.
    - destruct (ry_spec _ _ Hr spec Hspec) as ([t Hbt] & Hn & _). destruct (br_deps _ _ Hbt) as [Hld _].
      rewrite Hc, <-Hn, <-Hld, mapM_lookup_seq. eexists. split; [done|]. split; [done|].
      apply Forall_forall. intros nodes Hin. rewrite Hld. by apply (built_dependencies_in_range t).
    - eexists. split; [done|]. split; [by rewrite length_replicate|]. apply Forall_replicate. rewrite empty_law. set_solver. }
  eapply returns_bind; [exact Hdeps|]. intros ds [Hld Hds].
  destruct (dependency_hashes_total hashes ds) as [dh ->]; [congruence|by rewrite Hlh, Hc|]. cbn [mbind option_bind].
  eapply returns_bind; [by apply (fingerprint_edges_ok n)|]. intros es Hes. eexists. split; [done|].
  split_and!; [|done|done]. split; cbn [fp_atoms fp_dependencies fp_edges]; rewrite Hc; done.
Qed.
End construction.

(** ** Fingerprints match exactly when they are isomorphic *)

Section fingerprints.
Context {BS : Type} {HB : NodeSet BS} {HO : OperatorIdentity} {HL : OperatorLaws}.
Implicit Types (m : CMemo) (fp entry : CDPHyperGraphFingerprint BS).

(** C27: [Matches] always returns, and it answers whether the two regions are the
    same up to the numbering of their atoms: it finds a one-to-one renumbering
    that carries each atom to an equal one or one in a duplicate group, each
    dependency set to that of the image, and the edges one-to-one to edges with
    the same join, sides (exchanged at most where the join commutes) and conflict
    rules, while the predicates agree one-to-one.  Neither the backtracking nor
    the greedy matching of edges, rules and predicates misses one. *)
Theorem Matches_isomorphic m fp other
    (Hm : memo_wf m) (Hfp : fingerprint_wf fp) (Hother : fingerprint_wf other)
    (Hb : atoms_bound m fp) (Hbo : atoms_bound m other) :
  exists b, Fingerprint_Matches m fp (Some other) = Some b /\ (b = true <-> isomorphic m fp other).
Proof. by apply Matches_ok. Qed.

Lemma same_group_duplicates gs g : g < N.of_nat (length gs) -> FDuplicateGroups gs g g = Some true.
Proof.
  intros Hg. unfold FDuplicateGroups. destruct (lookup_lt_is_Some_2 gs (N.to_nat g)) as [group Hgr]; [lia|].
  rewrite Hgr. cbn [mbind option_bind]. by rewrite N.eqb_refl.
Qed.

Lemma matched_refl {A} (R : A -> A -> Prop) (l : list A) : (forall x, x ∈ l -> R x x) -> matched R l l.
Proof. intros HR. exists l. split; [done|]. apply Forall_Forall2_diag, Forall_forall. done. Qed.

Lemma image_identity n X : X ⊆ span 0 n -> image (N.of_nat <$> seq 0 n) X = X.
Proof.
  intros HX. apply set_eq. intros x. unfold image. rewrite elem_of_map.
  assert (Hid : forall y, y ∈ X -> default 0 ((N.of_nat <$> seq 0 n).[y]) = y).
  { intros y Hy%HX%elem_of_span. rewrite list_lookup_fmap, lookup_seq_lt by lia. cbn. lia. }
  split; [intros (y & -> & Hy); by rewrite Hid|]. intros Hx. exists x. by rewrite Hid.
Qed.

Lemma isomorphic_refl m fp : memo_wf m -> fingerprint_wf fp -> atoms_bound m fp -> isomorphic m fp fp.
Proof.
  intros Hm [Hl Hd He] Hb. split_and!; [done|by apply matched_refl|]. set (n := length (fp_atoms fp)).
  exists (N.of_nat <$> seq 0 n). split.
  - apply NoDup_fmap_2; [apply _|apply NoDup_seq].
  - apply Forall2_fmap_r, Forall2_same_length_lookup. split; [by rewrite length_seq|]. intros i expr k Hi Hk.
    apply lookup_seq in Hk as [-> _]. exists expr. rewrite Nat2N.id. split; [done|]. unfold FAtomMatches.
    destruct (Pgexpr expr) as [e|] eqn:Hpg; [|f_equal; by apply Matches_same_tree].
    destruct (Hb expr e (list_elem_of_lookup_2 _ _ _ Hi) Hpg) as [x Hx]. unfold pgexpr_group. rewrite Hx. cbn [mbind option_bind].
    destruct (mw_group _ Hm e x Hx) as (g & group & -> & Hg & _). apply same_group_duplicates. by eapply lookup_N_lt.
  - intros i j nodes Hi Hj. rewrite list_lookup_fmap in Hj. apply fmap_Some in Hj as (k & Hk & ->).
    apply lookup_seq in Hk as [-> _]. exists nodes. replace (N.of_nat (0 + N.to_nat i)) with i by lia. split; [done|].
    rewrite image_identity; [done|]. rewrite Forall_forall in Hd. by eapply Hd, list_elem_of_lookup_2.
  - apply matched_refl. intros e Hin. rewrite Forall_forall in He. destruct (He e Hin) as (Hel & Her & Heru).
    split_and!; [done|done| |].
    + left. split; by rewrite image_identity.
    + apply matched_refl. intros rule Hru. rewrite Forall_forall in Heru. destruct (Heru rule Hru). split; by rewrite image_identity.
Qed.

(** *** The registry *)

Definition registry_ok m (entries : list (N * CDPHyperGraphFingerprint BS)) : Prop :=
  forall group entry, (group, entry) ∈ entries ->
    group < N.of_nat (length (m_groups m)) /\ fingerprint_wf entry /\ atoms_bound m entry.

Lemma registry_ok_one m group entry :
  group < N.of_nat (length (m_groups m)) -> fingerprint_wf entry -> atoms_bound m entry -> registry_ok m [(group, entry)].
Proof. intros Hg Hw Hb g e Hin%list_elem_of_singleton. by injection Hin as -> ->. Qed.

(** An isomorphic fingerprint is registered for the group or a duplicate of it. *)
Definition registered m (owner : N) fp (entries : list (N * CDPHyperGraphFingerprint BS)) : Prop :=
  exists group entry, (group, entry) ∈ entries /\ FDuplicateGroups (m_groups m) owner group = Some true /\ isomorphic m fp entry.

Lemma FHas_ok m owner fp entries :
  memo_wf m -> registry_ok m entries -> owner < N.of_nat (length (m_groups m)) -> fingerprint_wf fp -> atoms_bound m fp ->
  returns (fun b => b = true <-> registered m owner fp entries) (FHasDPHyperFingerprint m owner fp entries).
Proof.
  intros Hm Hreg Ho Hw Hb. induction entries as [|[group entry] entries IH]; cbn [FHasDPHyperFingerprint].
  { exists false. split; [done|]. split; [done|]. by intros (? & ? & ?%elem_of_nil & _). }
  destruct (Hreg group entry) as (Hg & Hwe & Hbe); [left|].
  destruct (FDuplicateGroups_total (m_groups m) owner group Ho Hg) as [d Hd]. rewrite Hd. cbn [mbind option_bind].
  assert (Hnext : ~ (d = true /\ isomorphic m fp entry) ->
    returns (fun b => b = true <-> registered m owner fp ((group, entry) :: entries)) (FHasDPHyperFingerprint m owner fp entries)).
  { intros Hno. eapply returns_mono; [apply IH; intros g e Hin; apply Hreg; by right|]. intros b ->. split.
    - intros (g & e & Hin & ?). exists g, e. split; [by right|done].
    - intros (g & e & [[= -> ->]|Hin]%elem_of_cons & Hdup & Hiso); [|by exists g, e]. exfalso. apply Hno. split; [congruence|done]. }
  destruct d; cbn [mbind option_bind]; [|apply Hnext; by intros [? _]].
  destruct (Matches_ok m fp entry Hm Hw Hwe Hb Hbe) as (b & -> & Hiso). cbn [mbind option_bind]. destruct b.
  - exists true. split; [done|]. split; [|done]. intros _. exists group, entry. split_and!; [left|done|by apply Hiso].
  - apply Hnext. intros [_ H%Hiso]. done.
Qed.

(** C28: Registering the fingerprint of a region for a group always returns and keeps
    the earlier entries.  It is refused exactly when an isomorphic one is there
    for the group or a duplicate of it, and from then on the group is known to
    have it, so the region is enumerated once. *)
Theorem FRegister_once m owner fp entries
    (Hm : memo_wf m) (Hreg : registry_ok m entries) (Ho : owner < N.of_nat (length (m_groups m)))
    (Hfp : fingerprint_wf fp) (Hb : atoms_bound m fp) :
  exists ok entries', FRegisterDPHyperFingerprint m owner fp entries = Some (ok, entries') /\
    (ok = false <-> registered m owner fp entries) /\ entries `prefix_of` entries' /\ registry_ok m entries' /\
    FHasDPHyperFingerprint m owner fp entries' = Some true.
Proof.
  unfold FRegisterDPHyperFingerprint. destruct (FHas_ok m owner fp entries Hm Hreg Ho Hfp Hb) as (b & Hhas & Hb').
  rewrite Hhas. cbn [mbind option_bind]. destruct b.
  - exists false, entries. split_and!; [done|tauto|done|done|done].
  - assert (Hreg' : registry_ok m (entries ++ [(owner, fp)])).
    { intros g e [Hin|[= -> ->]%list_elem_of_singleton]%elem_of_app; [by apply Hreg|done]. }
    exists true, (entries ++ [(owner, fp)]). split_and!; [done| |by apply prefix_app_r|done|].
    + split; [done|]. intros H%Hb'. done.
    + destruct (FHas_ok m owner fp _ Hm Hreg' Ho Hfp Hb) as ([] & Hh & Hh'); [done|]. exfalso.
      enough (false = true) by done. apply Hh'. exists owner, fp. split_and!.
      * apply elem_of_app. right. by apply list_elem_of_singleton.
      * by apply same_group_duplicates.
      * by apply isomorphic_refl.
Qed.
End fingerprints.

(** ** Witnesses *)

#[local] Existing Instance sample_identity.
#[local] Existing Instance sample_operator_laws.

(** The sample region with the operands of its inner join exchanged, so that its
    atoms are numbered differently. *)
Definition sample_renumbered_root : CExpression :=
  sample_node EopLogicalInnerJoin 0
    [sample_node (EopOther 0) 2 [sample_atom 0];
     sample_node EopLogicalLeftOuterJoin 0 [sample_atom 0; sample_atom 1; sample_predicate 0 1];
     sample_predicate 1 2].

Definition sample_spec_of (root : CExpression) : CJoinRegionSpec (gset N) :=
  match Build (HD := sample_props) root CJoinRegionSpec_New with
  | Some (true, spec) => spec
  | _ => CJoinRegionSpec_New
  end.
Definition sample_region_of (root : CExpression) : CDPHyperJoinRegion (gset N) :=
  default sample_mixed (snd <$> BuildRegion (HD := sample_props) (HP := sample_ops)
    (CDPHyperJoinRegion_FromSpec (HP := sample_ops) (sample_spec_of root) 10)).
Definition sample_fingerprint (root : CExpression) : CDPHyperGraphFingerprint (gset N) :=
  default (MkFingerprint [] [] [] [] 0) (Pfp (fun _ => 0) sample_empty (sample_region_of root)).

Lemma sample_fingerprint_ok root :
  root = sample_root \/ root = sample_renumbered_root ->
  fingerprint_wf (sample_fingerprint root) /\ atoms_bound sample_empty (sample_fingerprint root).
Proof.
  intros Hroot.
  assert (HB' : Build (HD := sample_props) root CJoinRegionSpec_New = Some (true, sample_spec_of root))
    by (destruct Hroot as [-> | ->]; vm_compute; reflexivity).
  assert (Hcdc : m_cdc_supported (sample_spec_of root) = true) by (destruct Hroot as [-> | ->]; vm_compute; reflexivity).
  assert (Hn : N.of_nat (length (m_atoms (sample_spec_of root))) < 2 ^ ULONG_BITS)
    by (destruct Hroot as [-> | ->]; vm_compute; reflexivity).
  assert (Hbuild : BuildRegion (HD := sample_props) (HP := sample_ops)
      (CDPHyperJoinRegion_FromSpec (HP := sample_ops) (sample_spec_of root) 10) = Some (true, sample_region_of root))
    by (destruct Hroot as [-> | ->]; vm_compute; reflexivity).
  assert (Hbud : 10 < 2 ^ ULONG_BITS) by reflexivity.
  pose proof (built_ready (HD := sample_props) (HP := sample_ops) root _ 10 _ HB' Hcdc Hbud Hn Hbuild) as Hr.
  pose proof (built_edges_of_joins (HD := sample_props) (HP := sample_ops) root _ 10 _ HB' Hcdc Hbud Hbuild) as Hej.
  destruct (Pfp_ok (HD := sample_props) (fun _ => 0) _ sample_empty _ sample_empty_ok Hr Hej) as (fp & Hfp & Hw & Hb & _).
  { intros expr e Hin He. assert (Hun : forallb (fun a => negb (bool_decide (is_Some (Pgexpr a)))) (m_components (sample_region_of root)) = true)
      by (destruct Hroot as [-> | ->]; vm_compute; reflexivity).
    rewrite forallb_forall in Hun. apply list_elem_of_In, Hun in Hin. rewrite He in Hin. by rewrite bool_decide_true in Hin. }
  unfold sample_fingerprint. rewrite Hfp. by split.
Qed.

Lemma Matches_isomorphic_witness :
  isomorphic sample_empty (sample_fingerprint sample_root) (sample_fingerprint sample_renumbered_root).
Proof.
  destruct (sample_fingerprint_ok sample_root) as [Hw1 Hb1]; [by left|].
  destruct (sample_fingerprint_ok sample_renumbered_root) as [Hw2 Hb2]; [by right|].
  destruct (Matches_isomorphic sample_empty _ _ sample_empty_ok Hw1 Hw2 Hb1 Hb2) as (b & Hm & Hb). apply Hb.
  assert (Hc : Fingerprint_Matches sample_empty (sample_fingerprint sample_root)
      (Some (sample_fingerprint sample_renumbered_root)) = Some true) by (vm_compute; reflexivity).
  rewrite Hc in Hm. injection Hm as <-. reflexivity.
Defined.

(** One group; the renumbered region is refused after the first one. *)
Definition sample_one_group : CMemo := MkMemo [MkGroup false None [] [] false] [] ∅ None.

Lemma sample_one_group_ok : memo_wf sample_one_group.
Proof.
  split; [split|..]; cbn.
  - intros g group d Hg Hd. destruct (N.to_nat g) as [|[]]; [|done..]. by injection Hg as <-.
  - intros g group e Hg He. destruct (N.to_nat g) as [|[]]; [|done..]. injection Hg as <-. by apply elem_of_nil in He.
  - by intros e x c Hx.
  - by intros e x Hx.
  - by intros g group e x Hg He Hx.
  - intros b e. rewrite lookup_empty. by intros ?%elem_of_nil.
  - by intros e x o Hx.
Qed.

Lemma sample_unbound root m : root = sample_root \/ root = sample_renumbered_root ->
  atoms_bound m (sample_fingerprint root).
Proof.
  intros Hroot expr e Hin He.
  assert (Hun : forallb (fun a => negb (bool_decide (is_Some (Pgexpr a)))) (fp_atoms (sample_fingerprint root)) = true)
    by (destruct Hroot as [-> | ->]; vm_compute; reflexivity).
  rewrite forallb_forall in Hun. apply list_elem_of_In, Hun in Hin. rewrite He in Hin. by rewrite bool_decide_true in Hin.
Qed.

Lemma FRegister_once_witness :
  exists ok entries', FRegisterDPHyperFingerprint sample_one_group 0 (sample_fingerprint sample_renumbered_root)
      [(0, sample_fingerprint sample_root)] = Some (ok, entries') /\ ok = false /\
    FHasDPHyperFingerprint sample_one_group 0 (sample_fingerprint sample_renumbered_root) entries' = Some true.
Proof.
  destruct (sample_fingerprint_ok sample_root) as [Hw1 _]; [by left|].
  destruct (sample_fingerprint_ok sample_renumbered_root) as [Hw2 _]; [by right|].
  destruct (FRegister_once sample_one_group 0 (sample_fingerprint sample_renumbered_root) [(0, sample_fingerprint sample_root)])
    as (ok & entries' & Hf & _ & _ & _ & Hhas).
  - apply sample_one_group_ok.
  - apply registry_ok_one; [reflexivity|exact Hw1|]. apply sample_unbound. by left.
  - reflexivity.
  - exact Hw2.
  - apply sample_unbound. by right.
  - exists ok, entries'. split; [exact Hf|]. split; [|exact Hhas].
    assert (Hc : fst <$> FRegisterDPHyperFingerprint sample_one_group 0 (sample_fingerprint sample_renumbered_root)
      [(0, sample_fingerprint sample_root)] = Some false) by (vm_compute; reflexivity).
    rewrite Hf in Hc. by injection Hc.
Defined.
