(* ===== verification/JoinMaterialize.v ===== *)
(** * CJobJoinEnumeration: putting a plan into the memo

    Model of the second half of [FEnumerateRegion] (libgpopt/src/search/
    CJobJoinEnumeration.cpp): the table of the groups of subsets, in which groups
    that turn out to denote the same subset are marked as duplicates, and the loop
    that inserts for every pair of the plan the join it stands for, in both
    orders where the join commutes.  Left out: the check against regions already
    registered, the publication of the outcome, and tracing. *)

From S2P Require Import Prelude NodeSet Expression DPHyperGraph DPHyperEnum DPHyperPlan DPHyperSimplifier.
From S2P Require Import UnionFind JoinRegionSpec JoinRegion JoinRegionPairs.
From S2P Require Import NodeMap MemoGroups Memo MemoMerge JoinCost JoinEnumeration.

Open Scope N_scope.

Section materialize.
Context {BS : Type} {HB : NodeSet BS} {HP : PredicateOps} {HO : OperatorIdentity}.
(** [CXform::FDSLShell] and [CXform::ExfDPHyperJoinRegion] *)
Context (FDSLShell : N -> bool) (ExfDPHyperJoinRegion : N).
Implicit Types (m : CMemo) (nodes : BS) (g : N) (region : CDPHyperJoinRegion BS) (pr : SPair BS).

(** ** [CSubsetGroups] *)

Abbreviation CSubsetGroups := (NodeMap BS N).

Definition CanonicalGroup m g : option N := PgroupDuplicateMaster (m_groups m) g.

(** The outer option is an access out of range, the inner one [nullptr]. *)
Definition CSubsetGroups_Lookup nodes (s : CSubsetGroups) m : option (option N) :=
  match NodeMap_Lookup nodes s with
  | None => Some None
  | Some i =>
      entry ← nm_entries s !! i;
      g ← CanonicalGroup m entry.2;
      Some (Some g)
  end.

Definition CSubsetGroups_Record nodes g (s : CSubsetGroups) m : option (N * CSubsetGroups * CMemo) :=
  group ← CanonicalGroup m g;
  existing ← CSubsetGroups_Lookup nodes s m;
  match existing with
  | Some existing =>
      if existing =? group then Some (existing, s, m) else
      down ← FReachable (BS := BS) m existing group;
      up ← FReachable (BS := BS) m group existing;
      if down || up then Some (existing, s, m) else
      gs ← MarkDuplicates existing group (m_groups m);
      let m := with_groups gs m in
      existing ← CanonicalGroup m existing;
      Some (existing, s, m)
  | None => Some (group, NodeMap_Record nodes group s, m)
  end.

(** ** The table before the pairs *)

Fixpoint record_components (node : N) (component_groups : list N) (s : CSubsetGroups) m
    : option (CSubsetGroups * CMemo) :=
  match component_groups with
  | [] => Some (s, m)
  | g :: component_groups =>
      '(_, s, m) ← CSubsetGroups_Record (singleton node) g s m;
      record_components (node + 1) component_groups s m
  end.

(** The edges of the original tree with the groups of its joins; the code asserts
    that there are as many. *)
Fixpoint record_skeleton (edges : list (CEdge BS)) (skeleton_groups : list N) (s : CSubsetGroups) m
    : option (CSubsetGroups * CMemo) :=
  match edges, skeleton_groups with
  | [], _ => Some (s, m)
  | edge :: edges, g :: skeleton_groups =>
      '(_, s, m) ← CSubsetGroups_Record (ns_Union (m_eleft edge) (m_eright edge)) g s m;
      record_skeleton edges skeleton_groups s m
  | _ :: _, [] => None
  end.

(** ** The pairs *)

Definition PexprJoin (join_type : EOperatorId) (left right : N) (predicate : CExpression)
    (notin_comparison : option CExpression) m : option CExpression :=
  op ← PopDPHyperJoin ExfDPHyperJoinRegion join_type notin_comparison;
  left_leaf ← PexprGroupLeaf m left;
  right_leaf ← PexprGroupLeaf m right;
  Some (MkExpression op [left_leaf; right_leaf; predicate] None).

(** [SJoinRequest request{}], and the built one where there is a descriptor. *)
Definition pair_request region pr : option SJoinRequest :=
  match m_spec region with
  | None => Some (MkRequest EopLogicalInnerJoin false false None [])
  | Some _ => request ← FBuildJoinRequest (p_left pr) (p_right pr) region; request
  end.

(** [complex_region] is [mixed_joins]. *)
Definition pair_join_type region (request : SJoinRequest) : EOperatorId :=
  match mixed_joins region with
  | Some _ => rq_join_type request
  | None => EopLogicalInnerJoin
  end.

Definition pair_predicate region pr (request : SJoinRequest) (full : bool) : option CExpression :=
  match mixed_joins region with
  | Some _ => PexprRequestPredicate request region
  | None => PexprPredicate (p_left pr) (p_right pr) full region
  end.

Definition add_reverse region (request : SJoinRequest) : bool :=
  let join_type := pair_join_type region request in
  (bool_decide (join_type = EopLogicalInnerJoin) || bool_decide (join_type = EopLogicalFullOuterJoin)) &&
  (negb (bool_decide (is_Some (m_spec region))) || negb (rq_dependency_directional request)).

(** The memo, the groups of subsets and [m_intermediate_groups]. *)
Record SMaterialization := MkMaterialization {
  mt_memo : CMemo;
  mt_subsets : CSubsetGroups;
  mt_intermediate : list N
}.
Implicit Types (st : SMaterialization).

Definition pair_full region pr : bool :=
  ns_Size (ns_Union (p_left pr) (p_right pr)) =? N.of_nat (length (m_components region)).

(** The groups of the sides in the order the request asks for. *)
Definition oriented region (request : SJoinRequest) (left right : N) : N * N :=
  if bool_decide (is_Some (m_spec region)) && rq_swapped request then (right, left) else (left, right).

Definition push_group (g : N) (groups : list N) : list N :=
  if bool_decide (g ∈ groups) then groups else groups ++ [g].

(** [m_pgexpr] is the group expression of the region's root. *)
Definition materialize_pair (m_pgexpr : N) region pr st : option SMaterialization :=
  let m := mt_memo st in
  let s := mt_subsets st in
  left_found ← CSubsetGroups_Lookup (p_left pr) s m;
  right_found ← CSubsetGroups_Lookup (p_right pr) s m;
  left_group ← left_found;
  right_group ← right_found;
  let joined := ns_Union (p_left pr) (p_right pr) in
  let full := pair_full region pr in
  target ← (if full then g ← pgexpr_group m m_pgexpr; Some (Some g) else CSubsetGroups_Lookup joined s m);
  request ← pair_request region pr;
  let join_type := pair_join_type region request in
  predicate ← pair_predicate region pr request full;
  let '(left_group, right_group) := oriented region request left_group right_group in
  join ← PexprJoin join_type left_group right_group predicate (rq_notin_comparison request) m;
  '(g, m) ← CEngine_PgroupInsert (BS := BS) FDSLShell target join ExfDPHyperJoinRegion (Some m_pgexpr) (negb full) m;
  '(g, s, m) ← CSubsetGroups_Record joined g s m;
  let groups := if full then mt_intermediate st else push_group g (mt_intermediate st) in
  if add_reverse region request then
    join ← PexprJoin join_type right_group left_group predicate (rq_notin_comparison request) m;
    '(g, m) ← CEngine_PgroupInsert (BS := BS) FDSLShell (Some g) join ExfDPHyperJoinRegion (Some m_pgexpr) (negb full) m;
    '(_, s, m) ← CSubsetGroups_Record joined g s m;
    Some (MkMaterialization m s groups)
  else Some (MkMaterialization m s groups).

Fixpoint materialize_pairs (m_pgexpr : N) region (pairs : list (SPair BS)) st : option SMaterialization :=
  match pairs with
  | [] => Some st
  | pr :: pairs => st ← materialize_pair m_pgexpr region pr st; materialize_pairs m_pgexpr region pairs st
  end.

Definition MaterializePlan (m_pgexpr : N) region (component_groups skeleton_groups : list N) (plan : CDPHyperPlan BS) m
    : option SMaterialization :=
  '(s, m) ← record_components 0 component_groups NodeMap_New m;
  '(s, m) ← (match m_spec region with
             | None => Some (s, m)
             | Some spec => record_skeleton (m_sedges spec) skeleton_groups s m
             end);
  materialize_pairs m_pgexpr region (m_pairs plan) (MkMaterialization m s []).
End materialize.

(** ** Marking duplicates in the memo *)

(** Edges redirected from two vertices, neither of which reaches the other, to one
    of them close no cycle. *)
Lemma tc_merged (R R' : N -> N -> Prop) (a b top : N) :
  (forall x, ~ tc R x x) -> ~ rtc R a b -> ~ rtc R b a -> top = a \/ top = b ->
  (forall x y, R' x y -> exists z, R x z /\ y = if decide (z = a \/ z = b) then top else z) ->
  forall x, ~ tc R' x x.
Proof.
  intros Hac Hab Hba Htop HR'. set (to := fun z => if decide (z = a \/ z = b) then top else z) in *.
  assert (Hto : forall z, to z = z \/ ((z = a \/ z = b) /\ to z = top)).
  { intros z. unfold to. destruct (decide _); tauto. }
  assert (Hpair : forall u v, u = a \/ u = b -> v = a \/ v = b -> ~ tc R u v).
  { intros u v [-> | ->] [-> | ->] Ht; [by eapply Hac|by apply Hab, tc_rtc|by apply Hba, tc_rtc|by eapply Hac]. }
  assert (Hinv : forall x y, tc R' x y -> exists z, y = to z /\
    (tc R x z \/ exists u, (u = a \/ u = b) /\ tc R x u /\ tc R top z)).
  { intros x. apply tc_ind_r.
    - intros y (z & Hz & ->)%HR'. exists z. split; [done|]. left. by apply tc_once.
    - intros y w _ Hw (z & -> & Hz). apply HR' in Hw as (z' & Hz' & ->). exists z'. split; [done|].
      destruct (Hto z) as [He|[Hz1 He]]; rewrite He in Hz'.
      + destruct Hz as [Hz|(u & Hu & Hxu & Htz)]; [left|right; exists u; split_and!; [done..|]]; by eapply tc_r.
      + right. destruct Hz as [Hz|(u & Hu & Hxu & _)]; [exists z|exists u]; split_and!; try done; by apply tc_once. }
  intros x (z & Hx & Hz)%Hinv. destruct (Hto z) as [He|[Hz1 He]]; rewrite He in Hx; subst x.
  - destruct Hz as [Hz|(u & Hu & Hxu & Htz)]; [by eapply Hac|]. apply (Hpair top u Htop Hu). by etrans.
  - destruct Hz as [Hz|(u & Hu & Hxu & Htz)]; [by apply (Hpair top z)|by apply (Hpair top u)].
Qed.

(** The same when the sources of the steps are redirected too. *)
Lemma tc_classes_merged (R R' : N -> N -> Prop) (a b top : N) :
  let to z := if decide (z = a \/ z = b) then top else z in
  (forall x, ~ tc R x x) -> ~ rtc R a b -> ~ rtc R b a -> top = a \/ top = b ->
  (forall x y, R' x y -> exists x0 z, R x0 z /\ x = to x0 /\ y = to z) ->
  forall x, ~ tc R' x x.
Proof.
  intros to Hac Hab Hba Htop HR'.
  assert (Hto : forall x z, to x = to z -> x = z \/ ((x = a \/ x = b) /\ (z = a \/ z = b))).
  { intros x z. unfold to. destruct (decide (x = _ \/ _)), (decide (z = _ \/ _)); [by right| | |by left]; intros ->; right; tauto. }
  assert (Hpair : forall u v, u = a \/ u = b -> v = a \/ v = b -> ~ tc R u v).
  { intros u v [-> | ->] [-> | ->] Ht; [by eapply Hac|by apply Hab, tc_rtc|by apply Hba, tc_rtc|by eapply Hac]. }
  assert (Hinv : forall x y, tc R' x y -> exists x0 z, x = to x0 /\ y = to z /\
    (tc R x0 z \/ exists u v, (u = a \/ u = b) /\ (v = a \/ v = b) /\ tc R x0 u /\ tc R v z)).
  { intros x. apply tc_ind_r.
    - intros y (x0 & z & Hz & -> & ->)%HR'. exists x0, z. split_and!; [done..|]. left. by apply tc_once.
    - intros y w _ (y0 & z' & Hz' & -> & ->)%HR' (x0 & z & -> & Hyz & Hz). exists x0, z'. split_and!; [done..|].
      destruct (Hto _ _ Hyz) as [->|[Hy0 Hz0]].
      + destruct Hz as [Hz|(u & v & Hu & Hv & Hxu & Hvz)]; [left|right; exists u, v; split_and!; [done..|]]; by eapply tc_r.
      + right. destruct Hz as [Hz|(u & v & Hu & _ & Hxu & _)]; [exists z, y0|exists u, y0]; split_and!; try done; by apply tc_once. }
  intros x (x0 & z & -> & Hxz & Hz)%Hinv. destruct (Hto _ _ Hxz) as [->|[Hx0 Hz0]].
  - destruct Hz as [Hz|(u & v & Hu & Hv & Hxu & Hvz)]; [by eapply Hac|]. apply (Hpair v u Hv Hu). by etrans.
  - destruct Hz as [Hz|(u & v & Hu & Hv & Hxu & Hvz)]; [by apply (Hpair x0 z)|by apply (Hpair x0 u)].
Qed.

(** [FReachable] finds no cycle. *)
Definition searched_acyclic {HO : OperatorIdentity} (m : CMemo) : Prop := forall g, ~ tc (memo_edge m) g g.

Section marking.
Context {BS : Type} {HB : NodeSet BS} {HO : OperatorIdentity} {HL : OperatorLaws}.
Implicit Types (m : CMemo) (gs : list CGroup) (g : N).

(** A group and its master are of one kind. *)
Definition kinds gs : Prop :=
  forall g group, gs.[g] = Some group ->
    exists root, gs.[master gs g] = Some root /\ g_fScalar root = g_fScalar group.

Record mat_wf m : Prop := {
  mt_wf : memo_wf m;
  mt_grouped : grouped m;
  mt_kinds : kinds (m_groups m)
}.

Definition relational_group m g : Prop :=
  exists group, (m_groups m).[g] = Some group /\ g_fScalar group = false.

Lemma relational_range m g : relational_group m g -> g < N.of_nat (length (m_groups m)).
Proof. intros (group & Hg & _). by eapply lookup_N_lt. Qed.

Lemma relational_leads m m' g : leads m m' -> relational_group m g -> relational_group m' g.
Proof. intros (_ & Hg & _) (group & (group' & ? & ? & _)%Hg & ?). exists group'. split; [done|congruence]. Qed.

Lemma relational_master m g : mat_wf m -> relational_group m g -> relational_group m (master (m_groups m) g).
Proof. intros Hm (group & (root & ? & ?)%(mt_kinds _ Hm) & ?). exists root. split; [done|congruence]. Qed.

Lemma mat_links m : mat_wf m -> links_ok (m_groups m).
Proof. intros Hm. apply (mt_wf _ Hm). Qed.

Lemma CanonicalGroup_ok m g : mat_wf m -> relational_group m g -> CanonicalGroup m g = Some (master (m_groups m) g).
Proof. intros Hm Hg. apply Master_Some; [by apply mat_links|by apply relational_range]. Qed.

(** Insertion keeps the invariant. *)
Lemma extends_mat_wf m m' : mat_wf m -> memo_wf m' -> grouped m' -> extends m m' -> mat_wf m' /\ leads m m'.
Proof.
  intros Hm Hwf' Hg' He. pose proof (mat_links _ Hm) as Hl. pose proof (mo_links _ (mw_ok _ Hwf')) as Hl'.
  split; [|by apply extends_leads]. split; [done..|]. intros g group' Hgr'.
  destruct (N.lt_ge_cases g (N.of_nat (length (m_groups m)))) as [Hlt|Hge].
  - destruct (lookup_lt_is_Some_2 (m_groups m) (N.to_nat g)) as [group Hgr]; [lia|].
    destruct (mt_kinds _ Hm g group Hgr) as (root & Hr & Hk). pose proof (proj1 (proj2 He)) as Hgs.
    destruct (Hgs _ _ Hgr) as (group0 & Hgr0 & _ & Hs & _). rewrite Hgr' in Hgr0. injection Hgr0 as <-.
    destruct (Hgs _ _ Hr) as (root' & Hr' & _ & Hs' & _). exists root'.
    rewrite (extends_master m m' g He Hl Hl' Hlt). split; [done|congruence].
  - exists group'. rewrite (master_step _ _ _ Hl' Hgr'), (proj2 (proj2 He) g group' Hgr' Hge). done.
Qed.

Section mark.
Context (m : CMemo) (a b : N) (gs : list CGroup).
Context (Hm : mat_wf m) (Ha : relational_group m a) (Hb : relational_group m b).
Context (Hmerged : merged (m_groups m) a b gs).
Abbreviation m' := (with_groups gs m).

Lemma marked_to g group : (m_groups m).[g] = Some group ->
  exists group', gs.[g] = Some group' /\ g_fScalar group' = g_fScalar group /\ m_listGExprs group' = m_listGExprs group.
Proof.
  destruct Hmerged as (_ & Ho & _). intros (group' & ? & ? & ? & _)%(Forall2_lookup_l _ _ _ _ _ Ho). by exists group'.
Qed.

Lemma marked_from g group' : gs.[g] = Some group' ->
  exists group, (m_groups m).[g] = Some group /\ g_fScalar group' = g_fScalar group /\ m_listGExprs group' = m_listGExprs group.
Proof.
  destruct Hmerged as (_ & Ho & _). intros (group & ? & ? & ? & _)%(Forall2_lookup_r _ _ _ _ _ Ho). by exists group.
Qed.

Lemma marked_length : length gs = length (m_groups m).
Proof. destruct Hmerged as (_ & Ho & _). by apply links_only_length. Qed.

Lemma marked_leads : leads m m'.
Proof.
  split_and!; [by intros ??| |].
  - intros g group (group' & ? & ? & Hls)%marked_to. exists group'. rewrite Hls. split_and!; [done|done|set_solver].
  - apply (merged_evolves _ a b); [by apply mat_links|by apply relational_range..|done].
Qed.

Lemma marked_mat_wf : mat_wf m'.
Proof.
  pose proof (mat_links _ Hm) as Hl. destruct Hm as [[[_ Hx Hc] Hown Hmem Htab Hor] Hgr Hk].
  split; [split; [split| | | |]|..]; cbn [with_groups m_groups m_gexprs m_sht].
  - apply Hmerged.
  - intros g group' e (group & Hg & _ & ->)%marked_from. by apply (Hx g group).
  - intros e gexpr c Hgx Hin. rewrite marked_length. by apply (Hc e gexpr c).
  - intros e gexpr (g & group & Hp & (group' & Hg' & Hs & Hls)%marked_to & Hin & Hsc)%Hown.
    exists g, group'. rewrite Hs, Hls. by split_and!.
  - intros g group' e gexpr (group & Hg & _ & ->)%marked_from. by apply (Hmem g group).
  - done.
  - done.
  - intros g group' Hg'. destruct (marked_from g group' Hg') as (group & Hg & -> & ->). exact (Hgr g group Hg).
  - intros g group' (group & Hg & -> & _)%marked_from. destruct Hmerged as (_ & _ & Hmm).
    rewrite Hmm by (by eapply lookup_N_lt). destruct (Hk g group Hg) as (root & Hroot & <-).
    destruct (relational_master m a Hm Ha) as (ra & Hra & Hsa). destruct (relational_master m b Hm Hb) as (rb & Hrb & Hsb).
    unfold merged_master. destruct (decide _) as [Hor'|].
    + assert (Hs : g_fScalar root = false) by (destruct Hor' as [He|He]; rewrite He in Hroot; congruence).
      destruct (N.max_spec (master (m_groups m) a) (master (m_groups m) b)) as [[_ ->]|[_ ->]].
      * destruct (marked_to _ _ Hrb) as (rb' & ? & ? & _). exists rb'. split; [done|congruence].
      * destruct (marked_to _ _ Hra) as (ra' & ? & ? & _). exists ra'. split; [done|congruence].
    + destruct (marked_to _ _ Hroot) as (root' & ? & ? & _). exists root'. by split.
Qed.

(** An edge afterwards is an edge before, redirected to the common master. *)
Lemma marked_edge x y : memo_edge m' x y ->
  exists z, memo_edge m x z /\
    y = if decide (z = master (m_groups m) a \/ z = master (m_groups m) b)
        then N.max (master (m_groups m) a) (master (m_groups m) b) else z.
Proof.
  intros (group' & e & gexpr & c & child' & Hg' & Hin & Hx & Hlog & Hc & Hch' & Hs & ->).
  destruct (marked_from _ _ Hg') as (group & Hg & _ & Hls). destruct (marked_from _ _ Hch') as (child & Hch & Hsc & _).
  exists (master (m_groups m) c). split.
  - exists group, e, gexpr, c, child. rewrite <-Hls, <-Hsc. by split_and!.
  - destruct Hmerged as (_ & _ & Hmm). cbn [with_groups m_groups]. rewrite Hmm by (by eapply lookup_N_lt). done.
Qed.

(** What a mark between groups neither of which reaches the other gives. *)
Lemma marked_searched_acyclic :
  searched_acyclic m -> ~ memo_path m a b -> ~ memo_path m b a -> searched_acyclic m'.
Proof.
  intros Hac Hab Hba. unfold memo_path in Hab, Hba. unfold searched_acyclic.
  apply (tc_merged (memo_edge m) (memo_edge m') (master (m_groups m) a) (master (m_groups m) b)
           (N.max (master (m_groups m) a) (master (m_groups m) b))); [done..|lia|apply marked_edge].
Qed.

Lemma marked_acyclic :
  search_complete m -> acyclic m -> ~ memo_path m a b -> ~ memo_path m b a -> acyclic m'.
Proof.
  intros Hs Hac Hab Hba. unfold memo_path in Hab, Hba. unfold acyclic.
  apply (tc_classes_merged (class_edge m) (class_edge m') (master (m_groups m) a) (master (m_groups m) b)
           (N.max (master (m_groups m) a) (master (m_groups m) b))); [done| | |lia|].
  - by intros ?%search_complete_path.
  - by intros ?%search_complete_path.
  - intros x y (g & He & ->). pose proof (memo_edge_start _ _ _ He) as Hg. cbn [with_groups m_groups] in *.
    rewrite marked_length in Hg. apply marked_edge in He as (z & He & ->). exists (master (m_groups m) g), z.
    split_and!; [by exists g| |done]. destruct Hmerged as (_ & _ & Hmm). by rewrite Hmm.
Qed.
End mark.
End marking.

(** ** The table of the groups of subsets *)

Section subsets.
Context {BS : Type} {HB : NodeSet BS} {HO : OperatorIdentity} {HL : OperatorLaws}.
Implicit Types (m : CMemo) (nodes : BS) (g : N) (s : NodeMap BS N).

Record subsets_ok s m : Prop := {
  so_map : nm_ok s;
  so_groups : forall X g, nm_map s !! X = Some g -> relational_group m g
}.

Lemma subsets_leads s m m' : leads m m' -> subsets_ok s m -> subsets_ok s m'.
Proof. intros He [Hs Hg]. split; [done|]. intros X g HX. eapply relational_leads; [done|by eapply Hg]. Qed.

Lemma New_subsets_ok m : subsets_ok NodeMap_New m.
Proof. destruct (New_nm_ok (BS := BS) (V := N)) as [Hn He]. split; [done|]. intros X g. by rewrite He. Qed.

Lemma CSubsetGroups_Lookup_ok nodes s m :
  mat_wf m -> subsets_ok s m ->
  CSubsetGroups_Lookup nodes s m = Some (master (m_groups m) <$> nm_map s !! to_gset nodes).
Proof.
  intros Hm [Hs Hg]. unfold CSubsetGroups_Lookup. pose proof (Lookup_nm_map nodes s Hs) as Hl.
  destruct (NodeMap_Lookup nodes s) as [i|]; [|by rewrite Hl].
  destruct Hl as (k & g & Hi & _ & Hk). rewrite Hi, Hk. cbn [mbind option_bind snd fmap option_fmap option_map].
  by rewrite (CanonicalGroup_ok m g Hm (Hg _ _ Hk)).
Qed.

(** The group recorded for the subset is of the class of [g], or one of them
    reaches the other. *)
Definition recorded_as m g (h : N) : Prop :=
  same_class (m_groups m) h g \/ memo_path m h g \/ memo_path m g h.

Definition record_post nodes g s m (res : N * NodeMap BS N * CMemo) : Prop :=
  let '(r, s', m') := res in
  mat_wf m' /\ leads m m' /\ subsets_ok s' m' /\ nm_map s ⊆ nm_map s' /\ relational_group m' r /\
  (exists h, nm_map s' !! to_gset nodes = Some h /\ same_class (m_groups m') r h /\ recorded_as m' g h) /\
  (searched_acyclic m -> searched_acyclic m') /\ (search_complete m -> acyclic m -> acyclic m').

Lemma CSubsetGroups_Record_ok nodes g s m :
  mat_wf m -> subsets_ok s m -> relational_group m g ->
  returns (record_post nodes g s m) (CSubsetGroups_Record nodes g s m).
Proof.
  intros Hm Hs Hg. unfold CSubsetGroups_Record. pose proof (mat_links _ Hm) as Hl.
  rewrite (CanonicalGroup_ok m g Hm Hg), (CSubsetGroups_Lookup_ok nodes s m Hm Hs). cbn [mbind option_bind].
  pose proof (relational_master m g Hm Hg) as Hg'. pose proof (relational_range _ _ Hg) as Hgr.
  pose proof (leads_refl m Hl) as Hrefl. set (group := master (m_groups m) g) in *.
  destruct (nm_map s !! to_gset nodes) as [h|] eqn:Hh; cbn [fmap option_fmap option_map].
  2: { destruct (Record_nm_ok nodes group s (so_map _ _ Hs) Hh) as [Hok Hmap].
       exists (group, NodeMap_Record nodes group s, m). split; [done|]. split_and!; [done..| |by rewrite Hmap; apply insert_subseteq|done| |done|done].
       - split; [done|]. intros X x. rewrite Hmap, lookup_insert_Some. intros [[_ <-]|[_ Hx]]; [done|by eapply so_groups].
       - exists group. rewrite Hmap, lookup_insert_eq. split_and!; [done..|]. left. unfold same_class, group. by rewrite master_idem. }
  pose proof (so_groups _ _ Hs _ _ Hh) as Hrh. pose proof (relational_master m h Hm Hrh) as Hrh'.
  pose proof (relational_range _ _ Hrh) as Hhr. set (existing := master (m_groups m) h) in *.
  assert (Heh : same_class (m_groups m) existing h) by (unfold same_class, existing; by rewrite master_idem).
  assert (Hpath : forall x y, memo_path m (master (m_groups m) x) (master (m_groups m) y) ->
     x < N.of_nat (length (m_groups m)) -> y < N.of_nat (length (m_groups m)) -> memo_path m x y).
  { intros x y. unfold memo_path. intros Hp Hx Hy. by rewrite !master_idem in Hp. }
  assert (Hsame : recorded_as m g h -> record_post nodes g s m (existing, s, m))
    by (intros Hr; split_and!; [done..|by exists h|done|done]).
  destruct (N.eqb_spec existing group) as [Heq|Hne]; [exists (existing, s, m); split; [done|]; apply Hsame; by left|].
  destruct Hrh' as (eg & Hegr & Hes). destruct Hg' as (gg & Hggr & Hgs). pose proof (mw_ok _ (mt_wf _ Hm)) as Hok.
  destruct (FReachable_ok (BS := BS) m existing group eg gg Hok Hegr Hggr) as (down & -> & Hdown). cbn [mbind option_bind].
  destruct (FReachable_ok (BS := BS) m group existing gg eg Hok Hggr Hegr) as (up & -> & Hup). cbn [mbind option_bind].
  destruct (down || up) eqn:Hdu.
  { exists (existing, s, m). split; [done|]. apply Hsame. right. apply orb_true_iff in Hdu as [->| ->].
    - left. apply Hpath; [by apply Hdown|done..].
    - right. apply Hpath; [by apply Hup|done..]. }
  apply orb_false_iff in Hdu as [-> ->].
  destruct (MarkDuplicates_ok existing group (m_groups m) Hl) as (gs & -> & Hmg & Hdup);
    [by eapply lookup_N_lt..|done|]. cbn [mbind option_bind].
  assert (Hre : relational_group m existing) by (by exists eg). assert (Hrg : relational_group m group) by (by exists gg).
  pose proof (marked_mat_wf m existing group gs Hm Hre Hrg Hmg) as Hm'.
  pose proof (marked_leads m existing group gs Hm Hre Hrg Hmg) as He.
  pose proof (relational_leads _ _ _ He Hre) as Hre'. rewrite (CanonicalGroup_ok _ _ Hm' Hre'). cbn [mbind option_bind].
  pose proof (mat_links _ Hm') as Hl'. pose proof (relational_range _ _ Hre') as Her'.
  assert (Hc : same_class (m_groups (with_groups gs m)) (master (m_groups (with_groups gs m)) existing) h).
  { unfold same_class. rewrite master_idem by done. by apply (leads_class m); [done|by eapply lookup_N_lt|done|]. }
  assert (Hdn : ~ memo_path m existing group) by (intros Hp; enough (false = true) by done; apply Hdown; by split_and!).
  assert (Hupn : ~ memo_path m group existing) by (intros Hp; enough (false = true) by done; apply Hup; by split_and!).
  eexists. split; [done|]. split_and!; [done|done|by eapply subsets_leads|done|by apply relational_master| | |].
  - exists h. split_and!; [done|done|]. left. etrans; [symmetry; exact Hc|]. unfold same_class. rewrite master_idem by done.
    etrans; [by apply (FDuplicateGroups_master existing group gs)|].
    apply (leads_class m _ group g He); [by eapply lookup_N_lt|done|]. unfold same_class, group. by rewrite master_idem.
  - intros Hac. by apply (marked_searched_acyclic m existing group gs).
  - intros Hsc Hac. by apply (marked_acyclic m existing group gs).
Qed.

(** C26: Recording a group for a subset of the atoms always returns.  The subset is
    then mapped to a group whose class holds the given one, unless one of the two
    reaches the other, and the group returned is of that class.  No entry is lost and
    classes only grow together.  A memo in which [FReachable] finds no cycle stays
    one.  A memo without any cycle, through the expressions of marked groups either,
    stays one when the searches miss nothing, as when the duplicates marked before
    have been merged. *)
Theorem CSubsetGroups_Record_safe nodes g s m
    (Hm : mat_wf m) (Hs : subsets_ok s m) (Hg : relational_group m g) :
  exists r s' m' h, CSubsetGroups_Record nodes g s m = Some (r, s', m') /\
    mat_wf m' /\ leads m m' /\ nm_map s ⊆ nm_map s' /\
    nm_map s' !! to_gset nodes = Some h /\ same_class (m_groups m') r h /\
    (same_class (m_groups m') h g \/ memo_path m' h g \/ memo_path m' g h) /\
    (searched_acyclic m -> searched_acyclic m') /\
    (search_complete m \/ all_merged m -> acyclic m -> acyclic m').
Proof.
  destruct (CSubsetGroups_Record_ok nodes g s m Hm Hs Hg)
    as ([[r s'] m'] & He & ? & ? & _ & ? & _ & (h & ? & ? & ?) & ? & Hac).
  exists r, s', m', h. split_and!; [done..|]. intros [?|Hall]; [by apply Hac|]. apply Hac.
  by apply all_merged_search_complete; [apply mat_links|].
Qed.
End subsets.

(** ** Inserting the join of a pair *)

Section joins.
Context {BS : Type} {HB : NodeSet BS} {HP : PredicateOps} {HO : OperatorIdentity} {HL : OperatorLaws}.
Context (FDSLShell : N -> bool) (ExfDPHyperJoinRegion : N).
(** The operators of the joins are logical. *)
Context (Hjoins : forall join_type notin op,
  PopDPHyperJoin ExfDPHyperJoinRegion join_type notin = Some op -> FLogical op = true).
Implicit Types (m : CMemo) (nodes : BS) (g l r : N) (region : CDPHyperJoinRegion BS) (pr : SPair BS)
  (s : NodeMap BS N) (p : CExpression) (st : SMaterialization (BS := BS)).

(** A predicate to be inserted refers to what is in the memo. *)
Definition predicate_ok m p : Prop :=
  insertable m p /\ relational p /\ (FPatternLeaf (Pop p) = true -> is_Some (Pgexpr p)).

Lemma predicate_leads m m' p : leads m m' -> predicate_ok m p -> predicate_ok m' p.
Proof. intros (Hk & _) (Hi & ? & ?). split_and!; [by eapply insertable_kept|done|done]. Qed.

(** The memo holds the join of two groups on a predicate. *)
Definition joins m (op : COperator) l r p : Prop :=
  exists g pg, in_range (m_groups m) [l; r; pg] /\ stands_for m pg p /\ in_group m g op [l; r; pg].

Lemma joins_leads m m' op l r p : memo_wf m -> leads m m' -> joins m op l r p -> joins m' op l r p.
Proof.
  intros Hwf He (g & pg & Hr & Hs & Hg). exists g, pg. split_and!.
  - intros c Hc%Hr. by eapply leads_in_range.
  - by apply (stands_for_leads m).
  - by apply (leads_in_group m).
Qed.

(** Groups count up to their class. *)
Lemma joins_class m op l r l' r' p :
  same_class (m_groups m) l l' -> same_class (m_groups m) r r' ->
  l' < N.of_nat (length (m_groups m)) -> r' < N.of_nat (length (m_groups m)) ->
  joins m op l r p -> joins m op l' r' p.
Proof.
  intros Hl Hr Hl' Hr' (g & pg & Hrg & Hs & e & x & group & Hx & Hp & Hg & Hin & Hop & k & Hk & Ho & Hc).
  exists g, pg. split_and!; [|done|].
  - intros c. rewrite !elem_of_cons, elem_of_nil. intros [->|[->|[->|[]]]]; [done..|]. apply Hrg. set_solver.
  - exists e, x, group. split_and!; [done..|]. split; [done|]. exists k. split_and!; [done..|].
    apply Forall2_cons_inv_r in Hc as (c1 & k1 & H1 & Hc & ->). apply Forall2_cons_inv_r in Hc as (c2 & k2 & H2 & Hc & ->).
    constructor; [by etrans|]. constructor; [by etrans|done].
Qed.

Lemma PexprGroupLeaf_ok m g :
  mat_wf m -> relational_group m g ->
  exists e x, PexprGroupLeaf m g = Some (MkExpression (ge_pop x) [] (Some e)) /\
    (m_gexprs m).[e] = Some x /\ m_pgroup x = Some g.
Proof.
  intros Hm (group & Hg & Hs). unfold PexprGroupLeaf. rewrite Hg. cbn [mbind option_bind].
  assert (Hread : forall es : list N, (forall e, e ∈ es -> is_Some ((m_gexprs m).[e])) ->
    exists k, mapM (fun e => gexpr ← (m_gexprs m).[e]; Some (e, gexpr)) es = Some k /\
      forall e x, (e, x) ∈ k <-> e ∈ es /\ (m_gexprs m).[e] = Some x).
  { induction es as [|e es IH]; intros Hl; [exists []; split; [done|]; set_solver|].
    destruct (Hl e) as [x Hx]; [left|]. destruct IH as (k & Hk & Hin); [intros; apply Hl; by right|].
    exists ((e, x) :: k). cbn. rewrite Hx. cbn. rewrite Hk. split; [done|]. intros e' x'.
    rewrite !elem_of_cons, Hin. naive_solver. }
  destruct (Hread (m_listGExprs group)) as (k & -> & Hin).
  { intros e He. by eapply mo_exprs; [apply Hm| |]. }
  cbn [mbind option_bind]. destruct (mt_grouped _ Hm g group Hg Hs) as (e0 & x0 & He0 & Hx0 & Hlog0).
  destruct (filter (fun x : N * CGroupExpression => FLogical (ge_pop x.2) = true) k) as [|[e x] f] eqn:Hf.
  { exfalso. assert (Hin0 : (e0, x0) ∈ filter (fun x : N * CGroupExpression => FLogical (ge_pop x.2) = true) k)
      by (apply list_elem_of_filter; split; [done|by apply Hin]). rewrite Hf in Hin0. by apply elem_of_nil in Hin0. }
  exists e, x. cbn [head mbind option_bind]. split; [done|].
  assert (Hex : (e, x) ∈ filter (fun x : N * CGroupExpression => FLogical (ge_pop x.2) = true) k) by (rewrite Hf; left).
  apply list_elem_of_filter in Hex as [_ [Hel Hx]%Hin]. split; [done|]. by apply (mw_member _ (mt_wf _ Hm) g group e x).
Qed.

Lemma insert_join_ok m m_pgexpr target join_type l r p notin op inter :
  mat_wf m -> relational_group m l -> relational_group m r -> predicate_ok m p ->
  (forall g, target = Some g -> relational_group m g) -> m_pgexpr < N.of_nat (length (m_gexprs m)) ->
  DSLProvenance FDSLShell m ExfDPHyperJoinRegion (Some m_pgexpr) = Some false ->
  PopDPHyperJoin ExfDPHyperJoinRegion join_type notin = Some op ->
  exists join, PexprJoin ExfDPHyperJoinRegion join_type l r p notin m = Some join /\
    returns (fun '(g, m') => mat_wf m' /\ leads m m' /\ relational_group m' g /\ joins m' op l r p)
      (CEngine_PgroupInsert (BS := BS) FDSLShell target join ExfDPHyperJoinRegion (Some m_pgexpr) inter m).
Proof.
  intros Hm Hl Hr (Hpi & Hprel & Hpl) Ht Ho Hdsl Hop. unfold PexprJoin. rewrite Hop. cbn [mbind option_bind].
  destruct (PexprGroupLeaf_ok m l Hm Hl) as (el & xl & -> & Hxl & Hgl).
  destruct (PexprGroupLeaf_ok m r Hm Hr) as (er & xr & -> & Hxr & Hgr). cbn [mbind option_bind].
  eexists. split; [done|]. pose proof (Hjoins _ _ _ Hop) as Hlog. pose proof (FLogical_kind op Hlog) as Hsc.
  eapply returns_mono.
  { apply CEngine_PgroupInsert_ok; [apply Hm| | | |by intros].
    - apply insertable_node. repeat constructor; cbn; eauto.
    - by intros ? [= <-].
    - intros g (group & Hg & Hs)%Ht. exists group. split; [done|]. cbn [Pop]. by rewrite Hs, Hsc. }
  intros [g m'] (Hwf' & He & Hins & Hgr' & _).
  assert (Hg' : grouped m').
  { apply Hgr'; [apply Hm|]. apply relational_node. split; [by intros _|]. repeat constructor. done. }
  destruct (extends_mat_wf m m' Hm Hwf' Hg' He) as [Hm' Hled]. split; [done|]. split; [done|].
  destruct Hins as [Hst|(_ & Hd & _)]; [|congruence].
  apply stands_for_node in Hst as (groups & Hrg & Hall & Hin).
  apply Forall2_cons_inv_r in Hall as (c1 & k1 & H1 & Hall & ->).
  apply Forall2_cons_inv_r in Hall as (c2 & k2 & H2 & Hall & ->).
  apply Forall2_cons_inv_r in Hall as (c3 & k3 & H3 & Hall & ->). apply Forall2_nil_inv_r in Hall as ->.
  assert (Hbound : forall e x c g, (m_gexprs m).[e] = Some x -> m_pgroup x = Some g ->
    stands_for m' c (MkExpression (ge_pop x) [] (Some e)) -> c = g).
  { intros e x c g0 Hx Hp. cbn. unfold pgexpr_group. rewrite (proj1 He _ _ Hx). cbn. congruence. }
  apply (Hbound _ _ _ _ Hxl Hgl) in H1 as ->. apply (Hbound _ _ _ _ Hxr Hgr) in H2 as ->. split.
  - destruct Hin as (e & x & group & Hx & Hp & Hg & Hein & Hden & _).
    destruct (mw_group _ Hwf' e x Hx) as (g0 & group0 & Hp0 & Hg0 & _ & Hs0). assert (g0 = g) as -> by congruence.
    exists group0. split; [done|]. by rewrite Hs0, (OpMatches_kind _ _ Hden).
  - by exists g, c3.
Qed.

(** ** One pair *)

Lemma joins_canonical m m' op l r p :
  mat_wf m -> mat_wf m' -> leads m m' -> relational_group m l -> relational_group m r ->
  joins m' op (master (m_groups m) l) (master (m_groups m) r) p -> joins m' op l r p.
Proof.
  intros Hm Hm' He Hl%relational_range Hr%relational_range. pose proof (mat_links _ Hm) as Hlk.
  assert (Hc : forall g, g < N.of_nat (length (m_groups m)) -> same_class (m_groups m') (master (m_groups m) g) g).
  { intros g Hg. destruct (master_top _ g Hlk Hg) as (_ & ? & _). apply (leads_class m); [done..|].
    unfold same_class. by rewrite master_idem. }
  apply joins_class; [by apply Hc..|by eapply leads_in_range|by eapply leads_in_range].
Qed.

(** What materialization reads besides the table of subsets: the region's root is
    a relational expression that no DSL rule gave, and the predicates can be
    inserted. *)
Record region_env (m_pgexpr : N) region m : Prop := {
  en_root : exists g, pgexpr_group m m_pgexpr = Some g /\ relational_group m g;
  en_native : DSLProvenance FDSLShell m ExfDPHyperJoinRegion (Some m_pgexpr) = Some false;
  en_predicate : forall pr request full p, pair_predicate region pr request full = Some p -> predicate_ok m p
}.

Lemma region_env_leads m_pgexpr region m m' : leads m m' -> region_env m_pgexpr region m -> region_env m_pgexpr region m'.
Proof.
  intros He [(g & Hg & Hr) Hd Hp]. split.
  - exists g. split; [by eapply pgexpr_group_kept; [apply He|]|by eapply relational_leads].
  - eapply DSLProvenance_stable; [apply He|done].
  - intros pr request full p Hpr. eapply predicate_leads; [done|by eapply Hp].
Qed.

(** The request, the predicate and the operator of a pair. *)
Record pair_join region pr (request : SJoinRequest) p (op : COperator) : Prop := {
  pj_request : pair_request region pr = Some request;
  pj_predicate : pair_predicate region pr request (pair_full region pr) = Some p;
  pj_operator : PopDPHyperJoin ExfDPHyperJoinRegion (pair_join_type region request)
                  (rq_notin_comparison request) = Some op
}.

(** The memo holds the join of the groups recorded for the sides, and the reverse
    one where the join commutes. *)
Definition materialized m s region pr : Prop :=
  exists request p op left right l r, pair_join region pr request p op /\
    nm_map s !! to_gset (p_left pr) = Some left /\ nm_map s !! to_gset (p_right pr) = Some right /\
    oriented region request left right = (l, r) /\ joins m op l r p /\
    (add_reverse region request = true -> joins m op r l p).

Lemma materialized_leads m s region pr m' s' :
  memo_wf m -> leads m m' -> nm_map s ⊆ nm_map s' -> materialized m s region pr -> materialized m' s' region pr.
Proof.
  intros Hwf He Hs (request & p & op & left & right & l & r & Hj & Hl & Hr & Ho & Hlr & Hrl).
  exists request, p, op, left, right, l, r.
  split_and!; [done|by eapply lookup_weaken|by eapply lookup_weaken|done|by eapply joins_leads|].
  intros Hadd. eapply joins_leads; [done..|by apply Hrl].
Qed.

Definition pair_post region pr st st' : Prop :=
  let m := mt_memo st in let m' := mt_memo st' in
  let s := mt_subsets st in let s' := mt_subsets st' in
  mat_wf m' /\ leads m m' /\ subsets_ok s' m' /\ nm_map s ⊆ nm_map s' /\
  is_Some (nm_map s' !! pair_set pr) /\ materialized m' s' region pr.

Lemma oriented_relational m region request (left right l r : N) :
  oriented region request left right = (l, r) -> relational_group m left -> relational_group m right ->
  relational_group m l /\ relational_group m r /\
  oriented region request (master (m_groups m) left) (master (m_groups m) right) =
    (master (m_groups m) l, master (m_groups m) r).
Proof. unfold oriented. destruct (_ && _); by intros [= -> ->]. Qed.

Lemma materialize_pair_ok m_pgexpr region pr st request p op :
  let m := mt_memo st in let s := mt_subsets st in
  mat_wf m -> subsets_ok s m -> region_env m_pgexpr region m -> pair_join region pr request p op ->
  is_Some (nm_map s !! to_gset (p_left pr)) -> is_Some (nm_map s !! to_gset (p_right pr)) ->
  returns (pair_post region pr st) (materialize_pair FDSLShell ExfDPHyperJoinRegion m_pgexpr region pr st).
Proof.
  destruct st as [m s inter]. cbn [mt_memo mt_subsets]. intros Hm Hs Henv Hj [left Hleft] [right Hright].
  pose proof (so_groups _ _ Hs _ _ Hleft) as Hrl. pose proof (so_groups _ _ Hs _ _ Hright) as Hrr.
  unfold materialize_pair. cbn [mt_memo mt_subsets mt_intermediate].
  rewrite !CSubsetGroups_Lookup_ok, Hleft, Hright by done. cbn [fmap option_fmap option_map mbind option_bind].
  set (joined := ns_Union (p_left pr) (p_right pr)).
  assert (Htarget : exists target, (if pair_full region pr then g ← pgexpr_group m m_pgexpr; Some (Some g)
      else Some (master (m_groups m) <$> nm_map s !! to_gset joined)) = Some target /\
      forall g, target = Some g -> relational_group m g).
  { destruct (pair_full region pr).
    - destruct (en_root _ _ _ Henv) as (g & Hg & Hr). rewrite Hg. exists (Some g). split; [done|]. by intros ? [= <-].
    - eexists. split; [done|]. intros g (h & Hh & ->)%fmap_Some. apply relational_master; [done|by eapply so_groups]. }
  destruct Htarget as (target & -> & Ht). cbn [mbind option_bind]. destruct Hj as [Hreq Hpred Hop].
  rewrite Hreq. cbn [mbind option_bind]. rewrite Hpred. cbn [mbind option_bind].
  destruct (oriented region request left right) as [l r] eqn:Hor.
  destruct (oriented_relational m _ _ _ _ _ _ Hor Hrl Hrr) as (Hl & Hr & ->). cbn [mbind option_bind].
  pose proof (relational_master m l Hm Hl) as Hlm. pose proof (relational_master m r Hm Hr) as Hrm.
  assert (Horig : forall m', region_env m_pgexpr region m' -> m_pgexpr < N.of_nat (length (m_gexprs m'))).
  { intros m' [(g & Hg & _) _ _]. unfold pgexpr_group in Hg. destruct ((m_gexprs m').[m_pgexpr]) eqn:Hx; [|done]. by eapply lookup_N_lt. }
  destruct (insert_join_ok m m_pgexpr target (pair_join_type region request) _ _ p (rq_notin_comparison request) op
    (negb (pair_full region pr)) Hm Hlm Hrm) as (join & -> & Hins);
    [by eapply en_predicate|done|by apply Horig|by eapply en_native|done|]. cbn [mbind option_bind].
  eapply returns_bind; [exact Hins|]. intros [g m1] (Hm1 & He1 & Hg & Hj1).
  pose proof (subsets_leads _ _ _ He1 Hs) as Hs1.
  eapply returns_bind; [by apply (CSubsetGroups_Record_ok joined g s m1)|].
  intros [[g2 s2] m2] (Hm2 & He2 & Hs2 & Hsub & Hg2 & (h & Hh & _) & _).
  assert (He : leads m m2) by (eapply leads_trans; [by apply mat_links|done|done]).
  assert (Hdone : forall m3, mat_wf m3 -> leads m2 m3 -> joins m3 op l r p).
  { intros m3 Hm3 He3. apply (joins_canonical m m3); [done|done| |done|done|].
    - eapply leads_trans; [by apply mat_links|done|done].
    - apply (joins_leads m2); [apply Hm2|done|]. apply (joins_leads m1); [apply Hm1|done|done]. }
  assert (Hset : to_gset joined = pair_set pr) by (unfold joined, pair_set; by rewrite Union_law).
  destruct (add_reverse region request) eqn:Hadd.
  - destruct (insert_join_ok m2 m_pgexpr (Some g2) (pair_join_type region request) (master (m_groups m) r) (master (m_groups m) l)
      p (rq_notin_comparison request) op (negb (pair_full region pr)) Hm2) as (join2 & -> & Hins2).
    { by eapply relational_leads. } { by eapply relational_leads. }
    { eapply predicate_leads; [done|]. by eapply en_predicate. } { by intros ? [= <-]. }
    { apply Horig. by eapply region_env_leads. } { eapply en_native. by eapply region_env_leads. } { done. }
    cbn [mbind option_bind]. eapply returns_bind; [exact Hins2|]. intros [g3 m3] (Hm3 & He3 & Hg3 & Hj3).
    eapply returns_bind; [by apply (CSubsetGroups_Record_ok joined g3 s2 m3); [|eapply subsets_leads|]|].
    intros [[g4 s4] m4] (Hm4 & He4 & Hs4 & Hsub4 & Hg4 & _). eexists. split; [done|].
    assert (He24 : leads m2 m4) by (eapply leads_trans; [by apply mat_links|done|done]).
    assert (He04 : leads m m4) by (eapply leads_trans; [by apply mat_links|done|done]).
    unfold pair_post. cbn [mt_memo mt_subsets]. split_and!; [done..|by etrans| |].
    + rewrite <-Hset. exists h. by eapply lookup_weaken.
    + exists request, p, op, left, right, l, r.
      split_and!; [done|by eapply lookup_weaken; [|etrans]|by eapply lookup_weaken; [|etrans]|done|by apply Hdone|].
      intros _. apply (joins_canonical m m4); [done..|]. apply (joins_leads m3); [apply Hm3|done|done].
  - eexists. split; [done|]. unfold pair_post. cbn [mt_memo mt_subsets]. split_and!; [done..|by rewrite <-Hset; exists h|].
    exists request, p, op, left, right, l, r.
    split_and!; [done|by eapply lookup_weaken|by eapply lookup_weaken|done| |by rewrite Hadd].
    apply Hdone; [done|]. apply leads_refl. by apply mat_links.
Qed.
End joins.

(** ** The whole plan *)

Section plans.
Context {BS CS : Type} {HB : NodeSet BS} {HC : NodeSet CS} {HD : DerivedProps CS} {HP : PredicateOps}.
Context {HO : OperatorIdentity} {HL : OperatorLaws}.
Context (FDSLShell : N -> bool) (ExfDPHyperJoinRegion : N).
Context (Hjoins : forall join_type notin op,
  PopDPHyperJoin ExfDPHyperJoinRegion join_type notin = Some op -> FLogical op = true).
Implicit Types (m : CMemo) (g : N) (region : CDPHyperJoinRegion BS) (pr : SPair BS) (s : NodeMap BS N)
  (spec : CJoinRegionSpec BS) (plan : CDPHyperPlan BS) (st : SMaterialization (BS := BS)).

(** *** Every pair of a usable plan has a request, a predicate and an operator *)

Lemma joins_all_edges P t a : joins_all P t = true -> Forall (fun d => P (d_join_type d) = true) (tree_edges t a).
Proof.
  revert a. induction t as [e|op p c t1 IH1 t2 IH2]; intros a; cbn [joins_all tree_edges]; [constructor|].
  intros [[H1 H2]%andb_true_iff H3]%andb_true_iff. rewrite !Forall_app. split_and!; [by apply IH1|by apply IH2|by repeat constructor].
Qed.

Definition supported_types region : Prop :=
  forall spec edge, m_spec region = Some spec -> edge ∈ m_sedges spec -> FSupportedDPHyperJoin (m_join_type edge) = true.

Lemma built_types t spec edge :
  built_region t spec -> m_cdc_supported spec = true -> edge ∈ m_sedges spec ->
  FSupportedDPHyperJoin (m_join_type edge) = true.
Proof.
  intros Hb Hcdc [i Hi]%list_elem_of_lookup. rewrite FSupportedDPHyperJoin_cdc. rewrite (br_cdc _ _ Hb) in Hcdc.
  destruct (Forall2_lookup_r _ _ _ _ _ (built_matches _ _ Hb) Hi) as (d & Hd & Hem). rewrite (em_type _ _ Hem).
  by apply (Forall_lookup_1 _ _ _ _ (joins_all_edges _ _ 0 Hcdc) Hd).
Qed.

Lemma PopDPHyperJoin_total join_type notin :
  FSupportedDPHyperJoin join_type = true -> is_Some (PopDPHyperJoin ExfDPHyperJoinRegion join_type notin).
Proof. destruct join_type; try done; intros _; cbn; eauto. Qed.

Lemma pair_join_total n region pr (request : SJoinRequest) :
  region_ready (CS := CS) n region -> supported_types region ->
  FBuildJoinRequest (p_left pr) (p_right pr) region = Some (Some request) ->
  exists request p op, pair_join ExfDPHyperJoinRegion region pr request p op.
Proof.
  intros Hr Ht Hreq.
  assert (Hpr : exists rq, pair_request region pr = Some rq /\ (is_Some (m_spec region) -> rq = request)).
  { unfold pair_request. destruct (m_spec region); [rewrite Hreq; by exists request|eexists; split; [done|by intros [? ?]]]. }
  destruct Hpr as (rq & Hrq & Heq).
  enough (exists p op, pair_predicate region pr rq (pair_full region pr) = Some p /\
    PopDPHyperJoin ExfDPHyperJoinRegion (pair_join_type region rq) (rq_notin_comparison rq) = Some op) as (p & op & ? & ?)
    by (by exists rq, p, op).
  unfold pair_predicate, pair_join_type. destruct (mixed_joins region) as [spec|] eqn:Hm.
  - destruct (mixed_spec region spec Hm) as [Hs Hp]. rewrite (Heq (mk_is_Some _ _ Hs)). clear Heq Hrq.
    destruct (ry_spec _ _ Hr spec Hs) as (_ & _ & Hall & Hlen). specialize (Hall Hp).
    destruct (FBuildJoinRequest_spec region spec (p_left pr) (p_right pr) Hm Hall Hlen) as (app & res & Happ & Hres & Hspec).
    rewrite Hreq in Hres. injection Hres as <-. destruct (proj1 (Hspec request) eq_refl) as (sw & dir & _ & Hne & Hof).
    destruct (ct_edges _ (ready_cost_total n region Hr) _ _ _ Hreq) as [p Hpred].
    { destruct Hof as [[_ ->]|(id & swapped & edge & -> & _ & _ & _ & ->)]; [by destruct app|done]. }
    exists p. destruct (PopDPHyperJoin_total (rq_join_type request) (rq_notin_comparison request)) as [op Hop]; [|by exists op].
    destruct Hof as [[_ ->]|(id & swapped & edge & _ & Hedge & _ & _ & ->)]; [done|].
    apply (Ht spec edge Hs). by eapply list_elem_of_lookup_2.
  - destruct (PopDPHyperJoin_total EopLogicalInnerJoin (rq_notin_comparison rq)) as [op Hop]; [done|].
    enough (is_Some (PexprPredicate (p_left pr) (p_right pr) (pair_full region pr) region)) as [p Hpred] by (by exists p, op).
    unfold PexprPredicate, pair_conjuncts. rewrite <-(ry_covers _ _ Hr Hm), mapM_lookup_seq. by eexists.
Qed.

(** *** The table before the pairs *)

Definition table_post m s m' s' : Prop := mat_wf m' /\ leads m m' /\ subsets_ok s' m' /\ nm_map s ⊆ nm_map s'.

Lemma table_post_refl m s : mat_wf m -> subsets_ok s m -> table_post m s m s.
Proof. intros Hm Hs. split_and!; [done| |done..]. by apply leads_refl, mat_links. Qed.

Lemma table_post_trans m1 s1 m2 s2 m3 s3 :
  mat_wf m1 -> table_post m1 s1 m2 s2 -> table_post m2 s2 m3 s3 -> table_post m1 s1 m3 s3.
Proof.
  intros Hm (? & ? & ? & ?) (? & ? & ? & ?). split_and!; [done| |done|by etrans].
  eapply leads_trans; [by apply mat_links|done|done].
Qed.

Lemma record_table nodes g s m :
  mat_wf m -> subsets_ok s m -> relational_group m g ->
  returns (fun '(_, s', m') => table_post m s m' s' /\ is_Some (nm_map s' !! to_gset nodes))
    (CSubsetGroups_Record nodes g s m).
Proof.
  intros Hm Hs Hg. eapply returns_mono; [by apply CSubsetGroups_Record_ok|].
  intros [[r s'] m'] (? & ? & ? & ? & _ & (h & Hh & _) & _). split; [by split_and!|by exists h].
Qed.

Lemma record_components_ok groups node s m :
  mat_wf m -> subsets_ok s m -> Forall (relational_group m) groups ->
  returns (fun '(s', m') => table_post m s m' s' /\
      forall v, node <= v -> v < node + N.of_nat (length groups) -> is_Some (nm_map s' !! {[v]}))
    (record_components node groups s m).
Proof.
  revert node s m. induction groups as [|g groups IH]; intros node s m Hm Hs Hg; cbn [record_components].
  { exists (s, m). split; [done|]. split; [by apply table_post_refl|]. cbn. lia. }
  apply Forall_cons in Hg as [Hg Hgs].
  eapply returns_bind; [by apply (record_table (singleton node) g s m)|]. intros [[r s1] m1] [Hp1 Hin].
  pose proof Hp1 as (Hm1 & He1 & Hs1 & _).
  eapply returns_mono; [apply (IH (node + 1) s1 m1 Hm1 Hs1)|].
  { eapply Forall_impl; [exact Hgs|]. intros c. by apply relational_leads. }
  intros [s2 m2] [Hp2 Hv]. split; [by eapply table_post_trans|]. intros v Hge Hlt. cbn in Hlt.
  destruct (decide (v = node)) as [->|]; [|apply Hv; lia]. destruct Hp2 as (_ & _ & _ & Hsub).
  rewrite singleton_set in Hin. destruct Hin as [x Hx]. exists x. by eapply lookup_weaken.
Qed.

Lemma record_skeleton_ok (edges : list (CEdge BS)) groups s m :
  mat_wf m -> subsets_ok s m -> Forall (relational_group m) groups -> (length edges <= length groups)%nat ->
  returns (fun '(s', m') => table_post m s m' s') (record_skeleton edges groups s m).
Proof.
  revert groups s m. induction edges as [|e edges IH]; intros groups s m Hm Hs Hg Hl; cbn [record_skeleton].
  { exists (s, m). split; [done|by apply table_post_refl]. }
  destruct groups as [|g groups]; [cbn in Hl; lia|]. apply Forall_cons in Hg as [Hg Hgs].
  eapply returns_bind; [by apply record_table|]. intros [[r s1] m1] [Hp1 _]. pose proof Hp1 as (Hm1 & He1 & Hs1 & _).
  eapply returns_mono; [apply (IH groups s1 m1 Hm1 Hs1)|].
  { eapply Forall_impl; [exact Hgs|]. intros c. by apply relational_leads. } { cbn in Hl. lia. }
  intros [s2 m2] Hp2. by eapply table_post_trans.
Qed.

(** *** The pairs in turn *)

Record loop_inv (n : nat) (m_pgexpr : N) region plan m0 (k : nat) st : Prop := {
  li_wf : mat_wf (mt_memo st);
  li_leads : leads m0 (mt_memo st);
  li_table : subsets_ok (mt_subsets st) (mt_memo st);
  li_nodes : forall v, v < N.of_nat n -> is_Some (nm_map (mt_subsets st) !! {[v]});
  li_pairs : forall j pr, (j < k)%nat -> m_pairs plan !! j = Some pr ->
    is_Some (nm_map (mt_subsets st) !! pair_set pr) /\
    materialized ExfDPHyperJoinRegion (mt_memo st) (mt_subsets st) region pr
}.

(** What is available in the plan is in the table. *)
Lemma loop_available n m_pgexpr region plan m0 k st X :
  loop_inv n m_pgexpr region plan m0 k st -> available n plan k X -> is_Some (nm_map (mt_subsets st) !! X).
Proof.
  intros [_ _ _ Hv Hp] [(v & Hlt & ->)|(j & pr & Hlt & Hpr & ->)]; [by apply Hv|]. by destruct (Hp j pr Hlt Hpr).
Qed.

Lemma materialize_pairs_ok n m_pgexpr region plan m0 k rest st :
  region_ready (CS := CS) n region -> supported_types region -> usable n region plan ->
  mat_wf m0 -> region_env FDSLShell ExfDPHyperJoinRegion m_pgexpr region m0 ->
  drop k (m_pairs plan) = rest -> loop_inv n m_pgexpr region plan m0 k st ->
  returns (loop_inv n m_pgexpr region plan m0 (length (m_pairs plan)))
    (materialize_pairs FDSLShell ExfDPHyperJoinRegion m_pgexpr region rest st).
Proof.
  intros Hr Ht Hu Hm0 Henv. revert k st. induction rest as [|pr rest IH]; intros k st Hdrop Hi; cbn [materialize_pairs].
  - exists st. split; [done|]. destruct Hi as [H1 H2 H3 H4 H5]. split; [done..|]. intros j pr Hj. apply H5.
    pose proof (f_equal length Hdrop) as Hlen. rewrite length_drop in Hlen. cbn in Hlen. lia.
  - assert (Hpr : m_pairs plan !! k = Some pr) by (rewrite <-(Nat.add_0_r k), <-lookup_drop, Hdrop; done).
    destruct (us_request _ _ _ Hu k pr Hpr) as [request Hreq].
    destruct (pair_join_total n region pr request Hr Ht Hreq) as (rq & p & op & Hj).
    destruct (us_order _ _ _ Hu k pr Hpr) as [Hl%(loop_available _ _ _ _ _ _ _ _ Hi) Hrt%(loop_available _ _ _ _ _ _ _ _ Hi)].
    destruct Hi as [H1 H2 H3 H4 H5]. eapply returns_bind.
    { eapply (materialize_pair_ok FDSLShell ExfDPHyperJoinRegion Hjoins m_pgexpr region pr st); [done..| |done|done|done].
      by eapply region_env_leads. }
    intros st' (Hm' & He & Hs' & Hsub & Hin & Hmat).
    assert (Hkeep : forall X, is_Some (nm_map (mt_subsets st) !! X) -> is_Some (nm_map (mt_subsets st') !! X))
      by (intros X [x Hx]; exists x; by eapply lookup_weaken).
    apply (IH (S k)).
    { replace (S k) with (k + 1)%nat by lia. by rewrite <-drop_drop, Hdrop. }
    split; [done| |done|by auto|].
    + eapply leads_trans; [by apply mat_links|done|done].
    + intros j pr' Hlt Hpr'. destruct (decide (j = k)) as [->|]; [assert (pr' = pr) as -> by congruence; done|].
      destruct (H5 j pr') as [Hin' Hmat']; [lia|done|]. split; [by auto|]. by eapply materialized_leads; [apply H1|..].
Qed.

(** The groups the caller binds: one for each atom and one for each original join,
    all relational. *)
Record bound_groups (n : nat) region (component_groups skeleton_groups : list N) m : Prop := {
  bg_components : length component_groups = n /\ Forall (relational_group m) component_groups;
  bg_skeleton : Forall (relational_group m) skeleton_groups /\
    forall spec, m_spec region = Some spec -> (length (m_sedges spec) <= length skeleton_groups)%nat
}.

Definition all_materialized m plan region st : Prop :=
  mat_wf (mt_memo st) /\ leads m (mt_memo st) /\
  forall pr, pr ∈ m_pairs plan ->
    is_Some (nm_map (mt_subsets st) !! pair_set pr) /\
    materialized ExfDPHyperJoinRegion (mt_memo st) (mt_subsets st) region pr.

Lemma MaterializePlan_ok n m_pgexpr region component_groups skeleton_groups plan m :
  region_ready (CS := CS) n region -> supported_types region -> usable n region plan ->
  mat_wf m -> region_env FDSLShell ExfDPHyperJoinRegion m_pgexpr region m ->
  bound_groups n region component_groups skeleton_groups m ->
  returns (all_materialized m plan region)
    (MaterializePlan FDSLShell ExfDPHyperJoinRegion m_pgexpr region component_groups skeleton_groups plan m).
Proof.
  intros Hr Ht Hu Hm Henv [[Hn Hcg] [Hsg Hsl]]. unfold MaterializePlan.
  eapply returns_bind; [by apply (record_components_ok component_groups 0 NodeMap_New m); [|apply New_subsets_ok|]|].
  intros [s1 m1] [Hp1 Hv]. pose proof Hp1 as (Hm1 & He1 & Hs1 & _).
  eapply returns_bind.
  { instantiate (1 := fun '(s2, m2) => table_post m1 s1 m2 s2). destruct (m_spec region) as [spec|] eqn:Hspec.
    - apply record_skeleton_ok; [done|done| |by apply Hsl].
      eapply Forall_impl; [exact Hsg|]. intros g. by apply relational_leads.
    - exists (s1, m1). split; [done|by apply table_post_refl]. }
  intros [s2 m2] Hp2. pose proof (table_post_trans _ _ _ _ _ _ Hm Hp1 Hp2) as (Hm2 & He2 & Hs2 & _).
  eapply returns_mono.
  { apply (materialize_pairs_ok n m_pgexpr region plan m 0); [done..|].
    split; cbn [mt_memo mt_subsets]; [done|done|done| |by intros j pr ?%Nat.nlt_0_r].
    intros v Hlt. destruct (Hv v) as [x Hx]; [lia|by rewrite Hn|]. exists x.
    eapply lookup_weaken; [exact Hx|apply Hp2]. }
  intros st [? ? _ _ Hpairs]. split; [done|]. split; [done|]. intros pr [j Hj]%list_elem_of_lookup.
  by apply (Hpairs j); [eapply lookup_lt_Some|].
Qed.
End plans.

(** ** From the query to the memo *)

Section pipeline.
Context {BS CS : Type} {HB : NodeSet BS} {HC : NodeSet CS} {HD : DerivedProps CS} {HP : PredicateOps}.
Context {D W : Type} {HO : OperatorIdentity} {HL : OperatorLaws} {DD : Double D} {HE : EngineStats D W}.
Context (FDSLShell : N -> bool) (ExfDPHyperJoinRegion : N).
Context (Hjoins : forall join_type notin op,
  PopDPHyperJoin ExfDPHyperJoinRegion join_type notin = Some op -> FLogical op = true).
Implicit Types (m : CMemo) (region : CDPHyperJoinRegion BS) (spec : CJoinRegionSpec BS) (root : CExpression).

(** C25: A selected plan is carried out completely.  For a region made from a query,
    with a relational group for every atom and every original join, materializing
    the plan that selection chose always returns, keeps the memo well formed and
    loses nothing of it, and afterwards the memo holds for every pair of the plan
    the requested join of the groups of its two sides on its predicate, and the
    reverse join where the join commutes; one pair joins all atoms. *)
Theorem SelectedPlan_materialized root spec edge_budget region pair_budget (engine : CEngine W) strategy plan region'
    engine' m_pgexpr component_groups skeleton_groups m
    (HB' : Build (BS := BS) (CS := CS) root CJoinRegionSpec_New = Some (true, spec))
    (Hcdc : m_cdc_supported spec = true) (Hbud : edge_budget < 2 ^ ULONG_BITS)
    (Hn : N.of_nat (length (m_atoms spec)) < 2 ^ ULONG_BITS)
    (Hbuild : BuildRegion (CDPHyperJoinRegion_FromSpec spec edge_budget) = Some (true, region))
    (Hsel : SelectPlan ExfDPHyperJoinRegion pair_budget region engine = Some (Some (strategy, plan), region', engine'))
    (Hm : mat_wf m) (Henv : region_env FDSLShell ExfDPHyperJoinRegion m_pgexpr region' m)
    (Hbg : bound_groups (length (m_atoms spec)) region' component_groups skeleton_groups m) :
  exists st, MaterializePlan FDSLShell ExfDPHyperJoinRegion m_pgexpr region' component_groups skeleton_groups plan m = Some st /\
    all_materialized ExfDPHyperJoinRegion m plan region' st /\
    exists pr, pr ∈ m_pairs plan /\ pair_set pr = span 0 (length (m_atoms spec)).
Proof.
  pose proof (built_ready root spec edge_budget region HB' Hcdc Hbud Hn Hbuild) as Hr.
  destruct (SelectPlan_ok ExfDPHyperJoinRegion _ pair_budget region engine Hr)
    as (res & g' & en & aborted & exhaustive & Hs & Hwf & Hnodes & Hu & _).
  rewrite Hsel in Hs. injection Hs as <- -> _. destruct (Hu _ _ eq_refl) as [Hus _].
  destruct (us_complete _ _ _ Hus) as (i & pr & Hi & Hall).
  destruct (BuildRegion_spec (CDPHyperJoinRegion_FromSpec spec edge_budget)
    (FromSpec_region_ok (CS := CS) root spec edge_budget HB' (or_intror Hcdc) Hbud)) as (want & ok & jr2 & _ & Hk & Hb).
  rewrite Hbuild in Hk. injection Hk as <- <-. pose proof (rb_static _ _ _ _ Hb) as [= _ _ _ Hspec _].
  destruct (MaterializePlan_ok (CS := CS) FDSLShell ExfDPHyperJoinRegion Hjoins (length (m_atoms spec)) m_pgexpr
    (set_graph g' region) component_groups skeleton_groups plan m) as (st & Hst & Hdone);
    [by apply ready_graph| |by apply usable_graph|done..|].
  - intros spec' edge Hsp Hin. change (m_spec region = Some spec') in Hsp. assert (spec' = spec) as -> by (cbn in Hspec; congruence).
    apply Build_built in HB'. by eapply built_types.
  - exists st. split; [done|]. split; [done|]. exists pr. split; [by eapply list_elem_of_lookup_2|done].
Qed.
End pipeline.

(** ** Witnesses *)

#[local] Existing Instance sample_identity.
#[local] Existing Instance sample_operator_laws.

(** The memo of a query that joins three atoms, the first two with an outer join. *)
Definition sample_query : CExpression :=
  let x := sample_term (EopOther 2) 0 [] in
  let p := sample_term (EopOther 1) 0 [] in
  sample_term EopLogicalInnerJoin 0
    [sample_term EopLogicalLeftOuterJoin 0 [sample_term (EopOther 0) 0 []; sample_term (EopOther 0) 0 [x]; p];
     sample_term (EopOther 0) 0 [x; x]; p].
Definition sample_query_memo : CMemo := default sample_empty (snd <$> sample_insert None sample_query 0 None false sample_empty).

Lemma sample_empty_mat : mat_wf sample_empty.
Proof. split; [apply sample_empty_ok|by intros g group Hg..]. Qed.

Lemma sample_query_relational : relational sample_query.
Proof. vm_compute. repeat split; by intros. Qed.

Lemma sample_query_memo_ok : mat_wf sample_query_memo /\ acyclic sample_query_memo.
Proof.
  destruct (CEngine_PgroupInsert_ok (BS := gset N) (fun x => x =? 9) sample_query None 0 None false sample_empty)
    as ([g m'] & He & Hwf & Hext & _ & Hgr & Ha & _); [apply sample_empty_ok|vm_compute; repeat split; discriminate|done..|].
  unfold sample_query_memo. rewrite He. split; [|apply Ha; [apply sample_empty_acyclic|by left]].
  apply (extends_mat_wf sample_empty m' sample_empty_mat Hwf); [|done]. apply Hgr; [apply sample_empty_mat|apply sample_query_relational].
Qed.

Lemma sample_relational : Forall (relational_group sample_query_memo) [0; 2; 5; 4; 6].
Proof. repeat constructor; eexists; split; vm_compute; reflexivity. Qed.

(** Group 0 is recorded for the subset already: group 2 becomes its duplicate. *)
Definition sample_subsets : NodeMap (gset N) N := NodeMap_Record {[0; 1]} 0 NodeMap_New.

Lemma sample_subsets_ok : subsets_ok sample_subsets sample_query_memo.
Proof.
  destruct (New_nm_ok (BS := gset N) (V := N)) as [Hn He].
  destruct (Record_nm_ok ({[0; 1]} : gset N) 0 NodeMap_New Hn) as [Hok Hmap]; [by rewrite He|].
  split; [exact Hok|]. intros X g. unfold sample_subsets. rewrite Hmap, He, lookup_insert_Some, lookup_empty.
  intros [[_ <-]|[_ ?]]; [|done]. apply (Forall_lookup_1 _ _ 0%nat _ sample_relational). reflexivity.
Qed.

Lemma sample_query_merged : all_merged sample_query_memo.
Proof.
  assert (Hb : forallb (fun group => bool_decide (m_pgroupDuplicate group = None)) (m_groups sample_query_memo) = true)
    by (vm_compute; reflexivity).
  rewrite forallb_forall in Hb. intros g group d Hg Hd. apply list_elem_of_lookup_2, list_elem_of_In, Hb in Hg.
  apply bool_decide_eq_true in Hg. congruence.
Qed.

Lemma CSubsetGroups_Record_safe_witness :
  exists r s' m' h, CSubsetGroups_Record ({[0; 1]} : gset N) 2 sample_subsets sample_query_memo = Some (r, s', m') /\
    r = 2 /\ nm_map s' !! to_gset ({[0; 1]} : gset N) = Some h /\ same_class (m_groups m') r h /\ acyclic m'.
Proof.
  destruct (CSubsetGroups_Record_safe ({[0; 1]} : gset N) 2 sample_subsets sample_query_memo)
    as (r & s' & m' & h & He & _ & _ & _ & Hh & Hc & _ & _ & Ha).
  - apply sample_query_memo_ok.
  - exact sample_subsets_ok.
  - apply (Forall_lookup_1 _ _ 1%nat _ sample_relational). reflexivity.
  - assert (r = 2) as Hr.
    { assert ((fun x => x.1.1) <$> CSubsetGroups_Record ({[0; 1]} : gset N) 2 sample_subsets sample_query_memo = Some 2)
        as Hv by (vm_compute; reflexivity). rewrite He in Hv. by injection Hv. }
    exists r, s', m', h. split_and!; [exact He|exact Hr|exact Hh|exact Hc|].
    apply Ha; [right; exact sample_query_merged|apply sample_query_memo_ok].
Defined.

Lemma sample_joins_logical join_type notin op : PopDPHyperJoin 42 join_type notin = Some op -> FLogical op = true.
Proof. by destruct join_type; intros [= <-]. Qed.

(** An expression without bound groups can be inserted into any memo. *)
Fixpoint unbound (e : CExpression) : bool :=
  match e with MkExpression _ children g => negb (bool_decide (is_Some g)) && forallb unbound children end.

Lemma unbound_ok m e : unbound e = true -> predicate_ok m e.
Proof.
  assert (Hg : forall op, groupable op).
  { intros op. unfold groupable. cbn. destruct (Eopid op); try done. by intros ->%negb_false_iff. }
  intros Hu. split_and!; [| |done]; revert Hu; induction e as [op children [g|] IH] using CExpression_children_ind;
    cbn [unbound]; try done; rewrite bool_decide_false by (by intros [? ?]); cbn [negb andb]; intros Hu.
  - apply insertable_node. rewrite forallb_forall in Hu. rewrite Forall_forall in IH |- *. intros c Hc. split; [done|].
    apply IH; [done|]. by apply Hu, list_elem_of_In.
  - apply relational_node. split; [apply Hg|]. rewrite forallb_forall in Hu. rewrite Forall_forall in IH |- *. intros c Hc.
    apply IH; [done|]. by apply Hu, list_elem_of_In.
Qed.

(** The plan of [SelectPlan_usable_witness]: the original tree. *)
Definition sample_selected : CDPHyperPlan (gset N) * CDPHyperJoinRegion (gset N) * CEngine N :=
  match sample_select with
  | Some (Some (_, plan), region, engine) => (plan, region, engine)
  | _ => (CDPHyperPlan_New 0, sample_mixed_result, sample_engine)
  end.

Lemma sample_selected_ok :
  sample_select = Some (Some (EsBinarySkeleton, sample_selected.1.1), sample_selected.1.2, sample_selected.2) /\
  mixed_joins sample_selected.1.2 = Some sample_spec /\ m_spec sample_selected.1.2 = Some sample_spec.
Proof. split_and!; vm_compute; reflexivity. Qed.

Lemma sample_env : region_env (HP := sample_ops) (fun x => x =? 9) 42 6 sample_selected.1.2 sample_query_memo.
Proof.
  split.
  - exists 6. split; [vm_compute; reflexivity|]. apply (Forall_lookup_1 _ _ 4%nat _ sample_relational). reflexivity.
  - vm_compute. reflexivity.
  - destruct sample_selected_ok as (_ & Hmixed & Hspec). intros pr request full p. unfold pair_predicate, PexprRequestPredicate.
    rewrite Hmixed, Hspec. cbn [mbind option_bind].
    assert (Hub : forallb (fun edge => unbound (m_predicate edge)) (m_sedges sample_spec) = true) by (vm_compute; reflexivity).
    destruct (mapM _ _) as [ps|] eqn:Hps; [|done]. cbn [mbind option_bind]. intros [= <-]. apply unbound_ok.
    cbn. apply forallb_forall. intros q Hq%list_elem_of_In. apply mapM_Some in Hps.
    apply list_elem_of_lookup in Hq as [i Hq]. destruct (Forall2_lookup_r _ _ _ _ _ Hps Hq) as (id & _ & Hid).
    apply fmap_Some in Hid as (edge & Hedge & ->). rewrite forallb_forall in Hub.
    apply (Hub edge), list_elem_of_In. by eapply list_elem_of_lookup_2.
Qed.

Lemma sample_bound :
  bound_groups (length (m_atoms sample_spec)) sample_selected.1.2 [0; 2; 5] [4; 6] sample_query_memo.
Proof.
  pose proof (proj1 (Forall_app _ [0; 2; 5] [4; 6]) sample_relational) as [Hcg Hsg]. split.
  - split; [vm_compute; reflexivity|exact Hcg].
  - split; [exact Hsg|]. intros spec Hspec. assert (Hl : (length (m_sedges sample_spec) <= 2)%nat) by (vm_compute; repeat constructor).
    pose proof (eq_trans (eq_sym Hspec) (proj2 (proj2 sample_selected_ok))) as He.
    assert (Hlen : length (m_sedges spec) = length (m_sedges sample_spec))
      by exact (f_equal (fun o => match o with Some s => length (m_sedges s) | None => 0%nat end) He).
    change (length (m_sedges spec) <= 2)%nat. rewrite Hlen. exact Hl.
Qed.

Lemma SelectedPlan_materialized_witness :
  exists st, MaterializePlan (HP := sample_ops) (fun x => x =? 9) 42 6 sample_selected.1.2 [0; 2; 5] [4; 6]
      sample_selected.1.1 sample_query_memo = Some st /\
    all_materialized (HP := sample_ops) 42 sample_query_memo sample_selected.1.1 sample_selected.1.2 st.
Proof.
  destruct (SelectedPlan_materialized (BS := gset N) (HD := sample_props) (HP := sample_ops) (DD := N_double) (HE := sample_stats)
    (fun x => x =? 9) 42 sample_joins_logical sample_root sample_spec 10 sample_mixed_result 1 sample_engine EsBinarySkeleton
    sample_selected.1.1 sample_selected.1.2 sample_selected.2 6 [0; 2; 5] [4; 6] sample_query_memo sample_spec_built)
    as (st & Hst & Hdone & _).
  - vm_compute. reflexivity.
  - reflexivity.
  - vm_compute. reflexivity.
  - vm_compute. reflexivity.
  - apply sample_selected_ok.
  - apply sample_query_memo_ok.
  - apply sample_env.
  - exact sample_bound.
  - exists st. split; [exact Hst|exact Hdone].
Defined.

(** The memo then has the two scalar groups of the rebuilt predicate and the two
    joins on it; the inner join has a lateral side, so it is not reversed. *)
Example sample_materialized :
  (fun st => (length (m_groups (mt_memo st)), length (m_gexprs (mt_memo st)), mt_intermediate st)) <$>
    MaterializePlan (HP := sample_ops) (fun x => x =? 9) 42 6 sample_selected.1.2 [0; 2; 5] [4; 6]
      sample_selected.1.1 sample_query_memo = Some (9%nat, 11%nat, [4]).
Proof. vm_compute. reflexivity. Qed.
