(* ===== verification/SyncPool.v ===== *)
(** The pool of preallocated objects of libgpos, [CSyncPool]
    (libgpos/include/gpos/common/CSyncPool.h): two bitmaps say which objects are
    reserved and which of these were recycled, a clock hand walks over the
    objects, and when all of them are in use an object is allocated on its own.

    Also here: [ObjectPool], what the job factory relies on. *)

From S2P Require Import Prelude.
Local Open Scope N_scope.

(** ** What a pool promises *)

(** [P]: pools, [S]: the objects they hand out. *)
Class ObjectPool (P S : Type) := {
  pool_new : N -> P;
  pool_retrieve : P -> S * P;
  pool_recycle : S -> P -> P;
  pool_taken : P -> S -> Prop;
  pool_ok : P -> Prop;
}.

(** An object that is handed out was free; from then on, until it is recycled,
    it is not. *)
Class PoolLaws (P S : Type) `{ObjectPool P S} : Prop := {
  pool_new_spec size : 0 < size < 2 ^ 31 ->
    pool_ok (pool_new size) /\ forall s, ~ pool_taken (pool_new size) s;
  pool_retrieve_spec p : pool_ok p ->
    pool_ok (snd (pool_retrieve p)) /\
    ~ pool_taken p (fst (pool_retrieve p)) /\
    forall t, pool_taken (snd (pool_retrieve p)) t <->
              t = fst (pool_retrieve p) \/ pool_taken p t;
  pool_recycle_spec p s : pool_ok p -> pool_taken p s ->
    pool_ok (pool_recycle s p) /\
    forall t, pool_taken (pool_recycle s p) t <-> pool_taken p t /\ t <> s;
}.

(** ** The pool *)

Module SyncPool.

Definition BITS_PER_ULONG : N := 32.

(** An object is one of the array, with its index as id, or one of its own,
    with the id [ulong_max]; the latter are told apart by their addresses. *)
Inductive slot : Type :=
  | SArray (index : N)
  | SHeap (address : N).

#[export] Instance slot_eq_dec : EqDecision slot.
Proof. solve_decision. Defined.

#[export] Instance slot_countable : Countable slot.
Proof.
  refine (inj_countable' (fun s => match s with SArray i => inl i | SHeap k => inr k end)
            (fun c => match c with inl i => SArray i | inr k => SHeap k end) _).
  by intros [].
Defined.

(** [m_heap]: the addresses of the objects allocated on their own. *)
Record CSyncPool := MkPool {
  m_numobjs : N;
  m_bitmap_size : N;
  m_objs_reserved : list N;
  m_objs_recycled : list N;
  m_last_lookup_idx : N;
  m_heap : gset N;
}.

(** The answer, and the word the pointer leads to afterwards.  With one thread
    the retry of the source succeeds at once. *)
Definition SetBit (dest bit_val : N) : bool * N :=
  if N.land bit_val dest =? 0 then (true, N.lor bit_val dest) else (false, dest).

Definition UnsetBit (dest bit_val : N) : bool * N :=
  if N.land bit_val dest =? bit_val then (true, N.lxor bit_val dest) else (false, dest).

(** The constructor and [Init]. *)
Definition CSyncPool_New (size : N) : CSyncPool :=
  let bitmap_size := size / BITS_PER_ULONG + 1 in
  MkPool size bitmap_size
    (replicate (N.to_nat bitmap_size) 0) (replicate (N.to_nat bitmap_size) 0) 0 ∅.

Definition bit_val (index : N) : N := N.shiftl 1 (index mod BITS_PER_ULONG).

Definition word_at (words : list N) (index : N) : N :=
  default 0 words.[index / BITS_PER_ULONG].

Definition set_word (words : list N) (index w : N) : list N :=
  <[N.to_nat (index / BITS_PER_ULONG) := w]> words.

(** One round of the loop: the hand moves, and the object below it is reserved,
    or freed when it was recycled. *)
Definition clock_step (p : CSyncPool) : option N * CSyncPool :=
  let index := m_last_lookup_idx p mod m_numobjs p in
  let last := m_last_lookup_idx p +[64] 1 in
  let '(reserved, w) := SetBit (word_at (m_objs_reserved p) index) (bit_val index) in
  if reserved then
    (Some index,
     MkPool (m_numobjs p) (m_bitmap_size p) (set_word (m_objs_reserved p) index w)
       (m_objs_recycled p) last (m_heap p))
  else if N.land (bit_val index) (word_at (m_objs_recycled p) index) =? bit_val index then
    let '(unset, c) := UnsetBit (word_at (m_objs_recycled p) index) (bit_val index) in
    if unset then
      (None,
       MkPool (m_numobjs p) (m_bitmap_size p)
         (set_word (m_objs_reserved p) index
            (snd (UnsetBit (word_at (m_objs_reserved p) index) (bit_val index))))
         (set_word (m_objs_recycled p) index c) last (m_heap p))
    else (None, MkPool (m_numobjs p) (m_bitmap_size p) (m_objs_reserved p)
                  (m_objs_recycled p) last (m_heap p))
  else (None, MkPool (m_numobjs p) (m_bitmap_size p) (m_objs_reserved p)
                (m_objs_recycled p) last (m_heap p)).

Fixpoint clock (rounds : nat) (p : CSyncPool) : option N * CSyncPool :=
  match rounds with
  | O => (None, p)
  | S rounds =>
      match clock_step p with
      | (Some index, p) => (Some index, p)
      | (None, p) => clock rounds p
      end
  end.

Definition PtRetrieve (p : CSyncPool) : slot * CSyncPool :=
  match clock (N.to_nat (2 *[32] m_numobjs p)) p with
  | (Some index, p) => (SArray index, p)
  | (None, p) =>
      let address := fresh (m_heap p) in
      (SHeap address,
       MkPool (m_numobjs p) (m_bitmap_size p) (m_objs_reserved p) (m_objs_recycled p)
         (m_last_lookup_idx p) ({[address]} ∪ m_heap p))
  end.

Definition Recycle (s : slot) (p : CSyncPool) : CSyncPool :=
  match s with
  | SHeap address =>
      MkPool (m_numobjs p) (m_bitmap_size p) (m_objs_reserved p) (m_objs_recycled p)
        (m_last_lookup_idx p) (m_heap p ∖ {[address]})
  | SArray offset =>
      MkPool (m_numobjs p) (m_bitmap_size p) (m_objs_reserved p)
        (set_word (m_objs_recycled p) offset
           (snd (SetBit (word_at (m_objs_recycled p) offset) (bit_val offset))))
        (m_last_lookup_idx p) (m_heap p)
  end.

(** ** What the bitmaps say *)

Definition bit_at (words : list N) (index : N) : bool :=
  N.testbit (word_at words index) (index mod BITS_PER_ULONG).

Definition in_use (p : CSyncPool) (s : slot) : Prop :=
  match s with
  | SArray i => i < m_numobjs p /\ bit_at (m_objs_reserved p) i = true /\
                bit_at (m_objs_recycled p) i = false
  | SHeap k => k ∈ m_heap p
  end.

Record pool_wf (p : CSyncPool) : Prop := {
  wf_size : 0 < m_numobjs p < 2 ^ 31;
  wf_bitmap : m_bitmap_size p = m_numobjs p / BITS_PER_ULONG + 1;
  wf_reserved : length (m_objs_reserved p) = N.to_nat (m_bitmap_size p);
  wf_recycled : length (m_objs_recycled p) = N.to_nat (m_bitmap_size p);
  (** Only reserved objects are recycled. *)
  wf_bits i : i < m_numobjs p ->
    bit_at (m_objs_recycled p) i = true -> bit_at (m_objs_reserved p) i = true;
}.

(** ** Bits of a bitmap *)

Lemma same_object i j :
  i / BITS_PER_ULONG = j / BITS_PER_ULONG -> i mod BITS_PER_ULONG = j mod BITS_PER_ULONG -> i = j.
Proof. intros. div_mod i BITS_PER_ULONG. div_mod j BITS_PER_ULONG. congruence. Qed.

Lemma bit_val_testbit i k : N.testbit (bit_val i) k = bool_decide (k = i mod BITS_PER_ULONG).
Proof.
  unfold bit_val. rewrite N.shiftl_1_l, N.pow2_bits_eqb.
  apply bool_iff_eq. rewrite N.eqb_eq, bool_decide_eq_true. split; congruence.
Qed.

Lemma bit_val_clear words i :
  (N.land (bit_val i) (word_at words i) =? 0) = negb (bit_at words i).
Proof.
  unfold bit_at. rewrite N.land_comm, <- land_mask_nonzero, negb_involutive. done.
Qed.

Lemma bit_val_set words i :
  (N.land (bit_val i) (word_at words i) =? bit_val i) = bit_at words i.
Proof.
  apply bool_iff_eq. rewrite N.eqb_eq. unfold bit_at. split.
  - intros H. apply (f_equal (fun x => N.testbit x (i mod BITS_PER_ULONG))) in H.
    rewrite N.land_spec, bit_val_testbit, bool_decide_eq_true_2 in H by done. done.
  - intros H. apply N.bits_inj. intros k. rewrite N.land_spec, bit_val_testbit.
    case_bool_decide as Hk; [by rewrite Hk, H | done].
Qed.

Lemma length_set_word words i w : length (set_word words i w) = length words.
Proof. apply length_insert. Qed.

Lemma bit_at_set_word words i j w :
  (N.to_nat (i / BITS_PER_ULONG) < length words)%nat ->
  bit_at (set_word words i w) j =
  if decide (j / BITS_PER_ULONG = i / BITS_PER_ULONG)
  then N.testbit w (j mod BITS_PER_ULONG) else bit_at words j.
Proof.
  intros Hi. unfold bit_at, word_at, set_word. case_decide as Hd.
  - rewrite Hd, list_lookup_insert_eq by done. done.
  - rewrite list_lookup_insert_ne by lia. done.
Qed.

Lemma SetBit_bits words i j :
  (N.to_nat (i / BITS_PER_ULONG) < length words)%nat ->
  bit_at (set_word words i (snd (SetBit (word_at words i) (bit_val i)))) j =
  bool_decide (j = i) || bit_at words j.
Proof.
  intros Hi. unfold SetBit. rewrite bit_val_clear, bit_at_set_word by done.
  case_decide as Hd.
  - destruct (bit_at words i) eqn:Hb; simpl.
    + unfold bit_at, word_at. rewrite Hd. case_bool_decide as Hj; [|done].
      subst j. exact Hb.
    + rewrite N.lor_spec, bit_val_testbit. unfold bit_at, word_at. rewrite Hd. f_equal.
      apply bool_decide_ext. split; [intros; by apply same_object | congruence].
  - rewrite bool_decide_eq_false_2; [done | congruence].
Qed.

Lemma UnsetBit_bits words i j :
  (N.to_nat (i / BITS_PER_ULONG) < length words)%nat ->
  bit_at (set_word words i (snd (UnsetBit (word_at words i) (bit_val i)))) j =
  negb (bool_decide (j = i)) && bit_at words j.
Proof.
  intros Hi. unfold UnsetBit. rewrite bit_val_set, bit_at_set_word by done.
  case_decide as Hd.
  - destruct (bit_at words i) eqn:Hb; simpl.
    + rewrite N.lxor_spec, bit_val_testbit.
      replace (N.testbit (word_at words i) (j mod BITS_PER_ULONG)) with (bit_at words j)
        by (unfold bit_at, word_at; by rewrite Hd).
      case_bool_decide as Hk.
      * assert (j = i) as -> by by apply same_object.
        rewrite bool_decide_eq_true_2, Hb by done. done.
      * rewrite bool_decide_eq_false_2 by congruence. by destruct (bit_at words j).
    + unfold bit_at, word_at. rewrite Hd. case_bool_decide as Hj; [|done].
      subst j. exact Hb.
  - rewrite bool_decide_eq_false_2; [done | congruence].
Qed.

(** ** One round *)

Definition hand (p : CSyncPool) : N := m_last_lookup_idx p mod m_numobjs p.

(** What a round does, by the state of the object below the hand. *)
Definition step_post (p : CSyncPool) (r : option N) (p' : CSyncPool) : Prop :=
  let i := hand p in
  m_numobjs p' = m_numobjs p /\ m_heap p' = m_heap p /\
  m_last_lookup_idx p' = m_last_lookup_idx p +[64] 1 /\ pool_wf p' /\
  ((bit_at (m_objs_reserved p) i = false /\ r = Some i /\
    forall j, bit_at (m_objs_reserved p') j =
                bool_decide (j = i) || bit_at (m_objs_reserved p) j /\
              bit_at (m_objs_recycled p') j = bit_at (m_objs_recycled p) j) \/
   (bit_at (m_objs_reserved p) i = true /\ r = None /\
    forall j, bit_at (m_objs_reserved p') j =
                negb (bool_decide (j = i) && bit_at (m_objs_recycled p) i)
                && bit_at (m_objs_reserved p) j /\
              bit_at (m_objs_recycled p') j =
                negb (bool_decide (j = i)) && bit_at (m_objs_recycled p) j)).

Lemma hand_lt p : pool_wf p -> hand p < m_numobjs p.
Proof. intros Hwf. apply N.mod_lt. pose proof (wf_size p Hwf). lia. Qed.

Lemma word_in_range p i (words : list N) :
  pool_wf p -> i < m_numobjs p -> length words = N.to_nat (m_bitmap_size p) ->
  (N.to_nat (i / BITS_PER_ULONG) < length words)%nat.
Proof.
  intros Hwf Hi ->. rewrite (wf_bitmap p Hwf).
  pose proof (N.Div0.div_le_mono i (m_numobjs p) BITS_PER_ULONG ltac:(lia)). lia.
Qed.

Lemma clock_step_spec p :
  pool_wf p -> step_post p (fst (clock_step p)) (snd (clock_step p)).
Proof.
  intros Hwf. pose proof (hand_lt p Hwf) as Hi.
  pose proof (word_in_range p _ _ Hwf Hi (wf_reserved p Hwf)) as Hr.
  pose proof (word_in_range p _ _ Hwf Hi (wf_recycled p Hwf)) as Hc.
  pose proof (SetBit_bits (m_objs_reserved p) (hand p)) as HS.
  pose proof (UnsetBit_bits (m_objs_reserved p) (hand p)) as HU.
  pose proof (UnsetBit_bits (m_objs_recycled p) (hand p)) as HV.
  pose proof (wf_bits p Hwf) as Hb. pose proof (wf_bits p Hwf _ Hi) as Hbi.
  unfold clock_step. fold (hand p). unfold SetBit, UnsetBit in *.
  rewrite bit_val_clear, !bit_val_set in *.
  destruct (bit_at (m_objs_reserved p) (hand p)) eqn:E1; simpl in *;
    [destruct (bit_at (m_objs_recycled p) (hand p)) eqn:E2; simpl in *|];
    (split; [done|]; split; [done|]; split; [done|]).
  - split.
    + destruct Hwf as [? ? ? ? ?]. constructor; [done|done|by simpl; rewrite ?length_set_word..|simpl].
      intros i Hin. rewrite HU, HV by done. case_bool_decide; simpl; auto.
    + right. split; [done|]. split; [done|]. intros j. rewrite E2.
      rewrite HU, HV by done. by rewrite andb_true_r.
  - split; [by destruct Hwf; constructor|]. right. split; [done|]. split; [done|].
    intros j. rewrite E2, andb_false_r. split; [done|]. simpl.
    case_bool_decide as Hj; [subst j; simpl; congruence | done].
  - split.
    + destruct Hwf as [? ? ? ? ?]. constructor; [done|done|by simpl; rewrite ?length_set_word..|simpl].
      intros i Hin Hrec. rewrite HS by done. apply orb_true_iff. right. by apply Hb.
    + left. split; [done|]. split; [done|]. intros j. rewrite HS by done. done.
Qed.

(** ** The loop *)

Definition objects_kept (p p' : CSyncPool) : Prop :=
  m_numobjs p' = m_numobjs p /\ m_heap p' = m_heap p.

Lemma step_in_use p r p' :
  pool_wf p -> step_post p r p' ->
  match r with
  | Some i => i < m_numobjs p /\ ~ in_use p (SArray i) /\
              forall t, in_use p' t <-> t = SArray i \/ in_use p t
  | None => forall t, in_use p' t <-> in_use p t
  end.
Proof.
  intros Hwf (Hn & Hh & _ & _ & Hcase). pose proof (hand_lt p Hwf) as Hi.
  pose proof (wf_bits p Hwf _ Hi) as Hb.
  destruct Hcase as [(Hr & -> & Hbits)|(Hr & -> & Hbits)].
  - split; [done|]. split; [intros (_ & ? & _); congruence|].
    intros [j|k]; simpl; [|rewrite Hh; naive_solver].
    destruct (Hbits j) as [-> ->]. rewrite Hn. case_bool_decide as Hj; simpl.
    + subst j. split; [by left|]. intros _. split; [done|]. split; [done|].
      apply not_true_iff_false. intros Hc. by rewrite Hb in Hr.
    + naive_solver.
  - intros [j|k]; simpl; [|by rewrite Hh].
    destruct (Hbits j) as [-> ->]. rewrite Hn. case_bool_decide as Hj; simpl; [|done].
    subst j. destruct (bit_at (m_objs_recycled p) (hand p)); simpl; naive_solver.
Qed.

Lemma clock_in_use rounds p :
  pool_wf p ->
  match clock rounds p with
  | (Some i, p') => pool_wf p' /\ objects_kept p p' /\ i < m_numobjs p /\
                    ~ in_use p (SArray i) /\
                    forall t, in_use p' t <-> t = SArray i \/ in_use p t
  | (None, p') => pool_wf p' /\ objects_kept p p' /\
                  forall t, in_use p' t <-> in_use p t
  end.
Proof.
  revert p. induction rounds as [|rounds IH]; intros p Hwf; simpl; [done|].
  pose proof (clock_step_spec p Hwf) as Hpost. destruct (clock_step p) as [r p1]. simpl in Hpost.
  pose proof (step_in_use p r p1 Hwf Hpost) as Hu.
  destruct Hpost as (Hn & Hh & _ & Hwf1 & _). destruct r as [i|].
  { destruct Hu as (? & ? & ?). by do 4 (split; [done|]). }
  specialize (IH p1 Hwf1). unfold objects_kept in *. rewrite Hn, Hh in IH.
  destruct (clock rounds p1) as [[i|] p2].
  - destruct IH as (? & ? & ? & Hf & Ht). rewrite Hu in Hf. do 4 (split; [done|]).
    intros t. by rewrite Ht, Hu.
  - destruct IH as (? & ? & Ht). do 2 (split; [done|]). intros t. by rewrite Ht, Hu.
Qed.

(** The hand is [d] rounds away from object [k]. *)
Definition away (p : CSyncPool) (k d : N) : Prop :=
  d < m_numobjs p /\ (m_last_lookup_idx p + d) mod m_numobjs p = k.

Lemma away_exists p k : pool_wf p -> k < m_numobjs p -> exists d, away p k d.
Proof.
  intros Hwf Hk. pose proof (hand_lt p Hwf) as Hh. unfold hand in Hh.
  pose proof (wf_size p Hwf) as Hs. set (n := m_numobjs p) in *.
  exists ((k + n - m_last_lookup_idx p mod n) mod n). split; [apply N.mod_lt; lia|].
  rewrite N.Div0.add_mod_idemp_r, <- N.Div0.add_mod_idemp_l. fold n.
  replace (m_last_lookup_idx p mod n + (k + n - m_last_lookup_idx p mod n)) with (k + 1 * n) by lia.
  rewrite N.Div0.mod_add. by apply N.mod_small.
Qed.

Lemma away_0 p k : away p k 0 -> k = hand p.
Proof. intros [_ <-]. unfold hand. by rewrite N.add_0_r. Qed.

(** The hand moves by one, whatever it finds. *)
Lemma away_step p r p' k d :
  step_post p r p' -> m_last_lookup_idx p + 1 < 2 ^ 64 ->
  away p k d -> away p' k (if d =? 0 then m_numobjs p - 1 else d - 1).
Proof.
  intros (Hn & _ & Hl & _) Hlt [Hd Hk]. unfold away. rewrite Hn, Hl, wrap_small by done.
  destruct (N.eqb_spec d 0) as [->|Hd0].
  - split; [lia|]. rewrite N.add_0_r in Hk.
    replace (m_last_lookup_idx p + 1 + (m_numobjs p - 1))
      with (m_last_lookup_idx p + 1 * m_numobjs p) by lia.
    by rewrite N.Div0.mod_add.
  - split; [lia|]. rewrite <- Hk. f_equal. lia.
Qed.

(** An object that is not reserved is found once the hand reaches it. *)
Lemma clock_finds_unreserved rounds p k d :
  pool_wf p -> away p k d -> d < N.of_nat rounds ->
  m_last_lookup_idx p + N.of_nat rounds < 2 ^ 64 ->
  bit_at (m_objs_reserved p) k = false -> is_Some (fst (clock rounds p)).
Proof.
  revert p d. induction rounds as [|rounds IH]; intros p d Hwf Haw Hd Hlast Hk; [lia|].
  simpl. pose proof (clock_step_spec p Hwf) as Hpost.
  destruct (clock_step p) as [r p1]. simpl in Hpost.
  destruct r as [i|]; [by eexists|].
  pose proof (away_step p None p1 k d Hpost ltac:(lia) Haw) as Haw1.
  destruct Hpost as (Hn & _ & Hl & Hwf1 & [(_ & ? & _)|(Hr & _ & Hbits)]); [done|].
  destruct (N.eqb_spec d 0) as [->|Hd0].
  - apply away_0 in Haw. congruence.
  - apply (IH p1 (d - 1) Hwf1 Haw1); [lia| |].
    + rewrite Hl, wrap_small; lia.
    + destruct (Hbits k) as [-> _]. by rewrite Hk, andb_false_r.
Qed.

(** A recycled object is freed at the first visit and found at the second. *)
Lemma clock_finds_free rounds p k d :
  pool_wf p -> k < m_numobjs p -> away p k d -> d + m_numobjs p < N.of_nat rounds ->
  m_last_lookup_idx p + N.of_nat rounds < 2 ^ 64 ->
  ~ in_use p (SArray k) -> is_Some (fst (clock rounds p)).
Proof.
  revert p d. induction rounds as [|rounds IH]; intros p d Hwf Hkn Haw Hd Hlast Hk; [lia|].
  destruct (bit_at (m_objs_reserved p) k) eqn:Hres;
    [|by apply (clock_finds_unreserved _ p k d Hwf Haw); [lia|done|]].
  assert (bit_at (m_objs_recycled p) k = true) as Hrec.
  { destruct (bit_at (m_objs_recycled p) k) eqn:E; [done|]. destruct Hk. by split. }
  simpl. pose proof (clock_step_spec p Hwf) as Hpost.
  pose proof (step_in_use p _ _ Hwf Hpost) as Hu.
  destruct (clock_step p) as [r p1]. simpl in Hpost, Hu.
  destruct r as [i|]; [by eexists|].
  pose proof (away_step p None p1 k d Hpost ltac:(lia) Haw) as Haw1.
  destruct Hpost as (Hn & _ & Hl & Hwf1 & [(_ & ? & _)|(Hr & _ & Hbits)]); [done|].
  assert (m_last_lookup_idx p1 + N.of_nat rounds < 2 ^ 64) as Hlast1
    by (rewrite Hl, wrap_small; lia).
  destruct (N.eqb_spec d 0) as [->|Hd0].
  - apply (clock_finds_unreserved rounds p1 k _ Hwf1 Haw1); [lia|done|].
    apply away_0 in Haw. subst k. destruct (Hbits (hand p)) as [-> _].
    by rewrite bool_decide_eq_true_2, Hrec.
  - apply (IH p1 (d - 1) Hwf1); [by rewrite Hn|done|lia|done|]. by rewrite Hu.
Qed.

(** ** The operations *)

Lemma CSyncPool_New_wf size : 0 < size < 2 ^ 31 -> pool_wf (CSyncPool_New size).
Proof.
  intros Hs. constructor; [done|done|apply length_replicate..|].
  intros i _. unfold bit_at, word_at, CSyncPool_New. cbn [m_objs_recycled].
  destruct (_.[_]) as [w|] eqn:E; cbn [default]; [|by rewrite N.bits_0].
  apply lookup_replicate in E as [-> _]. by rewrite N.bits_0.
Qed.

Lemma CSyncPool_New_free size s : ~ in_use (CSyncPool_New size) s.
Proof.
  destruct s as [i|k]; simpl; [|apply not_elem_of_empty].
  intros (_ & H & _). revert H. unfold bit_at, word_at, CSyncPool_New. cbn [m_objs_reserved].
  destruct (_.[_]) as [w|] eqn:E; cbn [default]; [|by rewrite N.bits_0].
  apply lookup_replicate in E as [-> _]. by rewrite N.bits_0.
Qed.

Lemma PtRetrieve_in_use p :
  pool_wf p ->
  pool_wf (snd (PtRetrieve p)) /\ ~ in_use p (fst (PtRetrieve p)) /\
  forall t, in_use (snd (PtRetrieve p)) t <-> t = fst (PtRetrieve p) \/ in_use p t.
Proof.
  intros Hwf. unfold PtRetrieve.
  pose proof (clock_in_use (N.to_nat (2 *[32] m_numobjs p)) p Hwf) as Hc.
  destruct (clock _ p) as [[i|] p1].
  { by destruct Hc as (? & _ & _ & ? & ?). }
  destruct Hc as (Hwf1 & [Hn Hh] & Hu). cbn [fst snd]. split; [by destruct Hwf1; constructor|].
  assert (fresh (m_heap p1) ∉ m_heap p1) as Hf by apply is_fresh. split.
  { cbn [in_use]. by rewrite Hh in Hf |- *. }
  intros [j|k].
  - rewrite <- Hu. cbn [in_use m_numobjs m_objs_reserved m_objs_recycled].
    split; [by right|]. intros [[=]|?]; done.
  - rewrite <- Hu. cbn [in_use m_heap]. rewrite elem_of_union, elem_of_singleton.
    split; (intros [H|H]; [left; congruence | by right]).
Qed.

Lemma Recycle_in_use p s :
  pool_wf p -> in_use p s ->
  pool_wf (Recycle s p) /\ forall t, in_use (Recycle s p) t <-> in_use p t /\ t <> s.
Proof.
  intros Hwf Hs. destruct s as [i|k]; cbn [Recycle].
  - destruct Hs as (Hi & Hr & Hc).
    pose proof (word_in_range p _ _ Hwf Hi (wf_recycled p Hwf)) as Hw.
    pose proof (SetBit_bits (m_objs_recycled p) i) as HS. split.
    + pose proof (wf_bits p Hwf) as Hb. destruct Hwf as [? ? ? ? ?].
      constructor; [done|done|done|by cbn [m_objs_recycled]; rewrite length_set_word|].
      cbn [m_numobjs m_objs_recycled m_objs_reserved]. intros j Hj. rewrite HS by done.
      case_bool_decide as E; [by subst j | by apply Hb].
    + intros [j|k]; cbn [in_use m_numobjs m_objs_recycled m_objs_reserved m_heap]; [|naive_solver].
      rewrite HS by done. case_bool_decide as E; simpl; naive_solver.
  - split; [by destruct Hwf; constructor|].
    intros [j|k']; cbn [in_use m_numobjs m_objs_recycled m_objs_reserved m_heap]; [naive_solver|].
    rewrite elem_of_difference, elem_of_singleton. naive_solver.
Qed.

End SyncPool.

#[export] Existing Instances SyncPool.slot_eq_dec SyncPool.slot_countable.

(** [CSyncPool] keeps the promise. *)
#[export] Instance SyncPool_pool : ObjectPool SyncPool.CSyncPool SyncPool.slot := {|
  pool_new := SyncPool.CSyncPool_New;
  pool_retrieve := SyncPool.PtRetrieve;
  pool_recycle := SyncPool.Recycle;
  pool_taken := SyncPool.in_use;
  pool_ok := SyncPool.pool_wf;
|}.

#[export] Instance SyncPool_laws : PoolLaws SyncPool.CSyncPool SyncPool.slot.
Proof.
  constructor.
  - intros size Hs. split; [by apply SyncPool.CSyncPool_New_wf|].
    apply SyncPool.CSyncPool_New_free.
  - apply SyncPool.PtRetrieve_in_use.
  - apply SyncPool.Recycle_in_use.
Qed.

(** C20: [CSyncPool::PtRetrieve] never hands out an object that is in use, takes
    one of the array as long as any of them is free, and allocates a new one
    exactly when all are in use; the objects in use afterwards are those in
    use before and the one handed out.  The pool is smaller than [2^31] objects
    and its clock, a 64-bit counter, does not wrap around during the two rounds of
    the search. *)
Theorem PtRetrieve_free (p : SyncPool.CSyncPool) :
  SyncPool.pool_wf p ->
  (SyncPool.m_last_lookup_idx p + 2 * SyncPool.m_numobjs p < 2 ^ 64)%N ->
  SyncPool.pool_wf (snd (SyncPool.PtRetrieve p)) /\
  ~ SyncPool.in_use p (fst (SyncPool.PtRetrieve p)) /\
  (forall t, SyncPool.in_use (snd (SyncPool.PtRetrieve p)) t <->
     t = fst (SyncPool.PtRetrieve p) \/ SyncPool.in_use p t) /\
  ((exists k, fst (SyncPool.PtRetrieve p) = SyncPool.SHeap k) <->
   forall i, (i < SyncPool.m_numobjs p)%N -> SyncPool.in_use p (SyncPool.SArray i)).
Proof.
  intros Hwf Hlast. destruct (SyncPool.PtRetrieve_in_use p Hwf) as (H1 & H2 & H3).
  do 3 (split; [done|]). revert H2. unfold SyncPool.PtRetrieve.
  pose proof (SyncPool.wf_size p Hwf) as Hs.
  rewrite wrap_small by lia.
  destruct (SyncPool.clock _ p) as [[i|] p1] eqn:E; cbn [fst]; intros Hf.
  - split; [by intros [? ?]|]. intros Hall.
    pose proof (SyncPool.clock_in_use (N.to_nat (2 * SyncPool.m_numobjs p)) p Hwf) as Hc.
    rewrite E in Hc. destruct Hf. apply Hall. by destruct Hc as (_ & _ & ? & _).
  - split; [|by eexists]. intros _ i Hi.
    destruct (decide (SyncPool.bit_at (SyncPool.m_objs_reserved p) i = true /\
                      SyncPool.bit_at (SyncPool.m_objs_recycled p) i = false)) as [Hd|Hd]; [by split|].
    exfalso. destruct (SyncPool.away_exists p i Hwf Hi) as [d Hd'].
    pose proof (SyncPool.clock_finds_free (N.to_nat (2 * SyncPool.m_numobjs p)) p i d) as Hff.
    rewrite E in Hff. destruct Hff as [? ?]; [done..| | | |done].
    + destruct Hd' as [? _]. lia.
    + lia.
    + by intros [_ ?].
Qed.

(** Two objects, both in use: the third request allocates. *)
Lemma PtRetrieve_free_witness :
  let p := snd (SyncPool.PtRetrieve (snd (SyncPool.PtRetrieve (SyncPool.CSyncPool_New 2)))) in
  SyncPool.m_numobjs p = 2%N /\
  ((exists k, fst (SyncPool.PtRetrieve p) = SyncPool.SHeap k) <->
   forall i, (i < SyncPool.m_numobjs p)%N -> SyncPool.in_use p (SyncPool.SArray i)).
Proof.
  split; [by vm_compute|]. apply PtRetrieve_free.
  - apply (SyncPool.PtRetrieve_in_use _), (SyncPool.PtRetrieve_in_use _),
      SyncPool.CSyncPool_New_wf. lia.
  - by vm_compute.
Defined.

(** A recycled object is handed out again in the second rotation. *)
Example recycled_again :
  let p1 := SyncPool.PtRetrieve (SyncPool.CSyncPool_New 2) in
  let p2 := SyncPool.PtRetrieve (snd p1) in
  let p3 := SyncPool.PtRetrieve (snd p2) in
  let p4 := SyncPool.PtRetrieve (SyncPool.Recycle (fst p1) (snd p3)) in
  (fst p1, fst p2, fst p3, fst p4) =
  (SyncPool.SArray 0, SyncPool.SArray 1, SyncPool.SHeap 0, SyncPool.SArray 0).
Proof. by vm_compute. Qed.
