(* ===== verification/JobFactory.v ===== *)
(** The job factory (libgpopt/src/search/CJobFactory.cpp): one pool of jobs per
    job type, made when the first job of the type is.  The pools are those of
    the interface [ObjectPool]. *)

From S2P Require Import Prelude.
From S2P Require Import SyncPool.
Local Open Scope N_scope.

(** The job types of [CJob] (CJob.h). *)
Inductive EJobType : Type :=
  | EjtTest
  | EjtGroupOptimization
  | EjtGroupImplementation
  | EjtGroupExploration
  | EjtGroupExpressionOptimization
  | EjtGroupExpressionImplementation
  | EjtGroupExpressionExploration
  | EjtTransformation
  | EjtJoinEnumeration.

#[export] Instance EJobType_eq_dec : EqDecision EJobType.
Proof. solve_decision. Defined.

Definition ejt_number (ejt : EJobType) : nat :=
  match ejt with
  | EjtTest => 0
  | EjtGroupOptimization => 1
  | EjtGroupImplementation => 2
  | EjtGroupExploration => 3
  | EjtGroupExpressionOptimization => 4
  | EjtGroupExpressionImplementation => 5
  | EjtGroupExpressionExploration => 6
  | EjtTransformation => 7
  | EjtJoinEnumeration => 8
  end.

#[export] Instance EJobType_countable : Countable EJobType.
Proof.
  refine (inj_countable ejt_number
    (fun n => [EjtTest; EjtGroupOptimization; EjtGroupImplementation; EjtGroupExploration;
               EjtGroupExpressionOptimization; EjtGroupExpressionImplementation;
               EjtGroupExpressionExploration; EjtTransformation; EjtJoinEnumeration] !! n) _).
  by intros [].
Defined.

Section factory.
Context {P S : Type} `{ObjectPool P S}.

Record CJobFactory := MkFactory {
  m_ulJobs : N;
  m_psp : EJobType -> option P;
}.

(** A pointer to a job: the type of the object and the object of the pool. *)
Definition job_address : Type := EJobType * S.

Definition set_pool (f : CJobFactory) (ejt : EJobType) (p : option P) : CJobFactory :=
  MkFactory (m_ulJobs f) (fun t => if decide (t = ejt) then p else m_psp f t).

Definition CJobFactory_New (ulJobs : N) : CJobFactory := MkFactory ulJobs (fun _ => None).

(** [PtRetrieve]: the pool of the type is made at its first use. *)
Definition pool_of (f : CJobFactory) (ejt : EJobType) : P :=
  match m_psp f ejt with
  | Some p => p
  | None => pool_new (m_ulJobs f)
  end.

Definition PjCreate (f : CJobFactory) (ejt : EJobType) : job_address * CJobFactory :=
  let '(pt, p) := pool_retrieve (pool_of f ejt) in
  ((ejt, pt), set_pool f ejt (Some p)).

(** The type of the job says which pool it goes back to, which must be there. *)
Definition Release (f : CJobFactory) (pj : job_address) : option CJobFactory :=
  p ← m_psp f (fst pj); Some (set_pool f (fst pj) (Some (pool_recycle (snd pj) p))).

Definition Truncate (f : CJobFactory) (ejt : EJobType) : CJobFactory := set_pool f ejt None.

(** [~CJobFactory] truncates these, in this order. *)
Definition destroyed_pools : list EJobType :=
  [EjtTest; EjtGroupExploration; EjtGroupImplementation; EjtGroupOptimization;
   EjtGroupExpressionExploration; EjtGroupExpressionExploration;
   EjtGroupExpressionOptimization; EjtTransformation; EjtJoinEnumeration].

Definition CJobFactory_Destroy (f : CJobFactory) : CJobFactory :=
  foldl Truncate f destroyed_pools.

(** ** Which jobs are in use *)

Definition job_in_use (f : CJobFactory) (pj : job_address) : Prop :=
  exists p, m_psp f (fst pj) = Some p /\ pool_taken p (snd pj).

Record factory_ok (f : CJobFactory) : Prop := {
  fo_jobs : 0 < m_ulJobs f < 2 ^ 31;
  fo_pools ejt p : m_psp f ejt = Some p -> pool_ok p;
}.

Context `{!PoolLaws P S}.

Lemma CJobFactory_New_ok ulJobs :
  0 < ulJobs < 2 ^ 31 ->
  factory_ok (CJobFactory_New ulJobs) /\ forall pj, ~ job_in_use (CJobFactory_New ulJobs) pj.
Proof. intros Hj. split; [by constructor|]. by intros pj (p & ? & _). Qed.

Lemma pool_of_spec f ejt :
  factory_ok f ->
  pool_ok (pool_of f ejt) /\
  forall s, pool_taken (pool_of f ejt) s <-> job_in_use f (ejt, s).
Proof.
  intros Hf. unfold pool_of, job_in_use. cbn [fst snd].
  destruct (m_psp f ejt) as [p|] eqn:E.
  - split; [by apply (fo_pools f Hf ejt)|]. naive_solver.
  - destruct (pool_new_spec (m_ulJobs f) (fo_jobs f Hf)) as [? Hn].
    split; [done|]. intros s. split; [by intros ?%Hn | by intros (? & ? & _)].
Qed.

Lemma set_pool_ok f ejt p :
  factory_ok f -> (forall q, p = Some q -> pool_ok q) -> factory_ok (set_pool f ejt p).
Proof.
  intros [Hj Hp] Hq. constructor; [done|]. intros t q. simpl. case_decide; [auto | apply Hp].
Qed.

Lemma set_pool_in_use f ejt p pj :
  job_in_use (set_pool f ejt (Some p)) pj <->
  if decide (fst pj = ejt) then pool_taken p (snd pj) else job_in_use f pj.
Proof. unfold job_in_use. simpl. case_decide; naive_solver. Qed.

(** A job that is created was not in use. *)
Lemma PjCreate_spec f ejt :
  factory_ok f ->
  let '(pj, f') := PjCreate f ejt in
  factory_ok f' /\ fst pj = ejt /\ ~ job_in_use f pj /\
  forall t, job_in_use f' t <-> t = pj \/ job_in_use f t.
Proof.
  intros Hf. destruct (pool_of_spec f ejt Hf) as [Hok Ht].
  destruct (pool_retrieve_spec _ Hok) as (Hok' & Hfree & Htaken).
  unfold PjCreate. destruct (pool_retrieve (pool_of f ejt)) as [pt p]. simpl in *.
  split; [apply set_pool_ok; [done | by intros ? [= <-]]|].
  split; [done|]. split; [by rewrite <- Ht|].
  intros [t s]. rewrite set_pool_in_use. simpl. case_decide as Hd.
  - subst t. rewrite Htaken, Ht. split; (intros [?|?]; [left; congruence | by right]).
  - split; [by right|]. intros [?|?]; [congruence | done].
Qed.

(** Any job in use can be released, and then is not in use. *)
Lemma Release_spec f pj :
  factory_ok f -> job_in_use f pj ->
  exists f', Release f pj = Some f' /\ factory_ok f' /\
             forall t, job_in_use f' t <-> job_in_use f t /\ t <> pj.
Proof.
  intros Hf (p & Hp & Ht). unfold Release. rewrite Hp. simpl. eexists. split; [done|].
  destruct (pool_recycle_spec p (snd pj) (fo_pools f Hf _ _ Hp) Ht) as [Hok Hr].
  split; [apply set_pool_ok; [done | by intros ? [= <-]]|].
  intros t. rewrite set_pool_in_use. case_decide as Hd.
  - rewrite Hr. unfold job_in_use. rewrite Hd. destruct t as [t s], pj as [t' s']. simpl in *.
    subst t'. naive_solver.
  - split; [naive_solver|]. by intros [? _].
Qed.

(** The destructor names the pool of the exploration jobs of group expressions
    twice and that of their implementation jobs never. *)
Lemma CJobFactory_Destroy_pools f ejt :
  m_psp (CJobFactory_Destroy f) ejt =
  if decide (ejt = EjtGroupExpressionImplementation) then m_psp f ejt else None.
Proof. by destruct ejt. Qed.

End factory.

Arguments CJobFactory : clear implicits.
Arguments job_address : clear implicits.
