(* ===== verification/Scheduler.v ===== *)
(** The job scheduler: [CJob] (libgpopt/src/search/CJob.cpp, CJob.h), [CJobQueue]
    (CJobQueue.cpp) and [CScheduler] (CScheduler.cpp), in the debug build with
    job tracking.

    Jobs are objects at addresses; a job that is released is gone, and a step
    that reaches for it fails, as does a step that violates an assert.  What a
    job does when it is run, the virtual [CJob::FExecute], is the parameter
    [body]: it changes the world the jobs share and its own state, adds children
    and says whether the job is done. *)

From S2P Require Import Prelude.
From S2P Require Import SyncPool.
From S2P Require Import JobFactory.
Local Open Scope N_scope.

(** ** Data *)

Inductive EJobState : Type := EjsInit | EjsWaiting | EjsRunning | EjsSuspended | EjsCompleted.

#[export] Instance EJobState_eq_dec : EqDecision EJobState.
Proof. solve_decision. Defined.

Inductive EJobQueueResult : Type := EjqrMain | EjqrQueued | EjqrCompleted.

Inductive EJobResult : Type := EjrRunnable | EjrSuspended | EjrCompleted.

Section scheduler.
Context {P S : Type} `{ObjectPool P S} `{Countable S} {W B : Type}.

Implicit Types pj : job_address S.

(** [m_job]: the fields of the class derived from [CJob], once initialized. *)
Record CJob := MkJob {
  m_pjParent : option (job_address S);
  m_pjq : option N;
  m_ulpRefs : N;
  m_ejt : EJobType;
  m_fInit : bool;
  m_ejs : EJobState;
  m_job : option B;
}.

Record CJobQueue := MkQueue {
  m_pj : option (job_address S);
  m_fCompleted : bool;
  m_listjQueued : list (job_address S);
}.

(** [m_listjlWaiting] is a stack; its links are not modelled. *)
Record CScheduler := MkScheduler {
  m_listjlWaiting : list (job_address S);
  m_ulpTotal : N;
  m_ulpRunning : N;
  m_ulpQueued : N;
  m_listjRunning : list (job_address S);
  m_listjSuspended : list (job_address S);
}.

Record statistics := MkStatistics {
  m_ulpStatsQueued : N;
  m_ulpStatsDequeued : N;
  m_ulpStatsSuspended : N;
  m_ulpStatsCompleted : N;
  m_ulpStatsCompletedQueued : N;
  m_ulpStatsResumed : N;
  m_ulpStatsMaxRunnable : N;
  m_ullStatsRunnableDepth : N;
}.

(** What a step can reach: the jobs in memory, the job queues (fields of groups
    and contexts) by address, the factory, the scheduler, and the rest of the
    search behind the jobs. *)
Record state := MkState {
  s_jobs : gmap (job_address S) CJob;
  s_queues : gmap N CJobQueue;
  s_factory : CJobFactory P;
  s_sched : CScheduler;
  s_stats : statistics;
  s_world : W;
}.

(** What a job asks for while it runs: a new job of a type, initialized with its
    own fields and the queue its [Init] sets; the job that runs is its parent. *)
Record child := MkChild {
  c_ejt : EJobType;
  c_pjq : option N;
  c_job : B;
}.

(** The world and the job afterwards, the new jobs in the order in which they
    are added, and whether the job is done. *)
Record outcome := MkOutcome {
  o_world : W;
  o_job : B;
  o_children : list child;
  o_completed : bool;
}.

Context `{!PoolLaws P S} (body : W -> B -> outcome).

(** ** Parts of a state *)

Definition set_jobs (st : state) (js : gmap (job_address S) CJob) : state :=
  MkState js (s_queues st) (s_factory st) (s_sched st) (s_stats st) (s_world st).
Definition set_sched (st : state) (sc : CScheduler) : state :=
  MkState (s_jobs st) (s_queues st) (s_factory st) sc (s_stats st) (s_world st).
Definition set_queue (st : state) (q : N) (jq : CJobQueue) : state :=
  MkState (s_jobs st) (<[q := jq]> (s_queues st)) (s_factory st) (s_sched st)
    (s_stats st) (s_world st).
Definition set_factory (st : state) (f : CJobFactory P) : state :=
  MkState (s_jobs st) (s_queues st) f (s_sched st) (s_stats st) (s_world st).
Definition set_stats (st : state) (x : statistics) : state :=
  MkState (s_jobs st) (s_queues st) (s_factory st) (s_sched st) x (s_world st).
Definition set_world (st : state) (w : W) : state :=
  MkState (s_jobs st) (s_queues st) (s_factory st) (s_sched st) (s_stats st) w.

Definition with_refs (j : CJob) (refs : N) : CJob :=
  MkJob (m_pjParent j) (m_pjq j) refs (m_ejt j) (m_fInit j) (m_ejs j) (m_job j).
Definition with_ejs (j : CJob) (ejs : EJobState) : CJob :=
  MkJob (m_pjParent j) (m_pjq j) (m_ulpRefs j) (m_ejt j) (m_fInit j) ejs (m_job j).
Definition with_parent (j : CJob) (parent : option (job_address S)) : CJob :=
  MkJob parent (m_pjq j) (m_ulpRefs j) (m_ejt j) (m_fInit j) (m_ejs j) (m_job j).
Definition with_job (j : CJob) (b : B) : CJob :=
  MkJob (m_pjParent j) (m_pjq j) (m_ulpRefs j) (m_ejt j) (m_fInit j) (m_ejs j) (Some b).

Definition put (st : state) (pj : job_address S) (j : CJob) : state :=
  set_jobs st (<[pj := j]> (s_jobs st)).

(** A new [CJobQueue]; a queue that was not used yet is one. *)
Definition CJobQueue_New : CJobQueue := MkQueue None false [].
Definition queue_of (qs : gmap N CJobQueue) (q : N) : CJobQueue :=
  default CJobQueue_New (qs !! q).
Definition queue_at (st : state) (q : N) : CJobQueue := queue_of (s_queues st) q.

(** [GPOS_ASSERT]. *)
Definition require (Q : Prop) `{Decision Q} : option unit :=
  if decide Q then Some tt else None.

(** ** CJob *)

(** [Reset], then [SetJobType] by the factory. *)
Definition CJob_Reset (ejt : EJobType) : CJob := MkJob None None 0 ejt false EjsInit None.

Definition IncRefs (st : state) pj : option state :=
  j ← s_jobs st !! pj; Some (put st pj (with_refs j (m_ulpRefs j + 1))).

(** The count before is the answer. *)
Definition UlpDecrRefs (st : state) pj : option (N * state) :=
  j ← s_jobs st !! pj;
  _ ← require (0 < m_ulpRefs j);
  Some (m_ulpRefs j, put st pj (with_refs j (m_ulpRefs j - 1))).

Definition FResumeParent (st : state) pj : option (bool * state) :=
  j ← s_jobs st !! pj;
  _ ← require (m_ulpRefs j = 0);
  parent ← m_pjParent j;
  '(refs, st) ← UlpDecrRefs st parent;
  Some (refs =? 1, st).

(** ** CScheduler: adding and resuming *)

Definition Schedule (st : state) pj : option state :=
  j ← s_jobs st !! pj;
  _ ← require (m_ejs j = EjsInit \/ m_ejs j = EjsRunning \/ m_ejs j = EjsSuspended);
  let sc := s_sched st in
  let x := s_stats st in
  Some (set_stats
    (set_sched (put st pj (with_ejs j EjsWaiting))
      (MkScheduler (pj :: m_listjlWaiting sc) (m_ulpTotal sc) (m_ulpRunning sc)
         (m_ulpQueued sc + 1) (m_listjRunning sc) (m_listjSuspended sc)))
    (MkStatistics (m_ulpStatsQueued x + 1) (m_ulpStatsDequeued x) (m_ulpStatsSuspended x)
       (m_ulpStatsCompleted x) (m_ulpStatsCompletedQueued x) (m_ulpStatsResumed x)
       (m_ulpStatsMaxRunnable x) (m_ullStatsRunnableDepth x))).

Definition Resume (st : state) pj : option state :=
  j ← s_jobs st !! pj;
  _ ← require (m_ulpRefs j = 0);
  Schedule st pj.

Definition add_total (st : state) : state :=
  let sc := s_sched st in
  set_sched st (MkScheduler (m_listjlWaiting sc) (m_ulpTotal sc + 1) (m_ulpRunning sc)
                  (m_ulpQueued sc) (m_listjRunning sc) (m_listjSuspended sc)).

Definition Add (st : state) pj (parent : option (job_address S)) : option state :=
  j ← s_jobs st !! pj;
  _ ← require (m_ulpRefs j = 0);
  st ← match parent with
       | Some pp => IncRefs st pp
       | None => Some st
       end;
  j ← s_jobs st !! pj;
  _ ← require (parent <> Some pj);
  Schedule (add_total (put st pj (with_parent j parent))) pj.

(** ** CScheduler: retrieving and running *)

(** [None] inside: there is no work left. *)
Definition PjRetrieve (st : state) : option (option (job_address S) * state) :=
  let sc := s_sched st in
  let x := s_stats st in
  let most := N.max (m_ulpStatsMaxRunnable x) (m_ulpQueued sc) in
  let depth := m_ullStatsRunnableDepth x +[64] m_ulpQueued sc in
  match m_listjlWaiting sc with
  | [] =>
      Some (None, set_stats st
        (MkStatistics (m_ulpStatsQueued x) (m_ulpStatsDequeued x) (m_ulpStatsSuspended x)
           (m_ulpStatsCompleted x) (m_ulpStatsCompletedQueued x) (m_ulpStatsResumed x)
           most depth))
  | pj :: waiting =>
      j ← s_jobs st !! pj;
      _ ← require (m_ulpRefs j = 0);
      _ ← require (m_ejs j = EjsWaiting);
      Some (Some pj, set_stats
        (set_sched (put st pj (with_ejs j EjsRunning))
          (MkScheduler waiting (m_ulpTotal sc) (m_ulpRunning sc) (m_ulpQueued sc - 1)
             (m_listjRunning sc ++ [pj]) (m_listjSuspended sc)))
        (MkStatistics (m_ulpStatsQueued x) (m_ulpStatsDequeued x + 1) (m_ulpStatsSuspended x)
           (m_ulpStatsCompleted x) (m_ulpStatsCompletedQueued x) (m_ulpStatsResumed x)
           most depth))
  end.

Definition add_running (st : state) : state :=
  let sc := s_sched st in
  set_sched st (MkScheduler (m_listjlWaiting sc) (m_ulpTotal sc) (m_ulpRunning sc + 1)
                  (m_ulpQueued sc) (m_listjRunning sc) (m_listjSuspended sc)).

Definition PreExecute (st : state) pj : option state :=
  j ← s_jobs st !! pj;
  _ ← require (m_ulpRefs j = 0);
  IncRefs (add_running st) pj.

(** ** CScheduler: completion *)

(** [m_listjSuspended.Remove], of a job in the list. *)
Definition remove_suspended (st : state) pj : option state :=
  let sc := s_sched st in
  _ ← require (pj ∈ m_listjSuspended sc);
  Some (set_sched st (MkScheduler (m_listjlWaiting sc) (m_ulpTotal sc) (m_ulpRunning sc)
    (m_ulpQueued sc) (m_listjRunning sc)
    (filter (fun x => x <> pj) (m_listjSuspended sc)))).

Definition remove_running (st : state) pj : option state :=
  let sc := s_sched st in
  _ ← require (pj ∈ m_listjRunning sc);
  Some (set_sched st (MkScheduler (m_listjlWaiting sc) (m_ulpTotal sc) (m_ulpRunning sc)
    (m_ulpQueued sc) (filter (fun x => x <> pj) (m_listjRunning sc))
    (m_listjSuspended sc))).

Definition count_resumed (st : state) : state :=
  let x := s_stats st in
  set_stats st (MkStatistics (m_ulpStatsQueued x) (m_ulpStatsDequeued x) (m_ulpStatsSuspended x)
    (m_ulpStatsCompleted x) (m_ulpStatsCompletedQueued x) (m_ulpStatsResumed x + 1)
    (m_ulpStatsMaxRunnable x) (m_ullStatsRunnableDepth x)).

Definition ResumeParent (st : state) pj : option state :=
  j ← s_jobs st !! pj;
  _ ← require (m_ulpRefs j = 0);
  match m_pjParent j with
  | None => Some st
  | Some parent =>
      '(resume, st) ← FResumeParent st pj;
      if resume : bool then
        st ← remove_suspended st parent;
        st ← Resume st parent;
        Some (count_resumed st)
      else Some st
  end.

Definition count_completed (queued : bool) (st : state) : state :=
  let sc := s_sched st in
  let x := s_stats st in
  set_stats
    (set_sched st (MkScheduler (m_listjlWaiting sc) (m_ulpTotal sc - 1) (m_ulpRunning sc)
       (m_ulpQueued sc) (m_listjRunning sc) (m_listjSuspended sc)))
    (MkStatistics (m_ulpStatsQueued x) (m_ulpStatsDequeued x) (m_ulpStatsSuspended x)
       (m_ulpStatsCompleted x + 1)
       (m_ulpStatsCompletedQueued x + (if queued then 1 else 0)) (m_ulpStatsResumed x)
       (m_ulpStatsMaxRunnable x) (m_ullStatsRunnableDepth x)).

Definition Complete (st : state) pj : option state :=
  j ← s_jobs st !! pj;
  _ ← require (m_ulpRefs j = 0);
  _ ← require (m_ejs j = EjsRunning);
  st ← ResumeParent (put st pj (with_ejs j EjsCompleted)) pj;
  Some (count_completed false st).

Definition CompleteQueued (st : state) pj : option state :=
  j ← s_jobs st !! pj;
  _ ← require (m_ulpRefs j = 0);
  _ ← require (m_ejs j = EjsSuspended);
  st ← remove_suspended st pj;
  st ← ResumeParent (put st pj (with_ejs j EjsCompleted)) pj;
  Some (count_completed true st).

Definition Suspend (st : state) pj : option state :=
  j ← s_jobs st !! pj;
  _ ← require (m_ejs j = EjsRunning);
  let sc := s_sched st in
  let x := s_stats st in
  Some (set_stats
    (set_sched (put st pj (with_ejs j EjsSuspended))
      (MkScheduler (m_listjlWaiting sc) (m_ulpTotal sc) (m_ulpRunning sc) (m_ulpQueued sc)
         (m_listjRunning sc) (m_listjSuspended sc ++ [pj])))
    (MkStatistics (m_ulpStatsQueued x) (m_ulpStatsDequeued x) (m_ulpStatsSuspended x + 1)
       (m_ulpStatsCompleted x) (m_ulpStatsCompletedQueued x) (m_ulpStatsResumed x)
       (m_ulpStatsMaxRunnable x) (m_ullStatsRunnableDepth x))).

(** [psc->Pjf()->Release(pj)]: the job leaves memory. *)
Definition release_job (st : state) pj : option state :=
  j ← s_jobs st !! pj;
  f ← Release (s_factory st) (m_ejt j, snd pj);
  Some (set_jobs (set_factory st f) (delete pj (s_jobs st))).

(** ** CJobQueue *)

Definition EjqrAdd (st : state) (q : N) pj : option (EJobQueueResult * state) :=
  let jq := queue_at st q in
  if m_fCompleted jq then Some (EjqrCompleted, st)
  else if decide (m_pj jq = Some pj) then
    st ← IncRefs st pj; Some (EjqrMain, st)
  else
    let queued := m_listjQueued jq ++ [pj] in
    if decide (head queued = Some pj) then
      _ ← require (m_pj jq = None);
      st ← IncRefs (set_queue st q (MkQueue (Some pj) false queued)) pj;
      Some (EjqrMain, st)
    else
      st ← IncRefs (set_queue st q (MkQueue (m_pj jq) false queued)) pj;
      Some (EjqrQueued, st).

(** The loop of [NotifyCompleted]: the jobs of the list leave it one by one. *)
Fixpoint notify_loop (queued : list (job_address S)) (st : state) (q : N) : option state :=
  match queued with
  | [] => Some st
  | pj :: queued =>
      let jq := queue_at st q in
      let st := set_queue st q (MkQueue (m_pj jq) (m_fCompleted jq) queued) in
      '(refs, st) ← UlpDecrRefs st pj;
      st ← (if refs =? 1 then st ← CompleteQueued st pj; release_job st pj
            else Some st);
      notify_loop queued st q
  end.

Definition NotifyCompleted (st : state) (q : N) : option state :=
  let jq := queue_at st q in
  _ ← require (m_fCompleted jq = false);
  _ ← require (m_listjQueued jq <> []);
  notify_loop (m_listjQueued jq)
    (set_queue st q (MkQueue (m_pj jq) true (m_listjQueued jq))) q.

(** ** Running a job *)

(** [PjCreate], the [Init] of the derived class, [Add]: [ScheduleJob]. *)
Definition ScheduleJob (st : state) (c : child) (parent : option (job_address S)) : option state :=
  let '(pj, f) := PjCreate (s_factory st) (c_ejt c) in
  let j := CJob_Reset (c_ejt c) in
  Add (put (set_factory st f) pj
         (MkJob (m_pjParent j) (c_pjq c) (m_ulpRefs j) (m_ejt j) true (m_ejs j) (Some (c_job c))))
    pj parent.

Fixpoint schedule_children (st : state) (cs : list child) (parent : job_address S) : option state :=
  match cs with
  | [] => Some st
  | c :: cs => st ← ScheduleJob st c (Some parent); schedule_children st cs parent
  end.

(** [pj->FExecute(psc)]. *)
Definition run_job (st : state) pj : option (bool * state) :=
  j ← s_jobs st !! pj;
  _ ← require (m_fInit j = true);
  b ← m_job j;
  let o := body (s_world st) b in
  st ← schedule_children (put (set_world st (o_world o)) pj (with_job j (o_job o)))
         (o_children o) pj;
  Some (o_completed o, st).

(** [CScheduler::FExecute]. *)
Definition FExecute (st : state) pj : option (bool * state) :=
  j ← s_jobs st !! pj;
  match m_pjq j with
  | None => run_job st pj
  | Some q =>
      '(r, st) ← EjqrAdd st q pj;
      match r with
      | EjqrMain =>
          '(completed, st) ← run_job st pj;
          if completed : bool then
            st ← NotifyCompleted st q; Some (true, st)
          else
            '(_, st) ← UlpDecrRefs st pj; Some (false, st)
      | EjqrQueued => Some (false, st)
      | EjqrCompleted => Some (true, st)
      end
  end.

Definition drop_running (st : state) : state :=
  let sc := s_sched st in
  set_sched st (MkScheduler (m_listjlWaiting sc) (m_ulpTotal sc) (m_ulpRunning sc - 1)
                  (m_ulpQueued sc) (m_listjRunning sc) (m_listjSuspended sc)).

Definition EjrPostExecute (st : state) pj (completed : bool) : option (EJobResult * state) :=
  '(refs, st) ← UlpDecrRefs st pj;
  let st := drop_running st in
  if completed then
    _ ← require (refs = 1); Some (EjrCompleted, st)
  else if refs =? 1 then Some (EjrRunnable, st)
  else Some (EjrSuspended, st).

(** What happens to a job after it ran. *)
Definition process_result (st : state) pj (r : EJobResult) : option state :=
  match r with
  | EjrCompleted => st ← Complete st pj; release_job st pj
  | EjrRunnable => Resume st pj
  | EjrSuspended => Suspend st pj
  end.

(** One round of the loop of [ExecuteJobs], for the job that was retrieved. *)
Definition execute_job (st : state) pj : option state :=
  st ← PreExecute st pj;
  '(completed, st) ← FExecute st pj;
  st ← remove_running st pj;
  '(r, st) ← EjrPostExecute st pj completed;
  process_result st pj r.

Fixpoint ExecuteJobs (fuel : nat) (st : state) : option state :=
  match fuel with
  | O => None
  | Datatypes.S fuel =>
      '(next, st) ← PjRetrieve st;
      match next with
      | None => Some st
      | Some pj => st ← execute_job st pj; ExecuteJobs fuel st
      end
  end.

(** ** The job table *)

(** What no change of a counter or a state touches: the parent of a job, its
    queue and its own fields. *)
Definition job_view (j : CJob) : option (job_address S) * option N * option B :=
  (m_pjParent j, m_pjq j, m_job j).
Abbreviation table := (gmap (job_address S) (option (job_address S) * option N * option B)).
Definition view (js : gmap (job_address S) CJob) : table := job_view <$> js.

Definition v_parent (v : table) pj : option (job_address S) := e ← v !! pj; fst (fst e).
Definition v_queue (v : table) pj : option N := e ← v !! pj; snd (fst e).
Definition v_job (v : table) pj : option B := e ← v !! pj; snd e.

(** The children of a job that are not done. *)
Definition nchildren (v : table) (p : job_address S) : N :=
  N.of_nat (size (filter (fun kv => fst (fst (snd kv)) = Some p) v)).

Lemma view_lookup js pj : view js !! pj = job_view <$> (js !! pj).
Proof. apply lookup_fmap. Qed.

Lemma view_put js pj j j' :
  js !! pj = Some j -> job_view j' = job_view j -> view (<[pj := j']> js) = view js.
Proof.
  intros Hj Hv. unfold view. rewrite fmap_insert, Hv. apply insert_id.
  by rewrite lookup_fmap, Hj.
Qed.

Lemma nchildren_insert (v : table) pj e p :
  v !! pj = None ->
  nchildren (<[pj := e]> v) p =
  nchildren v p + (if decide (fst (fst e) = Some p) then 1 else 0).
Proof.
  intros Hn. unfold nchildren. case_decide as Hp.
  - rewrite map_filter_insert_True by done. rewrite map_size_insert_None; [lia|].
    apply map_lookup_filter_None. by left.
  - rewrite map_filter_insert_False by done. rewrite delete_id by done. lia.
Qed.

Lemma nchildren_delete (v : table) pj e p :
  v !! pj = Some e ->
  nchildren v p = nchildren (delete pj v) p + (if decide (fst (fst e) = Some p) then 1 else 0).
Proof.
  intros He. rewrite <- (nchildren_insert (delete pj v) pj e p) by apply lookup_delete_eq.
  by rewrite insert_delete_id.
Qed.

Lemma nchildren_put js pj j j' p :
  js !! pj = Some j -> m_pjParent j' = m_pjParent j ->
  nchildren (view (<[pj := j']> js)) p = nchildren (view js) p.
Proof.
  intros Hj Hp. unfold view. rewrite fmap_insert.
  rewrite (nchildren_delete (job_view <$> js) pj (job_view j)) by by rewrite lookup_fmap, Hj.
  rewrite (nchildren_delete (<[pj := job_view j']> (job_view <$> js)) pj (job_view j'))
    by by rewrite lookup_insert_eq.
  rewrite delete_insert_eq. unfold job_view. simpl. by rewrite Hp.
Qed.

Lemma nchildren_0 (v : table) p :
  nchildren v p = 0 <-> forall pj, v_parent v pj <> Some p.
Proof.
  unfold nchildren, v_parent. split.
  - intros Hz pj Hp. destruct (v !! pj) as [e|] eqn:He; [|done]. simpl in Hp.
    assert (filter (fun kv => fst (fst (snd kv)) = Some p) v !! pj = Some e) as Hf
      by by apply map_lookup_filter_Some.
    assert (size (filter (fun kv => fst (fst (snd kv)) = Some p) v) = 0%nat) as Hs by lia.
    apply map_size_empty_inv in Hs. by rewrite Hs in Hf.
  - intros Hp. assert (filter (fun kv => fst (fst (snd kv)) = Some p) v = ∅) as ->.
    { apply map_empty. intros pj. apply map_lookup_filter_None. right. intros e He Hk.
      apply (Hp pj). by rewrite He. }
    by rewrite map_size_empty.
Qed.

(** ** The invariant of jobs and lists *)

(** [x] says what a counter holds besides the children; the jobs in [busy] are
    on no list: the one that runs and the one that is being completed. *)
Record Core (x : job_address S -> N) (busy : gset (job_address S))
    (rl : list (job_address S)) (rn : N)
    (js : gmap (job_address S) CJob) (sc : CScheduler) (f : CJobFactory P) : Prop := {
  c_refs pj j : js !! pj = Some j -> m_ulpRefs j = nchildren (view js) pj + x pj;
  c_free pj : js !! pj = None -> x pj = 0;
  c_parent pj j p : js !! pj = Some j -> m_pjParent j = Some p -> p <> pj /\ is_Some (js !! p);
  c_init pj j : js !! pj = Some j ->
    m_fInit j = true /\ is_Some (m_job j) /\ m_ejt j = fst pj;
  c_busy pj : pj ∈ busy -> is_Some (js !! pj);
  c_state pj j : js !! pj = Some j -> pj ∉ busy ->
    (m_ejs j = EjsWaiting /\ m_ulpRefs j = 0) \/ (m_ejs j = EjsSuspended /\ m_ulpRefs j <> 0);
  c_waiting pj : pj ∈ m_listjlWaiting sc <->
    (pj ∉ busy /\ exists j, js !! pj = Some j /\ m_ejs j = EjsWaiting);
  c_waiting_nodup : NoDup (m_listjlWaiting sc);
  c_suspended pj : pj ∈ m_listjSuspended sc <->
    (pj ∉ busy /\ exists j, js !! pj = Some j /\ m_ejs j = EjsSuspended);
  c_suspended_nodup : NoDup (m_listjSuspended sc);
  c_total : m_ulpTotal sc = N.of_nat (size js);
  c_queued : m_ulpQueued sc = N.of_nat (length (m_listjlWaiting sc));
  c_running : m_listjRunning sc = rl /\ m_ulpRunning sc = rn;
  c_factory : factory_ok f;
  c_in_use pj : job_in_use f pj <-> is_Some (js !! pj);
}.

Definition x_inc (x : job_address S -> N) (p : job_address S) : job_address S -> N :=
  fun y => if decide (y = p) then x y + 1 else x y.

Lemma Core_ext x x' busy rl rn js sc f :
  (forall y, x y = x' y) -> Core x busy rl rn js sc f -> Core x' busy rl rn js sc f.
Proof.
  intros He []. constructor; try done; intros; rewrite <- ?He; auto.
Qed.

(** A list of the scheduler holds, of the jobs that are not busy, those in a
    state. *)
Definition holds (l : list (job_address S)) (ejs : EJobState)
    (busy : gset (job_address S)) (js : gmap (job_address S) CJob) : Prop :=
  NoDup l /\ forall pj, pj ∈ l <-> (pj ∉ busy /\ exists j, js !! pj = Some j /\ m_ejs j = ejs).

(** One job changes its counter, its state or its place in the lists. *)
Lemma Core_update x x' busy busy' rl rl' rn js sc sc' f pj j j' :
  Core x busy rl rn js sc f -> js !! pj = Some j ->
  m_pjParent j' = m_pjParent j -> (is_Some (m_job j) -> is_Some (m_job j')) ->
  m_fInit j' = m_fInit j -> m_ejt j' = m_ejt j ->
  m_ulpRefs j' = nchildren (view js) pj + x' pj -> (forall y, y <> pj -> x' y = x y) ->
  (forall y, y <> pj -> y ∈ busy' <-> y ∈ busy) ->
  (pj ∉ busy' -> (m_ejs j' = EjsWaiting /\ m_ulpRefs j' = 0) \/
                 (m_ejs j' = EjsSuspended /\ m_ulpRefs j' <> 0)) ->
  holds (m_listjlWaiting sc') EjsWaiting busy' (<[pj := j']> js) ->
  holds (m_listjSuspended sc') EjsSuspended busy' (<[pj := j']> js) ->
  m_ulpTotal sc' = m_ulpTotal sc ->
  m_ulpQueued sc' = N.of_nat (length (m_listjlWaiting sc')) ->
  m_listjRunning sc' = rl' -> m_ulpRunning sc' = rn ->
  Core x' busy' rl' rn (<[pj := j']> js) sc' f.
Proof.
  intros HC Hj Hp Hjob Hi Ht Hr Hx Hb Hst [Hwn Hw] [Hsn Hs] Htot Hq Hrl Hrn.
  pose proof (fun p => nchildren_put js pj j j' p Hj Hp) as Hview. destruct HC.
  constructor; try done.
  - intros y k [[<- <-]|[Hn Hk]]%lookup_insert_Some; rewrite Hview; [done|].
    rewrite Hx by done. auto.
  - intros y Hy. apply lookup_insert_None in Hy as [Hy Hn]. rewrite Hx by done. auto.
  - intros y k p Hk Hkp. rewrite lookup_insert_is_Some'.
    apply lookup_insert_Some in Hk as [[<- <-]|[Hn Hk]]; [|naive_solver].
    rewrite Hp in Hkp. naive_solver.
  - intros y k [[<- <-]|[Hn Hk]]%lookup_insert_Some; [|eauto].
    rewrite Hi, Ht. destruct (c_init0 pj j Hj) as (? & ? & ?). auto.
  - intros y Hy. rewrite lookup_insert_is_Some'. destruct (decide (pj = y)); [by left|].
    right. apply c_busy0, Hb; done.
  - intros y k [[<- <-]|[Hn Hk]]%lookup_insert_Some; [done|]. intros Hy.
    apply (c_state0 y k Hk). by rewrite <- Hb.
  - rewrite map_size_insert_Some by eauto. congruence.
  - intros y. rewrite lookup_insert_is_Some', c_in_use0. split; [auto|].
    intros [<-|?]; eauto.
Qed.

(** A list that does not hold the job, before and after. *)
Lemma holds_apart l ejs busy busy' js pj j' :
  holds l ejs busy js -> pj ∉ l -> (pj ∈ busy' \/ m_ejs j' <> ejs) ->
  (forall y, y <> pj -> y ∈ busy' <-> y ∈ busy) ->
  holds l ejs busy' (<[pj := j']> js).
Proof.
  intros [Hn Hl] Hpj Hout Hb. split; [done|]. intros y. destruct (decide (y = pj)) as [->|Hy].
  - rewrite lookup_insert_eq. split; [done|]. intros [? (k & [= <-] & ?)]. naive_solver.
  - rewrite lookup_insert_ne, Hb, Hl by done. done.
Qed.

(** A list the job is on afterwards, and otherwise the same. *)
Lemma holds_join l l' ejs busy busy' js pj j' :
  holds l ejs busy js -> NoDup l' -> pj ∈ l' -> (forall y, y <> pj -> y ∈ l' <-> y ∈ l) ->
  pj ∉ busy' -> m_ejs j' = ejs -> (forall y, y <> pj -> y ∈ busy' <-> y ∈ busy) ->
  holds l' ejs busy' (<[pj := j']> js).
Proof.
  intros [Hn Hl] Hn' Hpj Hl' Hout He Hb. split; [done|]. intros y.
  destruct (decide (y = pj)) as [->|Hy].
  - rewrite lookup_insert_eq. naive_solver.
  - rewrite lookup_insert_ne, Hb, Hl', Hl by done. done.
Qed.

(** A list the job leaves. *)
Lemma holds_leave l l' ejs busy busy' js pj j' :
  holds l ejs busy js -> NoDup l' -> pj ∉ l' -> (forall y, y <> pj -> y ∈ l' <-> y ∈ l) ->
  pj ∈ busy' -> (forall y, y <> pj -> y ∈ busy' <-> y ∈ busy) ->
  holds l' ejs busy' (<[pj := j']> js).
Proof.
  intros [Hn Hl] Hn' Hpj Hl' Hin Hb. split; [done|]. intros y.
  destruct (decide (y = pj)) as [->|Hy].
  - split; [done|]. by intros [? _].
  - rewrite lookup_insert_ne, Hb, Hl', Hl by done. done.
Qed.

Lemma Core_holds x busy rl rn js sc f :
  Core x busy rl rn js sc f ->
  holds (m_listjlWaiting sc) EjsWaiting busy js /\
  holds (m_listjSuspended sc) EjsSuspended busy js.
Proof. intros HC. split; (split; [by destruct HC|]; by apply HC). Qed.

Lemma busy_off_lists x busy rl rn js sc f pj :
  Core x busy rl rn js sc f -> pj ∈ busy ->
  pj ∉ m_listjlWaiting sc /\ pj ∉ m_listjSuspended sc.
Proof.
  intros HC Hb. split; [intros [? _]%(c_waiting _ _ _ _ _ _ _ HC) |
                        intros [? _]%(c_suspended _ _ _ _ _ _ _ HC)]; done.
Qed.

Lemma waiting_job x busy rl rn js sc f pj :
  Core x busy rl rn js sc f -> pj ∈ m_listjlWaiting sc ->
  pj ∉ busy /\ pj ∉ m_listjSuspended sc /\
  exists j, js !! pj = Some j /\ m_ejs j = EjsWaiting /\ m_ulpRefs j = 0.
Proof.
  intros HC Hw. apply (c_waiting _ _ _ _ _ _ _ HC) in Hw as [Hb (j & Hj & He)].
  split; [done|]. split.
  - intros [_ (k & Hk & Hke)]%(c_suspended _ _ _ _ _ _ _ HC). congruence.
  - exists j. split; [done|]. split; [done|].
    destruct (c_state _ _ _ _ _ _ _ HC pj j Hj Hb) as [[_ ?]|[? _]]; congruence.
Qed.

Lemma suspended_job x busy rl rn js sc f pj :
  Core x busy rl rn js sc f -> pj ∈ m_listjSuspended sc ->
  pj ∉ busy /\ pj ∉ m_listjlWaiting sc /\
  exists j, js !! pj = Some j /\ m_ejs j = EjsSuspended /\ m_ulpRefs j <> 0.
Proof.
  intros HC Hw. apply (c_suspended _ _ _ _ _ _ _ HC) in Hw as [Hb (j & Hj & He)].
  split; [done|]. split.
  - intros [_ (k & Hk & Hke)]%(c_waiting _ _ _ _ _ _ _ HC). congruence.
  - exists j. split; [done|]. split; [done|].
    destruct (c_state _ _ _ _ _ _ _ HC pj j Hj Hb) as [[? _]|[_ ?]]; congruence.
Qed.

(** A counter or a state of a busy job changes. *)
Lemma Core_put_busy x x' busy rl rn js sc f pj j j' :
  Core x busy rl rn js sc f -> pj ∈ busy -> js !! pj = Some j ->
  m_pjParent j' = m_pjParent j -> (is_Some (m_job j) -> is_Some (m_job j')) ->
  m_fInit j' = m_fInit j -> m_ejt j' = m_ejt j ->
  m_ulpRefs j' = nchildren (view js) pj + x' pj -> (forall y, y <> pj -> x' y = x y) ->
  Core x' busy rl rn (<[pj := j']> js) sc f.
Proof.
  intros HC Hb Hj Hp Hjob Hi Ht Hr Hx. destruct (Core_holds _ _ _ _ _ _ _ HC) as [Hw Hs].
  destruct (busy_off_lists _ _ _ _ _ _ _ pj HC Hb).
  eapply (Core_update _ _ busy _ _ _ _ _ _ _ _ pj j _ HC Hj); try done; try apply HC.
  - apply (holds_apart _ _ busy); auto.
  - apply (holds_apart _ _ busy); auto.
Qed.

(** A busy job is put on the waiting list. *)
Lemma Core_wait x busy rl rn js sc f pj j :
  Core x busy rl rn js sc f -> pj ∈ busy -> js !! pj = Some j -> m_ulpRefs j = 0 ->
  Core x (busy ∖ {[pj]}) rl rn (<[pj := with_ejs j EjsWaiting]> js)
    (MkScheduler (pj :: m_listjlWaiting sc) (m_ulpTotal sc) (m_ulpRunning sc)
       (m_ulpQueued sc + 1) (m_listjRunning sc) (m_listjSuspended sc)) f.
Proof.
  intros HC Hb Hj Hr. destruct (Core_holds _ _ _ _ _ _ _ HC) as [Hw Hs].
  destruct (busy_off_lists _ _ _ _ _ _ _ pj HC Hb) as [Hnw Hns].
  eapply (Core_update _ _ busy _ _ _ _ _ _ _ _ pj j _ HC Hj); try done; simpl; try apply HC; auto.
  - set_solver.
  - apply (holds_join (m_listjlWaiting sc) _ _ busy); try done; try set_solver.
    constructor; [done | apply HC].
  - apply (holds_apart _ _ busy); try done; [by right | set_solver].
  - pose proof (c_queued _ _ _ _ _ _ _ HC). lia.
Qed.

(** A busy job is put on the list of suspended jobs. *)
Lemma Core_suspend x busy rl rn js sc f pj j :
  Core x busy rl rn js sc f -> pj ∈ busy -> js !! pj = Some j -> m_ulpRefs j <> 0 ->
  Core x (busy ∖ {[pj]}) rl rn (<[pj := with_ejs j EjsSuspended]> js)
    (MkScheduler (m_listjlWaiting sc) (m_ulpTotal sc) (m_ulpRunning sc)
       (m_ulpQueued sc) (m_listjRunning sc) (m_listjSuspended sc ++ [pj])) f.
Proof.
  intros HC Hb Hj Hr. destruct (Core_holds _ _ _ _ _ _ _ HC) as [Hw Hs].
  destruct (busy_off_lists _ _ _ _ _ _ _ pj HC Hb) as [Hnw Hns].
  eapply (Core_update _ _ busy _ _ _ _ _ _ _ _ pj j _ HC Hj); try done; simpl; try apply HC; auto.
  - set_solver.
  - apply (holds_apart _ _ busy); try done; [by right | set_solver].
  - apply (holds_join (m_listjSuspended sc) _ _ busy); try done; try set_solver.
    apply NoDup_app. split; [apply HC|]. split; [set_solver | apply NoDup_singleton].
Qed.

(** The first waiting job leaves the list. *)
Lemma Core_retrieve x busy rl rn js sc f pj rest j :
  Core x busy rl rn js sc f -> m_listjlWaiting sc = pj :: rest -> js !! pj = Some j ->
  Core x ({[pj]} ∪ busy) (rl ++ [pj]) rn (<[pj := with_ejs j EjsRunning]> js)
    (MkScheduler rest (m_ulpTotal sc) (m_ulpRunning sc) (m_ulpQueued sc - 1)
       (m_listjRunning sc ++ [pj]) (m_listjSuspended sc)) f.
Proof.
  intros HC Hl Hj. destruct (Core_holds _ _ _ _ _ _ _ HC) as [Hw Hs].
  destruct (waiting_job x busy rl rn js sc f pj HC) as (Hb & Hns & (j0 & Hj0 & He & Hr0));
    [rewrite Hl; by left|]. assert (j0 = j) as -> by congruence. clear Hj0.
  pose proof (c_waiting_nodup _ _ _ _ _ _ _ HC) as Hnd. rewrite Hl in Hnd, Hw.
  apply NoDup_cons in Hnd as [Hnr Hnd].
  eapply (Core_update _ _ busy _ _ _ _ _ _ _ _ pj j _ HC Hj); try done; simpl; try apply HC; auto.
  - set_solver.
  - set_solver.
  - apply (holds_leave (pj :: rest) _ _ busy); try done; set_solver.
  - apply (holds_apart _ _ busy); try done; [by right | set_solver].
  - pose proof (c_queued _ _ _ _ _ _ _ HC) as Hq. rewrite Hl in Hq. simpl in Hq. lia.
  - f_equal. apply HC.
Qed.

(** A suspended job leaves the list. *)
Lemma Core_unsuspend x busy rl rn js sc f pj :
  Core x busy rl rn js sc f -> pj ∈ m_listjSuspended sc ->
  Core x ({[pj]} ∪ busy) rl rn js
    (MkScheduler (m_listjlWaiting sc) (m_ulpTotal sc) (m_ulpRunning sc)
       (m_ulpQueued sc) (m_listjRunning sc)
       (filter (fun y => y <> pj) (m_listjSuspended sc))) f.
Proof.
  intros HC Hs. destruct (Core_holds _ _ _ _ _ _ _ HC) as [Hw Hsu].
  destruct (suspended_job _ _ _ _ _ _ _ pj HC Hs) as (Hb & Hnw & (j & Hj & He & Hr)).
  rewrite <- (insert_id js pj j Hj) at 1.
  eapply (Core_update _ _ busy _ _ _ _ _ _ _ _ pj j _ HC Hj); try done; simpl; try apply HC; auto.
  - set_solver.
  - apply (holds_apart _ _ busy); try done; set_solver.
  - apply (holds_leave (m_listjSuspended sc) _ _ busy); try done.
    + apply NoDup_filter, HC.
    + rewrite list_elem_of_filter. naive_solver.
    + intros y Hy. rewrite list_elem_of_filter. naive_solver.
    + set_solver.
    + set_solver.
Qed.

(** The counter of a suspended job changes, and the job stays suspended. *)
Lemma Core_put_suspended x x' busy rl rn js sc f pj j refs :
  Core x busy rl rn js sc f -> pj ∈ m_listjSuspended sc -> js !! pj = Some j ->
  refs <> 0 -> refs = nchildren (view js) pj + x' pj -> (forall y, y <> pj -> x' y = x y) ->
  Core x' busy rl rn (<[pj := with_refs j refs]> js) sc f.
Proof.
  intros HC Hs Hj Hr0 Hr Hx. destruct (Core_holds _ _ _ _ _ _ _ HC) as [Hw Hsu].
  destruct (suspended_job _ _ _ _ _ _ _ pj HC Hs) as (Hb & Hnw & (j' & Hj' & He & _)).
  assert (j' = j) as -> by congruence. clear Hj'.
  eapply (Core_update _ _ busy _ _ _ _ _ _ _ _ pj j _ HC Hj); try done; simpl; try apply HC; auto.
  - apply (holds_apart _ _ busy); try done. right. simpl. congruence.
  - apply (holds_join (m_listjSuspended sc) _ _ busy); try done. apply HC.
Qed.

(** What a counter holds when one child more, or less, is not counted. *)
Definition x_child (x : job_address S -> N) (parent : option (job_address S)) :
    job_address S -> N :=
  match parent with Some p => x_inc x p | None => x end.

Lemma x_child_eq x parent y :
  x_child x parent y = x y + (if decide (parent = Some y) then 1 else 0).
Proof.
  unfold x_child, x_inc. destruct parent as [p|]; [|case_decide; [done|lia]].
  repeat case_decide; try lia; congruence.
Qed.

Lemma no_children x busy rl rn js sc f pj j :
  Core x busy rl rn js sc f -> js !! pj = Some j -> m_ulpRefs j = 0 ->
  nchildren (view js) pj = 0 /\ x pj = 0.
Proof. intros HC Hj Hr. pose proof (c_refs _ _ _ _ _ _ _ HC pj j Hj). lia. Qed.

Lemma childless x busy rl rn js sc f pj y k :
  Core x busy rl rn js sc f -> nchildren (view js) pj = 0 -> js !! y = Some k ->
  m_pjParent k <> Some pj.
Proof.
  intros HC Hz Hk. rewrite nchildren_0 in Hz. specialize (Hz y).
  unfold v_parent in Hz. by rewrite view_lookup, Hk in Hz.
Qed.

(** A busy job without children leaves memory; its parent has not noticed. *)
Lemma Core_delete x busy rl rn js sc f f' pj j :
  Core x busy rl rn js sc f -> pj ∈ busy -> js !! pj = Some j -> m_ulpRefs j = 0 ->
  factory_ok f' -> (forall y, job_in_use f' y <-> job_in_use f y /\ y <> pj) ->
  Core (x_child x (m_pjParent j)) (busy ∖ {[pj]}) rl rn (delete pj js)
    (MkScheduler (m_listjlWaiting sc) (m_ulpTotal sc - 1) (m_ulpRunning sc)
       (m_ulpQueued sc) (m_listjRunning sc) (m_listjSuspended sc)) f'.
Proof.
  intros HC Hb Hj Hr Hf' Hu'. destruct (Core_holds _ _ _ _ _ _ _ HC) as [Hw Hs].
  destruct (busy_off_lists _ _ _ _ _ _ _ pj HC Hb) as [Hnw Hns].
  destruct (no_children _ _ _ _ _ _ _ _ _ HC Hj Hr) as [Hz Hxz].
  pose proof (fun y k => childless _ _ _ _ _ _ _ _ y k HC Hz) as Hnc.
  assert (view js !! pj = Some (job_view j)) as Hvj by by rewrite view_lookup, Hj.
  assert (view (delete pj js) = delete pj (view js)) as Hview by apply fmap_delete.
  destruct HC. constructor; simpl; rewrite ?Hview; try done.
  - intros y k [Hn Hk]%lookup_delete_Some. rewrite (c_refs0 y k Hk), x_child_eq.
    rewrite (nchildren_delete _ _ _ y Hvj). unfold job_view; simpl.
    repeat case_decide; solve [lia | congruence].
  - intros y Hy. rewrite x_child_eq. apply lookup_delete_None in Hy. case_decide as Hp.
    + destruct (c_parent0 pj j y Hj Hp) as [? [? ?]]. destruct Hy; congruence.
    + destruct Hy as [<-|Hy]; [lia | rewrite c_free0 by done; lia].
  - intros y k p [Hn Hk]%lookup_delete_Some Hp. destruct (c_parent0 y k p Hk Hp) as [? Hl].
    split; [done|]. rewrite lookup_delete_ne; [done|]. intros ->. by apply (Hnc y k Hk).
  - intros y k [Hn Hk]%lookup_delete_Some. eauto.
  - intros y Hy. rewrite lookup_delete_ne by set_solver. apply c_busy0. set_solver.
  - intros y k [Hn Hk]%lookup_delete_Some Hy. apply (c_state0 y k Hk). set_solver.
  - intros y. destruct (decide (y = pj)) as [->|Hn].
    + rewrite lookup_delete_eq. naive_solver.
    + rewrite lookup_delete_ne, c_waiting0 by done. set_solver.
  - intros y. destruct (decide (y = pj)) as [->|Hn].
    + rewrite lookup_delete_eq. naive_solver.
    + rewrite lookup_delete_ne, c_suspended0 by done. set_solver.
  - rewrite c_total0, map_size_delete_Some by eauto.
    assert (size js <> 0%nat); [|lia]. apply map_size_ne_0_lookup. eauto.
  - intros y. rewrite Hu', c_in_use0. destruct (decide (y = pj)) as [->|Hn].
    + rewrite lookup_delete_eq. split; [by intros [_ ?] | by intros [? ?]].
    + rewrite lookup_delete_ne by done. naive_solver.
Qed.

(** A new job comes into memory; its parent has counted it. *)
Lemma Core_insert x busy rl rn js sc f f' pj j :
  Core (x_child x (m_pjParent j)) busy rl rn js sc f -> js !! pj = None ->
  m_ulpRefs j = 0 -> m_fInit j = true -> is_Some (m_job j) -> m_ejt j = fst pj ->
  (forall p, m_pjParent j = Some p -> is_Some (js !! p)) ->
  factory_ok f' -> (forall y, job_in_use f' y <-> y = pj \/ job_in_use f y) ->
  Core x ({[pj]} ∪ busy) rl rn (<[pj := j]> js)
    (MkScheduler (m_listjlWaiting sc) (m_ulpTotal sc + 1) (m_ulpRunning sc)
       (m_ulpQueued sc) (m_listjRunning sc) (m_listjSuspended sc)) f'.
Proof.
  intros HC Hj Hr Hi Hjob Ht Hpar Hf' Hu'.
  assert (view js !! pj = None) as Hvj by by rewrite view_lookup, Hj.
  assert (view (<[pj := j]> js) = <[pj := job_view j]> (view js)) as Hview by apply fmap_insert.
  assert (nchildren (view js) pj = 0) as Hz.
  { apply nchildren_0. intros y Hy. unfold v_parent in Hy. rewrite view_lookup in Hy.
    destruct (js !! y) as [k|] eqn:Hk; [|done]. simpl in Hy.
    destruct (c_parent _ _ _ _ _ _ _ HC y k pj Hk Hy) as [_ [? ?]]. congruence. }
  assert (m_pjParent j <> Some pj) as Hself.
  { intros Hp. destruct (Hpar pj Hp). congruence. }
  destruct HC. pose proof (c_free0 pj Hj) as Hxz. rewrite x_child_eq in Hxz.
  constructor; simpl; rewrite ?Hview; try done.
  - intros y k [[<- <-]|[Hn Hk]]%lookup_insert_Some; rewrite nchildren_insert by done.
    + rewrite Hz, Hr. unfold job_view; simpl. case_decide; [done | lia].
    + rewrite (c_refs0 y k Hk), x_child_eq. unfold job_view; simpl. lia.
  - intros y [Hy Hn]%lookup_insert_None. specialize (c_free0 y Hy). rewrite x_child_eq in c_free0. lia.
  - intros y k p Hk Hp. rewrite lookup_insert_is_Some'.
    apply lookup_insert_Some in Hk as [[<- <-]|[Hn Hk]].
    + split; [congruence|]. right. auto.
    + destruct (c_parent0 y k p Hk Hp). auto.
  - intros y k [[<- <-]|[Hn Hk]]%lookup_insert_Some; [done | eauto].
  - intros y Hy. rewrite lookup_insert_is_Some'.
    apply elem_of_union in Hy as [->%elem_of_singleton|Hy]; eauto.
  - intros y k [[<- <-]|[Hn Hk]]%lookup_insert_Some Hy; [set_solver|].
    apply (c_state0 y k Hk). set_solver.
  - intros y. rewrite c_waiting0. destruct (decide (y = pj)) as [->|Hn].
    + rewrite Hj. split; [naive_solver|]. intros [Hy _]. set_solver.
    + rewrite lookup_insert_ne by done. set_solver.
  - intros y. rewrite c_suspended0. destruct (decide (y = pj)) as [->|Hn].
    + rewrite Hj. split; [naive_solver|]. intros [Hy _]. set_solver.
    + rewrite lookup_insert_ne by done. set_solver.
  - rewrite c_total0, map_size_insert_None by done. lia.
  - intros y. rewrite Hu', c_in_use0, lookup_insert_is_Some'. naive_solver.
Qed.

(** ** The operations on jobs *)

Definition SCore (x : job_address S -> N) (busy : gset (job_address S))
    (rl : list (job_address S)) (rn : N) (st : state) : Prop :=
  Core x busy rl rn (s_jobs st) (s_sched st) (s_factory st).

(** Queues, world and the view of the jobs stay. *)
Record same_view (st st' : state) : Prop := {
  sv_queues : s_queues st' = s_queues st;
  sv_world : s_world st' = s_world st;
  sv_view : view (s_jobs st') = view (s_jobs st);
}.

Definition waiting_length (st : state) : nat := length (m_listjlWaiting (s_sched st)).

Lemma require_true (Q : Prop) `{Decision Q} : Q -> require Q = Some tt.
Proof. intros HQ. unfold require. by rewrite decide_True. Qed.

Lemma IncRefs_busy x busy rl rn st pj j :
  SCore x busy rl rn st -> pj ∈ busy -> s_jobs st !! pj = Some j ->
  exists st', IncRefs st pj = Some st' /\ SCore (x_inc x pj) busy rl rn st' /\
    same_view st st' /\ s_sched st' = s_sched st /\ s_factory st' = s_factory st /\
    s_jobs st' = <[pj := with_refs j (m_ulpRefs j + 1)]> (s_jobs st).
Proof.
  intros HC Hb Hj. unfold IncRefs. rewrite Hj. simpl. eexists. split; [done|].
  split; [|split; [|done]].
  - pose proof (c_refs _ _ _ _ _ _ _ HC pj j Hj) as Hr.
    eapply (Core_put_busy x); [exact HC|done|exact Hj|done..| |].
    + simpl. unfold x_inc. rewrite decide_True by done. lia.
    + intros y Hy. unfold x_inc. by rewrite decide_False.
  - split; [done|done|]. by apply (view_put _ _ j).
Qed.

Lemma UlpDecrRefs_busy x busy rl rn st pj j :
  SCore (x_inc x pj) busy rl rn st -> pj ∈ busy -> s_jobs st !! pj = Some j ->
  exists st', UlpDecrRefs st pj = Some (m_ulpRefs j, st') /\ SCore x busy rl rn st' /\
    same_view st st' /\ s_sched st' = s_sched st /\ s_factory st' = s_factory st /\
    s_jobs st' = <[pj := with_refs j (m_ulpRefs j - 1)]> (s_jobs st).
Proof.
  intros HC Hb Hj. pose proof (c_refs _ _ _ _ _ _ _ HC pj j Hj) as Hr.
  assert (x_inc x pj pj = x pj + 1) as Hx by (unfold x_inc; by rewrite decide_True).
  unfold UlpDecrRefs. rewrite Hj. simpl. rewrite require_true by lia. simpl.
  eexists. split; [done|]. split; [|split; [|done]].
  - eapply (Core_put_busy (x_inc x pj)); [exact HC|done|exact Hj|done..| |].
    + simpl. lia.
    + intros y Hy. unfold x_inc. by rewrite decide_False.
  - split; [done|done|]. by apply (view_put _ _ j).
Qed.

Lemma Schedule_busy x busy rl rn st pj j :
  SCore x busy rl rn st -> pj ∈ busy -> s_jobs st !! pj = Some j -> m_ulpRefs j = 0 ->
  m_ejs j = EjsInit \/ m_ejs j = EjsRunning \/ m_ejs j = EjsSuspended ->
  exists st', Schedule st pj = Some st' /\ SCore x (busy ∖ {[pj]}) rl rn st' /\
    same_view st st' /\ m_listjlWaiting (s_sched st') = pj :: m_listjlWaiting (s_sched st) /\
    s_jobs st' = <[pj := with_ejs j EjsWaiting]> (s_jobs st).
Proof.
  intros HC Hb Hj Hr He. unfold Schedule. rewrite Hj. simpl. rewrite require_true by done. simpl.
  eexists. split; [done|]. split; [by apply Core_wait|].
  split; [|done]. split; [done|done|]. by apply (view_put _ _ j).
Qed.

Lemma Suspend_busy x busy rl rn st pj j :
  SCore x busy rl rn st -> pj ∈ busy -> s_jobs st !! pj = Some j -> m_ulpRefs j <> 0 ->
  m_ejs j = EjsRunning ->
  exists st', Suspend st pj = Some st' /\ SCore x (busy ∖ {[pj]}) rl rn st' /\
    same_view st st' /\ m_listjlWaiting (s_sched st') = m_listjlWaiting (s_sched st).
Proof.
  intros HC Hb Hj Hr He. unfold Suspend. rewrite Hj. simpl. rewrite require_true by done. simpl.
  eexists. split; [done|]. split; [by apply Core_suspend|].
  split; [|done]. split; [done|done|]. by apply (view_put _ _ j).
Qed.

Lemma live_parent x busy rl rn st pj j p :
  SCore x busy rl rn st -> s_jobs st !! pj = Some j -> m_pjParent j = Some p -> p ∉ busy ->
  p <> pj /\ p ∈ m_listjSuspended (s_sched st) /\
  exists k, s_jobs st !! p = Some k /\ m_ejs k = EjsSuspended /\ 0 < nchildren (view (s_jobs st)) p.
Proof.
  intros HC Hj Hp Hb. destruct (c_parent _ _ _ _ _ _ _ HC pj j p Hj Hp) as [Hn [k Hk]].
  assert (nchildren (view (s_jobs st)) p <> 0) as Hc.
  { intros Hz. by apply (childless _ _ _ _ _ _ _ p pj j HC Hz Hj). }
  pose proof (c_refs _ _ _ _ _ _ _ HC p k Hk).
  destruct (c_state _ _ _ _ _ _ _ HC p k Hk Hb) as [[_ ?]|[He _]]; [lia|].
  split; [done|]. split; [|exists k; split; [done|split; [done|lia]]].
  apply (c_suspended _ _ _ _ _ _ _ HC). split; [done|]. by exists k.
Qed.

(** A busy job is done: its parent is told and, when this was its last child,
    resumed, and the job is released. *)
Lemma finish_busy queued x busy rl rn st pj j :
  SCore x busy rl rn st -> pj ∈ busy -> s_jobs st !! pj = Some j -> m_ulpRefs j = 0 ->
  (forall p, m_pjParent j = Some p -> p ∉ busy) ->
  exists st1 st', ResumeParent st pj = Some st1 /\
    release_job (count_completed queued st1) pj = Some st' /\
    SCore x (busy ∖ {[pj]}) rl rn st' /\
    view (s_jobs st') = delete pj (view (s_jobs st)) /\
    s_queues st' = s_queues st /\ s_world st' = s_world st /\
    (waiting_length st' <= waiting_length st + 1)%nat /\
    (forall y, y ∈ busy -> y <> pj -> s_jobs st' !! y = s_jobs st !! y).
Proof.
  intros HC Hb Hj Hr Hpar.
  destruct (Release_spec (s_factory st) pj (c_factory _ _ _ _ _ _ _ HC)) as (f' & Hf & Hf' & Hu');
    [apply (c_in_use _ _ _ _ _ _ _ HC); eauto|].
  pose proof (c_init _ _ _ _ _ _ _ HC pj j Hj) as (_ & _ & Ht).
  pose proof (Core_delete x busy rl rn _ _ _ f' pj j HC Hb Hj Hr Hf' Hu') as HD.
  assert ((m_ejt j, snd pj) = pj) as Hty by (rewrite Ht; by destruct pj).
  unfold ResumeParent. rewrite Hj. simpl. rewrite require_true by done. simpl.
  destruct (m_pjParent j) as [p|] eqn:Hp.
  2: { exists st. eexists. split; [done|]. unfold release_job. simpl. rewrite Hj. simpl.
       rewrite Hty, Hf. simpl. split; [done|].
       split; [exact HD|]. simpl. split; [apply fmap_delete|]. unfold waiting_length. simpl.
       split; [done|]. split; [done|]. split; [lia|]. intros y _ Hy. by rewrite lookup_delete_ne. }
  specialize (Hpar p eq_refl).
  assert (forall k y, y ∈ busy -> y <> pj ->
            delete pj (<[p := k]> (s_jobs st)) !! y = s_jobs st !! y) as Hkeep.
  { intros k y Hy Hn. rewrite lookup_delete_ne, lookup_insert_ne; [done|set_solver|done]. }
  destruct (live_parent x busy rl rn st pj j p HC Hj Hp Hpar) as (Hpn & Hps & (k & Hk & Hke & Hch)).
  pose proof (c_refs _ _ _ _ _ _ _ HC p k Hk) as Hkr.
  assert (delete pj (s_jobs st) !! p = Some k) as Hk' by by rewrite lookup_delete_ne.
  assert (p ∉ busy ∖ {[pj]}) as Hpb by set_solver.
  pose proof (c_refs _ _ _ _ _ _ _ HD p k Hk') as Hdr. simpl in Hdr.
  unfold x_inc in Hdr at 1. rewrite decide_True in Hdr by done.
  unfold FResumeParent. rewrite Hj. simpl. rewrite require_true by done. rewrite Hp. simpl.
  unfold UlpDecrRefs. rewrite Hk. simpl. rewrite require_true by lia. simpl.
  set (k' := with_refs k (m_ulpRefs k - 1)).
  assert (view (<[p := k']> (s_jobs st)) = view (s_jobs st)) as Hv1 by by apply (view_put _ _ k).
  destruct (N.eqb_spec (m_ulpRefs k) 1) as [H1|H1].
  - unfold remove_suspended. simpl. rewrite require_true by done. simpl.
    unfold Resume. simpl. rewrite lookup_insert_eq. simpl. rewrite require_true by (simpl; lia). simpl.
    unfold Schedule. simpl. rewrite lookup_insert_eq. simpl. rewrite require_true by (simpl; auto). simpl.
    eexists _, _. split; [done|]. unfold release_job. simpl.
    rewrite !lookup_insert_ne, Hj by done. simpl. rewrite Hty, Hf. simpl. split; [done|].
    split; [|split; [|unfold waiting_length; simpl; split; [done|split; [done|split; [lia|]]]]].
    + unfold SCore. simpl. rewrite !delete_insert_ne by done.
      pose proof (Core_unsuspend _ _ _ _ _ _ _ p HD Hps) as HU.
      assert (Core x ({[p]} ∪ busy ∖ {[pj]}) rl rn (<[p := k']> (delete pj (s_jobs st)))
                (MkScheduler (m_listjlWaiting (s_sched st)) (m_ulpTotal (s_sched st) - 1)
                   (m_ulpRunning (s_sched st)) (m_ulpQueued (s_sched st))
                   (m_listjRunning (s_sched st))
                   (filter (fun y => y <> p) (m_listjSuspended (s_sched st)))) f') as HP.
      { eapply (Core_put_busy (x_inc x p)); [exact HU|set_solver|exact Hk'|done..| |].
        - simpl. lia.
        - intros y Hy. unfold x_inc. by rewrite decide_False. }
      eapply (Core_wait x _ _ _ _ _ _ p k') in HP; [|set_solver|by rewrite lookup_insert_eq|simpl; lia].
      replace (({[p]} ∪ busy ∖ {[pj]}) ∖ {[p]}) with (busy ∖ {[pj]}) in HP by set_solver.
      exact HP.
    + unfold view in *. simpl. rewrite fmap_delete. f_equal. fold (view (<[p := k']> (s_jobs st))) in Hv1.
      rewrite <- Hv1. apply (view_put _ p k'); [by rewrite lookup_insert_eq | done].
    + intros y Hy Hn. rewrite insert_insert_eq. by apply Hkeep.
  - eexists _, _. split; [done|]. unfold release_job. simpl.
    rewrite !lookup_insert_ne, Hj by done. simpl. rewrite Hty, Hf. simpl. split; [done|].
    split; [|split; [|unfold waiting_length; simpl; split; [done|split; [done|split; [lia|]]]]].
    + unfold SCore. simpl. rewrite !delete_insert_ne by done.
      eapply (Core_put_suspended (x_inc x p)); [exact HD|done|exact Hk'|lia|lia|].
      intros y Hy. unfold x_inc. by rewrite decide_False.
    + unfold view in *. simpl. by rewrite fmap_delete, Hv1.
    + intros y Hy Hn. by apply Hkeep.
Qed.

(** The jobs a running job adds, one after the other. *)
Inductive spawned (p : job_address S) : table -> list child -> table -> Prop :=
  | spawned_nil v : spawned p v [] v
  | spawned_cons v c cs pj v' :
      v !! pj = None ->
      spawned p (<[pj := (Some p, c_pjq c, Some (c_job c))]> v) cs v' ->
      spawned p v (c :: cs) v'.

Lemma ScheduleJob_spec x busy rl rn st c p :
  SCore x busy rl rn st -> p ∈ busy ->
  exists pj st', ScheduleJob st c (Some p) = Some st' /\
    SCore x busy rl rn st' /\ s_jobs st !! pj = None /\
    view (s_jobs st') = <[pj := (Some p, c_pjq c, Some (c_job c))]> (view (s_jobs st)) /\
    s_queues st' = s_queues st /\ s_world st' = s_world st /\
    (waiting_length st' = waiting_length st + 1)%nat /\
    (forall y j, y ∈ busy -> s_jobs st !! y = Some j ->
       exists refs, s_jobs st' !! y = Some (with_refs j refs)).
Proof.
  intros HC Hp. unfold ScheduleJob.
  pose proof (PjCreate_spec (s_factory st) (c_ejt c) (c_factory _ _ _ _ _ _ _ HC)) as Hcr.
  destruct (PjCreate (s_factory st) (c_ejt c)) as [pj f']. destruct Hcr as (Hf' & Ht & Hfree & Hu').
  assert (s_jobs st !! pj = None) as Hnone.
  { apply eq_None_not_Some. intros Hl. apply Hfree. by apply (c_in_use _ _ _ _ _ _ _ HC). }
  destruct (c_busy _ _ _ _ _ _ _ HC p Hp) as [jp Hjp].
  assert (p <> pj) as Hn by congruence.
  set (j0 := MkJob None (c_pjq c) 0 (c_ejt c) true EjsInit (Some (c_job c))).
  set (j1 := MkJob (Some p) (c_pjq c) 0 (c_ejt c) true EjsInit (Some (c_job c))).
  exists pj. unfold Add. simpl. fold j0. rewrite lookup_insert_eq. simpl.
  unfold IncRefs. simpl. rewrite lookup_insert_ne, Hjp by done. simpl.
  rewrite lookup_insert_ne, lookup_insert_eq by done. simpl.
  rewrite require_true by congruence. simpl. unfold Schedule. simpl. rewrite lookup_insert_eq. simpl.
  eexists. split; [done|]. unfold SCore, waiting_length. simpl.
  set (jp' := with_refs jp (m_ulpRefs jp + 1)).
  assert (forall a b : CJob, <[pj := b]> (<[pj := a]> (<[p := jp']> (<[pj := j0]> (s_jobs st)))) =
            <[pj := b]> (<[p := jp']> (s_jobs st))) as Hmap.
  { intros a b. by rewrite insert_insert_eq, (insert_insert_ne _ p), insert_insert_eq. }
  rewrite Hmap. clear Hmap.
  assert (view (<[p := jp']> (s_jobs st)) = view (s_jobs st)) as Hv1 by by apply (view_put _ _ jp).
  split.
  - destruct (IncRefs_busy x busy rl rn st p jp HC Hp Hjp) as (st1 & _ & H1 & _ & Hs1 & Hf1 & Hj1).
    unfold SCore in H1. rewrite Hj1, Hs1, Hf1 in H1. fold jp' in H1.
    eapply (Core_insert x busy rl rn _ _ _ f' pj j1) in H1; try done.
    + eapply (Core_wait x _ _ _ _ _ _ pj j1) in H1; [|set_solver|by rewrite lookup_insert_eq|done].
      rewrite insert_insert_eq in H1.
      replace (({[pj]} ∪ busy) ∖ {[pj]}) with busy in H1; [exact H1|].
      assert (pj ∉ busy); [|set_solver].
      intros Hb. destruct (c_busy _ _ _ _ _ _ _ HC pj Hb). congruence.
    + by rewrite lookup_insert_ne.
    + intros q [= <-]. rewrite lookup_insert_eq. by eexists.
  - split; [done|]. split; [unfold view in *; by rewrite fmap_insert, Hv1|].
    split; [done|]. split; [done|]. split; [lia|].
    intros y j Hy Hj. rewrite lookup_insert_ne by congruence.
    destruct (decide (p = y)) as [->|Hyn].
    + rewrite lookup_insert_eq. assert (jp = j) as -> by congruence. by eexists.
    + rewrite lookup_insert_ne by done. exists (m_ulpRefs j). rewrite Hj. by destruct j.
Qed.

Lemma schedule_children_spec cs x busy rl rn st p :
  SCore x busy rl rn st -> p ∈ busy ->
  exists st', schedule_children st cs p = Some st' /\
    SCore x busy rl rn st' /\ spawned p (view (s_jobs st)) cs (view (s_jobs st')) /\
    s_queues st' = s_queues st /\ s_world st' = s_world st /\
    (waiting_length st' = waiting_length st + length cs)%nat /\
    (forall y j, y ∈ busy -> s_jobs st !! y = Some j ->
       exists refs, s_jobs st' !! y = Some (with_refs j refs)).
Proof.
  revert st. induction cs as [|c cs IH]; intros st HC Hp; simpl.
  - exists st. split; [done|]. split; [done|]. split; [constructor|].
    split; [done|]. split; [done|]. split; [lia|].
    intros y j _ Hj. exists (m_ulpRefs j). rewrite Hj. by destruct j.
  - destruct (ScheduleJob_spec x busy rl rn st c p HC Hp)
      as (pj & st1 & -> & HC1 & Hnone & Hv1 & Hq1 & Hw1 & Hl1 & Hb1). simpl.
    destruct (IH st1 HC1 Hp) as (st2 & -> & HC2 & Hsp & Hq2 & Hw2 & Hl2 & Hb2).
    exists st2. split; [done|]. split; [done|]. split.
    { rewrite Hv1 in Hsp. apply (spawned_cons _ _ _ _ pj); [|done]. by rewrite view_lookup, Hnone. }
    split; [congruence|]. split; [congruence|]. split; [lia|].
    intros y j Hy Hj. destruct (Hb1 y j Hy Hj) as [refs Hj1].
    destruct (Hb2 y _ Hy Hj1) as [refs' Hj2]. exists refs'. by rewrite Hj2.
Qed.

Definition ran (v : table) pj (o : outcome) (v' : table) : Prop :=
  exists parent q b, v !! pj = Some (parent, q, Some b) /\
    spawned pj (<[pj := (parent, q, Some (o_job o))]> v) (o_children o) v'.

Lemma run_job_spec x busy rl rn st pj j b :
  SCore x busy rl rn st -> pj ∈ busy -> s_jobs st !! pj = Some j -> m_job j = Some b ->
  let o := body (s_world st) b in
  exists st', run_job st pj = Some (o_completed o, st') /\
    SCore x busy rl rn st' /\ ran (view (s_jobs st)) pj o (view (s_jobs st')) /\
    s_queues st' = s_queues st /\ s_world st' = o_world o /\
    (waiting_length st' = waiting_length st + length (o_children o))%nat /\
    exists refs, s_jobs st' !! pj = Some (with_refs (with_job j (o_job o)) refs).
Proof.
  intros HC Hb Hj Hjob o. unfold run_job. rewrite Hj. simpl.
  destruct (c_init _ _ _ _ _ _ _ HC pj j Hj) as (Hi & _ & _).
  rewrite require_true by done. simpl. rewrite Hjob. simpl. fold o.
  set (st0 := put (set_world st (o_world o)) pj (with_job j (o_job o))).
  assert (SCore x busy rl rn st0) as HC0.
  { eapply (Core_put_busy x); [exact HC|done|exact Hj|done|by eexists|done|done| |done].
    exact (c_refs _ _ _ _ _ _ _ HC pj j Hj). }
  assert (s_jobs st0 !! pj = Some (with_job j (o_job o))) as Hj0 by apply lookup_insert_eq.
  destruct (schedule_children_spec (o_children o) x busy rl rn st0 pj HC0 Hb)
    as (st' & -> & HC' & Hsp & Hq & Hw & Hl & Hbusy). simpl.
  exists st'. split; [done|]. split; [done|]. split.
  { exists (m_pjParent j), (m_pjq j), b. rewrite view_lookup, Hj. simpl.
    split; [unfold job_view; by rewrite Hjob|].
    replace (view (s_jobs st0)) with
      (<[pj := (m_pjParent j, m_pjq j, Some (o_job o))]> (view (s_jobs st))) in Hsp; [done|].
    unfold view. simpl. by rewrite fmap_insert. }
  split; [done|]. split; [done|]. split; [done|]. by apply Hbusy.
Qed.

(** ** The job queues *)

Record Queues (qs : gmap N CJobQueue) (v : table) : Prop := {
  (** A queue whose job is done holds no job. *)
  q_done q : m_fCompleted (queue_of qs q) = true -> m_listjQueued (queue_of qs q) = [];
  (** The main job is the first. *)
  q_main q : m_fCompleted (queue_of qs q) = false ->
    m_pj (queue_of qs q) = head (m_listjQueued (queue_of qs q));
  q_nodup q : NoDup (m_listjQueued (queue_of qs q));
  q_live q pj : pj ∈ m_listjQueued (queue_of qs q) -> v_queue v pj = Some q;
  (** The jobs behind it wait for it only. *)
  q_behind q pj : pj ∈ tail (m_listjQueued (queue_of qs q)) -> nchildren v pj = 0;
}.

(** What a counter holds besides the children, between two rounds: one for
    waiting behind the main job of a queue. *)
Definition extra (qs : gmap N CJobQueue) (v : table) pj : N :=
  match v_queue v pj with
  | Some q => if decide (pj ∈ tail (m_listjQueued (queue_of qs q))) then 1 else 0
  | None => 0
  end.

Lemma tail_elem {A} (x : A) l : x ∈ tail l -> x ∈ l.
Proof. destruct l; [done | by right]. Qed.

Lemma extra_behind qs v q pj :
  Queues qs v -> pj ∈ tail (m_listjQueued (queue_of qs q)) -> extra qs v pj = 1.
Proof.
  intros HQ Hin. unfold extra. rewrite (q_live _ _ HQ q pj) by by apply tail_elem.
  by rewrite decide_True.
Qed.

Lemma extra_0 qs v pj :
  (forall q, pj ∉ tail (m_listjQueued (queue_of qs q))) -> extra qs v pj = 0.
Proof.
  intros Hn. unfold extra. destruct (v_queue v pj) as [q|]; [|done]. by rewrite decide_False.
Qed.

Lemma extra_0_inv qs v pj :
  Queues qs v -> extra qs v pj = 0 -> forall q, pj ∉ tail (m_listjQueued (queue_of qs q)).
Proof. intros HQ He q Hin. rewrite (extra_behind qs v q) in He by done. done. Qed.

(** Equal views of a job, equal queues. *)
Lemma v_queue_eq (v v' : table) pj : v' !! pj = v !! pj -> v_queue v' pj = v_queue v pj.
Proof. unfold v_queue. by intros ->. Qed.

Lemma spawned_facts p v cs v' :
  spawned p v cs v' ->
  (forall y e, v !! y = Some e -> v' !! y = Some e) /\
  (forall y, nchildren v' y = nchildren v y + (if decide (y = p) then N.of_nat (length cs) else 0)).
Proof.
  induction 1 as [v|v c cs pj v' Hn Hsp [IHl IHc]]; [split; [done|] |split].
  - intros y. case_decide; simpl; lia.
  - intros y e He. apply IHl. rewrite lookup_insert_ne; [done|]. congruence.
  - intros y. rewrite IHc, nchildren_insert by done. simpl.
    repeat case_decide; simpl; solve [lia | congruence].
Qed.

Lemma ran_facts v pj o v' :
  ran v pj o v' ->
  (forall y, is_Some (v !! y) -> is_Some (v' !! y) /\ v_queue v' y = v_queue v y /\
             v_parent v' y = v_parent v y) /\
  (forall y, nchildren v' y = nchildren v y +
             (if decide (y = pj) then N.of_nat (length (o_children o)) else 0)).
Proof.
  intros (parent & q & b & Hv & Hsp). destruct (spawned_facts _ _ _ _ Hsp) as [Hl Hc]. split.
  - intros y [e He]. unfold v_queue, v_parent. destruct (decide (y = pj)) as [->|Hn].
    + rewrite (Hl pj (parent, q, Some (o_job o))) by by rewrite lookup_insert_eq.
      rewrite Hv. by split.
    + rewrite (Hl y e) by by rewrite lookup_insert_ne. by rewrite He.
  - intros y. rewrite Hc. f_equal.
    rewrite (nchildren_delete v pj _ y Hv).
    rewrite (nchildren_delete (<[pj := _]> v) pj (parent, q, Some (o_job o)) y)
      by by rewrite lookup_insert_eq.
    by rewrite delete_insert_eq.
Qed.

Lemma v_queue_live v pj q : v_queue v pj = Some q -> is_Some (v !! pj).
Proof. unfold v_queue. destruct (v !! pj); [by eexists | done]. Qed.

Lemma Queues_ran qs v pj o v' :
  Queues qs v -> ran v pj o v' -> (forall q, pj ∉ tail (m_listjQueued (queue_of qs q))) ->
  Queues qs v' /\ forall y, extra qs v' y = extra qs v y.
Proof.
  intros HQ Hran Hpj. destruct (ran_facts v pj o v' Hran) as [Hl Hc]. split.
  - split; try apply HQ.
    + intros q y Hy. pose proof (q_live _ _ HQ q y Hy) as Hq.
      destruct (Hl y (v_queue_live _ _ _ Hq)) as (_ & -> & _). done.
    + intros q y Hy. rewrite Hc, (q_behind _ _ HQ q y Hy).
      rewrite decide_False; [done|]. intros ->. by apply (Hpj q).
  - intros y. destruct (v !! y) as [e|] eqn:He.
    + unfold extra. by destruct (Hl y ltac:(by eexists)) as (_ & -> & _).
    + assert (forall q, y ∉ tail (m_listjQueued (queue_of qs q))) as Hy.
      { intros q Hin. destruct (v_queue_live _ _ _ (q_live _ _ HQ q y (tail_elem _ _ Hin))).
        congruence. }
      by rewrite !extra_0.
Qed.

(** Jobs that are in no queue leave memory. *)
Lemma nchildren_sub (v v' : table) p : v' ⊆ v -> nchildren v' p <= nchildren v p.
Proof.
  intros Hs. unfold nchildren.
  assert (filter (fun kv => fst (fst (snd kv)) = Some p) v' ⊆
          filter (fun kv => fst (fst (snd kv)) = Some p) v) as Hf.
  { apply map_subseteq_spec. intros y e [Hy He]%map_lookup_filter_Some.
    apply map_lookup_filter_Some. split; [|done]. by apply (lookup_weaken v'). }
  apply map_size_subseteq in Hf || apply map_subseteq_size in Hf. lia.
Qed.

Lemma Queues_sub qs v v' :
  Queues qs v -> v' ⊆ v ->
  (forall q pj, pj ∈ m_listjQueued (queue_of qs q) -> is_Some (v' !! pj)) ->
  Queues qs v' /\ forall y, extra qs v' y = extra qs v y.
Proof.
  intros HQ Hs Hl.
  assert (forall q pj, pj ∈ m_listjQueued (queue_of qs q) -> v' !! pj = v !! pj) as Heq.
  { intros q pj Hin. destruct (Hl q pj Hin) as [e He]. rewrite He. symmetry.
    by apply (lookup_weaken v'). }
  split.
  - split; try apply HQ.
    + intros q pj Hin. rewrite (v_queue_eq v v') by by apply (Heq q). by apply (q_live _ _ HQ).
    + intros q pj Hin. pose proof (nchildren_sub v v' pj Hs).
      pose proof (q_behind _ _ HQ q pj Hin). lia.
  - intros y. destruct (decide (extra qs v y = 0)) as [Hz|Hz].
    + rewrite Hz. apply extra_0. by apply (extra_0_inv qs v).
    + unfold extra in *. destruct (v_queue v y) as [q|] eqn:Hq; [|done].
      case_decide as Hin; [|done]. rewrite (v_queue_eq v v'), Hq.
      * by rewrite decide_True.
      * by apply (Heq q), tail_elem.
Qed.

(** A job without a parent comes into memory. *)
Lemma Queues_insert qs v pj q b :
  Queues qs v -> v !! pj = None ->
  Queues qs (<[pj := (None, q, b)]> v) /\
  forall y, extra qs (<[pj := (None, q, b)]> v) y = extra qs v y.
Proof.
  intros HQ Hn.
  assert (forall q' y, y ∈ m_listjQueued (queue_of qs q') -> y <> pj) as Hy.
  { intros q' y Hin ->. destruct (v_queue_live _ _ _ (q_live _ _ HQ q' pj Hin)). congruence. }
  split.
  - split; try apply HQ.
    + intros q' y Hin. rewrite (v_queue_eq v); [by apply (q_live _ _ HQ)|].
      apply lookup_insert_ne. intros <-. by apply (Hy q' pj Hin).
    + intros q' y Hin. rewrite nchildren_insert, (q_behind _ _ HQ q' y Hin) by done. done.
  - intros y. destruct (decide (y = pj)) as [->|Hyn].
    + rewrite !extra_0; [done|..]; intros q' Hin%tail_elem; by apply (Hy q' pj Hin).
    + unfold extra. by rewrite (v_queue_eq v) by by apply lookup_insert_ne.
Qed.

Lemma queue_of_insert qs q q' jq :
  queue_of (<[q := jq]> qs) q' = if decide (q' = q) then jq else queue_of qs q'.
Proof.
  unfold queue_of. case_decide as Hq; [subst; by rewrite lookup_insert_eq |].
  by rewrite lookup_insert_ne.
Qed.

(** A job is entered in its queue, behind the others. *)
Lemma Queues_append qs v q pj main :
  Queues qs v -> m_fCompleted (queue_of qs q) = false -> v_queue v pj = Some q ->
  nchildren v pj = 0 -> pj ∉ m_listjQueued (queue_of qs q) ->
  main = head (m_listjQueued (queue_of qs q) ++ [pj]) ->
  let qs' := <[q := MkQueue main false (m_listjQueued (queue_of qs q) ++ [pj])]> qs in
  Queues qs' v /\
  forall y, extra qs' v y =
            extra qs v y + (if decide (y = pj /\ m_listjQueued (queue_of qs q) <> []) then 1 else 0).
Proof.
  intros HQ Hc Hv Hz Hn Hmain qs'.
  assert (forall y, y ∈ tail (m_listjQueued (queue_of qs q) ++ [pj]) <->
            y ∈ tail (m_listjQueued (queue_of qs q)) \/
            (y = pj /\ m_listjQueued (queue_of qs q) <> [])) as Ht.
  { intros y. destruct (m_listjQueued (queue_of qs q)) as [|z l]; simpl.
    - rewrite elem_of_nil. naive_solver.
    - rewrite elem_of_app, list_elem_of_singleton. naive_solver. }
  split.
  - split; intros q'; unfold qs'; rewrite !queue_of_insert; case_decide as Hq; simpl;
      try (by apply HQ); subst.
    + done.
    + done.
    + apply NoDup_app. split; [apply HQ|]. split; [|apply NoDup_singleton].
      intros y Hy ->%list_elem_of_singleton. done.
    + intros y [Hy| ->%list_elem_of_singleton]%elem_of_app; [by apply (q_live _ _ HQ) | done].
    + intros y [Hy|[-> _]]%Ht; [by apply (q_behind _ _ HQ q) | done].
  - intros y. unfold extra. destruct (v_queue v y) as [q'|] eqn:Hy.
    + unfold qs'. rewrite queue_of_insert. destruct (decide (q' = q)) as [->|Hq]; simpl.
      * destruct (decide (y = pj /\ m_listjQueued (queue_of qs q) <> [])) as [[-> Hne]|Hne].
        -- rewrite decide_True by (apply Ht; by right).
           rewrite decide_False; [done|]. intros Hin. by apply Hn, tail_elem.
        -- destruct (decide (y ∈ tail (m_listjQueued (queue_of qs q)))) as [Hin|Hin].
           ++ rewrite decide_True by (apply Ht; by left). lia.
           ++ rewrite decide_False; [lia|]. rewrite Ht. naive_solver.
      * rewrite (decide_False (P := y = pj /\ _)); [lia|]. intros [-> _]. congruence.
    + rewrite decide_False; [done|]. intros [-> _]. congruence.
Qed.

(** The list of a queue whose job is done has been emptied. *)
Lemma Queues_emptied qs v v' q main :
  Queues qs v -> v' ⊆ v ->
  (forall q' y, q' <> q -> y ∈ m_listjQueued (queue_of qs q') -> is_Some (v' !! y)) ->
  let qs' := <[q := MkQueue main true []]> qs in
  Queues qs' v' /\
  forall y, extra qs' v' y =
            if decide (y ∈ m_listjQueued (queue_of qs q)) then 0 else extra qs v y.
Proof.
  intros HQ Hs Hl qs'.
  assert (forall q' y, q' <> q -> y ∈ m_listjQueued (queue_of qs q') -> v' !! y = v !! y) as Heq.
  { intros q' y Hq Hy. destruct (Hl q' y Hq Hy) as [e He]. rewrite He. symmetry.
    by apply (lookup_weaken v'). }
  assert (Queues qs' v') as HQ'.
  { split; intros q'; unfold qs'; rewrite !queue_of_insert; case_decide as Hq; simpl;
      try (by apply HQ); try done.
    - constructor.
    - intros y []%elem_of_nil.
    - intros y Hy. rewrite (v_queue_eq v v') by by apply (Heq q'). by apply (q_live _ _ HQ).
    - intros y []%elem_of_nil.
    - intros y Hy. pose proof (nchildren_sub v v' y Hs).
      pose proof (q_behind _ _ HQ q' y Hy). lia. }
  split; [done|]. intros y.
  destruct (decide (extra qs' v' y = 0)) as [Hz|Hz].
  - rewrite Hz. case_decide as Hin; [done|]. symmetry. apply extra_0. intros q' Hq'.
    destruct (decide (q' = q)) as [->|Hq]; [by apply Hin, tail_elem|].
    apply (extra_0_inv _ _ _ HQ' Hz q'). unfold qs'. by rewrite queue_of_insert, decide_False.
  - unfold extra in Hz at 1. destruct (v_queue v' y) as [q'|] eqn:Hq'; [|done].
    case_decide as Hin; [|done]. rewrite (extra_behind _ _ q' y HQ' Hin).
    unfold qs' in Hin. rewrite queue_of_insert in Hin. case_decide as Hq; [by apply elem_of_nil in Hin|].
    rewrite (extra_behind qs v q' y HQ Hin). rewrite decide_False; [done|]. intros Hy.
    pose proof (q_live _ _ HQ q y Hy). pose proof (q_live _ _ HQ q' y (tail_elem _ _ Hin)). congruence.
Qed.

Lemma CompleteQueued_release x busy rl rn st pj j :
  SCore (x_inc x pj) busy rl rn st -> pj ∉ busy -> s_jobs st !! pj = Some j ->
  x pj = 0 -> nchildren (view (s_jobs st)) pj = 0 ->
  (forall p, m_pjParent j = Some p -> p ∉ busy) ->
  exists st0 st', UlpDecrRefs st pj = Some (1, st0) /\
    (CompleteQueued st0 pj ≫= fun s => release_job s pj) = Some st' /\
    SCore x busy rl rn st' /\
    view (s_jobs st') = delete pj (view (s_jobs st)) /\
    s_queues st' = s_queues st /\ s_world st' = s_world st /\
    (waiting_length st' <= waiting_length st + 1)%nat /\
    (forall y, y ∈ busy -> y <> pj -> s_jobs st' !! y = s_jobs st !! y).
Proof.
  intros HC Hb Hj Hx Hz Hpar.
  pose proof (c_refs _ _ _ _ _ _ _ HC pj j Hj) as Hr. unfold x_inc in Hr.
  rewrite Hz, decide_True, Hx in Hr by done.
  destruct (c_state _ _ _ _ _ _ _ HC pj j Hj Hb) as [[_ ?]|[He _]]; [lia|].
  assert (pj ∈ m_listjSuspended (s_sched st)) as Hsu.
  { apply (c_suspended _ _ _ _ _ _ _ HC). split; [done|]. by exists j. }
  unfold UlpDecrRefs. rewrite Hj. simpl. rewrite require_true by lia. simpl. rewrite Hr.
  set (st0 := put st pj _). exists st0. unfold CompleteQueued.
  assert (s_jobs st0 !! pj = Some (with_refs j 0)) as Hj0 by apply lookup_insert_eq.
  rewrite Hj0. simpl. rewrite require_true by done. simpl.
  unfold remove_suspended. simpl. rewrite require_true by done. simpl.
  set (j2 := with_ejs (with_refs j 0) EjsCompleted).
  match goal with |- context [ResumeParent ?s pj] => set (st2 := s) end.
  assert (SCore x ({[pj]} ∪ busy) rl rn st2) as HC2.
  { unfold SCore. simpl. rewrite insert_insert_eq.
    pose proof (Core_unsuspend _ _ _ _ _ _ _ pj HC Hsu) as HU.
    eapply (Core_put_busy (x_inc x pj)); [exact HU|set_solver|exact Hj|done..| |].
    - rewrite Hz, Hx. done.
    - intros y Hy. unfold x_inc. by rewrite decide_False. }
  assert (s_jobs st2 !! pj = Some j2) as Hj2 by apply lookup_insert_eq.
  destruct (finish_busy true x _ rl rn st2 pj j2 HC2 ltac:(set_solver) Hj2 eq_refl)
    as (st3 & st' & -> & Hrel & HC' & Hv & Hq & Hw & Hl & Hk).
  { intros p Hp Hin. apply (Hpar p Hp). assert (p <> pj); [|set_solver].
    by destruct (c_parent _ _ _ _ _ _ _ HC pj j p Hj Hp). }
  simpl. exists st'. split; [done|]. split; [done|].
  replace (({[pj]} ∪ busy) ∖ {[pj]}) with busy in HC' by set_solver.
  split; [done|]. split; [|split; [done|split; [done|split; [done|]]]].
  - rewrite Hv. f_equal. unfold st2, st0. simpl.
    rewrite insert_insert_eq. by apply (view_put _ _ j).
  - intros y Hy Hn. rewrite Hk by set_solver. unfold st2, st0. simpl.
    by rewrite !lookup_insert_ne.
Qed.

(** The jobs behind the main job are completed, one after the other. *)
Lemma notify_loop_spec q a rl rn rest st x :
  SCore x {[a]} rl rn st -> nchildren (view (s_jobs st)) a = 0 -> NoDup rest ->
  (forall b, b ∈ rest -> b <> a /\ is_Some (s_jobs st !! b) /\ x b = 1 /\
                         nchildren (view (s_jobs st)) b = 0) ->
  exists st', notify_loop rest st q = Some st' /\
    SCore (fun y => if decide (y ∈ rest) then 0 else x y) {[a]} rl rn st' /\
    view (s_jobs st') ⊆ view (s_jobs st) /\
    (forall y, view (s_jobs st') !! y =
               if decide (y ∈ rest) then None else view (s_jobs st) !! y) /\
    s_queues st' = match rest with
                   | [] => s_queues st
                   | _ => <[q := MkQueue (m_pj (queue_at st q))
                                   (m_fCompleted (queue_at st q)) []]> (s_queues st)
                   end /\
    s_world st' = s_world st /\
    (waiting_length st' <= waiting_length st + length rest)%nat /\
    s_jobs st' !! a = s_jobs st !! a.
Proof.
  revert st x. induction rest as [|b rest IH]; intros st x HC Hza Hnd Hrest; simpl.
  { exists st. split; [done|]. split.
    - apply (Core_ext x); [|done]. intros y. by destruct (decide (y ∈ [])) as [[]%elem_of_nil|].
    - split; [done|]. split; [|split; [done|split; [done|split; [lia|done]]]].
      intros y. by destruct (decide (y ∈ [])) as [[]%elem_of_nil|]. }
  apply NoDup_cons in Hnd as [Hb Hnd].
  destruct (Hrest b ltac:(left)) as (Hba & [jb Hjb] & Hxb & Hzb).
  set (st1 := set_queue st q
    (MkQueue (m_pj (queue_at st q)) (m_fCompleted (queue_at st q)) rest)).
  set (x' := fun y => if decide (y = b) then 0 else x y).
  assert (SCore (x_inc x' b) {[a]} rl rn st1) as HC1.
  { apply (Core_ext x); [|done]. intros y. unfold x_inc, x'.
    destruct (decide (y = b)) as [->|]; [lia|done]. }
  destruct (CompleteQueued_release x' {[a]} rl rn st1 b jb HC1) as
    (st2 & st3 & Hd & Hc & HC3 & Hv3 & Hq3 & Hw3 & Hl3 & Hk3).
  { by rewrite elem_of_singleton. }
  { done. }
  { unfold x'. by rewrite decide_True. }
  { done. }
  { intros p Hp ->%elem_of_singleton. by apply (childless _ _ _ _ _ _ _ a b jb HC Hza Hjb). }
  rewrite Hd. simpl. rewrite Hc. simpl.
  assert (view (s_jobs st3) ⊆ view (s_jobs st)) as Hsub by (rewrite Hv3; apply delete_subseteq).
  destruct (IH st3 x' HC3) as (st' & Hl & HC' & Hv' & Hy' & Hq' & Hw' & Hlen & Ha').
  { pose proof (nchildren_sub _ _ a Hsub). lia. }
  { done. }
  { intros c Hcr. destruct (Hrest c ltac:(by right)) as (Hca & [jc Hjc] & Hxc & Hzc).
    assert (c <> b) as Hcb by (intros ->; done).
    split; [done|]. split; [|split; [unfold x'; by rewrite decide_False|]].
    - assert (view (s_jobs st3) !! c = view (s_jobs st) !! c) as E
        by (rewrite Hv3; by apply lookup_delete_ne).
      rewrite !view_lookup, Hjc in E. destruct (s_jobs st3 !! c); [by eexists | done].
    - pose proof (nchildren_sub _ _ c Hsub). lia. }
  exists st'. split; [done|]. split; [|split; [|split; [|split; [|split; [|split]]]]].
  - apply (Core_ext _ _ _ _ _ _ _ _ (fun y => eq_refl)) in HC'. eapply Core_ext; [|exact HC'].
    intros y. simpl. unfold x'. destruct (decide (y = b)) as [->|Hyb].
    + rewrite (decide_True (P := b ∈ b :: rest)) by left. by rewrite (decide_False (P := b ∈ rest)).
    + destruct (decide (y ∈ rest)) as [Hin|Hin].
      * by rewrite decide_True by by right.
      * rewrite decide_False; [done|]. by intros [?|?]%elem_of_cons.
  - by etrans.
  - intros y. rewrite Hy', Hv3. destruct (decide (y = b)) as [->|Hyb].
    + rewrite (decide_True (P := b ∈ b :: rest)), lookup_delete_eq by left. by case_decide.
    + rewrite lookup_delete_ne by done. destruct (decide (y ∈ rest)).
      * by rewrite decide_True by by right.
      * rewrite decide_False; [done|]. by intros [?|?]%elem_of_cons.
  - rewrite Hq'. rewrite Hq3. unfold queue_at. rewrite Hq3. unfold st1. simpl.
    rewrite queue_of_insert, decide_True by done. simpl.
    destruct rest; [done|]. by rewrite insert_insert_eq.
  - by rewrite Hw', Hw3.
  - unfold waiting_length in *. simpl in Hl3. lia.
  - rewrite Ha'. apply Hk3; [set_solver|done].
Qed.

(** ** Running a job *)

(** The queue of [a] leaves the work to [a]. *)
Definition may_run (st : state) (a : job_address S) : Prop :=
  forall q, v_queue (view (s_jobs st)) a = Some q ->
    m_fCompleted (queue_at st q) = false /\
    (m_pj (queue_at st q) = None \/ m_pj (queue_at st q) = Some a).

(** [a] has the work of its queue in hand. *)
Definition in_hand (st st' : state) (a : job_address S) : Prop :=
  forall q, v_queue (view (s_jobs st)) a = Some q ->
    m_fCompleted (queue_at st' q) = false /\ m_pj (queue_at st' q) = Some a.

(** The work of the queue of [a] is done, and no job waits for it any more. *)
Definition served (st st' : state) (a : job_address S) : Prop :=
  forall q, v_queue (view (s_jobs st)) a = Some q ->
    m_fCompleted (queue_at st' q) = true /\
    forall y, y ∈ m_listjQueued (queue_at st q) -> y <> a -> view (s_jobs st') !! y = None.

(** Another job has the work of the queue of [a] in hand, before and after. *)
Definition waits_behind (st st' : state) (a : job_address S) : Prop :=
  exists q m, v_queue (view (s_jobs st)) a = Some q /\ m <> a /\
    m_fCompleted (queue_at st q) = false /\ m_pj (queue_at st q) = Some m /\
    m_fCompleted (queue_at st' q) = false /\ m_pj (queue_at st' q) = Some m.

(** The work of the queue of [a] was done before. *)
Definition too_late (st st' : state) (a : job_address S) : Prop :=
  exists q, v_queue (view (s_jobs st)) a = Some q /\
    m_fCompleted (queue_at st q) = true /\ m_fCompleted (queue_at st' q) = true.

(** What running the job [a] did, next to its answer: it ran and goes on, it ran
    and was done, with the jobs behind it in its queue, it was entered in a queue
    behind another job, or the work had been done. *)
Inductive ran_as (st : state) (a : job_address S) (b : B) : bool -> state -> Prop :=
  | ran_on st' :
      may_run st a -> in_hand st st' a ->
      ran (view (s_jobs st)) a (body (s_world st) b) (view (s_jobs st')) ->
      o_completed (body (s_world st) b) = false ->
      s_world st' = o_world (body (s_world st) b) ->
      waiting_length st' =
        (waiting_length st + length (o_children (body (s_world st) b)))%nat ->
      ran_as st a b false st'
  | ran_done st' v1 (n : nat) :
      may_run st a -> served st st' a ->
      ran (view (s_jobs st)) a (body (s_world st) b) v1 ->
      o_completed (body (s_world st) b) = true ->
      view (s_jobs st') ⊆ v1 -> (size (view (s_jobs st')) + n <= size v1)%nat ->
      s_world st' = o_world (body (s_world st) b) ->
      (waiting_length st' <= waiting_length st + n)%nat ->
      ran_as st a b true st'
  | ran_queued st' :
      waits_behind st st' a ->
      view (s_jobs st') = view (s_jobs st) -> s_world st' = s_world st ->
      waiting_length st' = waiting_length st ->
      extra (s_queues st') (view (s_jobs st')) a = 1 -> ran_as st a b false st'
  | ran_skipped st' :
      too_late st st' a ->
      view (s_jobs st') = view (s_jobs st) -> s_world st' = s_world st ->
      waiting_length st' = waiting_length st -> ran_as st a b true st'.

(** The job runs alone when it is done: it has added no children. *)
Definition completes_alone : Prop :=
  forall w b, o_completed (body w b) = true -> o_children (body w b) = [].

(** The state while [a] runs: its counter holds one more, and [m] more besides. *)
Record Running (m : N) (rl : list (job_address S)) (a : job_address S) (st : state) : Prop := {
  run_core : SCore (fun y => extra (s_queues st) (view (s_jobs st)) y +
                             (if decide (y = a) then m + 1 else 0)) {[a]} rl 1 st;
  run_queues : Queues (s_queues st) (view (s_jobs st));
  run_at : exists j, s_jobs st !! a = Some j /\ m_ejs j = EjsRunning;
  run_front q : a ∉ tail (m_listjQueued (queue_at st q));
}.

(** The job is free to go: no children, and in no queue. *)
Definition unbound (a : job_address S) (st : state) : Prop :=
  nchildren (view (s_jobs st)) a = 0 /\ forall q, a ∉ m_listjQueued (queue_at st q).

Lemma running_job m rl a st :
  Running m rl a st -> exists j b, s_jobs st !! a = Some j /\ m_ejs j = EjsRunning /\
    m_job j = Some b /\ m_ulpRefs j = nchildren (view (s_jobs st)) a + m + 1.
Proof.
  intros [HC HQ (j & Hj & He) Hf]. destruct (c_init _ _ _ _ _ _ _ HC a j Hj) as (_ & [b Hb] & _).
  exists j, b. split; [done|]. split; [done|]. split; [done|].
  rewrite (c_refs _ _ _ _ _ _ _ HC a j Hj), decide_True, extra_0 by done. lia.
Qed.

Lemma run_job_running m rl a st j b :
  Running m rl a st -> s_jobs st !! a = Some j -> m_job j = Some b ->
  let o := body (s_world st) b in
  exists st', run_job st a = Some (o_completed o, st') /\ Running m rl a st' /\
    ran (view (s_jobs st)) a o (view (s_jobs st')) /\
    s_queues st' = s_queues st /\ s_world st' = o_world o /\
    waiting_length st' = (waiting_length st + length (o_children o))%nat.
Proof.
  intros [HC HQ (j' & Hj' & He) Hf] Hj Hjob o. assert (j' = j) as -> by congruence.
  destruct (run_job_spec _ _ _ _ _ a j b HC ltac:(set_solver) Hj Hjob)
    as (st' & Hrun & HC' & Hran & Hq & Hw & Hl & (refs & Hj'')). fold o in Hrun, Hran, Hw, Hl.
  destruct (Queues_ran _ _ _ _ _ HQ Hran Hf) as [HQ' Hx].
  exists st'. split; [done|]. split; [|done]. split.
  - eapply Core_ext; [|exact HC']. intros y. simpl. by rewrite Hq, Hx.
  - by rewrite Hq.
  - exists (with_refs (with_job j (o_job o)) refs). by split.
  - intros q. unfold queue_at. rewrite Hq. apply Hf.
Qed.

Lemma UlpDecrRefs_running m rl a st :
  Running (m + 1) rl a st ->
  exists refs st', UlpDecrRefs st a = Some (refs, st') /\ Running m rl a st' /\
    refs = nchildren (view (s_jobs st)) a + m + 2 /\ same_view st st' /\
    waiting_length st' = waiting_length st.
Proof.
  intros HR. destruct (running_job _ _ _ _ HR) as (j & b & Hj & He & _ & Hr).
  destruct HR as [HC HQ _ Hf].
  set (x := fun y => extra (s_queues st) (view (s_jobs st)) y + (if decide (y = a) then m + 1 else 0)).
  assert (SCore (x_inc x a) {[a]} rl 1 st) as HC1.
  { eapply Core_ext; [|exact HC]. intros y. unfold x_inc, x. simpl. case_decide; lia. }
  destruct (UlpDecrRefs_busy x _ _ _ _ a j HC1 ltac:(set_solver) Hj)
    as (st' & Hd & HC' & Hsv & Hs & _ & Hjs).
  exists (m_ulpRefs j), st'. split; [done|]. destruct Hsv as [Hq Hw Hv].
  split; [|split; [lia|split; [done|unfold waiting_length; by rewrite Hs]]]. split.
  - by rewrite Hq, Hv.
  - by rewrite Hq, Hv.
  - rewrite Hjs, lookup_insert_eq. by eexists.
  - intros q. unfold queue_at. rewrite Hq. apply Hf.
Qed.

(** A table without the jobs of a list is that much smaller. *)
Lemma size_without (v v' : table) l :
  NoDup l -> (forall y, y ∈ l -> is_Some (v !! y)) ->
  (forall y, v' !! y = if decide (y ∈ l) then None else v !! y) ->
  (size v' + length l <= size v)%nat.
Proof.
  intros Hnd Hlive Hlook. rewrite <- !size_dom, <- (size_list_to_set (C := gset _) l) by done.
  rewrite <- size_union.
  - apply subseteq_size. intros y [Hy|Hy]%elem_of_union.
    + apply elem_of_dom in Hy as [e He]. rewrite Hlook in He. case_decide; [done|].
      apply elem_of_dom. by eexists.
    + apply elem_of_dom, Hlive. by apply elem_of_list_to_set in Hy.
  - intros y Hy Hl. apply elem_of_dom in Hy as [e He]. rewrite Hlook in He.
    apply elem_of_list_to_set in Hl. by rewrite decide_True in He.
Qed.

(** The main job of a queue is done: the jobs behind it are completed. *)
Lemma NotifyCompleted_spec rl a st q rest :
  Running 1 rl a st -> nchildren (view (s_jobs st)) a = 0 ->
  m_fCompleted (queue_at st q) = false -> m_listjQueued (queue_at st q) = a :: rest ->
  exists st', NotifyCompleted st q = Some st' /\ Running 0 rl a st' /\ unbound a st' /\
    view (s_jobs st') ⊆ view (s_jobs st) /\
    (size (view (s_jobs st')) + length rest <= size (view (s_jobs st)))%nat /\
    m_fCompleted (queue_at st' q) = true /\ (forall y, y ∈ rest -> view (s_jobs st') !! y = None) /\
    s_world st' = s_world st /\ (waiting_length st' <= waiting_length st + length rest)%nat.
Proof.
  intros HR Hz Hc Hl. unfold NotifyCompleted. rewrite Hc, Hl. simpl.
  match goal with |- context [UlpDecrRefs ?s a] => set (st1 := s) end.
  destruct (running_job _ _ _ _ HR) as (j & b & Hj & He & _ & Hr). destruct HR as [HC HQ _ Hf].
  pose proof (q_nodup _ _ HQ q) as Hnd. unfold queue_at in Hl. rewrite Hl in Hnd.
  apply NoDup_cons in Hnd as [Har Hnd].
  set (qs := s_queues st) in *. set (v := view (s_jobs st)) in *.
  set (x := fun y => extra qs v y + (if decide (y = a) then 1 else 0)).
  assert (SCore (x_inc x a) {[a]} rl 1 st1) as HC1.
  { eapply Core_ext; [|exact HC]. intros y. unfold x_inc, x. simpl. case_decide; lia. }
  destruct (UlpDecrRefs_busy x _ _ _ st1 a j HC1 ltac:(set_solver) Hj)
    as (st2 & -> & HC2 & [Hq2 Hw2 Hv2] & Hs2 & _ & Hjs2). simpl.
  replace (m_ulpRefs j =? 1) with false by (symmetry; apply N.eqb_neq; lia). simpl.
  change (view (s_jobs st1)) with v in Hv2.
  destruct (notify_loop_spec q a rl 1 rest st2 x HC2)
    as (st' & -> & HC' & Hsub & Hlook & Hq' & Hw' & Hlen & Ha').
  { by rewrite Hv2. }
  { done. }
  { intros c Hcr. assert (c <> a) as Hca by (intros ->; done).
    assert (c ∈ tail (m_listjQueued (queue_of qs q))) as Hct by by rewrite Hl.
    assert (is_Some (v !! c)) as Hlive
      by (apply (v_queue_live v c q), (q_live _ _ HQ), tail_elem; done).
    split; [done|]. split.
    - rewrite <- Hv2, view_lookup in Hlive. by destruct (s_jobs st2 !! c); [eexists | destruct Hlive].
    - rewrite Hv2. split; [|by apply (q_behind _ _ HQ q)]. unfold x.
      by rewrite (extra_behind qs v q c HQ Hct), decide_False. }
  rewrite Hv2 in Hsub, Hlook.
  set (main := m_pj (queue_at st q)) in *.
  assert (s_queues st' = <[q := MkQueue main true []]> qs) as Hqs.
  { assert (s_queues st1 = <[q := MkQueue main true rest]> qs) as Hq1.
    { unfold st1, queue_at. simpl. rewrite queue_of_insert, decide_True by done. simpl.
      by rewrite insert_insert_eq. }
    rewrite Hq1 in Hq2. rewrite Hq'. unfold queue_at. rewrite Hq2, queue_of_insert.
    rewrite decide_True by done. simpl. by destruct rest; rewrite ?insert_insert_eq. }
  destruct (Queues_emptied qs v (view (s_jobs st')) q main HQ Hsub) as [HQ' Hx'].
  { intros q' y Hqq Hy. pose proof (q_live _ _ HQ q' y Hy) as Hyq.
    rewrite Hlook, decide_False; [by apply (v_queue_live v y q')|].
    intros Hyr. assert (v_queue v y = Some q); [|congruence].
    apply (q_live _ _ HQ). rewrite Hl. by right. }
  exists st'. split; [done|].
  split; [|split; [|split; [done|split; [|split; [|split; [|split]]]]]].
  - split.
    + eapply Core_ext; [|exact HC']. intros y. simpl. rewrite Hqs, Hx', Hl. unfold x.
      destruct (decide (y ∈ rest)) as [Hyr|Hyr].
      * rewrite decide_True by by right. rewrite decide_False; [done|]. by intros ->.
      * destruct (decide (y = a)) as [->|Hya].
        -- rewrite decide_True by left. by rewrite extra_0.
        -- rewrite decide_False; [done|]. by intros [?|?]%elem_of_cons.
    + by rewrite Hqs.
    + rewrite Ha', Hjs2, lookup_insert_eq. by eexists.
    + intros q'. unfold queue_at. rewrite Hqs, queue_of_insert. case_decide; [|apply Hf].
      by intros ?%elem_of_nil.
  - split.
    + pose proof (nchildren_sub v (view (s_jobs st')) a Hsub). lia.
    + intros q' Hin. unfold queue_at in Hin. rewrite Hqs, queue_of_insert in Hin.
      case_decide as Hqq; [by apply elem_of_nil in Hin|].
      pose proof (q_live _ _ HQ q' a Hin). apply Hqq.
      assert (v_queue v a = Some q); [|congruence].
      apply (q_live _ _ HQ). rewrite Hl. left.
  - apply size_without; [done| |done]. intros y Hy.
    apply (v_queue_live v y q), (q_live _ _ HQ). rewrite Hl. by right.
  - unfold queue_at. by rewrite Hqs, queue_of_insert, decide_True.
  - intros y Hy. by rewrite Hlook, decide_True.
  - by rewrite Hw', Hw2.
  - unfold waiting_length in *. rewrite Hs2 in Hlen. exact Hlen.
Qed.

(** The state after the job ran: its counter still holds one more. *)
Record Ran (rl : list (job_address S)) (a : job_address S) (st : state) : Prop := {
  ran_core : SCore (x_inc (extra (s_queues st) (view (s_jobs st))) a) {[a]} rl 1 st;
  ran_queues : Queues (s_queues st) (view (s_jobs st));
  ran_at : exists j, s_jobs st !! a = Some j /\ m_ejs j = EjsRunning;
}.

Lemma Running_Ran rl a st : Running 0 rl a st -> Ran rl a st.
Proof.
  intros [HC HQ Ha Hf]. split; [|done|done]. eapply Core_ext; [|exact HC].
  intros y. unfold x_inc. simpl. case_decide; lia.
Qed.

Lemma IncRefs_running m rl a st :
  Running m rl a st ->
  exists st', IncRefs st a = Some st' /\ Running (m + 1) rl a st' /\ same_view st st' /\
    waiting_length st' = waiting_length st.
Proof.
  intros HR. destruct (running_job _ _ _ _ HR) as (j & b & Hj & He & _ & Hr).
  destruct HR as [HC HQ _ Hf].
  destruct (IncRefs_busy _ _ _ _ st a j HC ltac:(set_solver) Hj)
    as (st' & Hi & HC' & [Hq Hw Hv] & Hs & _ & Hjs).
  exists st'. split; [done|]. split; [|split; [done|unfold waiting_length; by rewrite Hs]]. split.
  - rewrite Hq, Hv. eapply Core_ext; [|exact HC']. intros y. unfold x_inc. simpl.
    case_decide; lia.
  - by rewrite Hq, Hv.
  - rewrite Hjs, lookup_insert_eq. by eexists.
  - intros q. unfold queue_at. rewrite Hq. apply Hf.
Qed.

(** The main job of its queue runs. *)
Lemma main_spec rl a st q rest j b :
  completes_alone -> Running 1 rl a st -> nchildren (view (s_jobs st)) a = 0 ->
  m_fCompleted (queue_at st q) = false -> m_listjQueued (queue_at st q) = a :: rest ->
  s_jobs st !! a = Some j -> m_job j = Some b -> m_pjq j = Some q ->
  exists c st',
    ('(completed, st) ← run_job st a;
     if completed : bool then st ← NotifyCompleted st q; Some (true, st)
     else '(_, st) ← UlpDecrRefs st a; Some (false, st)) = Some (c, st') /\
    Ran rl a st' /\ (c = true -> unbound a st') /\ ran_as st a b c st'.
Proof.
  intros Hdone HR Hz Hc Hl Hj Hjob Hq.
  assert (v_queue (view (s_jobs st)) a = Some q) as Hvq
    by (unfold v_queue; by rewrite view_lookup, Hj).
  pose proof (q_main _ _ (run_queues _ _ _ _ HR) q Hc) as Hmain. fold (queue_at st q) in Hmain.
  rewrite Hl in Hmain. simpl in Hmain.
  assert (may_run st a) as Hmay.
  { intros q' Hq'. assert (q' = q) as -> by congruence. auto. }
  destruct (run_job_running 1 rl a st j b HR Hj Hjob)
    as (st1 & Hrun & HR1 & Hran & Hq1 & Hw1 & Hl1).
  assert (queue_at st1 q = queue_at st q) as Hqa by (unfold queue_at; by rewrite Hq1).
  rewrite Hrun. simpl. destruct (o_completed (body (s_world st) b)) eqn:Ho.
  - pose proof (Hdone _ _ Ho) as Hnil.
    assert (nchildren (view (s_jobs st1)) a = 0) as Hz1.
    { destruct (ran_facts _ _ _ _ Hran) as [_ Hcc].
      rewrite Hcc, Hnil, decide_True by done. simpl. lia. }
    destruct (NotifyCompleted_spec rl a st1 q rest HR1 Hz1)
      as (st2 & -> & HR2 & Hu & Hsub & Hsz & Hcd & Hgone & Hw2 & Hl2); [by rewrite Hqa..|].
    simpl. exists true, st2. split; [done|]. split; [by apply Running_Ran|]. split; [done|].
    apply (ran_done st a b st2 (view (s_jobs st1)) (length rest)); try done.
    + intros q' Hq'. assert (q' = q) as -> by congruence. split; [done|].
      rewrite Hl. intros y [->|Hy]%elem_of_cons Hya; [done | by apply Hgone].
    + by rewrite Hw2.
    + rewrite Hl1, Hnil in Hl2. simpl in Hl2. lia.
  - destruct (UlpDecrRefs_running 0 rl a st1 HR1) as (refs & st2 & -> & HR2 & _ & [Hq2 Hw2 Hv2] & Hl2).
    simpl. exists false, st2. split; [done|]. split; [by apply Running_Ran|]. split; [done|].
    apply ran_on; [done| |by rewrite Hv2|done|by rewrite Hw2|by rewrite Hl2].
    intros q' Hq'. assert (q' = q) as -> by congruence.
    unfold queue_at. rewrite Hq2. fold (queue_at st1 q). by rewrite Hqa.
Qed.

Lemma ran_alone rl a st st' j b :
  let o := body (s_world st) b in
  completes_alone -> s_jobs st !! a = Some j -> m_pjq j = None ->
  nchildren (view (s_jobs st)) a = 0 -> Running 0 rl a st' ->
  ran (view (s_jobs st)) a o (view (s_jobs st')) -> s_world st' = o_world o ->
  waiting_length st' = (waiting_length st + length (o_children o))%nat ->
  (o_completed o = true -> unbound a st') /\ ran_as st a b (o_completed o) st'.
Proof.
  intros o Hdone Hj Hq Hz HR Hran Hw Hl. destruct (ran_facts _ _ _ _ Hran) as [Hlive Hc].
  assert (v_queue (view (s_jobs st)) a = None) as Hvq
    by (unfold v_queue; by rewrite view_lookup, Hj).
  destruct (o_completed o) eqn:Ho.
  - pose proof (Hdone _ _ Ho) as Hnil. fold o in Hnil. split.
    + intros _. split; [rewrite Hc, Hnil, Hz; by case_decide|].
      intros q Hin. pose proof (q_live _ _ (run_queues _ _ _ _ HR) q a Hin) as Hv.
      destruct (Hlive a) as (_ & He & _); [by rewrite view_lookup, Hj; eexists|].
      rewrite He in Hv. unfold v_queue in Hv. rewrite view_lookup, Hj in Hv. simpl in Hv. congruence.
    + apply (ran_done st a b st' (view (s_jobs st')) 0); try done; [| |lia|].
      * intros q Hv. congruence.
      * intros q Hv. congruence.
      * fold o. rewrite Hl, Hnil. simpl. lia.
  - split; [done|]. apply ran_on; try done; intros q Hv; congruence.
Qed.

(** What entering the queue gives. *)
Lemma EjqrAdd_spec rl a st q j :
  Running 0 rl a st -> nchildren (view (s_jobs st)) a = 0 ->
  s_jobs st !! a = Some j -> m_pjq j = Some q ->
  exists r st', EjqrAdd st q a = Some (r, st') /\
    view (s_jobs st') = view (s_jobs st) /\ s_world st' = s_world st /\
    waiting_length st' = waiting_length st /\
    match r with
    | EjqrMain => Running 1 rl a st' /\ m_fCompleted (queue_at st' q) = false /\
                  may_run st a /\
                  exists rest, m_listjQueued (queue_at st' q) = a :: rest /\
                    forall y, y ∈ m_listjQueued (queue_at st q) -> y ∈ a :: rest
    | EjqrQueued => Ran rl a st' /\ waits_behind st st' a /\
                    extra (s_queues st') (view (s_jobs st')) a = 1
    | EjqrCompleted => st' = st /\ m_fCompleted (queue_at st q) = true
    end.
Proof.
  intros HR Hz Hj Hq. unfold EjqrAdd.
  destruct (m_fCompleted (queue_at st q)) eqn:Hc; [by exists EjqrCompleted, st|].
  pose proof HR as [HC HQ (j' & Hj' & He) Hf]. assert (j' = j) as -> by congruence. clear Hj'.
  pose proof (q_main _ _ HQ q Hc) as Hmain.
  assert (v_queue (view (s_jobs st)) a = Some q) as Hvq
    by (unfold v_queue; by rewrite view_lookup, Hj).
  unfold may_run, waits_behind, queue_at in *.
  destruct (m_listjQueued (queue_of (s_queues st) q)) as [|h rest] eqn:Hl; simpl in Hmain.
  - rewrite Hmain. rewrite decide_False by done. simpl. rewrite decide_True by done. simpl.
    set (st1 := set_queue st q (MkQueue (Some a) false [a])).
    destruct (Queues_append (s_queues st) (view (s_jobs st)) q a (Some a) HQ Hc)
      as [HQ1 Hx1]; rewrite ?Hl; try done.
    { by intros ?%elem_of_nil. }
    rewrite Hl in HQ1, Hx1. simpl in HQ1, Hx1.
    assert (Running 0 rl a st1) as HR1.
    { split; [|done|by exists j|].
      - eapply Core_ext; [|exact HC]. intros y. simpl. rewrite Hx1.
        rewrite (decide_False (P := y = a /\ _)) by naive_solver. lia.
      - intros q'. unfold queue_at. simpl. rewrite queue_of_insert. case_decide; [apply not_elem_of_nil|apply Hf]. }
    destruct (IncRefs_running 0 rl a st1 HR1) as (st2 & -> & HR2 & [Hq2 Hw2 Hv2] & Hl2). simpl.
    exists EjqrMain, st2. split; [done|]. split; [by rewrite Hv2|]. split; [by rewrite Hw2|].
    split; [by rewrite Hl2|]. split; [done|]. rewrite Hq2. simpl.
    rewrite queue_of_insert, decide_True by done. simpl. split; [done|]. split.
    { intros q' Hq'. assert (q' = q) as -> by congruence. auto. }
    exists []. split; [done|]. by intros y ?%elem_of_nil.
  - destruct (decide (m_pj (queue_of (s_queues st) q) = Some a)) as [Ha|Ha].
    + destruct (IncRefs_running 0 rl a st HR) as (st2 & -> & HR2 & [Hq2 Hw2 Hv2] & Hl2). simpl.
      exists EjqrMain, st2. split; [done|]. split; [by rewrite Hv2|]. split; [by rewrite Hw2|].
      split; [by rewrite Hl2|]. split; [done|]. rewrite Hq2. split; [done|]. split.
      { intros q' Hq'. assert (q' = q) as -> by congruence. auto. }
      assert (h = a) as -> by congruence. exists rest. by rewrite Hl.
    + assert (h <> a) as Hha by congruence. simpl.
      rewrite decide_False by congruence. rewrite Hmain.
      set (st1 := set_queue st q (MkQueue (Some h) false (h :: rest ++ [a]))).
      assert (a ∉ h :: rest) as Hal.
      { intros [->|Hin]%elem_of_cons; [done|]. apply (Hf q). by rewrite Hl. }
      destruct (Queues_append (s_queues st) (view (s_jobs st)) q a (Some h) HQ Hc)
        as [HQ1 Hx1]; rewrite ?Hl; try done.
      rewrite Hl in HQ1, Hx1. simpl in HQ1, Hx1.
      destruct (IncRefs_busy _ _ _ _ st1 a j HC ltac:(set_solver) Hj)
        as (st2 & -> & HC2 & [Hq2 Hw2 Hv2] & Hs2 & _ & Hjs2). simpl.
      exists EjqrQueued, st2. split; [done|]. split; [by rewrite Hv2|]. split; [by rewrite Hw2|].
      split; [unfold waiting_length; by rewrite Hs2|]. split; [split|split].
      * rewrite Hq2, Hv2. eapply Core_ext; [|exact HC2]. intros y. unfold x_inc. simpl.
        rewrite Hx1. destruct (decide (y = a)) as [->|Hy].
        -- rewrite (decide_True (P := a = a /\ _)) by naive_solver. lia.
        -- rewrite (decide_False (P := y = a /\ _)) by naive_solver. lia.
      * by rewrite Hq2, Hv2.
      * rewrite Hjs2, lookup_insert_eq. by eexists.
      * exists q, h. split; [done|]. split; [done|]. split; [done|]. split; [congruence|].
        rewrite Hq2. simpl. by rewrite queue_of_insert, decide_True.
      * rewrite Hq2, Hv2. simpl. rewrite Hx1, decide_True by naive_solver. by rewrite extra_0.
Qed.

Lemma FExecute_spec rl a st j b :
  completes_alone -> Running 0 rl a st -> nchildren (view (s_jobs st)) a = 0 ->
  s_jobs st !! a = Some j -> m_job j = Some b ->
  exists c st', FExecute st a = Some (c, st') /\ Ran rl a st' /\
    (c = true -> unbound a st') /\ ran_as st a b c st'.
Proof.
  intros Hdone HR Hz Hj Hjob. unfold FExecute. rewrite Hj. simpl.
  destruct (m_pjq j) as [q|] eqn:Hq.
  2: { destruct (run_job_running 0 rl a st j b HR Hj Hjob)
         as (st1 & Hrun & HR1 & Hran & Hq1 & Hw1 & Hl1).
       exists (o_completed (body (s_world st) b)), st1. split; [done|].
       split; [by apply Running_Ran|]. by apply (ran_alone rl a st st1 j b). }
  destruct (EjqrAdd_spec rl a st q j HR Hz Hj Hq) as (r & st1 & -> & Hv1 & Hw1 & Hl1 & Hr). simpl.
  destruct r.
  - destruct Hr as (HR1 & Hc1 & Hmay & rest & Hlist & Hmore).
    destruct (running_job _ _ _ _ HR1) as (j1 & b1 & Hj1 & _ & Hb1 & _).
    assert (view (s_jobs st1) !! a = view (s_jobs st) !! a) as E by by rewrite Hv1.
    rewrite !view_lookup, Hj, Hj1 in E. simpl in E. unfold job_view in E.
    assert (b1 = b) as -> by congruence. assert (m_pjq j1 = Some q) as Hq1 by congruence.
    destruct (main_spec rl a st1 q rest j1 b Hdone HR1) as (c & st2 & -> & HR2 & Hu2 & Has);
      [by rewrite Hv1|done..|].
    exists c, st2. split; [done|]. split; [done|]. split; [done|].
    assert (v_queue (view (s_jobs st)) a = Some q) as Hvq
      by (unfold v_queue; by rewrite view_lookup, Hj).
    destruct Has as [st2 _ Hh Hran Ho Hw Hl|st2 v1 n _ Hs Hran Ho Hsub Hsz Hw Hl|
                     st2 Hwb Hv Hw Hl He|st2 Htl Hv Hw Hl];
      rewrite ?Hv1, ?Hw1, ?Hl1 in *.
    + apply ran_on; try done. intros q' Hq'. apply Hh. by rewrite Hv1.
    + apply (ran_done st a b st2 v1 n); try done. intros q' Hq'.
      destruct (Hs q') as [? Hg]; [by rewrite Hv1|]. split; [done|]. intros y Hy. apply Hg.
      assert (q' = q) as -> by congruence.
      rewrite Hlist. by apply Hmore.
    + destruct Hwb as (q' & m & Hq' & Hma & _ & Hm & _). rewrite Hv1 in Hq'.
      assert (q' = q) as -> by congruence.
      pose proof (q_main _ _ (run_queues _ _ _ _ HR1) q Hc1) as Hh. unfold queue_at in *.
      rewrite Hlist in Hh. simpl in Hh. congruence.
    + destruct Htl as (q' & Hq' & Hcc & _). rewrite Hv1 in Hq'.
      assert (q' = q) as -> by congruence. congruence.
  - destruct Hr as (Hr & Hwb & Hx). exists false, st1. split; [done|]. split; [done|].
    split; [done|]. by apply ran_queued.
  - destruct Hr as [-> Hc]. exists true, st. split; [done|]. split; [by apply Running_Ran|].
    assert (v_queue (view (s_jobs st)) a = Some q) as Hvq
      by (unfold v_queue; by rewrite view_lookup, Hj).
    split; [|apply ran_skipped; [by exists q|done..]]. intros _. split; [done|].
    intros q' Hin. pose proof (run_queues _ _ _ _ HR) as HQ.
    pose proof (q_live _ _ HQ q' a Hin) as Hv. assert (q' = q) as -> by congruence.
    unfold queue_at in *. rewrite (q_done _ _ HQ q Hc) in Hin. by apply elem_of_nil in Hin.
Qed.

(** ** A round *)

(** What holds between two rounds. *)
Record Inv (st : state) : Prop := {
  inv_core : SCore (extra (s_queues st) (view (s_jobs st))) ∅ [] 0 st;
  inv_queues : Queues (s_queues st) (view (s_jobs st));
}.

(** What a round, of the job [a], did. *)
Inductive round_as (st : state) (a : job_address S) (b : B) (st' : state) : Prop :=
  | round_on :
      may_run st a -> in_hand st st' a ->
      ran (view (s_jobs st)) a (body (s_world st) b) (view (s_jobs st')) ->
      o_completed (body (s_world st) b) = false ->
      s_world st' = o_world (body (s_world st) b) ->
      (waiting_length st' <=
       waiting_length st + length (o_children (body (s_world st) b)))%nat ->
      round_as st a b st'
  | round_done v1 (n : nat) :
      may_run st a -> served st st' a ->
      ran (view (s_jobs st)) a (body (s_world st) b) v1 ->
      o_completed (body (s_world st) b) = true ->
      view (s_jobs st') ⊆ v1 -> view (s_jobs st') !! a = None ->
      (size (view (s_jobs st')) + n + 1 <= size v1)%nat ->
      s_world st' = o_world (body (s_world st) b) ->
      (waiting_length st' <= waiting_length st + n)%nat ->
      round_as st a b st'
  | round_queued :
      waits_behind st st' a ->
      view (s_jobs st') = view (s_jobs st) -> s_world st' = s_world st ->
      (waiting_length st' + 1 = waiting_length st)%nat ->
      round_as st a b st'
  | round_skipped :
      too_late st st' a ->
      view (s_jobs st') = delete a (view (s_jobs st)) -> s_world st' = s_world st ->
      (waiting_length st' <= waiting_length st)%nat ->
      round_as st a b st'.

Lemma Core_running x busy rl rn rl' rn' js sc f :
  Core x busy rl rn js sc f ->
  Core x busy rl' rn' js
    (MkScheduler (m_listjlWaiting sc) (m_ulpTotal sc) rn' (m_ulpQueued sc) rl'
       (m_listjSuspended sc)) f.
Proof. intros []. by constructor. Qed.

(** The job is retrieved and prepared. *)
Lemma retrieve_spec st a rest :
  Inv st -> m_listjlWaiting (s_sched st) = a :: rest ->
  exists st1 st2, PjRetrieve st = Some (Some a, st1) /\ PreExecute st1 a = Some st2 /\
    Running 0 [a] a st2 /\ nchildren (view (s_jobs st2)) a = 0 /\ same_view st st2 /\
    (waiting_length st2 + 1 = waiting_length st)%nat.
Proof.
  intros [HC HQ] Hw.
  destruct (waiting_job _ _ _ _ _ _ _ a HC) as (_ & _ & (j & Hj & He & Hr)); [rewrite Hw; by left|].
  destruct (no_children _ _ _ _ _ _ _ _ _ HC Hj Hr) as [Hz Hx].
  pose proof (Core_retrieve _ _ _ _ _ _ _ a rest j HC Hw Hj) as HC1.
  unfold PjRetrieve. rewrite Hw, Hj. simpl. rewrite !require_true by done. simpl.
  eexists _, _. split; [done|]. unfold PreExecute. simpl. rewrite lookup_insert_eq. simpl.
  rewrite require_true by done. simpl. unfold IncRefs. simpl. rewrite lookup_insert_eq. simpl.
  split; [done|]. simpl. rewrite insert_insert_eq.
  set (j2 := with_refs (with_ejs j EjsRunning) (m_ulpRefs j + 1)).
  assert (view (<[a := j2]> (s_jobs st)) = view (s_jobs st)) as Hv by by apply (view_put _ _ j).
  split; [|split; [|split]].
  - split; simpl.
    + unfold SCore. simpl. rewrite insert_insert_eq, Hv.
      apply (Core_running _ _ _ _ [a] 1) in HC1. simpl in HC1.
      rewrite (proj1 (c_running _ _ _ _ _ _ _ HC)). simpl.
      rewrite (proj2 (c_running _ _ _ _ _ _ _ HC)). simpl.
      replace {[a]} with ({[a]} ∪ ∅ : gset (job_address S)) by set_solver.
      rewrite <- (insert_insert_eq (s_jobs st) a j2 (with_ejs j EjsRunning)).
      eapply (Core_put_busy _ _ _ _ _ _ _ _ a (with_ejs j EjsRunning) j2 HC1); try done.
      * set_solver.
      * by rewrite lookup_insert_eq.
      * rewrite nchildren_put with (j := j) by done. rewrite decide_True by done. simpl. lia.
      * intros y Hy. rewrite decide_False by done. lia.
    + by rewrite insert_insert_eq, Hv.
    + rewrite lookup_insert_eq. by eexists.
    + intros q. by apply (extra_0_inv _ _ _ HQ Hx).
  - by rewrite Hv.
  - split; [done|done|]. simpl. by rewrite insert_insert_eq.
  - unfold waiting_length. simpl. rewrite Hw. simpl. lia.
Qed.

(** The job is put away. *)
Lemma process_spec a c st :
  Ran [a] a st -> (c = true -> unbound a st) ->
  exists st', (st ← remove_running st a;
               '(r, st) ← EjrPostExecute st a c;
               process_result st a r) = Some st' /\ Inv st' /\
    s_queues st' = s_queues st /\ s_world st' = s_world st /\
    if c : bool then
      view (s_jobs st') = delete a (view (s_jobs st)) /\
      (waiting_length st' <= waiting_length st + 1)%nat
    else
      view (s_jobs st') = view (s_jobs st) /\
      (waiting_length st' = waiting_length st +
        (if decide ((nchildren (view (s_jobs st)) a +
                     extra (s_queues st) (view (s_jobs st)) a)%N = 0%N)
         then 1 else 0))%nat.
Proof.
  intros [HC HQ (j & Hj & He)] Hu. pose proof (c_running _ _ _ _ _ _ _ HC) as [Hrl Hrn].
  unfold remove_running. rewrite require_true by (rewrite Hrl; by left). simpl.
  match goal with |- context [EjrPostExecute ?s a c] => set (st1 := s) end.
  assert (SCore (x_inc (extra (s_queues st) (view (s_jobs st))) a) {[a]} [] 1 st1) as HC1.
  { unfold SCore, st1. simpl. rewrite Hrl, Hrn. rewrite filter_cons_False, filter_nil by naive_solver.
    by apply (Core_running _ _ _ _ [] 1) in HC. }
  destruct (UlpDecrRefs_busy _ _ _ _ st1 a j HC1 ltac:(set_solver) Hj)
    as (st2 & Hd & HC2 & [Hq2 Hw2 Hv2] & Hs2 & Hf2 & Hjs2).
  unfold EjrPostExecute. rewrite Hd. simpl.
  set (st3 := drop_running st2).
  set (x := extra (s_queues st) (view (s_jobs st))) in *.
  assert (SCore x {[a]} [] 0 st3) as HC3.
  { unfold SCore, st3. simpl.
    rewrite (proj1 (c_running _ _ _ _ _ _ _ HC2)), (proj2 (c_running _ _ _ _ _ _ _ HC2)).
    by apply (Core_running _ _ _ _ [] 0) in HC2. }
  assert (s_jobs st3 !! a = Some (with_refs j (m_ulpRefs j - 1))) as Hj3.
  { unfold st3. simpl. rewrite Hjs2. apply lookup_insert_eq. }
  pose proof (c_refs _ _ _ _ _ _ _ HC a j Hj) as Hr.
  assert (x_inc x a a = x a + 1) as Hxa by (unfold x_inc; by rewrite decide_True).
  rewrite Hxa in Hr. change (view (s_jobs st1)) with (view (s_jobs st)) in Hv2.
  assert (s_queues st3 = s_queues st) as Hq3 by done || (unfold st3; simpl; by rewrite Hq2).
  assert (s_world st3 = s_world st) as Hw3 by (unfold st3; simpl; by rewrite Hw2).
  assert (waiting_length st3 = waiting_length st) as Hl3
    by (unfold waiting_length, st3; simpl; by rewrite Hs2).
  assert (view (s_jobs st3) = view (s_jobs st)) as Hv3 by (unfold st3; simpl; by rewrite Hv2).
  assert ({[a]} ∖ {[a]} = (∅ : gset (job_address S))) as Hempty by set_solver.
  destruct c.
  - destruct (Hu eq_refl) as [Hz Hout].
    assert (x a = 0) as Hx0 by (apply extra_0; intros q Hin; by apply (Hout q), tail_elem).
    rewrite Hz, Hx0 in Hr. simpl in Hr.
    rewrite require_true by lia. simpl. unfold Complete. rewrite Hj3. simpl.
    rewrite (require_true (m_ulpRefs j - 1 = 0)) by lia. simpl. rewrite require_true by done. simpl.
    match goal with |- context [ResumeParent ?s a] => set (st4 := s) end.
    assert (SCore x {[a]} [] 0 st4) as HC4.
    { eapply (Core_put_busy x); [exact HC3|set_solver|exact Hj3|done..| |done].
      exact (c_refs _ _ _ _ _ _ _ HC3 a _ Hj3). }
    assert (view (s_jobs st4) = view (s_jobs st)) as Hv4.
    { rewrite <- Hv3. by apply (view_put _ _ (with_refs j (m_ulpRefs j - 1))). }
    destruct (finish_busy false x {[a]} [] 0 st4 a _ HC4 ltac:(set_solver)
                (lookup_insert_eq _ _ _) ltac:(simpl; lia))
      as (st5 & st6 & -> & Hrel & HC6 & Hv6 & Hq6 & Hw6 & Hl6 & _).
    { intros p Hp ->%elem_of_singleton.
      by destruct (c_parent _ _ _ _ _ _ _ HC a j a Hj Hp). }
    simpl. rewrite Hrel. exists st6. split; [done|]. rewrite Hempty in HC6. rewrite Hv4 in Hv6.
    destruct (Queues_sub (s_queues st) (view (s_jobs st)) (view (s_jobs st6)) HQ) as [HQ6 Hx6].
    { rewrite Hv6. apply delete_subseteq. }
    { intros q y Hy. rewrite Hv6, lookup_delete_ne; [|intros ->; by apply (Hout q)].
      apply (v_queue_live _ _ q). by apply (q_live _ _ HQ). }
    split; [|split; [by rewrite Hq6|split; [by rewrite Hw6|split; [done|]]]].
    + split; rewrite Hq6; change (s_queues st4) with (s_queues st3); rewrite Hq3; [|done].
      eapply Core_ext; [|exact HC6]. intros y. by rewrite Hx6.
    + rewrite <- Hl3. exact Hl6.
  - destruct (N.eqb_spec (m_ulpRefs j) 1) as [H1|H1]; simpl.
    + unfold Resume. rewrite Hj3. simpl. rewrite require_true by lia. simpl.
      destruct (Schedule_busy x {[a]} [] 0 st3 a _ HC3 ltac:(set_solver) Hj3 ltac:(simpl; lia))
        as (st4 & -> & HC4 & [Hq4 Hw4 Hv4] & Hwl & _); [simpl; auto|].
      exists st4. split; [done|]. rewrite Hempty in HC4.
      split; [|split; [by rewrite Hq4|split; [by rewrite Hw4|split; [by rewrite Hv4|]]]].
      * split; rewrite Hq4, Hv4, Hq3, Hv3; done.
      * rewrite decide_True by lia. unfold waiting_length in *. rewrite Hwl, <- Hl3. cbn [length]. lia.
    + destruct (Suspend_busy x {[a]} [] 0 st3 a _ HC3 ltac:(set_solver) Hj3 ltac:(simpl; lia))
        as (st4 & -> & HC4 & [Hq4 Hw4 Hv4] & Hwl); [done|].
      exists st4. split; [done|]. rewrite Hempty in HC4.
      split; [|split; [by rewrite Hq4|split; [by rewrite Hw4|split; [by rewrite Hv4|]]]].
      * split; rewrite Hq4, Hv4, Hq3, Hv3; done.
      * rewrite decide_False by lia. unfold waiting_length in *. rewrite Hwl. lia.
Qed.

Lemma round_spec st a rest :
  completes_alone -> Inv st -> m_listjlWaiting (s_sched st) = a :: rest ->
  exists st1 b st', PjRetrieve st = Some (Some a, st1) /\ execute_job st1 a = Some st' /\
    v_job (view (s_jobs st)) a = Some b /\ round_as st a b st' /\ Inv st'.
Proof.
  intros Hdone HI Hw.
  destruct (retrieve_spec st a rest HI Hw)
    as (st1 & st2 & Hret & Hpre & HR & Hz & [Hq2 Hw2 Hv2] & Hl2).
  destruct (running_job _ _ _ _ HR) as (j & b & Hj & _ & Hb & _).
  destruct (FExecute_spec [a] a st2 j b Hdone HR Hz Hj Hb) as (c & st3 & Hex & HR3 & Hu3 & Has).
  destruct (process_spec a c st3 HR3 Hu3) as (st' & Hproc & HI' & Hq' & Hw' & Hres).
  exists st1, b, st'. split; [done|]. split.
  { unfold execute_job. rewrite Hpre. simpl. rewrite Hex. simpl. exact Hproc. }
  split; [rewrite <- Hv2; unfold v_job; by rewrite view_lookup, Hj|]. split; [|done].
  destruct (ran_at _ _ _ HR3) as (j3 & Hj3 & _).
  assert (forall q, queue_at st2 q = queue_at st q) as Hq0 by (intros q; unfold queue_at; by rewrite Hq2).
  assert (forall q, queue_at st' q = queue_at st3 q) as Hq3 by (intros q; unfold queue_at; by rewrite Hq').
  assert (may_run st2 a -> may_run st a) as Hmay.
  { intros Hm q Hq. rewrite <- Hq0. apply Hm. by rewrite Hv2. }
  destruct Has as [st3 Hm Hh Hran Ho Hwd Hl|st3 v1 n Hm Hs Hran Ho Hsub Hsz Hwd Hl|
                   st3 Hwb Hv Hwd Hl He|st3 Htl Hv Hwd Hl];
    rewrite ?Hv2, ?Hw2 in *; destruct Hres as [Hv' Hl'].
  - apply round_on; [by apply Hmay| |by rewrite Hv'|done|by rewrite Hw'|].
    + intros q Hq. rewrite Hq3. apply Hh. by rewrite Hv2.
    + case_decide; lia.
  - assert (size (delete a (view (s_jobs st3))) + 1 = size (view (s_jobs st3)))%nat as Hsize.
    { rewrite map_size_delete_Some by (rewrite view_lookup, Hj3; by eexists).
      assert (size (view (s_jobs st3)) <> 0%nat); [|lia]. apply map_size_ne_0_lookup.
      exists a. rewrite view_lookup, Hj3. by eexists. }
    apply (round_done _ _ _ _ v1 n); try done.
    + by apply Hmay.
    + intros q Hq. rewrite Hq3. destruct (Hs q) as [Hc Hg]; [by rewrite Hv2|]. split; [done|].
      intros y Hy Hya. rewrite Hv', lookup_delete_ne by done. apply Hg; [by rewrite Hq0 | done].
    + rewrite Hv'. etrans; [apply delete_subseteq | done].
    + rewrite Hv'. apply lookup_delete_eq.
    + rewrite Hv'. lia.
    + by rewrite Hw'.
    + lia.
  - rewrite He in Hl'. rewrite decide_False in Hl' by lia.
    apply round_queued; [|by rewrite Hv'|by rewrite Hw'|lia].
    destruct Hwb as (q & m & ? & ? & ? & ? & ? & ?). exists q, m.
    rewrite Hq3, <- Hq0, <- Hv2. done.
  - apply round_skipped; [|by rewrite Hv', Hv|by rewrite Hw'|lia].
    destruct Htl as (q & ? & ? & ?). exists q. rewrite Hq3, <- Hq0, <- Hv2. done.
Qed.

(** ** Termination and liveness *)

Section measure.
Context (weight : B -> nat) (pot : W -> nat).

(** The work ahead: what the world holds, what the jobs hold, and one for each
    job. *)
Definition job_weight (e : option (job_address S) * option N * option B) : nat :=
  match snd e with Some b => weight b + 1 | None => 1 end.
Definition load (v : table) : nat := sum_list_with (fun kv => job_weight (snd kv)) (map_to_list v).

Definition children_weight (cs : list child) : nat :=
  sum_list_with (fun c => weight (c_job c) + 2)%nat cs.

(** A run uses up some of the work ahead, or the job is done; the new jobs are
    part of it. *)
Definition consumes_work : Prop :=
  forall w b, let o := body w b in
    (pot (o_world o) + weight (o_job o) + children_weight (o_children o) +
     (if o_completed o then 0 else 1) <= pot w + weight b)%nat.

Definition potential (st : state) : nat :=
  2 * pot (s_world st) + 2 * load (view (s_jobs st)) + waiting_length st.

Lemma load_insert (v : table) pj e :
  v !! pj = None -> load (<[pj := e]> v) = (job_weight e + load v)%nat.
Proof. intros Hn. unfold load. by rewrite map_to_list_insert. Qed.

Lemma load_delete (v : table) pj e :
  v !! pj = Some e -> load v = (job_weight e + load (delete pj v))%nat.
Proof.
  intros He. rewrite <- (load_insert (delete pj v) pj e) by apply lookup_delete_eq.
  by rewrite insert_delete_id.
Qed.

Lemma load_sub (v v' : table) : v' ⊆ v -> (load v' + size v <= load v + size v')%nat.
Proof.
  intros Hs. unfold load. rewrite <- !length_map_to_list.
  destruct (submseteq_Permutation _ _ (map_to_list_submseteq v' v Hs)) as [k ->].
  rewrite sum_list_with_app, length_app.
  assert (length k <= sum_list_with (fun kv : _ * _ => job_weight (snd kv)) k)%nat; [|lia].
  induction k as [|[y e] k IH]; simpl; [lia|]. unfold job_weight at 1. destruct (snd e); lia.
Qed.

Lemma load_ran v a o v' b :
  ran v a o v' -> v_job v a = Some b ->
  (load v' + length (o_children o) + weight b =
   load v + weight (o_job o) + children_weight (o_children o))%nat.
Proof.
  intros (parent & q & b' & Hv & Hsp) Hb.
  assert (b' = b) as -> by (unfold v_job in Hb; rewrite Hv in Hb; by injection Hb).
  assert (load (<[a := (parent, q, Some (o_job o))]> v) + weight b = load v + weight (o_job o))%nat
    as Hl.
  { rewrite (load_delete v a _ Hv).
    rewrite (load_delete (<[a := _]> v) a (parent, q, Some (o_job o)))
      by by rewrite lookup_insert_eq.
    rewrite delete_insert_eq. unfold job_weight. simpl. lia. }
  assert (forall u cs u', spawned a u cs u' ->
            (load u' + length cs = load u + children_weight cs)%nat) as Hs; [|apply Hs in Hsp; lia].
  induction 1 as [u|u c cs pj u' Hn Hsp' IH]; simpl; [lia|].
  rewrite load_insert in IH by done. unfold job_weight in IH. simpl in IH. lia.
Qed.

(** Every round brings the end closer. *)
Lemma round_potential st a b st' :
  completes_alone -> consumes_work -> v_job (view (s_jobs st)) a = Some b ->
  round_as st a b st' -> (potential st' < potential st)%nat.
Proof.
  intros Hdone Hwork Hb. pose proof (Hwork (s_world st) b) as Hc. simpl in Hc.
  pose proof (Hdone (s_world st) b) as Hnil. unfold potential.
  intros [_ _ Hran Ho -> Hl|v1 n _ _ Hran Ho Hsub _ Hsz -> Hl|_ -> -> Hl|_ Hv -> Hl].
  - pose proof (load_ran _ _ _ _ _ Hran Hb). rewrite Ho in Hc.
    assert (forall cs, 2 * length cs <= children_weight cs)%nat as Hcw.
    { induction cs; simpl; [lia|]. unfold children_weight in *. simpl. lia. }
    pose proof (Hcw (o_children (body (s_world st) b))). lia.
  - pose proof (load_ran _ _ _ _ _ Hran Hb) as Hload. pose proof (load_sub v1 _ Hsub).
    rewrite Ho, Hnil in Hc by done. rewrite Hnil in Hload by done. simpl in *. lia.
  - lia.
  - rewrite Hv. unfold v_job in Hb. destruct (view (s_jobs st) !! a) as [e|] eqn:He; [|done].
    rewrite (load_delete _ _ _ He). simpl in Hb. unfold job_weight. rewrite Hb. lia.
Qed.

(** The loop ends, and then nothing is waiting. *)
Lemma ExecuteJobs_ends fuel st :
  completes_alone -> consumes_work -> Inv st -> (potential st < fuel)%nat ->
  exists st', ExecuteJobs fuel st = Some st' /\ Inv st' /\ m_listjlWaiting (s_sched st') = [].
Proof.
  intros Hdone Hwork. revert st. induction fuel as [|fuel IH]; intros st HI Hp; [lia|].
  simpl. destruct (m_listjlWaiting (s_sched st)) as [|a rest] eqn:Hw.
  - unfold PjRetrieve. rewrite Hw. simpl. eexists. split; [done|]. split; [|done]. by destruct HI.
  - destruct (round_spec st a rest Hdone HI Hw) as (st1 & b & st' & -> & Hex & Hb & Has & HI').
    simpl. rewrite Hex. simpl. apply IH; [done|].
    pose proof (round_potential st a b st' Hdone Hwork Hb Has). lia.
Qed.
End measure.

(** Jobs wait along a rank: the children of a job are below it, and the jobs of a
    queue do the same work. *)
Section rank.
Context (rank : B -> nat) (qrank : N -> nat).

Definition descends : Prop :=
  forall w b, let o := body w b in
    rank (o_job o) = rank b /\
    forall c, c ∈ o_children o ->
      (rank (c_job c) < rank b)%nat /\ forall q, c_pjq c = Some q -> qrank q = rank (c_job c).

Record Ranked (v : table) : Prop := {
  rk_parent y p q b : v !! y = Some (Some p, q, Some b) ->
    exists bp, v_job v p = Some bp /\ (rank b < rank bp)%nat;
  rk_queue y p q b : v !! y = Some (p, Some q, Some b) -> qrank q = rank b;
}.

Lemma Ranked_insert (v : table) y p q b :
  Ranked v -> v !! y = None ->
  (forall pp, p = Some pp -> exists bp, v_job v pp = Some bp /\ (rank b < rank bp)%nat) ->
  (forall q', q = Some q' -> qrank q' = rank b) ->
  Ranked (<[y := (p, q, Some b)]> v).
Proof.
  intros [Hp Hq] Hn Hpar Hque.
  assert (forall z, is_Some (v_job v z) -> v_job (<[y := (p, q, Some b)]> v) z = v_job v z) as Hk.
  { intros z [bz Hz]. unfold v_job in *. rewrite lookup_insert_ne; [done|]. intros ->. by rewrite Hn in Hz. }
  split.
  - intros z p' q' b' [[-> [= -> <- <-]]|[Hz Hv]]%lookup_insert_Some.
    + destruct (Hpar p' eq_refl) as (bp & Hbp & Hlt). exists bp. rewrite Hk by (by eexists). done.
    + destruct (Hp z p' q' b' Hv) as (bp & Hbp & Hlt). exists bp. rewrite Hk by (by eexists). done.
  - intros z p' q' b' [[-> [= <- -> <-]]|[Hz Hv]]%lookup_insert_Some; [by apply Hque | by eapply Hq].
Qed.

Lemma Ranked_ran v a o v' w b :
  descends -> o = body w b -> Ranked v -> v_job v a = Some b -> ran v a o v' -> Ranked v'.
Proof.
  intros Hdesc -> HR Hb (parent & q & b' & Hv & Hsp).
  assert (b' = b) as -> by (unfold v_job in Hb; rewrite Hv in Hb; by injection Hb).
  destruct (Hdesc w b) as [Hrk Hch]. cbv zeta in *. set (o := body w b) in *.
  set (v1 := <[a := (parent, q, Some (o_job o))]> v) in *.
  assert (v_job v1 a = Some (o_job o)) as Hb1 by (unfold v_job, v1; by rewrite lookup_insert_eq).
  assert (Ranked v1) as HR1.
  { assert (forall z bz, v_job v z = Some bz -> exists bz', v_job v1 z = Some bz' /\ rank bz' = rank bz) as Hk.
    { intros z bz Hz. destruct (decide (z = a)) as [->|Hn].
      - exists (o_job o). split; [done|]. congruence.
      - exists bz. unfold v_job, v1 in *. by rewrite lookup_insert_ne. }
    split.
    - intros z p' q' b' [[-> [= -> <- <-]]|[Hz Hv']]%lookup_insert_Some.
      + destruct (rk_parent _ HR _ _ _ _ Hv) as (bp & Hbp & Hlt).
        destruct (Hk _ _ Hbp) as (bp' & ? & ?). exists bp'. split; [done|]. lia.
      + destruct (rk_parent _ HR _ _ _ _ Hv') as (bp & Hbp & Hlt).
        destruct (Hk _ _ Hbp) as (bp' & ? & ?). exists bp'. split; [done|]. lia.
    - intros z p' q' b' [[-> [= <- -> <-]]|[Hz Hv']]%lookup_insert_Some.
      + rewrite Hrk. by apply (rk_queue _ HR _ _ _ _ Hv).
      + by apply (rk_queue _ HR _ _ _ _ Hv'). }
  clearbody v1. clear HR Hb Hv.
  assert (forall c, c ∈ o_children o ->
            (rank (c_job c) < rank (o_job o))%nat /\
            forall q, c_pjq c = Some q -> qrank q = rank (c_job c)) as Hch'.
  { intros c Hc. rewrite Hrk. by apply Hch. }
  clear Hch. revert Hb1 HR1 Hch'. generalize (o_job o). intros bo.
  induction Hsp as [u|u c cs y u' Hn Hsp IH]; intros Hbo HRu Hcs; [done|].
  destruct (Hcs c ltac:(left)) as [Hlt Hqc]. apply IH.
  - unfold v_job in *. rewrite lookup_insert_ne; [done|]. intros ->. by rewrite Hn in Hbo.
  - apply Ranked_insert; [done|done| |done]. intros pp [= <-]. by exists bo.
  - intros c' Hc'. apply Hcs. by right.
Qed.

(** Jobs leave memory, none of them with children left. *)
Lemma Ranked_sub v v' :
  Ranked v -> v' ⊆ v ->
  (forall y p, v_parent v' y = Some p -> is_Some (v' !! p)) -> Ranked v'.
Proof.
  intros [Hp Hq] Hs Hl. split.
  - intros y p q b Hy. destruct (Hp y p q b) as (bp & Hbp & Hlt); [by apply (lookup_weaken v')|].
    exists bp. split; [|done]. destruct (Hl y p) as [e He]; [unfold v_parent; by rewrite Hy|].
    unfold v_job in *. rewrite He. by rewrite (lookup_weaken v' v p e He Hs) in Hbp.
  - intros y p q b Hy. apply (Hq y p q b). by apply (lookup_weaken v').
Qed.

Lemma Inv_parents st y p :
  Inv st -> v_parent (view (s_jobs st)) y = Some p -> is_Some (view (s_jobs st) !! p).
Proof.
  intros [HC _] Hp. unfold v_parent in Hp. rewrite view_lookup in *.
  destruct (s_jobs st !! y) as [j|] eqn:Hj; [|done]. simpl in Hp.
  destruct (c_parent _ _ _ _ _ _ _ HC y j p Hj Hp) as [_ [jp ->]]. by eexists.
Qed.

Lemma round_ranked st a b st' :
  descends -> Ranked (view (s_jobs st)) -> v_job (view (s_jobs st)) a = Some b ->
  round_as st a b st' -> Inv st' -> Ranked (view (s_jobs st')).
Proof.
  intros Hdesc HR Hb Has HI'.
  destruct Has as [_ _ Hran _ _ _|v1 n _ _ Hran _ Hsub _ _ _ _|_ Hv _ _|_ Hv _ _].
  - by apply (Ranked_ran _ _ _ _ _ _ Hdesc eq_refl HR Hb Hran).
  - apply (Ranked_sub v1); [|done|].
    + by apply (Ranked_ran _ _ _ _ _ _ Hdesc eq_refl HR Hb Hran).
    + intros y p. by apply Inv_parents.
  - by rewrite Hv.
  - apply (Ranked_sub (view (s_jobs st))); [done| |].
    + rewrite Hv. apply delete_subseteq.
    + intros y p. by apply Inv_parents.
Qed.

Lemma ExecuteJobs_ranked fuel st st' :
  completes_alone -> descends -> Inv st -> Ranked (view (s_jobs st)) ->
  ExecuteJobs fuel st = Some st' -> Ranked (view (s_jobs st')).
Proof.
  intros Hdone Hdesc. revert st. induction fuel as [|fuel IH]; intros st HI HR; simpl; [done|].
  destruct (m_listjlWaiting (s_sched st)) as [|a rest] eqn:Hw.
  - unfold PjRetrieve. rewrite Hw. simpl. by intros [= <-].
  - destruct (round_spec st a rest Hdone HI Hw) as (st1 & b & st2 & -> & Hex & Hb & Has & HI2).
    simpl. rewrite Hex. simpl. apply IH; [done|].
    by apply (round_ranked st a b st2).
Qed.

(** The entry of a job in memory is complete. *)
Lemma Inv_entry st pj :
  Inv st -> is_Some (view (s_jobs st) !! pj) ->
  exists j b, s_jobs st !! pj = Some j /\
    view (s_jobs st) !! pj = Some (m_pjParent j, m_pjq j, Some b) /\
    v_job (view (s_jobs st)) pj = Some b.
Proof.
  intros [HC _] [e He]. rewrite view_lookup in He.
  destruct (s_jobs st !! pj) as [j|] eqn:Hj; [|done].
  destruct (c_init _ _ _ _ _ _ _ HC pj j Hj) as (_ & [b Hb] & _). exists j, b.
  unfold v_job. rewrite view_lookup, Hj. unfold job_view. simpl. by rewrite Hb.
Qed.

(** When nothing is waiting to run, a job without children is behind another in
    its queue. *)
Lemma idle_job st pj :
  Inv st -> m_listjlWaiting (s_sched st) = [] -> is_Some (view (s_jobs st) !! pj) ->
  nchildren (view (s_jobs st)) pj = 0 -> extra (s_queues st) (view (s_jobs st)) pj = 1.
Proof.
  intros HI Hw Hl Hz. destruct (Inv_entry st pj HI Hl) as (j & b & Hj & _).
  destruct HI as [HC _]. pose proof (c_refs _ _ _ _ _ _ _ HC pj j Hj) as Hr.
  destruct (c_state _ _ _ _ _ _ _ HC pj j Hj ltac:(set_solver)) as [[He _]|[_ Hn]].
  - assert (pj ∈ m_listjlWaiting (s_sched st)) as Hin.
    { apply (c_waiting _ _ _ _ _ _ _ HC). split; [set_solver|]. by exists j. }
    rewrite Hw in Hin. by apply elem_of_nil in Hin.
  - rewrite Hz in Hr. unfold extra in *. destruct (v_queue (view (s_jobs st)) pj); [case_decide; lia|lia].
Qed.

(** The main job of a queue is not behind another. *)
Lemma main_of_queue st pj :
  Inv st -> extra (s_queues st) (view (s_jobs st)) pj = 1 ->
  exists q m, v_queue (view (s_jobs st)) pj = Some q /\ v_queue (view (s_jobs st)) m = Some q /\
    extra (s_queues st) (view (s_jobs st)) m = 0.
Proof.
  intros [_ HQ] Hx. unfold extra in Hx. destruct (v_queue (view (s_jobs st)) pj) as [q|] eqn:Hq; [|done].
  case_decide as Hin; [|done].
  destruct (m_listjQueued (queue_of (s_queues st) q)) as [|m tl] eqn:Hl; [by apply elem_of_nil in Hin|].
  assert (v_queue (view (s_jobs st)) m = Some q) as Hmq by (apply (q_live _ _ HQ); rewrite Hl; left).
  exists q, m. split; [done|]. split; [done|]. unfold extra. rewrite Hmq, decide_False; [done|].
  rewrite Hl. pose proof (q_nodup _ _ HQ q) as Hnd. rewrite Hl in Hnd. by apply NoDup_cons in Hnd as [? _].
Qed.

(** When no job is waiting to run, no job is left: every job would be waiting for
    one of a lower rank. *)
Lemma no_deadlock st :
  Inv st -> Ranked (view (s_jobs st)) -> m_listjlWaiting (s_sched st) = [] -> s_jobs st = ∅.
Proof.
  intros HI HR Hw.
  assert (forall n pj b, v_job (view (s_jobs st)) pj = Some b -> rank b = n -> False) as Hnone.
  { induction n as [n IH] using lt_wf_ind. intros pj b Hb Hrank.
    assert (forall y c, v_job (view (s_jobs st)) y = Some c -> rank c = n ->
              nchildren (view (s_jobs st)) y = 0) as Hleaf.
    { intros y c Hc Hrc. apply nchildren_0. intros z Hz.
      destruct (Inv_entry st z HI) as (jz & bz & _ & Hez & Hbz);
        [unfold v_parent in Hz; destruct (view (s_jobs st) !! z); [by eexists|done]|].
      unfold v_parent in Hz. rewrite Hez in Hz. simpl in Hz. rewrite Hz in Hez.
      destruct (rk_parent _ HR _ _ _ _ Hez) as (c' & Hc' & Hlt).
      apply (IH (rank bz) ltac:(replace c' with c in Hlt by congruence; lia) z bz Hbz eq_refl). }
    assert (forall y c, v_job (view (s_jobs st)) y = Some c -> is_Some (view (s_jobs st) !! y)) as Hl.
    { intros y c Hc. unfold v_job in Hc. destruct (view (s_jobs st) !! y); [by eexists|done]. }
    pose proof (idle_job st pj HI Hw (Hl pj b Hb) (Hleaf pj b Hb Hrank)) as Hx.
    destruct (main_of_queue st pj HI Hx) as (q & m & Hq & Hmq & Hm0).
    destruct (Inv_entry st m HI (v_queue_live _ _ _ Hmq)) as (jm & bm & _ & Hem & Hbm).
    destruct (Inv_entry st pj HI (Hl pj b Hb)) as (jp & bp & _ & Hep & Hbp).
    assert (bp = b) as -> by congruence.
    unfold v_queue in Hq, Hmq. rewrite Hem in Hmq. rewrite Hep in Hq. simpl in Hq, Hmq.
    rewrite Hmq in Hem. rewrite Hq in Hep.
    pose proof (rk_queue _ HR _ _ _ _ Hem). pose proof (rk_queue _ HR _ _ _ _ Hep).
    rewrite (idle_job st m HI Hw (Hl m bm Hbm)) in Hm0; [done|]. apply (Hleaf m bm Hbm). lia. }
  apply map_empty. intros pj. destruct (s_jobs st !! pj) as [j|] eqn:Hj; [|done]. exfalso.
  destruct (Inv_entry st pj HI) as (j' & b & _ & _ & Hb); [rewrite view_lookup, Hj; by eexists|].
  by apply (Hnone (rank b) pj b).
Qed.
End rank.

(** ** The start *)

Definition CScheduler_New : CScheduler := MkScheduler [] 0 0 0 [] [].

(** [CEngine::Optimize] makes the factory and the scheduler. *)
Definition start (ulJobs : N) (w : W) : state :=
  MkState ∅ ∅ (CJobFactory_New ulJobs) CScheduler_New (MkStatistics 0 0 0 0 0 0 0 0) w.

Lemma start_Inv ulJobs w : 0 < ulJobs < 2 ^ 31 -> Inv (start ulJobs w).
Proof.
  intros Hj. destruct (CJobFactory_New_ok (P := P) (S := S) ulJobs Hj) as [Hok Hnone]. split.
  - split; simpl; try done; try apply NoDup_nil_2.
    + intros pj. split; [by intros ?%elem_of_nil | by intros [_ (j & ? & _)]].
    + intros pj. split; [by intros ?%elem_of_nil | by intros [_ (j & ? & _)]].
    + intros pj. split; [by intros ?%Hnone | by intros [? ?]].
  - split; simpl; try done.
    + intros q. apply NoDup_nil_2.
    + by intros q pj ?%elem_of_nil.
Qed.

(** A job without a parent comes in from outside: [ScheduleMainJob]. *)
Lemma ScheduleJob_root st c :
  Inv st -> exists pj st', ScheduleJob st c None = Some st' /\ Inv st' /\
    view (s_jobs st) !! pj = None /\
    view (s_jobs st') = <[pj := (None, c_pjq c, Some (c_job c))]> (view (s_jobs st)) /\
    s_queues st' = s_queues st /\ s_world st' = s_world st.
Proof.
  intros [HC HQ]. unfold ScheduleJob.
  pose proof (PjCreate_spec (s_factory st) (c_ejt c) (c_factory _ _ _ _ _ _ _ HC)) as Hcr.
  destruct (PjCreate (s_factory st) (c_ejt c)) as [pj f']. destruct Hcr as (Hf' & Ht & Hfree & Hu').
  assert (s_jobs st !! pj = None) as Hnone.
  { apply eq_None_not_Some. intros Hl. apply Hfree. by apply (c_in_use _ _ _ _ _ _ _ HC). }
  set (j1 := MkJob None (c_pjq c) 0 (c_ejt c) true EjsInit (Some (c_job c))).
  exists pj. unfold Add. simpl. fold j1. rewrite lookup_insert_eq. simpl.
  unfold Schedule. simpl. rewrite lookup_insert_eq. simpl.
  change (with_parent j1 None) with j1. eexists. split; [done|]. unfold put. simpl.
  rewrite !insert_insert_eq.
  assert (view (s_jobs st) !! pj = None) as Hvn by by rewrite view_lookup, Hnone.
  assert (view (<[pj := with_ejs j1 EjsWaiting]> (s_jobs st)) =
          <[pj := (None, c_pjq c, Some (c_job c))]> (view (s_jobs st))) as Hv
    by (unfold view; by rewrite fmap_insert).
  split; [|done].
  destruct (Queues_insert (s_queues st) (view (s_jobs st)) pj (c_pjq c) (Some (c_job c)) HQ Hvn)
    as [HQ' Hx'].
  split; unfold SCore, put; simpl; rewrite ?insert_insert_eq, Hv; [|done].
  apply (Core_ext (extra (s_queues st) (view (s_jobs st)))); [intros y; by rewrite Hx'|].
  eapply (Core_insert _ ∅ [] 0 _ _ _ f' pj j1) in HC; try done.
  eapply (Core_wait _ _ _ _ _ _ _ pj j1) in HC; [|set_solver|by rewrite lookup_insert_eq|done].
  rewrite insert_insert_eq in HC.
  replace (({[pj]} ∪ ∅) ∖ {[pj]}) with (∅ : gset (job_address S)) in HC by set_solver.
  exact HC.
Qed.

(** ** Properties *)

(** C19: a round of [CScheduler::ExecuteJobs] never violates an assert and never
    touches a job that was released: between two rounds, either no job is
    waiting, or the first one can be retrieved, run and put away, and the
    invariant of counters, states, lists and queues holds again. *)
Theorem round_safe (st : state) :
  completes_alone -> Inv st ->
  exists next st1, PjRetrieve st = Some (next, st1) /\
    match next with
    | None => Inv st1 /\ m_listjlWaiting (s_sched st) = []
    | Some pj => exists st', execute_job st1 pj = Some st' /\ Inv st'
    end.
Proof.
  intros Hdone HI. destruct (m_listjlWaiting (s_sched st)) as [|a rest] eqn:Hw.
  - unfold PjRetrieve. rewrite Hw. eexists None, _. split; [done|]. split; [|done]. by destruct HI.
  - destruct (round_spec st a rest Hdone HI Hw) as (st1 & b & st' & Hr & Hex & _ & _ & HI').
    exists (Some a), st1. split; [done|]. by exists st'.
Qed.

(** C18: the scheduler loses no wake-up: when the jobs use up their work and wait
    along a rank (children below their parent, one rank for the jobs of a queue),
    [ExecuteJobs] ends, and then every job has completed and was released, no
    queue holds a job, and the scheduler is empty. *)
Theorem ExecuteJobs_completes (weight : B -> nat) (pot : W -> nat)
    (rank : B -> nat) (qrank : N -> nat) (st : state) :
  completes_alone -> consumes_work weight pot -> descends rank qrank ->
  Inv st -> Ranked rank qrank (view (s_jobs st)) ->
  exists st', ExecuteJobs (Datatypes.S (potential weight pot st)) st = Some st' /\
    s_jobs st' = ∅ /\ m_ulpTotal (s_sched st') = 0 /\ m_ulpRunning (s_sched st') = 0 /\
    (forall q, m_listjQueued (queue_at st' q) = []) /\
    forall pj, ~ job_in_use (s_factory st') pj.
Proof.
  intros Hdone Hwork Hdesc HI HR.
  destruct (ExecuteJobs_ends weight pot _ st Hdone Hwork HI (Nat.lt_succ_diag_r _))
    as (st' & Hex & HI' & Hw).
  pose proof (ExecuteJobs_ranked rank qrank _ _ _ Hdone Hdesc HI HR Hex) as HR'.
  pose proof (no_deadlock rank qrank st' HI' HR' Hw) as Hempty.
  exists st'. split; [done|]. split; [done|]. destruct HI' as [HC HQ].
  pose proof (c_total _ _ _ _ _ _ _ HC) as Ht. rewrite Hempty in Ht.
  split; [done|]. split; [apply (c_running _ _ _ _ _ _ _ HC)|]. split.
  - intros q. destruct (m_listjQueued (queue_at st' q)) as [|y l] eqn:Hl; [done|].
    destruct (v_queue_live (view (s_jobs st')) y q) as [e He].
    { apply (q_live _ _ HQ). unfold queue_at in Hl. rewrite Hl. left. }
    by rewrite view_lookup, Hempty in He.
  - intros pj [j Hj]%(c_in_use _ _ _ _ _ _ _ HC). by rewrite Hempty in Hj.
Qed.

(** a job queue forces unique execution: in the round of a job with a queue,
    the job's own work is done exactly when the work of the queue is not done and
    no other job has it in hand; a job that comes too late completes without
    running, one that finds another at work is suspended behind it, and when the
    main job is done every job behind it has completed. *)
Theorem queue_runs_once (st : state) (a : job_address S) (rest : list (job_address S)) (q : N) :
  completes_alone -> Inv st -> m_listjlWaiting (s_sched st) = a :: rest ->
  v_queue (view (s_jobs st)) a = Some q ->
  exists st1 b st', PjRetrieve st = Some (Some a, st1) /\ execute_job st1 a = Some st' /\
    v_job (view (s_jobs st)) a = Some b /\
    let o := body (s_world st) b in
    if m_fCompleted (queue_at st q) then
      s_world st' = s_world st /\ s_jobs st' !! a = None /\ m_fCompleted (queue_at st' q) = true
    else if decide (m_pj (queue_at st q) = None \/ m_pj (queue_at st q) = Some a) then
      s_world st' = o_world o /\
      if o_completed o then
        m_fCompleted (queue_at st' q) = true /\
        forall y, y ∈ a :: m_listjQueued (queue_at st q) -> s_jobs st' !! y = None
      else m_fCompleted (queue_at st' q) = false /\ m_pj (queue_at st' q) = Some a
    else
      s_world st' = s_world st /\ view (s_jobs st') = view (s_jobs st) /\
      m_fCompleted (queue_at st' q) = false /\ m_pj (queue_at st' q) = m_pj (queue_at st q).
Proof.
  intros Hdone HI Hw Hq.
  destruct (round_spec st a rest Hdone HI Hw) as (st1 & b & st' & Hr & Hex & Hb & Has & _).
  exists st1, b, st'. do 3 (split; [done|]). cbv zeta.
  assert (forall y, view (s_jobs st') !! y = None -> s_jobs st' !! y = None) as Hgone.
  { intros y. rewrite view_lookup. by destruct (s_jobs st' !! y). }
  destruct Has as [Hm Hh Hran Ho Hwd _|v1 n Hm Hs Hran Ho _ Ha _ Hwd _|Hwb Hv Hwd _|Htl Hv Hwd _].
  - destruct (Hm q Hq) as [-> Hmain]. rewrite decide_True, Ho by done. auto.
  - destruct (Hm q Hq) as [-> Hmain]. destruct (Hs q Hq) as [Hc Hout].
    rewrite decide_True, Ho by done. split; [done|]. split; [done|].
    intros y [->|Hy]%elem_of_cons; apply Hgone; [done|].
    destruct (decide (y = a)) as [->|]; auto.
  - destruct Hwb as (q' & m & Hq' & Hma & Hc & Hm & Hc' & Hm').
    assert (q' = q) as -> by congruence. rewrite Hc, decide_False by naive_solver.
    rewrite Hm, Hm'. auto.
  - destruct Htl as (q' & Hq' & Hc & Hc'). assert (q' = q) as -> by congruence. rewrite Hc.
    split; [done|]. split; [|done]. apply Hgone. rewrite Hv. apply lookup_delete_eq.
Qed.

End scheduler.

(** ** An example *)

(** Jobs on levels: a job writes its level down and asks twice for the level below;
    the jobs of a level share a queue. *)
Module Levels.

Definition level_job : Type := nat * bool.

Definition level_child (n : nat) : @child level_job :=
  MkChild EjtGroupExploration (Some (N.of_nat n)) (n, false).

Definition level_body (w : list nat) (b : level_job) : outcome :=
  match b with
  | (n, true) => MkOutcome w b [] true
  | (O, false) => MkOutcome (O :: w) b [] true
  | (Datatypes.S n, false) =>
      MkOutcome (Datatypes.S n :: w) (Datatypes.S n, true) [level_child n; level_child n] false
  end.

Definition level_weight (b : level_job) : nat :=
  if snd b then 0%nat else (5 * (2 ^ fst b - 1))%nat.
Definition level_rank (b : level_job) : nat := fst b.
Definition level_qrank (q : N) : nat := N.to_nat q.

Definition level_state : Type :=
  @state SyncPool.CSyncPool SyncPool.slot _ _ (list nat) level_job.

Definition level_start : level_state := start 4 [].

Definition level_root : @child level_job := MkChild EjtGroupOptimization (Some 2) (2%nat, false).

Definition level_ready : level_state := default level_start (ScheduleJob level_start level_root None).

Lemma level_alone : completes_alone level_body.
Proof. by intros w [[|n] []]. Qed.

Lemma level_work : consumes_work level_body level_weight (fun _ => 0%nat).
Proof.
  intros w [[|n] []]; unfold level_weight, children_weight; cbn -[Nat.mul Nat.pow]; try lia.
  rewrite Nat.pow_succ_r'. pose proof (Nat.pow_nonzero 2 n). lia.
Qed.

Lemma level_descends : descends level_body level_rank level_qrank.
Proof.
  intros w [[|n] []]; simpl; (split; [done|]); intros c Hc;
    try (by apply elem_of_nil in Hc).
  assert (c = level_child n) as -> by set_solver. unfold level_rank. simpl. split; [lia|].
  intros q [= <-]. unfold level_qrank. lia.
Qed.

Lemma level_ready_ok :
  Inv level_ready /\ Ranked level_rank level_qrank (view (s_jobs level_ready)) /\
  exists pj, view (s_jobs level_ready) = {[pj := (None, Some 2, Some (2%nat, false))]}.
Proof.
  destruct (ScheduleJob_root level_start level_root (start_Inv 4 [] ltac:(lia)))
    as (pj & st & Hst & HI & _ & Hv & _).
  unfold level_ready. rewrite Hst. split; [done|].
  assert (view (s_jobs level_start) = ∅) as Hempty by apply fmap_empty.
  change (default level_start (Some st)) with st. rewrite Hv, Hempty. split; [|by exists pj].
  apply Ranked_insert; [|apply lookup_empty|done|by intros q' [= <-]].
  split; intros y ? ? ? Hy; by rewrite lookup_empty in Hy.
Qed.

(** Of the five jobs three run, one on each level. *)
Example levels_once :
  (fun st => (s_world st, m_ulpStatsCompleted (s_stats st))) <$>
  ExecuteJobs level_body 100 level_ready = Some ([0; 1; 2]%nat, 5).
Proof. by vm_compute. Qed.

End Levels.

Lemma round_safe_witness :
  exists next st1, PjRetrieve Levels.level_ready = Some (next, st1) /\
    match next with
    | None => Inv st1 /\ m_listjlWaiting (s_sched Levels.level_ready) = []
    | Some pj => exists st', execute_job Levels.level_body st1 pj = Some st' /\ Inv st'
    end.
Proof.
  apply (round_safe Levels.level_body Levels.level_ready Levels.level_alone).
  apply Levels.level_ready_ok.
Defined.

Lemma ExecuteJobs_completes_witness :
  exists st', ExecuteJobs Levels.level_body
      (Datatypes.S (potential Levels.level_weight (fun _ => 0%nat) Levels.level_ready))
      Levels.level_ready = Some st' /\
    s_jobs st' = ∅ /\ m_ulpTotal (s_sched st') = 0 /\ m_ulpRunning (s_sched st') = 0 /\
    (forall q, m_listjQueued (queue_at st' q) = []) /\
    forall pj, ~ job_in_use (s_factory st') pj.
Proof.
  destruct Levels.level_ready_ok as (HI & HR & _).
  exact (ExecuteJobs_completes Levels.level_body Levels.level_weight (fun _ => 0%nat)
           Levels.level_rank Levels.level_qrank Levels.level_ready
           Levels.level_alone Levels.level_work Levels.level_descends HI HR).
Defined.

Lemma queue_runs_once_witness :
  exists st1 b st',
    PjRetrieve Levels.level_ready = Some (Some (EjtGroupOptimization, SyncPool.SArray 0), st1) /\
    execute_job Levels.level_body st1 (EjtGroupOptimization, SyncPool.SArray 0) = Some st' /\
    v_job (view (s_jobs Levels.level_ready)) (EjtGroupOptimization, SyncPool.SArray 0) = Some b /\
    s_world st' = o_world (Levels.level_body (s_world Levels.level_ready) b).
Proof.
  destruct (queue_runs_once Levels.level_body Levels.level_ready
              (EjtGroupOptimization, SyncPool.SArray 0) [] 2 Levels.level_alone
              (proj1 Levels.level_ready_ok)) as (st1 & b & st' & H1 & H2 & H3 & H4);
    [by vm_compute..|].
  exists st1, b, st'. do 3 (split; [done|]). cbv zeta in H4.
  replace (m_fCompleted (queue_at Levels.level_ready 2)) with false in H4 by by vm_compute.
  rewrite decide_True in H4 by (left; by vm_compute). apply H4.
Defined.
