(* ===== verification/JobMachine.v ===== *)
(** The state machine of the optimization jobs: [CStateMachine]
    (libgpopt/include/gpopt/base/CStateMachine.h) and [CJobStateMachine]
    (libgpopt/include/gpopt/search/CJobStateMachine.h).

    The actions of a job run in a state and error monad over what a job reaches
    while it runs: the world the jobs share, its own fields, and the jobs it has
    added.  A violated assert is an outcome of its own, and so is running out of
    the fuel that bounds the loop of [FRun]. *)

From S2P Require Import Prelude.
From stdpp Require Import finite.

(** ** Actions *)

Inductive result (A : Type) : Type :=
  | Done (a : A)
  | AssertFailed
  | OutOfFuel.
Arguments Done {A} a.
Arguments AssertFailed {A}.
Arguments OutOfFuel {A}.

(** [x_children]: the jobs added so far, in the order in which they are added. *)
Record context (W J K : Type) := MkContext {
  x_world : W;
  x_job : J;
  x_children : list K;
}.
Arguments MkContext {W J K}.
Arguments x_world {W J K}.
Arguments x_job {W J K}.
Arguments x_children {W J K}.

Definition action (W J K A : Type) : Type := context W J K -> result (A * context W J K).

#[export] Instance action_ret W J K : MRet (action W J K) := fun A a x => Done (a, x).
#[export] Instance action_bind W J K : MBind (action W J K) := fun A B k m x =>
  match m x with
  | Done (a, x) => k a x
  | AssertFailed => AssertFailed
  | OutOfFuel => OutOfFuel
  end.

Section actions.
Context {W J K : Type}.

Definition get_world : action W J K W := fun x => Done (x_world x, x).
Definition get_job : action W J K J := fun x => Done (x_job x, x).
Definition set_world (w : W) : action W J K unit :=
  fun x => Done (tt, MkContext w (x_job x) (x_children x)).
Definition set_job (j : J) : action W J K unit :=
  fun x => Done (tt, MkContext (x_world x) j (x_children x)).
Definition add_child (c : K) : action W J K unit :=
  fun x => Done (tt, MkContext (x_world x) (x_job x) (x_children x ++ [c])).
(** A lookup that the code takes for granted, or a step of the world with an
    assert. *)
Definition expect {A} (o : option A) : action W J K A :=
  fun x => match o with Some a => Done (a, x) | None => AssertFailed end.
Definition gpos_assert (Q : Prop) `{Decision Q} : action W J K unit :=
  expect (if decide Q then Some tt else None).

End actions.

(** ** CStateMachine *)

Section machine.
Context {St Ev : Type} `{Finite St} `{EqDecision Ev}.

(** A row for each state, a column for each state; [None] is the sentinel. *)
Definition transitions : Type := list (list (option Ev)).

Definition TesInitial : option St := head (enum St).
Definition TesFinal : option St := last (enum St).

Definition state_index (est : St) : nat := default 0%nat (fst <$> list_find (eq est) (enum St)).

Definition row (rgeev : transitions) (est : St) : list (option Ev) :=
  default [] (rgeev !! state_index est).

(** The first column of the row that holds the event. *)
Definition FAttemptTransition (rgeev : transitions) (est : St) (eev : Ev) : option St :=
  '(column, _) ← list_find (eq (Some eev)) (row rgeev est);
  enum St !! column.

(** The edges of the diagram, as [Walk] visits them. *)
Definition edges (rgeev : transitions) : list (St * St * Ev) :=
  sink ← enum St;
  source ← enum St;
  match mjoin (row rgeev source !! state_index sink) with
  | Some eev => [(source, sink, eev)]
  | None => []
  end.

(** [Unreachable]: the states no edge from another state leads to.  The initial
    state counts as unreachable when no state leads back to it. *)
Definition Unreachable (rgeev : transitions) : list St :=
  filter (fun est => Forall (fun edge => edge.1.2 = est -> edge.1.1 = est) (edges rgeev)) (enum St).

(** ** CJobStateMachine *)

Context {W J K : Type} (rgeev : transitions).
(** The state of the machine in the fields of the job, its actions, with none for
    the final state, the clock and [Cleanup]. *)
Context (Estate : J -> St) (with_state : St -> J -> J).
Context (rgPfuncAction : St -> option (action W J K Ev)).
Context (FTimedOut : action W J K bool) (Cleanup : action W J K unit).

Fixpoint FRun (fuel : nat) : action W J K bool :=
  match fuel with
  | O => fun _ => OutOfFuel
  | Datatypes.S fuel =>
      timed_out ← FTimedOut;
      if timed_out : bool then _ ← Cleanup; mret true else
      j ← get_job;
      let estCurrent := Estate j in
      pfunc ← expect (rgPfuncAction estCurrent);
      eev ← pfunc;
      estNext ← expect (FAttemptTransition rgeev estCurrent eev);
      j ← get_job;
      _ ← set_job (with_state estNext j);
      if decide (estNext = estCurrent) then mret (bool_decide (Some estNext = TesFinal))
      else if decide (Some estNext = TesFinal) then mret true
      else FRun fuel
  end.

(** ** What a run does *)

(** [mu] bounds the transitions that are left. *)
Context (mu : J -> nat).

(** The event of an action is one of the row of its state; an action that adds
    jobs stays in its state; every other transition is progress. *)
Definition well_behaved (est : St) (a : action W J K Ev) : Prop :=
  forall x, Estate (x_job x) = est ->
    match a x with
    | Done (eev, x') => exists next, FAttemptTransition rgeev est eev = Some next /\
        (next = est \/
         x_children x' = x_children x /\
         (Some next = TesFinal \/ (mu (with_state next (x_job x')) < mu (x_job x))%nat))
    | AssertFailed => True
    | OutOfFuel => False
    end.

(** The clock and [Cleanup] touch neither the job nor its children. *)
Definition keeps_job {A} (a : action W J K A) : Prop :=
  forall x, exists y x', a x = Done (y, x') /\ x_job x' = x_job x /\ x_children x' = x_children x.

(** The loop ends within [mu] rounds, and a run that says the job is done has
    added no jobs. *)
Lemma FRun_ok fuel x :
  (forall est a, rgPfuncAction est = Some a -> well_behaved est a) ->
  (forall est, Some est = TesFinal -> rgPfuncAction est = None) ->
  keeps_job FTimedOut -> keeps_job Cleanup ->
  (mu (x_job x) < fuel)%nat ->
  match FRun fuel x with
  | Done (completed, x') => completed = true -> x_children x' = x_children x
  | AssertFailed => True
  | OutOfFuel => False
  end.
Proof.
  intros Hact Hfin Hclock Hclean. revert x. induction fuel as [|fuel IH]; intros x Hmu; [lia|].
  cbn -[FAttemptTransition TesFinal]. unfold mbind, action_bind.
  destruct (Hclock x) as (timed_out & x1 & -> & Hj1 & Hc1). destruct timed_out.
  { destruct (Hclean x1) as (u & x2 & -> & _ & Hc2). cbn. intros _. congruence. }
  cbn -[FAttemptTransition TesFinal]. unfold expect. rewrite Hj1.
  destruct (rgPfuncAction (Estate (x_job x))) as [a|] eqn:Ha; [|done].
  pose proof (Hact _ a Ha x1 ltac:(by rewrite Hj1)) as Hwb.
  destruct (a x1) as [[eev x2]| |]; [|done..].
  destruct Hwb as (next & -> & Hnext). cbn -[TesFinal].
  destruct (decide (next = Estate (x_job x))) as [->|Hne].
  { cbn -[TesFinal]. intros Hf%bool_decide_eq_true_1. by rewrite (Hfin _ Hf) in Ha. }
  destruct Hnext as [?|[Hc2 Hnext]]; [done|].
  destruct (decide (Some next = TesFinal)) as [Hf|Hf]; [cbn; congruence|].
  destruct Hnext as [?|Hlt]; [done|].
  specialize (IH (MkContext (x_world x2) (with_state next (x_job x2)) (x_children x2))).
  cbn [x_job x_children] in IH. rewrite Hj1 in Hlt. specialize (IH ltac:(lia)).
  destruct (FRun fuel _) as [[c x3]| |]; [|done..]. intros Hc. rewrite IH by done. congruence.
Qed.

(** One round of the loop, when the clock has not run out. *)
Lemma FRun_step fuel x a eev x1 next :
  FTimedOut x = Done (false, x) -> rgPfuncAction (Estate (x_job x)) = Some a ->
  a x = Done (eev, x1) -> FAttemptTransition rgeev (Estate (x_job x)) eev = Some next ->
  let x2 := MkContext (x_world x1) (with_state next (x_job x1)) (x_children x1) in
  FRun (Datatypes.S fuel) x =
    if decide (next = Estate (x_job x)) then Done (bool_decide (Some next = TesFinal), x2)
    else if decide (Some next = TesFinal) then Done (true, x2) else FRun fuel x2.
Proof.
  intros Hclock Ha Hx Hnext x2. cbn -[FAttemptTransition TesFinal]. unfold mbind, action_bind.
  rewrite Hclock. cbn -[FAttemptTransition TesFinal]. unfold expect. rewrite Ha, Hx.
  cbn -[FAttemptTransition TesFinal]. rewrite Hnext. cbn -[FAttemptTransition TesFinal].
  unfold action_bind, set_job.
  destruct (decide _); [done|]. by destruct (decide _).
Qed.

End machine.
