(* ===== verification/SearchState.v ===== *)
(** What the exploration and implementation jobs see of the memo and the engine:
    the states of groups and group expressions (libgpopt/src/search/CGroup.cpp,
    CGroupExpression.cpp, CGroupProxy.cpp), and, as an interface, the engine
    behind them.

    The structure of the memo is that of the file MemoGroups, reduced to what the
    jobs read; here groups and expressions also have the states the jobs move
    them through. *)

From S2P Require Import Prelude NodeSet Expression.
From S2P Require Import JobMachine.
From stdpp Require Import finite.
Local Open Scope N_scope.

(** ** States *)

Module CGroup.
Inductive EState : Type :=
  | estUnexplored | estExploring | estExplored | estImplementing | estImplemented
  | estOptimizing | estOptimized.
End CGroup.

Module CGroupExpression.
Inductive EState : Type :=
  | estUnexplored | estExploring | estExplored | estImplementing | estImplemented.
Inductive EDPHyperStatus : Type :=
  | EdphUnrequested | EdphScheduled | EdphSucceeded | EdphFallback | EdphNativeFallback.
End CGroupExpression.

#[export] Instance CGroup_EState_eq_dec : EqDecision CGroup.EState.
Proof. solve_decision. Defined.
#[export] Instance CGroupExpression_EState_eq_dec : EqDecision CGroupExpression.EState.
Proof. solve_decision. Defined.
#[export] Instance EDPHyperStatus_eq_dec : EqDecision CGroupExpression.EDPHyperStatus.
Proof. solve_decision. Defined.

(** The values of the enumerators. *)
Definition group_number (est : CGroup.EState) : N :=
  match est with
  | CGroup.estUnexplored => 0 | CGroup.estExploring => 1 | CGroup.estExplored => 2
  | CGroup.estImplementing => 3 | CGroup.estImplemented => 4
  | CGroup.estOptimizing => 5 | CGroup.estOptimized => 6
  end.
Definition gexpr_number (est : CGroupExpression.EState) : N :=
  match est with
  | CGroupExpression.estUnexplored => 0 | CGroupExpression.estExploring => 1
  | CGroupExpression.estExplored => 2 | CGroupExpression.estImplementing => 3
  | CGroupExpression.estImplemented => 4
  end.

(** ** Data *)

(** A group expression as the jobs see it; [ge_circular] is
    [m_ecirculardependency]. *)
Record gexpr := MkGexpr {
  ge_pop : COperator;
  ge_children : list N;
  ge_group : N;
  ge_estate : CGroupExpression.EState;
  ge_edph : CGroupExpression.EDPHyperStatus;
  ge_circular : bool;
}.

Record group := MkGroup {
  gr_scalar : bool;
  gr_duplicate : option N;
  gr_gexprs : list N;
  gr_estate : CGroup.EState;
}.

(** [s_clock]: the answers of the next calls of [CSearchStage::FTimedOut];
    [s_xforms]: the calls of [InsertXformResult], the last one first, as
    expression and transformation; [s_rest]: the state of the engine behind the
    memo. *)
Record search (R : Type) := MkSearch {
  s_groups : gmap N group;
  s_gexprs : gmap N gexpr;
  s_root : N;
  s_clock : list bool;
  s_xforms : list (N * N);
  s_rest : R;
}.
Arguments MkSearch {R}.
Arguments s_groups {R}.
Arguments s_gexprs {R}.
Arguments s_root {R}.
Arguments s_clock {R}.
Arguments s_xforms {R}.
Arguments s_rest {R}.

(** What the jobs ask of the engine and the operators.  [xform_results e x]:
    [CGroupExpression::Transform] with [CEngine::InsertXformResult];
    [enumerate_region e]: [CJobJoinEnumeration::FEnumerate], with the groups it
    adds to [m_intermediate_groups] and the new value of
    [m_native_fallback_materialized]. *)
Class SearchEngine (R : Type) := {
  FLogicalApply : COperator -> bool;
  DeriveChildHasSubquery : search R -> N -> N -> bool;
  PxfsCandidates : COperator -> list N;
  PxfsExploration : list N;
  PxfsImplementation : list N;
  PxfsCurrentStage : search R -> list N;
  DPHyperShadow : bool;
  xform_results : N -> N -> search R -> search R;
  FinalizeExploration : search R -> search R;
  FinalizeImplementation : search R -> search R;
  enumerate_region : N -> search R -> bool * bool * list N * search R;
}.

Section search.
Context {R : Type} `{HO : OperatorIdentity} `{HE : SearchEngine R}.
Implicit Types (w : search R) (g e : N).

Definition put_group (g : N) (gr : group) w : search R :=
  MkSearch (<[g := gr]> (s_groups w)) (s_gexprs w) (s_root w) (s_clock w) (s_xforms w) (s_rest w).
Definition put_gexpr (e : N) (ge : gexpr) w : search R :=
  MkSearch (s_groups w) (<[e := ge]> (s_gexprs w)) (s_root w) (s_clock w) (s_xforms w) (s_rest w).
Definition set_clock (clock : list bool) w : search R :=
  MkSearch (s_groups w) (s_gexprs w) (s_root w) clock (s_xforms w) (s_rest w).
Definition log_xform (e x : N) w : search R :=
  MkSearch (s_groups w) (s_gexprs w) (s_root w) (s_clock w) ((e, x) :: s_xforms w) (s_rest w).

Definition with_group_state (est : CGroup.EState) (gr : group) : group :=
  MkGroup (gr_scalar gr) (gr_duplicate gr) (gr_gexprs gr) est.
Definition with_gexpr_state (est : CGroupExpression.EState) (ge : gexpr) : gexpr :=
  MkGexpr (ge_pop ge) (ge_children ge) (ge_group ge) est (ge_edph ge) (ge_circular ge).
Definition with_edph (edph : CGroupExpression.EDPHyperStatus) (ge : gexpr) : gexpr :=
  MkGexpr (ge_pop ge) (ge_children ge) (ge_group ge) (ge_estate ge) edph (ge_circular ge).
Definition with_circular (ge : gexpr) : gexpr :=
  MkGexpr (ge_pop ge) (ge_children ge) (ge_group ge) (ge_estate ge) (ge_edph ge) true.

(** ** Group states *)

Definition CGroup_FExplored (gr : group) : bool :=
  group_number CGroup.estExplored <=? group_number (gr_estate gr).
Definition CGroup_FImplemented (gr : group) : bool :=
  group_number CGroup.estImplemented <=? group_number (gr_estate gr).

(** [CGroup::SetState]; [None] is the violated assert. *)
Definition CGroup_SetState (g : N) (est : CGroup.EState) w : option (search R) :=
  gr ← s_groups w !! g;
  if group_number est =? group_number (gr_estate gr) + 1
  then Some (put_group g (with_group_state est gr) w) else None.

(** ** Expression states *)

Definition CGroupExpression_FExplored (ge : gexpr) : bool :=
  gexpr_number CGroupExpression.estExplored <=? gexpr_number (ge_estate ge).
Definition CGroupExpression_FImplemented (ge : gexpr) : bool :=
  bool_decide (CGroupExpression.estImplemented = ge_estate ge).

Definition CGroupExpression_SetState (e : N) (est : CGroupExpression.EState) w : option (search R) :=
  ge ← s_gexprs w !! e;
  if gexpr_number est =? gexpr_number (ge_estate ge) + 1
  then Some (put_gexpr e (with_gexpr_state est ge) w) else None.

(** [CGroupExpression::FTransitioned], for the two states its assert allows. *)
Definition FTransitioned_explored (ge : gexpr) : bool :=
  negb (FLogical (ge_pop ge)) || CGroupExpression_FExplored ge.
Definition FTransitioned_implemented (ge : gexpr) : bool :=
  negb (FLogical (ge_pop ge)) || CGroupExpression_FImplemented ge.

(** The transitions the assert of [CGroupExpression::SetDPHyperStatus] allows. *)
Definition edph_step (edph status : CGroupExpression.EDPHyperStatus) : bool :=
  match edph, status with
  | CGroupExpression.EdphUnrequested, CGroupExpression.EdphScheduled => true
  | CGroupExpression.EdphScheduled, CGroupExpression.EdphSucceeded
  | CGroupExpression.EdphScheduled, CGroupExpression.EdphFallback
  | CGroupExpression.EdphScheduled, CGroupExpression.EdphNativeFallback => true
  | _, _ => false
  end.

Definition SetDPHyperStatus (e : N) (status : CGroupExpression.EDPHyperStatus) w
    : option (search R) :=
  ge ← s_gexprs w !! e;
  if edph_step (ge_edph ge) status then Some (put_gexpr e (with_edph status ge) w) else None.

(** ** The children of an expression *)

(** [CGroupExpression::operator[]] for the child [c]: a group that merging has
    emptied stands for its duplicate; [None] is the violated assert. *)
Definition child_group (c : N) w : option N :=
  gr ← s_groups w !! c;
  if bool_decide (gr_gexprs gr = []) then gr_duplicate gr else Some c.

Definition child_groups (ge : gexpr) w : option (list N) := mapM (fun c => child_group c w) (ge_children ge).

(** Children that merging has not emptied are what they are. *)
Lemma child_groups_unmerged ge w :
  (forall c, c ∈ ge_children ge -> exists gr, s_groups w !! c = Some gr /\ gr_gexprs gr <> []) ->
  child_groups ge w = Some (ge_children ge).
Proof.
  unfold child_groups. induction (ge_children ge) as [|c l IH]; intros Hc; [done|]. cbn [mapM].
  assert (child_group c w = Some c) as ->.
  { destruct (Hc c ltac:(left)) as (gr & Hg & Hn). unfold child_group. rewrite Hg. simpl. by rewrite bool_decide_eq_false_2. }
  cbn [mbind option_bind]. by rewrite IH by (intros; apply Hc; by right).
Qed.

(** ** The expressions of a group *)

(** The expressions that [PgexprNext] goes through after [e]. *)
Fixpoint after (l : list N) (e : N) : list N :=
  match l with
  | [] => []
  | x :: l => if x =? e then l else after l e
  end.

(** From the first unscheduled expression on: [CJobGroup::PgexprFirstUnschedLogical]. *)
Definition PgexprFirstUnschedLogical (l : list N) (last : option N) : list N :=
  match last with None => l | Some e => after l e end.

(** [CGroupExpression::ContainsCircularDependencies], as far as the first child
    that closes a cycle; the assert on the number of expressions of the group. *)
Fixpoint closes_circle (g : N) (children : list N) w : option bool :=
  match children with
  | [] => Some false
  | c :: children =>
      child ← s_groups w !! c;
      if gr_scalar child then closes_circle g children w
      else if (c =? g) || bool_decide (gr_duplicate child = Some g) then
        gr ← s_groups w !! g;
        if (1 <? length (gr_gexprs gr))%nat then Some true else None
      else closes_circle g children w
  end.

Definition ContainsCircularDependencies (e : N) w : option (bool * search R) :=
  ge ← s_gexprs w !! e;
  if ge_circular ge then Some (true, w)
  else
    circular ← closes_circle (ge_group ge) (ge_children ge) w;
    Some (circular, if circular : bool then put_gexpr e (with_circular ge) w else w).

End search.
