(* ===== verification/SearchJobs.v ===== *)
(** The exploration and implementation jobs (libgpopt/src/search/CJobGroup*.cpp,
    CJobTransformation.cpp, and the job shell of CJobJoinEnumeration.cpp): their
    state machines, their actions, and [run], the body the scheduler runs.

    The optimization jobs ([CJobGroupOptimization],
    [CJobGroupExpressionOptimization]) are in this file with their transition
    tables only. *)

From S2P Require Import Prelude NodeSet Expression SyncPool JobFactory Scheduler.
From S2P Require Import JobMachine SearchState.
From stdpp Require Import finite.
Local Open Scope N_scope.

(** ** States, events and transition tables *)

Module CJobGroupExploration.
Inductive EEvent : Type := eevStartedExploration | eevNewChildren | eevExplored.
Inductive EState : Type := estInitialized | estExploringChildren | estCompleted.
Definition rgeev : list (list (option EEvent)) :=
  [ [None; Some eevStartedExploration; None];
    [None; Some eevNewChildren; Some eevExplored];
    [None; None; None] ].
Definition states : list EState := [estInitialized; estExploringChildren; estCompleted].
End CJobGroupExploration.

Module CJobGroupImplementation.
Inductive EEvent : Type := eevExploring | eevExplored | eevImplementing | eevImplemented.
Inductive EState : Type := estInitialized | estImplementingChildren | estCompleted.
Definition rgeev : list (list (option EEvent)) :=
  [ [Some eevExploring; Some eevExplored; None];
    [None; Some eevImplementing; Some eevImplemented];
    [None; None; None] ].
Definition states : list EState := [estInitialized; estImplementingChildren; estCompleted].
End CJobGroupImplementation.

Module CJobGroupOptimization.
Inductive EEvent : Type :=
  | eevImplementing | eevImplemented | eevOptimizing | eevOptimizedCurrentLevel | eevOptimized.
Inductive EState : Type :=
  | estInitialized | estOptimizingChildren | estDampingOptimizationLevel | estCompleted.
Definition rgeev : list (list (option EEvent)) :=
  [ [Some eevImplementing; Some eevImplemented; None; Some eevOptimized];
    [None; Some eevOptimizing; Some eevOptimizedCurrentLevel; None];
    [None; Some eevOptimizing; None; Some eevOptimized];
    [None; None; None; None] ].
Definition states : list EState := [estInitialized; estOptimizingChildren; estDampingOptimizationLevel; estCompleted].
End CJobGroupOptimization.

Module CJobGroupExpressionExploration.
Inductive EEvent : Type :=
  | eevExploringChildren | eevChildrenExplored | eevExploringSelf | eevSelfExplored | eevFinalized.
Inductive EState : Type :=
  | estInitialized | estChildrenExplored | estSelfExplored | estCompleted.
Definition rgeev : list (list (option EEvent)) :=
  [ [Some eevExploringChildren; Some eevChildrenExplored; None; None];
    [None; Some eevExploringSelf; Some eevSelfExplored; None];
    [None; None; None; Some eevFinalized];
    [None; None; None; None] ].
Definition states : list EState := [estInitialized; estChildrenExplored; estSelfExplored; estCompleted].
End CJobGroupExpressionExploration.

Module CJobGroupExpressionImplementation.
Inductive EEvent : Type :=
  | eevImplementingChildren | eevChildrenImplemented | eevImplementingSelf | eevSelfImplemented
  | eevFinalized.
Inductive EState : Type :=
  | estInitialized | estChildrenImplemented | estSelfImplemented | estCompleted.
Definition rgeev : list (list (option EEvent)) :=
  [ [Some eevImplementingChildren; Some eevChildrenImplemented; None; None];
    [None; Some eevImplementingSelf; Some eevSelfImplemented; None];
    [None; None; None; Some eevFinalized];
    [None; None; None; None] ].
Definition states : list EState := [estInitialized; estChildrenImplemented; estSelfImplemented; estCompleted].
End CJobGroupExpressionImplementation.

Module CJobGroupExpressionOptimization.
Inductive EEvent : Type :=
  | eevOptimizingChildren | eevChildrenOptimized | eevCheckingEnfdProps | eevOptimizingSelf
  | eevSelfOptimized | eevFinalized.
Inductive EState : Type :=
  | estInitialized | estOptimizingChildren | estChildrenOptimized | estEnfdPropsChecked
  | estSelfOptimized | estCompleted.
Definition rgeev : list (list (option EEvent)) :=
  [ [None; Some eevOptimizingChildren; None; None; None; Some eevFinalized];
    [None; Some eevOptimizingChildren; Some eevChildrenOptimized; None; None; Some eevFinalized];
    [None; None; None; Some eevOptimizingSelf; None; Some eevFinalized];
    [None; None; None; Some eevOptimizingSelf; Some eevSelfOptimized; Some eevFinalized];
    [None; None; None; None; None; Some eevFinalized];
    [None; None; None; None; None; None] ].
Definition states : list EState := [estInitialized; estOptimizingChildren; estChildrenOptimized; estEnfdPropsChecked; estSelfOptimized; estCompleted].
End CJobGroupExpressionOptimization.

Module CJobTransformation.
Inductive EEvent : Type := eevCompleted.
Inductive EState : Type := estInitialized | estCompleted.
Definition rgeev : list (list (option EEvent)) :=
  [ [None; Some eevCompleted];
    [None; None] ].
Definition states : list EState := [estInitialized; estCompleted].
End CJobTransformation.

#[export] Instance gx_event_dec : EqDecision CJobGroupExploration.EEvent.
Proof. solve_decision. Defined.
#[export] Instance gx_state_dec : EqDecision CJobGroupExploration.EState.
Proof. solve_decision. Defined.
#[export] Instance gi_event_dec : EqDecision CJobGroupImplementation.EEvent.
Proof. solve_decision. Defined.
#[export] Instance gi_state_dec : EqDecision CJobGroupImplementation.EState.
Proof. solve_decision. Defined.
#[export] Instance go_event_dec : EqDecision CJobGroupOptimization.EEvent.
Proof. solve_decision. Defined.
#[export] Instance go_state_dec : EqDecision CJobGroupOptimization.EState.
Proof. solve_decision. Defined.
#[export] Instance ex_event_dec : EqDecision CJobGroupExpressionExploration.EEvent.
Proof. solve_decision. Defined.
#[export] Instance ex_state_dec : EqDecision CJobGroupExpressionExploration.EState.
Proof. solve_decision. Defined.
#[export] Instance ei_event_dec : EqDecision CJobGroupExpressionImplementation.EEvent.
Proof. solve_decision. Defined.
#[export] Instance ei_state_dec : EqDecision CJobGroupExpressionImplementation.EState.
Proof. solve_decision. Defined.
#[export] Instance eo_event_dec : EqDecision CJobGroupExpressionOptimization.EEvent.
Proof. solve_decision. Defined.
#[export] Instance eo_state_dec : EqDecision CJobGroupExpressionOptimization.EState.
Proof. solve_decision. Defined.
#[export] Instance tr_event_dec : EqDecision CJobTransformation.EEvent.
Proof. solve_decision. Defined.
#[export] Instance tr_state_dec : EqDecision CJobTransformation.EState.
Proof. solve_decision. Defined.

(** The states in the order of their enumerators. *)
Ltac enumerate l :=
  refine (Build_Finite _ _ l _ _);
    [by apply (bool_decide_unpack _); vm_compute
    |by intros []; apply (bool_decide_unpack _); vm_compute].

#[export] Instance gx_finite : Finite CJobGroupExploration.EState.
Proof. enumerate CJobGroupExploration.states. Defined.
#[export] Instance gi_finite : Finite CJobGroupImplementation.EState.
Proof. enumerate CJobGroupImplementation.states. Defined.
#[export] Instance go_finite : Finite CJobGroupOptimization.EState.
Proof. enumerate CJobGroupOptimization.states. Defined.
#[export] Instance ex_finite : Finite CJobGroupExpressionExploration.EState.
Proof. enumerate CJobGroupExpressionExploration.states. Defined.
#[export] Instance ei_finite : Finite CJobGroupExpressionImplementation.EState.
Proof. enumerate CJobGroupExpressionImplementation.states. Defined.
#[export] Instance eo_finite : Finite CJobGroupExpressionOptimization.EState.
Proof. enumerate CJobGroupExpressionOptimization.states. Defined.
#[export] Instance tr_finite : Finite CJobTransformation.EState.
Proof. enumerate CJobTransformation.states. Defined.

(** ** Jobs *)

Record CJobGroup (St : Type) := MkJobGroup {
  jg_est : St;
  m_pgroup : N;
  m_pgexprLastScheduled : option N;
}.
Arguments MkJobGroup {St}.
Arguments jg_est {St}.
Arguments m_pgroup {St}.
Arguments m_pgexprLastScheduled {St}.

Record CJobGroupExpression (St : Type) := MkJobGroupExpression {
  je_est : St;
  m_pgexpr : N;
  m_fChildrenScheduled : bool;
  m_fXformsScheduled : bool;
}.
Arguments MkJobGroupExpression {St}.
Arguments je_est {St}.
Arguments m_pgexpr {St}.
Arguments m_fChildrenScheduled {St}.
Arguments m_fXformsScheduled {St}.

Record transformation := MkTransformation {
  jt_est : CJobTransformation.EState;
  jt_pgexpr : N;
  m_xform : N;
}.

Record join_enumeration := MkJoinEnumeration {
  jj_pgexpr : N;
  m_materialized : bool;
  m_native_fallback_materialized : bool;
  m_waiting_for_exploration : bool;
  m_intermediate_groups : list N;
}.

(** The classes derived from [CJob], with their fields. *)
Inductive job : Type :=
  | JGroupExploration (j : CJobGroup CJobGroupExploration.EState)
  | JGroupImplementation (j : CJobGroup CJobGroupImplementation.EState)
  | JGroupExpressionExploration (j : CJobGroupExpression CJobGroupExpressionExploration.EState)
  | JGroupExpressionImplementation (j : CJobGroupExpression CJobGroupExpressionImplementation.EState)
  | JTransformation (j : transformation)
  | JJoinEnumeration (j : join_enumeration).

Definition with_group_est {St} (est : St) (j : CJobGroup St) : CJobGroup St :=
  MkJobGroup est (m_pgroup j) (m_pgexprLastScheduled j).
Definition with_last {St} (last : option N) (j : CJobGroup St) : CJobGroup St :=
  MkJobGroup (jg_est j) (m_pgroup j) last.
Definition with_expr_est {St} (est : St) (j : CJobGroupExpression St) : CJobGroupExpression St :=
  MkJobGroupExpression est (m_pgexpr j) (m_fChildrenScheduled j) (m_fXformsScheduled j).
Definition with_children_scheduled {St} (j : CJobGroupExpression St) : CJobGroupExpression St :=
  MkJobGroupExpression (je_est j) (m_pgexpr j) true (m_fXformsScheduled j).
Definition with_xforms_scheduled {St} (j : CJobGroupExpression St) : CJobGroupExpression St :=
  MkJobGroupExpression (je_est j) (m_pgexpr j) (m_fChildrenScheduled j) true.
Definition with_xform_est (est : CJobTransformation.EState) (j : transformation) : transformation :=
  MkTransformation est (jt_pgexpr j) (m_xform j).

(** The two job queues of a group. *)
Definition PjqExploration (g : N) : N := 2 * g.
Definition PjqImplementation (g : N) : N := 2 * g + 1.

(** Enumerators of [CXform::EXformId]. *)
Definition ExfInnerJoinCommutativity : N := 73.
Definition ExfJoinAssociativity : N := 74.
Definition ExfSemiJoinSemiJoinSwap : N := 75.
Definition ExfSemiJoinAntiSemiJoinSwap : N := 76.
Definition ExfSemiJoinAntiSemiJoinNotInSwap : N := 77.
Definition ExfSemiJoinInnerJoinSwap : N := 78.
Definition ExfAntiSemiJoinAntiSemiJoinSwap : N := 79.
Definition ExfAntiSemiJoinAntiSemiJoinNotInSwap : N := 80.
Definition ExfAntiSemiJoinSemiJoinSwap : N := 81.
Definition ExfAntiSemiJoinInnerJoinSwap : N := 82.
Definition ExfAntiSemiJoinNotInAntiSemiJoinSwap : N := 83.
Definition ExfAntiSemiJoinNotInAntiSemiJoinNotInSwap : N := 84.
Definition ExfAntiSemiJoinNotInSemiJoinSwap : N := 85.
Definition ExfAntiSemiJoinNotInInnerJoinSwap : N := 86.
Definition ExfInnerJoinSemiJoinSwap : N := 87.
Definition ExfInnerJoinAntiSemiJoinSwap : N := 88.
Definition ExfInnerJoinAntiSemiJoinNotInSwap : N := 89.
Definition ExfLeftJoin2RightJoin : N := 157.
Definition ExfFullJoinCommutativity : N := 172.
Definition ExfDPHyperJoinRegion : N := 190.

(** [CJobJoinEnumeration::FReplacesNativeXform]. *)
Definition FReplacesNativeXform (exfid : N) : bool :=
  bool_decide (exfid ∈
    [ExfInnerJoinCommutativity; ExfJoinAssociativity; ExfInnerJoinSemiJoinSwap;
     ExfInnerJoinAntiSemiJoinSwap; ExfInnerJoinAntiSemiJoinNotInSwap; ExfLeftJoin2RightJoin;
     ExfSemiJoinSemiJoinSwap; ExfSemiJoinAntiSemiJoinSwap; ExfSemiJoinAntiSemiJoinNotInSwap;
     ExfSemiJoinInnerJoinSwap; ExfAntiSemiJoinAntiSemiJoinSwap;
     ExfAntiSemiJoinAntiSemiJoinNotInSwap; ExfAntiSemiJoinSemiJoinSwap;
     ExfAntiSemiJoinInnerJoinSwap; ExfAntiSemiJoinNotInAntiSemiJoinSwap;
     ExfAntiSemiJoinNotInAntiSemiJoinNotInSwap; ExfAntiSemiJoinNotInSemiJoinSwap;
     ExfAntiSemiJoinNotInInnerJoinSwap; ExfFullJoinCommutativity]).

Definition FNativeJoinEnumerationXform (exfid : N) : bool :=
  if FReplacesNativeXform exfid then true else false.

(** The transformations the region root of an operator gives up; [None]: the
    assert of the last case. *)
Definition native_xforms (op_id : EOperatorId) : option (list N) :=
  match op_id with
  | EopLogicalInnerJoin =>
      Some [ExfInnerJoinCommutativity; ExfJoinAssociativity; ExfInnerJoinSemiJoinSwap;
            ExfInnerJoinAntiSemiJoinSwap; ExfInnerJoinAntiSemiJoinNotInSwap]
  | EopLogicalLeftOuterJoin => Some [ExfLeftJoin2RightJoin]
  | EopLogicalLeftSemiJoin =>
      Some [ExfSemiJoinSemiJoinSwap; ExfSemiJoinAntiSemiJoinSwap;
            ExfSemiJoinAntiSemiJoinNotInSwap; ExfSemiJoinInnerJoinSwap]
  | EopLogicalLeftAntiSemiJoin =>
      Some [ExfAntiSemiJoinAntiSemiJoinSwap; ExfAntiSemiJoinAntiSemiJoinNotInSwap;
            ExfAntiSemiJoinSemiJoinSwap; ExfAntiSemiJoinInnerJoinSwap]
  | EopLogicalLeftAntiSemiJoinNotIn =>
      Some [ExfAntiSemiJoinNotInAntiSemiJoinSwap; ExfAntiSemiJoinNotInAntiSemiJoinNotInSwap;
            ExfAntiSemiJoinNotInSemiJoinSwap; ExfAntiSemiJoinNotInInnerJoinSwap]
  | EopLogicalFullOuterJoin => Some [ExfFullJoinCommutativity]
  | _ => None
  end.

(** [ClearNativeJoinEnumerationXform], with its assert. *)
Fixpoint clear_native (exfids : list N) (xform_set : list N) : option (list N) :=
  match exfids with
  | [] => Some xform_set
  | exfid :: exfids =>
      if FReplacesNativeXform exfid
      then clear_native exfids (filter (.≠ exfid) xform_set) else None
  end.

(** A set of transformations is the list of its elements, in increasing order. *)
Definition ClearDPHyperJoinEnumeration (xform_set : list N) (op_id : EOperatorId)
    : option (list N) :=
  exfids ← native_xforms op_id;
  clear_native exfids xform_set.

Section jobs.
Context {R : Type} `{HO : OperatorIdentity} `{HE : SearchEngine R}.

Definition act (J A : Type) : Type := action (search R) J (@child job) A.

(** ** What the actions share *)

Section shared.
Context {J : Type}.

(** The expressions of a group are linked through themselves: none is in the
    list twice, and a world with such a list is none of the program's. *)
Definition get_group (g : N) : act J group :=
  w ← get_world;
  gr ← expect (s_groups w !! g);
  _ ← gpos_assert (NoDup (gr_gexprs gr));
  mret gr.
Definition get_gexpr (e : N) : act J gexpr := w ← get_world; expect (s_gexprs w !! e).
Definition update (f : search R -> option (search R)) : act J unit :=
  w ← get_world; w ← expect (f w); set_world w.
Definition change_job (f : J -> J) : act J unit := j ← get_job; set_job (f j).

(** [CSearchStage::FTimedOut]. *)
Definition FTimedOut : act J bool :=
  w ← get_world;
  match s_clock w with
  | [] => mret false
  | timed_out :: clock => _ ← set_world (set_clock clock w); mret timed_out
  end.
(** [CJob::Cleanup], which these jobs do not override. *)
Definition Cleanup : act J unit := mret tt.

(** The [ScheduleJob] of each class, with the assert of [Init]. *)
Definition GroupExploration_ScheduleJob (g : N) : act J unit :=
  add_child (MkChild EjtGroupExploration (Some (PjqExploration g))
    (JGroupExploration (MkJobGroup CJobGroupExploration.estInitialized g None))).
Definition GroupImplementation_ScheduleJob (g : N) : act J unit :=
  add_child (MkChild EjtGroupImplementation (Some (PjqImplementation g))
    (JGroupImplementation (MkJobGroup CJobGroupImplementation.estInitialized g None))).
Definition GroupExpressionExploration_ScheduleJob (e : N) : act J unit :=
  ge ← get_gexpr e;
  _ ← gpos_assert (FLogical (ge_pop ge) = true);
  add_child (MkChild EjtGroupExpressionExploration None
    (JGroupExpressionExploration
       (MkJobGroupExpression CJobGroupExpressionExploration.estInitialized e false false))).
Definition GroupExpressionImplementation_ScheduleJob (e : N) : act J unit :=
  ge ← get_gexpr e;
  _ ← gpos_assert (FLogical (ge_pop ge) = true);
  add_child (MkChild EjtGroupExpressionImplementation None
    (JGroupExpressionImplementation
       (MkJobGroupExpression CJobGroupExpressionImplementation.estInitialized e false false))).
Definition Transformation_ScheduleJob (e x : N) : act J unit :=
  add_child (MkChild EjtTransformation None
    (JTransformation (MkTransformation CJobTransformation.estInitialized e x))).
Definition JoinEnumeration_ScheduleJob (e : N) : act J unit :=
  add_child (MkChild EjtJoinEnumeration None
    (JJoinEnumeration (MkJoinEnumeration e false false false []))).

(** One job for each element of a list. *)
Fixpoint schedule_all (schedule : N -> act J unit) (l : list N) : act J unit :=
  match l with
  | [] => mret tt
  | x :: l => _ ← schedule x; schedule_all schedule l
  end.

(** [CJobGroupExpression::ScheduleTransformations]. *)
Definition ScheduleTransformations (e : N) (xform_set : list N) : act J unit :=
  schedule_all (Transformation_ScheduleJob e) xform_set.

End shared.

(** ** CJobGroupExploration *)

Section group_exploration.
Import CJobGroupExploration.
Abbreviation J := (CJobGroup EState).

(** The loop over the expressions; the result is the last one scheduled. *)
Fixpoint explore_gexprs (gexprs : list N) (last : option N) : act J (option N) :=
  match gexprs with
  | [] => mret last
  | e :: gexprs =>
      ge ← get_gexpr e;
      if FTransitioned_explored ge then explore_gexprs gexprs last
      else
        _ ← GroupExpressionExploration_ScheduleJob e;
        explore_gexprs gexprs (Some e)
  end.

Definition GroupExploration_FScheduleGroupExpressions : act J bool :=
  j ← get_job;
  gr ← get_group (m_pgroup j);
  let last := m_pgexprLastScheduled j in
  pgexprLast ← explore_gexprs (PgexprFirstUnschedLogical (gr_gexprs gr) last) last;
  _ ← change_job (with_last pgexprLast);
  mret (bool_decide (last <> pgexprLast)).

Definition EevtStartExploration : act J EEvent :=
  j ← get_job;
  _ ← update (CGroup_SetState (m_pgroup j) CGroup.estExploring);
  mret eevStartedExploration.

Definition GroupExploration_EevtExploreChildren : act J EEvent :=
  fNewJobs ← GroupExploration_FScheduleGroupExpressions;
  if fNewJobs : bool then mret eevNewChildren
  else
    j ← get_job;
    _ ← update (CGroup_SetState (m_pgroup j) CGroup.estExplored);
    w ← get_world;
    _ ← (if s_root w =? m_pgroup j then set_world (FinalizeExploration w) else mret tt);
    mret eevExplored.

Definition GroupExploration_actions (est : EState) : option (act J EEvent) :=
  match est with
  | estInitialized => Some EevtStartExploration
  | estExploringChildren => Some GroupExploration_EevtExploreChildren
  | estCompleted => None
  end.

Definition GroupExploration_FExecute : act J bool :=
  FRun rgeev jg_est with_group_est GroupExploration_actions FTimedOut Cleanup 3.

End group_exploration.

(** ** CJobGroupImplementation *)

Section group_implementation.
Import CJobGroupImplementation.
Abbreviation J := (CJobGroup EState).

Fixpoint implement_gexprs (gexprs : list N) (last : option N) : act J (option N) :=
  match gexprs with
  | [] => mret last
  | e :: gexprs =>
      ge ← get_gexpr e;
      if FTransitioned_implemented ge then implement_gexprs gexprs last
      else
        w ← get_world;
        '(circular, w) ← expect (ContainsCircularDependencies e w);
        _ ← set_world w;
        if circular : bool then implement_gexprs gexprs last
        else
          _ ← GroupExpressionImplementation_ScheduleJob e;
          implement_gexprs gexprs (Some e)
  end.

Definition GroupImplementation_FScheduleGroupExpressions : act J bool :=
  j ← get_job;
  gr ← get_group (m_pgroup j);
  let last := m_pgexprLastScheduled j in
  pgexprLast ← implement_gexprs (PgexprFirstUnschedLogical (gr_gexprs gr) last) last;
  _ ← change_job (with_last pgexprLast);
  mret (bool_decide (last <> pgexprLast)).

(** The release of the pools of the exploration jobs, for the root, is left
    out. *)
Definition EevtStartImplementation : act J EEvent :=
  j ← get_job;
  gr ← get_group (m_pgroup j);
  if negb (CGroup_FExplored gr) then
    _ ← GroupExploration_ScheduleJob (m_pgroup j);
    mret eevExploring
  else
    _ ← update (CGroup_SetState (m_pgroup j) CGroup.estImplementing);
    mret eevExplored.

Definition GroupImplementation_EevtImplementChildren : act J EEvent :=
  fNewJobs ← GroupImplementation_FScheduleGroupExpressions;
  if fNewJobs : bool then mret eevImplementing
  else
    j ← get_job;
    _ ← update (CGroup_SetState (m_pgroup j) CGroup.estImplemented);
    w ← get_world;
    _ ← (if s_root w =? m_pgroup j then set_world (FinalizeImplementation w) else mret tt);
    mret eevImplemented.

Definition GroupImplementation_actions (est : EState) : option (act J EEvent) :=
  match est with
  | estInitialized => Some EevtStartImplementation
  | estImplementingChildren => Some GroupImplementation_EevtImplementChildren
  | estCompleted => None
  end.

Definition GroupImplementation_FExecute : act J bool :=
  FRun rgeev jg_est with_group_est GroupImplementation_actions FTimedOut Cleanup 3.

End group_implementation.

(** ** CJobTransformation *)

Section transformation.
Import CJobTransformation.
Abbreviation J := transformation.

Definition EevtTransform : act J EEvent :=
  j ← get_job;
  w ← get_world;
  _ ← set_world (xform_results (jt_pgexpr j) (m_xform j)
                   (log_xform (jt_pgexpr j) (m_xform j) w));
  mret eevCompleted.

Definition Transformation_actions (est : EState) : option (act J EEvent) :=
  match est with
  | estInitialized => Some EevtTransform
  | estCompleted => None
  end.

Definition Transformation_FExecute : act J bool :=
  FRun rgeev jt_est with_xform_est Transformation_actions FTimedOut Cleanup 2.

End transformation.

(** ** Joins that are still to come *)

(** [FHasPendingJoinIngress]; the outer option is a group or an expression that
    is not in the memo, or running out of fuel. *)
Fixpoint ingress_children (visit : N -> gset N -> option (bool * gset N)) (w : search R) (e i : N)
    (children : list N) (visited : gset N) : option (bool * gset N) :=
  match children with
  | [] => Some (false, visited)
  | c :: children =>
      c ← child_group c w;
      child ← s_groups w !! c;
      if gr_scalar child then
        if DeriveChildHasSubquery w e i then Some (true, visited)
        else ingress_children visit w e (i + 1) children visited
      else
        '(found, visited) ← visit c visited;
        if found : bool then Some (true, visited)
        else ingress_children visit w e (i + 1) children visited
  end.

Fixpoint ingress_gexprs (visit : N -> gset N -> option (bool * gset N)) (w : search R)
    (gexprs : list N) (visited : gset N) : option (bool * gset N) :=
  match gexprs with
  | [] => Some (false, visited)
  | e :: gexprs =>
      ge ← s_gexprs w !! e;
      if negb (FLogical (ge_pop ge)) then ingress_gexprs visit w gexprs visited
      else if FLogicalApply (ge_pop ge) then Some (true, visited)
      else
        '(found, visited) ← ingress_children visit w e 0 (ge_children ge) visited;
        if found : bool then Some (true, visited) else ingress_gexprs visit w gexprs visited
  end.

Fixpoint ingress_group (fuel : nat) (w : search R) (g : N) (visited : gset N)
    : option (bool * gset N) :=
  match fuel with
  | O => None
  | Datatypes.S fuel =>
      gr ← s_groups w !! g;
      if gr_scalar gr || bool_decide (g ∈ visited) then Some (false, visited)
      else ingress_gexprs (ingress_group fuel w) w (gr_gexprs gr) ({[g]} ∪ visited)
  end.

(** The children of the expression itself: scalar ones are passed over. *)
Fixpoint ingress_inputs (w : search R) (children : list N) (visited : gset N)
    : option (bool * gset N) :=
  match children with
  | [] => Some (false, visited)
  | c :: children =>
      c ← child_group c w;
      child ← s_groups w !! c;
      if gr_scalar child then ingress_inputs w children visited
      else
        '(found, visited) ← ingress_group (Datatypes.S (size (s_groups w))) w c visited;
        if found : bool then Some (true, visited) else ingress_inputs w children visited
  end.

Definition FHasPendingJoinIngress (e : N) (w : search R) : option bool :=
  ge ← s_gexprs w !! e;
  fst <$> ingress_inputs w (ge_children ge) ∅.

(** ** CJobGroupExpressionExploration *)

(** [CXformSet::Intersection] of a list of transformations. *)
Definition CXformSet_Intersection (xform_set other : list N) : list N := filter (.∈ other) xform_set.

Section group_expression_exploration.
Import CJobGroupExpressionExploration.
Abbreviation J := (CJobGroupExpression EState).

Definition exploration_xforms (ge : gexpr) (w : search R) : list N :=
  CXformSet_Intersection (CXformSet_Intersection (PxfsCandidates (ge_pop ge)) PxfsExploration) (PxfsCurrentStage w).

Definition FScheduleDPHyperBeforeChildren (e : N) : act J bool :=
  ge ← get_gexpr e;
  if negb (bool_decide (ge_edph ge = CGroupExpression.EdphUnrequested)) then mret false
  else
    w ← get_world;
    if negb (bool_decide (ExfDPHyperJoinRegion ∈ exploration_xforms ge w)) then mret false
    else
      pending ← expect (FHasPendingJoinIngress e w);
      if pending : bool then mret false
      else
        _ ← update (SetDPHyperStatus e CGroupExpression.EdphScheduled);
        _ ← JoinEnumeration_ScheduleJob e;
        mret true.

(** The [dynamic_cast] to [CLogicalJoin]: the classes derived from it. *)
Definition FLogicalJoin (pop : COperator) : bool :=
  match Eopid pop with EopOther _ => false | _ => true end.

(** The transformations of another member of a region that was enumerated. *)
Definition region_member_xforms (ge : gexpr) (xform_set : list N) : option (list N) :=
  if FLogicalJoin (ge_pop ge) &&
     FDPHyperRegionMember (ge_pop ge) && negb (FDPHyperRegionRoot (ge_pop ge)) &&
     bool_decide (ge_edph ge = CGroupExpression.EdphSucceeded) && negb DPHyperShadow
  then ClearDPHyperJoinEnumeration xform_set (Eopid (ge_pop ge))
  else Some xform_set.

(** The transformations of a region root whose region was enumerated. *)
Definition region_root_xforms (ge : gexpr) (xform_set : list N) : option (list N) :=
  if (bool_decide (ge_edph ge = CGroupExpression.EdphSucceeded) ||
      bool_decide (ge_edph ge = CGroupExpression.EdphNativeFallback)) && negb DPHyperShadow
  then ClearDPHyperJoinEnumeration xform_set (Eopid (ge_pop ge))
  else Some xform_set.

Definition GroupExpressionExploration_ScheduleApplicableTransformations : act J unit :=
  j ← get_job;
  _ ← gpos_assert (m_fXformsScheduled j = false);
  ge ← get_gexpr (m_pgexpr j);
  w ← get_world;
  xform_set ← expect (region_member_xforms ge (exploration_xforms ge w));
  if bool_decide (ExfDPHyperJoinRegion ∈ xform_set) then
    _ ← gpos_assert (FLogicalJoin (ge_pop ge) = true);
    let xform_set := filter (.≠ ExfDPHyperJoinRegion) xform_set in
    if bool_decide (ge_edph ge = CGroupExpression.EdphUnrequested) then
      _ ← update (SetDPHyperStatus (m_pgexpr j) CGroupExpression.EdphScheduled);
      JoinEnumeration_ScheduleJob (m_pgexpr j)
    else
      _ ← gpos_assert (ge_edph ge <> CGroupExpression.EdphScheduled);
      xform_set ← expect (region_root_xforms ge xform_set);
      _ ← ScheduleTransformations (m_pgexpr j) xform_set;
      change_job with_xforms_scheduled
  else
    _ ← ScheduleTransformations (m_pgexpr j) xform_set;
    change_job with_xforms_scheduled.

Definition GroupExpressionExploration_ScheduleChildGroupsJobs : act J unit :=
  j ← get_job;
  _ ← gpos_assert (m_fChildrenScheduled j = false);
  ge ← get_gexpr (m_pgexpr j);
  w ← get_world;
  children ← expect (child_groups ge w);
  _ ← schedule_all GroupExploration_ScheduleJob children;
  change_job with_children_scheduled.

Definition GroupExpressionExploration_EevtExploreChildren : act J EEvent :=
  j ← get_job;
  if negb (m_fChildrenScheduled j) then
    fScheduled ← FScheduleDPHyperBeforeChildren (m_pgexpr j);
    if fScheduled : bool then mret eevExploringChildren
    else
      _ ← update (CGroupExpression_SetState (m_pgexpr j) CGroupExpression.estExploring);
      _ ← GroupExpressionExploration_ScheduleChildGroupsJobs;
      mret eevExploringChildren
  else mret eevChildrenExplored.

Definition EevtExploreSelf : act J EEvent :=
  j ← get_job;
  if negb (m_fXformsScheduled j) then
    _ ← GroupExpressionExploration_ScheduleApplicableTransformations;
    mret eevExploringSelf
  else mret eevSelfExplored.

Definition GroupExpressionExploration_EevtFinalize : act J EEvent :=
  j ← get_job;
  _ ← update (CGroupExpression_SetState (m_pgexpr j) CGroupExpression.estExplored);
  mret eevFinalized.

Definition GroupExpressionExploration_actions (est : EState) : option (act J EEvent) :=
  match est with
  | estInitialized => Some GroupExpressionExploration_EevtExploreChildren
  | estChildrenExplored => Some EevtExploreSelf
  | estSelfExplored => Some GroupExpressionExploration_EevtFinalize
  | estCompleted => None
  end.

Definition GroupExpressionExploration_FExecute : act J bool :=
  FRun rgeev je_est with_expr_est GroupExpressionExploration_actions FTimedOut Cleanup 4.

End group_expression_exploration.

(** ** CJobGroupExpressionImplementation *)

Section group_expression_implementation.
Import CJobGroupExpressionImplementation.
Abbreviation J := (CJobGroupExpression EState).

Definition implementation_xforms (ge : gexpr) (w : search R) : list N :=
  CXformSet_Intersection (CXformSet_Intersection (PxfsCandidates (ge_pop ge)) PxfsImplementation) (PxfsCurrentStage w).

Definition GroupExpressionImplementation_ScheduleApplicableTransformations : act J unit :=
  j ← get_job;
  _ ← gpos_assert (m_fXformsScheduled j = false);
  ge ← get_gexpr (m_pgexpr j);
  w ← get_world;
  _ ← ScheduleTransformations (m_pgexpr j) (implementation_xforms ge w);
  change_job with_xforms_scheduled.

Definition GroupExpressionImplementation_ScheduleChildGroupsJobs : act J unit :=
  j ← get_job;
  _ ← gpos_assert (m_fChildrenScheduled j = false);
  ge ← get_gexpr (m_pgexpr j);
  w ← get_world;
  children ← expect (child_groups ge w);
  _ ← schedule_all GroupImplementation_ScheduleJob children;
  change_job with_children_scheduled.

Definition EevtImplementChildren : act J EEvent :=
  j ← get_job;
  ge ← get_gexpr (m_pgexpr j);
  _ ← gpos_assert (CGroupExpression_FExplored ge = true);
  if negb (m_fChildrenScheduled j) then
    _ ← update (CGroupExpression_SetState (m_pgexpr j) CGroupExpression.estImplementing);
    _ ← GroupExpressionImplementation_ScheduleChildGroupsJobs;
    mret eevImplementingChildren
  else mret eevChildrenImplemented.

Definition EevtImplementSelf : act J EEvent :=
  j ← get_job;
  if negb (m_fXformsScheduled j) then
    _ ← GroupExpressionImplementation_ScheduleApplicableTransformations;
    mret eevImplementingSelf
  else mret eevSelfImplemented.

Definition GroupExpressionImplementation_EevtFinalize : act J EEvent :=
  j ← get_job;
  _ ← update (CGroupExpression_SetState (m_pgexpr j) CGroupExpression.estImplemented);
  mret eevFinalized.

Definition GroupExpressionImplementation_actions (est : EState) : option (act J EEvent) :=
  match est with
  | estInitialized => Some EevtImplementChildren
  | estChildrenImplemented => Some EevtImplementSelf
  | estSelfImplemented => Some GroupExpressionImplementation_EevtFinalize
  | estCompleted => None
  end.

Definition GroupExpressionImplementation_FExecute : act J bool :=
  FRun rgeev je_est with_expr_est GroupExpressionImplementation_actions FTimedOut Cleanup 4.

End group_expression_implementation.

(** ** CJobJoinEnumeration *)

Section join_enumeration.
Abbreviation J := join_enumeration.

Definition with_waiting (waiting : bool) (j : J) : J :=
  MkJoinEnumeration (jj_pgexpr j) (m_materialized j) (m_native_fallback_materialized j) waiting
    (m_intermediate_groups j).

(** The expressions of an explored group that are not explored themselves; the
    result says whether there were any. *)
Fixpoint explore_new_gexprs (gexprs : list N) (scheduled : bool) : act J bool :=
  match gexprs with
  | [] => mret scheduled
  | e :: gexprs =>
      ge ← get_gexpr e;
      if FLogical (ge_pop ge) && negb (CGroupExpression_FExplored ge) then
        _ ← GroupExpressionExploration_ScheduleJob e;
        explore_new_gexprs gexprs true
      else explore_new_gexprs gexprs scheduled
  end.

Fixpoint explore_intermediate (groups : list N) (scheduled : bool) : act J bool :=
  match groups with
  | [] => mret scheduled
  | g :: groups =>
      gr ← get_group g;
      if negb (CGroup_FExplored gr) then
        _ ← GroupExploration_ScheduleJob g;
        explore_intermediate groups true
      else
        scheduled ← explore_new_gexprs (gr_gexprs gr) scheduled;
        explore_intermediate groups scheduled
  end.

(** [FEnumerate], with the fields it sets. *)
Definition FEnumerate : act J bool :=
  j ← get_job;
  w ← get_world;
  let '(success, native_fallback, groups, w) := enumerate_region (jj_pgexpr j) w in
  _ ← set_world w;
  _ ← set_job (MkJoinEnumeration (jj_pgexpr j) (m_materialized j) native_fallback
                 (m_waiting_for_exploration j) groups);
  mret success.

(** The outcome of the enumeration, if it is not published yet. *)
Definition publish (status : CGroupExpression.EDPHyperStatus) : act J unit :=
  j ← get_job;
  ge ← get_gexpr (jj_pgexpr j);
  if bool_decide (ge_edph ge = CGroupExpression.EdphScheduled)
  then update (SetDPHyperStatus (jj_pgexpr j) status)
  else gpos_assert (ge_edph ge = status).

(** The second half of [FExecute], once the region is in the memo. *)
Definition explore_region : act J bool :=
  j ← get_job;
  scheduled ← explore_intermediate (m_intermediate_groups j) false;
  if scheduled : bool then
    _ ← change_job (with_waiting true);
    mret false
  else
    _ ← publish CGroupExpression.EdphSucceeded;
    mret true.

Definition JoinEnumeration_FExecute : act J bool :=
  _ ← change_job (with_waiting false);
  j ← get_job;
  if negb (m_materialized j) then
    success ← FEnumerate;
    if negb success then
      j ← get_job;
      _ ← publish (if m_native_fallback_materialized j
                   then CGroupExpression.EdphNativeFallback else CGroupExpression.EdphFallback);
      mret true
    else
      _ ← change_job (fun j => MkJoinEnumeration (jj_pgexpr j) true
                                 (m_native_fallback_materialized j)
                                 (m_waiting_for_exploration j) (m_intermediate_groups j));
      explore_region
  else explore_region.

End join_enumeration.

(** ** The body of a job *)

(** A run of one of the classes, as the scheduler sees it.  A violated assert
    ends the search: the world is gone, and the jobs that are left do nothing. *)
Definition outcome_of {J} (wrap : J -> job) (j : J) (FExecute : act J bool) (w : search R)
    : @outcome (option (search R)) job :=
  match FExecute (MkContext w j []) with
  | Done (completed, x) => MkOutcome (Some (x_world x)) (wrap (x_job x)) (x_children x) completed
  | _ => MkOutcome None (wrap j) [] true
  end.

Definition run (world : option (search R)) (b : job) : @outcome (option (search R)) job :=
  match world with
  | None => MkOutcome None b [] true
  | Some w =>
      match b with
      | JGroupExploration j => outcome_of JGroupExploration j GroupExploration_FExecute w
      | JGroupImplementation j => outcome_of JGroupImplementation j GroupImplementation_FExecute w
      | JGroupExpressionExploration j =>
          outcome_of JGroupExpressionExploration j GroupExpressionExploration_FExecute w
      | JGroupExpressionImplementation j =>
          outcome_of JGroupExpressionImplementation j GroupExpressionImplementation_FExecute w
      | JTransformation j => outcome_of JTransformation j Transformation_FExecute w
      | JJoinEnumeration j => outcome_of JJoinEnumeration j JoinEnumeration_FExecute w
      end
  end.

End jobs.
