(* ===== verification/SearchRuns.v ===== *)
(** The runs of the exploration and implementation jobs: every run ends within
    its fuel, and a run that says the job is done has added no jobs, which is what
    the scheduler relies on. *)

From S2P Require Import Prelude NodeSet Expression SyncPool JobFactory Scheduler.
From S2P Require Import JobMachine SearchState SearchJobs.
From stdpp Require Import finite.
Local Open Scope N_scope.

(** What runs one step of an action: the monad and the primitive actions. *)
Ltac run_simpl :=
  unfold act, get_group, get_gexpr, update, change_job in *;
  unfold mbind, action_bind, mret, action_ret, get_world, get_job, set_world, set_job, add_child,
    gpos_assert, expect in *;
  cbn [x_world x_job x_children] in *.

(** Case split on what an action reads of the world, its asserts, and the fields
    of the job. *)
Ltac run_cases :=
  repeat (run_simpl; try done;
    match goal with
    | |- context [match ?m with Some _ => _ | None => _ end] =>
        lazymatch m with
        | context [match _ with _ => _ end] => fail
        | _ => destruct m eqn:?; try done
        end
    | |- context [if decide ?Q then _ else _] => destruct (decide Q); try done
    | |- context [if ?b then _ else _] =>
        lazymatch b with
        | context [match _ with _ => _ end] => fail
        | _ => destruct b eqn:?; try done
        end
    end).

Section runs.
Context {R : Type} `{HO : OperatorIdentity} `{HE : SearchEngine R}.

(** ** The runs end, and a job that is done has added no jobs *)

Definition exploration_child (e : N) : @child job :=
  MkChild EjtGroupExpressionExploration None
    (JGroupExpressionExploration
       (MkJobGroupExpression CJobGroupExpressionExploration.estInitialized e false false)).
Definition group_exploration_child (g : N) : @child job :=
  MkChild EjtGroupExploration (Some (PjqExploration g))
    (JGroupExploration (MkJobGroup CJobGroupExploration.estInitialized g None)).
Definition implementation_child (e : N) : @child job :=
  MkChild EjtGroupExpressionImplementation None
    (JGroupExpressionImplementation
       (MkJobGroupExpression CJobGroupExpressionImplementation.estInitialized e false false)).
Definition transformation_child (e x : N) : @child job :=
  MkChild EjtTransformation None
    (JTransformation (MkTransformation CJobTransformation.estInitialized e x)).

(** The expressions that are still to be explored. *)
Definition to_explore (w : search R) (e : N) : bool :=
  match s_gexprs w !! e with Some ge => negb (FTransitioned_explored ge) | None => false end.
Definition unexplored (w : search R) (l : list N) : list N := filter (fun e => to_explore w e = true) l.

Definition with_children {J} (x : context (search R) J (@child job)) (cs : list (@child job)) :
    context (search R) J (@child job) :=
  MkContext (x_world x) (x_job x) (x_children x ++ cs).

Lemma with_children_nil {J} (x : context (search R) J (@child job)) : with_children x [] = x.
Proof. destruct x. unfold with_children. simpl. by rewrite app_nil_r. Qed.

Lemma schedule_all_spec {J} (schedule : N -> act (R := R) J unit) (c : N -> @child job) l x :
  (forall y x, schedule y x = Done (tt, with_children x [c y])) ->
  schedule_all schedule l x = Done (tt, with_children x (c <$> l)).
Proof.
  intros Hs. revert x. induction l as [|y l IH]; intros x; simpl.
  - by rewrite with_children_nil.
  - unfold mbind, action_bind. rewrite Hs, IH. unfold with_children. simpl. by rewrite <- app_assoc.
Qed.

Lemma explore_gexprs_spec l last (x : context (search R) (CJobGroup CJobGroupExploration.EState) (@child job)) :
  explore_gexprs l last x =
  if decide (Forall (fun e => is_Some (s_gexprs (x_world x) !! e)) l)
  then Done (from_option Some last (list.last (unexplored (x_world x) l)),
             with_children x (exploration_child <$> unexplored (x_world x) l))
  else AssertFailed.
Proof.
  revert last x. induction l as [|e l IH]; intros last x.
  { rewrite decide_True by constructor. simpl. by rewrite with_children_nil. }
  cbn [explore_gexprs]. run_simpl. unfold unexplored, to_explore in *.
  destruct (s_gexprs (x_world x) !! e) as [ge|] eqn:He; [|rewrite decide_False; [done|]].
  2: { intros [Hs _]%Forall_cons. rewrite He in Hs. by destruct Hs. }
  rewrite filter_cons, He.
  destruct (FTransitioned_explored ge) eqn:Ht; simpl.
  - rewrite IH. destruct (decide (Forall _ l)) as [Hl|Hl]; [rewrite decide_True|rewrite decide_False].
    + done.
    + constructor; [by rewrite He|done].
    + done.
    + by intros [_ ?]%Forall_cons.
  - unfold GroupExpressionExploration_ScheduleJob. run_simpl. rewrite He.
    unfold FTransitioned_explored in Ht. apply orb_false_elim in Ht as [Hl _].
    apply negb_false_iff in Hl. rewrite decide_True by done. rewrite IH. cbn [x_world].
    destruct (decide (Forall _ l)) as [Hp|Hp]; [rewrite decide_True|rewrite decide_False].
    + rewrite last_cons. f_equal. f_equal; [by destruct (list.last _)|].
      unfold with_children. cbn [x_world x_job x_children]. by rewrite <- app_assoc.
    + constructor; [by rewrite He|done].
    + done.
    + by intros [_ ?]%Forall_cons.
Qed.

(** The elements after [e] do not include it. *)
Lemma after_not_elem l e : NoDup l -> e ∉ after l e.
Proof.
  induction 1 as [|x l Hx Hl IH]; simpl; [apply not_elem_of_nil|].
  destruct (x =? e) eqn:E; breflect; [by subst|done].
Qed.

(** No job was added when the last scheduled expression is the old one. *)
Lemma unexplored_after w l last :
  NoDup l ->
  let todo := unexplored w (PgexprFirstUnschedLogical l last) in
  last = from_option Some last (list.last todo) -> todo = [].
Proof.
  intros Hl todo. destruct (list.last todo) as [e|] eqn:He; simpl.
  - intros ->. exfalso. apply last_Some_elem_of in He. unfold todo, unexplored in He.
    apply list_elem_of_filter in He as [_ He]. simpl in He. by apply (after_not_elem l e).
  - intros _. by apply last_None.
Qed.

(** A run ends, and adds no jobs when it says the job is done. *)
Definition runs_alone {J} (FExecute : act (R := R) J bool) : Prop :=
  forall x, match FExecute x with
            | Done (completed, x') => completed = true -> x_children x' = x_children x
            | AssertFailed => True
            | OutOfFuel => False
            end.

Lemma FTimedOut_keeps {J} : keeps_job (FTimedOut (R := R) (J := J)).
Proof.
  intros x. unfold FTimedOut. run_simpl.
  destruct (s_clock (x_world x)); eexists _, _; (split; [done|]); by destruct x.
Qed.

Lemma Cleanup_keeps {J} : keeps_job (Cleanup (R := R) (J := J)).
Proof. intros x. by exists tt, x. Qed.

Lemma GroupExploration_alone : runs_alone (GroupExploration_FExecute (R := R)).
Proof.
  intros x. apply (FRun_ok _ _ _ _ _ _ (fun j => 2 - state_index (jg_est j))%nat).
  - intros est a Ha y Hy. destruct est; simpl in Ha; simplify_eq.
    + unfold EevtStartExploration. run_cases.
      eexists. split; [reflexivity|]. right. split; [done|]. right. rewrite Hy. by apply Nat.ltb_lt.
    + unfold GroupExploration_EevtExploreChildren, GroupExploration_FScheduleGroupExpressions.
      run_simpl. destruct (s_groups _ !! _) as [gr|] eqn:Hgr; [|done].
      destruct (decide (NoDup _)) as [Hnd|]; [|done]. cbn [x_world x_job].
      rewrite explore_gexprs_spec. destruct (decide _) as [Hp|]; [|done]. cbn [x_world x_job].
      case_bool_decide as Hlast; cbn [x_world x_job].
      * eexists. split; [reflexivity|]. by left.
      * pose proof (unexplored_after _ _ _ Hnd Hlast) as Hnil.
        rewrite Hnil. rewrite with_children_nil. run_cases; cbn [x_children];
        (eexists; split; [reflexivity|]; right; split; [done|]; by left).
  - by intros [].
  - apply FTimedOut_keeps.
  - apply Cleanup_keeps.
  - by destruct (jg_est (x_job x)); apply Nat.ltb_lt.
Qed.

Lemma Transformation_alone : runs_alone (Transformation_FExecute (R := R)).
Proof.
  intros x. apply (FRun_ok _ _ _ _ _ _ (fun j => 1 - state_index (jt_est j))%nat).
  - intros est a Ha y Hy. destruct est; simpl in Ha; simplify_eq.
    unfold EevtTransform. run_simpl. eexists. split; [reflexivity|]. right. split; [done|]. by left.
  - by intros [].
  - apply FTimedOut_keeps.
  - apply Cleanup_keeps.
  - by destruct (jt_est (x_job x)); apply Nat.ltb_lt.
Qed.

(** [schedule] adds a job and does nothing else. *)
Lemma schedule_explorations {J} l (x : context (search R) J (@child job)) :
  schedule_all GroupExploration_ScheduleJob l x =
  Done (tt, with_children x (group_exploration_child <$> l)).
Proof. by apply schedule_all_spec. Qed.

Lemma schedule_transformations {J} e l (x : context (search R) J (@child job)) :
  ScheduleTransformations e l x = Done (tt, with_children x (transformation_child e <$> l)).
Proof. by apply schedule_all_spec. Qed.

Lemma schedule_implementations {J} l (x : context (search R) J (@child job)) :
  exists cs, schedule_all GroupImplementation_ScheduleJob l x = Done (tt, with_children x cs).
Proof. eexists. by apply schedule_all_spec. Qed.

Lemma GroupExpressionExploration_alone : runs_alone (GroupExpressionExploration_FExecute (R := R)).
Proof.
  intros x. apply (FRun_ok _ _ _ _ _ _ (fun j => 3 - state_index (je_est j))%nat).
  - intros est a Ha y Hy. destruct est; simpl in Ha; simplify_eq.
    + unfold GroupExpressionExploration_EevtExploreChildren. run_simpl.
      destruct (negb (m_fChildrenScheduled (x_job y))).
      * unfold FScheduleDPHyperBeforeChildren, GroupExpressionExploration_ScheduleChildGroupsJobs,
          JoinEnumeration_ScheduleJob.
        run_cases; rewrite ?schedule_explorations; run_cases;
          (eexists; split; [reflexivity|]; by left).
      * eexists. split; [reflexivity|]. right. split; [done|]. right. rewrite Hy. by apply Nat.ltb_lt.
    + unfold EevtExploreSelf, GroupExpressionExploration_ScheduleApplicableTransformations,
        JoinEnumeration_ScheduleJob. run_simpl.
      destruct (negb (m_fXformsScheduled (x_job y))).
      * run_cases; rewrite ?schedule_transformations; run_cases;
          rewrite ?schedule_transformations; run_cases;
          (eexists; split; [reflexivity|]; by left).
      * eexists. split; [reflexivity|]. right. split; [done|]. right. rewrite Hy. by apply Nat.ltb_lt.
    + unfold GroupExpressionExploration_EevtFinalize. run_cases.
      eexists. split; [reflexivity|]. right. split; [done|]. by left.
  - by intros [].
  - apply FTimedOut_keeps.
  - apply Cleanup_keeps.
  - by destruct (je_est (x_job x)); apply Nat.ltb_lt.
Qed.

Lemma GroupExpressionImplementation_alone : runs_alone (GroupExpressionImplementation_FExecute (R := R)).
Proof.
  intros x. apply (FRun_ok _ _ _ _ _ _ (fun j => 3 - state_index (je_est j))%nat).
  - intros est a Ha y Hy. destruct est; simpl in Ha; simplify_eq.
    + unfold EevtImplementChildren, GroupExpressionImplementation_ScheduleChildGroupsJobs.
      run_cases.
      * match goal with
        | |- context [schedule_all GroupImplementation_ScheduleJob ?l ?x] =>
            destruct (schedule_implementations l x) as [cs ->]
        end.
        cbn [x_world x_job x_children]. eexists. split; [reflexivity|]. by left.
      * eexists. split; [reflexivity|]. right. split; [done|]. right. rewrite Hy. by apply Nat.ltb_lt.
    + unfold EevtImplementSelf, GroupExpressionImplementation_ScheduleApplicableTransformations.
      run_simpl. destruct (negb (m_fXformsScheduled (x_job y))).
      * run_cases. rewrite schedule_transformations. cbn [x_world x_job x_children].
        eexists. split; [reflexivity|]. by left.
      * eexists. split; [reflexivity|]. right. split; [done|]. right. rewrite Hy. by apply Nat.ltb_lt.
    + unfold GroupExpressionImplementation_EevtFinalize. run_cases.
      eexists. split; [reflexivity|]. right. split; [done|]. by left.
  - by intros [].
  - apply FTimedOut_keeps.
  - apply Cleanup_keeps.
  - by destruct (je_est (x_job x)); apply Nat.ltb_lt.
Qed.

(** The loop of the implementation jobs: the job is untouched, and with no new
    last expression no job was added. *)
Lemma implement_gexprs_spec l last
    (x : context (search R) (CJobGroup CJobGroupImplementation.EState) (@child job)) :
  match implement_gexprs l last x with
  | Done (last', x') => x_job x' = x_job x /\
      (last' = last /\ x_children x' = x_children x \/ exists e, e ∈ l /\ last' = Some e)
  | AssertFailed => True
  | OutOfFuel => False
  end.
Proof.
  revert last x. induction l as [|e l IH]; intros last x; [split; [done|by left]|].
  cbn [implement_gexprs].
  assert (forall lst (y : context (search R) (CJobGroup CJobGroupImplementation.EState) (@child job)),
            x_job y = x_job x ->
            (lst = last -> x_children y = x_children x) -> lst = last \/ lst = Some e ->
            match implement_gexprs l lst y with
            | Done (last', x') => x_job x' = x_job x /\
                (last' = last /\ x_children x' = x_children x \/
                 exists e', e' ∈ e :: l /\ last' = Some e')
            | AssertFailed => True
            | OutOfFuel => False
            end) as Hnext.
  { intros lst y Hj Hc Hl. specialize (IH lst y).
    destruct (implement_gexprs l lst y) as [[last' x']| |]; [|done..].
    destruct IH as [Hj' [[-> Hc']|(e' & He' & ->)]]; (split; [congruence|]).
    - destruct Hl as [-> | ->]; [left; split; [done|rewrite Hc'; auto]|].
      right. exists e. split; [left|done].
    - right. exists e'. split; [by right|done]. }
  unfold GroupExpressionImplementation_ScheduleJob. run_simpl.
  destruct (s_gexprs (x_world x) !! e) as [ge|] eqn:He; [|done].
  destruct (FTransitioned_implemented ge) eqn:Ht; [by apply Hnext; auto|].
  destruct (ContainsCircularDependencies e (x_world x)) as [[circular w]|] eqn:Hc; [|done].
  cbn [x_world x_job x_children]. destruct circular; [by apply Hnext; auto|].
  cbn [x_world x_job x_children]. destruct (s_gexprs w !! e) as [ge'|]; [|done].
  destruct (decide (FLogical (ge_pop ge') = true)); [|done]. cbn [x_world x_job x_children].
  specialize (IH (Some e) (MkContext w (x_job x) (x_children x ++ [implementation_child e]))).
  unfold implementation_child in IH.
  destruct (implement_gexprs l _ _) as [[last' x']| |]; [|done..].
  destruct IH as [Hj' [[-> Hc']|(e' & He' & ->)]]; (split; [done|]); right.
  - exists e. split; [left|done].
  - exists e'. split; [by right|done].
Qed.

Lemma GroupImplementation_alone : runs_alone (GroupImplementation_FExecute (R := R)).
Proof.
  intros x. apply (FRun_ok _ _ _ _ _ _ (fun j => 2 - state_index (jg_est j))%nat).
  - intros est a Ha y Hy. destruct est; simpl in Ha; simplify_eq.
    + unfold EevtStartImplementation, GroupExploration_ScheduleJob. run_cases.
      * eexists. split; [reflexivity|]. by left.
      * eexists. split; [reflexivity|]. right. split; [done|]. right. rewrite Hy. by apply Nat.ltb_lt.
    + unfold GroupImplementation_EevtImplementChildren, GroupImplementation_FScheduleGroupExpressions.
      run_simpl. destruct (s_groups _ !! _) as [gr|] eqn:Hgr; [|done].
      destruct (decide (NoDup _)) as [Hnd|]; [|done]. cbn [x_world x_job].
      set (last := m_pgexprLastScheduled (x_job y)).
      pose proof (implement_gexprs_spec (PgexprFirstUnschedLogical (gr_gexprs gr) last) last y) as Hs.
      destruct (implement_gexprs _ _ _) as [[last' x']| |]; [|done..]. destruct Hs as [Hj Hs].
      cbn [x_world x_job]. case_bool_decide as Hlast; cbn [x_world x_job].
      * eexists. split; [reflexivity|]. by left.
      * assert (x_children x' = x_children y) as Hc.
        { destruct Hs as [[_ ?]|(e & He & Hs)]; [done|]. exfalso. rewrite <- Hlast in Hs.
          rewrite Hs in He. simpl in He. by apply after_not_elem in He. }
        run_cases; (eexists; split; [reflexivity|]; right; split; [done|]; by left).
  - by intros [].
  - apply FTimedOut_keeps.
  - apply Cleanup_keeps.
  - by destruct (jg_est (x_job x)); apply Nat.ltb_lt.
Qed.

(** The two loops of the join enumeration say whether they added jobs. *)
Lemma explore_new_gexprs_spec l scheduled (x : context (search R) join_enumeration (@child job)) :
  match explore_new_gexprs l scheduled x with
  | Done (s, x') => x_world x' = x_world x /\ x_job x' = x_job x /\
      exists cs, x_children x' = x_children x ++ cs /\
        s = scheduled || negb (bool_decide (length cs = 0%nat))
  | AssertFailed => True
  | OutOfFuel => False
  end.
Proof.
  revert scheduled x. induction l as [|e l IH]; intros scheduled x.
  { split; [done|]. split; [done|]. exists []. by rewrite app_nil_r, orb_false_r. }
  cbn [explore_new_gexprs]. unfold GroupExpressionExploration_ScheduleJob. run_simpl.
  destruct (s_gexprs (x_world x) !! e) as [ge|] eqn:He; [|done].
  destruct (FLogical (ge_pop ge) && _) eqn:Hl; [|apply IH]. apply andb_prop in Hl as [Hl _].
  cbn [x_world]. rewrite He, decide_True by done. cbn [x_world x_job x_children].
  specialize (IH true (with_children x [exploration_child e])).
  unfold with_children, exploration_child in IH. cbn [x_world x_job x_children] in IH.
  destruct (explore_new_gexprs l _ _) as [[s x']| |]; [|done..].
  destruct IH as (Hw & Hj & cs & Hc & Hs). split; [done|]. split; [done|].
  eexists. rewrite Hc, <- app_assoc. split; [done|].
  rewrite bool_decide_eq_false_2 by done. by rewrite orb_true_r.
Qed.

Lemma explore_intermediate_spec l scheduled (x : context (search R) join_enumeration (@child job)) :
  match explore_intermediate l scheduled x with
  | Done (s, x') => x_world x' = x_world x /\ x_job x' = x_job x /\
      exists cs, x_children x' = x_children x ++ cs /\
        s = scheduled || negb (bool_decide (length cs = 0%nat))
  | AssertFailed => True
  | OutOfFuel => False
  end.
Proof.
  revert scheduled x. induction l as [|g l IH]; intros scheduled x.
  { split; [done|]. split; [done|]. exists []. by rewrite app_nil_r, orb_false_r. }
  cbn [explore_intermediate]. unfold GroupExploration_ScheduleJob. run_simpl.
  destruct (s_groups (x_world x) !! g) as [gr|] eqn:Hg; [|done].
  destruct (decide (NoDup _)); [|done].
  assert (forall s (y : context (search R) join_enumeration (@child job)) cs,
            x_world y = x_world x -> x_job y = x_job x -> x_children y = x_children x ++ cs ->
            s = scheduled || negb (bool_decide (length cs = 0%nat)) ->
            match explore_intermediate l s y with
            | Done (s, x') => x_world x' = x_world x /\ x_job x' = x_job x /\
                exists cs, x_children x' = x_children x ++ cs /\
                  s = scheduled || negb (bool_decide (length cs = 0%nat))
            | AssertFailed => True
            | OutOfFuel => False
            end) as Hnext.
  { intros s y cs Hw Hj Hc ->. specialize (IH (scheduled || negb (bool_decide (length cs = 0%nat))) y).
    destruct (explore_intermediate l _ y) as [[s' x']| |]; [|done..].
    destruct IH as (Hw' & Hj' & cs' & Hc' & ->). split; [congruence|]. split; [congruence|].
    exists (cs ++ cs'). rewrite Hc', Hc, app_assoc. split; [done|]. rewrite length_app.
    rewrite <- orb_assoc. f_equal. rewrite <- negb_andb. f_equal.
    repeat case_bool_decide; simpl; lia || done. }
  destruct (negb (CGroup_FExplored gr)); cbn [x_world x_job x_children].
  - eapply Hnext; [done|done|done|]. rewrite bool_decide_eq_false_2 by done. by rewrite orb_true_r.
  - pose proof (explore_new_gexprs_spec (gr_gexprs gr) scheduled x) as Hs.
    destruct (explore_new_gexprs _ _ _) as [[s x']| |]; [|done..].
    destruct Hs as (Hw & Hj & cs & Hc & Hs). by eapply Hnext.
Qed.

Lemma JoinEnumeration_alone : runs_alone (JoinEnumeration_FExecute (R := R)).
Proof.
  assert (runs_alone (explore_region (R := R))) as Hr.
  { intros x. unfold explore_region. run_simpl.
    pose proof (explore_intermediate_spec (m_intermediate_groups (x_job x)) false x) as Hs.
    destruct (explore_intermediate _ _ _) as [[s x']| |]; [|done..].
    destruct Hs as (_ & _ & cs & Hc & ->). simpl.
    case_bool_decide as Hcs; simpl; [|by cbn].
    apply nil_length_inv in Hcs as ->. rewrite app_nil_r in Hc.
    unfold publish. run_cases. }
  intros x. unfold JoinEnumeration_FExecute, FEnumerate. run_simpl.
  destruct (negb (m_materialized (with_waiting false (x_job x)))).
  - destruct (enumerate_region _ _) as [[[success native] groups] w]. cbn [x_world x_job x_children].
    destruct (negb success); [unfold publish; run_cases|]. cbn [x_world x_job x_children].
    match goal with |- context [explore_region ?y] => specialize (Hr y) end.
    destruct (explore_region _) as [[c x']| |]; done.
  - match goal with |- context [explore_region ?y] => specialize (Hr y) end.
    destruct (explore_region _) as [[c x']| |]; done.
Qed.

Lemma outcome_of_alone {J} (wrap : J -> job) (j : J) (FExecute : act (R := R) J bool) w :
  runs_alone FExecute ->
  let o := outcome_of wrap j FExecute w in o_completed o = true -> o_children o = [].
Proof.
  intros Ha. specialize (Ha (MkContext w j [])). unfold outcome_of.
  destruct (FExecute _) as [[c x']| |]; [|done..]. intros Hc. by apply Ha.
Qed.

(** What the scheduler relies on holds of the jobs. *)
Lemma run_completes_alone : completes_alone (run (R := R)).
Proof.
  intros [w|] b; [|done]. destruct b; apply outcome_of_alone.
  - apply GroupExploration_alone.
  - apply GroupImplementation_alone.
  - apply GroupExpressionExploration_alone.
  - apply GroupExpressionImplementation_alone.
  - apply Transformation_alone.
  - apply JoinEnumeration_alone.
Qed.

End runs.

(** ** Properties *)

(** C3: every run of an exploration, implementation or transformation job or of
    the job of join enumeration ends within the fuel its state machine is given,
    and a run that says the job is done has added no jobs; a run that has added
    jobs leaves the job to wait for them. *)
Theorem search_jobs_run_alone {R : Type} `{HO : OperatorIdentity} `{HE : SearchEngine R} :
  runs_alone (GroupExploration_FExecute (R := R)) /\
  runs_alone (GroupImplementation_FExecute (R := R)) /\
  runs_alone (GroupExpressionExploration_FExecute (R := R)) /\
  runs_alone (GroupExpressionImplementation_FExecute (R := R)) /\
  runs_alone (Transformation_FExecute (R := R)) /\
  runs_alone (JoinEnumeration_FExecute (R := R)).
Proof.
  repeat split; [apply GroupExploration_alone|apply GroupImplementation_alone
    |apply GroupExpressionExploration_alone|apply GroupExpressionImplementation_alone
    |apply Transformation_alone|apply JoinEnumeration_alone].
Qed.
