(* ===== verification/SchedulerFrame.v ===== *)
(** What a round of the scheduler leaves alone, and an induction principle for
    [ExecuteJobs]: an invariant that every round keeps, with a measure that every
    round decreases along a well-founded order, holds when the loop ends. *)

From S2P Require Import Prelude SyncPool JobFactory Scheduler.
From Stdlib Require Import Wellfounded.
Local Open Scope N_scope.

(** Take a computation that returned apart. *)
Ltac inv_bind :=
  repeat match goal with
  | H : mbind _ _ = Some _ |- _ => apply bind_Some in H as (? & ? & H)
  | H : Some _ = Some _ |- _ => first [injection H; clear H; intros; subst | clear H]
  | H : None = Some _ |- _ => discriminate H
  | H : (let '(_, _) := ?p in _) = Some _ |- _ => destruct p
  | H : match ?m with Some _ => _ | None => _ end = Some _ |- _ => destruct m eqn:?
  | H : (if decide ?Q then _ else _) = Some _ |- _ => destruct (decide Q)
  | H : (if ?b then _ else _) = Some _ |- _ => destruct b eqn:?
  end.

Section frame.
Context {P S : Type} `{ObjectPool P S} `{Countable S} {W B : Type}.
Context `{!PoolLaws P S} (body : W -> B -> @outcome W B).
Abbreviation st_t := (@state P S _ _ W B).
Implicit Types (st : st_t) (pj : job_address S).

(** ** Steps that change no job and no queue *)

Definition untouched st st' : Prop :=
  view (s_jobs st') = view (s_jobs st) /\ s_queues st' = s_queues st /\ s_world st' = s_world st.

Lemma untouched_trans st1 st2 st3 : untouched st1 st2 -> untouched st2 st3 -> untouched st1 st3.
Proof. intros (? & ? & ?) (? & ? & ?). split; [|split]; congruence. Qed.

Lemma put_untouched st pj j j' :
  s_jobs st !! pj = Some j -> job_view j' = job_view j -> untouched st (put st pj j').
Proof. intros Hj Hv. split; [by apply (view_put _ _ j)|done]. Qed.

Lemma IncRefs_untouched st pj st' : IncRefs st pj = Some st' -> untouched st st'.
Proof. unfold IncRefs. intros Hs. inv_bind. by eapply put_untouched. Qed.

Lemma UlpDecrRefs_untouched st pj r st' : UlpDecrRefs st pj = Some (r, st') -> untouched st st'.
Proof. unfold UlpDecrRefs. intros Hs. inv_bind. by eapply put_untouched. Qed.

Lemma Schedule_untouched st pj st' : Schedule st pj = Some st' -> untouched st st'.
Proof. unfold Schedule. intros Hs. inv_bind. by eapply put_untouched. Qed.

Lemma Resume_untouched st pj st' : Resume st pj = Some st' -> untouched st st'.
Proof. unfold Resume. intros Hs. inv_bind. by eapply Schedule_untouched. Qed.

(** Collect what the steps of a computation leave alone. *)
Ltac untouched_steps :=
  repeat match goal with
  | H : IncRefs _ _ = Some _ |- _ => apply IncRefs_untouched in H
  | H : UlpDecrRefs _ _ = Some (_, _) |- _ => apply UlpDecrRefs_untouched in H
  | H : Schedule _ _ = Some _ |- _ => apply Schedule_untouched in H
  | H : Resume _ _ = Some _ |- _ => apply Resume_untouched in H
  | H : untouched _ _ |- _ => destruct H as (? & ? & ?)
  end; split; [|split]; simpl in *; congruence.

Lemma ResumeParent_untouched st pj st' : ResumeParent st pj = Some st' -> untouched st st'.
Proof.
  unfold ResumeParent, FResumeParent, remove_suspended. intros Hs. inv_bind; untouched_steps.
Qed.

Lemma remove_running_untouched st pj st' : remove_running st pj = Some st' -> untouched st st'.
Proof. unfold remove_running. intros Hs. by inv_bind. Qed.

Lemma PreExecute_untouched st pj st' : PreExecute st pj = Some st' -> untouched st st'.
Proof. unfold PreExecute. intros Hs. inv_bind. untouched_steps. Qed.

Lemma PjRetrieve_untouched st next st' : PjRetrieve st = Some (next, st') -> untouched st st'.
Proof.
  unfold PjRetrieve. intros Hs. destruct (m_listjlWaiting (s_sched st)) as [|pj l]; inv_bind; [done|].
  by apply (put_untouched st pj x).
Qed.

Lemma Suspend_untouched st pj st' : Suspend st pj = Some st' -> untouched st st'.
Proof. unfold Suspend. intros Hs. inv_bind. by apply (put_untouched st pj x). Qed.

Lemma put_completed st pj j : s_jobs st !! pj = Some j -> untouched st (put st pj (with_ejs j EjsCompleted)).
Proof. intros Hj. by apply (put_untouched st pj j). Qed.

Lemma Complete_untouched st pj st' : Complete st pj = Some st' -> untouched st st'.
Proof.
  unfold Complete. intros Hs. inv_bind.
  match goal with H : ResumeParent _ _ = Some _ |- _ => apply ResumeParent_untouched in H end.
  match goal with H : s_jobs _ !! _ = Some _ |- _ => apply put_completed in H end.
  untouched_steps.
Qed.

Lemma remove_suspended_untouched st pj st' : remove_suspended st pj = Some st' ->
  untouched st st' /\ s_jobs st' = s_jobs st.
Proof. unfold remove_suspended. intros Hs. by inv_bind. Qed.

Lemma CompleteQueued_untouched st pj st' : CompleteQueued st pj = Some st' -> untouched st st'.
Proof.
  unfold CompleteQueued. intros Hs. inv_bind.
  match goal with H : ResumeParent _ _ = Some _ |- _ => apply ResumeParent_untouched in H end.
  match goal with H : remove_suspended _ _ = Some _ |- _ =>
    apply remove_suspended_untouched in H as [? Hjobs] end.
  match goal with H : s_jobs st !! _ = Some _ |- _ =>
    rewrite <- Hjobs in H; apply put_completed in H end.
  untouched_steps.
Qed.

(** ** Steps that change a few jobs and a queue *)

(** Only the jobs of the list and the queue [q] may change. *)
Record changes (dead : list (job_address S)) (q : option N) st st' : Prop := {
  ch_jobs y : y ∉ dead -> view (s_jobs st') !! y = view (s_jobs st) !! y;
  ch_queues q' : q <> Some q' -> queue_at st' q' = queue_at st q';
}.

Lemma changes_trans dead q st1 st2 st3 :
  changes dead q st1 st2 -> changes dead q st2 st3 -> changes dead q st1 st3.
Proof.
  intros [H1 H2] [H3 H4]. split.
  - intros y Hy. by rewrite H3, H1.
  - intros q' Hq. by rewrite H4, H2.
Qed.

Lemma changes_weaken dead dead' q st st' : dead ⊆ dead' -> changes dead q st st' -> changes dead' q st st'.
Proof. intros Hd [H1 H2]. split; [intros y Hy; apply H1; set_solver|done]. Qed.

Lemma untouched_changes dead q st st' : untouched st st' -> changes dead q st st'.
Proof. intros (Hv & Hq & _). split; [by rewrite Hv|]. intros q' _. unfold queue_at. by rewrite Hq. Qed.

Lemma set_queue_changes dead q st jq : changes dead (Some q) st (set_queue st q jq).
Proof.
  split; [done|]. intros q' Hq. unfold queue_at, queue_of. simpl.
  rewrite lookup_insert_ne; [done|]. by intros ->.
Qed.

Lemma release_changes q st pj st' : release_job st pj = Some st' -> changes [pj] q st st'.
Proof.
  unfold release_job. intros Hs. inv_bind. split; [|done]. intros y Hy. simpl. unfold view.
  rewrite fmap_delete, lookup_delete_ne; [done|]. set_solver.
Qed.

Lemma notify_changes queued q st st' :
  notify_loop queued st q = Some st' -> changes queued (Some q) st st'.
Proof.
  revert st. induction queued as [|pj queued IH]; intros st; simpl.
  { intros [= <-]. by apply untouched_changes. }
  intros Hs. inv_bind.
  all: match goal with H : UlpDecrRefs _ _ = Some (_, _) |- _ =>
         apply UlpDecrRefs_untouched in H;
         apply (untouched_changes (pj :: queued) (Some q)) in H end.
  all: match goal with H : notify_loop _ _ _ = Some _ |- _ =>
         apply IH in H; apply (changes_weaken _ (pj :: queued)) in H; [|set_solver] end.
  all: eapply changes_trans; [apply set_queue_changes|].
  all: eapply changes_trans; [eassumption|].
  all: try match goal with Hc : CompleteQueued _ _ = Some _, Hr : release_job _ _ = Some _ |- _ =>
         apply CompleteQueued_untouched in Hc;
         apply (untouched_changes (pj :: queued) (Some q)) in Hc;
         apply (release_changes (Some q)) in Hr; apply (changes_weaken _ (pj :: queued)) in Hr;
           [|set_solver];
         eapply changes_trans; [exact Hc|]; eapply changes_trans; [exact Hr|] end.
  all: assumption.
Qed.

Lemma EjqrAdd_changes st q pj r st' :
  EjqrAdd st q pj = Some (r, st') ->
  changes [] (Some q) st st' /\ m_listjQueued (queue_at st' q) ⊆ pj :: m_listjQueued (queue_at st q).
Proof.
  assert (forall st st', s_queues st' = s_queues st -> queue_at st' q = queue_at st q) as Hqe
    by (intros s s' E; unfold queue_at; by rewrite E).
  unfold EjqrAdd. intros Hs. inv_bind.
  all: try match goal with H : IncRefs _ _ = Some _ |- _ => apply IncRefs_untouched in H end.
  all: split; [try by apply untouched_changes|].
  all: try (eapply changes_trans; [apply set_queue_changes|]; by apply untouched_changes).
  all: try match goal with H : untouched _ _ |- _ => destruct H as (_ & H & _); rewrite (Hqe _ _ H) end.
  all: try set_solver.
  all: unfold queue_at, queue_of; simpl; rewrite lookup_insert_eq; simpl; set_solver.
Qed.

Lemma NotifyCompleted_changes st q st' :
  NotifyCompleted st q = Some st' -> changes (m_listjQueued (queue_at st q)) (Some q) st st'.
Proof.
  unfold NotifyCompleted. intros Hs. inv_bind. eapply changes_trans; [apply set_queue_changes|].
  by apply notify_changes.
Qed.

Lemma EjqrAdd_world st q pj r st' :
  EjqrAdd st q pj = Some (r, st') -> s_world st' = s_world st /\ view (s_jobs st') = view (s_jobs st).
Proof.
  unfold EjqrAdd. intros Hs. inv_bind; try done.
  all: match goal with H : IncRefs _ _ = Some _ |- _ => apply IncRefs_untouched in H as (-> & _ & ->) end.
  all: done.
Qed.

(** ** A run *)

Lemma Add_queues st pj parent st' : Add st pj parent = Some st' -> s_queues st' = s_queues st.
Proof.
  unfold Add. intros Hs. destruct parent; inv_bind;
    repeat match goal with
    | H : IncRefs _ _ = Some _ |- _ => apply IncRefs_untouched in H as (_ & ? & _)
    | H : Schedule _ _ = Some _ |- _ => apply Schedule_untouched in H as (_ & ? & _)
    end; simpl in *; congruence.
Qed.

Lemma schedule_children_queues cs st pj st' :
  schedule_children st cs pj = Some st' -> s_queues st' = s_queues st.
Proof.
  revert st. induction cs as [|c cs IH]; intros st; simpl; [by intros [= <-]|].
  intros Hs. inv_bind. apply IH in Hs. unfold ScheduleJob in *.
  destruct (PjCreate _ _). match goal with H : Add _ _ _ = Some _ |- _ => apply Add_queues in H end.
  simpl in *. congruence.
Qed.

(** [a] adds no jobs. *)
Definition adds_none st (a : job_address S) : Prop :=
  forall b, v_job (view (s_jobs st)) a = Some b -> o_children (body (s_world st) b) = [].

Lemma run_job_changes st a c st' :
  run_job body st a = Some (c, st') ->
  s_queues st' = s_queues st /\ (adds_none st a -> changes [a] None st st').
Proof.
  unfold run_job. intros Hs. inv_bind.
  match goal with H : schedule_children _ _ _ = Some _ |- _ => rename H into Hc end.
  split; [by apply schedule_children_queues in Hc|]. intros Hn.
  rewrite Hn in Hc.
  - simpl in Hc. injection Hc as <-. split; [|done]. intros y Hy. simpl. unfold view.
    rewrite fmap_insert, lookup_insert_ne; [done|]. set_solver.
  - unfold v_job. rewrite view_lookup. by match goal with H : s_jobs _ !! _ = Some _ |- _ => rewrite H end.
Qed.

Lemma queue_at_eq st st' q : s_queues st' = s_queues st -> queue_at st' q = queue_at st q.
Proof. unfold queue_at. by intros ->. Qed.

(** What a run of [FExecute] may change, for a job with the queue [q]. *)
Definition round_dead st (a : job_address S) : list (job_address S) :=
  a :: match v_queue (view (s_jobs st)) a with
       | Some q => m_listjQueued (queue_at st q)
       | None => []
       end.

Lemma FExecute_changes st a c st' :
  FExecute body st a = Some (c, st') ->
  (forall q', v_queue (view (s_jobs st)) a <> Some q' -> queue_at st' q' = queue_at st q') /\
  (adds_none st a -> changes (round_dead st a) (v_queue (view (s_jobs st)) a) st st').
Proof.
  unfold FExecute, round_dead, v_queue. intros Hs. rewrite view_lookup.
  destruct (s_jobs st !! a) as [j|] eqn:Hj; [|done]. simpl in *.
  destruct (m_pjq j) as [q|].
  2: { apply run_job_changes in Hs as [Hq Hc]. split; [intros q' _; by apply queue_at_eq|done]. }
  apply bind_Some in Hs as ([r st1] & Hadd & Hs).
  pose proof (EjqrAdd_world _ _ _ _ _ Hadd) as [Hw Hv].
  apply EjqrAdd_changes in Hadd as [Hadd Hsub]. simpl in Hs.
  assert (adds_none st a -> adds_none st1 a) as Hnone by (intros Hn; unfold adds_none; by rewrite Hw, Hv).
  apply (changes_weaken _ (a :: m_listjQueued (queue_at st q))) in Hadd; [|set_solver].
  assert (forall s s', untouched s s' -> changes (a :: m_listjQueued (queue_at st q)) (Some q) s s')
    as Hun by (intros s s'; apply untouched_changes).
  set (dead := a :: m_listjQueued (queue_at st q)) in *.
  assert (forall c s, run_job body st1 a = Some (c, s) ->
            (forall q', queue_at s q' = queue_at st1 q') /\
            (adds_none st a -> changes dead (Some q) st1 s)) as Hrun.
  { intros c' s [Hq Hc]%run_job_changes. split; [intros q'; by apply queue_at_eq|].
    intros Hn. destruct (Hc (Hnone Hn)) as [H1 H2].
    split; [intros y Hy; apply H1; set_solver|intros q' _; by apply queue_at_eq]. }
  destruct r.
  - apply bind_Some in Hs as ([done s] & [Hq Hc]%Hrun & Hs). destruct done.
    + apply bind_Some in Hs as (s' & Hn%NotifyCompleted_changes & [= <- <-]).
      rewrite Hq in Hn. apply (changes_weaken _ dead _ _ _ Hsub) in Hn. split.
      * intros q' Hq'. by rewrite (ch_queues _ _ _ _ Hn q' Hq'), Hq, (ch_queues _ _ _ _ Hadd q' Hq').
      * intros Ha. eapply changes_trans; [exact Hadd|]. eapply changes_trans; [exact (Hc Ha)|exact Hn].
    + apply bind_Some in Hs as ([refs s'] & Hd%UlpDecrRefs_untouched & [= <- <-]). split.
      * intros q' Hq'. rewrite (queue_at_eq _ _ _ (proj1 (proj2 Hd))), Hq.
        by apply (ch_queues _ _ _ _ Hadd).
      * intros Ha. eapply changes_trans; [exact Hadd|]. eapply changes_trans; [exact (Hc Ha)|by apply Hun].
  - injection Hs as <- <-. split; [apply (ch_queues _ _ _ _ Hadd)|done].
  - injection Hs as <- <-. split; [apply (ch_queues _ _ _ _ Hadd)|done].
Qed.

(** The queue frame and the job frame of a round. *)
Lemma round_frame st a st1 st' :
  PjRetrieve st = Some (Some a, st1) -> execute_job body st1 a = Some st' ->
  (forall q', v_queue (view (s_jobs st)) a <> Some q' -> queue_at st' q' = queue_at st q') /\
  (adds_none st a -> forall y, y ∉ round_dead st a -> view (s_jobs st') !! y = view (s_jobs st) !! y).
Proof.
  intros Hret%PjRetrieve_untouched Hex. unfold execute_job in Hex.
  apply bind_Some in Hex as (st2 & Hpre%PreExecute_untouched & Hex).
  apply bind_Some in Hex as ([c st3] & Hf & Hex).
  apply bind_Some in Hex as (st4 & Hrun%remove_running_untouched & Hex).
  apply bind_Some in Hex as ([r st5] & Hpost & Hex).
  pose proof (untouched_trans _ _ _ Hret Hpre) as (Hv & Hq & Hw).
  assert (untouched st4 st5) as H45.
  { unfold EjrPostExecute in Hpost. inv_bind.
    all: match goal with H : UlpDecrRefs _ _ = Some _ |- _ => apply UlpDecrRefs_untouched in H; exact H end. }
  assert (changes [a] None st5 st') as H5.
  { destruct r; simpl in Hex; inv_bind.
    - apply untouched_changes. by eapply Resume_untouched.
    - apply untouched_changes. by eapply Suspend_untouched.
    - eapply changes_trans; [apply untouched_changes; by eapply Complete_untouched|].
      by apply release_changes. }
  pose proof (untouched_trans _ _ _ Hrun H45) as (Hv3 & Hq3 & _).
  apply FExecute_changes in Hf as [Hf1 Hf2]. rewrite Hv in Hf1. split.
  - intros q' Hq'. rewrite (ch_queues _ _ _ _ H5) by done. rewrite (queue_at_eq _ _ _ Hq3).
    rewrite Hf1 by done. by apply queue_at_eq.
  - intros Hn y Hy. rewrite (ch_jobs _ _ _ _ H5) by (unfold round_dead in Hy; set_solver).
    rewrite Hv3. rewrite (ch_jobs _ _ _ _ (Hf2 ltac:(unfold adds_none; by rewrite Hv, Hw))).
    + by rewrite Hv.
    + unfold round_dead in *. rewrite Hv. destruct (v_queue _ a); [|done].
      by rewrite (queue_at_eq _ _ _ Hq).
Qed.

(** ** Induction *)

(** A job that waits to run has no children. *)
Lemma waiting_no_children st a rest :
  Inv st -> m_listjlWaiting (s_sched st) = a :: rest -> nchildren (view (s_jobs st)) a = 0.
Proof.
  intros [HC _] Hw.
  destruct (waiting_job _ _ _ _ _ _ _ a HC) as (_ & _ & j & Hj & _ & Hr); [rewrite Hw; by left|].
  by destruct (no_children _ _ _ _ _ _ _ _ _ HC Hj Hr).
Qed.

(** What one round says, to the proof that it keeps an invariant. *)
Record round (st : st_t) (a : job_address S) (b : B) (st' : st_t) : Prop := {
  rd_job : v_job (view (s_jobs st)) a = Some b;
  rd_as : round_as body st a b st';
  rd_free : nchildren (view (s_jobs st)) a = 0;
  rd_queues q' : v_queue (view (s_jobs st)) a <> Some q' -> queue_at st' q' = queue_at st q';
  rd_jobs : adds_none st a -> forall y, y ∉ round_dead st a ->
    view (s_jobs st') !! y = view (s_jobs st) !! y;
}.

Lemma ExecuteJobs_wf {M : Type} (lt : M -> M -> Prop) (mu : st_t -> M) (I : st_t -> Prop) :
  well_founded lt -> completes_alone body -> (forall st x, I st -> I (set_stats st x)) ->
  (forall st a b st', Inv st -> I st -> round st a b st' -> Inv st' -> I st' /\ lt (mu st') (mu st)) ->
  forall st, Inv st -> I st ->
  exists fuel st', ExecuteJobs body fuel st = Some st' /\ Inv st' /\ I st' /\
    m_listjlWaiting (s_sched st') = [].
Proof.
  intros Hwf Hdone Hstats Hstep st. remember (mu st) as m eqn:Hm. revert st Hm.
  induction m as [m IH] using (well_founded_induction Hwf). intros st -> HI HJ.
  destruct (m_listjlWaiting (s_sched st)) as [|a rest] eqn:Hw.
  - exists 1%nat. simpl. unfold PjRetrieve. rewrite Hw. simpl. eexists. split; [done|].
    split; [by destruct HI|]. split; [by apply Hstats|done].
  - destruct (round_spec body st a rest Hdone HI Hw) as (st1 & b & st' & Hr & Hex & Hb & Has & HI').
    destruct (round_frame st a st1 st' Hr Hex) as [Hq Hj].
    destruct (Hstep st a b st' HI HJ) as [HJ' Hlt]; [|done|].
    { split; try done. by apply (waiting_no_children st a rest). }
    destruct (IH _ Hlt st' eq_refl HI' HJ') as (fuel & st2 & Hf & Hrest).
    exists (Datatypes.S fuel), st2. split; [|done]. simpl. rewrite Hr. simpl. by rewrite Hex.
Qed.

End frame.
