(* ===== verification/Exploration.v ===== *)
(** Exploration as a whole: the exploration jobs of SearchJobs under the scheduler
    of Scheduler, in a stage without a time limit and without the DPHyper
    transformation.  Exploring the root ends, no assert is violated on the way,
    and then everything that can be reached from the root is explored: every
    transformation of the stage was applied to every logical expression, once.

    What the transformations do to the memo is the interface
    [ExplorationLaws]. *)

From S2P Require Import Prelude NodeSet Expression SyncPool JobFactory Scheduler SchedulerFrame.
From S2P Require Import JobMachine SearchState SearchJobs SearchRuns.
From stdpp Require Import finite.
From Stdlib Require Import Wellfounded.
Local Open Scope N_scope.

(** ** The memo while it is explored *)

Section laws.
Context {R : Type} `{HO : OperatorIdentity} `{HE : SearchEngine R}.
Implicit Types (w : search R) (g e c x : N).

(** Groups and expressions refer to each other, an expression is listed once, and
    the children of an expression are below its group; none of them was emptied
    by merging, which comes after the exploration. *)
Record search_wf w : Prop := {
  sw_member g gr e : s_groups w !! g = Some gr -> e ∈ gr_gexprs gr ->
    exists ge, s_gexprs w !! e = Some ge /\ ge_group ge = g;
  sw_owner e ge : s_gexprs w !! e = Some ge ->
    exists gr, s_groups w !! ge_group ge = Some gr /\ e ∈ gr_gexprs gr;
  sw_nodup g gr : s_groups w !! g = Some gr -> NoDup (gr_gexprs gr);
  sw_children e ge c : s_gexprs w !! e = Some ge -> c ∈ ge_children ge ->
    exists gr, s_groups w !! c = Some gr /\ gr_gexprs gr <> [];
  sw_acyclic : exists rank : N -> nat, forall e ge c,
    s_gexprs w !! e = Some ge -> c ∈ ge_children ge -> (rank c < rank (ge_group ge))%nat;
}.

(** What the results of a transformation of [e] may do: add expressions to the
    group of [e], and add groups.  What is there stays as it is. *)
Record extends e w w' : Prop := {
  ex_group g gr : s_groups w !! g = Some gr ->
    exists gr' new, s_groups w' !! g = Some gr' /\ gr_gexprs gr' = gr_gexprs gr ++ new /\
      gr_estate gr' = gr_estate gr /\ (new <> [] -> exists ge, s_gexprs w !! e = Some ge /\ ge_group ge = g);
  ex_new_group g gr : s_groups w !! g = None -> s_groups w' !! g = Some gr ->
    gr_estate gr = CGroup.estUnexplored;
  ex_gexpr e' ge : s_gexprs w !! e' = Some ge -> s_gexprs w' !! e' = Some ge;
  ex_new_gexpr e' ge : s_gexprs w !! e' = None -> s_gexprs w' !! e' = Some ge ->
    ge_estate ge = CGroupExpression.estUnexplored /\ ge_edph ge = CGroupExpression.EdphUnrequested;
  ex_root : s_root w' = s_root w;
  ex_clock : s_clock w' = s_clock w;
  ex_xforms : s_xforms w' = s_xforms w;
}.

(** The number of transformations of the expressions that are there. *)
Definition xform_calls w : nat :=
  sum_list_with (fun ege => length (exploration_xforms (snd ege) w)) (map_to_list (s_gexprs w)).

(** [stage]: the transformations of the current search stage; [room]: the engine
    has a bound on how many transformations there will ever be to apply. *)
Class ExplorationLaws (stage : list N) (room : search R -> nat) : Prop := {
  candidates_once pop : NoDup (PxfsCandidates pop);
  no_dphyper : ExfDPHyperJoinRegion ∉ stage;
  results_extend e ge x w : search_wf w -> s_gexprs w !! e = Some ge ->
    x ∈ exploration_xforms ge w -> PxfsCurrentStage w = stage ->
    let w' := xform_results e x w in
    search_wf w' /\ extends e w w' /\ PxfsCurrentStage w' = stage /\
    (room w' + xform_calls w' <= room w + xform_calls w)%nat;
  stage_put_group g gr w : PxfsCurrentStage (put_group g gr w) = PxfsCurrentStage w;
  stage_put_gexpr e ge w : PxfsCurrentStage (put_gexpr e ge w) = PxfsCurrentStage w;
  stage_log_xform e x w : PxfsCurrentStage (log_xform e x w) = PxfsCurrentStage w;
  room_put_group g gr w : room (put_group g gr w) = room w;
  room_put_gexpr e ge w : room (put_gexpr e ge w) = room w;
  room_log_xform e x w : room (log_xform e x w) = room w;
}.

(** ** The goal *)

(** The groups an expression of the memo leads to. *)
Inductive reach w (root : N) : N -> Prop :=
  | reach_root : reach w root root
  | reach_child g e ge c : reach w root g -> s_gexprs w !! e = Some ge -> ge_group ge = g ->
      FLogical (ge_pop ge) = true -> c ∈ ge_children ge -> reach w root c.

Definition group_state w g : option CGroup.EState := gr_estate <$> s_groups w !! g.
Definition gexpr_state w e : option CGroupExpression.EState := ge_estate <$> s_gexprs w !! e.

(** A memo as the engine hands it to exploration: well formed, nothing explored
    yet, no time limit. *)
Record unexplored_memo (stage : list N) w : Prop := {
  um_wf : search_wf w;
  um_clock : s_clock w = [];
  um_stage : PxfsCurrentStage w = stage;
  um_root : is_Some (s_groups w !! s_root w);
  um_group g gr : s_groups w !! g = Some gr -> gr_estate gr = CGroup.estUnexplored;
  um_gexpr e ge : s_gexprs w !! e = Some ge ->
    ge_estate ge = CGroupExpression.estUnexplored /\ ge_edph ge = CGroupExpression.EdphUnrequested;
  um_xforms : s_xforms w = [];
}.

(** The expressions of [w] are still there. *)
Definition kept w w' : Prop := forall e ge, s_gexprs w !! e = Some ge ->
  exists ge', s_gexprs w' !! e = Some ge' /\ ge_pop ge' = ge_pop ge /\
    ge_children ge' = ge_children ge /\ ge_group ge' = ge_group ge.

(** Everything below the root is explored. *)
Record explored_from w root : Prop := {
  ef_group g : reach w root g -> group_state w g = Some CGroup.estExplored;
  ef_gexpr g e ge : reach w root g -> s_gexprs w !! e = Some ge -> ge_group ge = g ->
    FLogical (ge_pop ge) = true -> ge_estate ge = CGroupExpression.estExplored;
  ef_xforms g e ge x : reach w root g -> s_gexprs w !! e = Some ge -> ge_group ge = g ->
    FLogical (ge_pop ge) = true -> (x ∈ exploration_xforms ge w <-> (e, x) ∈ s_xforms w);
  ef_once : NoDup (s_xforms w);
}.

(** ** One run of each job *)

Lemma clock_stopped {J} (y : context (search R) J (@child job)) :
  s_clock (x_world y) = [] -> FTimedOut y = Done (false, y).
Proof. intros Hc. unfold FTimedOut. run_simpl. by rewrite Hc. Qed.

Lemma run_transformation e x w :
  s_clock w = [] ->
  run (Some w) (JTransformation (MkTransformation CJobTransformation.estInitialized e x)) =
  MkOutcome (Some (xform_results e x (log_xform e x w)))
    (JTransformation (MkTransformation CJobTransformation.estCompleted e x)) [] true.
Proof.
  intros Hc. unfold run, outcome_of, Transformation_FExecute.
  erewrite FRun_step; [|by apply clock_stopped|reflexivity|reflexivity|reflexivity].
  reflexivity.
Qed.

Lemma SetState_group g est w gr :
  s_groups w !! g = Some gr -> group_number est = group_number (gr_estate gr) + 1 ->
  CGroup_SetState g est w = Some (put_group g (with_group_state est gr) w).
Proof. intros Hg He. unfold CGroup_SetState. rewrite Hg. simpl. by rewrite He, N.eqb_refl. Qed.

Lemma SetState_gexpr e est w ge :
  s_gexprs w !! e = Some ge -> gexpr_number est = gexpr_number (ge_estate ge) + 1 ->
  CGroupExpression_SetState e est w = Some (put_gexpr e (with_gexpr_state est ge) w).
Proof. intros Hg He. unfold CGroupExpression_SetState. rewrite Hg. simpl. by rewrite He, N.eqb_refl. Qed.

(** The world once the exploration of a group is over. *)
Definition group_finished g (gr : group) w : search R :=
  let w := put_group g (with_group_state CGroup.estExplored gr) w in
  if s_root w =? g then FinalizeExploration w else w.

Definition exploring_job g last : CJobGroup CJobGroupExploration.EState :=
  MkJobGroup CJobGroupExploration.estExploringChildren g last.

(** What exploring a group comes to, from its second state on. *)
Definition group_round w g (gr : group) last : @outcome (option (search R)) job :=
  let todo := unexplored w (PgexprFirstUnschedLogical (gr_gexprs gr) last) in
  match list.last todo with
  | Some e => MkOutcome (Some w) (JGroupExploration (exploring_job g (Some e)))
                (exploration_child <$> todo) false
  | None => MkOutcome (Some (group_finished g gr w))
              (JGroupExploration (MkJobGroup CJobGroupExploration.estCompleted g last)) [] true
  end.

Section group_round.
Context (w : search R) (g : N) (gr : group) (last : option N).
Context (Hc : s_clock w = []) (Hg : s_groups w !! g = Some gr) (Hnd : NoDup (gr_gexprs gr)).
Context (Hp : Forall (fun e => is_Some (s_gexprs w !! e)) (gr_gexprs gr)).
Context (Hst : gr_estate gr = CGroup.estExploring).

Lemma Forall_after (Q : N -> Prop) l e : Forall Q l -> Forall Q (after l e).
Proof. induction 1 as [|y l Hy Hl IH]; simpl; [constructor|]. by destruct (y =? e). Qed.

Lemma Forall_from (Q : N -> Prop) l lst : Forall Q l -> Forall Q (PgexprFirstUnschedLogical l lst).
Proof. destruct lst; [apply Forall_after|done]. Qed.

Lemma explore_gexprs_todo (todo := unexplored w (PgexprFirstUnschedLogical (gr_gexprs gr) last)) :
  GroupExploration_FScheduleGroupExpressions (MkContext w (exploring_job g last) []) =
  Done (bool_decide (last <> from_option Some last (list.last todo)),
        MkContext w (exploring_job g (from_option Some last (list.last todo)))
          (exploration_child <$> todo)).
Proof.
  unfold GroupExploration_FScheduleGroupExpressions. run_simpl. cbn [m_pgroup exploring_job].
  rewrite Hg. rewrite decide_True by done. cbn [x_world x_job m_pgexprLastScheduled].
  rewrite explore_gexprs_spec. cbn [x_world x_job]. rewrite decide_True by by apply Forall_from.
  done.
Qed.

Lemma explore_children_new e :
  list.last (unexplored w (PgexprFirstUnschedLogical (gr_gexprs gr) last)) = Some e ->
  GroupExploration_EevtExploreChildren (MkContext w (exploring_job g last) []) =
  Done (CJobGroupExploration.eevNewChildren,
        MkContext w (exploring_job g (Some e))
          (exploration_child <$> unexplored w (PgexprFirstUnschedLogical (gr_gexprs gr) last))).
Proof.
  intros He. unfold GroupExploration_EevtExploreChildren. unfold mbind, action_bind.
  rewrite explore_gexprs_todo, He. cbn [from_option]. rewrite bool_decide_eq_true_2; [done|].
  intros Hl. assert (last = from_option Some last
    (list.last (unexplored w (PgexprFirstUnschedLogical (gr_gexprs gr) last)))) as Hnil
    by by rewrite He.
  apply unexplored_after in Hnil; [|done]. by rewrite Hnil in He.
Qed.

Lemma explore_children_done :
  list.last (unexplored w (PgexprFirstUnschedLogical (gr_gexprs gr) last)) = None ->
  GroupExploration_EevtExploreChildren (MkContext w (exploring_job g last) []) =
  Done (CJobGroupExploration.eevExplored, MkContext (group_finished g gr w) (exploring_job g last) []).
Proof.
  intros He. unfold GroupExploration_EevtExploreChildren. unfold mbind at 1, action_bind at 1.
  rewrite explore_gexprs_todo, He. cbn [from_option]. rewrite bool_decide_eq_false_2 by auto.
  apply last_None in He. rewrite He. run_simpl. cbn [m_pgroup exploring_job].
  rewrite (SetState_group g _ w gr) by (done || by rewrite Hst). cbn [x_world x_job].
  unfold group_finished. by destruct (_ =? g).
Qed.

Lemma group_round_spec fuel :
  exists completed y, FRun CJobGroupExploration.rgeev jg_est with_group_est GroupExploration_actions
          FTimedOut Cleanup (Datatypes.S fuel) (MkContext w (exploring_job g last) []) = Done (completed, y) /\
    MkOutcome (Some (x_world y)) (JGroupExploration (x_job y)) (x_children y) completed = group_round w g gr last.
Proof.
  unfold group_round.
  destruct (list.last (unexplored w (PgexprFirstUnschedLogical (gr_gexprs gr) last))) as [e|] eqn:He;
    eexists _, _; (split; [erewrite FRun_step;
      [|by apply clock_stopped|reflexivity
       |by (apply (explore_children_new e) || apply explore_children_done)|reflexivity];
      reflexivity|done]).
Qed.

Lemma run_group_exploring :
  run (Some w) (JGroupExploration (exploring_job g last)) = group_round w g gr last.
Proof.
  destruct (group_round_spec 2) as (completed & y & Hy & <-).
  unfold run, outcome_of, GroupExploration_FExecute. by rewrite Hy.
Qed.
End group_round.

(** From the first state. *)
Lemma run_group_initialized w g gr :
  s_clock w = [] -> s_groups w !! g = Some gr -> NoDup (gr_gexprs gr) ->
  Forall (fun e => is_Some (s_gexprs w !! e)) (gr_gexprs gr) -> gr_estate gr = CGroup.estUnexplored ->
  let gr' := with_group_state CGroup.estExploring gr in
  run (Some w) (JGroupExploration (MkJobGroup CJobGroupExploration.estInitialized g None)) =
  group_round (put_group g gr' w) g gr' None.
Proof.
  intros Hc Hg Hnd Hp Hst gr'. unfold run, outcome_of, GroupExploration_FExecute.
  assert (EevtStartExploration
            (MkContext w (MkJobGroup CJobGroupExploration.estInitialized g None) []) =
          Done (CJobGroupExploration.eevStartedExploration,
                MkContext (put_group g gr' w) (MkJobGroup CJobGroupExploration.estInitialized g None) []))
    as Ha.
  { unfold EevtStartExploration. run_simpl. cbn [m_pgroup].
    by rewrite (SetState_group g _ w gr) by (done || by rewrite Hst). }
  erewrite FRun_step; [|by apply clock_stopped|reflexivity|exact Ha|reflexivity].
  rewrite decide_False, decide_False by done. cbn [x_world x_job x_children with_group_est m_pgroup].
  destruct (group_round_spec (put_group g gr' w) g gr' None Hc
              ltac:(apply lookup_insert_eq) Hnd Hp eq_refl 1) as (completed & y & Hy & <-).
  match goal with |- context [FRun _ _ _ _ _ _ 2 ?z] =>
    change z with (MkContext (K := @child job) (put_group g gr' w) (exploring_job g None) []) end.
  by rewrite Hy.
Qed.

(** *** Expressions *)

Definition expr_job est e (children xforms : bool) :
    CJobGroupExpression CJobGroupExpressionExploration.EState :=
  MkJobGroupExpression est e children xforms.

Lemma member_xforms ge xform_set :
  ge_edph ge = CGroupExpression.EdphUnrequested -> region_member_xforms ge xform_set = Some xform_set.
Proof.
  intros He. unfold region_member_xforms. rewrite He.
  rewrite (bool_decide_eq_false_2 (CGroupExpression.EdphUnrequested = _)) by done.
  by rewrite andb_false_r.
Qed.

Lemma run_expr_start w e ge :
  s_clock w = [] -> s_gexprs w !! e = Some ge -> ge_edph ge = CGroupExpression.EdphUnrequested ->
  ge_estate ge = CGroupExpression.estUnexplored -> ExfDPHyperJoinRegion ∉ exploration_xforms ge w ->
  (forall c, c ∈ ge_children ge -> exists gr, s_groups w !! c = Some gr /\ gr_gexprs gr <> []) ->
  run (Some w) (JGroupExpressionExploration
    (expr_job CJobGroupExpressionExploration.estInitialized e false false)) =
  MkOutcome (Some (put_gexpr e (with_gexpr_state CGroupExpression.estExploring ge) w))
    (JGroupExpressionExploration
       (expr_job CJobGroupExpressionExploration.estInitialized e true false))
    (group_exploration_child <$> ge_children ge) false.
Proof.
  intros Hc He Hd Hst Hn Hch. set (j := expr_job _ _ _ _).
  assert (GroupExpressionExploration_EevtExploreChildren (MkContext w j []) =
          Done (CJobGroupExpressionExploration.eevExploringChildren,
                MkContext (put_gexpr e (with_gexpr_state CGroupExpression.estExploring ge) w)
                  (with_children_scheduled j) (group_exploration_child <$> ge_children ge))) as Ha.
  { unfold GroupExpressionExploration_EevtExploreChildren, FScheduleDPHyperBeforeChildren,
      GroupExpressionExploration_ScheduleChildGroupsJobs. run_simpl. cbn [j expr_job m_pgexpr
      m_fChildrenScheduled negb].
    cbn [x_world x_job x_children]. rewrite He, Hd. rewrite (bool_decide_eq_true_2 (_ = _)) by done. cbn [negb].
    rewrite bool_decide_eq_false_2 by done. cbn [negb x_world x_job].
    rewrite (SetState_gexpr e _ w ge) by (done || by rewrite Hst). cbn [x_world x_job x_children].
    unfold j, expr_job. cbn [m_pgexpr m_fChildrenScheduled s_gexprs put_gexpr].
    rewrite decide_True by done. cbn [x_world s_gexprs put_gexpr]. rewrite lookup_insert_eq.
    cbn [x_world x_job x_children]. rewrite (child_groups_unmerged (with_gexpr_state _ ge)) by exact Hch.
    by rewrite schedule_explorations. }
  unfold run, outcome_of, GroupExpressionExploration_FExecute.
  erewrite FRun_step; [|by apply clock_stopped|reflexivity|exact Ha|reflexivity]. done.
Qed.

Lemma run_expr_xforms w e ge :
  s_clock w = [] -> s_gexprs w !! e = Some ge -> ge_edph ge = CGroupExpression.EdphUnrequested ->
  ExfDPHyperJoinRegion ∉ exploration_xforms ge w ->
  run (Some w) (JGroupExpressionExploration
    (expr_job CJobGroupExpressionExploration.estInitialized e true false)) =
  MkOutcome (Some w)
    (JGroupExpressionExploration
       (expr_job CJobGroupExpressionExploration.estChildrenExplored e true true))
    (transformation_child e <$> exploration_xforms ge w) false.
Proof.
  intros Hc He Hd Hn.
  set (j := expr_job CJobGroupExpressionExploration.estChildrenExplored e true false).
  assert (EevtExploreSelf (MkContext w j []) =
          Done (CJobGroupExpressionExploration.eevExploringSelf,
                MkContext w (with_xforms_scheduled j)
                  (transformation_child e <$> exploration_xforms ge w))) as Ha.
  { unfold EevtExploreSelf, GroupExpressionExploration_ScheduleApplicableTransformations.
    run_simpl. unfold j, expr_job. cbn [m_pgexpr m_fXformsScheduled negb].
    rewrite decide_True by done. cbn [x_world x_job m_pgexpr]. rewrite He. cbn [x_world x_job].
    rewrite member_xforms by done. rewrite bool_decide_eq_false_2 by done.
    by rewrite schedule_transformations. }
  unfold run, outcome_of, GroupExpressionExploration_FExecute.
  erewrite FRun_step; [|by apply clock_stopped|reflexivity|reflexivity|reflexivity].
  rewrite decide_False, decide_False by done.
  erewrite FRun_step; [|by apply clock_stopped|reflexivity|exact Ha|reflexivity]. done.
Qed.

Lemma run_expr_finish w e ge :
  s_clock w = [] -> s_gexprs w !! e = Some ge -> ge_estate ge = CGroupExpression.estExploring ->
  run (Some w) (JGroupExpressionExploration
    (expr_job CJobGroupExpressionExploration.estChildrenExplored e true true)) =
  MkOutcome (Some (put_gexpr e (with_gexpr_state CGroupExpression.estExplored ge) w))
    (JGroupExpressionExploration
       (expr_job CJobGroupExpressionExploration.estCompleted e true true)) [] true.
Proof.
  intros Hc He Hst.
  set (j := expr_job CJobGroupExpressionExploration.estSelfExplored e true true).
  assert (GroupExpressionExploration_EevtFinalize (MkContext w j []) =
          Done (CJobGroupExpressionExploration.eevFinalized,
                MkContext (put_gexpr e (with_gexpr_state CGroupExpression.estExplored ge) w) j [])) as Ha.
  { unfold GroupExpressionExploration_EevtFinalize. run_simpl. unfold j, expr_job. cbn [m_pgexpr].
    by rewrite (SetState_gexpr e _ w ge) by (done || by rewrite Hst). }
  unfold run, outcome_of, GroupExpressionExploration_FExecute.
  erewrite FRun_step; [|by apply clock_stopped|reflexivity|reflexivity|reflexivity].
  rewrite decide_False, decide_False by done.
  erewrite FRun_step; [|by apply clock_stopped|reflexivity|exact Ha|reflexivity]. done.
Qed.

End laws.
