(* ===== verification/ExplorationInv.v ===== *)
(** The invariant of exploration: what the jobs in memory, the queues of the
    groups and the states of the memo say about each other between two rounds of
    the scheduler.

    A step of a job is split into steps on the invariant, one lemma each; a job
    that runs has no children, so that the shapes of the other jobs do not depend
    on it. *)

From S2P Require Import Prelude NodeSet Expression SyncPool JobFactory Scheduler SchedulerFrame.
From S2P Require Import JobMachine SearchState SearchJobs SearchRuns Exploration.
From stdpp Require Import finite.
Local Open Scope N_scope.

Section invariant.
Context {S : Type} `{Countable S} {R : Type} `{HO : OperatorIdentity} `{HE : SearchEngine R}.
Context (stage : list N) (room : search R -> nat) `{!ExplorationLaws stage room} (root : N).

Abbreviation addr := (job_address S).
Abbreviation table := (gmap addr (option addr * option N * option job)).
Implicit Types (v : table) (w : search R) (a y m : addr) (g e c x : N) (dn : N -> bool)
  (mn : N -> option addr).

(** ** The jobs of exploration *)

Definition init_group g : job :=
  JGroupExploration (MkJobGroup CJobGroupExploration.estInitialized g None).
Definition main_group g (last : option N) : job := JGroupExploration (exploring_job g last).
Definition start_expr e : job :=
  JGroupExpressionExploration (expr_job CJobGroupExpressionExploration.estInitialized e false false).
Definition wait_expr e : job :=
  JGroupExpressionExploration (expr_job CJobGroupExpressionExploration.estInitialized e true false).
Definition apply_expr e : job :=
  JGroupExpressionExploration (expr_job CJobGroupExpressionExploration.estChildrenExplored e true true).
Definition xform_job e x : job :=
  JTransformation (MkTransformation CJobTransformation.estInitialized e x).

Definition has v a (b : job) : Prop := v_job v a = Some b.

(** The transformations of an expression in the current stage. *)
Definition stage_xforms (ge : gexpr) : list N :=
  CXformSet_Intersection (CXformSet_Intersection (PxfsCandidates (ge_pop ge)) PxfsExploration) stage.

(** The expression is waiting for its group to schedule it. *)
Definition pending v w e (ge : gexpr) : Prop :=
  exists gr, s_groups w !! ge_group ge = Some gr /\
    (gr_estate gr = CGroup.estUnexplored \/
     exists a last, has v a (main_group (ge_group ge) last) /\
       e ∈ PgexprFirstUnschedLogical (gr_gexprs gr) last).

(** The main job [m] of the group has scheduled it. *)
Definition scheduled v w m e (ge : gexpr) : Prop :=
  exists gr last, s_groups w !! ge_group ge = Some gr /\ has v m (main_group (ge_group ge) last) /\
    (forall l, last = Some l -> l ∈ gr_gexprs gr) /\
    e ∉ PgexprFirstUnschedLogical (gr_gexprs gr) last.

(** A job for a group is the first one, or that of an input of an expression. *)
Definition owned v w (p : option addr) g : Prop :=
  match p with
  | None => g = root
  | Some y => exists e ge, has v y (wait_expr e) /\ s_gexprs w !! e = Some ge /\ g ∈ ge_children ge
  end.

(** The phases of an expression job, and the state of the expression. *)
Inductive phase e : job -> CGroupExpression.EState -> Prop :=
  | phase_start : phase e (start_expr e) CGroupExpression.estUnexplored
  | phase_wait : phase e (wait_expr e) CGroupExpression.estExploring
  | phase_apply : phase e (apply_expr e) CGroupExpression.estExploring.

(** What a job in memory looks like. *)
Inductive shape v w : option addr -> option N -> job -> Prop :=
  | shape_init p g : is_Some (s_groups w !! g) -> reach w root g -> owned v w p g ->
      shape v w p (Some (PjqExploration g)) (init_group g)
  | shape_main p g last : is_Some (s_groups w !! g) -> reach w root g -> owned v w p g ->
      shape v w p (Some (PjqExploration g)) (main_group g last)
  | shape_expr m e ge b : s_gexprs w !! e = Some ge -> FLogical (ge_pop ge) = true ->
      reach w root (ge_group ge) -> scheduled v w m e ge -> phase e b (ge_estate ge) ->
      shape v w (Some m) None b
  | shape_xform y e x ge : s_gexprs w !! e = Some ge -> has v y (apply_expr e) ->
      x ∈ stage_xforms ge -> (e, x) ∉ s_xforms w ->
      shape v w (Some y) None (xform_job e x).

(** How far an expression is. *)
Definition expr_status v dn w e (ge : gexpr) : Prop :=
  match ge_estate ge with
  | CGroupExpression.estUnexplored => pending v w e ge \/ exists a, has v a (start_expr e)
  | CGroupExpression.estExploring =>
      (exists a, has v a (wait_expr e) /\ forall c, c ∈ ge_children ge ->
         dn c = true \/ exists y j, v !! y = Some (Some a, Some (PjqExploration c), Some (JGroupExploration j)))
      \/ (exists a, has v a (apply_expr e) /\ (forall c, c ∈ ge_children ge -> dn c = true) /\
         forall x, x ∈ stage_xforms ge ->
           (e, x) ∈ s_xforms w \/ exists y, v !! y = Some (Some a, None, Some (xform_job e x)))
  | CGroupExpression.estExplored =>
      (forall c, c ∈ ge_children ge -> dn c = true) /\
      forall x, x ∈ stage_xforms ge -> (e, x) ∈ s_xforms w
  | _ => False
  end.

(** How far a group is: [dn], its queue is done, [mn], its queue has a main job. *)
Definition group_status v dn mn w g (gr : group) : Prop :=
  if dn g then
    gr_estate gr = CGroup.estExplored /\
    forall e ge, e ∈ gr_gexprs gr -> s_gexprs w !! e = Some ge -> FLogical (ge_pop ge) = true ->
      ge_estate ge = CGroupExpression.estExplored
  else match mn g with
  | None => gr_estate gr = CGroup.estUnexplored
  | Some a => gr_estate gr = CGroup.estExploring /\
      exists last, has v a (main_group g last) /\ forall l, last = Some l -> l ∈ gr_gexprs gr
  end.

(** The memo, apart from the jobs. *)
Record memo_inv w : Prop := {
  mi_wf : search_wf w;
  mi_clock : s_clock w = [];
  mi_stage : PxfsCurrentStage w = stage;
  mi_root : s_root w = root;
  mi_edph e ge : s_gexprs w !! e = Some ge -> ge_edph ge = CGroupExpression.EdphUnrequested;
}.

Record exploring v dn mn w : Prop := {
  xv_memo : memo_inv w;
  xv_shape a p q ob : v !! a = Some (p, q, ob) -> exists b, ob = Some b /\ shape v w p q b;
  xv_first : exists a0 q0 b0, v !! a0 = Some (None, q0, b0) /\
    forall a q b, v !! a = Some (None, q, b) -> a = a0;
  xv_open : dn root = false;
  xv_fresh g : s_groups w !! g = None -> dn g = false /\ mn g = None;
  xv_group g gr : s_groups w !! g = Some gr -> group_status v dn mn w g gr;
  xv_main a g last : has v a (main_group g last) -> dn g = false /\ mn g = Some a;
  xv_expr e ge : s_gexprs w !! e = Some ge -> FLogical (ge_pop ge) = true -> expr_status v dn w e ge;
  xv_unique a a' e b b' s s' : has v a b -> has v a' b' -> phase e b s -> phase e b' s' -> a = a';
  xv_xform a a' e x : has v a (xform_job e x) -> has v a' (xform_job e x) -> a = a';
  xv_once : NoDup (s_xforms w);
  xv_applied e x : (e, x) ∈ s_xforms w -> exists ge, s_gexprs w !! e = Some ge /\
    FLogical (ge_pop ge) = true /\ x ∈ stage_xforms ge /\
    (ge_estate ge = CGroupExpression.estExplored \/ exists a, has v a (apply_expr e));
}.

Lemma stage_xforms_eq w ge : PxfsCurrentStage w = stage -> exploration_xforms ge w = stage_xforms ge.
Proof. intros Hs. unfold exploration_xforms, stage_xforms. by rewrite Hs. Qed.

Lemma stage_xforms_nodup ge : NoDup (stage_xforms ge).
Proof. unfold stage_xforms, CXformSet_Intersection. apply NoDup_filter, NoDup_filter, (candidates_once (stage := stage) (room := room)). Qed.

Lemma stage_xforms_stage ge x : x ∈ stage_xforms ge -> x ∈ stage.
Proof. unfold stage_xforms, CXformSet_Intersection. by intros [? _]%list_elem_of_filter. Qed.

(** ** Lookups *)

Lemma has_lookup v a b : has v a b <-> exists p q, v !! a = Some (p, q, Some b).
Proof.
  unfold has, v_job. split.
  - destruct (v !! a) as [[[p q] ob]|]; [|done]. simpl. intros ->. by exists p, q.
  - by intros (p & q & ->).
Qed.

(** The table after children were added. *)
Definition child_entry y (ch : @child job) : option addr * option N * option job :=
  (Some y, c_pjq ch, Some (c_job ch)).

Record grown y v (cs : list (@child job)) v' : Prop := {
  gw_old : v ⊆ v';
  gw_new z ent : v !! z = None -> v' !! z = Some ent -> exists ch, ch ∈ cs /\ ent = child_entry y ch;
  gw_all ch : ch ∈ cs -> exists z, v !! z = None /\ v' !! z = Some (child_entry y ch);
  gw_once z z' ent : NoDup (child_entry y <$> cs) -> v !! z = None -> v !! z' = None ->
    v' !! z = Some ent -> v' !! z' = Some ent -> z = z';
}.

Lemma spawned_grown y v cs v' : spawned y v cs v' -> grown y v cs v'.
Proof.
  induction 1 as [v|v ch cs z v' Hz Hs IH].
  { split; [done| | |]; try (intros; congruence). intros ch Hin. by apply elem_of_nil in Hin. }
  destruct IH as [Hold Hnew Hall Honce].
  assert (v' !! z = Some (child_entry y ch)) as Hvz.
  { eapply lookup_weaken; [|exact Hold]. by rewrite lookup_insert_eq. }
  split.
  - etrans; [|exact Hold]. by apply insert_subseteq.
  - intros t ent Ht Hv. destruct (decide (t = z)) as [->|Hn].
    + exists ch. split; [left|]. congruence.
    + destruct (Hnew t ent) as (ch' & Hin & ->); [by rewrite lookup_insert_ne|done|].
      exists ch'. split; [by right|done].
  - intros ch' [->|Hin]%elem_of_cons; [by exists z|].
    destruct (Hall ch' Hin) as (t & Ht & Hv). exists t. split; [|done].
    destruct (decide (t = z)) as [->|Hn]; [done|]. by rewrite lookup_insert_ne in Ht.
  - intros t t' ent Hnd Ht Ht' Hv Hv'. simpl in Hnd. apply NoDup_cons in Hnd as [Hnin Hnd].
    assert (forall u, v !! u = None -> v' !! u = Some ent -> u <> z -> ent <> child_entry y ch) as Hne.
    { intros u Hu Hvu Hnu ->. destruct (Hnew u (child_entry y ch)) as (ch' & Hin & He);
        [by rewrite lookup_insert_ne|exact Hvu|]. apply Hnin, list_elem_of_fmap. by exists ch'. }
    destruct (decide (t = z)) as [->|Hn], (decide (t' = z)) as [->|Hn']; [done|..].
    + exfalso. apply (Hne t' Ht' Hv' Hn'). congruence.
    + exfalso. apply (Hne t Ht Hv Hn). congruence.
    + apply (Honce t t' ent Hnd); [by rewrite lookup_insert_ne..|done|done].
Qed.

(** ** Steps of the memo *)

(** Only the expression [oe] and the group [og] change their states; the lists of
    the groups may grow. *)
Record memo_step (oe og : option N) w w' : Prop := {
  ms_group g gr : s_groups w !! g = Some gr -> exists gr' new,
    s_groups w' !! g = Some gr' /\ gr_gexprs gr' = gr_gexprs gr ++ new /\
    (og <> Some g -> gr_estate gr' = gr_estate gr);
  ms_gexpr e ge : s_gexprs w !! e = Some ge -> exists ge',
    s_gexprs w' !! e = Some ge' /\ ge_pop ge' = ge_pop ge /\ ge_children ge' = ge_children ge /\
    ge_group ge' = ge_group ge /\ (oe <> Some e -> ge_estate ge' = ge_estate ge);
  ms_xforms : s_xforms w ⊆ s_xforms w';
}.

Lemma memo_step_refl w : memo_step None None w w.
Proof.
  split; [|by eauto 10|done]. intros g gr Hg. exists gr, []. by rewrite app_nil_r.
Qed.

Lemma reach_step oe og w w' g : memo_step oe og w w' -> reach w root g -> reach w' root g.
Proof.
  intros Hs. induction 1 as [|g e ge c Hr IH He Hg Hl Hc]; [constructor|].
  destruct (ms_gexpr _ _ _ _ Hs e ge He) as (ge' & He' & Hp & Hch & Hgr & _).
  apply (reach_child w' root g e ge'); [done|done|congruence|by rewrite Hp|by rewrite Hch].
Qed.

Lemma group_step oe og w w' g : memo_step oe og w w' -> is_Some (s_groups w !! g) -> is_Some (s_groups w' !! g).
Proof. intros Hs [gr Hg]. destruct (ms_group _ _ _ _ Hs g gr Hg) as (gr' & _ & Hg' & _). by exists gr'. Qed.

(** What comes after [l] in a longer list. *)
Lemma after_app l1 l2 (l : N) : l ∈ l1 -> after (l1 ++ l2) l = after l1 l ++ l2.
Proof.
  induction l1 as [|z l1 IH]; simpl; [by intros ?%elem_of_nil|].
  intros [->|Hl]%elem_of_cons; [by rewrite N.eqb_refl|]. destruct (z =? l); [done|auto].
Qed.

Lemma from_app l1 l2 last :
  (forall l, last = Some l -> l ∈ l1) ->
  PgexprFirstUnschedLogical (l1 ++ l2) last = PgexprFirstUnschedLogical l1 last ++ l2.
Proof. destruct last as [l|]; [|done]. intros Hl. apply after_app. by apply Hl. Qed.

Section step.
Context (oe og : option N) (w w' : search R) (v v' : table) (a : addr).
Context (Hms : memo_step oe og w w') (Hwf : search_wf w) (Hwf' : search_wf w').
(** The jobs other than [a] stay. *)
Context (Hkept : forall y b, y <> a -> has v y b -> has v' y b).

Lemma owned_step p g : p <> Some a -> owned v w p g -> owned v' w' p g.
Proof.
  destruct p as [y|]; [|done]. intros Hn (e & ge & Hy & He & Hg).
  destruct (ms_gexpr _ _ _ _ Hms e ge He) as (ge' & He' & _ & Hch & _).
  exists e, ge'. split; [apply Hkept; congruence|]. by rewrite Hch.
Qed.

Lemma scheduled_step m e ge ge' :
  m <> a -> s_gexprs w !! e = Some ge -> ge_group ge' = ge_group ge ->
  scheduled v w m e ge -> scheduled v' w' m e ge'.
Proof.
  intros Hn He Hgg (gr & last & Hg & Hm & Hl & Hout).
  destruct (ms_group _ _ _ _ Hms _ gr Hg) as (gr' & new & Hg' & Happ & _).
  exists gr', last. rewrite Hgg. split; [done|]. split; [by apply Hkept|].
  rewrite Happ. split; [intros l ?; apply elem_of_app; auto|].
  rewrite from_app by done. intros [?|Hnew]%elem_of_app; [done|].
  destruct (sw_owner _ Hwf e ge He) as (gr2 & Hg2 & Hin). assert (gr2 = gr) as -> by congruence.
  pose proof (sw_nodup _ Hwf' _ _ Hg') as Hnd. rewrite Happ in Hnd.
  apply NoDup_app in Hnd as (_ & Hd & _). by apply (Hd e).
Qed.

(** The shape of a job whose parent is not [a]. *)
Lemma shape_step p q b :
  p <> Some a -> (forall e s, phase e b s -> oe <> Some e) ->
  (forall e x, b = xform_job e x -> (e, x) ∉ s_xforms w') ->
  shape v w p q b -> shape v' w' p q b.
Proof.
  intros Hn Hphase Hx Hshape.
  destruct Hshape as [p g Hg Hr Ho|p g last Hg Hr Ho|m e ge b He Hl Hr Hs Hph|y e x ge He Hy Hst _].
  - apply shape_init; [by eapply group_step|by eapply reach_step|by apply owned_step].
  - apply shape_main; [by eapply group_step|by eapply reach_step|by apply owned_step].
  - destruct (ms_gexpr _ _ _ _ Hms e ge He) as (ge' & He' & Hp & _ & Hgg & Hest).
    apply (shape_expr v' w' m e ge'); [done|by rewrite Hp|rewrite Hgg; by eapply reach_step| |].
    + apply (scheduled_step m e ge ge'); [congruence|done..].
    + rewrite Hest; [done|]. by apply (Hphase e (ge_estate ge)).
  - destruct (ms_gexpr _ _ _ _ Hms e ge He) as (ge' & He' & Hp & _ & Hgg & Hest).
    apply (shape_xform v' w' y e x ge'); [done|apply Hkept; congruence| |by apply Hx].
    unfold stage_xforms. by rewrite Hp.
Qed.

(** The statuses of the expressions and groups that a step of [a] does not
    move. *)
Context (dn dn' : N -> bool) (mn mn' : N -> option addr).
Context (Hold : forall y ent, y <> a -> v !! y = Some ent -> v' !! y = Some ent).
Context (Hagroup : forall p c j, v !! a = Some (p, Some (PjqExploration c), Some (JGroupExploration j)) ->
  dn' c = true \/ exists j', v' !! a = Some (p, Some (PjqExploration c), Some (JGroupExploration j'))).
Context (Haexpr : forall e b s, has v a b -> phase e b s -> oe = Some e).
Context (Haxform : forall e x, has v a (xform_job e x) -> (e, x) ∈ s_xforms w').
Context (Hamain : forall g last, has v a (main_group g last) -> og = Some g).
Context (Hdn : forall c, dn c = true -> dn' c = true).

Lemma expr_status_step e ge ge' :
  oe <> Some e -> s_gexprs w !! e = Some ge -> s_gexprs w' !! e = Some ge' ->
  (ge_estate ge = CGroupExpression.estUnexplored -> pending v w e ge ->
   pending v' w' e ge' \/ exists y, has v' y (start_expr e)) ->
  expr_status v dn w e ge -> expr_status v' dn' w' e ge'.
Proof.
  intros Hne He He' Hpend.
  destruct (ms_gexpr _ _ _ _ Hms e ge He) as (ge2 & He2 & Hp & Hch & Hgg & Hest).
  assert (ge2 = ge') as -> by congruence. specialize (Hest Hne).
  assert (forall y b s, has v y b -> phase e b s -> has v' y b) as Hexpr.
  { intros y b s Hy Hph. apply Hkept; [|done]. intros ->. by apply Hne, (Haexpr e b s). }
  unfold expr_status. rewrite Hest, Hch. unfold stage_xforms. rewrite Hp.
  destruct (ge_estate ge); [| | |done..].
  - specialize (Hpend eq_refl). intros [?|[y Hy]]; [by apply Hpend|]. right. exists y. eapply Hexpr; [done|constructor].
  - intros [(y & Hy & Hc)|(y & Hy & Hc & Hx)]; [left|right]; exists y.
    + split; [eapply Hexpr; [done|constructor]|]. intros c Hin.
      destruct (Hc c Hin) as [?|(z & j & Hz)]; [auto|]. destruct (decide (z = a)) as [->|Hz'].
      * destruct (Hagroup _ _ _ Hz) as [?|(j' & ?)]; [by left|]. right. by exists a, j'.
      * right. exists z, j. by apply Hold.
    + split; [eapply Hexpr; [done|constructor]|]. split; [auto|]. intros x Hin.
      destruct (Hx x Hin) as [?|(z & Hz)]; [left; by apply (ms_xforms _ _ _ _ Hms)|].
      destruct (decide (z = a)) as [->|Hz'].
      * left. apply Haxform, has_lookup. by eexists _, _.
      * right. exists z. by apply Hold.
  - intros [Hc Hx]. split; [auto|]. intros x Hin. apply (ms_xforms _ _ _ _ Hms). auto.
Qed.

Lemma group_status_step g gr gr' :
  og <> Some g -> s_groups w !! g = Some gr -> s_groups w' !! g = Some gr' ->
  dn' g = dn g -> mn' g = mn g ->
  (dn g = true -> gr_gexprs gr' = gr_gexprs gr) ->
  (forall e ge, oe = Some e -> s_gexprs w !! e = Some ge -> ge_estate ge <> CGroupExpression.estExplored) ->
  group_status v dn mn w g gr -> group_status v' dn' mn' w' g gr'.
Proof.
  intros Hne Hg Hg' Hd Hm Hsame Hoe.
  destruct (ms_group _ _ _ _ Hms g gr Hg) as (gr2 & new & Hg2 & Happ & Hest).
  assert (gr2 = gr') as -> by congruence. specialize (Hest Hne).
  unfold group_status. rewrite Hd, Hm, Hest. destruct (dn g).
  - intros [-> Hex]. split; [done|]. intros e ge' Hin He' Hl. rewrite (Hsame eq_refl) in Hin.
    destruct (sw_member _ Hwf g gr e Hg Hin) as (ge & He & _).
    destruct (ms_gexpr _ _ _ _ Hms e ge He) as (ge2 & He2 & Hp & _ & _ & Hee).
    assert (ge2 = ge') as -> by congruence.
    assert (ge_estate ge = CGroupExpression.estExplored) as Hx by (apply (Hex e ge Hin He); congruence).
    rewrite Hee; [done|]. intros Hoe'. by apply (Hoe e ge Hoe' He).
  - destruct (mn g) as [m|]; [|done]. intros [-> (last & Hl & Hin)]. split; [done|].
    exists last. split.
    + apply Hkept; [|done]. intros ->. by apply Hne, (Hamain g last).
    + intros l Hl'. rewrite Happ. apply elem_of_app. auto.
Qed.
End step.

(** ** A step of one job *)

(** The job [a], which has no children, steps: the other jobs stay, and only the
    expression [oe] and the group [og] move. *)
Record local_step (oe og : option N) a v dn mn w v' dn' mn' w' : Prop := {
  ls_memo : memo_step oe og w w';
  ls_inv : memo_inv w';
  ls_old y ent : y <> a -> v !! y = Some ent -> v' !! y = Some ent;
  ls_free y q ob : v !! y <> Some (Some a, q, ob);
  ls_group p c j : v !! a = Some (p, Some (PjqExploration c), Some (JGroupExploration j)) ->
    dn' c = true \/ exists j', v' !! a = Some (p, Some (PjqExploration c), Some (JGroupExploration j'));
  ls_expr e b s : has v a b -> phase e b s -> oe = Some e;
  ls_xform e x : has v a (xform_job e x) -> (e, x) ∈ s_xforms w';
  ls_main g last : has v a (main_group g last) -> og = Some g;
  ls_dn c : dn c = true -> dn' c = true;
  ls_queues g : og <> Some g -> dn' g = dn g /\ mn' g = mn g;
  ls_applied e : has v a (apply_expr e) -> exists ge', s_gexprs w' !! e = Some ge' /\
    ge_estate ge' = CGroupExpression.estExplored;
  ls_closed g gr gr' : dn g = true -> s_groups w !! g = Some gr -> s_groups w' !! g = Some gr' ->
    gr_gexprs gr' = gr_gexprs gr;
  ls_moves e ge : oe = Some e -> s_gexprs w !! e = Some ge ->
    ge_estate ge <> CGroupExpression.estExplored;
  ls_pending e ge ge' : oe <> Some e -> s_gexprs w !! e = Some ge -> s_gexprs w' !! e = Some ge' ->
    FLogical (ge_pop ge) = true -> ge_estate ge = CGroupExpression.estUnexplored ->
    pending v w e ge -> pending v' w' e ge' \/ exists y, has v' y (start_expr e);
}.

(** What is left to show of the new state. *)
Record step_result (oe og : option N) a v dn mn w v' dn' mn' w' : Prop := {
  sr_shape y p q ob : y = a \/ v !! y = None -> v' !! y = Some (p, q, ob) ->
    exists b, ob = Some b /\ shape v' w' p q b;
  sr_first y q ob : y = a \/ v !! y = None -> v' !! y = Some (None, q, ob) ->
    exists q0 ob0, v !! y = Some (None, q0, ob0);
  sr_kept q ob : v !! a = Some (None, q, ob) -> exists q' ob', v' !! a = Some (None, q', ob');
  sr_open : dn' root = false;
  sr_fresh g : s_groups w' !! g = None -> dn' g = false /\ mn' g = None;
  sr_group g gr' : og = Some g \/ s_groups w !! g = None -> s_groups w' !! g = Some gr' ->
    group_status v' dn' mn' w' g gr';
  sr_expr e ge' : oe = Some e \/ s_gexprs w !! e = None -> s_gexprs w' !! e = Some ge' ->
    FLogical (ge_pop ge') = true -> expr_status v' dn' w' e ge';
  sr_main y g last : y = a \/ v !! y = None -> has v' y (main_group g last) ->
    dn' g = false /\ mn' g = Some y;
  sr_unmain y g last : og = Some g -> y <> a -> has v y (main_group g last) ->
    dn' g = false /\ mn' g = Some y;
  sr_unique y z e b b' s s' : y = a \/ v !! y = None -> has v' y b -> has v' z b' ->
    phase e b s -> phase e b' s' -> y = z;
  sr_xform y z e x : y = a \/ v !! y = None -> has v' y (xform_job e x) -> has v' z (xform_job e x) ->
    y = z;
  sr_other y e x : y <> a -> has v y (xform_job e x) -> (e, x) ∉ s_xforms w';
  sr_others y e b s : y <> a -> has v y b -> phase e b s -> oe <> Some e;
  sr_once : NoDup (s_xforms w');
  sr_applied e x : (e, x) ∈ s_xforms w' -> (e, x) ∉ s_xforms w -> exists ge, s_gexprs w' !! e = Some ge /\
    FLogical (ge_pop ge) = true /\ x ∈ stage_xforms ge /\ exists y, has v' y (apply_expr e);
}.

Section exploring_step.
Context (oe og : option N) (a : addr) (v v' : table) (dn dn' : N -> bool) (mn mn' : N -> option addr).
Context (w w' : search R) (HX : exploring v dn mn w).
Context (HL : local_step oe og a v dn mn w v' dn' mn' w').
Context (HR : step_result oe og a v dn mn w v' dn' mn' w').

Lemma step_kept y b : y <> a -> has v y b -> has v' y b.
Proof.
  intros Hn (p & q & Hy)%has_lookup. apply has_lookup. exists p, q. by apply (ls_old _ _ _ _ _ _ _ _ _ _ _ HL).
Qed.

Lemma step_cases y b : has v' y b -> (y = a \/ v !! y = None) \/ y <> a /\ has v y b.
Proof.
  intros (p & q & Hy)%has_lookup. destruct (decide (y = a)) as [|Hn]; [auto|].
  destruct (v !! y) as [ent|] eqn:Hv; [|auto]. right. split; [done|].
  rewrite (ls_old _ _ _ _ _ _ _ _ _ _ _ HL y ent Hn Hv) in Hy.
  apply has_lookup. exists p, q. congruence.
Qed.

Let Hwf := mi_wf _ (xv_memo _ _ _ _ HX).
Let Hwf' := mi_wf _ (ls_inv _ _ _ _ _ _ _ _ _ _ _ HL).
Let Hms := ls_memo _ _ _ _ _ _ _ _ _ _ _ HL.

Lemma step_shape y p q ob : v' !! y = Some (p, q, ob) -> exists b, ob = Some b /\ shape v' w' p q b.
Proof.
  intros Hy. destruct (decide (y = a)) as [Hya|Hya].
  { eapply sr_shape; [exact HR|by left|done]. }
  destruct (v !! y) as [[[p0 q0] ob0]|] eqn:Hv; [|eapply sr_shape; [exact HR|by right|done]].
  rewrite (ls_old _ _ _ _ _ _ _ _ _ _ _ HL y _ Hya Hv) in Hy. injection Hy as -> -> ->.
  destruct (xv_shape _ _ _ _ HX y p q ob Hv) as (b & -> & Hs). exists b. split; [done|].
  assert (has v y b) as Hb by (apply has_lookup; eauto).
  apply (shape_step oe og w w' v v' a); try done.
  - apply step_kept.
  - intros ->. by apply (ls_free _ _ _ _ _ _ _ _ _ _ _ HL y q (Some b)).
  - intros e s. by apply (sr_others _ _ _ _ _ _ _ _ _ _ _ HR y e b s).
  - intros e x ->. by apply (sr_other _ _ _ _ _ _ _ _ _ _ _ HR y e x).
Qed.

Lemma step_first : exists a0 q0 b0, v' !! a0 = Some (None, q0, b0) /\
  forall y q b, v' !! y = Some (None, q, b) -> y = a0.
Proof.
  destruct (xv_first _ _ _ _ HX) as (a1 & q1 & b1 & Hf & Huniq).
  assert (forall y q ob, v' !! y = Some (None, q, ob) -> y = a1) as Hall.
  { intros y q ob Hy. destruct (decide (y = a)) as [->|Hya].
    - destruct (sr_first _ _ _ _ _ _ _ _ _ _ _ HR a q ob (or_introl eq_refl) Hy) as (? & ? & ?).
      by eapply Huniq.
    - destruct (v !! y) as [ent|] eqn:Hv.
      + rewrite (ls_old _ _ _ _ _ _ _ _ _ _ _ HL y ent Hya Hv) in Hy. apply (Huniq y q ob). congruence.
      + destruct (sr_first _ _ _ _ _ _ _ _ _ _ _ HR y q ob (or_intror Hv) Hy) as (? & ? & ?). congruence. }
  destruct (decide (a1 = a)) as [->|Hn].
  - destruct (sr_kept _ _ _ _ _ _ _ _ _ _ _ HR _ _ Hf) as (q' & ob' & Hf'). by exists a, q', ob'.
  - exists a1, q1, b1. split; [by apply (ls_old _ _ _ _ _ _ _ _ _ _ _ HL)|done].
Qed.

Lemma step_group g gr' : s_groups w' !! g = Some gr' -> group_status v' dn' mn' w' g gr'.
Proof.
  intros Hg'. destruct (decide (og = Some g)) as [Ho|Ho].
  { eapply sr_group; [exact HR|by left|done]. }
  destruct (s_groups w !! g) as [gr|] eqn:Hg; [|eapply sr_group; [exact HR|by right|done]].
  destruct (ls_queues _ _ _ _ _ _ _ _ _ _ _ HL g Ho) as [Hd Hm].
  apply (group_status_step oe og w w' v v' a) with dn mn gr; try done.
  - apply step_kept.
  - intros g1 last. apply (ls_main _ _ _ _ _ _ _ _ _ _ _ HL).
  - intros Hdn. by apply (ls_closed _ _ _ _ _ _ _ _ _ _ _ HL g).
  - exact (ls_moves _ _ _ _ _ _ _ _ _ _ _ HL).
  - by apply (xv_group _ _ _ _ HX).
Qed.

Lemma step_main y g last : has v' y (main_group g last) -> dn' g = false /\ mn' g = Some y.
Proof.
  intros Hy. destruct (step_cases y _ Hy) as [Hn|[Hya Hv]].
  { by apply (sr_main _ _ _ _ _ _ _ _ _ _ _ HR y g last). }
  destruct (decide (og = Some g)) as [Ho|Ho]; [by apply (sr_unmain _ _ _ _ _ _ _ _ _ _ _ HR y g last)|].
  destruct (ls_queues _ _ _ _ _ _ _ _ _ _ _ HL g Ho) as [-> ->]. by apply (xv_main _ _ _ _ HX y g last).
Qed.

Lemma step_expr e ge' :
  s_gexprs w' !! e = Some ge' -> FLogical (ge_pop ge') = true -> expr_status v' dn' w' e ge'.
Proof.
  intros He' Hl. destruct (decide (oe = Some e)) as [Ho|Ho].
  { eapply sr_expr; [exact HR|by left|done|done]. }
  destruct (s_gexprs w !! e) as [ge|] eqn:He; [|eapply sr_expr; [exact HR|by right|done|done]].
  destruct (ms_gexpr _ _ _ _ Hms e ge He) as (ge2 & He2 & Hp & _). assert (ge2 = ge') as -> by congruence.
  apply (expr_status_step oe og w w' v v' a) with dn ge; try done.
  - apply step_kept.
  - exact (ls_old _ _ _ _ _ _ _ _ _ _ _ HL).
  - exact (ls_group _ _ _ _ _ _ _ _ _ _ _ HL).
  - exact (ls_expr _ _ _ _ _ _ _ _ _ _ _ HL).
  - exact (ls_xform _ _ _ _ _ _ _ _ _ _ _ HL).
  - exact (ls_dn _ _ _ _ _ _ _ _ _ _ _ HL).
  - apply (ls_pending _ _ _ _ _ _ _ _ _ _ _ HL e ge ge'); [done..|]. by rewrite <- Hp.
  - apply (xv_expr _ _ _ _ HX); [done|congruence].
Qed.

Lemma step_applied e x : (e, x) ∈ s_xforms w' -> exists ge, s_gexprs w' !! e = Some ge /\
  FLogical (ge_pop ge) = true /\ x ∈ stage_xforms ge /\
  (ge_estate ge = CGroupExpression.estExplored \/ exists y, has v' y (apply_expr e)).
Proof.
  intros Hin. destruct (decide ((e, x) ∈ s_xforms w)) as [Hold|Hnew].
  2: { destruct (sr_applied _ _ _ _ _ _ _ _ _ _ _ HR e x Hin Hnew) as (ge & He & Hl & Hx & Hy).
       exists ge. auto. }
  destruct (xv_applied _ _ _ _ HX e x Hold) as (ge & He & Hl & Hx & Hst).
  destruct (ms_gexpr _ _ _ _ Hms e ge He) as (ge' & He' & Hp & _ & _ & Hee).
  exists ge'. split; [done|]. split; [by rewrite Hp|]. split; [unfold stage_xforms; by rewrite Hp|].
  destruct Hst as [Hst|[y Hy]].
  - left. rewrite Hee; [done|]. intros Ho. by apply (ls_moves _ _ _ _ _ _ _ _ _ _ _ HL e ge Ho He).
  - destruct (decide (y = a)) as [->|Hn]; [|right; exists y; by apply step_kept].
    destruct (ls_applied _ _ _ _ _ _ _ _ _ _ _ HL e Hy) as (ge2 & He2 & ?). left. congruence.
Qed.

Lemma exploring_step : exploring v' dn' mn' w'.
Proof.
  split.
  - exact (ls_inv _ _ _ _ _ _ _ _ _ _ _ HL).
  - exact step_shape.
  - exact step_first.
  - exact (sr_open _ _ _ _ _ _ _ _ _ _ _ HR).
  - exact (sr_fresh _ _ _ _ _ _ _ _ _ _ _ HR).
  - exact step_group.
  - exact step_main.
  - exact step_expr.
  - intros y z e b b' s s' Hy Hz Hp Hp'. destruct (step_cases y _ Hy) as [Hn|[Hya Hv]].
    { by apply (sr_unique _ _ _ _ _ _ _ _ _ _ _ HR y z e b b' s s'). }
    destruct (step_cases z _ Hz) as [Hn|[Hza Hvz]].
    { symmetry. by apply (sr_unique _ _ _ _ _ _ _ _ _ _ _ HR z y e b' b s' s). }
    by apply (xv_unique _ _ _ _ HX y z e b b' s s').
  - intros y z e x Hy Hz. destruct (step_cases y _ Hy) as [Hn|[Hya Hv]].
    { by apply (sr_xform _ _ _ _ _ _ _ _ _ _ _ HR y z e x). }
    destruct (step_cases z _ Hz) as [Hn|[Hza Hvz]].
    { symmetry. by apply (sr_xform _ _ _ _ _ _ _ _ _ _ _ HR z y e x). }
    by apply (xv_xform _ _ _ _ HX y z e x).
  - exact (sr_once _ _ _ _ _ _ _ _ _ _ _ HR).
  - exact step_applied.
Qed.
End exploring_step.

End invariant.
