(* ===== verification/ExplorationSteps.v ===== *)
(** The steps of the exploration jobs keep the invariant of ExplorationInv, one
    lemma for each step; and when the root is explored, no job is left and
    everything below the root is explored. *)

From S2P Require Import Prelude NodeSet Expression SyncPool JobFactory Scheduler SchedulerFrame.
From S2P Require Import JobMachine SearchState SearchJobs SearchRuns Exploration ExplorationInv.
From stdpp Require Import finite.
Local Open Scope N_scope.

(** Two jobs at one place are the same; the jobs of different kinds are not. *)
Ltac same_job :=
  repeat match goal with
  | Hb : has ?v ?a ?b, Hc : has ?v ?a ?c |- _ =>
      assert (b = c) by (unfold has in *; congruence); clear Hc
  end;
  unfold init_group, main_group, exploring_job, start_expr, wait_expr, apply_expr, expr_job,
    xform_job in *; simplify_eq.

(** Nothing is at a place that was emptied. *)
Ltac gone :=
  intros; exfalso;
  match goal with
  | Hy : ?y = ?a \/ ?v !! ?y = None, Hv : delete ?a ?v !! ?y = Some _ |- _ =>
      apply lookup_delete_Some in Hv; naive_solver
  | Hy : ?y = ?a \/ ?v !! ?y = None, Hv : has (delete ?a ?v) ?y _ |- _ =>
      apply has_lookup in Hv as (? & ? & Hv); apply lookup_delete_Some in Hv; naive_solver
  end.

Section steps.
Context {S : Type} `{Countable S} {R : Type} `{HO : OperatorIdentity} `{HE : SearchEngine R}.
Context (stage : list N) (room : search R -> nat) `{!ExplorationLaws stage room} (root : N).

Abbreviation addr := (job_address S).
Abbreviation table := (gmap addr (option addr * option N * option job)).
Abbreviation exploring := (exploring stage root).
Abbreviation memo_inv := (memo_inv stage root).
Abbreviation local_step := (local_step stage root).
Abbreviation step_result := (step_result stage root).
Implicit Types (v : table) (w : search R) (a y m : addr) (g e c x : N) (dn : N -> bool)
  (mn : N -> option addr).

(** ** Changing the state of an expression or a group *)

Lemma memo_step_put_gexpr e est w ge :
  s_gexprs w !! e = Some ge -> memo_step (Some e) None w (put_gexpr e (with_gexpr_state est ge) w).
Proof.
  intros He. split; [|intros e' ge' He'|done].
  - intros g gr Hg. exists gr, []. by rewrite app_nil_r.
  - simpl. destruct (decide (e' = e)) as [->|Hn].
    + rewrite lookup_insert_eq. assert (ge' = ge) as -> by congruence. eexists. split; [done|]. by repeat split.
    + rewrite lookup_insert_ne by done. by exists ge'.
Qed.

Lemma memo_step_put_group g est w gr :
  s_groups w !! g = Some gr -> memo_step None (Some g) w (put_group g (with_group_state est gr) w).
Proof.
  intros Hg. split; [|by eauto 10|done]. intros g' gr' Hg'. simpl.
  destruct (decide (g' = g)) as [->|Hn].
  - rewrite lookup_insert_eq. assert (gr' = gr) as -> by congruence. eexists _, [].
    split; [done|]. split; [by rewrite app_nil_r|]. congruence.
  - rewrite lookup_insert_ne by done. exists gr', []. by rewrite app_nil_r.
Qed.

Lemma memo_inv_put_gexpr e est w ge :
  s_gexprs w !! e = Some ge -> memo_inv w -> memo_inv (put_gexpr e (with_gexpr_state est ge) w).
Proof.
  intros He [[Hmem Hown Hnd Hch (rank & Hrank)] Hc Hst Hr Hd].
  assert (forall e' ge', s_gexprs (put_gexpr e (with_gexpr_state est ge) w) !! e' = Some ge' ->
            exists ge0, s_gexprs w !! e' = Some ge0 /\ ge_group ge' = ge_group ge0 /\
              ge_children ge' = ge_children ge0 /\ ge_edph ge' = ge_edph ge0) as Hback.
  { simpl. intros e' ge' [[<- <-]|[Hn He']]%lookup_insert_Some; eauto. }
  split; [split| | | |]; try done.
  - intros g gr e' Hg Hin. destruct (Hmem g gr e' Hg Hin) as (ge' & He' & Hgr). simpl.
    destruct (decide (e' = e)) as [->|Hn].
    + rewrite lookup_insert_eq. eexists. split; [done|]. simpl. congruence.
    + rewrite lookup_insert_ne by done. by exists ge'.
  - intros e' ge' (ge0 & He0 & -> & _)%Hback. by apply (Hown e').
  - intros e' ge' c (ge0 & He0 & _ & -> & _)%Hback. by apply (Hch e').
  - exists rank. intros e' ge' c (ge0 & He0 & -> & -> & _)%Hback. by apply (Hrank e').
  - by rewrite (stage_put_gexpr (stage := stage) (room := room)).
  - intros e' ge' (ge0 & He0 & _ & _ & ->)%Hback. by apply (Hd e').
Qed.

Lemma memo_inv_put_group g est w gr :
  s_groups w !! g = Some gr -> memo_inv w -> memo_inv (put_group g (with_group_state est gr) w).
Proof.
  intros Hg [[Hmem Hown Hnd Hch Hrank] Hc Hst Hr Hd].
  assert (forall g' gr', s_groups (put_group g (with_group_state est gr) w) !! g' = Some gr' ->
            exists gr0, s_groups w !! g' = Some gr0 /\ gr_gexprs gr' = gr_gexprs gr0) as Hback.
  { simpl. intros g' gr' [[<- <-]|[Hn Hg']]%lookup_insert_Some; eauto. }
  split; [split| | | |]; try done.
  - intros g' gr' e (gr0 & Hg0 & ->)%Hback. by apply Hmem.
  - intros e ge He. destruct (Hown e ge He) as (gr0 & Hg0 & Hin). simpl.
    destruct (decide (ge_group ge = g)) as [Heq|Hn].
    + rewrite Heq, lookup_insert_eq. eexists. split; [done|]. simpl. congruence.
    + rewrite lookup_insert_ne by done. by exists gr0.
  - intros g' gr' (gr0 & Hg0 & ->)%Hback. by apply (Hnd g').
  - intros e ge c He Hin. destruct (Hch e ge c He Hin) as (gr0 & Hg0 & Hne). simpl. destruct (decide (c = g)) as [->|Hn].
    + rewrite lookup_insert_eq. eexists. split; [done|]. simpl. congruence.
    + rewrite lookup_insert_ne by done. by exists gr0.
  - by rewrite (stage_put_group (stage := stage) (room := room)).
Qed.

(** ** Facts about the job that runs *)

(** The shape of an expression job. *)
Lemma shape_expr_inv v w p q b e s :
  phase e b s -> shape stage root v w p q b ->
  exists m ge, p = Some m /\ q = None /\ s_gexprs w !! e = Some ge /\ FLogical (ge_pop ge) = true /\
    reach w root (ge_group ge) /\ scheduled v w m e ge /\ phase e b (ge_estate ge).
Proof.
  intros Hph Hs. destruct Hs as [?? ? ? ?|?? ? ? ? ?|m e' ge b He Hl Hr Hsch Hph'|].
  - inversion Hph.
  - inversion Hph.
  - assert (e' = e) as -> by (destruct Hph; inversion Hph'; done).
    by exists m, ge.
  - inversion Hph.
Qed.

Lemma phase_unique e e' b s s' : phase e b s -> phase e' b s' -> e = e' /\ s = s'.
Proof. intros Hp Hp'. destruct Hp; by inversion Hp'. Qed.

(** With no other change to the groups, what is pending stays pending. *)
Lemma pending_kept v v' w w' e ge ge' :
  s_groups w' = s_groups w -> ge_group ge' = ge_group ge ->
  (forall y g last, has v y (main_group g last) -> has v' y (main_group g last)) ->
  pending v w e ge -> pending v' w' e ge'.
Proof.
  intros Hg Hgg Hmain (gr & Hgr & Hp). exists gr. rewrite Hg, Hgg. split; [done|].
  destruct Hp as [?|(y & last & Hy & ?)]; [by left|]. right. exists y, last. split; [by apply Hmain|done].
Qed.

(** The shape of a transformation job. *)
Lemma shape_xform_inv v w p q e x : shape stage root v w p q (xform_job e x) ->
  exists y ge, p = Some y /\ q = None /\ s_gexprs w !! e = Some ge /\ has v y (apply_expr e) /\
    x ∈ stage_xforms stage ge /\ (e, x) ∉ s_xforms w.
Proof.
  intros Hs. remember (xform_job e x) as b eqn:Hb.
  destruct Hs as [? ? ? ? ?|? ? ? ? ? ?|? ? ? ? ? ? ? ? Hp|y e' x' ge ? ? ? ?]; [done|done|by destruct Hp|].
  assert (e' = e /\ x' = x) as [-> ->] by (unfold xform_job in Hb; by simplify_eq). by exists y, ge.
Qed.

(** The transformation of a job is still to come. *)
Lemma xform_ahead v dn mn w y e x : exploring v dn mn w -> has v y (xform_job e x) -> (e, x) ∉ s_xforms w.
Proof.
  intros HX (p & q & Hy)%has_lookup. destruct (xv_shape _ _ _ _ _ _ HX y p q _ Hy) as (b & [= Hb] & Hs).
  rewrite <- Hb in Hs. by apply shape_xform_inv in Hs as (? & ? & _ & _ & _ & _ & _ & ?).
Qed.

(** No other job is for the expression of [a]. *)
Lemma other_expr v dn mn w a y e e' b b' s s' : exploring v dn mn w ->
  has v a b -> phase e b s -> y <> a -> has v y b' -> phase e' b' s' -> Some e <> Some e'.
Proof.
  intros HX Ha Hp Hn Hy Hp' [= <-]. apply Hn. by apply (xv_unique _ _ _ _ _ _ HX y a e b' b s' s).
Qed.

(** The table after the job [a] changed its fields and added children. *)
Section spawn.
Context (v v' : table) (a : addr) (p : option addr) (q : option N) (b b' : job).
Context (cs : list (@child job)) (Ha : v !! a = Some (p, q, Some b)).
Context (Hgrown : grown a (<[a := (p, q, Some b')]> v) cs v').

Lemma spawn_self : v' !! a = Some (p, q, Some b').
Proof. eapply lookup_weaken; [|apply (gw_old _ _ _ _ Hgrown)]. by rewrite lookup_insert_eq. Qed.

Lemma spawn_old y ent : y <> a -> v !! y = Some ent -> v' !! y = Some ent.
Proof.
  intros Hn Hy. eapply lookup_weaken; [|apply (gw_old _ _ _ _ Hgrown)]. by rewrite lookup_insert_ne.
Qed.

Lemma spawn_new y ent :
  y = a \/ v !! y = None -> v' !! y = Some ent ->
  y = a /\ ent = (p, q, Some b') \/
  v !! y = None /\ exists ch, ch ∈ cs /\ ent = child_entry a ch.
Proof.
  intros [->|Hn] Hy; [left; split; [done|]; rewrite spawn_self in Hy; by injection Hy|].
  right. split; [done|]. apply (gw_new _ _ _ _ Hgrown y); [|done].
  rewrite lookup_insert_ne; [done|]. congruence.
Qed.

Lemma spawn_child ch : ch ∈ cs -> exists y, v !! y = None /\ v' !! y = Some (child_entry a ch).
Proof.
  intros Hin. destruct (gw_all _ _ _ _ Hgrown ch Hin) as (y & Hn & Hy). exists y.
  apply lookup_insert_None in Hn as [Hn _]. done.
Qed.

Lemma spawn_has y k : y <> a -> has v y k -> has v' y k.
Proof. intros Hn (p' & q' & Hy)%has_lookup. apply has_lookup. exists p', q'. by apply spawn_old. Qed.

Lemma spawn_self_has : has v' a b'.
Proof. apply has_lookup. exists p, q. apply spawn_self. Qed.

Lemma spawn_once y z ent : NoDup (child_entry a <$> cs) -> v !! y = None -> v !! z = None ->
  v' !! y = Some ent -> v' !! z = Some ent -> y = z.
Proof.
  intros Hnd Hy Hz. apply (gw_once _ _ _ _ Hgrown y z ent Hnd);
    (rewrite lookup_insert_ne; [done|congruence]).
Qed.

(** The jobs of the new table. *)
Lemma spawn_cases y k : has v' y k ->
  y = a /\ k = b' \/ (y <> a /\ has v y k) \/
  v !! y = None /\ exists ch, ch ∈ cs /\ c_job ch = k /\ v' !! y = Some (child_entry a ch).
Proof.
  intros (p' & q' & Hy)%has_lookup. destruct (decide (y = a)) as [->|Hn].
  { rewrite spawn_self in Hy. left. split; [done|]. congruence. }
  right. destruct (v !! y) as [ent|] eqn:Hv.
  - left. split; [done|]. rewrite (spawn_old y ent Hn Hv) in Hy. apply has_lookup. exists p', q'. congruence.
  - right. split; [done|]. destruct (spawn_new y _ (or_intror Hv) Hy) as [[? _]|[_ (ch & Hin & He)]]; [done|].
    exists ch. split; [done|]. unfold child_entry in He. split; [congruence|]. by rewrite Hy, He.
Qed.
End spawn.
Arguments spawn_self {v v' a p q b' cs} Hgrown.
Arguments spawn_old {v v' a p q b' cs} Hgrown y ent.
Arguments spawn_new {v v' a p q b b' cs} Ha Hgrown y ent.
Arguments spawn_child {v v' a p q b' cs} Hgrown ch.
Arguments spawn_has {v v' a p q b' cs} Hgrown y k.
Arguments spawn_self_has {v v' a p q b' cs} Hgrown.
Arguments spawn_once {v v' a p q b b' cs} Ha Hgrown y z ent.
Arguments spawn_cases {v v' a p q b b' cs} Ha Hgrown y k.

(** ** The job of an expression goes on *)

Section expr_on.
Context (v v' : table) (dn : N -> bool) (mn : N -> option addr) (w : search R) (a : addr).
Context (p : option addr) (q : option N) (e : N) (ge : gexpr) (b b' : job) (cs : list (@child job)).
Context (HX : exploring v dn mn w) (Ha : v !! a = Some (p, q, Some b)).
Context (Hfree : forall y q ob, v !! y <> Some (Some a, q, ob)).
Context (He : s_gexprs w !! e = Some ge).
Context (Hgrown : grown a (<[a := (p, q, Some b')]> v) cs v').
(** The job is in one phase, and goes on to another. *)
Context (est : CGroupExpression.EState).
Context (Hb : phase e b (ge_estate ge)) (Hna : b <> apply_expr e) (Hb' : phase e b' est).
Let ge' := with_gexpr_state est ge.
Let w' := put_gexpr e ge' w.
(** Its new jobs. *)
Context (Hcs_shape : forall ch, ch ∈ cs -> has v' a b' -> reach w' root (ge_group ge') ->
  shape stage root v' w' (Some a) (c_pjq ch) (c_job ch)).
Context (Hcs_expr : forall ch e0 s, ch ∈ cs -> ~ phase e0 (c_job ch) s).
Context (Hcs_main : forall ch g last, ch ∈ cs -> c_job ch <> main_group g last).
Context (Hcs_xform : forall ch e0 x, ch ∈ cs -> c_job ch = xform_job e0 x ->
  NoDup (child_entry a <$> cs) /\ forall z, ~ has v z (xform_job e0 x)).
Context (Hstatus : has v' a b' -> expr_status stage v' dn w' e ge').

Lemma expr_has : has v a b.
Proof. apply has_lookup. eauto. Qed.

Lemma expr_facts : exists m, p = Some m /\ q = None /\ FLogical (ge_pop ge) = true /\
  reach w root (ge_group ge) /\ scheduled v w m e ge /\ m <> a /\
  ge_estate ge <> CGroupExpression.estExplored.
Proof.
  destruct (xv_shape _ _ _ _ _ _ HX a p q _ Ha) as (b1 & [= <-] & Hs).
  destruct (shape_expr_inv _ _ _ _ _ _ _ Hb Hs) as (m & ge1 & -> & -> & He1 & Hl & Hr & Hsch & Hph).
  assert (ge1 = ge) as -> by congruence. exists m. do 5 (split; [done|]). split.
  - intros ->. by apply (Hfree a None (Some b)).
  - intros Hx. rewrite Hx in Hb. inversion Hb.
Qed.

Lemma expr_other e0 ge0 : e0 <> e -> s_gexprs w' !! e0 = Some ge0 -> s_gexprs w !! e0 = Some ge0.
Proof. intros Hn He0. simpl in He0. by rewrite lookup_insert_ne in He0. Qed.

Lemma expr_on_local : local_step (Some e) None a v dn mn w v' dn mn w'.
Proof.
  pose proof expr_has as Hself. destruct expr_facts as (m & -> & -> & Hl & Hr & Hsch & Hma & Hst).
  split; try done.
  - by apply memo_step_put_gexpr.
  - apply memo_inv_put_gexpr; [done|apply HX].
  - intros y ent. apply (spawn_old Hgrown).
  - intros p' c j Hj. rewrite Ha in Hj. discriminate.
  - intros e0 b0 s Hb0 Hph. assert (b0 = b) as -> by (unfold has in *; congruence).
    by destruct (phase_unique _ _ _ _ _ Hph Hb) as [-> _].
  - intros e0 x Hx. assert (b = xform_job e0 x) as -> by (unfold has in *; congruence). inversion Hb.
  - intros g last Hx. assert (b = main_group g last) as -> by (unfold has in *; congruence). inversion Hb.
  - intros e0 Hx. assert (b = apply_expr e0) as -> by (unfold has in *; congruence).
    destruct (phase_unique _ _ _ _ _ Hb (phase_apply e0)) as [-> _]. done.
  - intros g gr gr' _ Hg Hg'. simpl in Hg'. congruence.
  - intros e0 ge0 [= <-] He0. by assert (ge0 = ge) as -> by congruence.
  - intros e0 ge1 ge2 Hne He1 He2 _ _ Hp. left. apply expr_other in He2; [|congruence].
    assert (ge2 = ge1) as -> by congruence. apply (pending_kept v v' w w' e0 ge1 ge1); try done.
    intros y g last Hy. apply (spawn_has Hgrown); [|done]. intros ->.
    assert (b = main_group g last) as -> by (unfold has in *; congruence). inversion Hb.
Qed.

(** The jobs that are new, or not as they were. *)
Lemma expr_on_new y p' q' ob : y = a \/ v !! y = None -> v' !! y = Some (p', q', ob) ->
  y = a /\ (p', q', ob) = (p, q, Some b') \/
  v !! y = None /\ exists ch, ch ∈ cs /\ (p', q', ob) = (Some a, c_pjq ch, Some (c_job ch)).
Proof. intros Hy Hv. by apply (spawn_new Ha Hgrown). Qed.

Lemma expr_on_shape y p' q' ob : y = a \/ v !! y = None -> v' !! y = Some (p', q', ob) ->
  exists b0, ob = Some b0 /\ shape stage root v' w' p' q' b0.
Proof.
  pose proof expr_on_local as HL. pose proof (spawn_self_has Hgrown) as Hself'.
  destruct expr_facts as (m & Hpm & Hqn & Hl & Hr & Hsch & Hma & Hst).
  assert (reach w' root (ge_group ge')) as Hr'
    by (eapply reach_step; [apply (ls_memo _ _ _ _ _ _ _ _ _ _ _ _ _ HL)|done]).
  intros Hy Hv. destruct (expr_on_new y p' q' ob Hy Hv) as [[-> [= -> -> ->]]|(_ & ch & Hin & [= -> -> ->])];
    (eexists; split; [done|]); [|by apply Hcs_shape].
  rewrite Hpm, Hqn. apply (shape_expr stage root v' w' m e ge'); try done; [apply lookup_insert_eq|].
  apply (scheduled_step (Some e) None w w' v v' a) with ge; try done.
  - apply (ls_memo _ _ _ _ _ _ _ _ _ _ _ _ _ HL).
  - apply HX.
  - apply (ls_inv _ _ _ _ _ _ _ _ _ _ _ _ _ HL).
  - intros z b0 Hn Hz. by apply (spawn_has Hgrown).
Qed.

Lemma expr_on_xform y z e0 x :
  y = a \/ v !! y = None -> has v' y (xform_job e0 x) -> has v' z (xform_job e0 x) -> y = z.
Proof.
  intros Hy (p1 & q1 & Hv)%has_lookup Hz.
  destruct (expr_on_new y _ _ _ Hy Hv) as [[-> [= -> -> <-]]|(Hyn & ch & Hin & [= -> -> Hch])];
    [inversion Hb'|].
  destruct (Hcs_xform ch e0 x Hin (eq_sym Hch)) as [Hnd Hold].
  destruct (spawn_cases Ha Hgrown z _ Hz) as [[_ <-]|[[_ Hz']|(Hzn & ch' & Hin' & Hch' & Hvz)]];
    [inversion Hb'|by destruct (Hold z)|].
  apply (spawn_once Ha Hgrown y z (child_entry a ch') Hnd Hyn Hzn); [|done].
  assert (forall h, h ∈ cs -> c_job h = xform_job e0 x -> c_pjq h = None) as Hq.
  { intros h Hh Hj. destruct (spawn_child Hgrown h Hh) as (u & Hun & Hu).
    destruct (expr_on_shape u _ _ _ (or_intror Hun) Hu) as (b0 & [= <-] & Hs).
    rewrite Hj in Hs. by inversion Hs. }
  rewrite Hv. unfold child_entry. by rewrite (Hq ch), (Hq ch'), Hch', Hch.
Qed.

Lemma expr_on_result : step_result (Some e) None a v dn mn w v' dn mn w'.
Proof.
  pose proof expr_has as Hself. pose proof (spawn_self_has Hgrown) as Hself'.
  destruct expr_facts as (m & Hpm & Hqn & Hl & Hr & Hsch & Hma & Hst).
  split.
  - apply expr_on_shape.
  - intros y q0 ob Hy Hv. destruct (expr_on_new y None q0 ob Hy Hv) as [[-> [= ? ? ?]]|(_ & ch & _ & [=])]. congruence.
  - intros q0 ob Hv. congruence.
  - apply HX.
  - apply HX.
  - intros g gr' [?|Hg] Hg'; [done|]. simpl in Hg'. congruence.
  - intros e0 ge0 He0 He0' Hl0. destruct (decide (e0 = e)) as [->|Hn].
    + simpl in He0'. rewrite lookup_insert_eq in He0'. injection He0' as <-. by apply Hstatus.
    + apply expr_other in He0'; [|done]. destruct He0; congruence.
  - intros y g last Hy (p1 & q1 & Hv)%has_lookup.
    destruct (expr_on_new y _ _ _ Hy Hv) as [[-> [= _ _ Hx]]|(_ & ch & Hin & [= _ _ Hx])].
    + rewrite <- Hx in Hb'. inversion Hb'.
    + by destruct (Hcs_main ch g last Hin).
  - done.
  - intros y z e0 b1 b2 s s' Hy (p1 & q1 & Hv)%has_lookup Hz Hp Hp'.
    destruct (expr_on_new y _ _ _ Hy Hv) as [[-> [= _ _ ->]]|(_ & ch & Hin & [= _ _ ->])];
      [|by destruct (Hcs_expr ch e0 s)].
    destruct (phase_unique _ _ _ _ _ Hp Hb') as [-> _]. destruct (decide (z = a)) as [->|Hn]; [done|].
    destruct (spawn_cases Ha Hgrown z b2 Hz) as [[? _]|[[_ Hz']|(_ & ch & Hin & <- & _)]]; [done| |].
    + by destruct (other_expr v dn mn w a z e e b b2 _ s' HX Hself Hb Hn Hz' Hp').
    + by destruct (Hcs_expr ch e s').
  - apply expr_on_xform.
  - intros y e0 x _. by apply (xform_ahead v dn mn w).
  - intros y e0 b0 s Hn Hy Hp. by apply (other_expr v dn mn w a y e e0 b b0 (ge_estate ge) s HX Hself Hb).
  - apply HX.
  - done.
Qed.

Lemma expr_on_step : exploring v' dn mn w'.
Proof. eapply exploring_step; [exact HX|exact expr_on_local|exact expr_on_result]. Qed.
End expr_on.

(** An expression starts: its inputs are to be explored. *)
Lemma start_step v v' dn mn w a p q e ge :
  exploring v dn mn w -> v !! a = Some (p, q, Some (start_expr e)) ->
  (forall y q ob, v !! y <> Some (Some a, q, ob)) -> s_gexprs w !! e = Some ge ->
  ge_estate ge = CGroupExpression.estUnexplored -> FLogical (ge_pop ge) = true ->
  grown a (<[a := (p, q, Some (wait_expr e))]> v) (group_exploration_child <$> ge_children ge) v' ->
  exploring v' dn mn (put_gexpr e (with_gexpr_state CGroupExpression.estExploring ge) w).
Proof.
  intros HX Ha Hfree He Hst Hl Hgrown. set (ge' := with_gexpr_state _ ge).
  assert (s_gexprs (put_gexpr e ge' w) !! e = Some ge') as He' by apply lookup_insert_eq.
  eapply (expr_on_step v v' dn mn w a p q e ge _ (wait_expr e)); try done.
  - rewrite Hst. apply phase_start.
  - apply phase_wait.
  - intros ch Hin Hself Hr. apply list_elem_of_fmap in Hin as (c & -> & Hc). apply shape_init.
    + destruct (sw_children _ (mi_wf _ _ _ (xv_memo _ _ _ _ _ _ HX)) e ge c He Hc) as (gr & Hgr & _). by exists gr.
    + by apply (reach_child _ root (ge_group ge) e ge').
    + by exists e, ge'.
  - intros ch e0 s Hin Hp. apply list_elem_of_fmap in Hin as (c & -> & Hc). inversion Hp.
  - intros ch g last Hin. by apply list_elem_of_fmap in Hin as (c & -> & Hc).
  - intros ch e0 x Hin. by apply list_elem_of_fmap in Hin as (c & -> & Hc).
  - intros Hself. left. exists a. split; [done|]. intros c Hc. right.
    destruct (spawn_child Hgrown (group_exploration_child c)) as (y & _ & Hy);
      [by apply list_elem_of_fmap_2|].
    by exists y, (MkJobGroup CJobGroupExploration.estInitialized c None).
Qed.

(** The job of an expression, between two rounds. *)
Lemma expr_job_facts v dn mn w a p q e b s :
  exploring v dn mn w -> v !! a = Some (p, q, Some b) -> phase e b s ->
  exists m ge, p = Some m /\ q = None /\ s_gexprs w !! e = Some ge /\ FLogical (ge_pop ge) = true /\
    reach w root (ge_group ge) /\ scheduled v w m e ge /\ ge_estate ge = s.
Proof.
  intros HX Ha Hp. destruct (xv_shape _ _ _ _ _ _ HX a p q _ Ha) as (b1 & [= <-] & Hs).
  destruct (shape_expr_inv _ _ _ _ _ _ _ Hp Hs) as (m & ge & -> & -> & He & Hl & Hr & Hsch & Hph).
  exists m, ge. do 6 (split; [done|]). by destruct (phase_unique _ _ _ _ _ Hp Hph).
Qed.

(** An expression waits for its inputs: when no job is left for them, they are
    all explored. *)
Lemma inputs_explored v dn mn w a e ge :
  exploring v dn mn w -> has v a (wait_expr e) -> s_gexprs w !! e = Some ge ->
  (forall y q ob, v !! y <> Some (Some a, q, ob)) -> forall c, c ∈ ge_children ge -> dn c = true.
Proof.
  intros HX Ha He Hfree c Hc. pose proof Ha as (p & q & Hv)%has_lookup.
  destruct (expr_job_facts _ _ _ _ _ _ _ _ _ _ HX Hv (phase_wait e))
    as (m & ge1 & _ & _ & He1 & Hl & _ & _ & Hst).
  assert (ge1 = ge) as -> by congruence.
  pose proof (xv_expr _ _ _ _ _ _ HX e ge He Hl) as Hs. unfold expr_status in Hs. rewrite Hst in Hs.
  destruct Hs as [(y & Hy & Hin)|(y & Hy & _)].
  - assert (y = a) as -> by (by apply (xv_unique _ _ _ _ _ _ HX y a e _ _ _ _ Hy Ha (phase_wait e) (phase_wait e))).
    destruct (Hin c Hc) as [?|(z & j & Hz)]; [done|]. by destruct (Hfree z (Some (PjqExploration c)) (Some (JGroupExploration j))).
  - assert (y = a) as -> by (by apply (xv_unique _ _ _ _ _ _ HX y a e _ _ _ _ Hy Ha (phase_apply e) (phase_wait e))).
    by same_job.
Qed.

(** An expression whose inputs are explored: its transformations are to be
    applied. *)
Lemma apply_step v v' dn mn w a p q e ge :
  exploring v dn mn w -> v !! a = Some (p, q, Some (wait_expr e)) ->
  (forall y q ob, v !! y <> Some (Some a, q, ob)) -> s_gexprs w !! e = Some ge ->
  grown a (<[a := (p, q, Some (apply_expr e))]> v) (transformation_child e <$> stage_xforms stage ge) v' ->
  exploring v' dn mn w.
Proof.
  intros HX Ha Hfree He Hgrown. assert (has v a (wait_expr e)) as Hself by (apply has_lookup; eauto).
  destruct (expr_job_facts _ _ _ _ _ _ _ _ _ _ HX Ha (phase_wait e)) as (m & ge1 & _ & _ & He1 & Hl & _ & _ & Hst).
  assert (ge1 = ge) as -> by congruence. clear He1.
  pose proof (inputs_explored v dn mn w a e ge HX Hself He Hfree) as Hdn.
  assert (forall y, ~ has v y (apply_expr e)) as Hnot.
  { intros y Hy. assert (y = a) as ->
      by (by apply (xv_unique _ _ _ _ _ _ HX y a e _ _ _ _ Hy Hself (phase_apply e) (phase_wait e))).
    by same_job. }
  assert (forall x, (e, x) ∉ s_xforms w) as Hlog.
  { intros x Hx. destruct (xv_applied _ _ _ _ _ _ HX e x Hx) as (ge1 & He1 & _ & _ & [Hx1|[y Hy]]).
    - congruence.
    - by apply (Hnot y). }
  assert (with_gexpr_state CGroupExpression.estExploring ge = ge) as Hsame.
  { destruct ge. unfold with_gexpr_state. simpl in *. by rewrite Hst. }
  assert (put_gexpr e ge w = w) as Hw by (destruct w; unfold put_gexpr; simpl in *; by rewrite insert_id).
  rewrite <- Hw, <- Hsame.
  eapply (expr_on_step v v' dn mn w a p q e ge (wait_expr e) (apply_expr e)); try done;
    rewrite ?Hsame, ?Hw; try (by rewrite Hst; apply phase_wait); try by apply phase_apply.
  - intros ch Hin Ha' _. apply list_elem_of_fmap in Hin as (x & -> & Hx).
    apply (shape_xform stage root v' w a e x ge); [done|done|done|apply Hlog].
  - intros ch e0 s Hin Hp. apply list_elem_of_fmap in Hin as (x & -> & Hx). inversion Hp.
  - intros ch g last Hin. by apply list_elem_of_fmap in Hin as (x & -> & Hx).
  - intros ch e0 x Hin Hch. apply list_elem_of_fmap in Hin as (x' & -> & Hx).
    assert (e0 = e /\ x' = x) as [-> ->] by (unfold xform_job in Hch; simpl in Hch; by simplify_eq). split.
    + rewrite <- list_fmap_compose. apply NoDup_fmap_2_strong.
      * intros x1 x2 _ _ Heq. unfold child_entry in Heq. simpl in Heq. congruence.
      * by apply (stage_xforms_nodup stage room).
    + intros z (p1 & q1 & Hz)%has_lookup.
      destruct (xv_shape _ _ _ _ _ _ HX z p1 q1 _ Hz) as (b1 & [= <-] & Hs). apply shape_xform_inv in Hs as (y & _ & _ & _ & _ & Hy & _). by apply (Hnot y).
  - intros Ha'. unfold expr_status. rewrite Hst. right. exists a. split; [done|]. split; [done|].
    intros x Hx. right. destruct (spawn_child Hgrown (transformation_child e x)) as (y & _ & Hy);
      [by apply list_elem_of_fmap_2|]. by exists y.
Qed.

(** ** Jobs that are done *)

(** The table without the job [a]. *)
Lemma removed_old v a y ent : y <> a -> v !! y = Some ent -> delete a v !! y = Some ent.
Proof. intros Hn Hy. by rewrite lookup_delete_ne. Qed.

(** An expression is done. *)

Lemma finish_step v dn mn w a p q e ge :
  exploring v dn mn w -> v !! a = Some (p, q, Some (apply_expr e)) ->
  (forall y q ob, v !! y <> Some (Some a, q, ob)) -> s_gexprs w !! e = Some ge ->
  exploring (delete a v) dn mn (put_gexpr e (with_gexpr_state CGroupExpression.estExplored ge) w).
Proof.
  intros HX Ha Hfree He. set (ge' := with_gexpr_state _ ge). set (w' := put_gexpr e ge' w).
  assert (has v a (apply_expr e)) as Hself by (apply has_lookup; eauto).
  destruct (expr_job_facts _ _ _ _ _ _ _ _ _ _ HX Ha (phase_apply e))
    as (m & ge1 & Hp & Hq & He1 & Hl & Hr & Hsch & Hst).
  assert (ge1 = ge) as -> by congruence. clear He1.
  pose proof (removed_old v a) as Hold.
  assert (forall e0 ge0, e0 <> e -> s_gexprs w' !! e0 = Some ge0 -> s_gexprs w !! e0 = Some ge0) as Hother
    by (intros e0 ge0 Hn He0; simpl in He0; by rewrite lookup_insert_ne in He0).
  assert (s_gexprs w' !! e = Some ge') as He' by apply lookup_insert_eq.
  apply (exploring_step stage root (Some e) None a v (delete a v) dn dn mn mn w w' HX).
  - split; try done.
    + by apply memo_step_put_gexpr.
    + apply memo_inv_put_gexpr; [done|apply HX].
    + intros p' c j Hj. rewrite Ha in Hj. discriminate.
    + intros e0 b0 s Hb0 Hph. assert (b0 = apply_expr e) as -> by (unfold has in *; congruence).
      by destruct (phase_unique _ _ _ _ _ Hph (phase_apply e)) as [-> _].
    + intros e0 x Hx. by same_job.
    + intros g last Hx. by same_job.
    + intros e0 Hx. exists ge'. assert (apply_expr e0 = apply_expr e) as Heq by (unfold has in *; congruence).
      unfold apply_expr, expr_job in Heq. by simplify_eq.
    + intros g gr gr' _ Hg Hg'. simpl in Hg'. congruence.
    + intros e0 ge0 [= <-] He0. assert (ge0 = ge) as -> by congruence. by rewrite Hst.
    + intros e0 ge1 ge2 Hne He1 He2 _ _ Hpend. left. apply Hother in He2; [|congruence].
      assert (ge2 = ge1) as -> by congruence. apply (pending_kept v (delete a v) w w' e0 ge1 ge1); try done.
      intros y g last (p1 & q1 & Hy)%has_lookup. apply has_lookup. exists p1, q1. apply Hold; [|done].
      intros ->. rewrite Ha in Hy. discriminate.
  - split; try gone.
    + intros q0 ob Hv. congruence.
    + apply HX.
    + apply HX.
    + intros g gr' [?|Hg] Hg'; [done|]. simpl in Hg'. congruence.
    + intros e0 ge0 He0 He0' Hl0. destruct (decide (e0 = e)) as [->|Hn].
      * assert (ge0 = ge') as -> by congruence. unfold expr_status. simpl.
        pose proof (xv_expr _ _ _ _ _ _ HX e ge He Hl) as Hs. unfold expr_status in Hs. rewrite Hst in Hs.
        destruct Hs as [(y & Hy & _)|(y & Hy & Hin & Hx)].
        { assert (y = a) as ->
            by (by apply (xv_unique _ _ _ _ _ _ HX y a e _ _ _ _ Hy Hself (phase_wait e) (phase_apply e))).
          by same_job. }
        split; [done|]. intros x Hxin. destruct (Hx x Hxin) as [?|(z & Hz)]; [done|].
        assert (y = a) as ->
          by (by apply (xv_unique _ _ _ _ _ _ HX y a e _ _ _ _ Hy Hself (phase_apply e) (phase_apply e))).
        by destruct (Hfree z None (Some (xform_job e x))).
      * apply Hother in He0'; [|done]. destruct He0; congruence.
    + done.
    + intros y e0 x _. by apply (xform_ahead v dn mn w).
    + intros y e0 b0 s Hn Hy Hp0.
      by apply (other_expr v dn mn w a y e e0 _ b0 _ s HX Hself (phase_apply e)).
    + apply HX.
    + done.
Qed.

(** ** A transformation is applied *)

(** An expression with a job for its transformations belongs to a group that is
    being explored. *)
Lemma apply_group v dn mn w a e ge :
  exploring v dn mn w -> has v a (apply_expr e) -> s_gexprs w !! e = Some ge ->
  exists m last gr, s_groups w !! ge_group ge = Some gr /\ has v m (main_group (ge_group ge) last) /\
    (forall l, last = Some l -> l ∈ gr_gexprs gr) /\
    gr_estate gr = CGroup.estExploring /\ dn (ge_group ge) = false /\ mn (ge_group ge) = Some m.
Proof.
  intros HX (p & q & Ha)%has_lookup He.
  destruct (expr_job_facts _ _ _ _ _ _ _ _ _ _ HX Ha (phase_apply e))
    as (m & ge1 & _ & _ & He1 & _ & _ & (gr & last & Hgr & Hm & Hlast & _) & _).
  assert (ge1 = ge) as -> by congruence. destruct (xv_main _ _ _ _ _ _ HX m _ last Hm) as [Hd Hmn].
  pose proof (xv_group _ _ _ _ _ _ HX _ gr Hgr) as Hs. unfold group_status in Hs. rewrite Hd, Hmn in Hs.
  exists m, last, gr. do 3 (split; [done|]). by destruct Hs.
Qed.

(** What is known of a main job. *)
Lemma main_last v dn mn w m g last gr :
  exploring v dn mn w -> has v m (main_group g last) -> s_groups w !! g = Some gr ->
  gr_estate gr = CGroup.estExploring /\ forall l, last = Some l -> l ∈ gr_gexprs gr.
Proof.
  intros HX Hm Hg. destruct (xv_main _ _ _ _ _ _ HX m g last Hm) as [Hd Hmn].
  pose proof (xv_group _ _ _ _ _ _ HX _ gr Hg) as Hs. unfold group_status in Hs. rewrite Hd, Hmn in Hs.
  destruct Hs as [? (last' & Hm' & Hl)]. split; [done|].
  assert (main_group g last' = main_group g last) as Heq by (unfold has in *; congruence).
  unfold main_group, exploring_job in Heq. by simplify_eq.
Qed.

Lemma search_wf_log e x w : search_wf w -> search_wf (log_xform e x w).
Proof. by intros []. Qed.

Section xform.
Context (v : table) (dn : N -> bool) (mn : N -> option addr) (w : search R) (a : addr).
Context (p : option addr) (q : option N) (e x : N) (ge : gexpr).
Context (HX : exploring v dn mn w) (Ha : v !! a = Some (p, q, Some (xform_job e x))).
Context (Hfree : forall y q ob, v !! y <> Some (Some a, q, ob)).
Context (He : s_gexprs w !! e = Some ge) (Hx : x ∈ stage_xforms stage ge).
Let w1 := log_xform e x w.
Let w' := xform_results e x w1.

Lemma results_facts :
  search_wf w' /\ extends e w1 w' /\ PxfsCurrentStage w' = stage /\
  (room w' + xform_calls w' <= room w + xform_calls w)%nat.
Proof.
  destruct (xv_memo _ _ _ _ _ _ HX) as [Hwf _ Hst _ _].
  destruct (results_extend (stage := stage) (room := room) e ge x w1) as (H1 & H2 & H3 & H4).
  - by apply search_wf_log.
  - done.
  - rewrite (stage_xforms_eq stage w1 ge); [done|]. unfold w1. by rewrite (stage_log_xform (stage := stage) (room := room)).
  - unfold w1. by rewrite (stage_log_xform (stage := stage) (room := room)).
  - split; [done|]. split; [done|]. split; [done|]. unfold w' in *. etrans; [exact H4|]. unfold w1.
    rewrite (room_log_xform (stage := stage) (room := room)). unfold xform_calls, exploration_xforms.
    by rewrite (stage_log_xform (stage := stage) (room := room)).
Qed.

Lemma results_memo_step : memo_step None None w w'.
Proof.
  destruct results_facts as (_ & Hext & _). split.
  - intros g gr Hg. destruct (ex_group _ _ _ Hext g gr Hg) as (gr' & new & Hg' & Happ & Hst & _).
    by exists gr', new.
  - intros e0 ge0 He0. exists ge0. by rewrite (ex_gexpr _ _ _ Hext e0 ge0 He0).
  - rewrite (ex_xforms _ _ _ Hext). intros ex Hin. by right.
Qed.

Lemma results_memo_inv : memo_inv w'.
Proof.
  destruct results_facts as (Hwf & Hext & Hst & _). destruct (xv_memo _ _ _ _ _ _ HX) as [_ Hc _ Hr Hd].
  split; [done| |done| |].
  - by rewrite (ex_clock _ _ _ Hext).
  - by rewrite (ex_root _ _ _ Hext).
  - intros e0 ge0 He0. destruct (s_gexprs w !! e0) as [ge1|] eqn:He1.
    + apply (Hd e0). rewrite He1. by rewrite (ex_gexpr _ _ _ Hext e0 ge1 He1) in He0.
    + by destruct (ex_new_gexpr _ _ _ Hext e0 ge0 He1 He0).
Qed.

(** A group that grew is the one of [e], and is being explored. *)
Lemma results_grown g gr gr' new :
  s_groups w !! g = Some gr -> s_groups w' !! g = Some gr' -> gr_gexprs gr' = gr_gexprs gr ++ new ->
  new <> [] ->
  exists m last, has v m (main_group g last) /\ (forall l, last = Some l -> l ∈ gr_gexprs gr) /\
    dn g = false /\ m <> a.
Proof.
  intros Hg Hg' Happ Hn. destruct results_facts as (_ & Hext & _).
  destruct (ex_group _ _ _ Hext g gr Hg) as (gr1 & new1 & Hg1 & Happ1 & _ & Hnew).
  assert (gr1 = gr') as -> by congruence.
  assert (new1 = new) as -> by (rewrite Happ in Happ1; by apply app_inv_head in Happ1).
  destruct (Hnew Hn) as (ge1 & He1 & <-). change (s_gexprs w1) with (s_gexprs w) in He1.
  destruct (xv_shape _ _ _ _ _ _ HX a p q _ Ha) as (b & [= <-] & Hs).
  apply shape_xform_inv in Hs as (y & ge2 & _ & _ & _ & Hy & _).
  destruct (apply_group v dn mn w y e ge1 HX Hy He1) as (m & last & gr2 & Hg2 & Hm & Hl & _ & Hd & _).
  assert (gr2 = gr) as -> by congruence. exists m, last. do 3 (split; [done|]).
  intros ->. assert (has v a (xform_job e x)) by (apply has_lookup; eauto). by same_job.
Qed.

Lemma results_kept y k : y <> a -> has v y k -> has (delete a v) y k.
Proof. intros Hn (p1 & q1 & Hy)%has_lookup. apply has_lookup. exists p1, q1. by apply removed_old. Qed.

Lemma xform_local : local_step None None a v dn mn w (delete a v) dn mn w'.
Proof.
  destruct results_facts as (Hwf & Hext & Hst & _).
  assert (has v a (xform_job e x)) as Hself by (apply has_lookup; eauto).
  split; try done.
  - apply results_memo_step.
  - apply results_memo_inv.
  - apply removed_old.
  - intros p' c j Hj. rewrite Ha in Hj. discriminate.
  - intros e0 b s Hb Hph. assert (b = xform_job e x) as -> by (unfold has in *; congruence). inversion Hph.
  - intros e0 x0 Hb. assert (xform_job e0 x0 = xform_job e x) as Heq by (unfold has in *; congruence).
    unfold xform_job in Heq. simplify_eq. rewrite (ex_xforms _ _ _ Hext). left.
  - intros g last Hb. by same_job.
  - intros e0 Hb. by same_job.
  - intros g gr gr' Hd Hg Hg'. destruct (ex_group _ _ _ Hext g gr Hg) as (gr1 & new & Hg1 & Happ & _).
    assert (gr1 = gr') as -> by congruence. destruct (decide (new = [])) as [->|Hn]; [by rewrite app_nil_r in Happ|].
    destruct (results_grown g gr gr' new Hg Hg' Happ Hn) as (m & last & _ & _ & Hd' & _). congruence.
  - intros e0 ge0 ge1 _ He0 He1 _ _ (gr & Hg & Hp). left.
    assert (ge1 = ge0) as -> by (rewrite (ex_gexpr _ _ _ Hext e0 ge0 He0) in He1; congruence).
    destruct (ex_group _ _ _ Hext _ gr Hg) as (gr1 & new & Hg1 & Happ & Hest & _).
    exists gr1. split; [done|]. rewrite Hest. destruct Hp as [?|(y & last & Hy & Hin)]; [by left|].
    right. exists y, last. split.
    + apply results_kept; [|done]. intros ->. by same_job.
    + rewrite Happ, from_app; [set_solver|]. by apply (main_last v dn mn w y _ last gr HX Hy Hg).
Qed.

(** A new expression waits for its group to schedule it. *)
Lemma results_pending e0 ge0 :
  s_gexprs w !! e0 = None -> s_gexprs w' !! e0 = Some ge0 ->
  ge_estate ge0 = CGroupExpression.estUnexplored /\ pending (delete a v) w' e0 ge0.
Proof.
  intros Hn He0. destruct results_facts as (Hwf & Hext & Hst & _).
  split; [by apply (ex_new_gexpr _ _ _ Hext e0 ge0)|].
  destruct (sw_owner _ Hwf e0 ge0 He0) as (gr' & Hg' & Hin). exists gr'. split; [done|].
  destruct (s_groups w !! ge_group ge0) as [gr|] eqn:Hg; [|left; by apply (ex_new_group _ _ _ Hext _ gr' Hg)].
  destruct (ex_group _ _ _ Hext _ gr Hg) as (gr1 & new & Hg1 & Happ & Hest & _).
  assert (gr1 = gr') as -> by congruence. rewrite Happ in Hin. apply elem_of_app in Hin as [Hin|Hin].
  { destruct (sw_member _ (mi_wf _ _ _ (xv_memo _ _ _ _ _ _ HX)) _ gr e0 Hg Hin) as (ge1 & He1 & _). congruence. }
  destruct (results_grown _ gr gr' new Hg Hg' Happ) as (m & last & Hm & Hl & _ & Hma).
  { intros ->. by apply elem_of_nil in Hin. }
  right. exists m, last. split; [by apply results_kept|]. rewrite Happ, from_app by done. set_solver.
Qed.

Lemma xform_step : exploring (delete a v) dn mn w'.
Proof.
  destruct results_facts as (Hwf & Hext & Hst & _).
  assert (has v a (xform_job e x)) as Hself by (apply has_lookup; eauto).
  destruct (xv_shape _ _ _ _ _ _ HX a p q _ Ha) as (b & [= <-] & Hs).
  apply shape_xform_inv in Hs as (y0 & ge2 & Hp & Hq & He2 & Hy0 & _ & Hnot).
  assert (ge2 = ge) as -> by congruence. pose proof Hy0 as (p1 & q1 & Hv0)%has_lookup.
  destruct (expr_job_facts _ _ _ _ _ _ _ _ _ _ HX Hv0 (phase_apply e)) as (_ & ge3 & _ & _ & He3 & Hl & _).
  assert (ge3 = ge) as -> by congruence. clear He2 He3.
  apply (exploring_step stage root None None a v (delete a v) dn dn mn mn w w' HX); [apply xform_local|].
  split; try gone.
  - intros q0 ob Hv. congruence.
  - apply HX.
  - intros g Hg. apply (xv_fresh _ _ _ _ _ _ HX). destruct (s_groups w !! g) as [gr|] eqn:Hgr; [|done].
    destruct (ex_group _ _ _ Hext g gr Hgr) as (gr1 & new & Hg1 & _). fold w' in Hg1. congruence.
  - intros g gr' [?|Hg] Hg'; [done|]. destruct (xv_fresh _ _ _ _ _ _ HX g Hg) as [Hd Hm].
    unfold group_status. rewrite Hd, Hm. by apply (ex_new_group _ _ _ Hext g gr').
  - intros e0 ge0 [?|He0] He0' _; [done|]. destruct (results_pending e0 ge0 He0 He0') as [Hu Hpend].
    unfold expr_status. rewrite Hu. by left.
  - done.
  - intros y e0 x0 Hn Hy. rewrite (ex_xforms _ _ _ Hext). intros [Heq|Hin]%elem_of_cons.
    + simplify_eq. apply Hn. by apply (xv_xform _ _ _ _ _ _ HX y a e x).
    + by apply (xform_ahead v dn mn w y e0 x0 HX).
  - done.
  - rewrite (ex_xforms _ _ _ Hext). apply NoDup_cons. split; [done|apply HX].
  - intros e0 x0 Hin Hnin. rewrite (ex_xforms _ _ _ Hext) in Hin.
    apply elem_of_cons in Hin as [Heq|Hin]; [|done]. simplify_eq. exists ge.
    rewrite (ex_gexpr _ _ _ Hext e ge He). do 3 (split; [done|]).
    exists y0. apply results_kept; [|done]. intros ->. by same_job.
Qed.
End xform.

End steps.

Arguments spawn_self {S _ _ v v' a p q b' cs} Hgrown.
Arguments spawn_old {S _ _ v v' a p q b' cs} Hgrown y ent.
Arguments spawn_new {S _ _ v v' a p q b b' cs} Ha Hgrown y ent.
Arguments spawn_child {S _ _ v v' a p q b' cs} Hgrown ch.
Arguments spawn_has {S _ _ v v' a p q b' cs} Hgrown y k.
Arguments spawn_self_has {S _ _ v v' a p q b' cs} Hgrown.
Arguments spawn_once {S _ _ v v' a p q b b' cs} Ha Hgrown y z ent.
Arguments spawn_cases {S _ _ v v' a p q b b' cs} Ha Hgrown y k.
