(* ===== verification/ExplorationGroups.v ===== *)
(** The steps of the jobs of groups keep the invariant of ExplorationInv: a group
    is taken in hand, schedules its expressions, and is done; jobs of a group that
    is done go; and when the root is done, no job is left and everything below the
    root is explored. *)

From S2P Require Import Prelude NodeSet Expression SyncPool JobFactory Scheduler SchedulerFrame.
From S2P Require Import JobMachine SearchState SearchJobs SearchRuns Exploration ExplorationInv.
From S2P Require Import ExplorationSteps.
From stdpp Require Import finite.
Local Open Scope N_scope.

(** ** The rest of a list of expressions *)

Section rest.
Implicit Types (l : list N) (last : option N) (e k : N).

Lemma after_sub l e : after l e ⊆ l.
Proof. induction l as [|y l IH]; simpl; [done|]. destruct (y =? e); set_solver. Qed.

Lemma from_sub l last : PgexprFirstUnschedLogical l last ⊆ l.
Proof. destruct last; [apply after_sub|done]. Qed.

Lemma after_nodup l e : NoDup l -> NoDup (after l e).
Proof. induction 1 as [|y l Hy Hl IH]; simpl; [constructor|]. by destruct (y =? e). Qed.

Lemma from_nodup l last : NoDup l -> NoDup (PgexprFirstUnschedLogical l last).
Proof. destruct last; [apply after_nodup|done]. Qed.

(** What comes after an element of the rest comes after it in the whole. *)
Lemma after_from l last e : NoDup l -> e ∈ PgexprFirstUnschedLogical l last ->
  after (PgexprFirstUnschedLogical l last) e = after l e.
Proof.
  destruct last as [k|]; [|done]. simpl. induction 1 as [|y l Hy Hl IH]; simpl; [done|].
  destruct (y =? k) eqn:Hk; intros Hin.
  - destruct (y =? e) eqn:Hye; [|done]. breflect. by subst.
  - rewrite IH by done. destruct (y =? e) eqn:Hye; [|done]. breflect. subst.
    by destruct Hy; apply after_sub in Hin.
Qed.

(** Nothing of a filtered list comes after its last element. *)
Lemma filter_after_last (f : N -> bool) (l : list N) e k : NoDup l ->
  list.last (filter (fun z => f z = true) l) = Some k -> e ∈ after l k -> f e = false.
Proof.
  destruct (f e) eqn:Hfe; [|done]. intros Hl Hlast Hin. exfalso. revert Hlast Hin.
  induction Hl as [|z l Hz Hl IH]; simpl; [done|]. rewrite filter_cons. intros Hlast Hin.
  assert (e ∈ l -> list.last (filter (fun z => f z = true) l) = Some k) as Hrest.
  { intros Hel. case_decide; [|done]. rewrite last_cons in Hlast.
    destruct (list.last (filter _ l)) eqn:Hl0; [done|]. apply last_None in Hl0.
    assert (e ∈ filter (fun z => f z = true) l) as Hf by by apply list_elem_of_filter.
    rewrite Hl0 in Hf. by apply elem_of_nil in Hf. }
  destruct (z =? k) eqn:Hk.
  - specialize (Hrest Hin). apply last_Some_elem_of, list_elem_of_filter in Hrest as [_ Hrest].
    breflect. by subst.
  - apply IH; [|done]. apply Hrest. by apply after_sub in Hin.
Qed.
End rest.

Section groups.
Context {S : Type} `{Countable S} {R : Type} `{HO : OperatorIdentity} `{HE : SearchEngine R}.
Context (stage : list N) (room : search R -> nat) `{!ExplorationLaws stage room} (root : N).

Abbreviation addr := (job_address S).
Abbreviation table := (gmap addr (option addr * option N * option job)).
Abbreviation exploring := (exploring stage root).
Abbreviation memo_inv := (memo_inv stage root).
Abbreviation local_step := (local_step stage root).
Abbreviation step_result := (step_result stage root).
Implicit Types (v : table) (w : search R) (a y m : addr) (g e c x : N) (dn : N -> bool)
  (mn : N -> option addr).

(** The job of a group, between two rounds. *)
Lemma group_job_facts v dn mn w a p q g b :
  exploring v dn mn w -> v !! a = Some (p, q, Some b) ->
  b = init_group g \/ (exists last, b = main_group g last) ->
  q = Some (PjqExploration g) /\ is_Some (s_groups w !! g) /\ reach w root g /\ owned root v w p g.
Proof.
  intros HX Ha Hb. destruct (xv_shape _ _ _ _ _ _ HX a p q _ Ha) as (b1 & [= <-] & Hs).
  assert (forall g' b', b' = init_group g' \/ (exists last, b' = main_group g' last) ->
            b' = b -> g' = g) as Hsame.
  { intros g' b' [->|[l ->]] Heq; destruct Hb as [->|[l' ->]];
      unfold init_group, main_group, exploring_job in Heq; by simplify_eq. }
  destruct Hs as [p g1 Hg Hr Ho|p g1 last Hg Hr Ho|? ? ? b _ _ _ _ Hp|y e x ? _ _ _ _].
  - by rewrite <- (Hsame g1 (init_group g1) (or_introl eq_refl) eq_refl).
  - by rewrite <- (Hsame g1 (main_group g1 last) (or_intror (ex_intro _ last eq_refl)) eq_refl).
  - destruct Hb as [->|[l ->]]; inversion Hp.
  - by destruct Hb as [?|[l ?]].
Qed.

(** A job for an expression was scheduled by the main job of its group. *)
Lemma expr_parent v dn mn w a y g last p q e ge b s :
  exploring v dn mn w -> has v a (main_group g last) ->
  v !! y = Some (p, q, Some b) -> phase e b s -> s_gexprs w !! e = Some ge -> ge_group ge = g ->
  p = Some a.
Proof.
  intros HX Ha Hy Hp He Hg.
  destruct (expr_job_facts stage root v dn mn w y p q e b s HX Hy Hp)
    as (m & ge1 & -> & _ & He1 & _ & _ & (gr & last' & _ & Hm & _) & _).
  assert (ge1 = ge) as -> by congruence. rewrite Hg in Hm.
  destruct (xv_main _ _ _ _ _ _ HX a g last Ha) as [_ H1].
  destruct (xv_main _ _ _ _ _ _ HX m g last' Hm) as [_ H2]. congruence.
Qed.

(** The invariant sees the queues only, and of a queue that is done only that. *)
Lemma exploring_ext v dn dn' mn mn' w :
  (forall g, dn' g = dn g) -> (forall g, dn g = false -> mn' g = mn g) ->
  exploring v dn mn w -> exploring v dn' mn' w.
Proof.
  intros Hd Hm HX. destruct HX as [H1 H2 H3 H4 H5 H6 H7 H8 H9 H10 H11 H12]. split; try done.
  - by rewrite Hd.
  - intros g Hg. destruct (H5 g Hg) as [Hdn Hmn]. by rewrite Hd, Hm.
  - intros g gr Hg. specialize (H6 g gr Hg). unfold group_status in *. rewrite Hd.
    destruct (dn g) eqn:Hdn; [done|]. by rewrite Hm.
  - intros a g last Ha. destruct (H7 a g last Ha) as [Hdn Hmn]. by rewrite Hd, Hm.
  - intros e ge He Hl. specialize (H8 e ge He Hl). unfold expr_status in *.
    destruct (ge_estate ge); [done| | |done..].
    + destruct H8 as [(a & Ha & Hc)|(a & Ha & Hc & Hx)]; [left|right]; exists a; (split; [done|]).
      * intros c Hin. rewrite Hd. by apply Hc.
      * split; [|done]. intros c Hin. rewrite Hd. by apply Hc.
    + destruct H8 as [Hc Hx]. split; [|done]. intros c Hin. rewrite Hd. by apply Hc.
Qed.

(** ** A group is taken in hand *)

Section take.
Context (v : table) (dn : N -> bool) (mn mn' : N -> option addr) (w : search R) (a : addr).
Context (p : option addr) (g : N) (gr : group) (HX : exploring v dn mn w).
Context (Ha : v !! a = Some (p, Some (PjqExploration g), Some (init_group g))).
Context (Hfree : forall y q ob, v !! y <> Some (Some a, q, ob)) (Hg : s_groups w !! g = Some gr).
Context (Hd : dn g = false) (Hm : mn g = None).
Context (Hm' : mn' g = Some a) (Hmo : forall c, c <> g -> mn' c = mn c).
Let v' : table := <[a := (p, Some (PjqExploration g), Some (main_group g None))]> v.
Let gr' := with_group_state CGroup.estExploring gr.
Let w' := put_group g gr' w.

Lemma take_self : has v a (init_group g).
Proof. apply has_lookup. eauto. Qed.

Lemma take_self' : has v' a (main_group g None).
Proof. apply has_lookup. exists p, (Some (PjqExploration g)). apply lookup_insert_eq. Qed.

Lemma take_old y ent : y <> a -> v !! y = Some ent -> v' !! y = Some ent.
Proof. intros Hn Hy. unfold v'. by rewrite lookup_insert_ne. Qed.

Lemma take_kept y k : y <> a -> has v y k -> has v' y k.
Proof. intros Hn (p1 & q1 & Hy)%has_lookup. apply has_lookup. exists p1, q1. by apply take_old. Qed.

Lemma take_new y ent : y = a \/ v !! y = None -> v' !! y = Some ent ->
  y = a /\ ent = (p, Some (PjqExploration g), Some (main_group g None)).
Proof. intros Hy [[-> <-]|[Hn Hv]]%lookup_insert_Some; [done|]. destruct Hy; congruence. Qed.

Lemma take_has y k : y = a \/ v !! y = None -> has v' y k -> y = a /\ k = main_group g None.
Proof.
  intros Hy (p1 & q1 & Hv)%has_lookup. destruct (take_new y _ Hy Hv) as [-> Heq]. split; [done|congruence].
Qed.

Lemma take_local : local_step None (Some g) a v dn mn w v' dn mn' w'.
Proof.
  pose proof take_self as Hself. split; try done.
  - by apply memo_step_put_group.
  - apply (memo_inv_put_group stage room root); [done|apply HX].
  - apply take_old.
  - intros p1 c j Hj. right. rewrite Ha in Hj. simplify_eq.
    exists (exploring_job g None). unfold v'. rewrite lookup_insert_eq. repeat f_equal.
    unfold PjqExploration in *. lia.
  - intros e b s Hb Hph. assert (b = init_group g) as -> by (unfold has in *; congruence). inversion Hph.
  - intros e x Hb. by same_job.
  - intros g0 last Hb. by same_job.
  - intros c Hc. split; [done|]. apply Hmo. congruence.
  - intros e Hb. by same_job.
  - intros g0 gr0 gr1 Hd0 Hg0 Hg1. simpl in Hg1.
    apply lookup_insert_Some in Hg1 as [[<- <-]|[Hn Hg1]]; congruence.
  - intros e ge ge' _ He He' _ _ (gr1 & Hg1 & Hp). left. assert (ge' = ge) as -> by (simpl in He'; congruence).
    destruct (decide (ge_group ge = g)) as [Heq|Hn].
    + exists gr'. rewrite Heq. split; [apply lookup_insert_eq|]. right. exists a, None.
      split; [apply take_self'|].
      destruct (sw_owner _ (mi_wf _ _ _ (xv_memo _ _ _ _ _ _ HX)) e ge He) as (gr2 & Hg2 & Hin).
      by assert (gr2 = gr) as -> by congruence.
    + exists gr1. simpl. rewrite lookup_insert_ne by done. split; [done|].
      destruct Hp as [?|(y & last & Hy & Hin)]; [by left|]. right. exists y, last. split; [|done].
      apply take_kept; [|done]. intros ->. by same_job.
Qed.

Lemma take_shape : shape stage root v' w' p (Some (PjqExploration g)) (main_group g None).
Proof.
  destruct (group_job_facts v dn mn w a p _ g _ HX Ha (or_introl eq_refl)) as (_ & Hgs & Hr & Ho).
  pose proof (memo_step_put_group g CGroup.estExploring w gr Hg) as Hms.
  apply shape_main; [simpl; by rewrite lookup_insert_eq|by eapply reach_step|].
  eapply owned_step; [exact Hms|exact take_kept| |done].
  intros Hp. apply (Hfree a (Some (PjqExploration g)) (Some (init_group g))). by rewrite <- Hp.
Qed.

Lemma take_step : exploring v' dn mn' w'.
Proof.
  apply (exploring_step stage root None (Some g) a v v' dn dn mn mn' w w' HX take_local). split.
  - intros y p1 q1 ob Hy Hv. destruct (take_new y _ Hy Hv) as [-> [= -> -> ->]]. eexists. split; [done|].
    apply take_shape.
  - intros y q1 ob Hy Hv. destruct (take_new y _ Hy Hv) as [-> [= <- -> ->]]. eauto.
  - intros q1 ob Hv. assert (p = None) as Hp by congruence. eexists _, _. rewrite <- Hp. apply lookup_insert_eq.
  - apply HX.
  - intros c Hc. simpl in Hc. apply lookup_insert_None in Hc as [Hc Hn].
    rewrite Hmo by done. by apply (xv_fresh _ _ _ _ _ _ HX).
  - intros c gr1 [[= <-]|Hc] Hg1; simpl in Hg1.
    + rewrite lookup_insert_eq in Hg1. injection Hg1 as <-. unfold group_status. rewrite Hd, Hm'.
      split; [done|]. exists None. split; [apply take_self'|done].
    + apply lookup_insert_Some in Hg1 as [[<- _]|[_ Hg1]]; congruence.
  - intros e ge [?|He] He'; [done|]. simpl in He'. congruence.
  - intros y g0 last Hy Hv. destruct (take_has y _ Hy Hv) as [-> Heq].
    unfold main_group, exploring_job in Heq. by simplify_eq.
  - intros y g0 last [= <-] Hn Hy. destruct (xv_main _ _ _ _ _ _ HX y g last Hy). congruence.
  - intros y z e b b' s s' Hy Hv _ Hp. destruct (take_has y _ Hy Hv) as [-> ->]. inversion Hp.
  - intros y z e x Hy Hv. by destruct (take_has y _ Hy Hv) as [-> ?].
  - intros y e x _. by apply (xform_ahead stage root v dn mn w).
  - done.
  - apply HX.
  - done.
Qed.
End take.

(** ** A group schedules its expressions *)

(** In the hands of a main job without children: the expressions of the group
    have no jobs. *)
Section main.
Context (v : table) (dn : N -> bool) (mn : N -> option addr) (w : search R) (a : addr).
Context (p : option addr) (q : option N) (g : N) (last : option N) (gr : group).
Context (HX : exploring v dn mn w) (Ha : v !! a = Some (p, q, Some (main_group g last))).
Context (Hfree : forall y q ob, v !! y <> Some (Some a, q, ob)) (Hg : s_groups w !! g = Some gr).

Lemma main_has : has v a (main_group g last).
Proof. apply has_lookup. eauto. Qed.

Lemma no_expr_job y e ge b s : has v y b -> phase e b s -> s_gexprs w !! e = Some ge -> ge_group ge <> g.
Proof.
  intros (p1 & q1 & Hy)%has_lookup Hp He Hgg.
  pose proof (expr_parent v dn mn w a y g last p1 q1 e ge b s HX main_has Hy Hp He Hgg) as ->.
  by apply (Hfree y q1 (Some b)).
Qed.

(** An expression of the group is explored, or it waits to be scheduled. *)
Lemma group_expr e ge :
  s_gexprs w !! e = Some ge -> ge_group ge = g -> FLogical (ge_pop ge) = true ->
  ge_estate ge = CGroupExpression.estExplored \/
  ge_estate ge = CGroupExpression.estUnexplored /\ e ∈ PgexprFirstUnschedLogical (gr_gexprs gr) last.
Proof.
  intros He Hgg Hl. pose proof (xv_expr _ _ _ _ _ _ HX e ge He Hl) as Hs. unfold expr_status in Hs.
  destruct (ge_estate ge); [right|exfalso|by left|done..].
  - split; [done|]. destruct Hs as [(gr1 & Hg1 & Hp)|[y Hy]].
    + rewrite Hgg in Hg1, Hp. assert (gr1 = gr) as -> by congruence.
      destruct (main_last stage root v dn mn w a g last gr HX main_has Hg) as [Hst _].
      destruct Hp as [?|(y & last' & Hy & Hin)]; [congruence|].
      destruct (xv_main _ _ _ _ _ _ HX y g last' Hy) as [_ H1].
      destruct (xv_main _ _ _ _ _ _ HX a g last main_has) as [_ H2]. assert (y = a) as -> by congruence.
      pose proof main_has as Hm.
      assert (main_group g last' = main_group g last) as Heq by (unfold has in *; congruence).
      unfold main_group, exploring_job in Heq. by simplify_eq.
    + by destruct (no_expr_job y e ge _ _ Hy (phase_start e) He).
  - destruct Hs as [(y & Hy & _)|(y & Hy & _)].
    + by destruct (no_expr_job y e ge _ _ Hy (phase_wait e) He).
    + by destruct (no_expr_job y e ge _ _ Hy (phase_apply e) He).
Qed.

(** What the job schedules. *)
Lemma todo_facts e : e ∈ unexplored w (PgexprFirstUnschedLogical (gr_gexprs gr) last) <->
  e ∈ PgexprFirstUnschedLogical (gr_gexprs gr) last /\
  exists ge, s_gexprs w !! e = Some ge /\ ge_group ge = g /\ FLogical (ge_pop ge) = true /\
    ge_estate ge = CGroupExpression.estUnexplored.
Proof.
  unfold unexplored, to_explore. rewrite list_elem_of_filter. split.
  - intros [Ht Hin]. split; [done|].
    destruct (sw_member _ (mi_wf _ _ _ (xv_memo _ _ _ _ _ _ HX)) g gr e Hg) as (ge & He & Hgg);
      [by apply from_sub in Hin|].
    rewrite He in Ht. unfold FTransitioned_explored in Ht. apply negb_true_iff, orb_false_elim in Ht as [Hl Ht].
    apply negb_false_iff in Hl. exists ge. do 3 (split; [done|]).
    destruct (group_expr e ge He Hgg Hl) as [Hst|[? _]]; [|done].
    unfold CGroupExpression_FExplored in Ht. by rewrite Hst in Ht.
  - intros [Hin (ge & He & _ & Hl & Hst)]. split; [|done]. rewrite He.
    unfold FTransitioned_explored, CGroupExpression_FExplored. by rewrite Hl, Hst.
Qed.
End main.

Section schedule.
Context (v v' : table) (dn : N -> bool) (mn : N -> option addr) (w : search R) (a : addr).
Context (p : option addr) (q : option N) (g : N) (last : option N) (gr : group) (k : N).
Context (HX : exploring v dn mn w) (Ha : v !! a = Some (p, q, Some (main_group g last))).
Context (Hfree : forall y q ob, v !! y <> Some (Some a, q, ob)) (Hg : s_groups w !! g = Some gr).
Let todo := unexplored w (PgexprFirstUnschedLogical (gr_gexprs gr) last).
Context (Hk : list.last todo = Some k).
Context (Hgrown : grown a (<[a := (p, q, Some (main_group g (Some k)))]> v) (exploration_child <$> todo) v').

Let Hnd := sw_nodup _ (mi_wf _ _ _ (xv_memo _ _ _ _ _ _ HX)) g gr Hg.
Let Hself : has v a (main_group g last) := main_has v a p q g last Ha.
Let Hself' : has v' a (main_group g (Some k)) := spawn_self_has Hgrown.

Lemma todo_last : k ∈ gr_gexprs gr.
Proof. apply last_Some_elem_of, (todo_facts v dn mn w a p q g last gr HX Ha Hfree Hg) in Hk as [Hin _]. by apply from_sub in Hin. Qed.

Lemma todo_behind e : e ∈ todo -> e ∉ after (gr_gexprs gr) k.
Proof.
  intros Hin Haf. pose proof Hin as [Hf _]%list_elem_of_filter.
  rewrite <- (after_from _ last k Hnd) in Haf.
  - pose proof (filter_after_last (to_explore w) _ e k (from_nodup _ last Hnd) Hk Haf). congruence.
  - apply last_Some_elem_of, (todo_facts v dn mn w a p q g last gr HX Ha Hfree Hg) in Hk as [Hkin _]. done.
Qed.

Lemma schedule_new y p1 q1 ob : y = a \/ v !! y = None -> v' !! y = Some (p1, q1, ob) ->
  y = a /\ (p1, q1, ob) = (p, q, Some (main_group g (Some k))) \/
  v !! y = None /\ exists e, e ∈ todo /\ (p1, q1, ob) = (Some a, None, Some (start_expr e)).
Proof.
  intros Hy Hv. destruct (spawn_new Ha Hgrown y _ Hy Hv) as [?|(Hn & ch & Hin & Heq)]; [by left|].
  right. split; [done|]. apply list_elem_of_fmap in Hin as (e & -> & Hin). by exists e.
Qed.

Lemma schedule_start e : e ∈ todo -> exists y, has v' y (start_expr e).
Proof.
  intros Hin. destruct (spawn_child Hgrown (exploration_child e)) as (y & _ & Hy);
    [by apply list_elem_of_fmap_2|]. exists y. apply has_lookup. by exists (Some a), None.
Qed.

Lemma schedule_local : local_step None (Some g) a v dn mn w v' dn mn w.
Proof.
  split; try done.
  - destruct (memo_step_refl w) as [H1 H2 H3]. split; try done. intros c gr1 Hc.
    destruct (H1 c gr1 Hc) as (gr2 & new & ? & ? & Hst). exists gr2, new. do 2 (split; [done|]). intros _. by apply Hst.
  - apply HX.
  - intros y ent. apply (spawn_old Hgrown).
  - intros p1 c j Hj. right. rewrite (spawn_self Hgrown). rewrite Ha in Hj. simplify_eq.
    by exists (exploring_job g (Some k)).
  - intros e b s Hb Hp. pose proof Hself. assert (b = main_group g last) as -> by (unfold has in *; congruence).
    inversion Hp.
  - intros e x Hb. pose proof Hself. by same_job.
  - intros c last' Hb. pose proof Hself. by same_job.
  - intros e Hb. pose proof Hself. by same_job.
  - intros c gr1 gr2 _ Hc Hc'. congruence.
  - intros e ge ge' _ He He' Hl Hst (gr1 & Hg1 & Hp). assert (ge' = ge) as -> by congruence.
    destruct (decide (ge_group ge = g)) as [Hgg|Hn].
    + right. apply schedule_start, (todo_facts v dn mn w a p q g last gr HX Ha Hfree Hg). split; [|eauto 10].
      by destruct (group_expr v dn mn w a p q g last gr HX Ha Hfree Hg e ge He Hgg Hl) as [?|[_ ?]]; [congruence|].
    + left. exists gr1. split; [done|]. destruct Hp as [?|(y & last' & Hy & Hin)]; [by left|].
      right. exists y, last'. split; [|done]. apply (spawn_has Hgrown); [|done]. intros ->.
      pose proof Hself as Hs. assert (main_group (ge_group ge) last' = main_group g last) as Heq
        by (unfold has in *; congruence). unfold main_group, exploring_job in Heq. by simplify_eq.
Qed.

Lemma schedule_shape y p1 q1 ob : y = a \/ v !! y = None -> v' !! y = Some (p1, q1, ob) ->
  exists b, ob = Some b /\ shape stage root v' w p1 q1 b.
Proof.
  intros Hy Hv. destruct (group_job_facts v dn mn w a p q g _ HX Ha (or_intror (ex_intro _ last eq_refl)))
    as (Hq & Hgs & Hr & Ho).
  destruct (schedule_new y _ _ _ Hy Hv) as [[-> [= -> -> ->]]|(_ & e & Hin & [= -> -> ->])];
    (eexists; split; [done|]).
  - rewrite Hq. apply shape_main; [done|done|].
    eapply (owned_step root None None w w v v' a (memo_step_refl w));
      [intros z b Hn Hz; by apply (spawn_has Hgrown)| |done].
    intros Hp. apply (Hfree a q (Some (main_group g last))). by rewrite <- Hp.
  - pose proof Hin as (_ & ge & He & Hgg & Hl & Hst)%(todo_facts v dn mn w a p q g last gr HX Ha Hfree Hg).
    apply (shape_expr stage root v' w a e ge); [done|done|by rewrite Hgg| |rewrite Hst; apply phase_start].
    exists gr, (Some k). rewrite Hgg. split; [done|]. split; [done|]. split.
    + intros l [= <-]. apply todo_last.
    + by apply todo_behind.
Qed.

Lemma schedule_unique y z e b b' s s' : y = a \/ v !! y = None -> has v' y b -> has v' z b' ->
  phase e b s -> phase e b' s' -> y = z.
Proof.
  intros Hy (p1 & q1 & Hv)%has_lookup Hz Hp Hp'.
  destruct (schedule_new y _ _ _ Hy Hv) as [[-> [= _ _ ->]]|(Hyn & e1 & Hin & [= -> -> ->])]; [inversion Hp|].
  destruct (phase_unique _ _ _ _ _ Hp (phase_start e1)) as [<- _].
  pose proof Hin as (_ & ge & He & Hgg & _)%(todo_facts v dn mn w a p q g last gr HX Ha Hfree Hg).
  destruct (spawn_cases Ha Hgrown z b' Hz) as [[_ ->]|[[_ Hz']|(Hzn & ch & Hch & <- & Hvz)]];
    [inversion Hp'|by destruct (no_expr_job v dn mn w a p q g last HX Ha Hfree z e ge b' s' Hz' Hp' He)|].
  apply list_elem_of_fmap in Hch as (e2 & -> & Hin2).
  destruct (phase_unique _ _ _ _ _ Hp' (phase_start e2)) as [<- _].
  apply (spawn_once Ha Hgrown y z (child_entry a (exploration_child e))); try done.
  rewrite <- list_fmap_compose. apply NoDup_fmap_2_strong; [|by apply NoDup_filter, from_nodup].
  intros x1 x2 _ _ Heq. unfold child_entry in Heq. simpl in Heq. congruence.
Qed.

Lemma schedule_step : exploring v' dn mn w.
Proof.
  apply (exploring_step stage root None (Some g) a v v' dn dn mn mn w w HX schedule_local). split.
  - apply schedule_shape.
  - intros y q1 ob Hy Hv.
    destruct (schedule_new y _ _ _ Hy Hv) as [[-> [= <- -> ->]]|(_ & e & _ & [=])]. eauto.
  - intros q1 ob Hv. eexists _, _. rewrite (spawn_self Hgrown). by simplify_eq.
  - apply HX.
  - apply HX.
  - intros c gr' [[= <-]|Hc] Hc'; [|congruence]. assert (gr' = gr) as -> by congruence.
    destruct (xv_main _ _ _ _ _ _ HX a g last Hself) as [Hd Hm].
    destruct (main_last stage root v dn mn w a g last gr HX Hself Hg) as [Hst _].
    unfold group_status. rewrite Hd, Hm. split; [done|]. exists (Some k). split; [done|].
    intros l [= <-]. apply todo_last.
  - intros e ge [?|He] He'; [done|congruence].
  - intros y c last' Hy (p1 & q1 & Hv)%has_lookup.
    destruct (schedule_new y _ _ _ Hy Hv) as [[-> [= _ _ Heq]]|(_ & e & _ & [=])].
    unfold main_group, exploring_job in Heq. simplify_eq. by apply (xv_main _ _ _ _ _ _ HX a g last).
  - intros y c last' [= <-] Hn Hy. exfalso. apply Hn.
    destruct (xv_main _ _ _ _ _ _ HX a g last Hself) as [_ Hm].
    destruct (xv_main _ _ _ _ _ _ HX y g last' Hy) as [_ Hm']. congruence.
  - apply schedule_unique.
  - intros y z e x Hy (p1 & q1 & Hv)%has_lookup.
    by destruct (schedule_new y _ _ _ Hy Hv) as [[_ [=]]|(_ & e1 & _ & [=])].
  - intros y e x _. by apply (xform_ahead stage root v dn mn w).
  - done.
  - apply HX.
  - done.
Qed.
End schedule.

(** ** A group is done *)

(** With nothing left to schedule, every logical expression of the group is
    explored. *)
Lemma done_explored v dn mn w a p q g last gr :
  exploring v dn mn w -> v !! a = Some (p, q, Some (main_group g last)) ->
  (forall y q ob, v !! y <> Some (Some a, q, ob)) -> s_groups w !! g = Some gr ->
  list.last (unexplored w (PgexprFirstUnschedLogical (gr_gexprs gr) last)) = None ->
  forall e ge, s_gexprs w !! e = Some ge -> ge_group ge = g -> FLogical (ge_pop ge) = true ->
    ge_estate ge = CGroupExpression.estExplored.
Proof.
  intros HX Ha Hfree Hg Hnone%last_None e ge He Hgg Hl.
  destruct (group_expr v dn mn w a p q g last gr HX Ha Hfree Hg e ge He Hgg Hl) as [?|[Hst Hin]]; [done|].
  assert (e ∈ unexplored w (PgexprFirstUnschedLogical (gr_gexprs gr) last)) as Hin'
    by (apply (todo_facts v dn mn w a p q g last gr HX Ha Hfree Hg); eauto 10).
  rewrite Hnone in Hin'. by apply elem_of_nil in Hin'.
Qed.

Section group_done.
Context (v : table) (dn dn' : N -> bool) (mn mn' : N -> option addr) (w : search R) (a : addr).
Context (p : option addr) (q : option N) (g : N) (last : option N) (gr : group).
Context (HX : exploring v dn mn w) (Ha : v !! a = Some (p, q, Some (main_group g last))).
Context (Hfree : forall y q ob, v !! y <> Some (Some a, q, ob)) (Hg : s_groups w !! g = Some gr).
Context (Htodo : list.last (unexplored w (PgexprFirstUnschedLogical (gr_gexprs gr) last)) = None).
Context (Hroot : g <> root) (Hdn' : dn' g = true).
Context (Hdo : forall c, c <> g -> dn' c = dn c /\ mn' c = mn c).
Let gr' := with_group_state CGroup.estExplored gr.
Let w' := put_group g gr' w.

Lemma done_has : has v a (main_group g last).
Proof. apply has_lookup. eauto. Qed.

Lemma done_kept y k : y <> a -> has v y k -> has (delete a v) y k.
Proof. intros Hn (p1 & q1 & Hy)%has_lookup. apply has_lookup. exists p1, q1. by apply removed_old. Qed.

Lemma done_local : local_step None (Some g) a v dn mn w (delete a v) dn' mn' w'.
Proof.
  pose proof done_has as Hself.
  split; try done.
  - by apply memo_step_put_group.
  - apply (memo_inv_put_group stage room root); [done|apply HX].
  - apply removed_old.
  - intros p1 c j Hj. left.
    destruct (group_job_facts v dn mn w a p q g _ HX Ha (or_intror (ex_intro _ last eq_refl))) as (Hq & _).
    assert (PjqExploration c = PjqExploration g) as Heq by congruence. unfold PjqExploration in Heq.
    by assert (c = g) as -> by lia.
  - intros e b s Hb Hp. assert (b = main_group g last) as -> by (unfold has in *; congruence). inversion Hp.
  - intros e x Hb. by same_job.
  - intros c last' Hb. by same_job.
  - intros c Hc. destruct (decide (c = g)) as [->|Hn]; [done|]. by destruct (Hdo c Hn) as [-> _].
  - intros c Hc. apply Hdo. congruence.
  - intros e Hb. by same_job.
  - intros c gr1 gr2 Hd Hc Hc'. simpl in Hc'. apply lookup_insert_Some in Hc' as [[<- <-]|[Hn Hc']]; [|congruence].
    by assert (gr1 = gr) as -> by congruence.
  - intros e ge ge' _ He He' Hl Hst (gr1 & Hg1 & Hp). left. assert (ge' = ge) as -> by (simpl in He'; congruence).
    assert (ge_group ge <> g) as Hn.
    { intros Hgg. pose proof (done_explored v dn mn w a p q g last gr HX Ha Hfree Hg Htodo e ge He Hgg Hl). congruence. }
    exists gr1. simpl. rewrite lookup_insert_ne by done. split; [done|].
    destruct Hp as [?|(y & last' & Hy & Hin)]; [by left|]. right. exists y, last'. split; [|done].
    apply done_kept; [|done]. intros ->. by same_job.
Qed.

Lemma done_step : exploring (delete a v) dn' mn' w'.
Proof.
  pose proof done_has as Hself.
  apply (exploring_step stage root None (Some g) a v (delete a v) dn dn' mn mn' w w' HX done_local).
  split; try gone.
  - intros q1 ob Hv. exfalso. apply Hroot.
    destruct (group_job_facts v dn mn w a p q g _ HX Ha (or_intror (ex_intro _ last eq_refl))) as (_ & _ & _ & Ho).
    assert (p = None) as -> by congruence. done.
  - destruct (Hdo root (not_eq_sym Hroot)) as [-> _]. apply HX.
  - intros c Hc. simpl in Hc. apply lookup_insert_None in Hc as [Hc Hn].
    destruct (Hdo c (not_eq_sym Hn)) as [-> ->]. by apply (xv_fresh _ _ _ _ _ _ HX).
  - intros c gr1 [[= <-]|Hc] Hc'; simpl in Hc'.
    + rewrite lookup_insert_eq in Hc'. injection Hc' as <-. unfold group_status. rewrite Hdn'. split; [done|].
      intros e ge Hin He Hl. destruct (sw_member _ (mi_wf _ _ _ (xv_memo _ _ _ _ _ _ HX)) g gr e Hg Hin)
        as (ge1 & He1 & Hgg). assert (ge1 = ge) as -> by (simpl in He; congruence).
      by apply (done_explored v dn mn w a p q g last gr HX Ha Hfree Hg Htodo e ge).
    + apply lookup_insert_Some in Hc' as [[<- _]|[_ Hc']]; congruence.
  - intros e ge [?|He] He'; [done|]. simpl in He'. congruence.
  - intros y c last' [= <-] Hn Hy. exfalso. apply Hn.
    destruct (xv_main _ _ _ _ _ _ HX a g last Hself) as [_ Hm].
    destruct (xv_main _ _ _ _ _ _ HX y g last' Hy) as [_ Hm']. congruence.
  - intros y e x _. by apply (xform_ahead stage root v dn mn w).
  - done.
  - apply HX.
  - done.
Qed.
End group_done.

(** ** Jobs of groups that are done *)

(** Jobs that wait for a group go when it is done. *)
Section drop.
Context (v v' : table) (dn : N -> bool) (mn : N -> option addr) (w : search R).
Context (HX : exploring v dn mn w) (Hsub : v' ⊆ v).
Context (Hgone : forall y ent, v !! y = Some ent -> v' !! y = None ->
  exists p g, ent = (p, Some (PjqExploration g), Some (init_group g)) /\ dn g = true).

Lemma drop_kept y p q b : (forall g, b <> init_group g) -> v !! y = Some (p, q, Some b) ->
  v' !! y = Some (p, q, Some b).
Proof.
  intros Hb Hy. destruct (v' !! y) as [ent|] eqn:Hy'.
  - eapply lookup_weaken in Hy'; [|exact Hsub]. congruence.
  - destruct (Hgone y _ Hy Hy') as (p1 & g & Heq & _). injection Heq as _ _ Heq. by destruct (Hb g).
Qed.

Lemma drop_has y b : (forall g, b <> init_group g) -> has v y b -> has v' y b.
Proof. intros Hb (p & q & Hy)%has_lookup. apply has_lookup. exists p, q. by apply drop_kept. Qed.

Lemma drop_back y b : has v' y b -> has v y b.
Proof. intros (p & q & Hy)%has_lookup. apply has_lookup. exists p, q. by eapply lookup_weaken. Qed.

Lemma drop_shape p q b : shape stage root v w p q b -> shape stage root v' w p q b.
Proof.
  assert (forall p g, owned root v w p g -> owned root v' w p g) as Hown.
  { intros [z|] g; [|done]. intros (e & ge & Hz & He & Hc). exists e, ge. split; [by apply drop_has|done]. }
  intros [? g Hg Hr Ho|? g last Hg Hr Ho|m e ge b0 He Hl Hr Hsch Hp|z e x ge He Hz Hx Hn].
  - apply shape_init; auto.
  - apply shape_main; auto.
  - eapply shape_expr; [done|done|done| |done]. destruct Hsch as (gr & last & Hgr & Hm & Hrest).
    exists gr, last. split; [done|]. split; [by apply drop_has|done].
  - eapply shape_xform; [done|by apply drop_has|done..].
Qed.

Lemma drop_first : exists a0 q0 b0, v' !! a0 = Some (None, q0, b0) /\
  forall y q b, v' !! y = Some (None, q, b) -> y = a0.
Proof.
  destruct (xv_first _ _ _ _ _ _ HX) as (a0 & q0 & b0 & Ha0 & Huniq).
  exists a0, q0, b0. split; [|intros y q b Hy; eapply Huniq, lookup_weaken; eauto].
  destruct (v' !! a0) as [ent|] eqn:Hy'; [by eapply lookup_weaken in Hy' as Hy2; [|exact Hsub]; congruence|].
  destruct (Hgone a0 _ Ha0 Hy') as (p1 & g & Heq & Hd). injection Heq as <- -> ->.
  destruct (group_job_facts v dn mn w a0 None _ g _ HX Ha0 (or_introl eq_refl)) as (_ & _ & _ & Ho).
  simpl in Ho. subst. pose proof (xv_open _ _ _ _ _ _ HX). congruence.
Qed.

Lemma drop_status e ge : expr_status stage v dn w e ge -> expr_status stage v' dn w e ge.
Proof.
  unfold expr_status. destruct (ge_estate ge); [| |done..].
  - intros [(gr & Hg & Hp)|[y Hy]]; [left|right; exists y; by apply drop_has].
    exists gr. split; [done|]. destruct Hp as [?|(y & last & Hy & Hin)]; [by left|].
    right. exists y, last. split; [by apply drop_has|done].
  - intros [(y & Hy & Hc)|(y & Hy & Hc & Hx)]; [left|right]; exists y; (split; [by apply drop_has|]).
    + intros c Hin. destruct (Hc c Hin) as [?|(z & j & Hz)]; [by left|].
      destruct (v' !! z) as [ent|] eqn:Hz'.
      { right. exists z, j. eapply lookup_weaken in Hz' as Hz2; [|exact Hsub]. congruence. }
      destruct (Hgone z _ Hz Hz') as (p1 & g & [= _ Heq _] & Hd). left. unfold PjqExploration in Heq.
      by assert (c = g) as -> by lia.
    + split; [done|]. intros x Hin. destruct (Hx x Hin) as [?|(z & Hz)]; [by left|]. right. exists z.
      by apply drop_kept.
Qed.

Lemma drop_step : exploring v' dn mn w.
Proof.
  split.
  - apply HX.
  - intros y p q ob Hy. eapply lookup_weaken in Hy; [|exact Hsub].
    destruct (xv_shape _ _ _ _ _ _ HX y p q ob Hy) as (b & -> & Hs). exists b. split; [done|]. by apply drop_shape.
  - apply drop_first.
  - apply HX.
  - apply HX.
  - intros g gr Hg. pose proof (xv_group _ _ _ _ _ _ HX g gr Hg) as Hs. unfold group_status in *.
    destruct (dn g); [done|]. destruct (mn g) as [m|]; [|done]. destruct Hs as [? (last & Hm & Hl)].
    split; [done|]. exists last. split; [by apply drop_has|done].
  - intros y g last Hy. by apply (xv_main _ _ _ _ _ _ HX y g last), drop_back.
  - intros e ge He Hl. by apply drop_status, (xv_expr _ _ _ _ _ _ HX).
  - intros y z e b b' s s' Hy Hz. apply (xv_unique _ _ _ _ _ _ HX y z e b b' s s'); by apply drop_back.
  - intros y z e x Hy Hz. apply (xv_xform _ _ _ _ _ _ HX y z e x); by apply drop_back.
  - apply HX.
  - intros e x Hin. destruct (xv_applied _ _ _ _ _ _ HX e x Hin) as (ge & He & Hl & Hx & Hst).
    exists ge. do 3 (split; [done|]). destruct Hst as [?|[y Hy]]; [by left|]. right. exists y. by apply drop_has.
Qed.
End drop.

End groups.
