(* ===== verification/ExplorationComplete.v ===== *)
(** Exploration ends, and is complete.

    The steps of ExplorationSteps and ExplorationGroups put together: the measure
    every round of the scheduler makes smaller, the ranks along which the jobs
    wait for each other, the end of the root, and the theorem. *)

From S2P Require Import Prelude NodeSet Expression SyncPool JobFactory Scheduler SchedulerFrame.
From S2P Require Import JobMachine SearchState SearchJobs SearchRuns Exploration ExplorationInv.
From S2P Require Import ExplorationSteps ExplorationGroups.
From stdpp Require Import finite.
From Stdlib Require Import Wellfounded Relation_Operators.
Local Open Scope N_scope.

Section complete.
Context {S : Type} `{Countable S} {R : Type} `{HO : OperatorIdentity} `{HE : SearchEngine R}.
Context (stage : list N) (room : search R -> nat) `{!ExplorationLaws stage room} (root : N).

Abbreviation addr := (job_address S).
Abbreviation table := (gmap addr (option addr * option N * option job)).
Abbreviation exploring := (exploring stage root).
Abbreviation memo_inv := (memo_inv stage root).
Implicit Types (v : table) (w : search R) (a y m : addr) (g e c x : N) (dn : N -> bool)
  (mn : N -> option addr).

(** ** Ranks *)

Section ranks.
Context (rk : N -> nat).

Definition gexpr_rank w e : nat :=
  match s_gexprs w !! e with Some ge => 3 * rk (ge_group ge) | None => 0 end.
Definition job_rank w (b : job) : nat :=
  match b with
  | JGroupExploration j => 3 * rk (m_pgroup j) + 2
  | JGroupExpressionExploration j => gexpr_rank w (m_pgexpr j) + 1
  | JTransformation j => gexpr_rank w (jt_pgexpr j)
  | _ => 0
  end.
Definition queue_rank (q : N) : nat := 3 * rk (q / 2) + 2.

Context (w : search R) (Hrk : forall e ge c,
  s_gexprs w !! e = Some ge -> c ∈ ge_children ge -> (rk c < rk (ge_group ge))%nat).

Lemma reach_rank g : reach w root g -> (rk g <= rk root)%nat.
Proof.
  induction 1 as [|g e ge c Hr IH He Hg Hl Hc]; [done|]. pose proof (Hrk e ge c He Hc). subst. lia.
Qed.

Lemma phase_rank e ge b s : phase e b s -> s_gexprs w !! e = Some ge ->
  job_rank w b = (3 * rk (ge_group ge) + 1)%nat.
Proof. intros Hp He. destruct Hp; simpl; unfold gexpr_rank; by rewrite He. Qed.

(** The jobs wait along their ranks. *)
Lemma exploring_ranked v dn mn : exploring v dn mn w -> Ranked (job_rank w) queue_rank v.
Proof.
  intros HX. split.
  - intros y p q b Hy. destruct (xv_shape _ _ _ _ _ _ HX y _ _ _ Hy) as (b1 & [= <-] & Hs).
    assert (forall g, owned root v w (Some p) g ->
              exists bp, v_job v p = Some bp /\ (3 * rk g + 2 < job_rank w bp)%nat) as Hown.
    { intros g (e & ge & Hp & He & Hc). exists (wait_expr e). split; [done|].
      rewrite (phase_rank e ge _ _ (phase_wait e) He). pose proof (Hrk e ge g He Hc). lia. }
    inversion Hs as [p0 g _ _ Ho|p0 g last _ _ Ho|m e ge b0 He _ _ Hsch Hp|z e x ge He Hz]; subst.
    + by apply Hown.
    + by apply Hown.
    + destruct Hsch as (gr & last & _ & Hm & _). exists (main_group (ge_group ge) last). split; [done|].
      rewrite (phase_rank e ge _ _ Hp He). simpl. lia.
    + exists (apply_expr e). split; [done|]. rewrite (phase_rank e ge _ _ (phase_apply e) He).
      simpl. unfold gexpr_rank. rewrite He. lia.
  - intros y p q b Hy. destruct (xv_shape _ _ _ _ _ _ HX y _ _ _ Hy) as (b1 & [= <-] & Hs).
    assert (forall g, queue_rank (PjqExploration g) = (3 * rk g + 2)%nat) as Hq.
    { intros g. unfold queue_rank, PjqExploration. by rewrite N.mul_comm, N.div_mul. }
    inversion Hs; subst; by rewrite Hq.
Qed.

Lemma job_rank_bound v dn mn y b : exploring v dn mn w -> has v y b ->
  (job_rank w b <= 3 * rk root + 2)%nat.
Proof.
  intros HX (p & q & Hy)%has_lookup. destruct (xv_shape _ _ _ _ _ _ HX y _ _ _ Hy) as (b1 & [= <-] & Hs).
  destruct Hs as [p0 g _ Hr _|p0 g last _ Hr _|m e ge b He _ Hr _ Hp|z e x ge He Hz _ _].
  - apply reach_rank in Hr. simpl. lia.
  - apply reach_rank in Hr. simpl. lia.
  - apply reach_rank in Hr. rewrite (phase_rank e ge b _ Hp He). lia.
  - apply has_lookup in Hz as (p1 & q1 & Hz).
    destruct (expr_job_facts stage root v dn mn w z p1 q1 e _ _ HX Hz (phase_apply e))
      as (_ & ge1 & _ & _ & He1 & _ & Hr & _).
    assert (ge1 = ge) as -> by congruence. apply reach_rank in Hr. simpl. unfold gexpr_rank. rewrite He. lia.
Qed.
End ranks.

(** ** The root is done *)

Section root_done.
Context (v : table) (dn : N -> bool) (mn : N -> option addr) (w : search R) (a : addr).
Context (p : option addr) (q : option N) (last : option N) (gr : group).
Context (HX : exploring v dn mn w) (Ha : v !! a = Some (p, q, Some (main_group root last))).
Context (Hfree : forall y q ob, v !! y <> Some (Some a, q, ob)) (Hg : s_groups w !! root = Some gr).
Context (Htodo : list.last (unexplored w (PgexprFirstUnschedLogical (gr_gexprs gr) last)) = None).

Lemma root_parent : p = None.
Proof.
  destruct (group_job_facts stage root v dn mn w a p q root _ HX Ha (or_intror (ex_intro _ last eq_refl)))
    as (_ & _ & _ & Ho).
  destruct p as [y|]; [|done]. destruct Ho as (e & ge & Hy & He & Hc). exfalso.
  destruct (sw_acyclic _ (mi_wf _ _ _ (xv_memo _ _ _ _ _ _ HX))) as [rk Hrk].
  pose proof (Hrk e ge root He Hc). apply has_lookup in Hy as (p1 & q1 & Hy).
  destruct (expr_job_facts stage root v dn mn w y p1 q1 e _ _ HX Hy (phase_wait e))
    as (_ & ge1 & _ & _ & He1 & _ & Hr & _).
  assert (ge1 = ge) as -> by congruence. apply (reach_rank rk w Hrk) in Hr. lia.
Qed.

(** Its job is the only one that is left. *)
Lemma root_alone y ent : v !! y = Some ent -> y = a.
Proof.
  destruct (sw_acyclic _ (mi_wf _ _ _ (xv_memo _ _ _ _ _ _ HX))) as [rk Hrk].
  destruct ent as [[p1 q1] ob]. intros Hy.
  destruct (xv_shape _ _ _ _ _ _ HX y p1 q1 ob Hy) as (b & -> & _).
  remember (3 * rk root + 2 - job_rank rk w b)%nat as n eqn:Hn. revert y p1 q1 b Hy Hn.
  induction n as [n IH] using lt_wf_ind. intros y p1 q1 b Hy ->.
  destruct p1 as [z|].
  - exfalso. destruct (rk_parent _ _ _ (exploring_ranked rk w Hrk v dn mn HX) _ _ _ _ Hy) as (bz & Hz & Hlt).
    pose proof (job_rank_bound rk w Hrk v dn mn z bz HX Hz). apply has_lookup in Hz as (p2 & q2 & Hz).
    assert (z = a) as -> by (eapply IH; [|exact Hz|reflexivity]; lia). by apply (Hfree y q1 (Some b)).
  - destruct (xv_first _ _ _ _ _ _ HX) as (a0 & q0 & b0 & _ & Huniq).
    rewrite (Huniq y q1 (Some b) Hy). symmetry. eapply Huniq. by rewrite Ha, root_parent.
Qed.

(** Everything below the root is explored. *)
Lemma done_gexpr g e ge : g = root \/ dn g = true -> s_gexprs w !! e = Some ge -> ge_group ge = g ->
  FLogical (ge_pop ge) = true -> ge_estate ge = CGroupExpression.estExplored.
Proof.
  intros [->|Hd] He Hgg Hl.
  - by apply (done_explored stage root v dn mn w a p q root last gr HX Ha Hfree Hg Htodo e).
  - destruct (sw_owner _ (mi_wf _ _ _ (xv_memo _ _ _ _ _ _ HX)) e ge He) as (gr1 & Hg1 & Hin).
    rewrite Hgg in Hg1. pose proof (xv_group _ _ _ _ _ _ HX g gr1 Hg1) as Hs. unfold group_status in Hs.
    rewrite Hd in Hs. destruct Hs as [_ Hs]. by apply (Hs e ge Hin He).
Qed.

Let w' := put_group root (with_group_state CGroup.estExplored gr) w.

Lemma root_reach g : reach w' root g -> reach w root g /\ (g = root \/ dn g = true).
Proof.
  induction 1 as [|g e ge c _ [Hr IH] He Hgg Hl Hc]; [split; [constructor|by left]|].
  change (s_gexprs w' !! e) with (s_gexprs w !! e) in He.
  split; [by eapply reach_child|right].
  pose proof (done_gexpr g e ge IH He Hgg Hl) as Hst.
  pose proof (xv_expr _ _ _ _ _ _ HX e ge He Hl) as Hs. unfold expr_status in Hs. rewrite Hst in Hs.
  by apply Hs.
Qed.

Lemma root_explored : explored_from w' root.
Proof.
  pose proof (xv_memo _ _ _ _ _ _ HX) as HM.
  assert (forall g e ge, reach w' root g -> s_gexprs w' !! e = Some ge -> ge_group ge = g ->
            FLogical (ge_pop ge) = true -> ge_estate ge = CGroupExpression.estExplored) as Hexp.
  { intros g e ge [_ Hd]%root_reach He Hgg Hl. by apply (done_gexpr g e ge). }
  split.
  - intros g [Hr Hd]%root_reach. unfold group_state. destruct (decide (g = root)) as [->|Hn].
    + simpl. by rewrite lookup_insert_eq.
    + destruct Hd as [?|Hd]; [done|]. simpl. rewrite lookup_insert_ne by done.
      inversion Hr as [|g' e ge c Hr' He Hgg Hl Hc]; subst; [done|].
      destruct (sw_children _ (mi_wf _ _ _ HM) e ge g He Hc) as (gr1 & Hg1 & _).
      pose proof (xv_group _ _ _ _ _ _ HX g gr1 Hg1) as Hs. unfold group_status in Hs. rewrite Hd in Hs.
      rewrite Hg1. simpl. by destruct Hs as [-> _].
  - done.
  - intros g e ge x Hr He Hgg Hl. pose proof (Hexp g e ge Hr He Hgg Hl) as Hst.
    change (s_gexprs w' !! e) with (s_gexprs w !! e) in He. change (s_xforms w') with (s_xforms w).
    rewrite (stage_xforms_eq stage w') by
      (unfold w'; rewrite (stage_put_group (stage := stage) (room := room)); apply HM).
    pose proof (xv_expr _ _ _ _ _ _ HX e ge He Hl) as Hs. unfold expr_status in Hs. rewrite Hst in Hs.
    split; [apply Hs|]. intros Hin. destruct (xv_applied _ _ _ _ _ _ HX e x Hin) as (ge1 & He1 & _ & Hx & _).
    by assert (ge1 = ge) as <- by congruence.
  - apply HX.
Qed.
End root_done.

(** ** The measure *)

Definition measure : Type := nat * (nat * (nat * nat)).
Definition smaller : measure -> measure -> Prop :=
  slexprod nat _ lt (slexprod nat _ lt (slexprod nat nat lt lt)).

Lemma smaller_wf : well_founded smaller.
Proof. repeat apply wf_slexprod; apply Nat.lt_wf_0. Qed.

Lemma smaller_intro (m1 m2 m3 m4 n1 n2 n3 n4 : nat) :
  (m1 < n1 \/ m1 = n1 /\ (m2 < n2 \/ m2 = n2 /\ (m3 < n3 \/ m3 = n3 /\ m4 < n4)))%nat ->
  smaller (m1, (m2, (m3, m4))) (n1, (n2, (n3, n4))).
Proof.
  unfold smaller. intros [?|[-> [?|[-> [?|[-> ?]]]]]].
  - by apply left_slex.
  - by apply right_slex, left_slex.
  - by apply right_slex, right_slex, left_slex.
  - by apply right_slex, right_slex, right_slex.
Qed.

(** A sum over the entries of a table. *)
Definition total {A} (f : A -> nat) (t : gmap N A) : nat :=
  sum_list_with (fun kv => f (snd kv)) (map_to_list t).

Lemma total_delete {A} (f : A -> nat) (t : gmap N A) k z :
  t !! k = Some z -> total f t = (f z + total f (delete k t))%nat.
Proof. intros Hz. unfold total. by rewrite <- map_to_list_delete. Qed.

Lemma total_insert {A} (f : A -> nat) (t : gmap N A) k z z' :
  t !! k = Some z -> (total f (<[k := z']> t) + f z = total f t + f z')%nat.
Proof.
  intros Hz. rewrite (total_delete f t k z Hz).
  rewrite (total_delete f (<[k := z']> t) k z') by apply lookup_insert_eq.
  rewrite delete_insert_eq. lia.
Qed.

Definition group_left (gr : group) : nat := 2 - N.to_nat (group_number (gr_estate gr)).
Definition gexpr_left (ge : gexpr) : nat := 2 - N.to_nat (gexpr_number (ge_estate ge)).

(** The transformations that are left, and the states of groups and of
    expressions that are ahead. *)
Definition xforms_left w : nat := room w + xform_calls w - length (s_xforms w).
Definition groups_left w : nat := total group_left (s_groups w).
Definition gexprs_left w : nat := total gexpr_left (s_gexprs w).

Lemma xform_calls_total w :
  PxfsCurrentStage w = stage ->
  xform_calls w = total (fun ge => length (stage_xforms stage ge)) (s_gexprs w).
Proof. intros Hs. unfold xform_calls, total, exploration_xforms, stage_xforms. by rewrite Hs. Qed.

Lemma put_group_left g est w gr : s_groups w !! g = Some gr ->
  (group_number (gr_estate gr) < group_number est <= 2)%N ->
  let w' := put_group g (with_group_state est gr) w in
  xforms_left w' = xforms_left w /\ (groups_left w' < groups_left w)%nat.
Proof.
  intros Hg Hst w'. split.
  - unfold xforms_left, w'. rewrite (room_put_group (stage := stage) (room := room)). f_equal.
    unfold xform_calls, exploration_xforms. by rewrite (stage_put_group (stage := stage) (room := room)).
  - unfold groups_left. pose proof (total_insert group_left (s_groups w) g gr (with_group_state est gr) Hg) as Ht.
    change (s_groups w') with (<[g := with_group_state est gr]> (s_groups w)).
    unfold group_left in Ht at 2 4. simpl in Ht. lia.
Qed.

Lemma put_gexpr_left e est w ge : PxfsCurrentStage w = stage -> s_gexprs w !! e = Some ge ->
  (gexpr_number (ge_estate ge) < gexpr_number est <= 2)%N ->
  let w' := put_gexpr e (with_gexpr_state est ge) w in
  xforms_left w' = xforms_left w /\ groups_left w' = groups_left w /\ (gexprs_left w' < gexprs_left w)%nat.
Proof.
  intros Hs He Hst w'. split; [|split; [done|]].
  - unfold xforms_left, w'. rewrite (room_put_gexpr (stage := stage) (room := room)). f_equal.
    rewrite !xform_calls_total; [|done|by rewrite (stage_put_gexpr (stage := stage) (room := room))].
    pose proof (total_insert (fun ge => length (stage_xforms stage ge)) (s_gexprs w) e ge
      (with_gexpr_state est ge) He) as Ht. simpl in *. unfold stage_xforms in *. simpl in Ht. lia.
  - unfold gexprs_left. pose proof (total_insert gexpr_left (s_gexprs w) e ge (with_gexpr_state est ge) He) as Ht.
    change (s_gexprs w') with (<[e := with_gexpr_state est ge]> (s_gexprs w)).
    unfold gexpr_left in Ht at 2 4. simpl in Ht. lia.
Qed.

(** The calls that were made are among those there are to make. *)
Lemma calls_bound v dn mn w : exploring v dn mn w -> (length (s_xforms w) <= xform_calls w)%nat.
Proof.
  intros HX. rewrite xform_calls_total by apply HX. unfold total.
  set (calls := fun kv : N * gexpr => (fun x => (fst kv, x)) <$> stage_xforms stage (snd kv)).
  assert (length (map_to_list (s_gexprs w) ≫= calls) =
          sum_list_with (fun kv => length (stage_xforms stage (snd kv))) (map_to_list (s_gexprs w))) as <-.
  { induction (map_to_list (s_gexprs w)) as [|kv l IH]; [done|]. cbn. rewrite length_app, IH. unfold calls. by rewrite length_fmap. }
  apply submseteq_length, NoDup_submseteq; [apply HX|]. intros [e x] Hin.
  destruct (xv_applied _ _ _ _ _ _ HX e x Hin) as (ge & He & _ & Hx & _).
  apply list_elem_of_bind. exists (e, ge). split; [by apply list_elem_of_fmap_2|].
  by apply elem_of_map_to_list.
Qed.

(** ** Rounds of the scheduler *)

(** The work a job has in hand, beyond what the memo shows. *)
Definition search_weight w (b : job) : nat :=
  match b with
  | JGroupExploration j =>
      match jg_est j, s_groups w !! m_pgroup j with
      | CJobGroupExploration.estExploringChildren, Some gr =>
          2 * length (unexplored w (PgexprFirstUnschedLogical (gr_gexprs gr) (m_pgexprLastScheduled j)))
      | _, _ => 0
      end
  | JGroupExpressionExploration j =>
      match je_est j, m_fChildrenScheduled j, s_gexprs w !! m_pgexpr j with
      | CJobGroupExpressionExploration.estInitialized, true, Some ge =>
          2 * length (stage_xforms stage ge) + 1
      | _, _, _ => 0
      end
  | _ => 0
  end.

(** Jobs that have nothing in hand yet. *)
Lemma light_children w (cs : list (@child job)) :
  (forall ch, ch ∈ cs -> search_weight w (c_job ch) = 0%nat) ->
  children_weight (search_weight w) cs = (2 * length cs)%nat.
Proof.
  induction cs as [|ch cs IH]; intros Hcs; [done|]. unfold children_weight in *. simpl.
  rewrite IH by (intros ch' Hin; apply Hcs; by right). rewrite (Hcs ch) by left. lia.
Qed.

Lemma kept_step oe og w0 w w' : memo_step oe og w w' -> kept w0 w -> kept w0 w'.
Proof.
  intros Hs Hk e ge He. destruct (Hk e ge He) as (ge1 & He1 & Hp & Hc & Hg).
  destruct (ms_gexpr _ _ _ _ Hs e ge1 He1) as (ge2 & He2 & Hp2 & Hc2 & Hg2 & _).
  exists ge2. split; [done|]. split; [congruence|]. split; congruence.
Qed.

Section rounds.
Context {P : Type} `{ObjectPool P S} `{!PoolLaws P S} (w0 : search R).
Abbreviation st_t := (@state P S _ _ (option (search R)) job).
Implicit Types (st : st_t).

Definition done_at st g : bool := m_fCompleted (queue_at st (PjqExploration g)).
Definition main_at st g : option addr := m_pj (queue_at st (PjqExploration g)).

(** Exploration is under way, or done. *)
Record at_work st w : Prop := {
  aw_world : s_world st = Some w;
  aw_kept : kept w0 w;
  aw_exploring : exploring (view (s_jobs st)) (done_at st) (main_at st) w;
}.
Record finished st : Prop := {
  fn_jobs : view (s_jobs st) = ∅;
  fn_world : exists w, s_world st = Some (FinalizeExploration w) /\ kept w0 w /\ explored_from w root;
}.

Definition work_left st w : nat :=
  2 * load (search_weight w) (view (s_jobs st)) + waiting_length st.
Definition left_at st : measure :=
  match s_world st with
  | Some w => if decide (view (s_jobs st) = ∅) then (0, (0, (0, 0)))%nat
              else (xforms_left w, (groups_left w, (gexprs_left w, work_left st w)))
  | None => (0, (0, (0, 0)))%nat
  end.

Lemma left_at_work st w : at_work st w ->
  left_at st = (xforms_left w, (groups_left w, (gexprs_left w, work_left st w))).
Proof.
  intros [Hw _ HX]. unfold left_at. rewrite Hw. rewrite decide_False; [done|].
  destruct (xv_first _ _ _ _ _ _ HX) as (a0 & q0 & b0 & Ha & _). intros Hv. by rewrite Hv in Ha.
Qed.

Lemma left_at_finished st : finished st -> left_at st = (0, (0, (0, 0)))%nat.
Proof. intros [Hv (w & Hw & _)]. unfold left_at. rewrite Hw. by rewrite decide_True. Qed.

(** A round that ends in a state of exploration, with less left to do. *)
Definition progress st st' : Prop :=
  ((exists w', at_work st' w') \/ finished st') /\ smaller (left_at st') (left_at st).

Lemma progress_work st st' w w' : at_work st w -> at_work st' w' ->
  (xforms_left w' < xforms_left w \/ xforms_left w' = xforms_left w /\
   (groups_left w' < groups_left w \/ groups_left w' = groups_left w /\
    (gexprs_left w' < gexprs_left w \/ gexprs_left w' = gexprs_left w /\
     work_left st' w' < work_left st w)))%nat ->
  progress st st'.
Proof.
  intros H1 H2 Hlt. split; [left; by exists w'|]. rewrite (left_at_work st w H1), (left_at_work st' w' H2).
  by apply smaller_intro.
Qed.

Lemma progress_finished st st' w : at_work st w -> finished st' -> (0 < groups_left w)%nat -> progress st st'.
Proof.
  intros H1 H2 Hlt. split; [by right|]. rewrite (left_at_work st w H1), (left_at_finished st' H2).
  apply smaller_intro. lia.
Qed.

(** The queues that a round leaves alone. *)
Lemma other_queue st a b st' g : round run st a b st' ->
  v_queue (view (s_jobs st)) a <> Some (PjqExploration g) ->
  done_at st' g = done_at st g /\ main_at st' g = main_at st g.
Proof. intros Hr Hq. unfold done_at, main_at. by rewrite (rd_queues _ _ _ _ _ Hr _ Hq). Qed.

Lemma childless_free st a y q ob : nchildren (view (s_jobs st)) a = 0 ->
  view (s_jobs st) !! y <> Some (Some a, q, ob).
Proof. intros Hn Hy. apply (proj1 (nchildren_0 _ _) Hn y). unfold v_parent. by rewrite Hy. Qed.

(** A job that adds no jobs: what it leaves. *)
Lemma round_left st a b st' y : round run st a b st' -> o_children (run (s_world st) b) = [] ->
  y ∉ round_dead st a -> view (s_jobs st') !! y = view (s_jobs st) !! y.
Proof.
  intros Hr Ho. apply (rd_jobs _ _ _ _ _ Hr). intros b1 Hb1. pose proof (rd_job _ _ _ _ _ Hr).
  by assert (b1 = b) as -> by congruence.
Qed.

Lemma round_dead_alone st a : v_queue (view (s_jobs st)) a = None -> round_dead st a = [a].
Proof. intros Hq. unfold round_dead. by rewrite Hq. Qed.

(** *** Rounds of expressions and transformations *)

Section no_queue.
Context (st st' : st_t) (w : search R) (a : addr) (b : job) (p : option addr).
Context (HW : at_work st w) (Hr : round run st a b st').
Context (Ha : view (s_jobs st) !! a = Some (p, None, Some b)).

Let Hworld := aw_world _ _ HW.

Lemma no_queue : v_queue (view (s_jobs st)) a = None.
Proof. unfold v_queue. by rewrite Ha. Qed.

Lemma no_queue_exploring v w' :
  exploring v (done_at st) (main_at st) w' -> exploring v (done_at st') (main_at st') w'.
Proof.
  apply exploring_ext; intros g; [|intros _]; apply (other_queue st a b st' g Hr); by rewrite no_queue.
Qed.

(** It goes on. *)
Lemma no_queue_on (o : @outcome (option (search R)) job) : run (Some w) b = o -> o_completed o = false ->
  ran (view (s_jobs st)) a o (view (s_jobs st')) /\ s_world st' = o_world o /\
  (waiting_length st' <= waiting_length st + length (o_children o))%nat.
Proof.
  intros <- Ho. destruct (rd_as _ _ _ _ _ Hr) as [_ _ Hran _ Hw' Hl|v1 n _ _ _ Hc _ _ _ _ _|Hq _ _ _|Hq _ _ _].
  - by rewrite Hworld in Hran, Hw', Hl.
  - rewrite Hworld in Hc. congruence.
  - destruct Hq as (q & m & Hq & _). by rewrite no_queue in Hq.
  - destruct Hq as (q & Hq & _). by rewrite no_queue in Hq.
Qed.

(** It is done. *)
Lemma no_queue_done (o : @outcome (option (search R)) job) : run (Some w) b = o -> o_completed o = true -> o_children o = [] ->
  view (s_jobs st') = delete a (view (s_jobs st)) /\ s_world st' = o_world o.
Proof.
  intros <- Ho Hc. destruct (rd_as _ _ _ _ _ Hr) as [_ _ _ Hn _ _|v1 n _ _ _ _ _ Hgone _ Hw' _|Hq _ _ _|Hq _ _ _].
  - rewrite Hworld in Hn. congruence.
  - rewrite Hworld in Hw'. split; [|done]. apply map_eq. intros y. destruct (decide (y = a)) as [->|Hn].
    + by rewrite lookup_delete_eq.
    + rewrite lookup_delete_ne by done. apply (round_left st a b st' y Hr); [by rewrite Hworld|].
      rewrite (round_dead_alone st a no_queue). set_solver.
  - destruct Hq as (q & m & Hq & _). by rewrite no_queue in Hq.
  - destruct Hq as (q & Hq & _). by rewrite no_queue in Hq.
Qed.

Lemma ran_grown (o : @outcome (option (search R)) job) : ran (view (s_jobs st)) a o (view (s_jobs st')) ->
  grown a (<[a := (p, None, Some (o_job o))]> (view (s_jobs st))) (o_children o) (view (s_jobs st')).
Proof.
  intros (p1 & q1 & b1 & Ha1 & Hsp). rewrite Ha in Ha1. injection Ha1 as <- <- <-. by apply spawned_grown.
Qed.

Lemma no_queue_free y q ob : view (s_jobs st) !! y <> Some (Some a, q, ob).
Proof. apply childless_free, (rd_free _ _ _ _ _ Hr). Qed.
End no_queue.

Lemma expr_round st st' w a b e s :
  at_work st w -> round run st a b st' -> phase e b s -> progress st st'.
Proof.
  intros HW Hr Hp. pose proof HW as [Hw Hk HX]. pose proof (rd_job _ _ _ _ _ Hr) as (p & q & Ha)%has_lookup.
  destruct (expr_job_facts stage root _ _ _ w a p q e b s HX Ha Hp)
    as (m & ge & Hpm & -> & He & Hl & Hreach & Hsch & Hst).
  pose proof (xv_memo _ _ _ _ _ _ HX) as HM. pose proof (mi_edph _ _ _ HM e ge He) as Hd.
  pose proof (no_queue_free st st' a b Hr) as Hfree.
  assert (ExfDPHyperJoinRegion ∉ exploration_xforms ge w) as Hnx.
  { rewrite (stage_xforms_eq stage) by apply HM. intros Hin%stage_xforms_stage.
    by apply (no_dphyper (stage := stage) (room := room)). }
  destruct Hp.
  - pose proof (run_expr_start w e ge (mi_clock _ _ _ HM) He Hd Hst Hnx
      (fun c => sw_children _ (mi_wf _ _ _ HM) e ge c He)) as Hrun.
    destruct (no_queue_on st st' w a _ p HW Hr Ha _ Hrun eq_refl) as (Hran & Hw' & Hlen).
    apply (ran_grown st st' a _ p Ha) in Hran.
    apply (progress_work st st' w (put_gexpr e (with_gexpr_state CGroupExpression.estExploring ge) w) HW).
    + split; [done| |].
      * eapply kept_step; [by eapply memo_step_put_gexpr|done].
      * apply (no_queue_exploring st st' a _ p Hr Ha).
        by apply (start_step stage room root _ _ _ _ w a p None e ge HX Ha Hfree He Hst Hl).
    + destruct (put_gexpr_left e CGroupExpression.estExploring w ge) as (H1 & H2 & H3);
        [apply HM|done|by rewrite Hst|]. rewrite H1, H2. do 2 (right; split; [done|]). by left.
  - pose proof (run_expr_xforms w e ge (mi_clock _ _ _ HM) He Hd Hnx) as Hrun.
    destruct (no_queue_on st st' w a _ p HW Hr Ha _ Hrun eq_refl) as (Hran & Hw' & Hlen).
    pose proof (load_ran (search_weight w) _ _ _ _ _ Hran (rd_job _ _ _ _ _ Hr)) as Hload.
    apply (ran_grown st st' a _ p Ha) in Hran. simpl in Hran, Hlen.
    rewrite (stage_xforms_eq stage) in Hran, Hlen by apply HM.
    apply (progress_work st st' w w HW).
    + split; [done..|]. apply (no_queue_exploring st st' a _ p Hr Ha).
      by apply (apply_step stage room root _ _ _ _ w a p None e ge HX Ha Hfree He).
    + do 3 (right; split; [done|]). unfold work_left.
      rewrite (stage_xforms_eq stage) in Hload by apply HM. simpl in Hload. rewrite He in Hload.
      assert (children_weight (search_weight w) (transformation_child e <$> stage_xforms stage ge) =
              2 * length (stage_xforms stage ge))%nat as Hcw.
      { rewrite light_children, length_fmap; [done|]. intros ch Hin. by apply list_elem_of_fmap in Hin as (x & -> & _). }
      rewrite length_fmap in Hload, Hlen. lia.
  - pose proof (run_expr_finish w e ge (mi_clock _ _ _ HM) He Hst) as Hrun.
    destruct (no_queue_done st st' w a _ p HW Hr Ha _ Hrun eq_refl eq_refl) as (Hv & Hw').
    apply (progress_work st st' w (put_gexpr e (with_gexpr_state CGroupExpression.estExplored ge) w) HW).
    + split; [done| |].
      * eapply kept_step; [by eapply memo_step_put_gexpr|done].
      * apply (no_queue_exploring st st' a _ p Hr Ha). rewrite Hv.
        by apply (finish_step stage room root _ _ _ w a p None e ge HX Ha Hfree He).
    + destruct (put_gexpr_left e CGroupExpression.estExplored w ge) as (H1 & H2 & H3);
        [apply HM|done|by rewrite Hst|]. rewrite H1, H2. do 2 (right; split; [done|]). by left.
Qed.

Lemma xform_round st st' w a e x :
  at_work st w -> round run st a (xform_job e x) st' -> progress st st'.
Proof.
  intros HW Hr. pose proof HW as [Hw Hk HX]. pose proof (rd_job _ _ _ _ _ Hr) as (p & q & Ha)%has_lookup.
  destruct (xv_shape _ _ _ _ _ _ HX a p q _ Ha) as (b & [= <-] & Hs).
  apply shape_xform_inv in Hs as (y & ge & Hp & -> & He & Hy & Hx & Hnew).
  pose proof (xv_memo _ _ _ _ _ _ HX) as HM. pose proof (no_queue_free st st' a _ Hr) as Hfree.
  pose proof (run_transformation e x w (mi_clock _ _ _ HM)) as Hrun.
  destruct (no_queue_done st st' w a _ p HW Hr Ha _ Hrun eq_refl eq_refl) as (Hv & Hw').
  pose proof (xform_step stage room root _ _ _ w a p None e x ge HX Ha Hfree He Hx) as Hstep.
  destruct (results_facts stage room root _ _ _ w e x ge HX He Hx) as (_ & Hext & _ & Hroom).
  apply (progress_work st st' w (xform_results e x (log_xform e x w)) HW).
  - split; [done| |].
    + eapply kept_step; [by eapply (results_memo_step stage room root)|done].
    + apply (no_queue_exploring st st' a _ p Hr Ha). by rewrite Hv.
  - left. pose proof (calls_bound _ _ _ _ Hstep) as Hb. unfold xforms_left.
    rewrite (ex_xforms _ _ _ Hext) in *. simpl in *. lia.
Qed.

(** *** Rounds of groups *)

(** The job [a] has its group in hand; in a state that differs from [st] in that
    only. *)
Section hand.
Context (st st' : st_t) (w : search R) (a : addr) (b : job) (p : option addr).
Context (g : N) (gr : group) (last : option N) (mn : N -> option addr) (w1 : search R).
Context (HI : Inv st) (HW : at_work st w) (Hr : round run st a b st').
Context (Ha : view (s_jobs st) !! a = Some (p, Some (PjqExploration g), Some b)).
Let v1 : table := <[a := (p, Some (PjqExploration g), Some (main_group g last))]> (view (s_jobs st)).
Context (HX : exploring v1 (done_at st) mn w1) (Hmn : forall c, c <> g -> mn c = main_at st c).
Context (Hg : s_groups w1 !! g = Some gr) (Hkept : kept w0 w1).
Context (Hrun : run (Some w) b = group_round w1 g gr last).
Context (Hbehind : ~ waits_behind st st' a) (Hlate : ~ too_late st st' a).
Let todo := unexplored w1 (PgexprFirstUnschedLogical (gr_gexprs gr) last).

Lemma hand_queue : v_queue (view (s_jobs st)) a = Some (PjqExploration g).
Proof. unfold v_queue. by rewrite Ha. Qed.

Lemma hand_self : v1 !! a = Some (p, Some (PjqExploration g), Some (main_group g last)).
Proof. apply lookup_insert_eq. Qed.

Lemma hand_other c : c <> g -> done_at st' c = done_at st c /\ main_at st' c = mn c.
Proof.
  intros Hc. rewrite Hmn by done. apply (other_queue st a b st' c Hr). rewrite hand_queue.
  unfold PjqExploration. intros [= Heq]. lia.
Qed.

Lemma hand_free y q ob : v1 !! y <> Some (Some a, q, ob).
Proof.
  pose proof (childless_free st a y q ob (rd_free _ _ _ _ _ Hr)) as Hf.
  intros [[_ [= Hp _ _]]|[_ Hy]]%lookup_insert_Some; [|done].
  apply (childless_free st a a (Some (PjqExploration g)) (Some b) (rd_free _ _ _ _ _ Hr)). by rewrite Ha, Hp.
Qed.

Lemma hand_on k : list.last todo = Some k ->
  at_work st' w1 /\ ran (view (s_jobs st)) a (group_round w1 g gr last) (view (s_jobs st')) /\
  (waiting_length st' <= waiting_length st + length todo)%nat.
Proof.
  intros Hk. pose proof (aw_world _ _ HW) as Hw.
  destruct (rd_as _ _ _ _ _ Hr) as [_ Hin Hran _ Hw' Hl|v2 n _ _ _ Hc _ _ _ _ _|?|?]; [| |done..].
  2: { rewrite Hw, Hrun in Hc. unfold group_round in Hc. fold todo in Hc. by rewrite Hk in Hc. }
  rewrite Hw, Hrun in Hran, Hw', Hl.
  assert (group_round w1 g gr last = MkOutcome (Some w1) (main_group g (Some k)) (exploration_child <$> todo) false)
    as Ho by (unfold group_round; fold todo; by rewrite Hk).
  split; [|split; [done|rewrite Ho in Hl; simpl in Hl; by rewrite length_fmap in Hl]]. rewrite Ho in Hran, Hw'.
  split; [done|done|]. destruct Hran as (p1 & q1 & b1 & Ha1 & Hsp). rewrite Ha in Ha1. injection Ha1 as <- <- <-.
  apply (exploring_ext stage root _ (done_at st) _ mn).
  - intros c. destruct (decide (c = g)) as [->|Hc]; [|by apply hand_other].
    destruct (xv_main _ _ _ _ _ _ HX a g last) as [-> _]; [apply has_lookup; eauto using hand_self|].
    by apply (Hin _ hand_queue).
  - intros c _. destruct (decide (c = g)) as [->|Hc]; [|by apply hand_other].
    destruct (xv_main _ _ _ _ _ _ HX a g last) as [_ ->]; [apply has_lookup; eauto using hand_self|].
    by apply (Hin _ hand_queue).
  - eapply (schedule_step stage root v1 _ (done_at st) mn w1 a p (Some (PjqExploration g)) g last gr k);
      [done|apply hand_self|apply hand_free|done|done|].
    apply spawned_grown. unfold v1. by rewrite insert_insert_eq.
Qed.

(** The jobs that are gone when the group is done. *)
Lemma hand_gone : list.last todo = None ->
  view (s_jobs st') ⊆ delete a v1 /\ done_at st' g = true /\
  s_world st' = Some (group_finished g gr w1) /\
  forall y ent, delete a v1 !! y = Some ent -> view (s_jobs st') !! y = None ->
    exists p, ent = (p, Some (PjqExploration g), Some (init_group g)).
Proof.
  intros Hk. pose proof (aw_world _ _ HW) as Hw.
  assert (group_round w1 g gr last = MkOutcome (Some (group_finished g gr w1))
            (JGroupExploration (MkJobGroup CJobGroupExploration.estCompleted g last)) [] true)
    as Ho by (unfold group_round; fold todo; by rewrite Hk).
  destruct (rd_as _ _ _ _ _ Hr) as [_ _ _ Hc _ _|v2 n _ Hserved Hran _ Hsub Hnone _ Hw' _|?|?]; [| |done..].
  { by rewrite Hw, Hrun, Ho in Hc. }
  rewrite Hw, Hrun, Ho in Hran, Hw'. destruct Hran as (p1 & q1 & b1 & Ha1 & Hsp).
  rewrite Ha in Ha1. injection Ha1 as <- <- <-. simpl in Hsp. inversion Hsp; subst v2.
  split; [|split; [by apply (Hserved _ hand_queue)|split; [done|]]].
  - apply map_subseteq_spec. intros y ent Hy. assert (y <> a) as Hn by (intros ->; congruence).
    eapply lookup_weaken in Hy; [|exact Hsub]. rewrite lookup_insert_ne in Hy by done.
    unfold v1. by rewrite lookup_delete_ne, lookup_insert_ne.
  - intros y ent [Hn Hy]%lookup_delete_Some Hgone.
    assert (v1 !! y = Some ent) as Hy1 by done. unfold v1 in Hy. rewrite lookup_insert_ne in Hy by done.
    destruct (decide (y ∈ round_dead st a)) as [Hin|Hin].
    2: { rewrite (round_left st a b st' y Hr) in Hgone; [congruence|by rewrite Hw, Hrun, Ho|done]. }
    unfold round_dead in Hin. rewrite hand_queue in Hin. apply elem_of_cons in Hin as [?|Hin]; [done|].
    pose proof (q_live _ _ (inv_queues _ HI) _ _ Hin) as Hq. unfold v_queue in Hq. rewrite Hy in Hq. simpl in Hq.
    destruct ent as [[p2 q2] ob]. simpl in Hq. subst q2.
    destruct (xv_shape _ _ _ _ _ _ HX y p2 _ ob Hy1) as (b2 & -> & Hs).
    assert (forall c, PjqExploration c = PjqExploration g -> c = g) as Hinj by (unfold PjqExploration; intros; lia).
    inversion Hs as [p3 c _ _ _|p3 c last' _ _ _| |]; subst.
    + exists p2. by rewrite (Hinj c).
    + exfalso. apply Hn. rewrite (Hinj c) in Hy1 by done.
      destruct (xv_main _ _ _ _ _ _ HX y g last') as [_ H1]; [apply has_lookup; eauto|].
      destruct (xv_main _ _ _ _ _ _ HX a g last) as [_ H2]; [apply has_lookup; eauto using hand_self|]. congruence.
Qed.

Lemma hand_done : list.last todo = None ->
  g <> root /\ at_work st' (put_group g (with_group_state CGroup.estExplored gr) w1) \/ finished st'.
Proof.
  intros Hk. pose proof hand_self as Hself. pose proof hand_free as Hfree. pose proof hand_other as Hother.
  destruct (hand_gone Hk) as (Hsub & Hdn & Hw' & Hgone). unfold group_finished in Hw'.
  set (w2 := put_group g _ w1) in *. assert (s_root w2 = root) as Hroot by apply HX.
  assert (kept w0 w2) as Hkept2
    by (eapply kept_step; [by apply memo_step_put_group|done]).
  rewrite Hroot in Hw'. destruct (decide (g = root)) as [Hgr|Hgr].
  - right. subst. rewrite N.eqb_refl in Hw'. split.
    + apply map_empty. intros y. destruct (view (s_jobs st') !! y) as [ent|] eqn:Hy; [|done].
      eapply lookup_weaken in Hy; [|exact Hsub]. apply lookup_delete_Some in Hy as [Hn Hy].
      destruct Hn. symmetry.
      by apply (root_alone v1 (done_at st) mn w1 a p _ last HX Hself Hfree y ent).
    + exists w2. split; [done|]. split; [done|].
      by apply (root_explored v1 (done_at st) mn w1 a p _ last gr HX Hself Hfree Hg Hk).
  - left. split; [done|]. rewrite (proj2 (N.eqb_neq _ _)) in Hw' by congruence. split; [done|done|].
    apply (drop_step stage root (delete a v1)); [|done|].
    + apply (done_step stage room root v1 (done_at st) (done_at st') mn (main_at st') w1 a p
        (Some (PjqExploration g)) g last gr); assumption.
    + intros y ent Hy Hn. destruct (Hgone y ent Hy Hn) as (p' & ->). by exists p', g.
Qed.
End hand.

Lemma progress_hand st st' w a b p g gr last mn w1 :
  Inv st -> at_work st w -> round run st a b st' ->
  view (s_jobs st) !! a = Some (p, Some (PjqExploration g), Some b) ->
  exploring (<[a := (p, Some (PjqExploration g), Some (main_group g last))]> (view (s_jobs st)))
    (done_at st) mn w1 ->
  (forall c, c <> g -> mn c = main_at st c) -> s_groups w1 !! g = Some gr -> kept w0 w1 ->
  run (Some w) b = group_round w1 g gr last -> ~ waits_behind st st' a -> ~ too_late st st' a ->
  xforms_left w1 = xforms_left w ->
  (groups_left w1 < groups_left w \/ w1 = w /\ b = main_group g last)%nat ->
  progress st st'.
Proof.
  intros HI HW Hr Ha HX Hmn Hg Hk Hrun Hnb Hnl Hx Hgl.
  set (v1 := <[a := _]> (view (s_jobs st))) in HX.
  assert (has v1 a (main_group g last)) as Hself by (apply has_lookup; eexists _, _; apply lookup_insert_eq).
  destruct (main_last stage root v1 _ mn w1 a g last gr HX Hself Hg) as [Hst _].
  destruct (list.last (unexplored w1 (PgexprFirstUnschedLogical (gr_gexprs gr) last))) as [k|] eqn:Hlast.
  - destruct (hand_on st st' w a b p g gr last mn w1 HW Hr Ha HX Hmn Hg Hk Hrun Hnb Hnl k Hlast)
      as (HW' & Hran & Hlen).
    apply (progress_work st st' w w1 HW HW'). right. split; [done|].
    destruct Hgl as [?|[-> ->]]; [by left|]. do 2 (right; split; [done|]). unfold work_left.
    pose proof (load_ran (search_weight w) _ _ _ _ _ Hran (rd_job _ _ _ _ _ Hr)) as Hload.
    unfold group_round in Hload. rewrite Hlast in Hload. cbn [o_children o_job] in Hload.
    rewrite light_children, length_fmap in Hload
      by (intros ch Hin; by apply list_elem_of_fmap in Hin as (e & -> & _)).
    simpl in Hload. rewrite Hg in Hload.
    assert (unexplored w (after (gr_gexprs gr) k) = []) as Hnil.
    { pose proof (sw_nodup _ (mi_wf _ _ _ (xv_memo _ _ _ _ _ _ HX)) g gr Hg) as Hnd.
      apply elem_of_nil_inv. intros e [Hto Hin]%list_elem_of_filter.
      rewrite <- (after_from _ last k Hnd) in Hin.
      - pose proof (filter_after_last (to_explore w) _ e k (from_nodup _ last Hnd) Hlast Hin). congruence.
      - apply last_Some_elem_of, list_elem_of_filter in Hlast. by destruct Hlast. }
    rewrite Hnil in Hload. simpl in Hload.
    destruct (unexplored w (PgexprFirstUnschedLogical (gr_gexprs gr) last)) as [|z l]; [done|].
    simpl in Hload, Hlen. lia.
  - destruct (put_group_left g CGroup.estExplored w1 gr Hg) as [Hx2 Hg2]; [by rewrite Hst|].
    assert (groups_left w1 <= groups_left w)%nat by (destruct Hgl as [?|[-> _]]; lia).
    destruct (hand_done st st' w a b p g gr last mn w1 HI HW Hr Ha HX Hmn Hg Hk Hrun Hnb Hnl Hlast)
      as [[_ HW']|Hf].
    + apply (progress_work st st' w _ HW HW'). rewrite Hx2, Hx. right. split; [done|]. left. lia.
    + apply (progress_finished st st' w HW Hf). lia.
Qed.

Lemma group_members w g gr : search_wf w -> s_groups w !! g = Some gr ->
  NoDup (gr_gexprs gr) /\ Forall (fun e => is_Some (s_gexprs w !! e)) (gr_gexprs gr).
Proof.
  intros Hwf Hg. split; [by apply (sw_nodup _ Hwf g)|]. apply Forall_forall. intros e Hin.
  destruct (sw_member _ Hwf g gr e Hg Hin) as (ge & -> & _). by exists ge.
Qed.

Lemma main_round st st' w a g last :
  Inv st -> at_work st w -> round run st a (main_group g last) st' -> progress st st'.
Proof.
  intros HI HW Hr. pose proof HW as [Hw Hk HX].
  pose proof (rd_job _ _ _ _ _ Hr) as Hself. pose proof Hself as (p & q & Ha)%has_lookup.
  destruct (group_job_facts stage root _ _ _ w a p q g _ HX Ha (or_intror (ex_intro _ last eq_refl)))
    as (-> & [gr Hg] & _).
  destruct (xv_main _ _ _ _ _ _ HX a g last Hself) as [Hd Hm].
  destruct (main_last stage root _ _ _ w a g last gr HX Hself Hg) as [Hst _].
  pose proof (xv_memo _ _ _ _ _ _ HX) as HM.
  destruct (group_members w g gr (mi_wf _ _ _ HM) Hg) as [Hnd Hall].
  assert (forall q, v_queue (view (s_jobs st)) a = Some q -> q = PjqExploration g) as Hq.
  { intros q. unfold v_queue. rewrite Ha. by intros [= <-]. }
  apply (progress_hand st st' w a (main_group g last) p g gr last (main_at st) w); try done; auto.
  - by rewrite insert_id.
  - by apply run_group_exploring; [apply HM|..].
  - intros (q & m & Hq'%Hq & Hma & _ & Hpj & _). subst q. unfold main_at in Hm. congruence.
  - intros (q & Hq'%Hq & Hc & _). subst q. unfold done_at in Hd. congruence.
Qed.

Section init.
Context (st st' : st_t) (w : search R) (a : addr) (p : option addr) (g : N) (gr : group).
Context (HI : Inv st) (HW : at_work st w) (Hr : round run st a (init_group g) st').
Context (Ha : view (s_jobs st) !! a = Some (p, Some (PjqExploration g), Some (init_group g))).
Context (Hg : s_groups w !! g = Some gr).
Let HX := aw_exploring _ _ HW.

Lemma init_queue q : v_queue (view (s_jobs st)) a = Some q -> q = PjqExploration g.
Proof. unfold v_queue. rewrite Ha. by intros [= <-]. Qed.

Lemma init_queue_at : v_queue (view (s_jobs st)) a = Some (PjqExploration g).
Proof. unfold v_queue. by rewrite Ha. Qed.

Lemma init_other c : c <> g -> done_at st' c = done_at st c /\ main_at st' c = main_at st c.
Proof.
  intros Hc. apply (other_queue st a (init_group g) st' c Hr). rewrite init_queue_at. unfold PjqExploration.
  intros [= Heq]. lia.
Qed.

(** The group was done before. *)
Lemma init_late : done_at st g = true -> progress st st'.
Proof.
  intros Hd. pose proof HW as [Hw Hk _]. unfold done_at in Hd.
  destruct (rd_as _ _ _ _ _ Hr) as [Hmay _ _ _ _ _|v2 n Hmay _ _ _ _ _ _ _ _|Hb _ _ _|Hl Hv Hw' Hlen].
  - destruct (Hmay _ init_queue_at) as [Hc _]. congruence.
  - destruct (Hmay _ init_queue_at) as [Hc _]. congruence.
  - destruct Hb as (q & m & ->%init_queue & _ & Hc & _). congruence.
  - destruct Hl as (q & ->%init_queue & _ & Hc). apply (progress_work st st' w w HW).
    + split; [congruence|done|]. apply (exploring_ext stage root _ (done_at st) _ (main_at st)).
      * intros c. destruct (decide (c = g)) as [->|Hn]; [|by apply init_other]. unfold done_at. congruence.
      * intros c Hdc. apply init_other. intros ->. unfold done_at in Hdc. congruence.
      * rewrite Hv. apply (drop_step stage root (view (s_jobs st))); [exact HX|apply delete_subseteq|].
        intros y ent Hy Hn. apply lookup_delete_None in Hn as [<-|Hn]; [|congruence].
        exists p, g. split; [congruence|done].
    + do 3 (right; split; [done|]). unfold work_left. rewrite Hv.
      rewrite (load_delete (search_weight w) (view (s_jobs st)) a _ Ha). unfold job_weight. simpl. lia.
Qed.

(** Another job has it in hand. *)
Lemma init_behind m : done_at st g = false -> main_at st g = Some m -> progress st st'.
Proof.
  intros Hd Hm. pose proof HW as [Hw Hk _].
  pose proof (xv_group _ _ _ _ _ _ HX g gr Hg) as Hs. unfold group_status in Hs. rewrite Hd, Hm in Hs.
  destruct Hs as [_ (last & Hml & _)]. unfold done_at, main_at in Hd, Hm.
  assert (m <> a) as Hma.
  { intros ->. assert (has (view (s_jobs st)) a (init_group g)) by (apply has_lookup; eauto). by same_job. }
  destruct (rd_as _ _ _ _ _ Hr) as [Hmay _ _ _ _ _|v2 n Hmay _ _ _ _ _ _ _ _|Hb Hv Hw' Hlen|Hl _ _ _].
  - destruct (Hmay _ init_queue_at) as [_ Hc]. destruct Hc; congruence.
  - destruct (Hmay _ init_queue_at) as [_ Hc]. destruct Hc; congruence.
  - destruct Hb as (q & m' & ->%init_queue & _ & _ & Hm' & Hc & Hpj). apply (progress_work st st' w w HW).
    + split; [congruence|done|]. rewrite Hv. apply (exploring_ext stage root _ (done_at st) _ (main_at st)).
      * intros c. destruct (decide (c = g)) as [->|Hn]; [|by apply init_other]. unfold done_at. congruence.
      * intros c _. destruct (decide (c = g)) as [->|Hn]; [|by apply init_other]. unfold main_at. congruence.
      * exact HX.
    + do 3 (right; split; [done|]). unfold work_left. rewrite Hv. lia.
  - destruct Hl as (q & ->%init_queue & Hc & _). congruence.
Qed.

(** It is taken in hand. *)
Lemma init_take : done_at st g = false -> main_at st g = None -> progress st st'.
Proof.
  intros Hd Hm. pose proof HW as [Hw Hk _]. pose proof (xv_memo _ _ _ _ _ _ HX) as HM.
  destruct (group_members w g gr (mi_wf _ _ _ HM) Hg) as [Hnd Hall].
  pose proof (xv_group _ _ _ _ _ _ HX g gr Hg) as Hs. unfold group_status in Hs. rewrite Hd, Hm in Hs.
  set (gr' := with_group_state CGroup.estExploring gr).
  destruct (put_group_left g CGroup.estExploring w gr Hg) as [Hx Hgl]; [by rewrite Hs|].
  apply (progress_hand st st' w a (init_group g) p g gr' None
           (fun c => if c =? g then Some a else main_at st c) (put_group g gr' w)); try done; auto.
  - eapply (take_step stage room root _ _ (main_at st)); try done.
    + intros y q ob. apply (childless_free st a y q ob (rd_free _ _ _ _ _ Hr)).
    + by rewrite N.eqb_refl.
    + intros c Hc. by rewrite (proj2 (N.eqb_neq _ _) Hc).
  - intros c Hc. by rewrite (proj2 (N.eqb_neq _ _) Hc).
  - apply lookup_insert_eq.
  - by apply run_group_initialized; [apply HM|..].
  - intros (q & m & ->%init_queue & _ & _ & Hpj & _). unfold main_at in Hm. congruence.
  - intros (q & ->%init_queue & Hc & _). unfold done_at in Hd. congruence.
Qed.
End init.

Lemma init_round st st' w a g :
  Inv st -> at_work st w -> round run st a (init_group g) st' -> progress st st'.
Proof.
  intros HI HW Hr. pose proof (aw_exploring _ _ HW) as HX.
  pose proof (rd_job _ _ _ _ _ Hr) as (p & q & Ha)%has_lookup.
  destruct (group_job_facts stage root _ _ _ w a p q g _ HX Ha (or_introl eq_refl)) as (-> & [gr Hg] & _).
  destruct (done_at st g) eqn:Hd; [|destruct (main_at st g) as [m|] eqn:Hm].
  - by apply (init_late st st' w a p g).
  - by apply (init_behind st st' w a p g gr HW Hr Ha Hg m).
  - by apply (init_take st st' w a p g gr).
Qed.

Lemma search_round st st' w a b :
  Inv st -> at_work st w -> round run st a b st' -> progress st st'.
Proof.
  intros HI HW Hr. pose proof (rd_job _ _ _ _ _ Hr) as (p & q & Ha)%has_lookup.
  destruct (xv_shape _ _ _ _ _ _ (aw_exploring _ _ HW) a p q _ Ha) as (b1 & [= <-] & Hs).
  destruct Hs as [? g _ _ _|? g last _ _ _|m e ge b _ _ _ _ Hp|y e x ge _ _ _ _].
  - by apply (init_round st st' w a g).
  - by apply (main_round st st' w a g last).
  - by apply (expr_round st st' w a b e (ge_estate ge)).
  - by apply (xform_round st st' w a e x).
Qed.

End rounds.

(** ** The start *)

Lemma exploring_start a w :
  unexplored_memo stage w -> s_root w = root ->
  exploring {[a := (None, Some (PjqExploration root), Some (init_group root))]}
    (fun _ => false) (fun _ => None) w.
Proof.
  intros [Hwf Hc Hs Hr Hgr Hge Hx] Hroot.
  assert (forall y ent, ({[a := (None, Some (PjqExploration root), Some (init_group root))]} : table) !! y = Some ent ->
            y = a /\ ent = (None, Some (PjqExploration root), Some (init_group root))) as Hone
    by (intros y ent [-> <-]%lookup_singleton_Some; done).
  assert (forall y b, has ({[a := (None, Some (PjqExploration root), Some (init_group root))]} : table) y b ->
            b = init_group root) as Hjob.
  { intros y b (p & q & Hy)%has_lookup. apply Hone in Hy as [_ Heq]. congruence. }
  split; try done.
  - split; try done. intros e ge He. by apply (Hge e).
  - intros y p q ob Hy. apply Hone in Hy as [-> [= -> -> ->]]. eexists. split; [done|].
    apply shape_init; [by rewrite <- Hroot|constructor|done].
  - exists a, (Some (PjqExploration root)), (Some (init_group root)). split; [by apply lookup_singleton_Some|].
    intros y q b Hy. by apply Hone in Hy as [-> _].
  - intros y g last Hy. by apply Hjob in Hy.
  - intros e ge He Hl. unfold expr_status. destruct (Hge e ge He) as [-> _]. left.
    destruct (sw_owner _ Hwf e ge He) as (gr & Hg & _). exists gr. split; [done|]. left. by apply (Hgr (ge_group ge)).
  - intros y z e b b' s s' Hy _ Hp. apply Hjob in Hy as ->. inversion Hp.
  - intros y z e x Hy. by apply Hjob in Hy.
  - rewrite Hx. constructor.
  - intros e x. rewrite Hx. by intros ?%elem_of_nil.
Qed.

(** ** The end *)

Lemma no_work_left {P} `{ObjectPool P S} `{!PoolLaws P S} (w0 : search R) (st : @state P S _ _ (option (search R)) job) w :
  Inv st -> at_work w0 st w -> m_listjlWaiting (s_sched st) = [] -> False.
Proof.
  intros HI [_ _ HX] Hw. destruct (sw_acyclic _ (mi_wf _ _ _ (xv_memo _ _ _ _ _ _ HX))) as [rk Hrk].
  pose proof (no_deadlock (job_rank rk w) (queue_rank rk) st HI (exploring_ranked rk w Hrk _ _ _ HX) Hw) as Hnil.
  destruct (xv_first _ _ _ _ _ _ HX) as (a0 & q0 & b0 & Ha & _). by rewrite view_lookup, Hnil in Ha.
Qed.

End complete.

(** ** Properties *)

(** C1: exploring a memo ends and is complete.  In a stage without a time limit
    and without the DPHyper transformation, from a well-formed memo without cycles
    in which nothing is explored and no input of an expression was emptied by
    merging, when the results of the transformations extend the memo without
    closing a cycle and are bounded in number ([ExplorationLaws]), the job for the root group can be scheduled,
    [ExecuteJobs] runs until no job is left, no assert of the exploration,
    transformation or scheduler code is violated, every expression of the memo is
    still there, and every group below the root is explored: each of its logical
    expressions, those the transformations added included, is explored, its
    transformations of the stage were all applied, no others, and none twice.
    [FinalizeExploration] was called at the end. *)
Theorem exploration_complete {P S : Type} `{Countable S} `{ObjectPool P S} `{!PoolLaws P S} {R : Type}
    `{HO : OperatorIdentity} `{HE : SearchEngine R} (stage : list N) (room : search R -> nat)
    (ulJobs : N) (w : search R) :
  ExplorationLaws stage room -> 0 < ulJobs < 2 ^ 31 -> unexplored_memo stage w ->
  exists (st : @state P S _ _ (option (search R)) job) fuel st' w',
    ScheduleJob (start ulJobs (Some w)) (group_exploration_child (s_root w)) None = Some st /\
    ExecuteJobs run fuel st = Some st' /\
    s_jobs st' = ∅ /\ m_ulpTotal (s_sched st') = 0 /\
    s_world st' = Some (FinalizeExploration w') /\ kept w w' /\ explored_from w' (s_root w).
Proof.
  intros Hlaws Hj Hw.
  destruct (ScheduleJob_root (start ulJobs (Some w)) (group_exploration_child (s_root w)) (start_Inv ulJobs _ Hj))
    as (a & st & Hsch & HI & _ & Hv & Hq & Hworld).
  assert (at_work stage (s_root w) w st w) as HW.
  { split; [done|intros e ge He; by exists ge|].
    apply (exploring_ext stage (s_root w) _ (fun _ => false) _ (fun _ => None)).
    - intros g. unfold done_at, queue_at. by rewrite Hq.
    - intros g _. unfold main_at, queue_at. by rewrite Hq.
    - rewrite Hv. change (view (s_jobs (start ulJobs (Some w)))) with (∅ : gmap (job_address S) (option (job_address S) * option N * option job)).
      rewrite insert_empty. by apply exploring_start. }
  destruct (ExecuteJobs_wf run smaller (left_at stage room)
    (fun st => (exists w', at_work stage (s_root w) w st w') \/ finished (s_root w) w st))
    with (st := st) as (fuel & st' & Hex & HI' & Hfin & Hwait).
  - apply smaller_wf.
  - apply run_completes_alone.
  - intros s x [[w' []]|[]]; [left; exists w'|right]; done.
  - intros s b c s' HIs [[w' HW']|Hf] Hr HIs'.
    + by apply (search_round stage room (s_root w) w s s' w' b c).
    + pose proof (rd_job _ _ _ _ _ Hr) as Hb. destruct Hf as [Hv' _]. by rewrite Hv' in Hb.
  - done.
  - left. by exists w.
  - destruct Hfin as [[w' HW']|[Hv' (w' & Hw' & Hk & Hexp)]].
    { by destruct (no_work_left stage (s_root w) w st' w' HI' HW' Hwait). }
    exists st, fuel, st', w'. do 2 (split; [done|]). assert (s_jobs st' = ∅) as Hnil by by eapply fmap_empty_inv.
    split; [done|]. split; [|done]. pose proof (c_total _ _ _ _ _ _ _ (inv_core _ HI')) as Ht.
    rewrite Hnil in Ht. done.
Qed.

(** A stage with [ExfLeftJoin2RightJoin] alone: a left outer join gets a right
    outer join with its inputs the other way round next to it. *)
Module Swap.

Definition op (id : EOperatorId) : COperator := MkOperator id 0 false false None 0.

#[export] Instance operators : OperatorIdentity := {|
  OpHashValue _ := 0;
  OpMatches o o' := bool_decide (Eopid o = Eopid o');
  FLogical _ := true;
  FScalar _ := false;
  FPatternLeaf _ := false;
  FInputOrderSensitive _ := true;
|}.

Definition stage : list N := [ExfLeftJoin2RightJoin].

Definition candidates (o : COperator) : list N :=
  if decide (Eopid o = EopLogicalLeftOuterJoin) then stage else [].

Definition swapped (ge : gexpr) : gexpr :=
  MkGexpr (op EopLogicalRightOuterJoin) (reverse (ge_children ge)) (ge_group ge)
    CGroupExpression.estUnexplored CGroupExpression.EdphUnrequested false.

Definition grown_by (gr : group) (n : N) : group :=
  MkGroup (gr_scalar gr) (gr_duplicate gr) (gr_gexprs gr ++ [n]) (gr_estate gr).

Definition results (e x : N) (w : search unit) : search unit :=
  match s_gexprs w !! e with
  | Some ge =>
      match s_groups w !! ge_group ge with
      | Some gr =>
          let n := fresh (dom (s_gexprs w)) in
          put_gexpr n (swapped ge) (put_group (ge_group ge) (grown_by gr n) w)
      | None => w
      end
  | None => w
  end.

#[export] Instance engine : SearchEngine unit := {|
  FLogicalApply _ := false;
  DeriveChildHasSubquery _ _ _ := false;
  PxfsCandidates := candidates;
  PxfsExploration := stage;
  PxfsImplementation := [];
  PxfsCurrentStage _ := stage;
  DPHyperShadow := false;
  xform_results := results;
  FinalizeExploration w := w;
  FinalizeImplementation w := w;
  enumerate_region _ w := (false, false, [], w);
|}.

Section results.
Context (w : search unit) (e : N) (ge : gexpr) (gr : group).
Context (Hwf : search_wf w) (He : s_gexprs w !! e = Some ge) (Hg : s_groups w !! ge_group ge = Some gr).
Let n := fresh (dom (s_gexprs w)).
Let w' := put_gexpr n (swapped ge) (put_group (ge_group ge) (grown_by gr n) w).

Lemma fresh_gexpr : s_gexprs w !! n = None.
Proof. apply not_elem_of_dom, is_fresh. Qed.

Lemma new_gexprs e' ge' : s_gexprs w' !! e' = Some ge' ->
  e' = n /\ ge' = swapped ge \/ e' <> n /\ s_gexprs w !! e' = Some ge'.
Proof. simpl. intros [[<- <-]|[Hn ?]]%lookup_insert_Some; [by left|by right]. Qed.

Lemma new_groups g gr' : s_groups w' !! g = Some gr' ->
  g = ge_group ge /\ gr' = grown_by gr n \/ g <> ge_group ge /\ s_groups w !! g = Some gr'.
Proof. simpl. intros [[<- <-]|[Hn ?]]%lookup_insert_Some; [by left|by right]. Qed.

Lemma old_gexpr e' ge' : s_gexprs w !! e' = Some ge' -> s_gexprs w' !! e' = Some ge'.
Proof.
  intros He'. simpl. rewrite lookup_insert_ne; [done|]. intros <-.
  pose proof fresh_gexpr. congruence.
Qed.

Lemma old_group g gr0 : s_groups w !! g = Some gr0 -> exists gr' new, s_groups w' !! g = Some gr' /\
  gr_gexprs gr' = gr_gexprs gr0 ++ new /\ gr_estate gr' = gr_estate gr0 /\
  (new <> [] -> exists ge, s_gexprs w !! e = Some ge /\ ge_group ge = g).
Proof.
  intros Hg0. simpl. destruct (decide (g = ge_group ge)) as [->|Hn].
  - assert (gr0 = gr) as -> by congruence. exists (grown_by gr n), [n]. rewrite lookup_insert_eq.
    do 3 (split; [done|]). intros _. by exists ge.
  - exists gr0, []. rewrite lookup_insert_ne by done. by rewrite app_nil_r.
Qed.

Lemma swapped_children c : c ∈ ge_children (swapped ge) -> c ∈ ge_children ge.
Proof. simpl. by rewrite elem_of_reverse. Qed.

Lemma results_wf : search_wf w'.
Proof.
  destruct Hwf as [Hmem Hown Hnd Hch (rank & Hrank)]. split.
  - intros g gr' e' Hg' Hin. apply new_groups in Hg' as [[-> ->]|[Hn Hg']].
    + simpl in Hin. apply elem_of_app in Hin as [Hin|Hin%list_elem_of_singleton].
      * destruct (Hmem _ gr e' Hg Hin) as (ge' & He' & Hgg). exists ge'. split; [by apply old_gexpr|done].
      * subst. exists (swapped ge). split; [apply lookup_insert_eq|done].
    + destruct (Hmem _ gr' e' Hg' Hin) as (ge' & He' & Hgg). exists ge'. split; [by apply old_gexpr|done].
  - intros e' ge' [[-> ->]|[Hn He']]%new_gexprs.
    + exists (grown_by gr n). simpl. rewrite lookup_insert_eq. split; [done|]. apply elem_of_app. right. by left.
    + destruct (Hown e' ge' He') as (gr0 & Hg0 & Hin). destruct (old_group _ gr0 Hg0) as (gr' & new & Hg' & Happ & _).
      exists gr'. split; [done|]. rewrite Happ. apply elem_of_app. by left.
  - intros g gr' [[-> ->]|[Hn Hg']]%new_groups; [|by apply (Hnd g)]. simpl. apply NoDup_app.
    split; [by apply (Hnd (ge_group ge))|]. split; [|by apply NoDup_singleton].
    intros e' Hin ->%list_elem_of_singleton. destruct (Hmem _ gr n Hg Hin) as (ge' & He' & _).
    pose proof fresh_gexpr. congruence.
  - intros e' ge' c He' Hin. assert (exists gr0, s_groups w !! c = Some gr0 /\ gr_gexprs gr0 <> []) as (gr0 & Hg0 & Hne).
    { apply new_gexprs in He' as [[-> ->]|[Hn He']]; [|by apply (Hch e' ge')].
      apply (Hch e ge c He). by apply swapped_children. }
    destruct (old_group c gr0 Hg0) as (gr' & new & Hg' & Happ & _). exists gr'. split; [done|].
    rewrite Happ. by destruct (gr_gexprs gr0).
  - exists rank. intros e' ge' c [[-> ->]|[Hn He']]%new_gexprs Hin; [|by apply (Hrank e')].
    apply (Hrank e ge c He). by apply swapped_children.
Qed.

Lemma results_extends : extends e w w'.
Proof.
  split; try done.
  - apply old_group.
  - intros g gr' Hn [[-> ->]|[Hne Hg']]%new_groups; congruence.
  - apply old_gexpr.
  - intros e' ge' Hn [[-> ->]|[Hne He']]%new_gexprs; [done|congruence].
Qed.

Lemma results_calls : xform_calls w' = xform_calls w.
Proof.
  unfold xform_calls. simpl.
  rewrite map_to_list_insert by apply fresh_gexpr. reflexivity.
Qed.
End results.

Lemma laws : ExplorationLaws stage (fun _ => 0%nat).
Proof.
  split; try done.
  - intros o. change (NoDup (candidates o)). unfold candidates. case_decide; [apply NoDup_singleton|apply NoDup_nil_2].
  - unfold stage. set_solver.
  - intros e ge x w Hwf He _ _ w'. unfold w'. simpl. unfold results.
    destruct (sw_owner _ Hwf e ge He) as (gr & Hg & _). rewrite He, Hg.
    split; [by apply (results_wf w e)|]. split; [by apply results_extends|]. split; [done|].
    rewrite results_calls. done.
Qed.

(** [A left join (B left join C)], groups 0 to 4. *)
Definition gexpr_of (id : EOperatorId) (children : list N) (g : N) : gexpr :=
  MkGexpr (op id) children g CGroupExpression.estUnexplored CGroupExpression.EdphUnrequested false.
Definition group_of (e : N) : group := MkGroup false None [e] CGroup.estUnexplored.

Definition memo : search unit :=
  MkSearch
    (list_to_map [(0, group_of 0); (1, group_of 1); (2, group_of 2); (3, group_of 3); (4, group_of 4)])
    (list_to_map [(0, gexpr_of EopLogicalLeftOuterJoin [1; 2] 0); (1, gexpr_of (EopOther 0) [] 1);
                  (2, gexpr_of EopLogicalLeftOuterJoin [3; 4] 2); (3, gexpr_of (EopOther 0) [] 3);
                  (4, gexpr_of (EopOther 0) [] 4)])
    0 [] [] tt.

Lemma memo_unexplored : unexplored_memo stage memo.
Proof.
  assert (forall g gr, s_groups memo !! g = Some gr -> g < 5 /\ gr = group_of g) as Hg.
  { intros g gr Hg. apply elem_of_list_to_map_2 in Hg. simpl in Hg.
    repeat (apply elem_of_cons in Hg as [[= -> ->]|Hg]; [split; [lia|done]|]). by apply elem_of_nil in Hg. }
  assert (forall e ge, s_gexprs memo !! e = Some ge -> ge_group ge = e /\ e < 5 /\
            ge_estate ge = CGroupExpression.estUnexplored /\ ge_edph ge = CGroupExpression.EdphUnrequested /\
            Forall (fun c => e < c < 5) (ge_children ge)) as He.
  { intros e ge He. apply elem_of_list_to_map_2 in He. simpl in He.
    repeat (apply elem_of_cons in He as [[= -> ->]|He];
      [repeat split; try lia; simpl; repeat constructor; lia|]). by apply elem_of_nil in He. }
  assert (forall g, g < 5 -> s_groups memo !! g = Some (group_of g) /\ is_Some (s_gexprs memo !! g)) as Hall.
  { intros g Hlt. assert (g = 0 \/ g = 1 \/ g = 2 \/ g = 3 \/ g = 4) as [->|[->|[->|[->| ->]]]] by lia;
      by (split; [vm_compute|eexists; vm_compute]). }
  split; try done.
  - split.
    + intros g gr e [Hlt ->]%Hg ->%list_elem_of_singleton. destruct (Hall g Hlt) as [_ [ge Hge]].
      exists ge. split; [done|]. by destruct (He g ge Hge).
    + intros e ge (-> & Hlt & _)%He. exists (group_of e). split; [by apply Hall|by left].
    + intros g gr [_ ->]%Hg. apply NoDup_singleton.
    + intros e ge c (_ & _ & _ & _ & Hc)%He Hin. rewrite Forall_forall in Hc. exists (group_of c).
      split; [|done]. apply Hall. by destruct (Hc c Hin).
    + exists (fun g => N.to_nat (5 - g)). intros e ge c (-> & _ & _ & _ & Hc)%He Hin.
      rewrite Forall_forall in Hc. destruct (Hc c Hin). lia.
  - by intros g gr [_ ->]%Hg.
  - by intros e ge (_ & _ & ? & ? & _)%He.
Qed.

End Swap.

Import Swap.

Lemma exploration_complete_witness :
  exists (st : @state SyncPool.CSyncPool SyncPool.slot _ _ (option (search unit)) job) fuel st' w',
    ScheduleJob (start 4 (Some Swap.memo)) (group_exploration_child 0) None = Some st /\
    ExecuteJobs run fuel st = Some st' /\
    s_jobs st' = ∅ /\ m_ulpTotal (s_sched st') = 0 /\
    s_world st' = Some (FinalizeExploration w') /\ kept Swap.memo w' /\ explored_from w' 0.
Proof.
  apply (exploration_complete Swap.stage (fun _ => 0%nat) 4 Swap.memo).
  - exact Swap.laws.
  - lia.
  - exact Swap.memo_unexplored.
Defined.
