(* ===== verification/SearchTimeout.v ===== *)
(** A search stage that runs out of time under a join enumeration job.

    A job for the exploration of a group that finds the time of its stage spent
    says it is done, and so closes the exploration queue of the group, which is
    not explored.  [CJobJoinEnumeration::FExecute] does not ask for the time: it
    schedules jobs for an intermediate group that is not explored, and waits for
    them. *)

From S2P Require Import Prelude NodeSet Expression SyncPool JobFactory Scheduler SchedulerFrame.
From S2P Require Import JobMachine SearchState SearchJobs SearchRuns Exploration ExplorationInv.
From stdpp Require Import finite.
Local Open Scope N_scope.

Section timeout.
Context {P S : Type} `{Countable S} `{ObjectPool P S} `{!PoolLaws P S}.
Context {R : Type} `{HO : OperatorIdentity} `{HE : SearchEngine R}.
Abbreviation addr := (job_address S).
Abbreviation table := (gmap addr (option addr * option N * option job)).
Abbreviation st_t := (@state P S _ _ (option (search R)) job).
Implicit Types (w : search R) (st : st_t) (a c : addr) (g e : N).

(** ** The runs *)

Definition enumeration e (materialized waiting : bool) (groups : list N) (native : bool) : job :=
  JJoinEnumeration (MkJoinEnumeration e materialized native waiting groups).

(** [g] is not explored. *)
Definition unfinished w g : Prop :=
  exists gr, s_groups w !! g = Some gr /\ NoDup (gr_gexprs gr) /\ CGroup_FExplored gr = false.

Lemma explore_region_again w g (j : join_enumeration) :
  unfinished w g -> m_intermediate_groups j = [g] ->
  explore_region (MkContext w j []) =
  Done (false, MkContext w (with_waiting true j) [group_exploration_child g]).
Proof.
  intros (gr & Hg & Hnd & Hx) Hj. unfold explore_region. run_simpl. rewrite Hj.
  cbn [explore_intermediate]. run_simpl. rewrite Hg, decide_True by done. cbn [x_world x_job x_children].
  by rewrite Hx.
Qed.

Lemma run_enumeration_first w w1 e g native :
  enumerate_region e w = (true, native, [g], w1) -> unfinished w1 g ->
  run (Some w) (enumeration e false false [] false) =
  MkOutcome (Some w1) (enumeration e true true [g] native) [group_exploration_child g] false.
Proof.
  intros He Hg. unfold run, outcome_of, enumeration.
  assert (JoinEnumeration_FExecute (MkContext w (MkJoinEnumeration e false false false []) []) =
          Done (false, MkContext w1 (MkJoinEnumeration e true native true [g]) [group_exploration_child g])) as ->;
    [|done].
  unfold JoinEnumeration_FExecute, FEnumerate. run_simpl. cbn [m_materialized with_waiting negb].
  cbn. rewrite He. cbn. by rewrite (explore_region_again w1 g).
Qed.

Lemma run_enumeration_again w e g native waiting :
  unfinished w g ->
  run (Some w) (enumeration e true waiting [g] native) =
  MkOutcome (Some w) (enumeration e true true [g] native) [group_exploration_child g] false.
Proof.
  intros Hg. unfold run, outcome_of, enumeration, JoinEnumeration_FExecute. run_simpl.
  cbn [m_materialized with_waiting negb]. by rewrite (explore_region_again w g).
Qed.

(** The time is spent. *)
Lemma run_group_late w g clock :
  s_clock w = true :: clock ->
  run (Some w) (init_group g) = MkOutcome (Some (set_clock clock w)) (init_group g) [] true.
Proof.
  intros Hc. unfold run, outcome_of, GroupExploration_FExecute, init_group. cbn [FRun].
  unfold mbind, action_bind, FTimedOut. run_simpl. by rewrite Hc.
Qed.

(** ** The rounds *)

Section rounds.
Context (e g : N) (native : bool).

Definition alone a (b : job) : table := {[a := (None, None, Some b)]}.
Definition with_group_job a (b : job) c : table :=
  <[c := (Some a, Some (PjqExploration g), Some (init_group g))]> (alone a b).

Lemma alone_lookup a b y ent : alone a b !! y = Some ent -> y = a /\ ent = (None, None, Some b).
Proof. unfold alone. intros [-> <-]%lookup_singleton_Some. done. Qed.

Lemma alone_at a b : alone a b !! a = Some (None, None, Some b).
Proof. apply lookup_singleton_eq. Qed.

(** The queue of the group is closed, and the group is not explored. *)
Record closed st : Prop := {
  cl_world : exists w, s_world st = Some w /\ unfinished w g;
  cl_queue : m_fCompleted (queue_at st (PjqExploration g)) = true;
}.

(** The enumeration job schedules the group again, or waits for it. *)
Inductive stuck st : Prop :=
  | stuck_alone a waiting : closed st ->
      view (s_jobs st) = alone a (enumeration e true waiting [g] native) -> stuck st
  | stuck_waiting a c : closed st -> c <> a ->
      view (s_jobs st) = with_group_job a (enumeration e true true [g] native) c -> stuck st.

(** Before the queue is closed. *)
Inductive doomed st : Prop :=
  | doomed_first a w w1 : s_world st = Some w -> enumerate_region e w = (true, native, [g], w1) ->
      unfinished w1 g -> s_clock w1 = [true] ->
      queue_at st (PjqExploration g) = CJobQueue_New ->
      view (s_jobs st) = alone a (enumeration e false false [] false) -> doomed st
  | doomed_group a c w : s_world st = Some w -> unfinished w g -> s_clock w = [true] ->
      queue_at st (PjqExploration g) = CJobQueue_New -> c <> a ->
      view (s_jobs st) = with_group_job a (enumeration e true true [g] native) c -> doomed st
  | doomed_stuck : stuck st -> doomed st.

(** One job ran and goes on with one new job, for the group. *)
Lemma alone_on st st' a y b b0 b1 w w1 :
  s_world st = Some w -> view (s_jobs st) = alone a b0 -> round run st y b st' ->
  run (Some w) b0 = MkOutcome (Some w1) b1 [group_exploration_child g] false ->
  exists c, c <> a /\ view (s_jobs st') = with_group_job a b1 c /\ s_world st' = Some w1 /\
    queue_at st' (PjqExploration g) = queue_at st (PjqExploration g).
Proof.
  intros Hw Hv Hr Hrun. pose proof (rd_job _ _ _ _ _ Hr) as Hb.
  assert (y = a /\ b = b0) as [-> ->].
  { apply has_lookup in Hb as (p & q & Hy). rewrite Hv in Hy. apply alone_lookup in Hy as [-> Heq]. split; [done|congruence]. }
  assert (v_queue (view (s_jobs st)) a = None) as Hq
    by (rewrite Hv; unfold v_queue; by rewrite alone_at).
  destruct (rd_as _ _ _ _ _ Hr) as [_ _ Hran _ Hw' _|v1 n _ _ _ Hc _ _ _ _ _|Hx _ _ _|Hx _ _ _].
  - rewrite Hw, Hrun in Hran, Hw'. destruct Hran as (p & q & b2 & Ha & Hsp).
    rewrite Hv in Ha, Hsp. apply alone_lookup in Ha as [_ [= -> -> ->]].
    inversion Hsp as [|v c cs z v' Hz Hsp']; subst. inversion Hsp'; subst.
    unfold alone in *. rewrite insert_singleton_eq in *. exists z. split; [|split; [done|split; [done|]]].
    + intros ->. simpl in Hz. by rewrite lookup_singleton_eq in Hz.
    + apply (rd_queues _ _ _ _ _ Hr). by rewrite Hq.
  - rewrite Hw, Hrun in Hc. done.
  - destruct Hx as (q & m & Hq' & _). congruence.
  - destruct Hx as (q & Hq' & _). congruence.
Qed.

(** With the job for the group there, that is the one that runs. *)
Lemma group_runs st st' a c y b b0 :
  view (s_jobs st) = with_group_job a b0 c -> c <> a -> round run st y b st' -> y = c /\ b = init_group g.
Proof.
  intros Hv Hca Hr. pose proof (rd_job _ _ _ _ _ Hr) as (p & q & Hy)%has_lookup.
  pose proof (rd_free _ _ _ _ _ Hr) as Hfree. rewrite Hv in Hy.
  unfold with_group_job in Hy. apply lookup_insert_Some in Hy as [[-> [= _ _ ->]]|[_ Hy]]; [done|].
  apply alone_lookup in Hy as [-> _]. exfalso.
  apply (proj1 (nchildren_0 _ _) Hfree c). rewrite Hv. unfold v_parent, with_group_job. by rewrite lookup_insert_eq.
Qed.

Lemma with_group_queue a b0 c : v_queue (with_group_job a b0 c) c = Some (PjqExploration g).
Proof. unfold v_queue, with_group_job. by rewrite lookup_insert_eq. Qed.

Lemma with_group_delete a b0 c : c <> a -> delete c (with_group_job a b0 c) = alone a b0.
Proof. intros Hca. unfold with_group_job. rewrite delete_insert_id; [done|]. by apply lookup_singleton_None. Qed.

Lemma stuck_round st y b st' : stuck st -> round run st y b st' -> stuck st'.
Proof.
  intros [a waiting [(w & Hw & Hg) Hq] Hv|a c [(w & Hw & Hg) Hq] Hca Hv] Hr.
  - destruct (alone_on st st' a y b _ _ w w Hw Hv Hr (run_enumeration_again w e g native waiting Hg))
      as (c & Hca & Hv' & Hw' & Hq').
    apply (stuck_waiting st' a c); [|done|done]. split; [by exists w|by rewrite Hq'].
  - destruct (group_runs st st' a c y b _ Hv Hca Hr) as [-> ->].
    pose proof (with_group_queue a (enumeration e true true [g] native) c) as Hqc. rewrite <- Hv in Hqc.
    destruct (rd_as _ _ _ _ _ Hr) as [Hmay _ _ _ _ _|v1 n Hmay _ _ _ _ _ _ _ _|Hx _ _ _|Hx Hv' Hw' _].
    + destruct (Hmay _ Hqc). congruence.
    + destruct (Hmay _ Hqc). congruence.
    + destruct Hx as (q & m & Hq' & _ & Hc & _). congruence.
    + apply (stuck_alone st' a true).
      * split; [rewrite Hw'; by exists w|]. destruct Hx as (q & Hq' & _ & Hc). congruence.
      * by rewrite Hv', Hv, with_group_delete.
Qed.

Lemma doomed_round st y b st' : doomed st -> round run st y b st' -> doomed st'.
Proof.
  intros [a w w1 Hw He Hg Hc Hq Hv|a c w Hw Hg Hc Hq Hca Hv|Hst] Hr.
  - destruct (alone_on st st' a y b _ _ w w1 Hw Hv Hr (run_enumeration_first w w1 e g native He Hg))
      as (c & Hca & Hv' & Hw' & Hq').
    by apply (doomed_group st' a c w1); [..|by rewrite Hq'| |].
  - apply doomed_stuck. destruct (group_runs st st' a c y b _ Hv Hca Hr) as [-> ->].
    pose proof (with_group_queue a (enumeration e true true [g] native) c) as Hqc. rewrite <- Hv in Hqc.
    pose proof (run_group_late w g [] Hc) as Hrun.
    destruct (rd_as _ _ _ _ _ Hr) as [_ _ _ Ho _ _|v1 n _ Hserved Hran _ Hsub Hnone _ Hw' _|Hx _ _ _|Hx _ _ _].
    + by rewrite Hw, Hrun in Ho.
    + rewrite Hw, Hrun in Hw'. apply (stuck_alone st' a true).
      * split; [by exists (set_clock [] w)|]. by apply (Hserved _ Hqc).
      * rewrite <- (with_group_delete a _ c Hca), <- Hv. apply map_eq. intros z.
        destruct (decide (z = c)) as [->|Hz]; [by rewrite lookup_delete_eq|].
        rewrite lookup_delete_ne by done. apply (rd_jobs _ _ _ _ _ Hr).
        -- intros b2 Hb2. pose proof (rd_job _ _ _ _ _ Hr). assert (b2 = init_group g) as -> by congruence.
           by rewrite Hw, Hrun.
        -- unfold round_dead. rewrite Hqc, Hq. set_solver.
    + destruct Hx as (q & m & Hq' & _ & _ & Hm & _). assert (q = PjqExploration g) as -> by congruence.
      by rewrite Hq in Hm.
    + destruct Hx as (q & Hq' & Hd & _). assert (q = PjqExploration g) as -> by congruence. by rewrite Hq in Hd.
  - apply doomed_stuck. by apply (stuck_round st y b).
Qed.

(** There is always a job to run. *)
Lemma doomed_waiting st : Inv st -> doomed st -> m_listjlWaiting (s_sched st) <> [].
Proof.
  intros HI Hd Hw.
  assert (forall a, is_Some (view (s_jobs st) !! a) -> nchildren (view (s_jobs st)) a = 0 ->
            (forall q, v_queue (view (s_jobs st)) a = Some q -> m_listjQueued (queue_at st q) = []) -> False) as Hidle.
  { intros a Ha Hn Hq. pose proof (idle_job st a HI Hw Ha Hn) as Hx. unfold extra in Hx.
    destruct (v_queue (view (s_jobs st)) a) as [q|]; [|done]. specialize (Hq q eq_refl). unfold queue_at in Hq.
    by rewrite Hq in Hx. }
  assert (forall a b, view (s_jobs st) = alone a b -> False) as Halone.
  { intros a b Hv. apply (Hidle a).
    - rewrite Hv. unfold alone. by rewrite lookup_singleton_eq.
    - apply nchildren_0. intros y. rewrite Hv. unfold v_parent, alone.
      destruct (decide (y = a)) as [->|Hn]; [by rewrite lookup_singleton_eq|by rewrite lookup_singleton_ne].
    - intros q. rewrite Hv. unfold v_queue, alone. by rewrite lookup_singleton_eq. }
  assert (forall a b c, c <> a -> view (s_jobs st) = with_group_job a b c ->
            m_listjQueued (queue_at st (PjqExploration g)) = [] -> False) as Hgroup.
  { intros a b c Hca Hv Hq. apply (Hidle c).
    - rewrite Hv. unfold with_group_job. by rewrite lookup_insert_eq.
    - apply nchildren_0. intros y. rewrite Hv. unfold v_parent, with_group_job, alone.
      destruct (decide (y = c)) as [->|Hn]; [rewrite lookup_insert_eq; simpl; congruence|].
      rewrite lookup_insert_ne by done.
      destruct (decide (y = a)) as [->|Hn']; [by rewrite lookup_singleton_eq|by rewrite lookup_singleton_ne].
    - intros q Hqc. rewrite Hv, with_group_queue in Hqc. by injection Hqc as <-. }
  assert (m_fCompleted (queue_at st (PjqExploration g)) = true ->
            m_listjQueued (queue_at st (PjqExploration g)) = []) as Hclosed
    by apply (q_done _ _ (inv_queues _ HI)).
  destruct Hd as [a w w1 _ _ _ _ _ Hv|a c w _ _ _ Hq Hca Hv|[a waiting [_ Hq] Hv|a c [_ Hq] Hca Hv]].
  - by apply (Halone a _ Hv).
  - apply (Hgroup a _ c Hca Hv). by rewrite Hq.
  - by apply (Halone a _ Hv).
  - apply (Hgroup a _ c Hca Hv). by apply Hclosed.
Qed.

Lemma doomed_world st : doomed st -> is_Some (s_world st).
Proof. by intros [a w w1 -> _ _ _ _ _|a c w -> _ _ _ _ _|[a waiting [(w & -> & _) _] _|a c [(w & -> & _) _] _ _]]. Qed.

(** The loop after [n] rounds. *)
Inductive rounds : nat -> st_t -> st_t -> Prop :=
  | rounds_0 st : rounds 0 st st
  | rounds_S n st st1 st2 st' pj : PjRetrieve st = Some (Some pj, st1) ->
      execute_job run st1 pj = Some st2 -> rounds n st2 st' -> rounds (Datatypes.S n) st st'.

Lemma doomed_never n st : Inv st -> doomed st ->
  ExecuteJobs run n st = None /\
  exists st', rounds n st st' /\ is_Some (s_world st') /\ m_listjlWaiting (s_sched st') <> [].
Proof.
  revert st. induction n as [|n IH]; intros st HI Hd.
  { split; [done|]. exists st. split; [constructor|]. by split; [apply doomed_world|apply doomed_waiting]. }
  simpl. destruct (m_listjlWaiting (s_sched st)) as [|a rest] eqn:Hw; [by destruct (doomed_waiting st HI Hd)|].
  destruct (round_spec run st a rest run_completes_alone HI Hw) as (st1 & b & st2 & Hr & Hex & Hb & Has & HI').
  destruct (round_frame run st a st1 st2 Hr Hex) as [Hq Hj]. rewrite Hr. simpl. rewrite Hex. simpl.
  destruct (IH st2 HI') as [Hnone (st' & Hrest & Hst')].
  - apply (doomed_round st a b); [done|]. split; try done. by apply (waiting_no_children st a rest).
  - split; [done|]. exists st'. split; [by apply (rounds_S n st st1 st2 st' a)|done].
Qed.
End rounds.
End timeout.

(** ** Properties *)

(** C2: the time limit of a stage can keep the search from ending.  When the time
    is found spent once, by the job for an intermediate group that join
    enumeration made and that is not explored, the queue of the group is closed
    for good; the enumeration job then schedules and waits for the group again
    and again: after any number of rounds of [ExecuteJobs] a job is waiting to run
    and no assert was violated, whatever the clock says afterwards. *)
Theorem timeout_never_ends {P S : Type} `{Countable S} `{ObjectPool P S} `{!PoolLaws P S} {R : Type}
    `{HO : OperatorIdentity} `{HE : SearchEngine R} (ulJobs e g : N) (native : bool) (w w' : search R) :
  0 < ulJobs < 2 ^ 31 ->
  enumerate_region e w = (true, native, [g], w') -> unfinished w' g -> s_clock w' = [true] ->
  exists st : @state P S _ _ (option (search R)) job,
    ScheduleJob (start ulJobs (Some w))
      (MkChild EjtJoinEnumeration None (enumeration e false false [] false)) None = Some st /\
    forall n, ExecuteJobs run n st = None /\
      exists st', rounds n st st' /\ is_Some (s_world st') /\ m_listjlWaiting (s_sched st') <> [].
Proof.
  intros Hj He Hg Hc.
  destruct (ScheduleJob_root (start ulJobs (Some w))
              (MkChild EjtJoinEnumeration None (enumeration e false false [] false)) (start_Inv ulJobs _ Hj))
    as (a & st & Hsch & HI & _ & Hv & Hq & Hw).
  exists st. split; [done|]. intros n. apply (doomed_never e g native); [done|].
  apply (doomed_first e g native st a w w'); try done. unfold queue_at. by rewrite Hq.
Qed.

(** A region whose enumeration made the group 1. *)
Module Late.

Definition memo (clock : list bool) : search unit :=
  MkSearch {[1 := MkGroup false None [] CGroup.estUnexplored]} ∅ 1 clock [] tt.

#[export] Instance engine : SearchEngine unit := {|
  FLogicalApply _ := false;
  DeriveChildHasSubquery _ _ _ := false;
  PxfsCandidates _ := [];
  PxfsExploration := [];
  PxfsImplementation := [];
  PxfsCurrentStage _ := [];
  DPHyperShadow := false;
  xform_results _ _ w := w;
  FinalizeExploration w := w;
  FinalizeImplementation w := w;
  enumerate_region _ _ := (true, false, [1], memo [true]);
|}.

#[export] Instance operators : OperatorIdentity := {|
  OpHashValue _ := 0;
  OpMatches o o' := bool_decide (Eopid o = Eopid o');
  FLogical _ := true;
  FScalar _ := false;
  FPatternLeaf _ := false;
  FInputOrderSensitive _ := true;
|}.

End Late.
Import Late.

Lemma timeout_never_ends_witness :
  exists st : @state SyncPool.CSyncPool SyncPool.slot _ _ (option (search unit)) job,
    ScheduleJob (start 4 (Some (Late.memo [])))
      (MkChild EjtJoinEnumeration None (enumeration 0 false false [] false)) None = Some st /\
    forall n, ExecuteJobs run n st = None /\
      exists st', rounds n st st' /\ is_Some (s_world st') /\ m_listjlWaiting (s_sched st') <> [].
Proof.
  apply (timeout_never_ends 4 0 1 false (Late.memo []) (Late.memo [true])).
  - lia.
  - reflexivity.
  - exists (MkGroup false None [] CGroup.estUnexplored). split; [reflexivity|]. split; [constructor|reflexivity].
  - reflexivity.
Defined.
