(* ===== verification/Range.v ===== *)
(** * CRange: ranges of values

    Model of libgpopt/src/base/CRange.cpp.  A range has two ends, each a datum that
    is included or not, or infinite (a null pointer in the code).  Data are
    compared by the optimizer's comparator, the interface [IDatum]: a virtual
    class of the source whose default implementation asks the data themselves or
    an evaluator of the server.

    The result of an operation is in [option] where the code can follow a null
    pointer or violate an assert.

    The proofs see an end as a cut of the line of values, and a range as the values
    between two cuts; [cut_order] turns facts on finitely many cuts into facts on
    numbers. *)

From S2P Require Import Prelude.
From Stdlib Require Import Lia ZifyBool.

(** ** Data *)

(** [bool_value]: the value of a datum of type bool that is not null. *)
Class IDatum (D : Type) := {
  IsNull : D -> bool;
  bool_value : D -> option bool;
  CreateBoolDatum : bool -> D;
  pcomp_Equals : D -> D -> bool;
  pcomp_IsLessThan : D -> D -> bool;
  pcomp_IsLessThanOrEqual : D -> D -> bool;
  pcomp_IsGreaterThan : D -> D -> bool;
}.

(** The comparator orders data; null is equal to itself only, and false is less
    than true. *)
Class DatumLaws (D : Type) `{IDatum D} : Prop := {
  Equals_equiv : Equivalence (fun a b => pcomp_Equals a b = true);
  IsLessThan_trans a b c : pcomp_IsLessThan a b = true -> pcomp_IsLessThan b c = true -> pcomp_IsLessThan a c = true;
  IsLessThan_Equals a b c : pcomp_IsLessThan a b = true -> pcomp_Equals b c = true -> pcomp_IsLessThan a c = true;
  Equals_IsLessThan a b c : pcomp_Equals a b = true -> pcomp_IsLessThan b c = true -> pcomp_IsLessThan a c = true;
  IsLessThan_irrefl a : pcomp_IsLessThan a a = false;
  comparable a b : pcomp_IsLessThan a b = true \/ pcomp_Equals a b = true \/ pcomp_IsLessThan b a = true;
  IsGreaterThan_swap a b : pcomp_IsGreaterThan a b = pcomp_IsLessThan b a;
  IsLessThanOrEqual_or a b : pcomp_IsLessThanOrEqual a b = pcomp_IsLessThan a b || pcomp_Equals a b;
  Equals_IsNull a b : pcomp_Equals a b = true -> IsNull a = IsNull b;
  CreateBoolDatum_value b : bool_value (CreateBoolDatum b) = Some b;
  bool_value_Equals d b : bool_value d = Some b -> pcomp_Equals d (CreateBoolDatum b) = true;
  bool_value_IsNull d b : bool_value d = Some b -> IsNull d = false;
  false_IsLessThan_true : pcomp_IsLessThan (CreateBoolDatum false) (CreateBoolDatum true) = true;
}.

(** [IMDType::ECmpType] *)
Inductive ECmpType : Type :=
  | EcmptEq | EcmptNEq | EcmptL | EcmptLEq | EcmptG | EcmptGEq | EcmptIDF | EcmptOther.
#[export] Instance ECmpType_eq_dec : EqDecision ECmpType.
Proof. solve_decision. Defined.

Inductive ERangeInclusion : Type := EriIncluded | EriExcluded.
#[export] Instance ERangeInclusion_eq_dec : EqDecision ERangeInclusion.
Proof. solve_decision. Defined.

Definition EriInverseInclusion (eri : ERangeInclusion) : ERangeInclusion :=
  match eri with EriIncluded => EriExcluded | EriExcluded => EriIncluded end.

(** [None]: an infinite end. *)
Record CRange (D : Type) := MkRange {
  m_pdatumLeft : option D;
  m_eriLeft : ERangeInclusion;
  m_pdatumRight : option D;
  m_eriRight : ERangeInclusion;
}.
Arguments MkRange {D}.
Arguments m_pdatumLeft {D}.
Arguments m_eriLeft {D}.
Arguments m_pdatumRight {D}.
Arguments m_eriRight {D}.

(** ** Operations *)

Section range.
Context {D : Type} `{HD : IDatum D}.
Implicit Types (this prange : CRange D).

Definition included (eri : ERangeInclusion) : bool := bool_decide (eri = EriIncluded).
Definition same_inclusion (eri eri' : ERangeInclusion) : bool := bool_decide (eri = eri').

(** The constructor from two ends, with its assert. *)
Definition CRange_New (pdatumLeft : option D) (eriLeft : ERangeInclusion) (pdatumRight : option D)
    (eriRight : ERangeInclusion) : option (CRange D) :=
  match pdatumLeft, pdatumRight with
  | Some l, Some r =>
      if pcomp_IsLessThanOrEqual l r then Some (MkRange pdatumLeft eriLeft pdatumRight eriRight) else None
  | _, _ => Some (MkRange pdatumLeft eriLeft pdatumRight eriRight)
  end.

(** The constructor from a comparison with a datum. *)
Definition CRange_Cmp (cmp_type : ECmpType) (datum : D) : CRange D :=
  match cmp_type with
  | EcmptEq => MkRange (Some datum) EriIncluded (Some datum) EriIncluded
  | EcmptL => MkRange None EriExcluded (Some datum) EriExcluded
  | EcmptLEq => MkRange None EriExcluded (Some datum) EriIncluded
  | EcmptG => MkRange (Some datum) EriExcluded None EriExcluded
  | EcmptGEq => MkRange (Some datum) EriIncluded None EriExcluded
  | _ => MkRange None EriExcluded None EriExcluded
  end.

Definition Range_IsConstraintUnbounded this : bool :=
  match m_pdatumLeft this, m_pdatumRight this with None, None => true | _, _ => false end.

Definition FDisjointLeft this prange : bool :=
  match m_pdatumRight this, m_pdatumLeft prange with
  | Some r, Some l =>
      if pcomp_IsLessThan r l then true
      else if pcomp_Equals r l
      then negb (included (m_eriRight this)) || negb (included (m_eriLeft prange))
      else false
  | _, _ => false
  end.

Definition FStartsBefore this prange : bool :=
  match m_pdatumLeft prange with
  | None => match m_pdatumLeft this with None => true | Some _ => false end
  | Some l =>
      match m_pdatumLeft this with
      | None => true
      | Some mine =>
          if pcomp_IsLessThan mine l then true
          else if pcomp_IsGreaterThan mine l then false
          else included (m_eriLeft this) && negb (included (m_eriLeft prange))
      end
  end.

Definition FEndsAfter this prange : bool :=
  match m_pdatumRight prange with
  | None => match m_pdatumRight this with None => true | Some _ => false end
  | Some r =>
      match m_pdatumRight this with
      | None => true
      | Some mine =>
          if pcomp_IsGreaterThan mine r then true
          else if pcomp_IsLessThan mine r then false
          else included (m_eriRight this) && negb (included (m_eriRight prange))
      end
  end.

Definition FStartsWithOrBefore this prange : bool :=
  if FStartsBefore this prange then true
  else match m_pdatumLeft prange, m_pdatumLeft this with
       | None, None => true
       | Some l, Some mine => pcomp_Equals mine l && same_inclusion (m_eriLeft this) (m_eriLeft prange)
       | _, _ => false
       end.

Definition FEndsWithOrAfter this prange : bool :=
  if FEndsAfter this prange then true
  else match m_pdatumRight prange, m_pdatumRight this with
       | None, None => true
       | Some r, Some mine => pcomp_Equals mine r && same_inclusion (m_eriRight this) (m_eriRight prange)
       | _, _ => false
       end.

Definition Range_Contains this prange : bool := FStartsWithOrBefore this prange && FEndsWithOrAfter this prange.

Definition FOverlapsLeft this prange : bool :=
  FStartsBefore this prange && negb (FEndsAfter this prange) && negb (FDisjointLeft this prange).

Definition FOverlapsRight this prange : bool :=
  FEndsAfter this prange && negb (FStartsBefore this prange) && negb (FDisjointLeft prange this).

Definition FUpperBoundEqualsLowerBound this prange : bool :=
  match m_pdatumLeft prange, m_pdatumRight this with
  | None, None => true
  | Some l, Some r => pcomp_Equals r l
  | _, _ => false
  end.

(** The outer [None]: a null datum pointer passed to the comparator. *)
Definition FPoint this : option bool :=
  if included (m_eriLeft this) && included (m_eriRight this)
  then r ← m_pdatumRight this; l ← m_pdatumLeft this; Some (pcomp_Equals r l)
  else Some false.

(** The inner [None] is the empty intersection. *)
Definition PrngIntersect this prange : option (option (CRange D)) :=
  if Range_Contains this prange then Some (Some prange)
  else if Range_Contains prange this then Some (Some this)
  else if FOverlapsLeft this prange then
    l ← m_pdatumLeft prange;
    r ← m_pdatumRight this;
    Some <$> CRange_New (Some l) (m_eriLeft prange) (Some r) (m_eriRight this)
  else if FOverlapsRight this prange then
    r ← m_pdatumRight prange;
    l ← m_pdatumLeft this;
    Some <$> CRange_New (Some l) (m_eriLeft this) (Some r) (m_eriRight prange)
  else Some None.

Definition PrngDifferenceLeft this prange : option (option (CRange D)) :=
  if FDisjointLeft this prange then Some (Some this)
  else match m_pdatumLeft prange with
       | Some l =>
           if FStartsBefore this prange
           then Some <$> CRange_New (m_pdatumLeft this) (m_eriLeft this) (Some l) (EriInverseInclusion (m_eriLeft prange))
           else Some None
       | None => Some None
       end.

Definition PrngDifferenceRight this prange : option (option (CRange D)) :=
  if FDisjointLeft prange this then Some (Some this)
  else match m_pdatumRight prange with
       | Some r =>
           if FEndsAfter this prange
           then Some <$> CRange_New (Some r) (EriInverseInclusion (m_eriRight prange)) (m_pdatumRight this) (m_eriRight this)
           else Some None
       | None => Some None
       end.

Definition PrngExtend this prange : option (option (CRange D)) :=
  if included (m_eriLeft prange) || included (m_eriRight this) then
    l ← m_pdatumLeft prange;
    r ← m_pdatumRight this;
    if pcomp_Equals l r
    then Some <$> CRange_New (m_pdatumLeft this) (m_eriLeft this) (m_pdatumRight prange) (m_eriRight prange)
    else Some None
  else Some None.

End range.

(** ** Cuts *)

(** A place in the line of values: just before a datum (0), at it (1), just after
    it (2), or an end of the line. *)
Inductive cut (D : Type) : Type :=
  | NegInf
  | At (d : D) (k : nat)
  | PosInf.
Arguments NegInf {D}.
Arguments At {D}.
Arguments PosInf {D}.

Section cuts.
Context {D : Type} `{HL : DatumLaws D}.
Implicit Types (a b c : cut D) (r p q : CRange D) (d e : D).

Definition cut_leb a b : bool :=
  match a, b with
  | NegInf, _ => true
  | _, PosInf => true
  | At d k, At e l => pcomp_IsLessThan d e || (pcomp_Equals d e && (k <=? l)%nat)
  | _, _ => false
  end.

Lemma Equals_sym_b d e : pcomp_Equals d e = pcomp_Equals e d.
Proof. apply bool_iff_eq. split; apply (Equivalence_Symmetric (Equivalence := Equals_equiv)). Qed.

Lemma Equals_refl_b d : pcomp_Equals d d = true.
Proof. by apply (Equivalence_Reflexive (Equivalence := Equals_equiv)). Qed.

Lemma Equals_trans_b d e f : pcomp_Equals d e = true -> pcomp_Equals e f = true -> pcomp_Equals d f = true.
Proof. apply (Equivalence_Transitive (Equivalence := Equals_equiv)). Qed.

(** Of two data one is less, or they are equal, and nothing else. *)
Lemma datum_compare d e :
  (pcomp_IsLessThan d e = true /\ pcomp_Equals d e = false /\ pcomp_IsLessThan e d = false) \/
  (pcomp_IsLessThan d e = false /\ pcomp_Equals d e = true /\ pcomp_IsLessThan e d = false) \/
  (pcomp_IsLessThan d e = false /\ pcomp_Equals d e = false /\ pcomp_IsLessThan e d = true).
Proof.
  assert (forall x y, pcomp_IsLessThan x y = true -> pcomp_Equals x y = false /\ pcomp_IsLessThan y x = false) as Hlt.
  { intros x y Hxy. split; apply not_true_iff_false; intros Hyx.
    - rewrite Equals_sym_b in Hyx. pose proof (IsLessThan_Equals _ _ _ Hxy Hyx) as Hxx. by rewrite IsLessThan_irrefl in Hxx.
    - pose proof (IsLessThan_trans _ _ _ Hxy Hyx) as Hxx. by rewrite IsLessThan_irrefl in Hxx. }
  destruct (comparable d e) as [Hde|[Hde|Hed]].
  - left. destruct (Hlt _ _ Hde). done.
  - right. left. split; [|split; [done|]]; apply not_true_iff_false; intros Hx; destruct (Hlt _ _ Hx) as [Hne _].
    + congruence.
    + rewrite Equals_sym_b in Hne. congruence.
  - right. right. destruct (Hlt _ _ Hed) as [Hne ?]. rewrite Equals_sym_b in Hne. done.
Qed.

(** Data of type bool compare as their values do. *)
Lemma bool_compare d e x y : bool_value d = Some x -> bool_value e = Some y ->
  pcomp_IsLessThan d e = negb x && y /\ pcomp_Equals d e = Bool.eqb x y.
Proof.
  intros Hd%bool_value_Equals He%bool_value_Equals. pose proof false_IsLessThan_true as Hft.
  assert (pcomp_Equals (CreateBoolDatum y) e = true) as He' by by rewrite Equals_sym_b.
  destruct x, y; simpl.
  - pose proof (Equals_trans_b _ _ _ Hd He') as Hde.
    destruct (datum_compare d e) as [(_ & ? & _)|[(? & ? & _)|(_ & ? & _)]]; [congruence|done|congruence].
  - assert (pcomp_Equals (CreateBoolDatum true) d = true) as Hd' by by rewrite Equals_sym_b.
    pose proof (IsLessThan_Equals _ _ _ (Equals_IsLessThan _ _ _ He Hft) Hd') as Hed.
    destruct (datum_compare d e) as [(_ & _ & ?)|[(_ & _ & ?)|(? & ? & _)]]; [congruence|congruence|done].
  - pose proof (IsLessThan_Equals _ _ _ (Equals_IsLessThan _ _ _ Hd Hft) He') as Hde.
    destruct (datum_compare d e) as [(? & ? & _)|[(? & _)|(? & _)]]; [done|congruence|congruence].
  - pose proof (Equals_trans_b _ _ _ Hd He') as Hde.
    destruct (datum_compare d e) as [(_ & ? & _)|[(? & ? & _)|(_ & ? & _)]]; [congruence|done|congruence].
Qed.

Lemma cut_leb_refl a : cut_leb a a = true.
Proof. destruct a as [|d k|]; [done| |done]. simpl. rewrite Equals_refl_b, Nat.leb_refl. by rewrite orb_comm. Qed.

Lemma cut_leb_trans a b c : cut_leb a b = true -> cut_leb b c = true -> cut_leb a c = true.
Proof.
  destruct a as [|d k|], b as [|e l|], c as [|f m|]; simpl; try done.
  rewrite !orb_true_iff, !andb_true_iff, !Nat.leb_le.
  intros [Hde|[Hde Hk]] [Hef|[Hef Hl]].
  - left. by apply (IsLessThan_trans d e).
  - left. by apply (IsLessThan_Equals d e).
  - left. by apply (Equals_IsLessThan d e).
  - right. split; [by apply (Equals_trans_b d e)|lia].
Qed.

Lemma cut_leb_total a b : cut_leb a b = false -> cut_leb b a = true.
Proof.
  destruct a as [|d k|], b as [|e l|]; simpl; try done.
  rewrite orb_false_iff, andb_false_iff, Nat.leb_gt. intros [Hde Hk].
  destruct (datum_compare d e) as [(? & _ & _)|[(_ & Heq & _)|(_ & _ & ->)]]; [congruence| |done].
  rewrite Equals_sym_b, Heq. destruct Hk as [|Hk]; [congruence|]. apply orb_true_iff. right.
  apply andb_true_iff. split; [done|]. apply Nat.leb_le. lia.
Qed.

(** The rank of a cut among finitely many. *)
Definition rank (l : list (cut D)) a : nat := length (filter (fun b => cut_leb a b = false) l).

Lemma rank_leb l a b : b ∈ l -> cut_leb a b = (rank l a <=? rank l b)%nat.
Proof.
  intros Hb. unfold rank. destruct (cut_leb a b) eqn:Hab; symmetry.
  - apply Nat.leb_le. clear Hb. induction l as [|c l IH]; [done|]. rewrite !filter_cons.
    destruct (decide (cut_leb a c = false)) as [Hac|], (decide (cut_leb b c = false)) as [|Hbc]; simpl; try lia.
    apply not_false_iff_true in Hbc. rewrite (cut_leb_trans a b c) in Hac; done.
  - apply Nat.leb_gt. pose proof (cut_leb_total _ _ Hab) as Hba.
    assert (forall c, cut_leb b c = false -> cut_leb a c = false) as Hmono.
    { intros c Hc. apply not_true_iff_false. intros Hac. apply not_true_iff_false in Hc. apply Hc.
      by apply (cut_leb_trans b a c). }
    assert (forall m, (length (filter (fun c => cut_leb b c = false) m) <=
                       length (filter (fun c => cut_leb a c = false) m))%nat) as Hle.
    { induction m as [|c m IH]; [done|]. rewrite !filter_cons.
      destruct (decide (cut_leb a c = false)), (decide (cut_leb b c = false)); simpl; try lia. by destruct n; apply Hmono. }
    induction Hb as [b m|b c m Hb IH]; rewrite !filter_cons.
    + rewrite decide_False by (rewrite cut_leb_refl; done). rewrite decide_True by done. simpl. specialize (Hle m). lia.
    + specialize (IH Hab Hba Hmono Hle).
      destruct (decide (cut_leb a c = false)), (decide (cut_leb b c = false)); simpl; try lia. by destruct n; apply Hmono.
Qed.

(** A copy of [cut_leb], to mark what was collected. *)
Definition cut_leb' := cut_leb.

Lemma cut_mark a b : cut_leb a b = cut_leb' a b.
Proof. done. Qed.

Lemma cut_embed (l : list (cut D)) : exists f : cut D -> nat, forall a b, b ∈ l -> cut_leb' a b = (f a <=? f b)%nat.
Proof. exists (rank l). intros a b. apply rank_leb. Qed.

End cuts.

Ltac cut_member := first [left | right; cut_member].

Ltac cut_order_with l :=
  lazymatch goal with
  | |- context [@cut_leb ?D ?HD ?a ?b] =>
      rewrite (@cut_mark D HD a b); cut_order_with (b :: l)
  | _ =>
      let f := fresh "f" in let Hf := fresh "Hf" in
      destruct (cut_embed l) as [f Hf];
      repeat match goal with |- context [cut_leb' ?a ?b] => rewrite (Hf a b) by cut_member end;
      clear Hf; intros
  end.

(** Solves goals on the order of finitely many cuts. *)
Ltac cut_lia :=
  repeat match goal with H : context [cut_leb _ _] |- _ => revert H end;
  match goal with |- context [@cut_leb ?D _ _ _] => cut_order_with (@nil (cut D)) end; lia.

(** ** Ends as cuts *)

Section ends.
Context {D : Type} `{HL : DatumLaws D}.
Implicit Types (r p q : CRange D) (v : D).

Definition lo r : cut D :=
  match m_pdatumLeft r with None => NegInf | Some d => At d (if included (m_eriLeft r) then 0 else 2) end.
Definition hi r : cut D :=
  match m_pdatumRight r with None => PosInf | Some d => At d (if included (m_eriRight r) then 2 else 0) end.

(** The values of a range. *)
Definition in_range v r : bool := cut_leb (lo r) (At v 1) && negb (cut_leb (hi r) (At v 1)).

(** A range with a place for a value; infinite ends are excluded, and the others
    are data of the type of the column. *)
Record range_wf (valid : D -> Prop) r : Prop := {
  rw_proper : cut_leb (hi r) (lo r) = false;
  rw_left : m_pdatumLeft r = None -> m_eriLeft r = EriExcluded;
  rw_right : m_pdatumRight r = None -> m_eriRight r = EriExcluded;
  rw_left_valid d : m_pdatumLeft r = Some d -> valid d;
  rw_right_valid d : m_pdatumRight r = Some d -> valid d;
}.

(** Cases on how two data compare. *)
Ltac compare_data d e :=
  destruct (datum_compare d e) as [(?H & ?H & ?H)|[(?H & ?H & ?H)|(?H & ?H & ?H)]];
  repeat match goal with
  | H : pcomp_IsLessThan _ _ = _ |- _ => rewrite ?H in *; clear H
  | H : pcomp_Equals ?a ?b = _ |- _ => try rewrite (Equals_sym_b b a) in *; rewrite ?H in *; clear H
  end.

Lemma FDisjointLeft_cut r p : FDisjointLeft r p = cut_leb (hi r) (lo p).
Proof.
  destruct r as [rl rel [ru|] reu], p as [[pl|] pel pu peu]; unfold FDisjointLeft, hi, lo; simpl; try done.
  destruct reu, pel; unfold included; simpl; compare_data ru pl; done.
Qed.

Lemma FStartsBefore_cut r p :
  FStartsBefore r p = negb (cut_leb (lo p) (lo r)) || bool_decide (m_pdatumLeft r = None /\ m_pdatumLeft p = None).
Proof.
  destruct r as [[rl|] rel ru reu], p as [[pl|] pel pu peu]; unfold FStartsBefore, lo; simpl; try done.
  - rewrite IsGreaterThan_swap, orb_false_r.
    destruct rel, pel; unfold included; simpl; compare_data rl pl; done.
Qed.

Lemma FEndsAfter_cut r p :
  FEndsAfter r p = negb (cut_leb (hi r) (hi p)) || bool_decide (m_pdatumRight r = None /\ m_pdatumRight p = None).
Proof.
  destruct r as [rl rel [ru|] reu], p as [pl pel [pu|] peu]; unfold FEndsAfter, hi; simpl; try done.
  - rewrite IsGreaterThan_swap, orb_false_r.
    destruct reu, peu; unfold included; simpl; compare_data ru pu; done.
Qed.

Lemma FStartsWithOrBefore_cut r p : FStartsWithOrBefore r p = cut_leb (lo r) (lo p).
Proof.
  unfold FStartsWithOrBefore. rewrite FStartsBefore_cut.
  destruct r as [[rl|] rel ru reu], p as [[pl|] pel pu peu]; unfold lo; simpl; try done.
  rewrite orb_false_r.
  destruct rel, pel; unfold included, same_inclusion; simpl; compare_data rl pl; done.
Qed.

Lemma FEndsWithOrAfter_cut r p : FEndsWithOrAfter r p = cut_leb (hi p) (hi r).
Proof.
  unfold FEndsWithOrAfter. rewrite FEndsAfter_cut.
  destruct r as [rl rel [ru|] reu], p as [pl pel [pu|] peu]; unfold hi; simpl; try done.
  rewrite orb_false_r.
  destruct reu, peu; unfold included, same_inclusion; simpl; compare_data ru pu; done.
Qed.

Lemma Contains_cut r p : Range_Contains r p = cut_leb (lo r) (lo p) && cut_leb (hi p) (hi r).
Proof. unfold Range_Contains. by rewrite FStartsWithOrBefore_cut, FEndsWithOrAfter_cut. Qed.

Lemma no_left_lo r : m_pdatumLeft r = None -> lo r = NegInf.
Proof. unfold lo. by intros ->. Qed.

Lemma no_right_hi r : m_pdatumRight r = None -> hi r = PosInf.
Proof. unfold hi. by intros ->. Qed.

(** The end on the left of a range, as the end on the right of what lies before it. *)
Lemma inverse_left l el u eu pl pel pu peu : pl <> None ->
  hi (MkRange l el pl (EriInverseInclusion pel)) = lo (MkRange pl pel pu peu) /\
  lo (MkRange pu (EriInverseInclusion peu) u eu) = match pu with Some _ => hi (MkRange pl pel pu peu) | None => NegInf end.
Proof. destruct pl as [pl|]; [intros _|done]. by destruct pu, pel, peu. Qed.

(** The constructor makes a range whose ends are in order. *)
Lemma CRange_New_ok l el u eu : cut_leb (hi (MkRange l el u eu)) (lo (MkRange l el u eu)) = false ->
  CRange_New l el u eu = Some (MkRange l el u eu).
Proof.
  unfold CRange_New, lo, hi. simpl. destruct l as [l|], u as [u|]; try done.
  rewrite IsLessThanOrEqual_or. destruct el, eu; unfold included; simpl; compare_data l u; done.
Qed.

End ends.

(** ** What the operations do *)

#[local] Arguments CRange_New : simpl never.

Section range_ops.
Context {D : Type} `{HL : DatumLaws D} (valid : D -> Prop).
Implicit Types (r p q : CRange D) (v : D).

Lemma left_infinite r : m_pdatumLeft r = None <-> lo r = NegInf.
Proof. unfold lo. by destruct (m_pdatumLeft r). Qed.

Lemma right_infinite r : m_pdatumRight r = None <-> hi r = PosInf.
Proof. unfold hi. by destruct (m_pdatumRight r). Qed.

Lemma NegInf_least (a : cut D) : cut_leb NegInf a = true.
Proof. done. Qed.

Lemma PosInf_greatest (a : cut D) : cut_leb a PosInf = true.
Proof. by destruct a. Qed.

(** The part before a range of what starts before it. *)
Definition before l el p : CRange D := MkRange l el (m_pdatumLeft p) (EriInverseInclusion (m_eriLeft p)).
(** The part after a range of what ends after it. *)
Definition beyond p u eu : CRange D := MkRange (m_pdatumRight p) (EriInverseInclusion (m_eriRight p)) u eu.

Lemma hi_before l el p : m_pdatumLeft p <> None -> hi (before l el p) = lo p.
Proof. unfold before, hi, lo. simpl. destruct (m_pdatumLeft p), (m_eriLeft p); done. Qed.

Lemma lo_beyond p u eu : m_pdatumRight p <> None -> lo (beyond p u eu) = hi p.
Proof. unfold beyond, hi, lo. simpl. destruct (m_pdatumRight p), (m_eriRight p); done. Qed.

Lemma before_wf r p : range_wf valid r -> range_wf valid p -> m_pdatumLeft p <> None ->
  cut_leb (lo p) (lo r) = false -> range_wf valid (before (m_pdatumLeft r) (m_eriLeft r) p).
Proof.
  intros Hr Hp Hne Hlt. split; try apply Hr.
  - by rewrite hi_before.
  - done.
  - apply Hp.
Qed.

Lemma beyond_wf r p : range_wf valid r -> range_wf valid p -> m_pdatumRight p <> None ->
  cut_leb (hi r) (hi p) = false -> range_wf valid (beyond p (m_pdatumRight r) (m_eriRight r)).
Proof.
  intros Hr Hp Hne Hlt. split; try apply Hr.
  - by rewrite lo_beyond.
  - done.
  - apply Hp.
Qed.

Lemma FStartsBefore_proper r p : m_pdatumLeft p <> None -> FStartsBefore r p = negb (cut_leb (lo p) (lo r)).
Proof. intros Hp. rewrite FStartsBefore_cut, bool_decide_eq_false_2 by (by intros []). by rewrite orb_false_r. Qed.

Lemma FEndsAfter_proper r p : m_pdatumRight p <> None -> FEndsAfter r p = negb (cut_leb (hi r) (hi p)).
Proof. intros Hp. rewrite FEndsAfter_cut, bool_decide_eq_false_2 by (by intros []). by rewrite orb_false_r. Qed.

(** What is left of [r] before [p]. *)
Definition left_part r p (o : option (CRange D)) : Prop :=
  match o with
  | Some q => range_wf valid q /\ lo q = lo r /\
      (hi q = hi r /\ cut_leb (hi r) (lo p) = true \/ hi q = lo p /\ cut_leb (hi r) (lo p) = false)
  | None => cut_leb (lo p) (lo r) = true
  end.

Lemma PrngDifferenceLeft_spec r p : range_wf valid r -> range_wf valid p ->
  exists o, PrngDifferenceLeft r p = Some o /\ left_part r p o.
Proof.
  intros Hr Hp. unfold PrngDifferenceLeft. rewrite FDisjointLeft_cut.
  destruct (cut_leb (hi r) (lo p)) eqn:Hd; [exists (Some r); by repeat split; try apply Hr; left|].
  destruct (m_pdatumLeft p) as [l|] eqn:Hl.
  2: { exists None. split; [done|]. simpl. by rewrite (no_left_lo p Hl). }
  rewrite FStartsBefore_proper by congruence. destruct (cut_leb (lo p) (lo r)) eqn:Hs; [by exists None|].
  assert (m_pdatumLeft p <> None) as Hne by congruence.
  pose proof (before_wf r p Hr Hp Hne Hs) as Hwf. rewrite <- Hl.
  change (CRange_New _ _ _ _) with (CRange_New (m_pdatumLeft r) (m_eriLeft r) (m_pdatumLeft p) (EriInverseInclusion (m_eriLeft p))).
  rewrite CRange_New_ok by apply Hwf. simpl. eexists. split; [done|]. split; [done|]. split; [done|].
  right. split; [by apply hi_before|done].
Qed.

(** What is left of [r] beyond [p]. *)
Definition right_part r p (o : option (CRange D)) : Prop :=
  match o with
  | Some q => range_wf valid q /\ hi q = hi r /\
      (lo q = lo r /\ cut_leb (hi p) (lo r) = true \/ lo q = hi p /\ cut_leb (hi p) (lo r) = false)
  | None => cut_leb (hi r) (hi p) = true
  end.

Lemma PrngDifferenceRight_spec r p : range_wf valid r -> range_wf valid p ->
  exists o, PrngDifferenceRight r p = Some o /\ right_part r p o.
Proof.
  intros Hr Hp. unfold PrngDifferenceRight. rewrite FDisjointLeft_cut.
  destruct (cut_leb (hi p) (lo r)) eqn:Hd; [exists (Some r); by repeat split; try apply Hr; left|].
  destruct (m_pdatumRight p) as [u|] eqn:Hu.
  2: { exists None. split; [done|]. simpl. rewrite (no_right_hi p Hu). apply PosInf_greatest. }
  rewrite FEndsAfter_proper by congruence. destruct (cut_leb (hi r) (hi p)) eqn:Hs; [by exists None|].
  assert (m_pdatumRight p <> None) as Hne by congruence.
  pose proof (beyond_wf r p Hr Hp Hne Hs) as Hwf. rewrite <- Hu.
  rewrite CRange_New_ok by apply Hwf. simpl. eexists. split; [done|]. split; [done|]. split; [done|].
  right. split; [by apply lo_beyond|done].
Qed.

(** The common part. *)
Definition common_part r p (o : option (CRange D)) : Prop :=
  match o with
  | Some q => range_wf valid q /\ (lo q = lo r \/ lo q = lo p) /\ (hi q = hi r \/ hi q = hi p) /\
      cut_leb (lo r) (lo q) = true /\ cut_leb (lo p) (lo q) = true /\
      cut_leb (hi q) (hi r) = true /\ cut_leb (hi q) (hi p) = true
  | None => cut_leb (hi r) (lo p) = true \/ cut_leb (hi p) (lo r) = true
  end.

(** Two ranges that overlap, the first one to the left. *)
Lemma overlap_part r p : range_wf valid r -> range_wf valid p ->
  cut_leb (lo p) (lo r) = false -> cut_leb (hi p) (hi r) = false -> cut_leb (hi r) (lo p) = false ->
  exists l u, m_pdatumLeft p = Some l /\ m_pdatumRight r = Some u /\
    exists q, CRange_New (Some l) (m_eriLeft p) (Some u) (m_eriRight r) = Some q /\
      range_wf valid q /\ lo q = lo p /\ hi q = hi r.
Proof.
  intros Hr Hp Hs He Hd.
  destruct (m_pdatumLeft p) as [l|] eqn:Hl; [|by rewrite (no_left_lo p Hl) in Hs].
  destruct (m_pdatumRight r) as [u|] eqn:Hu.
  2: { rewrite (no_right_hi r Hu), PosInf_greatest in He. done. }
  exists l, u. do 2 (split; [done|]). eexists. split.
  - apply CRange_New_ok. transitivity (cut_leb (hi r) (lo p)); [|done]. unfold hi, lo. simpl. by rewrite Hl, Hu.
  - split; [|unfold hi, lo; simpl; by rewrite Hl, Hu]. split; simpl; try done.
    + transitivity (cut_leb (hi r) (lo p)); [|done]. unfold hi, lo. simpl. by rewrite Hl, Hu.
    + intros d [= <-]. by apply (rw_left_valid _ _ Hp).
    + intros d [= <-]. by apply (rw_right_valid _ _ Hr).
Qed.

Lemma FStartsBefore_leb r p : cut_leb (if FStartsBefore r p then lo r else lo p) (if FStartsBefore r p then lo p else lo r) = true.
Proof.
  rewrite FStartsBefore_cut. case_bool_decide as Hd; [|rewrite orb_false_r].
  - destruct Hd as [Hr%no_left_lo Hp%no_left_lo]. rewrite orb_true_r. by rewrite Hr.
  - destruct (cut_leb (lo p) (lo r)) eqn:Hc; simpl; [done|]. by apply cut_leb_total.
Qed.

Lemma FEndsAfter_leb r p : cut_leb (if FEndsAfter r p then hi p else hi r) (if FEndsAfter r p then hi r else hi p) = true.
Proof.
  rewrite FEndsAfter_cut. case_bool_decide as Hd; [|rewrite orb_false_r].
  - destruct Hd as [Hr%no_right_hi Hp%no_right_hi]. rewrite orb_true_r. by rewrite Hr, PosInf_greatest.
  - destruct (cut_leb (hi r) (hi p)) eqn:Hc; simpl; [done|]. by apply cut_leb_total.
Qed.

Lemma PrngIntersect_spec r p : range_wf valid r -> range_wf valid p ->
  exists o, PrngIntersect r p = Some o /\ common_part r p o.
Proof.
  intros Hr Hp. unfold PrngIntersect. rewrite !Contains_cut.
  destruct (cut_leb (lo r) (lo p) && cut_leb (hi p) (hi r)) eqn:Hc1.
  { exists (Some p). split; [done|]. simpl. rewrite !cut_leb_refl. breflect. by repeat split; auto; apply Hp. }
  destruct (cut_leb (lo p) (lo r) && cut_leb (hi r) (hi p)) eqn:Hc2.
  { exists (Some r). split; [done|]. simpl. rewrite !cut_leb_refl. breflect. by repeat split; auto; apply Hr. }
  unfold FOverlapsLeft, FOverlapsRight. rewrite !FDisjointLeft_cut.
  pose proof (FStartsBefore_leb r p) as Hs. pose proof (FEndsAfter_leb r p) as He.
  destruct (FStartsBefore r p), (FEndsAfter r p); simpl; rewrite ?andb_false_r.
  - rewrite Hs, He in Hc1. done.
  - rewrite Hs in Hc1. rewrite He, andb_true_r in Hc2. simpl in Hc1.
    destruct (cut_leb (hi r) (lo p)) eqn:Hd; simpl; [exists None; split; [done|]; simpl; by auto|].
    destruct (overlap_part r p Hr Hp Hc2 Hc1 Hd) as (l & u & -> & -> & q & HN & Hq & Hlo & Hhi). simpl. rewrite HN.
    exists (Some q). split; [done|]. simpl. rewrite Hlo, Hhi, !cut_leb_refl. by repeat split; auto; apply Hq.
  - rewrite He, andb_true_r in Hc1. rewrite Hs in Hc2. simpl in Hc2.
    destruct (cut_leb (hi p) (lo r)) eqn:Hd; simpl; [exists None; split; [done|]; simpl; by auto|].
    destruct (overlap_part p r Hp Hr Hc1 Hc2 Hd) as (l & u & Hl & Hu & q & HN & Hq & Hlo & Hhi).
    rewrite Hu, Hl. simpl. rewrite HN.
    exists (Some q). split; [done|]. simpl. rewrite Hlo, Hhi, !cut_leb_refl. by repeat split; auto; apply Hq.
  - by rewrite Hs, He in Hc2.
Qed.

(** Two ranges that touch become one. *)
Definition extension r p (o : option (CRange D)) : Prop :=
  match o with
  | Some q => range_wf valid q /\ lo q = lo r /\ hi q = hi p /\ cut_leb (lo p) (hi r) = true
  | None => cut_leb (lo p) (hi r) = false
  end.

Lemma PrngExtend_spec r p : range_wf valid r -> range_wf valid p -> cut_leb (hi r) (lo p) = true ->
  exists o, PrngExtend r p = Some o /\ extension r p o.
Proof.
  intros Hr Hp Hrp. unfold PrngExtend.
  destruct (m_pdatumLeft p) as [l|] eqn:Hl.
  2: { pose proof (rw_proper _ _ Hr) as Hproper. rewrite (no_left_lo p Hl) in Hrp. exfalso.
       pose proof (cut_leb_trans _ _ (lo r) Hrp (NegInf_least _)). congruence. }
  destruct (m_pdatumRight r) as [u|] eqn:Hu.
  2: { pose proof (rw_proper _ _ Hp) as Hproper. rewrite (no_right_hi r Hu) in Hrp. exfalso.
       pose proof (cut_leb_trans _ _ _ (PosInf_greatest (hi p)) Hrp). congruence. }
  assert (cut_leb (lo p) (hi r) = pcomp_IsLessThan l u ||
            (pcomp_Equals l u && (included (m_eriLeft p) || included (m_eriRight r)))) as Htouch.
  { unfold lo, hi. rewrite Hl, Hu. simpl. by destruct (m_eriLeft p), (m_eriRight r). }
  assert (pcomp_IsLessThan l u = false) as Hlt.
  { unfold lo, hi in Hrp. rewrite Hl, Hu in Hrp. simpl in Hrp. apply not_true_iff_false. intros Hlu.
    destruct (datum_compare l u) as [(_ & He & Hul)|[(? & _ & _)|(? & _ & _)]]; [|congruence..].
    rewrite Hul, Equals_sym_b, He in Hrp. done. }
  rewrite Hlt in Htouch. simpl in Htouch.
  destruct (included (m_eriLeft p) || included (m_eriRight r)); simpl.
  2: { exists None. split; [done|]. simpl. by rewrite Htouch, andb_false_r. }
  rewrite andb_true_r in Htouch. destruct (pcomp_Equals l u) eqn:He; [|by exists None].
  assert (range_wf valid (MkRange (m_pdatumLeft r) (m_eriLeft r) (m_pdatumRight p) (m_eriRight p))) as Hq.
  { split; simpl; try apply Hr; try apply Hp. pose proof (rw_proper _ _ Hr). pose proof (rw_proper _ _ Hp).
    change (cut_leb (hi p) (lo r) = false). cut_lia. }
  rewrite CRange_New_ok by apply Hq. simpl. eexists. split; [done|]. by split.
Qed.

Lemma CRange_Cmp_wf cmp_type d : valid d -> range_wf valid (CRange_Cmp cmp_type d).
Proof.
  intros Hd. destruct cmp_type; split; simpl; try done; intros; simplify_eq; try done.
  unfold hi, lo. simpl. rewrite IsLessThan_irrefl. by rewrite andb_false_r.
Qed.

(** The values of a range made from a comparison. *)
Definition compares (cmp_type : ECmpType) (v d : D) : bool :=
  match cmp_type with
  | EcmptEq => pcomp_Equals v d
  | EcmptNEq => negb (pcomp_Equals v d)
  | EcmptL => pcomp_IsLessThan v d
  | EcmptLEq => pcomp_IsLessThanOrEqual v d
  | EcmptG => pcomp_IsGreaterThan v d
  | EcmptGEq => negb (pcomp_IsLessThan v d)
  | EcmptIDF | EcmptOther => true
  end.

Lemma CRange_Cmp_values cmp_type v d : cmp_type <> EcmptNEq ->
  in_range v (CRange_Cmp cmp_type d) = compares cmp_type v d.
Proof.
  intros Hne. destruct cmp_type; try done; unfold in_range, hi, lo; simpl;
    rewrite ?IsGreaterThan_swap, ?IsLessThanOrEqual_or, ?(Equals_sym_b d v);
    destruct (datum_compare v d) as [(Hl & He & Hg)|[(Hl & He & Hg)|(Hl & He & Hg)]]; rewrite ?Hl, ?He, ?Hg; done.
Qed.

End range_ops.
