(* ===== verification/Interval.v ===== *)
(** * CConstraintInterval: sets of values of a column

    Model of the interval algebra of libgpopt/src/base/CConstraintInterval.cpp: an
    interval is a sorted array of ranges with a flag for null; intersection,
    union, difference and complement walk over the two arrays at once.  The
    theorems say that the operations are those on sets of values, and keep the
    arrays sorted, with a gap between any two ranges. *)

From S2P Require Import Prelude Range.
From Stdlib Require Import Lia ZifyBool QArith Lqa.

(** ** Data *)

(** A column: its identity, whether its type is bool, and whether constraints
    are derived for its type ([CUtils::FConstrainableType]). *)
Record CColRef := MkColRef {
  colref_id : N;
  colref_is_bool : bool;
  colref_constrainable : bool;
}.
#[export] Instance CColRef_eq_dec : EqDecision CColRef.
Proof. solve_decision. Defined.

Record CConstraintInterval (D : Type) := MkInterval {
  m_pcr : CColRef;
  m_pdrgprng : list (CRange D);
  m_fIncludesNull : bool;
}.
Arguments MkInterval {D}.
Arguments m_pcr {D}.
Arguments m_pdrgprng {D}.
Arguments m_fIncludesNull {D}.

(** ** Operations *)

Section interval.
Context {D : Type} `{HD : IDatum D}.
Implicit Types (this pci : CConstraintInterval D) (prange : CRange D).

Definition is_Some_b {A} (o : option A) : bool := match o with Some _ => true | None => false end.

Definition FContradiction this : bool :=
  if negb (m_fIncludesNull this) && (N.of_nat (length (m_pdrgprng this)) =? 0)%N then true
  else if colref_is_bool (m_pcr this) && negb (m_fIncludesNull this) then
    match m_pdrgprng this with
    | [r] => negb (included (m_eriLeft r)) && negb (included (m_eriRight r)) &&
             is_Some_b (m_pdatumLeft r) && is_Some_b (m_pdatumRight r)
    | _ => false
    end
  else false.

Definition Interval_IsConstraintUnbounded this : bool :=
  m_fIncludesNull this &&
  match m_pdrgprng this with [r] => Range_IsConstraintUnbounded r | _ => false end.

(** The array with the range appended, or with its last range extended. *)
Definition AppendOrExtend (pdrgprng : list (CRange D)) (o : option (CRange D)) : option (list (CRange D)) :=
  match o with
  | None => Some pdrgprng
  | Some prange =>
      match last pdrgprng with
      | None => Some (pdrgprng ++ [prange])
      | Some prangeLast =>
          prangeNew ← PrngExtend prangeLast prange;
          match prangeNew with
          | None => Some (pdrgprng ++ [prange])
          | Some q => Some (<[(length pdrgprng - 1)%nat := q]> pdrgprng)
          end
      end
  end.

(** Append to the new array of [PciIntersect]. *)
Definition append_new (pdrgprng : list (CRange D)) (o : option (CRange D)) : option (list (CRange D)) :=
  match o with None => Some pdrgprng | Some prange => Some (pdrgprng ++ [prange]) end.

Fixpoint AddRemainingRanges (pdrgprngSrc pdrgprngDest : list (CRange D)) : option (list (CRange D)) :=
  match pdrgprngSrc with
  | [] => Some pdrgprngDest
  | prange :: pdrgprngSrc =>
      pdrgprngDest ← AppendOrExtend pdrgprngDest (Some prange);
      AddRemainingRanges pdrgprngSrc pdrgprngDest
  end.

(** The loop of [PciIntersect] and [PciUnion]: of the first ranges of the two
    arrays the one that ends first is combined with the other and dropped.  The
    rests of the arrays are returned with the new one. *)
Section merge.
Context (combine : CRange D -> CRange D -> option (option (CRange D))).
Context (append : list (CRange D) -> option (CRange D) -> option (list (CRange D))).

Fixpoint merge_loop (fst : list (CRange D)) : list (CRange D) -> list (CRange D) ->
    option (list (CRange D) * list (CRange D) * list (CRange D)) :=
  fix inner (snd acc : list (CRange D)) :=
    match fst, snd with
    | prangeThis :: fst', prangeOther :: snd' =>
        if FEndsAfter prangeOther prangeThis then
          prangeNew ← combine prangeThis prangeOther;
          acc ← append acc prangeNew;
          merge_loop fst' snd acc
        else
          prangeNew ← combine prangeOther prangeThis;
          acc ← append acc prangeNew;
          inner snd' acc
    | _, _ => Some (acc, fst, snd)
    end.
End merge.

Definition PciIntersect this pci : option (CConstraintInterval D) :=
  if decide (m_pcr this = m_pcr pci) then
    '(pdrgprngNew, _, _) ← merge_loop PrngIntersect append_new (m_pdrgprng this) (m_pdrgprng pci) [];
    Some (MkInterval (m_pcr this) pdrgprngNew (m_fIncludesNull this && m_fIncludesNull pci))
  else None.

Definition PciUnion this pci : option (CConstraintInterval D) :=
  if decide (m_pcr this = m_pcr pci) then
    '(pdrgprngNew, fst, snd) ← merge_loop PrngDifferenceLeft AppendOrExtend (m_pdrgprng this) (m_pdrgprng pci) [];
    pdrgprngNew ← AddRemainingRanges fst pdrgprngNew;
    pdrgprngNew ← AddRemainingRanges snd pdrgprngNew;
    Some (MkInterval (m_pcr this) pdrgprngNew (m_fIncludesNull this || m_fIncludesNull pci))
  else None.

(** The result and the residual range. *)
Definition PrangeDiffWithRightResidual (prangeFirst prangeSecond : CRange D)
    : option (option (CRange D) * option (CRange D)) :=
  if FDisjointLeft prangeSecond prangeFirst then Some (None, None)
  else
    prangeRet ← (if Range_Contains prangeFirst prangeSecond
                 then PrngDifferenceLeft prangeFirst prangeSecond else Some None);
    prangeResidual ← PrngDifferenceRight prangeFirst prangeSecond;
    Some (prangeRet, prangeResidual).

(** The loop of [PciDifference]. *)
Fixpoint difference_loop (fst : list (CRange D)) : list (CRange D) -> option (CRange D) -> list (CRange D) ->
    option (list (CRange D) * option (CRange D) * list (CRange D)) :=
  fix inner (snd : list (CRange D)) (residual : option (CRange D)) (acc : list (CRange D)) :=
    match fst, snd with
    | prangeFst :: fst', prangeOther :: snd' =>
        let prangeThis := match residual with None => prangeFst | Some prangeResidual => prangeResidual end in
        if FEndsWithOrAfter prangeOther prangeThis then
          prangeNew ← PrngDifferenceLeft prangeThis prangeOther;
          acc ← AppendOrExtend acc prangeNew;
          difference_loop fst' snd None acc
        else
          '(prangeNew, residual) ← PrangeDiffWithRightResidual prangeThis prangeOther;
          acc ← AppendOrExtend acc prangeNew;
          inner snd' residual acc
    | _, _ => Some (acc, residual, fst)
    end.

Definition PciDifference this pci : option (CConstraintInterval D) :=
  if decide (m_pcr this = m_pcr pci) then
    '(pdrgprngNew, prangeResidual, fst) ← difference_loop (m_pdrgprng this) (m_pdrgprng pci) None [];
    let fst := match prangeResidual with None => fst | Some _ => drop 1 fst end in
    pdrgprngNew ← AppendOrExtend pdrgprngNew prangeResidual;
    pdrgprngNew ← AddRemainingRanges fst pdrgprngNew;
    Some (MkInterval (m_pcr this) pdrgprngNew (m_fIncludesNull this && negb (m_fIncludesNull pci)))
  else None.

Definition FContainsInterval this pci : option bool :=
  if decide (m_pcr this = m_pcr pci) then
    if Interval_IsConstraintUnbounded this then Some true
    else if Interval_IsConstraintUnbounded pci || (negb (m_fIncludesNull this) && m_fIncludesNull pci)
    then Some false
    else
      pciDiff ← PciDifference pci this;
      Some (FContradiction pciDiff)
  else None.

(** [None]: the type of the column is not supported. *)
Definition PciUnbounded (colref : CColRef) (fIncludesNull : bool) : option (CConstraintInterval D) :=
  if negb (colref_constrainable colref) then None
  else if colref_is_bool colref
  then Some (MkInterval colref [MkRange (Some (CreateBoolDatum false)) EriIncluded (Some (CreateBoolDatum true)) EriIncluded]
               fIncludesNull)
  else Some (MkInterval colref [MkRange None EriExcluded None EriExcluded] fIncludesNull).

Definition PciComplement this : option (CConstraintInterval D) :=
  pciUniversal ← PciUnbounded (m_pcr this) true;
  PciDifference pciUniversal this.

End interval.

(** ** Sorted arrays of ranges *)

Section sorted.
Context {D : Type} `{HL : DatumLaws D} (valid : D -> Prop).
Implicit Types (r p q : CRange D) (l acc : list (CRange D)) (v : D) (c : cut D).

(** [r] ends before [p] starts, with a gap. *)
Definition gap r p : Prop := cut_leb (lo p) (hi r) = false.

Record ranges_wf l : Prop := {
  rs_wf : Forall (range_wf valid) l;
  rs_sorted : StronglySorted gap l;
}.

Definition in_ranges v l : bool := existsb (in_range v) l.

(** All of [acc] ends before [c]. *)
Definition below acc c : Prop := Forall (fun q => cut_leb (hi q) c = true) acc.
(** All of [acc] ends before any range of [l] starts. *)
Definition before_all acc l : Prop := Forall (fun r => below acc (lo r)) l.

Lemma ranges_wf_nil : ranges_wf [].
Proof. split; constructor. Qed.

Lemma ranges_wf_cons r l : ranges_wf (r :: l) <-> range_wf valid r /\ Forall (gap r) l /\ ranges_wf l.
Proof.
  split.
  - intros [[Hr Hl]%Forall_cons [Hs Hg]%StronglySorted_inv]. split; [done|]. split; [done|]. by split.
  - intros (Hr & Hg & [Hl Hs]). split; by constructor.
Qed.

Lemma ranges_wf_snoc l r : ranges_wf (l ++ [r]) <-> ranges_wf l /\ range_wf valid r /\ Forall (fun q => gap q r) l.
Proof.
  induction l as [|x l IH]; simpl.
  - rewrite ranges_wf_cons. split; [intros (? & _ & _); split; [apply ranges_wf_nil|by split]|]. intros (_ & Hr & _). split; [done|].
    split; [done|apply ranges_wf_nil].
  - rewrite !ranges_wf_cons, IH, Forall_app, !Forall_cons. intuition auto.
Qed.

Lemma in_ranges_app v l l' : in_ranges v (l ++ l') = in_ranges v l || in_ranges v l'.
Proof. apply existsb_app. Qed.

Lemma in_ranges_true v l : in_ranges v l = true <-> exists r, r ∈ l /\ in_range v r = true.
Proof.
  unfold in_ranges. rewrite existsb_exists. split; intros (r & Hr & Hv); exists r; (split; [|done]); by apply list_elem_of_In.
Qed.

(** Ranges behind a cut have no values before it. *)
Lemma in_ranges_behind v l c : Forall (fun r => cut_leb c (lo r) = true) l -> cut_leb c (At v 1) = false ->
  in_ranges v l = false.
Proof.
  intros Hl Hv. apply not_true_iff_false. intros (r & Hr & Hin)%in_ranges_true.
  rewrite Forall_forall in Hl. specialize (Hl r Hr). unfold in_range in Hin. apply andb_prop in Hin as [Hlo _].
  pose proof (cut_leb_trans _ _ _ Hl Hlo). congruence.
Qed.

Lemma below_mono acc c c' : below acc c -> cut_leb c c' = true -> below acc c'.
Proof. unfold below. intros Hb Hc. eapply Forall_impl; [exact Hb|]. simpl. intros q Hq. by apply (cut_leb_trans _ c). Qed.

Lemma below_app acc acc' c : below (acc ++ acc') c <-> below acc c /\ below acc' c.
Proof. apply Forall_app. Qed.

(** What appending does: nothing is lost, and the ends stay where they were. *)
Definition appended acc (o : option (CRange D)) acc' : Prop :=
  ranges_wf acc' /\
  (forall v, in_ranges v acc' = in_ranges v acc || match o with Some r => in_range v r | None => false end) /\
  (forall c, below acc c -> match o with Some r => cut_leb (hi r) c = true | None => True end -> below acc' c).

Lemma AppendOrExtend_spec acc o : ranges_wf acc ->
  match o with Some r => range_wf valid r /\ below acc (lo r) | None => True end ->
  exists acc', AppendOrExtend acc o = Some acc' /\ appended acc o acc'.
Proof.
  intros Hacc Ho. destruct o as [r|]; simpl.
  2: { exists acc. split; [done|]. split; [done|]. split; [|done]. intros v. by rewrite orb_false_r. }
  destruct Ho as [Hr Hbelow].
  assert (Forall (fun q => gap q r) acc -> appended acc (Some r) (acc ++ [r])) as Happ.
  { intros Hgap. split; [by apply ranges_wf_snoc|]. split.
    - intros v. rewrite in_ranges_app. simpl. by rewrite orb_false_r.
    - intros c Hc Hrc. apply below_app. split; [done|]. by constructor. }
  destruct acc as [|q acc _] using rev_ind; [exists [r]; split; [done|]; by apply Happ|].
  rewrite last_snoc. apply ranges_wf_snoc in Hacc as (Hacc & Hq & Hgq).
  apply below_app in Hbelow as [Hbelow [Hqr _]%Forall_cons].
  destruct (PrngExtend_spec valid q r Hq Hr Hqr) as ([p|] & -> & Hext); simpl.
  - destruct Hext as (Hp & Hlo & Hhi & Htouch). eexists. split; [done|].
    rewrite length_app. simpl. replace (length acc + 1 - 1)%nat with (length acc + 0)%nat by lia.
    rewrite insert_app_r. simpl. split; [|split].
    + apply ranges_wf_snoc. split; [done|]. split; [done|]. eapply Forall_impl; [exact Hgq|]. simpl. unfold gap. by rewrite Hlo.
    + intros v. rewrite !in_ranges_app. simpl. rewrite !orb_false_r, <- orb_assoc. f_equal.
      unfold in_range. rewrite Hlo, Hhi. pose proof (rw_proper _ _ Hq). pose proof (rw_proper _ _ Hr). cut_lia.
    + intros c [Hc _]%below_app Hrc. apply below_app. split; [done|]. constructor; [by rewrite Hhi|constructor].
  - eexists. split; [done|]. apply Happ. apply Forall_app. split; [|by constructor].
    rewrite Forall_forall in Hgq |- *. intros x Hx. specialize (Hgq x Hx). unfold gap in *. simpl in Hext.
    pose proof (rw_proper _ _ Hq). cut_lia.
Qed.

(** The rest of an array after what was put together so far. *)
Lemma AddRemainingRanges_spec l acc : ranges_wf acc -> ranges_wf l -> before_all acc l ->
  exists acc', AddRemainingRanges l acc = Some acc' /\ ranges_wf acc' /\
    (forall v, in_ranges v acc' = in_ranges v acc || in_ranges v l) /\
    (forall c, below acc c -> below l c -> below acc' c).
Proof.
  revert acc. induction l as [|r l IH]; intros acc Hacc Hl Hb; simpl.
  { exists acc. split; [done|]. split; [done|]. split; [|done]. intros v. by rewrite orb_false_r. }
  apply ranges_wf_cons in Hl as (Hr & Hg & Hl). apply Forall_cons in Hb as [Hbr Hb].
  destruct (AppendOrExtend_spec acc (Some r) Hacc (conj Hr Hbr)) as (acc1 & Happ & Hacc1 & Hv1 & Hc1).
  simpl in Happ. rewrite Happ. simpl.
  destruct (IH acc1) as (acc2 & -> & Hacc2 & Hv2 & Hc2); [done..| |].
  { apply Forall_forall. intros p Hp. unfold before_all in Hb. rewrite Forall_forall in Hb, Hg. apply Hc1; [by apply Hb|].
    specialize (Hg p Hp). unfold gap in Hg. by apply cut_leb_total. }
  exists acc2. split; [done|]. split; [done|]. split.
  - intros v. by rewrite Hv2, Hv1, orb_assoc.
  - intros c Hc [Hrc Hlc]%Forall_cons. apply Hc2; [by apply Hc1|done].
Qed.

End sorted.

(** ** Union, intersection and difference of sorted arrays *)

Section algebra.
Context {D : Type} `{HL : DatumLaws D} (valid : D -> Prop).
Implicit Types (r p q : CRange D) (l acc fst snd : list (CRange D)) (v : D) (c : cut D).

(** A property of the arrays that each round keeps holds when the loop ends. *)
Lemma merge_loop_inv combine append (P : list (CRange D) -> list (CRange D) -> list (CRange D) -> Prop) :
  (forall acc r fst p snd, P acc (r :: fst) (p :: snd) -> cut_leb (hi r) (hi p) = true ->
    exists o acc', combine r p = Some o /\ append acc o = Some acc' /\ P acc' fst (p :: snd)) ->
  (forall acc r fst p snd, P acc (r :: fst) (p :: snd) -> cut_leb (hi p) (hi r) = true ->
    exists o acc', combine p r = Some o /\ append acc o = Some acc' /\ P acc' (r :: fst) snd) ->
  forall fst snd acc, P acc fst snd -> exists acc' fst' snd',
    merge_loop combine append fst snd acc = Some (acc', fst', snd') /\ P acc' fst' snd' /\ (fst' = [] \/ snd' = []).
Proof.
  intros Hfst Hsnd. induction fst as [|r fst IHf]; intros snd.
  { intros acc HP. exists acc, [], snd. destruct snd; by repeat split; auto. }
  induction snd as [|p snd IHs]; intros acc HP.
  { exists acc, (r :: fst), []. by repeat split; auto. }
  simpl. pose proof (FEndsAfter_leb p r) as Hends. destruct (FEndsAfter p r).
  - destruct (Hfst acc r fst p snd HP Hends) as (o & acc' & -> & Ha & HP'). simpl. rewrite Ha. simpl.
    by destruct (IHf (p :: snd) acc' HP') as (acc2 & fst2 & snd2 & -> & ?); eauto.
  - destruct (Hsnd acc r fst p snd HP Hends) as (o & acc' & -> & Ha & HP'). simpl. rewrite Ha. simpl.
    by destruct (IHs acc' HP') as (acc2 & fst2 & snd2 & Heq & ?); eauto.
Qed.

(** *** Union *)

Definition union_inv (values : D -> bool) acc fst snd : Prop :=
  ranges_wf valid acc /\ ranges_wf valid fst /\ ranges_wf valid snd /\ before_all acc fst /\ before_all acc snd /\
  forall v, in_ranges v acc || in_ranges v fst || in_ranges v snd = values v.

Lemma gap_below r l : range_wf valid r -> Forall (gap r) l -> Forall (fun p => cut_leb (hi r) (lo p) = true) l.
Proof. intros Hr Hg. eapply Forall_impl; [exact Hg|]. simpl. unfold gap. intros p Hp. by apply cut_leb_total. Qed.

(** The first range of an array ends first: what is not in the other range goes to
    the new array. *)
Lemma union_step values acc r fst p snd : union_inv values acc (r :: fst) (p :: snd) -> cut_leb (hi r) (hi p) = true ->
  exists o acc', PrngDifferenceLeft r p = Some o /\ AppendOrExtend acc o = Some acc' /\
    union_inv values acc' fst (p :: snd).
Proof.
  intros (Hacc & Hf & Hs & [Hbr Hbf]%Forall_cons & [Hbp Hbs]%Forall_cons & Hv) Hends.
  apply ranges_wf_cons in Hf as (Hr & Hgr & Hf). pose proof Hs as (Hp & Hgp & Hs')%ranges_wf_cons.
  destruct (PrngDifferenceLeft_spec valid r p Hr Hp) as (o & Ho & Hpart).
  assert (match o with Some q => range_wf valid q /\ below acc (lo q) | None => True end) as Hpre.
  { destruct o as [q|]; [|done]. destruct Hpart as (Hq & Hlo & _). by rewrite Hlo. }
  destruct (AppendOrExtend_spec valid acc o Hacc Hpre) as (acc' & Happ & Hacc' & Hv' & Hc').
  exists o, acc'. split; [done|]. split; [done|].
  assert (match o with Some q => cut_leb (hi q) (lo p) = true /\ cut_leb (hi q) (hi r) = true | None => True end) as Hend.
  { destruct o as [q|]; [|done]. destruct Hpart as (_ & _ & [[-> ?]|[-> ?]]); rewrite ?cut_leb_refl; split; auto.
    by apply cut_leb_total. }
  repeat split; try done.
  - apply Hacc'.
  - apply Hacc'.
  - apply Hf.
  - apply Hf.
  - apply Hs.
  - apply Hs.
  - pose proof (gap_below r fst Hr Hgr) as Hgr'. apply Forall_forall. intros x Hx. rewrite Forall_forall in Hbf, Hgr'.
    apply Hc'; [by apply Hbf|]. destruct o as [q|]; [|done]. destruct Hend as [_ He].
    apply (cut_leb_trans _ (hi r)); [done|]. by apply Hgr'.
  - pose proof (gap_below p snd Hp Hgp) as Hgp'. constructor.
    + apply Hc'; [done|]. by destruct o; [destruct Hend|].
    + apply Forall_forall. intros x Hx. rewrite Forall_forall in Hbs, Hgp'. apply Hc'; [by apply Hbs|].
      destruct o as [q|]; [|done]. destruct Hend as [He _]. pose proof (rw_proper _ _ Hp). specialize (Hgp' x Hx).
      simpl in *. cut_lia.
  - intros v. rewrite <- Hv, Hv'. simpl.
    assert (match o with Some q => in_range v q | None => false end || in_range v p = in_range v r || in_range v p) as Hstep.
    { unfold in_range. pose proof (rw_proper _ _ Hr). pose proof (rw_proper _ _ Hp). destruct o as [q|]; simpl in Hpart.
      - destruct Hpart as (_ & -> & [[-> ?]|[-> ?]]); cut_lia.
      - cut_lia. }
    destruct (in_ranges v acc), (in_ranges v fst), (in_ranges v snd); simpl; rewrite ?orb_true_r, ?orb_false_r; try done.
Qed.

Lemma union_inv_swap values acc fst snd : union_inv values acc fst snd -> union_inv values acc snd fst.
Proof.
  intros (Hacc & Hf & Hs & Hbf & Hbs & Hv). do 5 (split; [done|]). intros v. rewrite <- Hv.
  rewrite <- !orb_assoc. f_equal. apply orb_comm.
Qed.

Lemma union_arrays fst snd : ranges_wf valid fst -> ranges_wf valid snd ->
  exists acc fst' snd' acc1 acc2, merge_loop PrngDifferenceLeft AppendOrExtend fst snd [] = Some (acc, fst', snd') /\
    AddRemainingRanges fst' acc = Some acc1 /\ AddRemainingRanges snd' acc1 = Some acc2 /\ ranges_wf valid acc2 /\
    forall v, in_ranges v acc2 = in_ranges v fst || in_ranges v snd.
Proof.
  intros Hf Hs.
  destruct (merge_loop_inv PrngDifferenceLeft AppendOrExtend
              (union_inv (fun v => in_ranges v fst || in_ranges v snd))) with (fst := fst) (snd := snd) (acc := @nil (CRange D))
    as (acc & fst' & snd' & Hloop & (Hacc & Hf' & Hs' & Hbf & Hbs & Hv) & Hend).
  - apply union_step.
  - intros acc r f p s Hinv Hends. apply union_inv_swap in Hinv.
    destruct (union_step _ _ _ _ _ _ Hinv Hends) as (o & acc' & ? & ? & ?%union_inv_swap). eauto.
  - split; [apply ranges_wf_nil|]. do 2 (split; [done|]).
    split; [apply Forall_forall; intros; constructor|]. split; [apply Forall_forall; intros; constructor|]. done.
  - destruct (AddRemainingRanges_spec valid fst' acc Hacc Hf' Hbf) as (acc1 & H1 & Hacc1 & Hv1 & Hc1).
    destruct (AddRemainingRanges_spec valid snd' acc1 Hacc1 Hs') as (acc2 & H2 & Hacc2 & Hv2 & Hc2).
    { destruct Hend as [->| ->]; [|constructor]. simpl in H1. by simplify_eq. }
    exists acc, fst', snd', acc1, acc2. do 4 (split; [done|]). intros v. by rewrite Hv2, Hv1, Hv.
Qed.

(** *** Intersection *)

Definition inter_inv (values : D -> bool) acc fst snd : Prop :=
  ranges_wf valid acc /\ ranges_wf valid fst /\ ranges_wf valid snd /\
  (forall q r p, q ∈ acc -> r ∈ fst -> p ∈ snd -> gap q r \/ gap q p) /\
  forall v, in_ranges v acc || (in_ranges v fst && in_ranges v snd) = values v.

(** A range that ends before the other does is not needed any more. *)
Lemma inter_step values acc r fst p snd : inter_inv values acc (r :: fst) (p :: snd) -> cut_leb (hi r) (hi p) = true ->
  exists o acc', PrngIntersect r p = Some o /\ append_new acc o = Some acc' /\ inter_inv values acc' fst (p :: snd).
Proof.
  intros (Hacc & Hf & Hs & Hgap & Hv) Hends.
  apply ranges_wf_cons in Hf as (Hr & Hgr & Hf). pose proof Hs as (Hp & Hgp & Hs')%ranges_wf_cons.
  destruct (PrngIntersect_spec valid r p Hr Hp) as (o & Ho & Hpart).
  assert (forall v, in_range v r && in_ranges v snd = false) as Hapart.
  { intros v. destruct (in_range v r) eqn:Hvr; [|done]. simpl. unfold in_range in Hvr. apply andb_prop in Hvr as [_ Hvr%negb_true_iff].
    apply (in_ranges_behind v snd (hi r)); [|done]. eapply Forall_impl; [exact Hgp|]. simpl. unfold gap.
    intros x Hx. pose proof (rw_proper _ _ Hp). cut_lia. }
  assert (forall v, match o with Some q => in_range v q | None => false end = in_range v r && in_range v p) as Hcommon.
  { intros v. unfold in_range. destruct o as [q|]; simpl in Hpart.
    - destruct Hpart as (_ & [->| ->] & [->| ->] & ? & ? & ? & ?); cut_lia.
    - cut_lia. }
  assert (forall acc', (forall v, in_ranges v acc' = in_ranges v acc || match o with Some q => in_range v q | None => false end) ->
            forall v, in_ranges v acc' || (in_ranges v fst && in_ranges v (p :: snd)) = values v) as Hvalues.
  { intros acc' Hacc' v. rewrite <- Hv, Hacc', Hcommon. simpl. specialize (Hapart v).
    destruct (in_ranges v acc), (in_range v r), (in_range v p), (in_ranges v fst), (in_ranges v snd); done. }
  assert (Forall (gap r) fst) as Hgr' by done. rewrite Forall_forall in Hgr.
  destruct o as [q|]; simpl; eexists _, _; (split; [done|]); (split; [done|]).
  - destruct Hpart as (Hq & Hlo & _ & Hrq & Hpq & Hqr & Hqp). split; [|split; [done|split; [done|split]]].
    + apply ranges_wf_snoc. split; [done|]. split; [done|]. apply Forall_forall. intros x Hx.
      destruct (Hgap x r p Hx) as [Hg|Hg]; [by left..|unfold gap in *; cut_lia|unfold gap in *; cut_lia].
    + intros x y z [Hx|Hx%list_elem_of_singleton]%elem_of_app Hy Hz.
      * apply (Hgap x y z); [done|by right|done].
      * subst x. left. specialize (Hgr y Hy). unfold gap in *. cut_lia.
    + apply Hvalues. intros v. rewrite in_ranges_app. simpl. by rewrite orb_false_r.
  - split; [done|]. split; [done|]. split; [done|]. split.
    + intros x y z Hx Hy Hz. apply (Hgap x y z); [done|by right|done].
    + apply Hvalues. intros v. by rewrite orb_false_r.
Qed.

Lemma inter_inv_swap values acc fst snd : inter_inv values acc fst snd -> inter_inv values acc snd fst.
Proof.
  intros (Hacc & Hf & Hs & Hgap & Hv). do 3 (split; [done|]). split.
  - intros q r p Hq Hr Hp. destruct (Hgap q p r Hq Hp Hr); auto.
  - intros v. rewrite <- Hv. f_equal. apply andb_comm.
Qed.

Lemma inter_arrays fst snd : ranges_wf valid fst -> ranges_wf valid snd ->
  exists acc fst' snd', merge_loop PrngIntersect append_new fst snd [] = Some (acc, fst', snd') /\ ranges_wf valid acc /\
    forall v, in_ranges v acc = in_ranges v fst && in_ranges v snd.
Proof.
  intros Hf Hs.
  destruct (merge_loop_inv PrngIntersect append_new
              (inter_inv (fun v => in_ranges v fst && in_ranges v snd))) with (fst := fst) (snd := snd) (acc := @nil (CRange D))
    as (acc & fst' & snd' & Hloop & (Hacc & Hf' & Hs' & _ & Hv) & Hend).
  - apply inter_step.
  - intros acc r f p s Hinv Hends. apply inter_inv_swap in Hinv.
    destruct (inter_step _ _ _ _ _ _ Hinv Hends) as (o & acc' & ? & ? & ?%inter_inv_swap). eauto.
  - split; [apply ranges_wf_nil|]. do 2 (split; [done|]). split; [by intros q r p ?%elem_of_nil|done].
  - exists acc, fst', snd'. do 2 (split; [done|]). intros v. rewrite <- Hv.
    destruct Hend as [->| ->]; simpl; by rewrite ?andb_false_r, orb_false_r.
Qed.

End algebra.

(** *** Difference *)

Section difference.
Context {D : Type} `{HL : DatumLaws D} (valid : D -> Prop).
Implicit Types (r p q : CRange D) (l acc fst snd : list (CRange D)) (v : D) (c : cut D).

(** The ranges that are left of the first array. *)
Definition rest (residual : option (CRange D)) fst : list (CRange D) :=
  match residual, fst with Some r, _ :: fst => r :: fst | _, _ => fst end.

Definition diff_inv (values : D -> bool) acc residual fst snd : Prop :=
  ranges_wf valid acc /\ ranges_wf valid (rest residual fst) /\ ranges_wf valid snd /\
  before_all acc (rest residual fst) /\
  match residual with Some r => fst <> [] /\ Forall (fun p => cut_leb (lo r) (lo p) = true) snd | None => True end /\
  forall v, in_ranges v acc || (in_ranges v (rest residual fst) && negb (in_ranges v snd)) = values v.

(** The range at hand ends first. *)
Lemma diff_step_ends values acc r fst p snd :
  ranges_wf valid acc -> ranges_wf valid (r :: fst) -> ranges_wf valid (p :: snd) -> before_all acc (r :: fst) ->
  (forall v, in_ranges v acc || (in_ranges v (r :: fst) && negb (in_ranges v (p :: snd))) = values v) ->
  cut_leb (hi r) (hi p) = true ->
  exists o acc', PrngDifferenceLeft r p = Some o /\ AppendOrExtend acc o = Some acc' /\
    diff_inv values acc' None fst (p :: snd).
Proof.
  intros Hacc Hf Hs [Hbr Hbf]%Forall_cons Hv Hends.
  apply ranges_wf_cons in Hf as (Hr & Hgr & Hf). pose proof Hs as (Hp & Hgp & Hs')%ranges_wf_cons.
  destruct (PrngDifferenceLeft_spec valid r p Hr Hp) as (o & Ho & Hpart).
  assert (match o with Some q => range_wf valid q /\ below acc (lo q) | None => True end) as Hpre.
  { destruct o as [q|]; [|done]. destruct Hpart as (Hq & Hlo & _). by rewrite Hlo. }
  destruct (AppendOrExtend_spec valid acc o Hacc Hpre) as (acc' & Happ & Hacc' & Hv' & Hc').
  exists o, acc'. split; [done|]. split; [done|]. split; [done|]. split; [by destruct fst|]. split; [done|].
  split; [|split; [done|]].
  - simpl. replace (rest None fst) with fst by by destruct fst. pose proof (gap_below valid r fst Hr Hgr) as Hgr'.
    apply Forall_forall. intros x Hx. rewrite Forall_forall in Hbf, Hgr'. apply Hc'; [by apply Hbf|].
    destruct o as [q|]; [|done]. destruct Hpart as (_ & _ & Hq). specialize (Hgr' x Hx). simpl in Hgr'.
    destruct Hq as [[-> ?]|[-> ?]]; [done|]. cut_lia.
  - intros v. rewrite <- Hv, Hv'. replace (rest None fst) with fst by by destruct fst. simpl.
    assert (in_range v r && in_ranges v snd = false) as Hapart.
    { destruct (in_range v r) eqn:Hvr; [|done]. simpl. unfold in_range in Hvr. apply andb_prop in Hvr as [_ Hvr%negb_true_iff].
      apply (in_ranges_behind v snd (hi r)); [|done]. eapply Forall_impl; [exact Hgp|]. simpl. unfold gap.
      intros x Hx. pose proof (rw_proper _ _ Hp). cut_lia. }
    assert (match o with Some q => in_range v q | None => false end = in_range v r && negb (in_range v p)) as Hstep.
    { unfold in_range. pose proof (rw_proper _ _ Hr). pose proof (rw_proper _ _ Hp). destruct o as [q|]; simpl in Hpart.
      - destruct Hpart as (_ & -> & [[-> ?]|[-> ?]]); cut_lia.
      - cut_lia. }
    destruct (in_ranges v acc), (in_range v r), (in_range v p), (in_ranges v fst), (in_ranges v snd); simpl in *;
      destruct o as [q|]; simpl in *; try done; by rewrite Hstep.
Qed.

(** The range that is taken away ends first. *)
Lemma diff_step_residual values acc r r0 fst p snd :
  ranges_wf valid acc -> ranges_wf valid (r :: fst) -> ranges_wf valid (p :: snd) -> before_all acc (r :: fst) ->
  (forall v, in_ranges v acc || (in_ranges v (r :: fst) && negb (in_ranges v (p :: snd))) = values v) ->
  cut_leb (hi r) (hi p) = false -> cut_leb (hi p) (lo r) = false ->
  exists o q acc', PrangeDiffWithRightResidual r p = Some (o, Some q) /\ AppendOrExtend acc o = Some acc' /\
    diff_inv values acc' (Some q) (r0 :: fst) snd.
Proof.
  intros Hacc Hf Hs [Hbr Hbf]%Forall_cons Hv Hends Hdis.
  apply ranges_wf_cons in Hf as (Hr & Hgr & Hf). apply ranges_wf_cons in Hs as (Hp & Hgp & Hs').
  unfold PrangeDiffWithRightResidual. rewrite FDisjointLeft_cut, Hdis, Contains_cut.
  destruct (PrngDifferenceRight_spec valid r p Hr Hp) as (o2 & Ho2 & Hright).
  destruct o2 as [q|]; [|simpl in Hright; congruence].
  destruct Hright as (Hq & Hhiq & [[_ ?]|[Hloq _]]); [congruence|].
  assert (exists o, (if cut_leb (lo r) (lo p) && cut_leb (hi p) (hi r) then PrngDifferenceLeft r p else Some None) = Some o /\
            left_part valid r p o) as (o & -> & Hpart).
  { destruct (cut_leb (lo r) (lo p)) eqn:Hlo.
    - rewrite (cut_leb_total _ _ Hends). simpl. by apply PrngDifferenceLeft_spec.
    - exists None. split; [done|]. simpl. by apply cut_leb_total. }
  rewrite Ho2. simpl.
  assert (match o with Some q => range_wf valid q /\ below acc (lo q) | None => True end) as Hpre.
  { destruct o as [x|]; [|done]. destruct Hpart as (Hx & Hlo & _). by rewrite Hlo. }
  destruct (AppendOrExtend_spec valid acc o Hacc Hpre) as (acc' & Happ & Hacc' & Hv' & Hc').
  exists o, q, acc'. split; [done|]. split; [done|]. pose proof (rw_proper _ _ Hp) as Hpp.
  pose proof (rw_proper _ _ Hr) as Hrp.
  assert (match o with Some x => cut_leb (hi x) (lo p) = true | None => True end) as Hend.
  { destruct o as [x|]; [|done]. destruct Hpart as (_ & _ & [[-> ?]|[-> _]]); [done|apply cut_leb_refl]. }
  split; [done|]. split; [|split; [done|split; [|split; [split; [done|]|]]]].
  - simpl. apply ranges_wf_cons. split; [done|]. split; [|done]. eapply Forall_impl; [exact Hgr|]. unfold gap. simpl. by rewrite Hhiq.
  - simpl. constructor.
    + rewrite Hloq. apply Hc'; [|destruct o as [x|]; [|done]; by apply (cut_leb_trans _ (lo p)), cut_leb_total].
      apply (below_mono _ (lo r)); [done|]. by apply cut_leb_total.
    + pose proof (gap_below valid r fst Hr Hgr) as Hgr'. apply Forall_forall. intros x Hx. rewrite Forall_forall in Hbf, Hgr'.
      apply Hc'; [by apply Hbf|]. destruct o as [y|]; [|done]. specialize (Hgr' x Hx). simpl in Hgr'. cut_lia.
  - rewrite Hloq. by apply (gap_below valid p).
  - intros v. rewrite <- Hv, Hv'. simpl.
    assert (match o with Some x => in_range v x | None => false end || (in_range v q && negb (in_range v p)) =
              in_range v r && negb (in_range v p)) as Hstep.
    { unfold in_range. rewrite Hhiq, Hloq. destruct o as [x|]; simpl in Hpart.
      - destruct Hpart as (_ & -> & [[-> ?]|[-> ?]]); cut_lia.
      - cut_lia. }
    assert (in_range v q && in_range v p = false) as Hqp by (unfold in_range; rewrite Hhiq, Hloq; cut_lia).
    assert (in_range v p && in_ranges v fst = false) as Hpf.
    { destruct (in_range v p) eqn:Hvp; [|done]. simpl. unfold in_range in Hvp. apply andb_prop in Hvp as [_ Hvp%negb_true_iff].
      apply (in_ranges_behind v fst (hi p)); [|done]. eapply Forall_impl; [exact Hgr|]. simpl. unfold gap.
      intros x Hx. cut_lia. }
    assert (match o with Some x => in_range v x && in_ranges v snd | None => false end = false) as Hos.
    { destruct o as [x|]; [|done]. destruct (in_range v x) eqn:Hvx; [|done]. simpl. unfold in_range in Hvx.
      apply andb_prop in Hvx as [_ Hvx%negb_true_iff]. apply (in_ranges_behind v snd (hi x)); [|done].
      eapply Forall_impl; [exact Hgp|]. simpl. unfold gap. intros y Hy. cut_lia. }
    destruct (in_ranges v acc), (in_range v r), (in_range v p), (in_ranges v fst), (in_ranges v snd), (in_range v q);
      simpl in *; destruct o as [x|]; simpl in *; try done; destruct (in_range v x); done.
Qed.

End difference.

Section difference_arrays.
Context {D : Type} `{HL : DatumLaws D} (valid : D -> Prop).
Implicit Types (r p q : CRange D) (l acc fst snd : list (CRange D)) (v : D).

Lemma rest_None fst : rest None fst = fst.
Proof. by destruct fst. Qed.

(** One round of the loop. *)
Lemma difference_loop_round r fst p snd residual acc :
  difference_loop (r :: fst) (p :: snd) residual acc =
    let prangeThis := match residual with None => r | Some q => q end in
    if FEndsWithOrAfter p prangeThis then
      prangeNew ← PrngDifferenceLeft prangeThis p;
      acc ← AppendOrExtend acc prangeNew;
      difference_loop fst (p :: snd) None acc
    else
      '(prangeNew, residual) ← PrangeDiffWithRightResidual prangeThis p;
      acc ← AppendOrExtend acc prangeNew;
      difference_loop (r :: fst) snd residual acc.
Proof. done. Qed.

(** What the loop leaves behind. *)
Definition difference_left (values : D -> bool) (o : option (list (CRange D) * option (CRange D) * list (CRange D))) : Prop :=
  exists acc residual fst, o = Some (acc, residual, fst) /\
    ranges_wf valid acc /\ ranges_wf valid (rest residual fst) /\ before_all acc (rest residual fst) /\
    (residual <> None -> fst <> []) /\
    forall v, in_ranges v acc || in_ranges v (rest residual fst) = values v.

(** A range to the left of what is at hand takes nothing away. *)
Lemma diff_step_disjoint values acc r fst p snd :
  diff_inv valid values acc None (r :: fst) (p :: snd) -> cut_leb (hi p) (lo r) = true ->
  diff_inv valid values acc None (r :: fst) snd.
Proof.
  intros (Hacc & Hf & Hs & Hb & _ & Hv) Hdis. apply ranges_wf_cons in Hs as (Hp & Hgp & Hs).
  do 4 (split; [done|]). split; [done|]. intros v. rewrite <- Hv. rewrite rest_None in *.
  pose proof Hf as (Hr & Hgr & _)%ranges_wf_cons. simpl.
  assert (in_range v p && (in_range v r || in_ranges v fst) = false) as Hapart.
  { destruct (in_range v p) eqn:Hvp; [|done]. simpl. unfold in_range in Hvp. apply andb_prop in Hvp as [_ Hvp%negb_true_iff].
    apply (in_ranges_behind v (r :: fst) (hi p)); [|done]. constructor; [done|].
    eapply Forall_impl; [exact Hgr|]. simpl. unfold gap. pose proof (rw_proper _ _ Hr). intros x Hx. cut_lia. }
  destruct (in_ranges v acc), (in_range v r), (in_range v p), (in_ranges v fst), (in_ranges v snd); done.
Qed.

Lemma difference_loop_spec values fst snd residual acc : diff_inv valid values acc residual fst snd ->
  difference_left values (difference_loop fst snd residual acc).
Proof.
  revert snd residual acc. induction fst as [|r fst IHf]; intros snd.
  { intros residual acc (Hacc & Hf & _ & Hb & Hres & Hv). exists acc, residual, []. split; [by destruct snd|].
    split; [done|]. split; [done|]. split; [done|]. destruct residual as [q|]; [by destruct Hres|]. split; [done|].
    intros v. rewrite <- Hv. done. }
  induction snd as [|p snd IHs]; intros residual acc Hinv; pose proof Hinv as (Hacc & Hf & Hs & Hb & Hres & Hv).
  { exists acc, residual, (r :: fst). do 4 (split; [done|]). split; [by destruct residual|].
    intros v. rewrite <- Hv. simpl. by rewrite andb_true_r. }
  assert (rest residual (r :: fst) = match residual with None => r | Some q => q end :: fst) as Hrest by by destruct residual.
  rewrite Hrest in *. rewrite difference_loop_round. cbv zeta.
  set (this := match residual with None => r | Some q => q end) in *.
  rewrite FEndsWithOrAfter_cut. destruct (cut_leb (hi this) (hi p)) eqn:Hends.
  { destruct (diff_step_ends valid values acc this fst p snd Hacc Hf Hs Hb Hv Hends) as (o & acc' & -> & Happ & Hinv').
    simpl. rewrite Happ. simpl. apply (IHf _ _ _ Hinv'). }
  destruct (cut_leb (hi p) (lo this)) eqn:Hdis.
  - destruct residual as [q|].
    + destruct Hres as [_ [Hq _]%Forall_cons]. apply ranges_wf_cons in Hs as (Hp & _). pose proof (rw_proper _ _ Hp).
      subst this. cut_lia.
    + unfold PrangeDiffWithRightResidual. rewrite FDisjointLeft_cut, Hdis. simpl. apply IHs. by apply (diff_step_disjoint _ _ _ _ p).
  - destruct (diff_step_residual valid values acc this r fst p snd Hacc Hf Hs Hb Hv Hends Hdis)
      as (o & q & acc' & -> & Happ & Hinv'). simpl. rewrite Happ. simpl. apply (IHs _ _ Hinv').
Qed.

Lemma difference_arrays fst snd : ranges_wf valid fst -> ranges_wf valid snd ->
  exists acc residual fst' acc1 acc2, difference_loop fst snd None [] = Some (acc, residual, fst') /\
    AppendOrExtend acc residual = Some acc1 /\
    AddRemainingRanges (match residual with None => fst' | Some _ => drop 1 fst' end) acc1 = Some acc2 /\
    ranges_wf valid acc2 /\ forall v, in_ranges v acc2 = in_ranges v fst && negb (in_ranges v snd).
Proof.
  intros Hf Hs.
  destruct (difference_loop_spec (fun v => in_ranges v fst && negb (in_ranges v snd)) fst snd None [])
    as (acc & residual & fst' & Hloop & Hacc & Hf' & Hb & Hres & Hv).
  { split; [apply ranges_wf_nil|]. split; [by rewrite rest_None|]. split; [done|].
    split; [apply Forall_forall; intros; constructor|]. split; [done|]. intros v. by rewrite rest_None. }
  destruct (AddRemainingRanges_spec valid _ acc Hacc Hf' Hb) as (acc2 & Hadd & Hacc2 & Hv2 & _).
  exists acc, residual, fst'. destruct residual as [q|].
  - destruct fst' as [|r fst']; [by destruct Hres|]. simpl in Hadd. apply bind_Some in Hadd as (acc1 & H1 & H2).
    exists acc1, acc2. do 4 (split; [done|]). intros v. by rewrite Hv2, Hv.
  - rewrite rest_None in *. exists acc, acc2. do 4 (split; [done|]). intros v. by rewrite Hv2, Hv.
Qed.

End difference_arrays.

(** ** Intervals *)

(** [of_type c d]: [d] is a datum of the type of [c], and not null. *)
Class ColumnTypes (D : Type) `{IDatum D} := of_type : CColRef -> D -> Prop.
Class TypeLaws (D : Type) `{ColumnTypes D} : Prop := {
  of_type_bool c d : colref_is_bool c = true -> of_type c d <-> is_Some (bool_value d);
  of_type_IsNull c d : of_type c d -> IsNull d = false;
}.

Section intervals.
Context {D : Type} `{HL : DatumLaws D} `{HT : !ColumnTypes D} `{HTL : !TypeLaws D}.
Implicit Types (this pci : CConstraintInterval D).

Definition interval_wf this : Prop := ranges_wf (of_type (m_pcr this)) (m_pdrgprng this).

(** The values of a column: null, or a datum of its type. *)
Definition of_column (c : CColRef) (v : option D) : Prop := forall d, v = Some d -> of_type c d.

Definition in_interval (v : option D) this : bool :=
  match v with None => m_fIncludesNull this | Some d => in_ranges d (m_pdrgprng this) end.

(** What an operation on intervals of the column [c] returns. *)
Definition yields (c : CColRef) (o : option (CConstraintInterval D)) (values : option D -> Prop) : Prop :=
  exists pci, o = Some pci /\ m_pcr pci = c /\ interval_wf pci /\
    forall v, of_column c v -> in_interval v pci = true <-> values v.

Lemma PciUnion_yields this pci : interval_wf this -> interval_wf pci -> m_pcr this = m_pcr pci ->
  yields (m_pcr this) (PciUnion this pci) (fun v => in_interval v this = true \/ in_interval v pci = true).
Proof.
  intros Ht Hp Hc. unfold PciUnion. rewrite decide_True by done. unfold interval_wf in Hp. rewrite <- Hc in Hp.
  destruct (union_arrays _ _ _ Ht Hp) as (acc & fst & snd & acc1 & acc2 & -> & H1 & H2 & Hwf & Hv). simpl.
  rewrite H1. simpl. rewrite H2. simpl. eexists. do 2 (split; [done|]). split; [done|].
  intros [v|] _; simpl; [rewrite Hv|]; apply orb_true_iff.
Qed.

Lemma PciIntersect_yields this pci : interval_wf this -> interval_wf pci -> m_pcr this = m_pcr pci ->
  yields (m_pcr this) (PciIntersect this pci) (fun v => in_interval v this = true /\ in_interval v pci = true).
Proof.
  intros Ht Hp Hc. unfold PciIntersect. rewrite decide_True by done. unfold interval_wf in Hp. rewrite <- Hc in Hp.
  destruct (inter_arrays _ _ _ Ht Hp) as (acc & fst & snd & -> & Hwf & Hv). simpl.
  eexists. do 2 (split; [done|]). split; [done|].
  intros [v|] _; simpl; [rewrite Hv|]; apply andb_true_iff.
Qed.

Lemma PciDifference_yields this pci : interval_wf this -> interval_wf pci -> m_pcr this = m_pcr pci ->
  yields (m_pcr this) (PciDifference this pci) (fun v => in_interval v this = true /\ in_interval v pci = false).
Proof.
  intros Ht Hp Hc. unfold PciDifference. rewrite decide_True by done. unfold interval_wf in Hp. rewrite <- Hc in Hp.
  destruct (difference_arrays _ _ _ Ht Hp) as (acc & residual & fst & acc1 & acc2 & -> & H1 & H2 & Hwf & Hv). simpl.
  rewrite H1. simpl. rewrite H2. simpl. eexists. do 2 (split; [done|]). split; [done|].
  intros [v|] _; simpl; [rewrite Hv|]; rewrite andb_true_iff, negb_true_iff; done.
Qed.

(** Every value of a column is between its ends. *)
Lemma PciUnbounded_yields c b : colref_constrainable c = true ->
  yields c (PciUnbounded c b) (fun v => v = None -> b = true).
Proof.
  intros Hc. unfold PciUnbounded. rewrite Hc. simpl. destruct (colref_is_bool c) eqn:Hb.
  - eexists. do 2 (split; [done|]). split.
    + apply ranges_wf_cons. split; [|split; [constructor|apply ranges_wf_nil]]. split; simpl; try done.
      * unfold hi, lo. simpl.
        destruct (bool_compare (CreateBoolDatum true) (CreateBoolDatum false) true false) as [-> ->]; try apply CreateBoolDatum_value.
        done.
      * intros d [= <-]. apply of_type_bool; [done|]. by rewrite CreateBoolDatum_value.
      * intros d [= <-]. apply of_type_bool; [done|]. by rewrite CreateBoolDatum_value.
    + intros [d|] Hd; simpl; [|destruct b; naive_solver]. rewrite orb_false_r. split; [done|]. intros _.
      destruct (proj1 (of_type_bool c d Hb) (Hd d eq_refl)) as [x Hx].
      unfold in_range, lo, hi. simpl.
      destruct (bool_compare (CreateBoolDatum false) d false x) as [-> ->]; [apply CreateBoolDatum_value|done|].
      destruct (bool_compare (CreateBoolDatum true) d true x) as [-> ->]; [apply CreateBoolDatum_value|done|].
      by destruct x.
  - eexists. do 2 (split; [done|]). split.
    + apply ranges_wf_cons. split; [|split; [constructor|apply ranges_wf_nil]]. split; simpl; done.
    + intros [d|] _; simpl; [done|]. destruct b; naive_solver.
Qed.

Lemma yields_iff c o values values' : (forall v, of_column c v -> values v <-> values' v) ->
  yields c o values -> yields c o values'.
Proof.
  intros Hiff (pci & Ho & Hc & Hwf & Hv). exists pci. do 3 (split; [done|]). intros v Hcol. rewrite <- Hiff by done. by apply Hv.
Qed.

Lemma PciComplement_yields this : interval_wf this -> colref_constrainable (m_pcr this) = true ->
  yields (m_pcr this) (PciComplement this) (fun v => in_interval v this = false).
Proof.
  intros Ht Hc. unfold PciComplement.
  destruct (PciUnbounded_yields (m_pcr this) true Hc) as (universal & -> & Hcol & Hwf & Hv). simpl.
  rewrite <- Hcol. eapply yields_iff; [|by apply PciDifference_yields]. simpl. intros v Hov. rewrite Hcol in Hov.
  split; [by intros []|]. intros Hin. split; [|done]. by apply Hv.
Qed.

(** A contradiction holds for no value of the column. *)
Lemma FContradiction_sound this : interval_wf this -> FContradiction this = true ->
  forall v, of_column (m_pcr this) v -> in_interval v this = false.
Proof.
  intros Hwf Hf v Hv. unfold FContradiction in Hf. destruct (m_fIncludesNull this) eqn:Hnull; simpl in Hf.
  { rewrite andb_false_r in Hf. done. }
  destruct (m_pdrgprng this) as [|r l] eqn:Hl; simpl in Hf.
  { unfold in_interval. rewrite Hl, Hnull. by destruct v. }
  rewrite andb_true_r in Hf. destruct (colref_is_bool (m_pcr this)) eqn:Hb; [|done].
  destruct l as [|]; [|done]. breflect. destruct v as [d|]; [|done]. simpl. rewrite Hl. simpl. rewrite orb_false_r.
  unfold interval_wf in Hwf. rewrite Hl in Hwf. apply ranges_wf_cons in Hwf as (Hr & _).
  destruct r as [[x|] [] [y|] []]; try done.
  destruct (proj1 (of_type_bool _ _ Hb) (rw_left_valid _ _ Hr x eq_refl)) as [bx Hx].
  destruct (proj1 (of_type_bool _ _ Hb) (rw_right_valid _ _ Hr y eq_refl)) as [b_y Hy].
  destruct (proj1 (of_type_bool _ _ Hb) (Hv d eq_refl)) as [bd Hd].
  unfold in_range, lo, hi. simpl.
  destruct (bool_compare x d bx bd Hx Hd) as [-> ->], (bool_compare y d b_y bd Hy Hd) as [-> ->].
  by destruct bx, b_y, bd.
Qed.

(** Every range of a column has a value; this fails for types with gaps. *)
Definition dense (c : CColRef) : Prop :=
  forall r : CRange D, range_wf (of_type c) r -> exists d, of_type c d /\ in_range d r = true.

(** An array is one range without ends, or leaves out a value of a dense column. *)
Lemma dense_cover c l : dense c -> ranges_wf (of_type c) l ->
  (exists r, l = [r] /\ Range_IsConstraintUnbounded r = true) \/ (exists d, of_type c d /\ in_ranges d l = false).
Proof.
  intros Hd Hl.
  assert (forall q, range_wf (of_type c) q -> (forall d, in_range d q = true -> in_ranges d l = false) ->
            exists d, of_type c d /\ in_ranges d l = false) as Hfree.
  { intros q Hq Hout. destruct (Hd q Hq) as (d & Hdc & Hin). exists d. auto. }
  destruct l as [|r l].
  { right. apply (Hfree (MkRange None EriExcluded None EriExcluded)); done. }
  apply ranges_wf_cons in Hl as (Hr & Hg & Hl).
  destruct (m_pdatumLeft r) as [x|] eqn:Hx.
  { right. assert (m_pdatumLeft r <> None) as Hne by congruence.
    apply (Hfree (before None EriExcluded r)).
    - split; simpl; try done; [by rewrite hi_before; unfold lo; rewrite Hx|apply Hr].
    - intros d Hin. unfold in_range in Hin. rewrite (hi_before _ _ r Hne) in Hin. apply andb_prop in Hin as [_ Hin%negb_true_iff].
      apply (in_ranges_behind d _ (lo r)); [|done]. constructor; [apply cut_leb_refl|].
      eapply Forall_impl; [exact Hg|]. simpl. unfold gap. pose proof (rw_proper _ _ Hr). intros p Hp. cut_lia. }
  destruct (m_pdatumRight r) as [y|] eqn:Hy.
  2: { destruct l as [|p l]; [left; exists r; split; [done|]; unfold Range_IsConstraintUnbounded; by rewrite Hx, Hy|].
       apply Forall_cons in Hg as [Hg _]. unfold gap in Hg. by rewrite (no_right_hi r Hy), PosInf_greatest in Hg. }
  right. assert (m_pdatumRight r <> None) as Hne by congruence. pose proof (rw_proper _ _ Hr) as Hproper.
  destruct l as [|p l].
  - apply (Hfree (beyond r None EriExcluded)).
    + split; simpl; try done; [by rewrite lo_beyond; unfold hi; rewrite Hy|apply Hr].
    + intros d Hin. unfold in_range in Hin. rewrite (lo_beyond r _ _ Hne) in Hin. apply andb_prop in Hin as [Hin _].
      simpl. rewrite orb_false_r. unfold in_range. by rewrite Hin, andb_false_r.
  - apply Forall_cons in Hg as [Hg Hg']. unfold gap in Hg. apply ranges_wf_cons in Hl as (Hp & Hgp & Hl).
    destruct (m_pdatumLeft p) as [z|] eqn:Hz; [|by rewrite (no_left_lo p Hz) in Hg].
    assert (m_pdatumLeft p <> None) as Hnep by congruence.
    set (q := beyond r (m_pdatumLeft p) (EriInverseInclusion (m_eriLeft p))).
    assert (lo q = hi r) as Hlo by by apply lo_beyond. assert (hi q = lo p) as Hhi by by apply (hi_before None EriExcluded p).
    apply (Hfree q).
    + split; [by rewrite Hlo, Hhi|simpl; congruence..| |]; simpl; [apply Hr|apply Hp].
    + intros d Hin. unfold in_range in Hin. rewrite Hlo, Hhi in Hin. apply andb_prop in Hin as [Hdr Hdp%negb_true_iff].
      simpl. unfold in_range at 1. rewrite Hdr, andb_false_r. simpl.
      apply (in_ranges_behind d (p :: l) (lo p)); [|done]. constructor; [apply cut_leb_refl|].
      eapply Forall_impl; [exact Hgp|]. simpl. unfold gap. pose proof (rw_proper _ _ Hp). intros x' Hx'. cut_lia.
Qed.

(** An interval of a dense column that is not a contradiction has a value. *)
Lemma FContradiction_complete this : interval_wf this -> colref_is_bool (m_pcr this) = false -> dense (m_pcr this) ->
  FContradiction this = false -> exists v, of_column (m_pcr this) v /\ in_interval v this = true.
Proof.
  intros Hwf Hb Hd Hf. unfold FContradiction in Hf. rewrite Hb in Hf. simpl in Hf.
  destruct (m_fIncludesNull this) eqn:Hnull; [by exists None|].
  destruct (m_pdrgprng this) as [|r l] eqn:Hl; [done|]. unfold interval_wf in Hwf. rewrite Hl in Hwf.
  apply ranges_wf_cons in Hwf as (Hr & _). destruct (Hd r Hr) as (d & Hdc & Hin).
  exists (Some d). split; [by intros d' [= <-]|]. simpl. rewrite Hl. simpl. by rewrite Hin.
Qed.

Lemma Unbounded_all this v : interval_wf this -> Interval_IsConstraintUnbounded this = true ->
  in_interval v this = true.
Proof.
  intros _ Hu. unfold Interval_IsConstraintUnbounded in Hu. apply andb_prop in Hu as [Hn Hu].
  destruct v as [d|]; [|done]. simpl. destruct (m_pdrgprng this) as [|r [|]]; try done. simpl. rewrite orb_false_r.
  unfold Range_IsConstraintUnbounded in Hu. unfold in_range, lo, hi.
  by destruct (m_pdatumLeft r), (m_pdatumRight r).
Qed.

End intervals.

(** ** Properties *)

(** C7: union, intersection, difference and complement of intervals are those of
    the sets of values they stand for, null among them; no assert is violated and
    no null pointer is followed on the way, and the arrays of the results are
    sorted again, with a gap between any two ranges. *)
Theorem interval_algebra {D : Type} `{HL : DatumLaws D} `{HT : !ColumnTypes D} `{HTL : !TypeLaws D}
    (this pci : CConstraintInterval D) :
  interval_wf this -> interval_wf pci -> m_pcr this = m_pcr pci -> colref_constrainable (m_pcr this) = true ->
  yields (m_pcr this) (PciUnion this pci) (fun v => in_interval v this = true \/ in_interval v pci = true) /\
  yields (m_pcr this) (PciIntersect this pci) (fun v => in_interval v this = true /\ in_interval v pci = true) /\
  yields (m_pcr this) (PciDifference this pci) (fun v => in_interval v this = true /\ in_interval v pci = false) /\
  yields (m_pcr this) (PciComplement this) (fun v => in_interval v this = false).
Proof.
  intros Ht Hp Hc Hs. split; [by apply PciUnion_yields|]. split; [by apply PciIntersect_yields|].
  split; [by apply PciDifference_yields|by apply PciComplement_yields].
Qed.

(** C8: [FContainsInterval] always answers; when it says yes, every value of the
    other interval is in this one, and when it says no for a column whose type has
    no gaps, some value is not. *)
Theorem FContainsInterval_decides {D : Type} `{HL : DatumLaws D} `{HT : !ColumnTypes D} `{HTL : !TypeLaws D}
    (this pci : CConstraintInterval D) :
  interval_wf this -> interval_wf pci -> m_pcr this = m_pcr pci ->
  exists contains, FContainsInterval this pci = Some contains /\
    (contains = true -> forall v, of_column (m_pcr this) v -> in_interval v pci = true -> in_interval v this = true) /\
    (contains = false -> colref_is_bool (m_pcr this) = false -> dense (m_pcr this) ->
       exists v, of_column (m_pcr this) v /\ in_interval v pci = true /\ in_interval v this = false).
Proof.
  intros Ht Hp Hc. unfold FContainsInterval. rewrite decide_True by done.
  destruct (Interval_IsConstraintUnbounded this) eqn:Hu.
  { exists true. split; [done|]. split; [|done]. intros _ v _ _. by apply Unbounded_all. }
  destruct (Interval_IsConstraintUnbounded pci) eqn:Hup; simpl.
  { exists false. split; [done|]. split; [done|]. intros _ Hb Hd. destruct (m_fIncludesNull this) eqn:Hn.
    2: { exists None. split; [done|]. split; [by apply Unbounded_all|done]. }
    destruct (dense_cover _ _ Hd Ht) as [(r & Hl & Hr)|(d & Hdc & Hout)].
    - unfold Interval_IsConstraintUnbounded in Hu. by rewrite Hn, Hl, Hr in Hu.
    - exists (Some d). split; [by intros d' [= <-]|]. split; [by apply Unbounded_all|done]. }
  destruct (negb (m_fIncludesNull this) && m_fIncludesNull pci) eqn:Hn.
  { exists false. split; [done|]. split; [done|]. intros _ _ _. apply andb_prop in Hn as [Hn%negb_true_iff Hnp].
    by exists None. }
  destruct (PciDifference_yields pci this Hp Ht (eq_sym Hc)) as (diff & -> & Hcol & Hwf & Hv). simpl.
  rewrite <- Hc in Hcol, Hv. exists (FContradiction diff). split; [done|]. split.
  - intros Hf v Hvc Hin. apply not_false_iff_true. intros Hout. rewrite <- Hcol in Hvc.
    pose proof (FContradiction_sound diff Hwf Hf v Hvc) as Hno. rewrite Hcol in Hvc.
    rewrite (proj2 (Hv v Hvc)) in Hno by done. done.
  - intros Hf Hb Hd. rewrite <- Hcol in Hb, Hd. destruct (FContradiction_complete diff Hwf Hb Hd Hf) as (v & Hvc & Hin).
    rewrite Hcol in Hvc. exists v. split; [done|]. by apply Hv.
Qed.

(** ** A concrete comparator *)

(** Data that are null, booleans or rational numbers, in this order. *)
Module Numbers.

Inductive datum : Type := DNull | DBool (b : bool) | DNum (q : Q).

Definition lessb (d e : datum) : bool :=
  match d, e with
  | DNull, DNull => false
  | DNull, _ => true
  | DBool x, DBool y => negb x && y
  | DBool _, DNum _ => true
  | DNum x, DNum y => negb (Qle_bool y x)
  | _, _ => false
  end.
Definition equalb (d e : datum) : bool :=
  match d, e with
  | DNull, DNull => true
  | DBool x, DBool y => Bool.eqb x y
  | DNum x, DNum y => Qeq_bool x y
  | _, _ => false
  end.

#[export] Instance data : IDatum datum := {|
  IsNull d := match d with DNull => true | _ => false end;
  bool_value d := match d with DBool b => Some b | _ => None end;
  CreateBoolDatum := DBool;
  pcomp_Equals := equalb;
  pcomp_IsLessThan := lessb;
  pcomp_IsLessThanOrEqual d e := lessb d e || equalb d e;
  pcomp_IsGreaterThan d e := lessb e d;
|}.

Lemma lessb_num x y : negb (Qle_bool y x) = true <-> (x < y)%Q.
Proof.
  rewrite negb_true_iff, <- not_true_iff_false, Qle_bool_iff. split; [apply Qnot_le_lt|apply Qlt_not_le].
Qed.

#[export] Instance data_laws : DatumLaws datum.
Proof.
  assert (forall x y, lessb (DNum x) (DNum y) = true <-> (x < y)%Q) as Hl by (intros; apply lessb_num).
  assert (forall x y, equalb (DNum x) (DNum y) = true <-> (x == y)%Q) as He by (intros; apply Qeq_bool_iff).
  split; simpl; try done.
  - split.
    + intros [|[]|x]; try done. by apply He.
    + intros [|[]|x] [|[]|y]; try done. rewrite !He. by intros ->.
    + intros [|[]|x] [|[]|y] [|[]|z]; try done. rewrite !He. by intros ->.
  - intros [|[]|x] [|[]|y] [|[]|z]; try done. rewrite !Hl. apply Qlt_trans.
  - intros [|[]|x] [|[]|y] [|[]|z]; try done. rewrite !Hl, He. by intros ? <-.
  - intros [|[]|x] [|[]|y] [|[]|z]; try done. rewrite !Hl, He. by intros ->.
  - intros [|[]|x]; try done. apply not_true_iff_false. rewrite Hl. apply Qlt_irrefl.
  - intros [|[]|x] [|[]|y]; auto. rewrite !Hl, He. destruct (Q_dec x y) as [[?|?]|?]; auto.
  - by intros [|[]|x] [|[]|y].
  - by intros [|[]|x] y [= <-].
  - by intros [|[]|x] y [= <-].
Qed.

(** The data of a column that is not of type bool are numbers. *)
#[export] Instance types : ColumnTypes datum :=
  fun c d => match d with DNull => False | DBool _ => colref_is_bool c = true | DNum _ => colref_is_bool c = false end.

#[export] Instance types_laws : TypeLaws datum.
Proof.
  split.
  - intros c [|b|q] Hb; unfold of_type, types; simpl.
    + split; [done|by intros []].
    + split; [by eexists|done].
    + split; [congruence|by intros []].
  - by intros c [].
Qed.

Definition a : CColRef := MkColRef 0 false true.

Lemma dense_a : dense a.
Proof.
  intros [l el u eu] Hr. pose proof (rw_proper _ _ Hr) as Hproper.
  assert (forall d, l = Some d -> exists x, d = DNum x) as Hl.
  { intros d ->. pose proof (rw_left_valid _ _ Hr d eq_refl) as Hd. destruct d; [done|done|by eexists]. }
  assert (forall d, u = Some d -> exists x, d = DNum x) as Hu.
  { intros d ->. pose proof (rw_right_valid _ _ Hr d eq_refl) as Hd. destruct d; [done|done|by eexists]. }
  assert (forall x, lessb (DNum x) (DNum (x + 1)) = true) as Hup.
  { intros x. apply lessb_num. rewrite <- (Qplus_0_r x) at 1. by apply Qplus_lt_r. }
  assert (forall x, lessb (DNum (x - 1)) (DNum x) = true) as Hdown.
  { intros x. apply lessb_num. rewrite <- (Qplus_0_r x) at 2. by apply Qplus_lt_r. }
  assert (forall x y, lessb (DNum x) (DNum y) = true -> lessb (DNum y) (DNum x) = false /\ equalb (DNum y) (DNum x) = false) as Hlt.
  { intros x y Hxy. destruct (datum_compare (D := datum) (DNum y) (DNum x)) as [(? & ? & Hc)|[(? & ? & Hc)|(? & ? & _)]];
      simpl in *; [congruence|congruence|done]. }
  destruct l as [dl|], u as [du|].
  - destruct (Hl dl eq_refl) as [x ->], (Hu du eq_refl) as [y ->].
    destruct (Qlt_le_dec x y) as [Hxy|Hyx].
    + exists (DNum ((x + y) / (1 + 1))). split; [done|].
      assert (lessb (DNum x) (DNum ((x + y) / (1 + 1))) = true /\ lessb (DNum ((x + y) / (1 + 1))) (DNum y) = true) as [H1 H2].
      { split; apply lessb_num; [apply Qlt_shift_div_l|apply Qlt_shift_div_r]; try done; lra. }
      unfold in_range, lo, hi. simpl in *. destruct (Hlt _ _ H2) as [H3 H4]. by rewrite H1, H3, H4.
    + exists (DNum x). split; [done|].
      unfold cut_leb, lo, hi in Hproper. simpl in Hproper. apply orb_false_iff in Hproper as [H1 H2].
      destruct (Qle_lt_or_eq _ _ Hyx) as [H3|H3]; [apply lessb_num in H3; congruence|].
      apply Qeq_bool_iff in H3. rewrite H3 in H2. destruct el, eu; try done.
      unfold in_range, lo, hi. simpl. rewrite H1, H3. rewrite (proj2 (Qeq_bool_iff x x)) by done. by rewrite orb_true_r.
  - destruct (Hl dl eq_refl) as [x ->]. exists (DNum (x + 1)). split; [done|].
    unfold in_range, lo, hi. simpl in *. by rewrite Hup.
  - destruct (Hu du eq_refl) as [y ->]. exists (DNum (y - 1)). split; [done|].
    unfold in_range, lo, hi. simpl in *. destruct (Hlt _ _ (Hdown y)) as [H3 H4]. by rewrite H3, H4.
  - by exists (DNum 0).
Qed.

(** [x = 1 OR x > 3], and [x > 4 OR x IS NULL]. *)
Definition one_or_large : CConstraintInterval datum :=
  MkInterval a [CRange_Cmp EcmptEq (DNum 1); CRange_Cmp EcmptG (DNum 3)] false.
Definition larger_or_null : CConstraintInterval datum := MkInterval a [CRange_Cmp EcmptG (DNum 4)] true.

Lemma one_or_large_wf : interval_wf one_or_large.
Proof.
  apply ranges_wf_cons. split; [by apply CRange_Cmp_wf|]. split; [by repeat constructor|].
  apply ranges_wf_cons. split; [by apply CRange_Cmp_wf|]. split; [constructor|apply ranges_wf_nil].
Qed.

Lemma larger_or_null_wf : interval_wf larger_or_null.
Proof. apply ranges_wf_cons. split; [by apply CRange_Cmp_wf|]. split; [constructor|apply ranges_wf_nil]. Qed.

End Numbers.
Import Numbers.

Example union_value : in_ranges (DNum 5) <$> (m_pdrgprng <$> PciUnion one_or_large larger_or_null) = Some true.
Proof. vm_compute. done. Qed.

Lemma interval_algebra_witness :
  yields a (PciUnion one_or_large larger_or_null)
    (fun v => in_interval v one_or_large = true \/ in_interval v larger_or_null = true) /\
  yields a (PciIntersect one_or_large larger_or_null)
    (fun v => in_interval v one_or_large = true /\ in_interval v larger_or_null = true) /\
  yields a (PciDifference one_or_large larger_or_null)
    (fun v => in_interval v one_or_large = true /\ in_interval v larger_or_null = false) /\
  yields a (PciComplement one_or_large) (fun v => in_interval v one_or_large = false).
Proof.
  apply (interval_algebra one_or_large larger_or_null); [exact one_or_large_wf|exact larger_or_null_wf|reflexivity|reflexivity].
Defined.

Lemma FContainsInterval_decides_witness :
  exists contains, FContainsInterval larger_or_null one_or_large = Some contains /\
    (contains = true -> forall v, of_column a v -> in_interval v one_or_large = true -> in_interval v larger_or_null = true) /\
    (contains = false -> false = false -> dense a ->
       exists v, of_column a v /\ in_interval v one_or_large = true /\ in_interval v larger_or_null = false).
Proof.
  apply (FContainsInterval_decides larger_or_null one_or_large); [exact larger_or_null_wf|exact one_or_large_wf|reflexivity].
Defined.
