(* ===== verification/ScalarExpr.v ===== *)
(** * Scalar expressions over one column

    The scalar operators from which interval constraints are derived, and to which
    they are turned back (libgpopt/include/gpopt/operators/CScalar*.h), the tests
    and constructors of CUtils.cpp, CCastUtils.cpp and CPredicateUtils.cpp that
    the derivation uses, and what an expression evaluates to in SQL's
    three-valued logic.

    Operators the derivation does not look into are [CScalarOther]; their values,
    those of casts, and those of comparisons of other kinds are the interface
    [Evaluation]. *)

From S2P Require Import Prelude Range Interval.

(** ** Syntax *)

Inductive EBoolOperator : Type := EboolopAnd | EboolopOr | EboolopNot.
Inductive EBoolTest : Type :=
  | EbtIsTrue | EbtIsNotTrue | EbtIsFalse | EbtIsNotFalse | EbtIsUnknown | EbtIsNotUnknown.
Inductive EArrCmpType : Type := EarrcmpAny | EarrcmpAll.

(** [CScalarArray]: either its elements are children, or they are constants kept in
    the operator.  The comparison of a [CScalarArrayCmp] is that of its
    operator. *)
Inductive CScalar (D : Type) : Type :=
  | CScalarIdent (pcr : CColRef)
  | CScalarConst (datum : D)
  | CScalarCast (IsBinaryCoercible : bool) (child : CScalar D)
  | CScalarCmp (cmp_type : ECmpType) (pexprLeft pexprRight : CScalar D)
  | CScalarIsDistinctFrom (pexprLeft pexprRight : CScalar D)
  | CScalarNullTest (child : CScalar D)
  | CScalarBooleanTest (ebt : EBoolTest) (child : CScalar D)
  | CScalarBoolOp (eboolop : EBoolOperator) (children : list (CScalar D))
  | CScalarArray (children : list (CScalar D)) (consts : list D)
  | CScalarArrayCoerceExpr (child : CScalar D)
  | CScalarArrayCmp (earrcmpt : EArrCmpType) (cmp_type : ECmpType) (pexprLeft pexprRight : CScalar D)
  | CScalarOther (id : N) (children : list (CScalar D)).
Arguments CScalarIdent {D}.
Arguments CScalarConst {D}.
Arguments CScalarCast {D}.
Arguments CScalarCmp {D}.
Arguments CScalarIsDistinctFrom {D}.
Arguments CScalarNullTest {D}.
Arguments CScalarBooleanTest {D}.
Arguments CScalarBoolOp {D}.
Arguments CScalarArray {D}.
Arguments CScalarArrayCoerceExpr {D}.
Arguments CScalarArrayCmp {D}.
Arguments CScalarOther {D}.

(** Induction with hypotheses for the children in lists. *)
Section scalar_ind.
Context {D : Type} (P : CScalar D -> Prop).
Context (Hident : forall pcr, P (CScalarIdent pcr)) (Hconst : forall datum, P (CScalarConst datum)).
Context (Hcast : forall b child, P child -> P (CScalarCast b child)).
Context (Hcmp : forall cmp_type l r, P l -> P r -> P (CScalarCmp cmp_type l r)).
Context (Hidf : forall l r, P l -> P r -> P (CScalarIsDistinctFrom l r)).
Context (Hnull : forall child, P child -> P (CScalarNullTest child)).
Context (Hbtest : forall ebt child, P child -> P (CScalarBooleanTest ebt child)).
Context (Hbool : forall op children, Forall P children -> P (CScalarBoolOp op children)).
Context (Harray : forall children consts, Forall P children -> P (CScalarArray children consts)).
Context (Hcoerce : forall child, P child -> P (CScalarArrayCoerceExpr child)).
Context (Hacmp : forall t cmp_type l r, P l -> P r -> P (CScalarArrayCmp t cmp_type l r)).
Context (Hother : forall id children, Forall P children -> P (CScalarOther id children)).

Fixpoint scalar_ind (e : CScalar D) : P e :=
  let fix go l : Forall P l :=
    match l with [] => Forall_nil_2 P | e :: l => Forall_cons_2 P e l (scalar_ind e) (go l) end in
  match e with
  | CScalarIdent pcr => Hident pcr
  | CScalarConst datum => Hconst datum
  | CScalarCast b child => Hcast b child (scalar_ind child)
  | CScalarCmp cmp_type l r => Hcmp cmp_type l r (scalar_ind l) (scalar_ind r)
  | CScalarIsDistinctFrom l r => Hidf l r (scalar_ind l) (scalar_ind r)
  | CScalarNullTest child => Hnull child (scalar_ind child)
  | CScalarBooleanTest ebt child => Hbtest ebt child (scalar_ind child)
  | CScalarBoolOp op children => Hbool op children (go children)
  | CScalarArray children consts => Harray children consts (go children)
  | CScalarArrayCoerceExpr child => Hcoerce child (scalar_ind child)
  | CScalarArrayCmp t cmp_type l r => Hacmp t cmp_type l r (scalar_ind l) (scalar_ind r)
  | CScalarOther id children => Hother id children (go children)
  end.
End scalar_ind.

(** ** Tests and constructors *)

Section scalar.
Context {D : Type} `{HD : IDatum D}.
Implicit Types (e : CScalar D).

Definition FScalarIdent e : bool := match e with CScalarIdent _ => true | _ => false end.
Definition FScalarConst e : bool := match e with CScalarConst _ => true | _ => false end.
Definition FScalarArray e : bool := match e with CScalarArray _ _ => true | _ => false end.
Definition FScalarArrayCmp e : bool := match e with CScalarArrayCmp _ _ _ _ => true | _ => false end.
Definition FOr e : bool := match e with CScalarBoolOp EboolopOr _ => true | _ => false end.
Definition FBinaryCoercibleCast e : bool := match e with CScalarCast b _ => b | _ => false end.
Definition FBinaryCoercibleCastedScId e : bool :=
  match e with CScalarCast true child => FScalarIdent child | _ => false end.
Definition FBinaryCoercibleCastedConst e : bool :=
  match e with CScalarCast true child => FScalarConst child | _ => false end.

Definition FScalarConstBool e (value : bool) : bool :=
  match e with
  | CScalarConst datum => match bool_value datum with Some b => Bool.eqb b value | None => false end
  | _ => false
  end.
Definition FScalarConstTrue e : bool := FScalarConstBool e true.
Definition FScalarConstFalse e : bool := FScalarConstBool e false.

Definition FCompareIdentToConst e : bool :=
  match e with
  | CScalarCmp _ l r =>
      if negb (FScalarIdent l || FBinaryCoercibleCastedScId l) then false
      else if negb (FScalarConst r || FBinaryCoercibleCastedConst r) then false
      else true
  | _ => false
  end.

Definition FIdentIDFConst e : bool :=
  match e with CScalarIsDistinctFrom l r => if negb (FScalarIdent l) then false else FScalarConst r | _ => false end.

(** The array below a coercion. *)
Definition PexprScalarArrayChild (pexprArray : CScalar D) : CScalar D :=
  match pexprArray with CScalarArrayCoerceExpr child => child | _ => pexprArray end.

Definition FScalarConstArray e : bool :=
  match e with CScalarArray children _ => forallb FScalarConst children | _ => false end.

(** The constants of an array; [None]: an element that is no constant, or no
    array. *)
Definition array_constants e : option (list D) :=
  match e with
  | CScalarArray [] consts => Some consts
  | CScalarArray children _ => mapM (fun c => match c with CScalarConst datum => Some datum | _ => None end) children
  | _ => None
  end.

Definition FCompareIdentToConstArray e : bool :=
  match e with
  | CScalarArrayCmp _ _ l r =>
      if negb (FScalarIdent l) || negb (FScalarArray r) then false else FScalarConstArray (PexprScalarArrayChild r)
  | _ => false
  end.

Definition FCompareCastIdentToConstArray e : bool :=
  match e with
  | CScalarArrayCmp _ _ l r =>
      match l with
      | CScalarCast true child => if FScalarIdent child then FScalarConstArray (PexprScalarArrayChild r) else false
      | _ => false
      end
  | _ => false
  end.

Definition PexprScalarConstBool (fval : bool) : CScalar D := CScalarConst (CreateBoolDatum fval).
Definition PexprScalarBoolOp (eboolop : EBoolOperator) (children : list (CScalar D)) : CScalar D :=
  CScalarBoolOp eboolop children.
Definition PexprNegate e : CScalar D := PexprScalarBoolOp EboolopNot [e].
Definition PexprIsNull e : CScalar D := CScalarNullTest e.
Definition PexprIsNotNull e : CScalar D := PexprNegate (PexprIsNull e).

Definition FSkippable e (fConjunction : bool) : bool :=
  (fConjunction && FScalarConstTrue e) || (negb fConjunction && FScalarConstFalse e).
Definition FReducible e (fConjunction : bool) : bool :=
  (fConjunction && FScalarConstFalse e) || (negb fConjunction && FScalarConstTrue e).

(** The loop of [PexprConjDisj]; [None]: a child decides the whole. *)
Fixpoint conj_disj_loop (pdrgpexpr : list (CScalar D)) (fConjunction : bool) (pdrgpexprFinal : list (CScalar D))
    : option (list (CScalar D)) :=
  match pdrgpexpr with
  | [] => Some pdrgpexprFinal
  | e :: pdrgpexpr =>
      if FSkippable e fConjunction then conj_disj_loop pdrgpexpr fConjunction pdrgpexprFinal
      else if FReducible e fConjunction then None
      else conj_disj_loop pdrgpexpr fConjunction (pdrgpexprFinal ++ [e])
  end.

Definition PexprConjDisj (pdrgpexpr : list (CScalar D)) (fConjunction : bool) : CScalar D :=
  match conj_disj_loop pdrgpexpr fConjunction [] with
  | None => PexprScalarConstBool (negb fConjunction)
  | Some [] => PexprScalarConstBool fConjunction
  | Some [e] => e
  | Some pdrgpexprFinal => PexprScalarBoolOp (if fConjunction then EboolopAnd else EboolopOr) pdrgpexprFinal
  end.

Definition PexprConjunction (pdrgpexpr : list (CScalar D)) : CScalar D := PexprConjDisj pdrgpexpr true.
Definition PexprDisjunction (pdrgpexpr : list (CScalar D)) : CScalar D := PexprConjDisj pdrgpexpr false.

(** [CollectDisjuncts] *)
Fixpoint PdrgpexprDisjuncts e : list (CScalar D) :=
  match e with
  | CScalarBoolOp EboolopOr children => concat (map PdrgpexprDisjuncts children)
  | _ => [e]
  end.

Definition PexprDisjunction_two (pexprOne pexprTwo : CScalar D) : CScalar D :=
  PexprConjDisj (PdrgpexprDisjuncts pexprOne ++ PdrgpexprDisjuncts pexprTwo) false.

End scalar.

(** ** Meaning *)

(** [cast_value]: a cast that is not binary coercible; [cmp_other]: a comparison
    that is none of the six orders. *)
Class Evaluation (D : Type) := {
  cast_value : option D -> option D;
  other_value : N -> list (option D) -> option D;
  cmp_other : D -> D -> option bool;
  other_array : N -> list (option D) -> list (option D);
}.

Definition not3 (x : option bool) : option bool := negb <$> x.
Definition and3 (x y : option bool) : option bool :=
  match x, y with
  | Some false, _ | _, Some false => Some false
  | Some true, Some true => Some true
  | _, _ => None
  end.
Definition or3 (x y : option bool) : option bool :=
  match x, y with
  | Some true, _ | _, Some true => Some true
  | Some false, Some false => Some false
  | _, _ => None
  end.

Section meaning.
Context {D : Type} `{HD : IDatum D} `{HE : !Evaluation D}.

Definition value_of (datum : D) : option D := if IsNull datum then None else Some datum.
(** The truth of a value, and the value of a truth. *)
Definition truth (x : option D) : option bool := d ← x; bool_value d.
Definition of_truth (t : option bool) : option D := CreateBoolDatum <$> t.

Definition compare_values (cmp_type : ECmpType) (x y : option D) : option bool :=
  match x, y with
  | Some a, Some b =>
      match cmp_type with EcmptIDF | EcmptOther => cmp_other a b | _ => Some (compares cmp_type a b) end
  | _, _ => None
  end.

Definition distinct (x y : option D) : bool :=
  match x, y with
  | None, None => false
  | Some a, Some b => negb (pcomp_Equals a b)
  | _, _ => true
  end.

Definition test_truth (ebt : EBoolTest) (t : option bool) : bool :=
  match ebt, t with
  | EbtIsTrue, Some true | EbtIsNotTrue, Some false | EbtIsNotTrue, None | EbtIsFalse, Some false
  | EbtIsNotFalse, Some true | EbtIsNotFalse, None | EbtIsUnknown, None | EbtIsNotUnknown, Some _ => true
  | _, _ => false
  end.

Definition bool_op (eboolop : EBoolOperator) (ts : list (option bool)) : option bool :=
  match eboolop with
  | EboolopAnd => foldr and3 (Some true) ts
  | EboolopOr => foldr or3 (Some false) ts
  | EboolopNot => t ← head ts; not3 t
  end.

Definition compare_array (earrcmpt : EArrCmpType) (cmp_type : ECmpType) (x : option D) (ys : list (option D)) : option bool :=
  match earrcmpt with
  | EarrcmpAny => foldr or3 (Some false) (map (compare_values cmp_type x) ys)
  | EarrcmpAll => foldr and3 (Some true) (map (compare_values cmp_type x) ys)
  end.

(** The value of an expression over the columns of a row. *)
Fixpoint eval (row : CColRef -> option D) (e : CScalar D) : option D :=
  match e with
  | CScalarIdent pcr => row pcr
  | CScalarConst datum => value_of datum
  | CScalarCast b child => if b then eval row child else cast_value (eval row child)
  | CScalarCmp cmp_type l r => of_truth (compare_values cmp_type (eval row l) (eval row r))
  | CScalarIsDistinctFrom l r => of_truth (Some (distinct (eval row l) (eval row r)))
  | CScalarNullTest child => of_truth (Some (match eval row child with None => true | Some _ => false end))
  | CScalarBooleanTest ebt child => of_truth (Some (test_truth ebt (truth (eval row child))))
  | CScalarBoolOp op children => of_truth (bool_op op (map (fun e => truth (eval row e)) children))
  | CScalarArray _ _ | CScalarArrayCoerceExpr _ => None
  | CScalarArrayCmp t cmp_type l r => of_truth (compare_array t cmp_type (eval row l) (array_values row r))
  | CScalarOther id children => other_value id (map (eval row) children)
  end
(** The elements of an array. *)
with array_values (row : CColRef -> option D) (e : CScalar D) : list (option D) :=
  match e with
  | CScalarArray [] consts => map value_of consts
  | CScalarArray children _ => map (eval row) children
  | CScalarArrayCoerceExpr child => array_values row child
  | CScalarIdent pcr => other_array 0 [row pcr]
  | CScalarOther id children => other_array id (map (eval row) children)
  | _ => []
  end.

(** The truth of an expression for a row, and for a value of its column. *)
Definition holds_row (row : CColRef -> option D) (e : CScalar D) : option bool := truth (eval row e).
Definition holds (v : option D) (e : CScalar D) : option bool := holds_row (fun _ => v) e.

End meaning.

(** ** Used columns *)

#[export] Instance CColRef_countable : Countable CColRef :=
  inj_countable' (fun c => (colref_id c, colref_is_bool c, colref_constrainable c))
    (fun '(id, is_bool, constrainable) => MkColRef id is_bool constrainable) (fun '(MkColRef _ _ _) => eq_refl).

(** [CExpression::DeriveUsedColumns] *)
Fixpoint used_columns {D} (e : CScalar D) : gset CColRef :=
  match e with
  | CScalarIdent pcr => {[pcr]}
  | CScalarConst _ => ∅
  | CScalarCast _ child | CScalarNullTest child | CScalarBooleanTest _ child | CScalarArrayCoerceExpr child => used_columns child
  | CScalarCmp _ l r | CScalarIsDistinctFrom l r | CScalarArrayCmp _ _ l r => used_columns l ∪ used_columns r
  | CScalarBoolOp _ children | CScalarArray children _ | CScalarOther _ children => ⋃ (map used_columns children)
  end.

Section columns.
Context {D : Type} `{HD : IDatum D} `{HE : !Evaluation D}.
Implicit Types (e : CScalar D) (row : CColRef -> option D).

(** Rows that agree on the columns used. *)
Definition agree row row' (cs : gset CColRef) : Prop := forall c, c ∈ cs -> row c = row' c.

Lemma agree_union row row' X Y : agree row row' (X ∪ Y) -> agree row row' X /\ agree row row' Y.
Proof. unfold agree. set_solver. Qed.

(** They give an expression the same value. *)
Lemma eval_agree row row' e : agree row row' (used_columns e) ->
  eval row e = eval row' e /\ array_values row e = array_values row' e.
Proof.
  assert (forall children : list (CScalar D),
    Forall (fun e => agree row row' (used_columns e) -> eval row e = eval row' e /\ array_values row e = array_values row' e) children ->
    agree row row' (⋃ (map used_columns children)) -> map (eval row) children = map (eval row') children) as Hlist.
  { induction 1 as [|x l Hx _ IH]; intros Hl; simpl in *; [done|]. apply agree_union in Hl as [H1 H2].
    destruct (Hx H1) as [-> _]. by rewrite (IH H2). }
  induction e using scalar_ind; intros Ha; simpl in Ha;
    repeat match goal with
    | H : agree _ _ (_ ∪ _) |- _ => apply agree_union in H as [? ?]
    | H : agree _ _ ?X -> _, H' : agree _ _ ?X |- _ => destruct (H H') as [? ?]; clear H
    | H : Forall _ _ |- _ => specialize (Hlist _ H Ha); clear H
    end; simpl; repeat match goal with H : eval row _ = _ |- _ => rewrite H end; try (split; congruence).
  - rewrite (Ha pcr) by set_solver. done.
  - split; [|done]. apply (f_equal (map truth)) in Hlist. rewrite !map_map in Hlist. by rewrite Hlist.
  - split; [done|]. by destruct children.
Qed.

Lemma holds_row_column row e c : used_columns e ⊆ {[c]} -> holds_row row e = holds (row c) e.
Proof.
  intros Hu. unfold holds, holds_row. f_equal. apply eval_agree. intros c' Hc'. apply Hu, elem_of_singleton in Hc'. congruence.
Qed.

End columns.
