(* ===== verification/IntervalExpr.v ===== *)
(** * Deriving intervals from predicates

    Model of [CConstraintInterval::PciIntervalFromScalarExpr] and the functions
    below it (libgpopt/src/base/CConstraintInterval.cpp), and of the sorted set of
    constants they use (CDatumSortedSet.cpp): the interval of the values of a
    column for which a predicate is true, or, when [infer_nulls_as] is set, true
    or null.

    The outer [None] is a violated assert or a null pointer that is followed, the
    inner one the null pointer the code returns when it derives nothing. *)

From S2P Require Import Prelude Range Interval ScalarExpr.
From Stdlib Require Import Lia QArith.

(** [IMDIndex::EmdindexType] *)
Inductive EmdindexType : Type :=
  | EmdindBtree | EmdindHash | EmdindBitmap | EmdindGist | EmdindGin | EmdindBrin | EmdindSentinel.

(** The trace flags, and [CPredicateUtils::FOpInOpfamily]. *)
Class DerivationSettings (D : Type) := {
  EopttraceArrayConstraints : bool;
  EopttraceConsiderOpfamiliesForDistribution : bool;
  FOpInOpfamily : CScalar D -> CScalar D -> EmdindexType -> bool;
}.

(** ** Sorted sets of constants *)

Section sorted_set.
Context {D : Type} `{HD : IDatum D}.

(** [CUtils::IDatumCmp] *)
Definition IDatumCmp (dat1 dat2 : D) : Z :=
  if pcomp_Equals dat1 dat2 then 0%Z else if pcomp_IsLessThan dat1 dat2 then (-1)%Z else 1%Z.

(** [CDynamicPtrArray::IsSorted] *)
Fixpoint IsSorted (elems : list D) : bool :=
  match elems with
  | x :: (y :: _) as rest => if (IDatumCmp x y >? 0)%Z then false else IsSorted rest
  | _ => true
  end.

Fixpoint insert_sorted (x : D) (elems : list D) : list D :=
  match elems with
  | [] => [x]
  | y :: rest => if (IDatumCmp x y >? 0)%Z then y :: insert_sorted x rest else x :: elems
  end.

(** The library's sort. *)
Definition sort_data (elems : list D) : list D := foldr insert_sorted [] elems.

(** The loop that leaves out repetitions. *)
Fixpoint deduplicate (pdatumPrev : D) (elems : list D) : list D :=
  match elems with
  | [] => []
  | x :: elems => if negb (pcomp_Equals x pdatumPrev) then x :: deduplicate x elems else deduplicate pdatumPrev elems
  end.

Definition CDatumSortedSet_New (consts : list D) : list D :=
  let aprngdatum := filter (fun d => IsNull d = false) consts in
  match (if IsSorted aprngdatum then aprngdatum else sort_data aprngdatum) with
  | [] => []
  | pdatumPrev :: elems => pdatumPrev :: deduplicate pdatumPrev elems
  end.

End sorted_set.

(** ** The derivation *)

Section derivation.
Context {D : Type} `{HD : IDatum D} `{HS : !DerivationSettings D}.
Implicit Types (colref : CColRef) (infer_nulls_as : bool).

Definition Derived : Type := option (option (CConstraintInterval D)).

Definition gpos_assert (b : bool) : option unit := if b then Some tt else None.

Definition PciRangeFromColConstCmp (cmp_type : ECmpType) (datum : D) : option (list (CRange D)) :=
  match cmp_type with
  | EcmptOther => None
  | EcmptNEq | EcmptIDF => Some [CRange_Cmp EcmptL datum; CRange_Cmp EcmptG datum]
  | _ => Some [CRange_Cmp cmp_type datum]
  end.

Definition PciIntervalFromColConstCmp colref (cmp_type : ECmpType) (datum : D) infer_nulls_as : option (CConstraintInterval D) :=
  pdrngprng ← PciRangeFromColConstCmp cmp_type datum;
  Some (MkInterval colref pdrngprng infer_nulls_as).

(** The column of an identifier, or of one under a cast. *)
Definition ident_column (e : CScalar D) : option CColRef :=
  match e with
  | CScalarIdent pcr => Some pcr
  | CScalarCast true (CScalarIdent pcr) => Some pcr
  | _ => None
  end.

Definition const_datum (e : CScalar D) : option D :=
  match e with
  | CScalarConst datum => Some datum
  | CScalarCast true (CScalarConst datum) => Some datum
  | _ => None
  end.

Definition PciIntervalFromScalarCmp (pexpr : CScalar D) colref infer_nulls_as (access_method : EmdindexType) : Derived :=
  match pexpr with
  | CScalarCmp cmp_type pexprLeft pexprRight =>
      if FCompareIdentToConst pexpr then
        if EopttraceConsiderOpfamiliesForDistribution &&
           (negb (FOpInOpfamily pexprLeft pexpr access_method) || negb (FOpInOpfamily pexprRight pexpr access_method))
        then Some None
        else
          pcr ← ident_column pexprLeft;
          _ ← gpos_assert (bool_decide (colref = pcr));
          datum ← const_datum pexprRight;
          Some (PciIntervalFromColConstCmp colref cmp_type datum infer_nulls_as)
      else Some None
  | _ => None
  end.

Definition PciIntervalFromScalarIDF (pexpr : CScalar D) colref : Derived :=
  match pexpr with
  | CScalarIsDistinctFrom pexprLeft pexprRight =>
      if FIdentIDFConst pexpr then
        match pexprLeft, pexprRight with
        | CScalarIdent pcr, CScalarConst datum =>
            _ ← gpos_assert (bool_decide (colref = pcr));
            if IsNull datum then
              pcri ← PciComplement (MkInterval colref [] true);
              Some (Some pcri)
            else
              match PciRangeFromColConstCmp EcmptIDF datum with
              | Some pdrgprng => Some (Some (MkInterval colref pdrgprng true))
              | None => Some None
              end
        | _, _ => None
        end
      else Some None
  | _ => None
  end.

Definition PciIntervalFromScalarNullAndUnknownTest (pexprChild : CScalar D) colref : Derived :=
  match pexprChild with
  | CScalarIdent pcr =>
      _ ← gpos_assert (bool_decide (colref = pcr));
      Some (Some (MkInterval colref [] true))
  | _ => Some None
  end.

(** The complement of what was derived for the child. *)
Definition complement_of (child : Derived) : Derived :=
  pciChild ← child;
  match pciChild with
  | None => Some None
  | Some pciChild => pciNot ← PciComplement pciChild; Some (Some pciNot)
  end.

(** [child]: the derivation for the child. *)
Definition PciIntervalFromScalarBooleanTest (child : bool -> Derived) (ebt : EBoolTest) (pexprChild : CScalar D) colref : Derived :=
  match ebt with
  | EbtIsTrue => child false
  | EbtIsNotFalse => child true
  | EbtIsNotTrue => complement_of (child (negb true))
  | EbtIsFalse => complement_of (child (negb false))
  | EbtIsUnknown => PciIntervalFromScalarNullAndUnknownTest pexprChild colref
  | EbtIsNotUnknown => complement_of (PciIntervalFromScalarNullAndUnknownTest pexprChild colref)
  end.

Definition PciIntervalFromScalarIdent colref infer_nulls_as : Derived :=
  _ ← gpos_assert (colref_is_bool colref);
  Some (Some (MkInterval colref [CRange_Cmp EcmptEq (CreateBoolDatum true)] infer_nulls_as)).

(** The intervals of the children of a disjunction; none if one is missing. *)
Fixpoint or_children (children : list Derived) : option (option (list (CConstraintInterval D))) :=
  match children with
  | [] => Some (Some [])
  | child :: children =>
      pciChild ← child;
      match pciChild with
      | None => Some None
      | Some pciChild =>
          child_constraints ← or_children children;
          Some (option_map (cons pciChild) child_constraints)
      end
  end.

(** One round of unions in pairs. *)
Fixpoint union_pairs (child_constraints : list (CConstraintInterval D)) : option (list (CConstraintInterval D)) :=
  match child_constraints with
  | pci1 :: pci2 :: child_constraints =>
      pciOr ← PciUnion pci1 pci2;
      constraints ← union_pairs child_constraints;
      Some (pciOr :: constraints)
  | _ => Some child_constraints
  end.

(** Rounds until one interval is left; [fuel] bounds them. *)
Fixpoint union_rounds (fuel : nat) (child_constraints : list (CConstraintInterval D)) : option (CConstraintInterval D) :=
  match child_constraints with
  | [dest] => Some dest
  | _ =>
      match fuel with
      | O => None
      | S fuel => constraints ← union_pairs child_constraints; union_rounds fuel constraints
      end
  end.

Definition PciIntervalFromScalarBoolOr (children : list Derived) : Derived :=
  _ ← gpos_assert (negb (Nat.eqb (length children) 0));
  child_constraints ← or_children children;
  match child_constraints with
  | None => Some None
  | Some child_constraints => dest ← union_rounds (length child_constraints) child_constraints; Some (Some dest)
  end.

(** The conjunction of what was derived so far and the children that are left. *)
Fixpoint and_loop (pci : option (CConstraintInterval D)) (children : list Derived) : Derived :=
  match children with
  | [] => Some pci
  | child :: children =>
      pciChild ← child;
      match pciChild, pci with
      | Some pciChild, Some pci => pciAnd ← PciIntersect pci pciChild; and_loop (Some pciAnd) children
      | Some pciChild, None => and_loop (Some pciChild) children
      | None, _ => and_loop pci children
      end
  end.

Definition PciIntervalFromScalarBoolAnd (children : list Derived) : Derived :=
  match children with
  | [] => None
  | child :: children => pci ← child; and_loop pci children
  end.

(** The ranges between the values that are left out, from the previous one on. *)
Fixpoint not_in_ranges (pprevdatum : option D) (data : list D) : option (list (CRange D)) :=
  match data with
  | [] =>
      _ ← pprevdatum;
      prng ← CRange_New pprevdatum EriExcluded None EriExcluded;
      Some [prng]
  | datum :: data =>
      prng ← CRange_New pprevdatum EriExcluded (Some datum) EriExcluded;
      prgrng ← not_in_ranges (Some datum) data;
      Some (prng :: prgrng)
  end.

Definition PcnstrIntervalFromScalarArrayCmp (pexpr : CScalar D) colref infer_nulls_as : Derived :=
  match pexpr with
  | CScalarArrayCmp _ cmp_type pexprLeft pexprRight =>
      if negb (FCompareIdentToConstArray pexpr || FCompareCastIdentToConstArray pexpr) then Some None
      else
        pcr ← ident_column pexprLeft;
        _ ← gpos_assert (bool_decide (colref = pcr));
        consts ← array_constants (PexprScalarArrayChild pexprRight);
        match consts with
        | [] => Some None
        | _ =>
            let apdatumsortedset := CDatumSortedSet_New consts in
            match cmp_type with
            | EcmptEq => Some (Some (MkInterval colref (map (CRange_Cmp EcmptEq) apdatumsortedset) infer_nulls_as))
            | EcmptNEq =>
                prgrng ← not_in_ranges None apdatumsortedset;
                Some (Some (MkInterval colref prgrng infer_nulls_as))
            | _ => Some None
            end
        end
  | _ => None
  end.

Fixpoint PciIntervalFromScalarExpr (pexpr : CScalar D) colref infer_nulls_as (access_method : EmdindexType) : Derived :=
  match pexpr with
  | CScalarNullTest pexprChild => PciIntervalFromScalarNullAndUnknownTest pexprChild colref
  | CScalarBooleanTest ebt pexprChild =>
      PciIntervalFromScalarBooleanTest (fun infer => PciIntervalFromScalarExpr pexprChild colref infer EmdindSentinel)
        ebt pexprChild colref
  | CScalarBoolOp EboolopAnd children =>
      PciIntervalFromScalarBoolAnd (map (fun c => PciIntervalFromScalarExpr c colref infer_nulls_as access_method) children)
  | CScalarBoolOp EboolopOr children =>
      PciIntervalFromScalarBoolOr (map (fun c => PciIntervalFromScalarExpr c colref infer_nulls_as access_method) children)
  | CScalarBoolOp EboolopNot children =>
      match children with
      | [] => None
      | child :: _ => complement_of (PciIntervalFromScalarExpr child colref (negb infer_nulls_as) EmdindSentinel)
      end
  | CScalarIdent _ => PciIntervalFromScalarIdent colref infer_nulls_as
  | CScalarCmp _ _ _ => PciIntervalFromScalarCmp pexpr colref infer_nulls_as access_method
  | CScalarIsDistinctFrom _ _ => PciIntervalFromScalarIDF pexpr colref
  | CScalarConst _ =>
      Some (if FScalarConstTrue pexpr then PciUnbounded colref true else Some (MkInterval colref [] false))
  | CScalarArrayCmp _ _ _ _ =>
      if EopttraceArrayConstraints then PcnstrIntervalFromScalarArrayCmp pexpr colref infer_nulls_as else Some None
  | _ => Some None
  end.

End derivation.

(** ** Sorted sets are sorted, and lose nothing *)

Section sorted_set_laws.
Context {D : Type} `{HL : DatumLaws D}.
Implicit Types (x y v : D) (l : list D).

Definition strictly x y : Prop := pcomp_IsLessThan x y = true.
Definition at_most x y : Prop := pcomp_IsLessThan y x = false.

Lemma IDatumCmp_at_most x y : (IDatumCmp x y >? 0)%Z = false <-> at_most x y.
Proof.
  unfold IDatumCmp, at_most. destruct (datum_compare x y) as [(-> & -> & ->)|[(-> & -> & ->)|(-> & -> & ->)]]; done.
Qed.

Lemma at_most_trans x y z : at_most x y -> at_most y z -> at_most x z.
Proof.
  unfold at_most. intros Hyx Hzy. apply not_true_iff_false. intros Hzx.
  destruct (datum_compare y x) as [(Hl & _)|[(_ & He & _)|(_ & _ & Hl)]]; [congruence| |].
  - rewrite Equals_sym_b in He. pose proof (IsLessThan_Equals _ _ _ Hzx He). congruence.
  - pose proof (IsLessThan_trans _ _ _ Hzx Hl). congruence.
Qed.

Lemma at_most_total x y : (IDatumCmp x y >? 0)%Z = true -> at_most y x.
Proof.
  unfold IDatumCmp, at_most. destruct (datum_compare x y) as [(-> & -> & _)|[(-> & -> & _)|(-> & -> & _)]]; done.
Qed.

Lemma IsSorted_sorted l : IsSorted l = true -> StronglySorted at_most l.
Proof.
  induction l as [|x [|y l] IH]; intros Hs; [constructor|by repeat constructor|].
  simpl in Hs. destruct (IDatumCmp x y >? 0)%Z eqn:Hxy; [done|]. apply IDatumCmp_at_most in Hxy.
  specialize (IH Hs). constructor; [done|]. apply StronglySorted_inv in IH as [_ Hy]. constructor; [done|].
  eapply Forall_impl; [exact Hy|]. intros z Hz. by apply (at_most_trans x y).
Qed.

Lemma insert_sorted_perm x l : insert_sorted x l ≡ₚ x :: l.
Proof. induction l as [|y l IH]; simpl; [done|]. destruct (_ >? _)%Z; [|done]. rewrite IH. apply Permutation_swap. Qed.

Lemma insert_sorted_sorted x l : StronglySorted at_most l -> StronglySorted at_most (insert_sorted x l).
Proof.
  induction l as [|y l IH]; intros Hl; simpl; [by repeat constructor|].
  destruct (IDatumCmp x y >? 0)%Z eqn:Hxy.
  - apply StronglySorted_inv in Hl as [Hl Hy]. constructor; [by apply IH|]. rewrite insert_sorted_perm.
    constructor; [by apply at_most_total|done].
  - apply IDatumCmp_at_most in Hxy. constructor; [done|]. constructor; [done|].
    apply StronglySorted_inv in Hl as [_ Hy]. eapply Forall_impl; [exact Hy|]. intros z Hz. by apply (at_most_trans x y).
Qed.

Lemma sort_data_sorted l : StronglySorted at_most (sort_data l) /\ sort_data l ≡ₚ l.
Proof.
  induction l as [|x l [IHs IHp]]; simpl; [by split; [constructor|]|].
  split; [by apply insert_sorted_sorted|]. rewrite insert_sorted_perm. by rewrite IHp.
Qed.

Definition equals_some v l : bool := existsb (pcomp_Equals v) l.

Lemma equals_some_perm v l l' : l ≡ₚ l' -> equals_some v l = equals_some v l'.
Proof.
  intros Hp. apply bool_iff_eq. unfold equals_some. rewrite !existsb_exists.
  split; intros (x & Hx & He); exists x; (split; [|done]); apply list_elem_of_In; apply list_elem_of_In in Hx;
    [by rewrite <- Hp|by rewrite Hp].
Qed.

Lemma Equals_left v x y : pcomp_Equals x y = true -> pcomp_Equals v x = pcomp_Equals v y.
Proof.
  intros Hxy. apply bool_iff_eq. split; intros Hv; [by apply (Equals_trans_b _ x)|].
  apply (Equals_trans_b _ y); [done|]. by rewrite Equals_sym_b.
Qed.

(** The repetitions of a sorted array follow each other. *)
Lemma deduplicate_spec l : forall x, StronglySorted at_most (x :: l) ->
  StronglySorted strictly (x :: deduplicate x l) /\
  (forall v, equals_some v (x :: deduplicate x l) = equals_some v (x :: l)) /\
  (forall P : D -> Prop, Forall P (x :: l) -> Forall P (x :: deduplicate x l)).
Proof.
  induction l as [|y l IH]; intros x Hs; simpl.
  { split; [by repeat constructor|done]. }
  apply StronglySorted_inv in Hs as [Hs [Hxy Hxl]%Forall_cons].
  destruct (pcomp_Equals y x) eqn:He; simpl.
  - assert (StronglySorted at_most (x :: l)) as Hs'.
    { apply StronglySorted_inv in Hs as [Hl _]. by constructor. }
    destruct (IH x Hs') as (Hd & Hv & HP). split; [done|]. split.
    + intros v. specialize (Hv v). simpl in Hv. rewrite Hv, (Equals_left v y x He). by destruct (pcomp_Equals v x).
    + intros P [Hx [_ Hl]%Forall_cons]%Forall_cons. apply HP. by constructor.
  - destruct (IH y Hs) as (Hd & Hv & HP).
    assert (strictly x y) as Hlt.
    { unfold strictly, at_most in *. destruct (datum_compare x y) as [(? & _)|[(_ & He' & _)|(_ & _ & ?)]]; [done| |congruence].
      rewrite Equals_sym_b in He'. congruence. }
    split; [|split].
    + constructor; [done|]. constructor; [done|]. apply StronglySorted_inv in Hd as [_ Hd].
      eapply Forall_impl; [exact Hd|]. intros z Hz. by apply (IsLessThan_trans _ y).
    + intros v. specialize (Hv v). simpl in Hv |- *. by rewrite Hv.
    + intros P [Hx HPl]%Forall_cons. constructor; [done|]. by apply HP.
Qed.

(** A sorted set holds the constants that are not null, in order, once. *)
Lemma CDatumSortedSet_spec consts : Forall (fun d => IsNull d = false) consts ->
  StronglySorted strictly (CDatumSortedSet_New consts) /\
  (forall v, equals_some v (CDatumSortedSet_New consts) = equals_some v consts) /\
  (forall P : D -> Prop, Forall P consts -> Forall P (CDatumSortedSet_New consts)) /\
  (consts <> [] -> CDatumSortedSet_New consts <> []).
Proof.
  intros Hn. unfold CDatumSortedSet_New.
  assert (filter (fun d => IsNull d = false) consts = consts) as ->.
  { induction Hn as [|d l Hd _ IH]; [done|]. rewrite filter_cons_True by done. by rewrite IH. }
  set (l := if IsSorted consts then consts else sort_data consts).
  assert (StronglySorted at_most l /\ l ≡ₚ consts) as [Hs Hp].
  { unfold l. destruct (IsSorted consts) eqn:Hi; [by split; [apply IsSorted_sorted|]|apply sort_data_sorted]. }
  clearbody l. destruct l as [|x l].
  - apply Permutation_nil in Hp as ->. split; [constructor|done].
  - destruct (deduplicate_spec l x Hs) as (Hd & Hv & HP). split; [done|]. split; [|split; [|done]].
    + intros v. rewrite Hv. by apply equals_some_perm.
    + intros P HPc. apply HP. by rewrite Hp.
Qed.

End sorted_set_laws.

(** ** Truth *)

Section qualifies.
Context {D : Type} `{HL : DatumLaws D} `{HE : !Evaluation D}.

(** A truth value that is accepted: true, or null when nulls are. *)
Definition qualifies (infer_nulls_as : bool) (t : option bool) : bool :=
  match t with Some b => b | None => infer_nulls_as end.

Lemma qualifies_not3 infer t : qualifies infer (not3 t) = negb (qualifies (negb infer) t).
Proof. destruct t; simpl; [done|]. by rewrite negb_involutive. Qed.

Lemma qualifies_and3 infer t u : qualifies infer (and3 t u) = qualifies infer t && qualifies infer u.
Proof. by destruct t as [[]|], u as [[]|], infer. Qed.

Lemma qualifies_or3 infer t u : qualifies infer (or3 t u) = qualifies infer t || qualifies infer u.
Proof. by destruct t as [[]|], u as [[]|], infer. Qed.

Lemma qualifies_all infer ts : qualifies infer (foldr and3 (Some true) ts) = forallb (qualifies infer) ts.
Proof. induction ts as [|t ts IH]; simpl; [done|]. by rewrite qualifies_and3, IH. Qed.

Lemma qualifies_any infer ts : qualifies infer (foldr or3 (Some false) ts) = existsb (qualifies infer) ts.
Proof. induction ts as [|t ts IH]; simpl; [done|]. by rewrite qualifies_or3, IH. Qed.

Lemma truth_of_truth (t : option bool) : truth (of_truth t) = t.
Proof. destruct t as [b|]; [|done]. simpl. apply CreateBoolDatum_value. Qed.

Lemma holds_bool_op v op children :
  holds v (CScalarBoolOp op children) = bool_op op (map (holds v) children).
Proof. unfold holds, holds_row. simpl. apply truth_of_truth. Qed.

End qualifies.

(** ** What is derived is what the predicate says *)

#[local] Arguments CRange_Cmp : simpl never.
#[local] Arguments in_range : simpl never.
#[local] Arguments cut_leb : simpl never.

Section exact.
Context {D : Type} `{HL : DatumLaws D} `{HT : !ColumnTypes D} `{HTL : !TypeLaws D} `{HS : !DerivationSettings D}
  `{HE : !Evaluation D}.
Implicit Types (e : CScalar D).

(** The settings let the operator of a comparison through. *)
Definition in_opfamily (access_method : EmdindexType) e l r : Prop :=
  EopttraceConsiderOpfamiliesForDistribution = false \/
  FOpInOpfamily l e access_method = true /\ FOpInOpfamily r e access_method = true.

(** The predicates over the column [c] the derivation understands as a whole, for
    an access method; below a negation and a test it asks for no particular one. *)
Inductive exact (c : CColRef) : EmdindexType -> CScalar D -> Prop :=
  | exact_ident access_method : colref_is_bool c = true -> exact c access_method (CScalarIdent c)
  | exact_const access_method d : is_Some (bool_value d) -> exact c access_method (CScalarConst d)
  | exact_cmp access_method cmp_type l r d : ident_column l = Some c -> const_datum r = Some d -> of_type c d ->
      cmp_type <> EcmptIDF -> cmp_type <> EcmptOther -> in_opfamily access_method (CScalarCmp cmp_type l r) l r ->
      exact c access_method (CScalarCmp cmp_type l r)
  | exact_distinct access_method d : IsNull d = true \/ of_type c d ->
      exact c access_method (CScalarIsDistinctFrom (CScalarIdent c) (CScalarConst d))
  | exact_null access_method : exact c access_method (CScalarNullTest (CScalarIdent c))
  | exact_test access_method ebt e : ebt <> EbtIsUnknown -> ebt <> EbtIsNotUnknown -> exact c EmdindSentinel e ->
      exact c access_method (CScalarBooleanTest ebt e)
  | exact_unknown access_method ebt : ebt = EbtIsUnknown \/ ebt = EbtIsNotUnknown -> colref_is_bool c = true ->
      exact c access_method (CScalarBooleanTest ebt (CScalarIdent c))
  | exact_not access_method e : exact c EmdindSentinel e -> exact c access_method (CScalarBoolOp EboolopNot [e])
  | exact_and access_method e children : exact c access_method e -> Forall (exact c access_method) children ->
      exact c access_method (CScalarBoolOp EboolopAnd (e :: children))
  | exact_or access_method e children : exact c access_method e -> Forall (exact c access_method) children ->
      exact c access_method (CScalarBoolOp EboolopOr (e :: children))
  | exact_array access_method t cmp_type l r consts : EopttraceArrayConstraints = true ->
      (t = EarrcmpAny /\ cmp_type = EcmptEq \/ t = EarrcmpAll /\ cmp_type = EcmptNEq) ->
      FCompareIdentToConstArray (CScalarArrayCmp t cmp_type l r) || FCompareCastIdentToConstArray (CScalarArrayCmp t cmp_type l r) = true ->
      ident_column l = Some c -> array_constants (PexprScalarArrayChild r) = Some consts -> consts <> [] ->
      Forall (of_type c) consts -> exact c access_method (CScalarArrayCmp t cmp_type l r).

(** The interval holds the values the predicate accepts. *)
Definition accepts (infer_nulls_as : bool) e (v : option D) : Prop := qualifies infer_nulls_as (holds v e) = true.

(** An interval is derived, and it is right. *)
Definition derives c (o : option (option (CConstraintInterval D))) (values : option D -> Prop) : Prop :=
  exists pci, o = Some (Some pci) /\ m_pcr pci = c /\ interval_wf pci /\
    forall v, of_column c v -> in_interval v pci = true <-> values v.

Lemma derives_iff c o values values' : (forall v, of_column c v -> values v <-> values' v) ->
  derives c o values -> derives c o values'.
Proof.
  intros Hiff (pci & Ho & Hc & Hwf & Hv). exists pci. do 3 (split; [done|]). intros v Hcol. rewrite <- Hiff by done. by apply Hv.
Qed.

Lemma yields_derives c o values : yields c o values -> derives c (pci ← o; Some (Some pci)) values.
Proof. intros (pci & -> & H'). by exists pci. Qed.

Lemma complement_of_derives c o values : colref_constrainable c = true -> derives c o values ->
  derives c (complement_of o) (fun v => ~ values v).
Proof.
  intros Hs (pci & -> & Hc & Hwf & Hv). simpl. rewrite <- Hc in Hs.
  destruct (PciComplement_yields pci Hwf Hs) as (pci' & -> & Hc' & Hwf' & Hv'). simpl. exists pci'.
  split; [done|]. split; [congruence|]. split; [done|]. rewrite Hc in *. intros v Hcol. rewrite (Hv' v Hcol).
  rewrite <- (Hv v Hcol). by destruct (in_interval v pci).
Qed.

Lemma single_range_wf c cmp_type d : of_type c d -> ranges_wf (of_type c) [CRange_Cmp cmp_type d].
Proof. intros Hd. apply ranges_wf_cons. split; [by apply CRange_Cmp_wf|]. split; [constructor|apply ranges_wf_nil]. Qed.

Lemma not_equal_wf c d : of_type c d -> ranges_wf (of_type c) [CRange_Cmp EcmptL d; CRange_Cmp EcmptG d].
Proof.
  intros Hd. apply ranges_wf_cons. split; [by apply CRange_Cmp_wf|]. split; [|by apply single_range_wf].
  constructor; [|constructor]. unfold gap, cut_leb. simpl. by rewrite IsLessThan_irrefl, andb_false_r.
Qed.

Lemma not_equal_values v d : in_ranges v [CRange_Cmp EcmptL d; CRange_Cmp EcmptG d] = negb (pcomp_Equals v d).
Proof.
  cbn [in_ranges existsb]. rewrite !CRange_Cmp_values by done. cbn [compares]. rewrite orb_false_r, IsGreaterThan_swap.
  destruct (datum_compare v d) as [(-> & -> & ->)|[(-> & -> & ->)|(-> & -> & ->)]]; done.
Qed.

(** A comparison with a constant. *)
Lemma PciIntervalFromColConstCmp_derives c cmp_type d infer : of_type c d -> cmp_type <> EcmptIDF -> cmp_type <> EcmptOther ->
  derives c (Some (PciIntervalFromColConstCmp c cmp_type d infer))
    (fun v => qualifies infer (compare_values cmp_type v (Some d)) = true).
Proof.
  intros Hd H1 H2. unfold PciIntervalFromColConstCmp, derives.
  destruct (decide (cmp_type = EcmptNEq)) as [->|H3].
  - simpl. eexists. do 2 (split; [done|]). split; [by apply not_equal_wf|]. intros [v|] _; [|done].
    unfold in_interval, m_pdrgprng. by rewrite not_equal_values.
  - assert (PciRangeFromColConstCmp cmp_type d = Some [CRange_Cmp cmp_type d]) as -> by by destruct cmp_type.
    simpl. eexists. do 2 (split; [done|]). split; [by apply single_range_wf|]. intros [v|] _; simpl; [|done].
    rewrite orb_false_r, CRange_Cmp_values by done. by destruct cmp_type.
Qed.

Lemma value_of_type c d : of_type c d -> value_of d = Some d.
Proof. intros Hd. unfold value_of. by rewrite (of_type_IsNull c). Qed.

Lemma ident_column_eval (row : CColRef -> option D) e c : ident_column e = Some c -> eval row e = row c.
Proof. destruct e as [| |[] [] | | | | | | | | |]; simpl; congruence. Qed.

Lemma const_datum_eval (row : CColRef -> option D) e c d : const_datum e = Some d -> of_type c d -> eval row e = Some d.
Proof. destruct e as [| |[] [] | | | | | | | | |]; simpl; intros [= ->]; apply value_of_type. Qed.

Lemma ident_column_test (l : CScalar D) c : ident_column l = Some c -> FScalarIdent l || FBinaryCoercibleCastedScId l = true.
Proof. by destruct l as [| |[] [] | | | | | | | | |]. Qed.

Lemma const_datum_test (r : CScalar D) d : const_datum r = Some d -> FScalarConst r || FBinaryCoercibleCastedConst r = true.
Proof. by destruct r as [| |[] [] | | | | | | | | |]. Qed.

Lemma cmp_derives c cmp_type l r d infer access_method : ident_column l = Some c -> const_datum r = Some d -> of_type c d ->
  cmp_type <> EcmptIDF -> cmp_type <> EcmptOther -> in_opfamily access_method (CScalarCmp cmp_type l r) l r ->
  derives c (PciIntervalFromScalarExpr (CScalarCmp cmp_type l r) c infer access_method) (accepts infer (CScalarCmp cmp_type l r)).
Proof.
  intros Hl Hr Hd H1 H2 Hop. cbn [PciIntervalFromScalarExpr PciIntervalFromScalarCmp FCompareIdentToConst].
  rewrite (ident_column_test l c Hl), (const_datum_test r d Hr). simpl negb. cbv iota.
  assert (EopttraceConsiderOpfamiliesForDistribution &&
    (negb (FOpInOpfamily l (CScalarCmp cmp_type l r) access_method) || negb (FOpInOpfamily r (CScalarCmp cmp_type l r) access_method)) = false)
    as ->.
  { destruct Hop as [->|[-> ->]]; [done|]. by rewrite andb_false_r. }
  rewrite Hl, Hr. simpl. rewrite bool_decide_eq_true_2 by done. simpl.
  eapply derives_iff; [|by apply PciIntervalFromColConstCmp_derives]. intros v _. unfold accepts, holds, holds_row. simpl.
  by rewrite truth_of_truth, (ident_column_eval _ l c Hl), (const_datum_eval _ r c d Hr Hd).
Qed.

Lemma ident_derives c infer access_method : colref_is_bool c = true ->
  derives c (PciIntervalFromScalarExpr (CScalarIdent c) c infer access_method) (accepts infer (CScalarIdent c)).
Proof.
  intros Hb. cbn [PciIntervalFromScalarExpr]. unfold PciIntervalFromScalarIdent, gpos_assert. rewrite Hb. simpl. eexists.
  do 2 (split; [done|]). split.
  - apply single_range_wf, of_type_bool; [done|]. by rewrite CreateBoolDatum_value.
  - intros [d|] Hd; [|done]. simpl. rewrite orb_false_r, CRange_Cmp_values by done. simpl. unfold accepts, holds, holds_row. simpl.
    destruct (proj1 (of_type_bool c d Hb) (Hd d eq_refl)) as [x Hx]. rewrite Hx. simpl.
    destruct (bool_compare d (CreateBoolDatum true) x true Hx (CreateBoolDatum_value true)) as [_ ->]. by destruct x.
Qed.

Lemma const_derives c d infer access_method : colref_constrainable c = true -> is_Some (bool_value d) ->
  derives c (PciIntervalFromScalarExpr (CScalarConst d) c infer access_method) (accepts infer (CScalarConst d)).
Proof.
  intros Hs [x Hx]. cbn [PciIntervalFromScalarExpr]. unfold FScalarConstTrue, FScalarConstBool. rewrite Hx.
  assert (forall v, accepts infer (CScalarConst d) v <-> x = true) as Hacc.
  { intros v. unfold accepts, holds, holds_row. simpl. unfold value_of. rewrite (bool_value_IsNull d x Hx). simpl. by rewrite Hx. }
  destruct x; simpl.
  - destruct (PciUnbounded_yields c true Hs) as (pci & -> & Hc & Hwf & Hv). exists pci. do 3 (split; [done|]).
    intros v Hcol. rewrite Hv, Hacc by done. naive_solver.
  - eexists. do 2 (split; [done|]). split; [apply ranges_wf_nil|]. intros v _. rewrite Hacc. by destruct v.
Qed.

Lemma empty_or_null_derives c ident : ident = CScalarIdent c ->
  derives c (PciIntervalFromScalarNullAndUnknownTest ident c) (fun v : option D => v = None).
Proof.
  intros ->. simpl. rewrite bool_decide_eq_true_2 by done. simpl. eexists. do 2 (split; [done|]).
  split; [apply ranges_wf_nil|]. by intros [d|] _.
Qed.

Lemma distinct_derives c d infer access_method : colref_constrainable c = true -> IsNull d = true \/ of_type c d ->
  derives c (PciIntervalFromScalarExpr (CScalarIsDistinctFrom (CScalarIdent c) (CScalarConst d)) c infer access_method)
    (accepts infer (CScalarIsDistinctFrom (CScalarIdent c) (CScalarConst d))).
Proof.
  intros Hs Hd. cbn [PciIntervalFromScalarExpr]. simpl. rewrite bool_decide_eq_true_2 by done. simpl.
  assert (forall v, accepts infer (CScalarIsDistinctFrom (CScalarIdent c) (CScalarConst d)) v <->
            distinct v (value_of d) = true) as Hacc.
  { intros v. unfold accepts, holds, holds_row. simpl. by rewrite CreateBoolDatum_value. }
  destruct (IsNull d) eqn:Hn.
  - assert (interval_wf (MkInterval c (@nil (CRange D)) true)) as Hwf by apply ranges_wf_nil.
    eapply derives_iff; [|apply yields_derives; apply (PciComplement_yields _ Hwf Hs)].
    intros v _. rewrite Hacc. unfold value_of. rewrite Hn. by destruct v.
  - destruct Hd as [?|Hd]; [congruence|]. eexists. do 2 (split; [done|]). split; [by apply not_equal_wf|].
    intros v _. rewrite Hacc, (value_of_type c d Hd). destruct v as [x|]; [|done].
    unfold in_interval, m_pdrgprng. by rewrite not_equal_values.
Qed.

(** *** Boolean operators *)

(** The intervals of the children, one by one. *)
Definition child_intervals c (values : list (option D -> Prop)) (pcis : list (CConstraintInterval D)) : Prop :=
  Forall2 (fun P pci => m_pcr pci = c /\ interval_wf pci /\ forall v, of_column c v -> in_interval v pci = true <-> P v)
    values pcis.

Lemma or_children_derives c (children : list (option (option (CConstraintInterval D)))) values :
  Forall2 (derives c) children values -> exists pcis, or_children children = Some (Some pcis) /\ child_intervals c values pcis.
Proof.
  induction 1 as [|child P children values (pci & -> & Hpci) _ (pcis & IHo & IH)]; [by exists []; split; [|constructor]|].
  simpl. rewrite IHo. simpl. exists (pci :: pcis). split; [done|]. by constructor.
Qed.

(** Some interval of a list holds the value. *)
Definition in_some (v : option D) (pcis : list (CConstraintInterval D)) : bool := existsb (in_interval v) pcis.
Definition all_of c (pcis : list (CConstraintInterval D)) : Prop := Forall (fun pci => m_pcr pci = c /\ interval_wf pci) pcis.

Lemma union_pairs_spec c pcis : all_of c pcis -> exists pcis', union_pairs pcis = Some pcis' /\ all_of c pcis' /\
  (length pcis' <= length pcis)%nat /\ (2 <= length pcis -> length pcis' < length pcis)%nat /\ (pcis <> [] -> pcis' <> []) /\
  forall v, of_column c v -> in_some v pcis' = in_some v pcis.
Proof.
  intros Hall. induction pcis as [pcis IH] using (induction_ltof1 _ length).
  destruct pcis as [|p1 [|p2 pcis]].
  { exists []. simpl. do 2 (split; [done|]). do 2 (split; [lia|]). done. }
  { exists [p1]. simpl. do 2 (split; [done|]). do 2 (split; [lia|]). done. }
  apply Forall_cons in Hall as [[Hc1 Hw1] [[Hc2 Hw2] Hall]%Forall_cons].
  destruct (PciUnion_yields p1 p2 Hw1 Hw2) as (p & Hu & Hc & Hw & Hv); [congruence|].
  destruct (IH pcis) as (pcis' & Hp & Hall' & Hlen & _ & _ & Hin); [unfold ltof; simpl; lia|done|].
  exists (p :: pcis'). simpl. rewrite Hu. simpl. rewrite Hp. simpl. split; [done|].
  split; [constructor; [split; [congruence|done]|done]|]. split; [lia|]. split; [lia|]. split; [done|].
  intros v Hcol. rewrite Hc1 in Hv. rewrite Hin by done. rewrite orb_assoc. f_equal. apply bool_iff_eq.
  rewrite Hv by done. symmetry. apply orb_true_iff.
Qed.

Lemma union_rounds_spec c fuel pcis : all_of c pcis -> pcis <> [] -> (length pcis <= fuel)%nat ->
  exists pci, union_rounds fuel pcis = Some pci /\ m_pcr pci = c /\ interval_wf pci /\
    forall v, of_column c v -> in_interval v pci = in_some v pcis.
Proof.
  revert pcis. induction fuel as [|fuel IH]; intros pcis Hall Hne Hlen; [destruct pcis; [done|simpl in Hlen; lia]|].
  destruct pcis as [|p1 [|p2 pcis]]; [done| |].
  { apply Forall_cons in Hall as [[Hc Hw] _]. exists p1. do 3 (split; [done|]). intros v _. simpl. by rewrite orb_false_r. }
  destruct (union_pairs_spec c (p1 :: p2 :: pcis) Hall) as (pcis' & Hp & Hall' & _ & Hlt & Hne' & Hin).
  destruct (IH pcis' Hall') as (pci & Hr & Hc & Hw & Hv); [by apply Hne'|simpl in *; lia|].
  exists pci. split; [|split; [done|split; [done|]]].
  - change (union_rounds (S fuel) (p1 :: p2 :: pcis)) with
      (constraints ← union_pairs (p1 :: p2 :: pcis); union_rounds fuel constraints). by rewrite Hp.
  - intros v Hcol. by rewrite Hv, Hin.
Qed.

Lemma child_intervals_all c values pcis : child_intervals c values pcis -> all_of c pcis.
Proof. induction 1 as [|P pci values pcis (Hc & Hw & _) _ IH]; constructor; done. Qed.

Lemma child_intervals_some c values pcis v : child_intervals c values pcis -> of_column c v ->
  in_some v pcis = true <-> Exists (fun P => P v) values.
Proof.
  intros Hci Hcol. induction Hci as [|P pci values pcis (Hc & Hw & Hv) _ IH]; simpl.
  - by rewrite Exists_nil.
  - rewrite orb_true_iff, Exists_cons, Hv, IH by done. done.
Qed.

Lemma or_derives c children values : Forall2 (derives c) children values -> children <> [] ->
  derives c (PciIntervalFromScalarBoolOr children) (fun v => Exists (fun P => P v) values).
Proof.
  intros Hall Hne. unfold PciIntervalFromScalarBoolOr. destruct (or_children_derives c children values Hall) as (pcis & -> & Hci).
  destruct (union_rounds_spec c (length pcis) pcis) as (pci & Hr & Hc & Hw & Hv); [by eapply child_intervals_all| |done|].
  { intros ->. apply Forall2_length in Hall. apply Forall2_length in Hci. destruct children; [done|]. simpl in *. lia. }
  destruct children as [|child children]; [done|]. simpl. rewrite Hr. simpl. exists pci. do 3 (split; [done|]).
  intros v Hcol. rewrite Hv by done. by eapply child_intervals_some.
Qed.

Lemma and_loop_derives c children : forall values pci P, Forall2 (derives c) children values ->
  m_pcr pci = c -> interval_wf pci -> (forall v, of_column c v -> in_interval v pci = true <-> P v) ->
  derives c (and_loop (Some pci) children) (fun v => P v /\ Forall (fun Q => Q v) values).
Proof.
  induction children as [|child children IH]; intros values pci P Hall Hc Hw Hv.
  { apply Forall2_nil_inv_l in Hall as ->. exists pci. do 3 (split; [done|]). intros v Hcol. rewrite Hv by done.
    split; [by split|]. by intros []. }
  apply Forall2_cons_inv_l in Hall as (Q & values' & (pci2 & -> & Hc2 & Hw2 & Hv2) & Hall & ->). simpl.
  destruct (PciIntersect_yields pci pci2 Hw Hw2) as (pci3 & -> & Hc3 & Hw3 & Hv3); [congruence|]. simpl.
  eapply derives_iff; [|apply (IH values' pci3 (fun v => P v /\ Q v)); [done|congruence|done|]].
  - intros v _. rewrite Forall_cons. tauto.
  - intros v Hcol. rewrite Hc in Hv3. by rewrite Hv3, Hv, Hv2.
Qed.

Lemma and_derives c children values : Forall2 (derives c) children values -> children <> [] ->
  derives c (PciIntervalFromScalarBoolAnd children) (fun v => Forall (fun P => P v) values).
Proof.
  intros Hall Hne. destruct children as [|child children]; [done|].
  apply Forall2_cons_inv_l in Hall as (P & values' & (pci & -> & Hc & Hw & Hv) & Hall & ->). simpl.
  eapply derives_iff; [|by apply and_loop_derives]. intros v _. by rewrite Forall_cons.
Qed.

(** The children of a boolean operator, each with what it derives. *)
Lemma children_derive c (f : CScalar D -> option (option (CConstraintInterval D))) infer children :
  Forall (fun e => derives c (f e) (accepts infer e)) children ->
  Forall2 (derives c) (map f children) (map (accepts infer) children).
Proof. induction 1; simpl; by constructor. Qed.

Lemma accepts_all infer children v :
  accepts infer (CScalarBoolOp EboolopAnd children) v <-> Forall (fun P => P v) (map (accepts infer) children).
Proof.
  unfold accepts. rewrite holds_bool_op. simpl. rewrite qualifies_all.
  induction children as [|e children IH]; simpl; [done|]. by rewrite andb_true_iff, Forall_cons, IH.
Qed.

Lemma accepts_any infer children v :
  accepts infer (CScalarBoolOp EboolopOr children) v <-> Exists (fun P => P v) (map (accepts infer) children).
Proof.
  unfold accepts. rewrite holds_bool_op. simpl. rewrite qualifies_any.
  induction children as [|e children IH]; simpl; [by rewrite Exists_nil|]. by rewrite orb_true_iff, Exists_cons, IH.
Qed.

Lemma accepts_not infer e v : accepts infer (CScalarBoolOp EboolopNot [e]) v <-> ~ accepts (negb infer) e v.
Proof.
  unfold accepts. rewrite holds_bool_op. simpl. rewrite qualifies_not3. destruct (qualifies _ _); naive_solver.
Qed.

(** *** Lists of constants *)

Lemma strictly_asym x y : strictly x y -> pcomp_IsLessThan y x = false /\ pcomp_Equals y x = false.
Proof.
  unfold strictly. intros Hxy.
  destruct (datum_compare y x) as [(_ & _ & ?)|[(_ & _ & ?)|(? & ? & _)]]; [congruence|congruence|done].
Qed.

(** The ranges of [IN] hold the constants. *)
Lemma in_list_spec c data : StronglySorted strictly data -> Forall (of_type c) data ->
  ranges_wf (of_type c) (map (CRange_Cmp EcmptEq) data) /\
  forall v, in_ranges v (map (CRange_Cmp EcmptEq) data) = equals_some v data.
Proof.
  intros Hs Ht. induction Hs as [|x data Hs IH Hx]; [split; [apply ranges_wf_nil|done]|].
  apply Forall_cons in Ht as [Hxc Ht]. destruct (IH Ht) as [Hwf Hv]. split.
  - apply ranges_wf_cons. split; [by apply CRange_Cmp_wf|]. split; [|done]. apply Forall_map.
    eapply Forall_impl; [exact Hx|]. intros y Hy. unfold gap, cut_leb. simpl.
    by destruct (strictly_asym x y Hy) as [-> ->].
  - intros v. simpl. by rewrite CRange_Cmp_values, Hv.
Qed.

(** Where the first range of [NOT IN] starts. *)
Definition first_cut (pprevdatum : option D) : cut D := lo (MkRange pprevdatum EriExcluded None EriExcluded).

Lemma equals_none_below v d data : pcomp_IsLessThan v d = true -> Forall (strictly d) data -> equals_some v data = false.
Proof.
  intros Hv Hd. induction Hd as [|x data Hx _ IH]; [done|]. simpl. rewrite IH, orb_false_r.
  destruct (strictly_asym v x) as [_ He]; [by apply (IsLessThan_trans _ d)|]. by rewrite Equals_sym_b.
Qed.

(** The ranges of [NOT IN] hold the values behind the previous constant that equal
    no constant. *)
Lemma not_in_list_spec c data : forall pprevdatum,
  StronglySorted strictly (option_list pprevdatum ++ data) -> Forall (of_type c) (option_list pprevdatum ++ data) ->
  option_list pprevdatum ++ data <> [] ->
  exists ranges, not_in_ranges pprevdatum data = Some ranges /\ ranges_wf (of_type c) ranges /\
    Forall (fun r => cut_leb (first_cut pprevdatum) (lo r) = true) ranges /\
    forall v, in_ranges v ranges = cut_leb (first_cut pprevdatum) (At v 1) && negb (equals_some v data).
Proof.
  induction data as [|d data IH]; intros prev Hs Ht Hne.
  { destruct prev as [p|]; [|done]. simpl. eexists. split; [done|]. split; [|split].
    - apply ranges_wf_cons. split; [|split; [constructor|apply ranges_wf_nil]]. split; simpl; try done.
      apply Forall_cons in Ht as [Hp _]. by intros ? [= <-].
    - constructor; [apply cut_leb_refl|constructor].
    - intros v. simpl. by rewrite orb_false_r. }
  assert (StronglySorted strictly (d :: data) /\ Forall (of_type c) (d :: data)) as [Hsd Htd].
  { destruct prev as [p|]; simpl in *; [|done]. apply StronglySorted_inv in Hs as [Hs _]. by apply Forall_cons in Ht as [_ Ht]. }
  destruct (IH (Some d) Hsd Htd) as (ranges & Hr & Hwf & Hlo & Hv); [done|].
  set (prng := MkRange prev EriExcluded (Some d) EriExcluded).
  assert (CRange_New prev EriExcluded (Some d) EriExcluded = Some prng) as Hnew.
  { destruct prev as [p|]; [|done]. simpl in *. apply StronglySorted_inv in Hs as [_ [Hpd _]%Forall_cons].
    unfold strictly in Hpd. by rewrite IsLessThanOrEqual_or, Hpd. }
  assert (cut_leb (hi prng) (first_cut prev) = false) as Hproper.
  { destruct prev as [p|]; [|done]. simpl in Hs. apply StronglySorted_inv in Hs as [_ [Hpd _]%Forall_cons].
    unfold cut_leb. simpl. by destruct (strictly_asym p d Hpd) as [-> ->]. }
  simpl. rewrite Hnew. simpl. rewrite Hr. simpl. exists (prng :: ranges). split; [done|]. split; [|split].
  - apply ranges_wf_cons. split; [split; simpl; try done|split; [|done]].
    + intros p ->. by apply Forall_cons in Ht as [? _].
    + intros ? [= <-]. by apply Forall_cons in Htd as [? _].
    + eapply Forall_impl; [exact Hlo|]. intros r Hdr. unfold gap.
      assert (cut_leb (first_cut (Some d)) (hi prng) = false) by (unfold cut_leb; simpl; by rewrite IsLessThan_irrefl, andb_false_r).
      simpl in Hdr. cut_lia.
  - constructor; [apply cut_leb_refl|]. eapply Forall_impl; [exact Hlo|]. intros r Hdr.
    assert (cut_leb (hi prng) (first_cut (Some d)) = true) by (unfold cut_leb; simpl; by rewrite Equals_refl_b, orb_true_r).
    simpl in Hdr. cut_lia.
  - intros v. apply StronglySorted_inv in Hsd as [_ Hd]. 
    change (in_ranges v (prng :: ranges)) with (in_range v prng || in_ranges v ranges). rewrite Hv. unfold in_range.
    change (lo prng) with (first_cut prev). change (hi prng) with (At d 0) in *. change (first_cut (Some d)) with (At d 2).
    destruct (datum_compare v d) as [(Hl & He & Hg)|[(Hl & He & Hg)|(Hl & He & Hg)]].
    + rewrite (equals_none_below v d data Hl Hd). unfold cut_leb at 2 3. rewrite Hg, Equals_sym_b, He. simpl.
      by rewrite orb_false_r.
    + unfold cut_leb at 2 3. rewrite Hg, (Equals_sym_b d v), He. simpl. by rewrite !andb_false_r.
    + assert (cut_leb (At d 0) (At v 1) = true) as Hdv by (unfold cut_leb; by rewrite Hg).
      assert (cut_leb (first_cut prev) (At v 1) = true) as -> by cut_lia. rewrite Hdv. unfold cut_leb. rewrite Hg, He. done.
Qed.

(** *** Comparisons with lists *)

Lemma any_equals v consts : Forall (fun d => IsNull d = false) consts ->
  foldr or3 (Some false) (map (compare_values EcmptEq (Some v)) (map value_of consts)) = Some (equals_some v consts).
Proof.
  induction 1 as [|d consts Hd _ IH]; [done|]. simpl. rewrite IH. unfold value_of. rewrite Hd. simpl.
  by destruct (pcomp_Equals v d), (equals_some v consts).
Qed.

Lemma all_differ v consts : Forall (fun d => IsNull d = false) consts ->
  foldr and3 (Some true) (map (compare_values EcmptNEq (Some v)) (map value_of consts)) = Some (negb (equals_some v consts)).
Proof.
  induction 1 as [|d consts Hd _ IH]; [done|]. simpl. rewrite IH. unfold value_of. rewrite Hd. simpl.
  by destruct (pcomp_Equals v d), (equals_some v consts).
Qed.

(** A comparison of null with some constants is null. *)
Lemma compare_array_null t cmp_type ys : ys <> [] -> compare_array t cmp_type None ys = None.
Proof.
  destruct ys as [|y ys]; [done|]. intros _. destruct t; simpl.
  - revert y. induction ys as [|z ys IH]; intros y; [done|]. simpl. by rewrite (IH z).
  - revert y. induction ys as [|z ys IH]; intros y; [done|]. simpl. by rewrite (IH z).
Qed.

Lemma array_constants_values (row : CColRef -> option D) (r : CScalar D) consts : array_constants (PexprScalarArrayChild r) = Some consts ->
  array_values row r = map value_of consts.
Proof.
  assert (forall e : CScalar D, array_constants e = Some consts -> array_values row e = map value_of consts) as Harray.
  { intros e He. destruct e as [| | | | | | | |children consts'| | |]; try done. destruct children as [|x children]; [by injection He as ->|].
    simpl in He. simpl. change (eval row x :: map (eval row) children) with (map (eval row) (x :: children)).
    change (mapM (fun c => match c with CScalarConst datum => Some datum | _ => None end) (x :: children) = Some consts) in He.
    revert consts He. generalize (x :: children). clear. intros l. induction l as [|e l IH]; intros consts He; simpl in *.
    - by injection He as <-.
    - apply bind_Some in He as (d & Hd & He). apply bind_Some in He as (consts' & Hl & He). injection He as <-.
      destruct e; try done. injection Hd as ->. simpl. by rewrite (IH consts' Hl). }
  destruct r; simpl; try done; [apply (Harray (CScalarArray _ _))|apply Harray].
Qed.

Lemma holds_array c v t cmp_type (l r : CScalar D) consts : ident_column l = Some c ->
  array_constants (PexprScalarArrayChild r) = Some consts ->
  holds v (CScalarArrayCmp t cmp_type l r) = compare_array t cmp_type v (map value_of consts).
Proof.
  intros Hl Hr. unfold holds, holds_row. simpl. by rewrite truth_of_truth, (ident_column_eval _ l c Hl), (array_constants_values _ r consts Hr).
Qed.

Lemma array_derives c t cmp_type l r consts infer access_method : EopttraceArrayConstraints = true ->
  (t = EarrcmpAny /\ cmp_type = EcmptEq \/ t = EarrcmpAll /\ cmp_type = EcmptNEq) ->
  FCompareIdentToConstArray (CScalarArrayCmp t cmp_type l r) || FCompareCastIdentToConstArray (CScalarArrayCmp t cmp_type l r) = true ->
  ident_column l = Some c -> array_constants (PexprScalarArrayChild r) = Some consts -> consts <> [] ->
  Forall (of_type c) consts ->
  derives c (PciIntervalFromScalarExpr (CScalarArrayCmp t cmp_type l r) c infer access_method)
    (accepts infer (CScalarArrayCmp t cmp_type l r)).
Proof.
  intros Hflag Ht Htest Hl Hr Hne Hc. cbn [PciIntervalFromScalarExpr PcnstrIntervalFromScalarArrayCmp].
  rewrite Hflag, Htest, Hl, Hr. simpl negb. cbv iota. simpl. rewrite bool_decide_eq_true_2 by done. simpl.
  assert (Forall (fun d => IsNull d = false) consts) as Hnull.
  { eapply Forall_impl; [exact Hc|]. intros d Hd. by apply (of_type_IsNull c). }
  destruct (CDatumSortedSet_spec consts Hnull) as (Hs & Hv & HP & Hne'). specialize (HP _ Hc). specialize (Hne' Hne).
  assert (forall v, holds v (CScalarArrayCmp t cmp_type l r) = compare_array t cmp_type v (map value_of consts)) as Hholds.
  { intros v. by apply (holds_array c). }
  assert (map (value_of (D := D)) consts <> []) as Hmap by by destruct consts.
  destruct consts as [|k consts]; [done|]. set (data := CDatumSortedSet_New (k :: consts)) in *. clearbody data.
  destruct Ht as [[-> ->]|[-> ->]].
  - destruct (in_list_spec c data Hs HP) as [Hwf Hin]. eexists. do 2 (split; [done|]). split; [done|].
    intros [v|] _; unfold accepts; rewrite Hholds; unfold in_interval, m_pdrgprng, m_fIncludesNull.
    + rewrite Hin, Hv. unfold compare_array. by rewrite any_equals.
    + by rewrite compare_array_null.
  - destruct (not_in_list_spec c data None Hs HP Hne') as (ranges & -> & Hwf & _ & Hin). simpl.
    eexists. do 2 (split; [done|]). split; [done|].
    intros [v|] _; unfold accepts; rewrite Hholds; unfold in_interval, m_pdrgprng, m_fIncludesNull.
    + rewrite Hin, Hv. unfold compare_array. by rewrite all_differ.
    + by rewrite compare_array_null.
Qed.

(** *** Tests *)

Lemma holds_test v ebt e : holds v (CScalarBooleanTest ebt e) = Some (test_truth ebt (holds v e)).
Proof. unfold holds, holds_row. simpl. by rewrite CreateBoolDatum_value. Qed.

Lemma accepts_test infer ebt e v :
  accepts infer (CScalarBooleanTest ebt e) v <-> test_truth ebt (holds v e) = true.
Proof. unfold accepts. by rewrite holds_test. Qed.

(** A test of a predicate is the predicate, or its negation, with nulls counted in or
    out. *)
Lemma test_derives c ebt e (f : bool -> option (option (CConstraintInterval D))) infer :
  colref_constrainable c = true -> ebt <> EbtIsUnknown -> ebt <> EbtIsNotUnknown ->
  (forall infer, derives c (f infer) (accepts infer e)) ->
  derives c (PciIntervalFromScalarBooleanTest f ebt e c) (accepts infer (CScalarBooleanTest ebt e)).
Proof.
  intros Hs H1 H2 Hf. destruct ebt; try done; simpl;
    (eapply derives_iff; [|first [apply complement_of_derives; [done|apply Hf]|apply Hf]]);
    intros v _; rewrite accepts_test; unfold accepts, qualifies; by destruct (holds v e) as [[]|].
Qed.

Lemma unknown_derives c ebt e infer : colref_constrainable c = true -> colref_is_bool c = true ->
  ebt = EbtIsUnknown \/ ebt = EbtIsNotUnknown -> e = CScalarIdent c ->
  forall f, derives c (PciIntervalFromScalarBooleanTest f ebt e c) (accepts infer (CScalarBooleanTest ebt e)).
Proof.
  intros Hs Hb Hebt -> f.
  assert (forall v, of_column c v -> holds v (CScalarIdent c) = None <-> v = None) as Hnull.
  { intros [d|] Hv; [|done]. unfold holds, holds_row. simpl. destruct (proj1 (of_type_bool c d Hb) (Hv d eq_refl)) as [x ->]. done. }
  destruct Hebt as [-> | ->]; unfold PciIntervalFromScalarBooleanTest;
    (eapply derives_iff; [|first [by apply complement_of_derives, empty_or_null_derives|by apply empty_or_null_derives]]);
    intros v Hv; rewrite accepts_test, <- (Hnull v Hv); by destruct (holds v (CScalarIdent c)).
Qed.

(** *** The whole expression *)

Lemma Forall_derives c infer access_method (children : list (CScalar D)) : Forall (exact c access_method) children ->
  Forall (fun e => forall infer access_method, exact c access_method e ->
    derives c (PciIntervalFromScalarExpr e c infer access_method) (accepts infer e)) children ->
  Forall (fun e => derives c (PciIntervalFromScalarExpr e c infer access_method) (accepts infer e)) children.
Proof. rewrite !Forall_forall. auto. Qed.

Lemma exact_derives c e : colref_constrainable c = true -> forall infer access_method, exact c access_method e ->
  derives c (PciIntervalFromScalarExpr e c infer access_method) (accepts infer e).
Proof.
  intros Hs.
  induction e as [pcr|d|b child _|cmp_type l r _ _|l r _ _|child _|ebt child IH|op children IH|children consts|child _|t cmp_type l r _ _|id children]
    using scalar_ind; intros infer access_method He; inversion He; subst.
  - by apply ident_derives.
  - by apply const_derives.
  - by eapply cmp_derives.
  - by apply distinct_derives.
  - eapply derives_iff; [|by apply empty_or_null_derives]. intros v _. unfold accepts, holds, holds_row. simpl.
    rewrite CreateBoolDatum_value. by destruct v.
  - apply test_derives; try done. intros i. by apply IH.
  - by apply unknown_derives.
  - apply Forall_cons in IH as [IH _]. eapply derives_iff; [|apply complement_of_derives; [done|by apply IH]].
    intros v _. by rewrite accepts_not.
  - eapply derives_iff; [intros v _; symmetry; apply accepts_all|]. apply and_derives; [|done].
    apply children_derive, Forall_derives; [by constructor|done].
  - eapply derives_iff; [intros v _; symmetry; apply accepts_any|]. apply or_derives; [|done].
    apply children_derive, Forall_derives; [by constructor|done].
  - by eapply array_derives.
Qed.

(** ** Predicates that are understood in part *)

(** An expression from which nothing is derived, for an access method. *)
Definition unsupported (access_method : EmdindexType) e : bool :=
  match e with
  | CScalarCmp _ l r =>
      negb (FCompareIdentToConst e) ||
      (EopttraceConsiderOpfamiliesForDistribution &&
       (negb (FOpInOpfamily l e access_method) || negb (FOpInOpfamily r e access_method)))
  | CScalarIsDistinctFrom _ _ => negb (FIdentIDFConst e)
  | CScalarNullTest child => negb (FScalarIdent child)
  | CScalarArrayCmp _ _ _ _ =>
      negb EopttraceArrayConstraints || negb (FCompareIdentToConstArray e || FCompareCastIdentToConstArray e)
  | CScalarCast _ _ | CScalarArray _ _ | CScalarArrayCoerceExpr _ | CScalarOther _ _ => true
  | _ => false
  end.

Lemma unsupported_derives_nothing e c infer access_method : unsupported access_method e = true ->
  PciIntervalFromScalarExpr e c infer access_method = Some None.
Proof.
  destruct e; intros Hu; try done; unfold unsupported in Hu; cbn [PciIntervalFromScalarExpr].
  - unfold PciIntervalFromScalarCmp. destruct (FCompareIdentToConst _); [|done]. simpl in Hu. by rewrite Hu.
  - apply negb_true_iff in Hu. unfold PciIntervalFromScalarIDF. by rewrite Hu.
  - by destruct e.
  - destruct EopttraceArrayConstraints; [|done]. rewrite orb_false_l in Hu.
    unfold PcnstrIntervalFromScalarArrayCmp. by rewrite Hu.
Qed.

(** Such expressions are under conjunctions, disjunctions and the tests that do not
    negate, never under a negation. *)
Inductive positive (c : CColRef) : EmdindexType -> CScalar D -> Prop :=
  | positive_exact access_method e : exact c access_method e -> positive c access_method e
  | positive_unsupported access_method e : unsupported access_method e = true -> positive c access_method e
  | positive_and access_method e children : positive c access_method e -> Forall (positive c access_method) children ->
      positive c access_method (CScalarBoolOp EboolopAnd (e :: children))
  | positive_or access_method e children : positive c access_method e -> Forall (positive c access_method) children ->
      positive c access_method (CScalarBoolOp EboolopOr (e :: children))
  | positive_test access_method ebt e : ebt = EbtIsTrue \/ ebt = EbtIsNotFalse -> positive c EmdindSentinel e ->
      positive c access_method (CScalarBooleanTest ebt e).

(** Nothing is derived, or an interval that holds the values. *)
Definition covers c (values : option D -> Prop) (pci : CConstraintInterval D) : Prop :=
  m_pcr pci = c /\ interval_wf pci /\ forall v, of_column c v -> values v -> in_interval v pci = true.
Definition bounds c (o : option (option (CConstraintInterval D))) (values : option D -> Prop) : Prop :=
  exists r, o = Some r /\ forall pci, r = Some pci -> covers c values pci.

Lemma derives_bounds c o values : derives c o values -> bounds c o values.
Proof.
  intros (pci & -> & Hc & Hw & Hv). eexists. split; [done|]. intros ? [= <-]. do 2 (split; [done|]). intros v Hcol. by apply Hv.
Qed.

Lemma covers_weaken c (values values' : option D -> Prop) pci :
  (forall v, values' v -> values v) -> covers c values pci -> covers c values' pci.
Proof. intros Himp (Hc & Hw & Hv). do 2 (split; [done|]). auto. Qed.

Lemma bounds_weaken c o (values values' : option D -> Prop) :
  (forall v, values' v -> values v) -> bounds c o values -> bounds c o values'.
Proof. intros Himp (r & -> & Hr). exists r. split; [done|]. intros pci ->. eapply covers_weaken; [exact Himp|by apply Hr]. Qed.

Lemma or_children_bounds c (children : list (option (option (CConstraintInterval D)))) values :
  Forall2 (bounds c) children values ->
  exists r, or_children children = Some r /\ forall pcis, r = Some pcis -> Forall2 (covers c) values pcis.
Proof.
  induction 1 as [|child P children values (r & -> & Hr) _ (rs & IHo & IH)].
  { exists (Some []). split; [done|]. intros ? [= <-]. constructor. }
  destruct r as [pci|]; simpl; [|by exists None]. rewrite IHo. simpl. eexists. split; [done|].
  intros pcis Hpcis. apply fmap_Some in Hpcis as (pcis' & -> & ->). constructor; auto.
Qed.

Lemma covers_some c values pcis v : Forall2 (covers c) values pcis -> of_column c v ->
  Exists (fun P => P v) values -> in_some v pcis = true.
Proof.
  intros Hall Hcol. induction Hall as [|P pci values pcis (Hc & Hw & Hv) _ IH]; intros Hex; [by apply Exists_nil in Hex|].
  simpl. apply Exists_cons in Hex as [HP|Hex]; [by rewrite Hv|]. rewrite IH by done. apply orb_true_r.
Qed.

Lemma or_bounds c children values : Forall2 (bounds c) children values -> children <> [] ->
  bounds c (PciIntervalFromScalarBoolOr children) (fun v => Exists (fun P => P v) values).
Proof.
  intros Hall Hne. unfold PciIntervalFromScalarBoolOr. destruct (or_children_bounds c children values Hall) as (r & -> & Hr).
  destruct children as [|child children]; [done|]. simpl. destruct r as [pcis|]; [|by exists None]. specialize (Hr pcis eq_refl).
  destruct (union_rounds_spec c (length pcis) pcis) as (pci & -> & Hc & Hw & Hv); [| |done|].
  - clear Hall Hne. induction Hr as [|P pci values pcis (Hc & Hw & _) _ IH]; by constructor.
  - intros ->. apply Forall2_length in Hall, Hr. simpl in *. lia.
  - simpl. eexists. split; [done|]. intros ? [= <-]. do 2 (split; [done|]). intros v Hcol Hex. rewrite Hv by done.
    by eapply covers_some.
Qed.

Lemma and_loop_bounds c children : forall values pci P, Forall2 (bounds c) children values ->
  (forall p, pci = Some p -> covers c P p) ->
  bounds c (and_loop pci children) (fun v => P v /\ Forall (fun Q => Q v) values).
Proof.
  induction children as [|child children IH]; intros values pci P Hall Hp.
  { apply Forall2_nil_inv_l in Hall as ->. exists pci. split; [done|]. intros p ->.
    eapply covers_weaken; [|by apply Hp]. by intros v []. }
  apply Forall2_cons_inv_l in Hall as (Q & values' & (r & -> & Hr) & Hall & ->). simpl.
  assert (forall pci', (forall p, pci' = Some p -> covers c (fun v => P v /\ Q v) p) ->
    bounds c (and_loop pci' children) (fun v => P v /\ Forall (fun Q => Q v) (Q :: values'))) as Hgo.
  { intros pci' Hp'. eapply bounds_weaken; [|by apply (IH values' pci' (fun v => P v /\ Q v))].
    intros v. rewrite Forall_cons. tauto. }
  destruct r as [q|], pci as [p|]; try apply Hgo.
  - destruct (Hp p eq_refl) as (Hc & Hw & Hv), (Hr q eq_refl) as (Hc2 & Hw2 & Hv2).
    destruct (PciIntersect_yields p q Hw Hw2) as (pq & -> & Hc3 & Hw3 & Hv3); [congruence|]. simpl. apply Hgo.
    intros ? [= <-]. rewrite Hc in Hc3, Hv3. do 2 (split; [done|]). intros v Hcol [HP HQ]. apply Hv3; [done|]. auto.
  - intros ? [= <-]. eapply covers_weaken; [|by apply Hr]. by intros v [].
  - intros ? [= <-]. eapply covers_weaken; [|by apply Hp]. by intros v [].
  - done.
Qed.

Lemma and_bounds c children values : Forall2 (bounds c) children values -> children <> [] ->
  bounds c (PciIntervalFromScalarBoolAnd children) (fun v => Forall (fun P => P v) values).
Proof.
  intros Hall Hne. destruct children as [|child children]; [done|].
  apply Forall2_cons_inv_l in Hall as (P & values' & (r & -> & Hr) & Hall & ->). simpl.
  eapply bounds_weaken; [|by apply and_loop_bounds]. intros v. by rewrite Forall_cons.
Qed.

Lemma Forall_bounds c infer access_method (children : list (CScalar D)) : Forall (positive c access_method) children ->
  Forall (fun e => forall infer access_method, positive c access_method e ->
    bounds c (PciIntervalFromScalarExpr e c infer access_method) (accepts infer e)) children ->
  Forall2 (bounds c) (map (fun e => PciIntervalFromScalarExpr e c infer access_method) children) (map (accepts infer) children).
Proof. induction 1; intros Hb; simpl; constructor; apply Forall_cons in Hb as []; auto. Qed.

Lemma positive_bounds c e : colref_constrainable c = true -> forall infer access_method, positive c access_method e ->
  bounds c (PciIntervalFromScalarExpr e c infer access_method) (accepts infer e).
Proof.
  intros Hs. induction e using scalar_ind; intros infer access_method He; inversion He; subst;
    try (by apply derives_bounds, exact_derives);
    try (by rewrite unsupported_derives_nothing by done; exists None).
  - cbn [PciIntervalFromScalarExpr].
    match goal with H : _ \/ _ |- _ => destruct H as [-> | ->] end; simpl;
      (eapply bounds_weaken; [|by apply IHe]); intros v; rewrite accepts_test; unfold accepts, qualifies;
      by destruct (holds v e) as [[]|].
  - eapply bounds_weaken; [intros v; apply accepts_all|]. apply (and_bounds c (map _ (_ :: _))); [|done].
    apply Forall_bounds; [by constructor|done].
  - eapply bounds_weaken; [intros v; apply accepts_any|]. apply (or_bounds c (map _ (_ :: _))); [|done].
    apply Forall_bounds; [by constructor|done].
Qed.

End exact.

(** ** Properties *)

(** C4: for a predicate the derivation understands as a whole (comparisons with
    constants whose operators are in the operator families asked for, distinctness,
    null and boolean tests, IN and NOT IN lists, under any conjunctions,
    disjunctions, negations and tests), an interval is derived, its array is sorted
    with gaps, and a value of the column, null included, is in it exactly when the
    predicate is true for it (or null, when nulls are to be inferred); no assert is
    violated on the way. *)
Theorem interval_exact {D : Type} `{HL : DatumLaws D} `{HT : !ColumnTypes D} `{HTL : !TypeLaws D} `{HS : !DerivationSettings D}
    `{HE : !Evaluation D} (c : CColRef) (e : CScalar D) (infer_nulls_as : bool) (access_method : EmdindexType) :
  colref_constrainable c = true -> exact c access_method e ->
  exists pci, PciIntervalFromScalarExpr e c infer_nulls_as access_method = Some (Some pci) /\
    m_pcr pci = c /\ interval_wf pci /\
    forall v, of_column c v ->
      in_interval v pci = true <-> (holds v e = Some true \/ (infer_nulls_as = true /\ holds v e = None)).
Proof.
  intros Hs He. destruct (exact_derives c e Hs infer_nulls_as access_method He) as (pci & Ho & Hc & Hw & Hv).
  exists pci. do 3 (split; [done|]). intros v Hcol. rewrite Hv by done. unfold accepts, qualifies.
  destruct (holds v e) as [[]|], infer_nulls_as; naive_solver.
Qed.

(** C5: when parts from which nothing is derived stand under conjunctions,
    disjunctions and the tests IS TRUE and IS NOT FALSE, the derivation still
    answers without a violated assert, and the interval, if there is one, holds
    every value for which the predicate is true; so a predicate with a
    contradictory interval is true for no value. *)
Theorem interval_sound {D : Type} `{HL : DatumLaws D} `{HT : !ColumnTypes D} `{HTL : !TypeLaws D} `{HS : !DerivationSettings D}
    `{HE : !Evaluation D} (c : CColRef) (e : CScalar D) (infer_nulls_as : bool) (access_method : EmdindexType) :
  colref_constrainable c = true -> positive c access_method e ->
  exists r, PciIntervalFromScalarExpr e c infer_nulls_as access_method = Some r /\
    forall pci, r = Some pci ->
      interval_wf pci /\
      (forall v, of_column c v -> holds v e = Some true -> in_interval v pci = true) /\
      (FContradiction pci = true -> forall v, of_column c v -> holds v e <> Some true).
Proof.
  intros Hs He. destruct (positive_bounds c e Hs infer_nulls_as access_method He) as (r & Ho & Hr).
  exists r. split; [done|]. intros pci ->. destruct (Hr pci eq_refl) as (Hc & Hw & Hv).
  assert (forall v, of_column c v -> holds v e = Some true -> in_interval v pci = true) as Hin.
  { intros v Hcol Hh. apply Hv; [done|]. unfold accepts. by rewrite Hh. }
  split; [done|]. split; [done|]. intros Hf v Hcol Hh. rewrite <- Hc in Hcol.
  pose proof (FContradiction_sound pci Hw Hf v Hcol) as Hno. rewrite Hc in Hcol. by rewrite Hin in Hno.
Qed.

(** C9: below a negation this fails: the conjunction drops the part from which it
    derives nothing, the complement of what is left is too small, and the interval
    of [(c > d AND f) IS NOT TRUE] (and of [NOT (c > d AND f)]), with [>] in the
    operator families asked for, leaves out a value beyond [d] for which [f] is
    false, although the predicate is true for it. *)
Theorem negated_conjunction_unsound {D : Type} `{HL : DatumLaws D} `{HT : !ColumnTypes D} `{HTL : !TypeLaws D}
    `{HS : !DerivationSettings D} `{HE : !Evaluation D} (c : CColRef) (d v : D) (f : CScalar D) (negation : CScalar D -> CScalar D) :
  colref_constrainable c = true -> of_type c d -> of_type c v -> unsupported EmdindSentinel f = true ->
  in_opfamily EmdindSentinel (CScalarCmp EcmptG (CScalarIdent c) (CScalarConst d)) (CScalarIdent c) (CScalarConst d) ->
  negation = PexprNegate \/ negation = CScalarBooleanTest EbtIsNotTrue ->
  pcomp_IsLessThan d v = true -> holds (Some v) f = Some false ->
  let e := negation (PexprScalarBoolOp EboolopAnd [CScalarCmp EcmptG (CScalarIdent c) (CScalarConst d); f]) in
  holds (Some v) e = Some true /\
  exists pci, PciIntervalFromScalarExpr e c false EmdindSentinel = Some (Some pci) /\ in_interval (Some v) pci = false.
Proof.
  intros Hs Hd Hv Hu Hop Hneg Hlt Hf e.
  set (cmp := CScalarCmp EcmptG (CScalarIdent c) (CScalarConst d)) in *.
  set (conjunction := PexprScalarBoolOp EboolopAnd [cmp; f]) in *.
  assert (holds (Some v) cmp = Some true) as Htrue.
  { unfold holds, holds_row, cmp. simpl. rewrite (value_of_type c d Hd). simpl. rewrite CreateBoolDatum_value, IsGreaterThan_swap. by rewrite Hlt. }
  assert (holds (Some v) conjunction = Some false) as Hfalse.
  { unfold conjunction, PexprScalarBoolOp. rewrite holds_bool_op. simpl. by rewrite Htrue, Hf. }
  assert (forall infer, exists pci,
    complement_of (PciIntervalFromScalarExpr conjunction c infer EmdindSentinel) = Some (Some pci) /\
    in_interval (Some v) pci = false) as Hout.
  { intros infer. assert (exact c EmdindSentinel cmp) as Hexact by (by eapply (exact_cmp c _ _ _ _ d)).
    pose proof (exact_derives c cmp Hs infer EmdindSentinel Hexact) as Hcmp.
    assert (PciIntervalFromScalarExpr conjunction c infer EmdindSentinel = PciIntervalFromScalarExpr cmp c infer EmdindSentinel) as ->.
    { change (PciIntervalFromScalarBoolAnd [PciIntervalFromScalarExpr cmp c infer EmdindSentinel;
        PciIntervalFromScalarExpr f c infer EmdindSentinel] = PciIntervalFromScalarExpr cmp c infer EmdindSentinel).
      rewrite (unsupported_derives_nothing f) by done. destruct Hcmp as (pci & -> & _). done. }
    destruct (complement_of_derives c _ _ Hs Hcmp) as (pci & Hpci & _ & _ & Hin). exists pci. split; [done|].
    apply not_true_iff_false. rewrite Hin by (by intros ? [= <-]). unfold accepts. rewrite Htrue. naive_solver. }
  destruct Hneg as [-> | ->]; (split; [|apply Hout]).
  - unfold e, PexprNegate, PexprScalarBoolOp. rewrite holds_bool_op. simpl. by rewrite Hfalse.
  - unfold e. by rewrite holds_test, Hfalse.
Qed.

(** ** Instances *)

Import Numbers.

#[local] Instance settings : DerivationSettings datum := {|
  EopttraceArrayConstraints := true;
  EopttraceConsiderOpfamiliesForDistribution := false;
  FOpInOpfamily _ _ _ := true;
|}.

(** The opaque function 0 is false for every value. *)
#[local] Instance evaluation : Evaluation datum := {|
  cast_value v := v;
  other_value _ _ := Some (DBool false);
  cmp_other _ _ := None;
  other_array _ _ := [];
|}.

Definition greater (d : datum) : CScalar datum := CScalarCmp EcmptG (CScalarIdent a) (CScalarConst d).

(** [NOT (a > 1 AND a NOT IN (3, 2)) OR a IS NULL] *)
Definition predicate : CScalar datum :=
  PexprScalarBoolOp EboolopOr
    [PexprNegate (PexprScalarBoolOp EboolopAnd
       [greater (DNum 1); CScalarArrayCmp EarrcmpAll EcmptNEq (CScalarIdent a) (CScalarArray [] [DNum 3; DNum 2])]);
     PexprIsNull (CScalarIdent a)].

Lemma greater_exact access_method d : of_type a d -> exact a access_method (greater d).
Proof. intros Hd. apply (exact_cmp a access_method EcmptG _ _ d); [done|done|exact Hd|done|done|by left]. Qed.

Lemma predicate_exact access_method : exact a access_method predicate.
Proof.
  apply exact_or.
  - apply exact_not, exact_and; [by apply greater_exact|]. constructor; [|constructor].
    apply (exact_array a EmdindSentinel EarrcmpAll EcmptNEq _ _ [DNum 3; DNum 2]); [done|by right|done|done|done|done|].
    by repeat constructor.
  - constructor; [apply exact_null|constructor].
Qed.

Example predicate_interval :
  (fun pci => map (fun v => in_interval v pci) [None; Some (DNum 0); Some (DNum 2); Some (DNum 3); Some (DNum 4)]) <$>
    (r ← PciIntervalFromScalarExpr predicate a false EmdindSentinel; r) = Some [true; true; true; true; false].
Proof. vm_compute. done. Qed.

Lemma interval_exact_witness :
  exists pci, PciIntervalFromScalarExpr predicate a false EmdindSentinel = Some (Some pci) /\
    m_pcr pci = a /\ interval_wf pci /\
    forall v, of_column a v ->
      in_interval v pci = true <-> (holds v predicate = Some true \/ (false = true /\ holds v predicate = None)).
Proof. apply (interval_exact a predicate); [reflexivity|apply predicate_exact]. Defined.

(** [a > 1 AND f(a)] *)
Definition partial_predicate : CScalar datum :=
  PexprScalarBoolOp EboolopAnd [greater (DNum 1); CScalarOther 0 [CScalarIdent a]].

Lemma partial_predicate_positive access_method : positive a access_method partial_predicate.
Proof.
  apply positive_and; [by apply positive_exact, greater_exact|]. constructor; [by apply positive_unsupported|constructor].
Qed.

Lemma interval_sound_witness :
  exists r, PciIntervalFromScalarExpr partial_predicate a false EmdindSentinel = Some r /\
    forall pci, r = Some pci ->
      interval_wf pci /\
      (forall v, of_column a v -> holds v partial_predicate = Some true -> in_interval v pci = true) /\
      (FContradiction pci = true -> forall v, of_column a v -> holds v partial_predicate <> Some true).
Proof. apply (interval_sound a partial_predicate); [reflexivity|apply partial_predicate_positive]. Defined.

Lemma negated_conjunction_unsound_witness :
  let e := CScalarBooleanTest EbtIsNotTrue partial_predicate in
  holds (Some (DNum 7)) e = Some true /\
  exists pci, PciIntervalFromScalarExpr e a false EmdindSentinel = Some (Some pci) /\ in_interval (Some (DNum 7)) pci = false.
Proof.
  apply (negated_conjunction_unsound a (DNum 1) (DNum 7) (CScalarOther 0 [CScalarIdent a]) (CScalarBooleanTest EbtIsNotTrue));
    [reflexivity|reflexivity|reflexivity|reflexivity|by left|by right|reflexivity|reflexivity].
Defined.
