(* ===== verification/IntervalScalar.v ===== *)
(** * From intervals back to predicates

    Model of [CRange::PexprScalar] (CRange.cpp), of
    [CConstraintInterval::PexprConstructScalar] and the functions below it
    (CConstraintInterval.cpp), and of [CUtils::PexprScalarArrayCmp]: the predicate
    an interval stands for, which says the same and from which the same values are
    derived again. *)

From S2P Require Import Prelude Range Interval ScalarExpr IntervalExpr.
From Stdlib Require Import Lia ZifyBool QArith.

(** The metadata that is looked up for a comparison of a column with a constant:
    the casts around its sides, whether it exists, and whether the column has an
    array type and the comparison an operator. *)
Class ComparisonMetadata (D : Type) := {
  ApplyCastsForScCmp : ECmpType -> CScalar D -> CScalar D -> CScalar D * CScalar D;
  FCmpOrCastedCmpExists : CColRef -> D -> ECmpType -> bool;
  array_comparison_valid : CColRef -> ECmpType -> bool;
}.

(** ** Construction *)

Section construction.
Context {D : Type} `{HD : IDatum D} `{HS : !DerivationSettings D} `{HM : !ComparisonMetadata D}.
Implicit Types (this : CRange D) (pci : CConstraintInterval D) (colref : CColRef).

(** [CUtils::PexprScalarCmp] of a column and a constant. *)
Definition PexprScalarCmp colref (datum : D) (cmp_type : ECmpType) : CScalar D :=
  let '(pexprNewLeft, pexprNewRight) := ApplyCastsForScCmp cmp_type (CScalarIdent colref) (CScalarConst datum) in
  CScalarCmp cmp_type pexprNewLeft pexprNewRight.

(** The overload that takes the operator's id. *)
Definition PexprScalarCmp_op colref (datum : D) (cmp_type : ECmpType) : CScalar D :=
  match cmp_type with
  | EcmptOther => CScalarCmp cmp_type (CScalarIdent colref) (CScalarConst datum)
  | _ =>
      if FCmpOrCastedCmpExists colref datum cmp_type then PexprScalarCmp colref datum cmp_type
      else CScalarCmp cmp_type (CScalarIdent colref) (CScalarConst datum)
  end.

(** The outer [None] is a violated assert; the inner one the null pointer. *)
Definition PexprScalarArrayCmp (earrcmptype : EArrCmpType) (ecmptype : ECmpType) (consts : list D) colref
    : option (option (CScalar D)) :=
  _ ← gpos_assert (negb (Nat.eqb (length consts) 0));
  if negb (array_comparison_valid colref ecmptype) then Some None
  else match consts with
       | [datum] => Some (Some (PexprScalarCmp_op colref datum ecmptype))
       | _ => Some (Some (CScalarArrayCmp earrcmptype ecmptype (CScalarIdent colref) (CScalarArray (map CScalarConst consts) [])))
       end.

Definition PexprEquality this colref : option (CScalar D) :=
  match m_pdatumLeft this, m_pdatumRight this with
  | Some l, Some r =>
      if negb (pcomp_Equals l r) || negb (included (m_eriLeft this)) || negb (included (m_eriRight this)) then None
      else Some (PexprScalarCmp colref l EcmptEq)
  | _, _ => None
  end.

Definition PexprScalarCompEnd (datum : option D) (eri : ERangeInclusion) (ecmptIncl ecmptExcl : ECmpType) colref
    : option (CScalar D) :=
  match datum with
  | None => None
  | Some datum => Some (PexprScalarCmp colref datum (if included eri then ecmptIncl else ecmptExcl))
  end.

(** [CRange::PexprScalar] *)
Definition Range_PexprScalar this colref : CScalar D :=
  match PexprEquality this colref with
  | Some pexprEq => pexprEq
  | None =>
      let pexprLeft := PexprScalarCompEnd (m_pdatumLeft this) (m_eriLeft this) EcmptGEq EcmptG colref in
      let pexprRight := PexprScalarCompEnd (m_pdatumRight this) (m_eriRight this) EcmptLEq EcmptL colref in
      PexprConjunction (option_list pexprLeft ++ option_list pexprRight)
  end.

(** The loop over the ranges; a null datum may be compared. *)
Fixpoint all_points (ranges : list (CRange D)) : option bool :=
  match ranges with
  | [] => Some true
  | r :: ranges => isIN ← FPoint r; if isIN : bool then all_points ranges else Some false
  end.

Definition FConvertsToIn pci : option bool :=
  if (length (m_pdrgprng pci) <=? 1)%nat then Some false else all_points (m_pdrgprng pci).

Fixpoint excluded_meet (pLeftRng : CRange D) (ranges : list (CRange D)) : bool :=
  match ranges with
  | [] => true
  | pRightRng :: ranges =>
      if negb (included (m_eriRight pLeftRng)) && negb (included (m_eriLeft pRightRng)) &&
         FUpperBoundEqualsLowerBound pLeftRng pRightRng
      then excluded_meet pRightRng ranges
      else false
  end.

Definition FConvertsToNotIn pci : bool :=
  match m_pdrgprng pci with
  | pLeftRng :: (pRightRng :: _) as ranges =>
      if is_Some_b (m_pdatumLeft pLeftRng) || is_Some_b (m_pdatumRight (List.last ranges pRightRng)) then false
      else excluded_meet pLeftRng ranges
  | _ => false
  end.

(** [PexprConstructArrayScalar] with [fIn]; the outer [None]: a violated assert, or
    a null pointer that is followed. *)
Definition PexprConstructArrayScalar_in pci (fIn : bool) : option (option (CScalar D)) :=
  let ecmptype := if fIn then EcmptEq else EcmptNEq in
  let earraycmptype := if fIn then EarrcmpAny else EarrcmpAll in
  let ulRngs := if fIn then length (m_pdrgprng pci) else (length (m_pdrgprng pci) - 1)%nat in
  consts ← mapM m_pdatumRight (take ulRngs (m_pdrgprng pci));
  pexpr ← PexprScalarArrayCmp earraycmptype ecmptype consts (m_pcr pci);
  if m_fIncludesNull pci
  then pexpr ← pexpr; Some (Some (PexprDisjunction_two pexpr (PexprIsNull (CScalarIdent (m_pcr pci)))))
  else Some pexpr.

Definition PexprConstructArrayScalar pci : option (option (CScalar D)) :=
  if (length (m_pdrgprng pci) <=? 1)%nat then Some None
  else
    isIN ← FConvertsToIn pci;
    if isIN : bool then PexprConstructArrayScalar_in pci true
    else if FConvertsToNotIn pci then PexprConstructArrayScalar_in pci false
    else Some None.

Definition PexprConstructDisjunctionScalar pci : CScalar D :=
  let pdrgpexpr := map (fun prange => Range_PexprScalar prange (m_pcr pci)) (m_pdrgprng pci) in
  let ident := CScalarIdent (m_pcr pci) in
  if match pdrgpexpr with [e] => FScalarConstTrue e | _ => false end then
    if m_fIncludesNull pci then PexprScalarConstBool true else PexprIsNotNull ident
  else PexprDisjunction (pdrgpexpr ++ (if m_fIncludesNull pci then [PexprIsNull ident] else [])).

Definition PexprConstructScalar pci : option (CScalar D) :=
  if FContradiction pci then Some (PexprScalarConstBool false)
  else
    pexpr ← (if EopttraceArrayConstraints then PexprConstructArrayScalar pci else Some None);
    match pexpr with
    | Some pexpr => Some pexpr
    | None => Some (PexprConstructDisjunctionScalar pci)
    end.

End construction.

(** ** Conjunctions and disjunctions that are simplified *)

Section conj_disj.
Context {D : Type} `{HL : DatumLaws D} `{HE : !Evaluation D}.
Implicit Types (e : CScalar D) (l : list (CScalar D)).

Lemma const_bool_holds v e b : FScalarConstBool e b = true -> holds v e = Some b.
Proof.
  destruct e; try done. unfold holds, holds_row. simpl. destruct (bool_value datum) as [x|] eqn:Hx; [|done].
  intros ->%eqb_prop. unfold value_of. by rewrite (bool_value_IsNull datum b Hx).
Qed.

Definition op_of (fConjunction : bool) : EBoolOperator := if fConjunction then EboolopAnd else EboolopOr.

Lemma bool_op_cons fConjunction t ts :
  bool_op (op_of fConjunction) (t :: ts) = (if fConjunction then and3 else or3) t (bool_op (op_of fConjunction) ts).
Proof. by destruct fConjunction. Qed.

(** What is skipped is neutral, what reduces decides. *)
Lemma skippable_neutral v e fConjunction ts : FSkippable e fConjunction = true ->
  bool_op (op_of fConjunction) (holds v e :: ts) = bool_op (op_of fConjunction) ts.
Proof.
  intros Hs. rewrite bool_op_cons. destruct fConjunction; unfold FSkippable in Hs; simpl in Hs; rewrite ?orb_false_r in Hs;
    rewrite (const_bool_holds v e _ Hs); by destruct (bool_op _ ts) as [[]|].
Qed.

Lemma reducible_decides v e fConjunction ts : FReducible e fConjunction = true ->
  bool_op (op_of fConjunction) (holds v e :: ts) = Some (negb fConjunction).
Proof.
  intros Hs. rewrite bool_op_cons. destruct fConjunction; unfold FReducible in Hs; simpl in Hs; rewrite ?orb_false_r in Hs;
    rewrite (const_bool_holds v e _ Hs); by destruct (bool_op _ ts) as [[]|].
Qed.

Lemma conj_disj_loop_app l fConjunction : forall acc,
  conj_disj_loop l fConjunction acc = app acc <$> conj_disj_loop l fConjunction [].
Proof.
  induction l as [|e l IH]; intros acc; simpl; [by rewrite app_nil_r|].
  destruct (FSkippable e fConjunction); [apply IH|]. destruct (FReducible e fConjunction); [done|].
  rewrite IH, (IH [e]). destruct (conj_disj_loop l fConjunction []) as [final|]; [|done]. simpl. by rewrite <- app_assoc.
Qed.

Lemma conj_disj_loop_holds v fConjunction l :
  bool_op (op_of fConjunction) (map (holds v) l) =
  match conj_disj_loop l fConjunction [] with
  | None => Some (negb fConjunction)
  | Some final => bool_op (op_of fConjunction) (map (holds v) final)
  end.
Proof.
  induction l as [|e l IH]; [done|]. cbn [map conj_disj_loop app].
  destruct (FSkippable e fConjunction) eqn:Hs; [by rewrite skippable_neutral|].
  destruct (FReducible e fConjunction) eqn:Hr; [by apply reducible_decides|].
  rewrite conj_disj_loop_app, bool_op_cons, IH. destruct (conj_disj_loop l fConjunction []) as [final|]; simpl.
  - by rewrite bool_op_cons.
  - by destruct fConjunction, (holds v e) as [[]|].
Qed.

(** The simplified conjunction or disjunction means the same. *)
Lemma PexprConjDisj_holds v fConjunction l :
  holds v (PexprConjDisj l fConjunction) = bool_op (op_of fConjunction) (map (holds v) l).
Proof.
  rewrite conj_disj_loop_holds. unfold PexprConjDisj.
  assert (forall b, holds v (PexprScalarConstBool b) = Some b) as Hconst.
  { intros b. apply const_bool_holds. simpl. rewrite CreateBoolDatum_value. apply eqb_reflx. }
  destruct (conj_disj_loop l fConjunction []) as [[|e [|e2 final]]|].
  - rewrite Hconst. by destruct fConjunction.
  - destruct fConjunction; simpl; by destruct (holds v e) as [[]|].
  - unfold PexprScalarBoolOp. by rewrite holds_bool_op.
  - apply Hconst.
Qed.

(** It is made of the parts. *)
Lemma conj_disj_loop_Forall (P : CScalar D -> Prop) fConjunction l : Forall P l ->
  forall final, conj_disj_loop l fConjunction [] = Some final -> Forall P final.
Proof.
  induction 1 as [|e l He _ IH]; intros final Hf; simpl in Hf; [by injection Hf as <-|].
  destruct (FSkippable e fConjunction); [by apply IH|]. destruct (FReducible e fConjunction); [done|].
  rewrite conj_disj_loop_app in Hf. apply fmap_Some in Hf as (final' & Hf & ->). constructor; [done|by apply IH].
Qed.

End conj_disj.

(** ** The construction and the values *)

#[local] Arguments CRange_Cmp : simpl never.
#[local] Arguments in_range : simpl never.
#[local] Arguments cut_leb : simpl never.

Section describes.
Context {D : Type} `{HL : DatumLaws D} `{HT : !ColumnTypes D} `{HTL : !TypeLaws D} `{HS : !DerivationSettings D}
  `{HE : !Evaluation D} `{HM : !ComparisonMetadata D}.
Implicit Types (this r : CRange D) (c : CColRef) (l : list (CRange D)).

(** Around a column and a constant of its type there are at most binary coercible
    casts. *)
Definition coercible_casts c : Prop := forall cmp_type d, of_type c d ->
  let '(pexprLeft, pexprRight) := ApplyCastsForScCmp cmp_type (CScalarIdent c) (CScalarConst d) in
  ident_column pexprLeft = Some c /\ const_datum pexprRight = Some d.

(** The comparisons of a column with constants of its type, with the casts and
    without, are in an operator family of both sides, or the settings do not ask. *)
Definition operators_in_opfamilies c : Prop := forall cmp_type d, of_type c d ->
  cmp_type <> EcmptIDF -> cmp_type <> EcmptOther ->
  in_opfamily EmdindSentinel (CScalarCmp cmp_type (CScalarIdent c) (CScalarConst d)) (CScalarIdent c) (CScalarConst d) /\
  let '(pexprLeft, pexprRight) := ApplyCastsForScCmp cmp_type (CScalarIdent c) (CScalarConst d) in
  in_opfamily EmdindSentinel (CScalarCmp cmp_type pexprLeft pexprRight) pexprLeft pexprRight.

(** A predicate that compares the column with [d]. *)
Definition compares_with c cmp_type (d : D) (e : CScalar D) : Prop :=
  exact c EmdindSentinel e /\ (forall x, holds (Some x) e = Some (compares cmp_type x d)) /\ holds None e = None.

Section column.
Context (c : CColRef) (Hcasts : coercible_casts c) (Hop : operators_in_opfamilies c).

Lemma CScalarCmp_compares cmp_type d le re : ident_column le = Some c -> const_datum re = Some d -> of_type c d ->
  cmp_type <> EcmptIDF -> cmp_type <> EcmptOther -> in_opfamily EmdindSentinel (CScalarCmp cmp_type le re) le re ->
  compares_with c cmp_type d (CScalarCmp cmp_type le re).
Proof.
  intros Hl Hr Hd H1 H2 Hin. split; [|split].
  - by apply (exact_cmp c EmdindSentinel cmp_type le re d).
  - intros x. unfold holds, holds_row. simpl. rewrite truth_of_truth, (ident_column_eval _ le c Hl), (const_datum_eval _ re c d Hr Hd).
    by destruct cmp_type.
  - unfold holds, holds_row. simpl. by rewrite truth_of_truth, (ident_column_eval _ le c Hl).
Qed.

Lemma PexprScalarCmp_compares cmp_type d : of_type c d -> cmp_type <> EcmptIDF -> cmp_type <> EcmptOther ->
  compares_with c cmp_type d (PexprScalarCmp c d cmp_type).
Proof.
  intros Hd H1 H2. unfold PexprScalarCmp. specialize (Hcasts cmp_type d Hd). destruct (Hop cmp_type d Hd H1 H2) as [_ Hin].
  destruct (ApplyCastsForScCmp cmp_type (CScalarIdent c) (CScalarConst d)) as [le re]. destruct Hcasts as [Hl Hr].
  by apply CScalarCmp_compares.
Qed.

Lemma PexprScalarCmp_op_compares cmp_type d : of_type c d -> cmp_type <> EcmptIDF -> cmp_type <> EcmptOther ->
  compares_with c cmp_type d (PexprScalarCmp_op c d cmp_type).
Proof.
  intros Hd H1 H2. unfold PexprScalarCmp_op. destruct (Hop cmp_type d Hd H1 H2) as [Hin _].
  destruct cmp_type; try done;
    (destruct (FCmpOrCastedCmpExists _ _ _); [by apply PexprScalarCmp_compares|by apply CScalarCmp_compares]).
Qed.

Lemma left_end x d eri :
  compares (if included eri then EcmptGEq else EcmptG) x d = cut_leb (At d (if included eri then 0 else 2)) (At x 1).
Proof.
  destruct eri; simpl included; cbv iota; rewrite <- CRange_Cmp_values by done; unfold in_range, lo, hi; simpl; apply andb_true_r.
Qed.

Lemma right_end x d eri :
  compares (if included eri then EcmptLEq else EcmptL) x d = negb (cut_leb (At d (if included eri then 2 else 0)) (At x 1)).
Proof. destruct eri; simpl included; cbv iota; rewrite <- CRange_Cmp_values by done; unfold in_range, lo, hi; done. Qed.

Lemma left_ends x r :
  match m_pdatumLeft r with Some d => compares (if included (m_eriLeft r) then EcmptGEq else EcmptG) x d | None => true end =
  cut_leb (lo r) (At x 1).
Proof. unfold lo. destruct (m_pdatumLeft r); [apply left_end|done]. Qed.

Lemma right_ends x r :
  match m_pdatumRight r with Some d => compares (if included (m_eriRight r) then EcmptLEq else EcmptL) x d | None => true end =
  negb (cut_leb (hi r) (At x 1)).
Proof. unfold hi. destruct (m_pdatumRight r); [apply right_end|done]. Qed.

(** A range without ends is the constant true. *)
Definition endless r : bool := negb (is_Some_b (m_pdatumLeft r)) && negb (is_Some_b (m_pdatumRight r)).

Lemma exact_PexprConjDisj (l : list (CScalar D)) b : Forall (exact c EmdindSentinel) l -> exact c EmdindSentinel (PexprConjDisj l b).
Proof.
  intros Hl. unfold PexprConjDisj.
  assert (forall x, exact c EmdindSentinel (PexprScalarConstBool x)) as Hconst.
  { intros x. apply exact_const. rewrite CreateBoolDatum_value. by eexists. }
  destruct (conj_disj_loop l b []) as [final|] eqn:Hf; [|apply Hconst].
  pose proof (conj_disj_loop_Forall _ b l Hl final Hf) as Hfinal.
  destruct Hfinal as [|e [|e2 final] He Hfinal]; [apply Hconst|done|].
  destruct b; by constructor.
Qed.

Lemma conjunction_app v (l1 l2 : list (CScalar D)) : bool_op EboolopAnd (map (holds v) (l1 ++ l2)) =
  and3 (bool_op EboolopAnd (map (holds v) l1)) (bool_op EboolopAnd (map (holds v) l2)).
Proof.
  induction l1 as [|e l1 IH]; simpl; [by destruct (foldr _ _ _) as [[]|]|]. simpl in IH. rewrite IH.
  by destruct (holds v e) as [[]|], (foldr and3 _ (map (holds v) l1)) as [[]|], (foldr and3 _ (map (holds v) l2)) as [[]|].
Qed.

(** The conjuncts that come from an end of a range. *)
Lemma PexprScalarCompEnd_spec datum eri incl excl : (forall d, datum = Some d -> of_type c d) ->
  let cmp_type := if included eri then incl else excl in
  cmp_type <> EcmptIDF -> cmp_type <> EcmptOther ->
  let conjuncts := option_list (PexprScalarCompEnd datum eri incl excl c) in
  Forall (exact c EmdindSentinel) conjuncts /\
  (forall x, bool_op EboolopAnd (map (holds (Some x)) conjuncts) =
     Some (match datum with Some d => compares cmp_type x d | None => true end)) /\
  bool_op EboolopAnd (map (holds None) conjuncts) = if is_Some_b datum then None else Some true.
Proof.
  intros Ht cmp_type H1 H2. destruct datum as [d|]; [|by split; [constructor|]]. simpl.
  destruct (PexprScalarCmp_compares cmp_type d) as (He & Hx & Hn); [by apply Ht|done|done|].
  change (if included eri then incl else excl) with cmp_type.
  split; [by constructor|]. split; [|by rewrite Hn]. intros x. rewrite Hx.
  by destruct (compares _ x d).
Qed.

Lemma point_values x a b : pcomp_Equals a b = true ->
  in_range x (MkRange (Some a) EriIncluded (Some b) EriIncluded) = pcomp_Equals x a.
Proof.
  intros Hab. unfold in_range, lo, hi. cbn [m_pdatumLeft m_pdatumRight m_eriLeft m_eriRight].
  rewrite <- left_end, <- right_end. simpl. rewrite IsLessThanOrEqual_or, <- (Equals_left x a b Hab).
  destruct (datum_compare x a) as [(-> & -> & _)|[(-> & -> & _)|(Hl & -> & Hg)]]; [done|by rewrite orb_true_r|].
  rewrite Hl, orb_false_r. simpl. apply not_true_iff_false. intros Hxb. rewrite Equals_sym_b in Hab.
  pose proof (IsLessThan_Equals _ _ _ Hxb Hab). congruence.
Qed.

(** The predicate of a range. *)
Lemma Range_PexprScalar_spec r : range_wf (of_type c) r ->
  exact c EmdindSentinel (Range_PexprScalar r c) /\
  (forall x, holds (Some x) (Range_PexprScalar r c) = Some (in_range x r)) /\
  (endless r = false -> holds None (Range_PexprScalar r c) <> Some true).
Proof.
  intros Hr. unfold Range_PexprScalar. destruct (PexprEquality r c) as [e|] eqn:Heq.
  - unfold PexprEquality in Heq. destruct r as [[a|] [] [b|] []]; simpl in Heq; try done; rewrite ?orb_true_r in Heq; try done.
    destruct (pcomp_Equals a b) eqn:Hab; [|done]. injection Heq as <-.
    destruct (PexprScalarCmp_compares EcmptEq a) as (He & Hx & Hn); [by apply (rw_left_valid _ _ Hr)|done|done|].
    split; [done|]. split; [|by rewrite Hn]. intros x. by rewrite Hx, point_values.
  - clear Heq. unfold PexprConjunction.
    destruct (PexprScalarCompEnd_spec (m_pdatumLeft r) (m_eriLeft r) EcmptGEq EcmptG) as (Hle & Hlx & Hln);
      [apply (rw_left_valid _ _ Hr)|by destruct (m_eriLeft r)..|].
    destruct (PexprScalarCompEnd_spec (m_pdatumRight r) (m_eriRight r) EcmptLEq EcmptL) as (Hre & Hrx & Hrn);
      [apply (rw_right_valid _ _ Hr)|by destruct (m_eriRight r)..|].
    split; [by apply exact_PexprConjDisj, Forall_app|]. split.
    + intros x. rewrite PexprConjDisj_holds. unfold op_of. rewrite conjunction_app, Hlx, Hrx, left_ends, right_ends.
      unfold in_range. by destruct (cut_leb (lo r) _), (cut_leb (hi r) _).
    + intros Hend. rewrite PexprConjDisj_holds. unfold op_of. rewrite conjunction_app, Hln, Hrn. unfold endless in Hend.
      by destruct (is_Some_b (m_pdatumLeft r)), (is_Some_b (m_pdatumRight r)).
Qed.

(** *** Disjunctions of ranges *)

(** A predicate that is true for the values of an interval, and for no others. *)
Definition describes (e : CScalar D) (pci : CConstraintInterval D) : Prop :=
  exact c EmdindSentinel e /\ forall v, of_column c v -> holds v e = Some true <-> in_interval v pci = true.

Lemma wf_endless l r : ranges_wf (of_type c) l -> r ∈ l -> endless r = true -> l = [r].
Proof.
  intros Hl Hin He. unfold endless in He. destruct (m_pdatumLeft r) eqn:Hleft; [done|]. destruct (m_pdatumRight r) eqn:Hright; [done|].
  destruct l as [|p l]; [by apply not_elem_of_nil in Hin|]. apply ranges_wf_cons in Hl as (_ & Hg & _).
  apply elem_of_cons in Hin as [-> |Hin].
  - destruct Hg as [|q l Hg _]; [done|]. unfold gap in Hg. by rewrite (no_right_hi p Hright), PosInf_greatest in Hg.
  - rewrite Forall_forall in Hg. specialize (Hg r Hin). unfold gap in Hg. by rewrite (no_left_lo r Hleft) in Hg.
Qed.

Lemma any_true ts : bool_op EboolopOr ts = Some true <-> Some true ∈ ts.
Proof.
  induction ts as [|t ts IH]; simpl; [split; [done|by intros ?%not_elem_of_nil]|]. simpl in IH.
  rewrite elem_of_cons, <- IH. destruct t as [[]|], (foldr or3 (Some false) ts) as [[]|]; naive_solver.
Qed.

Lemma disjunction_true v (l : list (CScalar D)) :
  holds v (PexprDisjunction l) = Some true <-> exists e, e ∈ l /\ holds v e = Some true.
Proof.
  unfold PexprDisjunction. rewrite PexprConjDisj_holds. unfold op_of. rewrite any_true, list_elem_of_fmap. naive_solver.
Qed.

Lemma is_null_holds v : holds v (PexprIsNull (CScalarIdent c)) = Some (negb (is_Some_b v)).
Proof. unfold holds, holds_row. simpl. rewrite CreateBoolDatum_value. by destruct v. Qed.

(** One of the ranges' predicates is the constant true. *)
Definition one_true (pci : CConstraintInterval D) : bool :=
  match map (fun r => Range_PexprScalar r c) (m_pdrgprng pci) with [e] => FScalarConstTrue e | _ => false end.

Lemma PexprScalarConstBool_holds v b : holds v (PexprScalarConstBool b) = Some b.
Proof. apply const_bool_holds. simpl. rewrite CreateBoolDatum_value. apply eqb_reflx. Qed.

Lemma one_true_describes pci : interval_wf pci -> m_pcr pci = c -> one_true pci = true ->
  describes (if m_fIncludesNull pci then PexprScalarConstBool true else PexprIsNotNull (CScalarIdent c)) pci.
Proof.
  intros Hwf Hc Hone. unfold interval_wf in Hwf. rewrite Hc in Hwf. unfold one_true in Hone.
  destruct (m_pdrgprng pci) as [|r [|]] eqn:Hl; try done. simpl in Hone.
  apply ranges_wf_cons in Hwf as (Hr & _). destruct (Range_PexprScalar_spec r Hr) as (_ & Hx & _).
  assert (forall x, in_range x r = true) as Hin.
  { intros x. pose proof (const_bool_holds (Some x) _ true Hone) as Ht. rewrite Hx in Ht. by injection Ht. }
  destruct (m_fIncludesNull pci) eqn:Hnull.
  - split; [apply exact_const; rewrite CreateBoolDatum_value; by eexists|]. intros v _.
    rewrite PexprScalarConstBool_holds. split; [|done]. intros _. destruct v as [x|]; [|done]. simpl. rewrite Hl. simpl. by rewrite Hin.
  - split; [by apply exact_not, exact_null|]. intros v _. unfold PexprIsNotNull, PexprNegate, PexprScalarBoolOp.
    rewrite holds_bool_op. simpl. rewrite is_null_holds. destruct v as [x|]; simpl; [|by rewrite Hnull].
    rewrite Hl. simpl. by rewrite Hin.
Qed.

Lemma ranges_true x l : Forall (range_wf (of_type c)) l ->
  (exists e, e ∈ map (fun r => Range_PexprScalar r c) l /\ holds (Some x) e = Some true) <-> in_ranges x l = true.
Proof.
  intros Hl. induction Hl as [|r l Hr _ IH]; simpl; [split; [by intros (e & He%not_elem_of_nil & _)|done]|].
  rewrite orb_true_iff, <- IH. destruct (Range_PexprScalar_spec r Hr) as (_ & Hx & _). specialize (Hx x). split.
  - intros (e & [-> |He]%elem_of_cons & Ht); [left; rewrite Hx in Ht; by injection Ht|right; by exists e].
  - intros [Ht|(e & He & Ht)]; [exists (Range_PexprScalar r c)|exists e]; rewrite elem_of_cons; split; auto. by rewrite Hx, Ht.
Qed.

Lemma ranges_not_null pci e : ranges_wf (of_type c) (m_pdrgprng pci) -> one_true pci = false ->
  e ∈ map (fun r => Range_PexprScalar r c) (m_pdrgprng pci) -> holds None e <> Some true.
Proof.
  intros Hwf Hone He. apply list_elem_of_fmap in He as (r & -> & Hin).
  assert (range_wf (of_type c) r) as Hr by (by eapply Forall_forall; [apply Hwf|]).
  destruct (Range_PexprScalar_spec r Hr) as (_ & _ & Hn). destruct (endless r) eqn:Hend; [|by apply Hn].
  unfold one_true in Hone. rewrite (wf_endless _ r Hwf Hin Hend) in Hone. simpl in Hone.
  exfalso. unfold endless in Hend. unfold Range_PexprScalar, PexprEquality in Hone.
  destruct (m_pdatumLeft r), (m_pdatumRight r); try done. simpl in Hone.
  unfold FScalarConstTrue in Hone. simpl in Hone. by rewrite CreateBoolDatum_value in Hone.
Qed.

Lemma PexprConstructDisjunctionScalar_describes pci : interval_wf pci -> m_pcr pci = c ->
  describes (PexprConstructDisjunctionScalar pci) pci.
Proof.
  intros Hwf Hc. pose proof Hwf as Hl. unfold interval_wf in Hl. unfold PexprConstructDisjunctionScalar. rewrite Hc in *.
  fold (one_true pci). destruct (one_true pci) eqn:Hone; [by apply one_true_describes|].
  assert (Forall (range_wf (of_type c)) (m_pdrgprng pci)) as Hall by apply Hl. split.
  - apply exact_PexprConjDisj, Forall_app. split; [|destruct (m_fIncludesNull pci); [by repeat constructor|constructor]].
    apply Forall_map. eapply Forall_impl; [exact Hall|]. intros r. apply Range_PexprScalar_spec.
  - intros v _. rewrite disjunction_true. destruct v as [x|]; unfold in_interval.
    + rewrite <- ranges_true by done. split.
      * intros (e & [He|He]%elem_of_app & Ht); [by exists e|].
        destruct (m_fIncludesNull pci); [|by apply not_elem_of_nil in He]. apply list_elem_of_singleton in He as ->.
        by rewrite is_null_holds in Ht.
      * intros (e & He & Ht). exists e. rewrite elem_of_app. auto.
    + split.
      * intros (e & [He|He]%elem_of_app & Ht); [by apply (ranges_not_null pci e) in Ht|].
        by destruct (m_fIncludesNull pci); [|apply not_elem_of_nil in He].
      * intros Hnull. rewrite Hnull. exists (PexprIsNull (CScalarIdent c)). rewrite is_null_holds.
        split; [|done]. apply elem_of_app. right. by apply list_elem_of_singleton.
Qed.

(** *** Lists of constants *)

(** The array of a column can be compared with [=] and [<>], so that no null pointer
    is put under a disjunction with [IS NULL]. *)
Definition arrays_valid : Prop := array_comparison_valid c EcmptEq = true /\ array_comparison_valid c EcmptNEq = true.

Lemma array_constants_map (consts : list D) : consts <> [] ->
  array_constants (CScalarArray (map CScalarConst consts) []) = Some consts.
Proof.
  assert (mapM (fun e => match e with CScalarConst datum => Some datum | _ => None end) (map CScalarConst consts) = Some consts)
    as Hm by (induction consts as [|d consts IH]; [done|]; simpl; by rewrite IH).
  by destruct consts.
Qed.

Lemma FScalarConstArray_map (consts : list D) : FScalarConstArray (CScalarArray (map CScalarConst consts) []) = true.
Proof. by induction consts. Qed.

(** What [IN] or [NOT IN] says of a value. *)
Definition in_list (fIn : bool) (x : D) (consts : list D) : bool :=
  if fIn then equals_some x consts else negb (equals_some x consts).

Lemma PexprScalarArrayCmp_spec fIn consts : EopttraceArrayConstraints = true ->
  array_comparison_valid c (if fIn : bool then EcmptEq else EcmptNEq) = true ->
  consts <> [] -> Forall (of_type c) consts ->
  exists e, PexprScalarArrayCmp (if fIn : bool then EarrcmpAny else EarrcmpAll) (if fIn then EcmptEq else EcmptNEq) consts c =
              Some (Some e) /\
    exact c EmdindSentinel e /\ PdrgpexprDisjuncts e = [e] /\
    (forall x, holds (Some x) e = Some (in_list fIn x consts)) /\ holds None e = None.
Proof.
  intros Hflag Hvalid Hne Ht. unfold PexprScalarArrayCmp. rewrite Hvalid.
  destruct consts as [|d [|d2 consts]]; [done| |]; simpl.
  - apply Forall_cons in Ht as [Hd _].
    destruct (PexprScalarCmp_op_compares (if fIn then EcmptEq else EcmptNEq) d) as (He & Hx & Hn); [done|by destruct fIn..|].
    eexists. split; [done|]. split; [done|]. split.
    + unfold PexprScalarCmp_op, PexprScalarCmp.
      by destruct fIn; (destruct (FCmpOrCastedCmpExists _ _ _); [destruct (ApplyCastsForScCmp _ _ _)|]).
    + split; [|done]. intros x. rewrite Hx. destruct fIn; simpl; by rewrite orb_false_r.
  - set (consts' := d :: d2 :: consts) in *. eexists. split; [done|].
    change (CScalarConst d :: CScalarConst d2 :: map CScalarConst consts) with (map CScalarConst consts').
    assert (array_constants (CScalarArray (map CScalarConst consts') []) = Some consts') as Hconsts by by apply array_constants_map.
    assert (Forall (fun d => IsNull d = false) consts') as Hnull.
    { eapply Forall_impl; [exact Ht|]. intros k Hk. by apply (of_type_IsNull c). }
    assert (forall v, holds v (CScalarArrayCmp (if fIn then EarrcmpAny else EarrcmpAll) (if fIn then EcmptEq else EcmptNEq)
              (CScalarIdent c) (CScalarArray (map CScalarConst consts') [])) =
            compare_array (if fIn then EarrcmpAny else EarrcmpAll) (if fIn then EcmptEq else EcmptNEq) v (map value_of consts'))
      as Hholds.
    { intros v. by apply (holds_array c). }
    split; [|split; [done|split]].
    + apply (exact_array c _ _ _ _ _ consts'); try done; [destruct fIn; auto|].
      apply orb_true_iff. left. exact (FScalarConstArray_map consts').
    + intros x. rewrite Hholds. destruct fIn; [by apply any_equals|by apply all_differ].
    + by rewrite Hholds, compare_array_null.
Qed.

Lemma PexprScalarArrayCmp_invalid fIn consts : consts <> [] ->
  array_comparison_valid c (if fIn : bool then EcmptEq else EcmptNEq) = false ->
  PexprScalarArrayCmp (if fIn then EarrcmpAny else EarrcmpAll) (if fIn then EcmptEq else EcmptNEq) consts c = Some None.
Proof. intros Hne Hno. unfold PexprScalarArrayCmp. rewrite Hno. by destruct consts. Qed.

(** The array predicate, with [IS NULL] when null is in the interval; the null
    pointer when the comparison cannot be built. *)
Lemma PexprConstructArrayScalar_in_describes pci fIn consts : EopttraceArrayConstraints = true ->
  arrays_valid \/ m_fIncludesNull pci = false ->
  m_pcr pci = c -> consts <> [] -> Forall (of_type c) consts ->
  mapM m_pdatumRight (take (if fIn : bool then length (m_pdrgprng pci) else (length (m_pdrgprng pci) - 1)%nat) (m_pdrgprng pci)) = Some consts ->
  (forall x, in_ranges x (m_pdrgprng pci) = in_list fIn x consts) ->
  exists o, PexprConstructArrayScalar_in pci fIn = Some o /\ forall e, o = Some e -> describes e pci.
Proof.
  intros Hflag Hvalid Hc Hne Ht Hm Hv. unfold PexprConstructArrayScalar_in. rewrite Hm, Hc. simpl.
  destruct (array_comparison_valid c (if fIn then EcmptEq else EcmptNEq)) eqn:Harray.
  2: { rewrite (PexprScalarArrayCmp_invalid fIn consts Hne Harray). simpl.
       destruct Hvalid as [[H1 H2]|Hnull]; [by destruct fIn; congruence|]. rewrite Hnull. by exists None. }
  destruct (PexprScalarArrayCmp_spec fIn consts Hflag Harray Hne Ht) as (e & -> & He & Hd & Hx & Hn). simpl.
  destruct (m_fIncludesNull pci) eqn:Hnull.
  - eexists. split; [done|]. intros ? [= <-]. unfold PexprDisjunction_two. rewrite Hd.
    change ([e] ++ PdrgpexprDisjuncts (PexprIsNull (CScalarIdent c))) with [e; PexprIsNull (CScalarIdent c)]. split.
    + apply exact_PexprConjDisj. by repeat constructor.
    + intros v _. rewrite PexprConjDisj_holds. unfold op_of. simpl. rewrite is_null_holds.
      destruct v as [x|]; simpl; [rewrite Hx, Hv; by destruct (in_list fIn x consts)|by rewrite Hn].
  - eexists. split; [done|]. intros ? [= <-]. split; [done|]. intros [x|] _; simpl.
    + rewrite Hx, Hv. by destruct (in_list fIn x consts).
    + by rewrite Hn, Hnull.
Qed.

(** Points are an [IN] list. *)
Lemma FPoint_spec r : range_wf (of_type c) r -> exists b, FPoint r = Some b /\
  (b = true -> exists d, m_pdatumRight r = Some d /\ of_type c d /\ forall x, in_range x r = pcomp_Equals x d).
Proof.
  intros Hr. unfold FPoint. destruct r as [left el right eu]. simpl.
  destruct (included el && included eu) eqn:Hinc; [|by exists false].
  apply andb_prop in Hinc as [Hel%bool_decide_eq_true Heu%bool_decide_eq_true]. subst.
  destruct right as [b|]; [|by pose proof (rw_right _ _ Hr eq_refl)].
  destruct left as [a|]; [|by pose proof (rw_left _ _ Hr eq_refl)]. simpl.
  eexists. split; [done|]. intros Hba. exists b. split; [done|]. split; [by apply (rw_right_valid _ _ Hr)|]. intros x.
  rewrite Equals_sym_b in Hba. by rewrite point_values, (Equals_left x a b Hba).
Qed.

Lemma all_points_spec l : Forall (range_wf (of_type c)) l -> exists b, all_points l = Some b /\
  (b = true -> exists consts, mapM m_pdatumRight l = Some consts /\ Forall (of_type c) consts /\
     forall x, in_ranges x l = equals_some x consts).
Proof.
  induction 1 as [|r l Hr _ (b & Hb & IH)]; simpl.
  { exists true. split; [done|]. intros _. exists []. by split; [|split; [constructor|]]. }
  destruct (FPoint_spec r Hr) as (b' & -> & Hp). simpl. destruct b'; [|by exists false].
  exists b. split; [done|]. intros Hbt. destruct (Hp eq_refl) as (d & -> & Hd & Hx), (IH Hbt) as (consts & -> & Ht & Hv). simpl.
  exists (d :: consts). split; [done|]. split; [by constructor|]. intros x. by rewrite Hx, Hv.
Qed.

(** Two ranges around a constant [d] leave out its value. *)
Lemma left_out_value r x d d' consts : hi r = At d 0 -> pcomp_Equals d d' = true -> cut_leb (At d 0) (lo r) = false ->
  Forall (strictly d) consts ->
  in_range x r || (cut_leb (At d' 2) (At x 1) && negb (equals_some x consts)) =
  cut_leb (lo r) (At x 1) && negb (equals_some x (d :: consts)).
Proof.
  intros Hhi Heq Hproper Hc. unfold in_range. rewrite Hhi. simpl.
  assert (forall k, cut_leb (At d' 2) (At k 1) = pcomp_IsLessThan d k) as ->.
  { intros k. unfold cut_leb. rewrite andb_false_r, orb_false_r. apply bool_iff_eq. split; intros Hk.
    - by apply (Equals_IsLessThan d d').
    - rewrite Equals_sym_b in Heq. by apply (Equals_IsLessThan d' d). }
  assert (cut_leb (At d 0) (At x 1) = pcomp_IsLessThan d x || pcomp_Equals d x) as Hdx by (unfold cut_leb; by rewrite andb_true_r).
  rewrite Hdx. rewrite (Equals_sym_b d x).
  destruct (datum_compare x d) as [(Hl & -> & ->)|[(Hl & -> & ->)|(Hl & He & Hg)]]; simpl.
  - by rewrite (equals_none_below x d consts Hl Hc), orb_false_r.
  - by rewrite !andb_false_r.
  - rewrite Hg, He in *. simpl in *. assert (cut_leb (lo r) (At x 1) = true) as -> by cut_lia. done.
Qed.

Lemma last_default {A} (x y z : A) (l : list A) : List.last (x :: l) y = List.last (x :: l) z.
Proof. revert x. induction l as [|w l IH]; intros x; [done|]. apply IH. Qed.

(** Ranges that meet at left out constants are a [NOT IN] list. *)
Lemma excluded_meet_spec l : forall r, ranges_wf (of_type c) (r :: l) -> excluded_meet r l = true ->
  m_pdatumRight (List.last (r :: l) r) = None ->
  exists consts, mapM m_pdatumRight (take (length l) (r :: l)) = Some consts /\ length consts = length l /\
    Forall (fun d => of_type c d /\ cut_leb (lo r) (At d 0) = true) consts /\
    forall x, in_ranges x (r :: l) = cut_leb (lo r) (At x 1) && negb (equals_some x consts).
Proof.
  induction l as [|p l IH]; intros r Hwf Hmeet Hlast.
  { simpl in Hlast. exists []. do 2 (split; [done|]). split; [constructor|]. intros x. simpl. rewrite orb_false_r.
    unfold in_range. by rewrite (no_right_hi r Hlast). }
  cbn [excluded_meet] in Hmeet.
  destruct (negb (included (m_eriRight r)) && negb (included (m_eriLeft p)) && FUpperBoundEqualsLowerBound r p) eqn:Hrp; [|done].
  apply andb_prop in Hrp as [[Hir Hip]%andb_prop Heq]. apply negb_true_iff in Hir, Hip.
  apply ranges_wf_cons in Hwf as (Hr & Hg & Hwf). apply Forall_cons in Hg as [Hg _]. unfold gap in Hg.
  destruct (IH p Hwf Hmeet) as (consts & Hm & Hlen & Hc & Hv).
  { by rewrite (last_default p p r). }
  unfold FUpperBoundEqualsLowerBound in Heq.
  destruct (m_pdatumLeft p) as [d'|] eqn:Hp; [|by rewrite (no_left_lo p Hp) in Hg].
  destruct (m_pdatumRight r) as [d|] eqn:Hd; [|done].
  assert (hi r = At d 0) as Hhi by (unfold hi; by rewrite Hd, Hir).
  assert (lo p = At d' 2) as Hlo by (unfold lo; by rewrite Hp, Hip).
  assert (cut_leb (At d 2) (At d' 2) = true) as Hdd by (unfold cut_leb; by rewrite Heq, orb_true_r).
  assert (cut_leb (At d 0) (At d 2) = true) as Hd02 by (unfold cut_leb; by rewrite Equals_refl_b, orb_true_r).
  pose proof (rw_proper _ _ Hr) as Hproper. rewrite Hhi in *. rewrite Hlo in *.
  exists (d :: consts). split; [|split; [simpl; lia|split]].
  - simpl. rewrite Hd. simpl. simpl in Hm. by rewrite Hm.
  - constructor; [split; [by apply (rw_right_valid _ _ Hr)|cut_lia]|].
    eapply Forall_impl; [exact Hc|]. intros k [Hk Hdk]. split; [done|]. cut_lia.
  - intros x. change (in_ranges x (r :: p :: l)) with (in_range x r || in_ranges x (p :: l)). rewrite Hv.
    apply (left_out_value r x d d' consts Hhi Heq Hproper).
    eapply Forall_impl; [exact Hc|]. intros k [_ Hk]. assert (cut_leb (At d 2) (At k 0) = true) as Hdk by cut_lia.
    unfold cut_leb in Hdk. by rewrite andb_false_r, orb_false_r in Hdk.
Qed.

Lemma PexprConstructArrayScalar_describes pci : EopttraceArrayConstraints = true ->
  arrays_valid \/ m_fIncludesNull pci = false ->
  interval_wf pci -> m_pcr pci = c ->
  exists o, PexprConstructArrayScalar pci = Some o /\ forall e, o = Some e -> describes e pci.
Proof.
  intros Hflag Hvalid Hwf Hc. unfold interval_wf in Hwf. rewrite Hc in Hwf. unfold PexprConstructArrayScalar, FConvertsToIn, FConvertsToNotIn.
  destruct (m_pdrgprng pci) as [|first [|second l]] eqn:Hl; [by exists None|by exists None|]. cbn [length Nat.leb].
  assert (Forall (range_wf (of_type c)) (first :: second :: l)) as Hall by apply Hwf.
  destruct (all_points_spec _ Hall) as ([] & -> & Hin); cbn [mbind option_bind].
  - destruct (Hin eq_refl) as (consts & Hm & Ht & Hv).
    apply (PexprConstructArrayScalar_in_describes pci true consts); try done.
    + intros ->. apply mapM_Some_1 in Hm. by inversion Hm.
    + by rewrite Hl, firstn_all.
    + by rewrite Hl.
  - destruct (is_Some_b (m_pdatumLeft first) || is_Some_b (m_pdatumRight (List.last (second :: l) second))) eqn:Hends;
      [by exists None|].
    apply orb_false_iff in Hends as [Hleft Hlast].
    destruct (excluded_meet first (second :: l)) eqn:Hmeet; [|by exists None].
    destruct (excluded_meet_spec (second :: l) first Hwf Hmeet) as (consts & Hm & Hlen & Hcs & Hv).
    { change (m_pdatumRight (List.last (second :: l) first) = None). rewrite (last_default second first second).
      by destruct (m_pdatumRight _). }
    apply (PexprConstructArrayScalar_in_describes pci false consts); try done.
    + by intros ->.
    + eapply Forall_impl; [exact Hcs|]. by intros k [].
    + rewrite Hl. simpl length. exact Hm.
    + intros x. rewrite Hl, Hv. assert (lo first = NegInf) as -> by (unfold lo; by destruct (m_pdatumLeft first)). done.
Qed.

Lemma PexprConstructScalar_describes pci :
  EopttraceArrayConstraints = false \/ arrays_valid \/ m_fIncludesNull pci = false ->
  interval_wf pci -> m_pcr pci = c -> exists e, PexprConstructScalar pci = Some e /\ describes e pci.
Proof.
  intros Harrays Hwf Hc. unfold PexprConstructScalar. destruct (FContradiction pci) eqn:Hf.
  { exists (PexprScalarConstBool false). split; [done|]. split; [apply exact_const; rewrite CreateBoolDatum_value; by eexists|].
    intros v Hv. rewrite PexprScalarConstBool_holds. rewrite <- Hc in Hv. by rewrite (FContradiction_sound pci Hwf Hf v Hv). }
  assert (exists o, (if EopttraceArrayConstraints then PexprConstructArrayScalar pci else Some None) = Some o /\
    forall e, o = Some e -> describes e pci) as ([e|] & -> & Hr).
  { destruct EopttraceArrayConstraints eqn:Hflag; [|by exists None]. destruct Harrays as [|Harrays]; [done|].
    by apply PexprConstructArrayScalar_describes. }
  - simpl. exists e. split; [done|]. by apply Hr.
  - simpl. eexists. split; [done|]. by apply PexprConstructDisjunctionScalar_describes.
Qed.

End column.
End describes.

(** What is constructed does not depend on the operator families: they matter to the
    derivation only. *)
Section no_opfamilies.
Context {D : Type} `{HL : DatumLaws D} `{HT : !ColumnTypes D} `{HTL : !TypeLaws D} `{HS : !DerivationSettings D}
  `{HE : !Evaluation D} `{HM : !ComparisonMetadata D}.
Implicit Types (pci : CConstraintInterval D).

Definition without_opfamilies : DerivationSettings D := {|
  EopttraceArrayConstraints := EopttraceArrayConstraints;
  EopttraceConsiderOpfamiliesForDistribution := false;
  FOpInOpfamily := FOpInOpfamily;
|}.

Lemma without_opfamilies_operators c : @operators_in_opfamilies D _ _ without_opfamilies _ c.
Proof. intros cmp_type d _ _ _. split; [by left|]. destruct (ApplyCastsForScCmp _ _ _). by left. Qed.

Lemma PexprConstructScalar_true pci : coercible_casts (m_pcr pci) ->
  EopttraceArrayConstraints = false \/ arrays_valid (m_pcr pci) \/ m_fIncludesNull pci = false -> interval_wf pci ->
  exists e, PexprConstructScalar pci = Some e /\
    forall v, of_column (m_pcr pci) v -> holds v e = Some true <-> in_interval v pci = true.
Proof.
  intros Hcasts Harrays Hwf.
  destruct (@PexprConstructScalar_describes D _ _ _ _ without_opfamilies _ _ (m_pcr pci) Hcasts
    (without_opfamilies_operators _) pci Harrays Hwf eq_refl) as (e & He & _ & Hv).
  by exists e.
Qed.

End no_opfamilies.

(** ** Properties *)

(** C6: when the casts around a comparison of the column with its constants are at
    most binary coercible, and array comparisons are off or can be built or null
    is not in the interval, a predicate is constructed for an interval (equalities,
    comparisons and conjunctions for its ranges, an IN or NOT IN list where the
    ranges have that shape, IS NULL for null, a constant where the interval is
    empty or holds everything), and it is true for the values of the interval and
    for no others; when the operators of its comparisons are moreover in the
    operator families the settings ask for, the interval derived from it again
    holds the same values. *)
Theorem PexprScalar_roundtrip {D : Type} `{HL : DatumLaws D} `{HT : !ColumnTypes D} `{HTL : !TypeLaws D}
    `{HS : !DerivationSettings D} `{HE : !Evaluation D} `{HM : !ComparisonMetadata D} (pci : CConstraintInterval D) :
  interval_wf pci -> colref_constrainable (m_pcr pci) = true -> coercible_casts (m_pcr pci) ->
  EopttraceArrayConstraints = false \/ arrays_valid (m_pcr pci) \/ m_fIncludesNull pci = false ->
  exists e, PexprConstructScalar pci = Some e /\
    (forall v, of_column (m_pcr pci) v -> holds v e = Some true <-> in_interval v pci = true) /\
    (operators_in_opfamilies (m_pcr pci) ->
     exists pci', PciIntervalFromScalarExpr e (m_pcr pci) false EmdindSentinel = Some (Some pci') /\
       m_pcr pci' = m_pcr pci /\ interval_wf pci' /\
       forall v, of_column (m_pcr pci) v -> in_interval v pci' = in_interval v pci).
Proof.
  intros Hwf Hs Hcasts Harrays. destruct (PexprConstructScalar_true pci Hcasts Harrays Hwf) as (e & He & Hv).
  exists e. do 2 (split; [done|]). intros Hop.
  destruct (PexprConstructScalar_describes (m_pcr pci) Hcasts Hop pci Harrays Hwf eq_refl) as (e' & He' & Hexact & _).
  rewrite He in He'. injection He' as <-.
  destruct (exact_derives (m_pcr pci) e Hs false EmdindSentinel Hexact) as (pci' & Hd & Hc & Hwf' & Hin).
  exists pci'. do 3 (split; [done|]). intros v Hcol. apply bool_iff_eq. rewrite Hin, <- Hv by done.
  unfold accepts, qualifies. by destruct (holds v e) as [[]|].
Qed.

(** ** Instances *)

Import Numbers.

(** The settings the program runs with: array constraints and operator families.
    An operator is in the families of the types of columns, constants and casts,
    and of nothing else. *)
#[local] Instance array_settings : DerivationSettings datum := {|
  EopttraceArrayConstraints := true;
  EopttraceConsiderOpfamiliesForDistribution := true;
  FOpInOpfamily pexprScalar _ _ := match pexprScalar with CScalarIdent _ | CScalarConst _ | CScalarCast _ _ => true | _ => false end;
|}.
#[local] Instance null_functions : Evaluation datum := {|
  cast_value v := v;
  other_value _ _ := None;
  cmp_other _ _ := None;
  other_array _ _ := [];
|}.

(** Every comparison exists; constants are compared under a cast that is binary
    coercible. *)
#[local] Instance metadata : ComparisonMetadata datum := {|
  ApplyCastsForScCmp _ pexprLeft pexprRight := (pexprLeft, CScalarCast true pexprRight);
  FCmpOrCastedCmpExists _ _ _ := true;
  array_comparison_valid _ _ := true;
|}.

(** [a NOT IN (1, 3)], with null. *)
Definition not_one_or_three : CConstraintInterval datum :=
  MkInterval a [CRange_Cmp EcmptL (DNum 1); MkRange (Some (DNum 1)) EriExcluded (Some (DNum 3)) EriExcluded;
                CRange_Cmp EcmptG (DNum 3)] true.

Lemma not_one_or_three_wf : interval_wf not_one_or_three.
Proof.
  apply ranges_wf_cons. split; [by apply CRange_Cmp_wf|]. split; [by repeat constructor|].
  apply ranges_wf_cons. split.
  { split; try done; intros d [= <-]; done. }
  split; [by repeat constructor|]. apply ranges_wf_cons. split; [by apply CRange_Cmp_wf|]. split; [constructor|apply ranges_wf_nil].
Qed.

Example not_in_scalar : PexprConstructScalar not_one_or_three =
  Some (CScalarBoolOp EboolopOr
    [CScalarArrayCmp EarrcmpAll EcmptNEq (CScalarIdent a) (CScalarArray [CScalarConst (DNum 1); CScalarConst (DNum 3)] []);
     CScalarNullTest (CScalarIdent a)]).
Proof. vm_compute. done. Qed.

Example disjunction_scalar : PexprConstructScalar one_or_large =
  Some (CScalarBoolOp EboolopOr
    [CScalarCmp EcmptEq (CScalarIdent a) (CScalarCast true (CScalarConst (DNum 1)));
     CScalarCmp EcmptG (CScalarIdent a) (CScalarCast true (CScalarConst (DNum 3)))]).
Proof. vm_compute. done. Qed.

Lemma PexprScalar_roundtrip_witness :
  exists e, PexprConstructScalar not_one_or_three = Some e /\
    (forall v, of_column a v -> holds v e = Some true <-> in_interval v not_one_or_three = true) /\
    exists pci', PciIntervalFromScalarExpr e a false EmdindSentinel = Some (Some pci') /\
      m_pcr pci' = a /\ interval_wf pci' /\
      forall v, of_column a v -> in_interval v pci' = in_interval v not_one_or_three.
Proof.
  destruct (PexprScalar_roundtrip not_one_or_three) as (e & He & Hv & Hback);
    [exact not_one_or_three_wf|reflexivity|split; reflexivity|right; left; split; reflexivity|].
  exists e. split; [exact He|]. split; [exact Hv|]. apply Hback.
  intros cmp_type d Hd H1 H2. split; right; split; reflexivity.
Defined.
